(* ===== verification/_CoqProject ===== *)
-Q . S2P
Prelude.v
Order.v
Bytes.v
Wire.v
BTree.v
Text.v
Bencode.v
Metainfo.v
Message.v
Handshake.v
Identity.v
Extended.v
UtMetadata.v
MpegTs.v
TsTables.v
TsGate.v
Scheduler.v
Store.v
Transport.v
LiveCodec.v
LiveWindow.v
Net.v
PeerExchange.v
Tracker.v
LiveAuth.v
Chunker.v
Reassembly.v
Pipeline.v
PeerPolicy.v
Candidates.v
WarmPeers.v
OutputPath.v
OutputClock.v
Continuity.v
ContinuityInv.v
PoolActor.v
Session.v
Drain.v
Seed.v
Registry.v
Vod.v
VodCoordinator.v
VodRange.v
PeerSession.v
Resolve.v
MetadataFetch.v
Playback.v
Dht.v
Audio.v
Hls.v
StartupBuffer.v
Lifecycle.v
Manager.v
ManagerAdmission.v
Leases.v
RtmpTs.v
Selectors.v
