(* ===== verification/Prelude.v ===== *)
(** * Outpace: a live streaming engine, verified

    Outpace is a Rust implementation of the Acestream live streaming path.  A broadcaster cuts an
    MPEG transport stream into signed pieces; peers exchange the chunks of those pieces over a
    BitTorrent-like protocol.  A receiver resolves a content id to a descriptor, finds peers, asks
    them for the pieces of the live window, reassembles and authenticates what arrives, keeps it
    in a bounded store to serve others, re-aligns it to transport packets and hands it to players
    from the first decodable picture on.  The engine above it shares one session per stream
    between viewers, buffers its start, cuts it into HLS segments and grants playback leases; files
    are downloaded by range.  This library models the parts that decide what the program does, as
    executable functions and steps, and proves them correct.

    ** How the code is modelled

    A [u8] slice is a list of [byte]; a [u64], [u32], [u16] or [usize] value is an [N] whose
    wrap-around, saturation or checked overflow is written out where the source has it
    ([u64_add], [saturating_add], [checked_add] below); an [i64] is a [Z]; a position of a
    buffer is a [nat]; a [String] is its UTF-8 bytes.  A fallible function returns
    [result WireError _] (or the crate's own error); a method on [&mut self] returns the new
    state, also on its error branches; a panic is an outcome of its own, so that its absence is a
    theorem.  A [BTreeMap] or [HashMap] is a [gmap] with ordered views ([Order], [BTree]), except a
    bencode dictionary, which is a sorted association list because its order is its encoding.

    Cryptography (SHA-1, SHA-256, RSA, Ed25519, AES-CBC) comes from third-party crates and is an
    interface, a class of operations with a class of the laws the crates document; each interface
    has a toy instance on which the witnesses run.  Clocks, random bytes and what a socket, a peer,
    a provider, a store or a consumer does are arguments or events, universally quantified.

    Concurrency: what the source does between two points where a task can be suspended is one
    step; a component with several tasks is a step function over an event type and its theorems
    hold for every sequence of events, that is for every interleaving.  A lock held across
    a suspension is part of the state ([Manager.m_fin], [Manager.m_locks]); a lock that is not is the
    atomicity of the step.

    Loops that are not structural take fuel.  The parsers' fuel is linear in the buffer and
    the theorems show that more changes nothing ([Bencode.parse_terminates],
    [Metainfo.metainfo_parser_answers]); the drain, eviction, re-aligner, gate, segment and
    prefix loops take the size of what they consume, which every turn decreases; for the
    loops that the source can really run forever (a chunker of zero chunk length, a request scan at
    the top of the piece numbering, a target duration of zero) the model returns a value of
    its own and the theorems prove the result under the documented configuration.

    ** The files

    Foundations.
    - [Prelude], [Order], [Bytes], [Wire], [BTree], [Text], [Net]: the result monad, machine
      integers, orders, slices, big-endian and decimal integers, UTF-8, the wire error, ordered map
      views, addresses.

    The wire ([ace-wire/src], [ace-tracker/src]).
    - [Bencode], [Metainfo], [Transport]: values and their canonical encoding, the strict metainfo
      decoder ([metainfo.rs], [protection.rs]), descriptors with their encryption and identity
      ([transport.rs], [infohash.rs], [disk_envelope.rs]).  Round trip, termination, agreement of the
      two parsers, the infohash as the digest of the original bytes.
    - [Message], [Handshake], [Extended], [Identity], [UtMetadata], [PeerExchange], [Tracker]: the
      peer protocol and the tracker packets.  Losslessness of the codecs, widths and bounds of
      whatever is decoded.
    - [LiveCodec], [LiveWindow], [LiveAuth]: live payloads, windows and request picker, signatures.
    - [Chunker], [Reassembly], [Pipeline]: the two ends of the live path and their composition.
      Under any order, duplication and interleaving of deliveries the receiver has a prefix of
      what the broadcaster pushed, and all of it once every chunk was delivered inside the
      accept window; nothing
      unauthenticated leaves the reassembler and its memory is bounded.

    The swarm ([ace-swarm/src], [ace-peer/src]).
    - [Scheduler], [Store] (memory backend), [PeerPolicy]: the request scan is sound, greedy and
      within budget; the store's accounts are exact; a private peer setting fails closed.
    - [Candidates], [WarmPeers], [OutputPath], [OutputClock], [Continuity], [ContinuityInv],
      [PoolActor], [Session], [Drain] ([live_session/*]): the live session as a state machine over
      its wake-ups.  [Continuity] is the cursor with its requests, publications and output,
      [PoolActor] the peers, refills and queues around it, [Session] the theorems over whole
      runs: no panic, ordered and verified delivery, closeness to the live edge; [Drain] that the
      retained pieces are output when the pool has ended; [OutputPath] that every loss is marked.
    - [Seed], [Registry] ([seed.rs], [seed/protocol.rs], [listen.rs]): choking and serving, the
      registry of stores with leases, rendezvous and aliases.
    - [Vod], [VodCoordinator], [VodRange] ([vod.rs], [vod/coordinator.rs],
      [ace-engine/src/ace_provider/vod.rs], [ace-engine/src/http/vod.rs]): the download of files by
      four concurrent workers, verified, bounded, and successful when one peer is good; the
      bytes of a range request, which are the file's unless a second preimage of a piece was
      downloaded.
    - [PeerSession], [Resolve], [MetadataFetch], [Playback] ([ace-peer/src/session.rs],
      [resolve.rs], [resolver.rs], [types.rs]): handshakes and framing over an arbitrary division of
      the bytes, descriptors to streams, the descriptor fetched from a peer, and the composition from
      a descriptor to a served range.

    - [Dht] ([dht.rs]): the lookup of peers in the distributed hash table, over every sequence of
      datagrams.  It believes only answers to its own queries, asks only nodes it was told of,
      and a token goes back only to the node that issued it.

    Media ([ace-media/src]).
    - [MpegTs], [TsTables], [TsGate] ([mpegts.rs]): re-aligner, tables and CRC, keyframe gate.
    - [Audio] ([audio.rs]): strict section parsing, the choice of one audio track and the
      rewritten program map, which the same parser accepts and which is a fixed point of the
      rewriting; a removed track keeps its clock; the layout decision.

    The engine ([ace-engine/src]).
    - [Hls] ([hls.rs]): the live packager.  Bounds of run, segment and window; the window refines an
      append-only log of segments; segments without a discontinuity mark lose nothing that the
      audio selection passes on;
      retired generations and a stopped packager change nothing.
    - [StartupBuffer] ([startup_buffer.rs]): what is collected is bounded in bytes and time and is the
      last clock epoch; after the release the source is transparent.
    - [Lifecycle] ([admission.rs], [support_control.rs], [start_failure.rs], the transition state of
      [manager.rs]), [Manager] ([manager.rs], handles of [session.rs]), [ManagerAdmission]: the
      stream manager over every interleaving of starts, stops, support releases, on-demand
      resolutions, reaps and shutdown.  No panic, one running session per key, a stop that holds, viewers that are
      never reaped, admission slots that are counted exactly.
    - [Leases] ([http/leases.rs]): the playback leases refine a ledger of grants; the signal of a
      body is open exactly while its lease lives; expired HLS leases are reaped.
    - [RtmpTs] ([rtmp_ts.rs]): the RTMP remuxer; the receiver's readers recover every frame and its
      times, and the track selection accepts the tables.
    - [Selectors] ([routes.rs], [magnet.rs], [transport_url.rs]): the routes, magnet links and
      descriptor addresses by which a caller names content; round trips, and the base-32 decoder as
      arithmetic.

    Components call each other as in the source: [Reassembly] authenticates through [LiveAuth],
    [Continuity] drives [Reassembly], [Store], [Scheduler] and [OutputPath], [PoolActor] drives
    [Continuity] and [Candidates], [VodRange] runs [VodCoordinator] over [Vod], [MetadataFetch] runs
    [PeerSession], [Hls] uses [Audio] and the tables of [TsTables], [StartupBuffer] the clock of
    [MpegTs], [Manager] the records of [Lifecycle], and [RtmpTs] is read back with [TsTables] and
    [Audio].

    ** What is not modelled

    - Sockets, tasks and timers themselves: the accept loop, the tracker client, the joining of
      discovery sources, port mapping, connect diagnostics, and the guarded HTTP client.  They appear as events.
    - The disk backend of the store (file I/O) and the broadcaster's ingest, pull and RTMP servers.
    - Third-party code: key generation and PEM, the catalog's XML.
    - In the engine: the HTTP handlers, [runtime.rs] and the providers (wiring),
      [hls_audio] (external transcoder processes), the manager's join coordinator, the ring a session pumps into, statistics, configuration files, command line, logs.
    - Floating-point seconds: clock durations stay in 90 kHz ticks, so a playlist's text and the
      segmentation of a finite file ([ace-media/src/hls.rs]) have no definition.

    What a continuation would add: the ring of a session with its lagging readers and the index
    of the disk store. *)

From Stdlib Require Export NArith ZArith Lia Strings.Byte.
From stdpp Require Export base gmap list strings sorting countable.
From Stdlib Require Strings.String.
From stdpp Require Export list_basics list_relations list_monad list_misc list_tactics list_numbers list.

(** ** Bytes

    [u8] is the standard library's [byte]; a [Vec<u8>] or a [&[u8]] is a list of them. *)

Abbreviation bytes := (list byte).

#[export] Instance byte_eq_decision : EqDecision byte := Byte.byte_eq_dec.

#[export] Instance byte_countable : Countable byte :=
  inj_countable Byte.to_N Byte.of_N Byte.of_to_N.

#[export] Instance byte_inhabited : Inhabited byte := populate x00.

(** A byte-string literal [b"..."]. *)
Definition bs (s : string) : bytes := String.list_byte_of_string s.

(** The numeric value of a byte ([b as u64]) and the truncating cast back ([n as u8]). *)
Definition byte_N (b : byte) : N := Byte.to_N b.
Definition N_byte (n : N) : byte := default x00 (Byte.of_N (n `mod` 256)).

Lemma byte_N_lt b : (byte_N b < 256)%N.
Proof. pose proof (Byte.to_N_bounded b). unfold byte_N. lia. Qed.

Lemma N_byte_of_byte b : N_byte (byte_N b) = b.
Proof.
  unfold N_byte. rewrite N.mod_small by apply byte_N_lt.
  unfold byte_N. by rewrite Byte.of_to_N.
Qed.

Lemma byte_N_of_N n : (n < 256)%N → byte_N (N_byte n) = n.
Proof.
  intros Hn. unfold N_byte, byte_N. rewrite N.mod_small by done.
  pose proof (Byte.to_of_N_option_map n) as H.
  rewrite (proj2 (N.leb_le n 255)) in H by lia.
  destruct (Byte.of_N n); simpl in *; congruence.
Qed.

#[export] Instance byte_N_inj : Inj (=) (=) byte_N.
Proof. intros x y H. by rewrite <-(N_byte_of_byte x), H, N_byte_of_byte. Qed.

(** ** Results

    [Result<T, E>] with [?] as the monadic bind. *)

Inductive result (E A : Type) : Type :=
  | Ok (a : A)
  | Err (e : E).
Arguments Ok {E A} a.
Arguments Err {E A} e.

#[export] Instance result_ret E : MRet (result E) := λ A, Ok.
#[export] Instance result_bind E : MBind (result E) := λ A B f m,
  match m with Ok a => f a | Err e => Err e end.
#[export] Instance result_fmap E : FMap (result E) := λ A B f m,
  match m with Ok a => Ok (f a) | Err e => Err e end.

#[export] Instance result_eq_dec `{EqDecision E, EqDecision A} : EqDecision (result E A).
Proof. solve_decision. Defined.

(** [Option::ok_or], [Result::ok] and [Result::is_ok]. *)
Definition ok_or {E A} (o : option A) (e : E) : result E A :=
  match o with Some a => Ok a | None => Err e end.
Definition to_option {E A} (r : result E A) : option A :=
  match r with Ok a => Some a | Err _ => None end.
Definition is_ok {E A} (r : result E A) : bool :=
  match r with Ok _ => true | Err _ => false end.

Section result_lemmas.
Context {E A B : Type}.
Implicit Types (m : result E A) (f : A → result E B).

Lemma bind_Ok_inv m f b : (m ≫= f) = Ok b ↔ ∃ a, m = Ok a ∧ f a = Ok b.
Proof. destruct m; simpl; naive_solver. Qed.

Lemma bind_Err_inv m f e :
  (m ≫= f) = Err e ↔ m = Err e ∨ ∃ a, m = Ok a ∧ f a = Err e.
Proof. destruct m; simpl; naive_solver. Qed.

Lemma ok_or_Ok_inv (o : option A) (e : E) a : ok_or o e = Ok a ↔ o = Some a.
Proof. destruct o; simpl; naive_solver. Qed.
End result_lemmas.

(** ** Machine integers

    Unsigned integers are [N]; the width is written where the code depends on it.  The
    [checked_], [saturating_] and plain (wrapping, as in a release build) operations are
    those of [u64]; [usize] is 64 bits wide as on the targets the daemon is built for. *)

Abbreviation two8 := 256%N (only parsing).
Abbreviation two16 := 65536%N (only parsing).
Abbreviation two32 := 4294967296%N (only parsing).
Abbreviation two64 := 18446744073709551616%N (only parsing).
Abbreviation u64_max := 18446744073709551615%N (only parsing).
Abbreviation i64_min := (-9223372036854775808)%Z (only parsing).
Abbreviation i64_max := 9223372036854775807%Z (only parsing).

Definition checked_add (a b : N) : option N :=
  if (a + b <? two64)%N then Some (a + b)%N else None.
Definition checked_mul (a b : N) : option N :=
  if (a * b <? two64)%N then Some (a * b)%N else None.
Definition saturating_add (a b : N) : N := N.min (a + b) u64_max.
(** [N] subtraction truncates at zero, which is [saturating_sub]. *)
Definition saturating_sub (a b : N) : N := (a - b)%N.
Definition u64_add (a b : N) : N := ((a + b) `mod` two64)%N.
Definition u64_mul (a b : N) : N := ((a * b) `mod` two64)%N.
Definition u64_sub (a b : N) : N := ((a + two64 - b) `mod` two64)%N.
Definition div_ceil (a b : N) : N :=
  (if a `mod` b =? 0 then a `div` b else a `div` b + 1)%N.
(** [a.is_multiple_of(b)]: for a zero divisor, whether [a] is zero. *)
Definition is_multiple_of (a b : N) : bool :=
  if (b =? 0)%N then (a =? 0)%N else (a `mod` b =? 0)%N.

Definition in_i64 (z : Z) : bool := ((i64_min <=? z) && (z <=? i64_max))%Z.

(** Plain [i64] arithmetic (wrapping). *)
Definition wrap_i64 (z : Z) : Z :=
  ((z + 9223372036854775808) `mod` 18446744073709551616 - 9223372036854775808)%Z.

Lemma wrap_i64_range z : in_i64 (wrap_i64 z) = true.
Proof.
  unfold in_i64, wrap_i64. pose proof (Z.mod_pos_bound (z + 9223372036854775808) 18446744073709551616).
  apply andb_true_iff. split; apply Z.leb_le; lia.
Qed.

Lemma wrap_i64_id z : in_i64 z = true → wrap_i64 z = z.
Proof.
  unfold in_i64, wrap_i64. intros [?%Z.leb_le ?%Z.leb_le]%andb_true_iff.
  rewrite Z.mod_small; lia.
Qed.

(** [z as u64] of an [i64]. *)
Definition i64_as_u64 (z : Z) : N := Z.to_N (z `mod` 18446744073709551616).

Definition lenN {A} (l : list A) : N := N.of_nat (length l).

Lemma u64_add_small a b : (a + b < two64)%N → u64_add a b = (a + b)%N.
Proof. apply N.mod_small. Qed.
Lemma u64_mul_small a b : (a * b < two64)%N → u64_mul a b = (a * b)%N.
Proof. apply N.mod_small. Qed.
Lemma u64_sub_small a b : (b ≤ a)%N → (a < two64)%N → u64_sub a b = (a - b)%N.
Proof.
  intros H1 H2. unfold u64_sub.
  replace (a + two64 - b)%N with ((a - b) + 1 * two64)%N by lia.
  rewrite N.Div0.mod_add. apply N.mod_small. lia.
Qed.

Lemma checked_add_Some a b c : checked_add a b = Some c ↔ c = (a + b)%N ∧ (a + b < two64)%N.
Proof. unfold checked_add. case (N.ltb_spec (a + b) two64); naive_solver lia. Qed.

Lemma i64_as_u64_nonneg z : (0 ≤ z ≤ i64_max)%Z → i64_as_u64 z = Z.to_N z.
Proof. intros H. unfold i64_as_u64. rewrite Z.mod_small; lia. Qed.

Lemma div_mul_bounds a b : (0 < b → a `div` b * b ≤ a < a `div` b * b + b)%N.
Proof.
  intros Hb. pose proof (N.mul_div_le a b ltac:(lia)).
  pose proof (N.mul_succ_div_gt a b ltac:(lia)). lia.
Qed.

Lemma div_ceil_bounds a b : (0 < a)%N → (0 < b)%N →
  ((div_ceil a b - 1) * b < a)%N ∧ (a ≤ div_ceil a b * b)%N ∧ (0 < div_ceil a b)%N.
Proof.
  intros Ha Hb. unfold div_ceil.
  pose proof (N.div_mod a b ltac:(lia)) as Hdm. pose proof (N.mod_lt a b ltac:(lia)) as Hm.
  set (q := (a `div` b)%N) in *. set (r := (a `mod` b)%N) in *. clearbody q r. subst a.
  destruct (N.eqb_spec r 0) as [E|E].
  - subst. assert (0 < q)%N by nia.
    assert (q = (q - 1) + 1)%N as Eq by lia. set (p := (q - 1)%N) in *. rewrite Eq. nia.
  - rewrite N.add_sub. nia.
Qed.

(** ** Slices *)

(** [buf.get(a..b)]. *)
Definition slice_get {A} (l : list A) (a b : nat) : option (list A) :=
  if bool_decide (a ≤ b ∧ b ≤ length l) then Some (take (b - a) (drop a l)) else None.

(** [&buf[a..b]], where the code has checked the bounds: the range is the same list. *)
Definition slice {A} (l : list A) (a b : nat) : list A := take (b - a) (drop a l).

(** [iter().position(|x| x == d)]. *)
Fixpoint position {A} `{EqDecision A} (d : A) (l : list A) : option nat :=
  match l with
  | [] => None
  | x :: r => if decide (x = d) then Some 0 else S <$> position d r
  end.

(** [starts_with]. *)
Definition starts_with {A} `{EqDecision A} (l p : list A) : bool :=
  bool_decide (take (length p) l = p).

(** [chunks_exact(n)] (and [as_chunks::<n>().0]): the complete [n]-element blocks. *)
Fixpoint chunks_exact_fuel {A} (fuel n : nat) (l : list A) : list (list A) :=
  match fuel with
  | 0 => []
  | S f => if decide (n ≤ length l ∧ 0 < n) then take n l :: chunks_exact_fuel f n (drop n l)
           else []
  end.
Definition chunks_exact {A} (n : nat) (l : list A) : list (list A) :=
  chunks_exact_fuel (S (length l)) n l.

Section slice_lemmas.
Context {A : Type}.
Implicit Types l p : list A.

Lemma slice_app_mid l1 l2 l3 :
  slice (l1 ++ l2 ++ l3) (length l1) (length l1 + length l2) = l2.
Proof.
  unfold slice. rewrite drop_app_length.
  replace (_ - _) with (length l2) by lia. apply take_app_length.
Qed.

Lemma slice_slice (l : list A) a b c d : (a + d ≤ b)%nat →
  slice (slice l a b) c d = slice l (a + c) (a + d).
Proof.
  intros H. unfold slice. rewrite skipn_firstn_comm, drop_drop, take_take. f_equal. lia.
Qed.

Lemma slice_length l a b : b ≤ length l → length (slice l a b) = b - a.
Proof. intros. unfold slice. rewrite length_take, length_drop. lia. Qed.

Lemma slice_get_Some l a b r :
  slice_get l a b = Some r ↔ r = slice l a b ∧ a ≤ b ∧ b ≤ length l.
Proof. unfold slice_get, slice. case_bool_decide; naive_solver. Qed.

(** Any in-range split of a buffer. *)
Lemma slice_split l a b :
  a ≤ b → b ≤ length l → l = take a l ++ slice l a b ++ drop b l.
Proof.
  intros Hab Hb. unfold slice.
  rewrite <-(take_drop a l) at 1. f_equal.
  rewrite <-(take_drop (b - a) (drop a l)) at 1. f_equal.
  rewrite drop_drop. f_equal. lia.
Qed.

Context `{EqDecision A}.

Lemma position_Some (d : A) l n :
  position d l = Some n → ∃ l1 l2, l = l1 ++ d :: l2 ∧ length l1 = n ∧ d ∉ l1.
Proof.
  revert n. induction l as [|x l IH]; intros n; simpl; [done|].
  case_decide; [intros [= <-]; subst; exists [], l; set_solver|].
  destruct (position d l) as [m|] eqn:E; simpl; [|done]. intros [= <-].
  destruct (IH _ eq_refl) as (l1 & l2 & -> & <- & Hn).
  exists (x :: l1), l2. set_solver.
Qed.

Lemma position_app (d : A) l1 l2 : d ∉ l1 → position d (l1 ++ d :: l2) = Some (length l1).
Proof.
  induction l1 as [|x l1 IH]; intros Hn; simpl; [by rewrite decide_True|].
  rewrite decide_False by set_solver. rewrite IH by set_solver. done.
Qed.

Lemma position_None (d : A) l : position d l = None ↔ d ∉ l.
Proof.
  split.
  - induction l as [|x l IH]; simpl; [set_solver|].
    case_decide as Hx; [done|]. destruct (position d l) eqn:E; [done|].
    intros _ [?|?]%elem_of_cons; [congruence | by apply IH].
  - intros Hn. destruct (position d l) as [n|] eqn:E; [|done].
    apply position_Some in E as (l1 & l2 & -> & _). set_solver.
Qed.

Lemma starts_with_app p l : starts_with (p ++ l) p = true.
Proof. unfold starts_with. rewrite take_app_length. by rewrite bool_decide_eq_true. Qed.

Lemma starts_with_true l p : starts_with l p = true ↔ ∃ r, l = p ++ r.
Proof.
  unfold starts_with. rewrite bool_decide_eq_true. split.
  - intros H. exists (drop (length p) l). rewrite <-H at 1. by rewrite take_drop.
  - intros [r ->]. by rewrite take_app_length.
Qed.
End slice_lemmas.

Lemma lenN_app {A} (l1 l2 : list A) : lenN (l1 ++ l2) = (lenN l1 + lenN l2)%N.
Proof. unfold lenN. rewrite length_app. lia. Qed.

Lemma forallb_Forall {A} (f : A → bool) l : forallb f l = true ↔ Forall (λ x, f x = true) l.
Proof.
  induction l as [|x l IH]; simpl; [naive_solver|].
  by rewrite andb_true_iff, Forall_cons, IH.
Qed.

Lemma length_omap_le {A B} (f : A → option B) l : length (omap f l) ≤ length l.
Proof. induction l as [|x l IH]; csimpl; [done|]. destruct (f x); simpl; lia. Qed.

Lemma map_size_delete_lt {A} (m : gmap N A) i :
  is_Some (m !! i) → size (delete i m) < size m.
Proof.
  intros Hi. rewrite map_size_delete_Some by done.
  assert (size m ≠ 0) by (apply map_size_non_empty_iff; intros ->; by destruct Hi). lia.
Qed.

Lemma chunks_exact_fuel_all {A} fuel n (l : list A) k :
  0 < n → length l = k * n → k < fuel →
  length (chunks_exact_fuel fuel n l) = k ∧
  Forall (λ c, length c = n) (chunks_exact_fuel fuel n l) ∧
  concat (chunks_exact_fuel fuel n l) = l.
Proof.
  intros Hn. revert l k. induction fuel as [|f IH]; intros l k Hl Hk; [lia|]. simpl.
  destruct k as [|k].
  { rewrite decide_False by lia. by destruct l. }
  rewrite decide_True by lia. destruct (IH (drop n l) k) as (H1 & H2 & H3).
  { rewrite length_drop. lia. } { lia. }
  split_and!; simpl; [lia| |by rewrite H3, take_drop].
  constructor; [|done]. rewrite length_take. lia.
Qed.

Lemma chunks_exact_all {A} n (l : list A) k :
  0 < n → length l = k * n →
  length (chunks_exact n l) = k ∧ Forall (λ c, length c = n) (chunks_exact n l) ∧
  concat (chunks_exact n l) = l.
Proof. intros Hn Hl. apply chunks_exact_fuel_all; [done|done|]. nia. Qed.

(** Blocks of equal length in a concatenation. *)
Lemma slice_concat {A} (ls : list (list A)) (n q a b : nat) l :
  Forall (λ l, length l = n) ls → ls !! q = Some l → (a ≤ b ≤ n) →
  slice (concat ls) (q * n + a) (q * n + b) = slice l a b.
Proof.
  intros Hls Hq Hab. revert q Hq. induction Hls as [|x ls Hx Hls IH]; intros q Hq; [done|].
  unfold slice in *. destruct q as [|q]; simpl in *.
  - injection Hq as ->. rewrite drop_app_le by lia. apply take_app_le. rewrite length_drop. lia.
  - rewrite drop_app_ge by lia. replace (n + q * n + a - length x) with (q * n + a) by lia.
    rewrite <-(IH q Hq). f_equal. lia.
Qed.

Lemma length_concat_const {A} (ls : list (list A)) (n : nat) :
  Forall (λ l, length l = n) ls → length (concat ls) = (length ls * n).
Proof. induction 1 as [|x ls Hx _ IH]; [done|]. simpl. rewrite length_app. lia. Qed.

Lemma concat_take_const {A} (ls : list (list A)) (n k : nat) :
  Forall (λ l, length l = n) ls → concat (take k ls) = take (k * n) (concat ls).
Proof.
  intros Hls. revert k. induction Hls as [|x ls Hx _ IH]; intros [|k]; simpl; try done.
  { by rewrite take_nil. }
  rewrite IH, take_app_ge by lia. do 2 f_equal. lia.
Qed.

(** The numbers of a half-open range, and the pigeonhole bound on a set inside one. *)
Definition range (lo n : N) : list N :=
  (λ k, (lo + N.of_nat k)%N) <$> seq 0 (N.to_nat n).

Lemma elem_of_range lo n x : x ∈ range lo n ↔ (lo ≤ x < lo + n)%N.
Proof.
  unfold range. rewrite list_elem_of_fmap. split.
  - intros (k & -> & [_ Hk]%elem_of_seq). lia.
  - intros Hx. exists (N.to_nat (x - lo)). rewrite elem_of_seq. lia.
Qed.

Lemma NoDup_range lo n : NoDup (range lo n).
Proof. apply NoDup_fmap_2; [intros x y; lia|apply NoDup_seq]. Qed.

Lemma length_range lo n : length (range lo n) = N.to_nat n.
Proof. unfold range. by rewrite length_fmap, length_seq. Qed.

Lemma range_snoc lo n : range lo (n + 1) = range lo n ++ [lo + n]%N.
Proof.
  unfold range. replace (N.to_nat (n + 1)) with (S (N.to_nat n)) by lia.
  rewrite seq_S, fmap_app. simpl. by rewrite N2Nat.id.
Qed.

Lemma range_app lo n m : range lo (n + m) = range lo n ++ range (lo + n) m.
Proof.
  unfold range. rewrite N2Nat.inj_add, seq_app, fmap_app. f_equal. rewrite Nat.add_0_l.
  rewrite <-(Nat.add_0_r (N.to_nat n)) at 1. rewrite <-fmap_add_seq, <-list_fmap_compose. apply list_fmap_ext. intros _ k _. simpl. lia.
Qed.

Lemma range_cons lo n : range lo (1 + n) = lo :: range (lo + 1) n.
Proof. rewrite range_app. unfold range at 1. simpl. by rewrite N.add_0_r. Qed.

Lemma size_range_le (X : gset N) lo n :
  (∀ x, x ∈ X → (lo ≤ x < lo + n)%N) → size X ≤ N.to_nat n.
Proof.
  intros HX. rewrite <-(length_range lo n), <-(size_list_to_set (C:=gset N) (range lo n))
    by apply NoDup_range.
  apply subseteq_size. intros x Hx. apply elem_of_list_to_set, elem_of_range. auto.
Qed.

Lemma size_range_full (X : gset N) lo n : N.to_nat n ≤ size X →
  (∀ x, x ∈ X → (lo ≤ x < lo + n)%N) → ∀ x, (lo ≤ x < lo + n)%N → x ∈ X.
Proof.
  intros Hs HX x Hx.
  assert (X ≡ list_to_set (range lo n)) as ->.
  { apply set_subseteq_size_equiv.
    - intros y Hy. apply elem_of_list_to_set, elem_of_range. auto.
    - rewrite size_list_to_set by apply NoDup_range. by rewrite length_range. }
  by apply elem_of_list_to_set, elem_of_range.
Qed.

Lemma size_multiples_full (X : gset N) c n : (0 < c)%N → N.to_nat n ≤ size X →
  (∀ x, x ∈ X → ∃ k, (k < n)%N ∧ x = (k * c)%N) → ∀ k, (k < n)%N → (k * c)%N ∈ X.
Proof.
  intros Hc Hs HX k Hk. set (l := (λ k, (k * c)%N) <$> range 0 n).
  assert (NoDup l) by (apply NoDup_fmap_2; [intros x y; nia|apply NoDup_range]).
  assert (X ≡ list_to_set l) as ->.
  { apply set_subseteq_size_equiv.
    - intros y Hy. destruct (HX y Hy) as (j & Hj & ->).
      apply elem_of_list_to_set, (list_elem_of_fmap_2 (λ k, (k * c)%N)), elem_of_range. lia.
    - rewrite size_list_to_set by done. unfold l. by rewrite length_fmap, length_range. }
  apply elem_of_list_to_set, (list_elem_of_fmap_2 (λ k, (k * c)%N)), elem_of_range. lia.
Qed.

Lemma size_multiples_ge (X : gset N) c n : (0 < c)%N →
  (∀ k, (k < n)%N → (k * c)%N ∈ X) → N.to_nat n ≤ size X.
Proof.
  intros Hc HX. rewrite <-(length_range 0 n), <-(length_fmap (λ k, (k * c)%N)).
  rewrite <-(size_list_to_set (C:=gset N))
    by (apply NoDup_fmap_2; [intros x y; nia|apply NoDup_range]).
  apply subseteq_size. intros x (k & -> & Hk%elem_of_range)%elem_of_list_to_set%list_elem_of_fmap.
  apply HX. lia.
Qed.

Lemma size_union_le (X Y : gset N) : size (X ∪ Y) ≤ size X + size Y.
Proof.
  rewrite size_union_alt. assert (size (Y ∖ X) ≤ size Y); [|lia].
  apply subseteq_size. set_solver.
Qed.

Lemma size_list_to_set_le (l : list N) : size (list_to_set l : gset N) ≤ length l.
Proof.
  induction l as [|x l IH]; [done|]. change (list_to_set (x :: l)) with ({[x]} ∪ list_to_set l : gset N).
  cbn [length]. pose proof (size_union_le {[x]} (list_to_set l)). rewrite size_singleton in *. lia.
Qed.

(** ** Automation *)

(** Case analysis on the tests of a hypothesis or a goal, with booleans reflected. *)
Ltac case_tests :=
  repeat (case_match || case_decide || case_bool_decide);
  repeat match goal with
  | H : (_ <? _)%N = true |- _ => apply N.ltb_lt in H
  | H : (_ <? _)%N = false |- _ => apply N.ltb_ge in H
  | H : (_ <=? _)%N = true |- _ => apply N.leb_le in H
  | H : (_ <=? _)%N = false |- _ => apply N.leb_gt in H
  | H : (_ =? _)%N = true |- _ => apply N.eqb_eq in H
  | H : (_ =? _)%N = false |- _ => apply N.eqb_neq in H
  | H : (_ <? _)%Z = true |- _ => apply Z.ltb_lt in H
  | H : (_ <? _)%Z = false |- _ => apply Z.ltb_ge in H
  | H : (_ <=? _)%Z = true |- _ => apply Z.leb_le in H
  | H : (_ <=? _)%Z = false |- _ => apply Z.leb_gt in H
  end.

(** Open every successful bind of the hypotheses. *)
Ltac inv_binds :=
  repeat match goal with
  | H : mbind _ _ = Ok _ |- _ => apply bind_Ok_inv in H as (? & ? & ?)
  | H : ok_or _ _ = Ok _ |- _ => apply ok_or_Ok_inv in H
  | H : context [let '(_, _) := ?p in _] |- _ => destruct p as [? ?]
  | H : Ok _ = Ok _ |- _ => injection H as H
  | H : Err _ = Ok _ |- _ => discriminate H
  end; simplify_eq.

Create HintDb outpace.
#[export] Hint Resolve byte_N_lt : outpace.
#[export] Hint Rewrite @lenN_app @length_app @length_take @length_drop @length_replicate
  : outpace_len.
