(* ===== verification/Order.v ===== *)
(** * Stable sorting and extremal elements

    What the sources use of [slice] and [Iterator] that depends on the order of equal keys:
    [sort_by_key] is stable, [max_by_key] keeps the last of several maxima, [min_by_key] the
    first of several minima. *)

From S2P Require Import Prelude.

Section sort_by.
Context {A : Type} (leb : A → A → bool).

Fixpoint insert_by (x : A) (l : list A) : list A :=
  match l with
  | [] => [x]
  | y :: r => if leb x y then x :: l else y :: insert_by x r
  end.

(** [sort_by_key] (and [sort_by]) under the boolean order of the keys. *)
Definition sort_by (l : list A) : list A := foldr insert_by [] l.

Lemma insert_by_perm x l : insert_by x l ≡ₚ x :: l.
Proof.
  induction l as [|y l IH]; simpl; [done|]. case_match; [done|]. rewrite IH. constructor.
Qed.

Lemma sort_by_perm l : sort_by l ≡ₚ l.
Proof. induction l as [|x l IH]; simpl; [done|]. by rewrite insert_by_perm, IH. Qed.

Lemma elem_of_sort_by x l : x ∈ sort_by l ↔ x ∈ l.
Proof. by rewrite sort_by_perm. Qed.

Hypothesis leb_total : ∀ x y, leb x y = true ∨ leb y x = true.
Hypothesis leb_trans : ∀ x y z, leb x y = true → leb y z = true → leb x z = true.

Lemma insert_by_sorted x l :
  StronglySorted (λ a b, leb a b = true) l → StronglySorted (λ a b, leb a b = true) (insert_by x l).
Proof.
  induction 1 as [|y l Hs IH Hy]; simpl; [by repeat constructor|].
  destruct (leb x y) eqn:E.
  - constructor; [by constructor|]. constructor; [done|].
    eapply Forall_impl; [exact Hy|]. intros z Hz. by eapply leb_trans.
  - constructor; [done|]. rewrite insert_by_perm. constructor; [|done].
    destruct (leb_total x y); [congruence|done].
Qed.

Lemma sort_by_sorted l : StronglySorted (λ a b, leb a b = true) (sort_by l).
Proof. induction l as [|x l IH]; simpl; [constructor|by apply insert_by_sorted]. Qed.

(** The head of the sorted list is a least element. *)
Lemma sort_by_head l x r : sort_by l = x :: r → x ∈ l ∧ ∀ y, y ∈ l → leb x y = true.
Proof.
  intros E. pose proof (sort_by_sorted l) as Hs. rewrite E in Hs.
  apply StronglySorted_inv in Hs as [_ Hx]. split.
  - rewrite <-elem_of_sort_by, E. by left.
  - intros y. rewrite <-elem_of_sort_by, E. intros [->|Hy]%elem_of_cons.
    + destruct (leb_total x x); done.
    + rewrite Forall_forall in Hx. auto.
Qed.

(** Elements of one class of equal keys keep their order. *)
Lemma insert_by_stable (P : A → Prop) `{∀ x, Decision (P x)} x l :
  (∀ a b, P a → P b → leb a b = true) →
  base.filter P (insert_by x l) = base.filter P (x :: l).
Proof.
  intros HP. induction l as [|y l IH]; simpl; [done|]. case_match eqn:E; [done|].
  rewrite filter_cons, IH, !filter_cons. repeat case_decide; try done.
  rewrite HP in E by done. done.
Qed.

Lemma sort_by_stable (P : A → Prop) `{∀ x, Decision (P x)} l :
  (∀ a b, P a → P b → leb a b = true) → base.filter P (sort_by l) = base.filter P l.
Proof.
  intros HP. induction l as [|x l IH]; simpl; [done|]. rewrite insert_by_stable by done.
  rewrite !filter_cons. by rewrite IH.
Qed.
End sort_by.

(** ** Extremal elements *)

Section extremal.
Context {A : Type} (key : A → N).

(** [iter().max_by_key(key)]: the last of the maxima. *)
Definition max_by_key (l : list A) : option A :=
  fold_left (λ best x, match best with
    | Some b => if (key b <=? key x)%N then Some x else Some b
    | None => Some x end) l None.

(** [iter().min_by_key(key)]: the first of the minima. *)
Definition min_by_key (l : list A) : option A :=
  fold_left (λ best x, match best with
    | Some b => if (key b <=? key x)%N then Some b else Some x
    | None => Some x end) l None.

Lemma max_by_key_fold l b :
  ∃ x, fold_left (λ best x, match best with
    | Some b => if (key b <=? key x)%N then Some x else Some b
    | None => Some x end) l (Some b) = Some x ∧ (x = b ∨ x ∈ l) ∧
    (key b ≤ key x)%N ∧ ∀ y, y ∈ l → (key y ≤ key x)%N.
Proof.
  revert b. induction l as [|y l IH]; intros b; simpl.
  { exists b. split_and!; [done|by left|lia|]. by intros y ?%not_elem_of_nil. }
  destruct (N.leb_spec (key b) (key y)).
  - destruct (IH y) as (x & Hx & Hin & Hb & Hl). exists x. split_and!; [done| |lia|].
    + right. destruct Hin as [->|]; set_solver.
    + intros z [->|Hz]%elem_of_cons; auto.
  - destruct (IH b) as (x & Hx & Hin & Hb & Hl). exists x. split_and!; [done| |lia|].
    + destruct Hin; [by left|]. right. set_solver.
    + intros z [->|Hz]%elem_of_cons; [lia|auto].
Qed.

Lemma max_by_key_spec l :
  match max_by_key l with
  | Some x => x ∈ l ∧ ∀ y, y ∈ l → (key y ≤ key x)%N
  | None => l = []
  end.
Proof.
  unfold max_by_key. destruct l as [|b l]; [done|]. simpl.
  destruct (max_by_key_fold l b) as (x & -> & Hin & Hb & Hl).
  split; [destruct Hin; set_solver|]. intros y [->|]%elem_of_cons; auto.
Qed.

Lemma min_by_key_fold l b :
  ∃ x, fold_left (λ best x, match best with
    | Some b => if (key b <=? key x)%N then Some b else Some x
    | None => Some x end) l (Some b) = Some x ∧ (x = b ∨ x ∈ l) ∧
    (key x ≤ key b)%N ∧ ∀ y, y ∈ l → (key x ≤ key y)%N.
Proof.
  revert b. induction l as [|y l IH]; intros b; simpl.
  { exists b. split_and!; [done|by left|lia|]. by intros y ?%not_elem_of_nil. }
  destruct (N.leb_spec (key b) (key y)).
  - destruct (IH b) as (x & Hx & Hin & Hb & Hl). exists x. split_and!; [done| |lia|].
    + destruct Hin; [by left|]. right. set_solver.
    + intros z [->|Hz]%elem_of_cons; [lia|auto].
  - destruct (IH y) as (x & Hx & Hin & Hb & Hl). exists x. split_and!; [done| |lia|].
    + right. destruct Hin as [->|]; set_solver.
    + intros z [->|Hz]%elem_of_cons; auto.
Qed.

Lemma min_by_key_spec l :
  match min_by_key l with
  | Some x => x ∈ l ∧ ∀ y, y ∈ l → (key x ≤ key y)%N
  | None => l = []
  end.
Proof.
  unfold min_by_key. destruct l as [|b l]; [done|]. simpl.
  destruct (min_by_key_fold l b) as (x & -> & Hin & Hb & Hl).
  split; [destruct Hin; set_solver|]. intros y [->|]%elem_of_cons; auto.
Qed.
End extremal.

Definition list_min (l : list N) : option N := min_by_key id l.
Definition list_max (l : list N) : option N := max_by_key id l.

(** ** Counting, removal by index, membership *)

(** [iter().filter(f).count()]. *)
Definition count_if {A} (f : A → bool) (l : list A) : nat := length (List.filter f l).

(** [Vec::remove]. *)
Definition remove_index {A} (i : nat) (l : list A) : list A := take i l ++ drop (S i) l.

Lemma count_if_app {A} (f : A → bool) l1 l2 : count_if f (l1 ++ l2) = count_if f l1 + count_if f l2.
Proof. unfold count_if. by rewrite List.filter_app, length_app. Qed.

Lemma count_if_cons {A} (f : A → bool) x l : count_if f (x :: l) = (if f x then 1 else 0) + count_if f l.
Proof. unfold count_if. simpl. by destruct (f x). Qed.

Lemma count_if_map {A B} (g : A → B) (f : B → bool) l l' :
  map g l = map g l' → count_if (λ x, f (g x)) l = count_if (λ x, f (g x)) l'.
Proof.
  intros E. assert (∀ l, count_if (λ x, f (g x)) l = count_if f (map g l)) as H; [|by rewrite !H, E].
  clear. intros l. induction l as [|x l IH]; [done|]. cbn [map]. by rewrite !count_if_cons, IH.
Qed.

Lemma remove_index_split {A} i (l : list A) c : l !! i = Some c →
  l = take i l ++ c :: drop (S i) l ∧ remove_index i l = take i l ++ drop (S i) l.
Proof. intros H. split; [by rewrite take_drop_middle|done]. Qed.

Lemma count_if_sublist {A} (f : A → bool) l l' : l `sublist_of` l' → count_if f l ≤ count_if f l'.
Proof. induction 1; rewrite ?count_if_cons; [done|lia|lia]. Qed.

Lemma In_filter_elem {A} (f : A → bool) l x : x ∈ List.filter f l ↔ x ∈ l ∧ f x = true.
Proof. by rewrite !list_elem_of_In, filter_In. Qed.

Lemma elem_of_map {A B} (f : A → B) l y : y ∈ map f l ↔ ∃ x, y = f x ∧ x ∈ l.
Proof. apply list_elem_of_fmap. Qed.

Lemma filter_sublist {A} (f : A → bool) l : List.filter f l `sublist_of` l.
Proof. induction l as [|x l IH]; simpl; [done|]. case_match; by constructor. Qed.

Lemma sublist_StronglySorted {A} (R : relation A) l1 l2 :
  StronglySorted R l2 → l1 `sublist_of` l2 → StronglySorted R l1.
Proof.
  intros Hs Hl. induction Hl as [|x l1 l2 Hl IH|x l1 l2 Hl IH]; [constructor|..];
    apply StronglySorted_inv in Hs as [Hs Hx]; [|auto]. constructor; [auto|].
  rewrite Forall_forall in Hx. apply Forall_forall. intros y Hy. apply Hx.
  eapply elem_of_submseteq; [exact Hy|by apply sublist_submseteq].
Qed.

Lemma remove_index_sublist {A} i (l : list A) : remove_index i l `sublist_of` l.
Proof.
  unfold remove_index. rewrite <-(take_drop i l) at 3. apply sublist_app; [done|].
  rewrite <-(Nat.add_1_r i), <-drop_drop. apply sublist_drop.
Qed.

Lemma remove_index_length {A} i (l : list A) x : l !! i = Some x →
  S (length (remove_index i l)) = length l.
Proof.
  intros Hi. destruct (remove_index_split _ _ _ Hi) as [E ->]. rewrite E at 3.
  rewrite !length_app. simpl. lia.
Qed.

Lemma count_remove_index {A} (f : A → bool) i l e : l !! i = Some e → f e = true →
  S (count_if f (remove_index i l)) = count_if f l.
Proof.
  intros Hi Hf. destruct (remove_index_split _ _ _ Hi) as [E ->]. rewrite E at 3.
  rewrite !count_if_app, count_if_cons, Hf. lia.
Qed.

Lemma elem_of_concat {A} (ls : list (list A)) x : x ∈ concat ls ↔ ∃ l, x ∈ l ∧ l ∈ ls.
Proof.
  rewrite list_elem_of_In, in_concat. setoid_rewrite list_elem_of_In. split; intros (l & ? & ?); eauto.
Qed.
