(* ===== verification/Bytes.v ===== *)
(** * Byte-level codecs of the standard library

    What the sources use of [std] on byte strings: big-endian integers
    ([to_be_bytes], [from_be_bytes]), decimal text ([to_string], [str::parse]) and UTF-8
    validity ([str::from_utf8]), with their round trips. *)

From S2P Require Import Prelude.

Local Open Scope N_scope.

(** ** Big-endian integers *)

Fixpoint be_bytes (n : nat) (x : N) : bytes :=
  match n with
  | 0%nat => []
  | S m => N_byte (x `div` 256 ^ N.of_nat m) :: be_bytes m x
  end.

Definition be_N (l : bytes) : N := foldl (λ acc b, acc * 256 + byte_N b) 0 l.

Definition u16_be (x : N) : bytes := be_bytes 2 x.
Definition u32_be (x : N) : bytes := be_bytes 4 x.
Definition u64_be (x : N) : bytes := be_bytes 8 x.

Lemma be_bytes_length n x : length (be_bytes n x) = n.
Proof. induction n; simpl; congruence. Qed.

Lemma be_N_foldl acc l :
  foldl (λ acc b, acc * 256 + byte_N b) acc l = acc * 256 ^ lenN l + be_N l.
Proof.
  unfold be_N. revert acc. induction l as [|b l IH]; intros acc; simpl.
  - unfold lenN. simpl. lia.
  - rewrite IH, (IH (0 * 256 + byte_N b)). unfold lenN. simpl length.
    rewrite Nat2N.inj_succ, N.pow_succ_r'. lia.
Qed.

Lemma be_N_cons b l : be_N (b :: l) = byte_N b * 256 ^ lenN l + be_N l.
Proof. unfold be_N at 1. simpl. rewrite be_N_foldl. lia. Qed.

Lemma be_N_bound l : be_N l < 256 ^ lenN l.
Proof.
  induction l as [|b l IH]; [done|]. rewrite be_N_cons.
  pose proof (byte_N_lt b). unfold lenN in *. simpl length.
  rewrite Nat2N.inj_succ, N.pow_succ_r'. nia.
Qed.

Lemma N_byte_mod x : byte_N (N_byte x) = x `mod` 256.
Proof.
  rewrite <-(byte_N_of_N (x `mod` 256)) by (apply N.mod_lt; lia).
  unfold N_byte. by rewrite N.Div0.mod_mod.
Qed.

Lemma be_N_be_bytes_mod n x : be_N (be_bytes n x) = x `mod` 256 ^ N.of_nat n.
Proof.
  induction n as [|n IH]; [by rewrite N.mod_1_r|].
  simpl be_bytes. rewrite be_N_cons, IH, N_byte_mod. unfold lenN.
  rewrite be_bytes_length, Nat2N.inj_succ, N.pow_succ_r'.
  rewrite (N.mul_comm 256), N.Div0.mod_mul_r. lia.
Qed.

Lemma be_N_be_bytes n x : x < 256 ^ N.of_nat n → be_N (be_bytes n x) = x.
Proof. intros. rewrite be_N_be_bytes_mod. by apply N.mod_small. Qed.

Lemma be_bytes_add n a x : be_bytes n (a * 256 ^ N.of_nat n + x) = be_bytes n x.
Proof.
  revert a. induction n as [|n IH]; intros a; simpl; [done|].
  rewrite Nat2N.inj_succ, N.pow_succ_r'.
  replace (a * (256 * 256 ^ N.of_nat n) + x)
    with ((a * 256) * 256 ^ N.of_nat n + x) by lia.
  rewrite IH. f_equal. unfold N_byte. do 2 f_equal.
  rewrite (N.add_comm _ x), N.div_add by lia. by rewrite N.Div0.mod_add.
Qed.

Lemma be_bytes_be_N l : be_bytes (length l) (be_N l) = l.
Proof.
  induction l as [|b l IH]; [done|]. simpl. rewrite be_N_cons. unfold lenN.
  rewrite be_bytes_add, IH. f_equal.
  rewrite N.div_add_l, N.div_small by (apply be_N_bound || lia).
  rewrite N.add_0_r. apply N_byte_of_byte.
Qed.

Lemma be_bytes_be_N' n l : length l = n → be_bytes n (be_N l) = l.
Proof. intros <-. apply be_bytes_be_N. Qed.

Lemma be_N_inj l1 l2 : length l1 = length l2 → be_N l1 = be_N l2 → l1 = l2.
Proof. intros Hl He. by rewrite <-(be_bytes_be_N l1), <-(be_bytes_be_N l2), Hl, He. Qed.

#[export] Hint Rewrite be_bytes_length : outpace_len.

(** ** Decimal text *)

Definition is_ascii_digit (b : byte) : bool := (48 <=? byte_N b) && (byte_N b <=? 57).
Definition digit_value (b : byte) : N := byte_N b - 48.

Fixpoint dec_fuel (fuel : nat) (n : N) : bytes :=
  match fuel with
  | 0%nat => []
  | S f => if n <? 10 then [N_byte (48 + n)]
           else dec_fuel f (n `div` 10) ++ [N_byte (48 + n `mod` 10)]
  end.
(** [n.to_string()] of an unsigned integer: at most [log2 n + 1] digits. *)
Definition dec_N (n : N) : bytes := dec_fuel (S (N.to_nat (N.log2 n))) n.
(** [z.to_string()] of a signed integer. *)
Definition dec_Z (z : Z) : bytes :=
  if (z <? 0)%Z then x2d :: dec_N (Z.to_N (- z)) else dec_N (Z.to_N z).

Definition digits_value (l : bytes) : N := foldl (λ acc b, acc * 10 + digit_value b) 0 l.

(** The digits of [str::parse]: at least one, all decimal. *)
Definition parse_digits (l : bytes) : option N :=
  if bool_decide (l ≠ []) && forallb is_ascii_digit l then Some (digits_value l) else None.

(** [s.parse::<usize>()] and [s.parse::<u64>()]: an optional [+], then digits; out of range
    is an error. *)
Definition parse_u64 (l : bytes) : option N :=
  let l := match l with x2b :: r => r | _ => l end in
  v ← parse_digits l; if v <? two64 then Some v else None.

(** [s.parse::<i64>()]: an optional sign, then digits; out of range is an error. *)
Definition parse_i64 (l : bytes) : option Z :=
  match l with
  | x2d :: r => v ← parse_digits r; let z := (- Z.of_N v)%Z in
      if in_i64 z then Some z else None
  | x2b :: r => v ← parse_digits r; let z := Z.of_N v in if in_i64 z then Some z else None
  | _ => v ← parse_digits l; let z := Z.of_N v in if in_i64 z then Some z else None
  end.

Lemma digit_byte_value d : d < 10 →
  is_ascii_digit (N_byte (48 + d)) = true ∧ digit_value (N_byte (48 + d)) = d.
Proof.
  intros Hd. unfold is_ascii_digit, digit_value. rewrite byte_N_of_N by lia.
  rewrite andb_true_iff, !N.leb_le. lia.
Qed.

Lemma digits_value_snoc l b : digits_value (l ++ [b]) = digits_value l * 10 + digit_value b.
Proof. unfold digits_value. by rewrite foldl_app. Qed.

Lemma dec_fuel_correct fuel n : (0 < fuel)%nat → n < 2 ^ N.of_nat fuel →
  dec_fuel fuel n ≠ [] ∧ forallb is_ascii_digit (dec_fuel fuel n) = true ∧
  digits_value (dec_fuel fuel n) = n.
Proof.
  revert n. induction fuel as [|f IH]; intros n Hf Hn; [lia|simpl].
  rewrite Nat2N.inj_succ, N.pow_succ_r' in Hn.
  destruct (N.ltb_spec n 10) as [Hlt|Hge].
  { destruct (digit_byte_value n Hlt) as [H1 H2]. simpl. rewrite H1.
    unfold digits_value. simpl. rewrite H2. done. }
  pose proof (N.div_mod n 10 ltac:(lia)) as Hdm.
  pose proof (N.mod_lt n 10 ltac:(lia)) as Hm.
  destruct (IH (n `div` 10)) as (H1 & H2 & H3).
  { destruct f; [change (2 ^ N.of_nat 0) with 1 in Hn|]; lia. }
  { apply N.Div0.div_lt_upper_bound. lia. }
  destruct (digit_byte_value (n `mod` 10) Hm) as [Hd1 Hd2].
  split_and!; [by intros [? ?]%app_eq_nil | |].
  - rewrite forallb_app, H2. simpl. by rewrite Hd1.
  - rewrite digits_value_snoc, H3, Hd2. lia.
Qed.

Lemma dec_fuel_length fuel n d :
  (n < 10 ^ N.of_nat d)%N → (0 < d)%nat → (length (dec_fuel fuel n) ≤ d)%nat.
Proof.
  revert n d. induction fuel as [|f IH]; intros n d Hn Hd; simpl; [lia|].
  destruct (N.ltb_spec n 10) as [|Hge]; [simpl; lia|]. rewrite length_app. simpl.
  destruct d as [|[|d]]; [lia|change (10 ^ N.of_nat 1)%N with 10%N in Hn; lia|].
  assert (length (dec_fuel f (n `div` 10)) ≤ S d)%nat; [|lia]. apply IH; [|lia].
  rewrite Nat2N.inj_succ, N.pow_succ_r' in Hn. apply N.Div0.div_lt_upper_bound. lia.
Qed.

Lemma dec_N_correct n :
  dec_N n ≠ [] ∧ forallb is_ascii_digit (dec_N n) = true ∧ digits_value (dec_N n) = n.
Proof.
  apply dec_fuel_correct; [lia|]. rewrite Nat2N.inj_succ, N2Nat.id.
  destruct (N.eq_dec n 0) as [->|Hn]; [done|]. apply N.log2_spec. lia.
Qed.

Lemma parse_digits_dec n : parse_digits (dec_N n) = Some n.
Proof.
  destruct (dec_N_correct n) as (H1 & H2 & H3). unfold parse_digits.
  by rewrite bool_decide_true, H2, H3.
Qed.

Lemma is_ascii_digit_not b c : is_ascii_digit b = true → is_ascii_digit c = false → b ≠ c.
Proof. congruence. Qed.

(** A decimal text starts with a digit, so it is never mistaken for a sign or a delimiter. *)
Lemma dec_N_cons n : ∃ b r, dec_N n = b :: r ∧ is_ascii_digit b = true.
Proof.
  destruct (dec_N_correct n) as (H1 & H2 & _). destruct (dec_N n) as [|b r]; [done|].
  simpl in H2. apply andb_true_iff in H2 as [? _]. eauto.
Qed.

Lemma forallb_digit_not_in c l :
  forallb is_ascii_digit l = true → is_ascii_digit c = false → c ∉ l.
Proof.
  intros Hl Hc Hin. rewrite forallb_forall in Hl.
  apply list_elem_of_In, Hl in Hin. congruence.
Qed.

Lemma parse_u64_digits l : forallb is_ascii_digit l = true →
  parse_u64 l = v ← parse_digits l; if v <? two64 then Some v else None.
Proof. intros Hl. destruct l as [|[] l]; try done. Qed.

Lemma parse_u64_dec n : n < two64 → parse_u64 (dec_N n) = Some n.
Proof.
  intros Hn. rewrite parse_u64_digits by apply dec_N_correct.
  rewrite parse_digits_dec. simpl. by rewrite (proj2 (N.ltb_lt _ _) Hn).
Qed.

Lemma parse_i64_digits l : forallb is_ascii_digit l = true →
  parse_i64 l = v ← parse_digits l;
    let z := Z.of_N v in if in_i64 z then Some z else None.
Proof. intros Hl. destruct l as [|[] l]; try done. Qed.

Lemma parse_i64_dec z : in_i64 z = true → parse_i64 (dec_Z z) = Some z.
Proof.
  intros Hz. unfold dec_Z. destruct (Z.ltb_spec z 0) as [Hneg|Hpos].
  - simpl. rewrite parse_digits_dec. simpl. rewrite Z2N.id by lia.
    rewrite Z.opp_involutive. by rewrite Hz.
  - rewrite parse_i64_digits by apply dec_N_correct. rewrite parse_digits_dec. simpl.
    rewrite Z2N.id by lia. by rewrite Hz.
Qed.

Lemma parse_i64_range l z : parse_i64 l = Some z → in_i64 z = true.
Proof.
  unfold parse_i64. intros H.
  assert (∀ v, (if in_i64 v then Some v else None) = Some z → in_i64 z = true) as Hr
    by (intros v; case (in_i64 v) eqn:E; naive_solver).
  destruct l as [|b l]; [done|].
  assert (∃ v, (if in_i64 v then Some v else None) = Some z) as [v Hv]; [|eauto].
  destruct (decide (b = x2d)) as [->|]; [|destruct (decide (b = x2b)) as [->|]].
  - destruct (parse_digits l); simpl in H; naive_solver.
  - destruct (parse_digits l); simpl in H; naive_solver.
  - destruct (parse_digits (b :: l)) eqn:E; destruct b; simpl in H; naive_solver.
Qed.

Lemma parse_u64_range l n : parse_u64 l = Some n → n < two64.
Proof.
  unfold parse_u64. intros (v & _ & H)%bind_Some. destruct (N.ltb_spec v two64); naive_solver.
Qed.

(** The bytes of a decimal text: no [e], no [:]. *)
Lemma dec_N_no_delim n c : is_ascii_digit c = false → c ∉ dec_N n.
Proof. apply forallb_digit_not_in, dec_N_correct. Qed.

Lemma dec_Z_no_delim z c : is_ascii_digit c = false → c ≠ x2d → c ∉ dec_Z z.
Proof.
  intros Hc Hm. unfold dec_Z. case_match; [|by apply dec_N_no_delim].
  rewrite not_elem_of_cons. split; [done|by apply dec_N_no_delim].
Qed.

(** ** UTF-8 validity

    [str::from_utf8]: the well-formed byte sequences of the Unicode standard (no overlong
    form, no surrogate, nothing above U+10FFFF). *)

Definition in_range (b : byte) (lo hi : N) : bool := (lo <=? byte_N b) && (byte_N b <=? hi).
Definition is_cont (b : byte) : bool := in_range b 0x80 0xBF.

Fixpoint utf8_valid (l : bytes) : bool :=
  match l with
  | [] => true
  | b0 :: r0 =>
      if in_range b0 0 0x7F then utf8_valid r0
      else match r0 with
      | [] => false
      | b1 :: r1 =>
          if in_range b0 0xC2 0xDF then is_cont b1 && utf8_valid r1
          else match r1 with
          | [] => false
          | b2 :: r2 =>
              if in_range b0 0xE0 0xE0 then in_range b1 0xA0 0xBF && is_cont b2 && utf8_valid r2
              else if in_range b0 0xED 0xED then
                in_range b1 0x80 0x9F && is_cont b2 && utf8_valid r2
              else if in_range b0 0xE1 0xEF then is_cont b1 && is_cont b2 && utf8_valid r2
              else match r2 with
              | [] => false
              | b3 :: r3 =>
                  (if in_range b0 0xF0 0xF0 then in_range b1 0x90 0xBF
                   else if in_range b0 0xF1 0xF3 then is_cont b1
                   else in_range b0 0xF4 0xF4 && in_range b1 0x80 0x8F)
                  && is_cont b2 && is_cont b3 && utf8_valid r3
              end
          end
      end
  end.

Definition is_ascii (b : byte) : bool := byte_N b <? 128.

Lemma utf8_valid_ascii l : forallb is_ascii l = true → utf8_valid l = true.
Proof.
  induction l as [|b l IH]; simpl; [done|]. intros [Hb Hl]%andb_true_iff.
  unfold is_ascii in Hb. apply N.ltb_lt in Hb. unfold in_range.
  rewrite (proj2 (N.leb_le _ _)) by lia. rewrite (proj2 (N.leb_le _ _)) by lia. auto.
Qed.

Lemma digits_ascii l : forallb is_ascii_digit l = true → forallb is_ascii l = true.
Proof.
  rewrite !forallb_forall. intros H x Hx. specialize (H x Hx).
  unfold is_ascii_digit in H. unfold is_ascii.
  apply andb_true_iff in H as [_ ?%N.leb_le]. apply N.ltb_lt. lia.
Qed.

Lemma dec_N_utf8 n : utf8_valid (dec_N n) = true.
Proof. apply utf8_valid_ascii, digits_ascii, dec_N_correct. Qed.

Lemma dec_Z_utf8 z : utf8_valid (dec_Z z) = true.
Proof.
  unfold dec_Z. case_match; [|apply dec_N_utf8].
  apply utf8_valid_ascii. simpl. apply digits_ascii, dec_N_correct.
Qed.
