(* ===== verification/Wire.v ===== *)
(** * Errors of the wire layer

    [ace-wire/src/lib.rs]: the error type every decoder returns, and the two ways a decoder
    with explicit fuel can stop. *)

From S2P Require Import Prelude.

Inductive WireError : Type :=
  | Truncated
  | InvalidProtection
  | SignatureRejected
  | Invalid (msg : string).

#[export] Instance WireError_eq_dec : EqDecision WireError.
Proof. solve_decision. Defined.

(** [ace_wire::Result]. *)
Abbreviation Result := (result WireError).

(** A recursive decoder that runs on fuel fails as the source does, or exhausts its fuel, or
    reaches an [unreachable!] of the source; the totality theorems show that the last two never
    happen with the fuel the entry points supply. *)
Inductive stop : Type :=
  | OutOfFuel
  | Panicked
  | Fail (e : WireError).

Definition lift {A} (r : Result A) : result stop A :=
  match r with Ok a => Ok a | Err e => Err (Fail e) end.

(** The entry points drop the two markers; [Truncated] stands for the impossible cases. *)
Definition unfuel {A} (r : result stop A) : Result A :=
  match r with Ok a => Ok a | Err (Fail e) => Err e | Err _ => Err Truncated end.

(** The decoder answers: a value or an error of the source. *)
Definition answers {A} (r : result stop A) : Prop :=
  match r with Ok _ | Err (Fail _) => True | _ => False end.

Lemma lift_Ok_inv {A} (r : Result A) a : lift r = Ok a ↔ r = Ok a.
Proof. destruct r; simpl; naive_solver. Qed.

Lemma lift_not_out {A} (r : Result A) : lift r ≠ Err OutOfFuel.
Proof. by destruct r. Qed.

Lemma unfuel_Ok_inv {A} (r : result stop A) a : unfuel r = Ok a ↔ r = Ok a.
Proof. destruct r as [?|[| |?]]; simpl; naive_solver. Qed.

(** A bind runs out of fuel only where one of its two halves does. *)
Lemma bind_not_out {A B} (m : result stop A) (f : A → result stop B) :
  m ≠ Err OutOfFuel → (∀ a, m = Ok a → f a ≠ Err OutOfFuel) → (m ≫= f) ≠ Err OutOfFuel.
Proof. destruct m; simpl; naive_solver. Qed.

Lemma lift_answers {A} (r : Result A) : answers (lift r).
Proof. by destruct r. Qed.

Lemma bind_answers {A B} (m : result stop A) (f : A → result stop B) :
  answers m → (∀ a, m = Ok a → answers (f a)) → answers (m ≫= f).
Proof. destruct m as [|[| |]]; simpl; naive_solver. Qed.

#[export] Hint Resolve lift_not_out bind_not_out lift_answers : outpace.
