(* ===== verification/BTree.v ===== *)
(** * Ordered views of maps and sets

    A [BTreeMap<u64, _>] or [BTreeSet<u64>] is a [gmap N _] or [gset N]; what the code reads
    through its order (iteration, first and last key) is the ascending list of keys. *)

From S2P Require Import Prelude.

Section sets.
Implicit Types X : gset N.

(** [BTreeSet::iter]. *)
Definition ascending (X : gset N) : list N := merge_sort N.le (elements X).

Lemma ascending_perm X : ascending X ≡ₚ elements X.
Proof. apply merge_sort_Permutation. Qed.

Lemma elem_of_ascending X x : x ∈ ascending X ↔ x ∈ X.
Proof. rewrite ascending_perm. apply elem_of_elements. Qed.

Lemma NoDup_ascending X : NoDup (ascending X).
Proof. rewrite ascending_perm. apply NoDup_elements. Qed.

#[export] Instance N_le_total : Total N.le.
Proof. intros x y. lia. Qed.

Lemma ascending_sorted X : StronglySorted N.le (ascending X).
Proof. apply StronglySorted_merge_sort; apply _. Qed.

Lemma ascending_strict X : StronglySorted N.lt (ascending X).
Proof.
  pose proof (ascending_sorted X) as Hs. pose proof (NoDup_ascending X) as Hd.
  induction Hs as [|x l Hs IH Hx]; constructor; apply NoDup_cons in Hd as [Hn Hd]; [auto|].
  apply Forall_forall. intros y Hy. rewrite Forall_forall in Hx. specialize (Hx y Hy).
  assert (x ≠ y) by congruence. lia.
Qed.

Lemma length_ascending X : length (ascending X) = size X.
Proof. by rewrite ascending_perm. Qed.
End sets.

Section maps.
Context {A : Type}.
Implicit Types m : gmap N A.

(** [BTreeMap::iter]: the entries in ascending key order. *)
Definition entries m : list (N * A) :=
  omap (λ k, (λ v, (k, v)) <$> m !! k) (ascending (dom m)).

(** [keys().next()] and [keys().next_back()]. *)
Definition first_key m : option N := head (ascending (dom m)).
Definition last_key m : option N := last (ascending (dom m)).

Lemma elem_of_entries m k v : (k, v) ∈ entries m ↔ m !! k = Some v.
Proof.
  unfold entries. rewrite list_elem_of_omap. split.
  - intros (k' & _ & (v' & Hv & [= -> ->])%fmap_Some). done.
  - intros Hk. exists k. rewrite Hk. split; [|done].
    apply elem_of_ascending, elem_of_dom. by eexists.
Qed.

Lemma entries_keys m : (entries m).*1 = ascending (dom m).
Proof.
  unfold entries.
  assert (∀ l, (∀ k, k ∈ l → is_Some (m !! k)) →
    (omap (λ k, (λ v, (k, v)) <$> m !! k) l).*1 = l) as Hgen.
  { induction l as [|k l IH]; intros Hl; [done|]. csimpl.
    destruct (Hl k) as [v ->]; [set_solver|]. csimpl. f_equal. apply IH. set_solver. }
  apply Hgen. intros k Hk%elem_of_ascending. by apply elem_of_dom.
Qed.

Lemma NoDup_entries_keys m : NoDup (entries m).*1.
Proof. rewrite entries_keys. apply NoDup_ascending. Qed.

Lemma first_key_Some m k : first_key m = Some k →
  is_Some (m !! k) ∧ ∀ k', is_Some (m !! k') → (k ≤ k')%N.
Proof.
  unfold first_key. intros Hh. pose proof (ascending_sorted (dom m)) as Hs.
  destruct (ascending (dom m)) as [|x l] eqn:E; [done|]. injection Hh as ->.
  assert (∀ y, is_Some (m !! y) ↔ y ∈ k :: l) as Hin.
  { intros y. rewrite <-E, elem_of_ascending. symmetry. apply elem_of_dom. }
  split; [apply Hin; set_solver|]. intros y [->|Hy]%Hin%elem_of_cons; [lia|].
  inversion Hs as [|? ? ? Hall]; subst. rewrite Forall_forall in Hall. auto.
Qed.

Lemma first_key_None m : first_key m = None ↔ m = ∅.
Proof.
  unfold first_key. split.
  - destruct (ascending (dom m)) as [|x l] eqn:E; [|done]. intros _.
    apply (dom_empty_inv_L (D:=gset N)). apply set_eq. intros k.
    rewrite <-elem_of_ascending, E. set_solver.
  - intros ->. by rewrite dom_empty_L.
Qed.

Lemma last_key_Some m k : last_key m = Some k →
  is_Some (m !! k) ∧ ∀ k', is_Some (m !! k') → (k' ≤ k)%N.
Proof.
  unfold last_key. intros Hh. apply last_Some in Hh as [l E].
  pose proof (ascending_sorted (dom m)) as Hs. rewrite E in Hs.
  assert (∀ y, is_Some (m !! y) ↔ y ∈ l ++ [k]) as Hin.
  { intros y. rewrite <-E, elem_of_ascending. symmetry. apply elem_of_dom. }
  split; [apply Hin; set_solver|]. intros y Hy%Hin.
  apply elem_of_app in Hy as [Hy|Hy%list_elem_of_singleton]; [|lia].
  clear -Hs Hy. induction l as [|x l IH]; [by apply not_elem_of_nil in Hy|].
  inversion Hs as [|? ? Hs' Hall]; subst. apply elem_of_cons in Hy as [->|Hy]; [|auto].
  rewrite Forall_forall in Hall. apply Hall. set_solver.
Qed.
End maps.

(** ** Sums and suffixes *)

Section sums.
Context {A : Type} (f : A → N).
Implicit Types m : gmap N A.

(** [values().map(f).sum()]. *)
Definition sum_values m : N := map_fold (λ _ x acc, (f x + acc)%N) 0%N m.

Lemma sum_values_empty : sum_values ∅ = 0%N.
Proof. apply map_fold_empty. Qed.

Lemma sum_values_delete m k x : m !! k = Some x → sum_values m = (f x + sum_values (delete k m))%N.
Proof. intros Hk. unfold sum_values. apply (map_fold_delete_L (λ _ x acc, (f x + acc)%N)); [|done]. intros. lia. Qed.

Lemma sum_values_insert m k x :
  sum_values (<[k := x]> m) = (f x + sum_values (delete k m))%N.
Proof.
  rewrite (sum_values_delete (<[k := x]> m) k x) by apply lookup_insert_eq. f_equal.
  by rewrite delete_insert_eq.
Qed.

Lemma sum_values_insert_total m k x :
  (sum_values (<[k := x]> m) + match m !! k with Some y => f y | None => 0 end =
   f x + sum_values m)%N.
Proof.
  rewrite sum_values_insert. destruct (m !! k) as [y|] eqn:E.
  - rewrite (sum_values_delete m k y E). lia.
  - rewrite delete_id by done. lia.
Qed.
End sums.

Section suffix.
Context {A : Type}.
Implicit Types m : gmap N A.

(** The entries from a key on. *)
Definition from_key (cut : N) m : gmap N A := base.filter (λ kv, cut ≤ kv.1)%N m.

Lemma lookup_from_key cut m k :
  from_key cut m !! k = if decide (cut ≤ k)%N then m !! k else None.
Proof.
  unfold from_key. case_decide as Hk.
  - destruct (m !! k) as [x|] eqn:E.
    + apply map_lookup_filter_Some. done.
    + apply map_lookup_filter_None. by left.
  - apply map_lookup_filter_None. right. intros x _. done.
Qed.

Lemma from_key_all m k : (∀ k', is_Some (m !! k') → k ≤ k')%N → from_key k m = m.
Proof.
  intros Hk. apply map_eq. intros j. rewrite lookup_from_key. case_decide as Hj; [done|].
  symmetry. apply eq_None_not_Some. intros Hs. apply Hj. auto.
Qed.

Lemma from_key_twice a b m : from_key a (from_key b m) = from_key (N.max a b) m.
Proof.
  apply map_eq. intros j. rewrite !lookup_from_key. repeat case_decide; try done; lia.
Qed.

(** Removing the first key leaves the entries after it. *)
Lemma delete_first_key m k : (∀ k', is_Some (m !! k') → k ≤ k')%N →
  delete k m = from_key (k + 1) m.
Proof.
  intros Hk. apply map_eq. intros j. rewrite lookup_from_key.
  destruct (decide (j = k)) as [->|Hne].
  - rewrite lookup_delete_eq, decide_False by lia. done.
  - rewrite lookup_delete_ne by done. case_decide as Hj; [done|].
    apply eq_None_not_Some. intros Hs%Hk. lia.
Qed.

Lemma dom_from_key cut m : dom (from_key cut m) = base.filter (λ k, cut ≤ k)%N (dom m).
Proof.
  apply set_eq. intros k. rewrite elem_of_filter, !elem_of_dom, lookup_from_key.
  case_decide; [tauto|]. split; [by intros []|tauto].
Qed.
End suffix.
