(* ===== verification/Text.v ===== *)
(** * Text from untrusted bytes

    The parts of Rust's [str] the decoders use on bytes a peer wrote: lossy UTF-8 decoding
    ([String::from_utf8_lossy]), [trim] and truncation at a character boundary.  A [String] is
    its UTF-8 bytes. *)

From S2P Require Import Prelude Bytes.

Local Open Scope N_scope.

(** U+FFFD, the replacement character. *)
Definition replacement : bytes := map N_byte [0xEF; 0xBF; 0xBD].

(** The second byte a three- or four-byte lead admits. *)
Definition second_of_3 (b0 b1 : byte) : bool :=
  if in_range b0 0xE0 0xE0 then in_range b1 0xA0 0xBF
  else if in_range b0 0xED 0xED then in_range b1 0x80 0x9F
  else is_cont b1.
Definition second_of_4 (b0 b1 : byte) : bool :=
  if in_range b0 0xF0 0xF0 then in_range b1 0x90 0xBF
  else if in_range b0 0xF1 0xF3 then is_cont b1
  else in_range b1 0x80 0x8F.

(** One step of the decoder: the character read, or the replacement for the longest
    ill-formed prefix, and the bytes after it. *)
Definition lossy_step (b0 : byte) (r0 : bytes) : bytes * bytes :=
  if in_range b0 0 0x7F then ([b0], r0)
  else if in_range b0 0xC2 0xDF then
    match r0 with
    | b1 :: r1 => if is_cont b1 then ([b0; b1], r1) else (replacement, r0)
    | [] => (replacement, [])
    end
  else if in_range b0 0xE0 0xEF then
    match r0 with
    | b1 :: r1 =>
        if second_of_3 b0 b1 then
          match r1 with
          | b2 :: r2 => if is_cont b2 then ([b0; b1; b2], r2) else (replacement, r1)
          | [] => (replacement, [])
          end
        else (replacement, r0)
    | [] => (replacement, [])
    end
  else if in_range b0 0xF0 0xF4 then
    match r0 with
    | b1 :: r1 =>
        if second_of_4 b0 b1 then
          match r1 with
          | b2 :: r2 =>
              if is_cont b2 then
                match r2 with
                | b3 :: r3 => if is_cont b3 then ([b0; b1; b2; b3], r3) else (replacement, r2)
                | [] => (replacement, [])
                end
              else (replacement, r1)
          | [] => (replacement, [])
          end
        else (replacement, r0)
    | [] => (replacement, [])
    end
  else (replacement, r0).

Fixpoint lossy_fuel (fuel : nat) (l : bytes) : bytes :=
  match fuel, l with
  | S fuel, b0 :: r0 => let '(c, r) := lossy_step b0 r0 in c ++ lossy_fuel fuel r
  | _, _ => []
  end.

Definition from_utf8_lossy (l : bytes) : bytes := lossy_fuel (length l) l.

(** The characters with the [White_Space] property, in UTF-8. *)
Definition whitespace : list bytes :=
  map (λ b, [N_byte b]) [9; 10; 11; 12; 13; 32] ++
  map (λ b, map N_byte [0xC2; b]) [0x85; 0xA0] ++
  [map N_byte [0xE1; 0x9A; 0x80]] ++
  map (λ b, map N_byte [0xE2; 0x80; b])
    [0x80; 0x81; 0x82; 0x83; 0x84; 0x85; 0x86; 0x87; 0x88; 0x89; 0x8A; 0xA8; 0xA9; 0xAF] ++
  [map N_byte [0xE2; 0x81; 0x9F]; map N_byte [0xE3; 0x80; 0x80]].

Definition ends_with (l p : bytes) : bool :=
  bool_decide (length p ≤ length l)%nat && bool_decide (drop (length l - length p) l = p).

Fixpoint trim_start (fuel : nat) (l : bytes) : bytes :=
  match fuel with
  | 0%nat => l
  | S fuel =>
      match find (starts_with l) whitespace with
      | Some w => trim_start fuel (drop (length w) l)
      | None => l
      end
  end.

Fixpoint trim_end (fuel : nat) (l : bytes) : bytes :=
  match fuel with
  | 0%nat => l
  | S fuel =>
      match find (ends_with l) whitespace with
      | Some w => trim_end fuel (take (length l - length w) l)
      | None => l
      end
  end.

Definition trim (l : bytes) : bytes :=
  let l := trim_start (length l) l in trim_end (length l) l.

Definition is_char_boundary (l : bytes) (i : nat) : bool :=
  match l !! i with
  | Some b => bool_decide (i = 0)%nat || negb (is_cont b)
  | None => bool_decide (i = 0 ∨ i = length l)%nat
  end.

(** [while !text.is_char_boundary(end) { end -= 1 }]. *)
Fixpoint floor_boundary (l : bytes) (e : nat) : nat :=
  if is_char_boundary l e then e else match e with S e => floor_boundary l e | 0%nat => 0%nat end.

Example lossy_example :
  from_utf8_lossy (map N_byte [0x61; 0xE2; 0x82; 0x62; 0xFF; 0xC3; 0xA9]) =
  map N_byte [0x61; 0xEF; 0xBF; 0xBD; 0x62; 0xEF; 0xBF; 0xBD; 0xC3; 0xA9].
Proof. vm_compute. reflexivity. Qed.
Example trim_example : trim (bs "  a b " ++ map N_byte [0xC2; 0xA0]) = bs "a b".
Proof. vm_compute. reflexivity. Qed.

(** ** Lemmas *)

(** A well-formed character. *)
Inductive utf8_char : bytes → Prop :=
  | char1 b0 : in_range b0 0 0x7F = true → utf8_char [b0]
  | char2 b0 b1 : in_range b0 0xC2 0xDF = true → is_cont b1 = true → utf8_char [b0; b1]
  | char3 b0 b1 b2 : in_range b0 0xE0 0xEF = true → second_of_3 b0 b1 = true →
      is_cont b2 = true → utf8_char [b0; b1; b2]
  | char4 b0 b1 b2 b3 : in_range b0 0xF0 0xF4 = true → second_of_4 b0 b1 = true →
      is_cont b2 = true → is_cont b3 = true → utf8_char [b0; b1; b2; b3].

Inductive utf8_text : bytes → Prop :=
  | text_nil : utf8_text []
  | text_char c l : utf8_char c → utf8_text l → utf8_text (c ++ l).

Lemma in_range_spec b lo hi : in_range b lo hi = true ↔ lo ≤ byte_N b ≤ hi.
Proof. unfold in_range. rewrite andb_true_iff, !N.leb_le. done. Qed.

Lemma in_range_false b lo hi : in_range b lo hi = false ↔ ¬ lo ≤ byte_N b ≤ hi.
Proof. rewrite <-in_range_spec. by destruct (in_range b lo hi). Qed.

Ltac ranges :=
  repeat match goal with
  | H : in_range _ _ _ = true |- _ => apply in_range_spec in H
  | H : in_range _ _ _ = false |- _ => apply in_range_false in H
  end.

Lemma lossy_step_spec b0 r0 : ∃ c r, lossy_step b0 r0 = (c, r) ∧ utf8_char c ∧
  (length r ≤ length r0)%nat ∧ (c ++ r = b0 :: r0 ∨ c = replacement).
Proof.
  assert (utf8_char replacement) by by apply char3.
  unfold lossy_step. destruct (in_range b0 0 0x7F) eqn:E1.
  { eexists _, _. split; [done|]. split_and!; [by apply char1|done|by left]. }
  destruct (in_range b0 0xC2 0xDF) eqn:E2.
  { destruct r0 as [|b1 r1]; [by eexists _, _; eauto|]. destruct (is_cont b1) eqn:C1;
      eexists _, _; (split; [done|]); split_and!; simpl; auto using char2; lia. }
  destruct (in_range b0 0xE0 0xEF) eqn:E3.
  { destruct r0 as [|b1 r1]; [by eexists _, _; eauto|].
    destruct (second_of_3 b0 b1) eqn:S1; [|by eexists _, _; eauto].
    destruct r1 as [|b2 r2]; [eexists _, _; (split; [done|]); simpl; split_and!; auto; lia|].
    destruct (is_cont b2) eqn:C2; eexists _, _; (split; [done|]);
      split_and!; simpl; auto using char3; lia. }
  destruct (in_range b0 0xF0 0xF4) eqn:E4; [|by eexists _, _; eauto].
  destruct r0 as [|b1 r1]; [by eexists _, _; eauto|].
  destruct (second_of_4 b0 b1) eqn:S1; [|by eexists _, _; eauto].
  destruct r1 as [|b2 r2]; [eexists _, _; (split; [done|]); simpl; split_and!; auto; lia|].
  destruct (is_cont b2) eqn:C2;
    [|eexists _, _; (split; [done|]); simpl; split_and!; auto; lia].
  destruct r2 as [|b3 r3]; [eexists _, _; (split; [done|]); simpl; split_and!; auto; lia|].
  destruct (is_cont b3) eqn:C3; eexists _, _; (split; [done|]);
    split_and!; simpl; auto using char4; lia.
Qed.

Lemma from_utf8_lossy_text l : utf8_text (from_utf8_lossy l).
Proof.
  unfold from_utf8_lossy. generalize (length l) at 1 as fuel. intros fuel. revert l.
  induction fuel as [|fuel IH]; intros [|b0 r0]; simpl; try constructor.
  destruct (lossy_step_spec b0 r0) as (c & r & -> & Hc & _). by constructor.
Qed.

(** Decoding a well-formed character gives it back. *)
Lemma lossy_step_char b0 cs l : utf8_char (b0 :: cs) → lossy_step b0 (cs ++ l) = (b0 :: cs, l).
Proof.
  intros Hc. inversion Hc; subst; simpl; unfold lossy_step.
  - by rewrite H0.
  - ranges. destruct (in_range b0 0 127) eqn:?; ranges; [lia|].
    rewrite (proj2 (in_range_spec b0 0xC2 0xDF)) by lia. by rewrite H2.
  - ranges. destruct (in_range b0 0 127) eqn:?; ranges; [lia|].
    destruct (in_range b0 0xC2 0xDF) eqn:?; ranges; [lia|].
    rewrite (proj2 (in_range_spec b0 0xE0 0xEF)) by lia. by rewrite H2, H3.
  - ranges. destruct (in_range b0 0 127) eqn:?; ranges; [lia|].
    destruct (in_range b0 0xC2 0xDF) eqn:?; ranges; [lia|].
    destruct (in_range b0 0xE0 0xEF) eqn:?; ranges; [lia|].
    rewrite (proj2 (in_range_spec b0 0xF0 0xF4)) by lia. by rewrite H2, H3, H4.
Qed.

Lemma utf8_char_cons c : utf8_char c → ∃ b0 cs, c = b0 :: cs ∧ is_cont b0 = false ∧
  Forall (λ b, is_cont b = true) cs.
Proof.
  unfold is_cont. assert (∀ b0 b1, in_range b0 0xE0 0xEF = true → second_of_3 b0 b1 = true →
    in_range b1 0x80 0xBF = true) as H3.
  { unfold second_of_3, is_cont. intros b0 b1 _. repeat case_match; ranges; intros; ranges;
      apply in_range_spec; lia. }
  assert (∀ b0 b1, second_of_4 b0 b1 = true → in_range b1 0x80 0xBF = true) as H4.
  { unfold second_of_4, is_cont. intros b0 b1. repeat case_match; ranges; intros; ranges;
      apply in_range_spec; lia. }
  destruct 1; eexists _, _; (split; [done|]); split.
  all: try (apply in_range_false; ranges; lia).
  all: repeat constructor; eauto.
Qed.

Lemma from_utf8_lossy_id l : utf8_text l → from_utf8_lossy l = l.
Proof.
  unfold from_utf8_lossy. intros Hl.
  assert (∀ fuel, (length l ≤ fuel)%nat → lossy_fuel fuel l = l) as Hgen; [|by apply Hgen].
  induction Hl as [|c l Hc _ IH]; intros fuel Hf; [by destruct fuel|].
  destruct (utf8_char_cons c Hc) as (b0 & cs & -> & _).
  destruct fuel as [|fuel]; [simpl in Hf; lia|]. simpl.
  rewrite lossy_step_char by done. simpl. f_equal. f_equal. apply IH.
  simpl in Hf. rewrite length_app in Hf. lia.
Qed.

Lemma utf8_text_valid l : utf8_text l → utf8_valid l = true.
Proof.
  induction 1 as [|c l Hc _ IH]; [done|]. destruct Hc as [b0 H0|b0 b1 H0 H1|b0 b1 b2 H0 H1 H2|b0 b1 b2 b3 H0 H1 H2 H3]; simpl.
  - by rewrite H0.
  - destruct (in_range b0 0 127) eqn:?; ranges; [lia|].
    rewrite (proj2 (in_range_spec b0 0xC2 0xDF)) by lia. by rewrite H1.
  - unfold second_of_3 in H1. ranges.
    destruct (in_range b0 0 127) eqn:?; ranges; [lia|].
    destruct (in_range b0 0xC2 0xDF) eqn:?; ranges; [lia|].
    destruct (in_range b0 0xE0 0xE0) eqn:?; [by rewrite H1, H2|].
    destruct (in_range b0 0xED 0xED); [by rewrite H1, H2|].
    destruct (in_range b0 0xE1 0xEF) eqn:?; [by rewrite H1, H2|]. ranges. lia.
  - unfold second_of_4 in H1. ranges.
    destruct (in_range b0 0 127) eqn:?; ranges; [lia|].
    destruct (in_range b0 0xC2 0xDF) eqn:?; ranges; [lia|].
    destruct (in_range b0 0xE0 0xE0) eqn:?; ranges; [lia|].
    destruct (in_range b0 0xED 0xED) eqn:?; ranges; [lia|].
    destruct (in_range b0 0xE1 0xEF) eqn:?; ranges; [lia|].
    rewrite H2, H3, IH, !andb_true_r.
    destruct (in_range b0 0xF0 0xF0) eqn:?; [done|].
    destruct (in_range b0 0xF1 0xF3) eqn:?; [done|]. ranges.
    rewrite (proj2 (in_range_spec b0 0xF4 0xF4)) by lia.
    by rewrite (proj2 (in_range_spec b1 0x80 0x8F)) by lia.
Qed.

(** Cutting a text at a character boundary gives texts. *)
Lemma utf8_text_cut l i : utf8_text l → is_char_boundary l i = true →
  utf8_text (take i l) ∧ utf8_text (drop i l).
Proof.
  intros Hl. revert i. induction Hl as [|c l Hc Hl IH]; intros i Hb.
  { rewrite take_nil, drop_nil. split; constructor. }
  destruct (decide (i = 0)%nat) as [->|Hi].
  { split; [constructor|]. by constructor. }
  destruct (utf8_char_cons c Hc) as (b0 & cs & -> & _ & Hcs).
  destruct (decide (i < length (b0 :: cs))%nat) as [Hlt|Hge].
  - exfalso. unfold is_char_boundary in Hb. rewrite lookup_app_l in Hb by done.
    destruct (lookup_lt_is_Some_2 (b0 :: cs) i Hlt) as [b Eb]. rewrite Eb in Hb.
    destruct i as [|i]; [done|]. simpl in Eb. rewrite Forall_lookup in Hcs.
    rewrite (Hcs i b Eb) in Hb. simpl in Hb. done.
  - destruct (IH (i - length (b0 :: cs))%nat) as [Ht Hd].
    { unfold is_char_boundary in *. rewrite lookup_app_r in Hb by lia.
      destruct (l !! _) as [b|] eqn:E.
      - rewrite bool_decide_false in Hb by lia. simpl in Hb. by rewrite Hb, orb_true_r.
      - rewrite length_app in Hb. rewrite bool_decide_eq_true in *. lia. }
    rewrite take_app_ge, drop_app_ge by lia. split; [by constructor|done].
Qed.

Lemma whitespace_heads : Forall (λ w, ∃ b0 cs, w = b0 :: cs ∧ is_cont b0 = false ∧ utf8_char w) whitespace.
Proof.
  repeat (apply Forall_cons; split;
    [eexists _, _; split; [reflexivity|split; [reflexivity|]];
     first [by apply char1 | by apply char2 | by apply char3]|]).
  apply Forall_nil. done.
Qed.

Lemma find_whitespace f w : find f whitespace = Some w →
  f w = true ∧ ∃ b0 cs, w = b0 :: cs ∧ is_cont b0 = false ∧ utf8_char w.
Proof.
  intros [Hin Hf]%find_some. split; [done|]. pose proof whitespace_heads as Hw.
  rewrite List.Forall_forall in Hw. by apply Hw.
Qed.

Lemma boundary_noncont l i b : l !! i = Some b → is_cont b = false → is_char_boundary l i = true.
Proof. unfold is_char_boundary. intros -> ->. by rewrite orb_true_r. Qed.

Lemma trim_start_text fuel l : utf8_text l → utf8_text (trim_start fuel l).
Proof.
  revert l. induction fuel as [|fuel IH]; intros l Hl; [done|]. cbn [trim_start].
  destruct (find (starts_with l) whitespace) as [w|] eqn:E; [|done]. apply IH.
  apply find_whitespace in E as [(r & ->)%starts_with_true (b0 & cs & -> & Hnc & Hw)].
  rewrite drop_app_length. inversion Hl as [|c l' Hc Hl' Heq].
  destruct (utf8_char_cons c Hc) as (c0 & ccs & -> & _).
  pose proof (lossy_step_char c0 ccs l' Hc) as E1.
  assert (ccs ++ l' = cs ++ r ∧ c0 = b0) as [E2 ->] by (split; simpl in Heq; congruence).
  pose proof (lossy_step_char b0 cs r Hw) as E3. rewrite E2 in E1. rewrite E1 in E3. by simplify_eq.
Qed.

Lemma trim_end_text fuel l : utf8_text l → utf8_text (trim_end fuel l).
Proof.
  revert l. induction fuel as [|fuel IH]; intros l Hl; [done|]. cbn [trim_end].
  destruct (find (ends_with l) whitespace) as [w|] eqn:E; [|done]. apply IH.
  apply find_whitespace in E as [Hend (b0 & cs & -> & Hnc & _)].
  unfold ends_with in Hend. apply andb_true_iff in Hend as [Hlen%bool_decide_eq_true Hd%bool_decide_eq_true].
  apply utf8_text_cut; [done|]. apply (boundary_noncont _ _ b0); [|done].
  rewrite <-(Nat.add_0_r (_ - _)), <-lookup_drop, Hd. done.
Qed.

Lemma trim_text l : utf8_text l → utf8_text (trim l).
Proof. intros. by apply trim_end_text, trim_start_text. Qed.

Lemma floor_boundary_spec l e : is_char_boundary l (floor_boundary l e) = true ∧
  (floor_boundary l e ≤ e)%nat.
Proof.
  induction e as [|e [IH1 IH2]]; cbn [floor_boundary].
  - assert (is_char_boundary l 0 = true) as E
      by (unfold is_char_boundary; by destruct l). by rewrite E.
  - destruct (is_char_boundary l (S e)) eqn:E; [done|]. split; [done|lia].
Qed.
