(* ===== verification/Bencode.v ===== *)
(** * Bencode

    [ace-wire/src/bencode.rs]: the bencode values, their canonical encoder and the permissive
    parser.  The parser keeps the source's shape (a buffer, a position, a nesting depth); the
    mutual recursion runs on fuel and [parse_value_total] shows the entry points give enough.
    A [BTreeMap] with byte-string keys is an association list sorted by key. *)

From S2P Require Import Prelude Bytes Wire.

(** ** Values and dictionaries *)

Definition MAX_DEPTH : nat := 32.

Inductive Bencode : Type :=
  | BInt (i : Z)
  | BBytes (b : bytes)
  | BList (l : list Bencode)
  | BDict (d : list (bytes * Bencode)).

(** Lexicographic order of [Vec<u8>]. *)
Fixpoint bytes_cmp (a b : bytes) : comparison :=
  match a, b with
  | [], [] => Eq
  | [], _ :: _ => Lt
  | _ :: _, [] => Gt
  | x :: a', y :: b' =>
      match N.compare (byte_N x) (byte_N y) with Eq => bytes_cmp a' b' | c => c end
  end.

Definition bytes_ltb (a b : bytes) : bool :=
  match bytes_cmp a b with Lt => true | _ => false end.

(** [BTreeMap::get] and [BTreeMap::insert] with byte-string keys. *)
Fixpoint dict_get {V} (k : bytes) (d : list (bytes * V)) : option V :=
  match d with
  | [] => None
  | (k', v) :: r => if decide (k = k') then Some v else dict_get k r
  end.

Fixpoint dict_insert {V} (k : bytes) (v : V) (d : list (bytes * V)) : list (bytes * V) :=
  match d with
  | [] => [(k, v)]
  | (k', v') :: r =>
      match bytes_cmp k k' with
      | Lt => (k, v) :: (k', v') :: r
      | Eq => (k', v) :: r
      | Gt => (k', v') :: dict_insert k v r
      end
  end.

(** The keys are strictly increasing. *)
Fixpoint dict_sorted {V} (d : list (bytes * V)) : bool :=
  match d with
  | [] => true
  | (k, _) :: r =>
      match r with [] => true | (k', _) :: _ => bytes_ltb k k' end && dict_sorted r
  end.

(** ** Encoder *)

Fixpoint encode_into (self : Bencode) (out : bytes) : bytes :=
  match self with
  | BInt i => out ++ "i"%byte :: dec_Z i ++ ["e"%byte]
  | BBytes b => out ++ dec_N (lenN b) ++ ":"%byte :: b
  | BList l =>
      fold_left (λ out e, encode_into e out) l (out ++ ["l"%byte]) ++ ["e"%byte]
  | BDict d =>
      fold_left (λ out kv, encode_into kv.2 (out ++ dec_N (lenN kv.1) ++ ":"%byte :: kv.1))
        d (out ++ ["d"%byte]) ++ ["e"%byte]
  end.

Definition encode (self : Bencode) : bytes := encode_into self [].

(** ** Accessors *)

Definition get (self : Bencode) (key : bytes) : option Bencode :=
  match self with BDict d => dict_get key d | _ => None end.
Definition as_int (self : Bencode) : option Z :=
  match self with BInt i => Some i | _ => None end.
Definition as_bytes (self : Bencode) : option bytes :=
  match self with BBytes b => Some b | _ => None end.

(** ** Parser *)

Definition parse_int (buf : bytes) (pos : nat) : Result (Bencode * nat) :=
  e ← ok_or (position "e"%byte (drop (pos + 1) buf)) Truncated;
  let e := e + pos + 1 in
  let s := slice buf (pos + 1) e in
  if utf8_valid s then
    i ← ok_or (parse_i64 s) (Invalid "int parse");
    Ok (BInt i, e + 1)
  else Err (Invalid "int utf8").

Definition parse_bytes (buf : bytes) (pos : nat) : Result (bytes * nat) :=
  colon ← ok_or (position ":"%byte (drop pos buf)) Truncated;
  let colon := colon + pos in
  let s := slice buf pos colon in
  len ← ok_or (if utf8_valid s then parse_u64 s else None) (Invalid "bad length");
  let start := colon + 1 in
  e ← ok_or (checked_add (N.of_nat start) len) (Invalid "len overflow");
  if (lenN buf <? e)%N then Err Truncated
  else Ok (slice buf start (N.to_nat e), N.to_nat e).

Fixpoint parse_value (fuel : nat) (buf : bytes) (pos depth : nat)
    : result stop (Bencode * nat) :=
  match fuel with
  | 0 => Err OutOfFuel
  | S fuel =>
      match buf !! pos with
      | None => Err (Fail Truncated)
      | Some b =>
          if decide (b = "i"%byte) then lift (parse_int buf pos)
          else if decide ((b = "l"%byte ∨ b = "d"%byte) ∧ MAX_DEPTH ≤ depth) then
            Err (Fail (Invalid "bencode nesting too deep"))
          else if decide (b = "l"%byte) then parse_list fuel buf (pos + 1) depth []
          else if decide (b = "d"%byte) then parse_dict fuel buf (pos + 1) depth []
          else if is_ascii_digit b then
            '(s, n) ← lift (parse_bytes buf pos); Ok (BBytes s, n)
          else Err (Fail (Invalid "unexpected bencode token"))
      end
  end
(** The loop of [parse_list], at index [i] with the items read so far. *)
with parse_list (fuel : nat) (buf : bytes) (i depth : nat) (items : list Bencode)
    : result stop (Bencode * nat) :=
  match fuel with
  | 0 => Err OutOfFuel
  | S fuel =>
      match buf !! i with
      | None => Err (Fail Truncated)
      | Some b =>
          if decide (b = "e"%byte) then Ok (BList items, i + 1)
          else '(v, n) ← parse_value fuel buf i (depth + 1);
               parse_list fuel buf n depth (items ++ [v])
      end
  end
(** The loop of [parse_dict], at index [i] with the map read so far. *)
with parse_dict (fuel : nat) (buf : bytes) (i depth : nat) (map : list (bytes * Bencode))
    : result stop (Bencode * nat) :=
  match fuel with
  | 0 => Err OutOfFuel
  | S fuel =>
      match buf !! i with
      | None => Err (Fail Truncated)
      | Some b =>
          if decide (b = "e"%byte) then Ok (BDict map, i + 1)
          else '(key, n) ← lift (parse_bytes buf i);
               '(v, n2) ← parse_value fuel buf n (depth + 1);
               parse_dict fuel buf n2 depth (dict_insert key v map)
      end
  end.

Definition parse_fuel (buf : bytes) : nat := 2 * length buf + 1.

(** [Bencode::parse_prefix] and [Bencode::parse]. *)
Definition parse_prefix (buf : bytes) : Result (Bencode * nat) :=
  unfuel (parse_value (parse_fuel buf) buf 0 0).

Definition parse (buf : bytes) : Result Bencode :=
  '(v, n) ← parse_prefix buf;
  if decide (n ≠ length buf) then Err (Invalid "trailing bytes") else Ok v.

Example parse_spam : parse (bs "d3:bar4:spam3:fooi42ee") =
  Ok (BDict [(bs "bar", BBytes (bs "spam")); (bs "foo", BInt 42)]).
Proof. vm_compute. reflexivity. Qed.
Example parse_lax : parse (bs "d+1:bi-0e01:ai+7ee") =
  Ok (BDict [(bs "a", BInt 7); (bs "b", BInt 0)]).
Proof. vm_compute. reflexivity. Qed.
Example encode_spam : encode (BDict [(bs "bar", BBytes (bs "spam")); (bs "foo", BInt (-42))]) = bs "d3:bar4:spam3:fooi-42ee".
Proof. vm_compute. reflexivity. Qed.

(** ** Well-formed values

    What a [Bencode] of the program satisfies by its Rust type ([i64] integers, sorted maps)
    and how deep it nests. *)

Fixpoint wf (v : Bencode) : bool :=
  match v with
  | BInt i => in_i64 i
  | BBytes _ => true
  | BList l => forallb wf l
  | BDict d => dict_sorted d && forallb (λ kv, wf kv.2) d
  end.

Fixpoint nest (v : Bencode) : nat :=
  match v with
  | BInt _ | BBytes _ => 0
  | BList l => S (max_list (map nest l))
  | BDict d => S (max_list (map (λ kv, nest kv.2) d))
  end.

(** Induction over a value with the hypothesis for every element of a container. *)
Section Bencode_ind.
Context (P : Bencode → Prop).
Context (HInt : ∀ i, P (BInt i)) (HBytes : ∀ b, P (BBytes b)).
Context (HList : ∀ l, Forall P l → P (BList l)).
Context (HDict : ∀ d, Forall (λ kv, P kv.2) d → P (BDict d)).

Fixpoint Bencode_nested_ind (v : Bencode) : P v :=
  match v with
  | BInt i => HInt i
  | BBytes b => HBytes b
  | BList l => HList l ((fix go l : Forall P l :=
      match l with
      | [] => Forall_nil_2 _
      | x :: r => Forall_cons_2 _ _ _ (Bencode_nested_ind x) (go r)
      end) l)
  | BDict d => HDict d ((fix go d : Forall (λ kv, P kv.2) d :=
      match d with
      | [] => Forall_nil_2 _
      | kv :: r => Forall_cons_2 _ _ _ (Bencode_nested_ind kv.2) (go r)
      end) d)
  end.
End Bencode_ind.

(** ** The key order *)

Lemma bytes_cmp_eq a b : bytes_cmp a b = Eq ↔ a = b.
Proof.
  revert b. induction a as [|x a IH]; intros [|y b]; simpl; try done.
  destruct (N.compare_spec (byte_N x) (byte_N y)) as [E|E|E].
  - apply (inj byte_N) in E as ->. rewrite IH. naive_solver.
  - split; [done|]. intros [= -> ->]. lia.
  - split; [done|]. intros [= -> ->]. lia.
Qed.

Lemma bytes_cmp_antisym a b : bytes_cmp b a = CompOpp (bytes_cmp a b).
Proof.
  revert b. induction a as [|x a IH]; intros [|y b]; simpl; try done.
  rewrite (N.compare_antisym (byte_N x)). destruct (byte_N x ?= byte_N y)%N; simpl; auto.
Qed.

Lemma bytes_cmp_trans a b c : bytes_cmp a b = Lt → bytes_cmp b c = Lt → bytes_cmp a c = Lt.
Proof.
  revert b c. induction a as [|x a IH]; intros [|y b] [|z c]; simpl; try done.
  destruct (N.compare_spec (byte_N x) (byte_N y)) as [E1|E1|E1]; [|clear IH|done];
  destruct (N.compare_spec (byte_N y) (byte_N z)) as [E2|E2|E2]; try done;
  destruct (N.compare_spec (byte_N x) (byte_N z)) as [E3|E3|E3]; intros; try done; try lia.
  eauto.
Qed.

Lemma bytes_ltb_trans a b c :
  bytes_ltb a b = true → bytes_ltb b c = true → bytes_ltb a c = true.
Proof.
  unfold bytes_ltb. destruct (bytes_cmp a b) eqn:E1, (bytes_cmp b c) eqn:E2; try done.
  by rewrite (bytes_cmp_trans _ _ _ E1 E2).
Qed.

Lemma bytes_ltb_irrefl a : bytes_ltb a a = false.
Proof. unfold bytes_ltb. by rewrite (proj2 (bytes_cmp_eq a a)). Qed.

Lemma bytes_ltb_ne a b : bytes_ltb a b = true → a ≠ b.
Proof. intros H ->. by rewrite bytes_ltb_irrefl in H. Qed.

(** ** Dictionary laws *)

Section dict.
Context {V : Type}.
Implicit Types (d : list (bytes * V)) (k : bytes) (v : V).

(** In a sorted dictionary every later key is larger than the first. *)
Lemma dict_sorted_cons k v d :
  dict_sorted ((k, v) :: d) = true ↔
  Forall (λ kv, bytes_ltb k kv.1 = true) d ∧ dict_sorted d = true.
Proof.
  revert k v. induction d as [|[k' v'] d IH]; intros k v.
  { simpl. naive_solver. }
  change (dict_sorted ((k, v) :: (k', v') :: d))
    with (bytes_ltb k k' && dict_sorted ((k', v') :: d)).
  rewrite andb_true_iff, Forall_cons. simpl fst. split; [|naive_solver].
  intros [H1 H2]. split; [|done]. split; [done|].
  apply IH in H2 as [H2 _]. eapply Forall_impl; [done|]. intros [k2 v2] Hk. simpl in *.
  by eapply bytes_ltb_trans.
Qed.

Lemma dict_insert_Forall (P : bytes * V → Prop) k v d :
  P (k, v) → (∀ w, P (k, w) → P (k, v)) → Forall P d → Forall P (dict_insert k v d).
Proof.
  intros Hk Hk'. induction 1 as [|[k' v'] d HP Hd IH]; simpl; [by constructor|].
  destruct (bytes_cmp k k') eqn:E; [|by repeat constructor|by constructor].
  apply bytes_cmp_eq in E as <-. by constructor.
Qed.

Lemma dict_insert_sorted k v d :
  dict_sorted d = true → dict_sorted (dict_insert k v d) = true.
Proof.
  induction d as [|[k' v'] d IH]; [done|]. intros Hs.
  pose proof Hs as [Hf Hs']%dict_sorted_cons. simpl.
  destruct (bytes_cmp k k') eqn:E.
  - apply bytes_cmp_eq in E as <-. by apply dict_sorted_cons.
  - apply dict_sorted_cons. split; [|done].
    assert (bytes_ltb k k' = true) as Hlt by (unfold bytes_ltb; by rewrite E).
    constructor; [done|]. eapply Forall_impl; [done|]. intros. by eapply bytes_ltb_trans.
  - apply dict_sorted_cons. split; [|by apply IH].
    assert (bytes_ltb k' k = true) as Hlt
      by (unfold bytes_ltb; by rewrite bytes_cmp_antisym, E).
    by apply dict_insert_Forall.
Qed.

(** Inserting a key above all the others appends. *)
Lemma dict_insert_last k v d :
  Forall (λ kv, bytes_ltb kv.1 k = true) d → dict_insert k v d = d ++ [(k, v)].
Proof.
  induction 1 as [|[k' v'] d Hk Hd IH]; [done|]. simpl in *.
  unfold bytes_ltb in Hk. rewrite bytes_cmp_antisym.
  destruct (bytes_cmp k' k); simpl; try done. by rewrite IH.
Qed.

Lemma dict_get_insert k v k' d :
  dict_get k' (dict_insert k v d) = if decide (k' = k) then Some v else dict_get k' d.
Proof.
  induction d as [|[k2 v2] d IH]; simpl; [done|].
  destruct (bytes_cmp k k2) eqn:E; simpl.
  - apply bytes_cmp_eq in E as ->. by case_decide.
  - by repeat case_decide.
  - rewrite IH. repeat case_decide; subst; try done.
    by rewrite (proj2 (bytes_cmp_eq _ _) eq_refl) in E.
Qed.
End dict.

Lemma dict_get_insert_eq {V} k (v : V) d : dict_get k (dict_insert k v d) = Some v.
Proof. by rewrite dict_get_insert, decide_True. Qed.

Lemma dict_get_insert_ne {V} k k' (v : V) d : bool_decide (k' = k) = false →
  dict_get k' (dict_insert k v d) = dict_get k' d.
Proof. intros Hne%bool_decide_eq_false. by rewrite dict_get_insert, decide_False. Qed.

(** Reads a key of a dictionary built by insertions under literal keys. *)
Ltac dict_read := repeat first
  [ rewrite dict_get_insert_eq
  | rewrite dict_get_insert_ne by (vm_compute; reflexivity) ].

(** Inserting twice under one key keeps the last value. *)
Lemma dict_insert_twice {V} k (v w : V) d : dict_insert k v (dict_insert k w d) = dict_insert k v d.
Proof.
  induction d as [|[k' v'] d IH]; simpl.
  { by rewrite (proj2 (bytes_cmp_eq k k) eq_refl). }
  destruct (bytes_cmp k k') eqn:E; simpl.
  - by rewrite E.
  - by rewrite (proj2 (bytes_cmp_eq k k) eq_refl).
  - by rewrite E, IH.
Qed.

(** Dictionaries built by insertion are well formed and no deeper than their parts. *)
Definition fields_ok (d : list (bytes * Bencode)) : Prop :=
  wf (BDict d) = true ∧ nest (BDict d) ≤ MAX_DEPTH.

Lemma fields_ok_nil : fields_ok [].
Proof. unfold fields_ok, MAX_DEPTH. simpl. lia. Qed.

Lemma fields_ok_insert k v d : wf v = true → nest v < MAX_DEPTH → fields_ok d →
  fields_ok (dict_insert k v d).
Proof.
  intros Hv Hn [Hw Hd]. split.
  - simpl in *. apply andb_true_iff in Hw as [Hs Hf]. rewrite dict_insert_sorted by done. simpl.
    rewrite forallb_Forall in *. by apply dict_insert_Forall.
  - simpl in *. assert (Forall (λ kv, nest kv.2 < MAX_DEPTH) (dict_insert k v d)) as Hall.
    { apply dict_insert_Forall; [done..|]. clear -Hd. induction d as [|[k' v'] d IH]; [constructor|].
      simpl in Hd. constructor; [simpl; lia|]. apply IH. lia. }
    clear -Hall. induction Hall as [|kv l Hk _ IH]; simpl; [unfold MAX_DEPTH; lia|]. lia.
Qed.

(** ** The encoder appends *)

Definition enc_bytes (b : bytes) : bytes := dec_N (lenN b) ++ ":"%byte :: b.

Lemma fold_left_append {A} (f : A → bytes → bytes) (g : A → bytes) l out :
  Forall (λ x, ∀ out, f x out = out ++ g x) l →
  fold_left (λ out x, f x out) l out = out ++ concat (map g l).
Proof.
  intros H. revert out. induction H as [|x l Hx _ IH]; intros out; simpl.
  - by rewrite app_nil_r.
  - by rewrite IH, Hx, <-app_assoc.
Qed.

Lemma encode_into_app v out : encode_into v out = out ++ encode v.
Proof.
  unfold encode. revert out.
  induction v as [i|b|l IH|d IH] using Bencode_nested_ind; intros out; simpl;
    [done|done| |].
  - rewrite !(fold_left_append encode_into (λ e, encode_into e [])) by done.
    by rewrite <-!app_assoc.
  - rewrite !(fold_left_append
      (λ kv out, encode_into kv.2 (out ++ dec_N (lenN kv.1) ++ ":"%byte :: kv.1))
      (λ kv, enc_bytes kv.1 ++ encode_into kv.2 [])); [by rewrite <-!app_assoc| |];
    (eapply Forall_impl; [exact IH|]; intros kv Hkv out'; simpl;
     rewrite Hkv; unfold enc_bytes; by rewrite <-!app_assoc).
Qed.

Lemma encode_list l : encode (BList l) = "l"%byte :: concat (map encode l) ++ ["e"%byte].
Proof.
  unfold encode at 1. simpl.
  rewrite (fold_left_append encode_into encode); [done|].
  apply Forall_forall. intros. apply encode_into_app.
Qed.

Lemma encode_dict d : encode (BDict d) =
  "d"%byte :: concat (map (λ kv, enc_bytes kv.1 ++ encode kv.2) d) ++ ["e"%byte].
Proof.
  unfold encode at 1. simpl.
  rewrite (fold_left_append
    (λ kv out, encode_into kv.2 (out ++ dec_N (lenN kv.1) ++ ":"%byte :: kv.1))
    (λ kv, enc_bytes kv.1 ++ encode kv.2)); [done|].
  apply Forall_forall. intros. rewrite encode_into_app. unfold enc_bytes.
  by rewrite <-!app_assoc.
Qed.

Lemma encode_int i : encode (BInt i) = "i"%byte :: dec_Z i ++ ["e"%byte].
Proof. done. Qed.
Lemma encode_bytes b : encode (BBytes b) = enc_bytes b.
Proof. done. Qed.

(** ** Tokens *)

Lemma lookup_drop_head {A} (l : list A) i x r : drop i l = x :: r → l !! i = Some x.
Proof. intros H. pose proof (lookup_drop l i 0) as E. rewrite H in E. by rewrite Nat.add_0_r in E. Qed.

Lemma drop_after {A} (l : list A) i l1 l2 : drop i l = l1 ++ l2 → drop (i + length l1) l = l2.
Proof. intros H. by rewrite <-drop_drop, H, drop_app_length. Qed.

Lemma slice_after {A} (l : list A) i l1 l2 :
  drop i l = l1 ++ l2 → slice l i (i + length l1) = l1.
Proof.
  intros H. unfold slice. rewrite H.
  replace (i + length l1 - i) with (length l1) by lia. apply take_app_length.
Qed.

Lemma drop_length_le {A} (l : list A) i l1 : drop i l = l1 → l1 ≠ [] → i + length l1 = length l.
Proof. intros <- Hn. rewrite length_drop. destruct (drop i l) eqn:E; [done|].
  apply (f_equal length) in E. rewrite length_drop in E. simpl in E. lia. Qed.

Lemma parse_int_encoded buf pos i post :
  in_i64 i = true → drop pos buf = encode (BInt i) ++ post →
  parse_int buf pos = Ok (BInt i, pos + length (encode (BInt i))).
Proof.
  intros Hi Hd. rewrite encode_int in *.
  assert (drop (pos + 1) buf = dec_Z i ++ "e"%byte :: post) as Hd1.
  { rewrite (drop_after _ _ ["i"%byte] ((dec_Z i ++ ["e"%byte]) ++ post)); [|done].
    by rewrite <-app_assoc. }
  unfold parse_int. rewrite Hd1, position_app by by apply dec_Z_no_delim.
  simpl. replace (length (dec_Z i) + pos + 1) with (pos + 1 + length (dec_Z i)) by lia.
  rewrite (slice_after _ _ _ _ Hd1), dec_Z_utf8, parse_i64_dec by done. simpl.
  do 2 f_equal. rewrite length_app. simpl. lia.
Qed.

Lemma parse_bytes_encoded buf pos s post :
  (lenN buf < two64)%N → drop pos buf = enc_bytes s ++ post →
  parse_bytes buf pos = Ok (s, pos + length (enc_bytes s)).
Proof.
  intros Hlen Hd. unfold enc_bytes in *.
  assert (pos + length (enc_bytes s ++ post) = length buf) as Hl.
  { apply drop_length_le; [done|]. unfold enc_bytes.
    by intros [[? ?]%app_eq_nil ?]%app_eq_nil. }
  rewrite <-app_assoc in Hd. simpl in Hd. unfold enc_bytes in Hl.
  rewrite !length_app in Hl. simpl in Hl. unfold lenN in Hlen.
  unfold parse_bytes. rewrite Hd, position_app by by apply dec_N_no_delim. simpl.
  rewrite (Nat.add_comm _ pos), (slice_after _ _ _ _ Hd), dec_N_utf8.
  rewrite parse_u64_dec by (unfold lenN; lia). simpl.
  apply drop_after in Hd.
  assert (drop (pos + length (dec_N (lenN s)) + 1) buf = s ++ post) as Hs
    by by apply (drop_after _ _ [":"%byte]).
  rewrite (length_app (dec_N _)). simpl.
  set (st := pos + length (dec_N (lenN s)) + 1) in *.
  assert (lenN s = N.of_nat (length s)) as Es by done.
  unfold checked_add. rewrite (proj2 (N.ltb_lt _ _)) by lia. simpl.
  rewrite (proj2 (N.ltb_ge _ _)) by (unfold lenN at 2; lia).
  replace (N.to_nat (N.of_nat st + lenN s)) with (st + length s) by (unfold lenN; lia).
  rewrite (slice_after _ _ _ _ Hs). do 2 f_equal. unfold st. lia.
Qed.

(** The number of digits of a decimal text is the least possible. *)
Lemma digits_value_bound l : forallb is_ascii_digit l = true → (digits_value l < 10 ^ lenN l)%N.
Proof.
  induction l as [|b l IH] using rev_ind; [done|].
  rewrite forallb_app, andb_true_iff. intros [Hl Hb]. simpl in Hb.
  rewrite andb_true_r in Hb. unfold is_ascii_digit in Hb.
  apply andb_true_iff in Hb as [Hb1 Hb2]. apply N.leb_le in Hb1, Hb2.
  specialize (IH Hl). rewrite digits_value_snoc. unfold lenN in *.
  rewrite length_app, Nat2N.inj_add. simpl. rewrite N.pow_add_r.
  change (10 ^ N.of_nat 1)%N with 10%N. unfold digit_value. lia.
Qed.

Lemma parse_digits_length l n : parse_digits l = Some n → length (dec_N n) ≤ length l.
Proof.
  unfold parse_digits. case_match eqn:E; [|done]. intros [= <-].
  apply andb_true_iff in E as [Hne%bool_decide_eq_true Hd].
  apply dec_fuel_length; [by apply digits_value_bound|]. destruct l; simpl; [done|lia].
Qed.

Lemma parse_u64_length l n : parse_u64 l = Some n → length (dec_N n) ≤ length l.
Proof.
  unfold parse_u64. intros (v & Hv & H)%bind_Some. case_match; simplify_eq.
  apply parse_digits_length in Hv. etrans; [done|]. destruct l as [|[] l]; simpl; lia.
Qed.

Lemma parse_i64_length l z : parse_i64 l = Some z → length (dec_Z z) ≤ length l.
Proof.
  intros H. destruct l as [|b l]; [done|].
  assert (∀ v r, parse_digits r = Some v → in_i64 (Z.of_N v) = true →
    length (dec_Z (Z.of_N v)) ≤ length r) as Hpos.
  { intros v r Hv _. unfold dec_Z. rewrite (proj2 (Z.ltb_ge _ _)) by lia.
    rewrite N2Z.id. by apply parse_digits_length. }
  destruct (decide (b = x2d)) as [->|Hm]; [|destruct (decide (b = x2b)) as [->|Hp]].
  - simpl in H. apply bind_Some in H as (v & Hv & H). case_match; simplify_eq.
    apply parse_digits_length in Hv. unfold dec_Z.
    destruct (Z.ltb_spec (- Z.of_N v) 0); simpl.
    + rewrite Z.opp_involutive, N2Z.id. lia.
    + assert (v = 0%N) as -> by lia. simpl in *. lia.
  - simpl in H. apply bind_Some in H as (v & Hv & H). case_match; simplify_eq.
    simpl. etrans; [by eapply Hpos|lia].
  - assert (parse_i64 (b :: l) = v ← parse_digits (b :: l);
      if in_i64 (Z.of_N v) then Some (Z.of_N v) else None) as E by (by destruct b).
    rewrite E in H. apply bind_Some in H as (v & Hv & H). case_match; simplify_eq.
    by eapply Hpos.
Qed.

Lemma position_drop_lt {A} `{EqDecision A} (d : A) (l : list A) i n :
  position d (drop i l) = Some n → i + n < length l.
Proof.
  intros (l1 & l2 & E & <- & _)%position_Some. apply drop_length_le in E; [|by destruct l1].
  rewrite length_app in E. simpl in E. lia.
Qed.

Lemma parse_int_sound buf pos v n : parse_int buf pos = Ok (v, n) →
  pos < n ≤ length buf ∧ ∃ i, v = BInt i ∧ in_i64 i = true ∧ length (encode v) ≤ n - pos.
Proof.
  unfold parse_int.
  intros (e & He%ok_or_Ok_inv%position_drop_lt & H)%bind_Ok_inv.
  case_match; [|done]. apply bind_Ok_inv in H as (i & Hi%ok_or_Ok_inv & [= <- <-]).
  split; [lia|]. exists i. split; [done|]. split; [by eapply parse_i64_range|].
  apply parse_i64_length in Hi. rewrite slice_length in Hi by lia.
  rewrite encode_int. simpl. rewrite length_app. simpl. lia.
Qed.

Lemma parse_bytes_sound buf pos s n : parse_bytes buf pos = Ok (s, n) →
  pos < n ≤ length buf ∧ length (enc_bytes s) ≤ n - pos.
Proof.
  unfold parse_bytes.
  intros (c & Hc%ok_or_Ok_inv%position_drop_lt & H)%bind_Ok_inv.
  apply bind_Ok_inv in H as (len & Hlen%ok_or_Ok_inv & H).
  apply bind_Ok_inv in H as (e & He%ok_or_Ok_inv & H).
  apply checked_add_Some in He as [-> Hov].
  destruct (N.ltb_spec (lenN buf) (N.of_nat (c + pos + 1) + len)) as [|Hle]; [done|].
  injection H as <- <-. unfold lenN in Hle.
  case_match; [|done]. apply parse_u64_length in Hlen.
  rewrite slice_length in Hlen by lia. split; [lia|].
  unfold enc_bytes. rewrite length_app. simpl. unfold lenN. rewrite slice_length by lia.
  rewrite N2Nat.inj_add, Nat2N.id.
  replace (N.of_nat (_ - _)) with len by lia. lia.
Qed.

(** ** Soundness of the parser

    A value that parses is well formed, ends inside the buffer, respects the nesting limit
    and re-encodes in no more bytes than it was read from. *)

Definition elem_ok (depth : nat) (v : Bencode) : Prop :=
  wf v = true ∧ S depth + nest v ≤ MAX_DEPTH.

Definition parsed (buf : bytes) (pos depth : nat) (v : Bencode) (n : nat) : Prop :=
  pos < n ≤ length buf ∧ wf v = true ∧ depth + nest v ≤ MAX_DEPTH ∧
  length (encode v) ≤ n - pos.

Definition enc_entry (kv : bytes * Bencode) : bytes := enc_bytes kv.1 ++ encode kv.2.

Definition parsed_list (buf : bytes) (i depth : nat) (items : list Bencode)
    (v : Bencode) (n : nat) : Prop :=
  ∃ l, v = BList l ∧ i < n ≤ length buf ∧ Forall (elem_ok depth) l ∧
    length (concat (map encode l)) + 1 ≤ length (concat (map encode items)) + (n - i).

Definition parsed_dict (buf : bytes) (i depth : nat) (m : list (bytes * Bencode))
    (v : Bencode) (n : nat) : Prop :=
  ∃ d, v = BDict d ∧ i < n ≤ length buf ∧ dict_sorted d = true ∧
    Forall (λ kv, elem_ok depth kv.2) d ∧
    length (concat (map enc_entry d)) + 1 ≤ length (concat (map enc_entry m)) + (n - i).

Lemma max_list_bound l b : Forall (λ x, x ≤ b) l → max_list l ≤ b.
Proof. induction 1; simpl; lia. Qed.

Lemma elems_nest depth l :
  S depth ≤ MAX_DEPTH → Forall (elem_ok depth) l → depth + S (max_list (map nest l)) ≤ MAX_DEPTH.
Proof.
  intros Hd Hl. assert (max_list (map nest l) ≤ MAX_DEPTH - S depth); [|lia].
  apply max_list_bound, Forall_map. eapply Forall_impl; [done|].
  intros x [_ Hx]. change (nest x ≤ MAX_DEPTH - S depth). lia.
Qed.

Lemma dict_insert_enc_length k v d :
  length (concat (map enc_entry (dict_insert k v d))) ≤
  length (concat (map enc_entry d)) + length (enc_bytes k) + length (encode v).
Proof.
  induction d as [|[k' v'] d IH]; simpl.
  { unfold enc_entry. simpl. rewrite app_nil_r, !length_app. lia. }
  destruct (bytes_cmp k k') eqn:E; simpl; unfold enc_entry in *; simpl;
    rewrite !length_app in *; [|lia|lia].
  apply bytes_cmp_eq in E as <-. lia.
Qed.

Lemma parse_value_sound_step buf fuel :
  (∀ i depth items v n, S depth ≤ MAX_DEPTH → Forall (elem_ok depth) items →
     parse_list fuel buf i depth items = Ok (v, n) → parsed_list buf i depth items v n) →
  (∀ i depth m v n, S depth ≤ MAX_DEPTH → dict_sorted m = true →
     Forall (λ kv, elem_ok depth kv.2) m →
     parse_dict fuel buf i depth m = Ok (v, n) → parsed_dict buf i depth m v n) →
  ∀ pos depth v n, depth ≤ MAX_DEPTH →
    parse_value (S fuel) buf pos depth = Ok (v, n) → parsed buf pos depth v n.
Proof.
  intros IHl IHd pos depth v n Hdep H. simpl in H.
  destruct (buf !! pos) as [b|] eqn:Hb; [|done].
  case_decide as Hi.
  { apply lift_Ok_inv, parse_int_sound in H as (Hp & i & -> & Hw & Hl).
    split_and!; simpl; auto; lia. }
  case_decide as Hdeep; [done|].
  case_decide as Hlst.
  { apply IHl in H as (l & -> & Hp & Hf & Hlen); [|by apply Nat.nle_gt; naive_solver|done].
    split_and!; [lia|lia| | |].
    - simpl. apply forallb_Forall. eapply Forall_impl; [done|]. by intros x [? _].
    - apply elems_nest; [|done]. apply Nat.nle_gt. naive_solver.
    - rewrite encode_list. simpl in *. rewrite length_app. simpl. lia. }
  case_decide as Hdct.
  { apply IHd in H as (d & -> & Hp & Hs & Hf & Hlen); [|by apply Nat.nle_gt; naive_solver|done|done].
    split_and!; [lia|lia| | |].
    - simpl. rewrite Hs. simpl. apply forallb_Forall. eapply Forall_impl; [done|].
      by intros x [? _].
    - assert (Forall (elem_ok depth) (map snd d)) as Hf' by by apply Forall_map.
      apply elems_nest in Hf'; [|by apply Nat.nle_gt; naive_solver].
      rewrite map_map in Hf'. done.
    - rewrite encode_dict. fold enc_entry. simpl in *. rewrite length_app. simpl. lia. }
  case_match; [|done].
  apply bind_Ok_inv in H as ([s n'] & [Hp Hl]%lift_Ok_inv%parse_bytes_sound & [= <- <-]).
  split_and!; simpl; auto; lia.
Qed.

Lemma parse_sound fuel buf :
  (∀ pos depth v n, depth ≤ MAX_DEPTH →
    parse_value fuel buf pos depth = Ok (v, n) → parsed buf pos depth v n) ∧
  (∀ i depth items v n, S depth ≤ MAX_DEPTH → Forall (elem_ok depth) items →
    parse_list fuel buf i depth items = Ok (v, n) → parsed_list buf i depth items v n) ∧
  (∀ i depth m v n, S depth ≤ MAX_DEPTH → dict_sorted m = true →
     Forall (λ kv, elem_ok depth kv.2) m →
     parse_dict fuel buf i depth m = Ok (v, n) → parsed_dict buf i depth m v n).
Proof.
  induction fuel as [|fuel (IHv & IHl & IHd)]; [done|].
  split; [by apply parse_value_sound_step|]. split.
  - intros i depth items v n Hdep Hf H. simpl in H.
    destruct (buf !! i) as [b|] eqn:Hb; [|done]. case_decide.
    { injection H as <- <-. apply lookup_lt_Some in Hb.
      exists items. split_and!; auto; lia. }
    apply bind_Ok_inv in H as ([x n'] & Hx & H).
    apply IHv in Hx as (Hp & Hw & Hn & Hl); [|lia].
    apply IHl in H as (l & -> & Hp' & Hf' & Hlen); [|done|].
    2:{ apply Forall_app. split; [done|]. constructor; [|done]. split; [done|lia]. }
    exists l. split_and!; auto; try lia.
    rewrite map_app, concat_app, length_app in Hlen. simpl in Hlen.
    rewrite app_nil_r in Hlen. lia.
  - intros i depth m v n Hdep Hs Hf H. simpl in H.
    destruct (buf !! i) as [b|] eqn:Hb; [|done]. case_decide.
    { injection H as <- <-. apply lookup_lt_Some in Hb.
      exists m. split_and!; auto; lia. }
    apply bind_Ok_inv in H as ([k n1] & [Hk Hkl]%lift_Ok_inv%parse_bytes_sound & H).
    apply bind_Ok_inv in H as ([x n2] & Hx & H).
    apply IHv in Hx as (Hp & Hw & Hn & Hl); [|lia].
    apply IHd in H as (d & -> & Hp' & Hs' & Hf' & Hlen);
      [|done|by apply dict_insert_sorted|].
    2:{ apply dict_insert_Forall; [split; [done|simpl; lia]| |done].
        intros _ _. split; [done|simpl; lia]. }
    exists d. pose proof (dict_insert_enc_length k x m). split_and!; auto; lia.
Qed.

(** ** Totality of the parser *)

Lemma parse_total fuel buf :
  (∀ pos depth, 2 * (length buf - pos) + 1 ≤ fuel → depth ≤ MAX_DEPTH →
    parse_value fuel buf pos depth ≠ Err OutOfFuel) ∧
  (∀ i depth items, 2 * (length buf - i) + 2 ≤ fuel → S depth ≤ MAX_DEPTH →
    parse_list fuel buf i depth items ≠ Err OutOfFuel) ∧
  (∀ i depth m, 2 * (length buf - i) + 2 ≤ fuel → S depth ≤ MAX_DEPTH →
    parse_dict fuel buf i depth m ≠ Err OutOfFuel).
Proof.
  induction fuel as [|fuel (IHv & IHl & IHd)]; [split_and!; intros; lia|].
  split_and!; intros pos depth; [|intros items|intros m]; intros Hfu Hdep; simpl;
    destruct (buf !! pos) as [b|] eqn:Hb; try done; apply lookup_lt_Some in Hb.
  - case_decide; [auto with outpace|]. case_decide as Hdeep; [done|].
    case_decide; [apply IHl; [lia|apply Nat.nle_gt; naive_solver]|].
    case_decide; [apply IHd; [lia|apply Nat.nle_gt; naive_solver]|].
    case_match; [|done]. apply bind_not_out; [auto with outpace|]. by intros [].
  - case_decide; [done|]. apply bind_not_out; [apply IHv; lia|].
    intros [x n] Hx. apply (proj1 (parse_sound _ _)) in Hx as (Hp & _); [|lia].
    apply IHl; lia.
  - case_decide; [done|]. apply bind_not_out; [auto with outpace|].
    intros [k n1] [Hk _]%lift_Ok_inv%parse_bytes_sound.
    apply bind_not_out; [apply IHv; lia|].
    intros [x n] Hx. apply (proj1 (parse_sound _ _)) in Hx as (Hp & _); [|lia].
    apply IHd; lia.
Qed.

(** ** Completeness of the parser on encodings *)

Definition reads_back (v : Bencode) : Prop :=
  wf v = true → ∀ fuel buf pos depth post,
    (lenN buf < two64)%N → drop pos buf = encode v ++ post →
    depth + nest v ≤ MAX_DEPTH → 2 * length (encode v) ≤ fuel →
    parse_value fuel buf pos depth = Ok (v, pos + length (encode v)).

Lemma enc_bytes_head b : ∃ c r, enc_bytes b = c :: r ∧ is_ascii_digit c = true.
Proof.
  unfold enc_bytes. destruct (dec_N_cons (lenN b)) as (c & r & -> & Hc). simpl. eauto.
Qed.

Lemma encode_head v : ∃ c r, encode v = c :: r ∧ c ≠ "e"%byte.
Proof.
  destruct v; [by eauto| |rewrite encode_list; by eauto|rewrite encode_dict; by eauto].
  destruct (enc_bytes_head b) as (c & r & H & Hc). exists c, r. split; [done|].
  by apply (is_ascii_digit_not _ "e"%byte).
Qed.

Lemma parse_list_encoded l : Forall reads_back l → forallb wf l = true →
  ∀ fuel buf i depth items post,
    (lenN buf < two64)%N →
    drop i buf = concat (map encode l) ++ "e"%byte :: post →
    Forall (λ x, S depth + nest x ≤ MAX_DEPTH) l →
    2 * (length (concat (map encode l)) + 1) ≤ fuel →
    parse_list fuel buf i depth items =
      Ok (BList (items ++ l), i + length (concat (map encode l)) + 1).
Proof.
  induction 1 as [|x l Hx Hl IH]; intros Hwf fuel buf i depth items post Hlen Hd Hn Hf;
    (destruct fuel as [|fuel]; [simpl in Hf; lia|]); simpl in Hd, Hf |- *.
  { rewrite (lookup_drop_head _ _ _ _ Hd), decide_True by done.
    rewrite app_nil_r. do 2 f_equal. lia. }
  rewrite <-app_assoc in Hd. rewrite length_app in *.
  simpl in Hwf. apply andb_true_iff in Hwf as [Hwx Hwl]. apply Forall_cons in Hn as [Hnx Hnl].
  destruct (encode_head x) as (c & r & Ec & Hc).
  assert (buf !! i = Some c) as ->
    by (eapply lookup_drop_head; rewrite Hd, Ec; done).
  assert (0 < length (encode x)) by (rewrite Ec; simpl; lia).
  rewrite decide_False by done.
  rewrite (Hx Hwx _ _ _ _ _ Hlen Hd) by lia. simpl.
  rewrite (IH Hwl _ _ _ _ _ post) by (done || lia || by apply drop_after).
  rewrite <-app_assoc. do 2 f_equal. lia.
Qed.

Lemma parse_dict_encoded d : Forall (λ kv, reads_back kv.2) d →
  forallb (λ kv, wf kv.2) d = true →
  ∀ fuel buf i depth m post,
    (lenN buf < two64)%N → dict_sorted (m ++ d) = true →
    drop i buf = concat (map enc_entry d) ++ "e"%byte :: post →
    Forall (λ kv, S depth + nest kv.2 ≤ MAX_DEPTH) d →
    2 * (length (concat (map enc_entry d)) + 1) ≤ fuel →
    parse_dict fuel buf i depth m =
      Ok (BDict (m ++ d), i + length (concat (map enc_entry d)) + 1).
Proof.
  induction 1 as [|[k x] d Hx Hl IH]; intros Hwf fuel buf i depth m post Hlen Hs Hd Hn Hf;
    (destruct fuel as [|fuel]; [simpl in Hf; lia|]); simpl in Hd, Hf |- *.
  { rewrite (lookup_drop_head _ _ _ _ Hd), decide_True by done.
    rewrite app_nil_r. do 2 f_equal. lia. }
  unfold enc_entry at 1 in Hd. simpl in Hd. rewrite <-!app_assoc in Hd.
  assert (length (enc_entry (k, x)) = length (enc_bytes k) + length (encode x)) as Hke
    by apply length_app.
  rewrite !(length_app (enc_entry _)) in *.
  simpl in Hwf. apply andb_true_iff in Hwf as [Hwx Hwl]. apply Forall_cons in Hn as [Hnx Hnl].
  destruct (enc_bytes_head k) as (c & r & Ec & Hc).
  assert (buf !! i = Some c) as ->
    by (eapply lookup_drop_head; rewrite Hd, Ec; done).
  assert (0 < length (enc_bytes k)) by (rewrite Ec; simpl; lia).
  rewrite decide_False by by apply (is_ascii_digit_not _ "e"%byte).
  rewrite (parse_bytes_encoded _ _ _ _ Hlen Hd). simpl. apply drop_after in Hd.
  rewrite (Hx Hwx _ _ _ _ _ Hlen Hd) by (simpl in *; lia). simpl.
  rewrite dict_insert_last.
  - rewrite (IH Hwl _ _ _ _ _ post); rewrite <-?app_assoc; try done;
      [do 2 f_equal; lia|by apply drop_after|lia].
  - clear -Hs. induction m as [|[k' v'] m IHm]; [constructor|].
    simpl app in Hs. apply dict_sorted_cons in Hs as [Hf Hs].
    constructor; [|auto]. apply Forall_app in Hf as [_ [Hf _]%Forall_cons]. done.
Qed.

Lemma nest_elems {A} (f : A → nat) l depth :
  depth + S (max_list (map f l)) ≤ MAX_DEPTH → Forall (λ x, S depth + f x ≤ MAX_DEPTH) l.
Proof.
  intros H. apply Forall_forall. intros x Hx.
  assert (f x ≤ max_list (map f l)); [|lia].
  apply max_list_elem_of_le, list_elem_of_fmap. eauto.
Qed.

Lemma parse_value_encoded v : reads_back v.
Proof.
  induction v as [i|b|l IH|d IH] using Bencode_nested_ind;
    intros Hwf fuel buf pos depth post Hlen Hd Hn Hf; unfold MAX_DEPTH in Hn;
    (destruct fuel as [|fuel];
     [match type of Hf with 2 * length (encode ?v) ≤ _ =>
        destruct (encode_head v) as (? & ? & E & _); rewrite E in Hf; simpl in Hf; lia end|]).
  - simpl. assert (buf !! pos = Some "i"%byte) as -> by (eapply lookup_drop_head; rewrite Hd; done).
    rewrite decide_True by done. by rewrite (parse_int_encoded _ _ _ _ Hwf Hd).
  - rewrite encode_bytes in *. destruct (enc_bytes_head b) as (c & r & Ec & Hc).
    simpl. assert (buf !! pos = Some c) as ->
      by (eapply lookup_drop_head; rewrite Hd, Ec; done).
    rewrite !decide_False, Hc; try (by apply is_ascii_digit_not);
      [|intros [[->| ->] _]; done].
    by rewrite (parse_bytes_encoded _ _ _ _ Hlen Hd).
  - rewrite encode_list in *. simpl in Hd. rewrite <-app_assoc in Hd. simpl.
    assert (buf !! pos = Some "l"%byte) as -> by (eapply lookup_drop_head; rewrite Hd; done).
    rewrite !(decide_False (P := _ = "i"%byte)), decide_False by (done || unfold MAX_DEPTH; intros [_ ?]; simpl in *; lia).
    rewrite decide_True by done.
    rewrite (parse_list_encoded l IH Hwf _ _ _ _ _ post Hlen); simpl in *;
      [|by apply (drop_after _ _ ["l"%byte])|by apply nest_elems|];
      rewrite length_app in *; simpl in *; [do 2 f_equal|]; lia.
  - rewrite encode_dict in *. fold enc_entry in *. simpl in Hd. rewrite <-app_assoc in Hd. simpl.
    simpl in Hwf. apply andb_true_iff in Hwf as [Hs Hwf].
    assert (buf !! pos = Some "d"%byte) as -> by (eapply lookup_drop_head; rewrite Hd; done).
    rewrite !(decide_False (P := _ = "i"%byte)), decide_False by (done || unfold MAX_DEPTH; intros [_ ?]; simpl in *; lia).
    rewrite decide_False, decide_True by done.
    rewrite (parse_dict_encoded d IH Hwf _ _ _ _ _ post Hlen); simpl in *;
      [|done|by apply (drop_after _ _ ["d"%byte])|by apply nest_elems|];
      rewrite length_app in *; simpl in *; [do 2 f_equal|]; lia.
Qed.

(** ** Fuel independence *)

Lemma parse_fuel_mono fuel buf :
  (∀ pos depth r, parse_value fuel buf pos depth = r → r ≠ Err OutOfFuel →
    parse_value (S fuel) buf pos depth = r) ∧
  (∀ i depth items r, parse_list fuel buf i depth items = r → r ≠ Err OutOfFuel →
    parse_list (S fuel) buf i depth items = r) ∧
  (∀ i depth m r, parse_dict fuel buf i depth m = r → r ≠ Err OutOfFuel →
    parse_dict (S fuel) buf i depth m = r).
Proof.
  induction fuel as [|fuel (IHv & IHl & IHd)]; [split_and!; naive_solver|].
  split_and!.
  - intros pos depth r H Hr. simpl in H. change (parse_value (S (S fuel)) buf pos depth) with
      (match buf !! pos with
       | None => Err (Fail Truncated)
       | Some b =>
          if decide (b = "i"%byte) then lift (parse_int buf pos)
          else if decide ((b = "l"%byte ∨ b = "d"%byte) ∧ MAX_DEPTH ≤ depth) then
            Err (Fail (Invalid "bencode nesting too deep"))
          else if decide (b = "l"%byte) then parse_list (S fuel) buf (pos + 1) depth []
          else if decide (b = "d"%byte) then parse_dict (S fuel) buf (pos + 1) depth []
          else if is_ascii_digit b then
            '(s, n) ← lift (parse_bytes buf pos); Ok (BBytes s, n)
          else Err (Fail (Invalid "unexpected bencode token"))
       end).
    destruct (buf !! pos); [|done]. repeat case_decide; auto.
  - intros i depth items r H Hr. simpl in H.
    change (parse_list (S (S fuel)) buf i depth items) with
      (match buf !! i with
       | None => Err (Fail Truncated)
       | Some b =>
          if decide (b = "e"%byte) then Ok (BList items, i + 1)
          else '(v, n) ← parse_value (S fuel) buf i (depth + 1);
               parse_list (S fuel) buf n depth (items ++ [v])
       end).
    destruct (buf !! i); [|done]. case_decide; [done|].
    destruct (parse_value fuel buf i (depth + 1)) as [[v n]|e] eqn:E; simpl in H;
      (rewrite (IHv _ _ _ E); [|naive_solver]); cbn [mbind result_bind]; auto.
  - intros i depth m r H Hr. simpl in H.
    change (parse_dict (S (S fuel)) buf i depth m) with
      (match buf !! i with
       | None => Err (Fail Truncated)
       | Some b =>
          if decide (b = "e"%byte) then Ok (BDict m, i + 1)
          else '(key, n) ← lift (parse_bytes buf i);
               '(v, n2) ← parse_value (S fuel) buf n (depth + 1);
               parse_dict (S fuel) buf n2 depth (dict_insert key v m)
       end).
    destruct (buf !! i); [|done]. case_decide; [done|].
    destruct (lift (parse_bytes buf i)) as [[k n1]|e]; cbn [mbind result_bind] in *; [|done].
    destruct (parse_value fuel buf n1 (depth + 1)) as [[v n]|e] eqn:E; simpl in H;
      (rewrite (IHv _ _ _ E); [|naive_solver]); cbn [mbind result_bind]; auto.
Qed.

Lemma parse_value_more_fuel k fuel buf pos depth r :
  parse_value fuel buf pos depth = r → r ≠ Err OutOfFuel →
  parse_value (k + fuel) buf pos depth = r.
Proof. intros H Hr. induction k; [done|]. by apply (proj1 (parse_fuel_mono _ _)). Qed.

Lemma parse_prefix_encoded v rest :
  wf v = true → nest v ≤ MAX_DEPTH → (lenN (encode v ++ rest) < two64)%N →
  parse_prefix (encode v ++ rest) = Ok (v, length (encode v)).
Proof.
  intros Hw Hn Hl. unfold parse_prefix. rewrite (parse_value_encoded v Hw _ _ _ _ rest); try done.
  unfold parse_fuel. rewrite length_app. lia.
Qed.

Lemma parse_encoded v : wf v = true → nest v ≤ MAX_DEPTH → (lenN (encode v) < two64)%N →
  parse (encode v) = Ok v.
Proof.
  intros Hw Hn Hl. pose proof (parse_prefix_encoded v [] Hw Hn) as H.
  rewrite app_nil_r in H. unfold parse. rewrite H by done. simpl. by rewrite decide_False by auto.
Qed.

Lemma parse_prefix_sound buf v n :
  parse_prefix buf = Ok (v, n) → parsed buf 0 0 v n.
Proof. intros H%unfuel_Ok_inv. eapply parse_sound; [|done]. lia. Qed.

Lemma parse_inv buf v : parse buf = Ok v → parsed buf 0 0 v (length buf).
Proof.
  unfold parse. intros ([v' n] & H & E)%bind_Ok_inv. case_decide; [done|].
  injection E as <-. replace (length buf) with n by (apply dec_stable; auto).
  by apply parse_prefix_sound.
Qed.

(** ** Locality

    Parsing looks only at the bytes it consumes: it gives the same answer at any other place
    where those bytes occur, also at a smaller depth. *)

Definition agree (buf : bytes) (pos : nat) (buf' : bytes) (pos' m : nat) : Prop :=
  ∀ k, k < m → buf' !! (pos' + k) = buf !! (pos + k).

Lemma agree_sub buf pos buf' pos' m a p p' m' :
  agree buf pos buf' pos' m → p = pos + a → p' = pos' + a → a + m' ≤ m → agree buf p buf' p' m'.
Proof.
  intros H -> -> Hm k Hk. rewrite <-!Nat.add_assoc. apply H. lia.
Qed.

Lemma agree_in_range buf pos buf' pos' m :
  agree buf pos buf' pos' m → 0 < m → pos + m ≤ length buf → pos' + m ≤ length buf'.
Proof.
  intros H Hm Hl. specialize (H (m - 1) ltac:(lia)).
  destruct (lookup_lt_is_Some_2 buf (pos + (m - 1))) as [x Hx]; [lia|].
  rewrite Hx in H. apply lookup_lt_Some in H. lia.
Qed.

Lemma position_lookup {A} `{EqDecision A} (d : A) (l : list A) c :
  position d l = Some c ↔ l !! c = Some d ∧ ∀ j, j < c → l !! j ≠ Some d.
Proof.
  revert c. induction l as [|x l IH]; intros c; simpl; [naive_solver|].
  case_decide as Hx.
  - subst. split; [intros [= <-]; split; [done|lia]|].
    intros [Hc Hj]. destruct c; [done|]. destruct (Hj 0); [lia|done].
  - destruct c as [|c]; simpl.
    + split; [destruct (position d l); naive_solver|naive_solver].
    + assert (S <$> position d l = Some (S c) ↔ position d l = Some c) as ->
        by (destruct (position d l); naive_solver).
      rewrite IH. split; intros [Hc Hj]; (split; [done|]).
      * intros [|j] Hl; [naive_solver|]. apply Hj. lia.
      * intros j Hl. apply (Hj (S j)). lia.
Qed.

Lemma position_agree d buf pos buf' pos' m c :
  agree buf pos buf' pos' m → c < m → position d (drop pos buf) = Some c →
  position d (drop pos' buf') = Some c.
Proof.
  intros Ha Hc. rewrite !position_lookup. setoid_rewrite lookup_drop.
  intros [H1 H2]. split; [by rewrite Ha|]. intros j Hj. rewrite Ha by lia. by apply H2.
Qed.

Lemma slice_agree buf pos buf' pos' m a b :
  agree buf pos buf' pos' m → b ≤ m →
  slice buf' (pos' + a) (pos' + b) = slice buf (pos + a) (pos + b).
Proof.
  intros Ha Hb. unfold slice.
  replace (pos' + b - (pos' + a)) with (b - a) by lia.
  replace (pos + b - (pos + a)) with (b - a) by lia.
  apply list_eq. intros i. destruct (decide (i < b - a)).
  - rewrite !lookup_take_lt, !lookup_drop by done. rewrite <-!Nat.add_assoc. apply Ha. lia.
  - by rewrite !lookup_take_ge by lia.
Qed.

Lemma parse_int_local buf pos buf' pos' v n :
  parse_int buf pos = Ok (v, n) → agree buf pos buf' pos' (n - pos) →
  parse_int buf' pos' = Ok (v, pos' + (n - pos)).
Proof.
  unfold parse_int. intros (e & He%ok_or_Ok_inv & H)%bind_Ok_inv Ha.
  case_match eqn:Hu; [|done]. apply bind_Ok_inv in H as (i & Hi & [= <- <-]).
  assert (agree buf (pos + 1) buf' (pos' + 1) (e + 1)) as Ha1
    by (eapply (agree_sub _ _ _ _ _ 1); [done|lia..]).
  rewrite (position_agree _ _ _ _ _ _ e Ha1) by (done || lia). simpl. replace (e + pos' + 1) with (pos' + (e + 1)) by lia.
  replace (e + pos + 1) with (pos + (e + 1)) in * by lia.
  rewrite (slice_agree _ _ _ _ _ 1 (e + 1) Ha), Hu, Hi by lia. simpl. do 2 f_equal. lia.
Qed.

Lemma parse_bytes_local buf pos buf' pos' s n :
  parse_bytes buf pos = Ok (s, n) → (lenN buf' < two64)%N →
  agree buf pos buf' pos' (n - pos) →
  parse_bytes buf' pos' = Ok (s, pos' + (n - pos)).
Proof.
  intros Hp Hl' Ha. pose proof (parse_bytes_sound _ _ _ _ Hp) as [Hn _].
  assert (pos' + (n - pos) ≤ length buf') as Hr by (eapply agree_in_range; [done|lia..]).
  unfold parse_bytes in *. apply bind_Ok_inv in Hp as (c & Hc%ok_or_Ok_inv & Hp).
  apply bind_Ok_inv in Hp as (len & Hlen & Hp).
  apply bind_Ok_inv in Hp as (e & He%ok_or_Ok_inv & Hp).
  apply checked_add_Some in He as [-> Hov].
  destruct (N.ltb_spec (lenN buf) (N.of_nat (c + pos + 1) + len)) as [|Hle]; [done|].
  injection Hp as <- <-. unfold lenN in *.
  rewrite (position_agree _ _ _ _ _ _ c Ha) by (done || lia). simpl.
  replace (slice buf' pos' (c + pos')) with (slice buf pos (c + pos)).
  2:{ pose proof (slice_agree _ _ _ _ _ 0 c Ha) as E.
      rewrite !Nat.add_0_r, !(Nat.add_comm _ c) in E. rewrite E by lia. done. }
  rewrite Hlen. simpl. unfold checked_add.
  rewrite (proj2 (N.ltb_lt _ _)) by lia. simpl.
  rewrite (proj2 (N.ltb_ge _ _)) by lia.
  do 2 f_equal; [|lia].
  pose proof (slice_agree _ _ _ _ _ (c + 1) (c + 1 + N.to_nat len) Ha) as E.
  replace (pos' + (c + 1)) with (c + pos' + 1) in E by lia.
  replace (pos + (c + 1)) with (c + pos + 1) in E by lia.
  replace (N.to_nat (N.of_nat (c + pos' + 1) + len)) with (pos' + (c + 1 + N.to_nat len)) by lia.
  replace (N.to_nat (N.of_nat (c + pos + 1) + len)) with (pos + (c + 1 + N.to_nat len)) by lia.
  apply E. lia.
Qed.

Definition value_local (fuel : nat) (buf : bytes) : Prop :=
  ∀ pos depth v n buf' pos' depth',
    parse_value fuel buf pos depth = Ok (v, n) → depth ≤ MAX_DEPTH → depth' ≤ depth →
    (lenN buf' < two64)%N → agree buf pos buf' pos' (n - pos) →
    parse_value fuel buf' pos' depth' = Ok (v, pos' + (n - pos)).

Definition list_local (fuel : nat) (buf : bytes) : Prop :=
  ∀ i depth items v n buf' i' depth',
    parse_list fuel buf i depth items = Ok (v, n) → Forall (elem_ok depth) items →
    S depth ≤ MAX_DEPTH → depth' ≤ depth → (lenN buf' < two64)%N →
    agree buf i buf' i' (n - i) →
    parse_list fuel buf' i' depth' items = Ok (v, i' + (n - i)).

Definition dict_local (fuel : nat) (buf : bytes) : Prop :=
  ∀ i depth m v n buf' i' depth',
    parse_dict fuel buf i depth m = Ok (v, n) → dict_sorted m = true →
    Forall (λ kv, elem_ok depth kv.2) m →
    S depth ≤ MAX_DEPTH → depth' ≤ depth → (lenN buf' < two64)%N →
    agree buf i buf' i' (n - i) →
    parse_dict fuel buf' i' depth' m = Ok (v, i' + (n - i)).

Lemma agree_lookup buf pos buf' pos' m b :
  agree buf pos buf' pos' m → 0 < m → buf !! pos = Some b → buf' !! pos' = Some b.
Proof. intros Ha Hm Hb. specialize (Ha 0 Hm). rewrite !Nat.add_0_r in Ha. congruence. Qed.

Lemma value_local_step fuel buf :
  list_local fuel buf → dict_local fuel buf → value_local (S fuel) buf.
Proof.
  intros IHl IHd pos depth v n buf' pos' depth' H Hd Hd' Hl' Ha.
  pose proof (proj1 (parse_sound _ _) _ _ _ _ Hd H) as (Hp & _).
  simpl in H. destruct (buf !! pos) as [b|] eqn:Hb; [|done].
  simpl. rewrite (agree_lookup _ _ _ _ _ b Ha) by (done || lia).
  case_decide.
  { apply lift_Ok_inv in H. by rewrite (parse_int_local _ _ _ _ _ _ H Ha). }
  case_decide as Hdeep; [done|].
  rewrite (decide_False (P := _ ∧ _)) by (intros [? ?]; apply Hdeep; split; [done|lia]).
  case_decide.
  { assert (S depth ≤ MAX_DEPTH) as Hsd by (apply Nat.nle_gt; naive_solver).
    pose proof (proj1 (proj2 (parse_sound _ _)) _ _ _ _ _ Hsd (Forall_nil_2 _) H)
      as (res & _ & Hn & _).
    rewrite (IHl _ _ _ _ _ buf' (pos' + 1) depth' H); [|done|lia|done|done|].
    - do 2 f_equal. lia.
    - eapply (agree_sub _ _ _ _ _ 1); [done|lia..]. }
  case_decide.
  { assert (S depth ≤ MAX_DEPTH) as Hsd by (apply Nat.nle_gt; naive_solver).
    pose proof (proj2 (proj2 (parse_sound _ _)) _ _ [] _ _ Hsd eq_refl (Forall_nil_2 _) H)
      as (res & _ & Hn & _).
    rewrite (IHd _ _ _ _ _ buf' (pos' + 1) depth' H); [|done|done|lia|done|done|].
    - do 2 f_equal. lia.
    - eapply (agree_sub _ _ _ _ _ 1); [done|lia..]. }
  case_match; [|done].
  apply bind_Ok_inv in H as ([s n'] & Hs%lift_Ok_inv & [= <- <-]).
  by rewrite (parse_bytes_local _ _ _ _ _ _ Hs Hl' Ha).
Qed.

Lemma list_local_step fuel buf :
  value_local fuel buf → list_local fuel buf → list_local (S fuel) buf.
Proof.
  intros IHv IHl i depth items v n buf' i' depth' H Hf Hd Hd' Hl' Ha.
  pose proof (proj1 (proj2 (parse_sound _ _)) _ _ _ _ _ Hd Hf H) as (res & _ & Hn & _).
  simpl in H. destruct (buf !! i) as [b|] eqn:Hb; [|done].
  simpl. rewrite (agree_lookup _ _ _ _ _ b Ha) by (done || lia).
  case_decide. { injection H as <- <-. do 2 f_equal. lia. }
  apply bind_Ok_inv in H as ([x n1] & Hx & H).
  pose proof (proj1 (parse_sound _ _) _ (depth + 1) _ _ ltac:(lia) Hx) as (Hp & Hw & Hne & _).
  assert (Forall (elem_ok depth) (items ++ [x])) as Hf'.
  { apply Forall_app. split; [done|]. constructor; [|done]. split; [done|lia]. }
  pose proof (proj1 (proj2 (parse_sound _ _)) _ _ _ _ _ Hd Hf' H) as (res1 & _ & Hn1 & _).
  rewrite (IHv _ _ _ _ buf' i' (depth' + 1) Hx); [|lia|lia|done|].
  2:{ eapply (agree_sub _ _ _ _ _ 0); [done|lia..]. }
  simpl. rewrite (IHl _ _ _ _ _ buf' (i' + (n1 - i)) depth' H); [|done|lia|done|done|].
  - do 2 f_equal. lia.
  - eapply (agree_sub _ _ _ _ _ (n1 - i)); [done|lia..].
Qed.

Lemma dict_local_step fuel buf :
  value_local fuel buf → dict_local fuel buf → dict_local (S fuel) buf.
Proof.
  intros IHv IHd i depth m v n buf' i' depth' H Hs Hf Hd Hd' Hl' Ha.
  pose proof (proj2 (proj2 (parse_sound _ _)) _ _ _ _ _ Hd Hs Hf H) as (res & _ & Hn & _).
  simpl in H. destruct (buf !! i) as [b|] eqn:Hb; [|done].
  simpl. rewrite (agree_lookup _ _ _ _ _ b Ha) by (done || lia).
  case_decide. { injection H as <- <-. do 2 f_equal. lia. }
  apply bind_Ok_inv in H as ([k n0] & Hk%lift_Ok_inv & H).
  pose proof (parse_bytes_sound _ _ _ _ Hk) as [Hkn _].
  apply bind_Ok_inv in H as ([x n1] & Hx & H).
  pose proof (proj1 (parse_sound _ _) _ (depth + 1) _ _ ltac:(lia) Hx) as (Hp & Hw & Hne & _).
  assert (Forall (λ kv, elem_ok depth kv.2) (dict_insert k x m)) as Hf'.
  { apply dict_insert_Forall; [split; [done|simpl; lia]| |done].
    intros _ _. split; [done|simpl; lia]. }
  pose proof (dict_insert_sorted k x m Hs) as Hs'.
  pose proof (proj2 (proj2 (parse_sound _ _)) _ _ _ _ _ Hd Hs' Hf' H) as (res1 & _ & Hn1 & _).
  rewrite (parse_bytes_local _ _ buf' i' _ _ Hk Hl').
  2:{ eapply (agree_sub _ _ _ _ _ 0); [done|lia..]. }
  simpl. rewrite (IHv _ _ _ _ buf' (i' + (n0 - i)) (depth' + 1) Hx); [|lia|lia|done|].
  2:{ eapply (agree_sub _ _ _ _ _ (n0 - i)); [done|lia..]. }
  simpl. rewrite (IHd _ _ _ _ _ buf' (i' + (n0 - i) + (n1 - n0)) depth' H);
    [|done|done|lia|done|done|].
  - do 2 f_equal. lia.
  - eapply (agree_sub _ _ _ _ _ (n1 - i)); [done|lia..].
Qed.

Lemma parse_local fuel buf : value_local fuel buf ∧ list_local fuel buf ∧ dict_local fuel buf.
Proof.
  induction fuel as [|fuel (IHv & IHl & IHd)]; [split_and!; by intros ???|].
  split_and!; [by apply value_local_step|by apply list_local_step|by apply dict_local_step].
Qed.

(** The bytes of a value read in the middle of a buffer are, alone, a complete encoding of
    it for [Bencode::parse]. *)
Lemma parse_of_window fuel buf pos depth v n :
  (lenN buf < two64)%N → depth ≤ MAX_DEPTH →
  parse_value fuel buf pos depth = Ok (v, n) → parse (slice buf pos n) = Ok v.
Proof.
  intros Hl Hd H. pose proof (proj1 (parse_sound _ _) _ _ _ _ Hd H) as (Hp & _).
  assert (length (slice buf pos n) = n - pos) as Hsl by (apply slice_length; lia).
  assert (parse_value fuel (slice buf pos n) 0 0 = Ok (v, n - pos)) as H'.
  { apply (proj1 (parse_local fuel buf) pos depth v n _ 0 0); [done|done|lia| |].
    - unfold lenN in *. lia.
    - intros k Hk. unfold slice. simpl. rewrite lookup_take_lt by lia. apply lookup_drop. }
  assert (parse_value (parse_fuel (slice buf pos n)) (slice buf pos n) 0 0 = Ok (v, n - pos)) as H2.
  { set (w := slice buf pos n) in *.
    assert (parse_value (parse_fuel w) w 0 0 ≠ Err OutOfFuel) as Ht
      by (apply parse_total; unfold parse_fuel; lia).
    rewrite <-(parse_value_more_fuel fuel _ _ _ _ _ eq_refl Ht), Nat.add_comm.
    by apply parse_value_more_fuel. }
  unfold parse, parse_prefix. rewrite H2. simpl. rewrite Hsl. by rewrite decide_False by auto.
Qed.

Lemma get_wf root key v : wf root = true → get root key = Some v → wf v = true.
Proof.
  destruct root as [| | |d]; try done. simpl. intros [_ Hf]%andb_true_iff. revert Hf.
  induction d as [|[k w] d IH]; simpl; [done|]. intros [Hw Hd]%andb_true_iff.
  case_decide; [by intros [= ->]|auto].
Qed.

Lemma get_int_range root key z :
  wf root = true → get root key ≫= as_int = Some z → (i64_min ≤ z ≤ i64_max)%Z.
Proof.
  intros Hw H. apply bind_Some in H as ([] & Hg & H); try done. simplify_eq/=.
  apply get_wf in Hg; [|done]. simpl in Hg. unfold in_i64 in Hg.
  apply andb_true_iff in Hg as [?%Z.leb_le ?%Z.leb_le]. done.
Qed.

(** ** Theorems *)

(** C26: encoding round-trips.  The encoding of any well-formed value within the nesting
    limit, followed by arbitrary further bytes, is read back by [Bencode::parse_prefix] as
    that value with exactly its encoding consumed, and [Bencode::parse] of the encoding alone
    is the value.  (Any byte string a program holds is shorter than 2^64 bytes.) *)
Theorem parse_encode_roundtrip v rest :
  wf v = true → nest v ≤ MAX_DEPTH → (lenN (encode v ++ rest) < two64)%N →
  parse_prefix (encode v ++ rest) = Ok (v, length (encode v)) ∧ parse (encode v) = Ok v.
Proof.
  intros Hw Hn Hl. split; [by apply parse_prefix_encoded|].
  apply parse_encoded; [done..|]. rewrite lenN_app in Hl. lia.
Qed.

Lemma parse_encode_roundtrip_witness :
  parse_prefix (encode (BDict [(bs "a", BList [BInt (-7); BBytes (bs "x")])]) ++ bs "zz") =
    Ok (BDict [(bs "a", BList [BInt (-7); BBytes (bs "x")])],
        length (encode (BDict [(bs "a", BList [BInt (-7); BBytes (bs "x")])]))) ∧
  parse (encode (BDict [(bs "a", BList [BInt (-7); BBytes (bs "x")])])) =
    Ok (BDict [(bs "a", BList [BInt (-7); BBytes (bs "x")])]).
Proof.
  apply (parse_encode_roundtrip _ (bs "zz")); [reflexivity | vm_compute; lia | vm_compute; reflexivity].
Defined.

(** C27: the parser always answers.  On every buffer, any fuel from [parse_fuel] on gives one
    and the same answer, and that answer is never the exhaustion of fuel: the recursion of
    [parse_value]/[parse_list]/[parse_dict] terminates on all inputs. *)
Theorem parse_terminates buf fuel :
  parse_fuel buf ≤ fuel →
  parse_value fuel buf 0 0 = parse_value (parse_fuel buf) buf 0 0 ∧
  parse_value fuel buf 0 0 ≠ Err OutOfFuel.
Proof.
  intros Hf. assert (parse_value (parse_fuel buf) buf 0 0 ≠ Err OutOfFuel) as Ht
    by (apply parse_total; unfold parse_fuel; lia).
  replace fuel with ((fuel - parse_fuel buf) + parse_fuel buf) by lia.
  by rewrite (parse_value_more_fuel _ _ _ _ _ _ eq_refl).
Qed.

Lemma parse_terminates_witness :
  parse_value 100 (bs "li1eli2eee") 0 0 =
    parse_value (parse_fuel (bs "li1eli2eee")) (bs "li1eli2eee") 0 0 ∧
  parse_value 100 (bs "li1eli2eee") 0 0 ≠ Err OutOfFuel.
Proof. apply (parse_terminates (bs "li1eli2eee") 100). vm_compute. lia. Defined.

(** what the parser accepts is canonicalised.  A value accepted by [Bencode::parse] is
    well formed (its integers fit [i64], its dictionaries are sorted maps), nests at most
    [MAX_DEPTH] deep, and its re-encoding is no longer than the input and parses to the same
    value again. *)
Theorem parse_canonicalises buf v :
  (lenN buf < two64)%N → parse buf = Ok v →
  wf v = true ∧ nest v ≤ MAX_DEPTH ∧ length (encode v) ≤ length buf ∧ parse (encode v) = Ok v.
Proof.
  intros Hl (Hp & Hw & Hn & He)%parse_inv. simpl in *.
  split_and!; [done|done|lia|]. apply parse_encoded; [done|done|]. unfold lenN in *. lia.
Qed.

Lemma parse_canonicalises_witness :
  wf (BDict [(bs "a", BInt 7); (bs "b", BInt 0)]) = true ∧
  nest (BDict [(bs "a", BInt 7); (bs "b", BInt 0)]) ≤ MAX_DEPTH ∧
  length (encode (BDict [(bs "a", BInt 7); (bs "b", BInt 0)])) ≤ length (bs "d+1:bi-0e01:ai+7ee") ∧
  parse (encode (BDict [(bs "a", BInt 7); (bs "b", BInt 0)])) =
    Ok (BDict [(bs "a", BInt 7); (bs "b", BInt 0)]).
Proof.
  apply (parse_canonicalises (bs "d+1:bi-0e01:ai+7ee")); vm_compute; reflexivity.
Defined.

(** The encoding is a prefix code.  If the encodings of two well-formed values, each with
    further bytes, are equal then the values and the further bytes are: a digest of an
    encoding determines the encoded value up to collisions of the hash. *)
Lemma encode_prefix_code v1 v2 r1 r2 :
  wf v1 = true → wf v2 = true → nest v1 ≤ MAX_DEPTH → nest v2 ≤ MAX_DEPTH →
  (lenN (encode v1 ++ r1) < two64)%N →
  encode v1 ++ r1 = encode v2 ++ r2 → v1 = v2 ∧ r1 = r2.
Proof.
  intros W1 W2 N1 N2 Hl He. pose proof (parse_prefix_encoded v1 r1 W1 N1 Hl) as P1.
  rewrite He in P1, Hl. rewrite (parse_prefix_encoded v2 r2 W2 N2 Hl) in P1.
  injection P1 as -> _. split; [done|]. by eapply app_inv_head.
Qed.
