(* ===== verification/Metainfo.v ===== *)
(** * Exported torrent metainfo and descriptor protection

    [ace-wire/src/metainfo.rs] and [ace-wire/src/protection.rs]: the strict single-file
    metainfo decoder with its own bounded bencode parser, the validation of the piece
    geometry and of the tracker URLs, and the zero/one protection policy.  SHA-1 is a
    parameter. *)

From S2P Require Import Prelude Bytes Wire Bencode.

(** ** Protection *)

Inductive Protection : Type := Public | Protected.

Definition classify (value : option Bencode) : Result Protection :=
  match value with
  | None | Some (BInt 0) => Ok Public
  | Some (BInt 1) => Ok Protected
  | Some _ => Err InvalidProtection
  end.

(** ** The strict parser *)

Definition MAX_BYTES : N := 1048576.
Definition MAX_VALUES : N := 65536.
Definition BLOCK_LENGTH : N := 16384.
Definition MAX_PIECE_LENGTH : N := 8 * 1048576.
Definition MAX_TRACKERS : N := 128.
Definition MAX_TRACKER_BYTES : N := 2048.

(** [Parser]: the mutable part; the input bytes are an argument of every operation. *)
Record Parser : Type := mkParser {
  pos : nat;
  values : N;
  info_span : option (nat * nat);
}.

Definition set_pos (p : nat) (st : Parser) : Parser := mkParser p (values st) (info_span st).
Definition bump_values (st : Parser) : Parser :=
  mkParser (pos st) (values st + 1) (info_span st).
Definition set_span (s : nat * nat) (st : Parser) : Parser :=
  mkParser (pos st) (values st) (Some s).

Definition decimal (l : bytes) : bool :=
  match l with
  | [] => false
  | b :: r => (bool_decide (r = []) || negb (bool_decide (b = "0"%byte)))
              && forallb is_ascii_digit l
  end.

Definition peek (bytes : bytes) (st : Parser) : Result byte :=
  ok_or (bytes !! pos st) Truncated.

Definition until (bytes : bytes) (delimiter : byte) (st : Parser) : Result (list byte * Parser) :=
  let start := pos st in
  len ← ok_or (position delimiter (drop start bytes)) Truncated;
  Ok (slice bytes start (start + len), set_pos (start + len + 1) st).

(** [token.iter().try_fold(0usize, ..)]: the checked decimal value of a length. *)
Definition checked_decimal (token : bytes) : option N :=
  foldl (λ acc digit,
    len ← acc; m ← checked_mul len 10; checked_add m (digit_value digit)) (Some 0%N) token.

Definition strip_prefix {A} `{EqDecision A} (p l : list A) : option (list A) :=
  if starts_with l p then Some (drop (length p) l) else None.

Definition strict_int (bytes : bytes) (st : Parser) : Result (Bencode * Parser) :=
  '(token, st) ← until bytes "e"%byte (set_pos (pos st + 1) st);
  let digits := default token (strip_prefix ["-"%byte] token) in
  if negb (decimal digits) || bool_decide (token = bs "-0") then
    Err (Invalid "noncanonical metainfo integer")
  else
    value ← ok_or (if utf8_valid token then parse_i64 token else None)
      (Invalid "metainfo integer overflow");
    Ok (BInt value, st).

Definition strict_bytes (bytes : bytes) (st : Parser) : Result (Bencode * Parser) :=
  '(token, st) ← until bytes ":"%byte st;
  if negb (decimal token) then Err (Invalid "noncanonical metainfo string length")
  else
    e ← ok_or (len ← checked_decimal token; checked_add (N.of_nat (pos st)) len)
      (Invalid "metainfo string length overflow");
    if bool_decide (N.of_nat (pos st) ≤ e ∧ e ≤ lenN bytes)%N then
      Ok (BBytes (slice bytes (pos st) (N.to_nat e)), set_pos (N.to_nat e) st)
    else Err Truncated.

Fixpoint value (fuel : nat) (bytes : bytes) (st : Parser) (depth : nat)
    : result stop (Bencode * Parser) :=
  match fuel with
  | 0 => Err OutOfFuel
  | S fuel =>
      let st := bump_values st in
      if (MAX_VALUES <? values st)%N then Err (Fail (Invalid "too many metainfo values"))
      else
        b ← lift (peek bytes st);
        if decide (b = "i"%byte) then lift (strict_int bytes st)
        else if is_ascii_digit b then lift (strict_bytes bytes st)
        else if decide ((b = "l"%byte ∨ b = "d"%byte) ∧ MAX_DEPTH ≤ depth) then
          Err (Fail (Invalid "metainfo nesting too deep"))
        else if decide (b = "l"%byte) then
          value_list fuel bytes (set_pos (pos st + 1) st) depth []
        else if decide (b = "d"%byte) then
          value_dict fuel bytes (set_pos (pos st + 1) st) depth []
        else Err (Fail (Invalid "unexpected metainfo token"))
  end
(** The [while self.peek()? != b'e'] loop of a list. *)
with value_list (fuel : nat) (bytes : bytes) (st : Parser) (depth : nat) (items : list Bencode)
    : result stop (Bencode * Parser) :=
  match fuel with
  | 0 => Err OutOfFuel
  | S fuel =>
      b ← lift (peek bytes st);
      if decide (b = "e"%byte) then Ok (BList items, set_pos (pos st + 1) st)
      else
        '(v, st) ← value fuel bytes st (depth + 1);
        value_list fuel bytes st depth (items ++ [v])
  end
(** The [while self.peek()? != b'e'] loop of a dictionary. *)
with value_dict (fuel : nat) (bytes : bytes) (st : Parser) (depth : nat)
    (items : list (list byte * Bencode)) : result stop (Bencode * Parser) :=
  match fuel with
  | 0 => Err OutOfFuel
  | S fuel =>
      b ← lift (peek bytes st);
      if decide (b = "e"%byte) then Ok (BDict items, set_pos (pos st + 1) st)
      else if negb (is_ascii_digit b) then
        Err (Fail (Invalid "metainfo key is not a byte string"))
      else
        '(k, st) ← value fuel bytes st (depth + 1);
        match k with
        | BBytes key =>
            match dict_get key items with
            | Some _ => Err (Fail (Invalid "duplicate metainfo key"))
            | None =>
                let start := pos st in
                '(v, st) ← value fuel bytes st (depth + 1);
                let st := if bool_decide (depth = 0 ∧ key = bs "info")
                          then set_span (start, pos st) st else st in
                value_dict fuel bytes st depth (dict_insert key v items)
            end
        | _ => Err Panicked
        end
  end.

(** ** Validation *)

(** [is_ascii_control] and [is_ascii_whitespace]. *)
Definition is_ascii_control (b : byte) : bool :=
  ((byte_N b <? 32) || (byte_N b =? 127))%N.
Definition is_ascii_whitespace (b : byte) : bool :=
  ((byte_N b =? 9) || (byte_N b =? 10) || (byte_N b =? 12) || (byte_N b =? 13)
   || (byte_N b =? 32))%N.

(** [rest.split(['/', '?', '#']).next()]. *)
Fixpoint authority_of (l : bytes) : bytes :=
  match l with
  | [] => []
  | b :: r => if decide (b = "/"%byte ∨ b = "?"%byte ∨ b = "#"%byte) then [] else b :: authority_of r
  end.

Fixpoint find_map {A B} (f : A → option B) (l : list A) : option B :=
  match l with
  | [] => None
  | x :: r => match f x with Some y => Some y | None => find_map f r end
  end.

Definition positive (info : Bencode) (key : bytes) : Result N :=
  match get info key ≫= as_int with
  | Some value => if (0 <? value)%Z then Ok (i64_as_u64 value)
                  else Err (Invalid "missing or non-positive metainfo length")
  | None => Err (Invalid "missing or non-positive metainfo length")
  end.

(** [add_tracker]: the mutable [urls] and [count] are threaded. *)
Definition add_tracker (value : Bencode) (acc : list bytes * N) : Result (list bytes * N) :=
  let '(urls, count) := acc in
  let count := (count + 1)%N in
  if (MAX_TRACKERS <? count)%N then Err (Invalid "too many metainfo trackers")
  else
    raw ← ok_or (as_bytes value ≫= λ v,
        if bool_decide (v ≠ []) && (lenN v <=? MAX_TRACKER_BYTES)%N then Some v else None)
      (Invalid "invalid metainfo tracker");
    if negb (utf8_valid raw) then Err (Invalid "tracker is not utf-8")
    else
      let authority :=
        rest ← find_map (λ p, strip_prefix p raw) [bs "http://"; bs "https://"; bs "udp://"];
        let a := authority_of rest in
        if bool_decide (a ≠ []) then Some a else None in
      if bool_decide (authority = None)
         || existsb (λ b, is_ascii_control b || is_ascii_whitespace b) raw
      then Err (Invalid "invalid metainfo tracker URL")
      else if bool_decide (raw ∈ urls) then Ok (urls, count)
      else Ok (urls ++ [raw], count).

Fixpoint add_trackers (entries : list Bencode) (acc : list bytes * N) : Result (list bytes * N) :=
  match entries with
  | [] => Ok acc
  | e :: r => acc ← add_tracker e acc; add_trackers r acc
  end.

Fixpoint add_tiers (tiers : list Bencode) (acc : list bytes * N) : Result (list bytes * N) :=
  match tiers with
  | [] => Ok acc
  | BList entries :: r => acc ← add_trackers entries acc; add_tiers r acc
  | _ :: _ => Err (Invalid "invalid announce tier")
  end.

Definition trackers (root : Bencode) : Result (list bytes) :=
  acc ← (match get root (bs "announce") with
         | Some announce => add_tracker announce ([], 0%N)
         | None => Ok ([], 0%N)
         end);
  acc ← (match get root (bs "announce-list") with
         | Some (BList tiers) => add_tiers tiers acc
         | Some _ => Err (Invalid "invalid announce-list")
         | None => Ok acc
         end);
  Ok acc.1.

Record Metainfo : Type := mkMetainfo {
  protection : Protection;
  infohash : bytes;
  piece_length : N;
  total_length : N;
  piece_hashes : list bytes;
  mi_trackers : list bytes;
}.

Definition value_fuel (bytes : bytes) : nat := 2 * length bytes + 1.

Definition is_dict (v : Bencode) : bool := match v with BDict _ => true | _ => false end.

Section Decode.
Context (sha1 : bytes → bytes).

Definition decode_metainfo (bytes : bytes) : Result Metainfo :=
  if (MAX_BYTES <? lenN bytes)%N then Err (Invalid "metainfo too large")
  else
    '(root, parser) ← unfuel (value (value_fuel bytes) bytes (mkParser 0 0 None) 0);
    if negb (bool_decide (pos parser = length bytes)) then
      Err (Invalid "trailing metainfo bytes")
    else
      info ← ok_or (get root (bs "info") ≫= λ v, if is_dict v then Some v else None)
        (Invalid "metainfo missing info dictionary");
      if bool_decide (is_Some (get info (bs "files"))) then
        Err (Invalid "multi-file metainfo is not supported")
      else
        total_length ← positive info (bs "length");
        piece_length ← positive info (bs "piece length");
        if (MAX_PIECE_LENGTH <? piece_length)%N
           || negb (is_multiple_of piece_length BLOCK_LENGTH)
           || (65535 <? piece_length `div` BLOCK_LENGTH)%N
        then Err (Invalid "unsupported metainfo piece geometry")
        else
          pieces ← ok_or (get info (bs "pieces") ≫= as_bytes)
            (Invalid "metainfo missing binary pieces");
          if bool_decide (pieces = []) || negb (is_multiple_of (lenN pieces) 20)
             || negb (lenN pieces `div` 20 =? div_ceil total_length piece_length)%N
          then Err (Invalid "metainfo piece count does not match length")
          else
            span ← ok_or (info_span parser) (Invalid "metainfo missing info span");
            protection ← classify (get info (bs "premium"));
            urls ← trackers root;
            Ok (mkMetainfo protection (sha1 (slice bytes span.1 span.2))
                  piece_length total_length (chunks_exact 20 pieces) urls).
End Decode.

(** ** Tokens of the strict parser *)

Lemma checked_mul_Some a b c : checked_mul a b = Some c ↔ c = (a * b)%N ∧ (a * b < two64)%N.
Proof. unfold checked_mul. case (N.ltb_spec (a * b) two64); naive_solver lia. Qed.

Lemma checked_decimal_value token len :
  checked_decimal token = Some len → digits_value token = len ∧ (len < two64)%N.
Proof.
  revert len. induction token as [|b l IH] using rev_ind; intros len.
  { intros [= <-]. done. }
  unfold checked_decimal. rewrite foldl_app. simpl. fold (checked_decimal l).
  intros (v & Hv & H)%bind_Some. apply bind_Some in H as (m & Hm & H).
  apply checked_mul_Some in Hm as [-> _]. apply checked_add_Some in H as [-> Hlt].
  apply IH in Hv as [<- _]. by rewrite digits_value_snoc.
Qed.

Lemma decimal_spec l : decimal l = true → l ≠ [] ∧ forallb is_ascii_digit l = true.
Proof. destruct l; simpl; [done|]. intros [_ H]%andb_true_iff. done. Qed.

Lemma until_inv bytes d st tok st' : until bytes d st = Ok (tok, st') →
  ∃ len, position d (drop (pos st) bytes) = Some len ∧
    tok = slice bytes (pos st) (pos st + len) ∧ st' = set_pos (pos st + len + 1) st.
Proof. unfold until. intros (len & Hl%ok_or_Ok_inv & [= <- <-])%bind_Ok_inv. eauto. Qed.

Lemma strict_int_refines bytes st v st' : strict_int bytes st = Ok (v, st') →
  parse_int bytes (pos st) = Ok (v, pos st') ∧ info_span st' = info_span st.
Proof.
  unfold strict_int. intros ([tok st1] & (len & Hp & -> & ->)%until_inv & H)%bind_Ok_inv.
  case_match eqn:Hc; [done|]. apply bind_Ok_inv in H as (z & Hz & [= <- <-]). simpl in *.
  unfold parse_int. rewrite Hp. simpl.
  replace (len + pos st + 1) with (pos st + 1 + len) by lia.
  apply ok_or_Ok_inv in Hz. case_match; [|done]. by rewrite Hz.
Qed.

Lemma strict_bytes_refines bytes st v st' : strict_bytes bytes st = Ok (v, st') →
  ∃ s, v = BBytes s ∧ parse_bytes bytes (pos st) = Ok (s, pos st') ∧
    info_span st' = info_span st.
Proof.
  unfold strict_bytes. intros ([tok st1] & (len & Hp & -> & ->)%until_inv & H)%bind_Ok_inv.
  case_match eqn:Hdec; [done|]. apply negb_false_iff, decimal_spec in Hdec as [Hne Hdig].
  apply bind_Ok_inv in H as (e & He%ok_or_Ok_inv & H).
  apply bind_Some in He as (n & [<- Hn]%checked_decimal_value & He). simpl in *.
  case_bool_decide as Hr; [|done]. injection H as <- <-. eexists. split; [done|]. split; [|done].
  unfold parse_bytes. rewrite Hp. simpl. rewrite (Nat.add_comm len).
  rewrite utf8_valid_ascii by by apply digits_ascii.
  rewrite parse_u64_digits by done. unfold parse_digits at 1.
  rewrite bool_decide_true, Hdig by done. simpl.
  rewrite (proj2 (N.ltb_lt _ _) Hn). simpl. rewrite He. simpl.
  rewrite (proj2 (N.ltb_ge _ _)) by lia. done.
Qed.

(** At a digit the strict parser reads a byte string: a dictionary key is one. *)
Lemma value_key fuel bytes st depth b k st' :
  bytes !! pos st = Some b → is_ascii_digit b = true →
  value fuel bytes st depth = Ok (k, st') →
  ∃ key, k = BBytes key ∧ parse_bytes bytes (pos st) = Ok (key, pos st') ∧
    info_span st' = info_span st.
Proof.
  intros Hb Hdig Hk. destruct fuel as [|fuel]; [done|]. simpl in Hk. case_match; [done|].
  unfold peek in Hk. simpl in Hk. rewrite Hb in Hk. simpl in Hk.
  rewrite decide_False, Hdig in Hk by by apply is_ascii_digit_not.
  by apply lift_Ok_inv, strict_bytes_refines in Hk.
Qed.

(** ** The strict parser refines the permissive one

    Whatever the strict parser reads, the permissive parser reads the same value over the
    same bytes. *)

Lemma value_refines fuel bytes :
  (∀ st depth v st', value fuel bytes st depth = Ok (v, st') →
    parse_value fuel bytes (pos st) depth = Ok (v, pos st')) ∧
  (∀ st depth items v st', value_list fuel bytes st depth items = Ok (v, st') →
    parse_list fuel bytes (pos st) depth items = Ok (v, pos st')) ∧
  (∀ st depth items v st', value_dict fuel bytes st depth items = Ok (v, st') →
    parse_dict fuel bytes (pos st) depth items = Ok (v, pos st')).
Proof.
  induction fuel as [|fuel (IHv & IHl & IHd)]; [done|]. split_and!.
  - intros st depth v st' H. simpl in H. case_match; [done|].
    apply bind_Ok_inv in H as (b & Hb%lift_Ok_inv & H).
    unfold peek in Hb. apply ok_or_Ok_inv in Hb. simpl in *. rewrite Hb.
    case_decide. { apply lift_Ok_inv, strict_int_refines in H as [H _]. simpl in H. by rewrite H. }
    case_match eqn:Hdig.
    { rewrite (decide_False (P := _ ∧ _)) by (intros [[->| ->] _]; done).
      rewrite !decide_False by by apply is_ascii_digit_not.
      apply lift_Ok_inv, strict_bytes_refines in H as (s & -> & H & _). simpl in H. by rewrite H. }
    case_decide; [done|]. case_decide; [by apply IHl in H|]. case_decide; [by apply IHd in H|done].
  - intros st depth items v st' H. simpl in H.
    apply bind_Ok_inv in H as (b & Hb%lift_Ok_inv & H).
    unfold peek in Hb. apply ok_or_Ok_inv in Hb. simpl. rewrite Hb.
    case_decide. { by injection H as <- <-. }
    apply bind_Ok_inv in H as ([x st1] & Hx%IHv & H). rewrite Hx. simpl. auto.
  - intros st depth items v st' H. simpl in H.
    apply bind_Ok_inv in H as (b & Hb%lift_Ok_inv & H).
    unfold peek in Hb. apply ok_or_Ok_inv in Hb. simpl. rewrite Hb.
    case_decide. { by injection H as <- <-. }
    case_match eqn:Hdig; [done|]. apply negb_false_iff in Hdig.
    apply bind_Ok_inv in H as ([k st1] & Hk & H).
    destruct (value_key _ _ _ _ _ _ _ Hb Hdig Hk) as (key & -> & Hpk & _).
    rewrite Hpk. cbn [lift mbind result_bind].
    case_match; [done|]. apply bind_Ok_inv in H as ([x st2] & Hx%IHv & H).
    rewrite Hx. cbn [mbind result_bind]. apply IHd in H. by case_bool_decide.
Qed.

(** The strict parser's answer on a key position is a byte string, so the [unreachable!] of
    the source is unreachable; and the fuel of [decode_metainfo] is enough. *)
Lemma value_answers fuel bytes :
  (∀ st depth, 2 * (length bytes - pos st) + 1 ≤ fuel → depth ≤ MAX_DEPTH →
    answers (value fuel bytes st depth)) ∧
  (∀ st depth items, 2 * (length bytes - pos st) + 2 ≤ fuel → S depth ≤ MAX_DEPTH →
    answers (value_list fuel bytes st depth items)) ∧
  (∀ st depth items, 2 * (length bytes - pos st) + 2 ≤ fuel → S depth ≤ MAX_DEPTH →
    answers (value_dict fuel bytes st depth items)).
Proof.
  induction fuel as [|fuel (IHv & IHl & IHd)]; [split_and!; intros; lia|]. split_and!.
  - intros st depth Hf Hd. simpl. case_match; [done|].
    apply bind_answers; [auto with outpace|]. intros b Hb%lift_Ok_inv.
    unfold peek in Hb. apply ok_or_Ok_inv, lookup_lt_Some in Hb. simpl in Hb.
    case_decide; [auto with outpace|]. case_match; [auto with outpace|].
    case_decide as Hdeep; [done|].
    case_decide; [apply IHl; simpl; [lia|apply Nat.nle_gt; naive_solver]|].
    case_decide; [apply IHd; simpl; [lia|apply Nat.nle_gt; naive_solver]|done].
  - intros st depth items Hf Hd. simpl. apply bind_answers; [auto with outpace|].
    intros b Hb%lift_Ok_inv. unfold peek in Hb. apply ok_or_Ok_inv, lookup_lt_Some in Hb.
    case_decide; [done|]. apply bind_answers; [apply IHv; lia|].
    intros [x st1] Hx%(proj1 (value_refines _ _)).
    apply (proj1 (parse_sound _ _)) in Hx as (Hp & _); [|lia]. apply IHl; lia.
  - intros st depth items Hf Hd. simpl. apply bind_answers; [auto with outpace|].
    intros b Hb%lift_Ok_inv. unfold peek in Hb. apply ok_or_Ok_inv in Hb.
    pose proof (lookup_lt_Some _ _ _ Hb).
    case_decide; [done|]. case_match eqn:Hdig; [done|]. apply negb_false_iff in Hdig.
    apply bind_answers; [apply IHv; lia|]. intros [k st1] Hk.
    destruct (value_key _ _ _ _ _ _ _ Hb Hdig Hk) as (key & -> & _).
    apply (proj1 (value_refines _ _)) in Hk.
    apply (proj1 (parse_sound _ _)) in Hk as (Hp & _); [|lia].
    case_match; [done|]. apply bind_answers; [apply IHv; lia|].
    intros [x st2] Hx%(proj1 (value_refines _ _)).
    apply (proj1 (parse_sound _ _)) in Hx as (Hp2 & _); [|lia].
    apply IHd; [case_bool_decide; simpl; lia|done].
Qed.

(** ** The info span *)

(** Below the root dictionary the span is left alone. *)
Lemma value_span fuel bytes :
  (∀ st depth v st', 0 < depth → value fuel bytes st depth = Ok (v, st') →
    info_span st' = info_span st) ∧
  (∀ st depth items v st', value_list fuel bytes st depth items = Ok (v, st') →
    info_span st' = info_span st) ∧
  (∀ st depth items v st', 0 < depth → value_dict fuel bytes st depth items = Ok (v, st') →
    info_span st' = info_span st).
Proof.
  induction fuel as [|fuel (IHv & IHl & IHd)]; [done|]. split_and!.
  - intros st depth v st' Hd H. simpl in H. case_match; [done|].
    apply bind_Ok_inv in H as (b & _ & H).
    case_decide; [by apply lift_Ok_inv, strict_int_refines in H as [_ ->]|].
    case_match; [by apply lift_Ok_inv, strict_bytes_refines in H as (? & _ & _ & ->)|].
    case_decide; [done|]. case_decide; [by apply IHl in H|].
    case_decide; [by apply IHd in H|done].
  - intros st depth items v st' H. simpl in H.
    apply bind_Ok_inv in H as (b & _ & H). case_decide; [by injection H as <- <-|].
    apply bind_Ok_inv in H as ([x st1] & Hx & H).
    apply IHv in Hx; [|lia]. apply IHl in H. congruence.
  - intros st depth items v st' Hd H. simpl in H.
    apply bind_Ok_inv in H as (b & _ & H). case_decide; [by injection H as <- <-|].
    case_match; [done|]. apply bind_Ok_inv in H as ([k st1] & Hk & H).
    apply IHv in Hk; [|lia]. destruct k; try done. case_match; [done|].
    apply bind_Ok_inv in H as ([x st2] & Hx & H). apply IHv in Hx; [|lia].
    rewrite bool_decide_false in H by lia. apply IHd in H; [|done]. congruence.
Qed.

(** The recorded span is where the value of the key [info] was read. *)
Definition span_of_info (bytes : bytes) (d : list (list byte * Bencode)) (st : Parser) : Prop :=
  ∀ info, dict_get (bs "info") d = Some info →
    ∃ s n fuel, info_span st = Some (s, n) ∧ parse_value fuel bytes s 1 = Ok (info, n).

Lemma value_dict_span fuel bytes st items v st' :
  span_of_info bytes items st → value_dict fuel bytes st 0 items = Ok (v, st') →
  ∃ d, v = BDict d ∧ span_of_info bytes d st'.
Proof.
  revert st items. induction fuel as [|fuel IH]; intros st items Hs H; [done|]. simpl in H.
  apply bind_Ok_inv in H as (b & _ & H).
  case_decide. { injection H as <- <-. by exists items. }
  case_match; [done|]. apply bind_Ok_inv in H as ([k st1] & Hk & H).
  apply (proj1 (value_span _ _)) in Hk; [|lia]. destruct k; try done.
  case_match eqn:Hget; [done|].
  apply bind_Ok_inv in H as ([x st2] & Hx & H).
  pose proof (proj1 (value_refines _ _) _ _ _ _ Hx) as Hxp.
  apply (proj1 (value_span _ _)) in Hx; [|lia].
  apply IH in H; [done|]. clear IH H. intros info. rewrite dict_get_insert.
  case_decide as Hk'.
  - intros [= ->]. rewrite bool_decide_true by done. simpl. eauto.
  - intros Hi. apply Hs in Hi as (s & n & f & Hsp & Hp).
    rewrite bool_decide_false by naive_solver. exists s, n, f. split; [congruence|done].
Qed.

Lemma value_root_span fuel bytes d st' :
  value fuel bytes (mkParser 0 0 None) 0 = Ok (BDict d, st') → span_of_info bytes d st'.
Proof.
  intros H. destruct fuel as [|fuel]; [done|]. simpl in H.
  apply bind_Ok_inv in H as (b & _ & H).
  case_decide.
  { apply lift_Ok_inv, strict_int_refines in H as [H _].
    by apply parse_int_sound in H as (_ & ? & ? & _). }
  case_match; [by apply lift_Ok_inv, strict_bytes_refines in H as (? & ? & _)|].
  case_decide; [done|].
  case_decide.
  { pose proof (proj1 (proj2 (value_refines _ _)) _ _ _ _ _ H) as Hl.
    apply (proj1 (proj2 (parse_sound _ _))) in Hl as (? & ? & _);
      [done|unfold MAX_DEPTH; lia|constructor]. }
  case_decide; [|done].
  apply value_dict_span in H as (d' & [= <-] & H); [done|by intros ? ?].
Qed.

(** ** Trackers *)

Definition trackers_ok (acc : list bytes * N) : Prop :=
  NoDup acc.1 ∧ (lenN acc.1 ≤ acc.2)%N ∧ (acc.2 ≤ MAX_TRACKERS)%N ∧
  Forall (λ u, u ≠ [] ∧ (lenN u ≤ MAX_TRACKER_BYTES)%N ∧ utf8_valid u = true ∧
    ∃ p, p ∈ [bs "http://"; bs "https://"; bs "udp://"] ∧ starts_with u p = true) acc.1.

Lemma find_map_Some {A B} (f : A → option B) l y :
  find_map f l = Some y → ∃ x, x ∈ l ∧ f x = Some y.
Proof.
  induction l as [|x l IH]; simpl; [done|]. destruct (f x) eqn:E.
  - intros [= ->]. exists x. rewrite elem_of_cons. auto.
  - intros (z & Hz & Hf)%IH. exists z. rewrite elem_of_cons. auto.
Qed.

Lemma add_tracker_ok v acc acc' :
  trackers_ok acc → add_tracker v acc = Ok acc' → trackers_ok acc'.
Proof.
  destruct acc as [urls count]. intros (Hnd & Hlen & Hmax & Hall) H. simpl in *.
  unfold add_tracker in H. destruct (N.ltb_spec MAX_TRACKERS (count + 1)); [done|].
  apply bind_Ok_inv in H as (raw & Hraw%ok_or_Ok_inv & H).
  apply bind_Some in Hraw as (raw' & _ & Hr).
  destruct (bool_decide (raw' ≠ []) && _) eqn:Hok; [injection Hr as ->|done].
  apply andb_true_iff in Hok as [Hne%bool_decide_eq_true Hml%N.leb_le].
  destruct (negb (utf8_valid raw)) eqn:Hu; [done|]. apply negb_false_iff in Hu.
  destruct (_ || _) eqn:Hbad; [done|]. apply orb_false_iff in Hbad as [Hauth _].
  apply bool_decide_eq_false in Hauth.
  change (match strip_prefix _ raw with Some y => Some y | None => _ end)
    with (find_map (λ p, strip_prefix p raw) [bs "http://"; bs "https://"; bs "udp://"]) in Hauth.
  destruct (find_map (λ p, strip_prefix p raw) _) as [rest|] eqn:Hf; [|done].
  apply find_map_Some in Hf as (p & Hp & Hsp). unfold strip_prefix in Hsp.
  destruct (starts_with raw p) eqn:Hst; [|done].
  case_bool_decide as Hin; injection H as <-; split_and!; simpl; try done; try lia.
  - apply NoDup_app. split_and!; [done| |apply NoDup_singleton].
    intros x Hx Hx'%list_elem_of_singleton. by subst.
  - unfold lenN in *. rewrite length_app. simpl. lia.
  - apply Forall_app. split; [done|]. constructor; [|done]. split_and!; try done. by exists p.
Qed.

Lemma add_trackers_ok l acc acc' :
  trackers_ok acc → add_trackers l acc = Ok acc' → trackers_ok acc'.
Proof.
  revert acc. induction l as [|e l IH]; simpl; intros acc Hok H; [by simplify_eq|].
  apply bind_Ok_inv in H as (acc1 & H1 & H). eauto using add_tracker_ok.
Qed.

Lemma add_tiers_ok l acc acc' : trackers_ok acc → add_tiers l acc = Ok acc' → trackers_ok acc'.
Proof.
  revert acc. induction l as [|[] l IH]; simpl; intros acc Hok H; try done; [by simplify_eq|].
  apply bind_Ok_inv in H as (acc1 & H1 & H). eauto using add_trackers_ok.
Qed.

Lemma trackers_sound root urls : trackers root = Ok urls → ∃ n, trackers_ok (urls, n).
Proof.
  unfold trackers. intros ([u1 n1] & H1 & H)%bind_Ok_inv.
  apply bind_Ok_inv in H as ([u2 n2] & H2 & [= <-]). exists n2.
  assert (trackers_ok ([], 0%N)) as H0 by (split_and!; [constructor|done..|constructor]).
  assert (trackers_ok (u1, n1)) as Hu1
    by (destruct (get root (bs "announce")); [by eapply add_tracker_ok|by simplify_eq]).
  destruct (get root (bs "announce-list")) as [[]|]; try done; [by eapply add_tiers_ok|].
  by simplify_eq.
Qed.

(** ** Piece hashes *)


(** ** What a decoded metainfo guarantees *)

Lemma positive_inv info key n : wf info = true → positive info key = Ok n →
  ∃ z, get info key = Some (BInt z) ∧ n = Z.to_N z ∧ (0 < z ≤ i64_max)%Z.
Proof.
  unfold positive. intros Hw. destruct (get info key) as [[z| | |]|] eqn:Hg; try done. simpl.
  destruct (Z.ltb_spec 0 z); [|done]. intros [= <-]. apply get_wf in Hg; [|done]. simpl in Hg.
  unfold in_i64 in Hg. apply andb_true_iff in Hg as [_ Hz%Z.leb_le].
  exists z. rewrite i64_as_u64_nonneg by lia. naive_solver lia.
Qed.

Section Theorems.
Context (sha1 : bytes → bytes).

Lemma decode_metainfo_inv input m : decode_metainfo sha1 input = Ok m →
  ∃ root info parser,
    (lenN input ≤ MAX_BYTES)%N ∧
    value (value_fuel input) input (mkParser 0 0 None) 0 = Ok (root, parser) ∧
    pos parser = length input ∧ get root (bs "info") = Some info ∧
    positive info (bs "length") = Ok (total_length m) ∧
    positive info (bs "piece length") = Ok (piece_length m) ∧
    (piece_length m ≤ MAX_PIECE_LENGTH)%N ∧ (piece_length m `mod` BLOCK_LENGTH = 0)%N ∧
    (∃ pieces, get info (bs "pieces") = Some (BBytes pieces) ∧
      (lenN pieces `mod` 20 = 0)%N ∧
      (lenN pieces `div` 20 = div_ceil (total_length m) (piece_length m))%N ∧
      piece_hashes m = chunks_exact 20 pieces) ∧
    (∃ s n, info_span parser = Some (s, n) ∧ infohash m = sha1 (slice input s n)) ∧
    classify (get info (bs "premium")) = Ok (protection m) ∧
    trackers root = Ok (mi_trackers m).
Proof.
  unfold decode_metainfo. intros H.
  destruct (N.ltb_spec MAX_BYTES (lenN input)) as [|Hl]; [done|].
  apply bind_Ok_inv in H as ([root parser] & Hv%unfuel_Ok_inv & H).
  case_bool_decide as Hpos; simpl in H; [|done].
  apply bind_Ok_inv in H as (info & Hi%ok_or_Ok_inv & H).
  apply bind_Some in Hi as (info' & Hi & Hdict). destruct (is_dict info'); [|done].
  injection Hdict as ->. destruct (bool_decide (is_Some _)); [done|].
  apply bind_Ok_inv in H as (total & Htot & H). apply bind_Ok_inv in H as (plen & Hplen & H).
  destruct (_ || _) eqn:Hgeo; [done|]. rewrite !orb_false_iff in Hgeo.
  destruct Hgeo as [[Hg1%N.ltb_ge Hg2%negb_false_iff] Hg3%N.ltb_ge].
  apply bind_Ok_inv in H as (pieces & Hpc%ok_or_Ok_inv & H).
  apply bind_Some in Hpc as (pc & Hpc & Hb). destruct pc; try done. injection Hb as ->.
  destruct (_ || _) eqn:Hcnt; [done|]. rewrite !orb_false_iff in Hcnt.
  destruct Hcnt as [[_ Hc1%negb_false_iff] Hc2%negb_false_iff%N.eqb_eq].
  apply bind_Ok_inv in H as ([s n] & Hspan%ok_or_Ok_inv & H).
  apply bind_Ok_inv in H as (prot & Hprot & H). apply bind_Ok_inv in H as (urls & Hurls & [= <-]).
  exists root, info, parser. simpl. split_and!; try done.
  - unfold is_multiple_of in Hg2. simpl in Hg2. by apply N.eqb_eq in Hg2.
  - exists pieces. split_and!; try done. unfold is_multiple_of in Hc1. by apply N.eqb_eq in Hc1.
  - by exists s, n.
Qed.

(** There is exactly one hash per piece of the content. *)
Lemma metainfo_hash_count input m : decode_metainfo sha1 input = Ok m →
  (0 < total_length m)%N ∧ (0 < piece_length m)%N ∧
  lenN (piece_hashes m) = div_ceil (total_length m) (piece_length m) ∧ Forall (λ h, length h = 20) (piece_hashes m).
Proof.
  intros Hdec. pose proof (decode_metainfo_inv _ _ Hdec) as
    (root & info & st & Hl & Hv & Hp & Hi & Htot & Hpl & _ & _ & (pieces & _ & Hp1 & Hp2 & Hph) & _).
  pose proof (proj1 (value_refines _ _) _ _ _ _ Hv) as Hpv.
  apply (proj1 (parse_sound _ _)) in Hpv as (_ & Hwf & _); [|unfold MAX_DEPTH; lia].
  apply get_wf in Hi; [|done].
  apply positive_inv in Htot as (zt & _ & Htot & ?); [|done].
  apply positive_inv in Hpl as (zp & _ & Hpl & ?); [|done].
  destruct (chunks_exact_all 20 pieces (N.to_nat (lenN pieces `div` 20))) as (H1 & H2 & _).
  { lia. } { pose proof (N.div_mod (lenN pieces) 20 ltac:(lia)). unfold lenN in *. lia. }
  split_and!; [lia|lia| |by rewrite Hph].
  rewrite Hph. unfold lenN at 1. rewrite H1. lia.
Qed.

(** C28: the strict metainfo decoder reads what the general bencode parser reads, and the
    infohash is over original bytes.  If [decode_metainfo] accepts an input, then
    [Bencode::parse] accepts the same input with the same root, and the infohash is the SHA-1
    of one contiguous range of the input which, on its own, parses to the root's [info]
    value: the identity never depends on a re-serialisation. *)
Theorem decode_metainfo_infohash input m :
  decode_metainfo sha1 input = Ok m →
  ∃ root info s n, parse input = Ok root ∧ get root (bs "info") = Some info ∧
    s < n ≤ length input ∧ infohash m = sha1 (slice input s n) ∧
    parse (slice input s n) = Ok info.
Proof.
  intros (root & info & st & Hl & Hv & Hp & Hi & _ & _ & _ & _ & _ & (s & n & Hspan & Hh) & _)
    %decode_metainfo_inv.
  assert (lenN input < two64)%N as Hl' by (unfold MAX_BYTES in Hl; lia).
  pose proof (proj1 (value_refines _ _) _ _ _ _ Hv) as Hpv. simpl in Hpv. rewrite Hp in Hpv.
  destruct root as [| | |d]; try done. simpl in Hi.
  apply value_root_span in Hv. destruct (Hv _ Hi) as (s' & n' & f & Hspan' & Hinfo).
  rewrite Hspan in Hspan'. injection Hspan' as <- <-.
  assert (1 ≤ MAX_DEPTH) as H1 by (unfold MAX_DEPTH; lia).
  pose proof (proj1 (parse_sound _ _) _ _ _ _ H1 Hinfo) as ([Hs Hn] & _).
  exists (BDict d), info, s, n. split_and!; try done.
  - unfold parse, parse_prefix. change (parse_fuel input) with (value_fuel input).
    rewrite Hpv. simpl. by rewrite decide_False by auto.
  - by eapply parse_of_window.
Qed.

(** a decoded metainfo has consistent geometry.  The lengths are positive, the piece
    length is a multiple of the 16 KiB block and at most 8 MiB, there is exactly one 20-byte
    hash per piece (the last piece non-empty and no hash beyond the content), and the tracker
    list has no duplicates, at most 128 entries, and only non-empty bounded UTF-8 URLs with a
    supported scheme. *)
Theorem decode_metainfo_geometry input m :
  decode_metainfo sha1 input = Ok m →
  (0 < total_length m)%N ∧ (0 < piece_length m ≤ MAX_PIECE_LENGTH)%N ∧
  (piece_length m `mod` BLOCK_LENGTH = 0)%N ∧
  ((lenN (piece_hashes m) - 1) * piece_length m < total_length m)%N ∧
  (total_length m ≤ lenN (piece_hashes m) * piece_length m)%N ∧
  Forall (λ h, length h = 20) (piece_hashes m) ∧
  ∃ n, trackers_ok (mi_trackers m, n).
Proof.
  intros Hdec. destruct (metainfo_hash_count _ _ Hdec) as (Ht & Hp & Hn & Hh).
  pose proof (decode_metainfo_inv _ _ Hdec) as (root & info & st & _ & _ & _ & _ & _ & _ & Hmax & Hmul & _ & _ & _ & Htr).
  pose proof (div_ceil_bounds _ _ Ht Hp) as (B1 & B2 & _).
  rewrite Hn. split_and!; try done; try lia. by eapply trackers_sound.
Qed.

End Theorems.

(** the strict parser always answers.  On every input it returns a value or one of its
    errors: it neither loops nor reaches the [unreachable!] on dictionary keys. *)
Theorem metainfo_parser_answers input :
  answers (value (value_fuel input) input (mkParser 0 0 None) 0).
Proof. apply value_answers; unfold value_fuel, MAX_DEPTH; simpl; lia. Qed.

(** A minimal accepted file, with a stand-in digest (the first twenty bytes). *)
Definition sample_metainfo : bytes :=
  bs "d8:announce10:udp://a:804:infod6:lengthi5e4:name1:x12:piece lengthi16384e6:pieces20:01234567890123456789ee".
Definition sample_digest : bytes → bytes := take 20.

Example sample_metainfo_decodes :
  is_ok (decode_metainfo sample_digest sample_metainfo) = true.
Proof. vm_compute. reflexivity. Qed.

Definition sample_decoded : Metainfo :=
  match decode_metainfo sample_digest sample_metainfo with
  | Ok m => m
  | Err _ => mkMetainfo Public [] 0 0 [] []
  end.

Lemma decode_metainfo_infohash_witness :
  ∃ root info s n, parse sample_metainfo = Ok root ∧ get root (bs "info") = Some info ∧
    s < n ≤ length sample_metainfo ∧
    infohash sample_decoded = sample_digest (slice sample_metainfo s n) ∧
    parse (slice sample_metainfo s n) = Ok info.
Proof. apply (decode_metainfo_infohash sample_digest). vm_compute. reflexivity. Defined.

Lemma decode_metainfo_geometry_witness :
  (0 < total_length sample_decoded)%N ∧
  (0 < piece_length sample_decoded ≤ MAX_PIECE_LENGTH)%N ∧
  (piece_length sample_decoded `mod` BLOCK_LENGTH = 0)%N ∧
  ((lenN (piece_hashes sample_decoded) - 1) * piece_length sample_decoded
     < total_length sample_decoded)%N ∧
  (total_length sample_decoded
     ≤ lenN (piece_hashes sample_decoded) * piece_length sample_decoded)%N ∧
  Forall (λ h, length h = 20) (piece_hashes sample_decoded) ∧
  ∃ n, trackers_ok (mi_trackers sample_decoded, n).
Proof. apply (decode_metainfo_geometry sample_digest sample_metainfo). vm_compute. reflexivity. Defined.
