(* ===== verification/Message.v ===== *)
(** * Peer-message framing

    [ace-wire/src/message.rs]: [<u32 be length><u8 id><payload>] frames, their typed
    variants, and the incremental decoder that keeps what it does not model as
    [Unknown]. *)

From S2P Require Import Prelude Bytes Wire.

Definition MAX_FRAME_LEN : N := 2 * 1024 * 1024.

Inductive PeerMessage : Type :=
  | KeepAlive
  | Choke
  | Unchoke
  | Interested
  | NotInterested
  | Have (piece : N)
  | Bitfield (bits : bytes)
  | Request (index begin length : N)
  | Piece (index begin : N) (block : bytes)
  | Cancel (index begin length : N)
  | Extended (ext_id : byte) (payload : bytes)
  | Unknown (id : byte) (payload : bytes).

#[export] Instance PeerMessage_eq_dec : EqDecision PeerMessage.
Proof. solve_decision. Defined.

Definition body_len (m : PeerMessage) : N :=
  match m with
  | KeepAlive => 0
  | Choke | Unchoke | Interested | NotInterested => 1
  | Have _ => 5
  | Bitfield b => 1 + lenN b
  | Request _ _ _ | Cancel _ _ _ => 13
  | Piece _ _ block => 9 + lenN block
  | Extended _ payload => 2 + lenN payload
  | Unknown _ payload => 1 + lenN payload
  end.

Definition encode_body (m : PeerMessage) : bytes :=
  match m with
  | KeepAlive => []
  | Choke => [N_byte 0]
  | Unchoke => [N_byte 1]
  | Interested => [N_byte 2]
  | NotInterested => [N_byte 3]
  | Have i => N_byte 4 :: u32_be i
  | Bitfield b => N_byte 5 :: b
  | Request index begin length => N_byte 6 :: u32_be index ++ u32_be begin ++ u32_be length
  | Piece index begin block => N_byte 7 :: u32_be index ++ u32_be begin ++ block
  | Cancel index begin length => N_byte 8 :: u32_be index ++ u32_be begin ++ u32_be length
  | Extended ext_id payload => N_byte 20 :: ext_id :: payload
  | Unknown id payload => id :: payload
  end.

(** [PeerMessage::encode]; [u32_be] keeps the low 32 bits, as [body_len as u32]. *)
Definition encode (m : PeerMessage) : bytes := u32_be (body_len m) ++ encode_body m.

Definition be32 (p : bytes) (off : nat) : Result N :=
  s ← ok_or (slice_get p off (off + 4)) (Invalid "short u32"); Ok (be_N s).

(** The typed variant of [id] with payload [p], [None] where the length is not exactly
    right or the id is not modelled. *)
Definition typed (id : byte) (p : bytes) : Result (option PeerMessage) :=
  match byte_N id with
  | 0 => Ok (if bool_decide (p = []) then Some Choke else None)
  | 1 => Ok (if bool_decide (p = []) then Some Unchoke else None)
  | 2 => Ok (if bool_decide (p = []) then Some Interested else None)
  | 3 => Ok (if bool_decide (p = []) then Some NotInterested else None)
  | 4 => if bool_decide (length p = 4%nat) then i ← be32 p 0; Ok (Some (Have i)) else Ok None
  | 5 => Ok (Some (Bitfield p))
  | 6 => if bool_decide (length p = 12%nat) then
           i ← be32 p 0; b ← be32 p 4; l ← be32 p 8; Ok (Some (Request i b l))
         else Ok None
  | 7 => if bool_decide (8 ≤ length p)%nat then
           i ← be32 p 0; b ← be32 p 4; Ok (Some (Piece i b (drop 8 p)))
         else Ok None
  | 8 => if bool_decide (length p = 12%nat) then
           i ← be32 p 0; b ← be32 p 4; l ← be32 p 8; Ok (Some (Cancel i b l))
         else Ok None
  | 20 => Ok (match p with e :: r => Some (Extended e r) | [] => None end)
  | _ => Ok None
  end%N.

(** [PeerMessage::decode]: [Ok None] asks for more bytes. *)
Definition decode (buf : bytes) : Result (option (PeerMessage * nat)) :=
  if bool_decide (length buf < 4) then Ok None
  else
    let len := be_N (take 4 buf) in
    if (MAX_FRAME_LEN <? len)%N then Err (Invalid "frame too large")
    else
      let total := (4 + len)%N in
      if (lenN buf <? total)%N then Ok None
      else
        match slice buf 4 (N.to_nat total) with
        | [] => Ok (Some (KeepAlive, N.to_nat total))
        | id :: p =>
            t ← typed id p;
            Ok (Some (default (Unknown id p) t, N.to_nat total))
        end.

(** ** Which messages a frame can carry

    The [u32] fields fit, the frame is within the limit, and an [Unknown] does not have the
    shape of a typed message. *)

Definition fits32 (x : N) : bool := (x <? two32)%N.

Definition canonical (m : PeerMessage) : bool :=
  (body_len m <=? MAX_FRAME_LEN)%N &&
  match m with
  | Have i => fits32 i
  | Request a b c | Cancel a b c => fits32 a && fits32 b && fits32 c
  | Piece a b _ => fits32 a && fits32 b
  | Unknown id p => bool_decide (typed id p = Ok None)
  | _ => true
  end.

(** ** Lemmas *)

Lemma u32_be_roundtrip x : fits32 x = true → be_N (u32_be x) = x.
Proof. intros H%N.ltb_lt. by apply be_N_be_bytes. Qed.

Lemma u32_be_length x : length (u32_be x) = 4.
Proof. apply be_bytes_length. Qed.

Lemma be32_app p x q off :
  length p = off → fits32 x = true → be32 (p ++ u32_be x ++ q) off = Ok x.
Proof.
  intros <- Hx. unfold be32.
  assert (slice_get (p ++ u32_be x ++ q) (length p) (length p + 4) = Some (u32_be x)) as ->.
  { apply slice_get_Some. rewrite <-(u32_be_length x) at 3. rewrite slice_app_mid.
    rewrite !length_app, u32_be_length. split; [done|lia]. }
  simpl. by rewrite u32_be_roundtrip.
Qed.

Lemma encode_body_length m : lenN (encode_body m) = body_len m.
Proof.
  unfold lenN. destruct m; simpl; unfold lenN; rewrite ?length_app, ?u32_be_length; lia.
Qed.

Lemma encode_length m : length (encode m) = 4 + N.to_nat (body_len m).
Proof.
  unfold encode. rewrite length_app, u32_be_length, <-encode_body_length. unfold lenN. lia.
Qed.

Lemma be32_last p x off : length p = off → fits32 x = true → be32 (p ++ u32_be x) off = Ok x.
Proof. intros Hp Hx. rewrite <-(app_nil_r (u32_be x)). by apply be32_app. Qed.

Lemma be32_first x q : fits32 x = true → be32 (u32_be x ++ q) 0 = Ok x.
Proof. apply (be32_app []). done. Qed.

Lemma be32_second x y q : fits32 y = true → be32 (u32_be x ++ u32_be y ++ q) 4 = Ok y.
Proof. apply be32_app, u32_be_length. Qed.

Lemma be32_third x y z : fits32 z = true → be32 (u32_be x ++ u32_be y ++ u32_be z) 8 = Ok z.
Proof. rewrite app_assoc. apply be32_last. by rewrite length_app, !u32_be_length. Qed.

(** A canonical message with a body is read back from its body. *)
Lemma typed_body m : canonical m = true → m ≠ KeepAlive →
  ∃ id p t, encode_body m = id :: p ∧ typed id p = Ok t ∧ default (Unknown id p) t = m.
Proof.
  intros Hc Hk. unfold canonical in Hc. apply andb_true_iff in Hc as [_ Hc].
  destruct m; try done; cbn [encode_body]; rewrite ?andb_true_iff in Hc;
    eexists _, _, _; (split; [reflexivity|]).
  1-4: by split; [vm_compute; reflexivity|].
  - unfold typed. rewrite byte_N_of_N, bool_decide_true by (lia || apply u32_be_length).
    pose proof (be32_last [] piece 0 eq_refl Hc) as E. rewrite app_nil_l in E. by rewrite E.
  - done.
  - destruct Hc as [[H1 H2] H3]. unfold typed. rewrite byte_N_of_N by lia.
    rewrite bool_decide_true by (rewrite !length_app, !u32_be_length; lia).
    by rewrite be32_first, be32_second, be32_third.
  - destruct Hc as [H1 H2]. unfold typed. rewrite byte_N_of_N by lia.
    rewrite bool_decide_true by (rewrite !length_app, !u32_be_length; lia).
    by rewrite be32_first, be32_second.
  - destruct Hc as [[H1 H2] H3]. unfold typed. rewrite byte_N_of_N by lia.
    rewrite bool_decide_true by (rewrite !length_app, !u32_be_length; lia).
    by rewrite be32_first, be32_second, be32_third.
  - done.
  - apply bool_decide_eq_true in Hc. done.
Qed.

Lemma be32_inv p off x : be32 p off = Ok x →
  u32_be x = slice p off (off + 4) ∧ off + 4 ≤ length p.
Proof.
  unfold be32. intros (s & Hs%ok_or_Ok_inv & [= <-])%bind_Ok_inv.
  apply slice_get_Some in Hs as (-> & _ & ?). split; [|done].
  apply be_bytes_be_N'. rewrite slice_length by lia. lia.
Qed.

(** A body that decodes re-encodes to itself. *)
Lemma typed_encode id p t :
  typed id p = Ok t → encode_body (default (Unknown id p) t) = id :: p.
Proof.
  assert (∀ k, byte_N id = k → id = N_byte k) as Hid
    by (intros k <-; symmetry; apply N_byte_of_byte).
  assert (8 ≤ length p → slice p 0 4 ++ slice p 4 8 ++ drop 8 p = p) as H2.
  { intros. rewrite app_assoc.
    rewrite <-(take_drop 8 p) at 4. f_equal. unfold slice. rewrite drop_0.
    rewrite <-(take_drop 4 (take 8 p)), take_take, skipn_firstn_comm. done. }
  assert (length p = 12 → slice p 8 12 = drop 8 p) as H3.
  { intros. unfold slice. rewrite take_ge; [done|]. rewrite length_drop. lia. }
  assert (length p = 4 → slice p 0 4 = p) as H1.
  { intros. unfold slice. rewrite drop_0, take_ge by lia. done. }
  unfold typed. intros H.
  destruct (byte_N id) as [|k] eqn:Ek; [|do 5 (try (destruct k as [k|k|]; try by simplify_eq))];
    specialize (Hid _ eq_refl); subst id; try (by simplify_eq); try case_bool_decide;
    repeat (let E := fresh "E" in let L := fresh "L" in
      apply bind_Ok_inv in H as (? & [E L]%be32_inv & H)); try (injection H as <-); subst; unfold default, from_option, Datatypes.id;
    cbn [encode_body]; try done;
    change (0 + 4) with 4 in *; change (4 + 4) with 8 in *; change (8 + 4) with 12 in *.
  all: first
    [ by destruct p
    | f_equal; etrans; [|apply H2; lia]; rewrite <-H3 by done; congruence
    | f_equal; etrans; [|apply H2; lia]; congruence
    | f_equal; etrans; [|by apply H1]; congruence ].
Qed.

Lemma decode_frame body rest :
  (lenN body ≤ MAX_FRAME_LEN)%N →
  decode (u32_be (lenN body) ++ body ++ rest) =
    match body with
    | [] => Ok (Some (KeepAlive, 4))
    | id :: p => t ← typed id p; Ok (Some (default (Unknown id p) t, 4 + length body))
    end.
Proof.
  intros Hl. unfold decode. pose proof (u32_be_length (lenN body)) as H4.
  rewrite bool_decide_false by (rewrite length_app; lia).
  rewrite take_app_length', u32_be_roundtrip by
    (done || apply N.ltb_lt; unfold MAX_FRAME_LEN in Hl; lia).
  rewrite (proj2 (N.ltb_ge _ _) Hl).
  rewrite (proj2 (N.ltb_ge _ _)) by (unfold lenN; rewrite !length_app, u32_be_length; lia).
  replace (N.to_nat (4 + lenN body)) with (4 + length body) by (unfold lenN; lia).
  replace (slice _ 4 (4 + length body)) with body; [by destruct body|].
  symmetry. rewrite <-H4. apply slice_app_mid.
Qed.

Lemma decode_encoded m rest : canonical m = true →
  decode (encode m ++ rest) = Ok (Some (m, length (encode m))).
Proof.
  intros Hc. unfold encode. rewrite <-encode_body_length, <-app_assoc.
  pose proof Hc as Hl. unfold canonical in Hl. apply andb_true_iff in Hl as [Hl%N.leb_le _].
  rewrite <-encode_body_length in Hl. rewrite decode_frame by done.
  destruct (decide (m = KeepAlive)) as [->|Hk]; [done|].
  destruct (typed_body m Hc Hk) as (id & p & t & -> & Ht & Hd).
  rewrite Ht. cbn [mbind result_bind]. by rewrite Hd, length_app, u32_be_length.
Qed.

Lemma decode_inv buf m n : decode buf = Ok (Some (m, n)) →
  n ≤ length buf ∧ encode m = take n buf ∧ (body_len m ≤ MAX_FRAME_LEN)%N.
Proof.
  unfold decode. case_bool_decide as H4; [done|].
  destruct (N.ltb_spec MAX_FRAME_LEN (be_N (take 4 buf))) as [|Hmax]; [done|].
  destruct (N.ltb_spec (lenN buf) (4 + be_N (take 4 buf))) as [|Hlen]; [done|].
  unfold lenN in Hlen. set (len := be_N (take 4 buf)) in *.
  set (body := slice buf 4 (N.to_nat (4 + len))).
  assert (N.of_nat (length body) = len) as Hb.
  { unfold body. rewrite slice_length by lia. lia. }
  assert (take (N.to_nat (4 + len)) buf = u32_be len ++ body) as Htake.
  { unfold len at 2. unfold u32_be. rewrite be_bytes_be_N' by (rewrite length_take; lia).
    unfold body, slice. rewrite <-(take_drop 4 (take (N.to_nat (4 + len)) buf)).
    rewrite take_take, Nat.min_l by lia. by rewrite skipn_firstn_comm. }
  destruct body as [|id p] eqn:Eb.
  { intros [= <- <-]. split; [lia|]. rewrite Htake. simpl in Hb. by rewrite <-Hb. }
  intros H. apply bind_Ok_inv in H as (t & Ht%typed_encode & [= <- <-]).
  split; [lia|]. rewrite Htake. unfold encode.
  rewrite <-encode_body_length, Ht. unfold lenN. by rewrite Hb.
Qed.

(** Every [u32] of a typed message fits, since it was read from four bytes. *)
Lemma be32_fits p off x : be32 p off = Ok x → fits32 x = true.
Proof.
  unfold be32. intros (s & Hs%ok_or_Ok_inv & [= <-])%bind_Ok_inv. apply slice_get_Some in Hs as (-> & _ & ?).
  apply N.ltb_lt. eapply N.lt_le_trans; [apply be_N_bound|]. unfold lenN. rewrite slice_length by lia.
  by replace (off + 4 - off) with 4 by lia.
Qed.

Lemma be32_total p off : off + 4 ≤ length p → ∃ x, be32 p off = Ok x.
Proof.
  intros H. unfold be32. assert (slice_get p off (off + 4) = Some (slice p off (off + 4))) as ->
    by (apply slice_get_Some; split_and!; (done || lia)). by eexists.
Qed.

(** The typed decoder never fails, and what it gives is canonical up to the frame limit. *)
Lemma typed_total id p : ∃ t, typed id p = Ok t.
Proof.
  unfold typed. destruct (byte_N id) as [|k]; [|do 5 (try (destruct k as [k|k|]))]; try (by eexists);
    case_bool_decide as Hl; try (by eexists).
  all: repeat match goal with |- context [be32 ?p ?o] =>
    destruct (be32_total p o ltac:(lia)) as [? ->]; cbn [mbind result_bind] end; by eexists.
Qed.

Lemma typed_canonical id p t : typed id p = Ok t → (1 + lenN p ≤ MAX_FRAME_LEN)%N →
  canonical (default (Unknown id p) t) = true.
Proof.
  intros Ht Hl. unfold canonical. apply andb_true_iff. split.
  { apply N.leb_le. rewrite <-encode_body_length, (typed_encode _ _ _ Ht). unfold lenN in *. cbn [length]. lia. }
  destruct t as [m|]; cbn [default from_option Datatypes.id]; [|by apply bool_decide_eq_true].
  unfold typed in Ht. destruct (byte_N id) as [|k]; [|do 5 (try (destruct k as [k|k|]; try by simplify_eq))];
    try (by simplify_eq); try case_bool_decide; try by simplify_eq.
  all: try (by destruct p; simplify_eq).
  all: repeat (let E := fresh "E" in apply bind_Ok_inv in Ht as (? & E%be32_fits & Ht)); injection Ht as <-; by rewrite ?E, ?E0, ?E1.
Qed.

Lemma decode_canonical buf m n : decode buf = Ok (Some (m, n)) → canonical m = true.
Proof.
  unfold decode. case_bool_decide; [done|].
  destruct (N.ltb_spec MAX_FRAME_LEN (be_N (take 4 buf))) as [|Hmax]; [done|].
  destruct (N.ltb_spec (lenN buf) (4 + be_N (take 4 buf))) as [|Hlen]; [done|]. unfold lenN in Hlen.
  assert (lenN (slice buf 4 (N.to_nat (4 + be_N (take 4 buf)))) ≤ MAX_FRAME_LEN)%N as Hb
    by (unfold lenN; rewrite slice_length by lia; lia).
  destruct (slice _ _ _) as [|id p]; [by intros [= <- <-]|].
  intros (t & Ht & [= <- <-])%bind_Ok_inv. eapply typed_canonical; [done|]. unfold lenN in *. cbn [length] in Hb. lia.
Qed.

Lemma decode_error buf e : decode buf = Err e ↔
  (4 ≤ length buf ∧ (MAX_FRAME_LEN < be_N (take 4 buf))%N ∧ e = Invalid "frame too large").
Proof.
  unfold decode. case_bool_decide; [split; [done|lia]|].
  destruct (N.ltb_spec MAX_FRAME_LEN (be_N (take 4 buf))).
  { split; [intros [= <-]; repeat split; (done || lia)|by intros (_ & _ & ->)]. }
  split; [|lia]. destruct (_ <? _)%N; [done|]. destruct (slice _ _ _) as [|id p]; [done|].
  by destruct (typed_total id p) as [t ->].
Qed.

(** A proper prefix of a frame asks for more bytes. *)
Lemma decode_partial m k : canonical m = true → k < length (encode m) → decode (take k (encode m)) = Ok None.
Proof.
  intros Hc Hk. unfold canonical in Hc. apply andb_true_iff in Hc as [Hl%N.leb_le _].
  unfold decode. case_bool_decide as H4; [done|]. rewrite length_take in H4.
  assert (take 4 (take k (encode m)) = u32_be (body_len m)) as ->.
  { rewrite take_take, Nat.min_l by lia. unfold encode.
    rewrite take_app_length'; [done|by rewrite u32_be_length]. }
  rewrite u32_be_roundtrip by (apply N.ltb_lt; unfold MAX_FRAME_LEN in Hl; lia).
  rewrite (proj2 (N.ltb_ge _ _) Hl). rewrite encode_length in *.
  rewrite (proj2 (N.ltb_lt _ _)); [done|]. unfold lenN. rewrite length_take, encode_length. lia.
Qed.

(** ** Theorems *)

(** framing round-trips.  A canonical message followed by any bytes is decoded to itself
    with exactly its frame consumed; a proper prefix of its frame asks for more bytes rather
    than being misread. *)
Theorem peer_message_roundtrip m rest k :
  canonical m = true → k < length (encode m) →
  decode (encode m ++ rest) = Ok (Some (m, length (encode m))) ∧
  decode (take k (encode m)) = Ok None.
Proof.
  intros Hc Hk. split; [by apply decode_encoded|by apply decode_partial].
Qed.

Lemma peer_message_roundtrip_witness :
  decode (encode (Piece 3 9 (bs "media")) ++ bs "next") =
    Ok (Some (Piece 3 9 (bs "media"), length (encode (Piece 3 9 (bs "media"))))) ∧
  decode (take 7 (encode (Piece 3 9 (bs "media")))) = Ok None.
Proof. apply (peer_message_roundtrip (Piece 3 9 (bs "media"))); vm_compute; [done|lia]. Defined.

(** C29: decoded messages are well typed.  Whatever bytes arrive, the decoder answers an error
    only for a length prefix above the frame limit; a message it returns is canonical — every
    integer field fits its 32 bits, the body is within [MAX_FRAME_LEN], an [Unknown] does not
    have the shape of a typed message — and re-encodes to exactly the consumed bytes, so
    relaying a decoded message forwards the peer's bytes unchanged. *)
Theorem decoded_message_well_typed buf :
  match decode buf with
  | Err e => 4 ≤ length buf ∧ (MAX_FRAME_LEN < be_N (take 4 buf))%N ∧ e = Invalid "frame too large"
  | Ok None => length buf < 4 ∨ (lenN buf < 4 + be_N (take 4 buf))%N
  | Ok (Some (m, n)) => canonical m = true ∧ n ≤ length buf ∧ encode m = take n buf
  end.
Proof.
  destruct (decode buf) as [[[m n]|]|e] eqn:E.
  - pose proof (decode_inv _ _ _ E) as (? & ? & _). split_and!; [by eapply decode_canonical|done|done].
  - revert E. unfold decode. case_bool_decide; [by left|]. destruct (_ <? be_N _)%N; [done|].
    destruct (N.ltb_spec (lenN buf) (4 + be_N (take 4 buf))); [by right|]. destruct (slice _ _ _) as [|id p]; [done|].
    by destruct (typed_total id p) as [t ->].
  - by apply decode_error.
Qed.
