(* ===== verification/Handshake.v ===== *)
(** * Peer handshakes

    [ace-wire/src/handshake.rs]: the 66-byte AceStream handshake, its 46-byte prefix form, and
    the 68-byte BitTorrent form selected by the descriptor.  The random draws of
    [random_peer_id] are an argument. *)

From S2P Require Import Prelude Bytes Wire.

Definition PSTR : bytes := bs "AceStreamProtocol".
Definition HANDSHAKE_PREFIX_LEN : nat := 46.
Definition HANDSHAKE_LEN : nat := 66.
Definition BITTORRENT_PSTR : bytes := bs "BitTorrent protocol".
Definition BITTORRENT_HANDSHAKE_LEN : nat := 68.

Inductive HandshakeProtocol : Type := AceStream | BitTorrent.

#[export] Instance HandshakeProtocol_eq_dec : EqDecision HandshakeProtocol.
Proof. solve_decision. Defined.

Record Handshake : Type := mkHandshake {
  reserved : bytes;
  infohash : bytes;
  peer_id : bytes;
}.

(** The fixed array sizes of the struct's fields. *)
Definition sized (h : Handshake) : Prop :=
  length (reserved h) = 8 ∧ length (infohash h) = 20 ∧ length (peer_id h) = 20.

Definition new (infohash peer_id : bytes) : Handshake :=
  mkHandshake (replicate 8 x00) infohash peer_id.

Definition encode (h : Handshake) : bytes :=
  N_byte (lenN PSTR) :: PSTR ++ reserved h ++ infohash h ++ peer_id h.

Definition encode_with_protocol (h : Handshake) (protocol : HandshakeProtocol) : bytes :=
  if decide (protocol = AceStream) then encode h
  else N_byte (lenN BITTORRENT_PSTR) ::
       BITTORRENT_PSTR ++ reserved h ++ infohash h ++ peer_id h.

Definition decode_prefix (buf : bytes) : Result Handshake :=
  if bool_decide (length buf < HANDSHAKE_PREFIX_LEN) then Err Truncated
  else if negb (bool_decide (byte_N (nth 0 buf x00) = lenN PSTR))
          || negb (bool_decide (slice buf 1 18 = PSTR))
  then Err (Invalid "not an AceStreamProtocol handshake")
  else Ok (mkHandshake (slice buf 18 26) (slice buf 26 46) (replicate 20 x00)).

Definition decode (buf : bytes) : Result Handshake :=
  if bool_decide (length buf < HANDSHAKE_LEN) then Err Truncated
  else
    hs ← decode_prefix (take HANDSHAKE_PREFIX_LEN buf);
    Ok (mkHandshake (reserved hs) (infohash hs) (slice buf 46 66)).

Definition decode_with_protocol (buf : bytes) (protocol : HandshakeProtocol) : Result Handshake :=
  if decide (protocol = AceStream) then decode buf
  else if bool_decide (length buf < BITTORRENT_HANDSHAKE_LEN) then Err Truncated
  else if negb (bool_decide (byte_N (nth 0 buf x00) = lenN BITTORRENT_PSTR))
          || negb (bool_decide (slice buf 1 20 = BITTORRENT_PSTR))
  then Err (Invalid "not a BitTorrent protocol handshake")
  else Ok (mkHandshake (slice buf 20 28) (slice buf 28 48) (slice buf 48 68)).

(** [random_peer_id], with the values [rng.gen_range(0..62)] returns as [draws]. *)
Definition ALPHANUM : bytes :=
  bs "ABCDEFGHIJKLMNOPQRSTUVWXYZabcdefghijklmnopqrstuvwxyz0123456789".

Definition random_peer_id (draws : list nat) : bytes :=
  bs "R30------" ++ map (λ i, nth i ALPHANUM x00) (take 11 draws).

(** ** Lemmas *)

Lemma slice_of_parts (p1 p2 p3 : bytes) a b :
  length p1 = a → a + length p2 = b → slice (p1 ++ p2 ++ p3) a b = p2.
Proof. intros <- <-. apply slice_app_mid. Qed.

Lemma sized_list (l : bytes) n : length l = n → take n l = l.
Proof. intros <-. by rewrite take_ge. Qed.

Lemma handshake_eta h : mkHandshake (reserved h) (infohash h) (peer_id h) = h.
Proof. by destruct h. Qed.

Lemma decode_prefix_encoded r i rest : length r = 8 → length i = 20 →
  decode_prefix (N_byte (lenN PSTR) :: PSTR ++ r ++ i ++ rest) =
    Ok (mkHandshake r i (replicate 20 x00)).
Proof.
  intros Hr Hi. unfold decode_prefix. set (hd := N_byte (lenN PSTR) :: PSTR).
  change (N_byte (lenN PSTR) :: PSTR ++ r ++ i ++ rest) with (hd ++ r ++ i ++ rest).
  rewrite bool_decide_false by
    (unfold HANDSHAKE_PREFIX_LEN; rewrite !length_app, Hr, Hi; simpl; lia).
  assert (slice (hd ++ r ++ i ++ rest) 1 18 = PSTR) as -> by by apply (slice_of_parts [_]).
  rewrite !bool_decide_true by done. simpl orb. cbv iota.
  rewrite (slice_of_parts hd r) by (rewrite ?Hr; done).
  rewrite (app_assoc hd), (slice_of_parts (hd ++ r) i) by (rewrite ?length_app, ?Hr, ?Hi; done).
  done.
Qed.

Lemma decode_handshake_encoded h rest : sized h → decode (encode h ++ rest) = Ok h.
Proof.
  intros (Hr & Hi & Hp). unfold decode, encode.
  rewrite bool_decide_false by
    (unfold HANDSHAKE_LEN; simpl; rewrite !length_app, Hr, Hi, Hp; lia).
  set (pre := N_byte (lenN PSTR) :: PSTR ++ reserved h ++ infohash h).
  assert (length pre = 46) as Hpre by (unfold pre; simpl; rewrite length_app, Hr, Hi; lia).
  replace ((N_byte (lenN PSTR) :: PSTR ++ reserved h ++ infohash h ++ peer_id h) ++ rest)
    with (pre ++ peer_id h ++ rest) by (unfold pre; simpl; by rewrite <-!app_assoc).
  rewrite take_app_length' by done.
  assert (decode_prefix pre = Ok (mkHandshake (reserved h) (infohash h) (replicate 20 x00))) as ->.
  { pose proof (decode_prefix_encoded (reserved h) (infohash h) [] Hr Hi) as E.
    by rewrite app_nil_r in E. }
  cbn [mbind result_bind].
  rewrite (slice_of_parts pre (peer_id h) rest 46 66); [|done|rewrite Hp; lia].
  simpl. by rewrite handshake_eta.
Qed.

Lemma decode_protocol_encoded h protocol rest : sized h →
  decode_with_protocol (encode_with_protocol h protocol ++ rest) protocol = Ok h.
Proof.
  intros Hs. pose proof Hs as (Hr & Hi & Hp).
  unfold decode_with_protocol, encode_with_protocol.
  case_decide as Ha; [by apply decode_handshake_encoded|].
  set (hd := N_byte (lenN BITTORRENT_PSTR) :: BITTORRENT_PSTR).
  change ((N_byte (lenN BITTORRENT_PSTR)
    :: BITTORRENT_PSTR ++ reserved h ++ infohash h ++ peer_id h) ++ rest)
    with ((hd ++ reserved h ++ infohash h ++ peer_id h) ++ rest).
  rewrite <-!app_assoc.
  rewrite bool_decide_false by
    (unfold BITTORRENT_HANDSHAKE_LEN; rewrite !length_app, Hr, Hi, Hp; simpl; lia).
  assert (slice (hd ++ reserved h ++ infohash h ++ peer_id h ++ rest) 1 20 = BITTORRENT_PSTR)
    as -> by by apply (slice_of_parts [_]).
  rewrite !bool_decide_true by done. simpl orb. cbv iota.
  rewrite (slice_of_parts hd (reserved h)) by (simpl; rewrite ?Hr; lia).
  rewrite (app_assoc hd), (slice_of_parts (hd ++ reserved h) (infohash h)) by
    (rewrite ?length_app, ?Hr, ?Hi; simpl; lia).
  rewrite (app_assoc (hd ++ reserved h)).
  rewrite (slice_of_parts ((hd ++ reserved h) ++ infohash h) (peer_id h)) by
    (rewrite ?length_app, ?Hr, ?Hi, ?Hp; simpl; lia).
  by rewrite handshake_eta.
Qed.

(** ** Theorems *)

(** handshakes round-trip under the protocol they were sent with, with any bytes after
    them; and the AceStream responder reads the reserved bits and the infohash already from
    the 46-byte prefix. *)
Theorem handshake_roundtrip h protocol rest :
  sized h →
  decode_with_protocol (encode_with_protocol h protocol ++ rest) protocol = Ok h ∧
  decode_prefix (take HANDSHAKE_PREFIX_LEN (encode h)) =
    Ok (mkHandshake (reserved h) (infohash h) (replicate 20 x00)).
Proof.
  intros Hs. pose proof Hs as (Hr & Hi & Hp). split.
  - by apply decode_protocol_encoded.
  - unfold encode. set (pre := N_byte (lenN PSTR) :: PSTR ++ reserved h ++ infohash h).
    replace (N_byte (lenN PSTR) :: PSTR ++ reserved h ++ infohash h ++ peer_id h)
      with (pre ++ peer_id h) by (unfold pre; simpl; by rewrite <-!app_assoc).
    rewrite take_app_length' by (unfold pre; simpl; rewrite length_app, Hr, Hi; done).
    pose proof (decode_prefix_encoded (reserved h) (infohash h) [] Hr Hi) as E.
    by rewrite app_nil_r in E.
Qed.

Definition sample_handshake : Handshake :=
  new (bs "01234567890123456789") (random_peer_id [0; 1; 2; 3; 61; 5; 6; 7; 8; 9; 10]).

Lemma handshake_roundtrip_witness :
  decode_with_protocol (encode_with_protocol sample_handshake BitTorrent ++ bs "x") BitTorrent
    = Ok sample_handshake ∧
  decode_prefix (take HANDSHAKE_PREFIX_LEN (encode sample_handshake)) =
    Ok (mkHandshake (reserved sample_handshake) (infohash sample_handshake) (replicate 20 x00)).
Proof. apply (handshake_roundtrip sample_handshake BitTorrent). by split_and!. Defined.

(** no cross-protocol confusion.  A handshake of one protocol is never accepted by the
    decoder of the other, whatever follows it; and the AceStream decoder accepts nothing
    shorter than the full 66 bytes. *)
Theorem handshake_no_confusion h buf rest :
  (∃ e, decode_with_protocol (encode_with_protocol h BitTorrent ++ rest) AceStream = Err e) ∧
  (∃ e, decode_with_protocol (encode_with_protocol h AceStream ++ rest) BitTorrent = Err e) ∧
  (length buf < HANDSHAKE_LEN → decode buf = Err Truncated).
Proof.
  split_and!.
  - change (∃ e, decode (encode_with_protocol h BitTorrent ++ rest) = Err e).
    unfold decode. case_bool_decide; [by eexists|]. unfold decode_prefix.
    rewrite bool_decide_false by
      (unfold HANDSHAKE_LEN, HANDSHAKE_PREFIX_LEN in *; rewrite length_take; lia).
    rewrite bool_decide_false by (vm_compute; done). by eexists.
  - unfold decode_with_protocol, encode_with_protocol.
    rewrite decide_False, decide_True by done. case_bool_decide; [by eexists|].
    rewrite bool_decide_false by (vm_compute; done). by eexists.
  - intros H. unfold decode. by rewrite bool_decide_true.
Qed.

Lemma handshake_no_confusion_witness :
  (∃ e, decode_with_protocol (encode_with_protocol sample_handshake BitTorrent ++ []) AceStream
     = Err e) ∧
  (∃ e, decode_with_protocol (encode_with_protocol sample_handshake AceStream ++ []) BitTorrent
     = Err e) ∧
  (length PSTR < HANDSHAKE_LEN → decode PSTR = Err Truncated).
Proof. exact (handshake_no_confusion sample_handshake PSTR []). Defined.
