(* ===== verification/Identity.v ===== *)
(** * Node identity

    [ace-wire/src/identity.rs]: the signed digest of an extended handshake.  The [ed25519_dalek]
    and [sha2] crates are an interface; its laws are what those crates document. *)

From S2P Require Import Prelude Bytes Wire Bencode.

Class NodeCrypto : Type := {
  sha256 : bytes → bytes;
  SigningKey : Type;
  VerifyingKey : Type;
  (** [SigningKey::from_bytes], [verifying_key().to_bytes()], [VerifyingKey::from_bytes]. *)
  key_from_seed : bytes → SigningKey;
  verifying_key : SigningKey → VerifyingKey;
  vk_to_bytes : VerifyingKey → bytes;
  vk_from_bytes : bytes → option VerifyingKey;
  key_sign : SigningKey → bytes → bytes;
  vk_verify : VerifyingKey → bytes → bytes → bool;
}.

Class NodeCryptoLaws `{NodeCrypto} : Prop := {
  vk_roundtrip v : vk_from_bytes (vk_to_bytes v) = Some v;
  ed25519_correct k m : vk_verify (verifying_key k) m (key_sign k m) = true;
}.

Definition SIGNATURE_LEN : nat := 64.

Section Identity.
Context `{NodeCrypto}.

Record Identity : Type := mkIdentity { id_key : SigningKey }.

Definition from_seed (seed : bytes) : Identity := mkIdentity (key_from_seed seed).
Definition node_id (id : Identity) : bytes := vk_to_bytes (verifying_key (id_key id)).
Definition id_sign (id : Identity) (msg : bytes) : bytes := key_sign (id_key id) msg.

Definition handshake_digest (fields : list (bytes * Bencode)) : bytes :=
  let d := dict_insert (bs "signature") (BBytes (replicate SIGNATURE_LEN x00)) fields in
  sha256 (encode (BDict d)).

Definition verify_handshake (node_id signature : bytes) (fields : list (bytes * Bencode)) : bool :=
  let digest := handshake_digest fields in
  match vk_from_bytes node_id with
  | None => false
  | Some vk => vk_verify vk digest signature
  end.

(** The digest does not depend on the signature field it replaces. *)
Lemma handshake_digest_signature v fields :
  handshake_digest (dict_insert (bs "signature") v fields) = handshake_digest fields.
Proof. unfold handshake_digest. by rewrite dict_insert_twice. Qed.

Lemma verify_own_signature `{!NodeCryptoLaws} id v fields :
  verify_handshake (node_id id) (id_sign id (handshake_digest fields))
    (dict_insert (bs "signature") v fields) = true.
Proof.
  unfold verify_handshake, node_id. rewrite vk_roundtrip, handshake_digest_signature.
  apply ed25519_correct.
Qed.
End Identity.

(** ** A concrete instance *)

Definition toy_node_crypto : NodeCrypto := {|
  sha256 := take 32;
  SigningKey := byte;
  VerifyingKey := byte;
  key_from_seed := λ s, hd x00 s;
  verifying_key := λ k, k;
  vk_to_bytes := λ v, [v];
  vk_from_bytes := λ d, match d with [v] => Some v | _ => None end;
  key_sign := λ k m, k :: take 63 m;
  vk_verify := λ k m s, bool_decide (s = k :: take 63 m);
|}.

Lemma toy_node_crypto_laws : @NodeCryptoLaws toy_node_crypto.
Proof. split; [done|]. intros k m. by apply bool_decide_eq_true. Qed.
