(* ===== verification/Extended.v ===== *)
(** * Extended handshakes

    [ace-wire/src/extended.rs]: the BEP-10 handshake the node sends, signed with its identity,
    and the one it reads from a peer. *)

From S2P Require Import Prelude Bytes Wire Bencode Identity.

Record LivePosition : Type := mkLivePosition {
  min_piece : Z;
  max_piece : Z;
  position : Z;
  distance_from_source : Z;
}.

Record NodeFields : Type := mkNodeFields { ts : Z; v : Z; pv : Z; p : Z; nt : Z; platform : Z }.

Definition NodeFields_default : NodeFields := mkNodeFields 0 3021100 2 8621 1 2.

Record OutgoingExtendedHandshake : Type := mkOutgoing {
  out_ace_metadata_version : Z;
  out_ut_metadata_id : Z;
  out_mi : option LivePosition;
  node : NodeFields;
  peer_ip : option bytes;
  out_metadata_size : option Z;
}.

(** A [BTreeMap] filled with integers from a list of pairs. *)
Definition int_fields (l : list (bytes * Z)) : list (bytes * Bencode) :=
  fold_left (λ d kv, dict_insert kv.1 (BInt kv.2) d) l [].

Definition base_fields (hs : OutgoingExtendedHandshake) : list (bytes * Bencode) :=
  let root := dict_insert (bs "ace_metadata_version") (BInt (out_ace_metadata_version hs)) [] in
  let m := dict_insert (bs "ut_metadata") (BInt (out_ut_metadata_id hs)) [] in
  let root := dict_insert (bs "m") (BDict m) root in
  let root := match out_mi hs with
    | Some pos =>
        let mi := int_fields
          [(bs "min_piece", min_piece pos); (bs "max_piece", max_piece pos);
           (bs "position", position pos); (bs "distance_from_source", distance_from_source pos)] in
        dict_insert (bs "mi") (BDict mi) root
    | None => root
    end in
  match out_metadata_size hs with
  | Some size => dict_insert (bs "metadata_size") (BInt size) root
  | None => root
  end.

Definition encode_payload (hs : OutgoingExtendedHandshake) : bytes := encode (BDict (base_fields hs)).

Definition has_live_head (pos : LivePosition) : bool :=
  ((0 <=? position pos) && (min_piece pos <=? max_piece pos) && (0 <=? max_piece pos))%Z.

(** The full live-position dictionary. *)
Definition rich_mi (pos : LivePosition) : list (bytes * Bencode) :=
  let source_end := if has_live_head pos then max_piece pos else (-1)%Z in
  let live_window_size := if has_live_head pos then 115%Z
    else Z.max (wrap_i64 (wrap_i64 (max_piece pos - min_piece pos) + 1)) 0 in
  int_fields
    [(bs "distance_from_source", distance_from_source pos); (bs "down_rate", 0%Z);
     (bs "download_window_end", source_end); (bs "is_accessible", 0%Z);
     (bs "live_window_size", live_window_size); (bs "lsp", source_end); (bs "mam", (-1)%Z);
     (bs "max_piece", max_piece pos); (bs "min_piece", min_piece pos); (bs "peer_type", 0%Z);
     (bs "ping_from_source", (-1)%Z); (bs "position", position pos);
     (bs "time_from_source", (-1)%Z); (bs "top_session_up_rate", 0%Z);
     (bs "top_up_rate", 0%Z); (bs "up_rate", 0%Z); (bs "upload_rating", 0%Z)].

Definition root_lsp (hs : OutgoingExtendedHandshake) : Z :=
  match out_mi hs with
  | Some pos => if has_live_head pos then max_piece pos else (-1)%Z
  | None => (-1)%Z
  end.

Section Extended.
Context `{NodeCrypto}.

(** The fields that are signed. *)
Definition unsigned_fields (hs : OutgoingExtendedHandshake) (id : Identity)
    : list (bytes * Bencode) :=
  let f := base_fields hs in
  let f := match out_mi hs with
    | Some pos => dict_insert (bs "mi") (BDict (rich_mi pos)) f
    | None => f
    end in
  let f := dict_insert (bs "asn") (BInt 0) f in
  let f := dict_insert (bs "asn_country") (BBytes []) f in
  let f := dict_insert (bs "geoip_country") (BBytes []) f in
  let f := dict_insert (bs "lsp") (BInt (root_lsp hs)) f in
  let f := if (0 <=? root_lsp hs)%Z then dict_insert (bs "node_state") (BInt 1) f else f in
  let f := dict_insert (bs "node_id") (BBytes (node_id id)) f in
  let f := dict_insert (bs "nt") (BInt (nt (node hs))) f in
  let f := dict_insert (bs "p") (BInt (p (node hs))) f in
  let f := dict_insert (bs "platform") (BInt (platform (node hs))) f in
  let f := dict_insert (bs "pv") (BInt (pv (node hs))) f in
  let f := dict_insert (bs "stream_statuses") (BDict []) f in
  let f := dict_insert (bs "ts") (BInt (ts (node hs))) f in
  let f := dict_insert (bs "tt") (BBytes (bs "bt")) f in
  let f := dict_insert (bs "v") (BInt (v (node hs))) f in
  match peer_ip hs with
  | Some ip => dict_insert (bs "yourip") (BBytes ip) f
  | None => f
  end.

Definition sign_and_encode (hs : OutgoingExtendedHandshake) (id : Identity) : bytes :=
  let f := unsigned_fields hs id in
  let digest := handshake_digest f in
  encode (BDict (dict_insert (bs "signature") (BBytes (id_sign id digest)) f)).
End Extended.

(** ** Received handshakes *)

Record ExtendedHandshake : Type := mkExtended {
  raw : Bencode;
  ace_metadata_version : option Z;
  geoip_country : option bytes;
}.

Definition parse (payload : bytes) : Result ExtendedHandshake :=
  raw ← Bencode.parse payload;
  match raw with
  | BDict _ =>
      let version := get raw (bs "ace_metadata_version") ≫= as_int in
      let country := (get raw (bs "geoip_country") ≫= as_bytes) ≫=
        λ b, if utf8_valid b then Some b else None in
      Ok (mkExtended raw version country)
  | _ => Err (Invalid "extended handshake not a dict")
  end.

Definition ut_metadata_id (e : ExtendedHandshake) : option Z :=
  (get (raw e) (bs "m") ≫= λ m, get m (bs "ut_metadata")) ≫= as_int.

Definition metadata_size (e : ExtendedHandshake) : option Z :=
  get (raw e) (bs "metadata_size") ≫= as_int.

Inductive IpAddr : Type :=
  | IpV4 (octets : bytes)
  | IpV6 (octets : bytes).

Definition yourip (e : ExtendedHandshake) : option IpAddr :=
  b ← get (raw e) (bs "yourip") ≫= as_bytes;
  if (length b =? 4) then Some (IpV4 b)
  else if (length b =? 16) then Some (IpV6 b)
  else None.

(** ** Lemmas *)

(** The integers of a handshake are [i64]s, by their Rust types. *)
Definition in_range_position (pos : LivePosition) : bool :=
  in_i64 (min_piece pos) && in_i64 (max_piece pos) && in_i64 (position pos)
  && in_i64 (distance_from_source pos).

Definition well_typed (hs : OutgoingExtendedHandshake) : bool :=
  in_i64 (out_ace_metadata_version hs) && in_i64 (out_ut_metadata_id hs)
  && from_option in_range_position true (out_mi hs)
  && forallb in_i64 [ts (node hs); v (node hs); pv (node hs); p (node hs); nt (node hs);
                     platform (node hs)]
  && from_option in_i64 true (out_metadata_size hs).

Lemma int_fields_ok l : Forall (λ kv, in_i64 kv.2 = true) l →
  wf (BDict (int_fields l)) = true ∧ nest (BDict (int_fields l)) ≤ 1.
Proof.
  unfold int_fields. intros Hl.
  assert (∀ d, wf (BDict d) = true ∧ nest (BDict d) ≤ 1 →
    wf (BDict (fold_left (λ d kv, dict_insert kv.1 (BInt kv.2) d) l d)) = true ∧
    nest (BDict (fold_left (λ d kv, dict_insert kv.1 (BInt kv.2) d) l d)) ≤ 1) as Hgen.
  2:{ apply Hgen. simpl. lia. }
  induction Hl as [|[k z] l Hz _ IH]; intros d [Hw Hn]; [done|]. apply IH. simpl in *.
  apply andb_true_iff in Hw as [Hs Hf]. split.
  - rewrite dict_insert_sorted by done. simpl. rewrite forallb_Forall in *.
    by apply dict_insert_Forall.
  - assert (Forall (λ kv, nest kv.2 = 0) (dict_insert k (BInt z) d)) as Hall.
    { apply dict_insert_Forall; [done..|]. clear -Hn. induction d as [|[k' v'] d IH]; [constructor|].
      simpl in Hn. constructor; [simpl; lia|]. apply IH. simpl. lia. }
    clear -Hall. induction Hall as [|kv l' Hk _ IH]; simpl in *; [lia|]. rewrite Hk. simpl. lia.
Qed.

Lemma int_fields_insert k l d : Forall (λ kv, in_i64 kv.2 = true) l → fields_ok d →
  fields_ok (dict_insert k (BDict (int_fields l)) d).
Proof.
  intros [Hw Hn]%int_fields_ok Hd. apply fields_ok_insert; [done| |done]. unfold MAX_DEPTH. lia.
Qed.

Lemma fields_ok_int k z d : in_i64 z = true → fields_ok d → fields_ok (dict_insert k (BInt z) d).
Proof. intros Hz. apply fields_ok_insert; [done|unfold MAX_DEPTH; simpl; lia]. Qed.

Lemma fields_ok_bytes k b d : fields_ok d → fields_ok (dict_insert k (BBytes b) d).
Proof. apply fields_ok_insert; [done|unfold MAX_DEPTH; simpl; lia]. Qed.

#[local] Hint Resolve fields_ok_nil fields_ok_int fields_ok_bytes int_fields_insert : outpace.

Lemma base_fields_ok hs : well_typed hs = true → fields_ok (base_fields hs).
Proof.
  unfold well_typed. rewrite !andb_true_iff. intros ((((Hv & Hu) & Hmi) & _) & Hms).
  unfold base_fields.
  assert (fields_ok (dict_insert (bs "m")
    (BDict (dict_insert (bs "ut_metadata") (BInt (out_ut_metadata_id hs)) []))
    (dict_insert (bs "ace_metadata_version") (BInt (out_ace_metadata_version hs)) []))) as Hm.
  { apply (int_fields_insert _ [(bs "ut_metadata", out_ut_metadata_id hs)]); eauto with outpace. }
  assert (fields_ok match out_mi hs with
    | Some pos => dict_insert (bs "mi") (BDict (int_fields
          [(bs "min_piece", min_piece pos); (bs "max_piece", max_piece pos);
           (bs "position", position pos); (bs "distance_from_source", distance_from_source pos)]))
        (dict_insert (bs "m") (BDict (dict_insert (bs "ut_metadata") (BInt (out_ut_metadata_id hs)) []))
          (dict_insert (bs "ace_metadata_version") (BInt (out_ace_metadata_version hs)) []))
    | None => dict_insert (bs "m") (BDict (dict_insert (bs "ut_metadata") (BInt (out_ut_metadata_id hs)) []))
        (dict_insert (bs "ace_metadata_version") (BInt (out_ace_metadata_version hs)) [])
    end) as Hroot.
  { destruct (out_mi hs) as [pos|]; [|done]. apply int_fields_insert; [|done].
    simpl in Hmi. unfold in_range_position in Hmi. rewrite !andb_true_iff in Hmi.
    destruct Hmi as (((? & ?) & ?) & ?). by repeat constructor. }
  cbv zeta. destruct (out_metadata_size hs) as [sz|]; [|done]. by apply fields_ok_int.
Qed.

Lemma rich_mi_insert pos d : in_range_position pos = true → fields_ok d →
  fields_ok (dict_insert (bs "mi") (BDict (rich_mi pos)) d).
Proof.
  unfold in_range_position. rewrite !andb_true_iff. intros (((? & ?) & ?) & ?).
  apply int_fields_insert.
  assert (in_i64 (if has_live_head pos then max_piece pos else (-1)%Z) = true) by by case_match.
  assert (in_i64 (if has_live_head pos then 115%Z
    else Z.max (wrap_i64 (wrap_i64 (max_piece pos - min_piece pos) + 1)) 0) = true).
  { case_match; [done|]. apply Z.max_case_strong; [|done]. intros. apply wrap_i64_range. }
  by repeat constructor.
Qed.

Section accepted.
Context `{NodeCryptoLaws}.

Lemma unsigned_fields_ok hs id : well_typed hs = true → fields_ok (unsigned_fields hs id).
Proof.
  intros Ht. pose proof (base_fields_ok hs Ht) as Hb. unfold well_typed in Ht.
  rewrite !andb_true_iff in Ht. destruct Ht as ((((Hv & Hu) & Hmi) & Hn) & Hms).
  simpl in Hn. rewrite !andb_true_iff in Hn. destruct Hn as (? & ? & ? & ? & ? & ? & _).
  assert (in_i64 (root_lsp hs) = true) as Hl.
  { unfold root_lsp. destruct (out_mi hs) as [pos|]; [|done]. simpl in Hmi.
    unfold in_range_position in Hmi. rewrite !andb_true_iff in Hmi. destruct Hmi as (((? & ?) & ?) & ?). by destruct (has_live_head pos). }
  unfold unsigned_fields.
  assert (∀ f, fields_ok f → fields_ok (dict_insert (bs "stream_statuses") (BDict []) f)) as Hss.
  { intros f. apply fields_ok_insert; [done|unfold MAX_DEPTH; simpl; lia]. }
  assert (∀ f, fields_ok f →
    fields_ok (if (0 <=? root_lsp hs)%Z then dict_insert (bs "node_state") (BInt 1) f else f)) as Hns.
  { intros f Hf. case_match; [by apply fields_ok_int|done]. }
  assert (fields_ok match out_mi hs with
    | Some pos => dict_insert (bs "mi") (BDict (rich_mi pos)) (base_fields hs)
    | None => base_fields hs end) as Hm.
  { destruct (out_mi hs) as [pos|]; [|done]. by apply rich_mi_insert. }
  cbv zeta. destruct (peer_ip hs);
    repeat (apply fields_ok_int || apply fields_ok_bytes || apply Hss || apply Hns || exact Hm || done).
Qed.

(** The parts of a handshake that a reader finds again. *)
Lemma unsigned_fields_get hs id :
  dict_get (bs "node_id") (unsigned_fields hs id) = Some (BBytes (node_id id)) ∧
  dict_get (bs "m") (unsigned_fields hs id) =
    Some (BDict (dict_insert (bs "ut_metadata") (BInt (out_ut_metadata_id hs)) [])) ∧
  dict_get (bs "ace_metadata_version") (unsigned_fields hs id) =
    Some (BInt (out_ace_metadata_version hs)) ∧
  dict_get (bs "metadata_size") (unsigned_fields hs id) = BInt <$> out_metadata_size hs ∧
  dict_get (bs "yourip") (unsigned_fields hs id) = BBytes <$> peer_ip hs ∧
  dict_get (bs "lsp") (unsigned_fields hs id) = Some (BInt (root_lsp hs)).
Proof.
  unfold unsigned_fields, base_fields. cbv zeta.
  destruct (out_mi hs), (out_metadata_size hs), (peer_ip hs), (0 <=? root_lsp hs)%Z;
    split_and!; dict_read; done.
Qed.
End accepted.

(** ** Theorem *)

(** a signed handshake is accepted.  What the node signs and sends parses at the receiver
    to a dictionary that carries the node's id and a signature the receiver verifies over the
    received fields, with the announced extension id, metadata size, echoed address and live
    head unchanged. *)
Theorem signed_handshake_accepted `{NodeCryptoLaws} hs id :
  well_typed hs = true → (lenN (sign_and_encode hs id) < two64)%N →
  ∃ e d sig, parse (sign_and_encode hs id) = Ok e ∧ raw e = BDict d ∧
    dict_get (bs "node_id") d = Some (BBytes (node_id id)) ∧
    dict_get (bs "signature") d = Some (BBytes sig) ∧
    verify_handshake (node_id id) sig d = true ∧
    ace_metadata_version e = Some (out_ace_metadata_version hs) ∧
    ut_metadata_id e = Some (out_ut_metadata_id hs) ∧
    metadata_size e = out_metadata_size hs ∧
    (∀ ip, peer_ip hs = Some ip → length ip = 4 → yourip e = Some (IpV4 ip)) ∧
    get (raw e) (bs "lsp") = Some (BInt (root_lsp hs)).
Proof.
  intros Ht Hlen. destruct (unsigned_fields_get hs id) as (G1 & G2 & G3 & G4 & G5 & G6).
  pose proof (unsigned_fields_ok hs id Ht) as Hok. unfold sign_and_encode in *.
  set (f := unsigned_fields hs id) in *. cbv zeta in Hlen.
  set (sig := id_sign id (handshake_digest f)) in *.
  destruct (fields_ok_bytes (bs "signature") sig f Hok) as [Hw Hn].
  unfold parse. rewrite parse_encoded by done. cbn [mbind result_bind].
  eexists _, _, sig. split; [done|]. cbn [raw ace_metadata_version get]. split; [done|].
  unfold ut_metadata_id, metadata_size, yourip. cbn [raw get].
  dict_read. rewrite G1, G2, G3, G4, G5, G6. split_and!; try done.
  - apply verify_own_signature.
  - by destruct (out_metadata_size hs).
  - intros ip -> Hip. simpl. by rewrite Hip.
Qed.

Lemma signed_handshake_accepted_witness :
  let hs := mkOutgoing 1 2 (Some (mkLivePosition 100 163 (-1) (-1))) NodeFields_default
    (Some (map N_byte [203; 0; 113; 7]%N)) (Some 420%Z) in
  ∃ e, parse (@sign_and_encode toy_node_crypto hs (@mkIdentity toy_node_crypto "k"%byte)) = Ok e ∧
    metadata_size e = Some 420%Z.
Proof.
  intros hs. destruct (@signed_handshake_accepted toy_node_crypto toy_node_crypto_laws hs
    (@mkIdentity toy_node_crypto "k"%byte)) as (e & d & sig & He & _ & _ & _ & _ & _ & _ & Hm & _).
  - vm_compute. done.
  - vm_compute. done.
  - exists e. split; [exact He|exact Hm].
Defined.
