(* ===== verification/UtMetadata.v ===== *)
(** * Metadata exchange messages

    [ace-wire/src/ut_metadata.rs]: the BEP-9 control dictionary and its trailing data. *)

From S2P Require Import Prelude Bytes Wire Bencode.

Definition METADATA_BLOCK_LEN : N := 16384.
Definition MSG_TYPE_REQUEST : Z := 0.
Definition MSG_TYPE_DATA : Z := 1.
Definition MSG_TYPE_REJECT : Z := 2.

Definition control_dict (msg_type piece : Z) (total_size : option Z) : bytes :=
  let d := dict_insert (bs "msg_type") (BInt msg_type) [] in
  let d := dict_insert (bs "piece") (BInt piece) d in
  let d := match total_size with
    | Some ts => dict_insert (bs "total_size") (BInt ts) d
    | None => d
    end in
  encode (BDict d).

Definition request_piece (piece : Z) : bytes := control_dict MSG_TYPE_REQUEST piece None.

Definition data_piece (piece total_size : Z) (data : bytes) : bytes :=
  control_dict MSG_TYPE_DATA piece (Some total_size) ++ data.

Inductive MetadataMessage : Type :=
  | Request (piece : Z)
  | Data (piece : Z) (total_size : option Z) (data : bytes)
  | Reject (piece : Z).

Definition parse (payload : bytes) : option MetadataMessage :=
  '(dict, consumed) ← to_option (parse_prefix payload);
  msg_type ← get dict (bs "msg_type") ≫= as_int;
  piece ← get dict (bs "piece") ≫= as_int;
  if (msg_type =? MSG_TYPE_REQUEST)%Z then Some (Request piece)
  else if (msg_type =? MSG_TYPE_REJECT)%Z then Some (Reject piece)
  else if (msg_type =? MSG_TYPE_DATA)%Z then
    Some (Data piece (get dict (bs "total_size") ≫= as_int) (drop consumed payload))
  else None.

Definition piece_count (total_size : N) : N := div_ceil total_size METADATA_BLOCK_LEN.

(** ** Lemmas *)

(** The blocks of a metadata blob, as a seeder sends them. *)
Definition block (blob : bytes) (k : N) : bytes :=
  slice blob (N.to_nat (k * METADATA_BLOCK_LEN)) (N.to_nat ((k + 1) * METADATA_BLOCK_LEN)).

Lemma control_dict_prefix mt piece ts rest :
  in_i64 mt = true → in_i64 piece = true → from_option in_i64 true ts = true →
  (lenN (control_dict mt piece ts ++ rest) < two64)%N →
  ∃ d, parse_prefix (control_dict mt piece ts ++ rest) =
      Ok (BDict d, length (control_dict mt piece ts)) ∧
    dict_get (bs "msg_type") d = Some (BInt mt) ∧ dict_get (bs "piece") d = Some (BInt piece) ∧
    dict_get (bs "total_size") d = BInt <$> ts.
Proof.
  intros Hm Hp Ht Hlen. unfold control_dict in *.
  assert (∀ i, in_i64 i = true → wf (BInt i) = true ∧ nest (BInt i) < MAX_DEPTH) as Hint
    by (intros i Hi; split; [done|unfold MAX_DEPTH; simpl; lia]).
  set (d := match ts with Some _ => _ | None => _ end) in *.
  assert (fields_ok d) as [Hw Hn].
  { unfold d. destruct ts as [t|]; repeat apply fields_ok_insert; try apply Hint; try done;
      apply fields_ok_nil. }
  exists d. split; [by apply parse_prefix_encoded|].
  unfold d. destruct ts as [t|]; rewrite !dict_get_insert; done.
Qed.

Lemma piece_count_blocks blob :
  concat (block blob <$> range 0 (piece_count (lenN blob))) = blob.
Proof.
  assert (∀ n, (concat (block blob <$> range 0 n)) = take (N.to_nat (n * METADATA_BLOCK_LEN)) blob)
    as Hn.
  { intros n. induction n as [|n IH] using N.peano_ind; [done|].
    rewrite <-N.add_1_r, range_snoc, fmap_app, concat_app, IH. simpl. rewrite app_nil_r.
    unfold block, slice. rewrite N.add_0_l. rewrite take_take_drop. f_equal. lia. }
  rewrite Hn. apply firstn_all2. unfold piece_count, div_ceil.
  pose proof (N.div_mod (lenN blob) METADATA_BLOCK_LEN ltac:(done)).
  pose proof (N.mod_lt (lenN blob) METADATA_BLOCK_LEN ltac:(done)).
  destruct (N.eqb_spec (lenN blob `mod` METADATA_BLOCK_LEN) 0); unfold lenN in *; lia.
Qed.

Lemma request_length piece : in_i64 piece = true → (lenN (request_piece piece) < 64)%N.
Proof.
  intros [H1%Z.leb_le H2%Z.leb_le]%andb_true_iff.
  assert (length (dec_Z piece) ≤ 20) as Hd.
  { unfold dec_Z. destruct (piece <? 0)%Z; cbn [length]; [apply le_n_S|]; etrans;
      [apply (dec_fuel_length _ _ 19); lia|lia|apply (dec_fuel_length _ _ 19); lia|lia]. }
  unfold request_piece, control_dict. rewrite encode_dict. unfold lenN, enc_bytes. simpl. unfold encode. simpl.
  repeat (rewrite length_app; simpl). lia.
Qed.

Lemma metadata_request_parses piece : in_i64 piece = true → parse (request_piece piece) = Some (Request piece).
Proof.
  intros Hp. pose proof (request_length piece Hp) as Hl. unfold request_piece in *.
  destruct (control_dict_prefix MSG_TYPE_REQUEST piece None []) as (d & Hd & H1 & H2 & _);
    [done|done|done|rewrite app_nil_r; lia|].
  rewrite app_nil_r in Hd. unfold parse. rewrite Hd. simpl. by rewrite H1, H2.
Qed.

(** ** Theorems *)

(** metadata travels intact.  Every block of a blob, sent as a data message, parses back to
    its index, total size and bytes; a request parses back to its index; and the
    [piece_count] blocks concatenate to the blob. *)
Theorem metadata_transfer_roundtrip blob piece total k :
  in_i64 piece = true → in_i64 total = true →
  (lenN (data_piece piece total (block blob k)) < two64)%N →
  parse (data_piece piece total (block blob k)) = Some (Data piece (Some total) (block blob k)) ∧
  parse (request_piece piece) = Some (Request piece) ∧
  concat (block blob <$> range 0 (piece_count (lenN blob))) = blob.
Proof.
  intros Hp Ht Hlen. split_and!; [| |apply piece_count_blocks].
  - unfold data_piece in *. destruct (control_dict_prefix MSG_TYPE_DATA piece (Some total) (block blob k))
      as (d & Hd & H1 & H2 & H3); [done..|].
    unfold parse. rewrite Hd. simpl. rewrite H1, H2, H3. simpl. by rewrite drop_app_length.
  - by apply metadata_request_parses.
Qed.

Lemma metadata_transfer_roundtrip_witness :
  parse (data_piece 0 5 (bs "hello")) = Some (Data 0 (Some 5%Z) (bs "hello")).
Proof.
  apply (metadata_transfer_roundtrip (bs "hello") 0 5 0); vm_compute; done.
Defined.
