(* ===== verification/MpegTs.v ===== *)
(** * Transport-stream alignment

    [ace-media/src/mpegts.rs], packet basics: timing fields, the PCR clock, the alignment probe
    and [TsResync], the re-aligner between the reassembler and the player.  A [usize] position
    of a buffer is a [nat].  The tables, access points and the keyframe gate of the same module are
    in [TsTables.v] and [TsGate.v]. *)

From S2P Require Import Prelude Bytes.

Definition TS_SYNC : byte := N_byte 0x47.
Definition TS_PACKET_LEN : nat := 188.
Definition PCR_MODULUS : N := 2 ^ 33.

(** ** Timing *)

Record TsTiming : Type := mkTsTiming { pid : N; pcr : option N; discontinuity : bool }.

Definition byte_at (l : bytes) (i : nat) : N := byte_N (nth i l x00).

Definition ts_pid (pkt : bytes) : N :=
  N.lor (N.shiftl (N.land (byte_at pkt 1) 0x1F) 8) (byte_at pkt 2).

Definition ts_timing (packet : bytes) : TsTiming :=
  if negb (bool_decide (nth 0 packet x00 = TS_SYNC)) || (N.land (byte_at packet 3) 0x20 =? 0)%N then
    mkTsTiming 0 None false
  else
    let p := ts_pid packet in
    let adaptation_len := byte_at packet 4 in
    if (adaptation_len =? 0)%N || (183 <? adaptation_len)%N then mkTsTiming p None false
    else
      let flags := byte_at packet 5 in
      let c := if negb (N.land flags 0x10 =? 0)%N && (7 <=? adaptation_len)%N then
          Some (N.lor (N.lor (N.lor (N.lor (N.shiftl (byte_at packet 6) 25)
            (N.shiftl (byte_at packet 7) 17)) (N.shiftl (byte_at packet 8) 9))
            (N.shiftl (byte_at packet 9) 1)) (N.shiftr (byte_at packet 10) 7))
        else None in
      mkTsTiming p c (negb (N.land flags 0x80 =? 0)%N).

Definition pcr_delta (start e : N) : option N :=
  let delta := ((e + PCR_MODULUS - start) `mod` PCR_MODULUS)%N in
  if (delta <=? PCR_MODULUS `div` 2)%N then Some delta else None.

(** Durations are kept in 90 kHz ticks; the source divides by 90000.0 at the end. *)
Inductive ClockObservation : Type :=
  | Ignored
  | Advanced (ticks : N)
  | Reset.

Record SelectedPcrClock : Type := mkClock {
  clk_pid : option N;
  clk_start : option N;
  clk_last : option N;
}.

Definition clock_new : SelectedPcrClock := mkClock None None None.
Definition clock_reset (c : SelectedPcrClock) : SelectedPcrClock := clock_new.

Definition elapsed (c : SelectedPcrClock) : option N :=
  s ← clk_start c; l ← clk_last c; pcr_delta s l.

Definition observe (c : SelectedPcrClock) (t : TsTiming) : ClockObservation * SelectedPcrClock :=
  if discontinuity t then (Reset, clock_reset c)
  else
    match pcr t with
    | None => (Ignored, c)
    | Some v =>
        if match clk_pid c with Some p => negb (p =? pid t)%N | None => false end then (Ignored, c)
        else
          let c := mkClock (Some (default (pid t) (clk_pid c))) (clk_start c) (clk_last c) in
          if match clk_last c with
             | Some last => bool_decide (pcr_delta last v = None)
             | None => false
             end
          then (Reset, clock_reset c)
          else
            let c := mkClock (clk_pid c) (Some (default v (clk_start c))) (Some v) in
            (Advanced (default 0%N (elapsed c)), c)
    end.

(** ** Alignment *)

Definition PROBE_PACKETS : nat := 4.

Definition sync_at (buf : bytes) (i : nat) : bool := bool_decide (buf !! i = Some TS_SYNC).

(** [while pos < buf.len() && checked < PROBE_PACKETS], with at least one check made. *)
Fixpoint probe (n : nat) (buf : bytes) (pos : nat) : bool :=
  match n with
  | 0 => true
  | S n => if bool_decide (pos < length buf) then sync_at buf pos && probe n buf (pos + TS_PACKET_LEN)
           else true
  end.

Definition find_sync_offset (buf : bytes) : option nat :=
  List.find (λ off, bool_decide (off < length buf) && probe PROBE_PACKETS buf off)
    (seq 0 TS_PACKET_LEN).

Definition is_aligned (buf : bytes) : bool :=
  if bool_decide (buf = []) || negb (is_multiple_of (lenN buf) (N.of_nat TS_PACKET_LEN)) then false
  else forallb (λ p, sync_at p 0) (chunks_exact TS_PACKET_LEN buf).

Definition packet_count (buf : bytes) : nat := length buf / TS_PACKET_LEN.

Definition MAX_UNSYNCED_TAIL : nat := 2 * TS_PACKET_LEN - 1.

(** ** The re-aligner *)

Record TsResync : Type := mkResync { rs_buf : bytes; locked : bool; acquired_sync : bool }.

Definition new : TsResync := mkResync [] false false.

Record TsResyncBoundary : Type := mkBoundary { output_offset : nat; b_discarded : nat }.

Record TsResyncOutput : Type := mkOutput {
  selected : list (nat * nat);
  consumed : nat;
  out_bytes : bytes;
  discarded_bytes : nat;
  boundaries : list TsResyncBoundary;
}.

(** The locals of [push_report]. *)
Record Progress : Type := mkProgress {
  pr_i : nat;
  pr_locked : bool;
  pr_acquired : bool;
  pr_out : bytes;
  pr_selected : list (nat * nat);
  pr_discarded : nat;
  pr_boundaries : list TsResyncBoundary;
}.

(** The [report_loss] closure. *)
Definition add_boundary (offset count : nat) (bs : list TsResyncBoundary) : list TsResyncBoundary :=
  match last bs with
  | Some b =>
      if decide (output_offset b = offset) then
        take (length bs - 1) bs ++ [mkBoundary offset (b_discarded b + count)]
      else bs ++ [mkBoundary offset count]
  | None => bs ++ [mkBoundary offset count]
  end.

Definition report_loss (offset count : nat) (p : Progress) : Progress :=
  mkProgress (pr_i p) (pr_locked p) (pr_acquired p) (pr_out p) (pr_selected p)
    (pr_discarded p + count) (add_boundary offset count (pr_boundaries p)).

Definition set_i (i : nat) (p : Progress) : Progress :=
  mkProgress i (pr_locked p) (pr_acquired p) (pr_out p) (pr_selected p) (pr_discarded p)
    (pr_boundaries p).

Definition add_selected (i : nat) (sel : list (nat * nat)) : list (nat * nat) :=
  match last sel with
  | Some (a, b) =>
      if decide (b = i) then take (length sel - 1) sel ++ [(a, b + TS_PACKET_LEN)]
      else sel ++ [(i, i + TS_PACKET_LEN)]
  | None => sel ++ [(i, i + TS_PACKET_LEN)]
  end.

(** The inner scan to the next confirmable packet start. *)
Fixpoint scan (fuel : nat) (buf : bytes) (j : nat) : nat :=
  match fuel with
  | 0 => j
  | S fuel =>
      if bool_decide (j + TS_PACKET_LEN < length buf)
         && negb (sync_at buf j && sync_at buf (j + TS_PACKET_LEN))
      then scan fuel buf (j + 1) else j
  end.

(** The main loop; every turn advances [i], so the buffer's length is enough fuel. *)
Fixpoint resync_loop (fuel : nat) (buf : bytes) (p : Progress) : Progress :=
  match fuel with
  | 0 => p
  | S fuel =>
      let i := pr_i p in
      let n := length buf in
      if bool_decide (i + 2 * TS_PACKET_LEN ≤ n) then
        if sync_at buf i && (pr_locked p || sync_at buf (i + TS_PACKET_LEN)) then
          resync_loop fuel buf
            (mkProgress (i + TS_PACKET_LEN) true true
               (pr_out p ++ slice buf i (i + TS_PACKET_LEN)) (add_selected i (pr_selected p))
               (pr_discarded p) (pr_boundaries p))
        else
          let p := mkProgress i false (pr_acquired p) (pr_out p) (pr_selected p) (pr_discarded p)
            (pr_boundaries p) in
          let j := scan n buf (i + 1) in
          if bool_decide (j + TS_PACKET_LEN < n) then
            let p := if pr_acquired p then report_loss (length (pr_out p)) (j - i) p else p in
            resync_loop fuel buf (set_i j p)
          else p
      else p
  end.

Definition push_report (r : TsResync) (data : bytes) : TsResyncOutput * TsResync :=
  let buf := rs_buf r ++ data in
  let p := resync_loop (S (length buf)) buf
    (mkProgress 0 (locked r) (acquired_sync r) [] [] 0 []) in
  let rest := drop (pr_i p) buf in
  if bool_decide (MAX_UNSYNCED_TAIL < length rest) then
    let excess := length rest - MAX_UNSYNCED_TAIL in
    let q := if pr_acquired p then report_loss (length (pr_out p)) excess p else p in
    (mkOutput (pr_selected q) (pr_i p + excess) (pr_out q) (pr_discarded q) (pr_boundaries q),
     mkResync (drop excess rest) false (pr_acquired q))
  else
    (mkOutput (pr_selected p) (pr_i p) (pr_out p) (pr_discarded p) (pr_boundaries p),
     mkResync rest (pr_locked p) (pr_acquired p)).

Definition push (r : TsResync) (data : bytes) : bytes * TsResync :=
  let '(o, r) := push_report r data in (out_bytes o, r).

(** ** Lemmas *)

Definition aligned (l : bytes) : Prop :=
  ∃ q, length l = q * TS_PACKET_LEN ∧ ∀ k, k < q → sync_at l (k * TS_PACKET_LEN) = true.

Definition lockable (buf : bytes) (k : nat) : bool := sync_at buf k && sync_at buf (k + TS_PACKET_LEN).

Definition ranges_of (buf : bytes) (sel : list (nat * nat)) : bytes :=
  concat (map (λ r, slice buf r.1 r.2) sel).

Definition lost (bs : list TsResyncBoundary) : nat := list_sum (map b_discarded bs).

Definition in_ranges (k : nat) (sel : list (nat * nat)) : Prop := ∃ r, r ∈ sel ∧ r.1 ≤ k < r.2.

Lemma sync_at_app_l l1 l2 k : k < length l1 → sync_at (l1 ++ l2) k = sync_at l1 k.
Proof. intros H. unfold sync_at. by rewrite lookup_app_l. Qed.

Lemma sync_at_app_r l1 l2 k : sync_at (l1 ++ l2) (length l1 + k) = sync_at l2 k.
Proof. unfold sync_at. rewrite lookup_app_r by lia. do 2 f_equal. by replace (_ - _) with k by lia. Qed.

Lemma sync_at_slice l a b k : a + k < b → sync_at (slice l a b) k = sync_at l (a + k).
Proof. intros H. unfold sync_at, slice. by rewrite lookup_take_lt, lookup_drop by lia. Qed.

Lemma aligned_nil : aligned [].
Proof. exists 0. split; [done|lia]. Qed.

Lemma aligned_app l1 l2 : aligned l1 → aligned l2 → aligned (l1 ++ l2).
Proof.
  intros (q1 & H1 & S1) (q2 & H2 & S2). exists (q1 + q2). rewrite length_app.
  unfold TS_PACKET_LEN in *. split; [lia|]. intros k Hk. destruct (decide (k < q1)).
  - rewrite sync_at_app_l by lia. auto.
  - replace (k * 188) with (length l1 + (k - q1) * 188) by lia. rewrite sync_at_app_r.
    apply S2. lia.
Qed.

Lemma aligned_packet buf i : i + TS_PACKET_LEN ≤ length buf → sync_at buf i = true →
  aligned (slice buf i (i + TS_PACKET_LEN)).
Proof.
  intros Hi Hs. exists 1. rewrite slice_length by done. unfold TS_PACKET_LEN in *.
  split; [lia|]. intros k Hk. replace k with 0 by lia. rewrite sync_at_slice by lia.
  by rewrite Nat.add_0_r.
Qed.

Lemma chunk_sync (l : bytes) q k c : length l = q * TS_PACKET_LEN →
  chunks_exact TS_PACKET_LEN l !! k = Some c → sync_at c 0 = sync_at l (k * TS_PACKET_LEN).
Proof.
  intros Hl Hk. destruct (chunks_exact_all TS_PACKET_LEN l q) as (Hn & Hall & Hc);
    [unfold TS_PACKET_LEN; lia|done|].
  pose proof (slice_concat _ TS_PACKET_LEN k 0 TS_PACKET_LEN c Hall Hk ltac:(lia)) as Hs.
  rewrite Hc in Hs. transitivity (sync_at (slice c 0 TS_PACKET_LEN) 0).
  - by rewrite sync_at_slice by (unfold TS_PACKET_LEN; lia).
  - rewrite <- Hs, sync_at_slice by (unfold TS_PACKET_LEN; lia). f_equal. lia.
Qed.

Lemma whole_packets (l : bytes) :
  is_multiple_of (lenN l) (N.of_nat TS_PACKET_LEN) = true ↔ ∃ q, length l = q * TS_PACKET_LEN.
Proof.
  unfold is_multiple_of, lenN. change (N.of_nat TS_PACKET_LEN) with 188%N.
  change TS_PACKET_LEN with 188. simpl. rewrite N.eqb_eq. split.
  - intros H. exists (N.to_nat (N.of_nat (length l) `div` 188)).
    pose proof (N.div_mod' (N.of_nat (length l)) 188). lia.
  - intros [q ->]. rewrite Nat2N.inj_mul. apply N.Div0.mod_mul.
Qed.

(** The packet-wise reading of alignment is the one [is_aligned] tests. *)
Lemma is_aligned_spec (l : bytes) : is_aligned l = true ↔ l ≠ [] ∧ aligned l.
Proof.
  unfold is_aligned, aligned. destruct (bool_decide_reflect (l = [])) as [->|Hne]; [naive_solver|].
  simpl. destruct (is_multiple_of _ _) eqn:Hm; simpl.
  2: { split; [done|]. intros (_ & q & Hq & _).
       assert (is_multiple_of (lenN l) (N.of_nat TS_PACKET_LEN) = true) by (apply whole_packets; eauto).
       congruence. }
  apply whole_packets in Hm as [q Hq]. rewrite forallb_Forall, Forall_lookup.
  destruct (chunks_exact_all TS_PACKET_LEN l q) as (Hn & _ & _); [unfold TS_PACKET_LEN; lia|done|].
  split.
  - intros H. split; [done|]. exists q. split; [done|]. intros k Hk.
    destruct (lookup_lt_is_Some_2 (chunks_exact TS_PACKET_LEN l) k) as [c Hc]; [lia|].
    rewrite <- (chunk_sync l q k c) by done. by apply (H k).
  - intros (_ & q' & Hq' & H) k c Hc. assert (q' = q) as -> by (unfold TS_PACKET_LEN in *; lia).
    rewrite (chunk_sync l q k c) by done. apply H. apply lookup_lt_Some in Hc. lia.
Qed.

Lemma slice_join {A} (l : list A) a b c : a ≤ b ≤ c → slice l a b ++ slice l b c = slice l a c.
Proof.
  intros H. unfold slice. replace (c - a) with ((b - a) + (c - b)) by lia.
  rewrite <- take_take_drop, drop_drop. do 3 f_equal. lia.
Qed.

Lemma StronglySorted_snoc {A} (R : relation A) l x :
  StronglySorted R (l ++ [x]) ↔ StronglySorted R l ∧ Forall (λ y, R y x) l.
Proof.
  rewrite StronglySorted_app, Forall_forall. split.
  - intros (H & Hl & _). split; [done|]. intros y Hy. apply H; [done|set_solver].
  - intros [Hl H]. split_and!; [|done|repeat constructor].
    intros y z Hy ->%list_elem_of_singleton. by apply H.
Qed.

Lemma ranges_of_snoc buf sel r : ranges_of buf (sel ++ [r]) = ranges_of buf sel ++ slice buf r.1 r.2.
Proof. unfold ranges_of. rewrite map_app, concat_app. simpl. by rewrite app_nil_r. Qed.

Lemma add_selected_snoc i sel : sel = [] ∨ (∃ s a b, sel = s ++ [(a, b)] ∧
  add_selected i sel = if decide (b = i) then s ++ [(a, b + TS_PACKET_LEN)] else sel ++ [(i, i + TS_PACKET_LEN)]).
Proof.
  destruct sel as [|[a b] s _] using rev_ind; [by left|]. right. exists s, a, b. split; [done|].
  unfold add_selected. rewrite last_snoc, length_app. cbn [length].
  by rewrite Nat.add_sub, take_app_length.
Qed.

Lemma add_boundary_snoc off n bs : bs = [] ∨ (∃ s b, bs = s ++ [b] ∧
  add_boundary off n bs = if decide (output_offset b = off) then s ++ [mkBoundary off (b_discarded b + n)]
                          else bs ++ [mkBoundary off n]).
Proof.
  destruct bs as [|b s _] using rev_ind; [by left|]. right. exists s, b. split; [done|].
  unfold add_boundary. rewrite last_snoc, length_app. cbn [length].
  by rewrite Nat.add_sub, take_app_length.
Qed.

Definition selected_ok (i : nat) (sel : list (nat * nat)) : Prop :=
  Forall (λ r, r.1 < r.2 ≤ i) sel ∧ StronglySorted (λ r s, r.2 < s.1) sel.

Definition boundaries_ok (n : nat) (bs : list TsResyncBoundary) : Prop :=
  Forall (λ b, (∃ q, output_offset b = q * TS_PACKET_LEN) ∧ output_offset b ≤ n ∧ 0 < b_discarded b) bs ∧
  StronglySorted (λ b c, output_offset b < output_offset c) bs.

Lemma add_selected_ok buf i sel : selected_ok i sel →
  selected_ok (i + TS_PACKET_LEN) (add_selected i sel) ∧
  ranges_of buf (add_selected i sel) = ranges_of buf sel ++ slice buf i (i + TS_PACKET_LEN) ∧
  (∀ k, in_ranges k sel ∨ i ≤ k < i + TS_PACKET_LEN → in_ranges k (add_selected i sel)).
Proof.
  intros [Hf Hs]. destruct (add_selected_snoc i sel) as [->|(s & a & b & -> & ->)];
    unfold TS_PACKET_LEN in *.
  { unfold add_selected, selected_ok, ranges_of, in_ranges, TS_PACKET_LEN. simpl. rewrite app_nil_r.
    split_and!; [repeat constructor; simpl; lia|repeat constructor|done|].
    intros k [(r & Hr & _)|Hk]; [by apply not_elem_of_nil in Hr|].
    exists (i, i + 188). split; [set_solver|simpl; lia]. }
  apply Forall_app in Hf as [Hf Hab]. rewrite Forall_singleton in Hab. simpl in Hab.
  apply StronglySorted_snoc in Hs as [Hs Hlt]. simpl in Hlt.
  destruct (decide (b = i)) as [->|Hne].
  - split_and!.
    + split; [|by apply StronglySorted_snoc].
      apply Forall_app. split; [eapply Forall_impl; [done|simpl; lia]|repeat constructor; simpl; lia].
    + rewrite !ranges_of_snoc. simpl. by rewrite <- app_assoc, slice_join by lia.
    + intros k [(r & [Hr| ->%list_elem_of_singleton]%elem_of_app & Hk)|Hk].
      * exists r. split; [set_solver|done].
      * exists (a, i + 188). split; [set_solver|simpl in *; lia].
      * exists (a, i + 188). split; [set_solver|simpl; lia].
  - assert (Forall (λ r : nat * nat, r.2 < i) (s ++ [(a, b)])) as Hend.
    { apply Forall_app. split; [|repeat constructor; simpl; lia].
      eapply Forall_impl; [exact Hlt|simpl; lia]. }
    split_and!.
    + split; [|apply StronglySorted_snoc; split; [by apply StronglySorted_snoc|done]].
      rewrite !Forall_app. split_and!; [|repeat constructor; simpl; lia..].
      eapply Forall_impl; [exact Hf|simpl; lia].
    + by rewrite ranges_of_snoc.
    + intros k [(r & Hr & Hk)|Hk]; [exists r; split; [set_solver|done]|].
      exists (i, i + 188). split; [set_solver|simpl; lia].
Qed.

Lemma lost_snoc bs b : lost (bs ++ [b]) = lost bs + b_discarded b.
Proof. unfold lost. rewrite map_app, list_sum_app. simpl. lia. Qed.

Lemma add_boundary_ok (out : bytes) cnt bs : aligned out → 0 < cnt → boundaries_ok (length out) bs →
  boundaries_ok (length out) (add_boundary (length out) cnt bs) ∧
  lost (add_boundary (length out) cnt bs) = lost bs + cnt.
Proof.
  intros (q & Hq & _) Hc [Hf Hs].
  destruct (add_boundary_snoc (length out) cnt bs) as [->|(s & b & -> & ->)].
  { unfold add_boundary, boundaries_ok, lost. simpl. repeat constructor; simpl; [|lia..]. by exists q. }
  apply Forall_app in Hf as [Hf Hb]. rewrite Forall_singleton in Hb.
  destruct Hb as (Hb1 & Hb2 & Hb3).
  apply StronglySorted_snoc in Hs as [Hs Hlt]. destruct (decide (output_offset b = length out)) as [He|Hne].
  - rewrite !lost_snoc. split; [|simpl; lia]. split.
    + apply Forall_app. split; [done|]. repeat constructor; simpl; [by exists q|lia..].
    + apply StronglySorted_snoc. split; [done|]. simpl. by rewrite <- He.
  - rewrite !lost_snoc. split; [|simpl; lia]. split.
    + rewrite !Forall_app. split_and!; repeat constructor; simpl; try done; try lia; by exists q.
    + apply StronglySorted_snoc. split; [by apply StronglySorted_snoc|].
      apply Forall_app. split; [|repeat constructor; simpl; lia].
      eapply Forall_impl; [exact Hlt|simpl; lia].
Qed.

Lemma resync_scan_spec fuel buf j : length buf ≤ j + fuel →
  let r := scan fuel buf j in
  j ≤ r ∧ (∀ k, j ≤ k < r → lockable buf k = false) ∧
  (r + TS_PACKET_LEN < length buf → lockable buf r = true).
Proof.
  revert j. induction fuel as [|fuel IH]; intros j Hf; simpl.
  { split_and!; [lia|lia|]. unfold TS_PACKET_LEN. lia. }
  case_bool_decide as Hb; simpl; [|split_and!; lia].
  fold (lockable buf j). destruct (lockable buf j) eqn:Hl; simpl; [split_and!; [lia|lia|done]|].
  destruct (IH (j + 1)) as (H1 & H2 & H3); [lia|]. split_and!; [lia| |done].
  intros k Hk. destruct (decide (k = j)) as [->|]; [done|]. apply H2. lia.
Qed.

(** What every turn of the loop keeps; [a0] is whether sync was acquired by an earlier push. *)
Record resync_inv (buf : bytes) (a0 : bool) (p : Progress) : Prop := {
  ri_bound : pr_i p ≤ length buf;
  ri_out : pr_out p = ranges_of buf (pr_selected p);
  ri_aligned : aligned (pr_out p);
  ri_selected : selected_ok (pr_i p) (pr_selected p);
  ri_acquired : a0 = true → pr_acquired p = true;
  ri_count : a0 = true → pr_discarded p + length (pr_out p) = pr_i p;
  ri_lost : pr_discarded p = lost (pr_boundaries p);
  ri_boundaries : boundaries_ok (length (pr_out p)) (pr_boundaries p);
  ri_rejected : ∀ k, k < pr_i p → in_ranges k (pr_selected p) ∨ lockable buf k = false;
}.

Definition emit (buf : bytes) (p : Progress) : Progress :=
  mkProgress (pr_i p + TS_PACKET_LEN) true true
    (pr_out p ++ slice buf (pr_i p) (pr_i p + TS_PACKET_LEN)) (add_selected (pr_i p) (pr_selected p))
    (pr_discarded p) (pr_boundaries p).

Definition skip_to (j : nat) (p : Progress) : Progress :=
  set_i j (if pr_acquired p then report_loss (length (pr_out p)) (j - pr_i p) p else p).

Lemma boundaries_ok_mono n m bs : n ≤ m → boundaries_ok n bs → boundaries_ok m bs.
Proof.
  intros H [Hf Hs]. split; [|done]. eapply Forall_impl; [exact Hf|]. simpl. intros b (? & ? & ?).
  split_and!; [done|lia|done].
Qed.

Lemma selected_ok_mono i j sel : i ≤ j → selected_ok i sel → selected_ok j sel.
Proof. intros H [Hf Hs]. split; [|done]. eapply Forall_impl; [exact Hf|]. simpl. lia. Qed.

Lemma emit_inv buf a0 p : resync_inv buf a0 p → pr_i p + TS_PACKET_LEN ≤ length buf →
  sync_at buf (pr_i p) = true → resync_inv buf a0 (emit buf p).
Proof.
  intros [H1 H2 H3 H4 H5 H6 H7 H8 H9] Hi Hs.
  destruct (add_selected_ok buf (pr_i p) (pr_selected p) H4) as (S1 & S2 & S3).
  constructor; cbn [emit pr_i pr_out pr_selected pr_acquired pr_discarded pr_boundaries]; try done.
  - by rewrite S2, H2.
  - apply aligned_app; [done|]. by apply aligned_packet.
  - intros Ha. specialize (H6 Ha). rewrite length_app, slice_length by lia. lia.
  - eapply boundaries_ok_mono; [|done]. rewrite length_app. lia.
  - intros k Hk. destruct (decide (k < pr_i p)) as [Hlt|Hge]; [|left; apply S3; lia].
    destruct (H9 k Hlt); [left; apply S3; by left|by right].
Qed.

Lemma resync_skip_inv buf a0 p j : resync_inv buf a0 p → pr_i p < j → j ≤ length buf →
  (∀ k, pr_i p ≤ k < j → lockable buf k = false) → resync_inv buf a0 (skip_to j p).
Proof.
  intros [H1 H2 H3 H4 H5 H6 H7 H8 H9] Hj Hn Hrej.
  destruct (add_boundary_ok (pr_out p) (j - pr_i p) (pr_boundaries p) H3) as [B1 B2]; [lia|done|].
  unfold skip_to. destruct (pr_acquired p) eqn:Ha;
    constructor; cbn [report_loss set_i pr_i pr_out pr_selected pr_acquired pr_discarded pr_boundaries];
    try done; try (by eapply selected_ok_mono; [|done]; lia); try lia.
  - intros H0. specialize (H6 H0). lia.
  - intros k Hk. destruct (decide (k < pr_i p)); [auto|right; apply Hrej; lia].
  - intros H0. by specialize (H5 H0).
  - intros H0. by specialize (H5 H0).
  - intros k Hk. destruct (decide (k < pr_i p)); [auto|right; apply Hrej; lia].
Qed.

Definition unlock (p : Progress) : Progress :=
  mkProgress (pr_i p) false (pr_acquired p) (pr_out p) (pr_selected p) (pr_discarded p) (pr_boundaries p).

Lemma unlock_inv buf a0 p : resync_inv buf a0 p → resync_inv buf a0 (unlock p).
Proof. intros []. by constructor. Qed.

(** The loop stops at a position from which nothing more can be confirmed. *)
Definition exhausted (buf : bytes) (i : nat) : Prop :=
  length buf < i + 2 * TS_PACKET_LEN ∨
  ∀ k, i ≤ k → k + TS_PACKET_LEN < length buf → lockable buf k = false.

Lemma resync_loop_spec fuel buf a0 p : length buf < pr_i p + fuel → resync_inv buf a0 p →
  resync_inv buf a0 (resync_loop fuel buf p) ∧ exhausted buf (pr_i (resync_loop fuel buf p)).
Proof.
  revert p. induction fuel as [|fuel IH]; intros p Hf Hi.
  { destruct Hi. lia. }
  cbn [resync_loop]. case_bool_decide as Hn; [|split; [done|left; lia]].
  destruct (sync_at buf (pr_i p) && _) eqn:Hc.
  { apply andb_prop in Hc as [Hs _]. apply (IH (emit buf p)); [simpl; unfold TS_PACKET_LEN; lia|].
    apply emit_inv; [done|unfold TS_PACKET_LEN in *; lia|done]. }
  destruct (resync_scan_spec (length buf) buf (pr_i p + 1)) as (S1 & S2 & S3); [lia|].
  set (j := scan (length buf) buf (pr_i p + 1)) in *.
  assert (lockable buf (pr_i p) = false) as H0.
  { unfold lockable. destruct (sync_at buf (pr_i p)), (pr_locked p); simpl in Hc |- *; done. }
  assert (∀ k, pr_i p ≤ k < j → lockable buf k = false) as Hrej.
  { intros k Hk. destruct (decide (k = pr_i p)) as [->|]; [done|apply S2; lia]. }
  fold (unlock p). case_bool_decide as Hj.
  - apply (IH (skip_to j (unlock p))).
    + unfold skip_to. destruct (pr_acquired _); simpl; lia.
    + apply resync_skip_inv; [by apply unlock_inv|simpl; lia|unfold TS_PACKET_LEN in *; lia|done].
  - split; [by apply unlock_inv|right]. simpl. intros k Hk Hkn. apply Hrej. lia.
Qed.

Lemma resync_start buf a0 l : resync_inv buf a0 (mkProgress 0 l a0 [] [] 0 []).
Proof.
  constructor; simpl; try done; [lia|apply aligned_nil|repeat constructor..|lia].
Qed.

(** A push is described by one state of the loop, the cap on the tail being one more skip. *)
Lemma push_report_spec r data : let '(o, r') := push_report r data in
  let buf := rs_buf r ++ data in ∃ p, resync_inv buf (acquired_sync r) p ∧
  o = mkOutput (pr_selected p) (pr_i p) (pr_out p) (pr_discarded p) (pr_boundaries p) ∧
  rs_buf r' = drop (pr_i p) buf ∧ acquired_sync r' = pr_acquired p ∧
  length (rs_buf r') ≤ MAX_UNSYNCED_TAIL.
Proof.
  unfold push_report. set (buf := rs_buf r ++ data).
  set (p0 := mkProgress 0 (locked r) (acquired_sync r) [] [] 0 []).
  destruct (resync_loop_spec (S (length buf)) buf (acquired_sync r) p0) as [Hi He];
    [simpl; lia|apply resync_start|].
  set (p := resync_loop (S (length buf)) buf p0) in *. rewrite length_drop.
  pose proof (ri_bound _ _ _ Hi) as Hb. case_bool_decide as Hc.
  2: { exists p. split_and!; try done. simpl. rewrite length_drop. lia. }
  unfold MAX_UNSYNCED_TAIL, TS_PACKET_LEN in Hc.
  set (e := length buf - pr_i p - MAX_UNSYNCED_TAIL).
  exists (skip_to (pr_i p + e) p). split_and!.
  - apply resync_skip_inv; [done|unfold e, MAX_UNSYNCED_TAIL, TS_PACKET_LEN; lia|unfold e; lia|].
    intros k Hk. destruct He as [He|He]; [unfold TS_PACKET_LEN in He; lia|].
    apply He; [lia|]. unfold e, MAX_UNSYNCED_TAIL, TS_PACKET_LEN in *. lia.
  - unfold skip_to. replace (pr_i p + e - pr_i p) with e by lia. by destruct (pr_acquired p).
  - unfold skip_to. destruct (pr_acquired p); simpl; by rewrite drop_drop.
  - unfold skip_to. by destruct (pr_acquired p) eqn:Ha; simpl; rewrite ?Ha.
  - simpl. rewrite !length_drop. unfold e. lia.
Qed.

(** One push of the re-aligner.  The emitted bytes are whole 188-byte packets that all start
    with the sync byte, and they are exactly the selected, strictly ascending and separated
    ranges of the retained tail followed by the input; what is not consumed is retained, never
    more than [MAX_UNSYNCED_TAIL] bytes.  Once sync has been acquired every consumed byte is
    either emitted or counted as discarded, the boundaries split that count, and their offsets
    are ascending packet boundaries of the output. *)
Theorem resync_push_accounts (r : TsResync) (data : bytes) :
  let '(o, r') := push_report r data in
  let buf := rs_buf r ++ data in
  (out_bytes o = [] ∨ is_aligned (out_bytes o) = true) ∧
  out_bytes o = ranges_of buf (selected o) ∧ selected_ok (consumed o) (selected o) ∧
  rs_buf r' = drop (consumed o) buf ∧ consumed o ≤ length buf ∧
  length (rs_buf r') ≤ MAX_UNSYNCED_TAIL ∧
  (acquired_sync r = true → acquired_sync r' = true ∧
     discarded_bytes o + length (out_bytes o) = consumed o) ∧
  discarded_bytes o = lost (boundaries o) ∧
  boundaries_ok (length (out_bytes o)) (boundaries o).
Proof.
  pose proof (push_report_spec r data) as H. destruct (push_report r data) as [o r'].
  destruct H as (p & Hi & -> & Hb & Ha & Hl). simpl. destruct Hi. split_and!; try done.
  - destruct (decide (pr_out p = [])); [by left|right]. by apply is_aligned_spec.
  - intros H. rewrite Ha. auto.
Qed.

(** The re-aligner never throws away a confirmable packet start: every consumed position is in an
    emitted range or is not a sync byte whose successor 188 bytes later is one too. *)
Theorem resync_drops_only_unlockable (r : TsResync) (data : bytes) (k : nat) :
  let buf := rs_buf r ++ data in
  k < consumed (push_report r data).1 →
  in_ranges k (selected (push_report r data).1) ∨
  (sync_at buf k && sync_at buf (k + TS_PACKET_LEN)) = false.
Proof.
  intros buf Hk. pose proof (push_report_spec r data) as H.
  destruct (push_report r data) as [o r']. destruct H as (p & Hi & -> & _). by apply (ri_rejected _ _ _ Hi).
Qed.

(** ** Pass-through of an aligned stream *)

(** Successive pushes: all the output, the bytes reported as discarded, the final state. *)
Fixpoint feed (r : TsResync) (ds : list bytes) : bytes * nat * TsResync :=
  match ds with
  | [] => ([], 0, r)
  | d :: ds =>
      let '(o, r) := push_report r d in
      let '(out, n, r) := feed r ds in (out_bytes o ++ out, discarded_bytes o + n, r)
  end.

Definition synced (buf : bytes) : Prop :=
  ∀ k, k * TS_PACKET_LEN < length buf → sync_at buf (k * TS_PACKET_LEN) = true.

(** The whole packets that have a successor in the buffer. *)
Definition lookahead (n : nat) : nat := (n / TS_PACKET_LEN - 1) * TS_PACKET_LEN.

Lemma lookahead_spec n : ∃ q, lookahead n = q * 188 ∧
  (n < 188 ∧ q = 0 ∨ q * 188 + 188 ≤ n < q * 188 + 376).
Proof.
  unfold lookahead. change TS_PACKET_LEN with 188. exists (n / 188 - 1). split; [done|].
  pose proof (Nat.div_mod_eq n 188). pose proof (Nat.mod_upper_bound n 188 ltac:(lia)). lia.
Qed.

Lemma resync_loop_synced fuel buf p q : synced buf → pr_i p = q * TS_PACKET_LEN →
  length buf < pr_i p + fuel → pr_i p ≤ lookahead (length buf) →
  let r := resync_loop fuel buf p in
  pr_i r = lookahead (length buf) ∧ pr_out r = pr_out p ++ slice buf (pr_i p) (lookahead (length buf)) ∧
  pr_discarded r = pr_discarded p.
Proof.
  intros Hsy. revert p q. destruct (lookahead_spec (length buf)) as (w & Hw & Hn). rewrite Hw.
  induction fuel as [|fuel IH]; intros p q Hq Hf Hle; [lia|].
  unfold TS_PACKET_LEN in Hq. cbn [resync_loop]. case_bool_decide as Hi; unfold TS_PACKET_LEN in Hi.
  - assert (sync_at buf (pr_i p) = true) as H1.
    { rewrite Hq. apply Hsy. unfold TS_PACKET_LEN. lia. }
    assert (sync_at buf (pr_i p + TS_PACKET_LEN) = true) as H2.
    { replace (_ + _) with (S q * TS_PACKET_LEN) by (unfold TS_PACKET_LEN; lia). apply Hsy.
      unfold TS_PACKET_LEN. lia. }
    rewrite H1, H2, orb_true_r. cbn [andb]. change TS_PACKET_LEN with 188 in *.
    destruct (IH (emit buf p) (S q)) as (I1 & I2 & I3); [simpl; unfold TS_PACKET_LEN; lia..|].
    unfold emit in I1, I2, I3. cbn [pr_i pr_out pr_discarded] in I1, I2, I3.
    change TS_PACKET_LEN with 188 in *.
    split_and!; [done| |done]. by rewrite I2, <- app_assoc, slice_join by lia.
  - assert (pr_i p = w * 188) as He by lia.
    split_and!; [done| |done]. rewrite <- He. unfold slice. by rewrite Nat.sub_diag, app_nil_r.
Qed.

Lemma push_synced r d : synced (rs_buf r ++ d) → let '(o, r') := push_report r d in
  let n := lookahead (length (rs_buf r ++ d)) in
  out_bytes o = take n (rs_buf r ++ d) ∧ discarded_bytes o = 0 ∧ rs_buf r' = drop n (rs_buf r ++ d).
Proof.
  intros Hs. unfold push_report. set (buf := rs_buf r ++ d) in *.
  set (p0 := mkProgress 0 (locked r) (acquired_sync r) [] [] 0 []).
  destruct (resync_loop_synced (S (length buf)) buf p0 0) as (H1 & H2 & H3); [done..|simpl; lia|simpl; lia|].
  set (p := resync_loop (S (length buf)) buf p0) in *.
  assert (length (drop (pr_i p) buf) ≤ MAX_UNSYNCED_TAIL) as Hl.
  { rewrite length_drop, H1. destruct (lookahead_spec (length buf)) as (w & -> & Hw).
    unfold MAX_UNSYNCED_TAIL, TS_PACKET_LEN. lia. }
  rewrite bool_decide_false by lia. simpl. rewrite H1, H2, H3. split_and!; try done.
  unfold slice. simpl. by rewrite Nat.sub_0_r, drop_0.
Qed.

(** Pushing more of a stream of packets continues where the lookahead packet was held back. *)
Lemma feed_synced ds r s m : synced s → m ≤ length s → drop m s = concat ds →
  rs_buf r = drop (lookahead m) (take m s) →
  let '(out, n, r') := feed r ds in
  out = slice s (lookahead m) (lookahead (length s)) ∧ n = 0 ∧ rs_buf r' = drop (lookahead (length s)) s.
Proof.
  intros Hs. revert r m. induction ds as [|d ds IH]; intros r m Hm Hd Hr; simpl in *.
  { assert (m = length s) as -> by (apply (f_equal length) in Hd; rewrite length_drop in Hd; simpl in Hd; lia).
    split_and!; [|done|by rewrite Hr, firstn_all]. unfold slice. by rewrite Nat.sub_diag. }
  set (m' := m + length d).
  assert (m' ≤ length s ∧ take m' s = take m s ++ d ∧ drop m' s = concat ds) as (Hm' & Ht & Hd').
  { apply (f_equal length) in Hd as Hl. rewrite length_drop, length_app in Hl. unfold m'. split_and!; [lia| |].
    - by rewrite <- take_take_drop, Hd, take_app_length.
    - by rewrite <- drop_drop, Hd, drop_app_length. }
  destruct (lookahead_spec m) as (w & Hw & Hwm). destruct (lookahead_spec m') as (w' & Hw' & Hwm').
  destruct (lookahead_spec (length s)) as (ws & Hws & Hwms).
  assert (rs_buf r ++ d = drop (lookahead m) (take m' s)) as Hbuf.
  { rewrite Hr, Ht, drop_app_le; [done|]. rewrite length_take. lia. }
  pose proof (push_synced r d) as Hp. rewrite Hbuf in Hp. destruct (push_report r d) as [o r1].
  destruct Hp as (H1 & H2 & H3).
  { intros k Hk. rewrite length_drop, length_take in Hk. unfold sync_at. rewrite lookup_drop.
    rewrite lookup_take_lt by lia. rewrite Hw in Hk |- *. change TS_PACKET_LEN with 188 in *.
    replace (w * 188 + k * 188) with ((w + k) * 188) by lia. apply (Hs (w + k)).
    unfold TS_PACKET_LEN. lia. }
  assert (lookahead (length (drop (lookahead m) (take m' s))) = lookahead m' - lookahead m) as Hla.
  { rewrite length_drop, length_take, Nat.min_l by lia. rewrite Hw.
    destruct (lookahead_spec (m' - w * 188)) as (v & Hv & Hvm). rewrite Hv, Hw'. lia. }
  rewrite Hla in H1, H3. specialize (IH r1 m' Hm' Hd'). destruct (feed r1 ds) as [[out n] r2].
  destruct IH as (-> & -> & ->).
  { rewrite H3, drop_drop. f_equal. lia. }
  split_and!; [|lia|done]. rewrite H1.
  rewrite <- (slice_join s (lookahead m) (lookahead m') (lookahead (length s))) by lia. f_equal.
  unfold slice. rewrite skipn_firstn_comm, take_take. f_equal. lia.
Qed.

Lemma synced_packets pkts : Forall (λ p, length p = TS_PACKET_LEN ∧ sync_at p 0 = true) pkts →
  synced (concat pkts) ∧ length (concat pkts) = length pkts * TS_PACKET_LEN.
Proof.
  induction 1 as [|p pkts [Hp Hs] _ [IH1 IH2]]; simpl; [by split; [intros k ?; simpl in *; lia|]|].
  rewrite length_app, IH2. split; [|unfold TS_PACKET_LEN in *; lia]. intros [|k] Hk.
  - rewrite sync_at_app_l; [done|]. rewrite Hp. unfold TS_PACKET_LEN. lia.
  - replace (S k * TS_PACKET_LEN) with (length p + k * TS_PACKET_LEN) by (rewrite Hp; lia).
    rewrite sync_at_app_r. apply IH1. rewrite length_app in Hk. lia.
Qed.

(** A well-formed transport stream passes through unchanged, however it is cut into pushes: the
    outputs of the pushes add up to all packets but the last, which is the lookahead still
    held, and nothing is reported as lost. *)
Theorem resync_passthrough (pkts ds : list bytes) :
  Forall (λ p, length p = TS_PACKET_LEN ∧ sync_at p 0 = true) pkts → concat ds = concat pkts →
  let '(out, lost, r) := feed new ds in
  out = concat (take (length pkts - 1) pkts) ∧ lost = 0 ∧ rs_buf r = concat (drop (length pkts - 1) pkts).
Proof.
  intros Hp Hd. destruct (synced_packets pkts Hp) as [Hs Hl].
  pose proof (feed_synced ds new (concat pkts) 0 Hs ltac:(lia) (eq_sym Hd)) as H.
  destruct (feed new ds) as [[out n] r]. destruct H as (-> & -> & ->); [done|].
  assert (lookahead (length (concat pkts)) = (length pkts - 1) * TS_PACKET_LEN) as ->.
  { unfold lookahead. rewrite Hl, Nat.div_mul by done. done. }
  assert (Forall (λ l, length l = TS_PACKET_LEN) pkts) as Hc by (eapply Forall_impl; [done|naive_solver]).
  unfold slice. change (lookahead 0) with 0. rewrite drop_0, Nat.sub_0_r.
  rewrite (concat_take_const pkts _ _ Hc). split_and!; [done..|].
  rewrite <- (take_drop (length pkts - 1) pkts) at 2. rewrite concat_app, drop_app_ge.
  all: rewrite length_concat_const with (n := TS_PACKET_LEN) by (by apply Forall_take).
  all: rewrite length_take. 2: nia. by replace (_ - _) with 0 by nia.
Qed.

(** *** Witnesses *)

Definition sample_packet (b : byte) : bytes := TS_SYNC :: replicate 187 b.

Lemma resync_drops_only_unlockable_witness :
  let r := mkResync (sample_packet x01 ++ replicate 5 xff ++ sample_packet x02) true true in
  let data := sample_packet x03 ++ sample_packet x04 in
  consumed (push_report r data).1 = 569 ∧
  (in_ranges 190 (selected (push_report r data).1) ∨
   (sync_at (rs_buf r ++ data) 190 && sync_at (rs_buf r ++ data) (190 + TS_PACKET_LEN)) = false).
Proof.
  split; [vm_compute; reflexivity|]. apply (resync_drops_only_unlockable _ _ 190).
  apply Nat.ltb_lt. vm_compute. reflexivity.
Defined.

Lemma resync_passthrough_witness :
  let pkts := [sample_packet x01; sample_packet x02; sample_packet x03] in
  let '(out, lost, r) := feed new [take 100 (concat pkts); drop 100 (concat pkts)] in
  out = sample_packet x01 ++ sample_packet x02 ++ [] ∧ lost = 0 ∧ rs_buf r = sample_packet x03 ++ [].
Proof.
  apply (resync_passthrough [sample_packet x01; sample_packet x02; sample_packet x03]).
  - repeat constructor.
  - vm_compute. reflexivity.
Defined.
