(* ===== verification/TsTables.v ===== *)
(** * Transport-stream tables and access points

    [ace-media/src/mpegts.rs], the packet-local parsers: payload offsets, the PES header check,
    keyframe detection, PAT and PMT, the CRC of the sections and the synthesized service
    description table.  Where the source indexes a packet directly the model reads
    [byte_at], where it uses [get] the model is in [option]; packets are 188 bytes long at
    every call. *)

From S2P Require Import Prelude Bytes Text MpegTs.

Definition SDT_PID : N := 0x0011.
Definition SDT_TABLE_ID : N := 0x42.
Definition SERVICE_DESCRIPTOR_TAG : N := 0x48.
Definition SERVICE_PROVIDER_NAME : bytes := bs "outpace".
Definition MAX_SERVICE_NAME_BYTES : nat :=
  TS_PACKET_LEN - 4 - 1 - 25 - length SERVICE_PROVIDER_NAME.

(** A flag of a byte: [x & mask != 0]. *)
Definition flag (x mask : N) : bool := negb (N.land x mask =? 0)%N.

(** ** Packet header *)

Definition ts_pusi (pkt : bytes) : bool := flag (byte_at pkt 1) 0x40.

Definition ts_payload_offset (pkt : bytes) : option nat :=
  let afc := N.land (N.shiftr (byte_at pkt 3) 4) 0x03 in
  start ← (if (afc =? 1)%N then Some 4
           else if (afc =? 3)%N then Some (5 + N.to_nat (byte_at pkt 4))
           else None);
  if bool_decide (start < TS_PACKET_LEN) then Some start else None.

Definition ts_random_access_indicator (pkt : bytes) : bool :=
  let afc := N.land (N.shiftr (byte_at pkt 3) 4) 0x03 in
  if (N.land afc 2 =? 0)%N then false
  else (1 <=? byte_at pkt 4)%N && flag (byte_at pkt 5) 0x40.

(** ** PES header *)

Inductive VideoCodec : Type := Mpeg2 | H264 | Hevc.

#[export] Instance VideoCodec_eq_dec : EqDecision VideoCodec.
Proof. solve_decision. Defined.

(** The local [take]: the field and what is left. *)
Definition take_field (data : bytes) (len : nat) : option (bytes * bytes) :=
  if bool_decide (len ≤ length data) then Some (take len data, drop len data) else None.

Definition timestamp (field : bytes) (prefix : N) : bool :=
  (N.shiftr (byte_at field 0) 4 =? prefix)%N && flag (byte_at field 0) 1 && flag (byte_at field 2) 1
  && flag (byte_at field 4) 1.

Definition guard_ok (b : bool) : option unit := if b then Some () else None.

(** [if flags & mask != 0 { let field = take(len)?; ... }]. *)
Definition opt_field (present : bool) (len : nat) (ok : bytes → bool) (data : bytes) : option bytes :=
  if present then '(field, data) ← take_field data len; _ ← guard_ok (ok field); Some data
  else Some data.

(** The PES extension, entered when its flag is set. *)
Definition pes_extension_data (data : bytes) : option bytes :=
  '(e, data) ← take_field data 1;
  let extension := byte_at e 0 in
  _ ← guard_ok (N.land extension 0x0e =? 0x0e)%N;
  data ← opt_field (flag extension 0x80) 16 (λ _, true) data;
  data ← (if flag extension 0x40 then
            '(l, data) ← take_field data 1;
            '(_, data) ← take_field data (N.to_nat (byte_at l 0)); Some data
          else Some data);
  data ← opt_field (flag extension 0x20) 2 (λ s, flag (byte_at s 0) 0x80 && flag (byte_at s 1) 0x80) data;
  data ← opt_field (flag extension 0x10) 2 (λ s, N.land (byte_at s 0) 0xc0 =? 0x40)%N data;
  if flag extension 1 then
    '(l, data) ← take_field data 1;
    let length := byte_at l 0 in
    _ ← guard_ok (flag length 0x80);
    '(extra, data) ← take_field data (N.to_nat (N.land length 0x7f));
    '(s, extra) ← take_field extra 1;
    let selector := byte_at s 0 in
    extra ← (if flag selector 0x80 then
               _ ← guard_ok (N.land selector 0x7e =? 0x7e)%N;
               opt_field (N.land selector 1 =? 0)%N 5 (λ f, timestamp f 0xf) extra
             else Some extra);
    _ ← guard_ok (forallb (λ b, byte_N b =? 0xff)%N extra);
    Some data
  else Some data.

Definition mpeg2_pes_optional_header_valid (flags : N) (data : bytes) : bool :=
  let valid : option unit :=
    data ← (let pd := N.shiftr flags 6 in
            if (pd =? 0)%N then Some data
            else if (pd =? 1)%N then None
            else if (pd =? 2)%N then opt_field true 5 (λ f, timestamp f 2) data
            else data ← opt_field true 5 (λ f, timestamp f 3) data;
                 opt_field true 5 (λ f, timestamp f 1) data);
    data ← opt_field (flag flags 0x20) 6 (λ e, flag (byte_at e 0) 4 && flag (byte_at e 2) 4
              && flag (byte_at e 4) 4 && flag (byte_at e 5) 1) data;
    data ← opt_field (flag flags 0x10) 3 (λ r, flag (byte_at r 0) 0x80 && flag (byte_at r 2) 1) data;
    data ← opt_field (flag flags 8) 1 (λ t, let trick := byte_at t 0 in
              negb ((4 <? N.shiftr trick 5)%N
                    || (N.shiftr trick 5 =? 2)%N && negb (N.land trick 7 =? 7)%N)) data;
    data ← opt_field (flag flags 4) 1 (λ c, flag (byte_at c 0) 0x80) data;
    data ← opt_field (flag flags 2) 2 (λ _, true) data;
    data ← (if flag flags 1 then pes_extension_data data else Some data);
    guard_ok (forallb (λ b, byte_N b =? 0xff)%N data) in
  bool_decide (is_Some valid).

Definition video_pes_elementary_payload (payload : bytes) : option bytes :=
  if bool_decide (length payload < 9) || negb (bool_decide (take 3 payload = map N_byte [0; 0; 1]%N))
     || negb ((0xe0 <=? byte_at payload 3)%N && (byte_at payload 3 <=? 0xef)%N)
     || negb (N.land (byte_at payload 6) 0xc0 =? 0x80)%N
  then None
  else
    let declared_length := N.to_nat (be_N (slice payload 4 6)) in
    let e := if bool_decide (declared_length = 0) then length payload
             else (6 + declared_length) `min` length payload in
    let start := 9 + N.to_nat (byte_at payload 8) in
    if bool_decide (e < start)
       || negb (mpeg2_pes_optional_header_valid (byte_at payload 7) (slice payload 9 start))
    then None
    else Some (slice payload start e).

(** [elementary.windows(4)]. *)
Definition windows4 (l : bytes) : list bytes := map (λ i, slice l i (i + 4)) (seq 0 (length l - 3)).

Definition mpeg2_has_i_picture (elementary : bytes) : bool :=
  match list_find (λ c, c = map N_byte [0; 0; 1; 0]%N) (windows4 elementary) with
  | Some (offset, _) =>
      match slice_get elementary (offset + 4) (offset + 8) with
      | Some header => (N.land (N.shiftr (byte_at header 1) 3) 7 =? 1)%N
      | None => false
      end
  | None => false
  end.

Definition payload_has_irap (pkt : bytes) (codec : option VideoCodec) : bool :=
  match codec with
  | None => false
  | Some codec =>
      match ts_payload_offset pkt with
      | None => false
      | Some off =>
          match video_pes_elementary_payload (drop off pkt) with
          | None => false
          | Some elementary =>
              if bool_decide (codec = Mpeg2) then mpeg2_has_i_picture elementary
              else existsb (λ w,
                if negb (byte_at w 0 =? 0)%N || negb (byte_at w 1 =? 0)%N || negb (byte_at w 2 =? 1)%N
                then false
                else match codec with
                     | Mpeg2 => false
                     | H264 => (N.land (byte_at w 3) 0x1F =? 5)%N
                     | Hevc => let t := N.land (N.shiftr (byte_at w 3) 1) 0x3F in
                               (16 <=? t)%N && (t <=? 21)%N
                     end) (windows4 elementary)
          end
      end
  end.

Definition is_random_access_point (pkt : bytes) (codec : option VideoCodec) : bool :=
  if negb (ts_pusi pkt) then false
  else ts_random_access_indicator pkt || payload_has_irap pkt codec.

(** ** Program tables *)

Definition psi_section_start (pkt : bytes) : option nat :=
  po ← ts_payload_offset pkt;
  pointer ← pkt !! po;
  let sec := po + 1 + N.to_nat (byte_N pointer) in
  if bool_decide (sec < TS_PACKET_LEN) then Some sec else None.

(** A length split over the low nibble of one byte and the next byte. *)
Definition length12 (hi lo : byte) : nat :=
  N.to_nat (N.lor (N.shiftl (N.land (byte_N hi) 0x0f) 8) (byte_N lo)).

Definition current_psi_section (pkt : bytes) (table_id : N) (minimum_length : nat) : option (nat * nat) :=
  if negb (ts_pusi pkt) then None
  else
    sec ← psi_section_start pkt;
    t ← pkt !! sec;
    _ ← guard_ok (byte_N t =? table_id)%N;
    c ← pkt !! (sec + 5);
    _ ← guard_ok (flag (byte_N c) 1);
    hi ← pkt !! (sec + 1);
    lo ← pkt !! (sec + 2);
    let len := length12 hi lo in
    let e := sec + 3 + len in
    if bool_decide (minimum_length ≤ len ∧ e ≤ length pkt) then Some (sec, e - 4) else None.

Definition u16_at (pkt : bytes) (i : nat) : N := be_N (slice pkt i (i + 2)).
Definition pid_at (pkt : bytes) (i : nat) : N :=
  N.lor (N.shiftl (N.land (byte_at pkt i) 0x1F) 8) (byte_at pkt (i + 1)).

(** The entries of four bytes; one turn each, so the table's length is enough fuel. *)
Fixpoint pat_entries (fuel : nat) (pkt : bytes) (pos e : nat) : option (N * N) :=
  match fuel with
  | 0 => None
  | S fuel =>
      if bool_decide (pos + 4 ≤ e) then
        let program := u16_at pkt pos in
        let pid := pid_at pkt (pos + 2) in
        if negb (program =? 0)%N then Some (program, pid) else pat_entries fuel pkt (pos + 4) e
      else None
  end.

Definition parse_pat_first_program (pkt : bytes) : option (option (N * N)) :=
  '(sec, e) ← current_psi_section pkt 0x00 9;
  if bool_decide ((e - (sec + 8)) mod 4 ≠ 0) then None
  else Some (pat_entries (S (length pkt)) pkt (sec + 8) e).

Definition video_stream (allow_mpeg2 : bool) (stream_type epid : N) : option (N * VideoCodec) :=
  if (stream_type =? 0x02)%N && allow_mpeg2 then Some (epid, Mpeg2)
  else if (stream_type =? 0x1B)%N then Some (epid, H264)
  else if (stream_type =? 0x24)%N then Some (epid, Hevc)
  else None.

(** The elementary streams: the final position and the first video stream. *)
Fixpoint pmt_streams (fuel : nat) (pkt : bytes) (allow_mpeg2 : bool) (pos e : nat)
    (video : option (N * VideoCodec)) : nat * option (N * VideoCodec) :=
  match fuel with
  | 0 => (pos, video)
  | S fuel =>
      if bool_decide (pos + 5 ≤ e) then
        let stream_type := byte_at pkt pos in
        let epid := pid_at pkt (pos + 1) in
        let es_info_length := length12 (nth (pos + 3) pkt x00) (nth (pos + 4) pkt x00) in
        let video := match video with
                     | None => video_stream allow_mpeg2 stream_type epid
                     | Some _ => video
                     end in
        pmt_streams fuel pkt allow_mpeg2 (pos + 5 + es_info_length) e video
      else (pos, video)
  end.

Definition parse_pmt_video (pkt : bytes) (program : option N) (allow_mpeg2 : bool)
    : option (option (N * VideoCodec)) :=
  '(sec, e) ← current_psi_section pkt 0x02 13;
  let table_program := u16_at pkt (sec + 3) in
  if negb (bool_decide (program = Some table_program)) then None
  else
    hi ← pkt !! (sec + 10);
    lo ← pkt !! (sec + 11);
    let program_info_length := length12 hi lo in
    let '(pos, video) := pmt_streams (S (length pkt)) pkt allow_mpeg2
                           (sec + 12 + program_info_length) e None in
    if bool_decide (pos = e) then Some video else None.

(** ** The section CRC *)

Definition crc_shift (crc : N) : N :=
  if flag crc 0x80000000 then N.lxor (N.shiftl crc 1 `mod` two32) 0x04C11DB7
  else (N.shiftl crc 1 `mod` two32)%N.

Definition crc_byte (crc : N) (b : byte) : N :=
  Nat.iter 8 crc_shift (N.lxor crc (N.shiftl (byte_N b) 24)).

Definition mpeg_crc32 (data : bytes) : N := foldl crc_byte 0xFFFFFFFF%N data.

(** ** The service description table *)

Definition service_descriptor (name : bytes) : bytes :=
  map N_byte [SERVICE_DESCRIPTOR_TAG; N.of_nat (3 + length SERVICE_PROVIDER_NAME + length name); 0x01;
              lenN SERVICE_PROVIDER_NAME]%N
  ++ SERVICE_PROVIDER_NAME ++ [N_byte (lenN name)] ++ name.

(** The section up to its CRC. *)
Definition sdt_section (service_id : N) (name : bytes) (transport_stream_id : N) : bytes :=
  let desc := service_descriptor name in
  let section_length := N.of_nat (8 + 5 + length desc + 4) in
  let dll := lenN desc in
  [N_byte SDT_TABLE_ID; N_byte (N.lor 0xF0 (N.land (N.shiftr section_length 8) 0x0F));
   N_byte (N.land section_length 0xFF)]
  ++ u16_be transport_stream_id ++ map N_byte [0xC1; 0x00; 0x00]%N ++ map N_byte [0xFF; 0x01]%N
  ++ map N_byte [0xFF]%N ++ u16_be service_id ++ map N_byte [0xFC]%N
  ++ [N_byte (N.lor 0x80 (N.land (N.shiftr dll 8) 0x0F)); N_byte (N.land dll 0xFF)] ++ desc.

(** The copy into the packet panics for a section of more than 183 bytes, which
    [sanitize_service_name] excludes. *)
Definition build_sdt_with_transport (service_id : N) (service_name : bytes) (transport_stream_id : N)
    : bytes :=
  let sec := sdt_section service_id service_name transport_stream_id in
  let sec := sec ++ u32_be (mpeg_crc32 sec) in
  [TS_SYNC; N_byte (N.lor 0x40 (N.land (N.shiftr SDT_PID 8) 0x1F)); N_byte (N.land SDT_PID 0xFF);
   N_byte 0x10; N_byte 0x00] ++ sec ++ replicate (TS_PACKET_LEN - 5 - length sec) xff.

Definition build_sdt (service_id : N) (service_name : bytes) : bytes :=
  build_sdt_with_transport service_id service_name 1.

(** [char::is_control], of a character's UTF-8 bytes. *)
Definition is_control (c : bytes) : bool :=
  match c with
  | [b] => (byte_N b <? 0x20)%N || (byte_N b =? 0x7F)%N
  | [b0; b1] => (byte_N b0 =? 0xC2)%N && (byte_N b1 <=? 0x9F)%N
  | _ => false
  end.

Fixpoint chars_fuel (fuel : nat) (l : bytes) : list bytes :=
  match fuel, l with
  | S fuel, b0 :: r0 => let '(c, r) := lossy_step b0 r0 in c :: chars_fuel fuel r
  | _, _ => []
  end.

Definition chars (l : bytes) : list bytes := chars_fuel (length l) l.

Definition sanitize_service_name (raw : bytes) : option bytes :=
  let stripped := concat (List.filter (λ c, negb (is_control c)) (chars (trim raw))) in
  let stripped := trim stripped in
  if bool_decide (stripped = []) then None
  else Some (take (floor_boundary stripped (length stripped `min` MAX_SERVICE_NAME_BYTES)) stripped).

(** The descriptor loop: [Some r] when the function returns [r], [None] when it falls through. *)
Fixpoint sdt_descriptors (fuel : nat) (pkt : bytes) (pos e : nat) : option (option bytes) :=
  match fuel with
  | 0 => None
  | S fuel =>
      if bool_decide (pos + 2 ≤ e) then
        let tag := byte_at pkt pos in
        let len := N.to_nat (byte_at pkt (pos + 1)) in
        if (tag =? SERVICE_DESCRIPTOR_TAG)%N then
          Some (
            let p := pos + 2 + 1 in
            provlen ← pkt !! p;
            let p := p + 1 + N.to_nat (byte_N provlen) in
            namelen ← pkt !! p;
            let p := p + 1 in
            name ← slice_get pkt p (p + N.to_nat (byte_N namelen));
            if utf8_valid name then Some name else None)
        else sdt_descriptors fuel pkt (pos + 2 + len) e
      else None
  end.

Fixpoint read_sdt_packets (pkts : list bytes) : option bytes :=
  match pkts with
  | [] => None
  | pkt :: pkts =>
      if negb (sync_at pkt 0) || negb (ts_pid pkt =? SDT_PID)%N then read_sdt_packets pkts
      else
        match psi_section_start pkt with
        | None => read_sdt_packets pkts
        | Some sec =>
            t ← pkt !! sec;
            if negb (byte_N t =? SDT_TABLE_ID)%N then read_sdt_packets pkts
            else
              let pos := sec + 3 + 8 + 3 in
              hi ← pkt !! pos;
              lo ← pkt !! (pos + 1);
              let dll := length12 hi lo in
              let pos := pos + 2 in
              let e := (pos + dll) `min` TS_PACKET_LEN in
              match sdt_descriptors (S TS_PACKET_LEN) pkt pos e with
              | Some r => r
              | None => read_sdt_packets pkts
              end
        end
  end.

Definition read_sdt_service_name (ts : bytes) : option bytes :=
  read_sdt_packets (chunks_exact TS_PACKET_LEN ts).

Example sdt_example : read_sdt_service_name (build_sdt 7 (bs "News")) = Some (bs "News").
Proof. vm_compute. reflexivity. Qed.
Example crc_example : mpeg_crc32 (bs "123456789") = 0x0376E6E7%N.
Proof. vm_compute. reflexivity. Qed.
Example sanitize_example :
  sanitize_service_name (bs "  Ne" ++ [x07] ++ bs "ws ") = Some (bs "News").
Proof. vm_compute. reflexivity. Qed.

(** ** Lemmas *)

Local Open Scope N_scope.

Lemma lxor_lt a b n : a < 2 ^ n → b < 2 ^ n → N.lxor a b < 2 ^ n.
Proof.
  intros Ha Hb. destruct (decide (N.lxor a b = 0)) as [->|Hne].
  { apply N.neq_0_lt_0, N.pow_nonzero. lia. }
  apply N.log2_lt_pow2; [lia|]. pose proof (N.log2_lxor a b).
  assert (∀ x, x < 2 ^ n → x ≠ 0 → N.log2 x < n) as Hl by (intros; apply N.log2_lt_pow2; lia).
  destruct (decide (a = 0)) as [->|]; [rewrite N.lxor_0_l in *; auto|].
  destruct (decide (b = 0)) as [->|]; [rewrite N.lxor_0_r in *; auto|].
  pose proof (Hl a Ha ltac:(done)). pose proof (Hl b Hb ltac:(done)). lia.
Qed.

Lemma crc_shift_lt c : crc_shift c < two32.
Proof.
  pose proof (N.mod_lt (N.shiftl c 1) two32 ltac:(lia)).
  unfold crc_shift. destruct (flag _ _); [|done]. by apply (lxor_lt _ _ 32).
Qed.

Lemma crc32_lt l : mpeg_crc32 l < two32.
Proof.
  unfold mpeg_crc32. induction l as [|b l _] using rev_ind; [done|].
  rewrite foldl_app. simpl. unfold crc_byte. cbn [Nat.iter]. apply crc_shift_lt.
Qed.

Lemma crc_shift_small c : c < 2 ^ 31 → crc_shift c = 2 * c.
Proof.
  intros Hc. unfold crc_shift, flag.
  assert (N.land c 0x80000000 = 0) as ->.
  { apply N.bits_inj_0. intros i. rewrite N.land_spec. change 0x80000000 with (2 ^ 31).
    rewrite N.pow2_bits_eqb. destruct (N.eqb_spec 31 i) as [<-|]; [|by rewrite andb_false_r].
    destruct (decide (c = 0)) as [->|]; [done|].
    rewrite N.bits_above_log2; [done|]. apply N.log2_lt_pow2; lia. }
  cbn [N.eqb negb]. rewrite N.shiftl_mul_pow2, N.mod_small; change (2 ^ 1) with 2; lia.
Qed.

Lemma crc_shift_iter n r : r * 2 ^ N.of_nat n < two32 → Nat.iter n crc_shift r = r * 2 ^ N.of_nat n.
Proof.
  induction n as [|n IH]; [simpl; lia|].
  change (Nat.iter (S n) crc_shift r) with (crc_shift (Nat.iter n crc_shift r)).
  rewrite Nat2N.inj_succ, N.pow_succ_r'. intros H. rewrite IH by lia. rewrite crc_shift_small; [lia|].
  change (2 ^ 31) with 2147483648. lia.
Qed.

(** Feeding the register its own top byte shifts it out. *)
Lemma crc_byte_top b r : r < 16777216 → crc_byte (byte_N b * 16777216 + r) b = 256 * r.
Proof.
  intros Hr. unfold crc_byte.
  assert (N.lxor (byte_N b * 16777216 + r) (N.shiftl (byte_N b) 24) = r) as ->.
  { rewrite N.shiftl_mul_pow2. change (2 ^ 24) with 16777216. rewrite N.add_nocarry_lxor.
    - rewrite (N.lxor_comm _ r), N.lxor_assoc, N.lxor_nilpotent. apply N.lxor_0_r.
    - change 16777216 with (2 ^ 24) in *. rewrite <- N.shiftl_mul_pow2. apply N.bits_inj_0. intros i.
      rewrite N.land_spec. destruct (N.lt_ge_cases i 24); [by rewrite N.shiftl_spec_low|].
      rewrite <- (N.mod_small r (2 ^ 24)) by done. by rewrite N.mod_pow2_bits_high, andb_false_r. }
  rewrite (crc_shift_iter 8); change (2 ^ N.of_nat 8) with 256; lia.
Qed.

(** Checking a section together with its CRC leaves the zero residue. *)
Lemma crc32_residue l : mpeg_crc32 (l ++ u32_be (mpeg_crc32 l)) = 0.
Proof.
  unfold mpeg_crc32 at 1. rewrite foldl_app. fold (mpeg_crc32 l).
  pose proof (crc32_lt l) as Hc. set (c := mpeg_crc32 l) in *.
  pose proof (be_N_be_bytes 4 c Hc) as Hbe. unfold u32_be.
  pose proof (be_bytes_length 4 c) as Hlen.
  destruct (be_bytes 4 c) as [|b3 [|b2 [|b1 [|b0 [|]]]]]; try discriminate Hlen. clear Hlen.
  unfold be_N in Hbe. cbn [foldl] in *.
  pose proof (byte_N_lt b3). pose proof (byte_N_lt b2). pose proof (byte_N_lt b1). pose proof (byte_N_lt b0).
  replace c with (byte_N b3 * 16777216 + (byte_N b2 * 65536 + byte_N b1 * 256 + byte_N b0)) by lia.
  rewrite crc_byte_top by lia.
  replace (256 * _) with (byte_N b2 * 16777216 + (byte_N b1 * 65536 + byte_N b0 * 256)) by lia.
  rewrite crc_byte_top by lia.
  replace (256 * _) with (byte_N b1 * 16777216 + (byte_N b0 * 65536)) by lia.
  rewrite crc_byte_top by lia.
  replace (256 * _) with (byte_N b0 * 16777216 + 0) by lia.
  rewrite crc_byte_top by lia. lia.
Qed.

Lemma sdt_shape sid name tsid : ∃ b19 b20 pre post,
  build_sdt_with_transport sid name tsid = pre ++ name ++ post ∧
  b19 = N_byte (N.lor 0x80 (N.land (N.shiftr (N.of_nat (12 + length name)) 8) 0x0F)) ∧
  b20 = N_byte (N.land (N.of_nat (12 + length name)) 0xFF) ∧
  length pre = 33%nat ∧ take 6 pre = [TS_SYNC; x40; x11; x10; x00; x42] ∧
  pre !! 19%nat = Some b19 ∧ pre !! 20%nat = Some b20 ∧ pre !! 21%nat = Some x48 ∧
  pre !! 24%nat = Some x07 ∧ pre !! 32%nat = Some (N_byte (lenN name)).
Proof.
  unfold build_sdt_with_transport, sdt_section.
  assert (length (service_descriptor name) = 12 + length name)%nat as Hd.
  { unfold service_descriptor. rewrite !length_app. simpl. lia. }
  unfold lenN at 1 2. rewrite Hd.
  set (b19 := N_byte (N.lor 0x80 _)). set (b20 := N_byte (N.land (N.of_nat (12 + length name)) 0xFF)).
  set (b6 := N_byte (N.lor 0xF0 _)). set (b7 := N_byte (N.land (N.of_nat (8 + 5 + (12 + length name) + 4)) 0xFF)).
  unfold u16_be. cbn [be_bytes]. unfold service_descriptor.
  set (bn := N_byte (N.of_nat (3 + length SERVICE_PROVIDER_NAME + length name))).
  set (crc := mpeg_crc32 _). set (pad := replicate _ _).
  exists b19, b20, ([TS_SYNC; x40; x11; x10; x00; x42; b6; b7] ++ be_bytes 2 tsid
    ++ [xc1; x00; x00; xff; x01; xff] ++ be_bytes 2 sid ++ [xfc; b19; b20; x48; bn; x01; x07]
    ++ SERVICE_PROVIDER_NAME ++ [N_byte (lenN name)]), (u32_be crc ++ pad).
  split; [|by split_and!]. simpl. by rewrite <- !app_assoc.
Qed.

Lemma build_sdt_length sid name tsid : (length name ≤ MAX_SERVICE_NAME_BYTES)%nat →
  length (build_sdt_with_transport sid name tsid) = TS_PACKET_LEN.
Proof.
  intros Hn. unfold build_sdt_with_transport, MAX_SERVICE_NAME_BYTES, TS_PACKET_LEN in *.
  assert (length (sdt_section sid name tsid) = 28 + length name)%nat as Hs.
  { unfold sdt_section, service_descriptor, u16_be. rewrite !length_app, !be_bytes_length. simpl. lia. }
  cbv zeta. rewrite !length_app, length_replicate, Hs. unfold u32_be. rewrite be_bytes_length.
  simpl in *. lia.
Qed.

Lemma chunks_exact_cons {A} n (p l : list A) : (0 < n)%nat → length p = n →
  ∃ r, chunks_exact n (p ++ l) = p :: r.
Proof.
  intros Hn Hp. unfold chunks_exact. cbn [chunks_exact_fuel].
  rewrite decide_True by (rewrite length_app; lia). rewrite take_app_length' by done. eauto.
Qed.

Lemma length12_small n : (n < 256)%nat →
  length12 (N_byte (N.lor 0x80 (N.land (N.shiftr (N.of_nat n) 8) 0x0F))) (N_byte (N.land (N.of_nat n) 0xFF)) = n.
Proof.
  intros Hn. rewrite (N.shiftr_eq_0 _ 8); [|].
  2: { destruct (decide (n = 0)%nat) as [->|]; [done|]. apply N.log2_lt_pow2; [lia|].
       change (2 ^ 8) with 256. lia. }
  change 0xFF with (N.ones 8). rewrite N.land_ones, (N.mod_small _ (2 ^ 8)) by (change (2 ^ 8) with 256; lia).
  unfold length12. rewrite (byte_N_of_N (N.of_nat n)) by lia.
  change (N.shiftl _ 8) with 0. by rewrite N.lor_0_l, Nat2N.id.
Qed.

Lemma read_sdt_packets_hit pkt pkts sec t hi lo r :
  sync_at pkt 0 = true → ts_pid pkt = SDT_PID → psi_section_start pkt = Some sec →
  pkt !! sec = Some t → byte_N t = SDT_TABLE_ID →
  pkt !! (sec + 3 + 8 + 3)%nat = Some hi → pkt !! (sec + 3 + 8 + 3 + 1)%nat = Some lo →
  sdt_descriptors (S TS_PACKET_LEN) pkt (sec + 3 + 8 + 3 + 2)
    ((sec + 3 + 8 + 3 + 2 + length12 hi lo) `min` TS_PACKET_LEN) = Some r →
  read_sdt_packets (pkt :: pkts) = r.
Proof.
  intros H1 H2 H3 H4 H5 H6 H7 H8. cbn [read_sdt_packets].
  rewrite H1, H2, H3, N.eqb_refl. cbn [negb orb]. rewrite H4. cbn [mbind option_bind].
  rewrite H5, N.eqb_refl. cbn [negb]. rewrite H6, H7. cbn [mbind option_bind]. by rewrite H8.
Qed.

Lemma sdt_descriptors_hit fuel pkt pos e prov nl name :
  (pos + 2 ≤ e)%nat → byte_at pkt pos = SERVICE_DESCRIPTOR_TAG →
  pkt !! (pos + 2 + 1)%nat = Some prov →
  pkt !! (pos + 2 + 1 + 1 + N.to_nat (byte_N prov))%nat = Some nl →
  slice_get pkt (pos + 2 + 1 + 1 + N.to_nat (byte_N prov) + 1)
    (pos + 2 + 1 + 1 + N.to_nat (byte_N prov) + 1 + N.to_nat (byte_N nl)) = Some name →
  utf8_valid name = true → sdt_descriptors (S fuel) pkt pos e = Some (Some name).
Proof.
  intros H1 H2 H3 H4 H5 H6. cbn [sdt_descriptors]. rewrite bool_decide_true by done.
  rewrite H2, N.eqb_refl, H3. cbn [mbind option_bind]. rewrite H4. cbn [mbind option_bind].
  rewrite H5. cbn [mbind option_bind]. by rewrite H6.
Qed.

Lemma read_built_sdt sid name tsid rest : (length name ≤ MAX_SERVICE_NAME_BYTES)%nat →
  utf8_valid name = true →
  read_sdt_service_name (build_sdt_with_transport sid name tsid ++ rest) = Some name.
Proof.
  intros Hn Hu. unfold read_sdt_service_name.
  pose proof (build_sdt_length sid name tsid Hn) as Hlen.
  destruct (chunks_exact_cons TS_PACKET_LEN _ rest ltac:(unfold TS_PACKET_LEN; lia) Hlen) as [r ->].
  assert (length name ≤ 151)%nat as Hn' by exact Hn. clear Hn Hlen.
  destruct (sdt_shape sid name tsid) as (b19 & b20 & pre & post & -> & -> & -> & Hpre & Htake & L19 & L20 & L21 & L24 & L32).
  set (P := pre ++ name ++ post).
  assert (∀ i b, pre !! i = Some b → P !! i = Some b) as HP.
  { intros i b Hb. by apply lookup_app_l_Some. }
  assert (∀ i b, pre !! i = Some b → byte_at P i = byte_N b) as HB.
  { intros i b Hb. unfold byte_at. f_equal. by apply nth_lookup_Some, HP. }
  assert (∀ i b, [TS_SYNC; x40; x11; x10; x00; x42] !! i = Some b → pre !! i = Some b) as HT.
  { intros i b. rewrite <- Htake. by intros [? _]%lookup_take_Some. }
  eapply (read_sdt_packets_hit P r 5 x42); try done.
  - unfold sync_at. by rewrite (HP 0%nat TS_SYNC) by (by apply HT).
  - unfold ts_pid. by rewrite (HB 1%nat x40), (HB 2%nat x11) by (by apply HT).
  - unfold psi_section_start, ts_payload_offset. rewrite (HB 3%nat x10) by (by apply HT). simpl.
    by rewrite (HP 4%nat x00) by (by apply HT).
  - by apply HP, HT.
  - by apply HP, L19.
  - by apply HP, L20.
  - rewrite length12_small by lia.
    eapply (sdt_descriptors_hit _ P _ _ x07 (N_byte (lenN name))); try done.
    + unfold TS_PACKET_LEN. lia.
    + by rewrite (HB _ x48).
    + by apply HP, L24.
    + by apply HP, L32.
    + change (5 + 3 + 8 + 3 + 2 + 2 + 1 + 1 + N.to_nat (byte_N x07) + 1)%nat with 33%nat.
      rewrite byte_N_of_N by (unfold lenN; lia). unfold lenN. rewrite Nat2N.id.
      apply slice_get_Some. rewrite <- Hpre. unfold P.
      rewrite slice_app_mid, !length_app. split_and!; [done|lia|lia].
Qed.

(** ** Titles *)

Lemma chars_text l : utf8_text l → concat (chars l) = l ∧ Forall utf8_char (chars l).
Proof.
  unfold chars. intros Hl.
  assert (∀ fuel, (length l ≤ fuel)%nat → concat (chars_fuel fuel l) = l ∧ Forall utf8_char (chars_fuel fuel l))
    as Hgen; [|by apply Hgen].
  induction Hl as [|c l Hc _ IH]; intros fuel Hf; [by destruct fuel|].
  destruct (utf8_char_cons c Hc) as (b0 & cs & -> & _).
  destruct fuel as [|fuel]; [simpl in Hf; lia|]. simpl.
  rewrite lossy_step_char by done. simpl. destruct (IH fuel) as [-> H].
  { simpl in Hf. rewrite length_app in Hf. lia. }
  split; [done|]. by constructor.
Qed.

Lemma utf8_text_concat cs : Forall utf8_char cs → utf8_text (concat cs).
Proof. induction 1; simpl; by constructor. Qed.

Lemma sanitized_text raw name : utf8_text raw → sanitize_service_name raw = Some name →
  (length name ≤ MAX_SERVICE_NAME_BYTES)%nat ∧ utf8_valid name = true.
Proof.
  intros Hr. unfold sanitize_service_name. set (st := trim (concat _)).
  assert (utf8_text st) as Hst.
  { apply trim_text, utf8_text_concat. rewrite List.Forall_forall. intros c [Hc _]%List.filter_In.
    destruct (chars_text (trim raw)) as [_ H]; [by apply trim_text|].
    rewrite List.Forall_forall in H. by apply H. }
  case_bool_decide; [done|]. intros [= <-].
  destruct (floor_boundary_spec st (length st `min` MAX_SERVICE_NAME_BYTES)) as [Hb Hle]. split.
  - rewrite length_take. lia.
  - apply utf8_text_valid. by apply utf8_text_cut.
Qed.

(** A stream title survives the service description table.  For any title that sanitizes to a
    name, the synthesized table fits one transport packet on the SDT PID, a reader of a stream
    that starts with it reads the name back, and a receiver's CRC check over the whole section
    leaves the residue zero. *)
Theorem sdt_title_roundtrip raw name sid tsid rest :
  utf8_text raw → sanitize_service_name raw = Some name →
  let pkt := build_sdt_with_transport sid name tsid in
  length pkt = TS_PACKET_LEN ∧ sync_at pkt 0 = true ∧ ts_pid pkt = SDT_PID ∧
  read_sdt_service_name (pkt ++ rest) = Some name ∧
  mpeg_crc32 (slice pkt 5 (5 + (length (sdt_section sid name tsid) + 4))) = 0.
Proof.
  intros Hr Hs. destruct (sanitized_text raw name Hr Hs) as [Hn Hu]. intros pkt.
  split_and!; [by apply build_sdt_length|done|done|by apply read_built_sdt|].
  unfold pkt, build_sdt_with_transport. set (sec := sdt_section sid name tsid).
  rewrite <- (crc32_residue sec). f_equal.
  replace (5 + (length sec + 4))%nat with (5 + length (sec ++ u32_be (mpeg_crc32 sec)))%nat
    by (rewrite length_app; unfold u32_be; by rewrite be_bytes_length).
  apply (slice_app_mid [_; _; _; _; _]).
Qed.

Lemma sdt_title_roundtrip_witness :
  sanitize_service_name (bs " Caf" ++ map N_byte [0xC3; 0xA9]) = Some (bs "Caf" ++ map N_byte [0xC3; 0xA9]) ∧
  read_sdt_service_name (build_sdt_with_transport 7 (bs "Caf" ++ map N_byte [0xC3; 0xA9]) 1 ++ []) =
  Some (bs "Caf" ++ map N_byte [0xC3; 0xA9]).
Proof.
  split; [vm_compute; reflexivity|].
  eapply (sdt_title_roundtrip (bs " Caf" ++ map N_byte [0xC3; 0xA9])); [|vm_compute; reflexivity].
  do 4 (apply (text_char [_]); [by apply char1|]). apply (text_char [_; _]); [by apply char2|constructor].
Defined.
