(* ===== verification/TsGate.v ===== *)
(** * The keyframe gate

    [ace-media/src/mpegts.rs]: [VideoAccessPointState], which learns the tables and recognises
    access points, and [KeyframeGate], which holds a client's stream back until the first one
    and, when titled, owns the service description table of the stream it forwards. *)

From S2P Require Import Prelude Bytes Text MpegTs TsTables.

(** ** Access points *)

Record VideoAccessPointState : Type := mkAccess {
  allow_mpeg2 : bool;
  preserve_identity : bool;
  pmt_pid : option N;
  video_pid : option N;
  video_codec : option VideoCodec;
  cached_pat : option bytes;
  cached_pmt : option bytes;
  service_name : option bytes;
  program_number : option N;
}.

Definition access_new : VideoAccessPointState :=
  mkAccess false false None None None None None None None.

Definition access_with_service_name (raw : option bytes) : VideoAccessPointState :=
  mkAccess false false None None None None None (raw ≫= sanitize_service_name) None.

Definition enable_mpeg2 (a : VideoAccessPointState) : VideoAccessPointState :=
  mkAccess true (preserve_identity a) (pmt_pid a) (video_pid a) (video_codec a) (cached_pat a)
    (cached_pmt a) (service_name a) (program_number a).

Definition preserve_transport_identity (a : VideoAccessPointState) : VideoAccessPointState :=
  mkAccess (allow_mpeg2 a) true (pmt_pid a) (video_pid a) (video_codec a) (cached_pat a)
    (cached_pmt a) (service_name a) (program_number a).

Definition has_service_name (a : VideoAccessPointState) : bool := bool_decide (is_Some (service_name a)).

Definition access_reset (a : VideoAccessPointState) : VideoAccessPointState :=
  mkAccess (allow_mpeg2 a) (preserve_identity a) None None None None None (service_name a) None.

(** Learning a table from a packet. *)
Definition learn_pat (a : VideoAccessPointState) (packet : bytes) (mapping : option (N * N))
    : VideoAccessPointState :=
  let program := fst <$> mapping in
  let pmt := snd <$> mapping in
  let changed := negb (bool_decide (pmt_pid a = pmt)) || negb (bool_decide (program_number a = program)) in
  mkAccess (allow_mpeg2 a) (preserve_identity a) pmt
    (if changed then None else video_pid a) (if changed then None else video_codec a)
    (Some packet) (if changed then None else cached_pmt a) (service_name a) program.

Definition learn_pmt (a : VideoAccessPointState) (packet : bytes) (video : option (N * VideoCodec))
    : VideoAccessPointState :=
  mkAccess (allow_mpeg2 a) (preserve_identity a) (pmt_pid a) (fst <$> video) (snd <$> video)
    (cached_pat a) (Some packet) (service_name a) (program_number a).

Definition access_observe (a : VideoAccessPointState) (packet : bytes) : bool * VideoAccessPointState :=
  if negb (bool_decide (length packet = TS_PACKET_LEN)) || negb (sync_at packet 0) then (false, a)
  else
    let pid := ts_pid packet in
    let a :=
      if (pid =? 0)%N then
        match parse_pat_first_program packet with
        | Some mapping => learn_pat a packet mapping
        | None => a
        end
      else if bool_decide (Some pid = pmt_pid a) then
        match parse_pmt_video packet (program_number a) (allow_mpeg2 a) with
        | Some video => learn_pmt a packet video
        | None => a
        end
      else a in
    (bool_decide (Some pid = video_pid a) && is_random_access_point packet (video_codec a), a).

Definition table_prefix (a : VideoAccessPointState) : option bytes :=
  pat ← cached_pat a;
  pmt ← cached_pmt a;
  match service_name a, program_number a with
  | Some name, Some program =>
      if preserve_identity a then
        start ← psi_section_start pat;
        identity ← slice_get pat (start + 3) (start + 5);
        Some (pat ++ pmt ++ build_sdt_with_transport program name (be_N identity))
      else Some (pat ++ pmt ++ build_sdt program name)
  | _, _ => Some (pat ++ pmt)
  end.

(** ** The gate *)

Record KeyframeGate : Type := mkGate {
  g_buf : bytes;
  g_locked : bool;
  access : VideoAccessPointState;
  scanned : N;
  max_scan_packets : N;
  filter_sdt : bool;
  next_sdt_counter : N;
  mark_discontinuity : bool;
}.

Inductive GateResume : Type := AccessPoint | ScanBudget.

Record KeyframeGateOutput : Type := mkGateOutput {
  forwarded : list (nat * nat);
  gate_bytes : bytes;
  withheld_bytes : nat;
  resumed : option GateResume;
}.

Definition DEFAULT_MAX_SCAN_PACKETS : N := 60000.

Definition with_max_scan_packets (max : N) : KeyframeGate :=
  mkGate [] false access_new 0 max false 0 false.

Definition gate_new : KeyframeGate := with_max_scan_packets DEFAULT_MAX_SCAN_PACKETS.

Definition new_passthrough : KeyframeGate :=
  mkGate [] true access_new 0 DEFAULT_MAX_SCAN_PACKETS false 0 false.

Definition is_locked (g : KeyframeGate) : bool := g_locked g.

Definition with_service_name (raw : option bytes) : KeyframeGate :=
  let access := access_with_service_name raw in
  mkGate [] false access 0 DEFAULT_MAX_SCAN_PACKETS (has_service_name access) 0 false.

Definition gate_reset (g : KeyframeGate) : KeyframeGate :=
  mkGate [] false (access_reset (access g)) 0 (max_scan_packets g) (filter_sdt g) (next_sdt_counter g) false.

Definition reset_for_discontinuity (g : KeyframeGate) : KeyframeGate :=
  let g := gate_reset g in
  mkGate (g_buf g) (g_locked g) (access g) (scanned g) (max_scan_packets g) (filter_sdt g)
    (next_sdt_counter g) true.

Definition rearm_for_discontinuity (g : KeyframeGate) : KeyframeGate :=
  mkGate [] false (access g) 0 (max_scan_packets g) (filter_sdt g) (next_sdt_counter g) true.

(** [packet[3] = (packet[3] & 0xf0) | counter]. *)
Definition set_counter (counter : N) (p : bytes) : bytes :=
  <[3 := N_byte (N.lor (N.land (byte_at p 3) 0xf0) counter)]> p.

Fixpoint renumber (counter : N) (pkts : list bytes) : N * list bytes :=
  match pkts with
  | [] => (counter, [])
  | p :: pkts =>
      if (ts_pid p =? SDT_PID)%N then
        let '(c, r) := renumber (N.land (counter + 1) 0x0f) pkts in (c, set_counter counter p :: r)
      else
        let '(c, r) := renumber counter pkts in (c, p :: r)
  end.

(** The next counter and the bytes appended; [as_chunks_mut] leaves a partial last block alone. *)
Definition append_gate_tables (a : VideoAccessPointState) (counter : N) : N * bytes :=
  match table_prefix a with
  | None => (counter, [])
  | Some prefix =>
      let chunks := chunks_exact TS_PACKET_LEN prefix in
      let '(c, pkts) := renumber counter chunks in
      (c, concat pkts ++ drop (length chunks * TS_PACKET_LEN) prefix)
  end.

(** The flag and the packet, its discontinuity indicator set where it has one. *)
Definition set_discontinuity_indicator (packet : bytes) : bool * bytes :=
  let afc := N.land (N.shiftr (byte_at packet 3) 4) 0x03 in
  if ((afc =? 2) || (afc =? 3))%N && (1 <=? byte_at packet 4)%N then
    (true, <[5 := N_byte (N.lor (byte_at packet 5) 0x80)]> packet)
  else (false, packet).

Definition discontinuity_packet (pid counter : N) : bytes :=
  [TS_SYNC; N_byte (N.land (N.shiftr pid 8) 0x1f); N_byte pid; N_byte (N.lor 0x20 counter);
   N_byte 183; N_byte 0x80] ++ replicate (TS_PACKET_LEN - 6) xff.

(** What is appended for the packet the gate resumes at; the pending mark is taken. *)
Definition append_resumed_packet (mark : bool) (marker_pid : option N) (packet : bytes) : bytes :=
  if negb mark then packet
  else
    let marker_pid := default (ts_pid packet) marker_pid in
    if negb (marker_pid =? ts_pid packet)%N then
      discontinuity_packet marker_pid (N.land (byte_at packet 3) 0x0f) ++ packet
    else
      let '(set, marked) := set_discontinuity_indicator packet in
      (if set then [] else discontinuity_packet (ts_pid packet) (N.land (byte_at packet 3) 0x0f)) ++ marked.

(** The loop body of [push_report]: the gate, the bytes appended, whether the packet was
    forwarded, the bytes withheld and whether the gate resumed here. *)
Record GateStep : Type := mkStep {
  st_gate : KeyframeGate;
  st_out : bytes;
  st_forwarded : bool;
  st_withheld : nat;
  st_resumed : option GateResume;
}.

Definition gate_step (g : KeyframeGate) (pkt : bytes) : GateStep :=
  if filter_sdt g && (ts_pid pkt =? SDT_PID)%N then
    let scanned := if g_locked g then scanned g else saturating_add (scanned g) 1 in
    mkStep (mkGate (g_buf g) (g_locked g) (access g) scanned (max_scan_packets g) (filter_sdt g)
              (next_sdt_counter g) (mark_discontinuity g)) [] false 0 None
  else if g_locked g then
    let '(access_point, a) := access_observe (access g) pkt in
    let '(counter, tables) :=
      if filter_sdt g && access_point then append_gate_tables a (next_sdt_counter g)
      else (next_sdt_counter g, []) in
    mkStep (mkGate (g_buf g) true a (scanned g) (max_scan_packets g) (filter_sdt g) counter
              (mark_discontinuity g)) (tables ++ pkt) true 0 None
  else
    let scanned := u64_add (scanned g) 1 in
    let '(access_point, a) := access_observe (access g) pkt in
    if access_point then
      let '(counter, tables) := append_gate_tables a (next_sdt_counter g) in
      mkStep (mkGate (g_buf g) true a scanned (max_scan_packets g) (filter_sdt g) counter false)
        (tables ++ append_resumed_packet (mark_discontinuity g) None pkt) true 0 (Some AccessPoint)
    else if (max_scan_packets g <=? scanned)%N then
      mkStep (mkGate (g_buf g) true a scanned (max_scan_packets g) (filter_sdt g) (next_sdt_counter g) false)
        (append_resumed_packet (mark_discontinuity g) (video_pid a) pkt) true 0 (Some ScanBudget)
    else
      mkStep (mkGate (g_buf g) false a scanned (max_scan_packets g) (filter_sdt g) (next_sdt_counter g)
                (mark_discontinuity g)) [] false TS_PACKET_LEN None.

(** The loop: position, gate and the report so far. *)
Record GateRun : Type := mkRun { run_i : nat; run_gate : KeyframeGate; run_report : KeyframeGateOutput }.

Definition gate_turn (pkt : bytes) (r : GateRun) : GateRun :=
  let s := gate_step (run_gate r) pkt in
  let o := run_report r in
  mkRun (run_i r + TS_PACKET_LEN) (st_gate s)
    (mkGateOutput (if st_forwarded s then add_selected (run_i r) (forwarded o) else forwarded o)
       (gate_bytes o ++ st_out s) (withheld_bytes o + st_withheld s)
       (match st_resumed s with Some x => Some x | None => resumed o end)).

Fixpoint gate_loop (fuel : nat) (buf : bytes) (r : GateRun) : GateRun :=
  match fuel with
  | 0 => r
  | S fuel =>
      if bool_decide (run_i r + TS_PACKET_LEN ≤ length buf) then
        gate_loop fuel buf (gate_turn (slice buf (run_i r) (run_i r + TS_PACKET_LEN)) r)
      else r
  end.

Definition set_buf (buf : bytes) (g : KeyframeGate) : KeyframeGate :=
  mkGate buf (g_locked g) (access g) (scanned g) (max_scan_packets g) (filter_sdt g)
    (next_sdt_counter g) (mark_discontinuity g).

Definition gate_push_report (g : KeyframeGate) (data : bytes) : KeyframeGateOutput * KeyframeGate :=
  let buf := g_buf g ++ data in
  let r := gate_loop (S (length buf)) buf (mkRun 0 g (mkGateOutput [] [] 0 None)) in
  (run_report r, set_buf (drop (run_i r) buf) (run_gate r)).

Definition gate_push (g : KeyframeGate) (data : bytes) : bytes * KeyframeGate :=
  let '(o, g) := gate_push_report g data in (gate_bytes o, g).

(** ** Packet by packet

    A push is the run of the gate over the whole packets it completes. *)

Definition is_packet (p : bytes) : Prop := length p = TS_PACKET_LEN.

Fixpoint gate_run (g : KeyframeGate) (ps : list bytes) : KeyframeGate * bytes * nat * option GateResume :=
  match ps with
  | [] => (g, [], 0, None)
  | p :: ps =>
      let s := gate_step g p in
      let '(g, o, w, res) := gate_run (st_gate s) ps in
      (g, st_out s ++ o, st_withheld s + w, match res with Some x => Some x | None => st_resumed s end)
  end.

(** Successive pushes: all the output, the bytes withheld, the last resumption, the gate. *)
Fixpoint gate_feed (g : KeyframeGate) (ds : list bytes) : bytes * nat * option GateResume * KeyframeGate :=
  match ds with
  | [] => ([], 0, None, g)
  | d :: ds =>
      let '(o, g) := gate_push_report g d in
      let '(out, w, res, g) := gate_feed g ds in
      (gate_bytes o ++ out, withheld_bytes o + w, match res with Some x => Some x | None => resumed o end, g)
  end.

Lemma chunks_split {A} n (l : list A) : 0 < n →
  ∃ ps t, l = concat ps ++ t ∧ Forall (λ p, length p = n) ps ∧ length t < n.
Proof.
  intros Hn. remember (length l) as m eqn:Hm. revert l Hm.
  induction (lt_wf m) as [m _ IH]. intros l ->. destruct (decide (n ≤ length l)) as [Hle|Hgt].
  - destruct (IH (length (drop n l)) ltac:(rewrite length_drop; lia) (drop n l) eq_refl) as (ps & t & E & Hp & Ht).
    exists (take n l :: ps), t. split_and!; [|constructor; [rewrite length_take; lia|done]|done].
    simpl. by rewrite <- app_assoc, <- E, take_drop.
  - exists [], l. split_and!; [done|constructor|lia].
Qed.

Lemma gate_step_buf b g p : let s := gate_step g p in let s' := gate_step (set_buf b g) p in
  st_gate s' = set_buf b (st_gate s) ∧ st_out s' = st_out s ∧ st_withheld s' = st_withheld s ∧
  st_resumed s' = st_resumed s.
Proof.
  unfold gate_step. destruct g; cbn [set_buf filter_sdt g_locked access next_sdt_counter scanned mark_discontinuity max_scan_packets g_buf].
  destruct (filter_sdt0 && _); [done|].
  destruct (access_observe access0 p) as [ap a]. destruct g_locked0.
  - by destruct (if _ && _ then _ else _).
  - destruct ap; [by destruct (append_gate_tables a next_sdt_counter0)|]. by destruct (_ <=? _)%N.
Qed.

Lemma gate_run_buf b g ps : gate_run (set_buf b g) ps =
  let '(g', o, w, res) := gate_run g ps in (set_buf b g', o, w, res).
Proof.
  revert g. induction ps as [|p ps IH]; intros g; [done|]. cbn [gate_run].
  destruct (gate_step_buf b g p) as (-> & -> & -> & ->). rewrite IH.
  by destruct (gate_run (st_gate (gate_step g p)) ps) as [[[]]].
Qed.

Lemma gate_run_app g ps qs : gate_run g (ps ++ qs) =
  let '(g1, o1, w1, r1) := gate_run g ps in
  let '(g2, o2, w2, r2) := gate_run g1 qs in
  (g2, o1 ++ o2, w1 + w2, match r2 with Some x => Some x | None => r1 end).
Proof.
  revert g. induction ps as [|p ps IH]; intros g; cbn [gate_run app].
  { by destruct (gate_run g qs) as [[[? ?] ?] []]. }
  rewrite IH. destruct (gate_run (st_gate (gate_step g p)) ps) as [[[g1 o1] w1] r1].
  destruct (gate_run g1 qs) as [[[g2 o2] w2] r2]. rewrite app_assoc, Nat.add_assoc. by destruct r2.
Qed.

Lemma gate_loop_packets ps fuel pre t r : length pre = run_i r → Forall is_packet ps →
  length t < TS_PACKET_LEN → length ps < fuel →
  gate_loop fuel (pre ++ concat ps ++ t) r = foldl (λ r p, gate_turn p r) r ps.
Proof.
  revert fuel pre r. induction ps as [|p ps IH]; intros fuel pre r Hi Hp Ht Hf;
    (destruct fuel as [|fuel]; [simpl in Hf; lia|]); cbn [gate_loop].
  - rewrite bool_decide_false; [done|]. simpl. rewrite length_app. lia.
  - inversion Hp as [|?? Hp0 Hp']; subst. rewrite bool_decide_true
      by (simpl; rewrite !length_app, Hp0; lia).
    assert (slice (pre ++ concat (p :: ps) ++ t) (run_i r) (run_i r + TS_PACKET_LEN) = p) as ->.
    { rewrite <- Hi, <- Hp0. simpl. rewrite <- app_assoc. apply slice_app_mid. }
    replace (pre ++ concat (p :: ps) ++ t) with ((pre ++ p) ++ concat ps ++ t)
      by (simpl; by rewrite <- !app_assoc).
    rewrite IH; [done| |done|done|simpl in Hf; lia]. rewrite length_app, Hp0. simpl. lia.
Qed.

Lemma gate_fold_run ps r : let r' := foldl (λ r p, gate_turn p r) r ps in
  let '(g, o, w, res) := gate_run (run_gate r) ps in
  run_gate r' = g ∧ run_i r' = run_i r + length ps * TS_PACKET_LEN ∧
  gate_bytes (run_report r') = gate_bytes (run_report r) ++ o ∧
  withheld_bytes (run_report r') = withheld_bytes (run_report r) + w ∧
  resumed (run_report r') = match res with Some x => Some x | None => resumed (run_report r) end.
Proof.
  revert r. induction ps as [|p ps IH]; intros r; cbn [gate_run foldl].
  { rewrite app_nil_r. split_and!; try done; simpl; lia. }
  specialize (IH (gate_turn p r)). cbv zeta in IH.
  change (run_gate (gate_turn p r)) with (st_gate (gate_step (run_gate r) p)) in IH.
  destruct (gate_run (st_gate (gate_step (run_gate r) p)) ps) as [[[g o] w] res].
  destruct IH as (H1 & H2 & H3 & H4 & H5). split_and!.
  - done.
  - rewrite H2. unfold gate_turn. cbn [run_i length]. lia.
  - rewrite H3. simpl. by rewrite app_assoc.
  - rewrite H4. simpl. lia.
  - rewrite H5. by destruct res.
Qed.

(** A push consumes the whole packets and keeps the rest. *)
Lemma gate_push_packets g d ps t : g_buf g ++ d = concat ps ++ t → Forall is_packet ps →
  length t < TS_PACKET_LEN →
  let '(o, g') := gate_push_report g d in
  let '(g1, out, w, res) := gate_run g ps in
  gate_bytes o = out ∧ withheld_bytes o = w ∧ resumed o = res ∧ g' = set_buf t g1.
Proof.
  intros E Hp Ht. unfold gate_push_report. rewrite E.
  assert (length (concat ps) = length ps * TS_PACKET_LEN) as Hl by by apply length_concat_const.
  rewrite (gate_loop_packets ps _ [] t) by (try done; rewrite length_app, Hl; unfold TS_PACKET_LEN; lia).
  pose proof (gate_fold_run ps (mkRun 0 g (mkGateOutput [] [] 0 None))) as H. cbn [run_gate] in H.
  destruct (gate_run g ps) as [[[g1 out] w] res]. destruct H as (-> & -> & -> & -> & ->).
  cbn [run_i run_report gate_bytes withheld_bytes resumed].
  split_and!; [done|lia|by destruct res|]. by rewrite Nat.add_0_l, drop_app_length' by done.
Qed.

Lemma gate_feed_packets ds g : length (g_buf g) < TS_PACKET_LEN →
  ∃ ps t, g_buf g ++ concat ds = concat ps ++ t ∧ Forall is_packet ps ∧ length t < TS_PACKET_LEN ∧
  gate_feed g ds = let '(g', o, w, res) := gate_run g ps in (o, w, res, set_buf t g').
Proof.
  revert g. induction ds as [|d ds IH]; intros g Hg; cbn [gate_feed concat].
  { exists [], (g_buf g). rewrite app_nil_r. split_and!; try done. by destruct g. }
  destruct (chunks_split TS_PACKET_LEN (g_buf g ++ d)) as (ps & t & E & Hp & Ht); [unfold TS_PACKET_LEN; lia|].
  pose proof (gate_push_packets g d ps t E Hp Ht) as H.
  destruct (gate_push_report g d) as [o g1]. destruct (gate_run g ps) as [[[g2 out] w] res] eqn:Er.
  destruct H as (<- & <- & <- & ->). destruct (IH (set_buf t g2) Ht) as (qs & t' & E' & Hq & Ht' & ->).
  exists (ps ++ qs), t'. cbn [set_buf g_buf] in E'. split_and!; [|by apply Forall_app|done|].
  - rewrite app_assoc, E, <- app_assoc, E', concat_app. by rewrite app_assoc.
  - rewrite gate_run_app, Er, gate_run_buf.
    by destruct (gate_run g2 qs) as [[[g3 o3] w3] r3].
Qed.

(** Blocks of one length are determined by their concatenation. *)
Lemma packets_unique ps qs t : Forall is_packet ps → Forall is_packet qs → length t < TS_PACKET_LEN →
  concat ps ++ t = concat qs → ps = qs ∧ t = [].
Proof.
  intros Hp Hq Ht. revert qs Hq. induction Hp as [|p ps Hp Hps IH]; intros qs Hq E.
  - destruct Hq as [|q qs Hq Hqs]; [done|]. apply (f_equal length) in E. simpl in E.
    rewrite length_app, Hq in E. lia.
  - destruct Hq as [|q qs Hq Hqs]; simpl in E.
    { apply (f_equal length) in E. rewrite !length_app, Hp in E. unfold TS_PACKET_LEN in E. simpl in E. lia. }
    rewrite <- app_assoc in E. apply app_inj_1 in E as [-> E]; [|by rewrite Hp, Hq].
    destruct (IH qs Hqs E) as [-> ->]. done.
Qed.

(** ** Opening *)

Definition access_after (a : VideoAccessPointState) (ps : list bytes) : VideoAccessPointState :=
  foldl (λ a p, (access_observe a p).2) a ps.

(** Whether the packet at [k] is an access point, given the tables learnt before it. *)
Definition access_point_at (a : VideoAccessPointState) (ps : list bytes) (k : nat) : bool :=
  match ps !! k with
  | Some p => (access_observe (access_after a (take k ps)) p).1
  | None => false
  end.

Lemma locked_run ps g : filter_sdt g = false → g_locked g = true →
  ∃ g', gate_run g ps = (g', concat ps, 0, None) ∧ g_locked g' = true.
Proof.
  revert g. induction ps as [|p ps IH]; intros g Hf Hl; [by exists g|]. cbn [gate_run].
  assert (gate_step g p = mkStep (mkGate (g_buf g) true (access_observe (access g) p).2 (scanned g)
    (max_scan_packets g) (filter_sdt g) (next_sdt_counter g) (mark_discontinuity g)) p true 0 None) as ->.
  { unfold gate_step. rewrite Hf, Hl. cbn [andb]. by destruct (access_observe (access g) p). }
  cbn [st_gate st_out st_withheld st_resumed].
  destruct (IH (mkGate (g_buf g) true (access_observe (access g) p).2 (scanned g)
    (max_scan_packets g) (filter_sdt g) (next_sdt_counter g) (mark_discontinuity g))) as (g' & -> & Hg');
    [done..|]. eauto.
Qed.

(** How the run of a closed, untitled gate without a pending mark splits at a position. *)
Definition opens_at (g : KeyframeGate) (ps : list bytes) (k : nat) (out : bytes)
    (res : option GateResume) (locked : bool) : Prop :=
  (∀ j, j < k → access_point_at (access g) ps j = false ∧ (scanned g + N.of_nat j + 1 < max_scan_packets g)%N) ∧
  if bool_decide (k < length ps) then
    locked = true ∧
    if access_point_at (access g) ps k then
      res = Some AccessPoint ∧
      out = (append_gate_tables (access_after (access g) (take (S k) ps)) (next_sdt_counter g)).2
            ++ concat (drop k ps)
    else (max_scan_packets g ≤ scanned g + N.of_nat k + 1)%N ∧ res = Some ScanBudget ∧ out = concat (drop k ps)
  else locked = false ∧ res = None ∧ out = [].

Lemma closed_run ps g : filter_sdt g = false → g_locked g = false → mark_discontinuity g = false →
  (scanned g + 1 < two64)%N → (max_scan_packets g < two64)%N →
  let '(g', out, w, res) := gate_run g ps in
  ∃ k, k ≤ length ps ∧ w = k * TS_PACKET_LEN ∧ opens_at g ps k out res (g_locked g').
Proof.
  revert g. induction ps as [|p ps IH]; intros g Hf Hl Hm Hs Hx; cbn [gate_run].
  { exists 0. split_and!; [done|done|]. split; [lia|done]. }
  destruct (access_observe (access g) p) as [ap a] eqn:Eo.
  assert (access_point_at (access g) (p :: ps) 0 = ap) as Hap.
  { unfold access_point_at. simpl. by rewrite Eo. }
  assert (access_after (access g) (take 1 (p :: ps)) = a) as Haa by (simpl; by rewrite Eo).
  unfold gate_step. rewrite Hf, Hl, Hm, Eo. cbn [andb]. rewrite u64_add_small by done.
  destruct ap.
  - destruct (append_gate_tables a (next_sdt_counter g)) as [c tables] eqn:Et.
    cbn [st_gate st_out st_withheld st_resumed].
    edestruct locked_run as (g' & -> & Hg'); [|done|]; [done|].
    exists 0. split_and!; [lia|done|]. split; [lia|]. rewrite bool_decide_true by (simpl; lia).
    rewrite Hap, Haa, Et. split_and!; [done|done|]. cbn [snd negb]. simpl. by rewrite app_assoc.
  - destruct (N.leb_spec (max_scan_packets g) (scanned g + 1)) as [Hb|Hb].
    + cbn [st_gate st_out st_withheld st_resumed].
      edestruct locked_run as (g' & -> & Hg'); [|done|]; [done|].
      exists 0. split_and!; [lia|done|]. split; [lia|]. rewrite bool_decide_true by (simpl; lia).
      rewrite Hap. split_and!; [done|lia|done|done].
    + cbn [st_gate st_out st_withheld st_resumed].
      set (g1 := mkGate _ _ _ _ _ _ _ _). specialize (IH g1).
      destruct (gate_run g1 ps) as [[[g' out] w] res].
      destruct IH as (k & Hk & -> & Hj & Ho); [done|done|done|simpl; lia|done|].
      exists (S k). split_and!; [simpl; lia|simpl; lia|].
      assert (∀ j, access_point_at (access g) (p :: ps) (S j) = access_point_at a ps j) as HS.
      { intros j. unfold access_point_at. simpl. by rewrite Eo. }
      split.
      { intros [|j] Hjk; [by rewrite Hap; split; [done|lia]|]. rewrite HS.
        destruct (Hj j ltac:(lia)) as [H1 H2]. split; [done|]. cbn [scanned max_scan_packets g1] in H2. lia. }
      rewrite HS. cbn [length]. 
      destruct (decide (k < length ps)) as [Hlt|Hge].
      * rewrite bool_decide_true in Ho |- * by lia. destruct Ho as [Hlk Ho]. split; [done|].
        cbn [access g1] in Ho. destruct (access_point_at a ps k).
        -- destruct Ho as [-> ->]. split; [done|]. cbn [next_sdt_counter g1]. simpl. by rewrite Eo.
        -- destruct Ho as (Hb' & -> & ->). cbn [scanned max_scan_packets g1] in Hb'. split_and!; [lia|done|done].
      * rewrite bool_decide_false in Ho |- * by lia. destruct Ho as (-> & -> & ->). done.
Qed.

(** The gate opens once and then passes everything.  However the packets of a stream are cut into
    pushes, a fresh untitled gate withholds exactly the packets before the first access point
    (or before the scan budget runs out), and from there on forwards every byte of the stream
    unchanged, preceded at an access point by the tables learnt so far; a stream without an
    access point within the budget so far is withheld completely and the gate stays closed. *)
Theorem gate_opens_once (max : N) (pkts ds : list bytes) :
  (max < two64)%N → Forall is_packet pkts → concat ds = concat pkts →
  let '(out, w, res, g) := gate_feed (with_max_scan_packets max) ds in
  ∃ k, k ≤ length pkts ∧ w = k * TS_PACKET_LEN ∧ g_buf g = [] ∧
       opens_at (with_max_scan_packets max) pkts k out res (is_locked g).
Proof.
  intros Hm Hp E. destruct (gate_feed_packets ds (with_max_scan_packets max)) as (ps & t & E' & Hps & Ht & ->).
  { unfold TS_PACKET_LEN. simpl. lia. }
  simpl in E'. rewrite E in E'. symmetry in E'.
  destruct (packets_unique ps pkts t Hps Hp Ht E') as [-> ->].
  pose proof (closed_run pkts (with_max_scan_packets max)) as H.
  destruct (gate_run (with_max_scan_packets max) pkts) as [[[g out] w] res].
  destruct H as (k & Hk & Hw & Ho); try done. by exists k.
Qed.

(** ** The service description table of a titled gate *)

(** A packet of the table: on its PID and with a payload (an adaptation-only packet does not
    advance the continuity counter). *)
Definition is_sdt (p : bytes) : bool := (ts_pid p =? SDT_PID)%N && flag (byte_at p 3) 0x10.

(** Table packets that name the title, with consecutive counters from one value to another. *)
Inductive sdt_run (name : bytes) : N → list bytes → N → Prop :=
  | sdt_run_nil c : sdt_run name c [] c
  | sdt_run_cons c program tsid qs c' :
      sdt_run name (N.land (c + 1) 0x0f) qs c' →
      sdt_run name c (set_counter c (build_sdt_with_transport program name tsid) :: qs) c'.

Lemma sdt_run_app name c qs c1 rs c2 :
  sdt_run name c qs c1 → sdt_run name c1 rs c2 → sdt_run name c (qs ++ rs) c2.
Proof. induction 1; simpl; [done|]. intros. constructor. auto. Qed.

Lemma land_15 n : N.land n 0x0f = (n `mod` 16)%N.
Proof. apply (N.land_ones n 4). Qed.

Lemma sdt_run_counters name c qs c' : (c < 16)%N → sdt_run name c qs c' →
  c' = ((c + lenN qs) `mod` 16)%N ∧
  ∀ i p, qs !! i = Some p → ∃ program tsid,
    p = set_counter ((c + N.of_nat i) `mod` 16) (build_sdt_with_transport program name tsid).
Proof.
  intros Hc H. induction H as [c|c prog tsid qs c' H IH].
  { unfold lenN. simpl. rewrite N.add_0_r, N.mod_small by done. by split. }
  rewrite land_15 in IH. destruct IH as [-> IH]; [apply N.mod_lt; lia|].
  assert (∀ k, (((c + 1) `mod` 16 + k) `mod` 16 = (c + (1 + k)) `mod` 16)%N) as Hk.
  { intros k. rewrite N.Div0.add_mod_idemp_l. f_equal. lia. }
  split.
  - rewrite Hk. unfold lenN. simpl length. f_equal. lia.
  - intros [|i] p Hi; simpl in Hi.
    + injection Hi as <-. rewrite N.add_0_r, N.mod_small by done. eauto.
    + destruct (IH i p Hi) as (pr & ts & ->). rewrite Hk. exists pr, ts. do 2 f_equal. lia.
Qed.

(** Output made of whole packets whose table packets continue the counter. *)
Definition titled_out (name : bytes) (c : N) (out : bytes) (c' : N) : Prop :=
  ∃ ps, out = concat ps ∧ Forall is_packet ps ∧ sdt_run name c (List.filter is_sdt ps) c' ∧ (c' < 16)%N.

Lemma titled_out_nil name c : (c < 16)%N → titled_out name c [] c.
Proof. intros. exists []. split_and!; try done; constructor. Qed.

Lemma titled_out_app name c o1 c1 o2 c2 :
  titled_out name c o1 c1 → titled_out name c1 o2 c2 → titled_out name c (o1 ++ o2) c2.
Proof.
  intros (ps & -> & Hp & Hr & _) (qs & -> & Hq & Hs & Hc). exists (ps ++ qs).
  rewrite concat_app, List.filter_app. split_and!; [done|by apply Forall_app|by eapply sdt_run_app|done].
Qed.

Lemma titled_out_plain name c p : (c < 16)%N → is_packet p → is_sdt p = false → titled_out name c p c.
Proof.
  intros Hc Hp Hs. exists [p]. simpl. rewrite Hs, app_nil_r. split_and!; [done|by constructor|constructor|done].
Qed.

Lemma not_sdt p : ts_pid p ≠ SDT_PID → is_sdt p = false.
Proof. intros H. unfold is_sdt. by rewrite (proj2 (N.eqb_neq _ _)). Qed.

Lemma low_nibble_cases (P : N → Prop) : P 0%N → P 1%N → P 2%N → P 3%N → P 4%N → P 5%N → P 6%N → P 7%N →
  P 8%N → P 9%N → P 10%N → P 11%N → P 12%N → P 13%N → P 14%N → P 15%N → ∀ c, (c < 16)%N → P c.
Proof.
  intros. destruct c as [|[[[[]|[]|]|[[]|[]|]|]|[[[]|[]|]|[[]|[]|]|]|]]; try done; lia.
Qed.

Lemma ts_pid_insert i b p : 3 ≤ i → ts_pid (<[i:=b]> p) = ts_pid p.
Proof.
  intros Hi. unfold ts_pid, byte_at. destruct i as [|[|[|i]]]; [lia..|]. by destruct p as [|? [|? [|? ?]]].
Qed.

Lemma is_sdt_set_counter c p : (c < 16)%N → is_packet p → ts_pid p = SDT_PID → byte_at p 3 = 0x10%N →
  is_sdt (set_counter c p) = true ∧ is_packet (set_counter c p).
Proof.
  intros Hc Hp Hpid Hb. unfold set_counter, is_sdt, is_packet in *. rewrite length_insert. split; [|done].
  rewrite ts_pid_insert, Hpid, N.eqb_refl by lia. cbn [andb].
  assert (byte_at (<[3:=N_byte (N.lor (N.land (byte_at p 3) 0xf0) c)]> p) 3 =
          byte_N (N_byte (N.lor (N.land 0x10 0xf0) c))) as ->.
  { unfold byte_at at 1. rewrite Hb. f_equal. apply nth_lookup_Some, list_lookup_insert_eq.
    rewrite Hp. unfold TS_PACKET_LEN. lia. }
  revert c Hc. apply low_nibble_cases; reflexivity.
Qed.

Lemma discontinuity_packet_ok pid b : let p := discontinuity_packet pid (N.land (byte_N b) 0x0f) in
  is_packet p ∧ is_sdt p = false.
Proof.
  split; [done|]. unfold is_sdt. apply andb_false_intro2.
  assert (N.land (byte_N b) 0x0f < 16)%N as Hc by (rewrite land_15; apply N.mod_lt; lia).
  unfold byte_at, discontinuity_packet. simpl. revert Hc. generalize (N.land (byte_N b) 0x0f) as c.
  apply (low_nibble_cases (λ c, flag (byte_N (N_byte (N.lor 32 c))) 16 = false)); reflexivity.
Qed.

Lemma resumed_packet_ok name c mark marker p : (c < 16)%N → is_packet p → ts_pid p ≠ SDT_PID →
  titled_out name c (append_resumed_packet mark marker p) c.
Proof.
  intros Hc Hp Hpid. pose proof (not_sdt p Hpid) as Hs. unfold append_resumed_packet.
  destruct mark; [|by apply titled_out_plain]. cbn [negb].
  assert (∀ pid, titled_out name c (discontinuity_packet pid (N.land (byte_at p 3) 0x0f)) c) as Hd.
  { intros pid. destruct (discontinuity_packet_ok pid (nth 3 p x00)). by apply titled_out_plain. }
  destruct (negb _); [eapply titled_out_app; [done|by apply titled_out_plain]|].
  unfold set_discontinuity_indicator. destruct (_ && _).
  - cbn [app]. apply titled_out_plain; [done|by unfold is_packet; rewrite length_insert|].
    apply not_sdt. by rewrite ts_pid_insert by lia.
  - eapply titled_out_app; [apply Hd|by apply titled_out_plain].
Qed.

(** The gate's part of the invariant: a title within bounds and learnt tables that are whole
    packets off the table's own PID. *)
Record titled (name : bytes) (g : KeyframeGate) : Prop := {
  tt_filter : filter_sdt g = true;
  tt_name : service_name (access g) = Some name;
  tt_counter : (next_sdt_counter g < 16)%N;
  tt_pat : ∀ p, cached_pat (access g) = Some p → is_packet p ∧ ts_pid p ≠ SDT_PID;
  tt_pmt : ∀ p, cached_pmt (access g) = Some p → is_packet p ∧ ts_pid p ≠ SDT_PID;
}.

Lemma observe_tables a p : let a' := (access_observe a p).2 in
  service_name a' = service_name a ∧
  (cached_pat a' = cached_pat a ∨ cached_pat a' = Some p) ∧
  (cached_pmt a' = cached_pmt a ∨ cached_pmt a' = Some p ∨ cached_pmt a' = None).
Proof.
  unfold access_observe. destruct (negb _ || negb _); [by auto|]. cbn [snd].
  destruct (_ =? 0)%N.
  - destruct (parse_pat_first_program p); simpl; [|by auto]. destruct (negb _ || negb _); auto.
  - case_bool_decide; [|by auto]. destruct (parse_pmt_video _ _ _); simpl; auto.
Qed.

Lemma observe_titled name g p : titled name g → is_packet p → ts_pid p ≠ SDT_PID →
  ∀ b l s c m, (c < 16)%N →
  titled name (mkGate b l (access_observe (access g) p).2 s (max_scan_packets g) (filter_sdt g) c m).
Proof.
  intros [H1 H2 H3 H4 H5] Hp Hpid b l s c m Hc.
  destruct (observe_tables (access g) p) as (E1 & E2 & E3).
  constructor; cbn [filter_sdt access next_sdt_counter]; [done|by rewrite E1|done|..].
  - intros q Hq. destruct E2 as [E2|E2]; rewrite E2 in Hq; [by apply H4|by injection Hq as <-].
  - intros q Hq. destruct E3 as [E3|[E3|E3]]; rewrite E3 in Hq; [by apply H5|by injection Hq as <-|done].
Qed.

Lemma chunks_of_packets ps : Forall is_packet ps → chunks_exact TS_PACKET_LEN (concat ps) = ps.
Proof.
  intros Hps. destruct (chunks_exact_all TS_PACKET_LEN (concat ps) (length ps)) as (_ & Hf & Hc);
    [unfold TS_PACKET_LEN; lia|by apply length_concat_const|].
  destruct (packets_unique (chunks_exact TS_PACKET_LEN (concat ps)) ps []); try done.
  - unfold TS_PACKET_LEN. simpl. lia.
  - by rewrite Hc, app_nil_r.
Qed.

Lemma table_prefix_titled name g prefix : titled name g → table_prefix (access g) = Some prefix →
  ∃ pat pmt sdt, prefix = concat (pat :: pmt :: sdt) ∧ is_packet pat ∧ is_packet pmt ∧
  ts_pid pat ≠ SDT_PID ∧ ts_pid pmt ≠ SDT_PID ∧
  (sdt = [] ∨ ∃ program tsid, sdt = [build_sdt_with_transport program name tsid]).
Proof.
  intros [_ H2 _ H4 H5] Et. unfold table_prefix in Et.
  destruct (cached_pat (access g)) as [pat|] eqn:Ep; [|done].
  destruct (cached_pmt (access g)) as [pmt|] eqn:Em; [|done]. cbn [mbind option_bind] in Et.
  destruct (H4 pat eq_refl), (H5 pmt eq_refl). rewrite H2 in Et. exists pat, pmt.
  destruct (program_number (access g)) as [pr|].
  - destruct (preserve_identity (access g)).
    + destruct (psi_section_start pat) as [st|]; [|done]. cbn [mbind option_bind] in Et.
      destruct (slice_get pat _ _) as [idn|]; [|done]. cbn [mbind option_bind] in Et.
      injection Et as <-. exists [build_sdt_with_transport pr name (be_N idn)].
      simpl. rewrite app_nil_r. split_and!; try done. right. eauto.
    + injection Et as <-. exists [build_sdt_with_transport pr name 1].
      simpl. rewrite app_nil_r. split_and!; try done. right. eauto.
  - injection Et as <-. exists []. simpl. rewrite app_nil_r. split_and!; try done. by left.
Qed.

Lemma append_tables_titled name g : titled name g → length name ≤ MAX_SERVICE_NAME_BYTES →
  let '(c, out) := append_gate_tables (access g) (next_sdt_counter g) in
  titled_out name (next_sdt_counter g) out c.
Proof.
  intros Hg Hn. pose proof (tt_counter _ _ Hg) as Hc. unfold append_gate_tables.
  destruct (table_prefix (access g)) as [prefix|] eqn:Et; [|by apply titled_out_nil].
  destruct (table_prefix_titled _ _ _ Hg Et) as (pat & pmt & sdt & -> & P1 & P2 & Q1 & Q2 & Hsdt).
  assert (Forall is_packet (pat :: pmt :: sdt)) as Hall.
  { constructor; [done|]. constructor; [done|]. destruct Hsdt as [->|(pr & ts & ->)]; [constructor|].
    constructor; [|constructor]. by apply build_sdt_length. }
  rewrite (chunks_of_packets _ Hall). rewrite drop_ge by (by rewrite (length_concat_const _ _ Hall)).
  set (c := next_sdt_counter g) in *.
  assert (titled_out name c (concat [pat; pmt]) c) as Hpp.
  { exists [pat; pmt]. simpl. rewrite !not_sdt by done. split_and!; [done|by repeat constructor|constructor|done]. }
  cbn [renumber]. rewrite !(proj2 (N.eqb_neq _ _)) by done.
  destruct Hsdt as [->|(pr & ts & ->)]; cbn [renumber].
  { by rewrite app_nil_r. }
  assert (ts_pid (build_sdt_with_transport pr name ts) = SDT_PID) as Hpid by done.
  rewrite Hpid, N.eqb_refl, app_nil_r.
  destruct (is_sdt_set_counter c (build_sdt_with_transport pr name ts)) as [S1 S2];
    [done|by apply build_sdt_length|done|done|].
  replace (concat _) with (concat [pat; pmt] ++ set_counter c (build_sdt_with_transport pr name ts))
    by (simpl; by rewrite app_nil_r, <- app_assoc, app_nil_r).
  eapply titled_out_app; [done|]. exists [set_counter c (build_sdt_with_transport pr name ts)].
  cbn [List.filter]. rewrite S1. cbn [concat]. rewrite app_nil_r.
  split_and!; [done|by constructor|repeat constructor|rewrite land_15; apply N.mod_lt; lia].
Qed.

(** Every turn of a titled gate keeps the invariant and continues the counter. *)
Lemma gate_step_titled name g p : titled name g → length name ≤ MAX_SERVICE_NAME_BYTES → is_packet p →
  let s := gate_step g p in
  titled name (st_gate s) ∧
  titled_out name (next_sdt_counter g) (st_out s) (next_sdt_counter (st_gate s)).
Proof.
  intros Hg Hn Hp. pose proof (tt_counter _ _ Hg) as Hc. pose proof (tt_filter _ _ Hg) as Hf.
  unfold gate_step. rewrite Hf. cbn [andb].
  destruct (N.eqb_spec (ts_pid p) SDT_PID) as [Hpid|Hpid].
  { split; [|by apply titled_out_nil]. destruct Hg. by constructor. }
  destruct (access_observe (access g) p) as [ap a] eqn:Eo.
  assert (∀ b l s c m, (c < 16)%N → titled name (mkGate b l a s (max_scan_packets g) true c m)) as Hobs.
  { intros b l s c m Hc'. pose proof (observe_titled name g p Hg Hp Hpid b l s c m Hc') as H.
    by rewrite Eo, Hf in H. }
  assert (let '(c, out) := append_gate_tables a (next_sdt_counter g) in
    titled_out name (next_sdt_counter g) out c) as Htab.
  { by apply (append_tables_titled name (mkGate [] true a 0 (max_scan_packets g) true (next_sdt_counter g) false)); [apply Hobs|]. }
  assert (∀ c, (c < 16)%N → titled_out name c p c) as Hplain.
  { intros. apply titled_out_plain; [done|done|by apply not_sdt]. }
  destruct (append_gate_tables a (next_sdt_counter g)) as [c tables].
  assert (c < 16)%N as Hc' by (by destruct Htab as (? & ? & ? & ? & ?)).
  destruct (g_locked g), ap; cbn [andb st_gate st_out].
  - split; [by apply Hobs|]. by eapply titled_out_app; [|apply Hplain].
  - split; [by apply Hobs|]. by apply Hplain.
  - split; [by apply Hobs|]. by eapply titled_out_app; [|apply resumed_packet_ok].
  - destruct (_ <=? _)%N; (split; [by apply Hobs|]); [by apply resumed_packet_ok|by apply titled_out_nil].
Qed.

Lemma gate_run_titled name ps g : titled name g → length name ≤ MAX_SERVICE_NAME_BYTES →
  Forall is_packet ps →
  let '(g', out, _, _) := gate_run g ps in
  titled name g' ∧ titled_out name (next_sdt_counter g) out (next_sdt_counter g').
Proof.
  intros Hg Hn Hps. revert g Hg. induction Hps as [|p ps Hp Hps IH]; intros g Hg; cbn [gate_run].
  { split; [done|]. apply titled_out_nil, Hg. }
  destruct (gate_step_titled name g p Hg Hn Hp) as [H1 H2]. specialize (IH _ H1).
  destruct (gate_run (st_gate (gate_step g p)) ps) as [[[g' o] w] res]. destruct IH as [H3 H4].
  split; [done|]. by eapply titled_out_app.
Qed.

(** What the owner of a gate does with it. *)
Inductive GateOp : Type :=
  | Push (data : bytes)
  | ResetGate
  | ResetForDiscontinuity
  | RearmForDiscontinuity.

Definition gate_op (g : KeyframeGate) (op : GateOp) : bytes * KeyframeGate :=
  match op with
  | Push d => gate_push g d
  | ResetGate => ([], gate_reset g)
  | ResetForDiscontinuity => ([], reset_for_discontinuity g)
  | RearmForDiscontinuity => ([], rearm_for_discontinuity g)
  end.

Fixpoint gate_ops (g : KeyframeGate) (ops : list GateOp) : bytes * KeyframeGate :=
  match ops with
  | [] => ([], g)
  | op :: ops =>
      let '(o, g) := gate_op g op in
      let '(out, g) := gate_ops g ops in (o ++ out, g)
  end.

Lemma gate_op_titled name g op : titled name g → length name ≤ MAX_SERVICE_NAME_BYTES →
  let '(o, g') := gate_op g op in
  titled name g' ∧ titled_out name (next_sdt_counter g) o (next_sdt_counter g').
Proof.
  intros Hg Hn. pose proof (tt_counter _ _ Hg) as Hc. destruct op as [d| | |]; cbn [gate_op].
  - unfold gate_push.
    destruct (chunks_split TS_PACKET_LEN (g_buf g ++ d)) as (ps & t & E & Hp & Ht); [unfold TS_PACKET_LEN; lia|].
    pose proof (gate_push_packets g d ps t E Hp Ht) as H.
    pose proof (gate_run_titled name ps g Hg Hn Hp) as Hr.
    destruct (gate_push_report g d) as [o g1]. destruct (gate_run g ps) as [[[g2 out] w] res].
    destruct H as (<- & _ & _ & ->). destruct Hr as [Hr Ho]. split; [destruct Hr; constructor; simpl; auto|exact Ho].
  - split; [|by apply titled_out_nil]. destruct Hg. by constructor.
  - split; [|by apply titled_out_nil]. destruct Hg. by constructor.
  - split; [|by apply titled_out_nil]. destruct Hg. by constructor.
Qed.

Lemma gate_ops_titled name ops g : titled name g → length name ≤ MAX_SERVICE_NAME_BYTES →
  let '(out, g') := gate_ops g ops in
  titled name g' ∧ titled_out name (next_sdt_counter g) out (next_sdt_counter g').
Proof.
  intros Hg Hn. revert g Hg. induction ops as [|op ops IH]; intros g Hg; cbn [gate_ops].
  { split; [done|]. apply titled_out_nil, Hg. }
  pose proof (gate_op_titled name g op Hg Hn) as H. destruct (gate_op g op) as [o g1].
  destruct H as [H1 H2]. specialize (IH g1 H1). destruct (gate_ops g1 ops) as [out g2].
  destruct IH as [H3 H4]. split; [done|]. by eapply titled_out_app.
Qed.

(** A titled gate owns the service description table of its client's stream.  Through any sequence
    of pushes of any bytes, resets and re-arms, its output is a sequence of whole packets; the
    table packets among them are exactly the synthesized ones for the gate's title, whatever
    the upstream sent on that PID, and their continuity counters are 0, 1, 2, ... modulo 16
    without a gap. *)
Theorem titled_gate_owns_sdt (raw name : bytes) (ops : list GateOp) :
  utf8_text raw → sanitize_service_name raw = Some name →
  let '(out, g) := gate_ops (with_service_name (Some raw)) ops in
  let ps := chunks_exact TS_PACKET_LEN out in
  let sdts := List.filter is_sdt ps in
  out = concat ps ∧ next_sdt_counter g = (lenN sdts `mod` 16)%N ∧
  ∀ i p, sdts !! i = Some p → ∃ program tsid,
    p = set_counter (N.of_nat i `mod` 16) (build_sdt_with_transport program name tsid).
Proof.
  intros Hr Hs. destruct (sanitized_text raw name Hr Hs) as [Hn _].
  pose proof (gate_ops_titled name ops (with_service_name (Some raw))) as H.
  destruct (gate_ops (with_service_name (Some raw)) ops) as [out g].
  destruct H as (_ & ps & -> & Hps & Hrun & _); [|done|].
  { unfold with_service_name, access_with_service_name. simpl. rewrite Hs. by constructor. }
  rewrite (chunks_of_packets ps Hps).
  destruct (sdt_run_counters name 0 _ _ ltac:(done) Hrun) as [-> Hi]. by split_and!.
Qed.

(** ** A table on the wrong PID

    [append_gate_tables] renumbers every prefix packet on the table's PID, not only the
    synthesized one: when a program table places the program map there, an untitled gate
    rewrites the header of the cached map. *)

Lemma untitled_map_renumbered : ∃ pmt,
  let a := mkAccess false false (Some SDT_PID) None None (Some (replicate TS_PACKET_LEN x00)) (Some pmt) None (Some 1%N) in
  is_packet pmt ∧ has_service_name a = false ∧
  table_prefix a = Some (replicate TS_PACKET_LEN x00 ++ pmt) ∧
  (append_gate_tables a 0).2 ≠ replicate TS_PACKET_LEN x00 ++ pmt ∧
  (append_gate_tables a 0).1 = 1%N.
Proof.
  exists ([TS_SYNC; x40; x11; x15] ++ replicate 184 x00).
  split_and!; [done|vm_compute; reflexivity|vm_compute; reflexivity| |vm_compute; reflexivity].
  intros H. apply (f_equal (λ l, byte_at l 191)) in H. vm_compute in H. done.
Qed.

(** *** Witnesses *)

(** A program table for program 1 on PID 0x100, and a map with H.264 video on PID 0x101. *)
Definition sample_pat : bytes :=
  map N_byte ([0x47; 0x40; 0x00; 0x10; 0x00] ++ [0x00; 0xB0; 0x0D; 0x00; 0x01; 0xC1; 0x00; 0x00]
    ++ [0x00; 0x01; 0xE1; 0x00] ++ [0; 0; 0; 0])%N ++ replicate 167 xff.
Definition sample_pmt : bytes :=
  map N_byte ([0x47; 0x41; 0x00; 0x10; 0x00] ++ [0x02; 0xB0; 0x12; 0x00; 0x01; 0xC1; 0x00; 0x00]
    ++ [0xE1; 0x01; 0xF0; 0x00] ++ [0x1B; 0xE1; 0x01; 0xF0; 0x00] ++ [0; 0; 0; 0])%N ++ replicate 162 xff.
(** A random-access video packet and one that is not. *)
Definition sample_key : bytes := map N_byte [0x47; 0x41; 0x01; 0x30; 0x07; 0x40]%N ++ replicate 182 x00.
Definition sample_delta : bytes := map N_byte [0x47; 0x01; 0x01; 0x10]%N ++ replicate 184 x00.

Lemma gate_opens_once_witness :
  let pkts := [sample_pat; sample_delta; sample_pmt; sample_delta; sample_key; sample_delta] in
  let ds := [take 300 (concat pkts); drop 300 (concat pkts)] in
  access_point_at access_new pkts 4 = true ∧
  let '(out, w, res, g) := gate_feed (with_max_scan_packets 100) ds in
  ∃ k, k ≤ length pkts ∧ w = k * TS_PACKET_LEN ∧ g_buf g = [] ∧
       opens_at (with_max_scan_packets 100) pkts k out res (is_locked g).
Proof.
  split; [vm_compute; reflexivity|].
  apply (gate_opens_once 100 [sample_pat; sample_delta; sample_pmt; sample_delta; sample_key; sample_delta]).
  - reflexivity.
  - repeat constructor.
  - vm_compute. reflexivity.
Defined.

Lemma titled_gate_owns_sdt_witness :
  let ops := [Push (sample_pat ++ sample_pmt ++ build_sdt 1 (bs "Other") ++ sample_key ++ sample_key)] in
  length (List.filter is_sdt (chunks_exact TS_PACKET_LEN (gate_ops (with_service_name (Some (bs "TV"))) ops).1)) = 2 ∧
  let '(out, g) := gate_ops (with_service_name (Some (bs "TV"))) ops in
  let ps := chunks_exact TS_PACKET_LEN out in
  let sdts := List.filter is_sdt ps in
  out = concat ps ∧ next_sdt_counter g = (lenN sdts `mod` 16)%N ∧
  ∀ i p, sdts !! i = Some p → ∃ program tsid,
    p = set_counter (N.of_nat i `mod` 16) (build_sdt_with_transport program (bs "TV") tsid).
Proof.
  split; [vm_compute; reflexivity|]. apply (titled_gate_owns_sdt (bs "TV") (bs "TV")).
  - do 2 (apply (text_char [_]); [by apply char1|]). constructor.
  - vm_compute. reflexivity.
Defined.
