(* ===== verification/Scheduler.v ===== *)
(** * Request scheduling

    [ace-swarm/src/scheduler.rs]: which piece to request from which peer.  [None] of an
    assignment stands for a scan that never ends, which needs a cursor at the very top of the
    piece numbering; the theorems exclude it. *)

From S2P Require Import Prelude BTree Extended.

Local Open Scope N_scope.

Record PeerView : Type := mkPeerView {
  pv_id : N;
  pv_min_piece : N;
  pv_max_piece : N;
  pv_unchoked : bool;
  pv_in_flight : N;
}.

Definition covers (p : PeerView) (piece : N) : bool :=
  (pv_min_piece p <=? piece) && (piece <=? pv_max_piece p).

Record Scheduler : Type := mkScheduler {
  max_in_flight : N;
  requested : gset N;
}.

Definition new (max_in_flight : N) : Scheduler := mkScheduler (N.max max_in_flight 1) ∅.

(** A peer with its remaining capacity: policy slots and queue slots. *)
Record Cap : Type := mkCap { c_peer : PeerView; c_spare : N; c_slots : N }.

Definition eligible (piece : N) (c : Cap) : bool :=
  (0 <? c_spare c) && (0 <? c_slots c) && covers (c_peer c) piece.

(** [filter(..).max_by_key(|(_, c, _)| *c)]: the last of the eligible peers with the most
    spare capacity, by its position. *)
Fixpoint best_from (i : nat) (piece : N) (cap : list Cap) (acc : option (nat * N))
    : option (nat * N) :=
  match cap with
  | [] => acc
  | c :: cap =>
      best_from (S i) piece cap
        (if eligible piece c then
           match acc with
           | Some (_, m) => if m <=? c_spare c then Some (i, c_spare c) else acc
           | None => Some (i, c_spare c)
           end
         else acc)
  end.
Definition best (piece : N) (cap : list Cap) : option nat := fst <$> best_from 0 piece cap None.

Definition spend (c : Cap) : Cap := mkCap (c_peer c) (c_spare c - 1) (c_slots c - 1).

(** The [while] of [assign_inner]. *)
Fixpoint scan (fuel : nat) (scan_ceiling ceiling piece : N) (req : gset N) (cap : list Cap)
    : option (list (N * N) * gset N * list Cap) :=
  match fuel with
  | 0%nat => None
  | S fuel =>
      if piece <=? ceiling then
        if bool_decide (piece ∈ req) then
          scan fuel scan_ceiling (N.min (saturating_add ceiling 1) scan_ceiling)
            (u64_add piece 1) req cap
        else
          match best piece cap with
          | Some i =>
              match cap !! i with
              | Some c =>
                  '(out, req', cap') ← scan fuel scan_ceiling ceiling (u64_add piece 1)
                    ({[piece]} ∪ req) (<[i := spend c]> cap);
                  Some ((pv_id (c_peer c), piece) :: out, req', cap')
              | None => None
              end
          | None => scan fuel scan_ceiling ceiling (u64_add piece 1) req cap
          end
      else Some ([], req, cap)
  end.

Definition capacities (s : Scheduler) (peers : list PeerView) (queue_slots : option (gmap N N))
    : list Cap :=
  map (λ p, let spare := saturating_sub (max_in_flight s) (pv_in_flight p) in
            mkCap p spare
              (match queue_slots with
               | Some slots => default 0 (slots !! pv_id p)
               | None => spare
               end))
    (List.filter pv_unchoked peers).

Definition total_spare (cap : list Cap) : N := fold_left (λ t c, u64_add t (c_spare c)) cap 0.

Definition assign_inner (s : Scheduler) (next_needed head : N) (peers : list PeerView)
    (queue_slots : option (gmap N N)) : option (list (N * N) * Scheduler) :=
  let req := base.filter (λ p, next_needed ≤ p) (requested s) in
  let cap := capacities s peers queue_slots in
  let total := total_spare cap in
  let scan_slots := match queue_slots with
    | Some _ => fold_left (λ t _, saturating_add t (max_in_flight s)) cap 0
    | None => total
    end in
  let scan_ceiling := N.min head (saturating_add next_needed scan_slots) in
  let ceiling := N.min head (saturating_add next_needed total) in
  '(out, req', _) ← scan (S (S (N.to_nat scan_slots))) scan_ceiling ceiling next_needed req cap;
  Some (out, mkScheduler (max_in_flight s) req').

Definition assign (s : Scheduler) (next_needed head : N) (peers : list PeerView) :=
  assign_inner s next_needed head peers None.
Definition assign_with_queue_slots (s : Scheduler) (next_needed head : N) (peers : list PeerView)
    (queue_slots : gmap N N) :=
  assign_inner s next_needed head peers (Some queue_slots).

Definition on_complete (s : Scheduler) (piece : N) : Scheduler :=
  mkScheduler (max_in_flight s) (requested s ∖ {[piece]}).
Definition on_drop (s : Scheduler) (piece : N) : Scheduler :=
  mkScheduler (max_in_flight s) (requested s ∖ {[piece]}).
Definition clear_in_flight (s : Scheduler) : Scheduler := mkScheduler (max_in_flight s) ∅.
Definition scheduler_in_flight_count (s : Scheduler) : nat := size (requested s).

(** ** Active peers *)

Record PeerAssignment : Type := mkPeerAssignment { peer_id : N; pa_piece : N }.

Record ActivePeer : Type := mkActivePeer {
  observed_bounds : option (N * N);
  min_piece : N;
  max_piece : N;
  unchoked : bool;
  in_flight : gset N;
}.

Abbreviation ActivePeers := (gmap N ActivePeer).

Definition ordered_bounds (b : option (N * N)) : option (N * N) :=
  b ≫= λ mm, if mm.1 <=? mm.2 then Some mm else None.

(** [u64::try_from] of an [i64]. *)
Definition u64_try_from (z : Z) : option N := if (0 <=? z)%Z then Some (Z.to_N z) else None.

Definition insert_peer (ps : ActivePeers) (id : N) (window : LivePosition) : ActivePeers :=
  <[id := mkActivePeer
     (ordered_bounds (lo ← u64_try_from (Extended.min_piece window);
                      hi ← u64_try_from (Extended.max_piece window); Some (lo, hi)))
     (Z.to_N (Z.max (Extended.min_piece window) 0)) (Z.to_N (Z.max (Extended.max_piece window) 0))
     false ∅]> ps.

Definition set_in_flight (f : gset N) (p : ActivePeer) : ActivePeer :=
  mkActivePeer (observed_bounds p) (min_piece p) (max_piece p) (unchoked p) f.

Definition set_unchoked (ps : ActivePeers) (id : N) (u : bool) : ActivePeers :=
  alter (λ p, mkActivePeer (observed_bounds p) (min_piece p) (max_piece p) u (in_flight p)) id ps.

Definition update_window (ps : ActivePeers) (id lo hi : N) : ActivePeers :=
  alter (λ p, mkActivePeer (observed_bounds p) lo (N.max hi lo) (unchoked p) (in_flight p)) id ps.

Definition view (e : N * ActivePeer) : PeerView :=
  mkPeerView e.1 (min_piece e.2) (max_piece e.2) (unchoked e.2) (N.of_nat (size (in_flight e.2))).

Fixpoint record_assignments (assigned : list (N * N)) (ps : ActivePeers) (s : Scheduler)
    : list PeerAssignment * ActivePeers * Scheduler :=
  match assigned with
  | [] => ([], ps, s)
  | (id, piece) :: rest =>
      match ps !! id with
      | Some peer =>
          let ps := <[id := set_in_flight ({[piece]} ∪ in_flight peer) peer]> ps in
          let '(out, ps, s) := record_assignments rest ps s in
          (mkPeerAssignment id piece :: out, ps, s)
      | None => record_assignments rest ps (on_drop s piece)
      end
  end.

Definition peers_assign_inner (ps : ActivePeers) (s : Scheduler) (next_needed head : N)
    (queue_slots : option (gmap N N)) : option (list PeerAssignment * ActivePeers * Scheduler) :=
  let views := map view (entries ps) in
  '(assigned, s) ← match queue_slots with
    | Some slots => assign_with_queue_slots s next_needed head views slots
    | None => assign s next_needed head views
    end;
  Some (record_assignments assigned ps s).

Definition peers_assign (ps : ActivePeers) (s : Scheduler) (next_needed head : N) :=
  peers_assign_inner ps s next_needed head None.
Definition peers_assign_with_queue_slots (ps : ActivePeers) (s : Scheduler)
    (next_needed head : N) (queue_slots : gmap N N) :=
  peers_assign_inner ps s next_needed head (Some queue_slots).

Definition cancel_assignment (ps : ActivePeers) (id piece : N) : ActivePeers :=
  alter (λ p, set_in_flight (in_flight p ∖ {[piece]}) p) id ps.

Definition remove (ps : ActivePeers) (id : N) : list N * ActivePeers :=
  (match ps !! id with Some p => ascending (in_flight p) | None => [] end, delete id ps).

Definition in_flight_count (ps : ActivePeers) (id : N) : nat :=
  match ps !! id with Some p => size (in_flight p) | None => 0 end.

Definition complete_everywhere (ps : ActivePeers) (piece : N) : ActivePeers :=
  (λ p, set_in_flight (in_flight p ∖ {[piece]}) p) <$> ps.

Definition prune_below (ps : ActivePeers) (floor : N) : ActivePeers :=
  (λ p, set_in_flight (base.filter (λ x, floor ≤ x) (in_flight p)) p) <$> ps.

Definition any_unchoked_covers (ps : ActivePeers) (piece : N) : bool :=
  existsb (λ e, unchoked e.2 && (min_piece e.2 <=? piece) && (piece <=? max_piece e.2))
    (entries ps).

Definition observe_window (ps : ActivePeers) (id : N) (bounds : option (N * N)) : ActivePeers :=
  alter (λ p, mkActivePeer (ordered_bounds bounds) (min_piece p) (max_piece p) (unchoked p)
    (in_flight p)) id ps.

(** [Iterator::reduce] and [Iterator::min]. *)
Definition reduce {A} (f : A → A → A) (l : list A) : option A :=
  match l with [] => None | x :: l => Some (fold_left f l x) end.

Definition coverage_bounds (ps : ActivePeers) : option (N * N) :=
  reduce (λ ab cd, (N.min ab.1 cd.1, N.max ab.2 cd.2))
    (omap (λ e, observed_bounds e.2) (List.filter (λ e, unchoked e.2) (entries ps))).

Definition lowest_covered_piece (ps : ActivePeers) : option N :=
  reduce N.min (map (λ e, min_piece e.2) (List.filter (λ e, unchoked e.2) (entries ps))).

Example assign_example :
  option_map fst (assign (new 2) 10 20
    [mkPeerView 1 0 100 true 0; mkPeerView 2 11 100 true 1; mkPeerView 3 0 100 false 0]) =
  Some [(1, 10); (2, 11); (1, 12)].
Proof. vm_compute. reflexivity. Qed.

(** ** Choosing a peer *)

Lemma best_from_spec i piece cap acc :
  match best_from i piece cap acc with
  | Some (j, m) =>
      ((acc = Some (j, m)) ∨
       ∃ k c, j = (i + k)%nat ∧ cap !! k = Some c ∧ eligible piece c = true ∧ c_spare c = m) ∧
      (∀ c, c ∈ cap → eligible piece c = true → c_spare c ≤ m) ∧
      (∀ j0 m0, acc = Some (j0, m0) → m0 ≤ m)
  | None => acc = None ∧ ∀ c, c ∈ cap → eligible piece c = false
  end.
Proof.
  revert i acc. induction cap as [|c cap IH]; intros i acc; cbn [best_from].
  { destruct acc as [[j m]|]; [|split; [done|set_solver]].
    split_and!; [by left|set_solver|]. intros j0 m0 [= -> ->]. lia. }
  set (acc' := if eligible piece c then _ else acc).
  assert ((acc' = acc ∧ (eligible piece c = true → ∃ j m, acc = Some (j, m) ∧ c_spare c < m)) ∨
    (acc' = Some (i, c_spare c) ∧ eligible piece c = true ∧
      ∀ j m, acc = Some (j, m) → m ≤ c_spare c)) as Hacc.
  { unfold acc'. destruct (eligible piece c); [|by left].
    destruct acc as [[j m]|]; [|right; split_and!; done].
    destruct (N.leb_spec m (c_spare c)); [right; split_and!; [done|done|]|left; split; [done|eauto]].
    intros j' m' [= -> ->]. done. }
  specialize (IH (S i) acc'). destruct (best_from (S i) piece cap acc') as [[j m]|].
  - destruct IH as (Hor & Hall & Hm). split_and!.
    + destruct Hor as [E|(k & c' & -> & Hk & He & <-)].
      * destruct Hacc as [[Hacc _]|(Hacc & He & _)]; [left; congruence|].
        right. exists 0%nat, c. rewrite Hacc in E. injection E as <- <-.
        split_and!; [lia|done|done|done].
      * right. exists (S k), c'. split_and!; [lia|done|done|done].
    + intros c' [->|Hc']%elem_of_cons He; [|by apply Hall].
      destruct Hacc as [[Hacc Hc]|(Hacc & _ & _)]; [|by eapply Hm].
      destruct (Hc He) as (j0 & m0 & E & ?). specialize (Hm j0 m0). rewrite Hacc in Hm. specialize (Hm E). lia.
    + intros j0 m0 E. destruct Hacc as [[Hacc _]|(Hacc & _ & Hle)].
      * apply (Hm j0). by rewrite Hacc.
      * specialize (Hle _ _ E). specialize (Hm _ _ Hacc). lia.
  - destruct IH as [E Hall]. destruct Hacc as [[Hacc Hc]|(Hacc & _)]; [|congruence].
    rewrite Hacc in E. split; [done|]. intros c' [->|Hc']%elem_of_cons; [|auto].
    destruct (eligible piece c) eqn:He; [|done]. destruct (Hc eq_refl) as (? & ? & ? & _). congruence.
Qed.

Lemma best_Some piece cap i : best piece cap = Some i →
  ∃ c, cap !! i = Some c ∧ eligible piece c = true ∧
    ∀ c', c' ∈ cap → eligible piece c' = true → c_spare c' ≤ c_spare c.
Proof.
  unfold best. pose proof (best_from_spec 0 piece cap None) as Hb.
  destruct (best_from 0 piece cap None) as [[j m]|]; [|done]. intros [= <-].
  destruct Hb as ([?|(k & c & -> & Hk & He & <-)] & Hall & _); [done|]. eauto.
Qed.

Lemma best_None piece cap : best piece cap = None → ∀ c, c ∈ cap → eligible piece c = false.
Proof.
  unfold best. pose proof (best_from_spec 0 piece cap None) as Hb.
  destruct (best_from 0 piece cap None) as [[j m]|]; [done|]. intros _. apply Hb.
Qed.

(** ** Budgets *)

(** The requests a batch gives to one peer, and the capacity listed for it. *)
Definition given (id : N) (out : list (N * N)) : N :=
  lenN (base.filter (λ o : N * N, o.1 = id) out).
Definition budget (f : Cap → N) (id : N) (cap : list Cap) : N :=
  foldr (λ c t, (if pv_id (c_peer c) =? id then f c else 0) + t) 0 cap.

Lemma budget_spend f id cap i c : cap !! i = Some c → 0 < f c → f (spend c) = f c - 1 →
  budget f id cap = (if pv_id (c_peer c) =? id then 1 else 0) + budget f id (<[i := spend c]> cap).
Proof.
  intros Hi Hf Hs. revert i Hi. induction cap as [|c' cap IH]; intros [|i] Hi; simpl in *; try done.
  - injection Hi as ->. destruct (pv_id (c_peer c) =? id); lia.
  - rewrite (IH _ Hi). lia.
Qed.

Lemma given_cons id o out : given id (o :: out) = (if o.1 =? id then 1 else 0) + given id out.
Proof.
  unfold given. rewrite filter_cons. destruct (N.eqb_spec o.1 id);
    [rewrite decide_True by done|rewrite decide_False by done]; unfold lenN; simpl; lia.
Qed.

Definition shrinks (c c' : Cap) : Prop :=
  c_peer c' = c_peer c ∧ c_spare c' ≤ c_spare c ∧ c_slots c' ≤ c_slots c.

Lemma shrinks_eligible c c' piece : shrinks c c' → eligible piece c' = true → eligible piece c = true.
Proof.
  unfold eligible. intros (Hp & Hs & Hl). rewrite Hp, !andb_true_iff, !N.ltb_lt. intros ((? & ?) & ?).
  split_and!; [lia|lia|done].
Qed.

Lemma shrinks_refl cap : Forall2 shrinks cap cap.
Proof. apply Forall_Forall2_diag, Forall_true. intros c. split_and!; [done|lia|lia]. Qed.

Lemma shrinks_trans cap1 cap2 cap3 :
  Forall2 shrinks cap1 cap2 → Forall2 shrinks cap2 cap3 → Forall2 shrinks cap1 cap3.
Proof.
  apply Forall2_trans. intros c1 c2 c3 (H1 & ? & ?) (H2 & ? & ?).
  split_and!; [congruence|lia|lia].
Qed.

Lemma shrinks_spend cap i c : cap !! i = Some c → Forall2 shrinks cap (<[i := spend c]> cap).
Proof.
  intros Hi. rewrite <-(list_insert_id cap i c Hi) at 1.
  apply Forall2_insert; [apply shrinks_refl|]. split_and!; simpl; [done|lia|lia].
Qed.

(** What one scan promises. *)
Record scanned (sc ceiling piece : N) (req : gset N) (cap : list Cap)
    (out : list (N * N)) (req' : gset N) (cap' : list Cap) : Prop := {
  sc_req : req' = req ∪ list_to_set out.*2;
  sc_sorted : StronglySorted N.lt out.*2;
  sc_out id p : (id, p) ∈ out → piece ≤ p ≤ sc ∧ p ∉ req ∧
    ∃ c, c ∈ cap ∧ pv_id (c_peer c) = id ∧ covers (c_peer c) p = true;
  sc_spare id : given id out + budget c_spare id cap' = budget c_spare id cap;
  sc_slots id : given id out + budget c_slots id cap' = budget c_slots id cap;
  sc_shrinks : Forall2 shrinks cap cap';
  sc_greedy p c : piece ≤ p ≤ ceiling → p ∉ req' → c ∈ cap' → eligible p c = false;
}.

Lemma scanned_skip sc ceiling ceiling' piece req cap out req' cap' : ceiling ≤ ceiling' →
  (piece ∈ req ∨ ∀ c, c ∈ cap → eligible piece c = false) →
  scanned sc ceiling' (piece + 1) req cap out req' cap' →
  scanned sc ceiling piece req cap out req' cap'.
Proof.
  intros Hc Hor [Hr Hs Ho Hsp Hsl Hsh Hg]. split; try done.
  - intros id p Hin. destruct (Ho _ _ Hin) as (? & ? & ?). split_and!; [lia|lia|done|done].
  - intros p c Hp Hn Hin. destruct (decide (p = piece)) as [->|]; [|apply Hg; [lia|done|done]].
    destruct Hor as [Hreq|Hno]; [set_solver|].
    destruct (eligible piece c) eqn:He; [|done].
    apply list_elem_of_lookup in Hin as [i Hi].
    destruct (Forall2_lookup_r _ _ _ _ _ Hsh Hi) as (c0 & H0 & Hc0).
    rewrite <-(Hno c0); [|by eapply list_elem_of_lookup_2]. symmetry. by eapply shrinks_eligible.
Qed.

Lemma eligible_spec piece c : eligible piece c = true ↔
  0 < c_spare c ∧ 0 < c_slots c ∧ covers (c_peer c) piece = true.
Proof. unfold eligible. rewrite !andb_true_iff, !N.ltb_lt. tauto. Qed.

(** The scan terminates and keeps its promises. *)
Lemma scan_spec fuel sc ceiling piece req cap :
  ceiling ≤ sc → sc < u64_max → piece ≤ u64_max → (0 < fuel)%nat → sc + 1 < piece + N.of_nat fuel →
  ∃ out req' cap', scan fuel sc ceiling piece req cap = Some (out, req', cap') ∧
    scanned sc ceiling piece req cap out req' cap'.
Proof.
  revert ceiling piece req cap.
  induction fuel as [|fuel IH]; intros ceiling piece req cap Hc Hsc Hp Hpos Hf; [lia|].
  cbn [scan]. destruct (N.leb_spec piece ceiling) as [Hle|Hgt].
  2:{ eexists _, _, _. split; [done|]. split; simpl; try done; try set_solver.
      - constructor. - apply shrinks_refl. - intros. lia. }
  rewrite u64_add_small by lia.
  case_bool_decide as Hreq.
  { destruct (IH (N.min (saturating_add ceiling 1) sc) (piece + 1) req cap)
      as (out & req' & cap' & -> & Hs); [lia|done|lia|lia|lia|].
    eexists _, _, _. split; [done|]. eapply scanned_skip; [|by left|done].
    unfold saturating_add. lia. }
  destruct (best piece cap) as [i|] eqn:Eb.
  2:{ destruct (IH ceiling (piece + 1) req cap) as (out & req' & cap' & -> & Hs); [done|done|lia|lia|lia|].
      eexists _, _, _. split; [done|]. apply (scanned_skip sc ceiling ceiling); [lia| |done].
      right. by apply best_None. }
  apply best_Some in Eb as (c & Hi & He & _). rewrite Hi.
  pose proof He as (Hsp & Hsl & Hcov)%eligible_spec.
  destruct (IH ceiling (piece + 1) ({[piece]} ∪ req) (<[i := spend c]> cap))
    as (out & req' & cap' & -> & [Hr Hs Ho Hspare Hslots Hsh Hg]); [done|done|lia|lia|lia|].
  eexists _, _, _. split; [done|]. split; simpl.
  - rewrite Hr. set_solver.
  - constructor; [done|]. apply Forall_forall. intros p (o & -> & Hin)%list_elem_of_fmap.
    destruct o as [id p]. destruct (Ho _ _ Hin) as (? & _). simpl. lia.
  - intros id p [[= -> ->]|Hin]%elem_of_cons.
    { split_and!; [lia|lia|done|]. exists c. split_and!; [by eapply list_elem_of_lookup_2|done|done]. }
    destruct (Ho _ _ Hin) as (? & Hn & c' & Hc' & Hid & Hcv). split_and!; [lia|lia|set_solver|].
    apply list_elem_of_lookup in Hc' as [j Hj].
    destruct (Forall2_lookup_r _ _ _ _ _ (shrinks_spend _ _ _ Hi) Hj) as (c0 & H0 & (Hp0 & _)).
    exists c0. rewrite <-Hp0. split_and!; [by eapply list_elem_of_lookup_2|done|done].
  - intros id. rewrite given_cons. simpl. rewrite (budget_spend c_spare id cap i c Hi) by done.
    rewrite <-Hspare. lia.
  - intros id. rewrite given_cons. simpl. rewrite (budget_spend c_slots id cap i c Hi) by done.
    rewrite <-Hslots. lia.
  - eapply shrinks_trans; [by apply shrinks_spend|done].
  - intros p c' Hp' Hn Hin. destruct (decide (p = piece)) as [->|]; [set_solver|].
    apply Hg; [lia|done|done].
Qed.

(** The scan's horizon is no smaller than its first ceiling. *)
Lemma total_spare_le m cap a b : a ≤ b → b ≤ u64_max → Forall (λ c, c_spare c ≤ m) cap →
  fold_left (λ t c, u64_add t (c_spare c)) cap a ≤
  fold_left (λ t (_ : Cap), saturating_add t m) cap b.
Proof.
  intros Hab Hb Hall. revert a b Hab Hb.
  induction Hall as [|c cap Hc _ IH]; intros a b Hab Hb; simpl; [done|]. apply IH.
  - unfold u64_add, saturating_add.
    pose proof (N.Div0.mod_le (a + c_spare c) two64). pose proof (N.mod_lt (a + c_spare c) two64 ltac:(done)).
    lia.
  - unfold saturating_add. lia.
Qed.

Lemma capacities_spare s peers q : Forall (λ c, c_spare c ≤ max_in_flight s) (capacities s peers q).
Proof. apply Forall_map, Forall_true. intros p. simpl. unfold saturating_sub. lia. Qed.

Lemma assign_inner_spec s next_needed head peers q :
  head < u64_max → next_needed < two64 →
  let req := base.filter (λ p, next_needed ≤ p) (requested s) in
  let cap := capacities s peers q in
  ∃ out req' cap' ceiling, assign_inner s next_needed head peers q =
      Some (out, mkScheduler (max_in_flight s) req') ∧
    ceiling = N.min head (saturating_add next_needed (total_spare cap)) ∧
    scanned head ceiling next_needed req cap out req' cap'.
Proof.
  intros Hh Hn req cap. unfold assign_inner. fold req cap.
  set (slots := match q with Some _ => _ | None => _ end).
  set (sc := N.min head (saturating_add next_needed slots)).
  set (ceiling := N.min head (saturating_add next_needed (total_spare cap))).
  assert (total_spare cap ≤ slots) as Hts.
  { unfold slots. destruct q as [q|]; [|done]. unfold total_spare.
    apply total_spare_le; [done|done|]. apply capacities_spare. }
  assert (ceiling ≤ sc) by (unfold ceiling, sc, saturating_add; lia).
  destruct (scan_spec (S (S (N.to_nat slots))) sc ceiling next_needed req cap)
    as (out & req' & cap' & Hscan & Hs); [done|unfold sc; lia|lia|lia|unfold sc, saturating_add; lia|].
  cbv zeta. rewrite Hscan. cbn [mbind option_bind]. exists out, req', cap', ceiling. split_and!; [done|done|].
  destruct Hs as [? ? Ho ? ? ? ?]. split; try done.
  intros id p Hin. destruct (Ho _ _ Hin) as (? & ? & ?). split_and!; [lia|unfold sc in *; lia|done|done].
Qed.

(** ** Peers and scheduler together *)

Lemma budget_absent f id s l q : id ∉ l.*1 → budget f id (capacities s (map view l) q) = 0.
Proof.
  unfold capacities. induction l as [|[k p] l IH]; intros Hn; [done|]. simpl.
  destruct (unchoked p); simpl; [|apply IH; set_solver].
  destruct (N.eqb_spec k id) as [->|]; [set_solver|]. rewrite IH by set_solver. done.
Qed.

Lemma budget_present f id p s l q B : NoDup l.*1 → (id, p) ∈ l →
  (∀ spare, f (mkCap (view (id, p)) (saturating_sub (max_in_flight s) spare)
      (match q with Some slots => default 0 (slots !! id)
       | None => saturating_sub (max_in_flight s) spare end)) ≤ B spare) →
  budget f id (capacities s (map view l) q) ≤ B (N.of_nat (size (in_flight p))).
Proof.
  intros Hnd Hin HB. induction l as [|[k p'] l IH]; [set_solver|].
  simpl in Hnd. apply NoDup_cons in Hnd as [Hk Hnd].
  apply elem_of_cons in Hin as [[= <- <-]|Hin].
  - pose proof (budget_absent f id s l q Hk) as H0. unfold capacities in *. simpl.
    destruct (unchoked p); simpl; [|lia]. rewrite N.eqb_refl, H0.
    specialize (HB (N.of_nat (size (in_flight p)))). simpl in HB. lia.
  - assert (id ≠ k) by (intros ->; apply Hk, list_elem_of_fmap; by exists (k, p)).
    unfold capacities in *. simpl. destruct (unchoked p'); simpl; [|by apply IH].
    destruct (N.eqb_spec k id); [congruence|]. rewrite N.add_0_l. by apply IH.
Qed.

Definition pieces_for (id : N) (l : list (N * N)) : list N := (base.filter (λ o, o.1 = id) l).*2.

Lemma record_spec assigned ps s : (∀ id p, (id, p) ∈ assigned → is_Some (ps !! id)) →
  ∃ ps', record_assignments assigned ps s =
      (map (λ o, mkPeerAssignment o.1 o.2) assigned, ps', s) ∧
    ∀ id, ps' !! id = (λ p, set_in_flight (list_to_set (pieces_for id assigned) ∪ in_flight p) p) <$> ps !! id.
Proof.
  revert ps. induction assigned as [|[id piece] l IH]; intros ps Hall.
  { exists ps. split; [done|]. intros id. destruct (ps !! id) as [[]|] eqn:E; [|done]. simpl.
    unfold set_in_flight. simpl. do 2 f_equal. set_solver. }
  cbn [record_assignments]. destruct (Hall id piece) as [peer Hp]; [set_solver|]. rewrite Hp.
  destruct (IH (<[id := set_in_flight ({[piece]} ∪ in_flight peer) peer]> ps)) as (ps' & -> & Hps').
  { intros id' p' Hin. destruct (decide (id' = id)) as [->|];
      [rewrite lookup_insert_eq; by eexists|]. rewrite lookup_insert_ne by done. apply (Hall id' p').
    set_solver. }
  exists ps'. split; [done|]. intros id'. rewrite Hps'. unfold pieces_for. rewrite filter_cons. simpl.
  destruct (decide (id = id')) as [<-|Hne].
  - rewrite lookup_insert_eq, Hp. simpl. unfold set_in_flight. simpl. do 2 f_equal. set_solver.
  - by rewrite lookup_insert_ne.
Qed.

Lemma size_pieces_for id l : N.of_nat (size (list_to_set (pieces_for id l) : gset N)) ≤ given id l.
Proof.
  unfold given, pieces_for, lenN. rewrite <-(length_fmap snd (base.filter _ l)).
  pose proof (size_list_to_set_le ((base.filter (λ o : N * N, o.1 = id) l).*2)). lia.
Qed.

(** Every peer stays within its request budget. *)
Definition Bounded (ps : ActivePeers) (s : Scheduler) : Prop :=
  ∀ id p, ps !! id = Some p → N.of_nat (size (in_flight p)) ≤ max_in_flight s.

(** One assignment turn over the active peers. *)
Lemma peers_assign_spec ps s next_needed head q :
  Bounded ps s → head < u64_max → next_needed < two64 →
  ∃ assigned ps' s', peers_assign_inner ps s next_needed head q =
      Some (map (λ o, mkPeerAssignment o.1 o.2) assigned, ps', s') ∧
    max_in_flight s' = max_in_flight s ∧ Bounded ps' s' ∧
    requested s' = base.filter (λ p, next_needed ≤ p) (requested s) ∪ list_to_set assigned.*2 ∧
    StronglySorted N.lt assigned.*2 ∧
    (∀ id p, (id, p) ∈ assigned →
      next_needed ≤ p ≤ head ∧ p ∉ requested s ∧
      ∃ peer, ps !! id = Some peer ∧ unchoked peer = true ∧
        min_piece peer ≤ p ≤ max_piece peer) ∧
    (∀ id peer, ps !! id = Some peer →
      given id assigned + N.of_nat (size (in_flight peer)) ≤ max_in_flight s ∧
      (∀ slots, q = Some slots → given id assigned ≤ default 0 (slots !! id))) ∧
    (∀ id, ps' !! id = (λ p, set_in_flight (list_to_set (pieces_for id assigned) ∪ in_flight p) p)
      <$> ps !! id).
Proof.
  intros HB Hh Hn. unfold peers_assign_inner.
  assert (match q with
    | Some slots => assign_with_queue_slots s next_needed head (map view (entries ps)) slots
    | None => assign s next_needed head (map view (entries ps))
    end = assign_inner s next_needed head (map view (entries ps)) q) as -> by by destruct q.
  destruct (assign_inner_spec s next_needed head (map view (entries ps)) q Hh Hn)
    as (out & req' & cap' & ceiling & -> & _ & [Hr Hs Ho Hsp Hsl _ _]).
  cbn [mbind option_bind].
  assert (∀ id p, (id, p) ∈ out → next_needed ≤ p ≤ head ∧ p ∉ requested s ∧
    ∃ peer, ps !! id = Some peer ∧ unchoked peer = true ∧ min_piece peer ≤ p ≤ max_piece peer) as Hout.
  { intros id p Hin. destruct (Ho _ _ Hin) as (Hp & Hreq & c & Hc & Hid & Hcov).
    split_and!; [lia|lia|intros Hr'; apply Hreq, elem_of_filter; split; [lia|done]|].
    unfold capacities in Hc. apply list_elem_of_fmap in Hc as (v & -> & Hv).
    apply list_elem_of_In, filter_In in Hv as [Hv Hun]. apply list_elem_of_In in Hv.
    apply list_elem_of_fmap in Hv as ([k peer] & -> & Hk). apply elem_of_entries in Hk.
    simpl in *. subst k. exists peer. split_and!; [done|done| |];
      unfold covers in Hcov; simpl in Hcov; apply andb_true_iff in Hcov as [?%N.leb_le ?%N.leb_le]; done. }
  destruct (record_spec out ps (mkScheduler (max_in_flight s) req')) as (ps' & -> & Hps').
  { intros id p Hin. destruct (Hout _ _ Hin) as (_ & _ & peer & ? & _). by eexists. }
  assert (∀ id peer, ps !! id = Some peer →
      given id out + N.of_nat (size (in_flight peer)) ≤ max_in_flight s ∧
      (∀ slots, q = Some slots → given id out ≤ default 0 (slots !! id))) as Hgiven.
  { intros id peer Hp. pose proof (HB _ _ Hp). specialize (Hsp id). specialize (Hsl id). split.
    - pose proof (budget_present c_spare id peer s (entries ps) q (λ x, max_in_flight s - x)
        (NoDup_entries_keys ps) (proj2 (elem_of_entries _ _ _) Hp)) as Hb.
      simpl in Hb. unfold saturating_sub in Hb. specialize (Hb ltac:(intros; lia)). lia.
    - intros slots ->.
      pose proof (budget_present c_slots id peer s (entries ps) (Some slots) (λ _, default 0 (slots !! id))
        (NoDup_entries_keys ps) (proj2 (elem_of_entries _ _ _) Hp)) as Hb.
      simpl in Hb. specialize (Hb ltac:(intros; lia)). lia. }
  eexists out, ps', _. split; [done|]. simpl. split_and!; try done.
  intros id p'. rewrite Hps'. rewrite fmap_Some. intros (p & Hp & ->). simpl.
  destruct (Hgiven _ _ Hp) as [? _].
  pose proof (size_union_le (list_to_set (pieces_for id out)) (in_flight p)).
  pose proof (size_pieces_for id out). lia.
Qed.

(** The operations of a live session on its peers and scheduler. *)
Inductive step : ActivePeers * Scheduler → ActivePeers * Scheduler → Prop :=
  | step_insert ps s id w : step (ps, s) (insert_peer ps id w, s)
  | step_unchoked ps s id u : step (ps, s) (set_unchoked ps id u, s)
  | step_window ps s id lo hi : step (ps, s) (update_window ps id lo hi, s)
  | step_observe ps s id b : step (ps, s) (observe_window ps id b, s)
  | step_assign ps s next_needed head q out ps' s' :
      head < u64_max → next_needed < two64 →
      peers_assign_inner ps s next_needed head q = Some (out, ps', s') →
      step (ps, s) (ps', s')
  | step_cancel ps s id piece : step (ps, s) (cancel_assignment ps id piece, s)
  | step_remove ps s id : step (ps, s) ((remove ps id).2, s)
  | step_complete ps s piece : step (ps, s) (complete_everywhere ps piece, s)
  | step_prune ps s floor : step (ps, s) (prune_below ps floor, s)
  | step_on_complete ps s piece : step (ps, s) (ps, on_complete s piece)
  | step_on_drop ps s piece : step (ps, s) (ps, on_drop s piece)
  | step_clear ps s : step (ps, s) (ps, clear_in_flight s).

Lemma alter_bounded ps s id f : Bounded ps s →
  (∀ p, (size (in_flight (f p)) ≤ size (in_flight p))%nat) → Bounded (alter f id ps) s.
Proof.
  intros HB Hf i p [(<- & q & Hq & ->)|[_ Hi]]%lookup_alter_Some; [|by eapply HB].
  specialize (Hf q). apply HB in Hq. lia.
Qed.

Lemma fmap_bounded ps s f : Bounded ps s →
  (∀ p, (size (in_flight (f p)) ≤ size (in_flight p))%nat) → Bounded (f <$> ps) s.
Proof.
  intros HB Hf i p. rewrite lookup_fmap, fmap_Some. intros (q & Hq & ->).
  specialize (Hf q). apply HB in Hq. lia.
Qed.

Lemma step_bounded x y : step x y → Bounded x.1 x.2 → Bounded y.1 y.2.
Proof.
  destruct 1; simpl; intros HB; try done.
  - unfold insert_peer. intros i p [[<- <-]|[_ Hi]]%lookup_insert_Some; [apply N.le_0_l|by eapply HB].
  - by apply alter_bounded.
  - by apply alter_bounded.
  - by apply alter_bounded.
  - destruct (peers_assign_spec ps s next_needed head q HB) as (a & ps1 & s1 & E & _ & ? & _);
      [done|done|]. by assert (ps1 = ps' ∧ s1 = s') as [<- <-] by (split; congruence).
  - apply alter_bounded; [done|]. intros p. simpl. apply subseteq_size. set_solver.
  - intros i p [_ Hi]%lookup_delete_Some. by eapply HB.
  - apply fmap_bounded; [done|]. intros p. simpl. apply subseteq_size. set_solver.
  - apply fmap_bounded; [done|]. intros p. simpl. apply subseteq_size. set_solver.
Qed.

(** ** Theorems *)

(** C34: the scheduler's decision is sound and greedy.  For any peers and any reservation state
    the scan ends; it issues strictly increasing pieces of [next_needed .. head], none of them
    already requested, each to an unchoked peer whose window covers it; the reservations
    become the still relevant old ones and the new ones; and it leaves no work undone: a piece
    of the first horizon that is not reserved afterwards is covered by no peer with policy and
    queue capacity left. *)
Theorem assign_sound_and_greedy s next_needed head peers q :
  head < u64_max → next_needed < two64 →
  let cap := capacities s peers q in
  ∃ out s' cap', assign_inner s next_needed head peers q = Some (out, s') ∧
    StronglySorted N.lt out.*2 ∧
    requested s' = base.filter (λ p, next_needed ≤ p) (requested s) ∪ list_to_set out.*2 ∧
    (∀ id p, (id, p) ∈ out → next_needed ≤ p ≤ head ∧ p ∉ requested s ∧
      ∃ v, v ∈ peers ∧ pv_id v = id ∧ pv_unchoked v = true ∧ covers v p = true) ∧
    Forall2 shrinks cap cap' ∧
    (∀ id, given id out + budget c_spare id cap' = budget c_spare id cap ∧
           given id out + budget c_slots id cap' = budget c_slots id cap) ∧
    (∀ p c, next_needed ≤ p ≤ N.min head (saturating_add next_needed (total_spare cap)) →
      p ∉ requested s' → c ∈ cap' → eligible p c = false).
Proof.
  intros Hh Hn cap.
  destruct (assign_inner_spec s next_needed head peers q Hh Hn)
    as (out & req' & cap' & ceiling & E & -> & [Hr Hs Ho Hsp Hsl Hsh Hg]).
  eexists out, _, cap'. split; [done|]. split_and!; try done.
  intros id p Hin. destruct (Ho _ _ Hin) as (Hp & Hreq & c & Hc & Hid & Hcov).
  split_and!; [lia|lia|intros Hr'; apply Hreq, elem_of_filter; split; [lia|done]|].
  unfold capacities in Hc. apply list_elem_of_fmap in Hc as (v & -> & Hv).
  apply list_elem_of_In, filter_In in Hv as [Hv Hun]. apply list_elem_of_In in Hv. by exists v.
Qed.

Lemma assign_sound_and_greedy_witness :
  let peers := [mkPeerView 1 0 100 true 0; mkPeerView 2 11 100 true 1] in
  ∃ out s' cap', assign_inner (new 2) 10 20 peers None = Some (out, s') ∧
    Forall2 shrinks (capacities (new 2) peers None) cap'.
Proof.
  intros peers.
  destruct (assign_sound_and_greedy (new 2) 10 20 peers None)
    as (out & s' & cap' & E & _ & _ & _ & Hf & _); [done|done|].
  exists out, s', cap'. split; [exact E|exact Hf].
Defined.

(** no peer is ever over-committed.  However the session interleaves joins, choke and
    window changes, assignments (with or without queue slots), cancellations, completions,
    prunes and departures, every peer's set of outstanding pieces stays within the per-peer
    cap; and an assignment turn gives a peer no more than its free policy slots and its queue
    slots, only pieces it covers while unchoked, each recorded against that peer. *)
Theorem peers_never_overcommitted m ps s next_needed head q :
  rtc step (∅, new m) (ps, s) → head < u64_max → next_needed < two64 →
  (∀ id p, ps !! id = Some p → N.of_nat (size (in_flight p)) ≤ N.max m 1) ∧
  ∃ assigned ps' s', peers_assign_inner ps s next_needed head q =
      Some (map (λ o, mkPeerAssignment o.1 o.2) assigned, ps', s') ∧
    (∀ id p, (id, p) ∈ assigned → ∃ peer, ps !! id = Some peer ∧ unchoked peer = true ∧
      min_piece peer ≤ p ≤ max_piece peer) ∧
    (∀ id peer, ps !! id = Some peer →
      given id assigned + N.of_nat (size (in_flight peer)) ≤ N.max m 1 ∧
      (∀ slots, q = Some slots → given id assigned ≤ default 0 (slots !! id)) ∧
      ps' !! id = Some (set_in_flight (list_to_set (pieces_for id assigned) ∪ in_flight peer) peer)).
Proof.
  intros Hr Hh Hn.
  assert (∀ x y, rtc step x y → Bounded x.1 x.2 → Bounded y.1 y.2 ∧
    max_in_flight y.2 = max_in_flight x.2) as Hall.
  { induction 1 as [|x y z Hxy _ IH]; [done|]. intros HB. pose proof (step_bounded _ _ Hxy HB) as HB'.
    destruct (IH HB') as [? E]. split; [done|]. rewrite E. clear -Hxy HB. destruct Hxy; try done.
    destruct (peers_assign_spec ps s next_needed head q HB) as (a & ps1 & s1 & E & Em & _); [done|done|].
    simpl. congruence. }
  destruct (Hall _ _ Hr) as [HB Hm]; [by intros id p ?|]. simpl in *.
  split; [by rewrite <-Hm|].
  destruct (peers_assign_spec ps s next_needed head q HB Hh Hn)
    as (assigned & ps' & s' & E & _ & _ & _ & _ & Hout & Hgiven & Hps').
  exists assigned, ps', s'. split_and!; [done| |].
  - intros id p Hin. by destruct (Hout _ _ Hin) as (_ & _ & ?).
  - intros id peer Hp. destruct (Hgiven _ _ Hp) as [? ?]. rewrite Hm in *. split_and!; try done.
    by rewrite Hps', Hp.
Qed.

Lemma peers_never_overcommitted_witness :
  let w := mkLivePosition 5 30 20 0 in
  let ps := set_unchoked (insert_peer ∅ 1 w) 1 true in
  ∃ assigned ps' s', peers_assign_inner ps (new 3) 10 20 None =
      Some (map (λ o, mkPeerAssignment o.1 o.2) assigned, ps', s').
Proof.
  intros w ps. destruct (peers_never_overcommitted 3 ps (new 3) 10 20 None)
    as (_ & a & ps' & s' & E & _).
  - apply rtc_l with (insert_peer ∅ 1 w, new 3); [apply step_insert|].
    apply rtc_once, step_unchoked.
  - done.
  - done.
  - exists a, ps', s'. exact E.
Defined.
