(* ===== verification/Store.v ===== *)
(** * The piece store

    [ace-swarm/src/store.rs], memory backend: the bounded rolling store of chunks that the
    seeder serves from, with eviction by bytes and by age.  An [Instant] is a count of
    nanoseconds, a [Duration] a difference of two; the asynchronous entry points are their
    bodies under the store's lock.  The disk backend is not modelled. *)

From S2P Require Import Prelude Bytes BTree.

Local Open Scope N_scope.

Definition MAX_BT_REQUEST_LEN : N := 16 * 1024.

Inductive CompletePut : Type := Published | AlreadyPresent | NotRetained.

Definition zero_header : bytes := replicate 8 x00.

(** ** The memory backend *)

Record MemoryBackend : Type := mkMemory {
  pieces : gmap N (gmap N bytes);
  headers : gmap N bytes;
}.

Record Stored : Type := mkStored { added : N; removed : N }.

Definition piece_bytes (c : gmap N bytes) : N := sum_values lenN c.

Definition backend_put (m : MemoryBackend) (piece chunk : N) (header data : bytes)
    : Stored * MemoryBackend :=
  let h := match headers m !! piece with
    | Some stored =>
        if bool_decide (stored = zero_header) && negb (bool_decide (header = zero_header))
        then header else stored
    | None => header
    end in
  let entry := default ∅ (pieces m !! piece) in
  let removed := from_option lenN 0 (entry !! chunk) in
  (mkStored (lenN data) removed,
   mkMemory (<[piece := <[chunk := data]> entry]> (pieces m)) (<[piece := h]> (headers m))).

Definition backend_get (m : MemoryBackend) (piece chunk : N) : option bytes :=
  pieces m !! piece ≫= λ c, c !! chunk.

Definition backend_header (m : MemoryBackend) (piece : N) : option bytes := headers m !! piece.

Definition backend_has_piece (m : MemoryBackend) (piece chunks_per_piece : N) : bool :=
  match pieces m !! piece with
  | Some c => N.of_nat (size c) `mod` two16 =? chunks_per_piece
  | None => false
  end.

Definition backend_have_pieces (m : MemoryBackend) (chunks_per_piece : N) : list N :=
  List.filter (λ p, backend_has_piece m p chunks_per_piece) (ascending (dom (pieces m))).

Definition backend_window (m : MemoryBackend) : option (N * N) :=
  lo ← first_key (pieces m); hi ← last_key (pieces m); Some (lo, hi).

Definition backend_evict_lowest (m : MemoryBackend) : option (N * MemoryBackend) :=
  lowest ← first_key (pieces m);
  Some (from_option piece_bytes 0 (pieces m !! lowest),
        mkMemory (delete lowest (pieces m)) (delete lowest (headers m))).

(** ** The store *)

Record PieceStore : Type := mkStore {
  piece_length : N;
  chunk_length : N;
  max_bytes : N;
  cur_bytes : N;
  backend : MemoryBackend;
  retention : option N;
  first_seen : gmap N N;
  newest_seen : option N;
}.

Definition new (piece_length chunk_length max_bytes : N) : PieceStore :=
  mkStore piece_length chunk_length max_bytes 0 (mkMemory ∅ ∅) None ∅ None.

Definition with_retention (st : PieceStore) (r : N) : PieceStore :=
  mkStore (piece_length st) (chunk_length st) (max_bytes st) (cur_bytes st) (backend st)
    (if r =? 0 then None else Some r) (first_seen st) (newest_seen st).

Definition chunks_per_piece (st : PieceStore) : N :=
  (piece_length st `div` chunk_length st) `mod` two16.

(** [first_seen.pop_first()]. *)
Definition pop_first (m : gmap N N) : gmap N N :=
  match first_key m with Some k => delete k m | None => m end.

Definition evict_lowest_tracked (st : PieceStore) : option (N * PieceStore) :=
  '(freed, m) ← backend_evict_lowest (backend st);
  Some (freed, mkStore (piece_length st) (chunk_length st) (max_bytes st) (cur_bytes st) m
                 (retention st) (pop_first (first_seen st)) (newest_seen st)).

Definition set_cur (n : N) (st : PieceStore) : PieceStore :=
  mkStore (piece_length st) (chunk_length st) (max_bytes st) n (backend st) (retention st)
    (first_seen st) (newest_seen st).

(** [while self.cur_bytes > self.max_bytes]; every turn removes a piece. *)
Fixpoint evict_over_budget (fuel : nat) (st : PieceStore) : PieceStore :=
  match fuel with
  | 0%nat => st
  | S fuel =>
      if max_bytes st <? cur_bytes st then
        match evict_lowest_tracked st with
        | Some (freed, st) => evict_over_budget fuel (set_cur (u64_sub (cur_bytes st) freed) st)
        | None => st
        end
      else st
  end.

(** The age eviction against the newest insertion. *)
Fixpoint evict_aged (fuel : nat) (age newest : N) (st : PieceStore) : PieceStore :=
  match fuel with
  | 0%nat => st
  | S fuel =>
      match first_key (first_seen st) ≫= λ k, first_seen st !! k with
      | Some seen =>
          if saturating_sub newest seen <? age then st
          else
            match evict_lowest_tracked st with
            | Some (freed, st) =>
                evict_aged fuel age newest (set_cur (u64_sub (cur_bytes st) freed) st)
            | None => st
            end
      | None => st
      end
  end.

Definition evict (st : PieceStore) : PieceStore :=
  let fuel := S (size (pieces (backend st))) in
  let st := evict_over_budget fuel st in
  match retention st, newest_seen st with
  | Some age, Some newest => evict_aged fuel age newest st
  | _, _ => st
  end.

(** Records the insertion instant of a piece on a store with an age bound. *)
Definition mark_seen (now piece : N) (st : PieceStore) : PieceStore :=
  match retention st with
  | None => st
  | Some _ =>
      mkStore (piece_length st) (chunk_length st) (max_bytes st) (cur_bytes st) (backend st)
        (retention st)
        (match first_seen st !! piece with
         | Some _ => first_seen st
         | None => <[piece := now]> (first_seen st)
         end)
        (Some (match newest_seen st with Some m => N.max m now | None => now end))
  end.

Definition put_chunk_with_header_at (st : PieceStore) (now piece chunk : N) (header data : bytes)
    : PieceStore :=
  if max_bytes st =? 0 then st
  else if piece_length st `div` chunk_length st <=? chunk then st
  else
    let '(stored, m) := backend_put (backend st) piece chunk header data in
    let st := mkStore (piece_length st) (chunk_length st) (max_bytes st) (cur_bytes st) m
      (retention st) (first_seen st) (newest_seen st) in
    let st := mark_seen now piece st in
    let st := set_cur (u64_add (u64_sub (cur_bytes st) (removed stored)) (added stored)) st in
    evict st.

Definition put_chunk (st : PieceStore) (now piece chunk : N) (data : bytes) : PieceStore :=
  put_chunk_with_header_at st now piece chunk zero_header data.

Definition piece_header (st : PieceStore) (piece : N) : option bytes := backend_header (backend st) piece.
Definition chunk (st : PieceStore) (piece chunk : N) : option bytes := backend_get (backend st) piece chunk.
Definition has_piece (st : PieceStore) (piece : N) : bool :=
  backend_has_piece (backend st) piece (chunks_per_piece st).
Definition have_pieces (st : PieceStore) : list N :=
  backend_have_pieces (backend st) (chunks_per_piece st).
Definition window (st : PieceStore) : option (N * N) := backend_window (backend st).

(** ** Whole-piece publication *)

(** [wire.chunks_exact(chunk).enumerate()] collected by chunk index. *)
Definition chunk_map (wire : bytes) (cl : N) : gmap N bytes :=
  list_to_map (imap (λ i b, (N.of_nat i `mod` two16, b)) (chunks_exact (N.to_nat cl) wire)).

Definition put_complete_memory (st : PieceStore) (now piece : N) (header wire : bytes)
    : CompletePut * PieceStore :=
  let chunks := (piece_length st `div` chunk_length st) `mod` two16 in
  if backend_has_piece (backend st) piece chunks then (AlreadyPresent, st)
  else
    let removed := from_option piece_bytes 0 (pieces (backend st) !! piece) in
    let m := mkMemory (<[piece := chunk_map wire (chunk_length st)]> (pieces (backend st)))
      (<[piece := header]> (headers (backend st))) in
    let st := mkStore (piece_length st) (chunk_length st) (max_bytes st)
      (u64_add (u64_sub (cur_bytes st) removed) (piece_length st)) m
      (retention st) (first_seen st) (newest_seen st) in
    let st := evict (mark_seen now piece st) in
    (if has_piece st piece then Published else NotRetained, st).

Inductive IoError : Type := InvalidInput.

(** An admission holds the store's lock; the guard is the store that is passed on. *)
Inductive CompleteAdmission : Type :=
  | Immediate (res : CompletePut) (wire_len : N)
  | Memory (piece wire_len : N).

Definition begin_complete_admission (st : PieceStore) (piece wire_len : N)
    : result IoError CompleteAdmission :=
  let length := piece_length st in
  let chunk := chunk_length st in
  if (length =? 0) || (chunk =? 0) || negb (length `mod` chunk =? 0)
     || (65535 <? length `div` chunk) || negb (length =? wire_len) || (two32 <=? chunk)
  then Err InvalidInput
  else if max_bytes st <? length then Ok (Immediate NotRetained wire_len)
  else Ok (Memory piece wire_len).

Definition submit (a : CompleteAdmission) (st : PieceStore) (now : N) (header wire : bytes)
    : result IoError CompletePut * PieceStore :=
  match a with
  | Immediate res wire_len =>
      if negb (lenN wire =? wire_len) then (Err InvalidInput, st) else (Ok res, st)
  | Memory piece wire_len =>
      if negb (lenN wire =? wire_len) then (Err InvalidInput, st)
      else let '(r, st) := put_complete_memory st now piece header wire in (Ok r, st)
  end.

Definition shared_put_complete_piece (st : PieceStore) (now piece : N) (header wire : bytes)
    : result IoError CompletePut * PieceStore :=
  match begin_complete_admission st piece (lenN wire) with
  | Err e => (Err e, st)
  | Ok admission => submit admission st now header wire
  end.

(** ** Serving *)

Definition shared_serving_chunk (st : PieceStore) (piece chunk : N) : option (bytes * bytes) :=
  d ← pieces (backend st) !! piece ≫= λ c, c !! chunk;
  Some (d, default zero_header (piece_header st piece)).

(** Over the memory backend the reciprocal read is the same read: only a disk read holds a permit. *)
Definition shared_reciprocal_chunk (st : PieceStore) (piece chunk : N) : option (bytes * bytes) :=
  d ← pieces (backend st) !! piece ≫= λ c, c !! chunk;
  Some (d, default zero_header (piece_header st piece)).

(** [for chunk in first..last]. *)
Fixpoint read_chunks (st : PieceStore) (piece : N) (chunks : list N) : option bytes :=
  match chunks with
  | [] => Some []
  | c :: chunks =>
      if c <? two16 then
        '(d, _) ← shared_serving_chunk st piece c;
        rest ← read_chunks st piece chunks;
        Some (d ++ rest)
      else None
  end.

Definition shared_block (st : PieceStore) (piece begin length : N) : option bytes :=
  if (length =? 0) || (MAX_BT_REQUEST_LEN <? length) then None
  else
    e ← checked_add begin length;
    if piece_length st <? e then None
    else
      let first := begin `div` chunk_length st in
      let last := div_ceil e (chunk_length st) in
      b ← read_chunks st piece (range first (last - first));
      let offset := begin `mod` chunk_length st in
      requested_end ← checked_add offset length;
      slice_get b (N.to_nat offset) (N.to_nat requested_end).

Definition shared_put_chunk_with_header (st : PieceStore) (now piece chunk : N)
    (header data : bytes) : PieceStore :=
  if (max_bytes st =? 0) || (piece_length st `div` chunk_length st <=? chunk) then st
  else put_chunk_with_header_at st now piece chunk header data.

Example store_example :
  let st := put_chunk (put_chunk (put_chunk (new 8 4 12) 0 5 0 (bs "aaaa")) 0 5 1 (bs "bbbb"))
    0 6 0 (bs "cccc") in
  (have_pieces st, window st, shared_block st 5 2 4, window (put_chunk st 0 6 1 (bs "dddd"))) =
  ([5], Some (5, 6), Some (bs "aabb"), Some (6, 6)).
Proof. vm_compute. reflexivity. Qed.

(** ** Eviction *)

Definition total (st : PieceStore) : N := sum_values piece_bytes (pieces (backend st)).

(** The age index and the headers follow the pieces, and the byte count is exact. *)
Record Lockstep (st : PieceStore) : Prop := {
  ls_headers : dom (headers (backend st)) = dom (pieces (backend st));
  ls_seen : match retention st with
    | None => first_seen st = ∅
    | Some _ => dom (first_seen st) = dom (pieces (backend st))
    end;
  ls_cur : cur_bytes st = total st;
  ls_small : total st < two64;
}.

(** [st'] is [st] with the pieces below [cut] removed. *)
Record Trimmed (cut : N) (st st' : PieceStore) : Prop := {
  tr_pieces : pieces (backend st') = from_key cut (pieces (backend st));
  tr_headers : headers (backend st') = from_key cut (headers (backend st));
  tr_seen : first_seen st' = from_key cut (first_seen st);
  tr_config : piece_length st' = piece_length st ∧ chunk_length st' = chunk_length st ∧
    max_bytes st' = max_bytes st ∧ retention st' = retention st ∧ newest_seen st' = newest_seen st;
}.

Lemma from_key_zero {A} (m : gmap N A) : from_key 0 m = m.
Proof. apply from_key_all. intros. lia. Qed.

Lemma trimmed_refl st : Trimmed 0 st st.
Proof. by split; rewrite ?from_key_zero. Qed.

Lemma trimmed_trans a b st1 st2 st3 :
  Trimmed a st1 st2 → Trimmed b st2 st3 → Trimmed (N.max b a) st1 st3.
Proof.
  intros [P1 Q1 F1 (? & ? & ? & ? & ?)] [P2 Q2 F2 (? & ? & ? & ? & ?)].
  split; [by rewrite P2, P1, from_key_twice|by rewrite Q2, Q1, from_key_twice
    |by rewrite F2, F1, from_key_twice|]. split_and!; congruence.
Qed.

Lemma first_key_dom {A B} (m1 : gmap N A) (m2 : gmap N B) :
  dom m1 = dom m2 → first_key m1 = first_key m2.
Proof. unfold first_key. by intros ->. Qed.

Lemma delete_low {A B} (m1 : gmap N A) (m2 : gmap N B) k : dom m1 = dom m2 →
  (∀ k', is_Some (m2 !! k') → k ≤ k') → delete k m1 = from_key (k + 1) m1.
Proof.
  intros Hd Hk. apply delete_first_key. intros k' Hs. apply Hk.
  apply elem_of_dom. rewrite <-Hd. by apply elem_of_dom.
Qed.

(** One eviction: the lowest piece goes, with its header and its age entry. *)
Lemma evict_lowest_tracked_spec st : Lockstep st →
  (pieces (backend st) = ∅ ∧ evict_lowest_tracked st = None) ∨
  ∃ k c st1, pieces (backend st) !! k = Some c ∧
    (∀ k', is_Some (pieces (backend st) !! k') → k ≤ k') ∧
    evict_lowest_tracked st = Some (piece_bytes c, st1) ∧
    Trimmed (k + 1) st (set_cur (u64_sub (cur_bytes st1) (piece_bytes c)) st1) ∧
    Lockstep (set_cur (u64_sub (cur_bytes st1) (piece_bytes c)) st1).
Proof.
  intros [Hh Hs Hc Hsm]. unfold evict_lowest_tracked, backend_evict_lowest.
  destruct (first_key (pieces (backend st))) as [k|] eqn:Ek.
  2:{ left. split; [by apply first_key_None|done]. }
  right. pose proof Ek as [[c Hk] Hlow]%first_key_Some. cbn [mbind option_bind]. rewrite Hk. simpl.
  eexists k, c, _. split_and!; [done|done|done| |].
  - split; simpl; [by apply delete_first_key|by apply (delete_low _ (pieces (backend st)))| |done].
    unfold pop_first. destruct (retention st).
    + rewrite (first_key_dom _ _ Hs), Ek. by apply (delete_low _ (pieces (backend st))).
    + rewrite Hs. simpl. done.
  - unfold total in *. rewrite (sum_values_delete piece_bytes _ _ _ Hk) in Hc, Hsm.
    split; unfold total; simpl.
    + rewrite !dom_delete_L. by rewrite Hh.
    + unfold pop_first. destruct (retention st).
      * rewrite (first_key_dom _ _ Hs), Ek. rewrite !dom_delete_L. by rewrite Hs.
      * by rewrite Hs.
    + rewrite Hc, u64_sub_small by lia. lia.
    + lia.
Qed.

(** Why a piece was given up for bytes: what is stored from it on exceeds the budget. *)
Definition over_budget (st : PieceStore) (p : N) : Prop :=
  max_bytes st < sum_values piece_bytes (from_key p (pieces (backend st))).

Lemma evict_over_budget_spec fuel st : Lockstep st → (size (pieces (backend st)) < fuel)%nat →
  ∃ cut, Trimmed cut st (evict_over_budget fuel st) ∧ Lockstep (evict_over_budget fuel st) ∧
    cur_bytes (evict_over_budget fuel st) ≤ max_bytes st ∧
    ∀ p, is_Some (pieces (backend st) !! p) → p < cut → over_budget st p.
Proof.
  revert st. induction fuel as [|fuel IH]; intros st HL Hf; [lia|]. cbn [evict_over_budget].
  destruct (N.ltb_spec (max_bytes st) (cur_bytes st)) as [Hover|Hok].
  2:{ exists 0. split_and!; [apply trimmed_refl|done|done|]. intros. lia. }
  destruct (evict_lowest_tracked_spec st HL) as [[Hemp ->]|(k & c & st1 & Hk & Hlow & -> & HT & HL1)].
  { exfalso. rewrite (ls_cur _ HL) in Hover. unfold total in Hover.
    rewrite Hemp, sum_values_empty in Hover. lia. }
  destruct (IH _ HL1) as (cut & HT2 & HL2 & Hcur & Hwhy).
  { rewrite (tr_pieces _ _ _ HT), <-(delete_first_key _ _ Hlow).
    pose proof (map_size_delete_lt _ _ (mk_is_Some _ _ Hk)). lia. }
  exists (N.max cut (k + 1)). destruct (tr_config _ _ _ HT) as (_ & _ & Hmax & _ & _).
  split_and!; [by eapply trimmed_trans|done|by rewrite <-Hmax|].
  intros p Hp Hlt. pose proof (Hlow _ Hp) as Hkp. unfold over_budget.
  destruct (decide (p = k)) as [->|Hne].
  - rewrite (from_key_all _ _ Hlow). rewrite (ls_cur _ HL) in Hover. exact Hover.
  - specialize (Hwhy p). rewrite (tr_pieces _ _ _ HT), lookup_from_key, decide_True in Hwhy by lia.
    specialize (Hwhy Hp ltac:(lia)). unfold over_budget in Hwhy.
    rewrite Hmax, (tr_pieces _ _ _ HT), from_key_twice in Hwhy.
    by replace (N.max p (k + 1)) with p in Hwhy by lia.
Qed.

(** Why a piece was given up for age. *)
Definition aged (st : PieceStore) (p : N) : Prop :=
  ∃ age newest seen, retention st = Some age ∧ newest_seen st = Some newest ∧
    first_seen st !! p = Some seen ∧ age ≤ newest - seen.

Lemma evict_aged_spec fuel age newest st : Lockstep st → retention st = Some age →
  newest_seen st = Some newest → (size (pieces (backend st)) < fuel)%nat →
  ∃ cut, Trimmed cut st (evict_aged fuel age newest st) ∧ Lockstep (evict_aged fuel age newest st) ∧
    cur_bytes (evict_aged fuel age newest st) ≤ cur_bytes st ∧
    (∀ p, is_Some (pieces (backend st) !! p) → p < cut → aged st p) ∧
    (∀ k, first_key (first_seen (evict_aged fuel age newest st)) = Some k →
       ¬ aged (evict_aged fuel age newest st) k).
Proof.
  revert st. induction fuel as [|fuel IH]; intros st HL Hr Hn Hf; [lia|]. cbn [evict_aged].
  destruct (first_key (first_seen st)) as [k|] eqn:Ek.
  2:{ exists 0. cbn [mbind option_bind]. split_and!; [apply trimmed_refl|done|lia|intros; lia|].
      intros k. by rewrite Ek. }
  pose proof Ek as [[seen Hseen] _]%first_key_Some. cbn [mbind option_bind]. rewrite Hseen.
  destruct (N.ltb_spec (saturating_sub newest seen) age) as [Hyoung|Hold].
  { exists 0. split_and!; [apply trimmed_refl|done|lia|intros; lia|].
    intros k' E (a & n & s & Ha & Hn' & Hs & Hle). rewrite Ek in E. unfold saturating_sub in *.
    simplify_eq. lia. }
  pose proof (ls_seen _ HL) as Hdom. rewrite Hr in Hdom.
  rewrite (first_key_dom _ _ Hdom) in Ek.
  destruct (evict_lowest_tracked_spec st HL) as [[Hemp _]|(k' & c & st1 & Hk & Hlow & -> & HT & HL1)].
  { exfalso. rewrite Hemp in Ek. rewrite (proj2 (first_key_None ∅)) in Ek; done. }
  assert (k' = k) as ->.
  { apply first_key_Some in Ek as [Hs1 Hl1]. specialize (Hlow _ Hs1). specialize (Hl1 k' ltac:(eauto)). lia. }
  destruct (tr_config _ _ _ HT) as (_ & _ & Hmax & Hr' & Hn').
  destruct (IH _ HL1) as (cut & HT2 & HL2 & Hcur & Hwhy & Hend); [congruence|congruence| |].
  { rewrite (tr_pieces _ _ _ HT), <-(delete_first_key _ _ Hlow).
    pose proof (map_size_delete_lt _ _ (mk_is_Some _ _ Hk)). lia. }
  exists (N.max cut (k + 1)). split_and!; [by eapply trimmed_trans|done| | |done].
  - rewrite (ls_cur _ HL1) in Hcur. rewrite (ls_cur _ HL). unfold total in *.
    rewrite (tr_pieces _ _ _ HT), <-(delete_first_key _ _ Hlow) in Hcur.
    rewrite (sum_values_delete piece_bytes _ _ _ Hk). lia.
  - intros p Hp Hlt. pose proof (Hlow _ Hp). destruct (decide (p = k)) as [->|Hne].
    { exists age, newest, seen. by unfold saturating_sub in Hold. }
    specialize (Hwhy p). rewrite (tr_pieces _ _ _ HT), lookup_from_key, decide_True in Hwhy by lia.
    destruct (Hwhy Hp ltac:(lia)) as (a & n & s & Ha & Hnn & Hs & Hle).
    exists a, n, s. rewrite (tr_seen _ _ _ HT), lookup_from_key, decide_True in Hs by lia.
    split_and!; congruence.
Qed.

Lemma size_from_key {A} cut (m : gmap N A) : (size (from_key cut m) ≤ size m)%nat.
Proof. apply map_subseteq_size, map_filter_subseteq. Qed.

Lemma evict_spec st : Lockstep st →
  ∃ cut, Trimmed cut st (evict st) ∧ Lockstep (evict st) ∧ cur_bytes (evict st) ≤ max_bytes st ∧
    (∀ p, is_Some (pieces (backend st) !! p) → p < cut → over_budget st p ∨ aged st p) ∧
    (∀ k, first_key (first_seen (evict st)) = Some k → ¬ aged (evict st) k).
Proof.
  intros HL. unfold evict.
  destruct (evict_over_budget_spec (S (size (pieces (backend st)))) st HL) as (a & HT & HL1 & Hcur & Hwhy);
    [lia|]. set (st1 := evict_over_budget _ st) in *.
  destruct (tr_config _ _ _ HT) as (_ & _ & Hmax & Hr & Hn).
  assert (∀ k, ¬ aged st1 k → ¬ aged st1 k) as _ by auto.
  destruct (retention st1) as [age|] eqn:Er.
  2:{ exists a. split_and!; try done; [intros p Hp Hlt; left; auto|].
      intros k _ (? & ? & ? & E & _). congruence. }
  destruct (newest_seen st1) as [newest|] eqn:En.
  2:{ exists a. split_and!; try done; [intros p Hp Hlt; left; auto|].
      intros k _ (? & ? & ? & _ & E & _). congruence. }
  destruct (evict_aged_spec (S (size (pieces (backend st)))) age newest st1) as
    (b & HT2 & HL2 & Hcur2 & Hwhy2 & Hend); [done|done|done| |].
  { rewrite (tr_pieces _ _ _ HT). pose proof (size_from_key a (pieces (backend st))). lia. }
  exists (N.max b a). split_and!; [by eapply trimmed_trans|done|lia| |done].
  intros p Hp Hlt. destruct (decide (p < a)) as [|Hge]; [left; auto|]. right.
  specialize (Hwhy2 p). rewrite (tr_pieces _ _ _ HT), lookup_from_key, decide_True in Hwhy2 by lia.
  destruct (Hwhy2 Hp ltac:(lia)) as (x & n & s & Hx & Hnn & Hs & Hle).
  exists x, n, s. rewrite (tr_seen _ _ _ HT), lookup_from_key, decide_True in Hs by lia.
  split_and!; congruence.
Qed.

(** ** The invariant *)

Record Inv (st : PieceStore) : Prop := {
  inv_lockstep : Lockstep st;
  inv_budget : cur_bytes st ≤ max_bytes st;
  inv_max : max_bytes st < 2 ^ 63;
  inv_chunks p c i : pieces (backend st) !! p = Some c → is_Some (c !! i) →
    i < piece_length st `div` chunk_length st;
  inv_age k : first_key (first_seen st) = Some k → ¬ aged st k;
}.

Lemma evict_inv st : Lockstep st → max_bytes st < 2 ^ 63 →
  (∀ p c i, pieces (backend st) !! p = Some c → is_Some (c !! i) →
     i < piece_length st `div` chunk_length st) → Inv (evict st).
Proof.
  intros HL Hm Hch. destruct (evict_spec st HL) as (cut & HT & HL' & Hcur & _ & Hage).
  destruct (tr_config _ _ _ HT) as (H1 & H2 & Hmax & _ & _).
  split; [done|lia|lia| |done].
  intros p c i. rewrite H1, H2, (tr_pieces _ _ _ HT), lookup_from_key. case_decide; [|done]. eauto.
Qed.

Lemma mark_seen_config now piece st :
  backend (mark_seen now piece st) = backend st ∧ cur_bytes (mark_seen now piece st) = cur_bytes st ∧
  piece_length (mark_seen now piece st) = piece_length st ∧
  chunk_length (mark_seen now piece st) = chunk_length st ∧
  max_bytes (mark_seen now piece st) = max_bytes st ∧
  retention (mark_seen now piece st) = retention st.
Proof. unfold mark_seen. by destruct (retention st) eqn:E. Qed.

(** Marking follows an insertion of the piece. *)
Lemma mark_seen_dom now piece st c (ps : gmap N (gmap N bytes)) :
  pieces (backend st) = <[piece := c]> ps →
  match retention st with None => first_seen st = ∅ | Some _ => dom (first_seen st) = dom ps end →
  match retention st with
  | None => first_seen (mark_seen now piece st) = ∅
  | Some _ => dom (first_seen (mark_seen now piece st)) = dom (pieces (backend st))
  end.
Proof.
  intros Hp Hs. rewrite Hp. unfold mark_seen. destruct (retention st) eqn:Er; [|done]. simpl.
  rewrite dom_insert_L, <-Hs. destruct (first_seen st !! piece) eqn:E.
  - apply elem_of_dom_2 in E. set_solver.
  - by rewrite dom_insert_L.
Qed.

(** Storing new content for a piece and accounting for it keeps the lockstep. *)
Lemma insert_lockstep st now piece c h old :
  Lockstep st → old = from_option piece_bytes 0 (pieces (backend st) !! piece) →
  total st - old + piece_bytes c < two64 →
  Lockstep (mark_seen now piece
    (mkStore (piece_length st) (chunk_length st) (max_bytes st)
       (total st - old + piece_bytes c)
       (mkMemory (<[piece := c]> (pieces (backend st))) (<[piece := h]> (headers (backend st))))
       (retention st) (first_seen st) (newest_seen st))).
Proof.
  intros [Hh Hs Hc Hsm] -> Hlt. set (st1 := mkStore _ _ _ _ _ _ _ _).
  destruct (mark_seen_config now piece st1) as (Hb & Hcur & _ & _ & _ & Hret).
  pose proof (sum_values_insert_total piece_bytes (pieces (backend st)) piece c) as Hsum.
  unfold total in *.
  assert (from_option piece_bytes 0 (pieces (backend st) !! piece) ≤
    sum_values piece_bytes (pieces (backend st))) as Hold.
  { destruct (pieces (backend st) !! piece) as [d|] eqn:E; simpl; [|lia].
    rewrite (sum_values_delete piece_bytes _ _ _ E). lia. }
  split.
  - rewrite Hb. simpl. by rewrite !dom_insert_L, Hh.
  - rewrite Hret, Hb. by apply (mark_seen_dom now piece st1 c (pieces (backend st))).
  - unfold total. rewrite Hcur, Hb. simpl. destruct (pieces (backend st) !! piece); simpl in *; lia.
  - unfold total. rewrite Hb. simpl. destruct (pieces (backend st) !! piece); simpl in *; lia.
Qed.

(** The store after an insertion, before eviction. *)
Definition inserted (st : PieceStore) (now piece chunk : N) (header data : bytes) : PieceStore :=
  let '(stored, m) := backend_put (backend st) piece chunk header data in
  mark_seen now piece
    (mkStore (piece_length st) (chunk_length st) (max_bytes st)
       (u64_add (u64_sub (cur_bytes st) (removed stored)) (added stored)) m
       (retention st) (first_seen st) (newest_seen st)).

Lemma put_chunk_eq st now piece i header data :
  0 < max_bytes st → i < piece_length st `div` chunk_length st →
  put_chunk_with_header_at st now piece i header data = evict (inserted st now piece i header data).
Proof.
  intros Hm Hi. unfold put_chunk_with_header_at, inserted.
  rewrite (proj2 (N.eqb_neq _ _)), (proj2 (N.leb_gt _ _)) by lia.
  destruct (backend_put _ _ _ _ _) as [stored m]. unfold mark_seen. simpl.
  by destruct (retention st).
Qed.

Lemma inserted_spec st now piece i header data :
  Inv st → i < piece_length st `div` chunk_length st → lenN data < 2 ^ 63 →
  let st' := inserted st now piece i header data in
  let entry := default ∅ (pieces (backend st) !! piece) in
  Lockstep st' ∧ pieces (backend st') = <[piece := <[i := data]> entry]> (pieces (backend st)) ∧
  piece_length st' = piece_length st ∧ chunk_length st' = chunk_length st ∧
  max_bytes st' = max_bytes st ∧ retention st' = retention st.
Proof.
  intros HI Hi Hd st' entry. destruct HI as [HL Hbud Hmax Hch Hage].
  pose proof (ls_cur _ HL) as Hcur. pose proof (ls_small _ HL) as Hsm.
  unfold st', inserted, backend_put. fold entry.
  set (h := match headers (backend st) !! piece with Some _ => _ | None => _ end). simpl.
  set (old := from_option piece_bytes 0 (pieces (backend st) !! piece)).
  assert (piece_bytes entry = old) as Hold.
  { unfold entry, old. by destruct (pieces (backend st) !! piece). }
  assert (old ≤ total st) as Hle.
  { unfold old, total. destruct (pieces (backend st) !! piece) as [c|] eqn:E; simpl; [|lia].
    rewrite (sum_values_delete piece_bytes _ _ _ E). lia. }
  pose proof (sum_values_insert_total lenN entry i data) as Hsum. fold (piece_bytes entry) in Hsum.
  fold (piece_bytes (<[i := data]> entry)) in Hsum.
  assert (from_option lenN 0 (entry !! i) ≤ old) as Hrem.
  { rewrite <-Hold. unfold piece_bytes. destruct (entry !! i) as [d|] eqn:E; simpl; [|lia].
    rewrite (sum_values_delete lenN _ _ _ E). lia. }
  assert (u64_add (u64_sub (cur_bytes st) (from_option lenN 0 (entry !! i))) (lenN data) =
    total st - old + piece_bytes (<[i := data]> entry)) as ->.
  { rewrite u64_sub_small by lia. rewrite u64_add_small by lia.
    destruct (entry !! i); simpl in *; lia. }
  pose proof (insert_lockstep st now piece (<[i := data]> entry) h old HL eq_refl) as HLi.
  split; [apply HLi; destruct (entry !! i); simpl in *; lia|].
  set (st1 := mkStore _ _ _ _ _ _ _ _).
  destruct (mark_seen_config now piece st1) as (Hb & _ & ? & ? & ? & ?). by rewrite Hb.
Qed.

Lemma put_chunk_inv st now piece i header data :
  Inv st → lenN data < 2 ^ 63 → Inv (put_chunk_with_header_at st now piece i header data).
Proof.
  intros HI Hd. destruct (decide (0 < max_bytes st ∧ i < piece_length st `div` chunk_length st))
    as [[Hm Hi]|Hno].
  2:{ unfold put_chunk_with_header_at. destruct (N.eqb_spec (max_bytes st) 0); [done|].
      destruct (N.leb_spec (piece_length st `div` chunk_length st) i); [done|]. exfalso. apply Hno.
      split; lia. }
  rewrite put_chunk_eq by done.
  destruct (inserted_spec st now piece i header data HI Hi Hd) as (HL & Hp & Hl & Hc & Hmx & _).
  pose proof (inv_chunks _ HI) as Hch.
  apply evict_inv; [done|rewrite Hmx; apply HI|].
  intros p c j. rewrite Hp, Hl, Hc. intros [[<- <-]|[_ Hpc]]%lookup_insert_Some; [|eauto].
  destruct (decide (j = i)) as [->|]; [done|]. rewrite lookup_insert_ne by done.
  destruct (pieces (backend st) !! piece) as [c|] eqn:E; simpl; [eauto|]. by intros [].
Qed.

(** ** Whole pieces *)

Lemma sum_values_list {A} (f : A → N) (l : list (N * A)) : NoDup l.*1 →
  sum_values f (list_to_map l) = foldr (λ kv acc, f kv.2 + acc) 0 l.
Proof.
  induction l as [|[k x] l IH]; intros Hnd; [done|]. simpl in *. apply NoDup_cons in Hnd as [Hk Hnd].
  rewrite sum_values_insert, delete_id, IH by (done || by apply not_elem_of_list_to_map_1). done.
Qed.

Section chunk_map.
Context (wire : bytes) (cl n : N).
Hypothesis Hcl : 0 < cl.
Hypothesis Hlen : lenN wire = n * cl.
Hypothesis Hn : n ≤ 65535.

Definition indexed : list (N * bytes) :=
  imap (λ i b, (N.of_nat i `mod` two16, b)) (chunks_exact (N.to_nat cl) wire).

Lemma wire_chunks : length (chunks_exact (N.to_nat cl) wire) = N.to_nat n ∧
  Forall (λ c, length c = N.to_nat cl) (chunks_exact (N.to_nat cl) wire) ∧
  concat (chunks_exact (N.to_nat cl) wire) = wire.
Proof. apply chunks_exact_all; [lia|]. unfold lenN in Hlen. lia. Qed.

Lemma indexed_keys : indexed.*1 = (λ i, N.of_nat i `mod` two16) <$> seq 0 (N.to_nat n).
Proof.
  destruct wire_chunks as (Hl & _ & _). unfold indexed. apply list_eq. intros i.
  rewrite !list_lookup_fmap, list_lookup_imap. destruct (decide (i < N.to_nat n)%nat).
  - rewrite lookup_seq_lt by done.
    destruct (lookup_lt_is_Some_2 (chunks_exact (N.to_nat cl) wire) i) as [x ->]; [lia|]. done.
  - rewrite lookup_seq_ge by lia. rewrite lookup_ge_None_2 by lia. done.
Qed.

Lemma NoDup_indexed : NoDup indexed.*1.
Proof.
  rewrite indexed_keys. apply NoDup_fmap_2_strong; [|apply NoDup_seq].
  intros x y [_ Hx]%elem_of_seq [_ Hy]%elem_of_seq. rewrite !N.mod_small by lia. lia.
Qed.

Lemma lookup_chunk_map i : i < n →
  chunk_map wire cl !! i = Some (slice wire (N.to_nat (i * cl)) (N.to_nat (i * cl + cl))).
Proof.
  intros Hi. destruct wire_chunks as (Hl & Hall & Hcat). apply elem_of_list_to_map; [apply NoDup_indexed|].
  destruct (lookup_lt_is_Some_2 (chunks_exact (N.to_nat cl) wire) (N.to_nat i)) as [x Hx]; [lia|].
  apply list_elem_of_lookup. exists (N.to_nat i). rewrite list_lookup_imap, Hx. simpl.
  rewrite N2Nat.id, N.mod_small by lia. do 2 f_equal.
  pose proof (slice_concat _ (N.to_nat cl) (N.to_nat i) 0 (N.to_nat cl) x Hall Hx ltac:(lia)) as E.
  rewrite Hcat in E. replace (N.to_nat i * N.to_nat cl + 0)%nat with (N.to_nat (i * cl)) in E by lia.
  replace (N.to_nat i * N.to_nat cl + N.to_nat cl)%nat with (N.to_nat (i * cl + cl)) in E by lia.
  rewrite E. unfold slice. rewrite drop_0, Nat.sub_0_r.
  symmetry. apply firstn_all2. rewrite Forall_lookup in Hall. rewrite (Hall _ _ Hx). lia.
Qed.

Lemma dom_chunk_map i : is_Some (chunk_map wire cl !! i) → i < n.
Proof.
  intros [x Hx]. apply elem_of_list_to_map_2 in Hx. change (imap _ _) with indexed in Hx.
  assert (i ∈ indexed.*1) as Hi by (apply list_elem_of_fmap; by exists (i, x)).
  rewrite indexed_keys in Hi. apply list_elem_of_fmap in Hi as (j & -> & [_ Hj]%elem_of_seq).
  rewrite N.mod_small; lia.
Qed.

Lemma size_chunk_map : size (chunk_map wire cl) = N.to_nat n.
Proof.
  unfold chunk_map. change (imap _ _) with indexed.
  rewrite <-(size_dom (D:=gset N)), dom_list_to_map_L, size_list_to_set by apply NoDup_indexed.
  by rewrite indexed_keys, length_fmap, length_seq.
Qed.

Lemma bytes_chunk_map : piece_bytes (chunk_map wire cl) = lenN wire.
Proof.
  unfold piece_bytes, chunk_map. rewrite sum_values_list by apply NoDup_indexed.
  destruct wire_chunks as (_ & _ & Hcat). rewrite <-Hcat at 2. clear.
  assert (∀ (g : nat → N) (l : list bytes), foldr (λ kv acc, lenN kv.2 + acc) 0 (imap (λ i b, (g i, b)) l) =
    lenN (concat l)) as Hgen; [|apply Hgen].
  intros g l. revert g. induction l as [|b l IH]; intros g; [done|].
  rewrite imap_cons. simpl. rewrite lenN_app. f_equal. apply (IH (g ∘ S)).
Qed.
End chunk_map.

(** The geometry [begin_complete_admission] admits. *)
Definition publishable (st : PieceStore) (wire : bytes) : Prop :=
  0 < piece_length st ∧ 0 < chunk_length st ∧ piece_length st `mod` chunk_length st = 0 ∧
  piece_length st `div` chunk_length st ≤ 65535 ∧ lenN wire = piece_length st ∧
  chunk_length st < two32.

Lemma publishable_chunks st wire : publishable st wire →
  lenN wire = piece_length st `div` chunk_length st * chunk_length st.
Proof.
  intros (? & ? & Hm & _ & -> & _).
  pose proof (N.div_mod (piece_length st) (chunk_length st) ltac:(lia)). lia.
Qed.

(** The store with the whole piece in place, before eviction. *)
Definition completed (st : PieceStore) (now piece : N) (header wire : bytes) : PieceStore :=
  mark_seen now piece
    (mkStore (piece_length st) (chunk_length st) (max_bytes st)
       (total st - from_option piece_bytes 0 (pieces (backend st) !! piece) + piece_length st)
       (mkMemory (<[piece := chunk_map wire (chunk_length st)]> (pieces (backend st)))
          (<[piece := header]> (headers (backend st))))
       (retention st) (first_seen st) (newest_seen st)).

Lemma put_complete_eq st now piece header wire : Inv st → publishable st wire →
  piece_length st ≤ max_bytes st → has_piece st piece = false →
  Lockstep (completed st now piece header wire) ∧
  put_complete_memory st now piece header wire =
    (if has_piece (evict (completed st now piece header wire)) piece then Published else NotRetained,
     evict (completed st now piece header wire)).
Proof.
  intros HI Hpub Hfit Hno. pose proof Hpub as (? & ? & ? & ? & Hw & ?).
  pose proof (ls_cur _ (inv_lockstep _ HI)) as Hcur. pose proof (inv_budget _ HI) as Hbud.
  pose proof (inv_max _ HI) as Hmax.
  set (old := from_option piece_bytes 0 (pieces (backend st) !! piece)).
  assert (old ≤ total st) as Hle.
  { unfold old, total. destruct (pieces (backend st) !! piece) as [c|] eqn:E; simpl; [|lia].
    rewrite (sum_values_delete piece_bytes _ _ _ E). lia. }
  assert (piece_bytes (chunk_map wire (chunk_length st)) = piece_length st) as Hpb.
  { rewrite (bytes_chunk_map wire (chunk_length st) (piece_length st `div` chunk_length st));
      [done|done|by apply publishable_chunks|done]. }
  split.
  - unfold completed. fold old.
    replace (total st - old + piece_length st)
      with (total st - old + piece_bytes (chunk_map wire (chunk_length st))) by lia.
    apply insert_lockstep; [apply HI|done|]. lia.
  - unfold put_complete_memory. unfold has_piece, chunks_per_piece in Hno. rewrite Hno.
    fold old. assert (u64_add (u64_sub (cur_bytes st) old) (piece_length st) =
      total st - old + piece_length st) as -> by (rewrite u64_sub_small, u64_add_small by lia; lia).
    done.
Qed.

Lemma completed_config st now piece header wire :
  piece_length (completed st now piece header wire) = piece_length st ∧
  chunk_length (completed st now piece header wire) = chunk_length st ∧
  max_bytes (completed st now piece header wire) = max_bytes st ∧
  backend (completed st now piece header wire) =
    mkMemory (<[piece := chunk_map wire (chunk_length st)]> (pieces (backend st)))
      (<[piece := header]> (headers (backend st))).
Proof.
  unfold completed. set (st1 := mkStore _ _ _ _ _ _ _ _).
  by destruct (mark_seen_config now piece st1) as (-> & _ & -> & -> & -> & _).
Qed.

Lemma shared_put_cases st now piece header wire :
  (¬ publishable st wire ∧ shared_put_complete_piece st now piece header wire = (Err InvalidInput, st)) ∨
  (publishable st wire ∧ max_bytes st < piece_length st ∧
    shared_put_complete_piece st now piece header wire = (Ok NotRetained, st)) ∨
  (publishable st wire ∧ piece_length st ≤ max_bytes st ∧
    shared_put_complete_piece st now piece header wire =
      (Ok (put_complete_memory st now piece header wire).1,
       (put_complete_memory st now piece header wire).2)).
Proof.
  unfold shared_put_complete_piece, begin_complete_admission.
  destruct ((piece_length st =? 0) || (chunk_length st =? 0)
     || negb (piece_length st `mod` chunk_length st =? 0)
     || (65535 <? piece_length st `div` chunk_length st) || negb (piece_length st =? lenN wire)
     || (two32 <=? chunk_length st)) eqn:E.
  - left. split; [|done]. intros (? & ? & Hm & ? & Hw & ?). revert E.
    rewrite !orb_true_iff, !negb_true_iff, !N.eqb_eq, !N.eqb_neq, N.ltb_lt, N.leb_le. intuition lia.
  - right. rewrite !orb_false_iff, !negb_false_iff, !N.eqb_neq, !N.eqb_eq, N.ltb_ge, N.leb_gt in E.
    assert (publishable st wire) as Hp by (unfold publishable; intuition lia).
    destruct (N.ltb_spec (max_bytes st) (piece_length st)); cbn [submit];
      rewrite N.eqb_refl; cbn [negb]; [by left|]. right.
    split_and!; try done. by destruct (put_complete_memory st now piece header wire).
Qed.

Lemma shared_put_inv st now piece header wire :
  Inv st → Inv (shared_put_complete_piece st now piece header wire).2.
Proof.
  intros HI. destruct (shared_put_cases st now piece header wire)
    as [[_ ->]|[(_ & _ & ->)|(Hp & Hfit & ->)]]; [done|done|]. simpl.
  destruct (has_piece st piece) eqn:Eh.
  { unfold put_complete_memory. unfold has_piece, chunks_per_piece in Eh. by rewrite Eh. }
  destruct (put_complete_eq st now piece header wire HI Hp Hfit Eh) as [HL ->]. simpl.
  destruct (completed_config st now piece header wire) as (E1 & E2 & E3 & E4).
  apply evict_inv; [done|rewrite E3; apply HI|].
  intros p c i. rewrite E1, E2, E4. simpl. intros [[<- <-]|[_ Hpc]]%lookup_insert_Some.
  - intros Hi. destruct Hp as (? & ? & ? & ? & ? & ?).
    apply (dom_chunk_map wire (chunk_length st) _ ltac:(done)); [by apply publishable_chunks|done|done].
  - by apply (inv_chunks _ HI p c i Hpc).
Qed.

(** ** Reading blocks *)

(** The store serves the wire bytes of a whole piece. *)
Definition serves (st : PieceStore) (piece : N) (wire : bytes) : Prop :=
  ∀ i, i < piece_length st `div` chunk_length st →
    chunk st piece i = Some (slice wire (N.to_nat (i * chunk_length st))
      (N.to_nat (i * chunk_length st + chunk_length st))).

Lemma slice_app_adjacent {A} (l : list A) a b c : (a ≤ b ≤ c)%nat →
  slice l a b ++ slice l b c = slice l a c.
Proof.
  intros H. unfold slice. replace (drop b l) with (drop (b - a) (drop a l))
    by (rewrite drop_drop; f_equal; lia).
  rewrite take_take_drop. f_equal. lia.
Qed.

Lemma read_chunks_served st piece wire lo n : serves st piece wire →
  lo + n ≤ piece_length st `div` chunk_length st → piece_length st `div` chunk_length st ≤ 65535 →
  read_chunks st piece (range lo n) =
    Some (slice wire (N.to_nat (lo * chunk_length st)) (N.to_nat ((lo + n) * chunk_length st))).
Proof.
  intros Hs. revert lo. induction n as [|n IH] using N.peano_ind; intros lo Hlo Hmax.
  { rewrite N.add_0_r. unfold slice. by rewrite Nat.sub_diag, take_0. }
  rewrite <-N.add_1_l, range_cons. cbn [read_chunks]. rewrite (proj2 (N.ltb_lt _ _)) by lia.
  unfold shared_serving_chunk. pose proof (Hs lo ltac:(lia)) as Hc. unfold chunk, backend_get in Hc.
  rewrite Hc. cbn [mbind option_bind]. rewrite IH by lia. cbn [mbind option_bind]. f_equal.
  replace (N.to_nat (lo * chunk_length st + chunk_length st))
    with (N.to_nat ((lo + 1) * chunk_length st)) by lia.
  rewrite slice_app_adjacent by nia. f_equal. lia.
Qed.

Lemma shared_block_served st piece wire begin len : serves st piece wire → publishable st wire →
  0 < len ≤ MAX_BT_REQUEST_LEN → begin + len ≤ piece_length st → begin + len < two64 →
  shared_block st piece begin len = Some (slice wire (N.to_nat begin) (N.to_nat (begin + len))).
Proof.
  intros Hs (Hpl & Hcl & Hm & Hn & Hw & Hc32) Hlen Hend Hov. unfold shared_block.
  rewrite (proj2 (N.eqb_neq _ _)), (proj2 (N.ltb_ge _ _)) by lia. cbn [orb].
  rewrite (proj2 (checked_add_Some begin len (begin + len))) by done. cbn [mbind option_bind].
  rewrite (proj2 (N.ltb_ge (piece_length st) (begin + len))) by done.
  set (cl := chunk_length st) in *. set (first := begin `div` cl).
  set (last := div_ceil (begin + len) cl).
  pose proof (N.div_mod (piece_length st) cl ltac:(lia)) as Hdm. rewrite Hm, N.add_0_r in Hdm.
  destruct (div_mul_bounds begin cl Hcl) as [Hb1 Hb2]. fold first in Hb1, Hb2.
  destruct (div_mul_bounds (begin + len) cl Hcl) as [He1 He2].
  assert (begin + len ≤ last * cl ∧ last ≤ piece_length st `div` cl ∧ first ≤ last) as (Hl1 & Hl2 & Hl3).
  { pose proof (N.div_mod (begin + len) cl ltac:(lia)) as Hde.
    assert (begin + len ≤ last * cl) as Hle1.
    { unfold last, div_ceil. destruct (N.eqb_spec ((begin + len) `mod` cl) 0) as [E|E]; [|lia].
      rewrite E in Hde. lia. }
    split_and!; [done| |nia].
    unfold last, div_ceil. destruct (N.eqb_spec ((begin + len) `mod` cl) 0) as [E|E].
    - apply N.Div0.div_le_mono. done.
    - assert ((begin + len) `div` cl < piece_length st `div` cl) as Hlt; [|lia].
      apply N.Div0.div_lt_upper_bound. rewrite <-Hdm.
      assert (begin + len ≠ piece_length st) by congruence. lia. }
  rewrite (read_chunks_served st piece wire) by (done || fold cl; lia). cbn [mbind option_bind].
  fold cl. replace (first + (last - first)) with last by lia.
  assert (begin = first * cl + begin `mod` cl) as Hbm.
  { unfold first. pose proof (N.div_mod begin cl ltac:(lia)). lia. }
  pose proof (N.mod_lt begin cl ltac:(lia)) as Hmlt.
  rewrite (proj2 (checked_add_Some _ _ _)) by (split; [done|lia]). cbn [mbind option_bind].
  apply slice_get_Some. split_and!; [|lia|].
  - rewrite slice_slice by lia. f_equal; lia.
  - unfold lenN in Hw. rewrite slice_length by nia. lia.
Qed.

(** A published piece survives its own eviction pass only whole. *)
Lemma trimmed_lookup cut st st' p : Trimmed cut st st' → is_Some (pieces (backend st') !! p) →
  pieces (backend st') !! p = pieces (backend st) !! p ∧ headers (backend st') !! p = headers (backend st) !! p.
Proof.
  intros [Hp Hh _ _]. rewrite Hp, Hh, !lookup_from_key. case_decide; [done|]. by intros [].
Qed.

(** ** Reachable stores *)

Inductive initial : PieceStore → Prop :=
  | initial_new pl cl mx : mx < 2 ^ 63 → initial (new pl cl mx)
  | initial_retention pl cl mx r : mx < 2 ^ 63 → initial (with_retention (new pl cl mx) r).

Inductive step : PieceStore → PieceStore → Prop :=
  | step_put st now piece i header data : lenN data < 2 ^ 63 →
      step st (put_chunk_with_header_at st now piece i header data)
  | step_complete st now piece header wire :
      step st (shared_put_complete_piece st now piece header wire).2.

Definition reachable (st : PieceStore) : Prop := ∃ st0, initial st0 ∧ rtc step st0 st.

Lemma empty_inv st : pieces (backend st) = ∅ → headers (backend st) = ∅ → first_seen st = ∅ →
  cur_bytes st = 0 → max_bytes st < 2 ^ 63 → Inv st.
Proof.
  intros Hp Hh Hf Hc Hm. split; [split|..]; unfold total; rewrite ?Hp, ?Hh, ?Hf, ?Hc; try done.
  - by destruct (retention st).
  - lia.
Qed.

Lemma store_reachable_inv st : reachable st → Inv st.
Proof.
  intros (st0 & Hi & Hs). assert (Inv st0) as HI by (destruct Hi; by apply empty_inv).
  clear Hi. induction Hs as [|x y z Hxy _ IH]; [done|]. apply IH.
  destruct Hxy; [by apply put_chunk_inv|by apply shared_put_inv].
Qed.

Lemma have_pieces_sorted st : StronglySorted N.lt (have_pieces st).
Proof.
  unfold have_pieces, backend_have_pieces. pose proof (ascending_strict (dom (pieces (backend st)))) as Hs.
  induction Hs as [|x l Hl IH Hx]; simpl; [constructor|]. destruct (backend_has_piece _ x _); [|done].
  constructor; [done|]. rewrite Forall_forall in Hx. apply Forall_forall.
  intros y [Hy _]%list_elem_of_In%filter_In. apply Hx. by apply list_elem_of_In.
Qed.

Lemma elem_of_have_pieces st p : p ∈ have_pieces st ↔ has_piece st p = true.
Proof.
  unfold have_pieces, backend_have_pieces, has_piece.
  rewrite list_elem_of_In, filter_In, <-list_elem_of_In, elem_of_ascending, elem_of_dom.
  split; [by intros [_ ?]|]. intros Hp. split; [|done].
  unfold backend_has_piece in Hp. destruct (pieces (backend st) !! p); [by eexists|done].
Qed.

(** A confirmed publication: the store serves the piece's bytes under its header. *)
Lemma published_serves st now piece header wire st' : Inv st →
  shared_put_complete_piece st now piece header wire = (Ok Published, st') →
  publishable st wire ∧ has_piece st' piece = true ∧ piece_header st' piece = Some header ∧
  piece_length st' = piece_length st ∧ chunk_length st' = chunk_length st ∧ serves st' piece wire.
Proof.
  intros HI E.
  destruct (shared_put_cases st now piece header wire) as [[Hno E']|[(Hp & _ & E')|(Hp & Hfit & E')]];
    rewrite E' in E; try (by injection E as ?); injection E as E <-.
  destruct (has_piece st piece) eqn:Eh.
  { unfold put_complete_memory in E. unfold has_piece, chunks_per_piece in Eh. by rewrite Eh in E. }
  destruct (put_complete_eq st now piece header wire HI Hp Hfit Eh) as [HL Hq]. rewrite Hq in E |- *. cbn [fst snd] in *.
  set (st1 := completed st now piece header wire) in *.
  destruct (completed_config st now piece header wire) as (E1 & E2 & E3 & E4). fold st1 in E1, E2, E3, E4.
  destruct (evict_spec st1 HL) as (cut & HT & _). destruct (tr_config _ _ _ HT) as (F1 & F2 & _).
  destruct (has_piece (evict st1) piece) eqn:Eh'; [|done].
  assert (is_Some (pieces (backend (evict st1)) !! piece)) as Hs.
  { unfold has_piece, backend_has_piece in Eh'. destruct (pieces _ !! piece); [by eexists|done]. }
  destruct (trimmed_lookup _ _ _ _ HT Hs) as [Hpc Hhd]. rewrite E4 in Hpc, Hhd. simpl in *.
  rewrite lookup_insert_eq in Hpc. rewrite lookup_insert_eq in Hhd.
  split_and!; [done|done|done|congruence|congruence|].
  unfold serves, chunk, backend_get. rewrite Hpc, F1, F2, E1, E2. simpl. intros i Hi. pose proof Hp as (? & ? & ? & ? & ? & ?).
  apply (lookup_chunk_map wire (chunk_length st) (piece_length st `div` chunk_length st));
    [done|by apply publishable_chunks|done|done].
Qed.

(** ** Theorems *)

(** C35: the store keeps its books.  In every reachable store the byte count is exactly what
    the chunks occupy and never above the budget, headers and ages are kept for precisely the
    stored pieces, no chunk index is outside the piece geometry, the piece of the lowest index
    was first seen less than the age bound before the newest insertion (a higher index that was
    first seen earlier may stay longer: [older_piece_outlives_retention]), and the advertised
    pieces are, in ascending order, exactly the complete ones. *)
Theorem store_keeps_books st : reachable st →
  cur_bytes st = sum_values piece_bytes (pieces (backend st)) ∧ cur_bytes st ≤ max_bytes st ∧
  dom (headers (backend st)) = dom (pieces (backend st)) ∧
  (is_Some (retention st) → dom (first_seen st) = dom (pieces (backend st))) ∧
  (∀ p i d, chunk st p i = Some d → i < piece_length st `div` chunk_length st) ∧
  (∀ k age newest seen, first_key (pieces (backend st)) = Some k → retention st = Some age →
     newest_seen st = Some newest → first_seen st !! k = Some seen → newest - seen < age) ∧
  StronglySorted N.lt (have_pieces st) ∧ (∀ p, p ∈ have_pieces st ↔ has_piece st p = true).
Proof.
  intros HI%store_reachable_inv. pose proof (inv_lockstep _ HI) as HL. pose proof (ls_seen _ HL) as Hseen.
  split_and!; [apply HL|apply HI|apply HL|by intros [age Er]; rewrite Er in Hseen| | | |].
  - intros p i d. unfold chunk, backend_get. intros (c & Hc & Hi)%bind_Some.
    apply (inv_chunks _ HI p c i Hc). by eexists.
  - intros k age newest seen Hk Hr Hn Hs. rewrite Hr in Hseen.
    rewrite <-(first_key_dom _ _ Hseen) in Hk. pose proof (inv_age _ HI k Hk) as Hna.
    destruct (N.lt_ge_cases (newest - seen) age); [done|]. exfalso. apply Hna.
    by exists age, newest, seen.
  - apply have_pieces_sorted.
  - apply elem_of_have_pieces.
Qed.

Definition sample_store : PieceStore :=
  put_chunk_with_header_at (with_retention (new 8 4 12) 10) 3 5 0 zero_header (bs "aaaa").

Lemma sample_store_reachable : reachable sample_store.
Proof.
  exists (with_retention (new 8 4 12) 10). split; [by apply initial_retention|].
  apply rtc_once. by apply step_put.
Qed.

(** The piece first seen at 3 is too old when one is first seen at 14, and goes. *)
Definition middle_store : PieceStore := put_chunk_with_header_at sample_store 9 6 0 zero_header (bs "bbbb").
Definition aged_store : PieceStore := put_chunk_with_header_at middle_store 14 7 0 zero_header (bs "cccc").

Lemma aged_store_reachable : reachable aged_store.
Proof.
  destruct sample_store_reachable as (st0 & H0 & Hr). exists st0. split; [exact H0|].
  apply rtc_r with middle_store; [|by apply step_put]. apply rtc_r with sample_store; [exact Hr|by apply step_put].
Qed.

Lemma store_keeps_books_witness :
  cur_bytes aged_store = 8 ∧ cur_bytes aged_store ≤ max_bytes aged_store ∧ dom (pieces (backend aged_store)) = {[6; 7]} ∧
  14 - 9 < 10.
Proof.
  destruct (store_keeps_books aged_store) as (_ & H & _ & _ & _ & Hage & _); [apply aged_store_reachable|].
  split; [vm_compute; reflexivity|]. split; [exact H|]. split; [vm_compute; reflexivity|].
  apply (Hage 6 10 14 9); vm_compute; reflexivity.
Defined.

(** Eviction looks only at the lowest index: a piece that was first seen before it stays past the age bound. *)
Lemma older_piece_outlives_retention :
  let put st now p := put_chunk_with_header_at st now p 0 zero_header (bs "aaaa") in
  let st := put (put (put (with_retention (new 8 4 100) 10) 0 10) 9 5) 15 11 in
  retention st = Some 10 ∧ newest_seen st = Some 15 ∧ first_seen st !! 10 = Some 0 ∧ is_Some (chunk st 10 0).
Proof. vm_compute. split_and!; by try eexists. Qed.

(** a write changes only what it must.  After an accepted write the written chunk reads
    back and every other chunk reads as before, except for an initial run of piece indices
    that was evicted; and each evicted piece had to go: what was stored from it on exceeded
    the budget, or it was older than the age bound against the newest insertion. *)
Theorem put_chunk_effect st now piece i header data :
  reachable st → 0 < max_bytes st → i < piece_length st `div` chunk_length st →
  lenN data < 2 ^ 63 →
  let st1 := inserted st now piece i header data in
  let st' := put_chunk_with_header_at st now piece i header data in
  ∃ cut,
    (∀ p j, chunk st' p j =
      if p <? cut then None
      else if (p =? piece) && (j =? i) then Some data else chunk st p j) ∧
    (∀ p, is_Some (pieces (backend st1) !! p) → p < cut →
      max_bytes st < sum_values piece_bytes (from_key p (pieces (backend st1))) ∨ aged st1 p).
Proof.
  intros HI%store_reachable_inv Hm Hi Hd st1 st'.
  destruct (inserted_spec st now piece i header data HI Hi Hd) as (HL & Hp & _ & _ & Hmx & _).
  fold st1 in HL, Hp, Hmx.
  destruct (evict_spec st1 HL) as (cut & HT & _ & _ & Hwhy & _).
  unfold st'. rewrite put_chunk_eq by done. fold st1. exists cut. split.
  - intros p j. unfold chunk, backend_get. rewrite (tr_pieces _ _ _ HT), lookup_from_key.
    destruct (N.ltb_spec p cut); [by rewrite decide_False by lia|]. rewrite decide_True by done.
    rewrite Hp. destruct (N.eqb_spec p piece) as [->|Hne]; simpl.
    + rewrite lookup_insert_eq. simpl. destruct (N.eqb_spec j i) as [->|Hne].
      * by rewrite lookup_insert_eq.
      * rewrite lookup_insert_ne by done. by destruct (pieces (backend st) !! piece).
    + by rewrite lookup_insert_ne by done.
  - intros p Hps Hlt. rewrite <-Hmx. by apply Hwhy.
Qed.

Lemma put_chunk_effect_witness :
  ∃ cut, ∀ p j, chunk (put_chunk_with_header_at sample_store 4 6 1 zero_header (bs "bbbb")) p j =
      if p <? cut then None
      else if (p =? 6) && (j =? 1) then Some (bs "bbbb") else chunk sample_store p j.
Proof.
  destruct (put_chunk_effect sample_store 4 6 1 zero_header (bs "bbbb")) as (cut & H & _).
  - apply sample_store_reachable.
  - vm_compute. reflexivity.
  - vm_compute. reflexivity.
  - vm_compute. reflexivity.
  - exists cut. exact H.
Defined.

(** a published piece is served byte for byte.  When publishing a whole piece answers
    [Published], the piece counts as complete, its header is the published one, and every
    admissible block request inside the piece is answered with exactly those bytes of the
    wire image; when the geometry is wrong the store is unchanged. *)
Theorem published_piece_served st now piece header wire r st' :
  reachable st → shared_put_complete_piece st now piece header wire = (r, st') →
  (r = Err InvalidInput ↔ ¬ publishable st wire) ∧
  (r = Err InvalidInput ∨ r = Ok AlreadyPresent → st' = st) ∧
  (r = Ok Published →
    has_piece st' piece = true ∧ piece_header st' piece = Some header ∧
    ∀ begin len, 0 < len ≤ MAX_BT_REQUEST_LEN → begin + len ≤ piece_length st →
      begin + len < two64 →
      shared_block st' piece begin len = Some (slice wire (N.to_nat begin) (N.to_nat (begin + len)))).
Proof.
  intros HI%store_reachable_inv E. split_and!.
  - destruct (shared_put_cases st now piece header wire) as [[Hno E']|[(Hp & _ & E')|(Hp & Hfit & E')]];
      rewrite E' in E; injection E as <- <-; [done|by naive_solver|].
    unfold put_complete_memory. split; [|by intros []]. by repeat case_match.
  - destruct (shared_put_cases st now piece header wire) as [[Hno E']|[(Hp & _ & E')|(Hp & Hfit & E')]];
      rewrite E' in E; injection E as <- <-; [done|by intros []|].
    unfold put_complete_memory. intros Hr. repeat case_match; naive_solver.
  - intros ->. destruct (published_serves _ _ _ _ _ _ HI E) as (Hp & Hh & Hd & E1 & E2 & Hs).
    split_and!; [done|done|]. intros begin len Hlen Hend Hov. apply shared_block_served; try done; [|congruence].
    unfold publishable. by rewrite E1, E2.
Qed.

Lemma published_piece_served_witness :
  ∃ st', shared_put_complete_piece sample_store 4 6 (bs "HEADER-8") (bs "abcdefgh") = (Ok Published, st') ∧
    shared_block st' 6 3 4 = Some (bs "defg").
Proof.
  exists (shared_put_complete_piece sample_store 4 6 (bs "HEADER-8") (bs "abcdefgh")).2.
  assert (shared_put_complete_piece sample_store 4 6 (bs "HEADER-8") (bs "abcdefgh") =
    (Ok Published, (shared_put_complete_piece sample_store 4 6 (bs "HEADER-8") (bs "abcdefgh")).2)) as E
    by (vm_compute; reflexivity).
  split; [exact E|].
  destruct (published_piece_served _ _ _ _ _ _ _ sample_store_reachable E) as (_ & _ & H).
  destruct (H eq_refl) as (_ & _ & Hb). apply (Hb 3 4); vm_compute; try split; done.
Defined.
