(* ===== verification/Transport.v ===== *)
(** * Transport descriptors and stream identity

    [ace-wire/src/transport.rs], [ace-wire/src/infohash.rs] and
    [ace-wire/src/disk_envelope.rs]: the encrypted transport file, its decoded descriptor, the
    swarm infohash over the descriptor's selector fields, and the encrypted disk envelope of a
    metainfo.  AES-128-CBC with PKCS#7 padding ([aes], [cbc] crates) is an interface. *)

From S2P Require Import Prelude Bytes Wire Bencode Text Metainfo.

Class Cbc : Type := {
  (** [encrypt_padded_vec::<Pkcs7>] and [decrypt_padded_vec::<Pkcs7>] under a key and an IV. *)
  cbc_encrypt : bytes → bytes → bytes → bytes;
  cbc_decrypt : bytes → bytes → bytes → option bytes;
}.

Class CbcLaws `{Cbc} : Prop := {
  cbc_roundtrip key iv pt : cbc_decrypt key iv (cbc_encrypt key iv pt) = Some pt;
  cbc_blocks key iv pt : length (cbc_encrypt key iv pt) = 16 * (length pt / 16 + 1);
}.

(** ** Identifiers *)

Definition TRANSPORT_MAGIC : bytes := bs "AceStreamTransport".

Definition is_transport_file (b : bytes) : bool := starts_with b TRANSPORT_MAGIC.

Definition required_fields : list bytes :=
  [bs "name"; bs "authmethod"; bs "pubkey"; bs "piece_length"; bs "chunk_length"; bs "bitrate"].
Definition optional_fields : list bytes :=
  [bs "premium"; bs "commerce"; bs "provider_key"; bs "provider_sid"; bs "access";
   bs "sharing"; bs "private"; bs "tns"; bs "license"].

Definition pair_of (key : bytes) (v : Bencode) : Bencode := BList [BBytes key; v].

Fixpoint required_pairs (descriptor : Bencode) (keys : list bytes) : Result (list Bencode) :=
  match keys with
  | [] => Ok []
  | key :: keys =>
      v ← ok_or (get descriptor key) (Invalid "missing descriptor infohash field");
      rest ← required_pairs descriptor keys;
      Ok (pair_of key v :: rest)
  end.

Definition optional_pairs (descriptor : Bencode) : list Bencode :=
  omap (λ key, pair_of key <$> get descriptor key) optional_fields.

(** What is hashed: the encoded list of selector pairs. *)
Definition infohash_preimage (descriptor : Bencode) (include_optional : bool) : Result bytes :=
  pairs ← required_pairs descriptor required_fields;
  Ok (encode (BList (pairs ++ if include_optional then optional_pairs descriptor else []))).

(** ** Descriptors *)

Definition TRANSPORT_KEY : bytes := map N_byte
  [0xa5; 0x0c; 0x4e; 0x33; 0xa2; 0xf4; 0x8c; 0xc5; 0x0c; 0xe2; 0x75; 0xc9; 0xff; 0x3a; 0x31; 0xbf]%N.
Definition TRANSPORT_IV : bytes := map N_byte
  [0x74; 0xe9; 0xcd; 0xd6; 0x39; 0x1b; 0xcb; 0xd5; 0x65; 0xf9; 0x95; 0x03; 0x31; 0x33; 0x29; 0xa3]%N.

Record TransportDescriptor : Type := mkTransport {
  td_name : bytes;
  td_piece_length : N;
  td_chunk_length : N;
  td_bitrate : option Z;
  td_categories : list bytes;
  td_trackers : list bytes;
  td_pubkey : bytes;
  td_pieces : list bytes;
  is_live : bool;
  td_raw : Bencode;
}.

Definition protection (d : TransportDescriptor) : Result Protection :=
  classify (get (td_raw d) (bs "premium")).

Definition vod_total_length (d : TransportDescriptor) : option N :=
  i ← get (td_raw d) (bs "length") ≫= as_int;
  if (0 <? i)%Z then Some (Z.to_N i) else None.

Definition is_multifile (d : TransportDescriptor) : bool :=
  match get (td_raw d) (bs "files") with Some (BList _) => true | _ => false end.

Definition MAX_CATEGORIES : nat := 32.
Definition MAX_CATEGORY_BYTES : nat := 128.

Definition bounded_text (b : bytes) (max_bytes : nat) : option bytes :=
  let text := trim (from_utf8_lossy b) in
  if bool_decide (text = []) then None
  else Some (take (floor_boundary text (length text `min` max_bytes)) text).

Definition decode_categories (raw : Bencode) : list bytes :=
  match get raw (bs "categories") with
  | Some (BList items) =>
      take MAX_CATEGORIES
        (omap (λ v, bounded_text v MAX_CATEGORY_BYTES) (omap as_bytes items))
  | Some (BBytes v) =>
      match bounded_text v MAX_CATEGORY_BYTES with Some t => [t] | None => [] end
  | _ => []
  end.

Definition required_positive (raw : Bencode) (key : bytes) : Result N :=
  match get raw key ≫= as_int with
  | Some i => if (0 <? i)%Z then Ok (Z.to_N i)
              else Err (Invalid "missing or non-positive descriptor field")
  | None => Err (Invalid "missing or non-positive descriptor field")
  end.

Definition decode_trackers (raw : Bencode) : list bytes :=
  match get raw (bs "trackers") with
  | Some (BList l) => map from_utf8_lossy (omap as_bytes l)
  | _ => []
  end.

Definition decode_pieces (raw : Bencode) : list bytes :=
  match get raw (bs "pieces") with
  | Some (BBytes p) =>
      if is_multiple_of (lenN p) 20 && negb (bool_decide (p = [])) then chunks_exact 20 p else []
  | _ => []
  end.

Section Transport.
Context `{Cbc}.

Definition decode_transport_with_key (b key iv : bytes) : Result TransportDescriptor :=
  if negb (is_transport_file b) then Err (Invalid "not a transport file")
  else
    version ← ok_or (slice_get b 18 20) Truncated;
    if negb (bool_decide (version = map N_byte [0; 2]%N)) then
      Err (Invalid "unsupported transport version")
    else
      let body := drop 20 b in
      if bool_decide (body = []) || negb (is_multiple_of (lenN body) 16) then
        Err (Invalid "bad transport body length")
      else
        pt ← ok_or (cbc_decrypt key iv body) (Invalid "aes/pad");
        raw ← Bencode.parse pt;
        if negb (is_dict raw) then Err (Invalid "descriptor not a dict")
        else
          let name := from_option from_utf8_lossy [] (get raw (bs "name") ≫= as_bytes) in
          piece_length ← required_positive raw (bs "piece_length");
          chunk_length ← required_positive raw (bs "chunk_length");
          let bitrate := get raw (bs "bitrate") ≫= as_int in
          let categories := decode_categories raw in
          let pubkey := default [] (get raw (bs "pubkey") ≫= as_bytes) in
          let trackers := decode_trackers raw in
          let pieces := decode_pieces raw in
          Ok (mkTransport name piece_length chunk_length bitrate categories trackers pubkey
                pieces (bool_decide (pieces = [])) raw).

Definition decode_transport (b : bytes) : Result TransportDescriptor :=
  decode_transport_with_key b TRANSPORT_KEY TRANSPORT_IV.

Definition encode_transport_with_key (descriptor : Bencode) (key iv : bytes) : bytes :=
  bs "AceStreamTransport" ++ map N_byte [0; 2]%N ++ cbc_encrypt key iv (encode descriptor).

Definition encode_transport (descriptor : Bencode) : bytes :=
  encode_transport_with_key descriptor TRANSPORT_KEY TRANSPORT_IV.

(** ** The swarm infohash *)

Variable sha1 : bytes → bytes.

Definition transport_file_hash (b : bytes) : bytes := sha1 b.

Definition hash_descriptor (descriptor : Bencode) (include_optional : bool) : Result bytes :=
  sha1 <$> infohash_preimage descriptor include_optional.

Definition infohash_of_descriptor (descriptor : Bencode) : Result bytes :=
  hash_descriptor descriptor true.

Definition infohash_of_decoded_transport (d : TransportDescriptor) : Result bytes :=
  hash_descriptor (td_raw d) (is_live d).

Definition try_infohash_of_transport (b : bytes) : Result bytes :=
  d ← decode_transport b; infohash_of_decoded_transport d.

(** ** The disk envelope *)

Definition DISK_MARKER : bytes :=
  map N_byte [0x01; 0x02; 0x03; 0x04; 0x11; 0x02; 0x65; 0x2e]%N.
Definition MAX_DISK_BYTES : N := 1048576.
Definition DISK_KEY : bytes := map N_byte
  [0x82; 0x4e; 0x0b; 0xc1; 0x14; 0xf5; 0x8c; 0xdb; 0x5a; 0x49; 0xa0; 0xc0; 0xf1; 0x42; 0xb4; 0x24]%N.
Definition DISK_IV : bytes := replicate 16 x00.

Definition is_disk_envelope (b : bytes) : bool := starts_with b DISK_MARKER.

Definition decode_disk_metainfo (b : bytes) : Result Metainfo :=
  if (MAX_DISK_BYTES <? lenN b)%N then Err (Invalid "disk envelope too large")
  else if negb (is_disk_envelope b) then Err (Invalid "not a disk envelope")
  else if bool_decide (length b < length DISK_MARKER + 16) then Err Truncated
  else
    let body := drop (length DISK_MARKER) b in
    if negb (is_multiple_of (lenN body) 16) then Err (Invalid "bad disk envelope body length")
    else
      plaintext ← ok_or (cbc_decrypt DISK_KEY DISK_IV body) (Invalid "disk aes/pad");
      decode_metainfo sha1 plaintext.

End Transport.

(** ** A concrete instance

    The padding of PKCS#7 without a cipher. *)

Definition pad_len (l : nat) : nat := 16 - l `mod` 16.
Definition toy_cbc : Cbc := {|
  cbc_encrypt := λ _ _ pt, pt ++ replicate (pad_len (length pt)) (N_byte (N.of_nat (pad_len (length pt))));
  cbc_decrypt := λ _ _ ct, b ← last ct; Some (take (length ct - N.to_nat (byte_N b)) ct);
|}.

Lemma toy_cbc_laws : @CbcLaws toy_cbc.
Proof.
  assert (∀ n, n `mod` 16 < 16) as Hm by (intros; by apply Nat.mod_upper_bound).
  split; intros key iv pt; cbn [cbc_encrypt cbc_decrypt toy_cbc]; pose proof (Hm (length pt));
    unfold pad_len.
  - destruct (16 - length pt `mod` 16) as [|n] eqn:E; [lia|].
    rewrite replicate_S_end, app_assoc, last_snoc. simpl. f_equal.
    rewrite byte_N_of_N by lia. rewrite <-app_assoc, <-replicate_S_end, take_app_length'; [done|].
    rewrite length_app, length_replicate. lia.
  - rewrite length_app, length_replicate. pose proof (Nat.div_mod_eq (length pt) 16). lia.
Qed.

(** ** Lemmas *)

Lemma bounded_text_ok b max t : bounded_text b max = Some t →
  length t ≤ max ∧ utf8_valid t = true.
Proof.
  unfold bounded_text. case_bool_decide; [done|]. intros [= <-].
  pose proof (trim_text _ (from_utf8_lossy_text b)) as Ht.
  set (text := trim (from_utf8_lossy b)) in *.
  destruct (floor_boundary_spec text (length text `min` max)) as [Hb Hle]. split.
  - rewrite length_take. lia.
  - apply utf8_text_valid. by apply utf8_text_cut.
Qed.

Definition bounded_label (t : bytes) : Prop := length t ≤ MAX_CATEGORY_BYTES ∧ utf8_valid t = true.

Lemma decode_categories_ok raw :
  length (decode_categories raw) ≤ MAX_CATEGORIES ∧ Forall bounded_label (decode_categories raw).
Proof.
  unfold decode_categories. destruct (get raw _) as [[| b | items |]|]; try by split; [simpl; lia|].
  - destruct (bounded_text b MAX_CATEGORY_BYTES) as [t|] eqn:E; [|by split; [simpl; lia|]].
    split; [unfold MAX_CATEGORIES; simpl; lia|]. apply Forall_singleton.
    by apply bounded_text_ok in E.
  - split; [rewrite length_take; lia|]. apply Forall_take, Forall_forall.
    intros t (v & _ & Hv)%list_elem_of_omap. by apply bounded_text_ok in Hv.
Qed.

Lemma required_positive_Ok raw key n : wf raw = true → required_positive raw key = Ok n →
  (0 < n)%N ∧ (Z.of_N n ≤ i64_max)%Z ∧ get raw key = Some (BInt (Z.of_N n)).
Proof.
  unfold required_positive. intros Hw.
  destruct (get raw key ≫= as_int) as [i|] eqn:E; [|done].
  destruct (Z.ltb_spec 0 i); [|done]. intros [= <-].
  pose proof (get_int_range _ _ _ Hw E). split_and!; [lia|lia|].
  apply bind_Some in E as ([] & E & Hi); try done. simplify_eq/=. rewrite E. do 2 f_equal. lia.
Qed.

Lemma decode_pieces_ok raw : Forall (λ h, length h = 20) (decode_pieces raw) ∧
  (decode_pieces raw ≠ [] → get raw (bs "pieces") = Some (BBytes (concat (decode_pieces raw)))).
Proof.
  unfold decode_pieces. destruct (get raw (bs "pieces")) as [[|p| |]|]; try done.
  unfold is_multiple_of. simpl. destruct (N.eqb_spec (lenN p `mod` 20) 0) as [Hm|]; [|done].
  case_bool_decide; [done|]. simpl. pose proof (N.div_mod (lenN p) 20 ltac:(done)) as Hd.
  destruct (chunks_exact_all 20 p (N.to_nat (lenN p `div` 20))) as (_ & Hall & Hc);
    [lia|unfold lenN in *; lia|]. by rewrite Hc.
Qed.

Section laws.
Context `{CbcLaws}.

Lemma decode_encoded_transport d key iv pl cl :
  wf d = true → is_dict d = true → nest d ≤ MAX_DEPTH → (lenN (encode d) < two64)%N →
  required_positive d (bs "piece_length") = Ok pl → required_positive d (bs "chunk_length") = Ok cl →
  ∃ t, decode_transport_with_key (encode_transport_with_key d key iv) key iv = Ok t ∧ td_raw t = d ∧
    td_piece_length t = pl ∧ td_chunk_length t = cl ∧ is_live t = bool_decide (decode_pieces d = []).
Proof.
  intros Hw Hd Hn Hl Hp Hc. unfold decode_transport_with_key, encode_transport_with_key.
  set (ct := cbc_encrypt key iv (encode d)).
  pose proof (cbc_blocks key iv (encode d)) as Hct. fold ct in Hct.
  set (file := bs "AceStreamTransport" ++ map N_byte [0; 2]%N ++ ct).
  assert (is_transport_file file = true) as Hm by apply starts_with_app. rewrite Hm.
  assert (slice_get file 18 20 = Some (map N_byte [0; 2]%N)) as Hv.
  { apply slice_get_Some. split_and!; [|lia|unfold file; rewrite !length_app; simpl; lia].
    symmetry. apply (slice_app_mid (bs "AceStreamTransport") (map N_byte [0; 2]%N) ct). }
  rewrite Hv. cbn [negb ok_or mbind result_bind]. rewrite bool_decide_true by done.
  assert (drop 20 file = ct) as Hb by done.
  rewrite Hb. cbn [negb]. rewrite bool_decide_false by (intros E; rewrite E in Hct; simpl in Hct; lia).
  assert (is_multiple_of (lenN ct) 16 = true) as Hmul.
  { unfold is_multiple_of. simpl. apply N.eqb_eq. unfold lenN. rewrite Hct.
    rewrite Nat2N.inj_mul, N.mul_comm. by apply N.Div0.mod_mul. }
  rewrite Hmul. cbn [orb negb]. unfold ct. rewrite cbc_roundtrip. cbn [ok_or mbind result_bind].
  rewrite parse_encoded by done. cbn [mbind result_bind]. rewrite Hd. cbn [negb].
  rewrite Hp, Hc. cbn [mbind result_bind]. by eexists.
Qed.
End laws.

Lemma decode_transport_inv `{Cbc} b key iv t : decode_transport_with_key b key iv = Ok t →
  wf (td_raw t) = true ∧ is_dict (td_raw t) = true ∧
  required_positive (td_raw t) (bs "piece_length") = Ok (td_piece_length t) ∧
  required_positive (td_raw t) (bs "chunk_length") = Ok (td_chunk_length t) ∧
  td_categories t = decode_categories (td_raw t) ∧ td_pieces t = decode_pieces (td_raw t) ∧
  td_trackers t = decode_trackers (td_raw t) ∧
  td_name t = from_option from_utf8_lossy [] (get (td_raw t) (bs "name") ≫= as_bytes) ∧
  is_live t = bool_decide (td_pieces t = []).
Proof.
  unfold decode_transport_with_key. destruct (is_transport_file b); [|done]. cbn [negb].
  intros (version & _ & E)%bind_Ok_inv. destruct (negb _); [done|].
  destruct (_ || _); [done|].
  apply bind_Ok_inv in E as (pt & _ & E). apply bind_Ok_inv in E as (raw & Hr & E).
  destruct (is_dict raw) eqn:Hd; [|done]. cbn [negb] in E.
  apply bind_Ok_inv in E as (pl & Hp & E). apply bind_Ok_inv in E as (cl & Hc & E).
  injection E as <-. simpl. apply parse_inv in Hr as (_ & Hw & _). done.
Qed.

(** ** Identity lemmas *)

(** The value a list of selector pairs records for a key. *)
Definition pair_value (pairs : list Bencode) (key : bytes) : option Bencode :=
  foldr (λ p acc, match p with
    | BList [BBytes k; v] => if decide (k = key) then Some v else acc
    | _ => acc
    end) None pairs.

Lemma required_pairs_value d keys pairs key : NoDup keys → required_pairs d keys = Ok pairs →
  key ∈ keys → pair_value pairs key = get d key ∧ is_Some (get d key).
Proof.
  intros Hnd. revert pairs. induction keys as [|k keys IH]; intros pairs; simpl; [set_solver|].
  apply NoDup_cons in Hnd as [Hk Hnd]. intros (v & Hv & (rest & Hr & [= <-])%bind_Ok_inv)%bind_Ok_inv.
  apply ok_or_Ok_inv in Hv. intros Hin. simpl. case_decide as Heq; [subst; rewrite Hv; by eauto|].
  apply IH; [done|done|set_solver].
Qed.

Lemma required_pairs_keys d keys pairs key rest : required_pairs d keys = Ok pairs → key ∉ keys →
  pair_value (pairs ++ rest) key = pair_value rest key.
Proof.
  revert pairs. induction keys as [|k keys IH]; intros pairs; simpl; [by intros [= <-]|].
  intros (v & Hv & (more & Hr & [= <-])%bind_Ok_inv)%bind_Ok_inv Hn. simpl.
  rewrite decide_False by set_solver. apply IH; [done|set_solver].
Qed.

Lemma required_pairs_app d keys pairs key rest : required_pairs d keys = Ok pairs → key ∈ keys →
  pair_value (pairs ++ rest) key = pair_value pairs key.
Proof.
  revert pairs. induction keys as [|k keys IH]; intros pairs; simpl; [set_solver|].
  intros (v & Hv & (more & Hr & [= <-])%bind_Ok_inv)%bind_Ok_inv Hin. simpl.
  case_decide; [done|]. apply IH; [done|set_solver].
Qed.

Lemma optional_pairs_value d keys key : NoDup keys → key ∈ keys →
  pair_value (omap (λ key, pair_of key <$> get d key) keys) key = get d key.
Proof.
  induction keys as [|k keys IH]; [set_solver|]. intros [Hk Hnd]%NoDup_cons Hin. csimpl.
  destruct (get d k) as [v|] eqn:E; simpl.
  - case_decide; [by subst|]. apply IH; [done|set_solver].
  - apply elem_of_cons in Hin as [->|Hin]; [|by apply IH]. rewrite E.
    assert (∀ l, k ∉ l → pair_value (omap (λ key, pair_of key <$> get d key) l) k = None) as Hno;
      [|by apply Hno].
    induction l as [|k' l IHl]; [done|]. intros Hnl. csimpl. destruct (get d k'); simpl;
      [rewrite decide_False by set_solver|]; apply IHl; set_solver.
Qed.

(** A list of pairs taken from a descriptor. *)
Definition from_descriptor (d : Bencode) (p : Bencode) : Prop :=
  ∃ k v, p = pair_of k v ∧ get d k = Some v.

Lemma required_pairs_from d keys pairs : required_pairs d keys = Ok pairs →
  Forall (from_descriptor d) pairs.
Proof.
  revert pairs. induction keys as [|k keys IH]; intros pairs; simpl; [intros [= <-]; constructor|].
  intros (v & Hv & (more & Hr & [= <-])%bind_Ok_inv)%bind_Ok_inv. apply ok_or_Ok_inv in Hv.
  constructor; [by eexists _, _|]. by apply IH.
Qed.

Lemma optional_pairs_from d : Forall (from_descriptor d) (optional_pairs d).
Proof.
  apply Forall_forall. unfold optional_pairs.
  intros p (k & _ & (v & Hv & ->)%fmap_Some)%list_elem_of_omap. by eexists _, _.
Qed.

Lemma get_nest d k v : get d k = Some v → nest v < nest d.
Proof.
  destruct d as [| | |d]; try done. simpl. induction d as [|[k' w] d IH]; simpl; [done|].
  case_decide; [intros [= <-]; lia|]. intros Hv%IH. lia.
Qed.

Lemma pairs_ok d pairs : wf d = true → nest d ≤ MAX_DEPTH - 1 → Forall (from_descriptor d) pairs →
  wf (BList pairs) = true ∧ nest (BList pairs) ≤ MAX_DEPTH.
Proof.
  intros Hw Hn Hp. split.
  - simpl. apply forallb_Forall. eapply Forall_impl; [exact Hp|].
    intros p (k & v & -> & Hv). simpl. rewrite (get_wf _ _ _ Hw Hv). done.
  - simpl. assert (max_list (map nest pairs) ≤ MAX_DEPTH - 1); [|unfold MAX_DEPTH in *; lia].
    apply max_list_bound. apply Forall_map. eapply Forall_impl; [exact Hp|].
    intros p (k & v & -> & Hv%get_nest). simpl. unfold MAX_DEPTH in *. lia.
Qed.

(** What a preimage records, read back. *)
Lemma preimage_pairs d opt pre : infohash_preimage d opt = Ok pre →
  ∃ pairs, pre = encode (BList pairs) ∧ Forall (from_descriptor d) pairs ∧
    (∀ key, key ∈ required_fields → pair_value pairs key = get d key ∧ is_Some (get d key)) ∧
    (∀ key, key ∈ optional_fields → pair_value pairs key = if opt then get d key else None).
Proof.
  intros (req & Hr & [= <-])%bind_Ok_inv. eexists. split; [done|].
  assert (NoDup required_fields) by (apply (bool_decide_unpack _); vm_compute; done).
  assert (NoDup optional_fields) by (apply (bool_decide_unpack _); vm_compute; done).
  assert (∀ key, key ∈ optional_fields → key ∉ required_fields) as Hdisj.
  { assert (Forall (λ key, key ∉ required_fields) optional_fields) as Hf
      by (apply (bool_decide_unpack _); vm_compute; done). by rewrite Forall_forall in Hf. }
  split_and!.
  - apply Forall_app. split; [by eapply required_pairs_from|].
    destruct opt; [apply optional_pairs_from|constructor].
  - intros key Hk. rewrite (required_pairs_app _ _ _ _ _ Hr Hk). by apply (required_pairs_value d required_fields).
  - intros key Hk. rewrite (required_pairs_keys _ _ _ _ _ Hr) by auto.
    destruct opt; [|done]. by apply optional_pairs_value.
Qed.

(** ** Theorems *)

(** transport files round-trip.  Encrypting and wrapping a well-formed descriptor with
    positive geometry and decoding it gives the same dictionary back with its lengths, and the
    swarm infohash computed from the file is the one computed from the descriptor, with the
    optional selector fields exactly when it is a live stream. *)
Theorem transport_roundtrip `{CbcLaws} sha1 d pl cl :
  wf d = true → is_dict d = true → nest d ≤ MAX_DEPTH → (lenN (encode d) < two64)%N →
  required_positive d (bs "piece_length") = Ok pl → required_positive d (bs "chunk_length") = Ok cl →
  ∃ t, decode_transport (encode_transport d) = Ok t ∧ td_raw t = d ∧ td_piece_length t = pl ∧
    td_chunk_length t = cl ∧
    try_infohash_of_transport sha1 (encode_transport d) =
      hash_descriptor sha1 d (bool_decide (decode_pieces d = [])).
Proof.
  intros Hw Hd Hn Hl Hp Hc.
  destruct (decode_encoded_transport d TRANSPORT_KEY TRANSPORT_IV pl cl) as (t & Ht & Hr & H1 & H2 & H3);
    [done..|]. exists t. split_and!; try done.
  unfold try_infohash_of_transport, decode_transport, encode_transport. rewrite Ht.
  cbn [mbind result_bind]. unfold infohash_of_decoded_transport. by rewrite Hr, H3.
Qed.

Definition sample_descriptor : Bencode := BDict
  [(bs "authmethod", BBytes (bs "RSA")); (bs "bitrate", BInt 9);
   (bs "categories", BList [BBytes (bs " tv "); BBytes []]); (bs "chunk_length", BInt 16384);
   (bs "name", BBytes (bs "n")); (bs "piece_length", BInt 1048576); (bs "premium", BInt 0);
   (bs "pubkey", BBytes [])].

Lemma transport_roundtrip_witness :
  ∃ t, @decode_transport toy_cbc (@encode_transport toy_cbc sample_descriptor) = Ok t ∧
    td_raw t = sample_descriptor.
Proof.
  destruct (@transport_roundtrip toy_cbc toy_cbc_laws (take 20) sample_descriptor 1048576 16384)
    as (t & Ht & Hr & _); [first [vm_compute; reflexivity | unfold MAX_DEPTH; simpl; lia]..|].
  exists t. split; [exact Ht|exact Hr].
Defined.

(** a decoded transport descriptor is sane, whatever the decrypted bytes.  Its lengths are
    positive [i64]s, its piece hashes are 20 bytes each and together the [pieces] field, it is
    live exactly when there are none, there are at most 32 categories of at most 128 bytes, and
    every text field is valid UTF-8. *)
Theorem decoded_transport_sane `{Cbc} b key iv t :
  decode_transport_with_key b key iv = Ok t →
  (0 < td_piece_length t)%N ∧ (Z.of_N (td_piece_length t) ≤ i64_max)%Z ∧
  (0 < td_chunk_length t)%N ∧ (Z.of_N (td_chunk_length t) ≤ i64_max)%Z ∧
  Forall (λ h, length h = 20) (td_pieces t) ∧ is_live t = bool_decide (td_pieces t = []) ∧
  (is_live t = false → get (td_raw t) (bs "pieces") = Some (BBytes (concat (td_pieces t)))) ∧
  length (td_categories t) ≤ MAX_CATEGORIES ∧ Forall bounded_label (td_categories t) ∧
  utf8_valid (td_name t) = true ∧ Forall (λ u, utf8_valid u = true) (td_trackers t).
Proof.
  intros (Hw & _ & Hp & Hc & Hcat & Hpc & Htr & Hname & Hlive)%decode_transport_inv.
  destruct (required_positive_Ok _ _ _ Hw Hp) as (? & ? & _).
  destruct (required_positive_Ok _ _ _ Hw Hc) as (? & ? & _).
  destruct (decode_categories_ok (td_raw t)) as [? ?].
  destruct (decode_pieces_ok (td_raw t)) as [? Hpieces].
  rewrite Hcat, Hname, Htr, Hlive, Hpc. split_and!; try done.
  - intros Hne%bool_decide_eq_false. auto.
  - destruct (get _ _ ≫= as_bytes); [|done]. apply utf8_text_valid, from_utf8_lossy_text.
  - unfold decode_trackers. destruct (get _ (bs "trackers")) as [[| |l|]|]; try done.
    apply Forall_map, Forall_forall. intros u _. apply utf8_text_valid, from_utf8_lossy_text.
Qed.

Lemma decoded_transport_sane_witness :
  ∃ t, @decode_transport_with_key toy_cbc (@encode_transport_with_key toy_cbc sample_descriptor [] []) [] [] = Ok t ∧
    Forall bounded_label (td_categories t).
Proof.
  eexists (mkTransport (bs "n") 1048576 16384 (Some 9%Z) [bs "tv"] [] [] [] true sample_descriptor).
  assert (@decode_transport_with_key toy_cbc (@encode_transport_with_key toy_cbc sample_descriptor [] []) [] []
    = Ok (mkTransport (bs "n") 1048576 16384 (Some 9%Z) [bs "tv"] [] [] [] true sample_descriptor)) as E
    by (vm_compute; reflexivity).
  split; [exact E|]. apply (@decoded_transport_sane toy_cbc _ _ _ _ E).
Defined.

(** the infohash identifies the stream.  Two descriptors that hash are hashed over byte
    strings which, if equal, prove that all six required selector fields agree and that the
    optional ones that count agree: distinct streams share an infohash only by a collision of
    SHA-1, never through an ambiguous encoding. *)
Theorem infohash_identity sha1 d1 d2 o1 o2 h1 h2 :
  wf d1 = true → wf d2 = true → nest d1 ≤ MAX_DEPTH - 1 → nest d2 ≤ MAX_DEPTH - 1 →
  hash_descriptor sha1 d1 o1 = Ok h1 → hash_descriptor sha1 d2 o2 = Ok h2 →
  ∃ pre1 pre2, h1 = sha1 pre1 ∧ h2 = sha1 pre2 ∧
    ((lenN pre1 < two64)%N → pre1 = pre2 →
      (∀ key, key ∈ required_fields → get d1 key = get d2 key ∧ is_Some (get d1 key)) ∧
      (∀ key, key ∈ optional_fields →
        (if o1 then get d1 key else None) = (if o2 then get d2 key else None))).
Proof.
  intros W1 W2 N1 N2. unfold hash_descriptor.
  destruct (infohash_preimage d1 o1) as [pre1|] eqn:P1; [|done].
  destruct (infohash_preimage d2 o2) as [pre2|] eqn:P2; [|done]. intros [= <-] [= <-].
  exists pre1, pre2. split_and!; try done. intros Hlen Heq. subst pre2.
  destruct (preimage_pairs _ _ _ P1) as (l1 & E1 & F1 & R1 & O1).
  destruct (preimage_pairs _ _ _ P2) as (l2 & E2 & F2 & R2 & O2).
  destruct (pairs_ok _ _ W1 N1 F1) as [Wl1 Nl1]. destruct (pairs_ok _ _ W2 N2 F2) as [Wl2 Nl2].
  assert (BList l1 = BList l2) as [= ->].
  { pose proof (parse_encoded _ Wl1 Nl1) as Q1. pose proof (parse_encoded _ Wl2 Nl2) as Q2.
    rewrite <-E1 in Q1. rewrite <-E2 in Q2. rewrite Q1 in Q2 by done.
    specialize (Q2 Hlen). congruence. }
  split; intros key Hk.
  - destruct (R1 _ Hk) as [<- ?], (R2 _ Hk) as [<- ?]. done.
  - by rewrite <-O1, <-O2.
Qed.

Lemma infohash_identity_witness :
  ∃ pre1 pre2, hash_descriptor (take 20) sample_descriptor true = Ok (take 20 pre1) ∧
    hash_descriptor (take 20) sample_descriptor false = Ok (take 20 pre2).
Proof.
  destruct (infohash_identity (take 20) sample_descriptor sample_descriptor true false
    (take 20 (bs "ll4:name1:nel10:authmethod3:RSAe")) (take 20 (bs "ll4:name1:nel10:authmethod3:RSAe")))
    as (p1 & p2 & E1 & E2 & _);
    [first [vm_compute; reflexivity | unfold MAX_DEPTH; simpl; lia]..|].
  exists p1, p2. rewrite <-E1, <-E2. split; vm_compute; reflexivity.
Defined.

(** the disk envelope is transparent.  An enveloped plaintext that fits the size limit is
    decoded exactly as the strict metainfo decoder decodes the plaintext, errors included; and
    a buffer that is too large, has another marker or is too short is refused before any
    decryption, with the matching error. *)
Theorem disk_envelope_transparent `{CbcLaws} sha1 pt b :
  (lenN (DISK_MARKER ++ cbc_encrypt DISK_KEY DISK_IV pt) ≤ MAX_DISK_BYTES)%N →
  decode_disk_metainfo sha1 (DISK_MARKER ++ cbc_encrypt DISK_KEY DISK_IV pt) =
    decode_metainfo sha1 pt ∧
  ((MAX_DISK_BYTES < lenN b)%N →
    decode_disk_metainfo sha1 b = Err (Invalid "disk envelope too large")) ∧
  ((lenN b ≤ MAX_DISK_BYTES)%N → is_disk_envelope b = false →
    decode_disk_metainfo sha1 b = Err (Invalid "not a disk envelope")) ∧
  (is_disk_envelope b = true → length b < 24 → decode_disk_metainfo sha1 b = Err Truncated).
Proof.
  intros Hlen. unfold decode_disk_metainfo. split_and!.
  - rewrite (proj2 (N.ltb_ge _ _)) by done.
    assert (is_disk_envelope (DISK_MARKER ++ cbc_encrypt DISK_KEY DISK_IV pt) = true) as ->
      by apply starts_with_app.
    pose proof (cbc_blocks DISK_KEY DISK_IV pt) as Hb. cbn [negb].
    rewrite bool_decide_false by (rewrite length_app; lia). rewrite drop_app_length.
    assert (is_multiple_of (lenN (cbc_encrypt DISK_KEY DISK_IV pt)) 16 = true) as ->.
    { unfold is_multiple_of. simpl. apply N.eqb_eq. unfold lenN. rewrite Hb.
      rewrite Nat2N.inj_mul, N.mul_comm. by apply N.Div0.mod_mul. }
    cbn [negb]. by rewrite cbc_roundtrip.
  - intros Hb. by rewrite (proj2 (N.ltb_lt _ _)).
  - intros Hb Hm. by rewrite (proj2 (N.ltb_ge _ _)), Hm.
  - intros Hm Hb. rewrite (proj2 (N.ltb_ge _ _)), Hm by (unfold MAX_DISK_BYTES, lenN; lia).
    cbn [negb]. by rewrite bool_decide_true by (simpl; lia).
Qed.

Lemma disk_envelope_transparent_witness :
  ∃ m, @decode_disk_metainfo toy_cbc sample_digest
    (DISK_MARKER ++ @cbc_encrypt toy_cbc DISK_KEY DISK_IV sample_metainfo) = Ok m.
Proof.
  exists sample_decoded.
  destruct (@disk_envelope_transparent toy_cbc toy_cbc_laws sample_digest sample_metainfo [])
    as (E & _); [vm_compute; done|]. rewrite E. vm_compute. reflexivity.
Defined.
