(* ===== verification/LiveCodec.v ===== *)
(** * Live chunk messages

    [ace-wire/src/live_codec.rs]: the AceStream live request, availability, bitfield and piece
    messages, and the inspection of a received piece.  An [f64] timestamp is its 64-bit
    pattern. *)

From S2P Require Import Prelude Bytes Wire Message.

Local Open Scope N_scope.

Definition piece_header_from_unix_seconds (f64_bits : N) : bytes := u64_be f64_bits.

Definition chunk_request (piece chunk : N) : PeerMessage :=
  Unknown (N_byte 6) (replicate 4 x00 ++ u32_be piece ++ u16_be chunk).

Definition live_have (piece : N) : PeerMessage :=
  Unknown (N_byte 4) (replicate 4 x00 ++ u32_be piece).

(** [bits[(bit / 8) as usize] |= 0x80 >> (bit % 8)]. *)
Definition set_bit (bits : bytes) (bit : N) : bytes :=
  alter (λ b, N_byte (N.lor (byte_N b) (N.shiftr 0x80 (bit `mod` 8)))) (N.to_nat (bit `div` 8)) bits.

Definition live_bits (bit_count : N) : bytes :=
  fold_left (λ bits bit, set_bit bits (N.of_nat bit)) (seq 0 (N.to_nat bit_count))
    (replicate (N.to_nat (div_ceil bit_count 8)) x00).

Definition live_bitfield (first_piece bit_count : N) : PeerMessage :=
  Bitfield (replicate 4 x00 ++ u32_be first_piece ++ u32_be bit_count ++ live_bits bit_count).

Definition build_piece (stream piece chunk : N) (piece_header data : bytes) : PeerMessage :=
  Piece stream piece (piece_header ++ u16_be chunk ++ data).

(** [LiveChunk] and its borrowing view, which differ only in ownership. *)
Record LiveChunk : Type := mkLiveChunk {
  lc_piece : N;
  lc_piece_header : bytes;
  lc_chunk : N;
  lc_data : bytes;
}.

Definition borrow_from_message (msg : PeerMessage) : option LiveChunk :=
  match msg with
  | Piece _ begin block =>
      if bool_decide (length block < 10)%nat then None
      else Some (mkLiveChunk begin (take 8 block) (be_N (slice block 8 10)) (drop 10 block))
  | _ => None
  end.

Definition from_message (msg : PeerMessage) : option LiveChunk :=
  view ← borrow_from_message msg;
  Some (mkLiveChunk (lc_piece view) (lc_piece_header view) (lc_chunk view) (lc_data view)).

(** The bit of an MSB-first bitfield that stands for the [k]-th piece. *)
Definition has_bit (bits : bytes) (k : N) : bool :=
  match bits !! N.to_nat (k `div` 8) with
  | Some b => N.testbit (byte_N b) (7 - k `mod` 8)
  | None => false
  end.

(** ** Lemmas *)

Lemma from_build_piece stream piece chunk header data :
  length header = 8%nat → chunk < two16 →
  from_message (build_piece stream piece chunk header data) =
    Some (mkLiveChunk piece header chunk data).
Proof.
  intros Hh Hc. unfold from_message, build_piece, borrow_from_message.
  rewrite bool_decide_false by (rewrite !length_app, Hh; simpl; lia).
  cbn [mbind option_bind lc_piece lc_piece_header lc_chunk lc_data].
  assert (slice (header ++ u16_be chunk ++ data) 8 10 = u16_be chunk) as E
    by (pose proof (slice_app_mid header (u16_be chunk) data) as E; by rewrite Hh in E).
  rewrite E. unfold u16_be. rewrite be_N_be_bytes by done.
  rewrite take_app_length' by done. rewrite app_assoc, drop_app_length'; [done|].
  by rewrite length_app, Hh, be_bytes_length.
Qed.

Lemma shiftr_0x80 r : r < 8 → N.shiftr 0x80 r = 2 ^ (7 - r).
Proof. intros Hr. rewrite N.shiftr_div_pow2. do 8 (destruct r as [|r] using N.peano_ind; [done|clear IHr]); lia. Qed.

Lemma testbit_set_bit b m k : m < 8 → k < 8 →
  N.testbit (byte_N (N_byte (N.lor (byte_N b) (N.shiftr 0x80 m)))) (7 - k) =
    N.testbit (byte_N b) (7 - k) || (k =? m).
Proof.
  intros Hm Hk. rewrite shiftr_0x80 by done.
  assert (N.lor (byte_N b) (2 ^ (7 - m)) < 256) as Hlt.
  { destruct (N.eq_dec (N.lor (byte_N b) (2 ^ (7 - m))) 0) as [->|Hz]; [done|].
    apply (N.log2_lt_pow2 _ 8); [lia|]. rewrite N.log2_lor, N.log2_pow2 by lia.
    apply N.max_lub_lt; [|lia].
    pose proof (byte_N_lt b). destruct (N.eq_dec (byte_N b) 0) as [->|]; [done|].
    apply N.log2_lt_pow2; lia. }
  rewrite byte_N_of_N, N.lor_spec, N.pow2_bits_eqb by done. f_equal.
  destruct (N.eqb_spec (7 - m) (7 - k)), (N.eqb_spec k m); lia.
Qed.

Lemma set_bit_length bits m : length (set_bit bits m) = length bits.
Proof. apply length_alter. Qed.

Lemma has_bit_set_bit bits m k :
  k `div` 8 < lenN bits →
  has_bit (set_bit bits m) k = has_bit bits k || (k =? m).
Proof.
  intros Hk. unfold has_bit, set_bit, lenN in *.
  pose proof (N.div_mod k 8 ltac:(lia)) as Ek. pose proof (N.mod_lt k 8 ltac:(lia)) as Lk.
  pose proof (N.div_mod m 8 ltac:(lia)) as Em. pose proof (N.mod_lt m 8 ltac:(lia)) as Lm.
  destruct (lookup_lt_is_Some_2 bits (N.to_nat (k `div` 8))) as [b Hb]; [lia|].
  destruct (N.eq_dec (k `div` 8) (m `div` 8)) as [E|E].
  - rewrite <-E, list_lookup_alter_eq, Hb. simpl. rewrite testbit_set_bit by done.
    f_equal. destruct (N.eqb_spec (k `mod` 8) (m `mod` 8)), (N.eqb_spec k m); lia.
  - rewrite list_lookup_alter_ne, Hb by lia. destruct (N.eqb_spec k m); [congruence|].
    by rewrite orb_false_r.
Qed.

Lemma live_bits_loop bits n k :
  k `div` 8 < lenN bits →
  has_bit (fold_left (λ bits bit, set_bit bits (N.of_nat bit)) (seq 0 n) bits) k =
    has_bit bits k || (k <? N.of_nat n).
Proof.
  intros Hk. induction n as [|n IH].
  { cbn [seq fold_left]. destruct (N.ltb_spec k (N.of_nat 0)); [lia|]. by rewrite orb_false_r. }
  rewrite seq_S, fold_left_app. cbn [fold_left]. rewrite has_bit_set_bit, IH.
  - rewrite <-orb_assoc. f_equal. simpl Nat.add.
    destruct (N.ltb_spec k (N.of_nat n)), (N.ltb_spec k (N.of_nat (S n))),
      (N.eqb_spec k (N.of_nat n)); simpl; lia.
  - assert (∀ l bs0, length (fold_left (λ bits bit, set_bit bits (N.of_nat bit)) l bs0)
      = length bs0) as Hlen.
    { induction l as [|x l IHl]; intros b0; simpl; [done|]. by rewrite IHl, set_bit_length. }
    unfold lenN in *. by rewrite Hlen.
Qed.

Lemma live_bits_length bit_count : lenN (live_bits bit_count) = div_ceil bit_count 8.
Proof.
  unfold live_bits, lenN.
  assert (∀ l bs0, length (fold_left (λ bits bit, set_bit bits (N.of_nat bit)) l bs0) = length bs0) as Hl.
  { induction l as [|x l IHl]; intros b0; simpl; [done|]. by rewrite IHl, set_bit_length. }
  rewrite Hl, length_replicate. lia.
Qed.

(** ** Theorems *)

(** a live chunk survives the wire.  A piece message built for [(piece, chunk)] with its
    8-byte header, framed, followed by any bytes and decoded, yields the same coordinates,
    header and payload. *)
Theorem live_chunk_roundtrip stream piece chunk header data rest :
  stream < two32 → piece < two32 → chunk < two16 → length header = 8%nat →
  19 + lenN data ≤ MAX_FRAME_LEN →
  decode (encode (build_piece stream piece chunk header data) ++ rest) =
    Ok (Some (build_piece stream piece chunk header data,
              length (encode (build_piece stream piece chunk header data)))) ∧
  from_message (build_piece stream piece chunk header data) =
    Some (mkLiveChunk piece header chunk data).
Proof.
  intros Hs Hp Hc Hh Hd. split; [|by apply from_build_piece].
  apply decode_encoded. unfold canonical, build_piece, fits32. simpl.
  rewrite !(proj2 (N.ltb_lt _ _)) by done.
  rewrite (proj2 (N.leb_le _ _)); [done|].
  unfold lenN in *. rewrite !length_app, Hh. simpl. lia.
Qed.

Lemma live_chunk_roundtrip_witness :
  decode (encode (build_piece 0 77 3 (bs "HEADER-8") (bs "ts")) ++ bs "more") =
    Ok (Some (build_piece 0 77 3 (bs "HEADER-8") (bs "ts"),
              length (encode (build_piece 0 77 3 (bs "HEADER-8") (bs "ts"))))) ∧
  from_message (build_piece 0 77 3 (bs "HEADER-8") (bs "ts")) =
    Some (mkLiveChunk 77 (bs "HEADER-8") 3 (bs "ts")).
Proof. apply live_chunk_roundtrip; vm_compute; done. Defined.

(** The live bitfield advertises exactly its range.  Of all the bit positions the
    payload carries, precisely the first [bit_count] are set, so the padding of the last byte
    never announces a piece. *)
Lemma live_bits_exact bit_count k :
  k < 8 * lenN (live_bits bit_count) → has_bit (live_bits bit_count) k = (k <? bit_count).
Proof.
  pose proof (live_bits_length bit_count) as Hlen.
  intros Hk. rewrite Hlen in Hk. unfold live_bits. rewrite live_bits_loop.
  - rewrite N2Nat.id.
    assert (has_bit (replicate (N.to_nat (div_ceil bit_count 8)) x00) k = false) as ->; [|done].
    unfold has_bit. destruct (_ !! _) eqn:E; [|done]. apply lookup_replicate in E as [-> _].
    apply N.bits_0.
  - unfold lenN. rewrite length_replicate, N2Nat.id. apply N.Div0.div_lt_upper_bound. lia.
Qed.
