(* ===== verification/LiveWindow.v ===== *)
(** * Live piece windows

    [ace-wire/src/live.rs]: the sliding window a peer advertises, its recognition in a
    [myinfo] payload, and the sequential picker that follows the live head. *)

From S2P Require Import Prelude Bytes Wire Bencode.

Local Open Scope N_scope.

Record LiveWindow : Type := mkLiveWindow {
  min_piece : N;
  max_piece : N;
  position : N;
}.

Definition start_piece (w : LiveWindow) (buffer : N) : N :=
  N.max (saturating_sub (position w) buffer) (min_piece w).

(** [v.clamp(lo, hi)]. *)
Definition clamp (v lo hi : N) : N := if v <? lo then lo else if hi <? v then hi else v.

Definition from_myinfo_payload (payload : bytes) : option LiveWindow :=
  '(root, _) ← to_option (parse_prefix payload);
  dict ← (if bool_decide (is_Some (get root (bs "max_piece"))) then Some root
          else get root (bs "mi"));
  max ← (get dict (bs "max_piece") ≫= as_int);
  if (max <? 0)%Z then None
  else
    let max := i64_as_u64 max in
    let min := N.min (default 0
      ((λ v, i64_as_u64 (Z.max v 0)) <$> (get dict (bs "min_piece") ≫= as_int))) max in
    let position := clamp (default max
      ((λ v, i64_as_u64 (Z.max v 0)) <$> (get dict (bs "position") ≫= as_int))) min max in
    Some (mkLiveWindow min max position).

(** [LivePicker], whose only state is the next piece. *)
Record LivePicker : Type := mkLivePicker { next : N }.

Definition starting_at (piece : N) : LivePicker := mkLivePicker piece.
Definition new (window : LiveWindow) (buffer : N) : LivePicker :=
  mkLivePicker (start_piece window buffer).

Definition next_request (p : LivePicker) (window : LiveWindow) : option N * LivePicker :=
  let next := if next p <? min_piece window then min_piece window else next p in
  if max_piece window <? next then (None, mkLivePicker next)
  else (Some next, mkLivePicker (u64_add next 1)).

(** Successive requests, one per observed window: each pick with the window it was made in. *)
Fixpoint picks (p : LivePicker) (ws : list LiveWindow) : list (N * LiveWindow) :=
  match ws with
  | [] => []
  | w :: ws =>
      match next_request p w with
      | (Some piece, p) => (piece, w) :: picks p ws
      | (None, p) => picks p ws
      end
  end.

(** ** Lemmas *)

Lemma clamp_between v lo hi : lo ≤ hi → lo ≤ clamp v lo hi ≤ hi.
Proof. intros. unfold clamp. destruct (N.ltb_spec v lo), (N.ltb_spec hi v); lia. Qed.

Lemma next_request_spec p w r p' :
  (max_piece w < u64_max)%N → next_request p w = (r, p') →
  match r with
  | Some piece => next p ≤ piece ∧ min_piece w ≤ piece ≤ max_piece w ∧ next p' = piece + 1
  | None => next p ≤ next p'
  end.
Proof.
  intros Hm. unfold next_request.
  set (nx := if next p <? min_piece w then min_piece w else next p).
  assert (next p ≤ nx ∧ min_piece w ≤ nx) as [H1 H2]
    by (unfold nx; destruct (N.ltb_spec (next p) (min_piece w)); lia).
  destruct (N.ltb_spec (max_piece w) nx); intros [= <- <-]; simpl; [done|].
  rewrite u64_add_small by lia. lia.
Qed.

Lemma picks_increasing ws p :
  Forall (λ w, max_piece w < u64_max) ws →
  StronglySorted N.lt (map fst (picks p ws)) ∧
  Forall (λ x, next p ≤ x.1 ∧ min_piece x.2 ≤ x.1 ≤ max_piece x.2 ∧ x.2 ∈ ws) (picks p ws).
Proof.
  revert p. induction ws as [|w ws IH]; intros p Hws; [by split; constructor|].
  apply Forall_cons in Hws as [Hw Hws]. simpl.
  destruct (next_request p w) as [[piece|] p'] eqn:E;
    apply next_request_spec in E; try done; destruct (IH p' Hws) as [Hs Hf]; simpl.
  - destruct E as (E1 & E2 & E3). split.
    + constructor; [done|]. apply Forall_map. eapply Forall_impl; [exact Hf|].
      intros x (Hx & _). simpl. lia.
    + constructor; [split_and!; simpl; try lia; set_solver|].
      eapply Forall_impl; [exact Hf|]. intros x (Hx & Hr & Hin). split_and!; try lia. set_solver.
  - split; [done|]. eapply Forall_impl; [exact Hf|].
    intros x (Hx & Hr & Hin). split_and!; try lia. set_solver.
Qed.

(** ** Theorems *)

(** a recognised live window is ordered.  Any window read from a [myinfo] payload has
    [min_piece <= position <= max_piece] with non-negative signed bounds, so the start piece
    computed from it lies inside the window whatever the buffer. *)
Theorem myinfo_window_ordered payload w buffer :
  from_myinfo_payload payload = Some w →
  min_piece w ≤ position w ≤ max_piece w ∧ (Z.of_N (max_piece w) ≤ i64_max)%Z ∧
  min_piece w ≤ start_piece w buffer ≤ max_piece w.
Proof.
  unfold from_myinfo_payload. intros H.
  apply bind_Some in H as ([root n] & Hroot & H). apply bind_Some in H as (dict & Hdict & H).
  apply bind_Some in H as (max & Hmax & H).
  destruct (Z.ltb_spec max 0) as [|Hpos]; [done|]. injection H as <-. simpl.
  assert (wf root = true) as Hwf.
  { destruct (parse_prefix payload) as [[v k]|] eqn:E; simpl in Hroot; [|done].
    injection Hroot as -> ->. apply parse_prefix_sound in E. apply E. }
  assert (wf dict = true) as Hwd
    by (destruct (bool_decide _); [by simplify_eq|by eapply get_wf]).
  apply get_int_range in Hmax as [_ Hle]; [|done].
  rewrite i64_as_u64_nonneg by lia.
  set (mn := N.min _ _). set (ps := clamp _ _ _).
  assert (mn ≤ Z.to_N max) by (unfold mn; lia).
  assert (mn ≤ ps ≤ Z.to_N max) by by apply clamp_between.
  unfold start_piece, saturating_sub. simpl. split_and!; lia.
Qed.

Lemma myinfo_window_ordered_witness :
  min_piece (mkLiveWindow 3 9 9) ≤ position (mkLiveWindow 3 9 9) ≤ max_piece (mkLiveWindow 3 9 9) ∧
  (Z.of_N (max_piece (mkLiveWindow 3 9 9)) ≤ i64_max)%Z ∧
  min_piece (mkLiveWindow 3 9 9) ≤ start_piece (mkLiveWindow 3 9 9) 100 ≤ max_piece (mkLiveWindow 3 9 9).
Proof.
  apply (myinfo_window_ordered (bs "d2:mid9:max_piecei9e9:min_piecei3e8:positioni12eeeTAIL")).
  vm_compute. reflexivity.
Defined.

(** the picker never repeats and never leaves the window.  Over any sequence of observed
    windows, the pieces it hands out are strictly increasing, start no lower than the cursor,
    and each lies inside the window current at its request: an evicted or unavailable piece
    is never requested. *)
Theorem picker_follows_windows ws p :
  Forall (λ w, max_piece w < u64_max) ws →
  StronglySorted N.lt (map fst (picks p ws)) ∧
  Forall (λ x, next p ≤ x.1 ∧ min_piece x.2 ≤ x.1 ≤ max_piece x.2 ∧ x.2 ∈ ws) (picks p ws).
Proof. apply picks_increasing. Qed.

Definition sample_windows : list LiveWindow :=
  [mkLiveWindow 5 6 6; mkLiveWindow 5 6 6; mkLiveWindow 5 6 6; mkLiveWindow 9 12 10].

Example sample_picks : map fst (picks (starting_at 2) sample_windows) = [5; 6; 9].
Proof. vm_compute. reflexivity. Qed.

Lemma picker_follows_windows_witness :
  StronglySorted N.lt (map fst (picks (starting_at 2) sample_windows)) ∧
  Forall (λ x, next (starting_at 2) ≤ x.1 ∧ min_piece x.2 ≤ x.1 ≤ max_piece x.2 ∧
    x.2 ∈ sample_windows) (picks (starting_at 2) sample_windows).
Proof. apply picker_follows_windows. repeat constructor. Defined.
