(* ===== verification/Net.v ===== *)
(** * Socket addresses of the standard library

    What the sources use of [std::net]: [Ipv4Addr] and [SocketAddrV4] with their order, the
    address classes, [Display] and [FromStr]; and of [str]: [split] on a character and [join].
    The parser is that of [core::net::parser]: maximal runs of digits, three at most and no
    leading zero for an octet, any number with a checked value for a port. *)

From S2P Require Import Prelude Bytes.

(** [SocketAddrV4]: the four address octets and the port. *)
Record SocketAddrV4 : Type := mkSocketAddrV4 { ip : bytes; port : N }.

#[export] Instance SocketAddrV4_eq_dec : EqDecision SocketAddrV4.
Proof. solve_decision. Defined.

#[export] Program Instance SocketAddrV4_countable : Countable SocketAddrV4 :=
  inj_countable' (λ a, (ip a, port a)) (λ p, mkSocketAddrV4 p.1 p.2) _.
Next Obligation. by intros []. Qed.

(** The four octets of a [u16] port address. *)
Definition valid_addr (a : SocketAddrV4) : Prop := length (ip a) = 4 ∧ (port a < two16)%N.

#[export] Instance valid_addr_dec a : Decision (valid_addr a).
Proof. unfold valid_addr. apply _. Defined.

(** [Ord for SocketAddrV4]: the address, then the port. *)
Definition addr_key (a : SocketAddrV4) : N := (be_N (ip a) * two16 + port a)%N.
Definition addr_le (a b : SocketAddrV4) : Prop := (addr_key a ≤ addr_key b)%N.

#[export] Instance addr_le_dec a b : Decision (addr_le a b).
Proof. unfold addr_le. apply _. Defined.

(** ** Address classes *)

Definition octet (ip : bytes) (i : nat) : N := byte_N (default x00 (ip !! i)).

Definition is_unspecified (ip : bytes) : bool := bool_decide (ip = replicate 4 x00).
Definition is_broadcast (ip : bytes) : bool := bool_decide (ip = replicate 4 xff).
Definition is_loopback (ip : bytes) : bool := (octet ip 0 =? 127)%N.
Definition is_multicast (ip : bytes) : bool :=
  ((224 <=? octet ip 0) && (octet ip 0 <=? 239))%N.
Definition is_private_ip (ip : bytes) : bool :=
  ((octet ip 0 =? 10) || ((octet ip 0 =? 172) && (16 <=? octet ip 1) && (octet ip 1 <=? 31)) ||
   ((octet ip 0 =? 192) && (octet ip 1 =? 168)))%N.
Definition is_link_local (ip : bytes) : bool :=
  ((octet ip 0 =? 169) && (octet ip 1 =? 254))%N.
Definition is_documentation (ip : bytes) : bool :=
  (((octet ip 0 =? 192) && (octet ip 1 =? 0) && (octet ip 2 =? 2)) ||
   ((octet ip 0 =? 198) && (octet ip 1 =? 51) && (octet ip 2 =? 100)) ||
   ((octet ip 0 =? 203) && (octet ip 1 =? 0) && (octet ip 2 =? 113)))%N.

(** ** [split] and [join] *)

Section split_join.
Context {A : Type} `{EqDecision A}.

(** [s.split(sep)]: the fields between separators, one more than there are separators. *)
Fixpoint split_on (sep : A) (l : list A) : list (list A) :=
  match l with
  | [] => [[]]
  | x :: r =>
      if decide (x = sep) then [] :: split_on sep r
      else match split_on sep r with
           | f :: fs => (x :: f) :: fs
           | [] => [[x]]
           end
  end.

(** [fields.join(sep)]. *)
Fixpoint join (sep : A) (fs : list (list A)) : list A :=
  match fs with
  | [] => []
  | [f] => f
  | f :: fs => f ++ sep :: join sep fs
  end.

Lemma split_on_cons sep l : ∃ f fs, split_on sep l = f :: fs.
Proof.
  destruct l as [|x r]; simpl; [eauto|]. case_decide; [eauto|].
  destruct (split_on sep r); eauto.
Qed.

Lemma split_on_field sep f : sep ∉ f → split_on sep f = [f].
Proof.
  induction f as [|x f IH]; intros Hn; [done|]. apply not_elem_of_cons in Hn as [? Hn].
  simpl. by rewrite decide_False, IH by done.
Qed.

Lemma split_on_app sep f l : sep ∉ f → split_on sep (f ++ sep :: l) = f :: split_on sep l.
Proof.
  induction f as [|x f IH]; intros Hn; simpl; [by rewrite decide_True|].
  apply not_elem_of_cons in Hn as [? Hn]. by rewrite decide_False, IH by done.
Qed.

Lemma split_on_join sep fs :
  fs ≠ [] → Forall (λ f, sep ∉ f) fs → split_on sep (join sep fs) = fs.
Proof.
  intros Hne HF. induction HF as [|f fs Hf HF IH]; [done|]. destruct fs as [|g fs].
  - by apply split_on_field.
  - change (join sep (f :: g :: fs)) with (f ++ sep :: join sep (g :: fs)).
    rewrite split_on_app, IH by done. done.
Qed.

Lemma length_join sep fs b :
  Forall (λ f, length f ≤ b) fs → length (join sep fs) ≤ length fs * (b + 1).
Proof.
  induction 1 as [|f fs Hf HF IH]; [done|]. destruct fs as [|g fs]; [simpl in *; lia|].
  change (join sep (f :: g :: fs)) with (f ++ sep :: join sep (g :: fs)).
  rewrite length_app. cbn [length] in *. lia.
Qed.
End split_join.

(** ** Display *)

Definition show_ip (ip : bytes) : bytes := join x2e (map (λ b, dec_N (byte_N b)) ip).
Definition show_addr (a : SocketAddrV4) : bytes := show_ip (ip a) ++ x3a :: dec_N (port a).

(** ** FromStr *)

(** The maximal run of digits and the rest. *)
Fixpoint take_digits (l : bytes) : bytes * bytes :=
  match l with
  | b :: r => if is_ascii_digit b then let '(d, r') := take_digits r in (b :: d, r') else ([], l)
  | [] => ([], [])
  end.

(** [read_number(10, max_digits, allow_zero_prefix)] into an integer below [bound]. *)
Definition read_number (max_digits : option nat) (allow_zero_prefix : bool) (bound : N)
    (l : bytes) : option (N * bytes) :=
  let '(d, r) := take_digits l in
  if bool_decide (d = []) then None
  else if match max_digits with Some m => bool_decide (m < length d) | None => false end then None
  else if negb allow_zero_prefix && bool_decide (head d = Some x30) && bool_decide (1 < length d)
  then None
  else if (digits_value d <? bound)%N then Some (digits_value d, r) else None.

Definition read_given_char (c : byte) (l : bytes) : option bytes :=
  match l with b :: r => if decide (b = c) then Some r else None | [] => None end.

Definition read_octet (l : bytes) : option (N * bytes) := read_number (Some 3) false 256 l.

(** The groups after the first are preceded by a dot. *)
Fixpoint read_groups (n : nat) (l : bytes) : option (bytes * bytes) :=
  match n with
  | 0 => Some ([], l)
  | S n => r ← read_given_char x2e l; '(o, r) ← read_octet r; '(os, r) ← read_groups n r;
           Some (N_byte o :: os, r)
  end.

Definition read_ipv4_addr (l : bytes) : option (bytes * bytes) :=
  '(o, r) ← read_octet l; '(os, r) ← read_groups 3 r; Some (N_byte o :: os, r).

Definition read_socket_addr_v4 (l : bytes) : option (SocketAddrV4 * bytes) :=
  '(a, r) ← read_ipv4_addr l; r ← read_given_char x3a r;
  '(p, r) ← read_number None true two16 r; Some (mkSocketAddrV4 a p, r).

(** [parse_with]: nothing may be left; an [Ipv4Addr] longer than 15 bytes is refused at once. *)
Definition parse_ipv4 (l : bytes) : option bytes :=
  if bool_decide (15 < length l) then None
  else '(a, r) ← read_ipv4_addr l; if decide (r = []) then Some a else None.

Definition parse_socket_addr_v4 (l : bytes) : option SocketAddrV4 :=
  '(a, r) ← read_socket_addr_v4 l; if decide (r = []) then Some a else None.

Example parse_addr_ok :
  parse_socket_addr_v4 (bs "127.0.0.1:1234") = Some (mkSocketAddrV4 (map N_byte [127; 0; 0; 1]%N) 1234).
Proof. reflexivity. Qed.

Example parse_addr_port_zeros : port <$> parse_socket_addr_v4 (bs "10.0.0.1:00080") = Some 80%N.
Proof. reflexivity. Qed.

Example parse_addr_refused :
  map parse_socket_addr_v4 [bs "localhost:1"; bs "1.2.3:4"; bs "01.2.3.4:5"; bs "1.2.3.256:5";
    bs "1.2.3.4:65536"; bs "1.2.3.4"; bs "1.2.3.4:5 "; []] = replicate 8 None.
Proof. reflexivity. Qed.

(** ** Round trips *)

Lemma dec_N_length n k : 0 < k → (n < 10 ^ N.of_nat k)%N → length (dec_N n) ≤ k.
Proof. intros. by apply dec_fuel_length. Qed.

Lemma take_digits_app d r :
  forallb is_ascii_digit d = true → (∀ b r', r = b :: r' → is_ascii_digit b = false) →
  take_digits (d ++ r) = (d, r).
Proof.
  intros Hd Hr. induction d as [|b d IH]; simpl.
  - destruct r as [|b r]; [done|]. simpl. by rewrite (Hr b r).
  - simpl in Hd. apply andb_true_iff in Hd as [-> Hd]. by rewrite IH.
Qed.

Definition not_digit_next (r : bytes) : Prop := ∀ b r', r = b :: r' → is_ascii_digit b = false.

(** An octet prints without a leading zero, in three digits at most. *)
Lemma octet_text b :
  let d := dec_N (byte_N b) in
  length d ≤ 3 ∧ bool_decide (head d = Some x30) && bool_decide (1 < length d) = false.
Proof. destruct b; (split; [vm_compute; lia|reflexivity]). Qed.

Lemma read_octet_dec b r :
  not_digit_next r → read_octet (dec_N (byte_N b) ++ r) = Some (byte_N b, r).
Proof.
  intros Hr. unfold read_octet, read_number.
  destruct (dec_N_correct (byte_N b)) as (H1 & H2 & H3).
  destruct (octet_text b) as [H4 H5].
  rewrite take_digits_app by done. rewrite bool_decide_false by done.
  rewrite bool_decide_false by lia. rewrite andb_true_l, H5, H3.
  by rewrite (proj2 (N.ltb_lt _ _) (byte_N_lt b)).
Qed.

Lemma read_port_dec p r : (p < two16)%N → not_digit_next r →
  read_number None true two16 (dec_N p ++ r) = Some (p, r).
Proof.
  intros Hp Hr. unfold read_number. destruct (dec_N_correct p) as (H1 & H2 & H3).
  rewrite take_digits_app by done. rewrite bool_decide_false by done.
  cbn [negb andb]. rewrite H3. by rewrite (proj2 (N.ltb_lt _ _) Hp).
Qed.

(** The text of the groups after the first. *)
Definition dotted (os : bytes) : bytes := concat (map (λ b, x2e :: dec_N (byte_N b)) os).

Lemma show_ip_cons o os : show_ip (o :: os) = dec_N (byte_N o) ++ dotted os.
Proof.
  unfold show_ip, dotted. revert o. induction os as [|o' os IH]; intros o.
  - simpl. by rewrite app_nil_r.
  - cbn [map] in *. cbn [join]. cbn [join] in IH. rewrite IH. done.
Qed.

Lemma not_digit_dotted os r : not_digit_next r → not_digit_next (dotted os ++ r).
Proof. intros Hr. destruct os; [done|]. intros c r' E. by injection E as <- _. Qed.

Lemma read_groups_dotted os r :
  not_digit_next r → read_groups (length os) (dotted os ++ r) = Some (os, r).
Proof.
  intros Hr. induction os as [|o os IH]; [done|]. cbn [length read_groups].
  change (dotted (o :: os)) with (x2e :: dec_N (byte_N o) ++ dotted os).
  cbn [app read_given_char]. rewrite decide_True by done. cbn [mbind option_bind].
  rewrite <-app_assoc, read_octet_dec by by apply not_digit_dotted.
  cbn [mbind option_bind]. rewrite IH. cbn [mbind option_bind]. by rewrite N_byte_of_byte.
Qed.

Lemma read_ipv4_show a r : length a = 4 → not_digit_next r →
  read_ipv4_addr (show_ip a ++ r) = Some (a, r).
Proof.
  intros Ha Hr. destruct a as [|o os]; [done|]. rewrite show_ip_cons, <-app_assoc.
  unfold read_ipv4_addr. rewrite read_octet_dec by by apply not_digit_dotted.
  cbn [mbind option_bind]. replace 3 with (length os) by (simpl in Ha; lia).
  rewrite read_groups_dotted by done. cbn [mbind option_bind]. by rewrite N_byte_of_byte.
Qed.

Lemma parse_show_addr a : valid_addr a → parse_socket_addr_v4 (show_addr a) = Some a.
Proof.
  intros [Hip Hp]. unfold parse_socket_addr_v4, read_socket_addr_v4, show_addr.
  rewrite read_ipv4_show by (done || by intros c r' E; injection E as <- _).
  cbn [mbind option_bind read_given_char]. rewrite decide_True by done. cbn [mbind option_bind].
  rewrite <-(app_nil_r (dec_N (port a))), read_port_dec by done. by destruct a.
Qed.

(** *** What the parser accepts *)

Lemma read_number_inv m z bound l n r :
  read_number m z bound l = Some (n, r) → (n < bound)%N.
Proof.
  unfold read_number. destruct (take_digits l). case_match; [done|].
  destruct (match m with Some _ => _ | None => _ end); [done|].
  case_match; [done|]. case_match eqn:E; intros [= <- <-]. by apply N.ltb_lt.
Qed.

Lemma read_groups_length n l os r : read_groups n l = Some (os, r) → length os = n.
Proof.
  revert l os r. induction n as [|n IH]; intros l os r; cbn [read_groups]; [by intros [= <- _]|].
  intros (l1 & _ & ([o l2] & _ & ([os' l3] & H & [= <- <-])%bind_Some)%bind_Some)%bind_Some.
  simpl. f_equal. by eapply IH.
Qed.

Lemma parse_socket_addr_v4_valid l a : parse_socket_addr_v4 l = Some a → valid_addr a.
Proof.
  unfold parse_socket_addr_v4, read_socket_addr_v4, read_ipv4_addr.
  intros ([a' r] & H & Hr)%bind_Some. case_decide; [|done]. injection Hr as ->.
  apply bind_Some in H as ([i r1] & H & (r2 & _ & ([p r3] & Hp & [= <- <-])%bind_Some)%bind_Some).
  apply bind_Some in H as ([o r4] & _ & ([os r5] & Hg & [= <- <-])%bind_Some).
  split; simpl; [by rewrite (read_groups_length _ _ _ _ Hg)|by eapply read_number_inv].
Qed.

(** *** The characters of an address *)

Lemma show_ip_chars a c : is_ascii_digit c = false → c ≠ x2e → c ∉ show_ip a.
Proof.
  intros Hc Hd. destruct a as [|o os]; [by apply not_elem_of_nil|]. rewrite show_ip_cons.
  rewrite not_elem_of_app. split; [by apply dec_N_no_delim|].
  unfold dotted. induction os as [|o' os IH]; simpl; [by apply not_elem_of_nil|].
  rewrite not_elem_of_cons, not_elem_of_app. split_and!; [done|by apply dec_N_no_delim|done].
Qed.

Lemma show_addr_chars a c : is_ascii_digit c = false → c ≠ x2e → c ≠ x3a → c ∉ show_addr a.
Proof.
  intros Hc Hd Hs. unfold show_addr. rewrite not_elem_of_app, not_elem_of_cons.
  split_and!; [by apply show_ip_chars|done|by apply dec_N_no_delim].
Qed.

Lemma show_ip_length a : length a = 4 → length (show_ip a) ≤ 15.
Proof.
  intros Hip. destruct a as [|o1 [|o2 [|o3 [|o4 [|]]]]]; try done.
  rewrite show_ip_cons. unfold dotted. cbn [map concat]. rewrite !length_app. cbn [length].
  pose proof (proj1 (octet_text o1)). pose proof (proj1 (octet_text o2)).
  pose proof (proj1 (octet_text o3)). pose proof (proj1 (octet_text o4)).
  cbn [length] in *. lia.
Qed.

Lemma show_addr_length a : valid_addr a → length (show_addr a) ≤ 21.
Proof.
  intros [Hip Hp]. unfold show_addr. rewrite length_app. cbn [length].
  assert (length (dec_N (port a)) ≤ 5) by (apply dec_N_length; [lia|]; simpl; lia).
  pose proof (show_ip_length _ Hip). lia.
Qed.

Lemma parse_show_ip a : length a = 4 → parse_ipv4 (show_ip a) = Some a.
Proof.
  intros Ha. unfold parse_ipv4. pose proof (show_ip_length a Ha).
  rewrite bool_decide_false by lia. rewrite <-(app_nil_r (show_ip a)), read_ipv4_show by done.
  done.
Qed.

Lemma parse_ipv4_length l a : parse_ipv4 l = Some a → length a = 4.
Proof.
  unfold parse_ipv4, read_ipv4_addr. case_bool_decide; [done|].
  intros ([i r] & ([o r4] & _ & ([os r5] & Hg & [= <- <-])%bind_Some)%bind_Some & Hr)%bind_Some.
  case_decide; [|done]. injection Hr as <-. simpl. by rewrite (read_groups_length _ _ _ _ Hg).
Qed.

Lemma show_addr_ne a : valid_addr a → show_addr a ≠ [].
Proof. intros _. unfold show_addr. by destruct (show_ip (ip a)). Qed.

(** [show_addr] never prints two addresses alike. *)
Lemma show_addr_inj a b : valid_addr a → valid_addr b → show_addr a = show_addr b → a = b.
Proof.
  intros Ha%parse_show_addr Hb%parse_show_addr E. rewrite E in Ha. congruence.
Qed.

(** *** The order *)

Lemma addr_key_inj a b : valid_addr a → valid_addr b → addr_key a = addr_key b → a = b.
Proof.
  intros [Ha Ha'] [Hb Hb'] E. unfold addr_key in E.
  assert (port a = port b) as Hp.
  { apply (f_equal (λ x, x `mod` two16)%N) in E.
    rewrite !(N.add_comm (_ * _)), !N.Div0.mod_add, !N.mod_small in E by done. done. }
  destruct a as [ia pa], b as [ib pb]; simpl in *. subst. f_equal.
  apply be_N_inj; [congruence|lia].
Qed.

#[export] Instance addr_le_total : Total addr_le.
Proof. intros a b. unfold addr_le. lia. Qed.
#[export] Instance addr_le_trans : Transitive addr_le.
Proof. intros a b c. unfold addr_le. lia. Qed.
