(* ===== verification/PeerExchange.v ===== *)
(** * Peer-exchange gossip

    [ace-wire/src/peer_exchange.rs]: the [id=12] peer lists with their live-window hints, the
    ranking of candidates by coverage of the playback cursor, and the [id=36] announce. *)

From S2P Require Import Prelude Bytes Wire Net.

Definition HEADER_LEN : nat := 16.
Definition COUNT_OFFSET : nat := 1.
Definition RECORD_SIZE_OFFSET : nat := 7.
Definition IP_OFFSET_IN_RECORD : nat := 11.
Definition MIN_PIECE_OFFSET_IN_RECORD : nat := 27.
Definition POSITION_OFFSET_IN_RECORD : nat := 83.
Definition WINDOW_END_IN_RECORD : nat := POSITION_OFFSET_IN_RECORD + 4.
Definition ANNOUNCE_IP_OFFSET : nat := 8.

Record PieceWindow : Type := mkPieceWindow { pw_min : N; pw_max : N }.

Definition covers (w : PieceWindow) (piece : N) : bool :=
  ((pw_min w <=? piece) && (piece <=? pw_max w))%N.

Record PexPeer : Type := mkPexPeer { addr : SocketAddrV4; window : option PieceWindow }.

(** [u16::from_be_bytes] and [u32::from_be_bytes] of the bytes at an offset. *)
Definition read_u16 (l : bytes) (at_ : nat) : N := be_N (slice l at_ (at_ + 2)).
Definition read_u32 (l : bytes) (at_ : nat) : N := be_N (slice l at_ (at_ + 4)).

Definition parse_window (record : bytes) : option PieceWindow :=
  if bool_decide (length record < WINDOW_END_IN_RECORD) then None
  else
    let min := read_u32 record MIN_PIECE_OFFSET_IN_RECORD in
    let max := read_u32 record POSITION_OFFSET_IN_RECORD in
    let unknown v := ((v =? 0) || (v =? 4294967295))%N in
    if unknown min || unknown max || (max <? min)%N then None
    else Some (mkPieceWindow min max).

(** The body of the record loop; [None] is its [continue]. *)
Definition parse_record (record : bytes) : option PexPeer :=
  let ip := slice record IP_OFFSET_IN_RECORD (IP_OFFSET_IN_RECORD + 4) in
  let port := read_u16 record (IP_OFFSET_IN_RECORD + 4) in
  if is_unspecified ip || (port =? 0)%N then None
  else Some (mkPexPeer (mkSocketAddrV4 ip port) (parse_window record)).

Definition parse_peer_exchange_detailed (payload : bytes) : list PexPeer :=
  if bool_decide (length payload < HEADER_LEN) then []
  else
    let count := read_u16 payload COUNT_OFFSET in
    let record_size := read_u32 payload RECORD_SIZE_OFFSET in
    if (record_size <? N.of_nat (IP_OFFSET_IN_RECORD + 6))%N then []
    else
      let available := (N.of_nat (length payload - HEADER_LEN) `div` record_size)%N in
      let n := N.to_nat (N.min count available) in
      omap (λ i,
        parse_record (slice payload (HEADER_LEN + i * N.to_nat record_size)
                        (HEADER_LEN + (i + 1) * N.to_nat record_size)))
        (seq 0 n).

Definition parse_peer_exchange (payload : bytes) : list SocketAddrV4 :=
  map addr (parse_peer_exchange_detailed payload).

(** One step of the classification loop over the three vectors. *)
Definition rank_step (next_needed : N) (acc : list SocketAddrV4 * list SocketAddrV4 * list SocketAddrV4)
    (p : PexPeer) : list SocketAddrV4 * list SocketAddrV4 * list SocketAddrV4 :=
  let '(covering, unknown, not_covering) := acc in
  match window p with
  | Some w => if covers w next_needed then (covering ++ [addr p], unknown, not_covering)
              else (covering, unknown, not_covering ++ [addr p])
  | None => (covering, unknown ++ [addr p], not_covering)
  end.

Definition rank_by_window_coverage (peers : list PexPeer) (next_needed : N) : list SocketAddrV4 :=
  let '(covering, unknown, not_covering) := fold_left (rank_step next_needed) peers ([], [], []) in
  covering ++ unknown ++ not_covering.

Definition parse_peer_announce (payload : bytes) : option SocketAddrV4 :=
  let base := ANNOUNCE_IP_OFFSET in
  if bool_decide (length payload < base + 6) then None
  else
    let ip := slice payload base (base + 4) in
    let port := read_u16 payload (base + 4) in
    if is_unspecified ip || (port =? 0)%N then None else Some (mkSocketAddrV4 ip port).

(** ** Specification of the ranking *)

(** 0: covers the cursor; 1: no usable window; 2: a window that does not cover it. *)
Definition rank_class (next_needed : N) (p : PexPeer) : nat :=
  match window p with
  | Some w => if covers w next_needed then 0 else 2
  | None => 1
  end.

Definition of_class (next_needed : N) (c : nat) (peers : list PexPeer) : list PexPeer :=
  base.filter (λ p, rank_class next_needed p = c) peers.

Definition usable_addr (a : SocketAddrV4) : Prop :=
  length (ip a) = 4 ∧ is_unspecified (ip a) = false ∧ (0 < port a < two16)%N.

Definition usable_window (w : option PieceWindow) : Prop :=
  match w with
  | Some w => (0 < pw_min w ≤ pw_max w)%N ∧ (pw_max w < 4294967295)%N
  | None => True
  end.

(** ** Lemmas *)

Lemma rank_fold n peers c u x :
  fold_left (rank_step n) peers (c, u, x) =
    (c ++ map addr (of_class n 0 peers), u ++ map addr (of_class n 1 peers),
     x ++ map addr (of_class n 2 peers)).
Proof.
  revert c u x. induction peers as [|p peers IH]; intros c u x; simpl.
  { by rewrite !app_nil_r. }
  unfold of_class, rank_class in *.
  rewrite !filter_cons. destruct (window p) as [w|]; [destruct (covers w n)|];
    rewrite IH; repeat case_decide; try done; simpl; by rewrite <-?app_assoc.
Qed.

Definition ranked (n : N) (peers : list PexPeer) : list PexPeer :=
  of_class n 0 peers ++ of_class n 1 peers ++ of_class n 2 peers.

Lemma rank_class_bound n p : rank_class n p ≤ 2.
Proof. unfold rank_class. destruct (window p); [destruct (covers _ _)|]; lia. Qed.

Lemma ranked_permutation n peers : ranked n peers ≡ₚ peers.
Proof.
  unfold ranked, of_class. induction peers as [|p peers IH]; [done|].
  rewrite !filter_cons. pose proof (rank_class_bound n p).
  destruct (rank_class n p) as [|[|[|]]] eqn:E; try lia; repeat case_decide; try lia; simpl.
  - by rewrite IH.
  - rewrite <-Permutation_middle. by rewrite IH.
  - rewrite app_assoc, <-Permutation_middle, <-app_assoc. by rewrite IH.
Qed.

Lemma of_class_all n c peers : Forall (λ p, rank_class n p = c) (of_class n c peers).
Proof. apply Forall_forall. intros p. unfold of_class. rewrite list_elem_of_filter. tauto. Qed.

Lemma ranked_sorted n peers :
  StronglySorted (λ p q, rank_class n p ≤ rank_class n q) (ranked n peers).
Proof.
  assert (∀ c l l', Forall (λ p, rank_class n p = c) l →
    Forall (λ p, c ≤ rank_class n p) l' →
    StronglySorted (λ p q, rank_class n p ≤ rank_class n q) l' →
    StronglySorted (λ p q, rank_class n p ≤ rank_class n q) (l ++ l')) as Happ.
  { intros c l l' Hl Hl' Hs. induction Hl as [|p l Hp Hl IH]; simpl; [done|].
    constructor; [done|]. apply Forall_app. split; (eapply Forall_impl; [done|]); simpl; lia. }
  unfold ranked. apply (Happ 0); [apply of_class_all| |].
  { apply Forall_forall. lia. }
  apply (Happ 1); [apply of_class_all| |].
  { eapply Forall_impl; [apply of_class_all|]. simpl. lia. }
  rewrite <-(app_nil_r (of_class _ _ _)). apply (Happ 2); [apply of_class_all|constructor..].
Qed.

Lemma of_class_idem n c c' peers :
  of_class n c (of_class n c' peers) = if decide (c = c') then of_class n c peers else [].
Proof.
  unfold of_class. rewrite list_filter_filter. case_decide as E.
  - subst. apply list_filter_iff. tauto.
  - induction peers as [|p peers IH]; [done|]. rewrite filter_cons_False by naive_solver. done.
Qed.

Lemma ranked_stable n peers c : c ≤ 2 → of_class n c (ranked n peers) = of_class n c peers.
Proof.
  intros Hc. unfold ranked. unfold of_class at 1. rewrite !filter_app.
  fold (of_class n c (of_class n 0 peers)) (of_class n c (of_class n 1 peers))
    (of_class n c (of_class n 2 peers)). rewrite !of_class_idem.
  destruct c as [|[|[|]]]; try lia; simpl; by rewrite ?app_nil_r.
Qed.

Lemma read_u16_lt l a : a + 2 ≤ length l → (read_u16 l a < two16)%N.
Proof.
  intros H. unfold read_u16. pose proof (be_N_bound (slice l a (a + 2))) as B.
  unfold lenN in B. rewrite slice_length in B by lia.
  replace (a + 2 - a) with 2 in B by lia. done.
Qed.

Lemma read_u32_lt l a : a + 4 ≤ length l → (read_u32 l a < two32)%N.
Proof.
  intros H. unfold read_u32. pose proof (be_N_bound (slice l a (a + 4))) as B.
  unfold lenN in B. rewrite slice_length in B by lia.
  replace (a + 4 - a) with 4 in B by lia. done.
Qed.

Lemma parse_window_usable record : usable_window (parse_window record).
Proof.
  unfold parse_window. case_bool_decide as Hl; [done|]. unfold WINDOW_END_IN_RECORD in Hl.
  pose proof (read_u32_lt record POSITION_OFFSET_IN_RECORD ltac:(lia)).
  destruct (_ || _) eqn:E; [done|]. rewrite !orb_false_iff in E.
  destruct E as [[[E1%N.eqb_neq E2%N.eqb_neq] [E3%N.eqb_neq E4%N.eqb_neq]] E5%N.ltb_ge].
  simpl. lia.
Qed.

Lemma parse_record_usable record p :
  IP_OFFSET_IN_RECORD + 6 ≤ length record → parse_record record = Some p →
  usable_addr (addr p) ∧ usable_window (window p).
Proof.
  intros Hl. unfold parse_record. destruct (_ || _) eqn:E; [done|]. intros [= <-].
  apply orb_false_iff in E as [E1 E2%N.eqb_neq]. cbn [addr window].
  split; [|apply parse_window_usable].
  unfold usable_addr. cbn [ip port]. change 15 with (IP_OFFSET_IN_RECORD + 4).
  split_and!; [|done|lia|].
  - rewrite slice_length; unfold IP_OFFSET_IN_RECORD in *; lia.
  - apply read_u16_lt. lia.
Qed.

(** ** Theorems *)

(** ranking is a stable sort by coverage.  The ranked addresses are those of a
    permutation of the candidates (none dropped, none invented) ordered by class (covering the
    cursor, no usable window, not covering), and within each class in the advertised order. *)
Theorem rank_is_stable_sort peers n :
  ∃ l, rank_by_window_coverage peers n = map addr l ∧ l ≡ₚ peers ∧
    StronglySorted (λ p q, rank_class n p ≤ rank_class n q) l ∧
    (∀ c, c ≤ 2 → of_class n c l = of_class n c peers).
Proof.
  exists (ranked n peers). split_and!;
    [|apply ranked_permutation|apply ranked_sorted|intros; by apply ranked_stable].
  unfold rank_by_window_coverage. rewrite rank_fold. simpl. unfold ranked. by rewrite !map_app.
Qed.

(** a hostile peer list is bounded and sane.  Whatever the payload, the parser returns at
    most as many peers as the header counts and as whole 17-byte records fit in it, and every
    peer has a non-zero IPv4 address and port and either no window hint or an ordered
    one without the sentinels. *)
Theorem parse_peer_exchange_usable payload :
  Forall (λ p, usable_addr (addr p) ∧ usable_window (window p))
    (parse_peer_exchange_detailed payload) ∧
  17 * length (parse_peer_exchange_detailed payload) ≤ length payload ∧
  (N.of_nat (length (parse_peer_exchange_detailed payload)) < two16)%N.
Proof.
  unfold parse_peer_exchange_detailed. case_bool_decide as Hl; [by split_and!; simpl; [constructor|lia|]|].
  unfold HEADER_LEN in *. set (rs := read_u32 payload RECORD_SIZE_OFFSET).
  destruct (N.ltb_spec rs (N.of_nat (IP_OFFSET_IN_RECORD + 6))) as [|Hrs];
    [by split_and!; simpl; [constructor|lia|]|].
  set (av := (N.of_nat (length payload - 16) `div` rs)%N).
  set (ct := read_u16 payload COUNT_OFFSET).
  change (N.of_nat (IP_OFFSET_IN_RECORD + 6)) with 17%N in Hrs.
  assert (av * rs ≤ N.of_nat (length payload - 16))%N as Hav.
  { unfold av. rewrite N.mul_comm. apply N.Div0.mul_div_le. }
  assert (ct < two16)%N as Hct by (apply read_u16_lt; unfold COUNT_OFFSET; lia).
  set (n := N.to_nat (N.min ct av)).
  assert (n * N.to_nat rs ≤ length payload - 16) as Hn.
  { assert (N.of_nat n * rs ≤ av * rs)%N by (apply N.mul_le_mono_r; unfold n; lia).
    assert (N.of_nat (n * N.to_nat rs) = N.of_nat n * rs)%N
      by (rewrite Nat2N.inj_mul, N2Nat.id; done). lia. }
  match goal with |- context [omap ?f (seq 0 n)] => set (g := f) end.
  pose proof (length_omap_le g (seq 0 n)) as Homap. rewrite length_seq in Homap. split_and!; [|nia|lia].
  apply Forall_forall. intros p (i & Hi & Hg)%list_elem_of_omap. apply elem_of_seq in Hi.
  unfold g in Hg. apply parse_record_usable in Hg; [done|].
  rewrite slice_length by nia. unfold IP_OFFSET_IN_RECORD. nia.
Qed.
