(* ===== verification/Tracker.v ===== *)
(** * UDP tracker messages

    [ace-tracker/src/codec.rs] (errors from [ace-tracker/src/lib.rs]): the BEP-15 connect and
    announce exchange, both the client's and the server's side. *)

From S2P Require Import Prelude Bytes Text Net PeerExchange.

Local Open Scope N_scope.

Inductive TrackerError : Type :=
  | Malformed (what : string)
  | TransactionMismatch
  | Tracker (msg : bytes)
  | Io
  | Timeout.

Definition Result (A : Type) : Type := result TrackerError A.

Definition PROTOCOL_ID : N := 0x41727101980.
Definition ACTION_CONNECT : N := 0.
Definition ACTION_ANNOUNCE : N := 1.
Definition ACTION_ERROR : N := 3.

(** The constructors carry the source's discriminants. *)
Inductive AnnounceEvent : Type := ENone | ECompleted | EStarted | EStopped.
Definition event_code (e : AnnounceEvent) : N :=
  match e with ENone => 0 | ECompleted => 1 | EStarted => 2 | EStopped => 3 end.

(** A big-endian field of a buffer, and [i32::to_be_bytes] / [i32::from_be_bytes]. *)
Definition field (buf : bytes) (a b : nat) : N := be_N (slice buf a b).
Definition i32_be (z : Z) : bytes := u32_be (Z.to_N (z `mod` 4294967296)).
Definition i32_of (n : N) : Z := if n <? 2147483648 then Z.of_N n else (Z.of_N n - 4294967296)%Z.

Definition build_connect_request (txid : N) : bytes :=
  u64_be PROTOCOL_ID ++ u32_be ACTION_CONNECT ++ u32_be txid.

Definition parse_connect_response (buf : bytes) (txid : N) : Result N :=
  if bool_decide (length buf < 16)%nat then Err (Malformed "connect resp < 16")
  else
    let action := field buf 0 4 in
    let rtxid := field buf 4 8 in
    if negb (rtxid =? txid) then Err TransactionMismatch
    else if negb (action =? ACTION_CONNECT) then Err (Malformed "not a connect action")
    else Ok (field buf 8 16).

Record TransferState : Type := mkTransferState { downloaded : N; left : N; uploaded : N }.

Definition build_announce_request (connection_id txid : N) (infohash peer_id : bytes)
    (port : N) (num_want : Z) (transfer : TransferState) (event : AnnounceEvent) : bytes :=
  u64_be connection_id ++ u32_be ACTION_ANNOUNCE ++ u32_be txid ++ infohash ++ peer_id ++
  u64_be (downloaded transfer) ++ u64_be (left transfer) ++ u64_be (uploaded transfer) ++
  u32_be (event_code event) ++ u32_be 0 ++ u32_be 0 ++ i32_be num_want ++ u16_be port.

(** [while i + 6 <= buf.len()]. *)
Fixpoint read_peers (fuel : nat) (buf : bytes) : list SocketAddrV4 :=
  match fuel with
  | 0%nat => []
  | S fuel =>
      if bool_decide (6 ≤ length buf)%nat then
        mkSocketAddrV4 (slice buf 0 4) (field buf 4 6) :: read_peers fuel (drop 6 buf)
      else []
  end.

Definition parse_announce_response (buf : bytes) (txid : N) : Result (N * list SocketAddrV4) :=
  if bool_decide (length buf < 8)%nat then Err (Malformed "announce resp < 8")
  else
    let action := field buf 0 4 in
    let rtxid := field buf 4 8 in
    if negb (rtxid =? txid) then Err TransactionMismatch
    else if action =? ACTION_ERROR then Err (Tracker (from_utf8_lossy (drop 8 buf)))
    else if negb (action =? ACTION_ANNOUNCE) then Err (Malformed "not an announce action")
    else if bool_decide (length buf < 20)%nat then Err (Malformed "announce header < 20")
    else Ok (field buf 8 12, read_peers (length buf) (drop 20 buf)).

Record ConnectRequest : Type := mkConnectRequest { cr_txid : N }.

Definition parse_connect_request (buf : bytes) : Result ConnectRequest :=
  if bool_decide (length buf < 16)%nat then Err (Malformed "connect req < 16")
  else if negb (field buf 0 8 =? PROTOCOL_ID) then Err (Malformed "bad protocol id")
  else if negb (field buf 8 12 =? ACTION_CONNECT) then Err (Malformed "not a connect action")
  else Ok (mkConnectRequest (field buf 12 16)).

Definition build_connect_response (txid connection_id : N) : bytes :=
  u32_be ACTION_CONNECT ++ u32_be txid ++ u64_be connection_id.

Record AnnounceRequest : Type := mkAnnounceRequest {
  ar_connection_id : N;
  ar_txid : N;
  ar_infohash : bytes;
  ar_peer_id : bytes;
  ar_transfer : TransferState;
  ar_event : AnnounceEvent;
  ar_key : N;
  ar_num_want : Z;
  ar_port : N;
}.

Definition parse_announce_request (buf : bytes) : Result AnnounceRequest :=
  if bool_decide (length buf < 98)%nat then Err (Malformed "announce req < 98")
  else if negb (field buf 8 12 =? ACTION_ANNOUNCE) then Err (Malformed "not an announce action")
  else
    let event := match field buf 80 84 with
      | 1 => ECompleted
      | 2 => EStarted
      | 3 => EStopped
      | _ => ENone
      end in
    Ok (mkAnnounceRequest (field buf 0 8) (field buf 12 16) (slice buf 16 36) (slice buf 36 56)
          (mkTransferState (field buf 56 64) (field buf 64 72) (field buf 72 80)) event
          (field buf 88 92) (i32_of (field buf 92 96)) (field buf 96 98)).

Definition peer_entry (p : SocketAddrV4) : bytes := ip p ++ u16_be (port p).

Definition build_announce_response (txid interval leechers seeders : N)
    (peers : list SocketAddrV4) : bytes :=
  u32_be ACTION_ANNOUNCE ++ u32_be txid ++ u32_be interval ++ u32_be leechers ++
  u32_be seeders ++ concat (map peer_entry peers).

(** ** Lemmas *)

(** Reading a slice of a concatenation of parts of known lengths. *)
Lemma slice_skip {A} (p rest : list A) n a b : length p = n → (n ≤ a)%nat →
  slice (p ++ rest) a b = slice rest (a - n) (b - n).
Proof.
  intros <- Ha. unfold slice. rewrite drop_app_ge by done. f_equal. lia.
Qed.

Lemma slice_head {A} (p rest : list A) n : length p = n → slice (p ++ rest) 0 n = p.
Proof. intros <-. unfold slice. rewrite drop_0, Nat.sub_0_r. apply take_app_length. Qed.

Lemma slice_all {A} (p : list A) n : length p = n → slice p 0 n = p.
Proof. intros <-. unfold slice. rewrite drop_0, Nat.sub_0_r. apply firstn_all2. lia. Qed.

Lemma u16_length x : length (u16_be x) = 2%nat. Proof. apply be_bytes_length. Qed.
Lemma u32_length x : length (u32_be x) = 4%nat. Proof. apply be_bytes_length. Qed.
Lemma u64_length x : length (u64_be x) = 8%nat. Proof. apply be_bytes_length. Qed.
Lemma i32_length x : length (i32_be x) = 4%nat. Proof. apply be_bytes_length. Qed.

Lemma be_u16 x : x < two16 → be_N (u16_be x) = x. Proof. intros. by apply be_N_be_bytes. Qed.
Lemma be_u32 x : x < two32 → be_N (u32_be x) = x. Proof. intros. by apply be_N_be_bytes. Qed.
Lemma be_u64 x : x < two64 → be_N (u64_be x) = x. Proof. intros. by apply be_N_be_bytes. Qed.

Lemma i32_roundtrip z : (-2147483648 ≤ z < 2147483648)%Z → i32_of (be_N (i32_be z)) = z.
Proof.
  intros Hz. unfold i32_be, i32_of.
  pose proof (Z.mod_pos_bound z 4294967296 ltac:(lia)). rewrite be_u32 by lia.
  destruct (N.ltb_spec (Z.to_N (z `mod` 4294967296)) 2147483648) as [Hlt|Hge]; rewrite Z2N.id by lia.
  - destruct (decide (0 ≤ z)%Z); [apply Z.mod_small; lia|]. exfalso.
    assert (z `mod` 4294967296 = z + 4294967296)%Z as E.
    { symmetry. apply Z.mod_unique_pos with (-1)%Z; lia. } lia.
  - destruct (decide (0 ≤ z)%Z); [rewrite Z.mod_small in * by lia; lia|].
    assert (z `mod` 4294967296 = z + 4294967296)%Z as ->; [|lia].
    symmetry. apply Z.mod_unique_pos with (-1)%Z; lia.
Qed.

(** Locates the field at a literal offset of a buffer built from parts of known length. *)
Ltac part_length p :=
  lazymatch p with
  | u64_be _ => constr:(8%nat)
  | u32_be _ => constr:(4%nat)
  | i32_be _ => constr:(4%nat)
  | u16_be _ => constr:(2%nat)
  | _ => constr:(20%nat)
  end.
Ltac part_done :=
  first [apply u64_length | apply u32_length | apply i32_length | apply u16_length | assumption].
Ltac read_part :=
  repeat lazymatch goal with
  | |- context [slice (?p ++ ?r) ?a ?b] =>
      lazymatch a with
      | 0%nat => let n := part_length p in rewrite (slice_head p r n) by part_done
      | _ => let n := part_length p in
             rewrite (slice_skip p r n a b) by (part_done || lia); cbn [Nat.sub]
      end
  | |- context [slice ?p 0 ?b] => rewrite (slice_all p b) by part_done
  end.

Lemma read_peers_entries peers fuel : Forall (λ p, length (ip p) = 4%nat ∧ port p < two16) peers →
  (length (concat (map peer_entry peers)) ≤ fuel)%nat →
  read_peers fuel (concat (map peer_entry peers)) = peers.
Proof.
  intros Hp. revert fuel. induction Hp as [|p peers [Hip Hport] _ IH]; intros fuel Hf.
  { by destruct fuel. }
  cbn [map concat] in *. unfold peer_entry at 1 in Hf. rewrite !length_app, u16_length, Hip in Hf.
  destruct fuel as [|fuel]; [lia|]. cbn [read_peers].
  rewrite bool_decide_true by (unfold peer_entry at 1; rewrite !length_app, u16_length, Hip; lia).
  unfold peer_entry at 1 3 5. rewrite <-!app_assoc.
  rewrite (slice_head (ip p) _ 4 Hip). unfold field. rewrite (slice_skip (ip p) _ 4) by (done || lia).
  cbn [Nat.sub]. rewrite (slice_head (u16_be (port p)) _ 2) by apply u16_length.
  rewrite be_u16 by done. rewrite app_assoc, drop_app_length'
    by (by rewrite length_app, u16_length, Hip).
  rewrite IH by lia. by destruct p.
Qed.

Lemma read_peers_length fuel buf : (6 * length (read_peers fuel buf) ≤ length buf)%nat ∧
  Forall (λ p, length (ip p) = 4%nat ∧ port p < two16) (read_peers fuel buf) ∧
  (length buf ≤ fuel → length buf < 6 * length (read_peers fuel buf) + 6)%nat.
Proof.
  revert buf. induction fuel as [|fuel IH]; intros buf; cbn [read_peers].
  { simpl. split_and!; [lia|constructor|lia]. }
  case_bool_decide as Hb; [|simpl; split_and!; [lia|constructor|lia]].
  destruct (IH (drop 6 buf)) as (H1 & H2 & H3). rewrite length_drop in *. cbn [length].
  split_and!; [lia| |lia]. constructor; [|done]. simpl. split; [rewrite slice_length; lia|].
  unfold field. pose proof (be_N_bound (slice buf 4 6)) as Hbd.
  assert (lenN (slice buf 4 6) = 2) as E by (unfold lenN; rewrite slice_length; lia).
  rewrite E in Hbd. exact Hbd.
Qed.

(** ** Theorems *)

Definition announce_ok (connection_id txid : N) (infohash peer_id : bytes) (port : N) (num_want : Z)
    (t : TransferState) : Prop :=
  connection_id < two64 ∧ txid < two32 ∧ length infohash = 20%nat ∧ length peer_id = 20%nat ∧
  port < two16 ∧ (-2147483648 ≤ num_want < 2147483648)%Z ∧
  downloaded t < two64 ∧ left t < two64 ∧ uploaded t < two64.

(** the tracker exchange is faithful in both directions.  A server reads from the client's
    connect and announce requests exactly what the client put in, and the client reads from the
    server's answers exactly the connection id, the interval and the peers, in order. *)
Theorem tracker_exchange_roundtrip cid txid infohash peer_id port num_want t event
    interval leechers seeders peers :
  announce_ok cid txid infohash peer_id port num_want t →
  interval < two32 → Forall (λ p, length (ip p) = 4%nat ∧ Net.port p < two16) peers →
  parse_connect_request (build_connect_request txid) = Ok (mkConnectRequest txid) ∧
  parse_connect_response (build_connect_response txid cid) txid = Ok cid ∧
  parse_announce_request (build_announce_request cid txid infohash peer_id port num_want t event) =
    Ok (mkAnnounceRequest cid txid infohash peer_id t event 0 num_want port) ∧
  parse_announce_response (build_announce_response txid interval leechers seeders peers) txid =
    Ok (interval, peers).
Proof.
  intros (Hcid & Htx & Hih & Hpi & Hpt & Hnw & Hd & Hl & Hu) Hiv Hpeers. split_and!.
  - unfold parse_connect_request, build_connect_request, field.
    rewrite bool_decide_false by (rewrite !length_app, u64_length, !u32_length; lia). read_part.
    rewrite be_u64, !be_u32 by done. done.
  - unfold parse_connect_response, build_connect_response, field.
    rewrite bool_decide_false by (rewrite !length_app, u64_length, !u32_length; lia). read_part.
    rewrite be_u64, !be_u32 by done. by rewrite N.eqb_refl.
  - unfold parse_announce_request, build_announce_request, field.
    rewrite bool_decide_false
      by (rewrite !length_app, !u64_length, !u32_length, i32_length, u16_length, Hih, Hpi; lia).
    read_part. rewrite !be_u64, be_u16, (be_u32 ACTION_ANNOUNCE), (be_u32 txid), (be_u32 0) by done.
    rewrite i32_roundtrip by done. rewrite be_u32 by (by destruct event).
    cbn [negb N.eqb ACTION_ANNOUNCE]. destruct t. by destruct event.
  - unfold parse_announce_response, build_announce_response, field.
    rewrite bool_decide_false by (rewrite !length_app, !u32_length; lia). read_part.
    rewrite !be_u32 by done. rewrite N.eqb_refl. cbn [negb].
    change (ACTION_ANNOUNCE =? ACTION_ERROR) with false. cbn iota.
    rewrite N.eqb_refl. cbn [negb].
    rewrite bool_decide_false by (rewrite !length_app, !u32_length; lia). do 2 f_equal.
    rewrite !app_assoc, drop_app_length' by (rewrite !length_app, !u32_length; lia).
    apply read_peers_entries; [done|]. rewrite !length_app. lia.
Qed.

Lemma tracker_exchange_roundtrip_witness :
  parse_announce_response (build_announce_response 7 1800 1 2
    [mkSocketAddrV4 (map N_byte [10; 0; 0; 1]) 8621]) 7 =
  Ok (1800, [mkSocketAddrV4 (map N_byte [10; 0; 0; 1]) 8621]).
Proof.
  apply (tracker_exchange_roundtrip 1 7 (replicate 20 x00) (replicate 20 x00) 1 (-1)
    (mkTransferState 0 0 0) EStarted 1800 1 2 [mkSocketAddrV4 (map N_byte [10; 0; 0; 1]) 8621]).
  - unfold announce_ok. simpl. lia.
  - done.
  - by repeat constructor.
Defined.

(** an announce answer is accepted only for its own transaction.  Whatever datagram
    arrives, an answer is returned only if it carries the transaction id of the request and
    the announce action; an error action is reported with its (valid UTF-8) message; and the
    peers returned are exactly the whole six-byte entries after the header. *)
Theorem announce_response_checked buf txid :
  match parse_announce_response buf txid with
  | Ok (interval, peers) =>
      (20 ≤ length buf)%nat ∧ field buf 0 4 = ACTION_ANNOUNCE ∧ field buf 4 8 = txid ∧
      interval = field buf 8 12 ∧ length peers = ((length buf - 20) `div` 6)%nat ∧
      Forall (λ p, length (ip p) = 4%nat ∧ port p < two16) peers
  | Err (Tracker msg) => field buf 0 4 = ACTION_ERROR ∧ field buf 4 8 = txid ∧ utf8_valid msg = true
  | Err TransactionMismatch => (8 ≤ length buf)%nat ∧ field buf 4 8 ≠ txid
  | Err (Malformed _) =>
      (length buf < 20)%nat ∨ (field buf 0 4 ≠ ACTION_ANNOUNCE ∧ field buf 0 4 ≠ ACTION_ERROR)
  | Err _ => False
  end.
Proof.
  unfold parse_announce_response. case_bool_decide as H8; [left; lia|].
  destruct (N.eqb_spec (field buf 4 8) txid) as [Ht|Ht]; cbn [negb]; [|split; [lia|done]].
  destruct (N.eqb_spec (field buf 0 4) ACTION_ERROR) as [He|He].
  { split_and!; [done|done|]. apply utf8_text_valid, from_utf8_lossy_text. }
  destruct (N.eqb_spec (field buf 0 4) ACTION_ANNOUNCE) as [Ha|Ha]; cbn [negb]; [|by right].
  case_bool_decide as H20; [left; lia|].
  destruct (read_peers_length (length buf) (drop 20 buf)) as (H1 & H2 & H3).
  rewrite length_drop in H1, H3. split_and!; try done; [lia|].
  apply Nat.div_unique with (length buf - 20 - 6 * length (read_peers (length buf) (drop 20 buf)))%nat; lia.
Qed.
