(* ===== verification/LiveAuth.v ===== *)
(** * Live-source authentication

    [ace-wire/src/live_auth.rs]: the per-piece signature scheme.  The [rsa] and [sha1] crates
    are an interface: [Crypto] has their operations, [CryptoLaws] the behaviour they document
    (what a key signs its own public key verifies, with signatures as long as the modulus). *)

From S2P Require Import Prelude Bytes Wire.

Class Crypto : Type := {
  sha1 : bytes → bytes;
  PrivateKey : Type;
  PublicKey : Type;
  (** [RsaPublicKey::from(&key)], [key.size()], [pubkey.size()]. *)
  public_of : PrivateKey → PublicKey;
  private_size : PrivateKey → nat;
  public_size : PublicKey → nat;
  (** RSASSA-PKCS1-v1_5 over a SHA-1 digest. *)
  pkcs1v15_sign : PrivateKey → bytes → bytes;
  pkcs1v15_verify : PublicKey → bytes → bytes → bool;
  (** SubjectPublicKeyInfo DER. *)
  to_public_key_der : PublicKey → bytes;
  from_public_key_der : bytes → option PublicKey;
}.

Class CryptoLaws `{Crypto} : Prop := {
  der_roundtrip p : from_public_key_der (to_public_key_der p) = Some p;
  public_of_size k : public_size (public_of k) = private_size k;
  sign_length k d : length (pkcs1v15_sign k d) = private_size k;
  sign_verifies k d : pkcs1v15_verify (public_of k) d (pkcs1v15_sign k d) = true;
}.

Section LiveAuth.
Context `{Crypto}.

(** [LiveSourceAuth]: a broadcast source's identity. *)
Record LiveSourceAuth : Type := mkLiveSourceAuth { key : PrivateKey }.

Definition pubkey_der (auth : LiveSourceAuth) : bytes := to_public_key_der (public_of (key auth)).
Definition signature_len (auth : LiveSourceAuth) : nat := private_size (key auth).
Definition sign (auth : LiveSourceAuth) (payload : bytes) : bytes :=
  pkcs1v15_sign (key auth) (sha1 payload).

Definition verify_piece (pubkey_der payload signature : bytes) : bool :=
  match from_public_key_der pubkey_der with
  | None => false
  | Some pubkey => pkcs1v15_verify pubkey (sha1 payload) signature
  end.

Definition signature_len_from_pubkey_der (pubkey_der : bytes) : option nat :=
  public_size <$> from_public_key_der pubkey_der.

End LiveAuth.

Definition split_piece (piece : bytes) (sig_len : nat) : option (bytes * bytes) :=
  if bool_decide (length piece < sig_len) then None
  else Some (take (length piece - sig_len) piece, drop (length piece - sig_len) piece).

(** ** Lemmas *)

Lemma split_piece_app payload sig :
  split_piece (payload ++ sig) (length sig) = Some (payload, sig).
Proof.
  unfold split_piece. rewrite length_app, bool_decide_false by lia.
  rewrite Nat.add_sub. by rewrite take_app_length, drop_app_length.
Qed.

Section laws.
Context `{CryptoLaws}.

Lemma signature_len_from_own_der auth :
  signature_len_from_pubkey_der (pubkey_der auth) = Some (signature_len auth).
Proof.
  unfold signature_len_from_pubkey_der, pubkey_der. rewrite der_roundtrip. simpl.
  by rewrite public_of_size.
Qed.

Lemma verify_signed auth payload :
  verify_piece (pubkey_der auth) payload (sign auth payload) = true.
Proof. unfold verify_piece, pubkey_der. rewrite der_roundtrip. apply sign_verifies. Qed.

Lemma sign_len auth payload : length (sign auth payload) = signature_len auth.
Proof. apply sign_length. Qed.
End laws.

(** ** A concrete instance

    A two-byte keyed checksum that satisfies the laws, to evaluate the definitions on. *)

Definition toy_sum (l : bytes) : N := foldl (λ acc b, ((acc * 31 + byte_N b) `mod` 65536)%N) 7%N l.

Definition toy_sign (k : byte) (d : bytes) : bytes := u16_be (toy_sum (k :: d)).

Definition toy_crypto : Crypto := {|
  sha1 := λ l, u64_be (toy_sum l);
  PrivateKey := byte;
  PublicKey := byte;
  public_of := λ k, k;
  private_size := λ _, 2;
  public_size := λ _, 2;
  pkcs1v15_sign := toy_sign;
  pkcs1v15_verify := λ k d s, bool_decide (s = toy_sign k d);
  to_public_key_der := λ p, [p];
  from_public_key_der := λ d, match d with [p] => Some p | _ => None end;
|}.

Lemma toy_crypto_laws : @CryptoLaws toy_crypto.
Proof. split; try done. intros k d. by apply bool_decide_eq_true. Qed.

(** The toy signatures with a twenty-byte digest. *)
Definition wide_crypto : Crypto := {|
  sha1 := λ l, take 20 (l ++ replicate 20 x00);
  PrivateKey := byte;
  PublicKey := byte;
  public_of := λ k, k;
  private_size := λ _, 2;
  public_size := λ _, 2;
  pkcs1v15_sign := toy_sign;
  pkcs1v15_verify := λ k d s, bool_decide (s = toy_sign k d);
  to_public_key_der := λ p, [p];
  from_public_key_der := λ d, match d with [p] => Some p | _ => None end;
|}.
