(* ===== verification/Chunker.v ===== *)
(** * Chunking a live byte stream

    [ace-wire/src/chunker.rs] and [ace-wire/src/signing_chunker.rs]: the split of a byte
    stream into chunks addressed by [(piece, chunk, begin)], and the signing variant that
    fills every piece with a payload and its signature.  [None] stands for a [push] that never
    returns (a zero chunk length or payload capacity makes the loop endless); the theorems
    show it does not arise for the geometry the constructors document. *)

From S2P Require Import Prelude Bytes Wire LiveAuth.

Local Open Scope N_scope.

Record OutChunk : Type := mkOutChunk {
  oc_piece : N;
  oc_chunk : N;
  oc_begin : N;
  oc_data : bytes;
}.

Record TsChunker : Type := mkTsChunker {
  piece_length : N;
  chunk_length : N;
  start_piece : N;
  buf : bytes;
  abs : N;
}.

Definition new (piece_length chunk_length start_piece : N) : TsChunker :=
  mkTsChunker piece_length chunk_length start_piece [] 0.

Definition set_buf (b : bytes) (c : TsChunker) : TsChunker :=
  mkTsChunker (piece_length c) (chunk_length c) (start_piece c) b (abs c).

Definition make_chunk (c : TsChunker) (data : bytes) : OutChunk * TsChunker :=
  let a := abs c in
  (mkOutChunk (u64_add (start_piece c) (a `div` piece_length c))
     ((a `mod` piece_length c) `div` chunk_length c `mod` two16)
     (a `mod` piece_length c) data,
   mkTsChunker (piece_length c) (chunk_length c) (start_piece c) (buf c)
     (u64_add a (lenN data))).

(** The [while] of [push]. *)
Fixpoint push_loop (fuel : nat) (c : TsChunker) : option (list OutChunk * TsChunker) :=
  match fuel with
  | 0%nat => None
  | S fuel =>
      if chunk_length c <=? lenN (buf c) then
        let n := N.to_nat (chunk_length c) in
        let data := take n (buf c) in
        let '(oc, c) := make_chunk (set_buf (drop n (buf c)) c) data in
        '(out, c) ← push_loop fuel c; Some (oc :: out, c)
      else Some ([], c)
  end.

Definition push (c : TsChunker) (bytes : bytes) : option (list OutChunk * TsChunker) :=
  let c := set_buf (buf c ++ bytes) c in
  push_loop (S (length (buf c))) c.

Definition flush (c : TsChunker) : option OutChunk * TsChunker :=
  match buf c with
  | [] => (None, c)
  | data => let '(oc, c) := make_chunk (set_buf [] c) data in (Some oc, c)
  end.

(** ** The signing chunker *)

Section Signing.
Context `{Crypto}.

Record SigningChunker : Type := mkSigningChunker {
  payload_capacity : N;
  sbuf : bytes;
  chunker : TsChunker;
}.

(** [SigningChunker::new]: the assertion that a piece has room for its signature. *)
Definition signing_new (pl cl start sig_len : N) : option SigningChunker :=
  if sig_len <? pl then Some (mkSigningChunker (pl - sig_len) [] (new pl cl start)) else None.

Fixpoint signing_loop (fuel : nat) (s : SigningChunker) (auth : LiveSourceAuth)
    : option (list OutChunk * SigningChunker) :=
  match fuel with
  | 0%nat => None
  | S fuel =>
      if payload_capacity s <=? lenN (sbuf s) then
        let n := N.to_nat (payload_capacity s) in
        let payload := take n (sbuf s) in
        let sig := sign auth payload in
        '(out, ch) ← push (chunker s) (payload ++ sig);
        '(outs, s') ← signing_loop fuel
          (mkSigningChunker (payload_capacity s) (drop n (sbuf s)) ch) auth;
        Some (out ++ outs, s')
      else Some ([], s)
  end.

Definition signing_push (s : SigningChunker) (bytes : bytes) (auth : LiveSourceAuth)
    : option (list OutChunk * SigningChunker) :=
  let s := mkSigningChunker (payload_capacity s) (sbuf s ++ bytes) (chunker s) in
  signing_loop (S (length (sbuf s))) s auth.

Definition signing_flush (s : SigningChunker) (auth : LiveSourceAuth)
    : option (list OutChunk * SigningChunker) :=
  match sbuf s with
  | [] => Some ([], s)
  | payload =>
      let sig := sign auth payload in
      '(out, ch) ← push (chunker s) (payload ++ sig);
      let '(tail, ch) := flush ch in
      Some (out ++ match tail with Some t => [t] | None => [] end,
            mkSigningChunker (payload_capacity s) [] ch)
  end.
End Signing.

Example push_example : option_map fst (push (new 8 4 100) (map N_byte [1;2;3;4;5;6;7;8;9])) =
  Some [mkOutChunk 100 0 0 (map N_byte [1;2;3;4]); mkOutChunk 100 1 4 (map N_byte [5;6;7;8])].
Proof. vm_compute. reflexivity. Qed.

(** ** Specification: the chunks of a stream

    Chunk [j] of a stream [s]: its address and the bytes [j * cl .. (j + 1) * cl]. *)

Definition stream_chunk (pl cl start : N) (s : bytes) (j : N) : OutChunk :=
  let a := j * cl in
  mkOutChunk (start + a `div` pl) ((a `mod` pl) `div` cl) (a `mod` pl)
    (slice s (N.to_nat a) (N.to_nat (a + cl))).

Definition stream_chunks (pl cl start : N) (s : bytes) (from count : nat) : list OutChunk :=
  map (λ j, stream_chunk pl cl start s (N.of_nat j)) (seq from count).

(** The geometry the constructors document, with chunk indices that fit [u16]. *)
Definition geometry (pl cl : N) : Prop :=
  0 < cl ∧ 0 < pl ∧ pl `mod` cl = 0 ∧ pl `div` cl ≤ two16.

(** A chunker that has consumed the stream [s]: [n] whole chunks emitted, the rest buffered. *)
Definition consumed (pl cl start : N) (s : bytes) (n : nat) (c : TsChunker) : Prop :=
  piece_length c = pl ∧ chunk_length c = cl ∧ start_piece c = start ∧
  abs c = N.of_nat n * cl ∧ N.of_nat n * cl ≤ lenN s ∧ buf c = drop (N.to_nat (N.of_nat n * cl)) s.

(** ** Lemmas *)

Lemma geometry_index pl cl a : geometry pl cl → (a `mod` pl) `div` cl < two16.
Proof.
  intros (Hc & Hp & Hm & Hk). apply N.lt_le_trans with (pl `div` cl); [|done].
  apply N.Div0.div_lt_upper_bound.
  pose proof (N.mod_lt a pl ltac:(lia)). pose proof (N.div_mod pl cl ltac:(lia)). lia.
Qed.

Lemma push_loop_consumed pl cl start s fuel n c :
  geometry pl cl → start + lenN s < two64 →
  consumed pl cl start s n c → (length (buf c) < fuel)%nat →
  ∃ k c', push_loop fuel c = Some (stream_chunks pl cl start s n k, c') ∧
    consumed pl cl start s (n + k) c' ∧ lenN (buf c') < cl.
Proof.
  intros Hg Hov. pose proof Hg as (Hcl & Hpl & _).
  revert n c. induction fuel as [|fuel IH]; intros n c Hcons Hf; [lia|].
  destruct Hcons as (E1 & E2 & E3 & E4 & E5 & E6). simpl. rewrite E2.
  assert (lenN (buf c) = lenN s - N.of_nat n * cl) as Hlen
    by (rewrite E6; unfold lenN; rewrite length_drop; lia).
  destruct (N.leb_spec cl (lenN (buf c))) as [Hle|Hlt].
  2:{ exists 0%nat, c. rewrite Nat.add_0_r. by split_and!. }
  set (data := take (N.to_nat cl) (buf c)).
  assert (lenN data = cl) as Hd by (unfold data, lenN in *; rewrite length_take; lia).
  assert (abs c `div` pl ≤ abs c) as Hdiv.
  { destruct (N.eq_dec (abs c) 0) as [->|]; [done|]. apply N.Div0.div_le_upper_bound. nia. }
  unfold make_chunk. simpl. rewrite E1, ?E2, E3, Hd, E4. rewrite E4 in Hdiv.
  rewrite !u64_add_small by lia.
  rewrite (N.mod_small (_ `div` cl)) by by apply geometry_index.
  destruct (IH (S n) (mkTsChunker pl cl start (drop (N.to_nat cl) (buf c)) (N.of_nat n * cl + cl)))
    as (k & c' & Hp & Hc' & Hb').
  { split_and!; simpl; try done; try lia. rewrite E6, drop_drop. f_equal. lia. }
  { simpl. rewrite length_drop. unfold lenN in *. lia. }
  exists (S k), c'. rewrite Hp. simpl. split_and!; [|by rewrite <-Nat.add_succ_comm|done].
  do 2 f_equal. unfold stream_chunks. simpl. f_equal. unfold stream_chunk. f_equal.
  unfold data, slice. rewrite E6. f_equal. lia.
Qed.

Lemma consumed_count pl cl start s n c : 0 < cl →
  consumed pl cl start s n c → lenN (buf c) < cl → N.of_nat n = lenN s `div` cl.
Proof.
  intros Hcl (_ & _ & _ & _ & E5 & E6) Hb. apply N.div_unique with (lenN s - N.of_nat n * cl);
    [|lia]. rewrite E6 in Hb. unfold lenN in *. rewrite length_drop in Hb. lia.
Qed.

(** The stream may grow: emitted chunks do not change. *)
Lemma stream_chunks_app pl cl start s t n k :
  N.of_nat (n + k) * cl ≤ lenN s →
  stream_chunks pl cl start (s ++ t) n k = stream_chunks pl cl start s n k.
Proof.
  intros Hl. unfold stream_chunks. apply map_ext_in. intros j Hj%in_seq.
  assert (N.of_nat j * cl + cl ≤ N.of_nat (n + k) * cl).
  { replace (N.of_nat j * cl + cl) with (N.of_nat (S j) * cl) by lia.
    apply N.mul_le_mono_r. lia. }
  unfold stream_chunk. f_equal. unfold slice, lenN in *.
  rewrite drop_app_le by lia. rewrite take_app_le; [done|]. rewrite length_drop. lia.
Qed.

Lemma push_consumed pl cl start s t n c :
  geometry pl cl → start + lenN (s ++ t) < two64 → consumed pl cl start s n c →
  ∃ k c', push c t = Some (stream_chunks pl cl start (s ++ t) n k, c') ∧
    consumed pl cl start (s ++ t) (n + k) c' ∧ lenN (buf c') < cl.
Proof.
  intros Hg Hov (E1 & E2 & E3 & E4 & E5 & E6). unfold push.
  apply push_loop_consumed; [done|done| |simpl; lia].
  split_and!; simpl; try done; [rewrite lenN_app; lia|].
  rewrite E6, drop_app_le; [done|]. unfold lenN in E5. lia.
Qed.

Lemma new_consumed pl cl start : consumed pl cl start [] 0 (new pl cl start).
Proof. by split_and!. Qed.

(** Pushing a whole stream in any pieces. *)
Fixpoint push_all (c : TsChunker) (ins : list bytes) : option (list OutChunk * TsChunker) :=
  match ins with
  | [] => Some ([], c)
  | i :: ins => '(out, c) ← push c i; '(outs, c) ← push_all c ins; Some (out ++ outs, c)
  end.

Lemma push_all_consumed pl cl start s n c ins :
  geometry pl cl → start + lenN (s ++ concat ins) < two64 →
  consumed pl cl start s n c → lenN (buf c) < cl →
  ∃ k c', push_all c ins = Some (stream_chunks pl cl start (s ++ concat ins) n k, c') ∧
    consumed pl cl start (s ++ concat ins) (n + k) c' ∧ lenN (buf c') < cl.
Proof.
  intros Hg. revert s n c. induction ins as [|i ins IH]; intros s n c Hov Hc Hb.
  { exists 0%nat, c. simpl. rewrite app_nil_r, Nat.add_0_r. done. }
  simpl in *. rewrite app_assoc in *.
  destruct (push_consumed pl cl start s i n c) as (k1 & c1 & H1 & C1 & B1); [done| |done|].
  { rewrite lenN_app in Hov. lia. }
  destruct (IH (s ++ i) (n + k1)%nat c1) as (k2 & c2 & H2 & C2 & B2); [done..|].
  exists (k1 + k2)%nat, c2. rewrite H1. cbn [mbind option_bind]. rewrite H2.
  cbn [mbind option_bind]. rewrite Nat.add_assoc. split_and!; try done. do 2 f_equal.
  destruct C1 as (_ & _ & _ & _ & C1 & _).
  rewrite <-(stream_chunks_app _ _ _ (s ++ i) (concat ins)) by done.
  unfold stream_chunks. by rewrite seq_app, map_app.
Qed.

(** ** The signing chunker's broadcast

    Each piece carries a payload and its signature. *)

Section SigningSpec.
Context `{CryptoLaws}.
Variables (auth : LiveSourceAuth) (pl cl start : N).

Fixpoint signing_push_all (s : SigningChunker) (ins : list bytes)
    : option (list OutChunk * SigningChunker) :=
  match ins with
  | [] => Some ([], s)
  | i :: ins =>
      '(out, s) ← signing_push s i auth; '(outs, s) ← signing_push_all s ins; Some (out ++ outs, s)
  end.

Definition capacity : N := pl - N.of_nat (signature_len auth).
Definition signed_piece (payload : bytes) : bytes := payload ++ sign auth payload.
Definition broadcast (ps : list bytes) : bytes := concat (map signed_piece ps).
Definition per_piece : nat := N.to_nat (pl `div` cl).

(** A chunker that has signed and emitted the payloads [ps]. *)
Definition signed (ps : list bytes) (s : SigningChunker) : Prop :=
  payload_capacity s = capacity ∧ Forall (λ p, lenN p = capacity) ps ∧
  consumed pl cl start (broadcast ps) (length ps * per_piece) (chunker s).

Hypothesis Hgeo : geometry pl cl.
Hypothesis Hsig : N.of_nat (signature_len auth) < pl.

Lemma per_piece_mul : N.of_nat per_piece * cl = pl.
Proof.
  destruct Hgeo as (? & ? & Hm & _). unfold per_piece.
  pose proof (N.div_mod pl cl ltac:(lia)). lia.
Qed.

Lemma signed_piece_length p : lenN p = capacity → lenN (signed_piece p) = pl.
Proof. intros Hp. unfold signed_piece, capacity in *. rewrite lenN_app, Hp. unfold lenN. rewrite sign_len. lia. Qed.

Lemma broadcast_length ps : Forall (λ p, lenN p = capacity) ps →
  lenN (broadcast ps) = lenN ps * pl.
Proof.
  unfold broadcast. induction 1 as [|p ps Hp _ IH]; [done|]. simpl.
  rewrite lenN_app, IH, signed_piece_length by done. unfold lenN. simpl. lia.
Qed.

Lemma broadcast_app ps qs : broadcast (ps ++ qs) = broadcast ps ++ broadcast qs.
Proof. unfold broadcast. by rewrite map_app, concat_app. Qed.

Lemma signing_piece ps s payload : signed ps s → lenN payload = capacity →
  start + (lenN ps + 1) * pl < two64 →
  ∃ ch, push (chunker s) (signed_piece payload) =
      Some (stream_chunks pl cl start (broadcast (ps ++ [payload])) (length ps * per_piece) per_piece, ch)
    ∧ consumed pl cl start (broadcast (ps ++ [payload])) (length (ps ++ [payload]) * per_piece) ch.
Proof.
  intros (Hcap & Hps & Hcon) Hp Hov.
  assert (lenN (broadcast ps ++ signed_piece payload) = (lenN ps + 1) * pl) as Hlen.
  { rewrite lenN_app, signed_piece_length, broadcast_length by done. lia. }
  assert (broadcast (ps ++ [payload]) = broadcast ps ++ signed_piece payload) as Hb.
  { rewrite broadcast_app. unfold broadcast at 2. simpl. by rewrite app_nil_r. }
  destruct (push_consumed pl cl start (broadcast ps) (signed_piece payload) (length ps * per_piece)
    (chunker s)) as (k & ch & Hpush & Hcon' & Hbuf); [done|lia|done|].
  pose proof Hgeo as (Hcl & _).
  pose proof (consumed_count _ _ _ _ _ _ Hcl Hcon' Hbuf) as Hk. rewrite Hlen, <-per_piece_mul in Hk.
  replace ((lenN ps + 1) * (N.of_nat per_piece * cl)) with ((lenN ps + 1) * N.of_nat per_piece * cl) in Hk by lia.
  rewrite N.div_mul in Hk by lia. unfold lenN in Hk.
  assert (k = per_piece) as -> by lia.
  exists ch. rewrite Hb, length_app. simpl.
  replace ((length ps + 1) * per_piece)%nat with (length ps * per_piece + per_piece)%nat by lia.
  done.
Qed.

Lemma stream_chunks_split s n k l :
  stream_chunks pl cl start s n k ++ stream_chunks pl cl start s (n + k) l =
  stream_chunks pl cl start s n (k + l).
Proof. unfold stream_chunks. by rewrite seq_app, map_app. Qed.

Lemma signing_loop_signed fuel ps s : signed ps s → (length (sbuf s) < fuel)%nat →
  (∀ n, n * capacity ≤ lenN ps * capacity + lenN (sbuf s) → start + n * pl < two64) →
  ∃ qs s', signing_loop fuel s auth =
      Some (stream_chunks pl cl start (broadcast (ps ++ qs)) (length ps * per_piece)
        (length qs * per_piece), s') ∧
    signed (ps ++ qs) s' ∧ sbuf s = concat qs ++ sbuf s' ∧ lenN (sbuf s') < capacity.
Proof.
  assert (0 < capacity) as Hcpos by (unfold capacity; lia).
  revert ps s. induction fuel as [|fuel IH]; intros ps s Hs Hf Hov; [lia|].
  pose proof Hs as (Hcap & Hps & Hcon). cbn [signing_loop]. rewrite Hcap.
  destruct (N.leb_spec capacity (lenN (sbuf s))) as [Hle|Hlt].
  2:{ exists [], s. rewrite app_nil_r. by split_and!. }
  set (payload := take (N.to_nat capacity) (sbuf s)).
  set (rest := drop (N.to_nat capacity) (sbuf s)).
  assert (lenN payload = capacity) as Hp by (unfold payload, lenN in *; rewrite length_take; lia).
  assert (lenN (sbuf s) = capacity + lenN rest) as Hrest
    by (unfold rest, lenN in *; rewrite length_drop; lia).
  destruct (signing_piece ps s payload Hs Hp) as (ch & Hpush & Hcon'); [apply Hov; lia|].
  fold (signed_piece payload). rewrite Hpush. cbn [mbind option_bind].
  destruct (IH (ps ++ [payload]) (mkSigningChunker capacity rest ch)) as (qs & s' & Hl & Hs' & Hb & Hlt).
  { split_and!; simpl; [done|apply Forall_app; auto|done]. }
  { simpl. unfold lenN in *. lia. }
  { intros n Hn. apply Hov. rewrite lenN_app in Hn. simpl in Hn. unfold lenN in *. simpl in Hn. lia. }
  rewrite Hl. cbn [mbind option_bind]. rewrite <-app_assoc in *. simpl app in *.
  exists (payload :: qs), s'. split_and!; [|done| |done].
  - do 2 f_equal. simpl length. rewrite length_app. simpl length.
    cbn [Nat.mul]. rewrite <-stream_chunks_split. f_equal.
    + replace (ps ++ payload :: qs) with ((ps ++ [payload]) ++ qs) by by rewrite <-app_assoc.
      rewrite (broadcast_app (ps ++ [payload])). symmetry. apply stream_chunks_app.
      rewrite broadcast_length by (apply Forall_app; auto). rewrite <-per_piece_mul.
      unfold lenN. rewrite length_app. simpl. lia.
    + f_equal. lia.
  - simpl. rewrite <-app_assoc. simpl in Hb. rewrite <-Hb. symmetry. apply take_drop.
Qed.

Lemma signing_push_all_signed ps s ins : signed ps s → lenN (sbuf s) < capacity →
  (∀ n, n * capacity ≤ lenN ps * capacity + lenN (sbuf s ++ concat ins) → start + n * pl < two64) →
  ∃ qs s', signing_push_all s ins =
      Some (stream_chunks pl cl start (broadcast (ps ++ qs)) (length ps * per_piece)
        (length qs * per_piece), s') ∧
    signed (ps ++ qs) s' ∧ sbuf s ++ concat ins = concat qs ++ sbuf s' ∧ lenN (sbuf s') < capacity.
Proof.
  revert ps s. induction ins as [|i ins IH]; intros ps s Hs Hb Hov.
  { exists [], s. simpl. by rewrite !app_nil_r. }
  simpl in Hov. cbn [signing_push_all]. unfold signing_push.
  cbn zeta. cbn [sbuf].
  destruct (signing_loop_signed (S (length (sbuf s ++ i))) ps
    (mkSigningChunker (payload_capacity s) (sbuf s ++ i) (chunker s))) as (q1 & s1 & -> & H1 & B1 & L1).
  { done. } { simpl. lia. }
  { intros n Hn. apply Hov. simpl in Hn. rewrite !lenN_app in *. lia. }
  cbn [mbind option_bind].
  pose proof H1 as (_ & Hall & _). apply Forall_app in Hall as [_ Hq1].
  assert (lenN (concat q1) = lenN q1 * capacity) as Hlq.
  { clear -Hq1. induction Hq1 as [|x l Hx _ IH]; [done|]. simpl. rewrite lenN_app, Hx, IH. unfold lenN; simpl; lia. }
  destruct (IH (ps ++ q1) s1) as (q2 & s2 & -> & H2 & B2 & L2); [done|done| |].
  { intros n Hn. apply Hov. simpl in B1. rewrite app_assoc, B1. rewrite !lenN_app in *. lia. }
  cbn [mbind option_bind]. exists (q1 ++ q2), s2. rewrite <-app_assoc in *.
  split_and!; [|done| |done].
  - do 2 f_equal. rewrite (length_app q1 q2), Nat.mul_add_distr_r, <-stream_chunks_split. f_equal.
    + rewrite app_assoc, (broadcast_app (ps ++ q1)). symmetry. apply stream_chunks_app.
      destruct H1 as (_ & Hall & _). rewrite broadcast_length by done. rewrite <-per_piece_mul.
      unfold lenN. rewrite length_app. lia.
    + f_equal. rewrite length_app. lia.
  - simpl in *. rewrite concat_app, app_assoc, B1, <-!app_assoc. by f_equal.
Qed.

End SigningSpec.

(** ** Theorem *)

(** the chunker splits any stream correctly.  However the input is cut into pushes, a
    fresh chunker with valid geometry terminates and emits exactly the stream's whole chunks,
    in order, chunk [j] addressed by piece [start + j*cl/pl], chunk index and byte offset
    within the piece, carrying bytes [j*cl .. (j+1)*cl]; what remains buffered is the tail
    shorter than a chunk. *)
Theorem chunker_splits_stream pl cl start ins :
  geometry pl cl → start + lenN (concat ins) < two64 →
  ∃ c, push_all (new pl cl start) ins =
      Some (stream_chunks pl cl start (concat ins) 0 (N.to_nat (lenN (concat ins) `div` cl)), c) ∧
    buf c = drop (N.to_nat (lenN (concat ins) `div` cl * cl)) (concat ins).
Proof.
  intros Hg Hov. pose proof Hg as (Hcl & _).
  destruct (push_all_consumed pl cl start [] 0 (new pl cl start) ins) as (k & c & Hp & Hc & Hb);
    [done|done|apply new_consumed|done|]. simpl in *.
  pose proof (consumed_count _ _ _ _ _ _ Hcl Hc Hb) as Hk.
  exists c. rewrite <-Hk, Nat2N.id. split; [done|]. by destruct Hc as (_ & _ & _ & _ & _ & ->).
Qed.

Lemma chunker_splits_stream_witness :
  ∃ c, push_all (new 8 4 100) [bs "abcde"; bs "fg"; bs "hijkl"] =
      Some (stream_chunks 8 4 100 (bs "abcdefghijkl") 0 3, c) ∧
    buf c = drop 12 (bs "abcdefghijkl").
Proof.
  apply (chunker_splits_stream 8 4 100 [bs "abcde"; bs "fg"; bs "hijkl"]);
    [by repeat split|vm_compute; done].
Defined.
