(* ===== verification/Reassembly.v ===== *)
(** * Live piece reassembly

    [ace-wire/src/reassembly.rs]: chunk blocks from untrusted peers are assembled into whole
    pieces, authenticated, and emitted in contiguous order.  A method that mutates [self] and
    returns a [Result] is a function to the result and the new state, because a rejected piece
    changes the state too. *)

From S2P Require Import Prelude Bytes Wire LiveAuth.

Local Open Scope N_scope.

Record LiveMetadata : Type := mkLiveMetadata {
  header : bytes;
  lm_chunk_length : N;
  eligible : bool;
}.

Inductive LiveAcceptance : Type :=
  | SourceVerified
  | UnsignedAssemblyAccepted
  | Unauthenticated.

Record LiveBlockOutcome : Type := mkLiveBlockOutcome { contributed : bool; completed : bool }.

Record CompletedLivePiece : Type := mkCompletedLivePiece {
  wire : bytes;
  clp_header : bytes;
  acceptance : LiveAcceptance;
}.

Record ReadyPiece : Type := mkReadyPiece { rp_index : N; rp_bytes : bytes }.

Record Complete : Type := mkComplete { c_buf : bytes; c_live : option LiveMetadata }.

Record Partial : Type := mkPartial {
  p_live : option LiveMetadata;
  p_buf : bytes;
  filled_offsets : gset N;
  filled : N;
}.

Record PieceReassembler : Type := mkReassembler {
  piece_length : N;
  next_emit : N;
  piece_trailer : N;
  verify_pubkey : option bytes;
  max_ahead : N;
  partial : gmap N Partial;
  complete : gmap N Complete;
}.

Definition set_partial (m : gmap N Partial) (r : PieceReassembler) : PieceReassembler :=
  mkReassembler (piece_length r) (next_emit r) (piece_trailer r) (verify_pubkey r) (max_ahead r)
    m (complete r).
Definition set_complete (m : gmap N Complete) (r : PieceReassembler) : PieceReassembler :=
  mkReassembler (piece_length r) (next_emit r) (piece_trailer r) (verify_pubkey r) (max_ahead r)
    (partial r) m.
Definition set_next_emit (n : N) (r : PieceReassembler) : PieceReassembler :=
  mkReassembler (piece_length r) n (piece_trailer r) (verify_pubkey r) (max_ahead r)
    (partial r) (complete r).

(** ** Construction *)

Definition new (piece_length start_piece : N) : PieceReassembler :=
  mkReassembler piece_length start_piece 0 None u64_max ∅ ∅.

Definition with_piece_trailer (sig_len : N) (r : PieceReassembler) : PieceReassembler :=
  mkReassembler (piece_length r) (next_emit r) (N.min sig_len (piece_length r))
    (verify_pubkey r) (max_ahead r) (partial r) (complete r).

Definition with_max_pieces_ahead (n : N) (r : PieceReassembler) : PieceReassembler :=
  mkReassembler (piece_length r) (next_emit r) (piece_trailer r) (verify_pubkey r) n
    (partial r) (complete r).

Section Reassembly.
Context `{Crypto}.

Definition with_source_pubkey (pubkey_der : bytes) (r : PieceReassembler) : PieceReassembler :=
  match signature_len_from_pubkey_der pubkey_der with
  | Some sig_len =>
      mkReassembler (piece_length r) (next_emit r) (N.min (N.of_nat sig_len) (piece_length r))
        (Some pubkey_der) (max_ahead r) (partial r) (complete r)
  | None => r
  end.

(** ** Receiving blocks *)

(** [p.buf[begin..end].copy_from_slice(block)]. *)
Definition write_block (b : bytes) (begin : nat) (block : bytes) : bytes :=
  take begin b ++ block ++ drop (begin + length block) b.

(** The authentication of a piece whose last byte has arrived. *)
Definition authenticate (r : PieceReassembler) (b : bytes) : Result unit :=
  match verify_pubkey r with
  | None => Ok ()
  | Some pubkey =>
      match split_piece b (N.to_nat (piece_trailer r)) with
      | None => Err (Invalid "live-source piece trailer split failed")
      | Some (payload, sig) =>
          if verify_piece pubkey payload sig then Ok () else Err SignatureRejected
      end
  end.

(** [partial.entry(index).or_insert_with(..)]. *)
Definition fresh_partial (r : PieceReassembler) : Partial :=
  mkPartial None (replicate (N.to_nat (piece_length r)) x00) ∅ 0.

Definition add_block_with_contribution (r : PieceReassembler) (index begin : N) (block : bytes)
    : Result bool * PieceReassembler :=
  if (index <? next_emit r) || bool_decide (is_Some (complete r !! index)) then (Ok false, r)
  else if saturating_add (next_emit r) (max_ahead r) <=? index then
    (Err (Invalid "piece index too far ahead of emit cursor"), r)
  else
    match checked_add begin (lenN block) with
    | None => (Err (Invalid "block offset overflow"), r)
    | Some e =>
        if piece_length r <? e then (Err (Invalid "block exceeds piece length"), r)
        else
          let p := default (fresh_partial r) (partial r !! index) in
          let b := write_block (p_buf p) (N.to_nat begin) block in
          let fresh := negb (bool_decide (begin ∈ filled_offsets p)) in
          let p := mkPartial None b ({[begin]} ∪ filled_offsets p)
            (if fresh then u64_add (filled p) (lenN block) else filled p) in
          if piece_length r <=? filled p then
            let r := set_partial (delete index (partial r)) r in
            match authenticate r b with
            | Err e => (Err e, r)
            | Ok _ =>
                (Ok (negb (bool_decide (block = []))),
                 set_complete (<[index := mkComplete b None]> (complete r)) r)
            end
          else
            (Ok (negb (bool_decide (block = []))),
             set_partial (<[index := p]> (partial r)) r)
    end.

Definition add_block (r : PieceReassembler) (index begin : N) (block : bytes)
    : Result unit * PieceReassembler :=
  let '(res, r) := add_block_with_contribution r index begin block in ((λ _, ()) <$> res, r).

(** [metadata] of [add_live_chunk]: the geometry test and the eligibility so far. *)
Definition live_geometry (r : PieceReassembler) (chunk chunk_length : N) (block : bytes) : bool :=
  (0 <? chunk_length) && (0 <? piece_length r) && is_multiple_of (piece_length r) chunk_length
  && (piece_length r `div` chunk_length <=? 65535)
  && (chunk <? piece_length r `div` chunk_length)
  && (lenN block =? chunk_length) && (piece_length r <? two64).

Definition add_live_chunk (r : PieceReassembler) (index chunk chunk_length : N)
    (hdr block : bytes) : Result LiveBlockOutcome * PieceReassembler :=
  if (index <? next_emit r) || bool_decide (is_Some (complete r !! index)) then
    (Ok (mkLiveBlockOutcome false false), r)
  else
    let prior := partial r !! index in
    let m := default (mkLiveMetadata hdr chunk_length (bool_decide (prior = None)))
      (prior ≫= p_live) in
    let m := mkLiveMetadata (header m) (lm_chunk_length m)
      (eligible m && (live_geometry r chunk chunk_length block
        && bool_decide (header m = hdr) && (lm_chunk_length m =? chunk_length))) in
    match checked_mul chunk chunk_length with
    | None => (Err (Invalid "block offset overflow"), r)
    | Some begin =>
        match add_block_with_contribution r index begin block with
        | (Err e, r) => (Err e, r)
        | (Ok c, r) =>
            match complete r !! index with
            | Some done =>
                (Ok (mkLiveBlockOutcome c true),
                 set_complete (<[index := mkComplete (c_buf done) (Some m)]> (complete r)) r)
            | None =>
                (Ok (mkLiveBlockOutcome c false),
                 match partial r !! index with
                 | Some p => set_partial (<[index := mkPartial (Some m) (p_buf p)
                               (filled_offsets p) (filled p)]> (partial r)) r
                 | None => r
                 end)
            end
        end
    end.

(** ** Observing and emitting *)

Definition media (r : PieceReassembler) (b : bytes) : bytes :=
  take (length b - N.to_nat (piece_trailer r)) b.

Definition completed_live_piece (r : PieceReassembler) (index : N) : option CompletedLivePiece :=
  done ← complete r !! index;
  m ← c_live done;
  if eligible m then
    let acc := match verify_pubkey r with
      | Some _ => SourceVerified
      | None => if piece_trailer r =? 0 then UnsignedAssemblyAccepted else Unauthenticated
      end in
    Some (mkCompletedLivePiece (c_buf done) (header m) acc)
  else None.

Definition discard_partial (r : PieceReassembler) (index : N) : PieceReassembler :=
  set_partial (delete index (partial r)) r.

Definition ready_piece (r : PieceReassembler) (index : N) : option bytes :=
  (λ d, media r (c_buf d)) <$> complete r !! index.

(** The iterator of [ready_chunks]; it ends at a gap or when the index cannot advance. *)
Fixpoint ready_from (fuel : nat) (r : PieceReassembler) (next : N) : list bytes :=
  match fuel with
  | 0%nat => []
  | S fuel =>
      match complete r !! next, checked_add next 1 with
      | Some d, Some next' => media r (c_buf d) :: ready_from fuel r next'
      | _, _ => []
      end
  end.

Definition ready_chunks (r : PieceReassembler) : list bytes :=
  ready_from (S (size (complete r))) r (next_emit r).

Definition take_ready_piece (r : PieceReassembler) : option ReadyPiece * PieceReassembler :=
  let index := next_emit r in
  match checked_add index 1 with
  | None => (None, r)
  | Some next =>
      match complete r !! index with
      | None => (None, r)
      | Some done =>
          (Some (mkReadyPiece index (media r (c_buf done))),
           set_next_emit next (set_complete (delete index (complete r)) r))
      end
  end.

(** The [while let] of [take_ready]; every turn removes a completed piece. *)
Fixpoint take_ready_loop (fuel : nat) (r : PieceReassembler) (out : bytes)
    : bytes * PieceReassembler :=
  match fuel with
  | 0%nat => (out, r)
  | S fuel =>
      match complete r !! next_emit r with
      | None => (out, r)
      | Some done =>
          let b := media r (c_buf done) in
          take_ready_loop fuel
            (set_next_emit (u64_add (next_emit r) 1)
              (set_complete (delete (next_emit r) (complete r)) r)) (out ++ b)
      end
  end.

Definition take_ready (r : PieceReassembler) : bytes * PieceReassembler :=
  take_ready_loop (S (size (complete r))) r [].

Definition next_needed (r : PieceReassembler) : N := next_emit r.

Definition skip_to (r : PieceReassembler) (piece : N) : PieceReassembler :=
  if piece <=? next_emit r then r
  else mkReassembler (piece_length r) piece (piece_trailer r) (verify_pubkey r) (max_ahead r)
    (base.filter (λ kv, piece ≤ kv.1) (partial r))
    (base.filter (λ kv, piece ≤ kv.1) (complete r)).

(** ** Steps: what the live session does to a reassembler *)

Inductive step : PieceReassembler → PieceReassembler → Prop :=
  | step_block r index begin block :
      index < two64 → begin < two64 →
      step r (add_block_with_contribution r index begin block).2
  | step_live r index chunk chunk_length hdr block :
      index < two64 → chunk < two16 → chunk_length < two64 →
      step r (add_live_chunk r index chunk chunk_length hdr block).2
  | step_discard r index : step r (discard_partial r index)
  | step_take_piece r : step r (take_ready_piece r).2
  | step_take r : step r (take_ready r).2
  | step_skip r piece : piece < two64 → step r (skip_to r piece).

(** A fresh reassembler as the live session configures it. *)
Inductive initial : PieceReassembler → Prop :=
  | initial_new pl start :
      0 < pl < 2 ^ 63 → start < two64 → initial (new pl start)
  | initial_trailer r sig_len : initial r → verify_pubkey r = None → initial (with_piece_trailer sig_len r)
  | initial_ahead r n : initial r → n < two64 → initial (with_max_pieces_ahead n r)
  | initial_pubkey r der : initial r → initial (with_source_pubkey der r).

Definition reachable (r : PieceReassembler) : Prop := ∃ r0, initial r0 ∧ rtc step r0 r.

(** ** Effects of a block

    The five ways a block changes the state; every lemma below works by cases on them. *)

Definition after_block (r : PieceReassembler) (index begin : N) (block : bytes) : Partial :=
  let p := default (fresh_partial r) (partial r !! index) in
  mkPartial None (write_block (p_buf p) (N.to_nat begin) block) ({[begin]} ∪ filled_offsets p)
    (if bool_decide (begin ∈ filled_offsets p) then filled p
     else u64_add (filled p) (lenN block)).

Definition accepts (r : PieceReassembler) (index begin : N) (block : bytes) : Prop :=
  next_emit r ≤ index ∧ complete r !! index = None ∧
  index < saturating_add (next_emit r) (max_ahead r) ∧ begin + lenN block ≤ piece_length r.

Inductive block_effect (r : PieceReassembler) (index begin : N) (block : bytes)
    : Result bool → PieceReassembler → Prop :=
  | effect_stale :
      index < next_emit r ∨ is_Some (complete r !! index) →
      block_effect r index begin block (Ok false) r
  | effect_refused e :
      ¬ accepts r index begin block ∨ two64 ≤ begin + lenN block →
      ¬ (index < next_emit r ∨ is_Some (complete r !! index)) →
      block_effect r index begin block (Err e) r
  | effect_partial :
      accepts r index begin block → filled (after_block r index begin block) < piece_length r →
      block_effect r index begin block (Ok (negb (bool_decide (block = []))))
        (set_partial (<[index := after_block r index begin block]> (partial r)) r)
  | effect_rejected e :
      accepts r index begin block → piece_length r ≤ filled (after_block r index begin block) →
      authenticate r (p_buf (after_block r index begin block)) = Err e →
      block_effect r index begin block (Err e) (set_partial (delete index (partial r)) r)
  | effect_complete :
      accepts r index begin block → piece_length r ≤ filled (after_block r index begin block) →
      authenticate r (p_buf (after_block r index begin block)) = Ok () →
      block_effect r index begin block (Ok (negb (bool_decide (block = []))))
        (set_complete (<[index := mkComplete (p_buf (after_block r index begin block)) None]>
          (complete r)) (set_partial (delete index (partial r)) r)).

Lemma add_block_effect r index begin block :
  block_effect r index begin block (add_block_with_contribution r index begin block).1
    (add_block_with_contribution r index begin block).2.
Proof.
  unfold add_block_with_contribution.
  destruct ((index <? next_emit r) || bool_decide (is_Some (complete r !! index))) eqn:Estale.
  { cbn [fst snd]. apply effect_stale. apply orb_true_iff in Estale as [?%N.ltb_lt|?%bool_decide_eq_true]; auto. }
  apply orb_false_iff in Estale as [Hge%N.ltb_ge Hnc%bool_decide_eq_false].
  assert (complete r !! index = None) as Hnone by by apply eq_None_not_Some.
  assert (¬ (index < next_emit r ∨ is_Some (complete r !! index))) by (intros [?|?]; [lia|done]).
  destruct (N.leb_spec (saturating_add (next_emit r) (max_ahead r)) index).
  { cbn [fst snd]. apply effect_refused; [|done]. left. intros (_ & _ & ? & _). lia. }
  unfold checked_add. destruct (N.ltb_spec (begin + lenN block) two64).
  2:{ cbn [fst snd]. by apply effect_refused; [right|]. }
  destruct (N.ltb_spec (piece_length r) (begin + lenN block)).
  { cbn [fst snd]. apply effect_refused; [|done]. left. intros (_ & _ & _ & ?). lia. }
  assert (accepts r index begin block) as Hacc by done.
  assert (∀ A (x y : A) (b : bool), (if negb b then x else y) = if b then y else x) as Hneg
    by by intros ??? [].
  cbn zeta. rewrite Hneg. fold (after_block r index begin block).
  destruct (N.leb_spec (piece_length r) (filled (after_block r index begin block))) as [Hf|Hf];
    simpl; [|by apply effect_partial].
  change (authenticate (set_partial (delete index (partial r)) r)) with (authenticate r).
  change (write_block _ _ _) with (p_buf (after_block r index begin block)).
  destruct (authenticate r _) as [[]|e] eqn:Ea; simpl;
    [by apply effect_complete|by apply effect_rejected].
Qed.

(** ** The invariant *)

Definition in_window (r : PieceReassembler) (i : N) : Prop :=
  next_emit r ≤ i < saturating_add (next_emit r) (max_ahead r).

Record Inv (r : PieceReassembler) : Prop := {
  inv_length : 0 < piece_length r < 2 ^ 63;
  inv_cursor : next_emit r < two64;
  inv_trailer : piece_trailer r ≤ piece_length r;
  inv_partial i p : partial r !! i = Some p →
    in_window r i ∧ lenN (p_buf p) = piece_length r ∧ filled p < piece_length r;
  inv_complete i c : complete r !! i = Some c →
    in_window r i ∧ lenN (c_buf c) = piece_length r ∧ authenticate r (c_buf c) = Ok ();
  inv_disjoint i : is_Some (complete r !! i) → partial r !! i = None;
}.

(** What a step never changes. *)
Definition same_config (r r' : PieceReassembler) : Prop :=
  piece_length r' = piece_length r ∧ piece_trailer r' = piece_trailer r ∧
  verify_pubkey r' = verify_pubkey r ∧ max_ahead r' = max_ahead r.

Lemma length_write_block b n block : (n + length block ≤ length b)%nat →
  length (write_block b n block) = length b.
Proof. intros. unfold write_block. rewrite !length_app, length_take, length_drop. lia. Qed.

Lemma after_block_length r index begin block : Inv r → accepts r index begin block →
  lenN (p_buf (after_block r index begin block)) = piece_length r.
Proof.
  intros HI (_ & _ & _ & Hb). pose proof (inv_length r HI).
  assert (lenN (p_buf (default (fresh_partial r) (partial r !! index))) = piece_length r) as Hl.
  { destruct (partial r !! index) as [p|] eqn:E; simpl; [by eapply inv_partial|].
    unfold lenN. rewrite length_replicate. lia. }
  unfold lenN in *. simpl. rewrite length_write_block; lia.
Qed.

Lemma add_block_config r index begin block :
  same_config r (add_block_with_contribution r index begin block).2 ∧
  next_emit (add_block_with_contribution r index begin block).2 = next_emit r.
Proof. destruct (add_block_effect r index begin block); by repeat split. Qed.

Lemma add_block_inv r index begin block :
  Inv r → Inv (add_block_with_contribution r index begin block).2.
Proof.
  intros HI. destruct (add_block_effect r index begin block)
    as [| |Ha Hf|e Ha Hf He|Ha Hf He]; try done;
    destruct HI as [Hl Hc Ht Hp Hcm Hd]; pose proof Ha as (Hge & Hnc & Hlt & _);
    assert (Inv r) as HI by done; split; simpl; try done.
  - intros i p [[<- <-]|[Hne Hi]]%lookup_insert_Some; [|by apply Hp in Hi].
    split_and!; [by split|by apply after_block_length|done].
  - intros i Hi. rewrite lookup_insert_ne; [by apply Hd|]. intros <-.
    rewrite Hnc in Hi. by destruct Hi.
  - intros i p [_ Hi]%lookup_delete_Some. by apply Hp in Hi.
  - intros i Hi. apply lookup_delete_None. auto.
  - intros i p [_ Hi]%lookup_delete_Some. by apply Hp in Hi.
  - intros i c [[<- <-]|[Hne Hi]]%lookup_insert_Some; [|by apply Hcm in Hi].
    split_and!; [by split|by apply after_block_length|done].
  - intros i Hi. apply lookup_delete_None. destruct (decide (index = i)); [auto|].
    rewrite lookup_insert_ne in Hi by done. auto.
Qed.

(** Publication metadata is not part of the invariant. *)
Lemma set_live_partial_inv r i p live : Inv r → partial r !! i = Some p →
  Inv (set_partial (<[i := mkPartial live (p_buf p) (filled_offsets p) (filled p)]> (partial r)) r).
Proof.
  intros [Hl Hc Ht Hp Hcm Hd] Hi. split; simpl; try done.
  - intros j q [[<- <-]|[_ Hj]]%lookup_insert_Some; [by apply Hp in Hi|by apply Hp in Hj].
  - intros j Hj. rewrite lookup_insert_ne; [auto|]. intros <-.
    pose proof (Hd _ Hj). congruence.
Qed.

Lemma set_live_complete_inv r i c live : Inv r → complete r !! i = Some c →
  Inv (set_complete (<[i := mkComplete (c_buf c) live]> (complete r)) r).
Proof.
  intros [Hl Hc Ht Hp Hcm Hd] Hi. split; simpl; try done.
  - intros j q [[<- <-]|[_ Hj]]%lookup_insert_Some; [by apply Hcm in Hi|by apply Hcm in Hj].
  - intros j Hj. apply Hd. destruct (decide (i = j)) as [<-|]; [done|].
    by rewrite lookup_insert_ne in Hj.
Qed.

(** The states [add_live_chunk] can leave: none of them differs from [add_block]'s in more
    than metadata. *)
Lemma add_live_chunk_state r index chunk cl hdr block :
  let r' := (add_live_chunk r index chunk cl hdr block).2 in
  let r1 := (add_block_with_contribution r index (chunk * cl) block).2 in
  r' = r ∨ r' = r1 ∨
  (∃ c m, complete r1 !! index = Some c ∧
    r' = set_complete (<[index := mkComplete (c_buf c) (Some m)]> (complete r1)) r1) ∨
  (∃ p m, partial r1 !! index = Some p ∧ r' = set_partial
    (<[index := mkPartial (Some m) (p_buf p) (filled_offsets p) (filled p)]> (partial r1)) r1).
Proof.
  cbn zeta. unfold add_live_chunk.
  destruct ((index <? next_emit r) || _); [by left|].
  unfold checked_mul. destruct (chunk * cl <? two64); [|by left].
  destruct (add_block_with_contribution r index (chunk * cl) block) as [[c|e] r1];
    [|by right; left].
  cbn [fst snd]. destruct (complete r1 !! index) as [d|] eqn:Ec; cbn [fst snd].
  { right; right; left. by eexists _, _. }
  destruct (partial r1 !! index) as [p|] eqn:Ep; cbn [fst snd]; [|by right; left].
  right; right; right. by eexists _, _.
Qed.

Lemma add_live_chunk_inv r index chunk cl hdr block :
  Inv r → Inv (add_live_chunk r index chunk cl hdr block).2.
Proof.
  intros HI. pose proof (add_block_inv r index (chunk * cl) block HI) as HI1.
  destruct (add_live_chunk_state r index chunk cl hdr block)
    as [->|[->|[(c & m & Hc & ->)|(p & m & Hp & ->)]]]; try done;
    eauto using set_live_partial_inv, set_live_complete_inv.
Qed.

Lemma add_live_chunk_config r index chunk cl hdr block :
  same_config r (add_live_chunk r index chunk cl hdr block).2 ∧
  next_emit (add_live_chunk r index chunk cl hdr block).2 = next_emit r.
Proof.
  pose proof (add_block_config r index (chunk * cl) block).
  by destruct (add_live_chunk_state r index chunk cl hdr block)
    as [->|[->|[(c & m & Hc & ->)|(p & m & Hp & ->)]]].
Qed.

(** ** Emission *)

(** The state after the piece at the cursor has left. *)
Definition advance (r : PieceReassembler) : PieceReassembler :=
  set_next_emit (next_emit r + 1) (set_complete (delete (next_emit r) (complete r)) r).

Lemma in_window_lt r i : in_window r i → i < u64_max.
Proof. unfold in_window, saturating_add. lia. Qed.

Lemma in_window_advance r i : in_window r i → i ≠ next_emit r → in_window (advance r) i.
Proof. unfold in_window, saturating_add. simpl. lia. Qed.

Lemma advance_inv r : Inv r → is_Some (complete r !! next_emit r) → Inv (advance r).
Proof.
  intros [Hl Hc Ht Hp Hcm Hd] [c Hn]. pose proof (Hd _ (mk_is_Some _ _ Hn)) as Hnp.
  pose proof (Hcm _ _ Hn) as (Hw%in_window_lt & _).
  split; simpl; try done; [lia| | |].
  - intros i p Hi. destruct (Hp _ _ Hi) as (? & ? & ?). split_and!; try done.
    apply in_window_advance; [done|congruence].
  - intros i d [Hne Hi]%lookup_delete_Some. destruct (Hcm _ _ Hi) as (? & ? & ?).
    split_and!; try done. by apply in_window_advance.
  - intros i [d [Hne Hi]%lookup_delete_Some]. eauto.
Qed.

Lemma take_ready_piece_cases r : Inv r →
  (complete r !! next_emit r = None ∧ take_ready_piece r = (None, r)) ∨
  (∃ c, complete r !! next_emit r = Some c ∧
    take_ready_piece r = (Some (mkReadyPiece (next_emit r) (media r (c_buf c))), advance r)).
Proof.
  intros HI. unfold take_ready_piece. destruct (complete r !! next_emit r) as [c|] eqn:E.
  - right. exists c. split; [done|]. pose proof (inv_complete r HI _ _ E) as (Hw%in_window_lt & _).
    unfold checked_add. rewrite (proj2 (N.ltb_lt _ _)) by lia. done.
  - left. split; [done|]. by destruct (checked_add _ _).
Qed.

Lemma take_ready_piece_inv r : Inv r → Inv (take_ready_piece r).2.
Proof.
  intros HI. destruct (take_ready_piece_cases r HI) as [[_ ->]|(c & Hc & ->)]; [done|].
  by apply advance_inv.
Qed.

(** The loop of [take_ready] is the iteration of [take_ready_piece]. *)
Lemma take_ready_loop_spec fuel r out : Inv r → (size (complete r) < fuel)%nat →
  ∃ r', take_ready_loop fuel r out = (out ++ concat (ready_from fuel r (next_emit r)), r') ∧
    Inv r' ∧ same_config r r' ∧ partial r' = partial r ∧
    next_emit r' = next_emit r + lenN (ready_from fuel r (next_emit r)) ∧
    complete r' !! next_emit r' = None ∧
    (∀ i, next_emit r' ≤ i → complete r' !! i = complete r !! i) ∧
    (∀ i, next_emit r ≤ i < next_emit r' → is_Some (complete r !! i)).
Proof.
  revert r out. induction fuel as [|fuel IH]; intros r out HI Hf; [lia|]. simpl.
  destruct (complete r !! next_emit r) as [c|] eqn:E.
  2:{ exists r. rewrite app_nil_r. split_and!; try done; [unfold lenN; simpl; lia|].
      intros i ?. lia. }
  pose proof (inv_complete r HI _ _ E) as (Hw%in_window_lt & _).
  rewrite u64_add_small by lia. fold (advance r).
  unfold checked_add. rewrite (proj2 (N.ltb_lt _ _)) by lia.
  destruct (IH (advance r) (out ++ media r (c_buf c))) as
    (r' & Hr & HI' & Hcfg & Hpa & Hne & Hgap & Hrest & Hall).
  { by apply advance_inv. }
  { simpl. pose proof (map_size_delete_lt (complete r) (next_emit r) (mk_is_Some _ _ E)). lia. }
  assert (∀ n f, next_emit r < n → ready_from f (advance r) n = ready_from f r n) as Hext.
  { clear. intros n f. revert n. induction f as [|f IH]; intros n Hn; [done|]. simpl.
    rewrite lookup_delete_ne by lia. destruct (complete r !! n); [|done].
    destruct (checked_add n 1) as [n'|] eqn:E; [|done].
    apply checked_add_Some in E as [-> _]. rewrite IH by lia. done. }
  simpl in *. rewrite Hext in * by lia.
  exists r'. rewrite Hr, Hne. rewrite <-app_assoc. split_and!; try done.
  - unfold lenN. simpl. lia.
  - by rewrite <-Hne.
  - intros i Hi. rewrite Hrest by lia. rewrite lookup_delete_ne by lia. done.
  - intros i Hi. destruct (decide (i = next_emit r)) as [->|]; [by eexists|].
    destruct (Hall i) as [d [_ Hd]%lookup_delete_Some]; [lia|]. by eexists.
Qed.

Lemma take_ready_inv r : Inv r → Inv (take_ready r).2.
Proof.
  intros HI. destruct (take_ready_loop_spec (S (size (complete r))) r []) as (r' & Hr & ? & _);
    [done|lia|]. unfold take_ready. by rewrite Hr.
Qed.

Lemma discard_inv r i : Inv r → Inv (discard_partial r i).
Proof.
  intros [Hl Hc Ht Hp Hcm Hd]. split; simpl; try done.
  - intros j p [_ Hj]%lookup_delete_Some. by apply Hp in Hj.
  - intros j Hj. apply lookup_delete_None. auto.
Qed.

Lemma skip_inv r n : n < two64 → Inv r → Inv (skip_to r n).
Proof.
  intros Hn [Hl Hc Ht Hp Hcm Hd]. unfold skip_to.
  destruct (N.leb_spec n (next_emit r)); [done|].
  split; simpl; try done.
  - intros j p [Hj Hge]%map_lookup_filter_Some. destruct (Hp _ _ Hj) as ([? ?] & ? & ?).
    split_and!; try done. unfold in_window, saturating_add in *. simpl in *. lia.
  - intros j c [Hj Hge]%map_lookup_filter_Some. destruct (Hcm _ _ Hj) as ([? ?] & ? & ?).
    split_and!; try done. unfold in_window, saturating_add in *. simpl in *. lia.
  - intros j [c [Hj _]%map_lookup_filter_Some]. apply map_lookup_filter_None. eauto.
Qed.

Lemma step_inv r r' : step r r' → Inv r → Inv r'.
Proof.
  destruct 1; eauto using add_block_inv, add_live_chunk_inv, discard_inv,
    take_ready_piece_inv, take_ready_inv, skip_inv.
Qed.

Lemma initial_inv r : initial r → Inv r ∧ partial r = ∅ ∧ complete r = ∅.
Proof.
  assert (∀ r, 0 < piece_length r < 2 ^ 63 → next_emit r < two64 →
    piece_trailer r ≤ piece_length r → partial r = ∅ → complete r = ∅ → Inv r) as Hempty.
  { intros r0 H1 H2 H3 Hp Hc. split; try done; rewrite ?Hp, ?Hc; intros i; try done. }
  induction 1 as [pl start ? ?|r sl _ (HI & Hp & Hc) _|r n _ (HI & Hp & Hc) _
    |r der _ (HI & Hp & Hc)].
  - split; [apply Hempty; simpl; done || lia|done].
  - split; [|done]. destruct HI. apply Hempty; simpl; done || lia.
  - split; [|done]. destruct HI. apply Hempty; simpl; done || lia.
  - unfold with_source_pubkey. destruct (signature_len_from_pubkey_der der); [|done].
    split; [|done]. destruct HI. apply Hempty; simpl; done || lia.
Qed.

Lemma reachable_inv r : reachable r → Inv r.
Proof.
  intros (r0 & [HI _]%initial_inv & Hs). induction Hs; eauto using step_inv.
Qed.

Lemma buffers_bounded r : Inv r →
  (size (partial r) + size (complete r) ≤ N.to_nat (max_ahead r))%nat.
Proof.
  intros HI. rewrite <-!(size_dom (D:=gset N)), <-size_union.
  - apply size_range_le with (next_emit r). intros i [[p Hp]%elem_of_dom|[c Hc]%elem_of_dom]%elem_of_union.
    + apply (inv_partial r HI) in Hp as ([? ?] & _). unfold saturating_add in *. lia.
    + apply (inv_complete r HI) in Hc as ([? ?] & _). unfold saturating_add in *. lia.
  - intros i Hp%elem_of_dom Hc%elem_of_dom. apply (inv_disjoint r HI) in Hc. rewrite Hc in Hp.
    by destruct Hp.
Qed.

(** What passing authentication says of the emitted bytes. *)
Lemma authenticate_media r b k : verify_pubkey r = Some k → authenticate r b = Ok () →
  ∃ sig, b = media r b ++ sig ∧ verify_piece k (media r b) sig = true.
Proof.
  unfold authenticate, media. intros ->. unfold split_piece. case_bool_decide; [done|].
  destruct (verify_piece k _ _) eqn:Ev; [|done]. intros _.
  eexists. split; [|exact Ev]. by rewrite take_drop.
Qed.

(** ** Chunk coverage

    The offsets of a partial piece whose writes were all chunks of one length [cl]. *)

Record aligned (pl cl : N) (offs : gset N) (f : N) : Prop := {
  aligned_cl : 0 < cl;
  aligned_mod : pl `mod` cl = 0;
  aligned_offs o : o ∈ offs → ∃ k, k < pl `div` cl ∧ o = k * cl;
  aligned_filled : f = N.of_nat (size offs) * cl;
}.

Lemma aligned_empty pl cl : 0 < cl → pl `mod` cl = 0 → aligned pl cl ∅ 0.
Proof. intros. split; try done. Qed.

Lemma aligned_insert pl cl offs f k : aligned pl cl offs f → k < pl `div` cl → f + cl < two64 →
  aligned pl cl ({[k * cl]} ∪ offs) (if bool_decide (k * cl ∈ offs) then f else u64_add f cl).
Proof.
  intros [Hcl Hm Ho Hf] Hk Hs. split; try done; [set_solver|].
  case_bool_decide as Hin.
  - by replace ({[k * cl]} ∪ offs) with offs by set_solver.
  - rewrite u64_add_small, size_union, size_singleton by (done || set_solver). lia.
Qed.

Lemma aligned_full pl cl offs f : aligned pl cl offs f → pl ≤ f →
  ∀ k, k < pl `div` cl → k * cl ∈ offs.
Proof.
  intros [Hcl Hm Ho Hf] Hle. apply size_multiples_full; [done| |done].
  pose proof (N.div_mod pl cl ltac:(lia)). rewrite Hm in *. nia.
Qed.

(** Eligible partial pieces are aligned. *)
Definition LiveInv (r : PieceReassembler) : Prop := ∀ i p m,
  partial r !! i = Some p → p_live p = Some m → eligible m = true →
  aligned (piece_length r) (lm_chunk_length m) (filled_offsets p) (filled p).

Lemma live_geometry_true r chunk cl block : live_geometry r chunk cl block = true →
  0 < cl ∧ piece_length r `mod` cl = 0 ∧ chunk < piece_length r `div` cl ∧ lenN block = cl.
Proof.
  unfold live_geometry, is_multiple_of. rewrite !andb_true_iff.
  intros ((((((H1%N.ltb_lt & _) & H2) & _) & H3%N.ltb_lt) & H4%N.eqb_eq) & _).
  rewrite (proj2 (N.eqb_neq cl 0)) in H2 by lia. by apply N.eqb_eq in H2.
Qed.

(** [metadata] as [add_live_chunk] leaves it for the piece. *)
Definition live_metadata (r : PieceReassembler) (index chunk cl : N) (hdr block : bytes)
    : LiveMetadata :=
  let prior := partial r !! index in
  let m := default (mkLiveMetadata hdr cl (bool_decide (prior = None))) (prior ≫= p_live) in
  mkLiveMetadata (header m) (lm_chunk_length m)
    (eligible m && (live_geometry r chunk cl block
      && bool_decide (header m = hdr) && (lm_chunk_length m =? cl))).

Lemma live_metadata_aligned r index chunk cl hdr block : Inv r → LiveInv r →
  eligible (live_metadata r index chunk cl hdr block) = true →
  lm_chunk_length (live_metadata r index chunk cl hdr block) = cl ∧
  aligned (piece_length r) cl (filled_offsets (after_block r index (chunk * cl) block))
    (filled (after_block r index (chunk * cl) block)).
Proof.
  intros HI HL. unfold live_metadata. simpl. rewrite !andb_true_iff.
  intros (He & (Hg%live_geometry_true & _) & Hcl%N.eqb_eq). split; [done|].
  destruct Hg as (Hpos & Hmod & Hk & Hb). rewrite Hb. pose proof (inv_length r HI).
  assert (cl ≤ piece_length r).
  { pose proof (N.div_mod (piece_length r) cl ltac:(lia)). nia. }
  destruct (partial r !! index) as [p|] eqn:Ep; simpl in *.
  - destruct (p_live p) as [m|] eqn:Em; simpl in *.
    + pose proof (HL _ _ _ Ep Em He) as Ha. rewrite Hcl in Ha.
      apply aligned_insert; [done|done|].
      apply (inv_partial r HI) in Ep as (_ & _ & ?). lia.
    + done.
  - apply aligned_insert; [by apply aligned_empty|done|lia].
Qed.

(** [add_live_chunk] in terms of [add_block_with_contribution]. *)
Lemma add_live_chunk_stale r index chunk cl hdr block :
  index < next_emit r ∨ is_Some (complete r !! index) →
  add_live_chunk r index chunk cl hdr block = (Ok (mkLiveBlockOutcome false false), r).
Proof.
  intros Hs. unfold add_live_chunk. destruct (N.ltb_spec index (next_emit r)); [done|].
  rewrite bool_decide_true; [done|]. destruct Hs; [lia|done].
Qed.

Lemma add_live_chunk_fresh r index chunk cl hdr block :
  next_emit r ≤ index → complete r !! index = None →
  add_live_chunk r index chunk cl hdr block =
    match checked_mul chunk cl with
    | None => (Err (Invalid "block offset overflow"), r)
    | Some begin =>
        let m := live_metadata r index chunk cl hdr block in
        match add_block_with_contribution r index begin block with
        | (Err e, r1) => (Err e, r1)
        | (Ok c, r1) =>
            match complete r1 !! index with
            | Some d => (Ok (mkLiveBlockOutcome c true),
                set_complete (<[index := mkComplete (c_buf d) (Some m)]> (complete r1)) r1)
            | None => (Ok (mkLiveBlockOutcome c false),
                match partial r1 !! index with
                | Some p => set_partial (<[index := mkPartial (Some m) (p_buf p)
                              (filled_offsets p) (filled p)]> (partial r1)) r1
                | None => r1
                end)
            end
        end
    end.
Proof.
  intros Hge Hc. unfold add_live_chunk. rewrite (proj2 (N.ltb_ge _ _)) by done.
  rewrite bool_decide_false by (rewrite Hc; by intros []). done.
Qed.

(** The state after a live chunk, by the effect of its block. *)
Inductive live_effect (r : PieceReassembler) (index chunk cl : N) (hdr block : bytes)
    : Result LiveBlockOutcome → PieceReassembler → Prop :=
  | live_same o :
      (∀ k, o = Ok k → k = mkLiveBlockOutcome false false) →
      ¬ (accepts r index (chunk * cl) block ∧ chunk * cl + lenN block < two64) →
      live_effect r index chunk cl hdr block o r
  | live_partial c :
      accepts r index (chunk * cl) block →
      filled (after_block r index (chunk * cl) block) < piece_length r →
      live_effect r index chunk cl hdr block (Ok (mkLiveBlockOutcome c false))
        (set_partial (<[index :=
          let p := after_block r index (chunk * cl) block in
          mkPartial (Some (live_metadata r index chunk cl hdr block)) (p_buf p)
            (filled_offsets p) (filled p)]> (partial r)) r)
  | live_rejected e :
      accepts r index (chunk * cl) block →
      piece_length r ≤ filled (after_block r index (chunk * cl) block) →
      authenticate r (p_buf (after_block r index (chunk * cl) block)) = Err e →
      live_effect r index chunk cl hdr block (Err e) (set_partial (delete index (partial r)) r)
  | live_complete c :
      accepts r index (chunk * cl) block →
      piece_length r ≤ filled (after_block r index (chunk * cl) block) →
      authenticate r (p_buf (after_block r index (chunk * cl) block)) = Ok () →
      live_effect r index chunk cl hdr block (Ok (mkLiveBlockOutcome c true))
        (set_complete (<[index :=
          mkComplete (p_buf (after_block r index (chunk * cl) block))
            (Some (live_metadata r index chunk cl hdr block))]> (complete r))
          (set_partial (delete index (partial r)) r)).

Lemma add_live_chunk_effect r index chunk cl hdr block :
  live_effect r index chunk cl hdr block (add_live_chunk r index chunk cl hdr block).1
    (add_live_chunk r index chunk cl hdr block).2.
Proof.
  destruct (decide (index < next_emit r ∨ is_Some (complete r !! index))) as [Hs|Hs].
  { rewrite add_live_chunk_stale by done. apply live_same; [naive_solver|].
    intros [(Hge & Hnc & _) _]. cbn [snd] in *. destruct Hs as [?|[? ?]]; [lia|congruence]. }
  assert (next_emit r ≤ index) as Hge by lia.
  assert (complete r !! index = None) as Hnc by (apply eq_None_not_Some; auto).
  rewrite add_live_chunk_fresh by done. unfold checked_mul.
  destruct (N.ltb_spec (chunk * cl) two64); [|apply live_same; [done|simpl; lia]]. cbn zeta.
  pose proof (add_block_effect r index (chunk * cl) block) as Hb.
  destruct (add_block_with_contribution r index (chunk * cl) block) as [res r1].
  cbn [fst snd] in Hb. destruct Hb as [?|e Ha ?|Ha Hf|e Ha Hf He|Ha Hf He]; [done|..].
  - apply live_same; [done|]. simpl. intros [? ?]. destruct Ha; [done|lia].
  - simpl. rewrite Hnc, lookup_insert_eq. simpl. unfold set_partial. simpl.
    rewrite insert_insert_eq. by apply (live_partial _ _ _ _ hdr).
  - by apply live_rejected.
  - simpl. rewrite lookup_insert_eq. simpl. unfold set_complete. simpl.
    rewrite insert_insert_eq. by apply (live_complete _ _ _ _ hdr).
Qed.

Lemma add_live_chunk_live_inv r index chunk cl hdr block :
  Inv r → LiveInv r → LiveInv (add_live_chunk r index chunk cl hdr block).2.
Proof.
  intros HI HL. destruct (add_live_chunk_effect r index chunk cl hdr block)
    as [| c Ha Hf | |]; [done|..]; intros i p m; cbn [snd partial set_partial set_complete].
  - intros [[<- <-]|[_ Hi]]%lookup_insert_Some; [|by eapply HL].
    cbn [p_live filled_offsets filled]. intros [= <-] He.
    destruct (live_metadata_aligned r index chunk cl hdr block HI HL He) as [Hcl Hal].
    by rewrite Hcl.
  - intros [_ Hi]%lookup_delete_Some. by eapply HL.
  - intros [_ Hi]%lookup_delete_Some. by eapply HL.
Qed.

Lemma add_block_live_inv r index begin block :
  LiveInv r → LiveInv (add_block_with_contribution r index begin block).2.
Proof.
  intros HL. destruct (add_block_effect r index begin block); try done; intros i p m; simpl.
  - intros [[<- <-]|[_ Hi]]%lookup_insert_Some; [done|by eapply HL].
  - intros [_ Hi]%lookup_delete_Some. by eapply HL.
  - intros [_ Hi]%lookup_delete_Some. by eapply HL.
Qed.

Lemma step_live_inv r r' : step r r' → Inv r → LiveInv r → LiveInv r'.
Proof.
  intros Hs HI HL. destruct Hs as [| |r j| |r|r n Hn]; eauto using add_block_live_inv, add_live_chunk_live_inv.
  - intros i p m. simpl. intros [_ Hi]%lookup_delete_Some. by eapply HL.
  - destruct (take_ready_piece_cases r HI) as [[_ ->]|(c & _ & ->)]; done.
  - destruct (take_ready_loop_spec (S (size (complete r))) r [])
      as (r' & Hr & _ & (Hl & _) & Hp & _); [done|lia|].
    unfold take_ready, LiveInv. rewrite Hr. simpl. by rewrite Hl, Hp.
  - unfold skip_to. destruct (n <=? next_emit r); [done|].
    intros i p m [Hi _]%map_lookup_filter_Some. by eapply HL.
Qed.

Lemma reachable_live_inv r : reachable r → LiveInv r.
Proof.
  intros (r0 & (HI & Hp & _)%initial_inv & Hs).
  assert (LiveInv r0) as HL by (intros i p m; by rewrite Hp).
  clear Hp. induction Hs; eauto using step_inv, step_live_inv.
Qed.

(** ** Theorems *)

(** C13: memory stays bounded under any peer behaviour.  In every reachable state each buffered
    piece, partial or complete, has an index in the accept window
    [next_emit .. next_emit + max_ahead), no piece is in both maps, every buffer is exactly one
    piece long, and so at most [max_ahead] piece buffers are held. *)
Theorem reassembler_memory_bounded r : reachable r →
  (∀ i, is_Some (partial r !! i) ∨ is_Some (complete r !! i) →
     next_emit r ≤ i < saturating_add (next_emit r) (max_ahead r)) ∧
  (∀ i p, partial r !! i = Some p →
     complete r !! i = None ∧ lenN (p_buf p) = piece_length r ∧ filled p < piece_length r) ∧
  (∀ i c, complete r !! i = Some c → lenN (c_buf c) = piece_length r) ∧
  (size (partial r) + size (complete r) ≤ N.to_nat (max_ahead r))%nat.
Proof.
  intros HI%reachable_inv. split_and!.
  - intros i [[p Hp]|[c Hc]]; [by apply (inv_partial r HI) in Hp as (? & _)|].
    by apply (inv_complete r HI) in Hc as (? & _).
  - intros i p Hp. destruct (inv_partial r HI i p Hp) as (_ & ? & ?). split_and!; try done.
    apply eq_None_not_Some. intros Hc%(inv_disjoint r HI). congruence.
  - intros i c Hc. by apply (inv_complete r HI) in Hc as (_ & ? & _).
  - by apply buffers_bounded.
Qed.

(** C12: nothing unauthenticated leaves a reassembler that knows the source key.  In every
    reachable state, whatever the peers sent, the piece [take_ready_piece] moves out, the one
    [ready_piece] shows and the one offered for publication carry a signature of the emitted
    payload that the key verifies, and publication is marked [SourceVerified]. *)
Theorem emitted_pieces_authenticated r k : reachable r → verify_pubkey r = Some k →
  (∀ rp r', take_ready_piece r = (Some rp, r') →
     rp_index rp = next_emit r ∧ ∃ sig, verify_piece k (rp_bytes rp) sig = true) ∧
  (∀ i b, ready_piece r i = Some b → ∃ sig, verify_piece k b sig = true) ∧
  (∀ i clp, completed_live_piece r i = Some clp →
     acceptance clp = SourceVerified ∧
     ∃ sig, wire clp = media r (wire clp) ++ sig ∧
       verify_piece k (media r (wire clp)) sig = true).
Proof.
  intros HI%reachable_inv Hk.
  assert (∀ i c, complete r !! i = Some c → ∃ sig, c_buf c = media r (c_buf c) ++ sig ∧
    verify_piece k (media r (c_buf c)) sig = true) as Hall.
  { intros i c (_ & _ & Ha)%(inv_complete r HI). by apply authenticate_media. }
  split_and!.
  - intros rp r' Ht. destruct (take_ready_piece_cases r HI) as [[_ E]|(c & Hc & E)];
      rewrite E in Ht; simplify_eq. simpl. split; [done|].
    destruct (Hall _ _ Hc) as (sig & _ & ?). by exists sig.
  - intros i b. unfold ready_piece. rewrite fmap_Some. intros (c & Hc & ->).
    destruct (Hall _ _ Hc) as (sig & _ & ?). by exists sig.
  - intros i clp. unfold completed_live_piece. destruct (complete r !! i) as [c|] eqn:Hc; [|done].
    simpl. destruct (c_live c) as [m|]; [|done]. simpl. destruct (eligible m); [|done].
    rewrite Hk. intros [= <-]. simpl. split; [done|]. eauto.
Qed.

(** [take_ready] drains exactly the contiguous run.  From every reachable state it
    terminates without wrapping the cursor, returns the concatenation of what [ready_chunks]
    showed, leaves the cursor on the first gap, and changes nothing at or after the cursor. *)
Theorem take_ready_drains r : reachable r →
  ∃ r', take_ready r = (concat (ready_chunks r), r') ∧
    next_emit r' = next_emit r + lenN (ready_chunks r) ∧ next_emit r' < two64 ∧
    complete r' !! next_emit r' = None ∧
    (∀ i, next_emit r ≤ i < next_emit r' → is_Some (complete r !! i)) ∧
    (∀ i, next_emit r' ≤ i → complete r' !! i = complete r !! i) ∧ partial r' = partial r.
Proof.
  intros HI%reachable_inv.
  destruct (take_ready_loop_spec (S (size (complete r))) r [])
    as (r' & Hr & HI' & _ & Hp & Hn & Hgap & Hrest & Hall); [done|lia|].
  exists r'. unfold take_ready, ready_chunks. split_and!; try done. by apply inv_cursor.
Qed.

(** a piece offered for publication was covered byte for byte.  Whatever mixture of
    generic blocks and live chunks peers sent before, when a live chunk completes a piece that
    is then offered for publication, its chunk length divides the piece, and every chunk offset
    of the piece was written: by this chunk or by one recorded in the partial piece. *)
Theorem published_piece_covered r index chunk cl hdr block o r' clp :
  reachable r → add_live_chunk r index chunk cl hdr block = (Ok o, r') →
  completed o = true → completed_live_piece r' index = Some clp →
  piece_length r `mod` cl = 0 ∧ lenN block = cl ∧
  ∀ k, k < piece_length r `div` cl →
    k = chunk ∨ ∃ p, partial r !! index = Some p ∧ k * cl ∈ filled_offsets p.
Proof.
  intros Hr. pose proof (reachable_inv r Hr) as HI. pose proof (reachable_live_inv r Hr) as HL.
  intros Ha Hdone. pose proof (add_live_chunk_effect r index chunk cl hdr block) as He.
  rewrite Ha in He. cbn [fst snd] in He. inversion He as [? Hno ?| |?|c Hacc Hfull Hau]; subst;
    [by rewrite (Hno o eq_refl) in Hdone|done|].
  unfold completed_live_piece. cbn [complete set_complete]. rewrite lookup_insert_eq.
  cbn [mbind option_bind c_live]. destruct (eligible _) eqn:Hel; [|done]. intros _.
  destruct (live_metadata_aligned _ _ _ _ _ _ HI HL Hel) as [_ Hal].
  assert (lenN block = cl) as Hb.
  { revert Hel. unfold live_metadata. simpl. rewrite !andb_true_iff.
    intros (_ & (Hg%live_geometry_true & _) & _). by destruct Hg as (_ & _ & _ & ?). }
  split_and!; [by destruct Hal|done|]. intros k Hk.
  pose proof (aligned_full _ _ _ _ Hal Hfull k Hk) as Hin. simpl in Hin.
  apply elem_of_union in Hin as [Hin%elem_of_singleton|Hin].
  { left. destruct Hal as [Hpos _ _ _]. nia. }
  right. destruct (partial r !! index) as [p|]; [|done]. by exists p.
Qed.

End Reassembly.

(** ** Witnesses

    A keyed reassembler that has received one signed piece ("abc" and its two-byte signature,
    chunk by chunk) and holds part of the next. *)

Definition witness_auth : @LiveSourceAuth toy_crypto := @mkLiveSourceAuth toy_crypto "k"%byte.
Definition witness_piece : bytes := bs "abcd" ++ @sign toy_crypto witness_auth (bs "abcd").
Definition witness_start : PieceReassembler :=
  with_max_pieces_ahead 4 (@with_source_pubkey toy_crypto
    (@pubkey_der toy_crypto witness_auth) (new 6 7)).
Definition witness_partial : PieceReassembler :=
  (@add_live_chunk toy_crypto witness_start 7 1 3 (bs "12345678") (drop 3 witness_piece)).2.
Definition witness_full : PieceReassembler :=
  (@add_live_chunk toy_crypto witness_partial 7 0 3 (bs "12345678") (take 3 witness_piece)).2.

Lemma witness_reachable : @reachable toy_crypto witness_start ∧
  @reachable toy_crypto witness_partial ∧ @reachable toy_crypto witness_full.
Proof.
  assert (@initial toy_crypto witness_start) as Hi.
  { apply initial_ahead; [|done]. apply initial_pubkey. by apply initial_new. }
  assert (@step toy_crypto witness_start witness_partial) by by apply step_live.
  assert (@step toy_crypto witness_partial witness_full) by by apply step_live.
  split_and!; exists witness_start; (split; [done|]); eauto using rtc_refl, rtc_l.
Qed.

Lemma reassembler_memory_bounded_witness :
  (size (partial witness_full) + size (complete witness_full) ≤ 4)%nat ∧
  complete witness_full ≠ ∅.
Proof.
  split; [|by vm_compute].
  apply (@reassembler_memory_bounded toy_crypto witness_full). apply witness_reachable.
Defined.

Lemma emitted_pieces_authenticated_witness :
  ∃ sig, @verify_piece toy_crypto (bs "k") (bs "abcd") sig = true.
Proof.
  destruct (@emitted_pieces_authenticated toy_crypto witness_full (bs "k")) as (_ & H & _).
  - apply witness_reachable.
  - by vm_compute.
  - apply (H 7). by vm_compute.
Defined.

Lemma take_ready_drains_witness :
  ∃ r', take_ready witness_full = (bs "abcd", r') ∧ next_emit r' = 8.
Proof.
  destruct (@take_ready_drains toy_crypto witness_full) as (r' & Hr & Hn & _).
  - apply witness_reachable.
  - exists r'. split; [exact Hr|]. rewrite Hn. by vm_compute.
Defined.

Lemma published_piece_covered_witness :
  6 `mod` 3 = 0 ∧ lenN (take 3 witness_piece) = 3 ∧
  ∀ k, k < piece_length witness_partial `div` 3 →
    k = 0 ∨ ∃ p, partial witness_partial !! 7 = Some p ∧ k * 3 ∈ filled_offsets p.
Proof.
  apply (@published_piece_covered toy_crypto witness_partial 7 0 3 (bs "12345678")
    (take 3 witness_piece) (mkLiveBlockOutcome true true) witness_full
    (mkCompletedLivePiece witness_piece (bs "12345678") SourceVerified)).
  - apply witness_reachable.
  - by vm_compute.
  - done.
  - by vm_compute.
Defined.
