(* ===== verification/Pipeline.v ===== *)
(** * The live pipeline, end to end

    The broadcaster's [SigningChunker], the wire codec and the receiver's [PieceReassembler]
    composed: whatever the order, repetition and timing of deliveries, the receiver plays the
    broadcaster's payload. *)

From S2P Require Import Prelude Bytes Wire Message LiveCodec LiveAuth.
From S2P Require Chunker.
From S2P Require Import Reassembly.

Local Open Scope N_scope.

(** ** Deliveries *)

Inductive Event : Type :=
  | Arrive (hdr : bytes) (c : Chunker.OutChunk)
  | Discard (index : N)
  | Emit
  | EmitPiece.

Section Pipeline.
Context `{Crypto}.

(** A chunk is framed by the sender, decoded by the receiver and handed to its reassembler. *)
Definition arrive (cl : N) (r : PieceReassembler) (hdr : bytes) (c : Chunker.OutChunk)
    : PieceReassembler :=
  match decode (encode (build_piece 0 (Chunker.oc_piece c) (Chunker.oc_chunk c) hdr
          (Chunker.oc_data c))) with
  | Ok (Some (msg, _)) =>
      match from_message msg with
      | Some lc =>
          (add_live_chunk r (lc_piece lc) (lc_chunk lc) cl (lc_piece_header lc) (lc_data lc)).2
      | None => r
      end
  | _ => r
  end.

Definition handle (cl : N) (r : PieceReassembler) (e : Event) : bytes * PieceReassembler :=
  match e with
  | Arrive hdr c => ([], arrive cl r hdr c)
  | Discard index => ([], discard_partial r index)
  | Emit => take_ready r
  | EmitPiece =>
      let '(rp, r) := take_ready_piece r in
      (match rp with Some p => rp_bytes p | None => [] end, r)
  end.

Fixpoint run (cl : N) (r : PieceReassembler) (es : list Event) : bytes * PieceReassembler :=
  match es with
  | [] => ([], r)
  | e :: es => let '(o, r) := handle cl r e in let '(os, r) := run cl r es in (o ++ os, r)
  end.

(** The chunks delivered before the end of the accept window and not discarded since. *)
Definition note (r : PieceReassembler) (got : gset (N * N)) (e : Event) : gset (N * N) :=
  match e with
  | Arrive _ c =>
      if decide (Chunker.oc_piece c < saturating_add (next_emit r) (max_ahead r))
      then {[(Chunker.oc_piece c, Chunker.oc_chunk c)]} ∪ got else got
  | Discard index => base.filter (λ ik, ik.1 ≠ index) got
  | Emit | EmitPiece => got
  end.

Fixpoint notes (cl : N) (r : PieceReassembler) (got : gset (N * N)) (es : list Event)
    : gset (N * N) :=
  match es with
  | [] => got
  | e :: es => notes cl (handle cl r e).2 (note r got e) es
  end.

(** ** Honest deliveries

    [pieces] is what the source broadcasts; every delivered chunk is one of its chunks. *)

Section honest.
Context (pl cl : N) (good : N → Prop) (pieces : N → bytes) (r0 : PieceReassembler).
Hypothesis Hgeo : Chunker.geometry pl cl.
Hypothesis Hpl : piece_length r0 = pl.
Hypothesis Hpieces : ∀ i, good i →
  lenN (pieces i) = pl ∧ authenticate r0 (pieces i) = Ok () ∧ i < two32.
Hypothesis Hframe : 19 + cl ≤ MAX_FRAME_LEN.

Definition honest_chunk (c : Chunker.OutChunk) : Prop :=
  good (Chunker.oc_piece c) ∧ Chunker.oc_chunk c < pl `div` cl ∧
  Chunker.oc_data c = slice (pieces (Chunker.oc_piece c))
    (N.to_nat (Chunker.oc_chunk c * cl)) (N.to_nat (Chunker.oc_chunk c * cl + cl)).

Definition honest (e : Event) : Prop :=
  match e with Arrive hdr c => length hdr = 8%nat ∧ honest_chunk c | _ => True end.

(** The bytes at the noted offsets are the source's. *)
Definition holds (i : N) (p : Partial) : Prop :=
  aligned pl cl (filled_offsets p) (filled p) ∧
  ∀ k (j : nat), k * cl ∈ filled_offsets p → k * cl ≤ N.of_nat j < k * cl + cl →
    p_buf p !! j = pieces i !! j.

Record Agrees (got : gset (N * N)) (r : PieceReassembler) : Prop := {
  ag_inv : Inv r;
  ag_config : same_config r0 r;
  ag_cursor : next_emit r0 ≤ next_emit r;
  ag_emitted i : next_emit r0 ≤ i < next_emit r → good i;
  ag_partial i p : partial r !! i = Some p → good i ∧ holds i p;
  ag_complete i c : complete r !! i = Some c → good i ∧ c_buf c = pieces i;
  ag_got i k : (i, k) ∈ got → next_emit r ≤ i → complete r !! i = None →
    ∃ p, partial r !! i = Some p ∧ k * cl ∈ filled_offsets p;
}.

Lemma chunk_end k : k < pl `div` cl → k * cl + cl ≤ pl.
Proof.
  destruct Hgeo as (? & ? & Hm & _). intros Hk.
  pose proof (N.div_mod pl cl ltac:(lia)) as E. rewrite Hm in E. nia.
Qed.

Lemma lookup_write_block b n block j : (n + length block ≤ length b)%nat →
  write_block b n block !! j =
    if decide (n ≤ j < n + length block)%nat then block !! (j - n)%nat else b !! j.
Proof.
  intros Hb. unfold write_block.
  destruct (decide (j < n)%nat).
  { rewrite decide_False by lia. rewrite lookup_app_l by (rewrite length_take; lia).
    by apply lookup_take_lt. }
  rewrite lookup_app_r by (rewrite length_take; lia). rewrite length_take.
  replace (n `min` length b)%nat with n by lia. case_decide.
  { by rewrite lookup_app_l by lia. }
  rewrite lookup_app_r by lia. rewrite lookup_drop. f_equal. lia.
Qed.

Lemma arrive_honest r hdr c : length hdr = 8%nat → honest_chunk c →
  arrive cl r hdr c = (add_live_chunk r (Chunker.oc_piece c) (Chunker.oc_chunk c) cl hdr
    (Chunker.oc_data c)).2 ∧ lenN (Chunker.oc_data c) = cl.
Proof.
  intros Hh (Hg & Hk & Hd). destruct (Hpieces _ Hg) as (Hl & _ & Hi).
  pose proof (chunk_end _ Hk). pose proof Hgeo as (? & ? & ? & ?).
  assert (lenN (Chunker.oc_data c) = cl) as Hlen.
  { rewrite Hd. unfold lenN in *. rewrite slice_length by lia. lia. }
  split; [|done]. unfold arrive. rewrite <-(app_nil_r (encode _)), decode_encoded.
  { by rewrite from_build_piece by (done || lia). }
  unfold canonical, build_piece, fits32. rewrite !(proj2 (N.ltb_lt _ _)) by done. simpl.
  rewrite (proj2 (N.leb_le _ _)); [done|].
  unfold lenN in *. rewrite !length_app, Hh. simpl. lia.
Qed.

(** Placing an honest chunk keeps the buffer honest; a full buffer is the piece. *)
Lemma after_block_holds got r c : Agrees got r → honest_chunk c →
  lenN (Chunker.oc_data c) = cl →
  accepts r (Chunker.oc_piece c) (Chunker.oc_chunk c * cl) (Chunker.oc_data c) →
  holds (Chunker.oc_piece c)
    (after_block r (Chunker.oc_piece c) (Chunker.oc_chunk c * cl) (Chunker.oc_data c)).
Proof.
  intros Hag Hh Hlen Hacc. pose proof Hh as (Hg & Hk & Hd).
  pose proof (chunk_end _ Hk) as Hend. pose proof Hgeo as (Hcl & Hpos & Hmod & _).
  destruct (ag_config _ _ Hag) as (Hpl' & _). rewrite Hpl in Hpl'.
  pose proof (inv_length r (ag_inv _ _ Hag)) as Hb. rewrite Hpl' in Hb.
  set (i := Chunker.oc_piece c) in *. set (k := Chunker.oc_chunk c) in *.
  set (p := default (fresh_partial r) (partial r !! i)).
  assert (holds i p ∧ lenN (p_buf p) = pl ∧ filled p < pl) as ([Hal Hold] & Hpb & Hfil).
  { unfold p. destruct (partial r !! i) as [q|] eqn:Eq; simpl.
    - destruct (ag_partial _ _ Hag _ _ Eq). destruct (inv_partial r (ag_inv _ _ Hag) _ _ Eq)
        as (_ & ? & ?). rewrite Hpl' in *. done.
    - split_and!; [split; [by apply aligned_empty|done]| |lia].
      unfold lenN. rewrite length_replicate. lia. }
  unfold holds, after_block. fold p. simpl. rewrite Hlen.
  split; [apply aligned_insert; [done|done|lia]|].
  intros k' j Hin Hj. unfold lenN in *. rewrite lookup_write_block by lia. case_decide as Hr.
  - rewrite Hd. unfold slice. rewrite lookup_take_lt, lookup_drop by lia. f_equal. lia.
  - apply elem_of_union in Hin as [Hin%elem_of_singleton|Hin]; [|by apply (Hold k')].
    exfalso. apply Hr. lia.
Qed.

Lemma holds_full i p : holds i p → lenN (p_buf p) = pl → lenN (pieces i) = pl → pl ≤ filled p →
  p_buf p = pieces i.
Proof.
  intros [Hal Hb] Hl1 Hl2 Hf. pose proof Hgeo as (Hcl & _ & Hmod & _).
  apply list_eq_same_length with (length (pieces i)); [done|unfold lenN in *; lia|].
  intros j x y Hj Hx Hy. assert (Some x = Some y); [|congruence]. rewrite <-Hx, <-Hy.
  unfold lenN in *.
  apply (Hb (N.of_nat j `div` cl)); [|by apply div_mul_bounds].
  apply (aligned_full _ _ _ _ Hal Hf). apply N.Div0.div_lt_upper_bound.
  pose proof (N.div_mod pl cl ltac:(lia)). lia.
Qed.

Lemma authenticate_config r b : same_config r0 r → authenticate r b = authenticate r0 b.
Proof. intros (_ & Ht & Hk & _). unfold authenticate. by rewrite Ht, Hk. Qed.

Lemma media_config r b : same_config r0 r → media r b = media r0 b.
Proof. intros (_ & Ht & _). unfold media. by rewrite Ht. Qed.

Lemma arrive_agrees got r hdr c : Agrees got r → length hdr = 8%nat → honest_chunk c →
  Agrees (note r got (Arrive hdr c)) (arrive cl r hdr c).
Proof.
  intros Hag Hh Hc. destruct (arrive_honest r hdr c Hh Hc) as [-> Hlen].
  pose proof Hc as (Hg & Hk & _). pose proof (Hpieces _ Hg) as (Hpl1 & Hau & Hi32).
  pose proof (ag_inv _ _ Hag) as HI. pose proof (ag_config _ _ Hag) as Hcfg.
  assert (piece_length r = pl) as Hplr by (destruct Hcfg as (-> & _); done).
  assert (Inv (add_live_chunk r (Chunker.oc_piece c) (Chunker.oc_chunk c) cl hdr
    (Chunker.oc_data c)).2) as HI' by by apply add_live_chunk_inv.
  revert HI'. destruct (add_live_chunk_effect r (Chunker.oc_piece c) (Chunker.oc_chunk c) cl hdr
    (Chunker.oc_data c)) as [o _ Hno|o Ha Hf|e Ha Hf He|o Ha Hf He]; intros HI'.
  - destruct Hag as [? ? Hcur ? Hp Hcm Hgot]. split; try done. simpl.
    case_decide as Hw; [|done].
    intros i k [[= -> ->]%elem_of_singleton|Hin]%elem_of_union Hge Hnc; [|by apply Hgot].
    exfalso. apply Hno. pose proof (chunk_end _ Hk). pose proof (inv_length r HI).
    rewrite Hlen. split; [|lia]. unfold accepts. rewrite Hlen, Hplr. split_and!; try done; lia.
  - pose proof (after_block_holds _ _ _ Hag Hc Hlen Ha) as Hholds.
    destruct Hag as [? ? ? ? Hp Hcm Hgot].
    simpl. rewrite decide_True by (by destruct Ha as (_ & _ & ? & _)). split; try done; simpl.
    + intros i p [[<- <-]|[_ Hi]]%lookup_insert_Some; [done|auto].
    + intros i k [[= -> ->]%elem_of_singleton|Hin]%elem_of_union Hge Hnc.
      { rewrite lookup_insert_eq. eexists; split; [done|]. simpl. set_solver. }
      destruct (Hgot _ _ Hin Hge Hnc) as (p & Hpi & Hkp).
      destruct (decide (Chunker.oc_piece c = i)) as [<-|]; [|rewrite lookup_insert_ne by done; eauto].
      rewrite lookup_insert_eq. eexists; split; [done|]. simpl. rewrite Hpi. set_solver.
  - exfalso. pose proof (after_block_holds _ _ _ Hag Hc Hlen Ha) as Hholds.
    rewrite authenticate_config in He by done.
    rewrite (holds_full _ _ Hholds) in He; [congruence| |done|by rewrite <-Hplr].
    rewrite <-Hplr. by apply after_block_length.
  - pose proof (after_block_holds _ _ _ Hag Hc Hlen Ha) as Hholds.
    assert (p_buf (after_block r (Chunker.oc_piece c) (Chunker.oc_chunk c * cl)
      (Chunker.oc_data c)) = pieces (Chunker.oc_piece c)) as Hfull.
    { apply holds_full; try done; [|by rewrite <-Hplr].
      rewrite <-Hplr. by apply after_block_length. }
    destruct Hag as [? ? ? ? Hp Hcm Hgot].
    simpl. rewrite decide_True by (by destruct Ha as (_ & _ & ? & _)). split; try done; simpl.
    + intros i p [_ Hi]%lookup_delete_Some. auto.
    + intros i d [[<- <-]|[_ Hi]]%lookup_insert_Some; [done|auto].
    + intros i k Hin Hge [Hnc Hne]%lookup_insert_None.
      apply elem_of_union in Hin as [[= -> ->]%elem_of_singleton|Hin]; [done|].
      rewrite lookup_delete_ne by done. eauto.
Qed.

Lemma discard_agrees got r i : Agrees got r → Agrees (note r got (Discard i)) (discard_partial r i).
Proof.
  intros [HI ? ? ? Hp Hcm Hgot]. split; try done; simpl; [by apply discard_inv| |].
  - intros j p [_ Hj]%lookup_delete_Some. auto.
  - intros j k [Hne Hin]%elem_of_filter Hge Hnc. simpl in *.
    rewrite lookup_delete_ne by done. eauto.
Qed.

(** The media of the pieces [lo .. lo + n). *)
Definition program (lo n : N) : bytes :=
  concat ((λ i, media r0 (pieces i)) <$> range lo n).

Lemma ready_from_program got r fuel n : Agrees got r →
  ready_from fuel r n = (λ i, media r0 (pieces i)) <$> range n (lenN (ready_from fuel r n)).
Proof.
  intros Hag. revert n. induction fuel as [|fuel IH]; intros n; [done|]. simpl.
  destruct (complete r !! n) as [d|] eqn:Ec; [|done].
  destruct (checked_add n 1) as [n'|] eqn:En; [|done].
  apply checked_add_Some in En as [-> _]. rewrite IH at 1.
  replace (lenN (_ :: _)) with (1 + lenN (ready_from fuel r (n + 1))) by (unfold lenN; simpl; lia).
  rewrite range_cons. simpl. destruct (ag_complete _ _ Hag _ _ Ec) as [_ ->].
  rewrite media_config; [done|]. by apply (ag_config got).
Qed.

Lemma take_agrees got r : Agrees got r →
  ∃ r', take_ready r = (program (next_emit r) (next_emit r' - next_emit r), r') ∧
    Agrees got r' ∧ next_emit r ≤ next_emit r' ∧ complete r' !! next_emit r' = None.
Proof.
  intros Hag. destruct (take_ready_loop_spec (S (size (complete r))) r [])
    as (r' & Hr & HI' & Hcfg & Hp & Hn & Hgap & Hrest & Hall); [by apply (ag_inv got)|lia|].
  exists r'. unfold take_ready, program. rewrite Hr. simpl. split_and!; [|split|lia|done].
  - replace (next_emit r' - next_emit r) with (lenN (ready_from (S (size (complete r))) r (next_emit r))) by lia.
    by rewrite <-(ready_from_program got).
  - done.
  - destruct (ag_config _ _ Hag) as (? & ? & ? & ?), Hcfg as (? & ? & ? & ?).
    repeat split; congruence.
  - pose proof (ag_cursor _ _ Hag). lia.
  - intros i Hi. destruct (N.lt_ge_cases i (next_emit r)); [apply (ag_emitted _ _ Hag); lia|].
    destruct (Hall i) as [c Hc]; [lia|]. by apply (ag_complete _ _ Hag) in Hc as [? _].
  - rewrite Hp. apply (ag_partial _ _ Hag).
  - intros i c Hc. pose proof Hc as ([? ?] & _)%(inv_complete r' HI').
    rewrite Hrest in Hc by done. by apply (ag_complete _ _ Hag) in Hc.
  - intros i k Hin Hge Hnc. rewrite Hrest in Hnc by done. rewrite Hp.
    apply (ag_got _ _ Hag); [done|lia|done].
Qed.

Lemma take_piece_agrees got r : Agrees got r →
  ∃ rp r', take_ready_piece r = (rp, r') ∧ Agrees got r' ∧ next_emit r ≤ next_emit r' ∧
    match rp with Some p => rp_bytes p | None => [] end =
      program (next_emit r) (next_emit r' - next_emit r).
Proof.
  intros Hag. pose proof (ag_inv _ _ Hag) as HI.
  destruct (take_ready_piece_cases r HI) as [[Hn ->]|(c & Hc & ->)]; eexists _, _;
    (split; [done|]).
  { split_and!; [done|lia|]. rewrite N.sub_diag. done. }
  pose proof (ag_complete _ _ Hag _ _ Hc) as [_ Hb].
  assert (Inv (advance r)) by by apply advance_inv.
  split_and!; [|simpl; lia|].
  - destruct Hag as [? ? ? Hem Hp Hcm Hgot]. split; try done; simpl; [lia|intros i Hi; destruct (decide (i = next_emit r)) as [->|]; [by apply Hcm in Hc as [? _]|apply Hem; lia]| |].
    + intros i d [_ Hi]%lookup_delete_Some. auto.
    + intros i k Hin Hge Hnc. rewrite lookup_delete_ne in Hnc by lia. apply Hgot; [done|lia|done].
  - simpl. rewrite N.add_sub_swap, N.sub_diag by lia. unfold program. rewrite (range_cons _ 0).
    simpl. rewrite app_nil_r, Hb. apply media_config. by apply (ag_config got).
Qed.

Lemma handle_agrees got r e : Agrees got r → honest e →
  ∃ o r', handle cl r e = (o, r') ∧ Agrees (note r got e) r' ∧ next_emit r ≤ next_emit r' ∧
    o = program (next_emit r) (next_emit r' - next_emit r).
Proof.
  intros Hag He. destruct e as [hdr c|i| |]; simpl in *.
  - destruct He as [Hh Hc]. eexists _, _. split; [done|].
    pose proof (arrive_agrees got r hdr c Hag Hh Hc).
    destruct (arrive_honest r hdr c Hh Hc) as [E _].
    assert (next_emit (arrive cl r hdr c) = next_emit r) as ->.
    { rewrite E. apply add_live_chunk_config. }
    rewrite N.sub_diag. done.
  - eexists _, _. split; [done|]. split; [by apply discard_agrees|]. simpl. rewrite N.sub_diag.
    split; [lia|done].
  - destruct (take_agrees got r Hag) as (r' & -> & ? & ? & _). by eexists _, _.
  - destruct (take_piece_agrees got r Hag) as (rp & r' & -> & ? & ? & ?). by eexists _, _.
Qed.

Lemma run_agrees got r es : Agrees got r → Forall honest es →
  ∃ o r', run cl r es = (o, r') ∧ Agrees (notes cl r got es) r' ∧
    next_emit r ≤ next_emit r' ∧ o = program (next_emit r) (next_emit r' - next_emit r).
Proof.
  intros Hag He. revert got r Hag. induction He as [|e es He _ IH]; intros got r Hag; simpl.
  { eexists _, _. split; [done|]. rewrite N.sub_diag. split_and!; [done|lia|done]. }
  destruct (handle_agrees got r e Hag He) as (o & r1 & E & H1 & Hle1 & ->).
  rewrite E. simpl.
  destruct (IH _ _ H1) as (os & r2 & -> & H2 & Hle2 & ->).
  eexists _, _. split; [done|]. split_and!; [done|lia|].
  unfold program. rewrite <-concat_app, <-fmap_app.
  replace (next_emit r2 - next_emit r) with
    ((next_emit r1 - next_emit r) + (next_emit r2 - next_emit r1)) by lia.
  rewrite range_app. by replace (next_emit r + (next_emit r1 - next_emit r)) with (next_emit r1) by lia.
Qed.

(** Every chunk of a piece at the cursor has arrived: the cursor cannot rest there. *)
Lemma cursor_passes got r n : Agrees got r → complete r !! next_emit r = None →
  (∀ i k, next_emit r0 ≤ i < n → k < pl `div` cl → (i, k) ∈ got) → n ≤ next_emit r.
Proof.
  intros Hag Hgap Hall. destruct (N.le_gt_cases n (next_emit r)) as [|Hlt]; [done|exfalso].
  pose proof Hgeo as (Hcl & Hpos & Hmod & _). pose proof (N.div_mod pl cl ltac:(lia)) as Hd.
  rewrite Hmod in Hd. pose proof (ag_cursor _ _ Hag).
  assert (∀ k, k < pl `div` cl → ∃ p, partial r !! next_emit r = Some p ∧ k * cl ∈ filled_offsets p)
    as Hoffs by (intros k Hk; apply (ag_got _ _ Hag); auto; lia).
  destruct (Hoffs 0) as (p & Hp & _); [nia|].
  destruct (ag_partial _ _ Hag _ _ Hp) as [_ [Hal _]].
  destruct (inv_partial r (ag_inv _ _ Hag) _ _ Hp) as (_ & _ & Hf).
  destruct (ag_config _ _ Hag) as (Hplr & _). rewrite Hplr, Hpl, (aligned_filled _ _ _ _ Hal) in Hf.
  assert (N.to_nat (pl `div` cl) ≤ size (filled_offsets p))%nat; [|nia].
  apply size_multiples_ge with cl; [done|]. intros k Hk. destruct (Hoffs k Hk) as (q & ? & ?).
  by simplify_eq.
Qed.

End honest.
End Pipeline.

(** ** Broadcaster to player *)

Section EndToEnd.
Context `{CryptoLaws}.
Variables (auth : LiveSourceAuth) (pl cl start ahead : N) (ps : list bytes).

Definition receiver : PieceReassembler :=
  with_max_pieces_ahead ahead (with_source_pubkey (pubkey_der auth) (new pl start)).

Definition source_piece (i : N) : bytes :=
  Chunker.signed_piece auth (ps !!! N.to_nat (i - start)).
Definition on_air (i : N) : Prop := start ≤ i < start + lenN ps.

Hypothesis Hgeo : Chunker.geometry pl cl.
Hypothesis Hsig : N.of_nat (signature_len auth) < pl.
Hypothesis Hpl : pl < 2 ^ 31.
Hypothesis Hps : Forall (λ p, lenN p = Chunker.capacity auth pl) ps.
Hypothesis Hair : start + lenN ps ≤ two32.

Lemma receiver_config : piece_length receiver = pl ∧ next_emit receiver = start ∧
  piece_trailer receiver = N.of_nat (signature_len auth) ∧
  verify_pubkey receiver = Some (pubkey_der auth) ∧ max_ahead receiver = ahead ∧
  partial receiver = ∅ ∧ complete receiver = ∅.
Proof.
  unfold receiver, with_source_pubkey. rewrite signature_len_from_own_der. simpl.
  split_and!; try done. lia.
Qed.

Lemma payload_of i : on_air i →
  ∃ p, ps !! N.to_nat (i - start) = Some p ∧ source_piece i = p ++ sign auth p ∧
    lenN p = Chunker.capacity auth pl.
Proof.
  intros Hi. unfold on_air, lenN in Hi.
  destruct (lookup_lt_is_Some_2 ps (N.to_nat (i - start))) as [p Hp]; [lia|].
  exists p. split; [done|]. split.
  - unfold source_piece. by rewrite (list_lookup_total_correct _ _ _ Hp).
  - by eapply (Forall_lookup_1 _ _ _ _ Hps).
Qed.

Lemma media_source i : on_air i →
  media receiver (source_piece i) = ps !!! N.to_nat (i - start).
Proof.
  intros (p & Hp & -> & _)%payload_of. rewrite (list_lookup_total_correct _ _ _ Hp).
  destruct receiver_config as (_ & _ & Ht & _). unfold media. rewrite Ht, Nat2N.id.
  rewrite length_app, sign_len, Nat.add_sub. apply take_app_length.
Qed.

Lemma source_pieces_ok i : on_air i →
  lenN (source_piece i) = pl ∧ authenticate receiver (source_piece i) = Ok () ∧
  i < two32.
Proof.
  intros Hi. pose proof Hi as (p & Hp & E & Hl)%payload_of.
  destruct receiver_config as (_ & Hne & Ht & Hk & Ha & _). unfold on_air in Hi. split_and!.
  - rewrite E. by apply Chunker.signed_piece_length.
  - rewrite E. unfold authenticate. rewrite Ht, Hk, Nat2N.id.
    rewrite <-(sign_len auth p), split_piece_app, verify_signed. done.
  - lia.
Qed.

(** Chunk [(i - start) * pl/cl + k] of the broadcast is chunk [k] of piece [i]. *)
Lemma stream_chunk_of i k : on_air i → k < pl `div` cl →
  Chunker.stream_chunk pl cl start (Chunker.broadcast auth ps) ((i - start) * (pl `div` cl) + k) =
  Chunker.mkOutChunk i k (k * cl)
    (slice (source_piece i) (N.to_nat (k * cl)) (N.to_nat (k * cl + cl))).
Proof.
  intros Hi Hk. pose proof Hgeo as (Hcl & Hpos & Hmod & _).
  pose proof (N.div_mod pl cl ltac:(lia)) as Hd. rewrite Hmod, N.add_0_r in Hd.
  assert (k * cl + cl ≤ pl) as Hend by nia.
  assert (((i - start) * (pl `div` cl) + k) * cl = (i - start) * pl + k * cl) as Ea by nia.
  assert (((i - start) * pl + k * cl) `div` pl = i - start) as Eq.
  { symmetry. apply N.div_unique with (k * cl); lia. }
  assert (((i - start) * pl + k * cl) `mod` pl = k * cl) as Er.
  { symmetry. apply N.mod_unique with (i - start); lia. }
  unfold Chunker.stream_chunk. rewrite Ea, Eq, Er, N.div_mul by lia.
  pose proof Hi as (p & Hp & E & Hl)%payload_of.
  unfold on_air in Hi. f_equal; [lia|]. unfold Chunker.broadcast.
  replace (N.to_nat ((i - start) * pl + k * cl)) with
    (N.to_nat (i - start) * N.to_nat pl + N.to_nat (k * cl))%nat by lia.
  replace (N.to_nat ((i - start) * pl + k * cl + cl)) with
    (N.to_nat (i - start) * N.to_nat pl + N.to_nat (k * cl + cl))%nat by lia.
  apply slice_concat; [| |lia].
  - apply Forall_map. eapply Forall_impl; [exact Hps|]. intros x Hx. simpl in Hx.
    pose proof (Chunker.signed_piece_length auth pl Hsig x Hx). unfold lenN in *. simpl. lia.
  - rewrite E. by rewrite list_lookup_fmap, Hp.
Qed.

Definition broadcast_chunks : list Chunker.OutChunk :=
  Chunker.stream_chunks pl cl start (Chunker.broadcast auth ps) 0
    (length ps * Chunker.per_piece pl cl).

Lemma elem_of_broadcast c : c ∈ broadcast_chunks ↔
  ∃ i k, on_air i ∧ k < pl `div` cl ∧ c = Chunker.mkOutChunk i k (k * cl)
    (slice (source_piece i) (N.to_nat (k * cl)) (N.to_nat (k * cl + cl))).
Proof.
  pose proof Hgeo as (Hcl & Hpos & Hmod & _).
  pose proof (N.div_mod pl cl ltac:(lia)) as Hd. rewrite Hmod, N.add_0_r in Hd.
  assert (0 < pl `div` cl) as Hm by nia.
  unfold broadcast_chunks, Chunker.stream_chunks, Chunker.per_piece.
  rewrite list_elem_of_fmap. setoid_rewrite elem_of_seq. split.
  - intros (j & -> & Hj). set (m := pl `div` cl) in *.
    pose proof (N.div_mod (N.of_nat j) m ltac:(lia)) as Ej.
    pose proof (N.mod_lt (N.of_nat j) m ltac:(lia)) as Lj.
    remember (N.of_nat j `div` m) as q eqn:Eq. remember (N.of_nat j `mod` m) as k eqn:Ek.
    assert (on_air (start + q)) as Hi by (unfold on_air, lenN; clear Eq Ek; nia).
    exists (start + q), k. split_and!; [exact Hi|done|].
    rewrite <-stream_chunk_of by done. f_equal. fold m. clear Eq Ek. nia.
  - intros (i & k & Hi & Hk & ->). rewrite <-stream_chunk_of by done.
    exists (N.to_nat ((i - start) * (pl `div` cl) + k)). rewrite N2Nat.id. split; [done|].
    unfold on_air, lenN in Hi. nia.
Qed.

Hypothesis Hframe : 19 + cl ≤ MAX_FRAME_LEN.

(** Only chunks of the broadcast arrive, each with an 8-byte header. *)
Definition carries (chunks : list Chunker.OutChunk) (e : Event) : Prop :=
  match e with Arrive hdr c => length hdr = 8%nat ∧ c ∈ chunks | _ => True end.

Lemma carries_honest e : carries broadcast_chunks e → honest pl cl on_air source_piece e.
Proof.
  destruct e as [hdr c| | |]; simpl; try done.
  intros [Hh (i & k & Hi & Hk & ->)%elem_of_broadcast]. by split.
Qed.

Lemma receiver_agrees : Agrees pl cl on_air source_piece receiver ∅ receiver.
Proof.
  destruct receiver_config as (Hl & Hne & Ht & _ & _ & Hp & Hc).
  split; rewrite ?Hp, ?Hc; try done; [|intros i ?; lia].
  split; rewrite ?Hp, ?Hc, ?Hl, ?Hne, ?Ht; try done; destruct Hgeo as (_ & ? & _).
  - lia. - unfold on_air in *. lia. - lia.
Qed.

Lemma program_take n : n ≤ lenN ps →
  program source_piece receiver start n = concat (take (N.to_nat n) ps).
Proof.
  intros Hn. unfold program. f_equal. unfold lenN in Hn.
  apply list_eq. intros j. rewrite list_lookup_fmap. unfold range. rewrite list_lookup_fmap.
  destruct (decide (j < N.to_nat n)%nat).
  - rewrite lookup_seq_lt by done. simpl. rewrite lookup_take_lt by done.
    rewrite media_source by (unfold on_air, lenN; lia).
    replace (N.to_nat (start + N.of_nat j - start)) with j by lia.
    symmetry. apply list_lookup_lookup_total_lt. lia.
  - rewrite lookup_seq_ge by lia. simpl. by rewrite lookup_take_ge by lia.
Qed.

Lemma carried_run es : Forall (carries broadcast_chunks) es →
  ∃ n r, n ≤ lenN ps ∧ run cl receiver es = (concat (take (N.to_nat n) ps), r) ∧
    next_emit r = start + n ∧
    Agrees pl cl on_air source_piece receiver (notes cl receiver ∅ es) r.
Proof.
  intros Hes. destruct receiver_config as (Hl & Hne & _).
  destruct (run_agrees pl cl on_air source_piece receiver Hgeo Hl source_pieces_ok Hframe ∅ receiver es)
    as (o & r & Hrun & Hag & Hle & ->); [apply receiver_agrees| |].
  { eapply Forall_impl; [exact Hes|]. apply carries_honest. }
  rewrite Hne in *. exists (next_emit r - start), r.
  assert (next_emit r - start ≤ lenN ps) as Hn.
  { destruct (N.eq_dec (next_emit r) start) as [->|]; [lia|].
    destruct (ag_emitted _ _ _ _ _ _ _ Hag (next_emit r - 1)); [rewrite Hne; lia|]. lia. }
  split_and!; [done| |lia|done]. by rewrite <-program_take.
Qed.

Lemma run_app r es1 es2 : run cl r (es1 ++ es2) =
  ((run cl r es1).1 ++ (run cl (run cl r es1).2 es2).1, (run cl (run cl r es1).2 es2).2).
Proof.
  revert r. induction es1 as [|e es1 IH]; intros r; simpl; [by destruct (run cl r es2)|].
  destruct (handle cl r e) as [o r1]. rewrite IH.
  destruct (run cl r1 es1) as [o1 r2]. simpl. by rewrite app_assoc.
Qed.

Lemma notes_app r got es1 es2 :
  notes cl r got (es1 ++ es2) = notes cl (run cl r es1).2 (notes cl r got es1) es2.
Proof.
  revert r got. induction es1 as [|e es1 IH]; intros r got; simpl; [done|].
  rewrite IH. destruct (handle cl r e) as [o r1]. simpl. by destruct (run cl r1 es1).
Qed.

(** Noted chunks stay noted while nothing is discarded. *)
Lemma notes_keep r got es : (∀ j, Discard j ∉ es) → got ⊆ notes cl r got es.
Proof.
  revert r got. induction es as [|e es IH]; intros r got Hnd; simpl; [done|].
  etrans; [|apply IH; intros j; specialize (Hnd j); set_solver].
  destruct e as [hdr c|j| |]; simpl; try done; [case_decide; set_solver|].
  exfalso. apply (Hnd j). set_solver.
Qed.

Lemma noted es1 hdr c es2 : Forall (carries broadcast_chunks) (es1 ++ Arrive hdr c :: es2) →
  (∀ j, Discard j ∉ es2) →
  Chunker.oc_piece c < next_emit (run cl receiver es1).2 + ahead →
  (Chunker.oc_piece c, Chunker.oc_chunk c) ∈ notes cl receiver ∅ (es1 ++ Arrive hdr c :: es2).
Proof.
  intros Hes Hnd Hw. rewrite notes_app. apply Forall_app in Hes as [Hes1 [[_ Hc] _]%Forall_cons].
  destruct (carried_run es1 Hes1) as (n & r & Hn & Hr & Hcur & Hag). rewrite Hr in Hw |- *.
  simpl in Hw |- *. apply notes_keep; [done|]. apply elem_of_broadcast in Hc as (i & k & Hi & _ & ->).
  destruct (ag_config _ _ _ _ _ _ _ Hag) as (_ & _ & _ & Ha).
  destruct receiver_config as (_ & _ & _ & _ & Hah & _). unfold on_air in Hi.
  cbn [Chunker.oc_piece Chunker.oc_chunk] in *. rewrite decide_True; [set_solver|].
  unfold saturating_add. lia.
Qed.

Lemma delivered_all es : Forall (carries broadcast_chunks) es → (∀ j, Discard j ∉ es) →
  (∀ c, c ∈ broadcast_chunks → ∃ es1 hdr es2, es = es1 ++ Arrive hdr c :: es2 ∧
    Chunker.oc_piece c < next_emit (run cl receiver es1).2 + ahead) →
  (run cl receiver (es ++ [Emit])).1 = concat ps.
Proof.
  intros Hes Hnd Hall. destruct receiver_config as (Hl & Hne & _).
  destruct (carried_run es Hes) as (n & r & Hn & Hr & Hcur & Hag).
  rewrite run_app, Hr. simpl.
  destruct (take_agrees pl cl on_air source_piece receiver Hl Hframe _ r Hag)
    as (r' & -> & Hag' & Hle & Hgap). simpl. rewrite app_nil_r.
  assert (start + lenN ps ≤ next_emit r') as Hpass.
  { eapply (cursor_passes pl cl on_air source_piece receiver); [done..|exact Hag'|exact Hgap|].
    rewrite Hne. intros i k Hi Hk.
    destruct (Hall (Chunker.mkOutChunk i k (k * cl)
      (slice (source_piece i) (N.to_nat (k * cl)) (N.to_nat (k * cl + cl))))) as (es1 & hdr & es2 & -> & Hw).
    { apply elem_of_broadcast. by eexists _, _. }
    apply (noted es1 hdr _ es2) in Hw; [done|done|].
    intros j Hj. apply (Hnd j). set_solver. }
  assert (next_emit r' - start ≤ lenN ps) as Hup.
  { destruct (N.eq_dec (next_emit r') start) as [->|]; [lia|].
    destruct (ag_emitted _ _ _ _ _ _ _ Hag' (next_emit r' - 1)); [rewrite Hne; lia|]. lia. }
  rewrite <-program_take by done. unfold program. rewrite <-concat_app, <-fmap_app.
  rewrite Hcur, <-range_app. replace (n + _) with (lenN ps) by lia.
  change (program source_piece receiver start (lenN ps) = concat ps).
  rewrite program_take by done. f_equal. apply firstn_all2. unfold lenN. lia.
Qed.

End EndToEnd.

(** ** Theorem *)

(** C1: the live pipeline plays the broadcast.  A source pushes any input, cut anyhow, into a
    fresh signing chunker; the chunks travel as framed peer messages and reach an
    authenticating reassembler in any order, any number of times, interleaved with emissions
    and with partial pieces discarded.  The receiver accepts a piece only before the end of
    its window, [ahead] pieces past the next one to play, for any [ahead], however long the
    broadcast.  Whatever was emitted so far is always a prefix of the input, whole payloads
    long; and once every chunk has been delivered at a moment when its piece was before the
    end of that window (and none discarded) one more emission makes the output all the
    payloads that were filled.  The geometry is that of the chunker: a piece longer than its
    signature and under 2^31 bytes, chunks that divide it and fit a peer frame, and piece
    indexes under 2^32. *)
Theorem live_pipeline_end_to_end `{CryptoLaws} auth pl cl start ahead ins :
  let cap := pl - N.of_nat (signature_len auth) in
  let count := lenN (concat ins) `div` cap in
  let viewer := receiver auth pl start ahead in
  Chunker.geometry pl cl → N.of_nat (signature_len auth) < pl → pl < 2 ^ 31 →
  19 + cl ≤ MAX_FRAME_LEN → start + count ≤ two32 →
  ∃ s0 chunks s1,
    Chunker.signing_new pl cl start (N.of_nat (signature_len auth)) = Some s0 ∧
    Chunker.signing_push_all auth s0 ins = Some (chunks, s1) ∧
    ∀ es, Forall (carries chunks) es →
      (∃ n, n ≤ count ∧
        (run cl viewer es).1 = take (N.to_nat (n * cap)) (concat ins)) ∧
      ((∀ j, Discard j ∉ es) →
       (∀ c, c ∈ chunks → ∃ es1 hdr es2, es = es1 ++ Arrive hdr c :: es2 ∧
          Chunker.oc_piece c < next_emit (run cl viewer es1).2 + ahead) →
        (run cl viewer (es ++ [Emit])).1 = take (N.to_nat (count * cap)) (concat ins)).
Proof.
  intros cap count viewer Hgeo Hsig Hpl Hframe Hair.
  assert (0 < cap) as Hcap by (unfold cap; lia).
  set (s0 := Chunker.mkSigningChunker cap [] (Chunker.new pl cl start)).
  destruct (Chunker.signing_push_all_signed auth pl cl start Hgeo Hsig [] s0 ins)
    as (ps & s1 & Hpush & (_ & Hps & _) & Hcat & Hrest).
  { split_and!; [done|constructor|apply Chunker.new_consumed]. }
  { done. }
  { cbn [Chunker.sbuf s0 app]. intros n Hn. change (Chunker.capacity auth pl) with cap in Hn.
    assert (n ≤ count).
    { apply N.div_le_lower_bound; [lia|]. change (lenN []) with 0 in Hn. lia. }
    nia. }
  simpl in *. exists s0, (broadcast_chunks auth pl cl start ps), s1.
  split_and!; [by unfold Chunker.signing_new; rewrite (proj2 (N.ltb_lt _ _))|done|].
  assert (Forall (λ l, length l = N.to_nat cap) ps) as Hps'.
  { eapply Forall_impl; [exact Hps|]. intros l. unfold cap, lenN, Chunker.capacity. lia. }
  assert (lenN ps = count) as Hcount.
  { unfold count. apply N.div_unique with (lenN (Chunker.sbuf s1)); [done|].
    rewrite Hcat, lenN_app. unfold lenN. rewrite (length_concat_const _ _ Hps'). lia. }
  assert (∀ n, n ≤ lenN ps → concat (take (N.to_nat n) ps) = take (N.to_nat (n * cap)) (concat ins)) as Htake.
  { intros n Hn. rewrite (concat_take_const _ _ _ Hps'), Hcat, N2Nat.inj_mul.
    symmetry. apply take_app_le. rewrite (length_concat_const _ _ Hps'). unfold lenN in Hn. nia. }
  intros es Hes. unfold viewer. split.
  - destruct (carried_run auth pl cl start ahead ps Hgeo Hsig Hpl Hps ltac:(lia) Hframe es Hes)
      as (n & r & Hn & -> & _). exists n. rewrite <-Hcount, <-Htake; done.
  - intros Hnd Hall. rewrite <-Hcount, <-Htake by done.
    rewrite (delivered_all auth pl cl start ahead ps Hgeo Hsig Hpl Hps ltac:(lia) Hframe es);
      try done. f_equal. symmetry. apply firstn_all2. unfold lenN. lia.
Qed.

(** Two pieces of four payload bytes, chunks of three bytes and a window of one piece.  The
    chunks come backwards first, so those of the second piece are refused; they come again
    once the first piece has been played. *)
Lemma live_pipeline_end_to_end_witness :
  let auth := @mkLiveSourceAuth toy_crypto "k"%byte in
  let arrivals := map (Arrive (bs "HEADER-8")) in
  ∃ s0 chunks s1,
    @Chunker.signing_new 6 3 40 2 = Some s0 ∧
    @Chunker.signing_push_all toy_crypto auth s0 [bs "abcde"; bs "fghij"] = Some (chunks, s1) ∧
    (@run toy_crypto 3 (@receiver toy_crypto auth 6 40 1)
      ((arrivals (reverse chunks) ++ Emit :: arrivals chunks) ++ [Emit])).1 = bs "abcdefgh".
Proof.
  destruct (@live_pipeline_end_to_end toy_crypto toy_crypto_laws
    (@mkLiveSourceAuth toy_crypto "k"%byte) 6 3 40 1 [bs "abcde"; bs "fghij"])
    as (s0 & chunks & s1 & H0 & H1 & Hrun);
    [by repeat split|by vm_compute..|].
  exists s0, chunks, s1. split_and!; [done|done|].
  vm_compute in H0. injection H0 as <-. vm_compute in H1. injection H1 as <- <-.
  match goal with |- context [_ ++ Emit :: map ?f ?cs] =>
    set (es := map f (reverse cs) ++ Emit :: map f cs); destruct (Hrun es) as [_ Hall] end.
  - apply Forall_app; split; [|constructor; [done|]]; apply Forall_map, Forall_forall;
      intros c Hc; simpl; (split; [done|]); [by apply elem_of_reverse|done].
  - apply Hall.
    + intros j [Hj|[?|Hj]%elem_of_cons]%elem_of_app; [|done|];
        by apply list_elem_of_fmap in Hj as (c & ? & _).
    + match goal with |- context [run _ ?v _] => set (viewer := v) end.
      assert (∀ k c, es !! k = Some (Arrive (bs "HEADER-8") c) →
        (Chunker.oc_piece c <? next_emit (@run toy_crypto 3 viewer (take k es)).2 + 1) = true →
        ∃ es1 hdr es2, es = es1 ++ Arrive hdr c :: es2 ∧
          Chunker.oc_piece c < next_emit (@run toy_crypto 3 viewer es1).2 + 1) as Hat.
      { intros k c Hk Hw. exists (take k es), (bs "HEADER-8"), (drop (S k) es).
        split; [by rewrite take_drop_middle|by apply N.ltb_lt]. }
      intros c Hc. apply list_elem_of_In in Hc as [<-|[<-|[<-|[<-|[]]]]];
        [apply (Hat 3%nat)|apply (Hat 2%nat)|apply (Hat 7%nat)|apply (Hat 8%nat)];
        vm_compute; reflexivity.
Defined.
