(* ===== verification/PeerPolicy.v ===== *)
(** * The outbound peer policy

    [ace-swarm/src/peer_policy.rs]: the startup-validated set of exact endpoints a private node
    may dial, its text form, the guard before a dial, and the labels the logs use. *)

From S2P Require Import Prelude Bytes Net Extended.

Definition MAX_PRIVATE_PEERS : nat := 256.
Definition MAX_PRIVATE_PEER_BYTES : N := 8192.

Record PeerPolicy : Type := mkPeerPolicy { private : option (gset SocketAddrV4) }.

Definition PeerPolicy_default : PeerPolicy := mkPeerPolicy None.

Inductive InvalidPrivatePeers : Type := invalid_private_peers.

Inductive PeerDialError (E : Type) : Type :=
  | Denied
  | TransportErr (e : E).
Arguments Denied {E}.
Arguments TransportErr {E} e.

Definition is_private (p : PeerPolicy) : bool := bool_decide (is_Some (private p)).

Definition endpoint_count (p : PeerPolicy) : option nat := (λ s, size s) <$> private p.

Definition permits (p : PeerPolicy) (endpoint : SocketAddrV4) : bool :=
  match private p with
  | None => true
  | Some set => bool_decide (endpoint ∈ set)
  end.

(** [peers.sort_unstable()] of distinct addresses. *)
Definition endpoints (p : PeerPolicy) : list SocketAddrV4 :=
  merge_sort addr_le (match private p with Some set => elements set | None => [] end).

(** A private node advertises no listening port. *)
Definition node_fields (p : PeerPolicy) : NodeFields :=
  if is_private p
  then mkNodeFields (ts NodeFields_default) (v NodeFields_default) (pv NodeFields_default) 0
         (nt NodeFields_default) (platform NodeFields_default)
  else NodeFields_default.

(** The check on a parsed endpoint; [true] refuses it. *)
Definition refused_endpoint (a : SocketAddrV4) : bool :=
  (port a =? 0)%N || is_unspecified (ip a) || is_multicast (ip a) || is_broadcast (ip a).

(** The loop over [raw.split(',').enumerate()]. *)
Fixpoint private_peers_loop (index : nat) (entries : list bytes) (set : gset SocketAddrV4)
    : result InvalidPrivatePeers (gset SocketAddrV4) :=
  match entries with
  | [] => Ok set
  | entry :: rest =>
      if bool_decide (MAX_PRIVATE_PEERS ≤ index) then Err invalid_private_peers
      else
        addr ← ok_or (parse_socket_addr_v4 entry) invalid_private_peers;
        if refused_endpoint addr then Err invalid_private_peers
        else private_peers_loop (S index) rest ({[addr]} ∪ set)
  end.

Definition from_private_peers (raw : option bytes) : result InvalidPrivatePeers PeerPolicy :=
  match raw with
  | None => Ok PeerPolicy_default
  | Some raw =>
      if bool_decide (raw = []) || bool_decide (MAX_PRIVATE_PEER_BYTES < lenN raw)%N
      then Err invalid_private_peers
      else set ← private_peers_loop 0 (split_on x2c raw) ∅; Ok (mkPeerPolicy (Some set))
  end.

(** [dial_with]: the endpoints handed to the dial factory, and the outcome. *)
Definition dial_with {T E} (p : PeerPolicy) (endpoint : SocketAddrV4)
    (dial : SocketAddrV4 → result E T) : list SocketAddrV4 * result (PeerDialError E) T :=
  if negb (permits p endpoint) then ([], Err Denied)
  else ([endpoint], match dial endpoint with Ok t => Ok t | Err e => Err (TransportErr e) end).

(** [Serialize] and [Deserialize]: the policy travels as an optional string. *)
Definition serialize (p : PeerPolicy) : option bytes :=
  if is_private p then Some (join x2c (map show_addr (endpoints p))) else None.

Definition deserialize (raw : option bytes) : result InvalidPrivatePeers PeerPolicy :=
  from_private_peers raw.

(** [log_endpoint] and [log_payload], as the text their [Display] prints. *)
Definition log_endpoint (p : PeerPolicy) (endpoint : SocketAddrV4) : bytes :=
  if is_private p then bs "private-peer" else show_addr endpoint.

Definition hex_digit (n : N) : byte := if (n <? 10)%N then N_byte (48 + n) else N_byte (87 + n).
Definition hex_byte (b : byte) : bytes :=
  [hex_digit (byte_N b `div` 16); hex_digit (byte_N b `mod` 16)].

Definition log_payload (p : PeerPolicy) (payload : bytes) : bytes :=
  if is_private p then bs "redacted" else concat (map hex_byte (take 24 payload)).

(** ** Lemmas *)

(** An endpoint a policy may hold. *)
Definition usable_endpoint (a : SocketAddrV4) : Prop := valid_addr a ∧ refused_endpoint a = false.

#[export] Instance usable_endpoint_dec a : Decision (usable_endpoint a).
Proof. unfold usable_endpoint. apply _. Defined.

Lemma private_peers_loop_spec index entries set set' :
  private_peers_loop index entries set = Ok set' ↔
  ∃ addrs, mapM parse_socket_addr_v4 entries = Some addrs ∧
    Forall (λ a, refused_endpoint a = false) addrs ∧
    (entries = [] ∨ index + length entries ≤ MAX_PRIVATE_PEERS) ∧
    set' = list_to_set addrs ∪ set.
Proof.
  revert index set. induction entries as [|e es IH]; intros index set; cbn [private_peers_loop].
  { split.
    - intros [= <-]. exists []. split_and!; [done|done|by left|]. set_solver.
    - intros (addrs & [= <-] & _ & _ & ->). f_equal. set_solver. }
  cbn [mapM length]. case_bool_decide as Hi.
  { split; [done|]. intros (addrs & _ & _ & [?|?] & _); [done|]. lia. }
  destruct (parse_socket_addr_v4 e) as [a|] eqn:Ee; cbn [ok_or mbind result_bind option_bind].
  2: { split; [done|]. by intros (addrs & [=] & _). }
  destruct (refused_endpoint a) eqn:Ea.
  { split; [done|]. intros (addrs & (l & _ & [= <-])%bind_Some & HF & _).
    apply Forall_cons in HF as [? _]. congruence. }
  rewrite IH. split.
  - intros (addrs & Hm & HF & Hl & ->). exists (a :: addrs).
    rewrite Hm. split_and!; [done|by constructor| |set_solver].
    right. destruct Hl as [->|]; simpl; lia.
  - intros (addrs & (l & Hm & [= <-])%bind_Some & HF & Hl & ->).
    apply Forall_cons in HF as [_ HF]. exists l. split_and!; [done|done| |set_solver].
    destruct Hl as [|]; [done|]. right. lia.
Qed.

(** What a setting denotes, and exactly when it is accepted. *)
Lemma from_private_peers_spec raw p :
  from_private_peers (Some raw) = Ok p ↔
  raw ≠ [] ∧ (lenN raw ≤ MAX_PRIVATE_PEER_BYTES)%N ∧
  length (split_on x2c raw) ≤ MAX_PRIVATE_PEERS ∧
  ∃ addrs, mapM parse_socket_addr_v4 (split_on x2c raw) = Some addrs ∧
    Forall (λ a, refused_endpoint a = false) addrs ∧ p = mkPeerPolicy (Some (list_to_set addrs)).
Proof.
  unfold from_private_peers.
  case_bool_decide as H1; [naive_solver|]. case_bool_decide as H2; cbn [orb]; [naive_solver lia|].
  destruct (split_on_cons x2c raw) as (f & fs & Hs). rewrite bind_Ok_inv. split.
  - intros (s & Hl & [= <-]). apply private_peers_loop_spec in Hl as (addrs & Hm & HF & Hlen & ->).
    split_and!; [done|lia|destruct Hlen; [congruence|lia]|].
    exists addrs. split_and!; [done|done|]. do 2 f_equal. set_solver.
  - intros (_ & _ & Hlen & addrs & Hm & HF & ->). exists (list_to_set addrs). split; [|done].
    apply private_peers_loop_spec. exists addrs. split_and!; [done|done|by right|set_solver].
Qed.

Lemma mapM_parse_valid entries addrs :
  mapM parse_socket_addr_v4 entries = Some addrs → Forall valid_addr addrs.
Proof.
  intros H%mapM_Some. induction H as [|e a es as_ He _ IH]; constructor; [|done].
  by eapply parse_socket_addr_v4_valid.
Qed.

(** The state of an accepted policy. *)
Definition policy_ok (p : PeerPolicy) : Prop :=
  match private p with
  | None => True
  | Some set => set_Forall usable_endpoint set ∧ 1 ≤ size set ≤ MAX_PRIVATE_PEERS
  end.

Lemma size_list_to_set_addr (l : list SocketAddrV4) :
  size (list_to_set l : gset SocketAddrV4) ≤ length l.
Proof.
  induction l as [|x l IH]; [done|]. cbn [list_to_set list_fmap length].
  destruct (decide (x ∈ (list_to_set l : gset SocketAddrV4))) as [Hin|Hn].
  - assert ({[x]} ∪ list_to_set l = (list_to_set l : gset SocketAddrV4)) as -> by set_solver. lia.
  - rewrite size_union by set_solver. rewrite size_singleton. lia.
Qed.

Lemma from_private_peers_ok raw p : from_private_peers raw = Ok p → policy_ok p.
Proof.
  destruct raw as [raw|]; [|by intros [= <-]].
  intros (Hne & _ & Hl & addrs & Hm & HF & ->)%from_private_peers_spec. simpl.
  pose proof (mapM_parse_valid _ _ Hm) as Hv. pose proof (length_mapM _ _ _ Hm) as Hlen.
  split_and!.
  - intros a Ha%elem_of_list_to_set. rewrite Forall_forall in HF. rewrite Forall_forall in Hv.
    split; auto.
  - destruct (split_on_cons x2c raw) as (f & fs & E). rewrite E in Hlen.
    destruct addrs as [|a addrs]; [done|].
    assert (size (list_to_set (a :: addrs) : gset SocketAddrV4) ≠ 0); [|lia].
    apply size_non_empty_iff. set_solver.
  - pose proof (size_list_to_set_addr addrs). lia.
Qed.

Lemma endpoints_perm p set : private p = Some set → endpoints p ≡ₚ elements set.
Proof. unfold endpoints. intros ->. apply merge_sort_Permutation. Qed.

Lemma mapM_show_parse l : Forall valid_addr l →
  mapM parse_socket_addr_v4 (map show_addr l) = Some l.
Proof.
  induction 1 as [|a l Ha _ IH]; [done|]. cbn [map mapM].
  rewrite parse_show_addr by done. cbn [mbind option_bind]. by rewrite IH.
Qed.

Lemma serialize_parses p : policy_ok p → from_private_peers (serialize p) = Ok p.
Proof.
  unfold policy_ok, serialize, is_private. destruct p as [[set|]]; cbn [private].
  2: { intros _. by rewrite bool_decide_false by (by intros []). }
  intros [Hu Hs]. rewrite bool_decide_true by done. set (q := mkPeerPolicy (Some set)).
  pose proof (endpoints_perm q set eq_refl) as Hp.
  assert (Forall usable_endpoint (endpoints q)) as HU.
  { apply Forall_forall. intros a. rewrite Hp, elem_of_elements. apply Hu. }
  assert (Forall valid_addr (endpoints q)) as HV by (eapply Forall_impl; [exact HU|by intros ? []]).
  assert (length (endpoints q) = size set) as Hlen by by rewrite Hp.
  assert (split_on x2c (join x2c (map show_addr (endpoints q))) = map show_addr (endpoints q)) as E.
  { apply split_on_join.
    - intros ?%(f_equal length). rewrite length_map in *. simpl in *. lia.
    - apply Forall_map, Forall_true. intros a. by apply show_addr_chars. }
  apply from_private_peers_spec. rewrite E, length_map. split_and!.
  - intros Hn. rewrite Hn in E. destruct (endpoints q) as [|a [|b l]]; simpl in *; [lia| |done].
    injection E as E. apply Forall_cons in HV as [Ha _]. by apply (show_addr_ne a).
  - pose proof (length_join x2c (map show_addr (endpoints q)) 21) as HJ.
    rewrite length_map in HJ. unfold MAX_PRIVATE_PEER_BYTES, MAX_PRIVATE_PEERS in *.
    assert (Forall (λ f, length f ≤ 21) (map show_addr (endpoints q))) as HF.
    { apply Forall_map. eapply Forall_impl; [exact HV|]. apply show_addr_length. }
    specialize (HJ HF). unfold lenN. lia.
  - lia.
  - exists (endpoints q). split_and!; [by apply mapM_show_parse| |].
    + eapply Forall_impl; [exact HU|by intros ? []].
    + do 2 f_equal. apply set_eq. intros a.
      by rewrite elem_of_list_to_set, Hp, elem_of_elements.
Qed.

(** ** Properties *)

(** C38: the setting fails closed.  Without a setting the node is public; with one, whatever its
    text, the outcome is an error or a private policy, never public operation: it permits
    exactly the endpoints listed in the text, each of them a usable unicast endpoint, and at
    least one and at most 256 of them; the node then advertises no listening port. *)
Theorem private_setting_fails_closed raw p :
  from_private_peers raw = Ok p →
  match raw with
  | None => is_private p = false ∧ ∀ a, permits p a = true
  | Some text =>
      is_private p = true ∧ Extended.p (node_fields p) = 0%Z ∧
      (∀ a, permits p a = true ↔
        ∃ field, field ∈ split_on x2c text ∧ parse_socket_addr_v4 field = Some a) ∧
      (∀ a, permits p a = true → usable_endpoint a) ∧
      ∃ n, endpoint_count p = Some n ∧ 1 ≤ n ≤ MAX_PRIVATE_PEERS
  end.
Proof.
  intros H. pose proof (from_private_peers_ok _ _ H) as Hok.
  destruct raw as [text|]; [|by injection H as <-].
  apply from_private_peers_spec in H as (_ & _ & _ & addrs & Hm & HF & ->).
  destruct Hok as [Hu Hs]. split_and!; [done|done| | |by eexists].
  - intros a. unfold permits. cbn [private]. rewrite bool_decide_eq_true, elem_of_list_to_set.
    apply mapM_Some in Hm. split.
    + intros [i Hi]%list_elem_of_lookup. destruct (Forall2_lookup_r _ _ _ _ _ Hm Hi) as (f & Hf & E).
      exists f. split; [by eapply list_elem_of_lookup_2|done].
    + intros (f & [i Hi]%list_elem_of_lookup & E).
      destruct (Forall2_lookup_l _ _ _ _ _ Hm Hi) as (b & Hb & E').
      simplify_eq. by eapply list_elem_of_lookup_2.
  - intros a. unfold permits. cbn [private]. rewrite bool_decide_eq_true. apply Hu.
Qed.

Definition witness_setting : bytes := bs "127.0.0.1:1234,192.0.2.1:4321,127.0.0.1:1234".

Lemma private_setting_fails_closed_witness : ∃ p,
  from_private_peers (Some witness_setting) = Ok p ∧ is_private p = true ∧ endpoint_count p = Some 2.
Proof.
  assert (match from_private_peers (Some witness_setting) with Ok p => endpoint_count p = Some 2 | Err _ => False end)
    as Hn by (vm_compute; done).
  destruct (from_private_peers (Some witness_setting)) as [p|e] eqn:E; [|done].
  exists p. split; [done|]. split; [apply (private_setting_fails_closed _ _ E)|done].
Defined.

(** a policy survives its own text form.  Whatever setting a policy was read from, the
    string a parent process serializes for it fits the byte and count limits of the reader and
    denotes the same set of endpoints. *)
Theorem policy_serde_roundtrip raw p :
  from_private_peers raw = Ok p → deserialize (serialize p) = Ok p.
Proof. intros H. apply serialize_parses. by eapply from_private_peers_ok. Qed.

Lemma policy_serde_roundtrip_witness :
  deserialize (serialize (mkPeerPolicy (Some {[mkSocketAddrV4 (map N_byte [10; 0; 0; 1]%N) 80]}))) =
  Ok (mkPeerPolicy (Some {[mkSocketAddrV4 (map N_byte [10; 0; 0; 1]%N) 80]})).
Proof.
  apply (policy_serde_roundtrip (Some (bs "10.0.0.1:080"))). vm_compute. reflexivity.
Defined.

(** A denied endpoint never reaches the dial factory. *)
Lemma dial_with_denied {T E} p a (dial : SocketAddrV4 → result E T) :
  permits p a = false → dial_with p a dial = ([], Err Denied).
Proof. unfold dial_with. by intros ->. Qed.

Lemma dial_with_calls {T E} p a b (dial : SocketAddrV4 → result E T) :
  b ∈ (dial_with p a dial).1 → b = a ∧ permits p b = true.
Proof.
  unfold dial_with. destruct (permits p a) eqn:Hp; simpl; [|by intros ?%not_elem_of_nil].
  by intros ->%list_elem_of_singleton.
Qed.
