(* ===== verification/Candidates.v ===== *)
(** * Upstream candidates of a live session

    [ace-swarm/src/live_session/reconnect.rs]: the bounded list of peers a session may dial, with
    their provenance, retry timing and exploration counters; and the two users of it in
    [pool_support.rs], which start dials from the least explored cohort and account for their
    outcome.  An [Instant] is a number of nanoseconds; the reading of the clock is an argument,
    one for a pass where the source reads it more than once. *)

From S2P Require Import Prelude Order Bytes Net PeerPolicy.

Definition MAX_CANDIDATES : nat := 1024.
Definition MAX_SOURCES : nat := 8.
Definition second : N := 1000000000.
(** [CONNECT_TIMEOUT]. *)
Definition CONNECT_TIMEOUT : N := 3 * second.

Inductive CandidateKind : Type := Source | Pex | Discovered.

#[export] Instance CandidateKind_eq_dec : EqDecision CandidateKind.
Proof. solve_decision. Defined.

(** The derived order of [CandidateKind]. *)
Definition kind_rank (k : CandidateKind) : N :=
  match k with Source => 0 | Pex => 1 | Discovered => 2 end.
Definition kind_min (a b : CandidateKind) : CandidateKind :=
  if (kind_rank b <? kind_rank a)%N then b else a.

Record Candidate : Type := mkCandidate {
  c_addr : SocketAddrV4;
  c_kind : CandidateKind;
  failures : N;
  admissions : N;
  explorations : N;
  retry_at : N;
}.

Record SessionCandidates : Type := mkCandidates { entries : list Candidate; policy : PeerPolicy }.

Definition with_policy (p : PeerPolicy) : SessionCandidates := mkCandidates [] p.

Definition set_entries (s : SessionCandidates) (l : list Candidate) : SessionCandidates :=
  mkCandidates l (policy s).

(** [entries.iter_mut().find(|c| c.addr == addr)] followed by an update of the candidate. *)
Fixpoint update_addr (a : SocketAddrV4) (f : Candidate → Candidate) (l : list Candidate)
    : list Candidate :=
  match l with
  | [] => []
  | c :: r => if decide (c_addr c = a) then f c :: r else c :: update_addr a f r
  end.

Definition find_addr (a : SocketAddrV4) (l : list Candidate) : option Candidate :=
  find (λ c, bool_decide (c_addr c = a)) l.

(** The entry evicted for a candidate of kind [k]: of the largest kind above [k], the oldest. *)
Definition eviction_index (k : CandidateKind) (l : list Candidate) : option nat :=
  fst <$> max_by_key (λ ic : nat * Candidate, kind_rank (c_kind ic.2))
    (List.filter (λ ic : nat * Candidate, kind_rank k <? kind_rank (c_kind ic.2))%N
       (rev (imap (λ i c, (i, c)) l))).

Definition learn (s : SessionCandidates) (a : SocketAddrV4) (kind : CandidateKind) (now : N)
    : SessionCandidates :=
  if negb (permits (policy s) a) || (port a =? 0)%N || is_unspecified (ip a) ||
     is_multicast (ip a) || is_broadcast (ip a)
  then s
  else
    let kind :=
      if bool_decide (kind = Source) && bool_decide (MAX_SOURCES ≤
           count_if (λ c, bool_decide (c_kind c = kind) && negb (bool_decide (c_addr c = a)))
             (entries s))
      then Pex else kind in
    match find_addr a (entries s) with
    | Some _ =>
        set_entries s (update_addr a (λ c, mkCandidate (c_addr c) (kind_min (c_kind c) kind)
          (failures c) (admissions c) (explorations c) (retry_at c)) (entries s))
    | None =>
        let fresh := mkCandidate a kind 0 0 0 now in
        if bool_decide (length (entries s) = MAX_CANDIDATES) then
          match eviction_index kind (entries s) with
          | None => s
          | Some i => set_entries s (remove_index i (entries s) ++ [fresh])
          end
        else set_entries s (entries s ++ [fresh])
    end.

(** The sort key [(explorations, kind, admissions)], compared lexicographically. *)
Definition candidate_leb (a b : Candidate) : bool :=
  if (explorations a =? explorations b)%N then
    if (kind_rank (c_kind a) =? kind_rank (c_kind b))%N then (admissions a <=? admissions b)%N
    else (kind_rank (c_kind a) <? kind_rank (c_kind b))%N
  else (explorations a <? explorations b)%N.

Definition eligible (s : SessionCandidates) (now : N) : list SocketAddrV4 :=
  map c_addr (sort_by candidate_leb (List.filter (λ c, retry_at c <=? now)%N (entries s))).

Definition eligible_kind (s : SessionCandidates) (now : N) (discovered : bool)
    : list SocketAddrV4 :=
  map c_addr (sort_by candidate_leb (List.filter (λ c, (retry_at c <=? now)%N &&
    Bool.eqb (bool_decide (c_kind c = Discovered)) discovered) (entries s))).

Definition eligible_learned (s : SessionCandidates) (now : N) : list SocketAddrV4 :=
  eligible_kind s now false.
Definition eligible_discovered (s : SessionCandidates) (now : N) : list SocketAddrV4 :=
  eligible_kind s now true.

Definition exploration_cohort (s : SessionCandidates) (now : N) (active pending : gset SocketAddrV4)
    : option N :=
  list_min (map explorations (List.filter (λ c, negb (bool_decide (c_addr c ∈ active)) &&
    ((retry_at c <=? now)%N || bool_decide (c_addr c ∈ pending))) (entries s))).

Definition into_learned (s : SessionCandidates) : list (SocketAddrV4 * CandidateKind) :=
  map (λ c, (c_addr c, c_kind c)) (entries s).

Definition all (s : SessionCandidates) : list SocketAddrV4 := map c_addr (entries s).

Definition kind (s : SessionCandidates) (a : SocketAddrV4) : CandidateKind :=
  match find_addr a (entries s) with Some c => c_kind c | None => Discovered end.

Definition explorations_of (s : SessionCandidates) (a : SocketAddrV4) : N :=
  match find_addr a (entries s) with Some c => explorations c | None => 0 end.

Definition explored (s : SessionCandidates) (a : SocketAddrV4) : SessionCandidates :=
  set_entries s (update_addr a (λ c, mkCandidate (c_addr c) (c_kind c) (failures c) (admissions c)
    (saturating_add (explorations c) 1) (retry_at c)) (entries s)).

Definition admitted (s : SessionCandidates) (a : SocketAddrV4) : SessionCandidates :=
  let s := explored s a in
  set_entries s (update_addr a (λ c, mkCandidate (c_addr c) (c_kind c) (failures c)
    (saturating_add (admissions c) 1) (explorations c) (retry_at c)) (entries s)).

Definition set_retry (t : N) (c : Candidate) : Candidate :=
  mkCandidate (c_addr c) (c_kind c) (failures c) (admissions c) (explorations c) t.

Definition attempting (s : SessionCandidates) (a : SocketAddrV4) (until : N) : SessionCandidates :=
  set_entries s (update_addr a (set_retry until) (entries s)).

(** The delay after the [n]-th failure, in seconds. *)
Definition backoff (k : CandidateKind) (n : N) : N :=
  N.min (N.shiftl 1 (N.min (n - 1) 3)) (if decide (k = Source) then 4 else 8).

Definition failed (s : SessionCandidates) (a : SocketAddrV4) (now : N) : SessionCandidates :=
  set_entries s (update_addr a (λ c,
    let n := N.min (failures c + 1) 4294967295 in
    mkCandidate (c_addr c) (c_kind c) n (admissions c) (explorations c)
      (now + backoff (c_kind c) n * second)) (entries s)).

Definition productive (s : SessionCandidates) (a : SocketAddrV4) (now : N) : SessionCandidates :=
  let l := map (λ c, mkCandidate (c_addr c) (c_kind c) (failures c) 0 0 (retry_at c)) (entries s) in
  set_entries s (update_addr a (λ c, mkCandidate (c_addr c) (c_kind c) 0 (admissions c)
    (explorations c) now) l).

Definition refresh_stale_transport (s : SessionCandidates) (a : SocketAddrV4) (now : N)
    : SessionCandidates :=
  set_entries s (update_addr a (set_retry now) (entries s)).

Definition retry_delay (s : SessionCandidates) (now : N) : N :=
  default second (list_min (map (λ c, retry_at c - now)%N (entries s))).

Definition retry_deadline_after (s : SessionCandidates) (observed : N)
    (active pending : gset SocketAddrV4) : option N :=
  list_min (map retry_at (List.filter (λ c, (observed <? retry_at c)%N &&
    negb (bool_decide (c_addr c ∈ active)) && negb (bool_decide (c_addr c ∈ pending))) (entries s))).

Definition learned_counts (s : SessionCandidates) : nat * nat :=
  (count_if (λ c, bool_decide (c_kind c = Source)) (entries s),
   count_if (λ c, bool_decide (c_kind c = Pex)) (entries s)).

(** ** Dialing *)

(** The loop of [spawn_candidate_connects]; [peers] are the addresses of the running peers.  The
    result lists the dials started, each with its [discovered] flag. *)
Fixpoint spawn_loop (held : option SocketAddrV4) (peers : list SocketAddrV4) (max_parallel : nat)
    (cohort : option N) (now : N) (addrs : list SocketAddrV4)
    (s : SessionCandidates) (tasks : nat) (pending : gset SocketAddrV4)
    : SessionCandidates * gset SocketAddrV4 * list (SocketAddrV4 * bool) :=
  match addrs with
  | [] => (s, pending, [])
  | a :: rest =>
      if negb (bool_decide (Some (explorations_of s a) = cohort)) then
        spawn_loop held peers max_parallel cohort now rest s tasks pending
      else if bool_decide (max_parallel ≤ tasks) || bool_decide (max_parallel ≤ size pending) then
        (s, pending, [])
      else if bool_decide (held = Some a) || bool_decide (a ∈ peers) || bool_decide (a ∈ pending)
      then spawn_loop held peers max_parallel cohort now rest s tasks pending
      else
        let s := attempting s a (now + CONNECT_TIMEOUT) in
        let discovered := bool_decide (kind s a = Discovered) in
        let '(s, pending, dials) := spawn_loop held peers max_parallel cohort now rest s (S tasks)
          ({[a]} ∪ pending) in
        (s, pending, (a, discovered) :: dials)
  end.

Definition spawn_candidate_connects (held : option SocketAddrV4) (s : SessionCandidates)
    (peers : list SocketAddrV4) (max_parallel tasks : nat) (pending : gset SocketAddrV4)
    (include_discovered : bool) (now : N)
    : SessionCandidates * gset SocketAddrV4 * list (SocketAddrV4 * bool) :=
  let '(sources, pex) := learned_counts s in
  if negb include_discovered && bool_decide (sources + pex = 0) then (s, pending, [])
  else
    let active := list_to_set (peers ++ option_list held) in
    let cohort := exploration_cohort s now active pending in
    let addrs := if include_discovered then eligible s now else eligible_learned s now in
    spawn_loop held peers max_parallel cohort now addrs s tasks pending.

(** [finish_candidate_connect]: [failure] is the address of a failed dial. *)
Definition finish_candidate_connect (addr : SocketAddrV4) (failure : option SocketAddrV4)
    (queued : bool) (pending : gset SocketAddrV4) (s : SessionCandidates) (now : N)
    : gset SocketAddrV4 * SessionCandidates * bool :=
  let pending := if queued then pending else pending ∖ {[addr]} in
  match failure with
  | Some a => (pending, failed (explored s a) a now, true)
  | None => (pending, s, false)
  end.

Definition record_pool_losses (s : SessionCandidates) (loss_count : N) (addrs : list SocketAddrV4)
    (now : N) : SessionCandidates * N :=
  fold_left (λ '(s, n) a, (failed s a now, saturating_add n 1)) addrs (s, loss_count).

(** ** Lemmas: the entry of an address *)

Lemma find_addr_None a l : find_addr a l = None ↔ a ∉ map c_addr l.
Proof.
  unfold find_addr. induction l as [|c l IH]; simpl; [split; [intros _; apply not_elem_of_nil|done]|].
  rewrite not_elem_of_cons, <-IH. case_bool_decide; naive_solver.
Qed.

Lemma find_addr_split a l c : find_addr a l = Some c →
  c_addr c = a ∧ ∃ l1 l2, l = l1 ++ c :: l2 ∧ a ∉ map c_addr l1 ∧
    ∀ f, update_addr a f l = l1 ++ f c :: l2.
Proof.
  unfold find_addr. induction l as [|d l IH]; simpl; [done|]. case_bool_decide as Hd.
  - intros [= ->]. split; [done|]. exists [], l. split_and!; [done|apply not_elem_of_nil|].
    intros f. by rewrite decide_True.
  - intros H. destruct (IH H) as (Hc & l1 & l2 & -> & Hn & Hu). split; [done|].
    exists (d :: l1), l2. split_and!; [done|simpl; set_solver|].
    intros f. by rewrite decide_False, Hu.
Qed.

Lemma update_addr_absent a f l : find_addr a l = None → update_addr a f l = l.
Proof.
  rewrite find_addr_None. induction l as [|c l IH]; simpl; [done|].
  rewrite not_elem_of_cons. intros [? ?]. rewrite decide_False by done. by rewrite IH.
Qed.

Lemma update_addr_case a f l :
  (find_addr a l = None ∧ update_addr a f l = l) ∨
  ∃ c l1 l2, c_addr c = a ∧ find_addr a l = Some c ∧ l = l1 ++ c :: l2 ∧ a ∉ map c_addr l1 ∧
    update_addr a f l = l1 ++ f c :: l2.
Proof.
  destruct (find_addr a l) as [c|] eqn:E.
  - right. destruct (find_addr_split _ _ _ E) as (? & l1 & l2 & ? & ? & ?). naive_solver.
  - left. eauto using update_addr_absent.
Qed.

Lemma update_addr_map {B} (g : Candidate → B) a f l :
  (∀ c, g (f c) = g c) → map g (update_addr a f l) = map g l.
Proof.
  intros Hf. induction l as [|c l IH]; simpl; [done|].
  case_decide; simpl; [by rewrite Hf|by rewrite IH].
Qed.

Lemma update_addr_length a f l : length (update_addr a f l) = length l.
Proof. induction l as [|c l IH]; simpl; [done|]. case_decide; simpl; congruence. Qed.

Lemma find_update a b f l : (∀ c, c_addr (f c) = c_addr c) →
  find_addr b (update_addr a f l) =
    if decide (a = b) then f <$> find_addr b l else find_addr b l.
Proof.
  intros Hf. unfold find_addr. induction l as [|c l IH]; simpl; [by case_decide|].
  destruct (decide (c_addr c = a)) as [<-|Hne]; simpl.
  - rewrite Hf. case_bool_decide; case_decide; done.
  - rewrite IH. case_bool_decide; case_decide; naive_solver.
Qed.

(** ** Lemmas: the eviction *)

Lemma eviction_index_spec k l :
  match eviction_index k l with
  | Some i => ∃ c, l !! i = Some c ∧ (kind_rank k < kind_rank (c_kind c))%N ∧
      ∀ j d, l !! j = Some d → (kind_rank (c_kind d) ≤ kind_rank (c_kind c))%N
  | None => ∀ c, c ∈ l → (kind_rank (c_kind c) ≤ kind_rank k)%N
  end.
Proof.
  unfold eviction_index. set (L := List.filter _ _).
  assert (∀ i c, (i, c) ∈ L ↔ l !! i = Some c ∧ (kind_rank k < kind_rank (c_kind c))%N) as HL.
  { intros i c. unfold L. rewrite !list_elem_of_In, filter_In, <-in_rev, <-list_elem_of_In, N.ltb_lt.
    rewrite elem_of_lookup_imap. naive_solver. }
  pose proof (max_by_key_spec (λ ic : nat * Candidate, kind_rank (c_kind ic.2)) L) as Hm.
  destruct (max_by_key _ L) as [[i c]|]; simpl in *.
  - destruct Hm as [[Hi Hk]%HL Hmax]. exists c. split_and!; [done|done|].
    intros j d Hj. destruct (decide (kind_rank k < kind_rank (c_kind d))%N); [|lia].
    apply (Hmax (j, d)), HL. done.
  - intros c [i Hi]%list_elem_of_lookup. apply N.le_ngt. intros Hk.
    assert ((i, c) ∈ L) as H by by apply HL. rewrite Hm in H. by apply not_elem_of_nil in H.
Qed.

(** ** The invariant *)

Definition is_source (c : Candidate) : bool := bool_decide (c_kind c = Source).

Record candidates_inv (s : SessionCandidates) : Prop := mkInv {
  inv_nodup : NoDup (all s);
  inv_bound : length (entries s) ≤ MAX_CANDIDATES;
  inv_sources : count_if is_source (entries s) ≤ MAX_SOURCES;
  inv_usable : Forall (λ a, permits (policy s) a = true ∧ refused_endpoint a = false) (all s);
}.

(** An update of counters and times, which keeps addresses and kinds. *)
Lemma inv_relabel s l : map c_addr l = all s → map c_kind l = map c_kind (entries s) →
  candidates_inv s → candidates_inv (set_entries s l).
Proof.
  intros Ha Hk [H1 H2 H3 H4]. unfold all in *. constructor; unfold all; simpl.
  - by rewrite Ha.
  - apply (f_equal length) in Ha. rewrite !length_map in Ha. by rewrite Ha.
  - enough (count_if is_source l = count_if is_source (entries s)) as -> by done.
    exact (count_if_map c_kind (λ k, bool_decide (k = Source)) _ _ Hk).
  - by rewrite Ha.
Qed.

Lemma inv_update s a f : (∀ c, c_addr (f c) = c_addr c) → (∀ c, c_kind (f c) = c_kind c) →
  candidates_inv s → candidates_inv (set_entries s (update_addr a f (entries s))).
Proof. intros Ha Hk. by apply inv_relabel; apply update_addr_map. Qed.

(** A new entry, after an eviction or without one. *)
Lemma inv_push s l c : l `sublist_of` entries s → length l < MAX_CANDIDATES →
  c_addr c ∉ all s → permits (policy s) (c_addr c) = true → refused_endpoint (c_addr c) = false →
  (c_kind c = Source → count_if is_source l < MAX_SOURCES) →
  count_if is_source l ≤ MAX_SOURCES →
  candidates_inv s → candidates_inv (set_entries s (l ++ [c])).
Proof.
  intros Hl Hlen Hn Hp Hr Hs Hs' [H1 H2 H3 H4]. pose proof (fmap_sublist c_addr _ _ Hl) as Hsub.
  constructor; unfold all in *; simpl.
  - rewrite map_app. apply NoDup_app. split_and!.
    + by eapply sublist_NoDup.
    + intros x Hx ->%list_elem_of_singleton. apply Hn. by eapply elem_of_sublist.
    + apply NoDup_singleton.
  - rewrite length_app. simpl. lia.
  - rewrite count_if_app, count_if_cons. unfold is_source at 2. simpl.
    case_bool_decide as Hc; [specialize (Hs Hc)|]; unfold count_if at 2; simpl; lia.
  - rewrite map_app, Forall_app. split; [|by repeat constructor].
    apply Forall_forall. intros x Hx. rewrite Forall_forall in H4. apply H4.
    by eapply elem_of_sublist.
Qed.

(** The kind a new announcement really gets. *)
Definition learned_kind (s : SessionCandidates) (a : SocketAddrV4) (k : CandidateKind)
    : CandidateKind :=
  if bool_decide (k = Source) && bool_decide (MAX_SOURCES ≤
       count_if (λ c, bool_decide (c_kind c = k) && negb (bool_decide (c_addr c = a))) (entries s))
  then Pex else k.

Lemma learned_kind_source s a k : learned_kind s a k = Source →
  count_if (λ c, is_source c && negb (bool_decide (c_addr c = a))) (entries s) < MAX_SOURCES.
Proof.
  unfold learned_kind. case_bool_decide as Hk; simpl; [subst|by intros ->].
  case_bool_decide as Hc; [done|]. intros _. by apply Nat.nle_gt.
Qed.

Lemma kind_min_source a b : kind_min a b = Source → a = Source ∨ b = Source.
Proof. by destruct a, b; vm_compute; eauto. Qed.

Lemma count_others (P : Candidate → bool) a l : a ∉ map c_addr l →
  count_if (λ c, P c && negb (bool_decide (c_addr c = a))) l = count_if P l.
Proof.
  induction l as [|c l IH]; [done|]. cbn [map]. rewrite not_elem_of_cons. intros [Hc Hl].
  rewrite !count_if_cons, IH by done. rewrite (bool_decide_false (c_addr c = a)) by done.
  by rewrite andb_true_r.
Qed.

Lemma inv_upgrade s a c k : find_addr a (entries s) = Some c → (k = Source →
    count_if (λ c, is_source c && negb (bool_decide (c_addr c = a))) (entries s) < MAX_SOURCES) →
  candidates_inv s →
  candidates_inv (set_entries s (update_addr a (λ c, mkCandidate (c_addr c) (kind_min (c_kind c) k)
    (failures c) (admissions c) (explorations c) (retry_at c)) (entries s))).
Proof.
  intros Hf Hk [H1 H2 H3 H4]. destruct (find_addr_split _ _ _ Hf) as (Hc & l1 & l2 & E & Hn & Hu).
  constructor; unfold all in *; simpl; [by rewrite update_addr_map| | |by rewrite update_addr_map].
  { by rewrite update_addr_length. }
  rewrite Hu. rewrite E in *. clear Hu E Hf H2 H4. rewrite map_app in H1. cbn [map] in H1.
  assert (a ∉ map c_addr l2) as Hn2.
  { apply NoDup_app in H1 as (_ & _ & [H1 _]%NoDup_cons). by rewrite <-Hc. }
  rewrite count_if_app, count_if_cons in *. rewrite !count_others in Hk by done.
  rewrite (bool_decide_true (c_addr c = a)), andb_false_r in Hk by done.
  unfold is_source at 2 in H3. unfold is_source at 2. cbn [c_kind].
  destruct (bool_decide_reflect (kind_min (c_kind c) k = Source)) as [Hs|Hs]; [|lia].
  apply kind_min_source in Hs as [Hs|Hs].
  - rewrite bool_decide_true in H3 by done. lia.
  - specialize (Hk Hs). lia.
Qed.

Lemma learn_inv s a k now : candidates_inv s → candidates_inv (learn s a k now).
Proof.
  intros Hinv. unfold learn. fold (learned_kind s a k).
  destruct (negb (permits (policy s) a) || _ || _ || _ || _) eqn:Hg; [done|].
  assert (permits (policy s) a = true ∧ refused_endpoint a = false) as [Hp Hr].
  { unfold refused_endpoint. by destruct (permits _ _), (port a =? 0)%N, (is_unspecified _),
      (is_multicast _), (is_broadcast _). }
  pose proof (learned_kind_source s a k) as Hs. set (k' := learned_kind s a k) in *. cbv zeta.
  destruct (find_addr a (entries s)) as [c|] eqn:Hf; [by eapply inv_upgrade|].
  apply find_addr_None in Hf. pose proof (count_others is_source a _ Hf) as Hco.
  pose proof (inv_sources _ Hinv) as Hsrc. case_bool_decide as Hfull.
  - pose proof (eviction_index_spec k' (entries s)) as He.
    destruct (eviction_index k' (entries s)) as [i|]; [|done].
    destruct He as (d & Hd & _). destruct (remove_index_split _ _ _ Hd) as [El Er].
    assert (remove_index i (entries s) `sublist_of` entries s) as Hsub.
    { rewrite Er. rewrite El at 3. apply sublist_app; [done|]. by apply sublist_cons. }
    pose proof (count_if_sublist is_source _ _ Hsub).
    apply inv_push; simpl; [done| |done|done|done| |lia|done].
    + rewrite <-Hfull. rewrite El at 2. rewrite Er, !length_app. simpl. lia.
    + intros Hk. specialize (Hs Hk). rewrite Hco in Hs. lia.
  - pose proof (inv_bound _ Hinv). apply inv_push; simpl; [done|lia|done|done|done| |lia|done].
    intros Hk. specialize (Hs Hk). by rewrite Hco in Hs.
Qed.

(** ** Operations as steps *)

Inductive CandidateOp : Type :=
  | OpLearn (a : SocketAddrV4) (k : CandidateKind) (now : N)
  | OpExplored (a : SocketAddrV4)
  | OpAdmitted (a : SocketAddrV4)
  | OpAttempting (a : SocketAddrV4) (until : N)
  | OpFailed (a : SocketAddrV4) (now : N)
  | OpProductive (a : SocketAddrV4) (now : N)
  | OpRefresh (a : SocketAddrV4) (now : N).

Definition apply_op (s : SessionCandidates) (op : CandidateOp) : SessionCandidates :=
  match op with
  | OpLearn a k now => learn s a k now
  | OpExplored a => explored s a
  | OpAdmitted a => admitted s a
  | OpAttempting a until => attempting s a until
  | OpFailed a now => failed s a now
  | OpProductive a now => productive s a now
  | OpRefresh a now => refresh_stale_transport s a now
  end.

Lemma op_inv s op : candidates_inv s → candidates_inv (apply_op s op).
Proof.
  intros Hinv. destruct op; simpl; [by apply learn_inv|..]; unfold admitted, explored, attempting,
    failed, refresh_stale_transport; try by repeat apply inv_update.
  unfold productive. set (l := map _ (entries s)). apply (inv_update (set_entries s l)); [done|done|].
  apply inv_relabel; [| |done]; unfold l, all; rewrite map_map; by apply map_ext.
Qed.

Lemma op_policy s op : policy (apply_op s op) = policy s.
Proof. destruct op; simpl; try done. unfold learn. by repeat case_match. Qed.

Lemma ops_inv ops s : candidates_inv s → candidates_inv (fold_left apply_op ops s) ∧
  policy (fold_left apply_op ops s) = policy s.
Proof.
  revert s. induction ops as [|op ops IH]; intros s Hinv; simpl; [done|].
  destruct (IH (apply_op s op) (op_inv _ _ Hinv)) as [? ->]. split; [done|apply op_policy].
Qed.

Lemma no_candidates_inv p : candidates_inv (with_policy p).
Proof. constructor; simpl; [constructor|lia|unfold count_if; simpl; lia|constructor]. Qed.

(** ** Lemmas: exploration counters *)

(** The addresses with their counters, which the timing operations leave alone. *)
Definition counters (s : SessionCandidates) : list (SocketAddrV4 * N) :=
  map (λ c, (c_addr c, explorations c)) (entries s).

Definition counter_of (a : SocketAddrV4) (v : list (SocketAddrV4 * N)) : N :=
  match find (λ ax, bool_decide (ax.1 = a)) v with Some ax => ax.2 | None => 0 end.

Lemma explorations_of_counters s a : explorations_of s a = counter_of a (counters s).
Proof.
  unfold explorations_of, counter_of, counters, find_addr. induction (entries s) as [|c l IH]; simpl; [done|].
  by case_bool_decide.
Qed.

Lemma all_counters s : all s = (counters s).*1.
Proof. unfold all, counters. change (@map ?A ?B) with (@fmap list _ A B). by rewrite <-list_fmap_compose. Qed.

Lemma counters_update s a f : (∀ c, c_addr (f c) = c_addr c) →
  (∀ c, explorations (f c) = explorations c) →
  counters (set_entries s (update_addr a f (entries s))) = counters s.
Proof. intros Ha He. apply update_addr_map. intros c. by rewrite Ha, He. Qed.

Lemma counters_attempting s a t : counters (attempting s a t) = counters s.
Proof. by apply counters_update. Qed.

Lemma counters_failed s a t : counters (failed s a t) = counters s.
Proof. by apply counters_update. Qed.

Lemma counters_admitted s a : counters (admitted s a) = counters (explored s a).
Proof. by apply (counters_update (explored s a)). Qed.

Lemma counters_learn_known s a k now : a ∈ all s → counters (learn s a k now) = counters s.
Proof.
  intros Ha. unfold learn. case_match; [done|]. destruct (find_addr a (entries s)) eqn:E.
  - by apply counters_update.
  - by apply find_addr_None in E.
Qed.

(** [explored] on the counters. *)
Fixpoint bump (a : SocketAddrV4) (v : list (SocketAddrV4 * N)) : list (SocketAddrV4 * N) :=
  match v with
  | [] => []
  | (b, x) :: r => if decide (b = a) then (b, saturating_add x 1) :: r else (b, x) :: bump a r
  end.

Lemma counters_explored s a : counters (explored s a) = bump a (counters s).
Proof.
  unfold explored, counters. simpl. induction (entries s) as [|c l IH]; simpl; [done|].
  case_decide; simpl; [done|by rewrite IH].
Qed.

Lemma bump_fst a v : (bump a v).*1 = v.*1.
Proof. induction v as [|[b x] v IH]; [done|]. cbn [bump]. case_decide; [done|]. cbn. by rewrite IH. Qed.

Lemma counter_of_bump a c v : a ≠ c → counter_of c (bump a v) = counter_of c v.
Proof.
  intros Hac. unfold counter_of. induction v as [|[b x] v IH]; simpl; [done|].
  case_decide; subst; simpl; repeat case_bool_decide; subst; done.
Qed.

(** How many completed opportunities of others can still precede one of [c]. *)
Definition deficit (c : SocketAddrV4) (v : list (SocketAddrV4 * N)) : N :=
  foldr (λ ax acc, (if decide (ax.1 = c) then acc else (counter_of c v + 1 - ax.2) + acc)%N) 0%N v.

Definition deficit_at (c : SocketAddrV4) (e : N) (v : list (SocketAddrV4 * N)) : N :=
  foldr (λ ax acc, (if decide (ax.1 = c) then acc else (e + 1 - ax.2) + acc)%N) 0%N v.

Lemma deficit_at_bump c e a v : a ≠ c → (e < u64_max)%N →
  (deficit_at c e (bump a v) ≤ deficit_at c e v)%N ∧
  (a ∈ v.*1 → (counter_of a v ≤ e)%N → (deficit_at c e (bump a v) < deficit_at c e v)%N).
Proof.
  intros Hac He. unfold counter_of. induction v as [|[b x] v IH]; simpl.
  { split; [lia|]. by intros ?%not_elem_of_nil. }
  destruct (decide (b = a)) as [->|Hb]; simpl.
  - rewrite (decide_False (P := a = c)), bool_decide_true by done. cbn [snd].
    unfold saturating_add. rewrite (decide_False (P := a = c)) by done. lia.
  - rewrite bool_decide_false by done. destruct IH as [IH1 IH2].
    split; [case_decide; lia|]. intros [?|Ha]%elem_of_cons; [done|]. intros Hx.
    specialize (IH2 Ha Hx). case_decide; lia.
Qed.

Lemma deficit_bump c a v : a ≠ c → (counter_of c v < u64_max)%N →
  (deficit c (bump a v) ≤ deficit c v)%N ∧
  (a ∈ v.*1 → (counter_of a v ≤ counter_of c v)%N → (deficit c (bump a v) < deficit c v)%N).
Proof.
  intros Hac He. change (deficit c v) with (deficit_at c (counter_of c v) v).
  change (deficit c (bump a v)) with (deficit_at c (counter_of c (bump a v)) (bump a v)).
  rewrite counter_of_bump by done. by apply deficit_at_bump.
Qed.

(** ** Lemmas: the dial loop *)

Lemma spawn_loop_spec held peers m cohort now addrs s tasks pending s' pending' dials :
  spawn_loop held peers m cohort now addrs s tasks pending = (s', pending', dials) →
  counters s' = counters s ∧ (candidates_inv s → candidates_inv s') ∧
  pending' = list_to_set dials.*1 ∪ pending ∧ NoDup dials.*1 ∧
  length dials ≤ m - tasks ∧ size pending' ≤ size pending + (m - size pending) ∧
  Forall (λ a, a ∈ addrs ∧ Some (explorations_of s a) = cohort ∧ held ≠ Some a ∧ a ∉ peers ∧
    a ∉ pending) dials.*1.
Proof.
  revert s tasks pending s' pending' dials.
  induction addrs as [|a addrs IH]; intros s tasks pending s' pending' dials; cbn [spawn_loop].
  { intros [= <- <- <-]. split_and!; [done|done|set_solver|constructor|simpl; lia|lia|constructor]. }
  assert (∀ dials : list (SocketAddrV4 * bool), Forall (λ x, x ∈ addrs ∧ Some (explorations_of s x) = cohort ∧
      held ≠ Some x ∧ x ∉ peers ∧ x ∉ pending) dials.*1 →
    Forall (λ x, x ∈ a :: addrs ∧ Some (explorations_of s x) = cohort ∧ held ≠ Some x ∧
      x ∉ peers ∧ x ∉ pending) dials.*1) as Hweak.
  { intros ds HF. eapply Forall_impl; [exact HF|]. set_solver. }
  case_bool_decide as Hc; cbn [negb]; [|intros H; destruct (IH _ _ _ _ _ _ H); naive_solver].
  destruct (bool_decide (m ≤ tasks)) eqn:Ht; cbn [orb].
  { intros [= <- <- <-]. split_and!; [done|done|set_solver|constructor|simpl; lia|lia|constructor]. }
  destruct (bool_decide (m ≤ size pending)) eqn:Hp.
  { intros [= <- <- <-]. split_and!; [done|done|set_solver|constructor|simpl; lia|lia|constructor]. }
  apply bool_decide_eq_false in Ht, Hp.
  destruct (bool_decide (held = Some a) || _ || _) eqn:Hskip;
    [intros H; destruct (IH _ _ _ _ _ _ H); naive_solver|].
  apply orb_false_iff in Hskip as [[Hh%bool_decide_eq_false Hpe%bool_decide_eq_false]%orb_false_iff
    Hpd%bool_decide_eq_false].
  destruct (spawn_loop _ _ _ _ _ addrs _ _ _) as [[s1 p1] d1] eqn:E.
  intros [= <- <- <-]. apply IH in E as (Hcs & Hi & -> & Hnd & Hl & Hsz & HF). clear IH.
  rewrite counters_attempting in Hcs. rewrite (size_union {[a]} pending), size_singleton in Hsz by set_solver.
  cbn [fmap list_fmap fst length list_to_set]. split_and!.
  - done.
  - intros Hs. apply Hi. by apply inv_update.
  - set_solver.
  - constructor; [|done]. intros Hin. rewrite Forall_forall in HF. apply HF in Hin as (_ & _ & _ & _ & Hin). set_solver.
  - lia.
  - lia.
  - constructor; [split_and!; [by left|done..]|]. eapply Forall_impl; [exact HF|].
    intros x (H1 & H2 & H3 & H4 & H5).
    rewrite explorations_of_counters, counters_attempting, <-explorations_of_counters in H2.
    split_and!; [by right|done|done|done|set_solver].
Qed.

Lemma elem_of_eligible s now a :
  a ∈ eligible s now ↔ ∃ c, c ∈ entries s ∧ c_addr c = a ∧ (retry_at c ≤ now)%N.
Proof.
  unfold eligible. rewrite elem_of_map. setoid_rewrite elem_of_sort_by.
  setoid_rewrite In_filter_elem. setoid_rewrite N.leb_le. naive_solver.
Qed.

Lemma list_min_spec l :
  match list_min l with
  | Some x => x ∈ l ∧ ∀ y, y ∈ l → (x ≤ y)%N
  | None => l = []
  end.
Proof. apply (min_by_key_spec id). Qed.

Lemma find_entry s c : NoDup (all s) → c ∈ entries s → find_addr (c_addr c) (entries s) = Some c.
Proof.
  unfold all, find_addr. induction (entries s) as [|d l IH]; simpl; [by intros _ ?%not_elem_of_nil|].
  intros [Hd Hn]%NoDup_cons [->|Hc]%elem_of_cons; [by rewrite bool_decide_true|].
  rewrite bool_decide_false; [auto|]. intros E. apply Hd. rewrite E. apply elem_of_map. eauto.
Qed.

(** A candidate that could be dialed now bounds the cohort from above. *)
Lemma cohort_le s now active pending c m : c ∈ entries s → c_addr c ∉ active → (retry_at c ≤ now)%N →
  exploration_cohort s now active pending = Some m → (m ≤ explorations c)%N.
Proof.
  intros Hc Ha Hr. unfold exploration_cohort. pose proof (list_min_spec (map explorations
    (List.filter (λ c, negb (bool_decide (c_addr c ∈ active)) &&
      ((retry_at c <=? now)%N || bool_decide (c_addr c ∈ pending))) (entries s)))) as Hm.
  intros E. rewrite E in Hm. apply Hm, elem_of_map. exists c. split; [done|].
  apply In_filter_elem. split; [done|]. rewrite bool_decide_false by done. simpl.
  by rewrite (proj2 (N.leb_le _ _) Hr).
Qed.

(** With nothing pending, the cohort is that of a candidate that can be dialed now. *)
Lemma cohort_attained s now active c : c ∈ entries s → c_addr c ∉ active → (retry_at c ≤ now)%N →
  ∃ d, d ∈ entries s ∧ c_addr d ∉ active ∧ (retry_at d ≤ now)%N ∧
    exploration_cohort s now active ∅ = Some (explorations d).
Proof.
  intros Hc Ha Hr. unfold exploration_cohort. set (L := List.filter _ (entries s)).
  assert (c ∈ L) as HcL.
  { unfold L. apply In_filter_elem. split; [done|]. rewrite bool_decide_false by done.
    simpl. by rewrite (proj2 (N.leb_le _ _) Hr). }
  pose proof (list_min_spec (map explorations L)) as Hm.
  destruct (list_min (map explorations L)) as [m|].
  - destruct Hm as [(d & -> & [Hd Hf]%In_filter_elem)%elem_of_map _].
    apply andb_true_iff in Hf as [Hf1%negb_true_iff%bool_decide_eq_false Hf2].
    apply orb_true_iff in Hf2 as [?%N.leb_le|Hf2%bool_decide_eq_true]; [|set_solver]. eauto 10.
  - apply (f_equal length) in Hm. rewrite length_map in Hm. destruct L; [|done].
    by apply not_elem_of_nil in HcL.
Qed.

Lemma spawn_loop_progress held peers m cohort now addrs s a :
  0 < m → a ∈ addrs → Some (explorations_of s a) = cohort → held ≠ Some a → a ∉ peers →
  (spawn_loop held peers m cohort now addrs s 0 ∅).2 ≠ [].
Proof.
  intros Hm Hin Hco Hh Hp. induction addrs as [|b addrs IH]; [by apply not_elem_of_nil in Hin|].
  cbn [spawn_loop]. case_bool_decide as Hc; cbn [negb].
  2: { apply IH. apply elem_of_cons in Hin as [->|]; [done|done]. }
  rewrite (bool_decide_false (m ≤ 0)), (bool_decide_false (m ≤ size ∅)) by (rewrite ?size_empty; lia).
  cbn [orb]. destruct (bool_decide (held = Some b) || _ || _) eqn:Hskip.
  - apply IH. apply elem_of_cons in Hin as [->|]; [|done].
    exfalso. apply orb_true_iff in Hskip as [[H%bool_decide_eq_true|H%bool_decide_eq_true]%orb_true_iff
      |H%bool_decide_eq_true]; [done|done|set_solver].
  - clear IH. cbv zeta. by destruct (spawn_loop _ _ _ _ _ addrs _ _ _) as [[? ?] ?].
Qed.

(** The addresses a call treats as active. *)
Definition active_set (held : option SocketAddrV4) (peers : list SocketAddrV4) : gset SocketAddrV4 :=
  list_to_set (peers ++ option_list held).

Lemma not_active held peers a : a ∉ active_set held peers ↔ held ≠ Some a ∧ a ∉ peers.
Proof.
  unfold active_set. rewrite elem_of_list_to_set, elem_of_app. destruct held as [b|]; simpl.
  - rewrite list_elem_of_singleton. split; [|intros [H1 H2] [?|?]; congruence].
    intros H. split; [intros [= ->]; auto|auto].
  - split; [auto|]. intros [_ H] [?|?%not_elem_of_nil]; auto.
Qed.

Lemma eligible_learned_sub s now a : a ∈ eligible_learned s now → a ∈ eligible s now.
Proof.
  rewrite elem_of_eligible. unfold eligible_learned, eligible_kind. rewrite elem_of_map.
  setoid_rewrite elem_of_sort_by. setoid_rewrite In_filter_elem.
  intros (c & -> & Hc & [Hr%N.leb_le _]%andb_true_iff). eauto.
Qed.

Lemma spawn_spec held s peers m tasks pending incl now s' pending' dials :
  spawn_candidate_connects held s peers m tasks pending incl now = (s', pending', dials) →
  candidates_inv s →
  counters s' = counters s ∧ candidates_inv s' ∧ pending' = list_to_set dials.*1 ∪ pending ∧
  NoDup dials.*1 ∧ length dials ≤ m - tasks ∧ size pending' ≤ max m (size pending) ∧
  Forall (λ a, a ∈ eligible s now ∧ a ∉ active_set held peers ∧ a ∉ pending ∧
    ∀ c, c ∈ entries s → c_addr c ∉ active_set held peers → (retry_at c ≤ now)%N →
      (explorations_of s a ≤ explorations c)%N) dials.*1.
Proof.
  unfold spawn_candidate_connects. destruct (learned_counts s) as [sources pex].
  case_match.
  { intros [= <- <- <-] Hi. split_and!; [done|done|set_solver|constructor|simpl; lia|lia|constructor]. }
  fold (active_set held peers). intros E Hi.
  apply spawn_loop_spec in E as (H1 & H2 & H3 & H4 & H5 & H6 & HF).
  split_and!; [done|auto|done|done|done|lia|].
  eapply Forall_impl; [exact HF|]. intros a (Ha & Hc & Hh & Hp & Hpd). split_and!.
  - destruct incl; [done|by apply eligible_learned_sub].
  - by apply not_active.
  - done.
  - intros c Hce Hca Hr. eapply cohort_le; eauto.
Qed.

(** ** Rounds of dialing *)

(** How an opportunity given to a peer ends: admitted into the pool, connected but of no use, or
    failed. *)
Inductive Outcome : Type := Admitted_ | Stale_ | Failed_ (now : N).

Definition complete (s : SessionCandidates) (a : SocketAddrV4) (o : Outcome) : SessionCandidates :=
  match o with
  | Admitted_ => admitted s a
  | Stale_ => explored s a
  | Failed_ now => failed (explored s a) a now
  end.

Definition complete_all (s : SessionCandidates) (dials : list SocketAddrV4)
    (o : SocketAddrV4 → Outcome) : SessionCandidates :=
  fold_left (λ s a, complete s a (o a)) dials s.

(** What may happen between two rounds while [c] waits: anything but real output (which resets
    the counters), an opportunity of [c] itself, or an address not seen before. *)
Definition quiet (c : SocketAddrV4) (s : SessionCandidates) (op : CandidateOp) : Prop :=
  match op with
  | OpExplored a | OpAdmitted a => a ≠ c
  | OpAttempting _ _ | OpFailed _ _ | OpRefresh _ _ => True
  | OpLearn a _ _ => a ∈ all s
  | OpProductive _ _ => False
  end.

(** [starved c n s s']: from [s] to [s'] there were [n] rounds of dialing, with other operations in
    between; at each round [c] could have been dialed, and it never was. *)
Inductive starved (c : SocketAddrV4) : nat → SessionCandidates → SessionCandidates → Prop :=
  | starved_refl s : starved c 0 s s
  | starved_quiet n s op s' : quiet c s op → starved c n (apply_op s op) s' → starved c n s s'
  | starved_round n s held peers max_parallel now s1 pending dials o s' :
      0 < max_parallel →
      c ∈ eligible s now → c ∉ active_set held peers →
      spawn_candidate_connects held s peers max_parallel 0 ∅ true now = (s1, pending, dials) →
      c ∉ dials.*1 →
      starved c n (complete_all s1 dials.*1 o) s' →
      starved c (S n) s s'.

Lemma complete_counters s a o : counters (complete s a o) = bump a (counters s).
Proof.
  destruct o; simpl; [rewrite counters_admitted|..|rewrite counters_failed]; apply counters_explored.
Qed.

Lemma complete_inv s a o : candidates_inv s → candidates_inv (complete s a o).
Proof. destruct o; simpl; intros; unfold admitted, explored, failed; by repeat apply inv_update. Qed.

Lemma complete_all_counters s dials o :
  counters (complete_all s dials o) = fold_left (λ v a, bump a v) dials (counters s).
Proof.
  revert s. induction dials as [|a dials IH]; intros s; simpl; [done|].
  unfold complete_all in *. by rewrite IH, complete_counters.
Qed.

Lemma complete_all_inv s dials o : candidates_inv s → candidates_inv (complete_all s dials o).
Proof.
  revert s. induction dials as [|a dials IH]; intros s Hs; simpl; [done|].
  apply IH. by apply complete_inv.
Qed.

Lemma bumps_deficit c dials v : c ∉ dials → (counter_of c v < u64_max)%N →
  let v' := fold_left (λ v a, bump a v) dials v in
  (deficit c v' ≤ deficit c v)%N ∧ counter_of c v' = counter_of c v ∧ v'.*1 = v.*1.
Proof.
  revert v. induction dials as [|a dials IH]; intros v Hn Hc; simpl; [done|].
  apply not_elem_of_cons in Hn as [Ha Hn].
  destruct (IH (bump a v) Hn) as (H1 & H2 & H3); [by rewrite counter_of_bump|].
  rewrite H2, H3, bump_fst, counter_of_bump by done.
  pose proof (proj1 (deficit_bump c a v (not_eq_sym Ha) Hc)). split_and!; [lia|done|done].
Qed.

Lemma quiet_counters c s op : quiet c s op →
  counters (apply_op s op) = counters s ∨
  ∃ a, a ≠ c ∧ counters (apply_op s op) = bump a (counters s).
Proof.
  destruct op; simpl; try done.
  - left. by apply counters_learn_known.
  - right. eexists. split; [done|apply counters_explored].
  - right. eexists. split; [done|]. rewrite counters_admitted. apply counters_explored.
  - left. apply counters_attempting.
  - left. apply counters_failed.
  - left. by apply counters_update.
Qed.

(** A round that leaves [c] waiting gives at least one opportunity to a candidate explored no
    more often than [c]. *)
Lemma round_progress c s held peers m now s1 pending dials o :
  candidates_inv s → (counter_of c (counters s) < u64_max)%N → 0 < m →
  c ∈ eligible s now → c ∉ active_set held peers →
  spawn_candidate_connects held s peers m 0 ∅ true now = (s1, pending, dials) → c ∉ dials.*1 →
  let v := counters (complete_all s1 dials.*1 o) in
  (deficit c v < deficit c (counters s))%N ∧ counter_of c v = counter_of c (counters s).
Proof.
  intros Hi Hc Hm Hel Hact E Hn v.
  pose proof (spawn_spec _ _ _ _ _ _ _ _ _ _ _ E Hi) as (Hcs & _ & _ & _ & _ & _ & HF).
  apply elem_of_eligible in Hel as (cc & Hcc & <- & Hr).
  assert (dials ≠ []) as Hne.
  { destruct (cohort_attained s now _ cc Hcc Hact Hr) as (d & Hd & Hda & Hdr & Hco).
    pose proof (find_entry s d (inv_nodup _ Hi) Hd) as Hfd.
    pose proof (spawn_loop_progress held peers m (exploration_cohort s now (active_set held peers) ∅)
      now (eligible s now) s (c_addr d) Hm) as Hpr.
    apply not_active in Hda as [Hh Hp].
    replace (spawn_loop _ _ _ _ _ _ _ _ _) with (s1, pending, dials) in Hpr.
    apply Hpr; [|by rewrite Hco; unfold explorations_of; rewrite Hfd|done|done].
    apply elem_of_eligible. eauto. }
  unfold v. rewrite complete_all_counters, Hcs.
  destruct dials as [|[a disc] dials]; [done|]. cbn [fmap list_fmap fst fold_left] in *.
  apply not_elem_of_cons in Hn as [Ha Hn].
  apply Forall_cons in HF as [(Hae & _ & _ & Hmin) _].
  destruct (deficit_bump (c_addr cc) a (counters s) (not_eq_sym Ha) Hc) as [_ Hlt].
  destruct (bumps_deficit (c_addr cc) dials.*1 (bump a (counters s)) Hn) as (H1 & H2 & _);
    [by rewrite counter_of_bump|].
  rewrite counter_of_bump in H2 by done. split; [|done].
  eapply N.le_lt_trans; [exact H1|]. apply Hlt.
  - rewrite <-all_counters. apply elem_of_eligible in Hae as (d & Hd & <- & _).
    apply elem_of_map. eauto.
  - rewrite <-!explorations_of_counters. etransitivity; [by apply Hmin|].
    unfold explorations_of. by rewrite (find_entry s cc (inv_nodup _ Hi) Hcc).
Qed.

(** ** Properties *)

(** whatever a session does with its candidates, in any order, the list stays bounded and
    clean: no address twice, at most 1024 entries, at most 8 of them with source priority, and
    every one a unicast endpoint with a port that the peer policy permits. *)
Theorem candidates_bounded p ops :
  let s := fold_left apply_op ops (with_policy p) in
  NoDup (all s) ∧ length (entries s) ≤ MAX_CANDIDATES ∧ (learned_counts s).1 ≤ MAX_SOURCES ∧
  ∀ a, a ∈ all s → permits p a = true ∧ refused_endpoint a = false.
Proof.
  intros s. destruct (ops_inv ops _ (no_candidates_inv p)) as [[H1 H2 H3 H4] Hp]. fold s in H1, H2, H3, H4, Hp.
  split_and!; [done|done|done|]. intros a Ha. rewrite Forall_forall in H4.
  rewrite <-(Hp : policy s = p). auto.
Qed.

(** C37: the dials a session starts.  From any reachable list, whatever runs or is pending, the
    dials go to distinct permitted endpoints that are out of cooldown, neither running nor already
    pending, to no more than the free parallel slots, and only to candidates explored no more
    often than every other candidate that could be dialed. *)
Theorem dials_safe p ops held peers max_parallel tasks pending incl now s' pending' dials :
  spawn_candidate_connects held (fold_left apply_op ops (with_policy p)) peers max_parallel tasks
    pending incl now = (s', pending', dials) →
  let s := fold_left apply_op ops (with_policy p) in
  NoDup dials.*1 ∧ length dials ≤ max_parallel - tasks ∧
  size pending' ≤ max max_parallel (size pending) ∧
  ∀ a, a ∈ dials.*1 →
    permits p a = true ∧ a ∈ eligible s now ∧ held ≠ Some a ∧ a ∉ peers ∧ a ∉ pending ∧
    a ∈ pending' ∧
    ∀ c, c ∈ entries s → c_addr c ∉ peers → held ≠ Some (c_addr c) → (retry_at c ≤ now)%N →
      (explorations_of s a ≤ explorations c)%N.
Proof.
  intros E s. destruct (ops_inv ops _ (no_candidates_inv p)) as [Hi Hp]. fold s in Hi, Hp.
  apply spawn_spec in E as (_ & _ & -> & H4 & H5 & H6 & HF); [|done].
  split_and!; [done|done|done|]. intros a Ha. pose proof Ha as Ha'.
  rewrite Forall_forall in HF. apply HF in Ha as (He & [Hh Hpe]%not_active & Hpd & Hmin).
  split_and!; [|done|done|done|done|set_solver|].
  - apply elem_of_eligible in He as (c & Hc & <- & _). rewrite <-(Hp : policy s = p).
    pose proof (inv_usable _ Hi) as Hu. rewrite Forall_forall in Hu. apply Hu, elem_of_map. eauto.
  - intros c Hc Hcp Hch Hr. apply Hmin; [done| |done]. by apply not_active.
Qed.

Definition loopback (p : N) : SocketAddrV4 := mkSocketAddrV4 (map N_byte [127; 0; 0; 1]%N) p.

Lemma dials_safe_witness :
  let ops := [OpLearn (loopback 1) Discovered 0; OpLearn (loopback 2) Pex 0; OpExplored (loopback 2)] in
  let s := fold_left apply_op ops (with_policy PeerPolicy_default) in
  let r := spawn_candidate_connects None s [] 4 0 ∅ true 5 in
  r.2 = [(loopback 1, true)] ∧ length r.2 ≤ 4 - 0.
Proof.
  intros ops s r. split; [vm_compute; reflexivity|].
  destruct r as [[s' pending'] dials] eqn:E.
  exact (proj1 (proj2 (dials_safe PeerPolicy_default ops None [] 4 0 ∅ true 5 s' pending' dials E))).
Defined.

(** no candidate starves.  As long as a known candidate is out of cooldown and not running at
    every round, the rounds that pass without dialing it are at most its deficit, the
    opportunities the others are behind it; cooldowns, failures, repeated announcements and
    outcomes of other peers in between do not matter. *)
Theorem candidate_not_starved c n s s' :
  candidates_inv s → (explorations_of s c < u64_max)%N → starved c n s s' →
  (N.of_nat n ≤ deficit c (counters s))%N.
Proof.
  rewrite explorations_of_counters. intros Hi Hc Hs. revert Hi Hc.
  induction Hs as [s|n s op s' Hq _ IH|n s held peers m now s1 pending dials o s' Hm Hel Hact E Hn _ IH];
    intros Hi Hc; [lia|..].
  - specialize (IH (op_inv _ _ Hi)).
    destruct (quiet_counters _ _ _ Hq) as [Ev|(a & Ha & Ev)]; rewrite Ev in IH; [auto|].
    rewrite counter_of_bump in IH by done. etransitivity; [by apply IH|]. by apply deficit_bump.
  - destruct (round_progress _ _ _ _ _ _ _ _ _ o Hi Hc Hm Hel Hact E Hn) as [Hlt Heq].
    pose proof (spawn_spec _ _ _ _ _ _ _ _ _ _ _ E Hi) as (_ & Hi1 & _).
    specialize (IH (complete_all_inv _ _ _ Hi1)). rewrite Heq in IH. specialize (IH Hc). lia.
Qed.

(** One round starves port 1 (explored once) in favour of port 2; its deficit is 2. *)
Lemma candidate_not_starved_witness :
  let s := fold_left apply_op [OpLearn (loopback 1) Discovered 0; OpLearn (loopback 2) Pex 0;
    OpExplored (loopback 1)] (with_policy PeerPolicy_default) in
  (∃ s', starved (loopback 1) 1 s s') ∧ (N.of_nat 1 ≤ deficit (loopback 1) (counters s))%N.
Proof.
  intros s.
  assert (∃ s', starved (loopback 1) 1 s s') as [s' Hs'].
  { destruct (spawn_candidate_connects None s [] 1 0 ∅ true 5) as [[s1 pending] dials] eqn:E.
    assert ((spawn_candidate_connects None s [] 1 0 ∅ true 5).2 = [(loopback 2, false)]) as Hd
      by (vm_compute; reflexivity). rewrite E in Hd. cbn in Hd. subst dials.
    eexists. eapply (starved_round (loopback 1) 0 s None [] 1 5 _ _ _ (λ _, Stale_));
      [lia|apply (bool_decide_eq_true_1 _); vm_compute; reflexivity|set_solver|exact E
      |apply (bool_decide_eq_true_1 _); vm_compute; reflexivity|apply starved_refl]. }
  split; [by exists s'|].
  apply (candidate_not_starved (loopback 1) 1 s s'); [|vm_compute; reflexivity|done].
  apply ops_inv, no_candidates_inv.
Defined.
