(* ===== verification/WarmPeers.v ===== *)
(** * The warm peer cache

    [ace-swarm/src/live_session/warm_peers.rs]: a bounded cache of the peers that recently produced
    authenticated output, its snapshot format and its reader.  A [[u8; 20]] swarm hash is the
    number with those big-endian digits, which has the same order as the byte array; the readings
    of the clock (seconds) are arguments.  The [hex] crate is an interface.  The writer thread and
    the file itself are not modelled: [snapshot] is the text it writes, [load] what it does with
    the text it read. *)

From S2P Require Import Prelude Order Bytes BTree Net PeerPolicy Candidates.

(** What the code uses of the [hex] crate. *)
Class Hex : Type := {
  hex_encode : bytes → bytes;
  hex_decode_to_slice : nat → bytes → option bytes;
}.

Definition is_hex_char (b : byte) : bool :=
  is_ascii_digit b || in_range b 97 102.

Class HexLaws `{Hex} : Prop := {
  hex_decode_encode l : hex_decode_to_slice (length l) (hex_encode l) = Some l;
  hex_decode_length n l r : hex_decode_to_slice n l = Some r → length r = n;
  hex_encode_length l : length (hex_encode l) = 2 * length l;
  hex_encode_chars l : forallb is_hex_char (hex_encode l) = true;
}.

Definition TTL : N := 300.
Definition MAX_BYTES : N := 256 * 1024.
Definition MAX_SWARMS : nat := 256.
Definition MAX_ROWS : N := 3000.
Definition HEADER : bytes := bs "OUTPACE-WARM-1" ++ [x0a].

Record Entry : Type := mkEntry { e_addr : SocketAddrV4; source : bool; at_ : N }.

Abbreviation Cache := (gmap N (list Entry)).

Record State : Type := mkState {
  warm : Cache;
  revision : N;
  persisted : N;
  loaded : bool;
  flush : bool;
  stop : bool;
}.

Definition State_default : State := mkState ∅ 0 0 false false false.

Definition endpoint_allowed (a : SocketAddrV4) (allow_loopback : bool) : bool :=
  let o0 := octet (ip a) 0 in
  let o1 := octet (ip a) 1 in
  negb (port a =? 0)%N &&
  ((allow_loopback && is_loopback (ip a)) ||
   negb (is_private_ip (ip a) || is_loopback (ip a) || is_link_local (ip a) ||
         is_broadcast (ip a) || is_documentation (ip a) || is_unspecified (ip a) ||
         is_multicast (ip a) || (o0 =? 0)%N || (240 <=? o0)%N ||
         ((o0 =? 100) && (64 <=? o1) && (o1 <=? 127))%N ||
         ((o0 =? 198) && (18 <=? o1) && (o1 <=? 19))%N)).

Definition fresh (time : N) (e : Entry) : bool := ((at_ e <=? time) && (time - at_ e <=? TTL))%N.

(** [retain] of the fresh peers, and of the swarms that still have some. *)
Definition prune (m : Cache) (time : N) : Cache :=
  omap (λ peers, let peers := List.filter (fresh time) peers in
                 if decide (peers = []) then None else Some peers) m.

Definition newest (peers : list Entry) : N := default 0%N (list_max (map at_ peers)).

(** A new swarm at the limit displaces the one whose newest entry is oldest. *)
Definition evict_swarm (m : Cache) (hash : N) : Cache :=
  if bool_decide (m !! hash = None) && bool_decide (MAX_SWARMS ≤ size m) then
    match min_by_key (λ kp : N * list Entry, newest kp.2) (BTree.entries m) with
    | Some (old, _) => delete old m
    | None => m
    end
  else m.

Definition rows (m : Cache) : list (N * nat * N) :=
  concat (map (λ kp : N * list Entry, imap (λ i e, (kp.1, i, at_ e)) kp.2) (BTree.entries m)).

Definition row_count (m : Cache) : N := sum_values lenN m.

(** A new row at the limit displaces the oldest row of all. *)
Definition evict_row (m : Cache) : Cache :=
  if (MAX_ROWS <=? row_count m)%N then
    match min_by_key (λ r : N * nat * N, r.2) (rows m) with
    | Some (old_hash, index, _) =>
        let peers := remove_index index (default [] (m !! old_hash)) in
        if decide (peers = []) then delete old_hash m else <[old_hash := peers]> m
    | None => m
    end
  else m.

(** The index of the oldest entry satisfying [f], the first of several. *)
Definition oldest_index (f : Entry → bool) (peers : list Entry) : option nat :=
  fst <$> min_by_key (λ ie : nat * Entry, at_ ie.2)
            (List.filter (λ ie : nat * Entry, f ie.2) (imap pair peers)).

Definition remove_oldest (f : Entry → bool) (peers : list Entry) : list Entry :=
  match oldest_index f peers with Some i => remove_index i peers | None => peers end.

Definition addr_index (a : SocketAddrV4) (peers : list Entry) : option nat :=
  fst <$> list_find (λ e, e_addr e = a) peers.

(** The end of [insert]: the entry in the list of its swarm. *)
Definition push_entry (peers : list Entry) (e : Entry) : list Entry :=
  let peers := match addr_index (e_addr e) peers with
               | Some i => remove_index i peers | None => peers end in
  let peers := if source e && bool_decide (8 ≤ count_if source peers)
               then remove_oldest source peers else peers in
  let peers := if bool_decide (16 ≤ length peers) then remove_oldest (λ _, true) peers else peers in
  peers ++ [e].

Definition insert_entry (m : Cache) (hash : N) (e : Entry) (known : bool) : Cache :=
  let m := evict_swarm m hash in
  let m := if known then m else evict_row m in
  <[hash := push_entry (default [] (m !! hash)) e]> m.

Definition insert (m : Cache) (time : N) (hash : N) (e : Entry) : Cache :=
  let m := prune m time in
  match m !! hash ≫= find (λ old, bool_decide (e_addr old = e_addr e)) with
  | Some old =>
      if (at_ e <? at_ old)%N then m
      else insert_entry m hash (mkEntry (e_addr e) (source e || source old) (at_ e)) true
  | None => insert_entry m hash e false
  end.

(** [hints]: sources first, then the most recent. *)
Definition hint_leb (a b : Entry) : bool :=
  if Bool.eqb (source a) (source b) then (at_ b <=? at_ a)%N else source a.

Definition hints (s : State) (hash time : N) : State * list (SocketAddrV4 * CandidateKind) :=
  let m := prune (warm s) time in
  (mkState m (revision s) (persisted s) (loaded s) (flush s) (stop s),
   map (λ e, (e_addr e, if source e then Source else Discovered))
     (sort_by hint_leb (default [] (m !! hash)))).

Definition record_productive (allow_loopback : bool) (s : State) (hash : N) (a : SocketAddrV4)
    (kind : CandidateKind) (at_now time : N) : State :=
  if negb (endpoint_allowed a allow_loopback) then s
  else mkState (insert (warm s) time hash (mkEntry a (bool_decide (kind = Source)) at_now))
         (u64_add (revision s) 1) (persisted s) (loaded s) (flush s) (stop s).

Definition request_flush (s : State) : State :=
  mkState (warm s) (revision s) (persisted s) (loaded s) true (stop s).

Section codec.
Context `{Hex}.

(** One line, without its newline. *)
Definition show_row (hash : N) (e : Entry) : bytes :=
  join x20 [hex_encode (be_bytes 20 hash); dec_N (at_ e); (if source e then [x53] else [x44]);
            show_ip (ip (e_addr e)); dec_N (port (e_addr e))].

(** The rows in the order they are written. *)
Definition flat (m : Cache) : list (N * Entry) :=
  concat (map (λ kp : N * list Entry, map (pair kp.1) kp.2) (BTree.entries m)).

Definition encode (m : Cache) : bytes :=
  HEADER ++ concat (map (λ he : N * Entry, show_row he.1 he.2 ++ [x0a]) (flat m)).

Definition parse_u16 (l : bytes) : option N := v ← parse_u64 l; if (v <? two16)%N then Some v else None.

(** The fields of one line; any other number of fields is refused. *)
Definition parse_row (line : bytes) (time : N) (allow_loopback : bool) : option (N * Entry) :=
  if negb (utf8_valid line) then None
  else match split_on x20 line with
  | [encoded; at_field; kind; ip_field; port_field] =>
      if negb (bool_decide (length encoded = 40)) then None
      else hash ← hex_decode_to_slice 20 encoded; at_value ← parse_u64 at_field;
        src ← (if decide (kind = [x53]) then Some true
               else if decide (kind = [x44]) then Some false else None);
        a ← parse_ipv4 ip_field; p ← parse_u16 port_field;
        let addr := mkSocketAddrV4 a p in
        if (time <? at_value)%N || (TTL <? time - at_value)%N ||
           negb (endpoint_allowed addr allow_loopback) then None
        else Some (be_N hash, mkEntry addr src at_value)
  | _ => None
  end.

(** The limits a row of a snapshot must respect. *)
Definition add_row (m : Cache) (hash : N) (e : Entry) : option Cache :=
  if bool_decide (m !! hash = None) && bool_decide (MAX_SWARMS ≤ size m) then None
  else
    let peers := default [] (m !! hash) in
    if bool_decide (16 ≤ length peers) || existsb (λ x, bool_decide (e_addr x = e_addr e)) peers ||
       (source e && bool_decide (8 ≤ count_if source peers))
    then None
    else Some (<[hash := peers ++ [e]]> m).

Fixpoint parse_lines (lines : list bytes) (n : N) (m : Cache) (time : N) (allow_loopback : bool)
    : option Cache :=
  match lines with
  | [] => Some m
  | line :: rest =>
      if decide (line = []) then parse_lines rest n m time allow_loopback
      else if bool_decide (128 < length line) || (MAX_ROWS <=? n)%N then None
      else
        '(hash, e) ← parse_row line time allow_loopback;
        m ← add_row m hash e;
        parse_lines rest (n + 1) m time allow_loopback
  end.

Definition parse (l : bytes) (time : N) (allow_loopback : bool) : option Cache :=
  if (MAX_BYTES <? lenN l)%N || negb (starts_with l HEADER) then None
  else parse_lines (split_on x0a (drop (length HEADER) l)) 0 ∅ time allow_loopback.

(** What the writer thread does first with the file it read ([None]: no readable file). *)
Definition load (allow_loopback : bool) (s : State) (file : option bytes) (parse_time time : N) : State :=
  let m := match file ≫= λ l, parse l parse_time allow_loopback with
    | Some loaded => fold_left (λ m he, insert m time he.1 he.2) (flat loaded) (warm s)
    | None => warm s
    end in
  mkState m (revision s) (persisted s) true (flush s) (stop s).

(** The text and revision of the next write. *)
Definition snapshot (s : State) (time : N) : State * bytes * N :=
  let m := prune (warm s) time in
  (mkState m (revision s) (persisted s) (loaded s) false (stop s), encode m, revision s).

Definition confirm_write (s : State) (rev : N) : State :=
  mkState (warm s) (revision s) rev (loaded s) (flush s) (stop s).
End codec.

(** ** The invariant *)

Definition entry_ok (al : bool) (e : Entry) : Prop :=
  endpoint_allowed (e_addr e) al = true ∧ valid_addr (e_addr e) ∧ (at_ e < two64)%N.

Record peers_ok (al : bool) (l : list Entry) : Prop := mkPeersOk {
  po_length : length l ≤ 16;
  po_nodup : NoDup (map e_addr l);
  po_sources : count_if source l ≤ 8;
  po_entries : Forall (entry_ok al) l;
}.

Definition hash_bound : N := 256 ^ 20.

Record warm_inv (al : bool) (m : Cache) : Prop := mkWarmInv {
  wi_size : size m ≤ MAX_SWARMS;
  wi_rows : (row_count m ≤ MAX_ROWS)%N;
  wi_peers : ∀ h l, m !! h = Some l → (h < hash_bound)%N ∧ l ≠ [] ∧ peers_ok al l;
}.

(** ** Lemmas: shrinking *)

Lemma peers_ok_sublist al l l' : l' `sublist_of` l → peers_ok al l → peers_ok al l'.
Proof.
  intros Hs [H1 H2 H3 H4]. constructor.
  - apply sublist_length in Hs. lia.
  - exact (sublist_NoDup _ _ H2 (fmap_sublist e_addr _ _ Hs)).
  - pose proof (count_if_sublist source _ _ Hs). lia.
  - apply Forall_forall. intros e He. rewrite Forall_forall in H4. apply H4. by eapply elem_of_sublist.
Qed.

(** [m'] has some of the rows of [m], each swarm in order. *)
Definition shrinks (m' m : Cache) : Prop :=
  ∀ h l', m' !! h = Some l' → l' ≠ [] ∧ ∃ l, m !! h = Some l ∧ l' `sublist_of` l.

Lemma shrinks_rows m' m : shrinks m' m → (row_count m' ≤ row_count m)%N.
Proof.
  unfold row_count. revert m. induction m' as [|h l' m' Hh IH] using map_ind; intros m Hs.
  { rewrite sum_values_empty. lia. }
  destruct (Hs h l') as (_ & l & Hl & Hsub); [by rewrite lookup_insert_eq|].
  rewrite sum_values_insert, delete_id, (sum_values_delete _ m h l) by done.
  apply sublist_length in Hsub. unfold lenN at 1 3.
  enough (sum_values lenN m' ≤ sum_values lenN (delete h m))%N by lia. apply IH.
  intros h' l1 Hl1. assert (h ≠ h') by congruence.
  destruct (Hs h' l1) as (? & l2 & ? & ?); [by rewrite lookup_insert_ne|].
  split; [done|]. exists l2. by rewrite lookup_delete_ne.
Qed.

Lemma shrinks_dom m' m : shrinks m' m → dom m' ⊆ dom m.
Proof. intros Hs h [l' Hl]%elem_of_dom. apply Hs in Hl as (_ & l & Hl & _). by apply elem_of_dom. Qed.

Lemma shrinks_size m' m : shrinks m' m → size m' ≤ size m.
Proof. intros Hs%shrinks_dom. rewrite <-!size_dom. by apply subseteq_size. Qed.

Lemma shrinks_size_lt m' m h : shrinks m' m → is_Some (m !! h) → m' !! h = None → size m' < size m.
Proof.
  intros Hs%shrinks_dom Hh Hn. rewrite <-!size_dom. apply subset_size. split; [done|].
  intros Hd. apply elem_of_dom in Hh. apply Hd in Hh. apply elem_of_dom in Hh as [? ?]. congruence.
Qed.

Lemma shrinks_inv al m' m : shrinks m' m → warm_inv al m → warm_inv al m'.
Proof.
  intros Hs [H1 H2 H3]. constructor.
  - pose proof (shrinks_size _ _ Hs). lia.
  - pose proof (shrinks_rows _ _ Hs). lia.
  - intros h l Hl. destruct (Hs h l Hl) as (Hne & l0 & Hl0 & Hsub).
    destruct (H3 _ _ Hl0) as (? & _ & ?). split_and!; [done|done|by eapply peers_ok_sublist].
Qed.

Lemma shrinks_delete m h : (∀ h l, m !! h = Some l → l ≠ []) → shrinks (delete h m) m.
Proof. intros Hm h' l' [Hne Hl]%lookup_delete_Some. split; [eauto|]. by exists l'. Qed.

Lemma prune_lookup m time h : prune m time !! h =
  m !! h ≫= λ l, let l := List.filter (fresh time) l in if decide (l = []) then None else Some l.
Proof. apply lookup_omap. Qed.

Lemma prune_shrinks m time : shrinks (prune m time) m.
Proof.
  intros h l'. rewrite prune_lookup. intros (l & Hl & H)%bind_Some. cbv zeta in H.
  case_decide; [done|]. injection H as <-. split; [done|]. exists l. split; [done|apply filter_sublist].
Qed.

Lemma prune_fresh m time h l : prune m time !! h = Some l → Forall (λ e, fresh time e = true) l.
Proof.
  rewrite prune_lookup. intros (l0 & _ & H)%bind_Some. cbv zeta in H. case_decide; [done|].
  injection H as <-. apply Forall_forall. intros e He%In_filter_elem. tauto.
Qed.

(** ** Lemmas: evictions *)

Lemma evict_swarm_spec al m hash : warm_inv al m →
  shrinks (evict_swarm m hash) m ∧ evict_swarm m hash !! hash = m !! hash ∧
  (m !! hash = None → size (evict_swarm m hash) < MAX_SWARMS) ∧
  (is_Some (m !! hash) → evict_swarm m hash = m).
Proof.
  intros Hi. assert (shrinks m m) as Hrefl.
  { intros h l Hl. split; [by eapply (wi_peers _ _ Hi)|]. by exists l. }
  unfold evict_swarm. case_bool_decide as Hn; cbn [andb].
  2: { split_and!; [done|done|done|done]. }
  case_bool_decide as Hs; [|split_and!; [done|done|lia|done]].
  pose proof (min_by_key_spec (λ kp : N * list Entry, newest kp.2) (BTree.entries m)) as Hm.
  destruct (min_by_key _ _) as [[old l]|].
  - destruct Hm as [Hin%elem_of_entries _]. assert (old ≠ hash) by congruence. split_and!.
    + apply shrinks_delete. intros h l' Hl'. by eapply (wi_peers _ _ Hi).
    + by rewrite lookup_delete_ne.
    + intros _. pose proof (wi_size _ _ Hi). pose proof (map_size_delete_lt m old ltac:(eauto)). lia.
    + intros [? ?]. congruence.
  - assert (m = ∅) as ->; [|rewrite map_size_empty in Hs; unfold MAX_SWARMS in Hs; lia].
    apply map_eq. intros h. rewrite lookup_empty. apply eq_None_not_Some. intros [l Hl].
    apply elem_of_entries in Hl. rewrite Hm in Hl. by apply not_elem_of_nil in Hl.
Qed.

Lemma elem_of_rows m h i t : (h, i, t) ∈ rows m → ∃ l e, m !! h = Some l ∧ l !! i = Some e.
Proof.
  unfold rows. rewrite elem_of_concat. intros (r & Hr & ([k l] & -> & Hkl%elem_of_entries)%elem_of_map).
  apply elem_of_lookup_imap in Hr as (i' & e & [= -> -> ->] & He). eauto.
Qed.

Lemma rows_nil al m : warm_inv al m → rows m = [] → m = ∅.
Proof.
  intros Hi Hr. apply map_eq. intros h. rewrite lookup_empty. apply eq_None_not_Some. intros [l Hl].
  destruct (wi_peers _ _ Hi _ _ Hl) as (_ & Hne & _). destruct l as [|e l]; [done|].
  assert ((h, 0, at_ e) ∈ rows m) as H; [|rewrite Hr in H; by apply not_elem_of_nil in H].
  unfold rows. apply elem_of_concat. eexists. split; [|apply elem_of_map; exists (h, e :: l); split;
    [done|by apply elem_of_entries]]. simpl. by left.
Qed.

Lemma evict_row_spec al m : warm_inv al m →
  shrinks (evict_row m) m ∧ (row_count (evict_row m) < MAX_ROWS)%N.
Proof.
  intros Hi. assert (shrinks m m) as Hrefl.
  { intros h l Hl. split; [by eapply (wi_peers _ _ Hi)|]. by exists l. }
  unfold evict_row. destruct (N.leb_spec MAX_ROWS (row_count m)) as [Hr|Hr]; [|done].
  pose proof (min_by_key_spec (λ r : N * nat * N, r.2) (rows m)) as Hm.
  destruct (min_by_key _ _) as [[[h i] t]|].
  2: { apply (rows_nil al) in Hm as ->; [|done]. unfold row_count, MAX_ROWS in Hr.
       rewrite sum_values_empty in Hr. lia. }
  destruct Hm as [(l & e & Hl & He)%elem_of_rows _]. rewrite Hl. cbn [default from_option id].
  pose proof (remove_index_length _ _ _ He) as Hlen. pose proof (wi_rows _ _ Hi) as Hle.
  unfold row_count in *. rewrite (sum_values_delete _ m h l Hl) in Hle. unfold lenN at 1 in Hle.
  cbv zeta. case_decide as Hnil.
  - split; [apply shrinks_delete; intros h' l' Hl'; by eapply (wi_peers _ _ Hi)|].
    rewrite Hnil in Hlen. simpl in Hlen. unfold MAX_ROWS in *. lia.
  - split.
    + intros h' l' [[<- <-]|[Hne Hl']]%lookup_insert_Some; [|by apply Hrefl].
      split; [done|]. exists l. split; [done|apply remove_index_sublist].
    + rewrite sum_values_insert. unfold lenN at 1. unfold MAX_ROWS in *. lia.
Qed.

(** ** Lemmas: insertion *)

Lemma oldest_index_spec f l :
  match oldest_index f l with
  | Some i => ∃ e, l !! i = Some e ∧ f e = true
  | None => count_if f l = 0
  end.
Proof.
  unfold oldest_index. set (L := List.filter _ _).
  assert (∀ i e, (i, e) ∈ L ↔ l !! i = Some e ∧ f e = true) as HL.
  { intros i e. unfold L. rewrite In_filter_elem, elem_of_lookup_imap. naive_solver. }
  pose proof (min_by_key_spec (λ ie : nat * Entry, at_ ie.2) L) as Hm.
  destruct (min_by_key _ L) as [[i e]|]; simpl.
  - exists e. apply HL. by destruct Hm.
  - unfold count_if. destruct (List.filter f l) as [|e r] eqn:E; [done|].
    assert (e ∈ List.filter f l) as [[i Hi]%list_elem_of_lookup Hf]%In_filter_elem
      by (rewrite E; by left).
    assert ((i, e) ∈ L) as H by by apply HL. rewrite Hm in H. by apply not_elem_of_nil in H.
Qed.

Lemma remove_oldest_sublist f l : remove_oldest f l `sublist_of` l.
Proof. unfold remove_oldest. case_match; [apply remove_index_sublist|done]. Qed.

Lemma remove_oldest_count f l : count_if f l ≠ 0 → S (count_if f (remove_oldest f l)) = count_if f l.
Proof.
  intros Hc. unfold remove_oldest. pose proof (oldest_index_spec f l) as Hs.
  destruct (oldest_index f l) as [i|]; [|done]. destruct Hs as (e & He & Hf).
  by eapply count_remove_index.
Qed.

Lemma count_if_true {A} (l : list A) : count_if (λ _, true) l = length l.
Proof. induction l as [|x l IH]; [done|]. rewrite count_if_cons, IH. done. Qed.

(** The swarm's list once an older row of the same address is gone. *)
Definition drop_addr (a : SocketAddrV4) (l : list Entry) : list Entry :=
  match addr_index a l with Some i => remove_index i l | None => l end.

Lemma drop_addr_spec a l : NoDup (map e_addr l) →
  drop_addr a l `sublist_of` l ∧ a ∉ map e_addr (drop_addr a l) ∧
  (a ∈ map e_addr l → S (length (drop_addr a l)) = length l).
Proof.
  intros Hnd. unfold drop_addr, addr_index. destruct (list_find _ l) as [[i e]|] eqn:E; simpl.
  - apply list_find_Some in E as (Hi & Ha & _). split_and!.
    + apply remove_index_sublist.
    + destruct (remove_index_split _ _ _ Hi) as [El ->]. rewrite El in Hnd.
      rewrite map_app in *. cbn [map] in Hnd. rewrite Ha in Hnd.
      apply NoDup_app in Hnd as (_ & Hd & [Hn _]%NoDup_cons).
      rewrite not_elem_of_app. split; [|done]. intros H. apply (Hd _ H). by left.
    + intros _. by eapply remove_index_length.
  - apply list_find_None in E. rewrite Forall_forall in E.
    assert (a ∉ map e_addr l) as Hn by (intros (e & -> & He)%elem_of_map; by eapply E).
    split_and!; [done|done|]. by intros ?%Hn.
Qed.

Lemma push_entry_spec al l e : peers_ok al l → entry_ok al e →
  let r := push_entry l e in
  r ≠ [] ∧ peers_ok al r ∧ length r ≤ S (length l) ∧
  (e_addr e ∈ map e_addr l → length r ≤ length l).
Proof.
  intros Hl He. unfold push_entry. fold (drop_addr (e_addr e) l). cbv zeta.
  destruct (drop_addr_spec (e_addr e) l (po_nodup _ _ Hl)) as (Hs1 & Hn1 & Hlen1).
  set (l1 := drop_addr (e_addr e) l) in *.
  set (l2 := if source e && _ then _ else l1).
  assert (l2 `sublist_of` l1) as Hs2.
  { unfold l2. case_match; [apply remove_oldest_sublist|done]. }
  set (l3 := if bool_decide (16 ≤ length l2) then _ else l2).
  assert (l3 `sublist_of` l2) as Hs3.
  { unfold l3. case_match; [apply remove_oldest_sublist|done]. }
  pose proof (peers_ok_sublist al _ _ Hs1 Hl) as Hl1. pose proof (peers_ok_sublist al _ _ Hs2 Hl1) as Hl2.
  pose proof (peers_ok_sublist al _ _ Hs3 Hl2) as Hl3.
  assert (length l3 < 16) as Hlt.
  { pose proof (po_length _ _ Hl2). unfold l3. case_bool_decide; [|lia].
    pose proof (remove_oldest_count (λ _, true) l2) as Hc. rewrite !count_if_true in Hc. lia. }
  assert (source e = true → count_if source l3 < 8) as Hsrc.
  { intros Hse. pose proof (count_if_sublist source _ _ Hs3). unfold l2 in *. rewrite Hse in *.
    cbn [andb] in *. case_bool_decide as Hc; [|lia]. pose proof (po_sources _ _ Hl1).
    pose proof (remove_oldest_count source l1). lia. }
  apply sublist_length in Hs1 as Hle1. apply sublist_length in Hs2 as Hle2.
  apply sublist_length in Hs3 as Hle3. rewrite length_app. cbn [length].
  split_and!; [by destruct l3| |lia|intros Hin; specialize (Hlen1 Hin); lia].
  constructor.
  - rewrite length_app. simpl. lia.
  - rewrite map_app. apply NoDup_app. split_and!; [apply Hl3| |apply NoDup_singleton].
    intros a Ha ->%list_elem_of_singleton. apply Hn1.
    eapply elem_of_sublist; [exact Ha|]. apply (fmap_sublist e_addr). by etransitivity.
  - rewrite count_if_app, count_if_cons. pose proof (po_sources _ _ Hl3). unfold count_if at 2. simpl.
    destruct (source e); [specialize (Hsrc eq_refl)|]; lia.
  - rewrite Forall_app, Forall_singleton. split; [apply Hl3|done].
Qed.

Lemma peers_ok_nil al : peers_ok al [].
Proof. constructor; simpl; [lia|constructor|unfold count_if; simpl; lia|constructor]. Qed.

Lemma insert_row_inv al m hash l : warm_inv al m → (hash < hash_bound)%N →
  (m !! hash = None → size m < MAX_SWARMS) → l ≠ [] → peers_ok al l →
  (row_count (delete hash m) + lenN l ≤ MAX_ROWS)%N → warm_inv al (<[hash := l]> m).
Proof.
  intros Hi Hh Hs Hne Hl Hr. constructor.
  - destruct (m !! hash) as [l0|] eqn:E.
    + rewrite map_size_insert_Some by eauto. apply Hi.
    + rewrite map_size_insert_None by done. specialize (Hs eq_refl). lia.
  - unfold row_count in *. rewrite sum_values_insert. lia.
  - intros h l' [[<- <-]|[_ Hl']]%lookup_insert_Some; [done|]. by eapply (wi_peers _ _ Hi).
Qed.

Lemma row_count_delete m h : (row_count m = lenN (default [] (m !! h)) + row_count (delete h m))%N.
Proof.
  unfold row_count. destruct (m !! h) as [l|] eqn:E; simpl.
  - by apply sum_values_delete.
  - by rewrite delete_id.
Qed.

Lemma insert_entry_inv al m hash e known : warm_inv al m → (hash < hash_bound)%N → entry_ok al e →
  (known = true → ∃ l, m !! hash = Some l ∧ e_addr e ∈ map e_addr l) →
  warm_inv al (insert_entry m hash e known).
Proof.
  intros Hi Hh He Hk. unfold insert_entry.
  destruct (evict_swarm_spec al m hash Hi) as (Hs1 & Hl1 & Hsz & Hid).
  pose proof (shrinks_inv al _ _ Hs1 Hi) as Hi1. set (m1 := evict_swarm m hash) in *. cbv zeta.
  destruct (evict_row_spec al m1 Hi1) as [Hs2 Hr2].
  set (m2 := if known then m1 else evict_row m1).
  assert (warm_inv al m2) as Hi2.
  { unfold m2. destruct known; [done|]. by eapply shrinks_inv. }
  assert (m2 !! hash = None → size m2 < MAX_SWARMS) as Hsz2.
  { unfold m2. intros Hn. destruct known; [apply Hsz; congruence|]. destruct (m1 !! hash) as [l|] eqn:E.
    - pose proof (shrinks_size_lt _ _ hash Hs2 ltac:(eauto) Hn). pose proof (wi_size _ _ Hi1). lia.
    - pose proof (shrinks_size _ _ Hs2). specialize (Hsz (eq_sym Hl1)). lia. }
  assert (peers_ok al (default [] (m2 !! hash))) as Hpo.
  { destruct (m2 !! hash) as [l|] eqn:E; simpl; [by eapply (wi_peers _ _ Hi2)|apply peers_ok_nil]. }
  destruct (push_entry_spec al _ e Hpo He) as (Hne & Hok & Hlen & Hlen').
  apply insert_row_inv; [done|done|done|done|done|].
  pose proof (row_count_delete m2 hash) as Hrc. pose proof (wi_rows _ _ Hi2) as Hr.
  unfold lenN in *. destruct known.
  - destruct (Hk eq_refl) as (l & Hl & Hin). unfold m2 in *. rewrite Hl1, Hl in *. simpl in *.
    specialize (Hlen' Hin). lia.
  - unfold m2 in *. lia.
Qed.

Lemma insert_inv al m time hash e : warm_inv al m → (hash < hash_bound)%N → entry_ok al e →
  warm_inv al (insert m time hash e).
Proof.
  intros Hi Hh He. unfold insert. pose proof (shrinks_inv al _ _ (prune_shrinks m time) Hi) as Hp.
  set (m' := prune m time) in *. cbv zeta.
  destruct (m' !! hash ≫= _) as [old|] eqn:E; [|by apply insert_entry_inv].
  destruct (at_ e <? at_ old)%N; [done|].
  apply bind_Some in E as (l & Hl & [Hin Ho%bool_decide_eq_true]%find_some).
  apply insert_entry_inv; [done|done|destruct He as (? & ? & ?); split_and!; done|].
  intros _. exists l. split; [done|]. simpl. apply elem_of_map. exists old.
  split; [done|by apply list_elem_of_In].
Qed.

(** ** Lemmas: grouping rows by swarm *)

Definition proj (h : N) (rs : list (N * Entry)) : list Entry :=
  map snd (List.filter (λ he : N * Entry, he.1 =? h)%N rs).

Definition add_pair (m : Cache) (he : N * Entry) : Cache :=
  <[he.1 := default [] (m !! he.1) ++ [he.2]]> m.

Definition group (rs : list (N * Entry)) : Cache := fold_left add_pair rs ∅.

Lemma proj_app h r1 r2 : proj h (r1 ++ r2) = proj h r1 ++ proj h r2.
Proof. unfold proj. by rewrite List.filter_app, map_app. Qed.

Lemma proj_cons h k e rs : proj h ((k, e) :: rs) = (if (k =? h)%N then [e] else []) ++ proj h rs.
Proof. unfold proj. simpl. by destruct (k =? h)%N. Qed.

Lemma group_snoc rs he : group (rs ++ [he]) = add_pair (group rs) he.
Proof. unfold group. by rewrite fold_left_app. Qed.

Lemma group_lookup rs h : group rs !! h = if decide (proj h rs = []) then None else Some (proj h rs).
Proof.
  induction rs as [|[k e] rs IH] using rev_ind; [done|].
  rewrite group_snoc, proj_app, proj_cons. unfold add_pair. simpl.
  destruct (N.eqb_spec k h) as [->|Hne].
  - rewrite lookup_insert_eq, IH, app_nil_r. rewrite (decide_False (P := _ ++ [e] = [])) by (by destruct (proj h rs)).
    case_decide as Hn; simpl; [by rewrite Hn|done].
  - by rewrite lookup_insert_ne, IH, !app_nil_r.
Qed.

Lemma group_default rs h : default [] (group rs !! h) = proj h rs.
Proof. rewrite group_lookup. by case_decide. Qed.

Lemma group_rows rs : row_count (group rs) = lenN rs.
Proof.
  induction rs as [|[k e] rs IH] using rev_ind; [done|]. rewrite group_snoc, lenN_app.
  pose proof (row_count_delete (group rs) k) as Hr. rewrite IH in Hr. unfold add_pair. cbn [fst snd].
  unfold row_count in *. rewrite sum_values_insert, lenN_app.
  change (lenN [e]) with 1%N. change (lenN [(k, e)]) with 1%N. lia.
Qed.

Lemma proj_assoc h (L : list (N * list Entry)) : NoDup L.*1 →
  (∀ l, (h, l) ∈ L → proj h (concat (map (λ kp, map (pair kp.1) kp.2) L)) = l) ∧
  (h ∉ L.*1 → proj h (concat (map (λ kp, map (pair kp.1) kp.2) L)) = []).
Proof.
  assert (∀ k l, proj h (map (pair k) l) = if (k =? h)%N then l else []) as Hone.
  { intros k l. induction l as [|e l IH]; [by destruct (k =? h)%N|]. cbn [map]. rewrite proj_cons, IH.
    by destruct (k =? h)%N. }
  induction L as [|[k l] L IH]; intros Hnd; [split; [by intros l ?%not_elem_of_nil|done]|].
  cbn in Hnd. apply NoDup_cons in Hnd as [Hk Hnd]. destruct (IH Hnd) as [IH1 IH2].
  cbn [map concat fst snd]. rewrite proj_app, Hone. split.
  - intros l' [[= <- <-]|Hin]%elem_of_cons.
    + rewrite N.eqb_refl, IH2 by done. by rewrite app_nil_r.
    + rewrite (IH1 l') by done. destruct (N.eqb_spec k h) as [->|]; [|done]. exfalso. apply Hk.
      apply list_elem_of_fmap. by exists (h, l').
  - cbn. rewrite not_elem_of_cons. intros [? ?]. rewrite IH2 by done.
    destruct (N.eqb_spec k h); [congruence|done].
Qed.

Lemma proj_flat m h : proj h (flat m) = default [] (m !! h).
Proof.
  destruct (proj_assoc h (BTree.entries m) (NoDup_entries_keys m)) as [H1 H2]. unfold flat.
  destruct (m !! h) as [l|] eqn:E; simpl; [by apply H1, elem_of_entries|].
  apply H2. intros ([k l] & -> & Hin%elem_of_entries)%list_elem_of_fmap. simpl in *. congruence.
Qed.

Lemma group_flat al m : warm_inv al m → group (flat m) = m.
Proof.
  intros Hi. apply map_eq. intros h. rewrite group_lookup, proj_flat.
  destruct (m !! h) as [l|] eqn:E; simpl; [|done].
  rewrite decide_False; [done|]. by eapply (wi_peers _ _ Hi).
Qed.

Lemma flat_length al m : warm_inv al m → lenN (flat m) = row_count m.
Proof. intros Hi. by rewrite <-group_rows, (group_flat al). Qed.

(** A prefix of the rows of a well-formed cache stays inside every limit. *)
Lemma prefix_shrinks al m P R : warm_inv al m → flat m = P ++ R → shrinks (group P) m.
Proof.
  intros Hi E h l'. rewrite group_lookup. case_decide as Hn; [done|]. intros [= <-]. split; [done|].
  pose proof (proj_flat m h) as Hp. rewrite E, proj_app in Hp.
  destruct (m !! h) as [l|] eqn:El; simpl in Hp.
  - exists l. split; [done|]. rewrite <-Hp. by apply sublist_inserts_r.
  - apply app_eq_nil in Hp as [Hp _]. congruence.
Qed.

Lemma flat_lookup al m h e P R : warm_inv al m → flat m = P ++ (h, e) :: R →
  (h < hash_bound)%N ∧ peers_ok al (proj h P ++ [e]) ∧ is_Some (m !! h).
Proof.
  intros Hi E. pose proof (proj_flat m h) as Hp. rewrite E, proj_app, proj_cons, N.eqb_refl in Hp.
  destruct (m !! h) as [l|] eqn:El; simpl in Hp; [|by destruct (proj h P)].
  destruct (wi_peers _ _ Hi _ _ El) as (? & _ & Hok). split_and!; [done| |done].
  eapply peers_ok_sublist; [|exact Hok]. rewrite <-Hp. change (e :: proj h R) with ([e] ++ proj h R).
  rewrite app_assoc. by apply sublist_inserts_r.
Qed.

Lemma add_row_prefix al m h e P R : warm_inv al m → flat m = P ++ (h, e) :: R →
  add_row (group P) h e = Some (group (P ++ [(h, e)])) ∧ (lenN P < MAX_ROWS)%N.
Proof.
  intros Hi E. destruct (flat_lookup _ _ _ _ _ _ Hi E) as (Hh & Hok & Hm).
  pose proof (prefix_shrinks al m P _ Hi E) as Hs. split.
  - unfold add_row. rewrite group_default. destruct Hok as [H1 H2 H3 _].
    assert (bool_decide (group P !! h = None) && bool_decide (MAX_SWARMS ≤ size (group P)) = false) as ->.
    { apply andb_false_iff. destruct (decide (group P !! h = None)) as [Hn|Hn].
      - right. apply bool_decide_eq_false. pose proof (shrinks_size_lt _ _ h Hs Hm Hn).
        pose proof (wi_size _ _ Hi). lia.
      - left. by apply bool_decide_eq_false. }
    cbv zeta. rewrite length_app in H1. simpl in H1. rewrite bool_decide_false by lia. cbn [orb].
    rewrite map_app in H2. apply NoDup_app in H2 as (_ & H2 & _).
    assert (existsb (λ x, bool_decide (e_addr x = e_addr e)) (proj h P) = false) as ->.
    { apply not_true_iff_false. intros (x & Hx & Ea%bool_decide_eq_true)%existsb_exists.
      apply (H2 (e_addr x)); [apply elem_of_map; exists x; split; [done|by apply list_elem_of_In]|].
      simpl. rewrite Ea. by left. }
    rewrite count_if_app, count_if_cons in H3. cbn [orb].
    assert (source e && bool_decide (8 ≤ count_if source (proj h P)) = false) as ->.
    { destruct (source e); [|done]. apply bool_decide_eq_false. lia. }
    by rewrite group_snoc, <-group_default.
  - assert (shrinks (group (P ++ [(h, e)])) m) as Hs'.
    { eapply (prefix_shrinks al m _ R Hi). by rewrite <-app_assoc. }
    apply shrinks_rows in Hs'. rewrite group_rows, lenN_app in Hs'. pose proof (wi_rows _ _ Hi).
    unfold lenN at 2 in Hs'. simpl in Hs'. lia.
Qed.

(** ** Lemmas: the text of a row *)

Definition field_char (b : byte) : bool :=
  is_hex_char b || bool_decide (b = x53) || bool_decide (b = x44) || bool_decide (b = x2e).

Lemma field_char_spec b : field_char b = true → b ≠ x20 ∧ b ≠ x0a ∧ is_ascii b = true.
Proof. by destruct b. Qed.

Lemma digits_field_chars l : forallb is_ascii_digit l = true → forallb field_char l = true.
Proof.
  rewrite !forallb_forall. intros Hl x Hx. unfold field_char, is_hex_char. by rewrite Hl.
Qed.

Lemma show_ip_field_chars a : forallb field_char (show_ip a) = true.
Proof.
  destruct a as [|o os]; [done|]. rewrite show_ip_cons, forallb_app.
  rewrite digits_field_chars by apply dec_N_correct. simpl. unfold dotted.
  induction os as [|o' os IH]; [done|]. cbn [map concat]. rewrite forallb_app, IH, andb_true_r.
  simpl. apply digits_field_chars, dec_N_correct.
Qed.

Lemma field_chars_free f : forallb field_char f = true → x20 ∉ f ∧ x0a ∉ f ∧ forallb is_ascii f = true.
Proof.
  rewrite !forallb_forall. intros Hf. split_and!.
  1,2: intros Hin%list_elem_of_In%Hf%field_char_spec; naive_solver.
  intros x Hx%Hf%field_char_spec. tauto.
Qed.

Lemma join_not_in c fs : c ≠ x20 → Forall (λ f, c ∉ f) fs → c ∉ join x20 fs.
Proof.
  intros Hc. induction 1 as [|f fs Hf HF IH]; [apply not_elem_of_nil|]. destruct fs as [|g fs]; [done|].
  change (join x20 (f :: g :: fs)) with (f ++ x20 :: join x20 (g :: fs)).
  rewrite not_elem_of_app, not_elem_of_cons. auto.
Qed.

Lemma join_ascii fs : Forall (λ f, forallb is_ascii f = true) fs → forallb is_ascii (join x20 fs) = true.
Proof.
  induction 1 as [|f fs Hf HF IH]; [done|]. destruct fs as [|g fs]; [done|].
  change (join x20 (f :: g :: fs)) with (f ++ x20 :: join x20 (g :: fs)).
  rewrite forallb_app, Hf. done.
Qed.

Lemma split_lines {A} (f : A → bytes) l : (∀ x, x0a ∉ f x) →
  split_on x0a (concat (map (λ x, f x ++ [x0a]) l)) = map f l ++ [[]].
Proof.
  intros Hf. induction l as [|x l IH]; [done|]. cbn [map concat app]. rewrite <-app_assoc. cbn [app].
  by rewrite split_on_app, IH.
Qed.

Section roundtrip.
Context `{HexLaws}.

Definition row_fields (h : N) (e : Entry) : list bytes :=
  [hex_encode (be_bytes 20 h); dec_N (at_ e); (if source e then [x53] else [x44]);
   show_ip (ip (e_addr e)); dec_N (port (e_addr e))].

Lemma row_fields_chars h e : Forall (λ f, forallb field_char f = true) (row_fields h e).
Proof.
  repeat apply Forall_cons_2; [|apply digits_field_chars, dec_N_correct|by destruct (source e)
    |apply show_ip_field_chars|apply digits_field_chars, dec_N_correct|constructor].
  pose proof (hex_encode_chars (be_bytes 20 h)) as Hc. rewrite !forallb_forall in *.
  intros x Hx. unfold field_char. by rewrite Hc.
Qed.

Lemma show_row_text h e : x0a ∉ show_row h e ∧ utf8_valid (show_row h e) = true ∧
  split_on x20 (show_row h e) = row_fields h e.
Proof.
  pose proof (row_fields_chars h e) as Hc. unfold show_row. fold (row_fields h e). split_and!.
  - apply join_not_in; [done|]. eapply Forall_impl; [exact Hc|]. intros f Hf%field_chars_free. tauto.
  - apply utf8_valid_ascii, join_ascii. eapply Forall_impl; [exact Hc|].
    intros f Hf%field_chars_free. tauto.
  - apply split_on_join; [done|]. eapply Forall_impl; [exact Hc|]. intros f Hf%field_chars_free. tauto.
Qed.

Lemma show_row_length al h e : entry_ok al e → 40 ≤ length (show_row h e) ≤ 85.
Proof.
  intros (_ & [Hip Hp] & Ht). unfold show_row. cbn [join].
  rewrite !length_app. cbn [length]. rewrite !length_app. cbn [length]. rewrite !length_app. cbn [length].
  rewrite !length_app. cbn [length].
  rewrite hex_encode_length, be_bytes_length.
  assert (length (dec_N (at_ e)) ≤ 20) by (apply dec_N_length; [lia|]; simpl; lia).
  assert (length (dec_N (port (e_addr e))) ≤ 5) by (apply dec_N_length; [lia|]; simpl; lia).
  pose proof (show_ip_length _ Hip). destruct (source e); cbn [length]; lia.
Qed.

Lemma parse_show_row al h e time : (h < hash_bound)%N → entry_ok al e → fresh time e = true →
  parse_row (show_row h e) time al = Some (h, e).
Proof.
  intros Hh (Hal & [Hip Hp] & Ht) Hf. destruct (show_row_text h e) as (_ & Hu & Hs).
  unfold parse_row. rewrite Hu, Hs. cbn [negb row_fields].
  rewrite bool_decide_true by (rewrite hex_encode_length, be_bytes_length; done). cbn [negb].
  pose proof (hex_decode_encode (be_bytes 20 h)) as Hd. rewrite be_bytes_length in Hd. rewrite Hd.
  cbn [mbind option_bind]. rewrite parse_u64_dec by done. cbn [mbind option_bind].
  assert ((if decide ((if source e then [x53] else [x44]) = [x53]) then Some true
    else if decide ((if source e then [x53] else [x44]) = [x44]) then Some false else None) =
    Some (source e)) as -> by by destruct (source e).
  cbn [mbind option_bind]. rewrite parse_show_ip by done. cbn [mbind option_bind].
  unfold parse_u16. rewrite parse_u64_dec by lia. cbn [mbind option_bind].
  rewrite (proj2 (N.ltb_lt _ _) Hp). cbn [mbind option_bind].
  unfold fresh in Hf. apply andb_true_iff in Hf as [H1%N.leb_le H2%N.leb_le].
  rewrite (proj2 (N.ltb_ge _ _) H1), (proj2 (N.ltb_ge _ _) H2). cbn [orb].
  destruct e as [[i p] s t]. cbn [e_addr ip port at_ source] in *. rewrite Hal. cbn [negb].
  by rewrite be_N_be_bytes.
Qed.

Lemma flat_entries_ok al m h e P R : warm_inv al m → flat m = P ++ (h, e) :: R →
  entry_ok al e ∧ ∃ l, m !! h = Some l ∧ e ∈ l.
Proof.
  intros Hi E. destruct (flat_lookup _ _ _ _ _ _ Hi E) as (_ & Hok & [l Hl]). split.
  - pose proof (po_entries _ _ Hok) as Hp. apply Forall_app in Hp as [_ Hp].
    rewrite Forall_singleton in Hp. done.
  - exists l. split; [done|]. pose proof (proj_flat m h) as Hp. rewrite Hl in Hp. simpl in Hp.
    rewrite <-Hp, E, proj_app, proj_cons, N.eqb_refl. set_solver.
Qed.

Lemma parse_lines_rows al m time R P :
  warm_inv al m → (∀ h l e, m !! h = Some l → e ∈ l → fresh time e = true) → flat m = P ++ R →
  parse_lines (map (λ he, show_row he.1 he.2) R ++ [[]]) (lenN P) (group P) time al = Some m.
Proof.
  intros Hi Hf. revert P. induction R as [|[h e] R IH]; intros P E.
  - simpl. rewrite app_nil_r in E. by rewrite <-E, (group_flat al).
  - destruct (flat_entries_ok _ _ _ _ _ _ Hi E) as (He & l & Hl & Hel).
    destruct (add_row_prefix _ _ _ _ _ _ Hi E) as [Ha Hn].
    destruct (flat_lookup _ _ _ _ _ _ Hi E) as (Hh & _ & _).
    pose proof (show_row_length al h e He) as Hlen.
    cbn [map app parse_lines fst snd].
    rewrite decide_False by (intros Hnil; rewrite Hnil in Hlen; simpl in Hlen; lia).
    rewrite bool_decide_false by lia. rewrite (proj2 (N.leb_gt _ _) Hn). cbn [orb].
    rewrite (parse_show_row al) by eauto. cbn [mbind option_bind]. rewrite Ha. cbn [mbind option_bind].
    specialize (IH (P ++ [(h, e)])). rewrite lenN_app in IH. change (lenN [(h, e)]) with 1%N in IH.
    apply IH. by rewrite <-app_assoc.
Qed.

Lemma snapshot_length al m : warm_inv al m → (lenN (encode m) ≤ 15 + 86 * row_count m)%N.
Proof.
  intros Hi. unfold encode. rewrite lenN_app, <-(flat_length al m Hi).
  assert (∀ P R, flat m = P ++ R → (lenN (concat (map (λ he : N * Entry, show_row he.1 he.2 ++ [x0a]) R)) ≤
    86 * lenN R)%N) as Hlen.
  { intros P R. revert P. induction R as [|[h e] R IH]; intros P E; [done|].
    destruct (flat_entries_ok _ _ _ _ _ _ Hi E) as [He _].
    pose proof (show_row_length al h e He). specialize (IH (P ++ [(h, e)])).
    rewrite <-app_assoc in IH. specialize (IH E). cbn [map concat fst snd]. rewrite !lenN_app.
    unfold lenN in *. cbn [length]. lia. }
  specialize (Hlen [] (flat m) eq_refl). change (lenN HEADER) with 15%N. lia.
Qed.

Lemma parse_encode al m time : warm_inv al m →
  (∀ h l e, m !! h = Some l → e ∈ l → fresh time e = true) →
  parse (encode m) time al = Some m.
Proof.
  intros Hi Hf. unfold parse. pose proof (snapshot_length al m Hi). pose proof (wi_rows _ _ Hi).
  unfold MAX_ROWS, MAX_BYTES in *.
  rewrite (proj2 (N.ltb_ge (256 * 1024) (lenN (encode m)))) by lia. unfold encode.
  rewrite starts_with_app. cbn [orb negb]. rewrite drop_app_length.
  rewrite (split_lines (λ he : N * Entry, show_row he.1 he.2)) by (intros x; apply show_row_text).
  by apply (parse_lines_rows al m time (flat m) []).
Qed.
End roundtrip.

(** ** Lemmas: what the reader accepts *)

Section reader.
Context `{HexLaws}.

Lemma parse_row_ok line time al h e : parse_row line time al = Some (h, e) →
  (h < hash_bound)%N ∧ entry_ok al e ∧ fresh time e = true.
Proof.
  unfold parse_row. destruct (utf8_valid line); [|done]. cbn [negb].
  destruct (split_on x20 line) as [|encoded [|at_field [|kind [|ip_field [|port_field [|]]]]]]; try done.
  case_bool_decide; [|done]. cbn [negb].
  intros (hash & Hh & (t & Ht & (src & _ & (a & Ha & (p & Hp & Hr)%bind_Some)%bind_Some)%bind_Some)%bind_Some)%bind_Some.
  destruct ((time <? t)%N || _ || _) eqn:E; [done|]. injection Hr as <- <-.
  apply orb_false_iff in E as [[E1%N.ltb_ge E2%N.ltb_ge]%orb_false_iff E3%negb_false_iff].
  split_and!.
  - pose proof (be_N_bound hash) as Hb. unfold lenN in Hb.
    by rewrite (hex_decode_length _ _ _ Hh) in Hb.
  - split_and!; cbn [e_addr at_]; [done| |by eapply parse_u64_range].
    split; cbn [ip port]; [by eapply parse_ipv4_length|]. unfold parse_u16 in Hp.
    apply bind_Some in Hp as (v & _ & Hv). destruct (N.ltb_spec v two16); naive_solver.
  - unfold fresh. cbn [at_]. by rewrite (proj2 (N.leb_le _ _) E1), (proj2 (N.leb_le _ _) E2).
Qed.

Lemma add_row_inv al m h e m' : warm_inv al m → (row_count m < MAX_ROWS)%N →
  (h < hash_bound)%N → entry_ok al e → add_row m h e = Some m' →
  warm_inv al m' ∧ row_count m' = (row_count m + 1)%N.
Proof.
  intros Hi Hr Hh He. unfold add_row.
  destruct (bool_decide (m !! h = None) && _) eqn:E1; [done|]. cbv zeta.
  set (peers := default [] (m !! h)).
  destruct (bool_decide (16 ≤ length peers) || _ || _) eqn:E2; [done|]. intros [= <-].
  apply orb_false_iff in E2 as [[E2%bool_decide_eq_false E3]%orb_false_iff E4].
  assert (peers_ok al peers) as [H1 H2 H3 H4].
  { unfold peers. destruct (m !! h) as [l|] eqn:E; simpl; [by eapply (wi_peers _ _ Hi)|apply peers_ok_nil]. }
  pose proof (row_count_delete m h) as Hrc. fold peers in Hrc.
  assert (lenN (peers ++ [e]) = lenN peers + 1)%N as Hlen by (rewrite lenN_app; done).
  split.
  2: { unfold row_count in *. rewrite sum_values_insert. lia. }
  apply insert_row_inv; [done|done| |by destruct peers| |lia].
  - intros Hn. rewrite bool_decide_true in E1 by done. apply bool_decide_eq_false in E1. lia.
  - constructor.
    + rewrite length_app. simpl. lia.
    + rewrite map_app. apply NoDup_app. split_and!; [done| |apply NoDup_singleton].
      intros a (x & -> & Hx)%elem_of_map Ha%list_elem_of_singleton.
      apply not_true_iff_false in E3. apply E3, existsb_exists. exists x.
      split; [by apply list_elem_of_In|by apply bool_decide_eq_true].
    + rewrite count_if_app, count_if_cons. unfold count_if at 2. simpl.
      destruct (source e); [apply bool_decide_eq_false in E4|]; lia.
    + rewrite Forall_app, Forall_singleton. done.
Qed.

Lemma parse_lines_inv al lines n m time m' : warm_inv al m → row_count m = n →
  parse_lines lines n m time al = Some m' → warm_inv al m'.
Proof.
  revert n m. induction lines as [|line lines IH]; intros n m Hi Hn; cbn [parse_lines]; [by intros [= <-]|].
  case_decide; [by apply IH|].
  destruct (bool_decide _ || _) eqn:E; [done|]. apply orb_false_iff in E as [_ E%N.leb_gt].
  intros ([h e] & Hp & (m1 & Ha & Hl)%bind_Some)%bind_Some.
  apply parse_row_ok in Hp as (Hh & He & _).
  destruct (add_row_inv al m h e m1 Hi) as [Hi1 Hr]; [lia|done|done|done|].
  eapply IH; [exact Hi1| |exact Hl]. lia.
Qed.

Lemma warm_inv_empty al : warm_inv al ∅.
Proof.
  constructor.
  - rewrite map_size_empty. unfold MAX_SWARMS. lia.
  - unfold row_count. rewrite sum_values_empty. unfold MAX_ROWS. lia.
  - intros h l. by rewrite lookup_empty.
Qed.

Lemma snapshot_inv al l time m : parse l time al = Some m → warm_inv al m.
Proof.
  unfold parse. case_match; [done|]. apply parse_lines_inv; [apply warm_inv_empty|].
  apply sum_values_empty.
Qed.

Lemma load_inv al s file pt time : warm_inv al (warm s) → warm_inv al (warm (load al s file pt time)).
Proof.
  intros Hi. unfold load. cbn [warm]. destruct (file ≫= _) as [m|] eqn:E; [|done].
  apply bind_Some in E as (l & _ & Hm%snapshot_inv).
  assert (∀ P R, flat m = P ++ R → ∀ m0, warm_inv al m0 →
    warm_inv al (fold_left (λ m he, insert m time he.1 he.2) R m0)) as Hfold.
  { intros P R. revert P. induction R as [|[h e] R IH]; intros P E m0 Hm0; [done|]. simpl.
    apply (IH (P ++ [(h, e)])); [by rewrite <-app_assoc|]. apply insert_inv; [done| |].
    - by destruct (flat_lookup _ _ _ _ _ _ Hm E) as (? & _).
    - by destruct (flat_entries_ok _ _ _ _ _ _ Hm E) as (? & _). }
  by apply (Hfold []).
Qed.

(** ** The cache of a running process *)

(** Every operation the session and the writer thread perform on the shared state.  The
    arguments of [record_productive] are of their Rust types. *)
Inductive reachable (al : bool) : State → Prop :=
  | r_init : reachable al State_default
  | r_record s hash a kind at_now time : reachable al s →
      (hash < hash_bound)%N → valid_addr a → (at_now < two64)%N →
      reachable al (record_productive al s hash a kind at_now time)
  | r_hints s hash time : reachable al s → reachable al (hints s hash time).1
  | r_flush s : reachable al s → reachable al (request_flush s)
  | r_load s file pt time : reachable al s → reachable al (load al s file pt time)
  | r_snapshot s time : reachable al s → reachable al (snapshot s time).1.1
  | r_confirm s rev : reachable al s → reachable al (confirm_write s rev).

Lemma warm_reachable_inv al s : reachable al s → warm_inv al (warm s).
Proof.
  induction 1 as [|s hash a kind t time _ IH Hh Ha Ht|s hash time _ IH|s _ IH|s file pt time _ IH|s time _ IH|];
    [apply warm_inv_empty|..]; try done.
  - unfold record_productive. destruct (endpoint_allowed a al) eqn:E; [|done]. cbn [negb warm].
    by apply insert_inv.
  - eapply shrinks_inv; [apply prune_shrinks|done].
  - by apply load_inv.
  - eapply shrinks_inv; [apply prune_shrinks|done].
Qed.

(** the warm peer cache stays bounded.  Whatever is recorded, and whatever file it was loaded
    from, it holds at most 256 swarms and 3000 peers, per swarm at most 16 peers with distinct
    addresses and at most 8 sources, and only endpoints that may be remembered. *)
Theorem warm_cache_bounded al s : reachable al s →
  size (warm s) ≤ 256 ∧ (row_count (warm s) ≤ 3000)%N ∧
  ∀ h l, warm s !! h = Some l →
    1 ≤ length l ≤ 16 ∧ NoDup (map e_addr l) ∧ count_if source l ≤ 8 ∧
    ∀ e, e ∈ l → endpoint_allowed (e_addr e) al = true.
Proof.
  intros [H1 H2 H3]%warm_reachable_inv. split_and!; [done|done|]. intros h l Hl.
  destruct (H3 _ _ Hl) as (_ & Hne & [P1 P2 P3 P4]). split_and!; [by destruct l; simpl; [|lia]|done|done|done|].
  intros e He. rewrite Forall_forall in P4. by apply P4.
Qed.

(** a snapshot reads back.  The text written from any reachable cache fits the reader's size
    limit, and as long as its rows are fresh the reader accepts it and rebuilds exactly the
    swarms and peers that were written, in their order. *)
Theorem snapshot_roundtrip al s time read_time s' text rev : reachable al s →
  snapshot s time = (s', text, rev) →
  (∀ h l e, warm s' !! h = Some l → e ∈ l → fresh read_time e = true) →
  (lenN text ≤ MAX_BYTES)%N ∧ parse text read_time al = Some (warm s').
Proof.
  intros Hs [= <- <- <-] Hf. cbn [warm] in *.
  assert (warm_inv al (prune (warm s) time)) as Hi.
  { eapply shrinks_inv; [apply prune_shrinks|by apply warm_reachable_inv]. }
  split; [|by apply parse_encode]. pose proof (snapshot_length al _ Hi). pose proof (wi_rows _ _ Hi).
  unfold MAX_ROWS, MAX_BYTES in *. lia.
Qed.
End reader.

(** ** The [hex] interface on lower-case digits *)

Definition hex_value (b : byte) : option N :=
  if is_ascii_digit b then Some (byte_N b - 48)%N
  else if in_range b 97 102 then Some (byte_N b - 87)%N
  else if in_range b 65 70 then Some (byte_N b - 55)%N else None.

Fixpoint hex_pairs (l : bytes) : option bytes :=
  match l with
  | [] => Some []
  | a :: b :: r => x ← hex_value a; y ← hex_value b; t ← hex_pairs r; Some (N_byte (x * 16 + y) :: t)
  | _ => None
  end.

#[export] Instance hex_digits : Hex := {|
  hex_encode l := concat (map PeerPolicy.hex_byte l);
  hex_decode_to_slice n l := r ← hex_pairs l; if decide (length r = n) then Some r else None;
|}.

Lemma hex_byte_spec b : hex_pairs (PeerPolicy.hex_byte b) = Some [b] ∧
  forallb is_hex_char (PeerPolicy.hex_byte b) = true.
Proof. by destruct b. Qed.

Lemma hex_pairs_cons b l : hex_pairs (PeerPolicy.hex_byte b ++ l) = (cons b) <$> hex_pairs l.
Proof.
  destruct (hex_byte_spec b) as [H _]. unfold PeerPolicy.hex_byte in *. cbn [app hex_pairs] in *.
  apply bind_Some in H as (x & -> & (y & -> & (t & [= <-] & [= E])%bind_Some)%bind_Some).
  cbn [mbind option_bind]. rewrite E. by destruct (hex_pairs l).
Qed.

#[export] Instance hex_digits_laws : HexLaws.
Proof.
  constructor; unfold hex_encode, hex_decode_to_slice; cbn [hex_digits].
  - intros l. enough (hex_pairs (concat (map PeerPolicy.hex_byte l)) = Some l) as ->
      by (cbn; by rewrite decide_True).
    induction l as [|b l IH]; [done|]. cbn [map concat]. by rewrite hex_pairs_cons, IH.
  - intros n l r (r' & _ & H)%bind_Some. case_decide; naive_solver.
  - intros l. induction l as [|b l IH]; [done|]. cbn [map concat]. rewrite length_app, IH. simpl. lia.
  - intros l. induction l as [|b l IH]; [done|]. cbn [map concat].
    rewrite forallb_app, IH. by rewrite (proj2 (hex_byte_spec b)).
Qed.

Definition public_peer : SocketAddrV4 := mkSocketAddrV4 (map N_byte [8; 8; 4; 4]%N) 9000.
Definition warm_example : State := record_productive false State_default 7 public_peer Source 1000 1000.

Lemma warm_example_reachable : reachable false warm_example.
Proof. by apply r_record; [apply r_init|..]. Qed.

Lemma warm_cache_bounded_witness :
  warm warm_example !! 7%N = Some [mkEntry public_peer true 1000] ∧ size (warm warm_example) ≤ 256.
Proof.
  split; [vm_compute; reflexivity|].
  exact (proj1 (warm_cache_bounded false warm_example warm_example_reachable)).
Defined.

Lemma snapshot_roundtrip_witness :
  let r := snapshot warm_example 1100 in
  lenN r.1.2 = 76%N ∧ parse r.1.2 1200 false = Some (warm r.1.1).
Proof.
  intros r. split; [vm_compute; reflexivity|].
  apply (snapshot_roundtrip false warm_example 1100 1200 r.1.1 r.1.2 r.2);
    [exact warm_example_reachable|reflexivity|].
  assert (warm r.1.1 = {[7%N := [mkEntry public_peer true 1000]]}) as -> by (vm_compute; reflexivity).
  intros h l e [<- <-]%lookup_singleton_Some ->%list_elem_of_singleton. reflexivity.
Defined.
