(* ===== verification/OutputPath.v ===== *)
(** * The output path of a live session

    [ace-swarm/src/live_session/continuity.rs]: what happens to the bytes of an emitted piece.  They
    are re-aligned to transport packets, every loss the re-aligner reports re-arms the keyframe
    gate, the next bytes that pass carry the discontinuity mark, and every output is credited to
    the peers that produced its bytes.  [OutputPath] groups the fields of [Continuity] these
    functions touch.  An [Arc<OutputCredit>] is its identity, a number ([Arc::ptr_eq] is equality
    of identities); [Continuity.v] keeps the objects. *)

From S2P Require Import Prelude Order Bytes MpegTs TsTables TsGate.

Record LiveOutput : Type := mkLiveOutput { lo_bytes : bytes; lo_discontinuity : bool }.

Record TransportRecovery : Type := mkRecovery {
  started : N;
  tr_discarded : nat;
  tr_withheld : nat;
  loss_events : nat;
}.

(** A half-open range of positions with the credit of the bytes in it. *)
Abbreviation Span := (nat * nat * N)%type.
Definition s_start (s : Span) : nat := s.1.1.
Definition s_end (s : Span) : nat := s.1.2.
Definition s_credit (s : Span) : N := s.2.

Record OutputPath : Type := mkPath {
  pending_credit : list (list N);
  resync_credit : list Span;
  resync_tail : nat;
  resync : TsResync;
  output_gate : KeyframeGate;
  transport_recovery : option TransportRecovery;
  discontinuity_pending : bool;
}.

(** The state of [Continuity::fresh]. *)
Definition path_fresh : OutputPath := mkPath [] [] 0 MpegTs.new new_passthrough None false.

Definition arm_output_gate (p : OutputPath) : OutputPath :=
  mkPath (pending_credit p) [] 0 MpegTs.new gate_new None true.

(** The reset of [skip_far_behind_live] before any output. *)
Definition restart_resync (p : OutputPath) : OutputPath :=
  mkPath (pending_credit p) [] 0 MpegTs.new (output_gate p) (transport_recovery p)
    (discontinuity_pending p).

(** ** Credits *)

(** Advance to the first span that ends after [start]. *)
Fixpoint skip_ended (start : nat) (l : list Span) : list Span :=
  match l with
  | s :: r => if bool_decide (s_end s ≤ start) then skip_ended start r else l
  | [] => []
  end.

(** The spans that start before [stop]. *)
Fixpoint take_started (stop : nat) (l : list Span) : list Span :=
  match l with
  | s :: r => if bool_decide (s_start s < stop) then s :: take_started stop r else []
  | [] => []
  end.

Definition push_credit (credits : list N) (c : N) : list N :=
  if existsb (N.eqb c) credits then credits else credits ++ [c].

(** The distinct credits of the spans that overlap the forwarded ranges. *)
Fixpoint forwarded_credits (ranges : list (nat * nat)) (spans : list Span) (credits : list N)
    : list N :=
  match ranges with
  | [] => credits
  | r :: rest =>
      let spans := skip_ended r.1 spans in
      forwarded_credits rest spans
        (fold_left push_credit (map s_credit (take_started r.2 spans)) credits)
  end.

(** The spans of the selected ranges, at their offsets in the selected bytes. *)
Fixpoint select_spans (ranges : list (nat * nat)) (spans : list Span) (offset : nat) : list Span :=
  match ranges with
  | [] => []
  | r :: rest =>
      let spans := skip_ended r.1 spans in
      map (λ s, (offset + max (s_start s) r.1 - r.1, offset + min (s_end s) r.2 - r.1, s_credit s))
        (take_started r.2 spans) ++
      select_spans rest spans (offset + (r.2 - r.1))
  end.

(** [retain_mut] of the spans of the retained tail. *)
Definition retain_spans (consumed : nat) (spans : list Span) : list Span :=
  omap (λ s, if bool_decide (s_end s ≤ consumed) then None
             else Some (s_start s - consumed, s_end s - consumed, s_credit s)) spans.

(** [partition_point]: the length of the prefix satisfying [f], for a partitioned slice. *)
Fixpoint partition_point {A} (f : A → bool) (l : list A) : nat :=
  match l with
  | x :: r => if f x then S (partition_point f r) else 0
  | [] => 0
  end.

Definition slice_credit (spans : list Span) (a b : nat) : list Span :=
  let first := partition_point (λ s, bool_decide (s_end s ≤ a)) spans in
  let last_ := partition_point (λ s, bool_decide (s_start s < b)) spans in
  omap (λ s, let start := max (s_start s) a in let stop := min (s_end s) b in
             if bool_decide (start < stop) then Some (start - a, stop - a, s_credit s) else None)
    (slice spans first last_).

(** ** Output *)

Definition filter_output_after_discontinuity (p : OutputPath) (aligned : bytes) (spans : list Span)
    : OutputPath * option LiveOutput :=
  let '(output, gate) := gate_push_report (output_gate p) aligned in
  let recovery := (λ t, mkRecovery (started t) (tr_discarded t)
    (tr_withheld t + withheld_bytes output) (loss_events t)) <$> transport_recovery p in
  let recovery := match resumed output with Some _ => None | None => recovery end in
  if bool_decide (gate_bytes output = []) then
    (mkPath (pending_credit p) (resync_credit p) (resync_tail p) (resync p) gate recovery
       (discontinuity_pending p), None)
  else
    (mkPath (pending_credit p ++ [forwarded_credits (forwarded output) spans []])
       (resync_credit p) (resync_tail p) (resync p) gate recovery false,
     Some (mkLiveOutput (gate_bytes output) (discontinuity_pending p))).

(** What a loss does between two parts of the aligned bytes. *)
Definition note_loss (p : OutputPath) (discarded : nat) (now : N) : OutputPath :=
  let t := default (mkRecovery now 0 0 0) (transport_recovery p) in
  mkPath (pending_credit p) (resync_credit p) (resync_tail p) (resync p)
    (rearm_for_discontinuity (output_gate p))
    (Some (mkRecovery (started t) (tr_discarded t + discarded) (tr_withheld t) (loss_events t + 1)))
    true.

(** The loop over the boundaries, and the rest after the last one. *)
Fixpoint boundary_loop (p : OutputPath) (out : bytes) (spans : list Span) (start : nat)
    (bounds : list TsResyncBoundary) (now : N) : OutputPath * list LiveOutput :=
  match bounds with
  | b :: rest =>
      let '(p, prefix) := filter_output_after_discontinuity p (slice out start (output_offset b))
        (slice_credit spans start (output_offset b)) in
      let p := note_loss p (b_discarded b) now in
      let '(p, chunks) := boundary_loop p out spans (output_offset b) rest now in
      (p, option_list prefix ++ chunks)
  | [] =>
      let '(p, suffix) := filter_output_after_discontinuity p (drop start out)
        (slice_credit spans start (length out)) in
      (p, option_list suffix)
  end.

Definition resync_output_credited (p : OutputPath) (data : bytes) (credit : option N) (now : N)
    : OutputPath * list LiveOutput :=
  let credits := match credit with
    | Some c => if bool_decide (data = []) then resync_credit p
                else resync_credit p ++ [(resync_tail p, resync_tail p + length data, c)]
    | None => resync_credit p
    end in
  let total := resync_tail p + length data in
  let '(output, r) := push_report (resync p) data in
  let spans := select_spans (selected output) credits 0 in
  let p := mkPath (pending_credit p) (retain_spans (consumed output) credits)
    (total - consumed output) r (output_gate p) (transport_recovery p) (discontinuity_pending p) in
  boundary_loop p (out_bytes output) spans 0 (boundaries output) now.

(** ** Lemmas: aligned packets through the gate *)

Definition sync_packet (p : bytes) : Prop := length p = TS_PACKET_LEN ∧ sync_at p 0 = true.

Lemma aligned_one p : sync_packet p → aligned p.
Proof.
  intros [Hl Hs]. exists 1. unfold TS_PACKET_LEN in *. split; [lia|]. intros k Hk.
  by replace k with 0 by lia.
Qed.

Lemma aligned_concat ps : Forall sync_packet ps → aligned (concat ps).
Proof.
  induction 1 as [|p ps Hp _ IH]; [apply aligned_nil|]. simpl. apply aligned_app; [|done].
  by apply aligned_one.
Qed.

Lemma aligned_packets d : aligned d → ∃ ps, d = concat ps ∧ Forall sync_packet ps.
Proof.
  intros (q & Hq & Hs). destruct (chunks_exact_all TS_PACKET_LEN d q) as (Hn & Hl & Hc);
    [unfold TS_PACKET_LEN; lia|done|].
  exists (chunks_exact TS_PACKET_LEN d). split; [done|]. apply Forall_lookup. intros k c Hk.
  split; [by eapply Forall_lookup_1 in Hl|]. rewrite (chunk_sync d q k c) by done. apply Hs.
  apply lookup_lt_Some in Hk. lia.
Qed.

Lemma aligned_drop d n : aligned d → (∃ q, n = q * TS_PACKET_LEN) → aligned (drop n d).
Proof.
  intros (q & Hq & Hs) [j ->]. exists (q - j). rewrite length_drop, Hq. unfold TS_PACKET_LEN in *.
  split; [lia|]. intros k Hk. unfold sync_at in *. rewrite lookup_drop.
  replace (j * 188 + k * 188) with ((j + k) * 188) by lia. apply Hs. lia.
Qed.

Lemma aligned_take d n : aligned d → (∃ q, n = q * TS_PACKET_LEN) → aligned (take n d).
Proof.
  intros (q & Hq & Hs) [j ->]. exists (min j q). rewrite length_take, Hq. unfold TS_PACKET_LEN in *.
  split; [lia|]. intros k Hk. unfold sync_at in *. rewrite lookup_take_lt by lia. apply Hs. lia.
Qed.

(** The tables a gate has cached are packets. *)
Definition synced_tables (a : VideoAccessPointState) : Prop :=
  service_name a = None ∧ (∀ p, cached_pat a = Some p → sync_packet p) ∧
  (∀ p, cached_pmt a = Some p → sync_packet p).

Lemma observe_synced a p : synced_tables a → sync_packet p → synced_tables (access_observe a p).2.
Proof.
  intros (Hn & Hpat & Hpmt) Hp. pose proof (observe_tables a p) as (H1 & H2 & H3). cbv zeta in *.
  split_and!; [congruence|..].
  - intros q Hq. destruct H2 as [H2|H2]; rewrite H2 in Hq; [auto|]. by injection Hq as <-.
  - intros q Hq. destruct H3 as [H3|[H3|H3]]; rewrite H3 in Hq; [auto| |done]. by injection Hq as <-.
Qed.

Lemma sync_insert i b p : 0 < i → sync_packet p → sync_packet (<[i := b]> p).
Proof.
  intros Hi [Hl Hs]. split; [by rewrite length_insert|]. unfold sync_at in *.
  by rewrite list_lookup_insert_ne by lia.
Qed.

Lemma renumber_synced c ps : Forall sync_packet ps → Forall sync_packet (renumber c ps).2.
Proof.
  intros Hps. revert c. induction Hps as [|p ps Hp _ IH]; intros c; [constructor|]. cbn [renumber].
  case_match.
  - specialize (IH (N.land (c + 1) 0x0f)). destruct (renumber _ ps) as [c' r].
    constructor; [|done]. by apply sync_insert; [lia|].
  - specialize (IH c). destruct (renumber c ps) as [c' r]. by constructor.
Qed.

Lemma tables_aligned a c : synced_tables a → aligned (append_gate_tables a c).2.
Proof.
  intros (Hn & Hpat & Hpmt). unfold append_gate_tables, table_prefix. rewrite Hn.
  destruct (cached_pat a) as [pat|]; [|apply aligned_nil]. cbn [mbind option_bind].
  destruct (cached_pmt a) as [pmt|]; [|apply aligned_nil]. cbn [mbind option_bind].
  assert (Forall sync_packet [pat; pmt]) as HF by (repeat constructor; naive_solver).
  replace (pat ++ pmt) with (concat [pat; pmt]) by (simpl; by rewrite app_nil_r).
  rewrite chunks_of_packets by (eapply Forall_impl; [exact HF|by intros ? []]).
  pose proof (renumber_synced c _ HF) as Hr. destruct (renumber c [pat; pmt]) as [c' pkts].
  rewrite drop_ge; [by rewrite app_nil_r; apply aligned_concat|].
  rewrite (length_concat_const _ TS_PACKET_LEN) by (eapply Forall_impl; [exact HF|by intros ? []]).
  lia.
Qed.

Lemma marked_aligned mark marker p : sync_packet p →
  ∃ lead, append_resumed_packet mark marker p = concat (lead : list bytes) ∧ Forall sync_packet lead ∧
    lead ≠ [].
Proof.
  intros Hp. unfold append_resumed_packet.
  assert (∀ pid c, sync_packet (discontinuity_packet pid c)) as Hd by by intros.
  destruct mark; cbn [negb].
  2: { exists [p]. simpl. rewrite app_nil_r. split_and!; [done|by constructor|done]. }
  case_match.
  - exists [discontinuity_packet (default (ts_pid p) marker) (N.land (byte_at p 3) 0x0f); p].
    cbn [concat]. rewrite app_nil_r. split_and!; [done|by repeat (constructor; [done|])|done].
  - assert (sync_packet (set_discontinuity_indicator p).2) as Hm.
    { unfold set_discontinuity_indicator. case_match; [|done]. by apply sync_insert; [lia|]. }
    destruct (set_discontinuity_indicator p) as [set_ m]. simpl in Hm. destruct set_.
    + exists [m]. cbn [concat app]. rewrite app_nil_r. split_and!; [done|by constructor|done].
    + exists [discontinuity_packet (ts_pid p) (N.land (byte_at p 3) 0x0f); m].
      cbn [concat]. rewrite app_nil_r. split_and!; [done|by repeat (constructor; [done|])|done].
Qed.

(** The gate of a session: untitled, nothing buffered. *)
Record gate_ok (g : KeyframeGate) : Prop := {
  go_buf : g_buf g = [];
  go_untitled : filter_sdt g = false;
  go_tables : synced_tables (access g);
}.

(** What a run over aligned packets [ps] gives: the number [k] of packets withheld, and the bytes. *)
Definition gate_effect (g g' : KeyframeGate) (ps : list bytes) (k : nat) (out : bytes)
    (res : option GateResume) : Prop :=
  gate_ok g' ∧ aligned out ∧ k ≤ length ps ∧
  if g_locked g then k = 0 ∧ g_locked g' = true ∧ res = None ∧ out = concat ps
  else if bool_decide (k < length ps) then
    g_locked g' = true ∧ is_Some res ∧ ∃ lead, lead ≠ [] ∧ out = lead ++ concat (drop (S k) ps)
  else g_locked g' = false ∧ res = None ∧ out = [].

Lemma gate_run_effect ps g : gate_ok g → Forall sync_packet ps →
  let '(g', out, w, res) := gate_run g ps in
  ∃ k, gate_effect g g' ps k out res ∧ w = k * TS_PACKET_LEN.
Proof.
  revert g. induction ps as [|p ps IH]; intros g Hg Hps; cbn [gate_run].
  { exists 0. split; [|done]. split_and!; [done|apply aligned_nil|done|]. by destruct (g_locked g). }
  apply Forall_cons in Hps as [Hp Hps]. pose proof (observe_synced _ p (go_tables _ Hg) Hp) as Ha.
  unfold gate_step. rewrite (go_untitled _ Hg). cbn [andb].
  destruct (access_observe (access g) p) as [ap a] eqn:Eo. cbn [snd] in Ha.
  assert (∀ l sc c m, gate_ok (mkGate (g_buf g) l a sc (max_scan_packets g) false c m)) as Hok.
  { intros. constructor; [apply Hg|done|done]. }
  unfold gate_effect. destruct (g_locked g) eqn:Hl.
  - cbn [st_gate st_out st_withheld st_resumed].
    match goal with |- context [gate_run ?g1 ps] => specialize (IH g1 (Hok _ _ _ _) Hps) end.
    destruct (gate_run _ ps) as [[[g' out] w] res].
    destruct IH as (k & (Hg' & Hal & Hk & Heff) & ->). cbn [g_locked] in Heff.
    destruct Heff as (-> & Hl' & -> & ->). exists 0. split; [|done].
    split_and!; [done| |simpl; lia|done|done|done|done].
    change (aligned (p ++ concat ps)). by apply aligned_app; [apply aligned_one|].
  - assert (∀ g1 res1 lead, g_locked g1 = true → gate_ok g1 → lead ≠ [] → aligned lead → is_Some res1 →
      let '(g', out, w, res) := gate_run g1 ps in
      ∃ k, (gate_ok g' ∧ aligned (lead ++ out) ∧ k ≤ length (p :: ps) ∧
        if bool_decide (k < length (p :: ps)) then g_locked g' = true ∧
          is_Some (match res with Some x => Some x | None => res1 end) ∧
          ∃ lead', lead' ≠ [] ∧ lead ++ out = lead' ++ concat (drop (S k) (p :: ps))
        else g_locked g' = false ∧ match res with Some x => Some x | None => res1 end = None ∧ lead ++ out = []) ∧
        0 + w = k * TS_PACKET_LEN) as Hopen.
    { intros g1 res1 lead Hl1 Hg1 Hne Hal Hres. specialize (IH g1 Hg1 Hps).
      destruct (gate_run g1 ps) as [[[g' out] w] res].
      destruct IH as (k & (Hg' & Hal' & Hk & Heff) & ->). rewrite Hl1 in Heff.
      destruct Heff as (-> & Hl' & -> & ->). exists 0. split; [|done].
      split_and!; [done|by apply aligned_app|simpl; lia|].
      rewrite bool_decide_true by (simpl; lia). split_and!; [done|done|]. by exists lead. }
    destruct ap.
    + pose proof (tables_aligned a (next_sdt_counter g) Ha) as Ht.
      destruct (append_gate_tables a (next_sdt_counter g)) as [c tables]. cbn [snd] in Ht.
      cbn [st_gate st_out st_withheld st_resumed].
      destruct (marked_aligned (mark_discontinuity g) None p Hp) as (lead & -> & HlF & Hlne).
      match goal with |- context [gate_run ?g1 ps] =>
        specialize (Hopen g1 (Some AccessPoint) (tables ++ concat lead)) end.
      destruct (gate_run _ ps) as [[[g' out] w] res].
      apply Hopen; [done|apply Hok| |apply aligned_app; [done|by apply aligned_concat]|by eexists].
      destruct lead as [|p0 lead]; [done|]. apply Forall_cons in HlF as [[Hp0 _] _].
      destruct tables; [|done]. destruct p0; [done|done].
    + destruct (max_scan_packets g <=? u64_add (scanned g) 1)%N.
      * cbn [st_gate st_out st_withheld st_resumed].
        destruct (marked_aligned (mark_discontinuity g) (video_pid a) p Hp) as (lead & -> & HlF & Hlne).
        match goal with |- context [gate_run ?g1 ps] =>
          specialize (Hopen g1 (Some ScanBudget) (concat lead)) end.
        destruct (gate_run _ ps) as [[[g' out] w] res].
        apply Hopen; [done|apply Hok| |by apply aligned_concat|by eexists].
        destruct lead as [|p0 lead]; [done|]. apply Forall_cons in HlF as [[Hp0 _] _]. by destruct p0.
      * cbn [st_gate st_out st_withheld st_resumed].
        match goal with |- context [gate_run ?g1 ps] => specialize (IH g1 (Hok _ _ _ _) Hps) end.
        destruct (gate_run _ ps) as [[[g' out] w] res].
        destruct IH as (k & (Hg' & Hal & Hk & Heff) & ->). cbn [g_locked] in Heff.
        exists (S k). split; [|simpl; lia]. split_and!; [done|done|simpl; lia|].
        rewrite (bool_decide_ext (S k < length (p :: ps)) (k < length ps)) by (simpl; lia).
        by destruct (bool_decide (k < length ps)), res.
Qed.

(** The forwarded ranges of a run of turns. *)
Lemma turn_locked p r : filter_sdt (run_gate r) = false → g_locked (run_gate r) = true →
  let r' := gate_turn p r in
  filter_sdt (run_gate r') = false ∧ g_locked (run_gate r') = true ∧
  run_i r' = run_i r + TS_PACKET_LEN ∧
  forwarded (run_report r') = add_selected (run_i r) (forwarded (run_report r)) ∧
  withheld_bytes (run_report r') = withheld_bytes (run_report r).
Proof.
  intros Hf Hl. unfold gate_turn, gate_step. rewrite Hf, Hl. cbn [andb].
  destruct (access_observe _ p) as [ap a]. simpl. split_and!; [done|done|done|done|lia].
Qed.

Lemma fold_locked ps a r : filter_sdt (run_gate r) = false → g_locked (run_gate r) = true →
  forwarded (run_report r) = [(a, run_i r)] →
  let r' := foldl (λ r p, gate_turn p r) r ps in
  forwarded (run_report r') = [(a, run_i r + length ps * TS_PACKET_LEN)] ∧
  withheld_bytes (run_report r') = withheld_bytes (run_report r).
Proof.
  revert r. induction ps as [|p ps IH]; intros r Hf Hl Hw.
  { cbn [foldl length]. by rewrite Nat.add_0_r, Hw. }
  destruct (turn_locked p r Hf Hl) as (Hf' & Hl' & Hi & Hfw & Hwh). cbn [foldl length].
  assert (forwarded (run_report (gate_turn p r)) = [(a, run_i (gate_turn p r))]) as Hfw'.
  { rewrite Hfw, Hw, Hi. unfold add_selected. cbn [last].
    rewrite decide_True by done. done. }
  destruct (IH (gate_turn p r) Hf' Hl' Hfw') as [E1 E2]. cbv zeta. rewrite E1, E2, Hi, Hwh.
  split; [|done]. do 2 f_equal. lia.
Qed.

Lemma fold_fresh ps r : filter_sdt (run_gate r) = false → forwarded (run_report r) = [] →
  let r' := foldl (λ r p, gate_turn p r) r ps in
  ∃ k, k ≤ length ps ∧ withheld_bytes (run_report r') = withheld_bytes (run_report r) + k * TS_PACKET_LEN ∧
  forwarded (run_report r') =
    if bool_decide (k < length ps)
    then [(run_i r + k * TS_PACKET_LEN, run_i r + length ps * TS_PACKET_LEN)] else [].
Proof.
  revert r. induction ps as [|p ps IH]; intros r Hf Hw; cbn [foldl length].
  { exists 0. split_and!; [done|lia|done]. }
  destruct (g_locked (run_gate (gate_turn p r))) eqn:Hl'.
  - assert (filter_sdt (run_gate (gate_turn p r)) = false ∧
      forwarded (run_report (gate_turn p r)) = [(run_i r, run_i (gate_turn p r))] ∧
      withheld_bytes (run_report (gate_turn p r)) = withheld_bytes (run_report r)) as (Hf1 & Hw1 & Hwh).
    { unfold gate_turn, gate_step in *. rewrite Hf in *. cbn [andb] in *.
      destruct (access_observe _ p) as [ap a]. destruct (g_locked (run_gate r)).
      - simpl. rewrite Hw. split_and!; [done|done|lia].
      - destruct ap; [destruct (append_gate_tables _ _)|destruct (_ <=? _)%N]; simpl in *;
          rewrite ?Hw; split_and!; try done; lia. }
    destruct (fold_locked ps (run_i r) (gate_turn p r) Hf1 Hl' Hw1) as [E1 E2].
    exists 0. cbv zeta. rewrite E1, E2, Hwh. split_and!; [lia|lia|].
    rewrite bool_decide_true by lia. change (run_i (gate_turn p r)) with (run_i r + TS_PACKET_LEN).
    do 2 f_equal; lia.
  - assert (filter_sdt (run_gate (gate_turn p r)) = false ∧ forwarded (run_report (gate_turn p r)) = [] ∧
      withheld_bytes (run_report (gate_turn p r)) = withheld_bytes (run_report r) + TS_PACKET_LEN)
      as (Hf1 & Hw1 & Hwh).
    { unfold gate_turn, gate_step in *. rewrite Hf in *. cbn [andb] in *.
      destruct (access_observe _ p) as [ap a]. destruct (g_locked (run_gate r)); [done|].
      destruct ap; [by destruct (append_gate_tables _ _)|destruct (_ <=? _)%N]; simpl in *; done. }
    destruct (IH _ Hf1 Hw1) as (k & Hk & E1 & E2). exists (S k). cbv zeta. rewrite E1, E2, Hwh.
    change (run_i (gate_turn p r)) with (run_i r + TS_PACKET_LEN).
    split_and!; [lia|lia|]. rewrite (bool_decide_ext (S k < S (length ps)) (k < length ps)) by lia.
    case_bool_decide; [|done]. do 2 f_equal; lia.
Qed.

Lemma gate_push_effect g d : gate_ok g → aligned d →
  let '(o, g') := gate_push_report g d in
  ∃ ps k, d = concat ps ∧ Forall sync_packet ps ∧
    gate_effect g g' ps k (gate_bytes o) (resumed o) ∧
    forwarded o = if bool_decide (k < length ps) then [(k * TS_PACKET_LEN, length d)] else [].
Proof.
  intros Hg (ps & -> & Hps)%aligned_packets.
  assert (Forall is_packet ps) as Hpk by (eapply Forall_impl; [exact Hps|by intros ? []]).
  pose proof (gate_push_packets g (concat ps) ps []) as Hpush.
  pose proof (gate_run_effect ps g Hg Hps) as Hrun.
  pose proof (fold_fresh ps (mkRun 0 g (mkGateOutput [] [] 0 None)) (go_untitled _ Hg) eq_refl) as Hfold.
  cbv zeta in Hfold. destruct Hfold as (k' & Hk' & Hw' & Hfw').
  assert (run_report (gate_loop (S (length (g_buf g ++ concat ps))) (g_buf g ++ concat ps)
    (mkRun 0 g (mkGateOutput [] [] 0 None))) =
    run_report (foldl (λ r p, gate_turn p r) (mkRun 0 g (mkGateOutput [] [] 0 None)) ps)) as Hloop.
  { rewrite (go_buf _ Hg). cbn [app]. f_equal.
    pose proof (gate_loop_packets ps (S (length (concat ps))) [] []
      (mkRun 0 g (mkGateOutput [] [] 0 None)) eq_refl Hpk) as Hgl.
    rewrite app_nil_r in Hgl. cbn [app] in Hgl. apply Hgl; [unfold TS_PACKET_LEN; simpl; lia|].
    rewrite (length_concat_const ps TS_PACKET_LEN) by done. unfold TS_PACKET_LEN. lia. }
  unfold gate_push_report in *. cbv zeta in *. rewrite Hloop in *.
  rewrite app_nil_r, (go_buf _ Hg) in Hpush. cbn [app] in Hpush.
  specialize (Hpush eq_refl Hpk ltac:(unfold TS_PACKET_LEN; simpl; lia)).
  destruct (gate_run g ps) as [[[g1 out] w] res] eqn:Erun.
  destruct Hpush as (E1 & E2 & E3 & E4). destruct Hrun as (k & (Hok & Hal & Hk & Heff) & Ewk).
  rewrite (go_buf _ Hg). cbn [app]. rewrite E4.
  exists ps, k. split_and!; [done|done| |].
  - rewrite E1, E3. split_and!; [|done|done|destruct (g_locked g); [done|by destruct (bool_decide _)]].
    destruct Hok. by constructor.
  - rewrite Hfw'. cbn [run_i]. cbn [withheld_bytes run_report] in Hw'.
    assert (k' = k) as -> by (unfold TS_PACKET_LEN in *; lia).
    rewrite (length_concat_const ps TS_PACKET_LEN) by done. by rewrite !Nat.add_0_l.
Qed.

(** ** Lemmas: spans *)

(** Position [q] lies in a span credited to [c]. *)
Definition label (spans : list Span) (q : nat) (c : N) : Prop :=
  ∃ s, s ∈ spans ∧ s_start s ≤ q < s_end s ∧ s_credit s = c.

Lemma s_start_mk a b (c : N) : s_start (a, b, c) = a.
Proof. done. Qed.
Lemma s_end_mk a b (c : N) : s_end (a, b, c) = b.
Proof. done. Qed.

(** Non-empty spans below [n], in order and disjoint. *)
Definition spans_ok (n : nat) (spans : list Span) : Prop :=
  Forall (λ s, s_start s < s_end s ≤ n) spans ∧ StronglySorted (λ s t, s_end s ≤ s_start t) spans.

Lemma label_app l1 l2 q c : label (l1 ++ l2) q c ↔ label l1 q c ∨ label l2 q c.
Proof. unfold label. setoid_rewrite elem_of_app. naive_solver. Qed.

Lemma spans_ok_app n l1 l2 : spans_ok n (l1 ++ l2) ↔
  spans_ok n l1 ∧ spans_ok n l2 ∧ ∀ s t, s ∈ l1 → t ∈ l2 → s_end s ≤ s_start t.
Proof. unfold spans_ok. rewrite Forall_app, StronglySorted_app. naive_solver. Qed.

Lemma spans_ok_mono m n l : m ≤ n → spans_ok m l → spans_ok n l.
Proof. intros Hmn [HF HS]. split; [|done]. eapply Forall_impl; [exact HF|simpl; lia]. Qed.

Lemma spans_ok_elem n l s : spans_ok n l → s ∈ l → s_start s < s_end s ≤ n.
Proof. intros [HF _] Hs. rewrite Forall_forall in HF. auto. Qed.

Lemma skip_ended_spec n a l : spans_ok n l →
  ∃ pre, l = pre ++ skip_ended a l ∧ (∀ s, s ∈ pre → s_end s ≤ a) ∧
    (∀ s, s ∈ skip_ended a l → a < s_end s) ∧
    length pre = partition_point (λ s, bool_decide (s_end s ≤ a)) l.
Proof.
  induction l as [|s l IH]; intros Hl; cbn [skip_ended partition_point].
  { exists []. split_and!; [done|by intros ? ?%not_elem_of_nil..|done]. }
  case_bool_decide as Hs.
  - destruct IH as (pre & E & H1 & H2 & H3); [by apply (spans_ok_app n [s] l) in Hl as (_ & ? & _)|].
    exists (s :: pre). split_and!; [by rewrite <-app_comm_cons, <-E| |done|simpl; lia].
    intros t [->|Ht]%elem_of_cons; auto.
  - exists []. split_and!; [done|by intros ? ?%not_elem_of_nil| |done].
    apply (spans_ok_app n [s] l) in Hl as (H1 & H2 & H3).
    intros t [->|Ht]%elem_of_cons; [lia|]. pose proof (spans_ok_elem _ _ _ H2 Ht).
    specialize (H3 s t ltac:(by left) Ht). lia.
Qed.

Lemma take_started_spec n b l : spans_ok n l →
  ∃ suf, l = take_started b l ++ suf ∧ (∀ s, s ∈ take_started b l → s_start s < b) ∧
    (∀ s, s ∈ suf → b ≤ s_start s) ∧
    length (take_started b l) = partition_point (λ s, bool_decide (s_start s < b)) l.
Proof.
  induction l as [|s l IH]; intros Hl; cbn [take_started partition_point].
  { exists []. split_and!; [done|by intros ? ?%not_elem_of_nil..|done]. }
  case_bool_decide as Hs.
  - destruct IH as (suf & E & H1 & H2 & H3); [by apply (spans_ok_app n [s] l) in Hl as (_ & ? & _)|].
    exists suf. split_and!; [by rewrite <-app_comm_cons, <-E| |done|simpl; lia].
    intros t [->|Ht]%elem_of_cons; auto.
  - exists (s :: l). split_and!; [done|by intros ? ?%not_elem_of_nil| |done].
    apply (spans_ok_app n [s] l) in Hl as (H1 & H2 & H3).
    intros t [->|Ht]%elem_of_cons; [lia|].
    pose proof (spans_ok_elem _ _ _ H1 (list_elem_of_here s [])). specialize (H3 s t ltac:(by left) Ht). lia.
Qed.

(** The spans a range meets, and what they say of its positions. *)
Definition meets (a b : nat) (l : list Span) : list Span := take_started b (skip_ended a l).

Lemma meets_spec n a b l : spans_ok n l →
  spans_ok n (skip_ended a l) ∧ spans_ok n (meets a b l) ∧
  (∀ s, s ∈ meets a b l → s ∈ l ∧ s_start s < b ∧ a < s_end s) ∧
  (∀ q c, a ≤ q → label (skip_ended a l) q c ↔ label l q c) ∧
  (∀ q c, a ≤ q < b → label (meets a b l) q c ↔ label l q c).
Proof.
  intros Hl. destruct (skip_ended_spec n a l Hl) as (pre & E & Hpre & Hrest & _).
  assert (spans_ok n (skip_ended a l)) as Hk by (rewrite E in Hl; by apply spans_ok_app in Hl as (_ & ? & _)).
  destruct (take_started_spec n b _ Hk) as (suf & E2 & Ht & Hsuf & _). fold (meets a b l) in *.
  assert (∀ q c, a ≤ q → label (skip_ended a l) q c ↔ label l q c) as Hlab.
  { intros q c Hq. rewrite E at 2. rewrite label_app. split; [by right|].
    intros [(s & Hs & Hr & _)|]; [|done]. apply Hpre in Hs. lia. }
  split_and!; [done| | |done|].
  - rewrite E2 in Hk. by apply spans_ok_app in Hk as (? & _).
  - intros s Hs. split_and!; [|by apply Ht|].
    + rewrite E, E2. set_solver.
    + apply Hrest. rewrite E2. set_solver.
  - intros q c Hq. rewrite <-Hlab by lia. rewrite E2. rewrite label_app. split; [by left|].
    intros [|(s & Hs & Hr & _)]; [done|]. apply Hsuf in Hs. lia.
Qed.

Lemma push_credit_spec cs c : NoDup cs →
  NoDup (push_credit cs c) ∧ ∀ x, x ∈ push_credit cs c ↔ x ∈ cs ∨ x = c.
Proof.
  intros Hn. unfold push_credit. destruct (existsb (N.eqb c) cs) eqn:E.
  - split; [done|]. apply existsb_exists in E as (y & Hy & ->%N.eqb_eq). intros x.
    split; [by left|]. intros [?| ->]; [done|by apply list_elem_of_In].
  - split.
    + apply NoDup_app. split_and!; [done| |apply NoDup_singleton].
      intros x Hx ->%list_elem_of_singleton. apply not_true_iff_false in E. apply E.
      apply existsb_exists. exists c. split; [by apply list_elem_of_In|apply N.eqb_refl].
    + intros x. by rewrite elem_of_app, list_elem_of_singleton.
Qed.

Lemma push_credits_spec l cs : NoDup cs →
  NoDup (fold_left push_credit l cs) ∧ ∀ x, x ∈ fold_left push_credit l cs ↔ x ∈ cs ∨ x ∈ l.
Proof.
  revert cs. induction l as [|c l IH]; intros cs Hn; simpl.
  { split; [done|]. intros x. split; [by left|]. by intros [?|?%not_elem_of_nil]. }
  destruct (push_credit_spec cs c Hn) as [Hn1 H1]. destruct (IH _ Hn1) as [Hn2 H2].
  split; [done|]. intros x. rewrite H2, H1, elem_of_cons. tauto.
Qed.

(** The forwarded credits are exactly the labels of the forwarded positions. *)
Lemma forwarded_credits_one n a b spans : a < b → spans_ok n spans →
  NoDup (forwarded_credits [(a, b)] spans []) ∧
  ∀ c, c ∈ forwarded_credits [(a, b)] spans [] ↔ ∃ q, a ≤ q < b ∧ label spans q c.
Proof.
  intros Hab Hs. cbn [forwarded_credits fst snd]. fold (meets a b spans).
  destruct (push_credits_spec (map s_credit (meets a b spans)) [] (NoDup_nil_2)) as [Hn Hin].
  destruct (meets_spec n a b spans Hs) as (_ & Hok & Hm & _ & Hlab). split; [done|]. intros c.
  rewrite Hin, elem_of_map. split.
  - intros [?%not_elem_of_nil|(s & -> & Hs')]; [done|]. pose proof (spans_ok_elem _ _ _ Hok Hs').
    destruct (Hm s Hs') as (Hsl & Hs1 & Hs2). exists (max a (s_start s)). split; [lia|].
    exists s. split_and!; [done|lia|lia|done].
  - intros (q & Hq & Hc). apply Hlab in Hc as (s & Hs' & _ & <-); [|done]. right. eauto.
Qed.

(** Where the selected bytes come from. *)
Definition positions (ranges : list (nat * nat)) : list nat :=
  concat (map (λ r, seq r.1 (r.2 - r.1)) ranges).

Definition ranges_ok (ranges : list (nat * nat)) : Prop :=
  Forall (λ r, r.1 < r.2) ranges ∧ StronglySorted (λ r s, r.2 < s.1) ranges.

Lemma positions_lower a ranges k : Forall (λ r, a ≤ r.1) ranges → k ∈ positions ranges → a ≤ k.
Proof.
  intros HF (l & Hk & (r & -> & Hr)%elem_of_map)%elem_of_concat. rewrite Forall_forall in HF.
  apply HF in Hr. apply elem_of_seq in Hk. lia.
Qed.

(** One selected range: its spans at their new offsets. *)
Lemma shifted_label n a b off spans q c : a < b → spans_ok n spans →
  label (map (λ s, (off + max (s_start s) a - a, off + min (s_end s) b - a, s_credit s))
    (meets a b spans)) q c ↔ ∃ j, j < b - a ∧ q = off + j ∧ label spans (a + j) c.
Proof.
  intros Hab Hs. destruct (meets_spec n a b spans Hs) as (_ & Hok & Hm & _ & Hlab). split.
  - intros (t & (s & -> & Hs')%elem_of_map & Hq & <-). rewrite ?s_start_mk, ?s_end_mk in Hq.
    destruct (Hm s Hs') as (Hsl & Hs1 & Hs2). exists (q - off). split_and!; [lia|lia|].
    exists s. split_and!; [done|lia|lia|done].
  - intros (j & Hj & -> & Hc). apply Hlab in Hc as (s & Hs' & Hq & <-); [|lia].
    eexists. split; [apply elem_of_map; eexists; split; [reflexivity|exact Hs']|].
    rewrite ?s_start_mk, ?s_end_mk. split; [lia|done].
Qed.

Lemma shifted_ok n a b off spans : a < b → spans_ok n spans →
  let l := map (λ s, (off + max (s_start s) a - a, off + min (s_end s) b - a, s_credit s))
    (meets a b spans) in
  spans_ok (off + (b - a)) l ∧ Forall (λ s, off ≤ s_start s) l.
Proof.
  intros Hab Hs. destruct (meets_spec n a b spans Hs) as (_ & [HF HS] & Hm & _ & _). cbv zeta.
  split; [split|].
  - apply Forall_map, Forall_forall. intros s Hs'. destruct (Hm s Hs') as (Hsl & H1 & H2).
    pose proof (spans_ok_elem _ _ _ Hs Hsl). rewrite ?s_start_mk, ?s_end_mk. lia.
  - apply StronglySorted_fmap with (f := λ s, (off + max (s_start s) a - a, off + min (s_end s) b - a, s_credit s))
      (R1 := λ s t, s_end s ≤ s_start t); [|done].
    intros s t Hst. rewrite ?s_start_mk, ?s_end_mk. lia.
  - apply Forall_map, Forall_forall. intros s Hs'. rewrite ?s_start_mk, ?s_end_mk. lia.
Qed.

Lemma select_spans_spec n ranges spans off : ranges_ok ranges → spans_ok n spans →
  let l := select_spans ranges spans off in
  spans_ok (off + length (positions ranges)) l ∧ Forall (λ s, off ≤ s_start s) l ∧
  ∀ q c, label l q c ↔ ∃ j k, q = off + j ∧ positions ranges !! j = Some k ∧ label spans k c.
Proof.
  revert spans off. induction ranges as [|[a b] ranges IH]; intros spans off [HF HS] Hs; cbn [select_spans fst snd].
  { split_and!; [by repeat constructor|constructor|]. intros q c. unfold label. split.
    - by intros (s & ?%not_elem_of_nil & _).
    - intros (j & k & _ & [=] & _). }
  apply Forall_cons in HF as [Hab HF]. apply StronglySorted_inv in HS as [HS Hlt]. simpl in Hab, Hlt.
  destruct (meets_spec n a b spans Hs) as (Hs' & _ & _ & Hlab & _). fold (meets a b spans).
  destruct (IH (skip_ended a spans) (off + (b - a)) (conj HF HS) Hs') as (I1 & I2 & I3).
  destruct (shifted_ok n a b off spans Hab Hs) as [J1 J2].
  assert (positions ((a, b) :: ranges) = seq a (b - a) ++ positions ranges) as -> by done.
  assert (length (seq a (b - a) ++ positions ranges) = (b - a) + length (positions ranges)) as ->
    by by rewrite length_app, length_seq.
  cbv zeta. split_and!.
  - apply spans_ok_app. split_and!; [eapply spans_ok_mono; [|exact J1]; lia
      |eapply spans_ok_mono; [|exact I1]; lia|].
    intros s t Hs1 Ht. pose proof (spans_ok_elem _ _ _ J1 Hs1). rewrite Forall_forall in I2.
    specialize (I2 t Ht). simpl in I2. lia.
  - apply Forall_app. split; [done|]. eapply Forall_impl; [exact I2|simpl; lia].
  - intros q c. rewrite label_app, (shifted_label n) by done. rewrite I3. split.
    + intros [(j & Hj & -> & Hc)|(j & k & -> & Hk & Hc)].
      * exists j, (a + j). split_and!; [done| |done].
        rewrite lookup_app_l by (rewrite length_seq; lia). by rewrite lookup_seq_lt.
      * exists (b - a + j), k. split_and!; [lia| |].
        -- rewrite lookup_app_r by (rewrite length_seq; lia). rewrite length_seq.
           by replace (b - a + j - (b - a)) with j by lia.
        -- apply Hlab; [|done]. eapply (positions_lower a ranges); [|by eapply list_elem_of_lookup_2].
           eapply Forall_impl; [exact Hlt|simpl; lia].
    + intros (j & k & -> & Hk & Hc). destruct (decide (j < b - a)).
      * left. rewrite lookup_app_l in Hk by (rewrite length_seq; lia).
        rewrite lookup_seq_lt in Hk by lia. injection Hk as <-. eauto.
      * right. rewrite lookup_app_r, length_seq in Hk by (rewrite length_seq; lia).
        exists (j - (b - a)), k. split_and!; [lia|done|]. apply Hlab; [|done].
        eapply (positions_lower a ranges); [|by eapply list_elem_of_lookup_2].
        eapply Forall_impl; [exact Hlt|simpl; lia].
Qed.

(** [slice_credit] restricts the spans to a part of the bytes. *)
Lemma take_started_drop b pre l : (∀ s, s ∈ pre → s_start s < b) →
  take_started b (pre ++ l) = pre ++ take_started b l.
Proof.
  induction pre as [|s pre IH]; intros Hpre; [done|]. cbn [app take_started].
  rewrite bool_decide_true by (apply Hpre; by left). rewrite IH; [done|]. intros t Ht. apply Hpre. by right.
Qed.

Lemma slice_meets n a b spans : a ≤ b → spans_ok n spans →
  slice spans (partition_point (λ s, bool_decide (s_end s ≤ a)) spans)
    (partition_point (λ s, bool_decide (s_start s < b)) spans) = meets a b spans.
Proof.
  intros Hab Hs. destruct (skip_ended_spec n a spans Hs) as (pre & E & Hpre & _ & Hlen).
  destruct (take_started_spec n b spans Hs) as (suf & _ & _ & _ & Hlen2).
  rewrite <-Hlen, <-Hlen2. unfold slice, meets.
  assert (take_started b spans = pre ++ take_started b (skip_ended a spans)) as Et.
  { rewrite E at 1. apply take_started_drop. intros s Hin.
    pose proof (spans_ok_elem n spans s Hs ltac:(rewrite E; set_solver)). apply Hpre in Hin. lia. }
  rewrite Et, length_app. replace (_ + _ - _) with (length (take_started b (skip_ended a spans))) by lia.
  replace (drop (length pre) spans) with (skip_ended a spans) by (rewrite E at 2; by rewrite drop_app_length).
  destruct (take_started_spec n b (skip_ended a spans)) as (suf' & E' & _).
  { rewrite E in Hs. by apply spans_ok_app in Hs as (_ & ? & _). }
  rewrite E' at 2. by rewrite take_app_length.
Qed.

Lemma slice_credit_eq n a b spans : a < b → spans_ok n spans →
  slice_credit spans a b =
  map (λ s, (0 + max (s_start s) a - a, 0 + min (s_end s) b - a, s_credit s)) (meets a b spans).
Proof.
  intros Hab Hs. unfold slice_credit. rewrite (slice_meets n) by (done || lia).
  destruct (meets_spec n a b spans Hs) as (_ & Hok & Hm & _ & _).
  assert (∀ l, (∀ s, s ∈ l → s ∈ meets a b spans) →
    omap (λ s, if bool_decide (max (s_start s) a < min (s_end s) b)
               then Some (max (s_start s) a - a, min (s_end s) b - a, s_credit s) else None) l =
    map (λ s, (0 + max (s_start s) a - a, 0 + min (s_end s) b - a, s_credit s)) l) as Hgen; [|by apply Hgen].
  induction l as [|s l IH]; intros Hl; [done|]. csimpl.
  pose proof (Hm s (Hl s ltac:(by left))) as (_ & H1 & H2).
  pose proof (spans_ok_elem _ _ _ Hok (Hl s ltac:(by left))).
  rewrite bool_decide_true by lia. f_equal. apply IH. intros t Ht. apply Hl. by right.
Qed.

Lemma slice_credit_spec n a b spans : a < b → spans_ok n spans →
  spans_ok (b - a) (slice_credit spans a b) ∧
  ∀ q c, label (slice_credit spans a b) q c ↔ q < b - a ∧ label spans (a + q) c.
Proof.
  intros Hab Hs. rewrite (slice_credit_eq n) by done. split; [by apply (shifted_ok n a b 0)|].
  intros q c. rewrite (shifted_label n a b 0) by done. naive_solver.
Qed.

Lemma retain_spans_spec n k spans : spans_ok n spans →
  spans_ok (n - k) (retain_spans k spans) ∧
  ∀ q c, label (retain_spans k spans) q c ↔ label spans (k + q) c.
Proof.
  intros Hs. split.
  - induction spans as [|s l IH]; [by repeat constructor|].
    apply (spans_ok_app n [s] l) in Hs as (H1 & H2 & H3). specialize (IH H2).
    unfold retain_spans in *. csimpl. case_bool_decide as Hd; [done|].
    pose proof (spans_ok_elem _ _ _ H1 (list_elem_of_here s [])).
    apply (spans_ok_app (n - k) [_]). split_and!; [|done|].
    + split; [|repeat constructor]. apply Forall_singleton. rewrite ?s_start_mk, ?s_end_mk. lia.
    + intros x t ->%list_elem_of_singleton (s' & Hs' & Hb)%list_elem_of_omap. case_bool_decide; [done|].
      injection Hb as <-. specialize (H3 s s' ltac:(by left) Hs'). rewrite ?s_start_mk, ?s_end_mk. lia.
  - intros q c. unfold label, retain_spans. setoid_rewrite list_elem_of_omap. split.
    + intros (t & (s & Hin & Hb) & Hq & <-). case_bool_decide; [done|]. injection Hb as <-.
      exists s. rewrite ?s_start_mk, ?s_end_mk in Hq. split_and!; [done|lia|lia|done].
    + intros (s & Hin & Hq & <-). eexists. split; [exists s; split; [done|]|].
      * rewrite bool_decide_false by lia. reflexivity.
      * rewrite ?s_start_mk, ?s_end_mk. split; [lia|done].
Qed.

(** ** The invariant of the path *)

Record path_inv (p : OutputPath) : Prop := {
  pi_gate : gate_ok (output_gate p);
  pi_pending : discontinuity_pending p = negb (g_locked (output_gate p));
  pi_tail : resync_tail p = length (rs_buf (resync p));
  pi_spans : spans_ok (resync_tail p) (resync_credit p);
}.

Lemma spans_ok_nil n : spans_ok n [].
Proof. by repeat constructor. Qed.

Lemma synced_tables_new : synced_tables access_new.
Proof. by split_and!. Qed.

Lemma path_fresh_inv : path_inv path_fresh.
Proof. constructor; simpl; [|done|done|apply spans_ok_nil]. constructor; [done|done|apply synced_tables_new]. Qed.

Lemma arm_inv p : path_inv (arm_output_gate p).
Proof. constructor; simpl; [|done|done|apply spans_ok_nil]. constructor; [done|done|apply synced_tables_new]. Qed.

Lemma restart_inv p : path_inv p → path_inv (restart_resync p).
Proof. intros [H1 H2 _ _]. constructor; simpl; [done|done|done|apply spans_ok_nil]. Qed.

Lemma note_loss_inv p n now : path_inv p → path_inv (note_loss p n now).
Proof. intros [[H1 H2 H3] _ H4 H5]. constructor; simpl; [|done|done|done]. by constructor. Qed.

Lemma concat_drop_const (ls : list bytes) n k : Forall (λ l, length l = n) ls →
  concat (drop k ls) = drop (k * n) (concat ls).
Proof.
  intros HF. revert k. induction HF as [|l ls Hl HF IH]; intros [|k];
    [done|cbn [concat]; by rewrite !drop_nil|done|].
  cbn [drop concat]. rewrite IH. cbn [Nat.mul].
  rewrite drop_app, Hl. rewrite (drop_ge l) by lia. by replace (n + k * n - n) with (k * n) by lia.
Qed.

(** The bytes of an output against the part of the aligned stream it stands for: an unmarked one is
    that part; a marked one starts with the tables, a discontinuity marker or the marked packet the
    gate resumed at, and continues with the part after its first packet. *)
Definition part_bytes (out : bytes) (u v : nat) (o : LiveOutput) : Prop :=
  aligned (lo_bytes o) ∧ lo_bytes o ≠ [] ∧ u < v ≤ length out ∧
  if lo_discontinuity o
  then ∃ lead, lead ≠ [] ∧ lo_bytes o = lead ++ slice out (u + TS_PACKET_LEN) v
  else lo_bytes o = slice out u v.

Definition credits_of (spans : list Span) (u v : nat) (cs : list N) : Prop :=
  NoDup cs ∧ ∀ c, c ∈ cs ↔ ∃ q, u ≤ q < v ∧ label spans q c.

(** The fields an output step leaves alone. *)
Definition same_resync (p p' : OutputPath) : Prop :=
  resync_credit p' = resync_credit p ∧ resync_tail p' = resync_tail p ∧ resync p' = resync p.

Lemma filter_spec p d spans : path_inv p → aligned d → (d ≠ [] → spans_ok (length d) spans) →
  let '(p', r) := filter_output_after_discontinuity p d spans in
  path_inv p' ∧ same_resync p p' ∧
  match r with
  | None => pending_credit p' = pending_credit p ∧ discontinuity_pending p' = discontinuity_pending p
  | Some o => ∃ u cs, pending_credit p' = pending_credit p ++ [cs] ∧ credits_of spans u (length d) cs ∧
      part_bytes d u (length d) o ∧ lo_discontinuity o = discontinuity_pending p ∧
      (discontinuity_pending p = false → u = 0) ∧ discontinuity_pending p' = false
  end.
Proof.
  intros [Hg Hpd Ht Hsp] Hd Hspans. unfold filter_output_after_discontinuity.
  pose proof (gate_push_effect _ d Hg Hd) as Hpush.
  destruct (gate_push_report (output_gate p) d) as [o g'].
  destruct Hpush as (ps & k & -> & Hps & (Hok & Hal & Hk & Heff) & Hfw).
  assert (Forall (λ l, length l = TS_PACKET_LEN) ps) as Hlen by (eapply Forall_impl; [exact Hps|by intros ? []]).
  pose proof (length_concat_const ps _ Hlen) as Hl. cbv zeta.
  destruct (bool_decide_reflect (gate_bytes o = [])) as [Hb|Hb]; cbv beta iota.
  - split_and!; [|done|done|done]. constructor; cbn [output_gate discontinuity_pending resync_tail resync resync_credit];
      [done| |done|done].
    rewrite Hpd. destruct (g_locked (output_gate p)); [by destruct Heff as (_ & -> & _)|].
    case_bool_decide; [|by destruct Heff as (-> & _)].
    destruct Heff as (_ & _ & lead & Hne & E). rewrite Hb in E. by destruct lead.
  - assert (k < length ps ∧ g_locked g' = true) as [Hlt Hl'].
    { destruct (g_locked (output_gate p)).
      - destruct Heff as (-> & Hl' & _ & E). split; [|done]. destruct ps; [done|simpl; lia].
      - case_bool_decide; [by destruct Heff|]. by destruct Heff as (_ & _ & ?). }
    rewrite bool_decide_true in Hfw by done. rewrite Hfw.
    assert (concat ps ≠ []) as Hne by (intros E; rewrite E in Hl; simpl in Hl; unfold TS_PACKET_LEN in *; lia).
    assert (k * TS_PACKET_LEN < length (concat ps)) as Hu by (rewrite Hl; unfold TS_PACKET_LEN; lia).
    split_and!; [|done|].
    + constructor; cbn [output_gate discontinuity_pending resync_tail resync resync_credit]; [done|by rewrite Hl'|done|done].
    + eexists _, _. cbn [pending_credit discontinuity_pending lo_discontinuity]. split_and!; [done| | |done| |done].
      * by apply (forwarded_credits_one (length (concat ps))); [|apply Hspans].
      * unfold part_bytes. cbn [lo_bytes lo_discontinuity]. split_and!; [done|done|done|lia|].
        rewrite Hpd. destruct (g_locked (output_gate p)); cbn [negb].
        -- destruct Heff as (-> & _ & _ & ->). unfold slice. cbn [Nat.mul drop]. by rewrite Nat.sub_0_r, firstn_all.
        -- rewrite bool_decide_true in Heff by done. destruct Heff as (_ & _ & lead & Hlne & ->).
           exists lead. split; [done|]. f_equal. rewrite (concat_drop_const _ TS_PACKET_LEN) by done.
           unfold slice. rewrite take_ge by (rewrite length_drop; lia). f_equal. lia.
      * rewrite Hpd. intros Hlk%negb_false_iff. rewrite Hlk in Heff. by destruct Heff as (-> & _).
Qed.

(** One part of the aligned bytes, in the coordinates of the whole. *)
Lemma filter_part p out spans a b : path_inv p → aligned out → spans_ok (length out) spans →
  a ≤ b ≤ length out → (∃ q, a = q * TS_PACKET_LEN) → (∃ q, b = q * TS_PACKET_LEN) →
  let '(p', r) := filter_output_after_discontinuity p (slice out a b) (slice_credit spans a b) in
  path_inv p' ∧ same_resync p p' ∧
  match r with
  | None => pending_credit p' = pending_credit p ∧ discontinuity_pending p' = discontinuity_pending p
  | Some o => ∃ u cs, pending_credit p' = pending_credit p ++ [cs] ∧ credits_of spans u b cs ∧
      part_bytes out u b o ∧ lo_discontinuity o = discontinuity_pending p ∧ a ≤ u ∧
      discontinuity_pending p' = false
  end.
Proof.
  intros Hp Ho Hs Hab Ha Hb. assert (length (slice out a b) = b - a) as Hl by (apply slice_length; lia).
  assert (aligned (slice out a b)) as Hal.
  { unfold slice. apply aligned_take; [by apply aligned_drop|].
    destruct Ha as [qa ->], Hb as [qb ->]. exists (qb - qa). unfold TS_PACKET_LEN. lia. }
  pose proof (filter_spec p (slice out a b) (slice_credit spans a b) Hp Hal) as Hf.
  destruct (decide (a < b)) as [Hlt|Hge].
  - destruct (slice_credit_spec (length out) a b spans Hlt Hs) as [Hsc Hlab].
    rewrite Hl in Hf. specialize (Hf (λ _, Hsc)).
    destruct (filter_output_after_discontinuity _ _ _) as [p' [o|]]; [|done].
    destruct Hf as (H1 & H2 & u & cs & H3 & [Hnd Hcs] & (B1 & B2 & B3 & B4) & H5 & _ & H6).
    split_and!; [done|done|]. exists (a + u), cs. split_and!; [done| | |done|lia|done].
    + split; [done|]. intros c. rewrite Hcs. split.
      * intros (q & Hq & [_ Hc]%Hlab). exists (a + q). split; [lia|done].
      * intros (q & Hq & Hc). exists (q - a). split; [lia|]. apply Hlab. split; [lia|].
        by replace (a + (q - a)) with q by lia.
    + split_and!; [done|done|lia|lia|]. destruct (lo_discontinuity o).
      * destruct B4 as (lead & Hne & ->). exists lead. split; [done|]. f_equal.
        rewrite slice_slice by lia. f_equal; lia.
      * rewrite B4, slice_slice by lia. f_equal; lia.
  - assert (slice out a b = []) as E by (apply nil_length_inv; lia). rewrite E in *.
    specialize (Hf ltac:(done)). destruct (filter_output_after_discontinuity _ _ _) as [p' [o|]]; [|done].
    destruct Hf as (_ & _ & u & cs & _ & _ & (_ & _ & B3 & _) & _). simpl in B3. lia.
Qed.

Lemma slice_to_end {A} (l : list A) a : slice l a (length l) = drop a l.
Proof. unfold slice. apply take_ge. rewrite length_drop. lia. Qed.

(** The parts of the aligned bytes the outputs of one call stand for, with their credits. *)
Record outputs_ok (out : bytes) (spans : list Span) (pending : bool) (bounds : list TsResyncBoundary)
    (start : nat) (chunks : list LiveOutput) (credits : list (list N)) (parts : list (nat * nat)) : Prop := {
  oo_bytes : Forall2 (λ o part, part_bytes out part.1 part.2 o) chunks parts;
  oo_credits : Forall2 (λ cs part, credits_of spans part.1 part.2 cs) credits parts;
  oo_order : StronglySorted (λ x y, x.2 ≤ y.1) parts;
  oo_start : Forall (λ part, start ≤ part.1) parts;
  oo_marks : ∀ i o part, chunks !! i = Some o → parts !! i = Some part →
    lo_discontinuity o = true ↔ 0 < i ∨ pending = true ∨ ∃ b, b ∈ bounds ∧ output_offset b ≤ part.1;
}.

(** Whether a loss is still to be marked: one came after the last output. *)
Definition unmarked_loss (pending : bool) (bounds : list TsResyncBoundary) (parts : list (nat * nat)) : Prop :=
  match last parts with
  | None => pending = true ∨ bounds ≠ []
  | Some part => ∃ b, b ∈ bounds ∧ part.2 ≤ output_offset b
  end.

Lemma boundary_loop_spec bounds p out spans start now :
  path_inv p → aligned out → spans_ok (length out) spans →
  start ≤ length out → (∃ q, start = q * TS_PACKET_LEN) →
  Forall (λ b, (∃ q, output_offset b = q * TS_PACKET_LEN) ∧ start ≤ output_offset b ≤ length out) bounds →
  StronglySorted (λ b c, output_offset b < output_offset c) bounds →
  let '(p', chunks) := boundary_loop p out spans start bounds now in
  path_inv p' ∧ same_resync p p' ∧
  ∃ credits parts, pending_credit p' = pending_credit p ++ credits ∧
    outputs_ok out spans (discontinuity_pending p) bounds start chunks credits parts ∧
    (discontinuity_pending p' = true ↔ unmarked_loss (discontinuity_pending p) bounds parts).
Proof.
  intros Hp Ho Hs. revert p start Hp. induction bounds as [|b bounds IH]; intros p start Hp Hst Hq HF HS;
    cbn [boundary_loop].
  - pose proof (filter_part p out spans start (length out) Hp Ho Hs) as Hf. rewrite slice_to_end in Hf.
    destruct Ho as (n & Hn & Hsync). specialize (Hf ltac:(lia) Hq ltac:(by exists n)).
    destruct (filter_output_after_discontinuity _ _ _) as [p' [o|]].
    + destruct Hf as (H1 & H2 & u & cs & H3 & Hcs & Hb & Hm & Hu & H6). split_and!; [done|done|].
      exists [cs], [(u, length out)]. split_and!; [done| |].
      2: { rewrite H6. split; [done|]. by intros (b & ?%not_elem_of_nil & _). }
      constructor; cbn [option_list].
      * constructor; [done|constructor].
      * constructor; [done|constructor].
      * by repeat constructor.
      * by constructor.
      * intros [|i] o' part Hi Hpt; [|done]. injection Hi as <-. rewrite Hm. split; [naive_solver|].
        intros [?|[?|(b & ?%not_elem_of_nil & _)]]; [lia|done|done].
    + destruct Hf as (H1 & H2 & H3 & H4). split_and!; [done|done|]. exists [], [].
      rewrite app_nil_r. split_and!; [done| |].
      2: { rewrite H4. unfold unmarked_loss. simpl. naive_solver. }
      constructor; cbn [option_list]; try constructor; by intros.
  - apply Forall_cons in HF as [[Hbq Hb] HF]. apply StronglySorted_inv in HS as [HS Hlt].
    pose proof (filter_part p out spans start (output_offset b) Hp Ho Hs Hb Hq Hbq) as Hf.
    destruct (filter_output_after_discontinuity p _ _) as [p1 r].
    assert (path_inv p1 ∧ same_resync p p1) as [Hp1 Hsr1] by tauto.
    assert (Forall (λ c, (∃ q, output_offset c = q * TS_PACKET_LEN) ∧ output_offset b ≤ output_offset c ≤ length out) bounds) as HF'.
    { apply Forall_forall. intros c Hc. rewrite Forall_forall in HF, Hlt. specialize (HF c Hc).
      specialize (Hlt c Hc). simpl in *. split; [tauto|lia]. }
    specialize (IH (note_loss p1 (b_discarded b) now) (output_offset b) (note_loss_inv _ _ _ Hp1)
      ltac:(lia) Hbq HF' HS).
    destruct (boundary_loop _ out spans _ bounds now) as [p2 chunks].
    destruct IH as (Hp2 & Hsr2 & credits & parts & Hpc & [O1 O2 O3 O4 O5] & Hfin).
    cbn [note_loss pending_credit discontinuity_pending] in Hpc, O5, Hfin.
    assert (∀ u, discontinuity_pending p2 = true ↔
      unmarked_loss (discontinuity_pending p) (b :: bounds) parts ∧
      unmarked_loss (discontinuity_pending p) (b :: bounds) ((u, output_offset b) :: parts)) as Hfin'.
    { intros u. unfold unmarked_loss in *. rewrite Hfin. destruct (last parts) as [part|] eqn:El.
      - rewrite last_cons, El. assert (¬ part.2 ≤ output_offset b) as Hgt.
        { apply last_Some in El as [l' ->]. apply Forall_app in O4 as [_ O4].
          rewrite Forall_singleton in O4. apply Forall2_app_inv_r in O1 as (? & ? & _ & O1 & _).
          inversion O1 as [|? ? ? ? (_ & _ & ? & _)]; subst. lia. }
        split; [intros (c & Hc & ?); split; exists c; (split; [by right|done])|].
        intros [(c & [->|Hc]%elem_of_cons & ?) _]; [done|eauto].
      - rewrite last_cons, El. split; [intros _|by left]. split; [by right|].
        exists b. split; [by left|done]. }
    assert (same_resync p p2) as Hsr.
    { destruct Hsr1 as (? & ? & ?), Hsr2 as (? & ? & ?). unfold same_resync, note_loss in *. simpl in *.
      split_and!; congruence. }
    split_and!; [done|done|]. destruct r as [o|].
    + destruct Hf as (_ & _ & u & cs & H3 & Hcs & Hpb & Hm & Hu & _).
      exists (cs :: credits), ((u, output_offset b) :: parts).
      split_and!; [by rewrite Hpc, H3, <-app_assoc| |].
      2: { specialize (Hfin' u). split; [intros H; by apply Hfin'|]. intros H. apply Hfin'. split; [|done].
           unfold unmarked_loss in *. rewrite last_cons in H. destruct (last parts); [done|by right]. }
      pose proof Hpb as (B1 & B2 & B3 & B4).
      constructor; cbn [option_list app].
      * constructor; [exact Hpb|done].
      * by constructor.
      * by constructor.
      * constructor; [done|]. eapply Forall_impl; [exact O4|simpl; lia].
      * intros [|i] o' part Hi Hpt.
        -- injection Hi as <-. injection Hpt as <-. rewrite Hm. cbn [fst]. split; [naive_solver|].
           intros [?|[?|(c & [->|Hc]%elem_of_cons & Hle)]]; [lia|done|lia|].
           rewrite Forall_forall in Hlt. specialize (Hlt c Hc). simpl in Hlt. lia.
        -- cbn [lookup list_lookup] in Hi, Hpt. specialize (O5 i o' part Hi Hpt). split; [lia|].
           intros _. apply O5. by right; left.
    + destruct Hf as (_ & _ & H3 & _). exists credits, parts. split_and!; [by rewrite Hpc, H3| |].
      2: { specialize (Hfin' 0). split; [intros H; by apply Hfin'|]. intros H. apply Hfin'. split; [done|].
           unfold unmarked_loss in *. rewrite last_cons. destruct (last parts); [done|].
           exists b. split; [by left|done]. }
      constructor; cbn [option_list app]; [done|done|done|eapply Forall_impl; [exact O4|simpl; lia]|].
      intros i o' part Hi Hpt. specialize (O5 i o' part Hi Hpt). split.
      * intros _. right. right. exists b. split; [by left|]. rewrite Forall_lookup in O4. eauto.
      * intros _. apply O5. by right; left.
Qed.

(** ** A push as a whole *)

(** The spans of the retained tail and the new bytes. *)
Definition extended_credits (p : OutputPath) (data : bytes) (credit : option N) : list Span :=
  match credit with
  | Some c => if bool_decide (data = []) then resync_credit p
              else resync_credit p ++ [(resync_tail p, resync_tail p + length data, c)]
  | None => resync_credit p
  end.

Lemma extended_credits_ok p data credit : path_inv p →
  spans_ok (resync_tail p + length data) (extended_credits p data credit).
Proof.
  intros Hp. pose proof (pi_spans _ Hp) as Hs. unfold extended_credits.
  assert (spans_ok (resync_tail p + length data) (resync_credit p)) as Hs' by (eapply spans_ok_mono; [|done]; lia).
  destruct credit as [c|]; [|done]. case_bool_decide as Hd; [done|]. apply spans_ok_app. split_and!; [done| |].
  - split; [|repeat constructor]. apply Forall_singleton. rewrite s_start_mk, s_end_mk.
    destruct data; [done|simpl; lia].
  - intros s t Hin ->%list_elem_of_singleton. rewrite s_start_mk. by apply (spans_ok_elem _ _ _ Hs).
Qed.

Lemma positions_length buf sel : Forall (λ r, r.1 < r.2 ≤ length buf) sel →
  length (positions sel) = length (ranges_of buf sel) ∧
  ∀ q, ranges_of buf sel !! q = positions sel !! q ≫= λ k, buf !! k.
Proof.
  induction 1 as [|[a b] sel Hr _ [IH1 IH2]]; [done|]. simpl in Hr.
  assert (positions ((a, b) :: sel) = seq a (b - a) ++ positions sel) as -> by done.
  assert (ranges_of buf ((a, b) :: sel) = slice buf a b ++ ranges_of buf sel) as -> by done.
  rewrite !length_app, length_seq, slice_length by lia. split; [lia|]. intros q.
  destruct (decide (q < b - a)).
  - rewrite !lookup_app_l by (rewrite ?length_seq, ?slice_length; lia). rewrite lookup_seq_lt by lia.
    simpl. unfold slice. by rewrite lookup_take_lt, lookup_drop by lia.
  - rewrite !lookup_app_r by (rewrite ?length_seq, ?slice_length; lia).
    rewrite length_seq, slice_length by lia. apply IH2.
Qed.

Lemma resync_output_spec p data credit now : path_inv p →
  let '(p', chunks) := resync_output_credited p data credit now in
  let o := (push_report (resync p) data).1 in
  let buf := rs_buf (resync p) ++ data in
  let creds := extended_credits p data credit in
  path_inv p' ∧ resync p' = (push_report (resync p) data).2 ∧
  (∀ q c, label (resync_credit p') q c ↔ label creds (consumed o + q) c) ∧
  (∀ q, out_bytes o !! q = positions (selected o) !! q ≫= λ k, buf !! k) ∧
  ∃ spans credits parts, pending_credit p' = pending_credit p ++ credits ∧
    (∀ q c, label spans q c ↔ ∃ k, positions (selected o) !! q = Some k ∧ label creds k c) ∧
    outputs_ok (out_bytes o) spans (discontinuity_pending p) (boundaries o) 0 chunks credits parts ∧
    (discontinuity_pending p' = true ↔
       unmarked_loss (discontinuity_pending p) (boundaries o) parts).
Proof.
  intros Hp. unfold resync_output_credited. fold (extended_credits p data credit).
  pose proof (push_report_spec (resync p) data) as Hr.
  destruct (push_report (resync p) data) as [o r']. cbv zeta in *. cbn [fst snd].
  destruct Hr as (pr & Hi & -> & Hbuf & _ & _). cbn [selected consumed out_bytes boundaries].
  pose proof (extended_credits_ok p data credit Hp) as Hcr. set (creds := extended_credits p data credit) in *.
  destruct (ri_selected _ _ _ Hi) as [HsF HsS]. pose proof (ri_bound _ _ _ Hi) as Hbound.
  assert (ranges_ok (pr_selected pr)) as Hro.
  { split; [|done]. eapply Forall_impl; [exact HsF|simpl; lia]. }
  destruct (select_spans_spec _ _ _ 0 Hro Hcr) as (Hsp & _ & Hlab).
  destruct (positions_length (rs_buf (resync p) ++ data) (pr_selected pr)) as [Hpl Hpos].
  { eapply Forall_impl; [exact HsF|simpl; lia]. }
  rewrite <-(ri_out _ _ _ Hi) in Hpl, Hpos. rewrite Nat.add_0_l, Hpl in Hsp.
  destruct (retain_spans_spec _ (pr_i pr) _ Hcr) as [Hret Hretl].
  pose proof (ri_boundaries _ _ _ Hi) as [HbF HbS].
  match goal with |- context [boundary_loop ?x _ _ _ _ _] => set (p1 := x) end.
  assert (path_inv p1) as Hp1.
  { constructor; cbn; [apply Hp|apply Hp| |done].
    rewrite Hbuf, length_drop, length_app, (pi_tail _ Hp). lia. }
  pose proof (boundary_loop_spec (pr_boundaries pr) p1 (pr_out pr) (select_spans (pr_selected pr) creds 0) 0 now
    Hp1 (ri_aligned _ _ _ Hi) Hsp ltac:(lia) ltac:(by exists 0)) as Hloop.
  destruct (boundary_loop p1 _ _ _ _ _) as [p' chunks].
  destruct Hloop as (Hp' & (E1 & E2 & E3) & credits & parts & Hpc & Hoo & Hfin); [|done|].
  { eapply Forall_impl; [exact HbF|]. intros b (Hq & Hle & _). split; [done|lia]. }
  split_and!; [done|by rewrite E3|intros q c; rewrite E1; apply Hretl|done|].
  exists (select_spans (pr_selected pr) creds 0), credits, parts. split_and!; [done| |done|done].
  intros q c. rewrite Hlab. split; [intros (j & k & -> & ? & ?); eauto|intros (k & ? & ?); exists q, k; eauto].
Qed.

(** ** Properties *)

(** What a session does with its output path: the bytes of an emitted piece, a skip of pieces after
    output exists, and a skip before any output. *)
Inductive PathOp : Type :=
  | PushOp (data : bytes) (credit : option N) (now : N)
  | ArmOp
  | RestartOp.

Definition path_op (p : OutputPath) (op : PathOp) : OutputPath :=
  match op with
  | PushOp data credit now => (resync_output_credited p data credit now).1
  | ArmOp => arm_output_gate p
  | RestartOp => restart_resync p
  end.

Lemma path_op_inv p op : path_inv p → path_inv (path_op p op).
Proof.
  intros Hp. destruct op as [data credit now| |]; simpl; [|apply arm_inv|by apply restart_inv].
  pose proof (resync_output_spec p data credit now Hp) as H.
  destruct (resync_output_credited p data credit now) as [p' chunks]. by destruct H.
Qed.

Lemma path_run_inv ops p : path_inv p → path_inv (fold_left path_op ops p).
Proof. revert p. induction ops as [|op ops IH]; intros p Hp; [done|]. apply IH. by apply path_op_inv. Qed.

(** C36: every loss is visible in the output.  In every state of a session the next piece's bytes
    leave as non-empty runs of whole transport packets, in order; a run is marked as
    discontinuous exactly when the re-aligner or a skip of pieces lost bytes between it and the
    output before it, an unmarked run is an exact part of the aligned stream, and the gate is
    closed exactly as long as a loss has not been marked yet. *)
Theorem output_marks_every_loss ops data credit now :
  let p := fold_left path_op ops path_fresh in
  let '(p', chunks) := resync_output_credited p data credit now in
  let o := (push_report (resync p) data).1 in
  ∃ parts, Forall2 (λ chunk part, part_bytes (out_bytes o) part.1 part.2 chunk) chunks parts ∧
    StronglySorted (λ x y, x.2 ≤ y.1) parts ∧
    (∀ i chunk part, chunks !! i = Some chunk → parts !! i = Some part →
      lo_discontinuity chunk = true ↔
      0 < i ∨ discontinuity_pending p = true ∨ ∃ b, b ∈ boundaries o ∧ output_offset b ≤ part.1) ∧
    (discontinuity_pending p' = true ↔
      unmarked_loss (discontinuity_pending p) (boundaries o) parts) ∧
    discontinuity_pending p' = negb (is_locked (output_gate p')).
Proof.
  intros p. assert (path_inv p) as Hp by apply path_run_inv, path_fresh_inv.
  pose proof (resync_output_spec p data credit now Hp) as H.
  destruct (resync_output_credited p data credit now) as [p' chunks].
  destruct H as (Hp' & _ & _ & _ & spans & credits & parts & _ & _ & [O1 O2 O3 O4 O5] & Hfin).
  exists parts. split_and!; [done|done|done|done|apply Hp'].
Qed.

(** credit goes to exactly the peers whose bytes were delivered.  For every output there is one
    duplicate-free list of credits, and a credit is in it if and only if one of the bytes the
    output stands for was taken, at its position in the re-aligner's buffer, from a piece with that
    credit; bytes that stay in the buffer keep theirs. *)
Theorem outputs_credited_exactly ops data credit now :
  let p := fold_left path_op ops path_fresh in
  let '(p', chunks) := resync_output_credited p data credit now in
  let o := (push_report (resync p) data).1 in
  let buf := rs_buf (resync p) ++ data in
  let creds := extended_credits p data credit in
  ∃ credits parts, pending_credit p' = pending_credit p ++ credits ∧
    Forall2 (λ chunk part, part_bytes (out_bytes o) part.1 part.2 chunk) chunks parts ∧
    Forall2 (λ cs part, NoDup cs ∧ ∀ c, c ∈ cs ↔ ∃ q k, part.1 ≤ q < part.2 ∧
      positions (selected o) !! q = Some k ∧ out_bytes o !! q = buf !! k ∧ label creds k c)
      credits parts ∧
    ∀ q c, label (resync_credit p') q c ↔ label creds (consumed o + q) c.
Proof.
  intros p. assert (path_inv p) as Hp by apply path_run_inv, path_fresh_inv.
  pose proof (resync_output_spec p data credit now Hp) as H.
  destruct (resync_output_credited p data credit now) as [p' chunks]. cbv zeta in *.
  destruct H as (_ & _ & Hret & Hpos & spans & credits & parts & Hpc & Hlab & [O1 O2 O3 O4 O5] & _).
  exists credits, parts. split_and!; [done|done| |done].
  eapply Forall2_impl; [exact O2|]. intros cs part [Hnd Hcs]. split; [done|]. intros c. rewrite Hcs. split.
  - intros (q & Hq & (k & Hk & Hl)%Hlab). exists q, k. split_and!; [lia|lia|done| |done].
    by rewrite Hpos, Hk.
  - intros (q & k & Hq & Hk & _ & Hl). exists q. split; [done|]. apply Hlab. eauto.
Qed.

(** Two whole packets, one credited piece each, through a fresh path: the first leaves at once. *)
Example fresh_path_output :
  let pkt := TS_SYNC :: replicate 187 x00 in
  let '(p, chunks) := resync_output_credited path_fresh (pkt ++ pkt) (Some 7%N) 0 in
  chunks = [mkLiveOutput pkt false] ∧ pending_credit p = [[7%N]] ∧ resync_tail p = 188.
Proof. vm_compute. done. Qed.
