(* ===== verification/OutputClock.v ===== *)
(** * The output budget clock

    [ace-swarm/src/live_session/output_clock.rs]: a clock that stands still while an output waits for
    the consumer, and the budget a pool has to produce output.  An [Instant] is a number of
    nanoseconds, a [Duration] too; [EffectiveInstant] is a reading of the stopped clock. *)

From S2P Require Import Prelude.

Local Open Scope N_scope.

(** [EffectiveInstant::duration_since] saturates. *)
Definition duration_since (later earlier : N) : N := later - earlier.

Record OutputBudgetClock : Type := mkBudgetClock {
  epoch : N;
  excluded : N;
  active_since : option N;
}.

Definition clock_at (epoch : N) : OutputBudgetClock := mkBudgetClock epoch 0 None.

(** [checked_sub] fails below the origin of the clock. *)
Definition clock_now (c : OutputBudgetClock) (real : N) : N :=
  let excluded := excluded c + from_option (λ start, real - start) 0 (active_since c) in
  if excluded <=? real then real - excluded else epoch c.

(** [get_or_insert]. *)
Definition clock_begin (c : OutputBudgetClock) (real : N) : OutputBudgetClock :=
  mkBudgetClock (epoch c) (excluded c) (Some (default real (active_since c))).

Definition clock_end (c : OutputBudgetClock) (real : N) : OutputBudgetClock :=
  match active_since c with
  | Some start => mkBudgetClock (epoch c) (excluded c + (real - start)) None
  | None => c
  end.

Inductive FirstOutput : Type := AwaitCorroboration | Armed (deadline : N) | Done.
Inductive OutputBudget : Type := Suspended | Remaining (d : N) | Expired.

(** [output_budget], on the fields it reads: the new [first_output] and the budget. *)
Definition output_budget (timeout : N) (clock : OutputBudgetClock) (first : FirstOutput)
    (startup_deadline : option N) (last_progress real : N) : FirstOutput * OutputBudget :=
  let now := clock_now clock real in
  let first := match first, startup_deadline with
    | AwaitCorroboration, None => Armed (now + timeout)
    | _, _ => first
    end in
  (first,
   match active_since clock, first with
   | Some _, _ | _, AwaitCorroboration => Suspended
   | None, Armed deadline =>
       let r := duration_since deadline now in if r =? 0 then Expired else Remaining r
   | None, Done =>
       let r := timeout - duration_since now last_progress in
       if r =? 0 then Expired else Remaining r
   end).

(** ** What the clock measures *)

Inductive Hold : Type := Begin (at_ : N) | End_ (at_ : N).
Definition hold_time (h : Hold) : N := match h with Begin t | End_ t => t end.

Definition apply_hold (c : OutputBudgetClock) (h : Hold) : OutputBudgetClock :=
  match h with Begin t => clock_begin c t | End_ t => clock_end c t end.

(** Real time stands between [last] and the events, and does not run backwards. *)
Fixpoint in_order (last : N) (hs : list Hold) (real : N) : Prop :=
  match hs with
  | [] => last ≤ real
  | h :: hs => last ≤ hold_time h ∧ in_order (hold_time h) hs real
  end.

(** The time outside holds from [last] to [real]. *)
Fixpoint playing (held : bool) (last : N) (hs : list Hold) (real : N) : N :=
  match hs with
  | [] => if held then 0 else real - last
  | h :: hs =>
      (if held then 0 else hold_time h - last) +
      playing (match h with Begin _ => true | End_ _ => false end) (hold_time h) hs real
  end.

Lemma in_order_le last hs real : in_order last hs real → last ≤ real.
Proof.
  revert last. induction hs as [|h hs IH]; intros last; simpl; [done|]. intros [? H%IH]. lia.
Qed.

(** The clock between two events: what it has excluded so far, and whether it stands. *)
Lemma playing_spec hs c last real played :
  in_order last hs real → epoch c ≤ last →
  match active_since c with
  | Some start => start ≤ last ∧ epoch c + played + excluded c = start
  | None => epoch c + played + excluded c = last
  end →
  clock_now (fold_left apply_hold hs c) real =
    epoch c + played + playing (bool_decide (is_Some (active_since c))) last hs real.
Proof.
  revert c last played. induction hs as [|h hs IH]; intros c last played Ho He Hc; simpl.
  - unfold clock_now. simpl in Ho. destruct (active_since c) as [start|]; simpl.
    + destruct Hc as [Hs Hc]. rewrite (proj2 (N.leb_le _ _)) by lia. lia.
    + rewrite (proj2 (N.leb_le _ _)) by lia. lia.
  - simpl in Ho. destruct Ho as [Hl Ho]. destruct h as [t|t]; simpl in *.
    + destruct (active_since c) as [start|] eqn:Ea.
      * destruct Hc as [Hs Hc].
        rewrite (IH (clock_begin c t) t played); [|done|simpl; lia|simpl; rewrite Ea; simpl; lia].
        simpl. lia.
      * rewrite (IH (clock_begin c t) t (played + (t - last))); [|done|simpl; lia|simpl; rewrite Ea; simpl; lia].
        simpl. lia.
    + unfold clock_end. destruct (active_since c) as [start|] eqn:Ea.
      * destruct Hc as [Hs Hc]. rewrite (IH _ t played); [|done|simpl; lia|simpl; lia]. simpl. lia.
      * rewrite (IH c t (played + (t - last))); [|done|lia|rewrite Ea; lia]. rewrite Ea. simpl. lia.
Qed.

(** the output clock measures exactly the time outside holds.  For any sequence of holds, nested or
    repeated, in the order of real time, the clock reads its epoch plus the time during which no
    output was waiting; so it stands during a hold and never runs backwards or underflows. *)
Theorem output_clock_excludes_holds start hs real :
  in_order start hs real →
  clock_now (fold_left apply_hold hs (clock_at start)) real = start + playing false start hs real.
Proof.
  intros Ho. rewrite (playing_spec hs (clock_at start) start real 0 Ho); simpl; lia.
Qed.

Lemma output_clock_excludes_holds_witness :
  clock_now (fold_left apply_hold [Begin 103; Begin 105; End_ 200; End_ 201] (clock_at 100)) 202 = 105.
Proof.
  rewrite (output_clock_excludes_holds 100 [Begin 103; Begin 105; End_ 200; End_ 201] 202);
    [reflexivity|simpl; lia].
Defined.
