(* ===== verification/Continuity.v ===== *)
(** * Continuity of a live session

    [ace-swarm/src/live_session/continuity.rs] and the parts of [pool/actor.rs], [pool_support.rs],
    [pool/actor/publication.rs] and [options.rs] that act on it: the state that survives reconnects
    and every operation the pool performs on it.  The fields of [Continuity] are grouped by what
    they serve: [OutputPath] (in [OutputPath.v]), [Requests], [OutputTiming].  Left out are the
    fields that only feed logs and observers (the statistics scan, the admitted upstream counters)
    and the ownership of the worker tasks.  Instants are nanoseconds, the readings of the clock are
    arguments. *)

From S2P Require Import Prelude Order Bytes BTree Wire Net Message LiveCodec LiveAuth Store.
From S2P Require Import Scheduler Reassembly PeerPolicy Candidates WarmPeers OutputPath OutputClock.

Local Open Scope N_scope.

(** ** Options *)

Definition MAX_LIVE_RECOVERY_ACTIVE_UPSTREAMS : N := 256.
Definition MAX_LIVE_RECOVERY_PARALLEL_CONNECT : N := 1024.
Definition MAX_LIVE_RECOVERY_PIECE_ADVANCE : N := 16384.
Definition MAX_LIVE_RECOVERY_REASM_PIECES_AHEAD : N := 65536.

Record LiveRecoveryOptions : Type := mkRecoveryOptions {
  request_timeout_ms : N;
  stale_upstream_timeout_ms : N;
  request_check_interval_ms : N;
  max_active_upstreams : N;
  max_parallel_connect : N;
  max_piece_advance : N;
  max_reasm_pieces_ahead : N;
}.

Definition millis : N := 1000000.
Definition request_timeout (o : LiveRecoveryOptions) : N := request_timeout_ms o * millis.
Definition stale_upstream_timeout (o : LiveRecoveryOptions) : N := stale_upstream_timeout_ms o * millis.
Definition request_check_interval (o : LiveRecoveryOptions) : N := request_check_interval_ms o * millis.

Definition validate (o : LiveRecoveryOptions) : result string unit :=
  if request_timeout_ms o =? 0 then Err "OUTPACE_REQUEST_TIMEOUT_MS must be >= 1"%string
  else if stale_upstream_timeout_ms o =? 0 then
    Err "OUTPACE_STALE_UPSTREAM_TIMEOUT_MS must be >= 1"%string
  else if request_check_interval_ms o =? 0 then
    Err "OUTPACE_REQUEST_CHECK_INTERVAL_MS must be >= 1"%string
  else if stale_upstream_timeout_ms o <=? request_timeout_ms o then
    Err "OUTPACE_REQUEST_TIMEOUT_MS must be < OUTPACE_STALE_UPSTREAM_TIMEOUT_MS"%string
  else if request_timeout_ms o <? request_check_interval_ms o then
    Err "OUTPACE_REQUEST_CHECK_INTERVAL_MS must be <= OUTPACE_REQUEST_TIMEOUT_MS"%string
  else if max_active_upstreams o =? 0 then Err "OUTPACE_MAX_ACTIVE_UPSTREAMS must be >= 1"%string
  else if max_parallel_connect o =? 0 then Err "OUTPACE_MAX_PARALLEL_CONNECT must be >= 1"%string
  else if max_piece_advance o =? 0 then Err "OUTPACE_MAX_PIECE_ADVANCE must be >= 1"%string
  else if MAX_LIVE_RECOVERY_ACTIVE_UPSTREAMS <? max_active_upstreams o then
    Err "OUTPACE_MAX_ACTIVE_UPSTREAMS must be <= 256"%string
  else if MAX_LIVE_RECOVERY_PARALLEL_CONNECT <? max_parallel_connect o then
    Err "OUTPACE_MAX_PARALLEL_CONNECT must be <= 1024"%string
  else if MAX_LIVE_RECOVERY_PIECE_ADVANCE <? max_piece_advance o then
    Err "OUTPACE_MAX_PIECE_ADVANCE must be <= 16384"%string
  else if MAX_LIVE_RECOVERY_REASM_PIECES_AHEAD <? max_reasm_pieces_ahead o then
    Err "OUTPACE_MAX_REASM_PIECES_AHEAD must be <= 65536"%string
  else if max_reasm_pieces_ahead o <? max_piece_advance o then
    Err "OUTPACE_MAX_REASM_PIECES_AHEAD must be >= OUTPACE_MAX_PIECE_ADVANCE"%string
  else Ok ().

(** ** The state *)

Inductive PublicationStatus : Type :=
  | Needed
  | Terminal (res : result unit CompletePut).

Record OutputCredit : Type := mkCredit {
  producer : SocketAddrV4;
  credit_kind : CandidateKind;
  credited : bool;
}.

Record Requests : Type := mkRequests {
  scheduler : Scheduler;
  active_peers : ActivePeers;
  received_chunks : gmap N (gset N);
  piece_producers : gmap N (option SocketAddrV4);
  requested_at : gmap N N;
  publication : gmap N PublicationStatus;
  head : N;
  request_floor : N;
}.

Record OutputTiming : Type := mkTiming {
  output_ceiling : option N;
  output_clock : OutputBudgetClock;
  first_output : FirstOutput;
  last_progress : N;
  next_needed_since : N;
  startup_deadline : option N;
}.

Record Continuity : Type := mkContinuity {
  reasm : PieceReassembler;
  path : OutputPath;
  pending_output : list LiveOutput;
  (** The [OutputCredit] objects by identity, and the next identity. *)
  credits : gmap N OutputCredit;
  next_credit : N;
  requests : Requests;
  timing : OutputTiming;
  live_recovery : LiveRecoveryOptions;
  prefetch : N;
  emitted : N;
}.

Definition set_requests (f : Requests → Requests) (c : Continuity) : Continuity :=
  mkContinuity (reasm c) (path c) (pending_output c) (credits c) (next_credit c) (f (requests c))
    (timing c) (live_recovery c) (prefetch c) (emitted c).
Definition set_timing (f : OutputTiming → OutputTiming) (c : Continuity) : Continuity :=
  mkContinuity (reasm c) (path c) (pending_output c) (credits c) (next_credit c) (requests c)
    (f (timing c)) (live_recovery c) (prefetch c) (emitted c).
Definition set_reasm (r : PieceReassembler) (c : Continuity) : Continuity :=
  mkContinuity r (path c) (pending_output c) (credits c) (next_credit c) (requests c)
    (timing c) (live_recovery c) (prefetch c) (emitted c).
Definition set_path (p : OutputPath) (c : Continuity) : Continuity :=
  mkContinuity (reasm c) p (pending_output c) (credits c) (next_credit c) (requests c)
    (timing c) (live_recovery c) (prefetch c) (emitted c).

Definition set_scheduler (s : Scheduler) (q : Requests) : Requests :=
  mkRequests s (active_peers q) (received_chunks q) (piece_producers q) (requested_at q)
    (publication q) (head q) (request_floor q).
Definition set_active_peers (ps : ActivePeers) (q : Requests) : Requests :=
  mkRequests (scheduler q) ps (received_chunks q) (piece_producers q) (requested_at q)
    (publication q) (head q) (request_floor q).
Definition set_received_chunks (m : gmap N (gset N)) (q : Requests) : Requests :=
  mkRequests (scheduler q) (active_peers q) m (piece_producers q) (requested_at q)
    (publication q) (head q) (request_floor q).
Definition set_piece_producers (m : gmap N (option SocketAddrV4)) (q : Requests) : Requests :=
  mkRequests (scheduler q) (active_peers q) (received_chunks q) m (requested_at q)
    (publication q) (head q) (request_floor q).
Definition set_requested_at (m : gmap N N) (q : Requests) : Requests :=
  mkRequests (scheduler q) (active_peers q) (received_chunks q) (piece_producers q) m
    (publication q) (head q) (request_floor q).
Definition set_publication (m : gmap N PublicationStatus) (q : Requests) : Requests :=
  mkRequests (scheduler q) (active_peers q) (received_chunks q) (piece_producers q) (requested_at q)
    m (head q) (request_floor q).
Definition set_head (h : N) (q : Requests) : Requests :=
  mkRequests (scheduler q) (active_peers q) (received_chunks q) (piece_producers q) (requested_at q)
    (publication q) h (request_floor q).
Definition set_request_floor (f : N) (q : Requests) : Requests :=
  mkRequests (scheduler q) (active_peers q) (received_chunks q) (piece_producers q) (requested_at q)
    (publication q) (head q) f.

Definition set_ceiling (o : option N) (t : OutputTiming) : OutputTiming :=
  mkTiming o (output_clock t) (first_output t) (last_progress t) (next_needed_since t) (startup_deadline t).
Definition set_clock (k : OutputBudgetClock) (t : OutputTiming) : OutputTiming :=
  mkTiming (output_ceiling t) k (first_output t) (last_progress t) (next_needed_since t) (startup_deadline t).
Definition set_next_needed_since (n : N) (t : OutputTiming) : OutputTiming :=
  mkTiming (output_ceiling t) (output_clock t) (first_output t) (last_progress t) n (startup_deadline t).
Definition set_startup_deadline (d : option N) (t : OutputTiming) : OutputTiming :=
  mkTiming (output_ceiling t) (output_clock t) (first_output t) (last_progress t) (next_needed_since t) d.

(** ** Queries *)

Definition cursor (c : Continuity) : N := next_needed (reasm c).

Definition publication_hold (c : Continuity) : bool :=
  existsb (λ e, match e.2 with Needed => true | Terminal _ => false end)
    (BTree.entries (publication (requests c))).

Definition playback_hold (c : Continuity) : bool :=
  bool_decide (is_Some (output_ceiling (timing c))) || publication_hold c.

Definition has_ready (c : Continuity) : bool := negb (bool_decide (ready_chunks (reasm c) = [])).

Definition has_delivery_work (c : Continuity) : bool :=
  bool_decide (is_Some (output_ceiling (timing c))) ||
  negb (bool_decide (pending_output c = [])) || has_ready c.

Definition output_demand (c : Continuity) : bool :=
  negb (bool_decide (pending_output c = [])) ||
  (bool_decide (startup_deadline (timing c) = None) && negb (publication_hold c) && has_ready c).

Record ResumeCursor : Type := mkCursor { rc_next_needed : N; rc_head : N }.

(** [i64::try_from(n).unwrap_or(i64::MAX)]. *)
Definition i64_saturate (n : N) : Z := Z.min (Z.of_N n) i64_max.

Definition cursor_window_can_resume (rc : ResumeCursor) (window_max : Z) : bool :=
  let needed := i64_saturate (rc_next_needed rc) in
  let hd := i64_saturate (rc_head rc) in
  (needed <=? window_max)%Z || ((hd <? needed)%Z && (hd <=? window_max)%Z).

Definition resume_cursor (c : Continuity) : ResumeCursor := mkCursor (cursor c) (head (requests c)).

Definition window_can_resume (c : Continuity) (window : Extended.LivePosition) : bool :=
  cursor_window_can_resume (resume_cursor c) (Extended.max_piece window).

Definition prefetch_start (min_piece max_piece prefetch : N) : N :=
  N.max (saturating_sub max_piece prefetch) min_piece.

(** A peer of the pool, without its task, its channel and the message ids it logs. *)
Record PeerRuntime : Type := mkRuntime {
  rt_addr : SocketAddrV4;
  rt_min : N;
  rt_max : N;
  unchoked_peer : bool;
  produced_output : bool;
}.

Definition set_produced (p : PeerRuntime) : PeerRuntime :=
  mkRuntime (rt_addr p) (rt_min p) (rt_max p) (unchoked_peer p) true.

Section Continuity.
Context `{Crypto}.

(** ** Construction *)

(** The fields of [StreamInfo] a session uses. *)
Record StreamInfo : Type := mkStreamInfo {
  infohash : N;
  si_piece_length : N;
  si_chunk_length : N;
  sig_len : N;
  source_pubkey : bytes;
}.

Definition fresh (info : StreamInfo) (min_piece max_piece prefetch : N) (options : LiveRecoveryOptions)
    (now : N) : Continuity * N :=
  let start := prefetch_start min_piece max_piece prefetch in
  let r := with_max_pieces_ahead (max_reasm_pieces_ahead options)
    (with_source_pubkey (source_pubkey info)
      (with_piece_trailer (sig_len info) (Reassembly.new (si_piece_length info) start))) in
  let clock := clock_at now in
  (mkContinuity r path_fresh [] ∅ 0
     (mkRequests (Scheduler.new (max_piece_advance options)) ∅ ∅ ∅ ∅ ∅ max_piece start)
     (mkTiming None clock AwaitCorroboration (clock_now clock now) now None)
     options prefetch 0,
   start).

(** ** Skips and reconnects *)

(** [reasm.skip_to], [publication.retain] and [arm_output_gate] of an interrupted stream. *)
Definition skip_armed (c : Continuity) (target : N) : Continuity :=
  set_path (arm_output_gate (path c))
    (set_requests (λ q, set_publication (from_key target (publication q)) q)
      (set_reasm (skip_to (reasm c) target) c)).

(** The bookkeeping of a skip: peer slots, timers, received chunks and producers below it go. *)
Definition forget_below (c : Continuity) (target now : N) : Continuity :=
  set_timing (set_next_needed_since now)
    (set_requests (λ q,
      mkRequests (scheduler q) (prune_below (active_peers q) target)
        (from_key target (received_chunks q)) (from_key target (piece_producers q))
        (from_key target (requested_at q)) (publication q) (head q) (request_floor q)) c).

Definition resume_with_policy (c : Continuity) (min_piece max_piece now : N) : Continuity * N :=
  let c := set_requests (λ q,
    mkRequests (clear_in_flight (scheduler q)) ∅ ∅ (piece_producers q) (requested_at q)
      (publication q) (N.max (head q) max_piece) (request_floor q)) c in
  let c := if has_delivery_work c then c
    else set_timing (set_next_needed_since (clock_now (output_clock (timing c)) now))
           (set_requests (set_requested_at ∅) c) in
  let next := cursor c in
  let resume := if playback_hold c then next else N.max next min_piece in
  let c := if next <? resume then skip_armed c resume else c in
  (set_requests (λ q, set_piece_producers (from_key resume (piece_producers q)) q) c, resume).

Definition skip_evicted_gap (c : Continuity) (now : N) : Continuity * option N :=
  if playback_hold c then (c, None)
  else
    let next := cursor c in
    if (duration_since now (next_needed_since (timing c)) <? request_timeout (live_recovery c))
       || any_unchoked_covers (active_peers (requests c)) next then (c, None)
    else match lowest_covered_piece (active_peers (requests c)) with
    | None => (c, None)
    | Some floor =>
        if floor <=? next then (c, None)
        else (forget_below (skip_armed c floor) floor now, Some floor)
    end.

Definition skip_far_behind_live (c : Continuity) (now : N) : Continuity * option N :=
  if playback_hold c then (c, None)
  else
    let target := saturating_sub (head (requests c)) (prefetch c) in
    let c := set_requests (λ q, set_request_floor (N.max (request_floor q) target) q) c in
    let next := cursor c in
    if saturating_sub (head (requests c)) next <=? prefetch c then (c, None)
    else
      let skipped := set_requests (λ q, set_publication (from_key target (publication q)) q)
        (set_reasm (skip_to (reasm c) target) c) in
      let skipped := if 0 <? emitted c then set_path (arm_output_gate (path c)) skipped
                     else set_path (restart_resync (path c)) skipped in
      (forget_below skipped target now, Some target).

(** ** Receiving *)

Definition release_rejected_piece (c : Continuity) (piece : N) : Continuity :=
  set_requests (λ q,
    mkRequests (on_drop (scheduler q) piece) (complete_everywhere (active_peers q) piece)
      (delete piece (received_chunks q)) (delete piece (piece_producers q))
      (delete piece (requested_at q)) (publication q) (head q) (request_floor q))
    (set_reasm (discard_partial (reasm c) piece) c).

(** What a completed piece releases, in [note_chunk] and in [on_piece]. *)
Definition settle_piece (c : Continuity) (piece : N) : Continuity :=
  set_requests (λ q,
    mkRequests (on_complete (scheduler q) piece) (complete_everywhere (active_peers q) piece)
      (delete piece (received_chunks q)) (piece_producers q) (delete piece (requested_at q))
      (publication q) (head q) (request_floor q)) c.

Definition note_chunk (c : Continuity) (piece chunk chunks_per_piece : N) : Continuity * bool :=
  let chunks := {[chunk]} ∪ default ∅ (received_chunks (requests c) !! piece) in
  let c := set_requests (λ q, set_received_chunks (<[piece := chunks]> (received_chunks q)) q) c in
  if (N.max chunks_per_piece 1 <=? N.of_nat (size chunks)) then (settle_piece c piece, true)
  else (c, false).

Definition timed_out_requests (c : Continuity) (now : N) : Continuity * list N :=
  let c := set_requests (λ q, set_requested_at (from_key (cursor c) (requested_at q)) q) c in
  (c, map fst (List.filter (λ e, request_timeout (live_recovery c) <=? duration_since now e.2)
        (BTree.entries (requested_at (requests c))))).

Definition note_producer (addr : SocketAddrV4) (old : option (option SocketAddrV4)) : option SocketAddrV4 :=
  match old with
  | Some p => if decide (p = Some addr) then p else None
  | None => Some addr
  end.

(** [Rejected] is the [Skip] of a chunk the reassembler refused: the pool re-requests before it returns. *)
Inductive PieceOutcome : Type :=
  | Skip
  | Rejected
  | Progress (activity : bool).

(** [on_piece] up to the requests it triggers afterwards ([advance_pool_requests], [start_publication]
    run as steps of their own). *)
Definition on_piece (c : Continuity) (addr : SocketAddrV4) (m : PeerMessage) (chunk_length chunks_per_piece : N)
    (now : N) : Continuity * PieceOutcome :=
  match borrow_from_message m with
  | None => (c, Progress false)
  | Some lc =>
      let c := (skip_far_behind_live c (clock_now (output_clock (timing c)) now)).1 in
      let piece := lc_piece lc in
      if bool_decide (is_Some (startup_deadline (timing c)))
         || match output_ceiling (timing c) with Some ceiling => ceiling <=? piece | None => false end
         || (piece <? cursor c)
      then (c, Skip)
      else
        match add_live_chunk (reasm c) piece (lc_chunk lc) chunk_length (lc_piece_header lc) (lc_data lc) with
        | (Err e, r) => (release_rejected_piece (set_reasm r c) piece, Rejected)
        | (Ok outcome, r) =>
            let c := set_reasm r c in
            let c := if completed outcome then
                match completed_live_piece (reasm c) piece with
                | Some done =>
                    match acceptance done with
                    | SourceVerified | UnsignedAssemblyAccepted =>
                        set_requests (λ q, set_publication
                          (<[piece := default Needed (publication q !! piece)]> (publication q)) q) c
                    | Unauthenticated => c
                    end
                | None => c
                end
              else c in
            let c := if contributed outcome then
                set_requests (λ q, set_piece_producers
                  (<[piece := note_producer addr (piece_producers q !! piece)]> (piece_producers q)) q) c
              else c in
            let c := if contributed outcome && negb (completed outcome)
              then (note_chunk c piece (lc_chunk lc) chunks_per_piece).1
              else match completed_live_piece (reasm c) piece with
                   | Some _ => settle_piece c piece
                   | None => c
                   end in
            (c, Progress true)
        end
  end.

(** ** Publication *)

(** [PublicationOperation] without its futures. *)
Inductive PublicationOperation : Type :=
  | Acquiring (piece : N)
  | Awaiting (piece : N)
  | Refreshing (piece : N) (res : result unit CompletePut).

Definition op_piece (op : PublicationOperation) : N :=
  match op with Acquiring p | Awaiting p | Refreshing p _ => p end.

(** [None] where the source panics ([expect("held wire")]). *)
Definition start_operation (op : option PublicationOperation) (c : Continuity)
    : option (option PublicationOperation) :=
  match op with
  | Some _ => Some op
  | None =>
      match List.find (λ e, match e.2 with Needed => true | Terminal _ => false end)
              (BTree.entries (publication (requests c))) with
      | Some (piece, _) =>
          match completed_live_piece (reasm c) piece with
          | Some _ => Some (Some (Acquiring piece))
          | None => None
          end
      | None => Some None
      end
  end.

(** [terminal]; [None] where the source panics ([expect("retained publication")]). *)
Definition terminal (c : Continuity) (piece : N) (res : result unit CompletePut) : option Continuity :=
  match publication (requests c) !! piece with
  | Some _ => Some (set_requests (λ q, set_publication (<[piece := Terminal res]> (publication q)) q) c)
  | None => None
  end.

(** What the store answers to the operation that is polled. *)
Inductive StoreEvent : Type :=
  | AdmissionFailed
  | SubmitReady (res : result unit CompletePut)
  | SubmitAwaiting
  | WriteDone (res : result unit CompletePut)
  | Refreshed.

(** [poll_operation] when the future it polls is ready; a submission needs the wire of the piece. *)
Definition poll_operation (op : PublicationOperation) (c : Continuity) (e : StoreEvent)
    : option (option PublicationOperation * Continuity) :=
  match op, e with
  | Acquiring piece, AdmissionFailed => c ← terminal c piece (Err tt); Some (None, c)
  | Acquiring piece, SubmitReady res =>
      _ ← completed_live_piece (reasm c) piece; c ← terminal c piece res; Some (None, c)
  | Acquiring piece, SubmitAwaiting =>
      _ ← completed_live_piece (reasm c) piece; Some (Some (Awaiting piece), c)
  | Awaiting piece, WriteDone res => Some (Some (Refreshing piece res), c)
  | Refreshing piece res, Refreshed => c ← terminal c piece res; Some (None, c)
  | _, _ => Some (Some op, c)
  end.

(** ** Output *)

(** [start_output], which reserves a slot of the consumer's queue. *)
Definition start_output (c : Continuity) (reserved : bool) (now : N) : Continuity * bool :=
  if negb reserved && output_demand c then
    (set_timing (λ t, set_clock (clock_begin (output_clock t) now)
       (set_ceiling (Some (default (saturating_add (cursor c) (max_reasm_pieces_ahead (live_recovery c)))
          (output_ceiling t))) t)) c, true)
  else (c, reserved).

Definition end_hold (c : Continuity) (now : N) : Continuity :=
  set_timing (λ t, set_clock (clock_end (output_clock t) now) (set_ceiling None t)) c.

(** The piece taken for output, and the segments it becomes. *)
Definition prepare_output (c : Continuity) (candidates : SessionCandidates) (piece : ReadyPiece)
    (r : PieceReassembler) (now : N) : Continuity :=
  let q := requests c in
  let credit := (λ a, mkCredit a (kind candidates a) false) <$>
    default None (piece_producers q !! rp_index piece) in
  let id := match credit with Some _ => Some (next_credit c) | None => None end in
  let '(p, segments) := resync_output_credited (path c) (rp_bytes piece) id now in
  mkContinuity r p (pending_output c ++ segments)
    (match credit with Some o => <[next_credit c := o]> (credits c) | None => credits c end)
    (match credit with Some _ => next_credit c + 1 | None => next_credit c end)
    (set_publication (delete (rp_index piece) (publication q))
       (set_piece_producers (delete (rp_index piece) (piece_producers q)) q))
    (timing c) (live_recovery c) (prefetch c) (emitted c).

(** What the credit of a producer reaches: the credit objects, the candidates, the pool, the cache. *)
Record Ledger : Type := mkLedger {
  l_credits : gmap N OutputCredit;
  l_candidates : SessionCandidates;
  l_peers : gmap N PeerRuntime;
  l_warm : WarmPeers.State;
}.

(** The credits of a sent output: each object is credited once. *)
Definition credit_producer (info : StreamInfo) (al : bool) (now_secs now : N) (l : Ledger) (id : N) : Ledger :=
  match l_credits l !! id with
  | Some o =>
      if credited o then l
      else
        mkLedger (<[id := mkCredit (producer o) (credit_kind o) true]> (l_credits l))
          (productive (l_candidates l) (producer o) now)
          ((λ p, if decide (rt_addr p = producer o) then set_produced p else p) <$> l_peers l)
          (if (0 <? sig_len info) &&
              bool_decide (signature_len_from_pubkey_der (source_pubkey info) = Some (N.to_nat (sig_len info)))
           then record_productive al (l_warm l) (infohash info) (producer o) (credit_kind o) now_secs now_secs
           else l_warm l)
  | None => l
  end.

(** What one permit leads to: the output sent, the piece taken for it, and the new state. *)
Record Sent : Type := mkSent {
  sent : option LiveOutput;
  taken : option ReadyPiece;
  after : Continuity;
  after_candidates : SessionCandidates;
  after_peers : gmap N PeerRuntime;
  after_warm : WarmPeers.State;
}.

(** The end of [finish_output_step]: send the head of the queue, release the hold when idle. *)
Definition send_pending (info : StreamInfo) (al : bool) (c : Continuity) (candidates : SessionCandidates)
    (peers : gmap N PeerRuntime) (warm : WarmPeers.State) (tkn : option ReadyPiece) (now now_secs : N) : Sent :=
  match pending_output c with
  | [] => mkSent None tkn (if has_ready c then c else end_hold c now) candidates peers warm
  | output :: rest =>
      let p := path c in
      let ids := match OutputPath.pending_credit p with cs :: _ => cs | [] => [] end in
      let l := fold_left (credit_producer info al now_secs now) ids (mkLedger (credits c) candidates peers warm) in
      let t := timing c in
      let at_now := clock_now (output_clock t) now in
      let c := mkContinuity (reasm c)
        (mkPath (drop 1 (OutputPath.pending_credit p)) (resync_credit p) (resync_tail p) (resync p)
           (output_gate p) (transport_recovery p) (discontinuity_pending p))
        rest (l_credits l) (next_credit c) (requests c)
        (mkTiming (output_ceiling t) (output_clock t) Done at_now at_now (startup_deadline t))
        (live_recovery c) (prefetch c) (emitted c + lenN (lo_bytes output)) in
      mkSent (Some output) tkn
        (if bool_decide (rest = []) && negb (has_ready c) then end_hold c now else c)
        (l_candidates l) (l_peers l) (l_warm l)
  end.

(** [finish_output_step] with a permit in hand and the consumer alive. *)
Definition finish_output_step (info : StreamInfo) (al : bool) (c : Continuity)
    (candidates : SessionCandidates) (peers : gmap N PeerRuntime) (warm : WarmPeers.State)
    (now now_secs : N) : Sent :=
  if bool_decide (pending_output c = []) then
    if negb (output_demand c) then mkSent None None (end_hold c now) candidates peers warm
    else
      match take_ready_piece (reasm c) with
      | (None, _) => mkSent None None c candidates peers warm
      | (Some piece, r) =>
          let c := prepare_output c candidates piece r now in
          if bool_decide (pending_output c = []) then
            mkSent None (Some piece) (end_hold c now) candidates peers warm
          else send_pending info al c candidates peers warm (Some piece) now now_secs
      end
  else send_pending info al c candidates peers warm None now now_secs.

(** ** Requests *)

(** One assignment: [send_ok] tells whether the command was queued. *)
Definition issue_request (peers : gmap N PeerRuntime) (send_ok : N → N → bool) (now : N)
    (acc : Continuity * gset N) (a : PeerAssignment) : Continuity * gset N :=
  let '(c, failed) := acc in
  let id := peer_id a in
  let piece := pa_piece a in
  let known := bool_decide (is_Some (peers !! id)) in
  let sent := negb (bool_decide (id ∈ failed)) && known && send_ok id piece in
  let failed := if negb (bool_decide (id ∈ failed)) && known && negb (send_ok id piece)
                then {[id]} ∪ failed else failed in
  if sent then
    (set_requests (λ q, set_requested_at
       (<[piece := default now (requested_at q !! piece)]> (requested_at q)) q) c, failed)
  else
    (set_requests (λ q, set_scheduler (on_drop (scheduler q) piece)
       (set_active_peers (cancel_assignment (active_peers q) id piece) q)) c, failed).

(** [None] only if the scheduler's scan does not end. *)
Definition advance_pool_requests (peers : gmap N PeerRuntime) (queue_slots : gmap N N)
    (send_ok : N → N → bool) (c : Continuity) (now : N) : option Continuity :=
  if playback_hold c then Some c
  else
    let c := (skip_far_behind_live c (clock_now (output_clock (timing c)) now)).1 in
    if bool_decide (is_Some (startup_deadline (timing c))) then Some c
    else
      '(assignments, ps, s) ← peers_assign_with_queue_slots (active_peers (requests c))
        (scheduler (requests c)) (cursor c) (head (requests c)) queue_slots;
      let c := set_requests (λ q, set_scheduler s (set_active_peers ps q)) c in
      Some (fold_left (issue_request peers send_ok (clock_now (output_clock (timing c)) now))
              assignments (c, ∅)).1.

Definition requeue (c : Continuity) (piece : N) : Continuity :=
  set_requests (λ q, set_scheduler (on_drop (scheduler q) piece)
    (set_requested_at (delete piece (requested_at q)) q)) c.

(** The slots of the retries nobody took are released. *)
Definition release_unassigned (acc : Continuity * bool) (piece : N) : Continuity * bool :=
  let '(c, released) := acc in
  match requested_at (requests c) !! piece with
  | Some _ => (c, released)
  | None => (set_requests (λ q, set_active_peers (complete_everywhere (active_peers q) piece) q) c, true)
  end.

Definition retransmit_stalled_requests (peers : gmap N PeerRuntime) (queue_slots : gmap N N)
    (send_ok : N → N → bool) (c : Continuity) (now : N) : option Continuity :=
  if playback_hold c then Some c
  else
    let at_now c := clock_now (output_clock (timing c)) now in
    let '(c, target) := skip_far_behind_live c (at_now c) in
    let '(c, floor) := skip_evicted_gap c (at_now c) in
    let '(c, timed_out) := timed_out_requests c (at_now c) in
    let c := fold_left requeue timed_out c in
    if bool_decide (is_Some target) || bool_decide (is_Some floor) || negb (bool_decide (timed_out = [])) then
      c ← advance_pool_requests peers queue_slots send_ok c now;
      let '(c, released) := fold_left release_unassigned timed_out (c, false) in
      if released then advance_pool_requests peers queue_slots send_ok c now else Some c
    else Some c.

(** ** Peers and windows *)

Definition register_active_peer (c : Continuity) (id : N) (window : Extended.LivePosition) : Continuity :=
  set_requests (λ q, set_active_peers (insert_peer (active_peers q) id window) q) c.

Definition set_peer_unchoked (c : Continuity) (id : N) (u : bool) : Continuity :=
  set_requests (λ q, set_active_peers (set_unchoked (active_peers q) id u) q) c.

Definition update_peer_window (c : Continuity) (id lo hi : N) : Continuity :=
  set_requests (λ q, set_active_peers (update_window (active_peers q) id lo hi) q) c.

Definition update_runtime_window (peers : gmap N PeerRuntime) (c : Continuity) (id max_piece : N)
    : gmap N PeerRuntime * Continuity :=
  match peers !! id with
  | Some p =>
      let p := mkRuntime (rt_addr p) (rt_min p) (N.max (rt_max p) max_piece) (unchoked_peer p)
        (produced_output p) in
      (<[id := p]> peers, update_peer_window c id (rt_min p) (rt_max p))
  | None => (peers, c)
  end.

(** A live [HAVE] or window update of a peer: the head, and the peer's own window. *)
Definition raise_head (c : Continuity) (piece : N) : Continuity :=
  set_requests (λ q, set_head (N.max (head q) piece) q) c.

Definition advance_head (peers : gmap N PeerRuntime) (c : Continuity) (id piece : N)
    : gmap N PeerRuntime * Continuity :=
  update_runtime_window peers (raise_head c piece) id piece.

Definition drop_peer_runtime (peers : gmap N PeerRuntime) (c : Continuity) (id : N)
    : option SocketAddrV4 * gmap N PeerRuntime * Continuity :=
  match peers !! id with
  | None => (None, peers, c)
  | Some p =>
      let '(pieces, ps) := remove (active_peers (requests c)) id in
      (Some (rt_addr p), delete id peers,
       set_requests (λ q, set_scheduler (fold_left on_drop pieces (scheduler q)) (set_active_peers ps q)) c)
  end.
End Continuity.
