(* ===== verification/ContinuityInv.v ===== *)
(** * Invariants of a live session's state

    What every operation of [Continuity.v] preserves.  [Core] relates the reassembler, the publications
    in progress and the output queue; [Timely] bounds the request state.  Most operations touch only one
    of them: [core_frame] and [timely_frame] discharge the other. *)

From S2P Require Import Prelude Order Bytes BTree Wire Net Message LiveCodec LiveAuth Store.
From S2P Require Import Scheduler Reassembly PeerPolicy Candidates WarmPeers OutputPath OutputClock Continuity.

Local Open Scope N_scope.

Definition two63 : N := 2 ^ 63.

Lemma two63_u64_max n : n < two63 → n < u64_max.
Proof. unfold two63. assert (2 ^ 63 < u64_max) by (vm_compute; reflexivity). lia. Qed.

Lemma two63_two64 n : n < two63 → n < two64.
Proof. unfold two63. assert (2 ^ 63 < two64) by (vm_compute; reflexivity). lia. Qed.

Section Inv.
Context `{Crypto}.

(** A piece that may be published: complete, with one header, and accepted. *)
Definition publishable (r : PieceReassembler) (i : N) : Prop :=
  ∃ d, completed_live_piece r i = Some d ∧ acceptance d ≠ Unauthenticated.

Record Core (op : option PublicationOperation) (c : Continuity) : Prop := {
  co_reasm : Reassembly.Inv (reasm c);
  co_path : path_inv (path c);
  co_publication i st : publication (requests c) !! i = Some st → publishable (reasm c) i;
  co_op o : op = Some o → publication (requests c) !! op_piece o = Some Needed;
  co_producers i : is_Some (piece_producers (requests c) !! i) → in_window (reasm c) i;
  co_pending : pending_output c ≠ [] → is_Some (output_ceiling (timing c));
  co_hold : is_Some (output_ceiling (timing c)) →
    pending_output c ≠ [] ∨ is_Some (Reassembly.complete (reasm c) !! next_emit (reasm c));
  co_credit : length (pending_credit (path c)) = length (pending_output c);
}.

Record Timely (c : Continuity) : Prop := {
  ti_bounded : Bounded (active_peers (requests c)) (scheduler (requests c));
  ti_head : head (requests c) < two63;
  ti_floor id p : active_peers (requests c) !! id = Some p → Scheduler.min_piece p < two63;
}.

(** ** Frames *)

Definition same_core (c c' : Continuity) : Prop :=
  reasm c' = reasm c ∧ path c' = path c ∧ pending_output c' = pending_output c ∧
  publication (requests c') = publication (requests c) ∧
  piece_producers (requests c') = piece_producers (requests c) ∧
  output_ceiling (timing c') = output_ceiling (timing c).

Lemma core_frame op c c' : same_core c c' → Core op c → Core op c'.
Proof.
  intros (E1 & E2 & E3 & E4 & E5 & E6) [].
  constructor; rewrite ?E1, ?E2, ?E3, ?E4, ?E5, ?E6; done.
Qed.

Definition same_requests (c c' : Continuity) : Prop :=
  scheduler (requests c') = scheduler (requests c) ∧
  active_peers (requests c') = active_peers (requests c) ∧ head (requests c') = head (requests c).

Lemma timely_frame c c' : same_requests c c' → Timely c → Timely c'.
Proof. intros (E1 & E2 & E3) []. constructor; rewrite ?E1, ?E2, ?E3; done. Qed.

(** ** Holds *)

Lemma publication_hold_false c :
  publication_hold c = false ↔ ∀ i, publication (requests c) !! i ≠ Some Needed.
Proof.
  unfold publication_hold. rewrite <-not_true_iff_false, existsb_exists. split.
  - intros Hn i Hi. apply Hn. exists (i, Needed). split; [|done].
    by apply list_elem_of_In, elem_of_entries.
  - intros Hn ([i st] & Hi & Hst). destruct st; [|done].
    apply list_elem_of_In, elem_of_entries in Hi. by apply Hn in Hi.
Qed.

Lemma playback_hold_false c : playback_hold c = false →
  output_ceiling (timing c) = None ∧ publication_hold c = false.
Proof.
  unfold playback_hold. rewrite orb_false_iff. intros [Hc Hp]. split; [|done].
  apply bool_decide_eq_false in Hc. by apply eq_None_not_Some.
Qed.

(** Nothing is in progress without a hold. *)
Lemma no_hold_idle op c : Core op c → playback_hold c = false →
  op = None ∧ output_ceiling (timing c) = None ∧ pending_output c = [] ∧ pending_credit (path c) = [].
Proof.
  intros HC [Hn Hp]%playback_hold_false. rewrite publication_hold_false in Hp.
  assert (pending_output c = []) as Ep.
  { destruct (pending_output c) eqn:E; [done|]. destruct (co_pending _ _ HC) as [x Hx]; congruence. }
  split_and!; [|done|done|].
  - destruct op as [o|]; [|done]. by destruct (Hp _ (co_op _ _ HC o eq_refl)).
  - apply nil_length_inv. by rewrite (co_credit _ _ HC), Ep.
Qed.

Lemma has_ready_spec c : Reassembly.Inv (reasm c) →
  has_ready c = true ↔ is_Some (Reassembly.complete (reasm c) !! next_emit (reasm c)).
Proof.
  intros HI. unfold has_ready, ready_chunks. cbn [ready_from].
  destruct (Reassembly.complete (reasm c) !! next_emit (reasm c)) as [d|] eqn:E.
  - destruct (inv_complete _ HI _ _ E) as (Hw%in_window_lt & _).
    unfold checked_add. rewrite (proj2 (N.ltb_lt _ _)) by lia. by rewrite bool_decide_false.
  - rewrite bool_decide_true by done. simpl. split; [done|by intros []].
Qed.

(** ** Skips *)

Lemma skip_to_lookup r t i : t ≤ i → Reassembly.complete (skip_to r t) !! i = Reassembly.complete r !! i.
Proof.
  intros Hi. unfold skip_to. destruct (t <=? next_emit r); [done|]. cbn [Reassembly.complete].
  destruct (Reassembly.complete r !! i) as [d|] eqn:E.
  - by apply map_lookup_filter_Some.
  - apply map_lookup_filter_None. by left.
Qed.

Lemma skip_to_config r t : same_config r (skip_to r t) ∧ next_emit (skip_to r t) = N.max (next_emit r) t.
Proof.
  unfold skip_to. destruct (N.leb_spec t (next_emit r)); (split; [done|]); cbn [next_emit]; lia.
Qed.

(** Offers depend on the completed piece and the configuration only. *)
Lemma publishable_transfer r r' i : same_config r r' →
  Reassembly.complete r' !! i = Reassembly.complete r !! i → publishable r i → publishable r' i.
Proof.
  intros (_ & Ht & Hk & _) Hc (d & Hd & Ha). exists d. split; [|done].
  unfold completed_live_piece in *. by rewrite Hc, Ht, Hk.
Qed.

(** Every way a session moves its cursor forward over missing pieces. *)
Lemma core_skip op c c' t : Core op c → playback_hold c = false → t < two64 → next_emit (reasm c) ≤ t →
  reasm c' = skip_to (reasm c) t →
  publication (requests c') = from_key t (publication (requests c)) →
  piece_producers (requests c') = from_key t (piece_producers (requests c)) →
  path_inv (path c') → pending_credit (path c') = pending_credit (path c) →
  pending_output c' = pending_output c → output_ceiling (timing c') = output_ceiling (timing c) →
  Core op c'.
Proof.
  intros HC Hh Ht Hle Er Ep Epp Hpath Epc Epo Eo.
  destruct (no_hold_idle op c HC Hh) as (-> & Hno & Hpo & Hpc).
  destruct (skip_to_config (reasm c) t) as [Hcfg Hne].
  constructor; rewrite ?Er, ?Ep, ?Epp, ?Epc, ?Epo, ?Eo, ?Hno, ?Hpo, ?Hpc; try done.
  - by apply skip_inv, HC.
  - intros i st. rewrite lookup_from_key. destruct (decide (t ≤ i)); [|done].
    intros Hi%(co_publication _ _ HC). eapply publishable_transfer; [done| |done].
    by apply skip_to_lookup.
  - intros i. rewrite lookup_from_key. destruct (decide (t ≤ i)); [|by intros []].
    intros Hi%(co_producers _ _ HC). destruct Hcfg as (_ & _ & _ & Hm).
    unfold in_window, saturating_add in *. rewrite Hne, Hm. lia.
Qed.

(** ** Operations that skip *)

Lemma forget_below_frame c t now :
  reasm (forget_below c t now) = reasm c ∧ path (forget_below c t now) = path c ∧
  publication (requests (forget_below c t now)) = publication (requests c) ∧
  piece_producers (requests (forget_below c t now)) = from_key t (piece_producers (requests c)) ∧
  pending_output (forget_below c t now) = pending_output c ∧
  output_ceiling (timing (forget_below c t now)) = output_ceiling (timing c).
Proof. by split_and!. Qed.

Lemma prune_timely c c' floor :
  active_peers (requests c') = prune_below (active_peers (requests c)) floor →
  scheduler (requests c') = scheduler (requests c) → head (requests c') = head (requests c) →
  Timely c → Timely c'.
Proof.
  intros Ea Es Eh [HB Hh Hf]. constructor; rewrite ?Ea, ?Es, ?Eh; [|done|].
  - by apply (Scheduler.step_bounded (_, _) (_, _) (Scheduler.step_prune _ _ floor)).
  - intros id p. unfold prune_below. rewrite lookup_fmap, fmap_Some. intros (q & Hq & ->). exact (Hf id q Hq).
Qed.

(** What both skips promise. *)
Record skip_ok op (c c' : Continuity) (target : option N) : Prop := {
  sk_core : Core op c';
  sk_timely : Timely c';
  sk_config : same_config (reasm c) (reasm c');
  sk_cursor : cursor c ≤ cursor c';
  sk_same : target = None → reasm c' = reasm c;
  sk_target t : target = Some t → playback_hold c = false ∧ cursor c < t ∧ cursor c' = t;
  sk_head : head (requests c') = head (requests c);
  sk_ceiling : output_ceiling (timing c') = output_ceiling (timing c);
  sk_clock : output_clock (timing c') = output_clock (timing c);
  sk_startup : startup_deadline (timing c') = startup_deadline (timing c);
  sk_recovery : live_recovery c' = live_recovery c ∧ prefetch c' = prefetch c;
}.

Lemma skip_none op c c' : Core op c → Timely c → same_core c c' → same_requests c c' → timing c' = timing c →
  live_recovery c' = live_recovery c → prefetch c' = prefetch c → skip_ok op c c' None.
Proof.
  intros HC HT HS HR Et El Ep. pose proof HS as (Er & _). pose proof HR as (_ & _ & Eh).
  constructor; unfold cursor, next_needed; rewrite ?Er, ?Et, ?Eh; try done;
    eauto using core_frame, timely_frame.
Qed.

Lemma skip_some op c c' t now : Core op c → Timely c → playback_hold c = false → cursor c < t → t < two64 →
  reasm c' = skip_to (reasm c) t → publication (requests c') = from_key t (publication (requests c)) →
  path_inv (path c') → pending_credit (path c') = pending_credit (path c) →
  pending_output c' = pending_output c → timing c' = timing c →
  active_peers (requests c') = active_peers (requests c) →
  piece_producers (requests c') = piece_producers (requests c) →
  scheduler (requests c') = scheduler (requests c) → head (requests c') = head (requests c) →
  live_recovery c' = live_recovery c → prefetch c' = prefetch c →
  skip_ok op c (forget_below c' t now) (Some t).
Proof.
  intros HC HT Hh Hlt Ht Er Ep Hpath Epc Epo Et Ea Epp Es Eh El Ef.
  destruct (skip_to_config (reasm c) t) as [Hcfg Hne].
  unfold cursor, next_needed in Hlt. constructor; cbn; rewrite ?Et; try done.
  - apply (core_skip op c _ t); cbn; rewrite ?Et, ?Epp; try done. lia.
  - apply (prune_timely c _ t); cbn; rewrite ?Ea; done.
  - by rewrite Er.
  - unfold cursor, next_needed. cbn. rewrite Er, Hne. lia.
  - intros ? [= <-]. unfold cursor, next_needed. cbn. rewrite Er, Hne. split_and!; [done|lia|lia].
Qed.

Lemma skip_far_ok op c now : Core op c → Timely c →
  skip_ok op c (skip_far_behind_live c now).1 (skip_far_behind_live c now).2.
Proof.
  intros HC HT. unfold skip_far_behind_live.
  destruct (playback_hold c) eqn:Hh; [by apply skip_none|].
  cbn [requests set_requests head set_request_floor prefetch].
  match goal with |- context [cursor ?x] => change (cursor x) with (cursor c) end.
  destruct (N.leb_spec (saturating_sub (head (requests c)) (cursor c)) (prefetch c)); [by apply skip_none|].
  cbn [fst snd].
  assert (cursor c < saturating_sub (head (requests c)) (prefetch c)) by (unfold saturating_sub in *; lia).
  assert (saturating_sub (head (requests c)) (prefetch c) < two64).
  { pose proof (two63_two64 _ (ti_head _ HT)). unfold saturating_sub. lia. }
  destruct (0 <? emitted _); apply skip_some; try done; cbn.
  - apply arm_inv.
  - apply restart_inv, HC.
Qed.

Lemma reduce_min_elem (l : list N) m : reduce N.min l = Some m → m ∈ l.
Proof.
  destruct l as [|x l]; [done|]. simpl. intros [= <-]. revert x.
  induction l as [|y l IH]; intros x; simpl; [by left|].
  specialize (IH (N.min x y)). destruct (N.min_spec x y) as [[_ E]|[_ E]]; rewrite E in *;
    apply elem_of_cons in IH; set_solver.
Qed.

Lemma lowest_covered_bound c floor : Timely c →
  lowest_covered_piece (active_peers (requests c)) = Some floor → floor < two63.
Proof.
  intros HT Hl. apply reduce_min_elem in Hl. apply list_elem_of_fmap in Hl as ([id p] & -> & Hin).
  apply list_elem_of_In, filter_In in Hin as [Hin%list_elem_of_In%elem_of_entries _].
  by apply (ti_floor _ HT id).
Qed.

Lemma skip_evicted_ok op c now : Core op c → Timely c →
  skip_ok op c (skip_evicted_gap c now).1 (skip_evicted_gap c now).2.
Proof.
  intros HC HT. unfold skip_evicted_gap.
  destruct (playback_hold c) eqn:Hh; [by apply skip_none|].
  destruct (_ || _); [by apply skip_none|].
  destruct (lowest_covered_piece _) as [floor|] eqn:Ef; [|by apply skip_none].
  destruct (N.leb_spec floor (cursor c)); [by apply skip_none|]. cbn [fst snd].
  apply lowest_covered_bound, two63_two64 in Ef; [|done].
  apply skip_some; try done. apply arm_inv.
Qed.

(** ** Reconnects *)

(** What one operation does to the cursor and to the configuration. *)
Record moved (c c' : Continuity) : Prop := {
  mv_config : same_config (reasm c) (reasm c');
  mv_cursor : cursor c ≤ cursor c';
  mv_head : head (requests c) ≤ head (requests c');
  mv_recovery : live_recovery c' = live_recovery c ∧ prefetch c' = prefetch c;
}.

Lemma moved_refl c : moved c c.
Proof. by constructor. Qed.

Lemma moved_trans c1 c2 c3 : moved c1 c2 → moved c2 c3 → moved c1 c3.
Proof.
  intros [(A1 & A2 & A3 & A4) B1 C1 [D1 E1]] [(A1' & A2' & A3' & A4') B2 C2 [D2 E2]].
  constructor; [|lia|lia|]; split_and!; congruence.
Qed.

Lemma skip_moved op c c' t : skip_ok op c c' t → moved c c'.
Proof. intros []. constructor; try done. lia. Qed.

(** What every operation but those on the output promises: the invariants stand, the cursor and the head
    do not move back, and the hold stays as it is. *)
Record served op (c c' : Continuity) : Prop := {
  se_core : Core op c';
  se_timely : Timely c';
  se_moved : moved c c';
  se_ceiling : output_ceiling (timing c') = output_ceiling (timing c);
}.

Lemma served_trans op c1 c2 c3 : served op c1 c2 → served op c2 c3 → served op c1 c3.
Proof. intros [? ? Hm1 ?] [? ? Hm2 ?]. constructor; [done|done|eauto using moved_trans|congruence]. Qed.

Lemma served_refl op c : Core op c → Timely c → served op c c.
Proof. by constructor; [..|apply moved_refl|]. Qed.

Lemma served_skip op c c' t : skip_ok op c c' t → served op c c'.
Proof. intros Hs. pose proof (skip_moved _ _ _ _ Hs). by destruct Hs. Qed.

Lemma timely_empty c c' : scheduler (requests c') = clear_in_flight (scheduler (requests c)) →
  active_peers (requests c') = ∅ → head (requests c') < two63 → Timely c'.
Proof. intros Es Ea Hh. constructor; [|done|]; rewrite Ea; by intros ? ?. Qed.

(** The pieces of a published or held publication are never behind the cursor. *)
Lemma publication_ahead op c i st : Core op c → publication (requests c) !! i = Some st → cursor c ≤ i.
Proof.
  intros HC Hi. destruct (co_publication _ _ HC _ _ Hi) as (d & Hd & _).
  unfold completed_live_piece in Hd. destruct (Reassembly.complete (reasm c) !! i) as [x|] eqn:Ex; [|done].
  by destruct (inv_complete _ (co_reasm _ _ HC) _ _ Ex) as ([Hw _] & _).
Qed.

Lemma resume_skip op c resume : Core op c → cursor c ≤ resume → resume < two64 →
  (playback_hold c = true → resume = cursor c) →
  let c3 := if cursor c <? resume then skip_armed c resume else c in
  let c' := set_requests (λ q, set_piece_producers (from_key resume (piece_producers q)) q) c3 in
  Core op c' ∧ same_requests c c' ∧ same_config (reasm c) (reasm c') ∧ cursor c' = resume ∧
  live_recovery c' = live_recovery c ∧ prefetch c' = prefetch c ∧ timing c' = timing c.
Proof.
  intros HC Hle Hlt Hh. cbv zeta. destruct (skip_to_config (reasm c) resume) as [Hcfg Hne].
  destruct (N.ltb_spec (cursor c) resume) as [Hs|Hs].
  - assert (playback_hold c = false) as Hf by (destruct (playback_hold c); [lia|done]).
    split; [apply (core_skip op c _ resume); try done; apply arm_inv|].
    split_and!; try done. unfold cursor, next_needed in *. cbn. lia.
  - assert (resume = cursor c) as -> by lia. split; [|done].
    destruct HC. constructor; try done. intros i. cbn. rewrite lookup_from_key.
    destruct (decide _); [auto|by intros []].
Qed.

Lemma resume_ok op c min_piece max_piece now : Core op c → Timely c → min_piece < two63 → max_piece < two63 →
  let c' := (resume_with_policy c min_piece max_piece now).1 in
  served op c c' ∧
  (resume_with_policy c min_piece max_piece now).2 = cursor c' ∧
  (playback_hold c = false → min_piece ≤ cursor c').
Proof.
  intros HC HT Hmin Hmax. unfold resume_with_policy. set (c1 := set_requests _ c).
  set (c2 := if has_delivery_work c1 then c1 else _).
  assert (same_core c c2 ∧ scheduler (requests c2) = clear_in_flight (scheduler (requests c)) ∧
    active_peers (requests c2) = ∅ ∧ head (requests c2) = N.max (head (requests c)) max_piece ∧
    live_recovery c2 = live_recovery c ∧ prefetch c2 = prefetch c) as (HS2 & Es2 & Ea2 & Eh2 & El2 & Ef2).
  { unfold c2. by destruct (has_delivery_work c1). }
  clearbody c2. clear c1. pose proof (core_frame _ _ _ HS2 HC) as HC2.
  assert (playback_hold c2 = playback_hold c) as Eh.
  { destruct HS2 as (_ & _ & _ & E4 & _ & E6). unfold playback_hold, publication_hold. by rewrite E4, E6. }
  assert (cursor c2 = cursor c) as Ec by (unfold cursor; by destruct HS2 as [-> _]).
  assert (same_config (reasm c) (reasm c2)) as Hcfg by (by destruct HS2 as [-> _]).
  set (resume := if playback_hold c2 then cursor c2 else N.max (cursor c2) min_piece).
  assert (cursor c2 ≤ resume ∧ resume < two64 ∧ (playback_hold c2 = true → resume = cursor c2) ∧
    (playback_hold c = false → min_piece ≤ resume)) as (Hle & Hlt & Hm & Hmi).
  { pose proof (inv_cursor _ (co_reasm _ _ HC2)). pose proof (two63_two64 _ Hmin).
    unfold resume, cursor, next_needed in *. rewrite <-Eh. destruct (playback_hold c2); split_and!; try done; lia. }
  clearbody resume. destruct (resume_skip op c2 resume HC2 Hle Hlt Hm) as (HC' & (Es & Ea & Ehd) & Hc' & Hcur & El & Ef & Eti).
  cbv zeta in *. set (c' := set_requests _ _) in *. clearbody c'. cbn [fst snd].
  split_and!; [constructor; [done| | |]|done|by rewrite Hcur].
  - apply (timely_empty c); rewrite ?Es, ?Ea, ?Ehd; try done. rewrite Eh2. pose proof (ti_head _ HT). lia.
  - apply (moved_trans _ c2); (constructor; [done|lia| |by split]); rewrite ?Ehd, ?Eh2; lia.
  - rewrite Eti. apply HS2.
Qed.

(** ** Receiving *)

(** What a chunk does to the completed pieces: none is lost, none but its own is added, and bytes are
    only accepted inside the window. *)
Lemma add_live_chunk_grows r index chunk cl hdr block :
  let res := (add_live_chunk r index chunk cl hdr block).1 in
  let r' := (add_live_chunk r index chunk cl hdr block).2 in
  (∀ i, is_Some (Reassembly.complete r !! i) → Reassembly.complete r' !! i = Reassembly.complete r !! i) ∧
  (∀ o, res = Ok o → contributed o = true → in_window r index).
Proof.
  pose proof (add_live_chunk_effect r index chunk cl hdr block) as He.
  destruct (add_live_chunk r index chunk cl hdr block) as [res r']. cbn [fst snd] in *.
  destruct He as [o Ho _|k (Ha & _ & Hw & _) _|e (Ha & _ & Hw & _) _ _|k (Ha & Hn & Hw & _) _ _]; cbn.
  - split; [done|]. intros k E. by rewrite (Ho k E).
  - split; [done|]. by intros ? [= <-].
  - split; [done|by intros ?].
  - split; [|by intros ? [= <-]]. intros i Hi. apply lookup_insert_ne. intros ->. rewrite Hn in Hi. by destruct Hi.
Qed.

(** A chunk in the reassembler, before the bookkeeping. *)
Lemma core_add_chunk op c index chunk cl hdr block : Core op c →
  Core op (set_reasm (add_live_chunk (reasm c) index chunk cl hdr block).2 c).
Proof.
  intros [HI Hp Hpub Hop Hpr Hpe Hh Hcr].
  destruct (add_live_chunk_grows (reasm c) index chunk cl hdr block) as [Hg _].
  destruct (add_live_chunk_config (reasm c) index chunk cl hdr block) as [Hcfg Hne].
  constructor; cbn; try done.
  - by apply add_live_chunk_inv.
  - intros i st (d & Hd & Ha)%Hpub. eapply publishable_transfer; [done| |by exists d].
    apply Hg. unfold completed_live_piece in Hd. by destruct (Reassembly.complete (reasm c) !! i).
  - intros i Hi%Hpr. destruct Hcfg as (_ & _ & _ & Hm). unfold in_window. by rewrite Hne, Hm.
  - intros Hc%Hh. destruct Hc as [?|Hc]; [by left|right]. rewrite Hne. by rewrite Hg.
Qed.

Lemma core_publication op c piece : Core op c → publishable (reasm c) piece →
  Core op (set_requests (λ q, set_publication
    (<[piece := default Needed (publication q !! piece)]> (publication q)) q) c).
Proof.
  intros [HI Hp Hpub Hop Hpr Hpe Hh Hcr] Hd. constructor; cbn; try done.
  - intros i st [[<- _]|[_ Hi]]%lookup_insert_Some; eauto.
  - intros o Ho. apply Hop in Ho. destruct (decide (piece = op_piece o)) as [->|Hne].
    + by rewrite lookup_insert_eq, Ho.
    + by rewrite lookup_insert_ne.
Qed.

Lemma core_producer op c piece x : Core op c → in_window (reasm c) piece →
  Core op (set_requests (λ q, set_piece_producers (<[piece := x]> (piece_producers q)) q) c).
Proof.
  intros [HI Hp Hpub Hop Hpr Hpe Hh Hcr] Hw. constructor; cbn; try done.
  intros i [y [[<- _]|[_ Hi]]%lookup_insert_Some]; [done|]. eauto.
Qed.

Lemma timely_release c c' piece : Timely c → head (requests c') = head (requests c) →
  active_peers (requests c') = complete_everywhere (active_peers (requests c)) piece →
  scheduler (requests c') = on_drop (scheduler (requests c)) piece → Timely c'.
Proof.
  intros [HB Hh Hf] Eh Ea Es. constructor; rewrite ?Eh, ?Ea, ?Es; [|done|].
  - apply (Scheduler.step_bounded (_, _) (_, _) (Scheduler.step_on_drop _ _ piece)). cbn.
    by apply (Scheduler.step_bounded (_, _) (_, _) (Scheduler.step_complete _ _ piece)).
  - intros id p. unfold complete_everywhere. rewrite lookup_fmap, fmap_Some. intros (q & Hq & ->). exact (Hf id q Hq).
Qed.

Lemma settle_timely c piece : Timely c → Timely (settle_piece c piece).
Proof. intros HT. by apply (timely_release c _ piece). Qed.

Lemma settle_ok op c piece : Core op c → Timely c → served op c (settle_piece c piece).
Proof.
  intros HC HT. constructor; [by eapply core_frame; [|exact HC]|by apply settle_timely|by constructor|done].
Qed.

Lemma note_chunk_ok op c piece chunk n : Core op c → Timely c →
  served op c (note_chunk c piece chunk n).1.
Proof.
  intros HC HT. unfold note_chunk. destruct (_ <=? _); cbn [fst].
  - constructor; [| |by constructor|done].
    + eapply core_frame; [|exact HC]. done.
    + apply settle_timely. by eapply timely_frame; [|exact HT].
  - constructor; [by eapply core_frame; [|exact HC]|by eapply timely_frame; [|exact HT]|by constructor|done].
Qed.

Lemma release_rejected_ok op c piece : Core op c → Timely c →
  served op c (release_rejected_piece c piece).
Proof.
  intros [HI Hp Hpub Hop Hpr Hpe Hh Hcr] HT. constructor; [| |by constructor|done].
  - constructor; cbn; try done.
    + by apply discard_inv.
    + intros i [x [_ Hi]%lookup_delete_Some]. apply Hpr. by eexists.
  - by apply (timely_release c _ piece).
Qed.

(** The bookkeeping of an accepted chunk. *)
Lemma note_publication_ok op c piece o : Core op c → Timely c →
  let c' := if completed o then
      match completed_live_piece (reasm c) piece with
      | Some done =>
          match acceptance done with
          | SourceVerified | UnsignedAssemblyAccepted =>
              set_requests (λ q, set_publication
                (<[piece := default Needed (publication q !! piece)]> (publication q)) q) c
          | Unauthenticated => c
          end
      | None => c
      end
    else c in
  served op c c' ∧ reasm c' = reasm c.
Proof.
  intros HC HT. cbv zeta. pose proof (served_refl op c HC HT). destruct (completed o); [|done].
  destruct (completed_live_piece (reasm c) piece) as [d|] eqn:Ed; [|done].
  destruct (acceptance d) eqn:Ea; [..|done];
    (split; [constructor; [apply core_publication; [done|exists d; split; [done|by rewrite Ea]]
                 |by eapply timely_frame; [|exact HT]|by constructor|done]|done]).
Qed.

Lemma on_piece_ok op c addr m chunk_length cpp now : Core op c → Timely c →
  served op c (on_piece c addr m chunk_length cpp now).1.
Proof.
  intros HC HT. unfold on_piece. destruct (borrow_from_message m) as [lc|]; [|by apply served_refl].
  pose proof (served_skip _ _ _ _ (skip_far_ok op c (clock_now (output_clock (timing c)) now) HC HT)) as Hs.
  destruct (skip_far_behind_live c _) as [c1 t]. cbn [fst snd] in *. cbv zeta.
  destruct (_ || _); [done|]. destruct Hs as [HC1 HT1 Hm1 Hc1].
  pose proof (core_add_chunk op c1 (lc_piece lc) (lc_chunk lc) chunk_length (lc_piece_header lc) (lc_data lc) HC1) as HC2.
  destruct (add_live_chunk_grows (reasm c1) (lc_piece lc) (lc_chunk lc) chunk_length (lc_piece_header lc) (lc_data lc))
    as [_ Hw].
  destruct (add_live_chunk_config (reasm c1) (lc_piece lc) (lc_chunk lc) chunk_length (lc_piece_header lc) (lc_data lc))
    as [Hcfg Hne].
  destruct (add_live_chunk (reasm c1) _ _ _ _ _) as [res r]. cbn [fst snd] in *.
  assert (served op c (set_reasm r c1)) as Hs2.
  { constructor; [done|by eapply timely_frame; [|exact HT1]| |done]. apply (moved_trans _ c1); [done|].
    constructor; try done. unfold cursor, next_needed. cbn. lia. }
  assert (∀ o, res = Ok o → contributed o = true → in_window (reasm (set_reasm r c1)) (lc_piece lc)) as Hw2.
  { intros o Ho Hc. destruct (Hw o Ho Hc) as [Hlo Hhi]. destruct Hcfg as (_ & _ & _ & Hmx).
    unfold in_window. cbn. by rewrite Hne, Hmx. }
  set (c2 := set_reasm r c1) in *. clearbody c2. clear Hw Hcfg Hne HC1 HT1 Hm1 Hc1 c1 t r.
  pose proof (se_timely _ _ _ Hs2) as HT2. destruct res as [o|e]; cbn [fst].
  2: { eauto using served_trans, release_rejected_ok. }
  destruct (note_publication_ok op c2 (lc_piece lc) o HC2 HT2) as [Hs3 Er3]. cbv zeta in *.
  set (c3 := if completed o then _ else c2) in *. clearbody c3.
  set (c4 := if contributed o then _ else c3).
  assert (served op c3 c4) as Hs4.
  { unfold c4. destruct Hs3 as [HC3 HT3 _ _]. destruct (contributed o) eqn:Eo; [|by apply served_refl].
    constructor; [|by eapply timely_frame; [|exact HT3]|by constructor|done].
    apply core_producer; [done|]. rewrite Er3. by apply (Hw2 o). }
  assert (served op c c4) as Hs by eauto using served_trans. clearbody c4. pose proof Hs4 as [HC4 HT4 _ _].
  destruct (contributed o && negb (completed o)); [eauto using served_trans, note_chunk_ok|].
  destruct (completed_live_piece (reasm c4) (lc_piece lc)); [eauto using served_trans, settle_ok|done].
Qed.

(** ** Publication *)

Lemma find_needed c piece st :
  List.find (λ e, match e.2 with Needed => true | Terminal _ => false end)
    (BTree.entries (publication (requests c))) = Some (piece, st) →
  publication (requests c) !! piece = Some Needed.
Proof.
  intros [Hin Hst]%find_some. apply list_elem_of_In, elem_of_entries in Hin. by destruct st.
Qed.

Lemma start_operation_ok op c : Core op c → ∃ op', start_operation op c = Some op' ∧ Core op' c ∧
  (op' = None → publication_hold c = false).
Proof.
  intros HC. unfold start_operation. destruct op as [o|]; [by exists (Some o)|].
  destruct (List.find _ _) as [[piece st]|] eqn:Ef.
  - apply find_needed in Ef. destruct (co_publication _ _ HC _ _ Ef) as (d & -> & _).
    eexists. split_and!; [done| |done]. destruct HC. constructor; try done. by intros o [= <-].
  - exists None. split_and!; [done|done|]. intros _. apply publication_hold_false. intros i Hi.
    apply (elem_of_entries (publication (requests c))), list_elem_of_In in Hi.
    by apply (find_none _ _ Ef) in Hi.
Qed.

Lemma terminal_ok o c res : Core (Some o) c → ∃ c', terminal c (op_piece o) res = Some c' ∧ Core None c' ∧
  reasm c' = reasm c ∧ pending_output c' = pending_output c ∧ timing c' = timing c ∧
  same_requests c c' ∧ moved c c' ∧ publication (requests c') = <[op_piece o := Terminal res]> (publication (requests c)).
Proof.
  intros HC. unfold terminal. pose proof (co_op _ _ HC o eq_refl) as Ho. rewrite Ho.
  eexists. split_and!; [done|..|by constructor|done]; try done.
  destruct HC as [HI Hp Hpub Hop Hpr Hpe Hh Hcr]. constructor; cbn; try done.
  intros i st [[<- _]|[_ Hi]]%lookup_insert_Some; eauto.
Qed.

(** A polled operation keeps its piece until it ends with a terminal status. *)
Record polled (o : PublicationOperation) (c : Continuity) (op' : option PublicationOperation) (c' : Continuity)
    : Prop := {
  po_core : Core op' c';
  po_reasm : reasm c' = reasm c;
  po_pending : pending_output c' = pending_output c;
  po_timing : timing c' = timing c;
  po_requests : same_requests c c';
  po_moved : moved c c';
  po_cases : (c' = c ∧ ∃ o', op' = Some o' ∧ op_piece o' = op_piece o) ∨
    (op' = None ∧ ∃ res, publication (requests c') = <[op_piece o := Terminal res]> (publication (requests c)));
}.

Lemma polled_keep o o' c : Core (Some o) c → op_piece o' = op_piece o → polled o c (Some o') c.
Proof.
  intros HC E. constructor; try done; [|left; eauto].
  destruct HC. constructor; try done. intros x [= <-]. rewrite E. eauto.
Qed.

Lemma polled_terminal o c res : Core (Some o) c →
  ∃ op' c', (c ← terminal c (op_piece o) res; Some (None, c)) = Some (op', c') ∧ polled o c op' c'.
Proof.
  intros HC. destruct (terminal_ok o c res HC) as (c' & -> & ? & ? & ? & ? & ? & ? & ?).
  eexists _, _. split; [done|]. constructor; try done. right. eauto.
Qed.

Lemma poll_operation_ok o c e : Core (Some o) c →
  ∃ op' c', poll_operation o c e = Some (op', c') ∧ polled o c op' c'.
Proof.
  intros HC. destruct (co_publication _ _ HC _ _ (co_op _ _ HC o eq_refl)) as (d & Hd & _).
  pose proof (polled_terminal o c) as Hterm. pose proof (λ o', polled_keep o o' c HC) as Hkeep.
  destruct o as [piece|piece|piece res], e; cbn [poll_operation op_piece] in *; rewrite ?Hd; cbn [mbind option_bind];
    first [by apply Hterm | eexists _, _; split; [done|]; by apply Hkeep].
Qed.

(** ** Output *)

Lemma start_output_ok op c reserved now : Core op c → (reserved = true → is_Some (output_ceiling (timing c))) →
  let '(c', reserved') := start_output c reserved now in
  Core op c' ∧ (reserved' = true → is_Some (output_ceiling (timing c'))) ∧ reasm c' = reasm c ∧
  requests c' = requests c ∧ moved c c' ∧ pending_output c' = pending_output c ∧
  (reserved' = false → output_demand c = false).
Proof.
  intros HC Hr. unfold start_output. destruct reserved; cbn [negb andb]; [by split_and!; try apply moved_refl|].
  destruct (output_demand c) eqn:Ed; [|by split_and!; try apply moved_refl].
  split_and!; try done.
  destruct HC as [HI Hp Hpub Hop Hpr Hpe Hh Hcr]. constructor; cbn; try done. intros _.
  unfold output_demand in Ed. apply orb_true_iff in Ed as [Ed|Ed].
  - left. by apply negb_true_iff, bool_decide_eq_false in Ed.
  - right. apply andb_true_iff in Ed as [_ Ed]. by apply has_ready_spec.
Qed.

(** Releasing the hold: the queue is empty. *)
(** With nothing queued the hold can be ended, whether or not it still had work. *)
Lemma core_closed op c now : Reassembly.Inv (reasm c) → path_inv (path c) →
  (∀ i st, publication (requests c) !! i = Some st → publishable (reasm c) i) →
  (∀ o, op = Some o → publication (requests c) !! op_piece o = Some Needed) →
  (∀ i, is_Some (piece_producers (requests c) !! i) → in_window (reasm c) i) →
  length (pending_credit (path c)) = length (pending_output c) →
  pending_output c = [] → Core op (end_hold c now).
Proof. intros. constructor; cbn; done. Qed.

Lemma core_end_hold op c now : Core op c → pending_output c = [] → Core op (end_hold c now).
Proof. intros []. by apply core_closed. Qed.

Lemma end_hold_frame c now : let c' := end_hold c now in
  reasm c' = reasm c ∧ requests c' = requests c ∧ pending_output c' = pending_output c ∧
  startup_deadline (timing c') = startup_deadline (timing c) ∧ live_recovery c' = live_recovery c ∧
  prefetch c' = prefetch c.
Proof. done. Qed.

(** The state between taking a piece and sending its first segment: the hold may have nothing to do. *)
Record Taken op (c c' : Continuity) (piece : ReadyPiece) : Prop := {
  tk_core : (pending_output c' ≠ [] → Core op c') ∧ (pending_output c' = [] → ∀ now, Core op (end_hold c' now));
  tk_index : rp_index piece = cursor c ∧ cursor c' = cursor c + 1;
  tk_bytes : ∃ d, Reassembly.complete (reasm c) !! cursor c = Some d ∧ rp_bytes piece = media (reasm c) (c_buf d);
  tk_reasm : reasm c' = advance (reasm c);
  tk_requests : same_requests c c';
  tk_moved : moved c c';
}.

Lemma prepare_path c cands piece r now : path_inv (path c) → pending_output c = [] → pending_credit (path c) = [] →
  path_inv (path (prepare_output c cands piece r now)) ∧
  length (pending_credit (path (prepare_output c cands piece r now))) =
    length (pending_output (prepare_output c cands piece r now)).
Proof.
  intros Hp Hn Hc. unfold prepare_output. cbv zeta.
  set (credit := _ <$> _). set (id := match credit with Some _ => _ | None => _ end).
  pose proof (resync_output_spec (path c) (rp_bytes piece) id now Hp) as Hr.
  destruct (resync_output_credited (path c) (rp_bytes piece) id now) as [p segments]. cbv zeta in Hr. cbn.
  destruct Hr as (Hp' & _ & _ & _ & spans & cs & parts & Hpc & _ & Ho & _). split; [done|].
  rewrite Hpc, Hc, Hn. cbn. pose proof (Forall2_length _ _ _ (oo_bytes _ _ _ _ _ _ _ _ Ho)).
  pose proof (Forall2_length _ _ _ (oo_credits _ _ _ _ _ _ _ _ Ho)). lia.
Qed.

Lemma prepare_frame c cands piece r now :
  let c' := prepare_output c cands piece r now in
  reasm c' = r ∧ timing c' = timing c ∧ live_recovery c' = live_recovery c ∧ prefetch c' = prefetch c ∧
  same_requests c c' ∧
  publication (requests c') = delete (rp_index piece) (publication (requests c)) ∧
  piece_producers (requests c') = delete (rp_index piece) (piece_producers (requests c)).
Proof. cbv zeta. unfold prepare_output. by destruct (resync_output_credited _ _ _ _). Qed.

(** Taking the piece at the cursor is possible whenever the session asks for output with an empty queue. *)
Lemma take_ok op c cands now : Core op c → is_Some (output_ceiling (timing c)) →
  pending_output c = [] → output_demand c = true →
  ∃ piece, take_ready_piece (reasm c) = (Some piece, advance (reasm c)) ∧
    Taken op c (prepare_output c cands piece (advance (reasm c)) now) piece.
Proof.
  intros HC Hceil Hn Hd. unfold output_demand in Hd. rewrite Hn, bool_decide_true in Hd by done. cbn in Hd.
  apply andb_true_iff in Hd as [[_ Hph%negb_true_iff]%andb_true_iff Hrd].
  pose proof (proj1 (publication_hold_false c) Hph) as Hno.
  pose proof (co_reasm _ _ HC) as HI. apply has_ready_spec in Hrd; [|done].
  destruct (take_ready_piece_cases (reasm c) HI) as [[E _]|(d & Hc & Et)]; [rewrite E in Hrd; by destruct Hrd|].
  eexists. split; [exact Et|]. set (piece := mkReadyPiece _ _).
  assert (op = None) as ->. { destruct op as [o|]; [|done]. by destruct (Hno _ (co_op _ _ HC o eq_refl)). }
  assert (pending_credit (path c) = []) as Hpc by (apply nil_length_inv; by rewrite (co_credit _ _ HC), Hn).
  destruct (prepare_path c cands piece (advance (reasm c)) now (co_path _ _ HC) Hn Hpc) as [Hpi Hlen].
  destruct (prepare_frame c cands piece (advance (reasm c)) now) as (Er & Eti & El & Ef & Hs & Ep & Epp).
  set (c' := prepare_output _ _ _ _ _) in *. clearbody c'.
  pose proof (advance_inv _ HI Hrd) as HI'.
  assert (∀ i, i ≠ next_emit (reasm c) → publishable (reasm c) i → publishable (advance (reasm c)) i) as Hpubl.
  { intros i Hi. apply publishable_transfer; [done|]. by apply lookup_delete_ne. }
  assert (∀ i st, publication (requests c') !! i = Some st → publishable (reasm c') i) as Hpub'.
  { intros i st. rewrite Ep, Er. intros [Hne Hi]%lookup_delete_Some.
    apply Hpubl; [done|]. by apply (co_publication _ _ HC _ st). }
  assert (∀ i, is_Some (piece_producers (requests c') !! i) → in_window (reasm c') i) as Hprod'.
  { intros i. rewrite Epp, Er. intros [x [Hne Hi]%lookup_delete_Some].
    apply in_window_advance; [|done]. apply (co_producers _ _ HC). by eexists. }
  constructor; [|split; unfold cursor, next_needed; [done|by rewrite Er]|by exists d|done|done|].
  - split.
    + intros Hne. constructor; rewrite ?Eti; try done; first [by left|by rewrite Er].
    + intros He now'. apply core_closed; try done. by rewrite Er.
  - destruct Hs as (_ & _ & Eh). constructor; rewrite ?Er, ?Eh; try done. unfold cursor, next_needed. rewrite Er. cbn. lia.
Qed.

(** What one permit does: at most one piece is taken, it is the piece at the cursor, and at most one
    segment leaves. *)
Record finished op (c : Continuity) (peers : gmap N PeerRuntime) (s : Sent) : Prop := {
  fi_core : Core op (after s);
  fi_requests : same_requests c (after s);
  fi_moved : moved c (after s);
  fi_startup : startup_deadline (timing (after s)) = startup_deadline (timing c);
  fi_taken : match taken s with
    | None => reasm (after s) = reasm c ∧ publication (requests (after s)) = publication (requests c)
    | Some piece => pending_output c = [] ∧ reasm (after s) = advance (reasm c) ∧ rp_index piece = cursor c ∧
        cursor (after s) = cursor c + 1 ∧
        ∃ d, Reassembly.complete (reasm c) !! cursor c = Some d ∧ rp_bytes piece = media (reasm c) (c_buf d)
    end;
  fi_queue : taken s = None →
    match pending_output c with
    | [] => sent s = None ∧ output_demand c = false ∧ output_ceiling (timing (after s)) = None ∧
        pending_output (after s) = []
    | o :: rest => sent s = Some o ∧ pending_output (after s) = rest
    end;
  fi_peers id p' : after_peers s !! id = Some p' → ∃ p, peers !! id = Some p ∧ rt_min p' = rt_min p;
}.

Lemma credit_peers info al now_secs now ids l id p' :
  l_peers (fold_left (credit_producer info al now_secs now) ids l) !! id = Some p' →
  ∃ p, l_peers l !! id = Some p ∧ rt_min p' = rt_min p.
Proof.
  revert l. induction ids as [|x ids IH]; intros l; simpl; [eauto|].
  intros (p1 & Hp & E)%IH. unfold credit_producer in Hp. destruct (l_credits l !! x) as [o|]; [|eauto].
  destruct (credited o); [eauto|]. cbn in Hp. rewrite lookup_fmap, fmap_Some in Hp.
  destruct Hp as (p & Hp & ->). exists p. split; [done|]. rewrite E. by destruct (decide _).
Qed.

Lemma core_sent op c r p ps rest objs k q t lr pf em output : Core op c → pending_output c = output :: rest →
  r = reasm c → path_inv p → pending_credit p = drop 1 (pending_credit (path c)) →
  publication q = publication (requests c) → piece_producers q = piece_producers (requests c) →
  output_ceiling t = output_ceiling (timing c) → ps = rest →
  let c' := mkContinuity r p ps objs k q t lr pf em in
  (ps ≠ [] ∨ has_ready c' = true → Core op c') ∧ (ps = [] → ∀ now, Core op (end_hold c' now)).
Proof.
  intros [HI Hp Hpub Hop Hpr Hpe Hh Hcr] Ho -> Hpi Hpc Ep Epp Et ->. cbv zeta.
  assert (length (pending_credit p) = length rest) as Hl.
  { rewrite Hpc, length_drop, Hcr, Ho. simpl. lia. }
  split.
  - intros Hor. constructor; cbn; rewrite ?Ep, ?Epp, ?Et; try done.
    + intros _. apply Hpe. by rewrite Ho.
    + intros _. destruct Hor as [?|Hor]; [by left|right]. by apply has_ready_spec in Hor.
  - intros -> now. constructor; cbn; rewrite ?Ep, ?Epp; try done.
Qed.

Lemma send_pending_ok op info al c cands peers warm tkn now now_secs output rest : Core op c →
  pending_output c = output :: rest →
  let s := send_pending info al c cands peers warm tkn now now_secs in
  sent s = Some output ∧ taken s = tkn ∧ Core op (after s) ∧ pending_output (after s) = rest ∧
  reasm (after s) = reasm c ∧ requests (after s) = requests c ∧
  startup_deadline (timing (after s)) = startup_deadline (timing c) ∧
  live_recovery (after s) = live_recovery c ∧ prefetch (after s) = prefetch c ∧
  (∀ id p', after_peers s !! id = Some p' → ∃ p, peers !! id = Some p ∧ rt_min p' = rt_min p).
Proof.
  intros HC Ho. cbv zeta. unfold send_pending. rewrite Ho. cbv zeta. cbn [sent taken after after_peers].
  match goal with |- context [has_ready ?x] => set (c' := x) end.
  assert (path_inv (path c')) as Hpi by (destruct (co_path _ _ HC); by constructor).
  destruct (core_sent op c (reasm c) (path c') rest rest (credits c') (next_credit c) (requests c) (timing c')
    (live_recovery c) (prefetch c) (emitted c') output HC Ho) as [Hs He]; try done.
  change (mkContinuity _ _ _ _ _ _ _ _ _ _) with c' in Hs, He.
  assert (∀ id p', l_peers (fold_left (credit_producer info al now_secs now)
    (match pending_credit (path c) with cs :: _ => cs | [] => [] end) (mkLedger (credits c) cands peers warm)) !! id = Some p' →
    ∃ p, peers !! id = Some p ∧ rt_min p' = rt_min p) as Hpeers by (intros id p' Hp; by apply credit_peers in Hp).
  assert (reasm c' = reasm c ∧ requests c' = requests c ∧ pending_output c' = rest ∧
    startup_deadline (timing c') = startup_deadline (timing c) ∧ live_recovery c' = live_recovery c ∧
    prefetch c' = prefetch c) as (? & ? & ? & ? & ? & ?) by done.
  clearbody c'. destruct (bool_decide_reflect (rest = [])) as [->|Hr]; [destruct (has_ready c') eqn:Ehr|]; cbn.
  - split_and!; try done. apply Hs. by right.
  - split_and!; try done. by apply He.
  - split_and!; try done. apply Hs. by left.
Qed.

(** What sending leaves alone. *)
Definition left_alone (c c' : Continuity) : Prop :=
  reasm c' = reasm c ∧ requests c' = requests c ∧ startup_deadline (timing c') = startup_deadline (timing c) ∧
  live_recovery c' = live_recovery c ∧ prefetch c' = prefetch c.

Lemma moved_alone c c' c'' : moved c c' → left_alone c' c'' → moved c c''.
Proof.
  intros [Hm1 Hm2 Hm3 [Hm4 Hm5]] (Er & Eq & _ & El & Ef).
  constructor; unfold cursor in *; rewrite ?Er, ?Eq, ?El, ?Ef; done.
Qed.

Lemma finished_taken op c c' piece peers s : Taken op c c' piece → pending_output c = [] →
  startup_deadline (timing c') = startup_deadline (timing c) → Core op (after s) → taken s = Some piece →
  left_alone c' (after s) →
  (∀ id p', after_peers s !! id = Some p' → ∃ p, peers !! id = Some p ∧ rt_min p' = rt_min p) →
  finished op c peers s.
Proof.
  intros [_ [Hi Hcur] Hb Er Hrq Hm] Hn Eti HC Et Ha Hp. pose proof (moved_alone _ _ _ Hm Ha) as Hm'.
  destruct Ha as (Ers & Erqs & Est & _ & _). constructor; rewrite ?Et; try done.
  - unfold same_requests in *. by rewrite Erqs.
  - by rewrite Est.
  - unfold cursor in *. rewrite Ers. split_and!; done.
Qed.

Lemma finished_idle op c cands peers warm now : Core op c → pending_output c = [] → output_demand c = false →
  finished op c peers (mkSent None None (end_hold c now) cands peers warm).
Proof.
  intros HC Hn Hd. constructor; cbn [sent taken after after_peers]; try done.
  - by apply core_end_hold.
  - by rewrite Hn.
  - eauto.
Qed.

Lemma finished_sent op c peers s o rest : pending_output c = o :: rest → sent s = Some o → taken s = None →
  Core op (after s) → pending_output (after s) = rest → left_alone c (after s) →
  (∀ id p', after_peers s !! id = Some p' → ∃ p, peers !! id = Some p ∧ rt_min p' = rt_min p) →
  finished op c peers s.
Proof.
  intros Ho Es Et HC Ep Ha Hp. pose proof (moved_alone _ _ _ (moved_refl c) Ha) as Hm.
  destruct Ha as (Er & Eq & Est & _). constructor; rewrite ?Et, ?Ho; try done.
  - unfold same_requests. by rewrite Eq.
  - split; [done|]. by rewrite Eq.
Qed.

Lemma finish_output_ok op info al c cands peers warm now now_secs : Core op c → is_Some (output_ceiling (timing c)) →
  finished op c peers (finish_output_step info al c cands peers warm now now_secs).
Proof.
  intros HC Hceil. unfold finish_output_step. destruct (bool_decide_reflect (pending_output c = [])) as [Hn|Hn].
  - destruct (output_demand c) eqn:Hd; cbn [negb].
    + destruct (take_ok op c cands now HC Hceil Hn Hd) as (piece & -> & HT).
      destruct (prepare_frame c cands piece (advance (reasm c)) now) as (_ & Eti & _).
      set (c' := prepare_output _ _ _ _ _) in *. clearbody c'. destruct (tk_core _ _ _ _ HT) as [HC1 HC2].
      destruct (bool_decide_reflect (pending_output c' = [])) as [Hn'|Hn'].
      * eapply finished_taken; [exact HT|exact Hn|by rewrite Eti|by apply HC2|done|by destruct (end_hold_frame c' now) as (?&?&_&?)|eauto].
      * destruct (pending_output c') as [|o rest] eqn:Ho; [done|].
        destruct (send_pending_ok op info al c' cands peers warm (Some piece) now now_secs o rest (HC1 Hn') Ho)
          as (_ & Et & HCs & _ & Ers & Erqs & Est & El & Ef & Hps).
        eapply finished_taken; [exact HT|exact Hn|by rewrite Eti|exact HCs|exact Et|split_and!; assumption|exact Hps].
    + apply finished_idle; [done|done|done].
  - destruct (pending_output c) as [|o rest] eqn:Ho; [done|].
    destruct (send_pending_ok op info al c cands peers warm None now now_secs o rest HC Ho)
      as (Es & Et & HCs & Ep & Ers & Erqs & Est & El & Ef & Hps). eapply finished_sent; try eassumption. split_and!; assumption.
Qed.

(** ** Requests and peers

    These operations leave the core alone: only the scheduler, the peers and the timers change. *)

(** A change of the request maps only. *)
Lemma served_peers op c ps s ra : Core op c → Timely c → Bounded ps s →
  (∀ id p, ps !! id = Some p → Scheduler.min_piece p < two63) →
  served op c (set_requests (λ q, mkRequests s ps (received_chunks q) (piece_producers q) ra
    (publication q) (head q) (request_floor q)) c).
Proof.
  intros HC [HB Hh Hf] HB' Hf'. constructor; [by eapply core_frame; [|exact HC]|by constructor|by constructor|done].
Qed.

(** Peers within their budgets, with windows of machine size. *)
Definition PeersOk (ps : ActivePeers) (s : Scheduler) : Prop :=
  Bounded ps s ∧ ∀ id p, ps !! id = Some p → Scheduler.min_piece p < two63.

Lemma timely_peers c : Timely c ↔
  PeersOk (active_peers (requests c)) (scheduler (requests c)) ∧ head (requests c) < two63.
Proof. split; [by intros []|by intros [[? ?] ?]; constructor]. Qed.

Lemma peers_alter ps s id f : PeersOk ps s →
  (∀ p, (size (in_flight (f p)) ≤ size (in_flight p))%nat ∧
        (Scheduler.min_piece p < two63 → Scheduler.min_piece (f p) < two63)) →
  PeersOk (alter f id ps) s.
Proof.
  intros [HB Hf] H1. split; [apply alter_bounded; [done|apply H1]|].
  intros i p [(<- & x & Hx & ->)|[_ Hx]]%lookup_alter_Some; [|eauto]. apply H1. eauto.
Qed.

Lemma peers_fmap ps s f : PeersOk ps s →
  (∀ p, (size (in_flight (f p)) ≤ size (in_flight p))%nat ∧ Scheduler.min_piece (f p) = Scheduler.min_piece p) →
  PeersOk (f <$> ps) s.
Proof.
  intros [HB Hf] H1. split; [apply fmap_bounded; [done|apply H1]|].
  intros i p. rewrite lookup_fmap, fmap_Some. intros (x & Hx & ->). destruct (H1 x) as [_ ->]. eauto.
Qed.

Lemma peers_drop ps s piece : PeersOk ps s → PeersOk ps (on_drop s piece).
Proof. done. Qed.

Lemma peers_cancel ps s id piece : PeersOk ps s → PeersOk (cancel_assignment ps id piece) s.
Proof. intros HP. apply peers_alter; [done|]. intros p. split; [|done]. apply subseteq_size. set_solver. Qed.

Lemma peers_complete ps s piece : PeersOk ps s → PeersOk (complete_everywhere ps piece) s.
Proof. intros HP. apply peers_fmap; [done|]. intros p. split; [|done]. apply subseteq_size. set_solver. Qed.

Lemma peers_insert ps s id w : PeersOk ps s → (Extended.min_piece w ≤ i64_max)%Z → PeersOk (insert_peer ps id w) s.
Proof.
  intros [HB Hf] Hw. split; [by apply (Scheduler.step_bounded (_, _) (_, _) (Scheduler.step_insert _ _ id w))|].
  intros i p. unfold insert_peer. intros [[<- <-]|[_ Hp]]%lookup_insert_Some; [|eauto]. cbn. unfold two63. lia.
Qed.

Lemma peers_assign_ok ps s next head q out ps' s' : PeersOk ps s → head < two63 → next < two64 →
  peers_assign_inner ps s next head q = Some (out, ps', s') → PeersOk ps' s'.
Proof.
  intros [HB Hf] Hh Hn E.
  destruct (peers_assign_spec ps s next head q HB (two63_u64_max _ Hh) Hn)
    as (a & ps1 & s1 & E1 & _ & HB1 & _ & _ & _ & _ & Hps). rewrite E1 in E. simplify_eq.
  split; [done|]. intros id p. rewrite Hps, fmap_Some. intros (x & Hx & ->). exact (Hf id x Hx).
Qed.

Lemma served_requests op c ps s ra : Core op c → Timely c → PeersOk ps s →
  served op c (set_requests (λ q, mkRequests s ps (received_chunks q) (piece_producers q) ra
    (publication q) (head q) (request_floor q)) c).
Proof. intros HC HT [? ?]. by apply served_peers. Qed.

Lemma issue_request_ok op peers send_ok now c f a : Core op c → Timely c →
  served op c (issue_request peers send_ok now (c, f) a).1.
Proof.
  intros HC HT. unfold issue_request. pose proof (proj1 (proj1 (timely_peers c) HT)) as HP.
  destruct (_ && _ && _); cbn [fst].
  - by apply (served_requests op c (active_peers (requests c)) (scheduler (requests c))).
  - apply (served_requests op c (cancel_assignment _ (peer_id a) (pa_piece a)) (on_drop _ (pa_piece a))
      (requested_at (requests c))); [done|done|]. by apply peers_cancel.
Qed.

(** Folding an operation that serves. *)
Lemma served_fold {A B} op (f : Continuity * B → A → Continuity * B) l c b :
  (∀ c b x, Core op c → Timely c → served op c (f (c, b) x).1) → Core op c → Timely c →
  served op c (fold_left f l (c, b)).1.
Proof.
  intros Hf. revert c b. induction l as [|x l IH]; intros c b HC HT; [by apply served_refl|]. simpl.
  pose proof (Hf c b x HC HT) as Hs. destruct (f (c, b) x) as [c1 b1]. cbn [fst] in Hs.
  eapply served_trans; [exact Hs|]. apply IH; apply Hs.
Qed.

Lemma advance_requests_ok op peers slots send_ok c now : Core op c → Timely c →
  ∃ c', advance_pool_requests peers slots send_ok c now = Some c' ∧ served op c c'.
Proof.
  intros HC HT. unfold advance_pool_requests. destruct (playback_hold c); [eauto using served_refl|].
  pose proof (served_skip _ _ _ _ (skip_far_ok op c (clock_now (output_clock (timing c)) now) HC HT)) as Hs.
  destruct (skip_far_behind_live c _) as [c1 t]. cbn [fst] in *.
  destruct (bool_decide _); [eauto|]. pose proof Hs as [HC1 HT1 _ _].
  pose proof (proj1 (timely_peers c1) HT1) as [HP Hh].
  destruct (peers_assign_spec (active_peers (requests c1)) (scheduler (requests c1)) (cursor c1) (head (requests c1))
    (Some slots) (proj1 HP) (two63_u64_max _ Hh) (inv_cursor _ (co_reasm _ _ HC1)))
    as (a & ps & s & E & _). unfold peers_assign_with_queue_slots. rewrite E. cbn [mbind option_bind].
  eexists. split; [done|]. eapply served_trans; [exact Hs|].
  assert (PeersOk ps s) as HP' by (eapply peers_assign_ok; [exact HP|exact Hh|apply (inv_cursor _ (co_reasm _ _ HC1))|exact E]).
  pose proof (served_requests op c1 ps s (requested_at (requests c1)) HC1 HT1 HP') as Hs2.
  eapply served_trans; [exact Hs2|]. apply served_fold; [|apply Hs2|apply Hs2].
  intros. by apply issue_request_ok.
Qed.

Lemma requeue_ok op c piece : Core op c → Timely c → served op c (requeue c piece).
Proof.
  intros HC HT. apply (served_requests op c (active_peers (requests c)) (on_drop (scheduler (requests c)) piece)
    (delete piece (requested_at (requests c)))); [done|done|]. apply timely_peers in HT. apply HT.
Qed.

Lemma timed_out_ok op c now : Core op c → Timely c → served op c (timed_out_requests c now).1.
Proof.
  intros HC HT. apply (served_requests op c (active_peers (requests c)) (scheduler (requests c))
    (from_key (cursor c) (requested_at (requests c)))); [done|done|]. apply timely_peers in HT. apply HT.
Qed.

Lemma release_unassigned_ok op c b piece : Core op c → Timely c →
  served op c (release_unassigned (c, b) piece).1.
Proof.
  intros HC HT. unfold release_unassigned. destruct (requested_at _ !! piece); [by apply served_refl|]. cbn [fst].
  apply (served_requests op c (complete_everywhere _ piece) (scheduler (requests c)) (requested_at (requests c)));
    [done|done|]. apply timely_peers in HT as [? _]. by apply peers_complete.
Qed.

Lemma retransmit_ok op peers slots send_ok c now : Core op c → Timely c →
  ∃ c', retransmit_stalled_requests peers slots send_ok c now = Some c' ∧ served op c c'.
Proof.
  intros HC HT. unfold retransmit_stalled_requests. destruct (playback_hold c); [eauto using served_refl|].
  pose proof (served_skip _ _ _ _ (skip_far_ok op c (clock_now (output_clock (timing c)) now) HC HT)) as Hs1.
  destruct (skip_far_behind_live c _) as [c1 t1]. cbn [fst] in Hs1.
  pose proof (served_skip _ _ _ _ (skip_evicted_ok op c1 (clock_now (output_clock (timing c1)) now)
    (se_core _ _ _ Hs1) (se_timely _ _ _ Hs1))) as Hs2.
  destruct (skip_evicted_gap c1 _) as [c2 t2]. cbn [fst] in Hs2. eapply served_trans in Hs2; [|exact Hs1]. clear Hs1.
  pose proof (timed_out_ok op c2 (clock_now (output_clock (timing c2)) now) (se_core _ _ _ Hs2) (se_timely _ _ _ Hs2)) as Hs3.
  destruct (timed_out_requests c2 _) as [c3 out]. cbn [fst] in Hs3. eapply served_trans in Hs3; [|exact Hs2]. clear Hs2.
  assert (served op c (fold_left requeue out c3)) as Hs4.
  { pose proof (served_fold op (λ cb x, (requeue cb.1 x, cb.2)) out c3 tt) as Hf.
    assert (∀ l c u, (fold_left (λ (cb : Continuity * unit) x, (requeue cb.1 x, cb.2)) l (c, u)).1 = fold_left requeue l c) as E.
    { intros l. induction l as [|x l IH]; intros ? ?; [done|]. simpl. by rewrite IH. }
    rewrite E in Hf. eapply served_trans; [exact Hs3|]. apply Hf; [|apply Hs3|apply Hs3].
    intros. by apply requeue_ok. }
  clear Hs3. set (c4 := fold_left requeue out c3) in *. clearbody c4.
  destruct (_ || _ || _); [|eauto].
  destruct (advance_requests_ok op peers slots send_ok c4 now (se_core _ _ _ Hs4) (se_timely _ _ _ Hs4)) as (c5 & -> & Hs5).
  cbn [mbind option_bind]. eapply served_trans in Hs5; [|exact Hs4]. clear Hs4.
  pose proof (served_fold op release_unassigned out c5 false (release_unassigned_ok op) (se_core _ _ _ Hs5)
    (se_timely _ _ _ Hs5)) as Hs6.
  destruct (fold_left release_unassigned out (c5, false)) as [c6 rel]. cbn [fst] in Hs6.
  eapply served_trans in Hs6; [|exact Hs5]. destruct rel; [|eauto].
  destruct (advance_requests_ok op peers slots send_ok c6 now (se_core _ _ _ Hs6) (se_timely _ _ _ Hs6)) as (c7 & -> & Hs7).
  eauto using served_trans.
Qed.

Lemma register_ok op c id w : Core op c → Timely c → (Extended.min_piece w ≤ i64_max)%Z →
  served op c (register_active_peer c id w).
Proof.
  intros HC HT Hw. apply (served_requests op c (insert_peer _ id w) (scheduler (requests c)) (requested_at (requests c)));
    [done|done|]. apply timely_peers in HT as [? _]. by apply peers_insert.
Qed.

Lemma unchoke_ok op c id u : Core op c → Timely c → served op c (set_peer_unchoked c id u).
Proof.
  intros HC HT. apply (served_requests op c (set_unchoked _ id u) (scheduler (requests c)) (requested_at (requests c)));
    [done|done|]. apply timely_peers in HT as [? _]. by apply peers_alter.
Qed.

Lemma observe_ok op c id b : Core op c → Timely c →
  served op c (set_requests (λ q, set_active_peers (observe_window (active_peers q) id b) q) c).
Proof.
  intros HC HT. apply (served_requests op c (observe_window _ id b) (scheduler (requests c)) (requested_at (requests c)));
    [done|done|]. apply timely_peers in HT as [? _]. by apply peers_alter.
Qed.

Lemma window_ok op c id lo hi : Core op c → Timely c → lo < two63 → served op c (update_peer_window c id lo hi).
Proof.
  intros HC HT Hlo. apply (served_requests op c (update_window _ id lo hi) (scheduler (requests c))
    (requested_at (requests c))); [done|done|]. apply timely_peers in HT as [? _]. by apply peers_alter.
Qed.

Lemma head_ok op c h : Core op c → Timely c → h < two63 → served op c (raise_head c h).
Proof.
  intros HC [HB Hh Hf] Hlt. constructor; [by eapply core_frame; [|exact HC]| | |done].
  - constructor; cbn; try done. lia.
  - constructor; try done. cbn. lia.
Qed.

(** The lower ends of the pool's windows. *)
Definition RuntimesOk (peers : gmap N PeerRuntime) : Prop := ∀ id p, peers !! id = Some p → rt_min p < two63.

Lemma update_runtime_ok op peers c id piece : Core op c → Timely c → RuntimesOk peers →
  RuntimesOk (update_runtime_window peers c id piece).1 ∧ served op c (update_runtime_window peers c id piece).2.
Proof.
  intros HC HT HR. unfold update_runtime_window. destruct (peers !! id) as [p|] eqn:E; [|by split; [|apply served_refl]].
  pose proof (HR _ _ E). split; cbn [fst snd]; [|by apply window_ok].
  intros i x [[<- <-]|[_ Hx]]%lookup_insert_Some; [done|eauto].
Qed.

Lemma drop_runtime_ok op peers c id : Core op c → Timely c → RuntimesOk peers →
  let '(_, peers', c') := drop_peer_runtime peers c id in RuntimesOk peers' ∧ served op c c'.
Proof.
  intros HC HT HR. unfold drop_peer_runtime. destruct (peers !! id) as [p|]; [|by split; [|apply served_refl]].
  unfold remove. split; [intros i x [_ Hx]%lookup_delete_Some; eauto|].
  apply (served_requests op c (delete id _) (fold_left on_drop _ (scheduler (requests c))) (requested_at (requests c)));
    [done|done|]. apply timely_peers in HT as [[HB Hf] _].
  assert (∀ l s, Bounded (active_peers (requests c)) s → Bounded (active_peers (requests c)) (fold_left on_drop l s)) as Hd.
  { intros l. induction l as [|x l IH]; intros s Hs; [done|]. simpl. by apply IH. }
  split; intros i x [_ Hx]%lookup_delete_Some; [|eauto]. by eapply Hd.
Qed.

End Inv.
