(* ===== verification/PoolActor.v ===== *)
(** * The pool actor of a live session

    [ace-swarm/src/live_session/pool/actor.rs] (with [pool.rs], [pool/actor/reciprocal.rs],
    [support.rs] and parts of [pool_support.rs]): one actor owns the session state, the peers, the
    candidates, the publication in progress and the reservation of the consumer's queue; it handles
    one event at a time.  An event is a peer message, a connected transport, a permit of the consumer,
    an answer of the store, a tick.  The actor's sockets, channels and tasks are represented by what
    they deliver: the free slots of every command queue, and whether a command could be queued. *)

From S2P Require Import Prelude Order Bytes BTree Wire Bencode Net Message LiveCodec LiveAuth.
From S2P Require Import Store PeerExchange LiveWindow Scheduler Reassembly PeerPolicy Candidates WarmPeers OutputPath OutputClock.
From S2P Require Import Continuity.

Local Open Scope N_scope.

(** ** Reciprocal requests *)

Record ChunkRequest : Type := mkChunkRequest { rq_piece : N; rq_chunk : N }.

Record Queues : Type := mkQueues { waiting : gmap N (list ChunkRequest); q_cursor : N }.

Definition Queues_default : Queues := mkQueues ∅ 0.

Definition queue_push (q : Queues) (peer : N) (request : ChunkRequest) : Queues :=
  let queue := default [] (waiting q !! peer) in
  mkQueues (<[peer := if (length queue <? 64)%nat then queue ++ [request] else queue]> (waiting q)) (q_cursor q).

Definition retain_current (current : N → bool) (q : Queues) : Queues :=
  mkQueues (base.filter (λ kv, current kv.1 = true) (waiting q)) (q_cursor q).

(** The first peer after the cursor, else the first peer. *)
Definition next_peer (q : Queues) : option N :=
  match first_key (from_key (q_cursor q + 1) (waiting q)) with
  | Some id => Some id
  | None => first_key (waiting q)
  end.

Definition queue_pop (q : Queues) : option (N * ChunkRequest) * Queues :=
  match next_peer q with
  | None => (None, q)
  | Some id =>
      match waiting q !! id with
      | Some (request :: rest) =>
          (Some (id, request),
           mkQueues (if bool_decide (rest = []) then delete id (waiting q) else <[id := rest]> (waiting q)) id)
      | _ => (None, q)
      end
  end.

(** ** The actor *)

(** An [Activation] job: the transport whose opening messages are being written. *)
Record Activation : Type := mkActivation {
  act_addr : SocketAddrV4;
  act_peer_id : N;
  act_replacement : option N;
}.

(** A connected transport, its window, and whether it has unchoked us. *)
Record Upstream : Type := mkUpstream {
  up_addr : SocketAddrV4;
  up_window : Extended.LivePosition;
  up_unchoked : bool;
}.

Record Pool : Type := mkPool {
  continuity : Continuity;
  peers : gmap N PeerRuntime;
  candidates : SessionCandidates;
  warm_peers : WarmPeers.State;
  learned_pending : gset SocketAddrV4;
  (** The dials in flight, [learned_connects.len()]. *)
  connects : nat;
  publication_op : option PublicationOperation;
  reservation : bool;
  activation : option Activation;
  gossip : bool;
  reciprocal : Queues;
  reciprocal_job : option (N * ChunkRequest);
  next_peer_id : N;
  loss_count : N;
}.

Definition set_continuity (c : Continuity) (p : Pool) : Pool :=
  mkPool c (peers p) (candidates p) (warm_peers p) (learned_pending p) (connects p) (publication_op p)
    (reservation p) (activation p) (gossip p) (reciprocal p) (reciprocal_job p) (next_peer_id p) (loss_count p).
Definition set_peers (ps : gmap N PeerRuntime) (p : Pool) : Pool :=
  mkPool (continuity p) ps (candidates p) (warm_peers p) (learned_pending p) (connects p) (publication_op p)
    (reservation p) (activation p) (gossip p) (reciprocal p) (reciprocal_job p) (next_peer_id p) (loss_count p).
Definition set_candidates (s : SessionCandidates) (p : Pool) : Pool :=
  mkPool (continuity p) (peers p) s (warm_peers p) (learned_pending p) (connects p) (publication_op p)
    (reservation p) (activation p) (gossip p) (reciprocal p) (reciprocal_job p) (next_peer_id p) (loss_count p).
Definition set_publication_op (o : option PublicationOperation) (p : Pool) : Pool :=
  mkPool (continuity p) (peers p) (candidates p) (warm_peers p) (learned_pending p) (connects p) o
    (reservation p) (activation p) (gossip p) (reciprocal p) (reciprocal_job p) (next_peer_id p) (loss_count p).
Definition set_reservation (b : bool) (p : Pool) : Pool :=
  mkPool (continuity p) (peers p) (candidates p) (warm_peers p) (learned_pending p) (connects p) (publication_op p)
    b (activation p) (gossip p) (reciprocal p) (reciprocal_job p) (next_peer_id p) (loss_count p).
Definition set_activation (a : option Activation) (p : Pool) : Pool :=
  mkPool (continuity p) (peers p) (candidates p) (warm_peers p) (learned_pending p) (connects p) (publication_op p)
    (reservation p) a (gossip p) (reciprocal p) (reciprocal_job p) (next_peer_id p) (loss_count p).
Definition set_gossip (g : bool) (p : Pool) : Pool :=
  mkPool (continuity p) (peers p) (candidates p) (warm_peers p) (learned_pending p) (connects p) (publication_op p)
    (reservation p) (activation p) g (reciprocal p) (reciprocal_job p) (next_peer_id p) (loss_count p).
Definition set_reciprocal (q : Queues) (j : option (N * ChunkRequest)) (p : Pool) : Pool :=
  mkPool (continuity p) (peers p) (candidates p) (warm_peers p) (learned_pending p) (connects p) (publication_op p)
    (reservation p) (activation p) (gossip p) q j (next_peer_id p) (loss_count p).
Definition set_dials (s : SessionCandidates) (pending : gset SocketAddrV4) (n : nat) (p : Pool) : Pool :=
  mkPool (continuity p) (peers p) s (warm_peers p) pending n (publication_op p)
    (reservation p) (activation p) (gossip p) (reciprocal p) (reciprocal_job p) (next_peer_id p) (loss_count p).
Definition set_losses (s : SessionCandidates) (n : N) (p : Pool) : Pool :=
  mkPool (continuity p) (peers p) s (warm_peers p) (learned_pending p) (connects p) (publication_op p)
    (reservation p) (activation p) (gossip p) (reciprocal p) (reciprocal_job p) (next_peer_id p) n.

(** What the runtime answers while one event is handled. *)
Record Env : Type := mkEnv {
  now : N;
  now_secs : N;
  (** Free slots of the command queues, and whether a request or a message is queued. *)
  queue_slots : gmap N N;
  request_queued : N → N → bool;
}.

Section Actor.
Context `{Crypto} (info : StreamInfo) (seed_enabled allow_loopback : bool).

Definition chunks_per_piece : N := si_piece_length info `div` si_chunk_length info.

(** ** Support *)

Definition read_window_max (payload : bytes) : option N :=
  w ← from_myinfo_payload payload; if LiveWindow.max_piece w <=? 4294967295 then Some (LiveWindow.max_piece w) else None.

Definition should_refresh_stale_deadline (emitted : N) (made_output made_activity : bool) : bool :=
  made_output || ((emitted =? 0) && made_activity).

Definition observe_live_window (c : Continuity) (peer : N) (payload : bytes) : Continuity :=
  match parse_prefix payload with
  | Err _ => c
  | Ok (root, _) =>
      match (if bool_decide (is_Some (get root (bs "max_piece"))) then Some root else get root (bs "mi")) with
      | None => c
      | Some dict =>
          let value (key : bytes) : option N := d ← get dict key; z ← as_int d; u64_try_from z in
          set_requests (λ q, set_active_peers (observe_window (active_peers q) peer
            (lo ← value (bs "min_piece"); hi ← value (bs "max_piece"); Some (lo, hi))) q) c
      end
  end.

Definition addresses (p : Pool) : list SocketAddrV4 := map (λ e, rt_addr e.2) (BTree.entries (peers p)).
Definition max_active (p : Pool) : N := max_active_upstreams (live_recovery (continuity p)).
Definition starting (p : Pool) : bool := bool_decide (is_Some (startup_deadline (timing (continuity p)))).
Definition with_losses (p : Pool) (lost : list SocketAddrV4) (now : N) : Pool :=
  let '(s, n) := record_pool_losses (candidates p) (loss_count p) lost now in set_losses s n p.

Definition maybe_refill (p : Pool) (exceptional : bool) (now : N) : Pool :=
  if exceptional || (N.of_nat (size (peers p)) <? max_active p) || starting p then
    let held := act_addr <$> activation p in
    let parallel := saturating_sub (max_parallel_connect (live_recovery (continuity p)))
      ((if gossip p then 1 else 0) + (if activation p then 1 else 0)) in
    let '(s, pending, dials) := spawn_candidate_connects held (candidates p) (addresses p)
      (N.to_nat parallel) (connects p) (learned_pending p) true now in
    set_dials s pending (connects p + length dials) p
  else p.

(** [advance_pool_requests] of the actor; it reports no losses. *)
Definition advance (e : Env) (p : Pool) : option Pool :=
  c ← advance_pool_requests (peers p) (queue_slots e) (request_queued e) (continuity p) (now e);
  Some (set_continuity c p).

Definition start_publication (p : Pool) : option Pool :=
  op ← start_operation (publication_op p) (continuity p); Some (set_publication_op op p).

(** [continuity.output_budget(now)]. *)
Definition pool_budget (p : Pool) (now : N) : OutputBudget * Pool :=
  let c := continuity p in
  let t := timing c in
  let '(first, budget) := output_budget (stale_upstream_timeout (live_recovery c)) (output_clock t)
    (first_output t) (startup_deadline t) (last_progress t) now in
  (budget, set_continuity (set_timing (λ t, mkTiming (output_ceiling t) (output_clock t) first (last_progress t)
    (next_needed_since t) (startup_deadline t)) c) p).

Definition touch_progress (now : N) (c : Continuity) : Continuity :=
  set_timing (λ t, mkTiming (output_ceiling t) (output_clock t) (first_output t) (clock_now (output_clock t) now)
    (next_needed_since t) (startup_deadline t)) c.

(** The end of the wait for a second window. *)
Definition release_startup (p : Pool) (now : N) : Pool :=
  let p := set_continuity (set_timing (set_startup_deadline None) (continuity p)) p in
  let p := (pool_budget p now).2 in
  set_continuity (touch_progress now (continuity p)) p.

(** ** Peer messages *)

(** A window that moves the shared head or the peer's own: the rest of its branch. *)
Definition on_window (e : Env) (p : Pool) (id max_piece : N) : option (Pool * bool) :=
  let advanced := match peers p !! id with Some r => rt_max r <? max_piece | None => false end in
  if (head (requests (continuity p)) <? max_piece) || advanced then
    let '(ps, c) := advance_head (peers p) (continuity p) id max_piece in
    p ← advance e (set_continuity c (set_peers ps p)); Some (p, true)
  else Some (p, false).

Definition prune_reciprocal (p : Pool) : Pool :=
  set_reciprocal (retain_current (λ id, bool_decide (is_Some (peers p !! id))) (reciprocal p)) (reciprocal_job p) p.

Definition queue_reciprocal (p : Pool) (id : N) (payload : bytes) : Pool :=
  let p := prune_reciprocal p in
  if (10 <=? length payload)%nat && bool_decide (is_Some (peers p !! id)) then
    set_reciprocal (queue_push (reciprocal p) id
      (mkChunkRequest (be_N (slice payload 4 8)) (be_N (slice payload 8 10)))) (reciprocal_job p) p
  else p.

Definition learn_all (p : Pool) (l : list (SocketAddrV4 * CandidateKind)) (now : N) : Pool :=
  set_candidates (fold_left (λ s ak, learn s ak.1 ak.2 now) l (candidates p)) p.

(** The branches of [on_message], up to the common end; the flag is [made_activity].  [inl] is an early
    return. *)
Definition dispatch (e : Env) (p : Pool) (id : N) (addr : SocketAddrV4) (m : PeerMessage)
    : option (Pool + Pool * bool) :=
  match m with
  | Unchoke =>
      p ← advance e (set_continuity (set_peer_unchoked (continuity p) id true) p); Some (inr (p, true))
  | Choke => Some (inr (set_continuity (set_peer_unchoked (continuity p) id false) p, false))
  | Have piece =>
      let moved := head (requests (continuity p)) <? piece in
      let '(ps, c) := advance_head (peers p) (continuity p) id piece in
      p ← advance e (set_continuity c (set_peers ps p)); Some (inr (p, moved))
  | Extended _ payload =>
      match read_window_max payload with
      | Some max_piece => inr <$> on_window e p id max_piece
      | None => Some (inr (p, false))
      end
  | Piece _ _ _ =>
      let '(c, outcome) := on_piece (continuity p) addr m (si_chunk_length info) chunks_per_piece (now e) in
      let p := set_continuity c p in
      match outcome with
      | Skip => Some (inl p)
      | Rejected => inl <$> advance e p
      | Progress false => Some (inr (p, false))
      | Progress true => p ← start_publication p; p ← advance e p; Some (inr (p, true))
      end
  | Interested =>
      Some (inr (if seed_enabled then
        set_peers (alter (λ r, mkRuntime (rt_addr r) (rt_min r) (rt_max r) true (produced_output r)) id (peers p)) p
        else p, false))
  | Unknown i payload =>
      let i := byte_N i in
      if (i =? 6) && seed_enabled then Some (inr (queue_reciprocal p id payload, false))
      else if (i =? 4) && (length payload =? 8)%nat then
        inr <$> on_window e p id (be_N (slice payload 4 8))
      else if i =? 10 then Some (inr (p, false))
      else if i =? 12 then
        let ranked := rank_by_window_coverage (parse_peer_exchange_detailed payload) (cursor (continuity p)) in
        Some (inr (maybe_refill (learn_all p (map (λ a, (a, Pex)) ranked) (now e)) false (now e), false))
      else if i =? 36 then
        Some (inr (match parse_peer_announce payload with
                   | Some source => maybe_refill (learn_all p [(source, Source)] (now e)) false (now e)
                   | None => p
                   end, false))
      else if (i =? 11) || (i =? 13) || (i =? 34) then Some (inr (p, false))
      else match read_window_max payload with
           | Some max_piece => inr <$> on_window e p id max_piece
           | None => Some (inr (p, false))
           end
  | _ => Some (inr (p, false))
  end.

(** [on_message]; the flag tells that the pool is lost. *)
Definition on_message (e : Env) (p : Pool) (id : N) (addr : SocketAddrV4) (m : PeerMessage) : option (Pool * bool) :=
  let p := match m with
    | Extended _ payload | Unknown _ payload => set_continuity (observe_live_window (continuity p) id payload) p
    | _ => p
    end in
  r ← dispatch e p id addr m;
  match r with
  | inl p => Some (p, false)
  | inr (p, activity) =>
      if bool_decide (peers p = ∅) && negb (has_delivery_work (continuity p)) then Some (p, true)
      else if should_refresh_stale_deadline (emitted (continuity p)) false activity then
        Some (set_continuity (touch_progress (now e) (continuity p)) p, false)
      else Some (p, false)
  end.

(** ** Lost peers *)

Definition drop_peer (p : Pool) (id : N) : option SocketAddrV4 * Pool :=
  let '(lost, ps, c) := drop_peer_runtime (peers p) (continuity p) id in
  (lost, set_continuity c (set_peers ps p)).

Definition stale_sources (p : Pool) : list N :=
  map fst (List.filter (λ e, (rt_max e.2 <? cursor (continuity p)) &&
    bool_decide (kind (candidates p) (rt_addr e.2) = Source)) (BTree.entries (peers p))).

Definition refresh_source (now : N) (p : Pool) (id : N) : Pool :=
  let '(lost, p) := drop_peer p id in
  match lost with
  | Some source => set_candidates (refresh_stale_transport (candidates p) source now) p
  | None => p
  end.

Definition handle_pool_peer_loss (e : Env) (p : Pool) (id : N) : option (Pool * bool) :=
  let lost_producer := match peers p !! id with Some r => produced_output r | None => false end in
  let '(lost, p) := drop_peer p id in
  p ← match lost with
      | Some a => advance e (with_losses p [a] (now e))
      | None => Some p
      end;
  let p := if lost_producer && negb (existsb (λ x, produced_output x.2) (BTree.entries (peers p)))
    then fold_left (refresh_source (now e)) (stale_sources p) p else p in
  Some (p, bool_decide (peers p = ∅)).

(** ** Connected transports *)

Definition window_max (u : Upstream) : N := Z.to_N (Z.max (Extended.max_piece (up_window u)) 0).
Definition window_min (u : Upstream) : N := Z.to_N (Z.max (Extended.min_piece (up_window u)) 0).

Definition is_active (p : Pool) (a : SocketAddrV4) : bool := bool_decide (a ∈ addresses p).

(** Whether a peer with fewer explorations is still waiting for its turn. *)
Definition less_explored_waits (p : Pool) (a : SocketAddrV4) (now : N) : bool :=
  match exploration_cohort (candidates p) now (list_to_set (addresses p)) (learned_pending p) with
  | Some cohort => cohort <? explorations_of (candidates p) a
  | None => false
  end.

(** [on_refill]; a stale transport is kept for its gossip. *)
Definition on_refill (e : Env) (p : Pool) (u : Upstream) : option Pool :=
  if negb (bool_decide (up_addr u ∈ learned_pending p)) then Some (maybe_refill p true (now e))
  else
    let p := set_dials (candidates p) (learned_pending p ∖ {[up_addr u]}) (connects p) p in
    let p := learn_all p [(up_addr u, Discovered)] (now e) in
    if is_active p (up_addr u) then Some p
    else if negb (window_can_resume (continuity p) (up_window u)) then
      Some (set_gossip true (pool_budget (set_candidates
        (failed (explored (candidates p) (up_addr u)) (up_addr u) (now e)) p) (now e)).2)
    else if less_explored_waits p (up_addr u) (now e) then Some p
    else
      let hd := head (requests (continuity p)) in
      let corroborates := starting p && (hd <=? window_max u) in
      let full := max_active p <=? N.of_nat (size (peers p)) in
      if corroborates && full && (window_max u =? hd) then advance e (release_startup p (now e))
      else if full && negb corroborates then Some p
      else
        let replacement := if full then fst <$> min_by_key (λ x, rt_max x.2) (BTree.entries (peers p)) else None in
        let p := learn_all p [(up_addr u, Discovered)] (now e) in
        let c := raise_head (continuity p) (window_max u) in
        let c := (skip_far_behind_live c (clock_now (output_clock (timing c)) (now e))).1 in
        Some (mkPool c (peers p) (candidates p) (warm_peers p) (learned_pending p) (connects p) (publication_op p)
          (reservation p) (Some (mkActivation (up_addr u) (next_peer_id p) replacement)) (gossip p) (reciprocal p)
          (reciprocal_job p) (next_peer_id p + 1) (loss_count p)).

(** [commit_upstream_peer]: the runtime and the peer it replaces. *)
Definition commit_upstream_peer (p : Pool) (id : N) (u : Upstream) (replacing : option N)
    : PeerRuntime * option SocketAddrV4 * Pool :=
  let '(replaced, p) := match replacing with Some old => drop_peer p old | None => (None, p) end in
  let c := register_active_peer (continuity p) id (up_window u) in
  let c := set_peer_unchoked c id (up_unchoked u) in
  (mkRuntime (up_addr u) (window_min u) (window_max u) false false, replaced, set_continuity c p).

(** Why a written activation is not committed: it is refused, or its window only confirms the start. *)
Inductive Verdict : Type := Refuse | Confirm | Commit (corroborates : bool).

Definition activation_verdict (p : Pool) (u : Upstream) (replacement : option N) (now : N) : Verdict :=
  let hd := head (requests (continuity p)) in
  let corroborates := starting p && (hd <=? window_max u) in
  if negb (window_can_resume (continuity p) (up_window u) && negb (is_active p (up_addr u))
           && negb (less_explored_waits p (up_addr u) now)) then Refuse
  else
    let full := N.of_nat (size (peers p)) =? max_active p in
    let replaced_max := id ← replacement; rt_max <$> peers p !! id in
    if full && corroborates && (window_max u =? hd) && bool_decide (replaced_max = Some (window_max u)) then Confirm
    else if match replacement with
            | None => N.of_nat (size (peers p)) <? max_active p
            | Some _ => full && corroborates && match replaced_max with Some m => m <? window_max u | None => false end
            end
    then Commit corroborates else Refuse.

(** [finish_activation] with the consumer alive: [inl] is a transport whose opening was written, [inr]
    the address of one that failed.  [None] without an activation ([expect]). *)
Definition finish_activation (e : Env) (p : Pool) (result : Upstream + SocketAddrV4) : option Pool :=
  job ← activation p;
  let p := set_activation None p in
  p ← match result with
      | inr a => Some (with_losses (set_candidates (explored (candidates p) a) p) [a] (now e))
      | inl u =>
          match activation_verdict p u (act_replacement job) (now e) with
          | Refuse => Some p
          | Confirm => Some (release_startup p (now e))
          | Commit corroborates =>
              let '(runtime, replaced, p) := commit_upstream_peer p (act_peer_id job) u (act_replacement job) in
              let p := match replaced with
                | Some a => set_candidates (failed (candidates p) a (now e)) p
                | None => p
                end in
              let p := if corroborates then release_startup p (now e) else p in
              let p := set_candidates (admitted (candidates p) (rt_addr runtime)) p in
              advance e (set_peers (<[act_peer_id job := runtime]> (peers p)) p)
          end
      end;
  Some (maybe_refill p false (now e)).

(** ** Output and publication *)

Definition pool_start_output (e : Env) (p : Pool) : Pool :=
  let '(c, r) := start_output (continuity p) (reservation p) (now e) in set_reservation r (set_continuity c p).

(** A granted permit: the reservation is spent.  The result tells what was sent and which piece was taken. *)
Definition finish_output (e : Env) (p : Pool) : option LiveOutput * option ReadyPiece * Pool :=
  let s := finish_output_step info allow_loopback (continuity p) (candidates p) (peers p) (warm_peers p)
    (now e) (now_secs e) in
  (sent s, taken s,
   mkPool (after s) (after_peers s) (after_candidates s) (after_warm s) (learned_pending p) (connects p)
     (publication_op p) false (activation p) (gossip p) (reciprocal p) (reciprocal_job p) (next_peer_id p)
     (loss_count p)).

Definition poll_publication (p : Pool) (ev : StoreEvent) : option Pool :=
  match publication_op p with
  | None => Some p
  | Some op => '(op, c) ← poll_operation op (continuity p) ev; Some (set_publication_op op (set_continuity c p))
  end.

(** ** Turns of the loop *)

Definition start_reciprocal (p : Pool) : Pool :=
  let p := prune_reciprocal p in
  match reciprocal_job p with
  | Some _ => p
  | None =>
      let '(r, q) := queue_pop (reciprocal p) in
      match r with Some _ => set_reciprocal q r p | None => p end
  end.

(** The timed part of a turn: the corroboration deadline, the output budget, stalled and deferred requests.
    The flag tells that the budget expired. *)
Definition tick (e : Env) (p : Pool) : option (Pool * bool) :=
  p ← match startup_deadline (timing (continuity p)) with
      | Some deadline => if deadline <=? now e then advance e (release_startup p (now e)) else Some p
      | None => Some p
      end;
  let '(budget, p) := pool_budget p (now e) in
  match budget with
  | Expired => Some (set_peers ∅ p, true)
  | _ =>
      c ← retransmit_stalled_requests (peers p) (queue_slots e) (request_queued e) (continuity p) (now e);
      p ← advance e (set_continuity c p);
      Some (p, bool_decide (peers p = ∅) && negb (has_delivery_work (continuity p)))
  end.

(** A new pool over the state of the old one, [follow_peer_pool_with_discovery] on a reconnect. *)
Definition new_pool (c : Continuity) (cands : SessionCandidates) (w : WarmPeers.State) : Pool :=
  mkPool c ∅ cands w ∅ 0 None false None false Queues_default None 1 0.

Definition reconnect (p : Pool) (primary : Upstream) (now : N) : Pool :=
  new_pool (resume_with_policy (continuity p) (window_min primary) (window_max primary) now).1
    (candidates p) (warm_peers p).

(** One of the first upstreams: activated, or lost while its opening was written. *)
Definition activate_upstream (p : Pool) (u : Upstream) (written : bool) (now : N) : Pool :=
  let id := next_peer_id p in
  let p := mkPool (continuity p) (peers p) (candidates p) (warm_peers p) (learned_pending p) (connects p)
    (publication_op p) (reservation p) (activation p) (gossip p) (reciprocal p) (reciprocal_job p) (id + 1)
    (loss_count p) in
  if written then
    let '(runtime, _, p) := commit_upstream_peer p id u None in
    set_peers (<[id := runtime]> (peers p)) (set_candidates (admitted (candidates p) (rt_addr runtime)) p)
  else with_losses (set_candidates (explored (candidates p) (up_addr u)) p) [up_addr u] now.

(** The geometry a pool accepts. *)
Definition MAX_PIECE_LENGTH : N := 8388608.
Definition pool_geometry : bool :=
  negb ((si_piece_length info =? 0) || (MAX_PIECE_LENGTH <? si_piece_length info) ||
        (si_chunk_length info =? 0) || negb (is_multiple_of (si_piece_length info) (si_chunk_length info)) ||
        (65535 <? si_piece_length info `div` si_chunk_length info) || (4294967295 <? si_chunk_length info)).

Definition fresh_pool (primary : Upstream) (lone : bool) (prefetch : N) (options : LiveRecoveryOptions)
    (cands : SessionCandidates) (w : WarmPeers.State) (now : N) : Pool :=
  let c := (fresh info (window_min primary) (window_max primary) prefetch options now).1 in
  new_pool (if lone then set_timing (set_startup_deadline (Some (now + 1000 * millis))) c else c) cands w.

(** ** Draining between pools

    One turn of [drain_retained]: [answer] is the store's answer when the publication's future is ready,
    else the turn waits for the consumer's permit, if one is reserved. *)
Definition drain_turn (e : Env) (answer : option StoreEvent) (p : Pool) : option (Pool * option LiveOutput) :=
  let p := match startup_deadline (timing (continuity p)) with
    | Some deadline => if deadline <=? now e
        then set_continuity (set_timing (set_startup_deadline None) (continuity p)) p else p
    | None => p
    end in
  let p := (pool_budget p (now e)).2 in
  p ← start_publication p;
  let p := pool_start_output e p in
  match publication_op p, answer with
  | Some _, Some ev => p ← poll_publication p ev; Some (p, None)
  | _, _ =>
      if reservation p then let '(out, _, p) := finish_output e p in Some (p, out) else Some (p, None)
  end.

(** [while c.has_delivery_work()], with fuel; [env] and [answer] are what the runtime does in each turn. *)
Fixpoint drain_retained (fuel : nat) (env : nat → Env) (answer : nat → PublicationOperation → option StoreEvent)
    (turn : nat) (p : Pool) : option (Pool * list LiveOutput) :=
  if has_delivery_work (continuity p) then
    match fuel with
    | 0%nat => None
    | S fuel =>
        '(p, out) ← drain_turn (env turn)
          (op ← (op ← start_operation (publication_op p) (continuity p); op); answer turn op) p;
        '(p, outs) ← drain_retained fuel env answer (S turn) p;
        Some (p, option_list out ++ outs)
    end
  else Some (p, []).

(** ** The events of a session *)

Inductive PoolEvent : Type :=
  | PeerMessageEvent (id : N) (addr : SocketAddrV4) (m : PeerMessage)
  | PeerLost (id : N)
  | EventsClosed
  | Refill (u : Upstream)
  | Activated (result : Upstream + SocketAddrV4)
  | GossipDone (learned : list (SocketAddrV4 * CandidateKind))
  | Discovery (peer : option SocketAddrV4)
  | ConnectCompletion (addr : SocketAddrV4) (failure : option SocketAddrV4) (queued : bool)
  | CandidateRetry
  | Publication
  | StoreAnswer (ev : StoreEvent)
  | Reserve
  | Permit
  | ReciprocalStart
  | ReciprocalDone
  | Tick
  | Reconnect (primary : Upstream)
  | ActivateFirst (u : Upstream) (written : bool).

(** One event; the second component is the piece taken for output. *)
Definition pool_step (e : Env) (p : Pool) (ev : PoolEvent) : option (Pool * option ReadyPiece) :=
  match ev with
  | PeerMessageEvent id addr m =>
      match peers p !! id with
      | Some r => if decide (rt_addr r = addr) then '(p, _) ← on_message e p id addr m; Some (p, None) else Some (p, None)
      | None => Some (p, None)
      end
  | PeerLost id => '(p, _) ← handle_pool_peer_loss e p id; Some (p, None)
  | EventsClosed => Some (set_peers ∅ p, None)
  | Refill u => if activation p then Some (p, None) else p ← on_refill e p u; Some (p, None)
  | Activated result => if activation p then p ← finish_activation e p result; Some (p, None) else Some (p, None)
  | GossipDone learned => Some (maybe_refill (learn_all (set_gossip false p) learned (now e)) true (now e), None)
  | Discovery peer =>
      Some (maybe_refill (match peer with Some a => learn_all p [(a, Discovered)] (now e) | None => p end)
              false (now e), None)
  | ConnectCompletion addr failure queued =>
      let '(pending, s, lost) := finish_candidate_connect addr failure queued (learned_pending p) (candidates p) (now e) in
      let p := set_dials s pending (pred (connects p)) p in
      Some (if lost then maybe_refill p false (now e) else p, None)
  | CandidateRetry => Some (maybe_refill p true (now e), None)
  | Publication => p ← start_publication p; Some (p, None)
  | StoreAnswer ev => p ← poll_publication p ev; Some (p, None)
  | Reserve => Some (pool_start_output e p, None)
  | Permit => if reservation p then let '(_, piece, p) := finish_output e p in Some (p, piece) else Some (p, None)
  | ReciprocalStart => Some (start_reciprocal p, None)
  | ReciprocalDone => Some (set_reciprocal (reciprocal p) None p, None)
  | Tick => '(p, _) ← tick e p; Some (p, None)
  | Reconnect primary => Some (reconnect p primary (now e), None)
  | ActivateFirst u written => Some (activate_upstream p u written (now e), None)
  end.

(** A run of events, with the pieces taken for output in order. *)
Fixpoint pool_run (p : Pool) (evs : list (Env * PoolEvent)) : option (Pool * list ReadyPiece) :=
  match evs with
  | [] => Some (p, [])
  | (e, ev) :: evs =>
      '(p, piece) ← pool_step e p ev;
      '(p, pieces) ← pool_run p evs;
      Some (p, option_list piece ++ pieces)
  end.

End Actor.
