(* ===== verification/Session.v ===== *)
(** * A live session under every schedule

    The theorems about [PoolActor.v]: what holds whatever the peers send, in whatever order messages,
    permits of the consumer, answers of the store, losses, reconnects and ticks arrive. *)

From S2P Require Import Prelude Order Bytes BTree Wire Bencode Net Message LiveCodec LiveAuth.
From S2P Require Import Store PeerExchange LiveWindow Scheduler Reassembly PeerPolicy Candidates WarmPeers OutputPath OutputClock.
From S2P Require Import Continuity ContinuityInv PoolActor.

Local Open Scope N_scope.

Section Session.
Context `{Crypto} (info : StreamInfo) (seed_enabled allow_loopback : bool).

Record PoolInv (p : Pool) : Prop := {
  pi_core : Core (publication_op p) (continuity p);
  pi_timely : Timely (continuity p);
  pi_runtimes : RuntimesOk (peers p);
  pi_reserved : reservation p = true → is_Some (output_ceiling (timing (continuity p)));
}.

(** What every event keeps. *)
Record kept (p p' : Pool) : Prop := {
  ke_inv : PoolInv p';
  ke_moved : moved (continuity p) (continuity p');
}.

Lemma kept_trans p1 p2 p3 : kept p1 p2 → kept p2 p3 → kept p1 p3.
Proof. intros [? ?] [? ?]. constructor; eauto using moved_trans. Qed.

Lemma kept_refl p : PoolInv p → kept p p.
Proof. by constructor; [|apply moved_refl]. Qed.

(** The fields the invariant is about. *)
Definition same_pool (p p' : Pool) : Prop :=
  continuity p' = continuity p ∧ peers p' = peers p ∧ publication_op p' = publication_op p ∧
  reservation p' = reservation p.

Lemma kept_frame p p' : PoolInv p → same_pool p p' → kept p p'.
Proof.
  intros [HC HT HR Hres] (E1 & E2 & E3 & E4).
  constructor; [constructor; rewrite ?E1, ?E2, ?E3, ?E4; done|rewrite E1; apply moved_refl].
Qed.

Lemma same_pool_trans p1 p2 p3 : same_pool p1 p2 → same_pool p2 p3 → same_pool p1 p3.
Proof. intros (? & ? & ? & ?) (? & ? & ? & ?). split_and!; congruence. Qed.

Lemma with_losses_same p l now : same_pool p (with_losses p l now).
Proof. unfold with_losses. by destruct (record_pool_losses _ _ _ _). Qed.

Lemma maybe_refill_same p b now : same_pool p (maybe_refill p b now).
Proof.
  unfold maybe_refill. destruct (_ || _); [|done]. cbv zeta.
  by destruct (spawn_candidate_connects _ _ _ _ _ _ _) as [[s pending] dials].
Qed.

Lemma queue_reciprocal_same p id payload : same_pool p (queue_reciprocal p id payload).
Proof. unfold queue_reciprocal. cbv zeta. by destruct (_ && _). Qed.

Lemma start_reciprocal_same p : same_pool p (start_reciprocal p).
Proof.
  unfold start_reciprocal. cbv zeta. destruct (reciprocal_job _); [done|].
  by destruct (queue_pop _) as [[r|] q].
Qed.

(** A new session state, and new peers. *)
Lemma kept_served p c : PoolInv p → served (publication_op p) (continuity p) c → kept p (set_continuity c p).
Proof.
  intros [HC HT HR Hres] [HC' HT' Hm Ec]. constructor; [|done]. constructor; cbn; [done|done|done|].
  rewrite Ec. done.
Qed.

Lemma kept_peers p ps : PoolInv p → RuntimesOk ps → kept p (set_peers ps p).
Proof. intros [HC HT HR Hres] Hps. constructor; [by constructor|apply moved_refl]. Qed.

Lemma kept_timing p f : PoolInv p → (∀ t, output_ceiling (f t) = output_ceiling t) →
  kept p (set_continuity (set_timing f (continuity p)) p).
Proof.
  intros HP Hf. apply kept_served; [done|]. destruct HP as [HC HT _ _]. constructor.
  - eapply core_frame; [|exact HC]. split_and!; try done. apply Hf.
  - by eapply timely_frame; [|exact HT].
  - by constructor.
  - apply Hf.
Qed.

Lemma pool_budget_kept p now : PoolInv p → kept p (pool_budget p now).2.
Proof.
  intros HP. unfold pool_budget. destruct (output_budget _ _ _ _ _ _) as [first budget]. cbn [snd].
  by apply kept_timing.
Qed.

Lemma touch_kept p now : PoolInv p → kept p (set_continuity (touch_progress now (continuity p)) p).
Proof. intros HP. by apply kept_timing. Qed.

Lemma release_startup_kept p now : PoolInv p → kept p (release_startup p now).
Proof.
  intros HP. unfold release_startup. cbv zeta.
  pose proof (kept_timing p (set_startup_deadline None) HP (λ _, eq_refl)) as H1. eapply kept_trans; [exact H1|].
  pose proof (pool_budget_kept _ now (ke_inv _ _ H1)) as H2. eapply kept_trans; [exact H2|].
  apply touch_kept, H2.
Qed.

Lemma advance_kept e p : PoolInv p → ∃ p', PoolActor.advance e p = Some p' ∧ kept p p'.
Proof.
  intros HP. unfold PoolActor.advance.
  destruct (advance_requests_ok (publication_op p) (peers p) (queue_slots e) (request_queued e) (continuity p) (now e)
    (pi_core _ HP) (pi_timely _ HP)) as (c & -> & Hs).
  eexists. split; [done|]. by apply kept_served.
Qed.

(** The usual composition: a change that keeps the invariant, then new requests. *)
Lemma kept_advance e p p1 : kept p p1 → ∃ p', PoolActor.advance e p1 = Some p' ∧ kept p p'.
Proof.
  intros Hk. destruct (advance_kept e p1 (ke_inv _ _ Hk)) as (p' & E & Hk'). eauto using kept_trans.
Qed.

Lemma start_publication_kept p : PoolInv p → ∃ p', start_publication p = Some p' ∧ kept p p'.
Proof.
  intros [HC HT HR Hres]. unfold start_publication.
  destruct (start_operation_ok _ _ HC) as (op & -> & HC' & _). eexists. split; [done|].
  constructor; [by constructor|apply moved_refl].
Qed.

(** ** Messages *)

Lemma advance_head_kept p id piece : PoolInv p → piece < two63 →
  let '(ps, c) := advance_head (peers p) (continuity p) id piece in
  kept p (set_continuity c (set_peers ps p)).
Proof.
  intros HP Hlt. unfold advance_head.
  pose proof (head_ok _ _ piece (pi_core _ HP) (pi_timely _ HP) Hlt) as Hs.
  destruct (update_runtime_ok (publication_op p) (peers p) (raise_head (continuity p) piece) id piece
    (se_core _ _ _ Hs) (se_timely _ _ _ Hs) (pi_runtimes _ HP)) as [HR Hs2].
  destruct (update_runtime_window _ _ _ _) as [ps c]. cbn [fst snd] in *.
  pose proof (kept_peers p ps HP HR) as Hk. eapply kept_trans; [exact Hk|].
  apply kept_served; [apply Hk|]. eauto using served_trans.
Qed.

Lemma on_window_kept e p id piece : PoolInv p → piece < two63 →
  ∃ p' b, on_window e p id piece = Some (p', b) ∧ kept p p'.
Proof.
  intros HP Hlt. unfold on_window. destruct (_ || _); [|eauto using kept_refl].
  pose proof (advance_head_kept p id piece HP Hlt) as Hk. destruct (advance_head _ _ _ _) as [ps c].
  destruct (kept_advance e _ _ Hk) as (p' & -> & Hk'). eauto.
Qed.

Lemma read_window_max_bound payload m : read_window_max payload = Some m → m < two63.
Proof.
  unfold read_window_max. destruct (from_myinfo_payload payload) as [w|]; [|done]. cbn.
  destruct (N.leb_spec (LiveWindow.max_piece w) 4294967295); [|done]. intros [= <-]. unfold two63. lia.
Qed.

Lemma be_N_four (l : bytes) : be_N (slice l 4 8) < two63.
Proof.
  pose proof (be_N_bound (slice l 4 8)) as Hb.
  assert (256 ^ lenN (slice l 4 8) ≤ 256 ^ 4) by (apply N.pow_le_mono_r; [lia|]; unfold slice, lenN; rewrite length_take; lia).
  assert (256 ^ 4 < two63) by (vm_compute; reflexivity). lia.
Qed.

Lemma on_window_opt e p id payload : PoolInv p →
  ∃ p' b, match read_window_max payload with
    | Some max_piece => inr <$> on_window e p id max_piece
    | None => Some (inr (p, false) : Pool + Pool * bool)
    end = Some (inr (p', b)) ∧ kept p p'.
Proof.
  intros HP. destruct (read_window_max payload) as [m|] eqn:E; [|eauto using kept_refl].
  apply read_window_max_bound in E. destruct (on_window_kept e p id m HP E) as (p' & b & -> & Hk).
  cbn. eauto.
Qed.

(** The messages of the wire: a piece number of [Have] is 32 bits wide. *)
Definition valid_message (m : PeerMessage) : Prop := match m with Have piece => piece < 4294967296 | _ => True end.

Definition outcome_pool (r : Pool + Pool * bool) : Pool := match r with inl p | inr (p, _) => p end.

Lemma dispatch_kept e p id addr m : PoolInv p → valid_message m →
  ∃ r, dispatch info seed_enabled e p id addr m = Some r ∧ kept p (outcome_pool r).
Proof.
  intros HP Hm. pose proof (kept_refl p HP) as Hrefl. destruct m; cbn [dispatch valid_message] in *.
  all: try (eexists; split; [done|]; exact Hrefl).
  - eexists. split; [done|]. apply kept_served; [done|]. apply unchoke_ok; apply HP.
  - destruct (kept_advance e p (set_continuity (set_peer_unchoked (continuity p) id true) p)) as (p' & -> & Hk);
      [|cbn; eauto]. apply kept_served; [done|]. apply unchoke_ok; apply HP.
  - eexists. split; [done|]. cbn [outcome_pool]. destruct seed_enabled; [|done].
    apply kept_peers; [done|]. intros i r [(<- & x & Hx & ->)|[_ Hx]]%lookup_alter_Some; by apply (pi_runtimes _ HP) in Hx.
  - pose proof (advance_head_kept p id piece HP ltac:(unfold two63; lia)) as Hk.
    destruct (advance_head _ _ _ _) as [ps c]. destruct (kept_advance e _ _ Hk) as (p' & -> & Hk'). cbn. eauto.
  - pose proof (on_piece_ok _ _ addr (Piece index begin block) (si_chunk_length info) (chunks_per_piece info) (now e)
      (pi_core _ HP) (pi_timely _ HP)) as Hs.
    destruct (on_piece _ _ _ _ _ _) as [c o]. cbn [fst] in Hs. pose proof (kept_served p c HP Hs) as Hk.
    destruct o as [| |[]]; [by eauto| | |by eauto].
    + destruct (kept_advance e _ _ Hk) as (p' & -> & Hk'). cbn. eauto.
    + destruct (start_publication_kept _ (ke_inv _ _ Hk)) as (p1 & -> & Hk1). cbn [mbind option_bind].
      destruct (kept_advance e p p1) as (p' & -> & Hk'); [eauto using kept_trans|]. cbn. eauto.
  - destruct (on_window_opt e p id payload HP) as (p' & b & -> & Hk). eauto.
  - destruct (_ && _). { eexists. split; [done|]. apply kept_frame; [done|]. apply queue_reciprocal_same. }
    destruct (_ && _).
    { destruct (on_window_kept e p id _ HP (be_N_four payload)) as (p' & b & -> & Hk). cbn. eauto. }
    destruct (_ =? 10); [eauto|]. destruct (_ =? 12).
    { eexists. split; [done|]. apply kept_frame; [done|]. eapply same_pool_trans; [|apply maybe_refill_same]. done. }
    destruct (_ =? 36).
    { eexists. split; [done|]. apply kept_frame; [done|]. destruct (parse_peer_announce payload); [|done].
      eapply same_pool_trans; [|apply maybe_refill_same]. done. }
    destruct (_ || _); [eauto|].
    destruct (on_window_opt e p id payload HP) as (p' & b & -> & Hk). eauto.
Qed.

Lemma observe_kept p id payload : PoolInv p → kept p (set_continuity (observe_live_window (continuity p) id payload) p).
Proof.
  intros HP. apply kept_served; [done|]. unfold observe_live_window.
  assert (served (publication_op p) (continuity p) (continuity p)) by (apply served_refl; apply HP).
  destruct (parse_prefix payload) as [[root n]|]; [|done].
  destruct (if bool_decide _ then _ else _) as [dict|]; [|done]. apply observe_ok; apply HP.
Qed.

Lemma on_message_kept e p id addr m : PoolInv p → valid_message m →
  ∃ p' b, on_message info seed_enabled e p id addr m = Some (p', b) ∧ kept p p'.
Proof.
  intros HP Hm. unfold on_message. cbv zeta. set (p1 := match m with Extended _ _ | Unknown _ _ => _ | _ => p end).
  assert (kept p p1) as Hk1 by (unfold p1; destruct m; (by apply kept_refl) || by apply observe_kept).
  clearbody p1. destruct (dispatch_kept e p1 id addr m (ke_inv _ _ Hk1) Hm) as (r & -> & Hk2).
  cbn [mbind option_bind]. eapply kept_trans in Hk2; [|exact Hk1]. destruct r as [p2|[p2 b]]; cbn [outcome_pool] in Hk2; [eauto|].
  destruct (_ && _); [eauto|]. destruct (should_refresh_stale_deadline _ _ _); [|eauto].
  eexists _, _. split; [done|]. eapply kept_trans; [exact Hk2|]. apply touch_kept, Hk2.
Qed.

(** ** Losses and transports *)

Lemma drop_peer_kept p id : PoolInv p → kept p (drop_peer p id).2.
Proof.
  intros HP. unfold drop_peer.
  pose proof (drop_runtime_ok _ (peers p) _ id (pi_core _ HP) (pi_timely _ HP) (pi_runtimes _ HP)) as Hd.
  destruct (drop_peer_runtime _ _ _) as [[lost ps] c]. destruct Hd as [HR Hs]. cbn [snd].
  pose proof (kept_peers p ps HP HR) as Hk. eapply kept_trans; [exact Hk|]. by apply kept_served; [apply Hk|].
Qed.

Lemma refresh_kept now l p : PoolInv p → kept p (fold_left (refresh_source now) l p).
Proof.
  revert p. induction l as [|id l IH]; intros p HP; [by apply kept_refl|]. simpl.
  assert (kept p (refresh_source now p id)) as Hk.
  { unfold refresh_source. pose proof (drop_peer_kept p id HP) as Hk. destruct (drop_peer p id) as [lost p1].
    cbn [snd] in Hk. destruct lost; [|done]. eapply kept_trans; [exact Hk|]. by apply kept_frame; [apply Hk|]. }
  eapply kept_trans; [exact Hk|]. apply IH, Hk.
Qed.

Lemma loss_kept e p id : PoolInv p → ∃ p' b, handle_pool_peer_loss e p id = Some (p', b) ∧ kept p p'.
Proof.
  intros HP. unfold handle_pool_peer_loss. cbv zeta. pose proof (drop_peer_kept p id HP) as Hk.
  destruct (drop_peer p id) as [lost p1]. cbn [snd] in Hk.
  assert (∃ p2, match lost with Some a => PoolActor.advance e (with_losses p1 [a] (now e)) | None => Some p1 end = Some p2 ∧
    kept p p2) as (p2 & -> & Hk2).
  { destruct lost as [a|]; [|eauto]. apply kept_advance. eapply kept_trans; [exact Hk|].
    apply kept_frame; [apply Hk|apply with_losses_same]. }
  cbn [mbind option_bind]. eexists _, _. split; [done|].
  destruct (_ && _); [|done]. eapply kept_trans; [exact Hk2|]. apply refresh_kept, Hk2.
Qed.

Definition valid_upstream (u : Upstream) : Prop :=
  (Extended.min_piece (up_window u) ≤ i64_max)%Z ∧ (Extended.max_piece (up_window u) ≤ i64_max)%Z.

Lemma window_bounds u : valid_upstream u → window_min u < two63 ∧ window_max u < two63.
Proof. intros [? ?]. unfold window_min, window_max, two63. lia. Qed.

Lemma on_refill_kept e p u : PoolInv p → valid_upstream u → ∃ p', on_refill e p u = Some p' ∧ kept p p'.
Proof.
  intros HP Hu. destruct (window_bounds u Hu) as [_ Hmax]. unfold on_refill. cbv zeta.
  destruct (negb _). { eexists. split; [done|]. apply kept_frame; [done|]. apply maybe_refill_same. }
  set (p1 := learn_all _ _ _). assert (kept p p1) as Hk1 by by apply kept_frame. clearbody p1.
  pose proof (ke_inv _ _ Hk1) as HP1.
  destruct (is_active p1 _); [eauto|]. destruct (negb _).
  { eexists. split; [done|]. eapply kept_trans; [exact Hk1|].
    set (p2 := set_candidates _ p1). assert (kept p1 p2) as Hk2 by by apply kept_frame.
    eapply kept_trans; [exact Hk2|]. pose proof (pool_budget_kept p2 (now e) (ke_inv _ _ Hk2)) as Hk3.
    eapply kept_trans; [exact Hk3|]. by apply kept_frame; [apply Hk3|]. }
  destruct (less_explored_waits _ _ _); [eauto|].
  destruct (_ && _ && _). { apply kept_advance. eapply kept_trans; [exact Hk1|]. by apply release_startup_kept. }
  destruct (_ && _); [eauto|]. eexists. split; [done|]. eapply kept_trans; [exact Hk1|].
  match goal with |- context [skip_far_behind_live ?c ?t] => set (c1 := c); set (t1 := t) end.
  assert (served (publication_op p1) (continuity p1) (skip_far_behind_live c1 t1).1) as Hs.
  { pose proof (head_ok _ _ (window_max u) (pi_core _ HP1) (pi_timely _ HP1) Hmax) as Hh.
    eapply served_trans; [exact Hh|]. eapply served_skip, skip_far_ok; apply Hh. }
  pose proof (kept_served p1 _ HP1 Hs) as Hk2. eapply kept_trans; [exact Hk2|]. apply kept_frame; [apply Hk2|done].
Qed.

Lemma commit_kept p id u replacing : PoolInv p → valid_upstream u →
  let '(runtime, _, p') := commit_upstream_peer p id u replacing in kept p p' ∧ rt_min runtime < two63.
Proof.
  intros HP Hu. unfold commit_upstream_peer.
  set (dp := match replacing with Some old => _ | None => _ end).
  assert (kept p dp.2) as Hk by (unfold dp; destruct replacing; [by apply drop_peer_kept|by apply kept_refl]).
  destruct dp as [replaced p1]. cbn [snd] in Hk. cbn [rt_min]. split; [|by apply window_bounds].
  eapply kept_trans; [exact Hk|]. apply kept_served; [apply Hk|].
  pose proof (register_ok _ _ id (up_window u) (pi_core _ (ke_inv _ _ Hk)) (pi_timely _ (ke_inv _ _ Hk)) (proj1 Hu)) as Hs.
  eapply served_trans; [exact Hs|]. apply unchoke_ok; apply Hs.
Qed.

Lemma insert_runtime p ps id r : RuntimesOk ps → rt_min r < two63 → PoolInv p → kept p (set_peers (<[id := r]> ps) p).
Proof.
  intros HR Hr HP. apply kept_peers; [done|]. intros i x [[<- <-]|[_ Hx]]%lookup_insert_Some; [done|eauto].
Qed.

Lemma activation_kept e p result : PoolInv p → is_Some (activation p) →
  match result with inl u => valid_upstream u | inr _ => True end →
  ∃ p', finish_activation e p result = Some p' ∧ kept p p'.
Proof.
  intros HP [job Hj] Hu. unfold finish_activation. rewrite Hj. cbn [mbind option_bind].
  set (p1 := set_activation None p). assert (kept p p1) as Hk1 by by apply kept_frame. clearbody p1.
  pose proof (ke_inv _ _ Hk1) as HP1.
  assert (∀ q, (∃ p2, q = Some p2 ∧ kept p p2) → ∃ p', (p ← q; Some (maybe_refill p false (now e))) = Some p' ∧ kept p p') as Hfin.
  { intros q (p2 & -> & Hk2). eexists. split; [done|]. eapply kept_trans; [exact Hk2|].
    apply kept_frame; [apply Hk2|apply maybe_refill_same]. }
  apply Hfin. clear Hfin. destruct result as [u|a].
  2: { eexists. split; [done|]. eapply kept_trans; [exact Hk1|]. apply kept_frame; [done|].
       eapply same_pool_trans; [|apply with_losses_same]. done. }
  destruct (activation_verdict _ _ _ _) as [| |corr]; [eauto|eauto using kept_trans, release_startup_kept|].
  pose proof (commit_kept p1 (act_peer_id job) u (act_replacement job) HP1 Hu) as Hc.
  destruct (commit_upstream_peer _ _ _ _) as [[runtime replaced] p2]. destruct Hc as [Hk2 Hr].
  eapply kept_trans in Hk2; [|exact Hk1]. clear Hk1 HP1.
  set (p3 := match replaced with Some a => _ | None => p2 end).
  assert (kept p2 p3) as Hk3 by (unfold p3; destruct replaced; apply kept_frame; (apply Hk2 || done)).
  set (p4 := if corr then _ else p3).
  assert (kept p3 p4) as Hk4 by (unfold p4; destruct corr; [apply release_startup_kept|apply kept_refl]; apply Hk3).
  clearbody p4. apply kept_advance. eapply kept_trans; [exact Hk2|]. eapply kept_trans; [exact Hk3|].
  eapply kept_trans; [exact Hk4|].
  set (p5 := set_candidates _ p4). assert (kept p4 p5) as Hk5 by (by apply kept_frame; [apply Hk4|]).
  eapply kept_trans; [exact Hk5|]. apply insert_runtime; [apply Hk5|done|apply Hk5].
Qed.

(** ** Publication, output, ticks *)

Lemma poll_kept p ev : PoolInv p → ∃ p', poll_publication p ev = Some p' ∧ kept p p'.
Proof.
  intros HP. unfold poll_publication. destruct (publication_op p) as [op|] eqn:E; [|eauto using kept_refl].
  destruct HP as [HC HT HR Hres]. rewrite E in HC.
  destruct (poll_operation_ok op _ ev HC) as (op' & c & -> & [HC' Er Ep Et Hrq Hm _]). cbn [mbind option_bind].
  eexists. split; [done|]. constructor; [|done]. constructor; cbn; try done.
  - by eapply timely_frame; [|exact HT].
  - by rewrite Et.
Qed.

Lemma reserve_kept e p : PoolInv p → kept p (pool_start_output e p) ∧
  (reservation (pool_start_output e p) = false → output_demand (continuity p) = false).
Proof.
  intros [HC HT HR Hres]. unfold pool_start_output. pose proof (start_output_ok _ _ _ (now e) HC Hres) as Hs.
  destruct (start_output _ _ _) as [c r]. destruct Hs as (HC' & Hr' & Er & Erq & Hm & _ & Hd).
  split; [|done]. constructor; [|done]. constructor; cbn; try done.
  eapply timely_frame; [|exact HT]. unfold same_requests. by rewrite Erq.
Qed.

Lemma permit_kept e p : PoolInv p → reservation p = true →
  let '(_, piece, p') := finish_output info allow_loopback e p in
  kept p p' ∧ finished (publication_op p) (continuity p) (peers p)
    (finish_output_step info allow_loopback (continuity p) (candidates p) (peers p) (warm_peers p) (now e) (now_secs e)) ∧
  reservation p' = false.
Proof.
  intros [HC HT HR Hres] Hr. unfold finish_output. cbv zeta.
  pose proof (finish_output_ok _ info allow_loopback _ (candidates p) (peers p) (warm_peers p) (now e) (now_secs e) HC
    (Hres Hr)) as Hf. split_and!; [|done|done]. destruct Hf as [HC' Hrq Hm _ _ _ Hps].
  constructor; [|done]. constructor; cbn; try done.
  - by eapply timely_frame; [|exact HT].
  - intros id r Hi. destruct (Hps _ _ Hi) as (x & Hx & ->). by apply (HR id).
Qed.

Lemma tick_kept e p : PoolInv p → ∃ p' b, tick e p = Some (p', b) ∧ kept p p'.
Proof.
  intros HP. unfold tick.
  assert (∃ p1, match startup_deadline (timing (continuity p)) with
      | Some deadline => if deadline <=? now e then PoolActor.advance e (release_startup p (now e)) else Some p
      | None => Some p end = Some p1 ∧ kept p p1) as (p1 & -> & Hk1).
  { destruct (startup_deadline _) as [d|]; [|eauto using kept_refl]. destruct (d <=? now e); [|eauto using kept_refl].
    apply kept_advance. by apply release_startup_kept. }
  cbn [mbind option_bind]. pose proof (pool_budget_kept p1 (now e) (ke_inv _ _ Hk1)) as Hk2.
  destruct (pool_budget p1 (now e)) as [budget p2]. cbn [snd] in Hk2. eapply kept_trans in Hk2; [|exact Hk1]. clear Hk1.
  assert (∃ p' b, (c ← retransmit_stalled_requests (peers p2) (queue_slots e) (request_queued e) (continuity p2) (now e);
      p ← PoolActor.advance e (set_continuity c p2);
      Some (p, bool_decide (peers p = ∅) && negb (has_delivery_work (continuity p)))) = Some (p', b) ∧ kept p p') as Hgo.
  { destruct (retransmit_ok (publication_op p2) (peers p2) (queue_slots e) (request_queued e) (continuity p2) (now e)
      (pi_core _ (ke_inv _ _ Hk2)) (pi_timely _ (ke_inv _ _ Hk2))) as (c & -> & Hs). cbn [mbind option_bind].
    destruct (kept_advance e p (set_continuity c p2)) as (p3 & -> & Hk3); [|cbn; eauto].
    eapply kept_trans; [exact Hk2|]. by apply kept_served; [apply Hk2|]. }
  destruct budget; [exact Hgo|exact Hgo|]. eexists _, _. split; [done|].
  eapply kept_trans; [exact Hk2|]. by apply kept_peers; [apply Hk2|].
Qed.

Lemma core_no_op c op : Core op c → Core None c.
Proof. by intros []; constructor. Qed.

Lemma reconnect_kept p u now : PoolInv p → valid_upstream u → kept p (reconnect p u now).
Proof.
  intros HP Hu. destruct (window_bounds u Hu) as [Hmin Hmax]. unfold reconnect.
  destruct (resume_ok _ _ (window_min u) (window_max u) now (pi_core _ HP) (pi_timely _ HP) Hmin Hmax)
    as ([HC' HT' Hm _] & _ & _). constructor; [|done]. constructor; cbn; try done. by eapply core_no_op.
Qed.

Lemma activate_kept p u written now : PoolInv p → valid_upstream u → kept p (activate_upstream p u written now).
Proof.
  intros HP Hu. unfold activate_upstream. cbv zeta. set (p1 := mkPool _ _ _ _ _ _ _ _ _ _ _ _ _ _).
  assert (kept p p1) as Hk1 by by apply kept_frame. clearbody p1. destruct written.
  - pose proof (commit_kept p1 (next_peer_id p) u None (ke_inv _ _ Hk1) Hu) as Hc.
    destruct (commit_upstream_peer _ _ _ _) as [[r replaced] p2]. destruct Hc as [Hk2 Hr].
    eapply kept_trans; [exact Hk1|]. eapply kept_trans; [exact Hk2|].
    set (p3 := set_candidates _ p2). assert (kept p2 p3) as Hk3 by (by apply kept_frame; [apply Hk2|]).
    eapply kept_trans; [exact Hk3|]. apply insert_runtime; [apply Hk2|done|apply Hk3].
  - eapply kept_trans; [exact Hk1|]. apply kept_frame; [apply Hk1|].
    eapply same_pool_trans; [|apply with_losses_same]. done.
Qed.

(** ** Every event *)

Definition valid_event (ev : PoolEvent) : Prop :=
  match ev with
  | PeerMessageEvent _ _ m => valid_message m
  | Refill u | Activated (inl u) | Reconnect u | ActivateFirst u _ => valid_upstream u
  | _ => True
  end.

(** What a taken piece is. *)
Definition delivers (c : Continuity) (piece : ReadyPiece) : Prop :=
  rp_index piece = cursor c ∧
  ∃ d, Reassembly.complete (reasm c) !! cursor c = Some d ∧ rp_bytes piece = media (reasm c) (c_buf d).

(** A handled event: no panic, and a piece leaves only from the cursor. *)
Definition handled (p : Pool) (q : option (Pool * option ReadyPiece)) : Prop :=
  ∃ p' piece, q = Some (p', piece) ∧ kept p p' ∧
    ∀ x, piece = Some x → delivers (continuity p) x ∧ cursor (continuity p') = cursor (continuity p) + 1.

Lemma handled_kept p p' : kept p p' → handled p (Some (p', None)).
Proof. intros Hk. by eexists _, _. Qed.

Lemma handled_same p p' : PoolInv p → same_pool p p' → handled p (Some (p', None)).
Proof. intros HP Hs. by apply handled_kept, kept_frame. Qed.

Lemma handled_one p q : (∃ p', q = Some p' ∧ kept p p') → handled p (p ← q; Some (p, None)).
Proof. intros (p' & -> & Hk). by apply handled_kept. Qed.

Lemma handled_two p q : (∃ p' (b : bool), q = Some (p', b) ∧ kept p p') → handled p ('(p, _) ← q; Some (p, None)).
Proof. intros (p' & b & -> & Hk). by apply handled_kept. Qed.

Lemma pool_step_handled e p ev : PoolInv p → valid_event ev →
  handled p (pool_step info seed_enabled allow_loopback e p ev).
Proof.
  intros HP Hv. pose proof (kept_refl p HP) as Hrefl.
  destruct ev; cbn [pool_step valid_event] in *.
  - destruct (peers p !! id) as [r|]; [|by apply handled_kept]. destruct (decide _); [|by apply handled_kept].
    apply handled_two. by apply on_message_kept.
  - apply handled_two. by apply loss_kept.
  - apply handled_kept. by apply kept_peers.
  - destruct (activation p); [by apply handled_kept|]. apply handled_one. by apply on_refill_kept.
  - destruct (activation p) eqn:Ea; [|by apply handled_kept]. apply handled_one. apply activation_kept; [done|by rewrite Ea|].
    by destruct result.
  - apply handled_same; [done|]. eapply same_pool_trans; [|apply maybe_refill_same]. done.
  - apply handled_same; [done|]. eapply same_pool_trans; [|apply maybe_refill_same]. by destruct peer.
  - destruct (finish_candidate_connect _ _ _ _ _ _) as [[pending s] lost]. apply handled_same; [done|].
    destruct lost; [|done]. eapply same_pool_trans; [|apply maybe_refill_same]. done.
  - apply handled_same; [done|]; apply maybe_refill_same.
  - apply handled_one. by apply start_publication_kept.
  - apply handled_one. by apply poll_kept.
  - apply handled_kept. by apply reserve_kept.
  - destruct (reservation p) eqn:Er; [|by apply handled_kept]. pose proof (permit_kept e p HP Er) as Hp.
    unfold finish_output in *. cbv zeta in *. destruct Hp as (Hk & Hf & _). eexists _, _. split; [done|]. split; [done|].
    intros x Hx. pose proof (fi_taken _ _ _ _ Hf) as Ht. rewrite Hx in Ht.
    destruct Ht as (_ & _ & Hi & Hc & Hb). split; [by split|done].
  - apply handled_same; [done|]; apply start_reciprocal_same.
  - by apply handled_same.
  - apply handled_two. by apply tick_kept.
  - apply handled_kept. by apply reconnect_kept.
  - apply handled_kept. by apply activate_kept.
Qed.

(** ** Runs *)

Definition authentic (r : PieceReassembler) (x : ReadyPiece) : Prop :=
  ∀ k, verify_pubkey r = Some k → ∃ sig, verify_piece k (rp_bytes x) sig = true.

Lemma delivers_authentic op c x : Core op c → delivers c x → authentic (reasm c) x.
Proof.
  intros HC (_ & d & Hd & E) k Hk. rewrite E. destruct (inv_complete _ (co_reasm _ _ HC) _ _ Hd) as (_ & _ & Ha).
  destruct (authenticate_media _ _ _ Hk Ha) as (sig & _ & ?). eauto.
Qed.

(** The pieces of a run. *)
Record delivered (c c' : Continuity) (pieces : list ReadyPiece) : Prop := {
  de_order : StronglySorted N.lt (map rp_index pieces);
  de_range : Forall (λ x, cursor c ≤ rp_index x < cursor c') pieces;
  de_authentic : Forall (authentic (reasm c)) pieces;
}.

Lemma pool_run_ok p evs : PoolInv p → Forall (λ ee, valid_event ee.2) evs →
  ∃ p' pieces, pool_run info seed_enabled allow_loopback p evs = Some (p', pieces) ∧ kept p p' ∧
    delivered (continuity p) (continuity p') pieces.
Proof.
  intros HP Hv. revert p HP. induction Hv as [|[e ev] evs Hev _ IH]; intros p HP; cbn [pool_run].
  { eexists _, _. split; [done|]. split; [by apply kept_refl|]. by constructor; constructor. }
  destruct (pool_step_handled e p ev HP Hev) as (p1 & piece & -> & Hk1 & Hx). cbn [mbind option_bind].
  destruct (IH p1 (ke_inv _ _ Hk1)) as (p2 & pieces & -> & Hk2 & [Ho Hr Ha]). cbn [mbind option_bind].
  eexists _, _. split; [done|]. split; [eauto using kept_trans|].
  pose proof (ke_moved _ _ Hk1) as [(_ & _ & Hkey & _) Hc1 _ _]. pose proof (mv_cursor _ _ (ke_moved _ _ Hk2)) as Hc2.
  assert (Forall (authentic (reasm (continuity p))) pieces) as Ha'.
  { eapply Forall_impl; [exact Ha|]. intros x Hax k Hk. apply Hax. by rewrite Hkey. }
  destruct piece as [x|]; cbn [option_list app map].
  - destruct (Hx x eq_refl) as [Hd Hc]. pose proof Hd as [Hi _]. constructor; cbn.
    + constructor; [done|]. rewrite Forall_map. eapply Forall_impl; [exact Hr|]. simpl. lia.
    + constructor; [lia|]. eapply Forall_impl; [exact Hr|]. simpl. lia.
    + constructor; [|done]. eapply delivers_authentic; [apply HP|done].
  - constructor; [done| |done]. eapply Forall_impl; [exact Hr|]. simpl. lia.
Qed.

(** ** Fresh sessions *)

(** What a pool is started with: options that pass [validate], an accepted geometry, a sane window. *)
Record startable (options : LiveRecoveryOptions) (primary : Upstream) : Prop := {
  st_options : validate options = Ok ();
  st_geometry : pool_geometry info = true;
  st_window : valid_upstream primary;
}.

Lemma validate_bounds o : validate o = Ok () →
  1 ≤ max_active_upstreams o ≤ MAX_LIVE_RECOVERY_ACTIVE_UPSTREAMS ∧
  1 ≤ max_parallel_connect o ≤ MAX_LIVE_RECOVERY_PARALLEL_CONNECT ∧
  1 ≤ max_piece_advance o ≤ max_reasm_pieces_ahead o ∧
  max_reasm_pieces_ahead o ≤ MAX_LIVE_RECOVERY_REASM_PIECES_AHEAD ∧
  1 ≤ request_check_interval_ms o ≤ request_timeout_ms o ∧
  request_timeout_ms o < stale_upstream_timeout_ms o.
Proof.
  unfold validate. repeat match goal with
    | |- context [if ?b then Err _ else _] => let E := fresh in destruct b eqn:E; [done|]
    end.
  rewrite ?N.eqb_neq, ?N.leb_gt, ?N.ltb_ge in *. intros _. lia.
Qed.

Lemma geometry_bounds : pool_geometry info = true → 0 < si_piece_length info < 2 ^ 63.
Proof.
  unfold pool_geometry, MAX_PIECE_LENGTH. rewrite negb_true_iff, !orb_false_iff, !N.eqb_neq, !N.ltb_ge. lia.
Qed.

Lemma fresh_initial options primary prefetch now : startable options primary →
  initial (reasm (fresh info (window_min primary) (window_max primary) prefetch options now).1) ∧
  next_emit (reasm (fresh info (window_min primary) (window_max primary) prefetch options now).1) =
    prefetch_start (window_min primary) (window_max primary) prefetch.
Proof.
  intros [Ho%validate_bounds Hg%geometry_bounds Hw%window_bounds]. unfold fresh. cbn [fst reasm]. split.
  - apply initial_ahead.
    + apply initial_pubkey, initial_trailer; [|done]. apply initial_new; [done|].
      unfold prefetch_start, saturating_sub. destruct Hw as [?%two63_two64 ?%two63_two64]. lia.
    + assert (MAX_LIVE_RECOVERY_REASM_PIECES_AHEAD < two64) by (vm_compute; reflexivity). lia.
  - cbn. unfold with_source_pubkey. by destruct (signature_len_from_pubkey_der _).
Qed.

Lemma fresh_inv options primary lone prefetch cands w now : startable options primary →
  PoolInv (fresh_pool info primary lone prefetch options cands w now).
Proof.
  intros Hs. destruct (fresh_initial options primary prefetch now Hs) as [Hi _].
  apply initial_inv in Hi as (HI & _ & Hc). unfold fresh_pool, new_pool.
  set (c := (fresh info _ _ prefetch options now).1) in *.
  assert (Core None c) as HC by (constructor; cbn; try done; [apply path_fresh_inv|by intros ? []]).
  assert (Timely c) as HT by (constructor; cbn; [done|by apply window_bounds, Hs|done]).
  constructor; cbn; try done; destruct lone; try done;
    [eapply core_frame; [|exact HC]; done|by eapply timely_frame; [|exact HT]].
Qed.

Lemma fresh_key options primary prefetch now n :
  signature_len_from_pubkey_der (source_pubkey info) = Some n →
  verify_pubkey (reasm (fresh info (window_min primary) (window_max primary) prefetch options now).1) =
    Some (source_pubkey info).
Proof. intros Hk. unfold fresh. cbn. unfold with_source_pubkey. by rewrite Hk. Qed.

(** ** Theorems *)

(** C2: no peer, store or schedule can break a session.  From a started session every sequence of events is
    handled: no [expect] of the actor fails and no scan runs forever.  Afterwards every publication in
    progress is of a completed, accepted piece; the producers remembered are of pieces in the accept window;
    the credit queue follows the output queue; and every peer is within its request budget. *)
Theorem session_never_panics options primary lone prefetch cands w start evs :
  startable options primary → Forall (λ ee, valid_event ee.2) evs →
  ∃ p pieces,
    pool_run info seed_enabled allow_loopback (fresh_pool info primary lone prefetch options cands w start) evs =
      Some (p, pieces) ∧
    let c := continuity p in let q := requests c in
    (∀ i, is_Some (publication q !! i) → publishable (reasm c) i) ∧
    (∀ op, publication_op p = Some op → publication q !! op_piece op = Some Needed) ∧
    (∀ i, is_Some (piece_producers q !! i) → in_window (reasm c) i) ∧
    length (pending_credit (path c)) = length (pending_output c) ∧
    (∀ id x, active_peers q !! id = Some x → N.of_nat (size (in_flight x)) ≤ max_in_flight (scheduler q)).
Proof.
  intros Hs Hv. destruct (pool_run_ok _ evs (fresh_inv options primary lone prefetch cands w start Hs) Hv)
    as (p & pieces & E & Hk & _). exists p, pieces. split; [done|]. cbv zeta.
  destruct (ke_inv _ _ Hk) as [HC HT _ _]. split_and!; try apply HC; [|apply HT].
  intros i [st Hi]. by eapply co_publication.
Qed.

(** C3: output is delivered in order, once, and authenticated, across reconnects and skips.  In every run the
    pieces handed to the consumer have strictly increasing numbers from the start of the session, all below
    the final cursor; and when the stream's source key is known each of them carries bytes that key signed. *)
Theorem session_delivery_ordered options primary lone prefetch cands w start evs p pieces :
  startable options primary → Forall (λ ee, valid_event ee.2) evs →
  pool_run info seed_enabled allow_loopback (fresh_pool info primary lone prefetch options cands w start) evs =
    Some (p, pieces) →
  StronglySorted N.lt (map rp_index pieces) ∧
  Forall (λ x, prefetch_start (window_min primary) (window_max primary) prefetch ≤ rp_index x < cursor (continuity p))
    pieces ∧
  (∀ n, signature_len_from_pubkey_der (source_pubkey info) = Some n →
     Forall (λ x, ∃ sig, verify_piece (source_pubkey info) (rp_bytes x) sig = true) pieces).
Proof.
  intros Hs Hv Hr. destruct (pool_run_ok _ evs (fresh_inv options primary lone prefetch cands w start Hs) Hv)
    as (p1 & pieces1 & E & Hk & [Ho Hrg Ha]). rewrite E in Hr. simplify_eq.
  destruct (fresh_initial options primary prefetch start Hs) as [_ Hn].
  assert (reasm (continuity (fresh_pool info primary lone prefetch options cands w start)) =
    reasm (fresh info (window_min primary) (window_max primary) prefetch options start).1) as Er
    by by destruct lone.
  split_and!; [done| |].
  - eapply Forall_impl; [exact Hrg|]. intros x. unfold cursor at 1, next_needed at 1. by rewrite Er, Hn.
  - intros n Hkey. eapply Forall_impl; [exact Ha|]. intros x Hx. apply Hx. rewrite Er. by eapply fresh_key.
Qed.

(** ** The live edge *)

Lemma skip_far_edge op c now : Core op c → Timely c → playback_hold c = false →
  let c' := (skip_far_behind_live c now).1 in head (requests c') - cursor c' ≤ prefetch c'.
Proof.
  intros HC HT Hh. pose proof (skip_far_ok op c now HC HT) as Hs. revert Hs. unfold skip_far_behind_live. rewrite Hh.
  cbn [requests set_requests head set_request_floor prefetch].
  match goal with |- context [cursor ?x] => change (cursor x) with (cursor c) end.
  destruct (N.leb_spec (saturating_sub (head (requests c)) (cursor c)) (prefetch c)) as [Hle|Hgt]; cbn [fst snd]; intros Hs.
  - cbn. exact Hle.
  - destruct (sk_target _ _ _ _ Hs _ eq_refl) as (_ & _ & Hc). cbv zeta. rewrite Hc, (sk_head _ _ _ _ Hs).
    destruct (sk_recovery _ _ _ _ Hs) as [_ ->]. unfold saturating_sub in *. lia.
Qed.

(** The timers that requests start are of the pieces assigned. *)
Lemma issue_requests_at peers send_ok now l c f i t :
  requested_at (requests (fold_left (issue_request peers send_ok now) l (c, f)).1) !! i = Some t →
  requested_at (requests c) !! i = Some t ∨ i ∈ map pa_piece l.
Proof.
  revert c f. induction l as [|a l IH]; intros c f; cbn [fold_left map]; [by left|].
  destruct (issue_request peers send_ok now (c, f) a) as [c1 f1] eqn:E. intros [Ht|Hi]%IH; [|right; by right].
  unfold issue_request in E. destruct (_ && _ && _); injection E as <- _; cbn in Ht; [|by left].
  destruct (decide (i = pa_piece a)) as [->|Hne]; [right; by left|]. left. by rewrite lookup_insert_ne in Ht.
Qed.

Lemma issue_requests_frame peers send_ok now l c f :
  let c' := (fold_left (issue_request peers send_ok now) l (c, f)).1 in
  reasm c' = reasm c ∧ head (requests c') = head (requests c) ∧ prefetch c' = prefetch c.
Proof.
  revert c f. induction l as [|a l IH]; intros c f; [done|]. cbn [fold_left].
  destruct (issue_request peers send_ok now (c, f) a) as [c1 f1] eqn:E. cbv zeta in *.
  destruct (IH c1 f1) as (-> & -> & ->). unfold issue_request in E. by destruct (_ && _ && _); injection E as <- _.
Qed.

(** C11: a session stays at the live edge.  In every state reached, unless output or publication holds the
    cursor, asking for pieces first moves the cursor to within the configured cushion of the newest piece
    known; and every request it adds is for a piece from the cursor to that newest piece. *)
Theorem session_follows_live_edge options primary lone prefetch0 cands w start evs p pieces e p' :
  startable options primary → Forall (λ ee, valid_event ee.2) evs →
  pool_run info seed_enabled allow_loopback (fresh_pool info primary lone prefetch0 options cands w start) evs =
    Some (p, pieces) →
  playback_hold (continuity p) = false → PoolActor.advance e p = Some p' →
  let c := continuity p' in
  head (requests c) - cursor c ≤ prefetch c ∧ cursor (continuity p) ≤ cursor c ∧
  ∀ i t, requested_at (requests c) !! i = Some t →
    requested_at (requests (continuity p)) !! i = Some t ∨ cursor c ≤ i ≤ head (requests c).
Proof.
  intros Hs Hv Hr Hh Ha. destruct (pool_run_ok _ evs (fresh_inv options primary lone prefetch0 cands w start Hs) Hv)
    as (p1 & pieces1 & E & Hk & _). rewrite E in Hr. simplify_eq. destruct (ke_inv _ _ Hk) as [HC HT _ _].
  unfold PoolActor.advance, advance_pool_requests in Ha. rewrite Hh in Ha.
  set (t0 := clock_now _ _) in Ha. pose proof (skip_far_ok _ _ t0 HC HT) as Hsk.
  pose proof (skip_far_edge _ _ t0 HC HT Hh) as Hedge.
  assert (∀ i t, requested_at (requests (skip_far_behind_live (continuity p) t0).1) !! i = Some t →
    requested_at (requests (continuity p)) !! i = Some t) as Hat.
  { intros i t. unfold skip_far_behind_live. rewrite Hh. destruct (_ <=? _); [done|]. cbn.
    destruct (0 <? _); cbn; rewrite lookup_from_key; by destruct (decide _). }
  destruct (skip_far_behind_live (continuity p) t0) as [c1 t1]. cbn [fst snd] in *. cbv zeta in *.
  pose proof (sk_cursor _ _ _ _ Hsk) as Hcur.
  destruct (bool_decide _). { cbn in Ha. simplify_eq. cbn. split_and!; eauto. }
  destruct (peers_assign_spec (active_peers (requests c1)) (scheduler (requests c1)) (cursor c1) (head (requests c1))
    (Some (queue_slots e)) (ti_bounded _ (sk_timely _ _ _ _ Hsk)) (two63_u64_max _ (ti_head _ (sk_timely _ _ _ _ Hsk)))
    (inv_cursor _ (co_reasm _ _ (sk_core _ _ _ _ Hsk)))) as (a & ps & s & Ea & _ & _ & _ & _ & Hin & _).
  unfold peers_assign_with_queue_slots in Ha. rewrite Ea in Ha. cbn [mbind option_bind] in Ha. simplify_eq.
  cbn [continuity set_continuity].
  match goal with |- context [fold_left (issue_request ?x ?y ?z) ?l (?c, ?f)] =>
    destruct (issue_requests_frame x y z l c f) as (Er & Eh & Ep); pose proof (issue_requests_at x y z l c f) as Hi end.
  cbv zeta in *. unfold cursor in *. rewrite Er, Eh, Ep. cbn. split_and!; [done|done|].
  intros i t [Ht|Hi']%Hi; [left; by apply Hat|right]. rewrite map_map in Hi'. cbn in Hi'.
  apply list_elem_of_fmap in Hi' as ([id pc] & -> & Hpc). by destruct (Hin _ _ Hpc) as (? & _).
Qed.

(** ** Pieces with mixed headers *)

(** The request state of a piece that was not settled: slots, reservations, chunks and request times stay. *)
Definition unsettled (q q' : Requests) : Prop :=
  active_peers q' = active_peers q ∧ scheduler q' = scheduler q ∧
  received_chunks q' = received_chunks q ∧ requested_at q' = requested_at q.

(** a piece whose chunks carried different headers is completed without being settled.  When a chunk
    completes a piece that is then not offered for publication, the piece is ready for output, but the
    request state is untouched: the peers' slots, the scheduler's reservations and the received chunks of
    the piece all stay. *)
Theorem ineligible_piece_keeps_slots c addr m lc cl cpp now c1 t o r :
  borrow_from_message m = Some lc → skip_far_behind_live c (clock_now (output_clock (timing c)) now) = (c1, t) →
  startup_deadline (timing c1) = None → output_ceiling (timing c1) = None → cursor c1 ≤ lc_piece lc →
  add_live_chunk (reasm c1) (lc_piece lc) (lc_chunk lc) cl (lc_piece_header lc) (lc_data lc) = (Ok o, r) →
  completed o = true → completed_live_piece r (lc_piece lc) = None →
  let c' := (on_piece c addr m cl cpp now).1 in
  is_Some (Reassembly.complete (reasm c') !! lc_piece lc) ∧
  unsettled (requests c1) (requests c').
Proof.
  intros Hm Hsk Hst Hce Hle Ha Hc Hn. unfold on_piece. rewrite Hm, Hsk. cbv zeta. cbn [fst].
  rewrite Hst, Hce, (bool_decide_false (is_Some _)) by by intros []. cbn [orb].
  rewrite (proj2 (N.ltb_ge _ _) Hle), Ha, Hc. cbn [reasm set_reasm]. rewrite Hn.
  pose proof (add_live_chunk_effect (reasm c1) (lc_piece lc) (lc_chunk lc) cl (lc_piece_header lc) (lc_data lc)) as He.
  rewrite Ha in He. cbn [fst snd] in He.
  assert (is_Some (Reassembly.complete r !! lc_piece lc)) as Hcm.
  { inversion He as [? Hno|?|?|k]; subst; try done; [by rewrite (Hno o eq_refl) in Hc|].
    cbn. rewrite lookup_insert_eq. eauto. }
  rewrite andb_false_r. destruct (contributed o); cbn; rewrite Hn; done.
Qed.

End Session.

(** ** A run

    A stream signed with the toy key: one peer delivers piece 7 in two chunks, the store publishes it, the
    consumer takes it. *)

Definition ex_info : StreamInfo := mkStreamInfo 1 6 3 2 (@pubkey_der toy_crypto witness_auth).
Definition ex_options : LiveRecoveryOptions := mkRecoveryOptions 1500 12000 1000 4 12 256 512.
Definition ex_upstream : Upstream := mkUpstream (loopback 9001) (Extended.mkLivePosition 7 7 7 1) true.
Definition ex_env : Env := mkEnv 1000000 100 {[1 := 64]} (λ _ _, true).
Definition ex_chunk (piece chunk : N) (hdr data : bytes) : PoolEvent :=
  PeerMessageEvent 1 (loopback 9001) (build_piece 0 piece chunk hdr data).
Definition ex_pool : Pool :=
  @fresh_pool toy_crypto ex_info ex_upstream false 8 ex_options (with_policy PeerPolicy_default) State_default 0.
Definition ex_begin : list PoolEvent :=
  [ActivateFirst ex_upstream true; Tick; ex_chunk 7 1 (bs "12345678") (drop 3 witness_piece)].
Definition ex_received : list PoolEvent := ex_begin ++ [ex_chunk 7 0 (bs "12345678") (take 3 witness_piece)].
Definition ex_events : list PoolEvent :=
  ex_received ++ [StoreAnswer SubmitAwaiting; StoreAnswer (WriteDone (Ok Published)); StoreAnswer Refreshed; Reserve; Permit].
Definition ex_run (evs : list PoolEvent) : option (Pool * list ReadyPiece) :=
  @pool_run toy_crypto ex_info true true ex_pool (map (pair ex_env) evs).

Lemma ex_run_eq evs : @pool_run toy_crypto ex_info true true
  (@fresh_pool toy_crypto ex_info ex_upstream false 8 ex_options (with_policy PeerPolicy_default) State_default 0)
  (map (pair ex_env) evs) = ex_run evs.
Proof. reflexivity. Qed.

Lemma ex_startable : startable ex_info ex_options ex_upstream.
Proof. split; [by vm_compute|by vm_compute|by split; vm_compute]. Qed.

Lemma ex_valid evs : Forall valid_event evs → Forall (λ ee, valid_event ee.2) (map (pair ex_env) evs).
Proof. intros Hv. by apply Forall_map. Qed.

Lemma ex_events_valid : Forall valid_event ex_events.
Proof. repeat constructor; vm_compute; done. Qed.

Lemma session_never_panics_witness : ∃ p pieces, ex_run ex_events = Some (p, pieces).
Proof.
  destruct (@session_never_panics toy_crypto ex_info true true ex_options ex_upstream false 8
    (with_policy PeerPolicy_default) State_default 0 (map (pair ex_env) ex_events)) as (p & pieces & E & _).
  - apply ex_startable.
  - apply ex_valid, ex_events_valid.
  - eauto.
Defined.

Lemma session_delivery_ordered_witness :
  ∃ p pieces, ex_run ex_events = Some (p, pieces) ∧ map rp_index pieces = [7] ∧
    Forall (λ x, ∃ sig, @verify_piece toy_crypto (source_pubkey ex_info) (rp_bytes x) sig = true) pieces.
Proof.
  destruct (ex_run ex_events) as [[p pieces]|] eqn:E; [|by vm_compute in E].
  exists p, pieces. split; [done|]. split.
  - assert ((λ x, map rp_index x.2) <$> ex_run ex_events = Some [7]) as Hi by by vm_compute.
    rewrite E in Hi. cbn in Hi. congruence.
  - apply (@session_delivery_ordered toy_crypto ex_info true true ex_options ex_upstream false 8
      (with_policy PeerPolicy_default) State_default 0 (map (pair ex_env) ex_events) p pieces)
      with (n := 2%nat); [apply ex_startable|apply ex_valid, ex_events_valid|by rewrite ex_run_eq|by vm_compute].
Defined.

Lemma session_follows_live_edge_witness :
  ∃ p p', fst <$> ex_run ex_begin = Some p ∧ PoolActor.advance ex_env p = Some p' ∧
    head (requests (continuity p')) - cursor (continuity p') ≤ prefetch (continuity p').
Proof.
  destruct (ex_run ex_begin) as [[p pieces]|] eqn:E; [|by vm_compute in E].
  assert ((λ x, playback_hold (continuity x.1)) <$> ex_run ex_begin = Some false) as Hh by by vm_compute.
  rewrite E in Hh. cbn in Hh.
  destruct (PoolActor.advance ex_env p) as [p'|] eqn:Ea.
  - exists p, p'. split; [done|]. split; [done|].
    apply (@session_follows_live_edge toy_crypto ex_info true true ex_options ex_upstream false 8
      (with_policy PeerPolicy_default) State_default 0 (map (pair ex_env) ex_begin) p pieces ex_env p');
      [apply ex_startable| |by rewrite ex_run_eq|congruence|exact Ea].
    apply ex_valid. repeat constructor; vm_compute; done.
  - assert ((λ x, bool_decide (is_Some (PoolActor.advance ex_env x.1))) <$> ex_run ex_begin = Some true) as Hs by by vm_compute.
    rewrite E in Hs. cbn in Hs. rewrite Ea in Hs. done.
Defined.

(** The same piece with a second header: it leaves the session while its request slot stays taken. *)
Definition ex_mixed : list PoolEvent := ex_begin ++ [ex_chunk 7 0 (bs "ABCDEFGH") (take 3 witness_piece); Reserve; Permit].

(** The session before its second chunk. *)
Definition ex_mid : Continuity := match ex_run ex_begin with Some (p, _) => continuity p | None => continuity ex_pool end.
Definition ex_mid' : Continuity := (skip_far_behind_live ex_mid (clock_now (output_clock (timing ex_mid)) 1000000)).1.
Definition ex_second : PeerMessage := build_piece 0 7 0 (bs "ABCDEFGH") (take 3 witness_piece).

Lemma ineligible_piece_keeps_slots_witness :
  active_peers (requests (@on_piece toy_crypto ex_mid (loopback 9001) ex_second 3 2 1000000).1) =
    active_peers (requests ex_mid') ∧
  (λ x, (map rp_index x.2, cursor (continuity x.1),
     in_flight <$> active_peers (requests (continuity x.1)) !! 1)) <$> ex_run ex_mixed = Some ([7], 8, Some {[7]}).
Proof.
  split; [|by vm_compute].
  apply (@ineligible_piece_keeps_slots toy_crypto ex_mid (loopback 9001) ex_second
    (mkLiveChunk 7 (bs "ABCDEFGH") 0 (take 3 witness_piece)) 3 2 1000000 ex_mid'
    (skip_far_behind_live ex_mid (clock_now (output_clock (timing ex_mid)) 1000000)).2
    (mkLiveBlockOutcome true true)
    (@add_live_chunk toy_crypto (reasm ex_mid') 7 0 3 (bs "ABCDEFGH") (take 3 witness_piece)).2);
    [by vm_compute|apply surjective_pairing|by vm_compute|by vm_compute|by vm_compute|by vm_compute|done|by vm_compute].
Defined.
