(* ===== verification/Drain.v ===== *)
(** * Draining what a session has accepted

    [drain_retained] of [live_session/pool/actor.rs]: before a session looks for new peers it publishes and
    outputs everything it holds.  The loop ends, given a consumer that takes output and a store that answers. *)

From S2P Require Import Prelude Order Bytes BTree Wire Bencode Net Message LiveCodec LiveAuth.
From S2P Require Import Store PeerExchange LiveWindow Scheduler Reassembly PeerPolicy Candidates WarmPeers OutputPath OutputClock.
From S2P Require Import Continuity ContinuityInv PoolActor Session.

Local Open Scope N_scope.

(** ** The measure *)

Definition is_needed (st : PublicationStatus) : bool := match st with Needed => true | Terminal _ => false end.

Definition needed_count (m : gmap N PublicationStatus) : nat := size (base.filter (λ kv, is_needed kv.2 = true) m).

Lemma needed_count_terminal m k res : m !! k = Some Needed →
  needed_count m = S (needed_count (<[k := Terminal res]> m)).
Proof.
  intros Hk. unfold needed_count.
  assert (base.filter (λ kv, is_needed kv.2 = true) (<[k := Terminal res]> m) =
    delete k (base.filter (λ kv, is_needed kv.2 = true) m)) as ->.
  { apply map_eq. intros i. apply option_eq. intros st.
    rewrite lookup_delete_Some, !map_lookup_filter_Some, lookup_insert_Some. cbn. naive_solver. }
  assert (base.filter (λ kv, is_needed kv.2 = true) m !! k = Some Needed) as Hf by by apply map_lookup_filter_Some.
  rewrite map_size_delete, Hf. cbn.
  assert (size (base.filter (λ kv, is_needed kv.2 = true) m) ≠ 0%nat); [|lia].
  intros He%map_size_empty_inv. by rewrite He in Hf.
Qed.

Lemma needed_count_pos m k : m !! k = Some Needed → (0 < needed_count m)%nat.
Proof.
  intros Hk. rewrite (needed_count_terminal m k (Err tt) Hk). lia.
Qed.

(** The stages a publication has behind it. *)
Definition stage (op : option PublicationOperation) : nat :=
  match op with None => 0 | Some (Acquiring _) => 1 | Some (Awaiting _) => 2 | Some (Refreshing _ _) => 3 end.

Definition publication_work (op : option PublicationOperation) (c : Continuity) : nat :=
  4 * needed_count (publication (requests c)) - stage op.

(** The answers that fit an operation: what its future can deliver. *)
Definition fits (op : PublicationOperation) (ev : StoreEvent) : bool :=
  match op, ev with
  | Acquiring _, (AdmissionFailed | SubmitReady _ | SubmitAwaiting) => true
  | Awaiting _, WriteDone _ => true
  | Refreshing _ _, Refreshed => true
  | _, _ => false
  end.

Section Drain.
Context `{Crypto} (info : StreamInfo) (seed_enabled allow_loopback : bool).

Lemma poll_progress o c ev op' c' : Core (Some o) c → fits o ev = true → poll_operation o c ev = Some (op', c') →
  (publication_work op' c' < publication_work (Some o) c)%nat.
Proof.
  intros HC Hf E. destruct (poll_operation_ok o c ev HC) as (op1 & c1 & E1 & [_ _ _ _ _ _ Hcases]).
  rewrite E1 in E. simplify_eq. pose proof (co_op _ _ HC o eq_refl) as Hn.
  pose proof (needed_count_pos _ _ Hn) as Hpos. unfold publication_work.
  destruct Hcases as [(-> & o' & -> & Hp)|(-> & res & Hpub)].
  - destruct o as [?|?|? ?], ev; try done; cbn [poll_operation] in E1;
      try (destruct (terminal _ _ _); by simplify_eq);
      try (destruct (completed_live_piece _ _); [|done]; cbn [mbind option_bind] in E1;
           first [destruct (terminal _ _ _); by simplify_eq | simplify_eq; cbn [stage]; lia]);
      simplify_eq; cbn [stage]; lia.
  - rewrite Hpub. rewrite (needed_count_terminal _ _ res Hn). destruct o; cbn [stage]; lia.
Qed.

Lemma start_progress op c op' : Core op c → start_operation op c = Some op' →
  (publication_work op' c ≤ publication_work op c)%nat ∧ (op' = None → op = None ∧ publication_hold c = false).
Proof.
  intros HC E. destruct (start_operation_ok op c HC) as (op1 & E1 & HC1 & Hn). rewrite E1 in E. simplify_eq.
  unfold start_operation in E1. destruct op as [o|]; [by simplify_eq|].
  split; [unfold publication_work; cbn [stage]; lia|]. auto.
Qed.

(** What a turn leaves alone before it acts. *)
Record resting (p p1 : Pool) : Prop := {
  re_kept : kept p p1;
  re_reasm : reasm (continuity p1) = reasm (continuity p);
  re_requests : requests (continuity p1) = requests (continuity p);
  re_pending : pending_output (continuity p1) = pending_output (continuity p);
  re_startup : startup_deadline (timing (continuity p1)) = None;
}.

Lemma budget_resting p now : PoolInv p → startup_deadline (timing (continuity p)) = None →
  resting p (pool_budget p now).2 ∧ publication_op (pool_budget p now).2 = publication_op p.
Proof.
  intros HP Hs. pose proof (pool_budget_kept p now HP) as Hk. revert Hk. unfold pool_budget.
  destruct (output_budget _ _ _ _ _ _) as [first budget]. cbn [snd]. intros Hk. split; [|done]. by constructor.
Qed.

Lemma startup_resting p now : PoolInv p → (∀ d, startup_deadline (timing (continuity p)) = Some d → d ≤ now) →
  let p1 := match startup_deadline (timing (continuity p)) with
    | Some deadline => if deadline <=? now
        then set_continuity (set_timing (set_startup_deadline None) (continuity p)) p else p
    | None => p
    end in
  resting p p1 ∧ publication_op p1 = publication_op p.
Proof.
  intros HP Hd. cbv zeta. destruct (startup_deadline (timing (continuity p))) as [d|] eqn:E.
  - rewrite (proj2 (N.leb_le _ _)) by by apply Hd. split; [|done]. constructor; first [done|by apply kept_timing].
  - split; [|done]. constructor; first [done|by apply kept_refl].
Qed.

Lemma resting_trans p1 p2 p3 : resting p1 p2 → resting p2 p3 → resting p1 p3.
Proof. intros [? ? ? ? ?] [? ? ? ? ?]. constructor; eauto using kept_trans; congruence. Qed.

(** The work left, in the order the loop does it. *)
Record Work : Type := mkWork { w_pieces : nat; w_publication : nat; w_queue : nat }.

Definition work (p : Pool) : Work :=
  mkWork (size (Reassembly.complete (reasm (continuity p)))) (publication_work (publication_op p) (continuity p))
    (length (pending_output (continuity p))).

Definition less (a b : Work) : Prop :=
  (w_pieces a < w_pieces b)%nat ∨
  (w_pieces a = w_pieces b ∧ (w_publication a < w_publication b)%nat) ∨
  (w_pieces a = w_pieces b ∧ w_publication a = w_publication b ∧ (w_queue a < w_queue b)%nat).

Lemma less_wf : well_founded less.
Proof.
  intros [a b c]. revert b c. induction (lt_wf a) as [a _ IHa]. intros b.
  induction (lt_wf b) as [b _ IHb]. intros c. induction (lt_wf c) as [c _ IHc].
  constructor. intros [x y z] Hl. unfold less in Hl. cbn in Hl.
  destruct Hl as [Hl|[[-> Hl]|(-> & -> & Hl)]]; [by apply IHa|by apply IHb|by apply IHc].
Qed.

(** A session at work whose publications have ended has output to send. *)
Lemma work_demands op c : Core op c → has_delivery_work c = true → startup_deadline (timing c) = None →
  publication_hold c = false → output_demand c = true.
Proof.
  intros HC Hw Hs Hp. unfold has_delivery_work, output_demand in *. rewrite Hs, Hp.
  rewrite (bool_decide_true (@None N = None)) by done. cbn.
  destruct (bool_decide_reflect (pending_output c = [])) as [Hn|Hn]; [|done]. cbn in *.
  destruct (has_ready c) eqn:Hr; [done|]. rewrite orb_false_r, orb_false_r in Hw. apply bool_decide_eq_true in Hw.
  destruct (co_hold _ _ HC Hw) as [?|Hc]; [done|]. apply has_ready_spec in Hc; [congruence|apply HC].
Qed.

Lemma advance_size r : is_Some (Reassembly.complete r !! next_emit r) →
  (size (Reassembly.complete (Reassembly.advance r)) < size (Reassembly.complete r))%nat.
Proof.
  intros [d Hd]. cbn. rewrite map_size_delete, Hd. cbn.
  assert (size (Reassembly.complete r) ≠ 0%nat); [|lia]. intros He%map_size_empty_inv. by rewrite He in Hd.
Qed.

(** A permit with work to do makes progress. *)
Lemma permit_progress e p : PoolInv p → reservation p = true → publication_op p = None →
  output_demand (continuity p) = true → startup_deadline (timing (continuity p)) = None →
  let '(out, _, p') := finish_output info allow_loopback e p in
  kept p p' ∧ startup_deadline (timing (continuity p')) = None ∧ less (work p') (work p) ∧ publication_op p' = None.
Proof.
  intros HP Hr Hop Hd Hs. pose proof (permit_kept info allow_loopback e p HP Hr) as Hk.
  unfold finish_output in *. cbv zeta in *. destruct Hk as (Hk & [HC _ _ Hst Ht Hq _] & _).
  cbn [continuity publication_op] in *. split_and!; [done|by rewrite Hst| |done].
  set (s := finish_output_step _ _ _ _ _ _ _ _) in *. unfold work. cbn [continuity publication_op].
  destruct (taken s) as [x|].
  - destruct Ht as (_ & -> & _ & _ & d & Hd' & _). left. cbn [w_pieces]. apply advance_size. by exists d.
  - destruct Ht as [-> Hpub]. specialize (Hq eq_refl). right; right. cbn. split; [done|]. split.
    { unfold publication_work. by rewrite Hpub. }
    destruct (pending_output (continuity p)) as [|o rest]; [destruct Hq as (_ & ? & _); congruence|].
    destruct Hq as [_ ->]. cbn. lia.
Qed.

Lemma reserve_resting e p : PoolInv p → startup_deadline (timing (continuity p)) = None →
  resting p (pool_start_output e p) ∧ publication_op (pool_start_output e p) = publication_op p ∧
  (output_demand (continuity (pool_start_output e p)) = true → reservation (pool_start_output e p) = true).
Proof.
  intros HP Hs. destruct (reserve_kept e p HP) as [Hk Hd]. revert Hk Hd. unfold pool_start_output, start_output.
  destruct (reservation p) eqn:Er; cbn [negb andb]; [|destruct (output_demand (continuity p)) eqn:Ed];
    intros Hk Hd; (split_and!; [by constructor|done|]); cbn; try done. by rewrite Ed.
Qed.

(** The first half of a turn: the operation that runs, and the reservation. *)
Lemma turn_ready e p : PoolInv p → (∀ d, startup_deadline (timing (continuity p)) = Some d → d ≤ now e) →
  ∃ p1 op, start_operation (publication_op p) (continuity p) = Some op ∧ resting p p1 ∧ publication_op p1 = op ∧
    (∀ ans, drain_turn info allow_loopback e ans p =
      match op, ans with
      | Some _, Some ev => p ← poll_publication p1 ev; Some (p, None)
      | _, _ => if reservation p1 then let '(out, _, p) := finish_output info allow_loopback e p1 in Some (p, out)
                else Some (p1, None)
      end) ∧
    (publication_work op (continuity p1) ≤ publication_work (publication_op p) (continuity p))%nat ∧
    (op = None → publication_hold (continuity p1) = false) ∧
    (output_demand (continuity p1) = true → reservation p1 = true).
Proof.
  intros HP Hd. unfold drain_turn. cbv zeta.
  destruct (startup_resting p (now e) HP Hd) as [Hr1 Hop1]. cbv zeta in *. set (pa := match startup_deadline _ with Some _ => _ | None => p end) in *.
  clearbody pa. destruct (budget_resting pa (now e) (ke_inv _ _ (re_kept _ _ Hr1)) (re_startup _ _ Hr1)) as [Hr2 Hop2].
  set (pb := (pool_budget pa (now e)).2) in *. clearbody pb.
  eapply resting_trans in Hr2; [|exact Hr1]. clear Hr1. rewrite Hop1 in Hop2. clear Hop1 pa.
  pose proof (ke_inv _ _ (re_kept _ _ Hr2)) as HPb.
  assert (start_operation (publication_op pb) (continuity pb) = start_operation (publication_op p) (continuity p)) as Esame.
  { unfold start_operation. by rewrite Hop2, (re_requests _ _ Hr2), (re_reasm _ _ Hr2). }
  destruct (start_operation_ok _ _ (pi_core _ HPb)) as (op & Eop & HCop & _).
  destruct (start_progress _ _ _ (pi_core _ HPb) Eop) as [Hw Hnone].
  destruct (start_publication_kept pb HPb) as (pc & Epc & Hkc). rewrite Epc. cbn [mbind option_bind].
  unfold start_publication in Epc. rewrite Eop in Epc. cbn in Epc. injection Epc as <-.
  destruct (reserve_resting e (set_publication_op op pb) (ke_inv _ _ Hkc) (re_startup _ _ Hr2)) as (Hr3 & Hop3 & Hres).
  set (p1 := pool_start_output e _) in *. clearbody p1. cbn in Hop3.
  assert (resting pb (set_publication_op op pb)) as Hrb by (constructor; try done; apply Hr2).
  exists p1, op. split_and!; [congruence|eauto using resting_trans|done| | | |done].
  - intros ans. by rewrite Hop3.
  - unfold publication_work in *. rewrite (re_requests _ _ Hr3), <-(re_requests _ _ Hr2), <-Hop2. exact Hw.
  - intros ->. destruct Hnone as [_ Hh]; [done|]. unfold publication_hold in *. by rewrite (re_requests _ _ Hr3).
Qed.

(** A turn whose operation, if any, is answered makes progress. *)
Lemma turn_progress e p ans : PoolInv p → has_delivery_work (continuity p) = true →
  (∀ d, startup_deadline (timing (continuity p)) = Some d → d ≤ now e) →
  (∀ op, start_operation (publication_op p) (continuity p) = Some (Some op) → ∃ ev, ans = Some ev ∧ fits op ev = true) →
  ∃ p' out, drain_turn info allow_loopback e ans p = Some (p', out) ∧ kept p p' ∧
    startup_deadline (timing (continuity p')) = None ∧ less (work p') (work p).
Proof.
  intros HP Hw Hd Ha. destruct (turn_ready e p HP Hd) as (p1 & op & Eop & [Hk Er Erq Epd Hst] & Hop & -> & Hpw & Hnone & Hres).
  pose proof (ke_inv _ _ Hk) as HP1.
  assert (work p = mkWork (size (Reassembly.complete (reasm (continuity p1))))
    (publication_work (publication_op p) (continuity p)) (length (pending_output (continuity p1)))) as Ewp
    by (unfold work; by rewrite Er, Epd).
  destruct op as [o|].
  - destruct (Ha o Eop) as (ev & -> & Hf). unfold poll_publication. rewrite Hop.
    pose proof (pi_core _ HP1) as HC1. rewrite Hop in HC1.
    destruct (poll_operation_ok o _ ev HC1) as (op' & c & Epoll & [_ Erc Epc Etc _ _ _]).
    pose proof (poll_progress o _ ev op' c HC1 Hf Epoll) as Hlt.
    destruct (poll_kept p1 ev HP1) as (p2 & E2 & Hk2). unfold poll_publication in E2. rewrite Hop in E2.
    rewrite Epoll in *. cbn [mbind option_bind] in *. injection E2 as <-.
    eexists _, _. split; [done|]. split; [eauto using kept_trans|]. split; [cbn; by rewrite Etc|].
    rewrite Ewp. unfold work. cbn [publication_op continuity set_publication_op set_continuity]. right; left.
    cbn [w_pieces w_publication]. split; [by rewrite Erc|]. lia.
  - assert (has_delivery_work (continuity p1) = true) as Hw1.
    { destruct (pi_core _ HP) as [_ _ _ _ _ _ Hh _]. unfold has_delivery_work, has_ready in *. rewrite Er, Epd.
      apply orb_true_iff in Hw as [Hw|Hw]; [apply orb_true_iff in Hw as [Hw|Hw]|]; try by rewrite Hw, ?orb_true_r.
      apply bool_decide_eq_true, Hh in Hw as [Hw|Hw].
      - rewrite (bool_decide_false (pending_output _ = [])) by done. by rewrite orb_true_r.
      - apply (has_ready_spec (continuity p)) in Hw; [|apply HP]. unfold has_ready in Hw. by rewrite Hw, orb_true_r. }
    pose proof (work_demands _ _ (pi_core _ HP1) Hw1 Hst (Hnone eq_refl)) as Hdem.
    rewrite (Hres Hdem). pose proof (permit_progress e p1 HP1 (Hres Hdem) Hop Hdem Hst) as Hp.
    destruct (finish_output info allow_loopback e p1) as [[out taken] p2]. destruct Hp as (Hk2 & Hs2 & Hl & _).
    eexists _, _. split; [done|]. split; [eauto using kept_trans|]. split; [done|].
    rewrite Ewp. rewrite <-Hop in Hpw. clear -Hl Hpw Hop. unfold less, work in *. cbn [w_pieces w_publication w_queue] in *. lia.
Qed.

Lemma drain_ok env answer : (∀ t op, ∃ ev, answer t op = Some ev ∧ fits op ev = true) → ∀ p turn,
  PoolInv p → (∀ d, startup_deadline (timing (continuity p)) = Some d → d ≤ now (env turn)) →
  ∃ fuel p' outs, drain_retained info allow_loopback fuel env answer turn p = Some (p', outs) ∧ kept p p' ∧
    has_delivery_work (continuity p') = false.
Proof.
  intros Ha p. remember (work p) as k eqn:Ek. revert p Ek. induction (less_wf k) as [k _ IH]. intros p -> turn HP Hd.
  destruct (has_delivery_work (continuity p)) eqn:Hw.
  2: { exists 0%nat, p, []. cbn. rewrite Hw. eauto using kept_refl. }
  set (ans := op ← (op ← start_operation (publication_op p) (continuity p); op); answer turn op).
  destruct (turn_progress (env turn) p ans HP Hw Hd) as (p1 & out & E1 & Hk1 & Hs1 & Hl).
  { intros op Eop. unfold ans. rewrite Eop. cbn. apply Ha. }
  destruct (IH _ Hl p1 eq_refl (S turn) (ke_inv _ _ Hk1)) as (fuel & p' & outs & E & Hk & Hdone); [by rewrite Hs1|].
  exists (S fuel), p', (option_list out ++ outs). cbn [drain_retained]. rewrite Hw. fold ans. rewrite E1.
  cbn [mbind option_bind]. rewrite E. eauto using kept_trans.
Qed.

(** C10: a session always gets rid of what it has accepted.  Whatever happened before, when the pool has ended
    and the corroboration deadline has passed, the loop that publishes and outputs the retained pieces ends:
    with a consumer that takes output and a store that answers every request, some number of turns leaves no
    publication in progress that blocks output, no queued output, no ready piece and no hold. *)
Theorem drain_completes options primary lone prefetch cands w start evs p pieces env answer :
  startable info options primary → Forall (λ ee, valid_event ee.2) evs →
  pool_run info seed_enabled allow_loopback (fresh_pool info primary lone prefetch options cands w start) evs =
    Some (p, pieces) →
  (∀ d, startup_deadline (timing (continuity p)) = Some d → d ≤ now (env 0%nat)) →
  (∀ t op, ∃ ev, answer t op = Some ev ∧ fits op ev = true) →
  ∃ fuel p' outs,
    drain_retained info allow_loopback fuel env answer 0 (new_pool (continuity p) (candidates p) (warm_peers p)) =
      Some (p', outs) ∧
    pending_output (continuity p') = [] ∧ output_ceiling (timing (continuity p')) = None ∧
    Reassembly.complete (reasm (continuity p')) !! cursor (continuity p') = None.
Proof.
  intros Hs Hv Hr Hd Ha.
  destruct (pool_run_ok info seed_enabled allow_loopback _ evs
    (fresh_inv info options primary lone prefetch cands w start Hs) Hv) as (p1 & pieces1 & E & Hk & _).
  rewrite E in Hr. simplify_eq. destruct (ke_inv _ _ Hk) as [HC HT _ _].
  assert (PoolInv (new_pool (continuity p) (candidates p) (warm_peers p))) as HP
    by (constructor; try done; by eapply core_no_op).
  destruct (drain_ok env answer Ha _ 0%nat HP Hd) as (fuel & p' & outs & E' & Hk' & Hdone).
  exists fuel, p', outs. split; [done|]. unfold has_delivery_work in Hdone.
  apply orb_false_iff in Hdone as [[Hc%bool_decide_eq_false Hp%negb_false_iff]%orb_false_iff Hrd].
  split_and!; [by apply bool_decide_eq_true in Hp|by apply eq_None_not_Some|].
  apply eq_None_not_Some. intros Hrdy. apply has_ready_spec in Hrdy; [congruence|]. apply Hk'.
Qed.

End Drain.

(** A pool that ended with a piece received and not yet published: it is published, then output. *)
Definition ex_answer (t : nat) (op : PublicationOperation) : option StoreEvent :=
  Some (match op with Acquiring _ => SubmitAwaiting | Awaiting _ => WriteDone (Ok Published) | Refreshing _ _ => Refreshed end).

Lemma drain_completes_witness :
  ∃ p pieces fuel p' outs, ex_run ex_received = Some (p, pieces) ∧ has_delivery_work (continuity p) = true ∧
    @drain_retained toy_crypto ex_info true fuel (λ _, ex_env) ex_answer 0
      (new_pool (continuity p) (candidates p) (warm_peers p)) = Some (p', outs) ∧
    Reassembly.complete (reasm (continuity p')) !! cursor (continuity p') = None.
Proof.
  destruct (ex_run ex_received) as [[p pieces]|] eqn:E; [|by vm_compute in E].
  assert ((λ x, (startup_deadline (timing (continuity x.1)), has_delivery_work (continuity x.1))) <$> ex_run ex_received =
    Some (None, true)) as Hi by by vm_compute.
  rewrite E in Hi. cbn in Hi. injection Hi as Hi1 Hi2.
  destruct (@drain_completes toy_crypto ex_info true true ex_options ex_upstream false 8
    (with_policy PeerPolicy_default) State_default 0 (map (pair ex_env) ex_received) p pieces (λ _, ex_env) ex_answer)
    as (fuel & p' & outs & Ed & _ & _ & Hn).
  - apply ex_startable.
  - apply ex_valid. repeat constructor; vm_compute; done.
  - by rewrite ex_run_eq.
  - intros d Hd. rewrite Hi1 in Hd. discriminate Hd.
  - intros t op. eexists. split; [reflexivity|]. by destruct op.
  - exists p, pieces, fuel, p', outs. auto.
Defined.
