(* ===== verification/Seed.v ===== *)
(** * Serving peers

    [ace-swarm/src/seed/protocol.rs] (replies to requests) and [ace-swarm/src/seed.rs]: the
    unchoke policy, the coordinator that shares its slots among the connections of a stream,
    and the loop that serves one connection, as a step function over what wakes it.  A [watch]
    channel is its last value with a flag that tells whether the receiver has seen it; the
    shared store is an argument of every step, since others write to it in between.  Joining, leaving, a
    change of interest and a rechoke each change the lists under one lock and recompute the slots
    under a second; a step is both, with nothing in between. *)

From S2P Require Import Extended Prelude Order Bytes BTree Bencode UtMetadata Message LiveCodec Store.

Local Open Scope N_scope.

(** ** Replies *)

Inductive ServeProfile : Type :=
  | Inbound (fallback_header : bytes)
  | Reciprocal.

Record PreparedReply : Type := mkReply { reply_message : PeerMessage; media_bytes : N }.

Definition is_inbound (p : ServeProfile) : bool := match p with Inbound _ => true | Reciprocal => false end.

(** The stream and the header of a live reply. *)
Definition live_coordinates (profile : ServeProfile) (requested_stream : N) (stored : bytes) : N * bytes :=
  match profile with
  | Inbound fallback => (requested_stream, if bool_decide (stored = zero_header) then fallback else stored)
  | Reciprocal => (0, stored)
  end.

Definition prepare_reply (request : PeerMessage) (store : option PieceStore) (profile : ServeProfile)
    : option PreparedReply :=
  st ← store;
  match request with
  | Unknown id payload =>
      if (byte_N id =? 6) && bool_decide (10 ≤ length payload)%nat then
        let requested_stream := be_N (slice payload 0 4) in
        let piece := be_N (slice payload 4 8) in
        let chunk := be_N (slice payload 8 10) in
        '(data, stored) ← match profile with
          | Reciprocal => shared_reciprocal_chunk st piece chunk
          | Inbound _ => shared_serving_chunk st piece chunk
          end;
        let '(stream, header) := live_coordinates profile requested_stream stored in
        Some (mkReply (build_piece stream piece chunk header data) (lenN data))
      else None
  | Message.Request index begin length =>
      if is_inbound profile then
        block ← shared_block st index begin length;
        Some (mkReply (Piece index begin block) (lenN block))
      else None
  | _ => None
  end.

(** ** Unchoke policy *)

Record Choker : Type := mkChoker { max_unchoked : nat }.

Definition choose (c : Choker) (interested : list N) (tick : N) : list N :=
  let out := take (max_unchoked c) interested in
  let rest := drop (length out) interested in
  match rest !! N.to_nat (tick `mod` lenN rest) with
  | Some p => out ++ [p]
  | None => out
  end.

(** ** Coordinator *)

Record Watch : Type := mkWatch { w_value : bool; w_unseen : bool }.

Record CoordState : Type := mkCoordState {
  interested : list N;
  senders : gmap N Watch;
  tick : N;
}.

Record ServeCoordinator : Type := mkCoordinator { choker : Choker; next_id : N; state : CoordState }.

Definition coordinator_new (max_unchoked : nat) : ServeCoordinator :=
  mkCoordinator (mkChoker max_unchoked) 1 (mkCoordState [] ∅ 0).

(** [tx.send(want)] where the value differs. *)
Definition watch_send (want : bool) (w : Watch) : Watch :=
  if bool_decide (w_value w = want) then w else mkWatch want true.

Definition recompute (k : Choker) (st : CoordState) : CoordState :=
  let chosen := choose k (interested st) (tick st) in
  mkCoordState (interested st) (map_imap (λ id w, Some (watch_send (bool_decide (id ∈ chosen)) w)) (senders st))
    (tick st).

Definition recomputed (c : ServeCoordinator) (st : CoordState) : ServeCoordinator :=
  mkCoordinator (choker c) (next_id c) (recompute (choker c) st).

Definition join (c : ServeCoordinator) : N * ServeCoordinator :=
  (next_id c, mkCoordinator (choker c) (u64_add (next_id c) 1)
     (mkCoordState (interested (state c)) (<[next_id c := mkWatch false false]> (senders (state c)))
        (tick (state c)))).

(** [Vec::remove] at the position of [peer], if it is there. *)
Definition remove_peer (peer : N) (l : list N) : list N :=
  match position peer l with
  | Some i => delete i l
  | None => l
  end.

Definition set_interested (c : ServeCoordinator) (peer : N) (want : bool) : ServeCoordinator :=
  let st := state c in
  let l := match want, position peer (interested st) with
    | true, None => interested st ++ [peer]
    | false, Some i => delete i (interested st)
    | _, _ => interested st
    end in
  recomputed c (mkCoordState l (senders st) (tick st)).

Definition leave (c : ServeCoordinator) (peer : N) : ServeCoordinator :=
  let st := state c in
  recomputed c (mkCoordState (remove_peer peer (interested st)) (delete peer (senders st)) (tick st)).

Definition rechoke (c : ServeCoordinator) : ServeCoordinator :=
  let st := state c in
  recomputed c (mkCoordState (interested st) (senders st) (u64_add (tick st) 1)).

(** ** One connection *)

(** What a connection is served from, besides the store. *)
Record SeedConfig : Type := mkSeedConfig {
  metadata : option bytes;
  piece_header : bytes;
  coordinated : bool;
}.

Record Seeder : Type := mkSeeder {
  unchoked : bool;
  advertised_bitfields : bool;
  advertised_max : option N;
}.

Definition seeder_fresh : Seeder := mkSeeder false false None.

Definition complete_piece_window (st : PieceStore) : option (N * N) :=
  let pieces := have_pieces st in
  first ← head pieces; final ← last pieces; Some (first, final).

(** [min as i64]. *)
Definition seed_handshake (store : option PieceStore) (cfg : SeedConfig) (ip : bytes)
    : Extended.OutgoingExtendedHandshake :=
  let '(lo, hi) := default (0, 0) (st ← store; complete_piece_window st) in
  let i64 n := wrap_i64 (Z.of_N n) in
  Extended.mkOutgoing 1 2 (Some (Extended.mkLivePosition (i64 lo) (i64 hi) (i64 hi) (-1)))
    Extended.NodeFields_default (Some ip) ((λ m, i64 (lenN m)) <$> metadata cfg).

(** The [peekable] loop: maximal runs of consecutive pieces. *)
Fixpoint runs_from (first final : N) (pieces : list N) : list (N * N) :=
  match pieces with
  | [] => [(first, final)]
  | next :: rest =>
      if next =? u64_add final 1 then runs_from first next rest
      else (first, final) :: runs_from next next rest
  end.

Definition run_bitfield (run : N * N) : PeerMessage :=
  live_bitfield (run.1 `mod` two32) (N.min (run.2 - run.1 + 1) (two32 - 1)).

Definition advertise_live_bitfields (st : PieceStore) : list PeerMessage * option N :=
  let pieces := have_pieces st in
  (match pieces with
   | first :: rest => map run_bitfield (runs_from first first rest)
   | [] => []
   end, last pieces).

Definition above (edge : option N) (piece : N) : bool :=
  match edge with None => true | Some m => m <? piece end.

Definition announce_have (acc : list PeerMessage * option N) (piece : N) : list PeerMessage * option N :=
  let '(sent, edge) := acc in
  if above edge piece then (sent ++ [live_have (piece `mod` two32)], Some piece) else acc.

Definition advance_live_edge (store : option PieceStore) (s : Seeder) : list PeerMessage * Seeder :=
  match store with
  | None => ([], s)
  | Some st =>
      if advertised_bitfields s then
        let '(sent, edge) := fold_left announce_have (have_pieces st) ([], advertised_max s) in
        (sent, mkSeeder (unchoked s) true edge)
      else ([], s)
  end.

(** A block of the metadata; the offset is a wrapping [usize] product. *)
Definition metadata_reply (blob : bytes) (piece : Z) : list PeerMessage :=
  let piece := Z.to_N (Z.max piece 0) in
  let start := u64_mul piece METADATA_BLOCK_LEN in
  if start <? lenN blob then
    let stop := N.min (start + METADATA_BLOCK_LEN) (lenN blob) in
    [Extended (N_byte 2) (data_piece (wrap_i64 (Z.of_N piece)) (wrap_i64 (Z.of_N (lenN blob)))
       (slice blob (N.to_nat start) (N.to_nat stop)))]
  else [].

(** What a wake-up leads to: messages for the peer, a new state, a report of interest. *)
Record Served : Type := mkServed { outgoing : list PeerMessage; seeder : Seeder; report : option bool }.

Definition quiet (s : Seeder) : Served := mkServed [] s None.

Definition serve_message (cfg : SeedConfig) (store : option PieceStore) (s : Seeder) (m : PeerMessage) : Served :=
  match m with
  | Extended ext_id payload =>
      if (byte_N ext_id =? 0) && negb (advertised_bitfields s) then
        match store with
        | Some st =>
            let '(sent, edge) := advertise_live_bitfields st in
            mkServed sent (mkSeeder (unchoked s) true edge) None
        | None => quiet (mkSeeder (unchoked s) true (advertised_max s))
        end
      else if byte_N ext_id =? 2 then
        match metadata cfg, UtMetadata.parse payload with
        | Some blob, Some (UtMetadata.Request piece) => mkServed (metadata_reply blob piece) s None
        | _, _ => quiet s
        end
      else quiet s
  | Interested =>
      if coordinated cfg then mkServed [] s (Some true)
      else if unchoked s then quiet s
      else mkServed [Unchoke] (mkSeeder true (advertised_bitfields s) (advertised_max s)) None
  | NotInterested => if coordinated cfg then mkServed [] s (Some false) else quiet s
  | Unknown id payload =>
      if (byte_N id =? 6) && unchoked s then
        mkServed (from_option (λ r, [reply_message r]) [] (prepare_reply m store (Inbound (piece_header cfg)))) s None
      else quiet s
  | Message.Request _ _ _ =>
      if unchoked s then
        mkServed (from_option (λ r, [reply_message r]) [] (prepare_reply m store (Inbound (piece_header cfg)))) s None
      else quiet s
  | _ => quiet s
  end.

(** [rx.changed()] with the value then borrowed. *)
Definition serve_changed (s : Seeder) (want : bool) : Served :=
  if bool_decide (want = unchoked s) then quiet s
  else mkServed [if want then Unchoke else Choke] (mkSeeder want (advertised_bitfields s) (advertised_max s)) None.

Definition serve_poll (store : option PieceStore) (s : Seeder) : Served :=
  let '(sent, s) := advance_live_edge store s in mkServed sent s None.

(** ** All connections of a stream *)

Record Swarm : Type := mkSwarm { coord : ServeCoordinator; sessions : gmap N Seeder }.

Definition swarm_new (max_unchoked : nat) : Swarm := mkSwarm (coordinator_new max_unchoked) ∅.

Inductive SwarmEvent : Type :=
  | Connect
  | Disconnect (id : N)
  | Receive (id : N) (m : PeerMessage)
  | Poll (id : N)
  | Observe (id : N)
  | Rechoke.

Definition to_peer (id : N) (l : list PeerMessage) : list (N * PeerMessage) := map (pair id) l.

Definition served (w : Swarm) (id : N) (r : Served) : Swarm * list (N * PeerMessage) :=
  (mkSwarm (match report r with Some b => set_interested (coord w) id b | None => coord w end)
     (<[id := seeder r]> (sessions w)), to_peer id (outgoing r)).

(** The receiver marks the value it reads as seen. *)
Definition mark_observed (c : ServeCoordinator) (id : N) : ServeCoordinator :=
  mkCoordinator (choker c) (next_id c)
    (mkCoordState (interested (state c)) (alter (λ w, mkWatch (w_value w) false) id (senders (state c)))
       (tick (state c))).

Definition swarm_step (cfg : SeedConfig) (store : option PieceStore) (w : Swarm) (e : SwarmEvent)
    : Swarm * list (N * PeerMessage) :=
  match e with
  | Connect => let '(id, c) := join (coord w) in (mkSwarm c (<[id := seeder_fresh]> (sessions w)), [])
  | Disconnect id =>
      match sessions w !! id with
      | Some _ => (mkSwarm (leave (coord w) id) (delete id (sessions w)), [])
      | None => (w, [])
      end
  | Receive id m =>
      match sessions w !! id with
      | Some s => served w id (serve_message cfg store s m)
      | None => (w, [])
      end
  | Poll id =>
      match sessions w !! id with
      | Some s => served w id (serve_poll store s)
      | None => (w, [])
      end
  | Observe id =>
      match sessions w !! id, senders (state (coord w)) !! id with
      | Some s, Some x =>
          if w_unseen x then served (mkSwarm (mark_observed (coord w) id) (sessions w)) id (serve_changed s (w_value x))
          else (w, [])
      | _, _ => (w, [])
      end
  | Rechoke => (mkSwarm (rechoke (coord w)) (sessions w), [])
  end.

Definition swarm_run (cfg : SeedConfig) (w : Swarm) (evs : list (option PieceStore * SwarmEvent)) : Swarm :=
  fold_left (λ w se, (swarm_step cfg se.1 w se.2).1) evs w.

(** ** The choker *)

Lemma choose_spec k l t : ∃ extra, choose k l t = take (max_unchoked k) l ++ extra ∧
  extra `sublist_of` drop (max_unchoked k) l ∧
  length extra = (if bool_decide (length l ≤ max_unchoked k)%nat then 0 else 1)%nat.
Proof.
  unfold choose. rewrite length_take. destruct (Nat.le_gt_cases (length l) (max_unchoked k)) as [Hle|Hgt].
  - rewrite Nat.min_r, drop_ge, lookup_nil, bool_decide_true by lia. exists [].
    by rewrite app_nil_r, drop_ge.
  - rewrite Nat.min_l, bool_decide_false by lia. set (rest := drop _ _).
    assert (0 < lenN rest) by (unfold lenN, rest; rewrite length_drop; lia).
    destruct (lookup_lt_is_Some_2 rest (N.to_nat (t `mod` lenN rest))) as [p Hp].
    { pose proof (N.mod_lt t (lenN rest)). unfold lenN in *. lia. }
    rewrite Hp. exists [p]. split; [done|]. split; [|done].
    apply singleton_sublist_l. by eapply list_elem_of_lookup_2.
Qed.

Lemma choose_sublist k l t : choose k l t `sublist_of` l.
Proof.
  destruct (choose_spec k l t) as (extra & -> & Hs & _). rewrite <-(take_drop (max_unchoked k) l) at 2.
  by apply sublist_app.
Qed.

Lemma choose_elem k l t p : p ∈ choose k l t → p ∈ l.
Proof. intros Hp. eapply elem_of_submseteq; [exact Hp|]. apply sublist_submseteq, choose_sublist. Qed.

Lemma choose_length k l t : length (choose k l t) = Nat.min (length l) (S (max_unchoked k)).
Proof.
  destruct (choose_spec k l t) as (extra & -> & _ & He). rewrite length_app, length_take, He.
  case_bool_decide; lia.
Qed.

(** Every peer of the tail is the optimistic choice at some tick of a whole rotation. *)
Lemma choose_rotates k l t p : p ∈ l →
  ∃ n, n ≤ N.of_nat (length l - max_unchoked k) ∧ p ∈ choose k l (t + n).
Proof.
  intros Hp. rewrite <-(take_drop (max_unchoked k) l) in Hp. apply elem_of_app in Hp as [Hp|Hp].
  { exists 0. split; [lia|]. destruct (choose_spec k l (t + 0)) as (extra & -> & _). apply elem_of_app. by left. }
  assert (max_unchoked k < length l)%nat as Hlt.
  { destruct (Nat.lt_ge_cases (max_unchoked k) (length l)); [done|]. rewrite drop_ge in Hp by lia. by apply elem_of_nil in Hp. }
  apply list_elem_of_lookup in Hp as [j Hj]. pose proof (lookup_lt_Some _ _ _ Hj) as Hjl. rewrite length_drop in Hjl.
  set (r := N.of_nat (length l - max_unchoked k)). assert (0 < r) by (unfold r; lia).
  exists ((N.of_nat j + (r - t `mod` r)) `mod` r). split.
  { pose proof (N.mod_lt (N.of_nat j + (r - t `mod` r)) r). lia. }
  unfold choose. rewrite length_take, Nat.min_l by lia. unfold lenN. rewrite length_drop. fold r.
  assert ((t + (N.of_nat j + (r - t `mod` r)) `mod` r) `mod` r = N.of_nat j) as ->.
  { rewrite N.Div0.add_mod_idemp_r. pose proof (N.mod_lt t r ltac:(lia)).
    rewrite <-N.Div0.add_mod_idemp_l.
    replace (t `mod` r + (N.of_nat j + (r - t `mod` r))) with (N.of_nat j + 1 * r) by lia.
    rewrite N.Div0.mod_add. apply N.mod_small. unfold r. lia. }
  rewrite Nat2N.id, Hj. apply elem_of_app. right. by apply list_elem_of_singleton.
Qed.

(** ** The coordinator and its connections

    Between steps: interest is reported once, by connected peers; every watch holds the wish of
    the policy; a connection that has seen its watch is choked or unchoked as the watch says. *)
Record SwarmInv (bound : N) (w : Swarm) : Prop := {
  si_nodup : NoDup (interested (state (coord w)));
  si_connected p : p ∈ interested (state (coord w)) → is_Some (senders (state (coord w)) !! p);
  si_sessions : dom (sessions w) = dom (senders (state (coord w)));
  si_fresh p : is_Some (senders (state (coord w)) !! p) → p < next_id (coord w);
  si_bound : next_id (coord w) ≤ bound ∧ tick (state (coord w)) ≤ bound;
  si_wish p x : senders (state (coord w)) !! p = Some x →
    w_value x = bool_decide (p ∈ choose (choker (coord w)) (interested (state (coord w))) (tick (state (coord w))));
  si_wire p x s : senders (state (coord w)) !! p = Some x → sessions w !! p = Some s → w_unseen x = false →
    unchoked s = w_value x;
}.

Lemma swarm_new_inv n : SwarmInv 1 (swarm_new n).
Proof.
  constructor; cbn.
  - constructor.
  - intros p Hp. by apply elem_of_nil in Hp.
  - by rewrite !dom_empty_L.
  - intros p [x Hx]. by simplify_map_eq.
  - lia.
  - intros p x Hx. by simplify_map_eq.
  - intros p x s Hx. by simplify_map_eq.
Qed.

(** Recomputing restores the wishes, and a connection is behind only where its watch changed. *)
Lemma recomputed_inv bound w l ss t sn : SwarmInv bound w →
  NoDup l → (∀ p, p ∈ l → is_Some (ss !! p)) → dom sn = dom ss → t ≤ bound →
  (∀ p x, ss !! p = Some x → senders (state (coord w)) !! p = Some x) →
  (∀ p x s, ss !! p = Some x → sn !! p = Some s → w_unseen x = false → unchoked s = w_value x) →
  SwarmInv bound (mkSwarm (recomputed (coord w) (mkCoordState l ss t)) sn).
Proof.
  intros HI Hn Hc Hd Ht Hss Hw. destruct HI as [_ _ _ Hf [Hb _] _ _].
  assert (∀ p x', senders (state (recomputed (coord w) (mkCoordState l ss t))) !! p = Some x' ↔
    ∃ x, ss !! p = Some x ∧ x' = watch_send (bool_decide (p ∈ choose (choker (coord w)) l t)) x) as Hl.
  { intros p x'. cbn. rewrite map_lookup_imap. destruct (ss !! p); cbn; naive_solver. }
  constructor; cbn [coord sessions]; try done.
  - intros p Hp. destruct (Hc p Hp) as [x Hx]. eexists. apply Hl. exists x. by split.
  - rewrite Hd. apply set_eq. intros p. rewrite !elem_of_dom. split.
    + intros [x Hx]. eexists. apply Hl. exists x. by split.
    + intros [x' (x & Hx & _)%Hl]. by exists x.
  - intros p [x' (x & Hx & _)%Hl]. apply Hf. exists x. by apply Hss.
  - intros p x' (x & Hx & ->)%Hl. unfold watch_send. by case_bool_decide.
  - intros p x' s (x & Hx & ->)%Hl Hs. unfold watch_send. case_bool_decide; [|done]. by apply (Hw p).
Qed.

Lemma remove_peer_spec p l : NoDup l → NoDup (remove_peer p l) ∧ ∀ q, q ∈ remove_peer p l ↔ q ∈ l ∧ q ≠ p.
Proof.
  intros Hn. unfold remove_peer. destruct (position p l) as [i|] eqn:E.
  - apply position_Some in E as (l1 & l2 & -> & <- & _). rewrite delete_middle.
    apply NoDup_app in Hn as (H1 & H12 & [Hp H2]%NoDup_cons). split.
    + apply NoDup_app. split_and!; [done| |done]. intros x Hx. specialize (H12 x Hx). set_solver.
    + intros q. specialize (H12 q). set_solver.
  - split; [done|]. intros q. split; [|by intros [? _]]. intros Hq. split; [done|]. intros ->.
    by apply position_None in E.
Qed.

Lemma set_interested_inv bound w id b sn : SwarmInv bound w →
  is_Some (senders (state (coord w)) !! id) → dom sn = dom (sessions w) →
  (∀ p x s, senders (state (coord w)) !! p = Some x → sn !! p = Some s → w_unseen x = false →
     unchoked s = w_value x) →
  SwarmInv bound (mkSwarm (set_interested (coord w) id b) sn).
Proof.
  intros HI Hid Hd Hw. pose proof HI as [Hn Hc Hs Hf [_ Ht] _ _]. unfold set_interested.
  set (l := match b with true => _ | false => _ end).
  assert (NoDup l ∧ ∀ p, p ∈ l → p = id ∨ p ∈ interested (state (coord w))) as [Hnl Hl].
  { unfold l. destruct (remove_peer_spec id _ Hn) as [Hr1 Hr2]. unfold remove_peer in Hr1, Hr2.
    destruct b; destruct (position id _) as [i|] eqn:E; [by split; [|auto]| |by split; [|naive_solver]|by split; [|auto]].
    apply position_None in E. split.
    - apply NoDup_app. split_and!; [done|set_solver|by apply NoDup_singleton].
    - intros p. rewrite elem_of_app, list_elem_of_singleton. naive_solver. }
  apply recomputed_inv; try done.
  - intros p [->|Hp]%Hl; auto.
  - by rewrite Hd, Hs.
Qed.

(** A reaction of one connection leaves its choke state alone or follows its watch. *)
Lemma served_inv bound w id s r : SwarmInv bound w → sessions w !! id = Some s → unchoked (seeder r) = unchoked s →
  SwarmInv bound (served w id r).1.
Proof.
  intros HI Hs Hu. pose proof HI as [Hn Hc Hd Hf Hb Hwi Hw].
  assert (is_Some (senders (state (coord w)) !! id)) as Hid by (rewrite <-elem_of_dom, <-Hd, elem_of_dom; by exists s).
  assert (dom (<[id:=seeder r]> (sessions w)) = dom (sessions w)) as Hdom
    by (apply dom_insert_lookup_L; by exists s).
  assert (∀ p x s', senders (state (coord w)) !! p = Some x → <[id:=seeder r]> (sessions w) !! p = Some s' →
    w_unseen x = false → unchoked s' = w_value x) as Hw'.
  { intros p x s' Hx [[<- <-]|[_ Hs']]%lookup_insert_Some; [rewrite Hu|]; eauto. }
  unfold served. cbn [fst]. destruct (report r).
  - by apply set_interested_inv.
  - constructor; cbn [coord sessions]; try done. by rewrite Hdom.
Qed.

Lemma serve_message_choke cfg store s m : coordinated cfg = true → unchoked (seeder (serve_message cfg store s m)) = unchoked s.
Proof.
  intros Hc. unfold serve_message. rewrite Hc. destruct m; try done; repeat case_match; done.
Qed.

Lemma serve_poll_choke store s : unchoked (seeder (serve_poll store s)) = unchoked s.
Proof.
  unfold serve_poll, advance_live_edge. destruct store; [|done]. destruct (advertised_bitfields s); [|done].
  by destruct (fold_left _ _ _).
Qed.

Lemma inv_weaken b b' w : SwarmInv b w → b ≤ b' → SwarmInv b' w.
Proof. intros [] Hb. constructor; try done. lia. Qed.

Lemma join_inv bound w : SwarmInv bound w → bound + 1 < two64 →
  let '(id, c) := join (coord w) in SwarmInv (bound + 1) (mkSwarm c (<[id := seeder_fresh]> (sessions w))).
Proof.
  intros HI Hb. destruct HI as [Hn Hc Hs Hf [Hb1 Hb2] Hwi Hw]. unfold join.
  set (id := next_id (coord w)) in *.
  assert (senders (state (coord w)) !! id = None) as Hnone.
  { apply eq_None_not_Some. intros H%Hf. lia. }
  constructor; cbn [coord sessions choker next_id state interested senders tick]; try done.
  - intros p Hp. destruct (decide (p = id)) as [->|Hne]; [rewrite lookup_insert_eq; eauto|].
    rewrite lookup_insert_ne by done. auto.
  - by rewrite !dom_insert_L, Hs.
  - intros p Hp. rewrite u64_add_small by lia. destruct (decide (p = id)) as [->|Hne]; [lia|].
    rewrite lookup_insert_ne in Hp by done. specialize (Hf p Hp). lia.
  - rewrite u64_add_small by lia. lia.
  - intros p x [[<- <-]|[_ Hx]]%lookup_insert_Some; [|auto]. cbn. symmetry. apply bool_decide_eq_false.
    intros Hin. apply choose_elem, Hc in Hin as [x Hx].
    by rewrite Hnone in Hx.
  - intros p x s [[<- <-]|[Hne Hx]]%lookup_insert_Some; [rewrite lookup_insert_eq; by intros [= <-]|].
    rewrite lookup_insert_ne by done. eauto.
Qed.

Lemma leave_inv bound w id : SwarmInv bound w → SwarmInv bound (mkSwarm (leave (coord w) id) (delete id (sessions w))).
Proof.
  intros HI. pose proof HI as [Hn Hc Hs Hf [_ Ht] _ Hw]. destruct (remove_peer_spec id _ Hn) as [Hr1 Hr2].
  apply recomputed_inv; try done.
  - intros p [Hp Hne]%Hr2. rewrite lookup_delete_ne by done. auto.
  - by rewrite !dom_delete_L, Hs.
  - by intros p x [_ ?]%lookup_delete_Some.
  - intros p x s [Hne Hx]%lookup_delete_Some [_ Hs']%lookup_delete_Some. eauto.
Qed.

Lemma rechoke_inv bound w : SwarmInv bound w → bound + 1 < two64 →
  SwarmInv (bound + 1) (mkSwarm (rechoke (coord w)) (sessions w)).
Proof.
  intros HI Hb. pose proof HI as [Hn Hc Hs Hf [_ Ht] _ Hw]. apply recomputed_inv; try done.
  - eapply inv_weaken; [exact HI|lia].
  - rewrite u64_add_small by lia. lia.
Qed.

Lemma observe_inv bound w id s x : SwarmInv bound w → sessions w !! id = Some s →
  senders (state (coord w)) !! id = Some x →
  SwarmInv bound (served (mkSwarm (mark_observed (coord w) id) (sessions w)) id (serve_changed s (w_value x))).1.
Proof.
  intros [Hn Hc Hs Hf Hb Hwi Hw] Hsn Hx. unfold served. cbn [fst].
  assert (report (serve_changed s (w_value x)) = None) as -> by (unfold serve_changed; by case_bool_decide).
  assert (∀ p, is_Some (alter (λ w, mkWatch (w_value w) false) id (senders (state (coord w))) !! p) ↔
    is_Some (senders (state (coord w)) !! p)) as Hsome by (intros p; by rewrite lookup_alter_is_Some).
  constructor; cbn [coord sessions mark_observed choker next_id state interested senders tick]; try done.
  - intros p Hp. apply Hsome. auto.
  - rewrite dom_insert_lookup_L, dom_alter_L by eauto. done.
  - intros p Hp%Hsome. auto.
  - intros p y [(<- & z & Hz & ->)|[_ Hy]]%lookup_alter_Some; cbn; auto.
  - intros p y t [(<- & z & Hz & ->)|[Hne Hy]]%lookup_alter_Some.
    + rewrite lookup_insert_eq. intros [= <-] _. rewrite Hx in Hz. simplify_eq. cbn [w_value].
      unfold serve_changed. case_bool_decide; cbn; congruence.
    + rewrite lookup_insert_ne by done. eauto.
Qed.

Lemma swarm_step_inv cfg bound store w e : coordinated cfg = true → SwarmInv bound w → bound + 1 < two64 →
  SwarmInv (bound + 1) (swarm_step cfg store w e).1.
Proof.
  intros Hc HI Hb. pose proof (inv_weaken _ (bound + 1) _ HI ltac:(lia)) as HI'. destruct e as [|id|id m|id|id|]; cbn [swarm_step].
  - by apply join_inv.
  - destruct (sessions w !! id); [by apply leave_inv|done].
  - destruct (sessions w !! id) as [s|] eqn:E; [|done]. eapply served_inv; [done|exact E|by apply serve_message_choke].
  - destruct (sessions w !! id) as [s|] eqn:E; [|done]. eapply served_inv; [done|exact E|by apply serve_poll_choke].
  - destruct (sessions w !! id) as [s|] eqn:E; [|done]. destruct (senders _ !! id) as [x|] eqn:Ex; [|done].
    destruct (w_unseen x); [by apply observe_inv|done].
  - by apply rechoke_inv.
Qed.

Lemma swarm_run_inv cfg bound w evs : coordinated cfg = true → SwarmInv bound w → bound + lenN evs < two64 →
  SwarmInv (bound + lenN evs) (swarm_run cfg w evs).
Proof.
  intros Hc. revert bound w. induction evs as [|[store e] evs IH]; intros bound w HI Hb; cbn [swarm_run fold_left].
  - eapply inv_weaken; [done|lia].
  - unfold lenN in *. cbn [length] in *. replace (bound + N.of_nat (S (length evs))) with (bound + 1 + N.of_nat (length evs)) in * by lia.
    apply IH; [|done]. apply swarm_step_inv; [done|done|lia].
Qed.

Lemma swarm_step_choker cfg store w e : choker (coord (swarm_step cfg store w e).1) = choker (coord w).
Proof.
  destruct e as [|id|id m|id|id|]; cbn [swarm_step]; try done; destruct (sessions w !! id); try done.
  - unfold served. cbn. by destruct (report _).
  - unfold served. cbn. by destruct (report _).
  - destruct (senders _ !! id); [|done]. destruct (w_unseen _); [|done]. unfold served. cbn. by destruct (report _).
Qed.

Lemma swarm_run_choker cfg w evs : choker (coord (swarm_run cfg w evs)) = choker (coord w).
Proof.
  revert w. induction evs as [|[store e] evs IH]; intros w; cbn [swarm_run fold_left]; [done|].
  etrans; [apply IH|]. apply swarm_step_choker.
Qed.

Lemma rechokes_run cfg k w : tick (state (coord w)) + N.of_nat k < two64 →
  let w' := swarm_run cfg w (replicate k (None, Rechoke)) in
  interested (state (coord w')) = interested (state (coord w)) ∧
  tick (state (coord w')) = tick (state (coord w)) + N.of_nat k ∧ sessions w' = sessions w.
Proof.
  revert w. induction k as [|k IH]; intros w Hk; cbn [replicate swarm_run fold_left].
  { split_and!; [done|lia|done]. }
  destruct (IH (swarm_step cfg None w Rechoke).1) as (E1 & E2 & E3).
  { cbn. rewrite u64_add_small; lia. }
  cbv zeta. rewrite Nat2N.inj_succ. split_and!; [exact E1| |exact E3].
  etrans; [exact E2|]. cbn. rewrite u64_add_small; lia.
Qed.

(** The wish of every watch as a set of peers. *)
Definition wished (c : ServeCoordinator) : gset N := dom (filter (λ kx, w_value kx.2 = true) (senders (state c))).

(** The connections that are unchoked and have nothing to observe. *)
Definition open_connections (w : Swarm) : gset N :=
  dom (filter (λ ks, unchoked ks.2 = true ∧ w_unseen <$> senders (state (coord w)) !! ks.1 = Some false) (sessions w)).

Lemma wished_spec b w : SwarmInv b w →
  wished (coord w) = list_to_set (choose (choker (coord w)) (interested (state (coord w))) (tick (state (coord w)))).
Proof.
  intros HI. apply set_eq. intros p. unfold wished. rewrite elem_of_dom, elem_of_list_to_set. split.
  - intros [x [Hx Hv]%map_lookup_filter_Some]. cbn in Hv. rewrite (si_wish _ _ HI _ _ Hx) in Hv. by apply bool_decide_eq_true in Hv.
  - intros Hp. destruct (si_connected _ _ HI p) as [x Hx]; [by eapply choose_elem|]. exists x.
    apply map_lookup_filter_Some. split; [done|]. cbn. rewrite (si_wish _ _ HI _ _ Hx). by apply bool_decide_eq_true.
Qed.

Lemma open_wished b w : SwarmInv b w → open_connections w ⊆ wished (coord w).
Proof.
  intros HI p. unfold open_connections, wished. rewrite !elem_of_dom. intros [s [Hs [Hu Hv]]%map_lookup_filter_Some].
  cbn in Hu, Hv. apply fmap_Some in Hv as (x & Hx & Hn). exists x. apply map_lookup_filter_Some. split; [done|]. cbn.
  rewrite <-Hu. symmetry. by apply (si_wire _ _ HI p).
Qed.

(** ** Theorems on the slots *)

(** C40: the upload slots of a stream are exactly used.  After any sequence of connections, messages,
    observations and rechokes the coordinator of a stream that is coordinated wishes to unchoke exactly
    min(interested, slots + 1) peers (the configured slots and an optimistic one), all interested, among them always
    the first in the order of interest up to the configured slots; and the connections that have seen their last signal
    and are unchoked are among them. *)
Theorem unchoke_slots_bounded cfg n evs :
  coordinated cfg = true → lenN evs + 1 < two64 →
  let w := swarm_run cfg (swarm_new n) evs in
  let queue := interested (state (coord w)) in
  size (wished (coord w)) = Nat.min (length queue) (S n) ∧ NoDup queue ∧
  (∀ p, p ∈ wished (coord w) → p ∈ queue) ∧ (∀ p, p ∈ take n queue → p ∈ wished (coord w)) ∧
  open_connections w ⊆ wished (coord w).
Proof.
  intros Hc Hl w queue. assert (SwarmInv (1 + lenN evs) w) as HI by (apply swarm_run_inv; [done|apply swarm_new_inv|lia]).
  rewrite (wished_spec _ _ HI). assert (choker (coord w) = mkChoker n) as -> by apply swarm_run_choker.
  assert (NoDup queue) as Hn by apply HI. split_and!; [|done| | |].
  - rewrite size_list_to_set; [apply choose_length|]. by eapply sublist_NoDup; [|apply choose_sublist].
  - intros p. rewrite elem_of_list_to_set. apply choose_elem.
  - intros p Hp. apply elem_of_list_to_set. destruct (choose_spec (mkChoker n) queue (tick (state (coord w)))) as (x & E & _).
    unfold queue in E. rewrite E. apply elem_of_app. by left.
  - pose proof (open_wished _ _ HI) as Ho. rewrite (wished_spec _ _ HI) in Ho.
    by replace (choker (coord w)) with (mkChoker n) in Ho by (symmetry; apply swarm_run_choker).
Qed.

(** no interested peer is starved.  In every reachable state, a peer that stays interested is unchoked,
    and told so, within as many rechokes as there are peers waiting beyond the configured slots. *)
Theorem optimistic_rotation_fair cfg n evs p :
  coordinated cfg = true →
  let w := swarm_run cfg (swarm_new n) evs in
  let waiting := (length (interested (state (coord w))) - n)%nat in
  lenN evs + N.of_nat waiting + 2 < two64 → p ∈ interested (state (coord w)) →
  ∃ k s, (k ≤ waiting)%nat ∧
    sessions (swarm_run cfg w (replicate k (None, Rechoke) ++ [(None, Observe p)])) !! p = Some s ∧ unchoked s = true.
Proof.
  intros Hc w waiting Hl Hp. assert (SwarmInv (1 + lenN evs) w) as HI by (apply swarm_run_inv; [done|apply swarm_new_inv|lia]).
  destruct (choose_rotates (choker (coord w)) _ (tick (state (coord w))) p Hp) as (m & Hm & Hin).
  replace (max_unchoked (choker (coord w))) with n in Hm by (symmetry; unfold w; by rewrite swarm_run_choker).
  fold waiting in Hm. exists (N.to_nat m).
  set (w1 := swarm_run cfg w (replicate (N.to_nat m) (None, Rechoke))).
  pose proof (proj2 (si_bound _ _ HI)) as Ht.
  destruct (rechokes_run cfg (N.to_nat m) w) as (E1 & E2 & E3); [lia|]. cbv zeta in *. fold w1 in E1, E2, E3.
  assert (SwarmInv (1 + lenN evs + lenN (replicate (N.to_nat m) (@None PieceStore, Rechoke))) w1) as HI1.
  { apply swarm_run_inv; [done|done|]. unfold lenN in *. rewrite length_replicate. lia. }
  destruct (si_connected _ _ HI1 p) as [x Hx]; [by rewrite E1|].
  assert (w_value x = true) as Hv.
  { rewrite (si_wish _ _ HI1 _ _ Hx), E1, E2, N2Nat.id. apply bool_decide_eq_true.
    replace (choker (coord w1)) with (choker (coord w)) by (symmetry; apply swarm_run_choker). done. }
  assert (is_Some (sessions w1 !! p)) as [s Hs] by (rewrite <-elem_of_dom, (si_sessions _ _ HI1), elem_of_dom; eauto).
  unfold swarm_run at 1. rewrite fold_left_app. fold (swarm_run cfg w (replicate (N.to_nat m) (None, Rechoke))). fold w1.
  cbn [fold_left swarm_step fst snd]. rewrite Hs, Hx. destruct (w_unseen x) eqn:Eu.
  - exists (seeder (serve_changed s (w_value x))). split; [lia|]. unfold served. cbn [fst sessions]. rewrite lookup_insert_eq.
    split; [done|]. unfold serve_changed. rewrite Hv. by case_bool_decide.
  - exists s. split; [lia|]. split; [done|]. by rewrite (si_wire _ _ HI1 p x s Hx Hs Eu).
Qed.

(** ** One connection over time *)

Inductive Wake : Type :=
  | WMessage (m : PeerMessage)
  | WPoll
  | WChanged (want : bool).

Definition wake_up (cfg : SeedConfig) (store : option PieceStore) (s : Seeder) (k : Wake) : Served :=
  match k with
  | WMessage m => serve_message cfg store s m
  | WPoll => serve_poll store s
  | WChanged want => serve_changed s want
  end.

(** The connection after a sequence of wake-ups, with everything it sent, turn by turn. *)
Fixpoint seed_run (cfg : SeedConfig) (s : Seeder) (evs : list (option PieceStore * Wake)) : list (list PeerMessage) * Seeder :=
  match evs with
  | [] => ([], s)
  | (store, k) :: evs =>
      let r := wake_up cfg store s k in
      let '(sent, s) := seed_run cfg (seeder r) evs in (outgoing r :: sent, s)
  end.

(** The pieces a receiver learns from a message: the set bits of a live bitfield, a live HAVE. *)
Definition announces (m : PeerMessage) : list N :=
  match m with
  | Bitfield b =>
      map (N.add (be_N (slice b 4 8))) (List.filter (has_bit (drop 12 b)) (range 0 (be_N (slice b 8 12))))
  | Unknown id b => if byte_N id =? 4 then [be_N (slice b 4 8)] else []
  | _ => []
  end.

Definition told (sent : list PeerMessage) : list N := concat (map announces sent).

Example seeder_example :
  let st7 := put_chunk (put_chunk (new 8 4 100) 0 7 0 (bs "aaaa")) 0 7 1 (bs "bbbb") in
  let st8 := put_chunk (put_chunk st7 0 8 0 (bs "cccc")) 0 8 1 (bs "dddd") in
  let cfg := mkSeedConfig None (bs "fallback") false in
  map told (seed_run cfg seeder_fresh
    [(Some st7, WPoll); (Some st7, WMessage (Message.Extended x00 [])); (Some st7, WPoll); (Some st8, WPoll);
     (Some st8, WPoll)]).1 = [[]; [7]; []; [8]; []].
Proof. vm_compute. reflexivity. Qed.

Lemma header_fields a b r : a < two32 → b < two32 →
  let l := replicate 4 x00 ++ u32_be a ++ u32_be b ++ r in
  be_N (slice l 4 8) = a ∧ be_N (slice l 8 12) = b ∧ drop 12 l = r.
Proof.
  intros Ha Hb l. assert (slice l 4 8 = u32_be a) as ->.
  { pose proof (slice_app_mid (replicate 4 x00) (u32_be a) (u32_be b ++ r)) as E. by rewrite u32_be_length in E. }
  assert (slice l 8 12 = u32_be b) as ->.
  { pose proof (slice_app_mid (replicate 4 x00 ++ u32_be a) (u32_be b) r) as E. unfold l.
    rewrite <-app_assoc in E. by rewrite length_app, !u32_be_length in E. }
  split_and!; [by apply u32_be_roundtrip, N.ltb_lt..|].
  unfold l. rewrite !app_assoc. apply drop_app_length'. by rewrite !length_app, !u32_be_length.
Qed.

Lemma announces_run a b : a ≤ b → b + 1 < two32 → announces (run_bitfield (a, b)) = range a (b - a + 1).
Proof.
  intros Hab Hb. unfold run_bitfield, live_bitfield, announces. cbn [fst snd].
  rewrite N.mod_small, N.min_l by lia.
  destruct (header_fields a (b - a + 1) (live_bits (b - a + 1))) as (-> & -> & ->); [lia|lia|].
  assert (List.filter (has_bit (live_bits (b - a + 1))) (range 0 (b - a + 1)) = range 0 (b - a + 1)) as ->.
  { apply forallb_filter_id, forallb_forall. intros k Hk%list_elem_of_In%elem_of_range.
    rewrite live_bits_exact; [apply N.ltb_lt; lia|]. rewrite live_bits_length.
    unfold div_ceil. pose proof (N.div_mod (b - a + 1) 8 ltac:(lia)). pose proof (N.mod_lt (b - a + 1) 8 ltac:(lia)).
    destruct (N.eqb_spec ((b - a + 1) `mod` 8) 0); lia. }
  unfold range. rewrite map_map. apply map_ext. intros k. lia.
Qed.

Lemma announces_have p : p < two32 → announces (live_have (p `mod` two32)) = [p].
Proof.
  intros Hp. unfold live_have, announces. rewrite byte_N_of_N by lia. cbn [N.eqb Pos.eqb].
  rewrite N.mod_small by done. f_equal.
  pose proof (slice_app_mid (replicate 4 x00) (u32_be p) []) as E. rewrite u32_be_length, app_nil_r in E.
  etrans; [apply (f_equal be_N E)|]. by apply u32_be_roundtrip, N.ltb_lt.
Qed.

Lemma told_app l1 l2 : told (l1 ++ l2) = told l1 ++ told l2.
Proof. unfold told. by rewrite map_app, concat_app. Qed.

Lemma range_one a : range a 1 = [a].
Proof. apply (range_cons a 0). Qed.

Lemma runs_told a b l : a ≤ b → StronglySorted N.lt (b :: l) → Forall (λ p, p + 1 < two32) (b :: l) →
  told (map run_bitfield (runs_from a b l)) = range a (b - a + 1) ++ l.
Proof.
  revert a b. induction l as [|next l IH]; intros a b Hab Hs Hf; cbn [runs_from].
  { unfold told. cbn [map concat]. apply Forall_inv in Hf. by rewrite app_nil_r, announces_run, app_nil_r. }
  apply StronglySorted_inv in Hs as [Hs Hb]. apply Forall_inv in Hb as Hlt.
  apply Forall_cons in Hf as [Hf1 Hf]. rewrite u64_add_small by lia. destruct (N.eqb_spec next (b + 1)) as [->|Hne].
  - rewrite IH by (done || lia). replace (b + 1 - a + 1) with ((b - a + 1) + 1) by lia.
    rewrite range_app, <-app_assoc. replace (a + (b - a + 1)) with (b + 1) by lia. by rewrite range_one.
  - cbn [map]. rewrite <-(app_nil_l (map _ _)), app_comm_cons, told_app, IH by (done || lia).
    rewrite N.sub_diag, range_one. unfold told at 1. cbn [map concat]. by rewrite app_nil_r, announces_run.
Qed.

Lemma announce_fold l sent edge : StronglySorted N.lt l →
  fold_left announce_have l (sent, edge) =
    (sent ++ map (λ p, live_have (p `mod` two32)) (List.filter (above edge) l),
     match last (List.filter (above edge) l) with Some p => Some p | None => edge end).
Proof.
  revert sent edge. induction l as [|p l IH]; intros sent edge Hs; cbn [fold_left List.filter].
  { by rewrite app_nil_r. }
  apply StronglySorted_inv in Hs as [Hs Hp]. unfold announce_have at 2. destruct (above edge p) eqn:E.
  - assert (∀ e, (∀ q, q ∈ l → above e q = true) → List.filter (above e) l = l) as Hall.
    { intros e He. apply forallb_filter_id, forallb_forall. intros q Hq. by apply He, list_elem_of_In. }
    rewrite Forall_forall in Hp. rewrite IH, !Hall; [|intros q Hq; specialize (Hp q Hq)|intros q Hq; specialize (Hp q Hq)|done].
    + cbn [map]. rewrite <-app_assoc, last_cons. by destruct (last l).
    + unfold above in *. destruct edge; [|done]. apply N.ltb_lt in E. apply N.ltb_lt. lia.
    + by apply N.ltb_lt.
  - rewrite IH by done. done.
Qed.

(** The stores the pieces of which fit the wire's 32-bit numbers. *)
Definition numbered (store : option PieceStore) : Prop :=
  ∀ st p, store = Some st → has_piece st p = true → p + 1 < two32.

Lemma numbered_check st : forallb (λ p, p + 1 <? two32) (have_pieces st) = true → numbered (Some st).
Proof.
  intros Hf st' p [= <-] Hp%elem_of_have_pieces%list_elem_of_In. rewrite forallb_forall in Hf. by apply N.ltb_lt, Hf.
Qed.

Definition last_or {A} (l : list A) (d : option A) : option A := match last l with Some x => Some x | None => d end.

(** One wake-up: what it announces is complete, ascending and above everything announced before. *)
Record Announced (store : option PieceStore) (s : Seeder) (l : list N) (s' : Seeder) : Prop := {
  an_sorted : StronglySorted N.lt l;
  an_above : Forall (λ p, above (advertised_max s) p = true) l;
  an_held p : p ∈ l → ∃ st, store = Some st ∧ has_piece st p = true;
  an_edge : advertised_max s' = last_or l (advertised_max s);
  an_booted : (advertised_bitfields s = true → advertised_bitfields s' = true) ∧
    (advertised_bitfields s' = false → advertised_max s' = None);
}.

Lemma announced_nothing store s s' : advertised_max s' = advertised_max s → advertised_bitfields s' = advertised_bitfields s →
  (advertised_bitfields s = false → advertised_max s = None) → Announced store s [] s'.
Proof.
  intros E1 E2 H. constructor; try done.
  - constructor.
  - intros p Hp. by apply elem_of_nil in Hp.
  - rewrite E1, E2. by split.
Qed.

Lemma advertise_announced st s : numbered (Some st) → advertised_max s = None →
  Announced (Some st) s (told (advertise_live_bitfields st).1) (mkSeeder (unchoked s) true (advertise_live_bitfields st).2).
Proof.
  intros Hn He. assert (told (advertise_live_bitfields st).1 = have_pieces st) as ->.
  { pose proof (have_pieces_sorted st) as Hs. pose proof (elem_of_have_pieces st) as Hh.
    unfold advertise_live_bitfields. cbn [fst]. destruct (have_pieces st) as [|p l]; [done|].
    rewrite runs_told, N.sub_diag, range_one; [done|lia|done|].
    apply Forall_forall. intros q Hq. apply (Hn st); [done|]. by apply Hh. }
  unfold advertise_live_bitfields. cbn [snd]. constructor; cbn [advertised_max advertised_bitfields]; try done.
  - apply have_pieces_sorted.
  - apply Forall_forall. by rewrite He.
  - intros p Hp%elem_of_have_pieces. by exists st.
  - unfold last_or. by rewrite He; destruct (last _).
Qed.

Lemma advance_announced store s : numbered store → advertised_bitfields s = true →
  Announced store s (told (advance_live_edge store s).1) (advance_live_edge store s).2.
Proof.
  intros Hn Hb. unfold advance_live_edge. rewrite Hb. destruct store as [st|]; [|apply announced_nothing; [done|done|by rewrite Hb]].
  pose proof (have_pieces_sorted st) as Hs. rewrite announce_fold, app_nil_l by done. cbn [fst snd].
  set (l := List.filter _ _).
  assert (∀ p, p ∈ l → p ∈ have_pieces st ∧ above (advertised_max s) p = true) as Hl
    by (intros p [Hp ?]%list_elem_of_In%filter_In; by rewrite list_elem_of_In).
  assert (told (map (λ p, live_have (p `mod` two32)) l) = l) as ->.
  { assert (Forall (λ p, p < two32) l) as Hf.
    { apply Forall_forall. intros p [Hp%elem_of_have_pieces _]%Hl. specialize (Hn st p eq_refl Hp). lia. }
    clear Hl. induction Hf as [|p r Hp Hr IH]; [done|]. unfold told in *. cbn [map concat]. by rewrite announces_have, IH. }
  constructor; cbn [advertised_max advertised_bitfields]; try done.
  - unfold l. eapply sublist_StronglySorted; [exact Hs|]. apply filter_sublist.
  - apply Forall_forall. intros p Hp. by apply Hl.
  - intros p [Hp%elem_of_have_pieces _]%Hl. by exists st.
Qed.

Lemma prepare_reply_piece m store profile r : prepare_reply m store profile = Some r →
  ∃ index begin block, reply_message r = Piece index begin block.
Proof.
  unfold prepare_reply. intros (st & _ & H)%bind_Some. destruct m; try done.
  - destruct (is_inbound profile); [|done]. apply bind_Some in H as (b & _ & [= <-]). cbn. eauto.
  - destruct (_ && _); [|done]. apply bind_Some in H as ([data stored] & _ & H).
    destruct (live_coordinates _ _ _) as [stream header]. injection H as <-. cbn. eauto.
Qed.

Lemma reply_told m store profile : told (from_option (λ r, [reply_message r]) [] (prepare_reply m store profile)) = [].
Proof.
  destruct (prepare_reply m store profile) as [r|] eqn:E; [|done].
  destruct (prepare_reply_piece _ _ _ _ E) as (a & b & c & Hr). cbn. by rewrite Hr.
Qed.

Ltac announce_none :=
  apply announced_nothing;
  [done|done|repeat match goal with E : advertised_bitfields _ = _ |- _ => rewrite E end; (done || auto)].

Lemma wake_announced cfg store s k : numbered store → (advertised_bitfields s = false → advertised_max s = None) →
  Announced store s (told (outgoing (wake_up cfg store s k))) (seeder (wake_up cfg store s k)).
Proof.
  intros Hn Hb. destruct k as [m| |want]; cbn [wake_up].
  - unfold serve_message. destruct m; try announce_none.
    + destruct (coordinated cfg), (unchoked s); announce_none.
    + destruct (coordinated cfg); announce_none.
    + destruct (unchoked s); cbn [outgoing seeder]; rewrite ?reply_told; announce_none.
    + destruct (advertised_bitfields s) eqn:Ea; cbn [negb]; [rewrite andb_false_r|rewrite andb_true_r].
      * destruct (_ =? 2); [|announce_none].
        destruct (metadata cfg) as [blob|], (UtMetadata.parse payload) as [[]|]; try announce_none.
        cbn [outgoing seeder]. unfold metadata_reply. destruct (_ <? _); announce_none.
      * destruct (_ =? 0).
        -- destruct store as [st|].
           ++ pose proof (advertise_announced st s Hn (Hb eq_refl)). by destruct (advertise_live_bitfields st).
           ++ constructor; cbn; try done; [constructor|]. intros p Hp. by apply elem_of_nil in Hp.
        -- destruct (_ =? 2); [|announce_none].
           destruct (metadata cfg) as [blob|], (UtMetadata.parse payload) as [[]|]; try announce_none.
           cbn [outgoing seeder]. unfold metadata_reply. destruct (_ <? _); announce_none.
    + destruct (_ && _); cbn [outgoing seeder]; rewrite ?reply_told; announce_none.
  - unfold serve_poll. destruct (advertised_bitfields s) eqn:Ea.
    + pose proof (advance_announced store s Hn Ea). by destruct (advance_live_edge store s).
    + unfold advance_live_edge. rewrite Ea. destruct store; announce_none.
  - unfold serve_changed. case_bool_decide; [announce_none|]. destruct want; announce_none.
Qed.

Lemma last_or_app {A} (l1 l2 : list A) d : last_or (l1 ++ l2) d = last_or l2 (last_or l1 d).
Proof. unfold last_or. rewrite last_app. by destruct (last l2). Qed.

Lemma sorted_app_above l1 l2 edge : StronglySorted N.lt l1 → StronglySorted N.lt l2 →
  Forall (λ p, above edge p = true) l1 → Forall (λ p, above (last_or l1 edge) p = true) l2 →
  StronglySorted N.lt (l1 ++ l2) ∧ Forall (λ p, above edge p = true) (l1 ++ l2).
Proof.
  revert edge. induction l1 as [|x l1 IH]; intros edge H1 H2 Ha1 Ha2; [done|].
  apply StronglySorted_inv in H1 as [H1 Hx]. apply Forall_cons in Ha1 as [Hxe Ha1].
  assert (last_or (x :: l1) edge = last_or l1 (Some x)) as El by (unfold last_or; rewrite last_cons; by destruct (last l1)).
  rewrite El in Ha2. destruct (IH (Some x) H1 H2) as [Hs Hf].
  { eapply Forall_impl; [exact Hx|]. intros y Hy. by apply N.ltb_lt. }
  { done. }
  split; cbn [app]; constructor; try done.
  - eapply Forall_impl; [exact Hf|]. intros y Hy. by apply N.ltb_lt.
  - eapply Forall_impl; [exact Hf|]. intros y Hy. apply N.ltb_lt in Hy. destruct edge; [|done].
    cbn in *. apply N.ltb_lt in Hxe. apply N.ltb_lt. lia.
Qed.

Lemma run_announced cfg s evs : Forall (λ e, numbered e.1) evs →
  (advertised_bitfields s = false → advertised_max s = None) →
  let sent := (seed_run cfg s evs).1 in let s' := (seed_run cfg s evs).2 in
  let all := concat (map told sent) in
  (StronglySorted N.lt all ∧ Forall (λ p, above (advertised_max s) p = true) all) ∧
  advertised_max s' = last_or all (advertised_max s) ∧
  (advertised_bitfields s' = false → advertised_max s' = None) ∧
  (advertised_bitfields s = true → advertised_bitfields s' = true) ∧
  ∀ i l p, sent !! i = Some l → p ∈ told l → ∃ st k, evs !! i = Some (Some st, k) ∧ has_piece st p = true.
Proof.
  intros Hn. revert s. induction Hn as [|[store k] evs Hn Hr IH]; intros s Hb; cbn [seed_run].
  { cbn. split_and!; try done; constructor. }
  destruct (wake_announced cfg store s k Hn Hb) as [Hs Ha Hh He [Hb1 Hb2]].
  specialize (IH (seeder (wake_up cfg store s k)) Hb2). cbv zeta in IH |- *.
  destruct (seed_run cfg (seeder (wake_up cfg store s k)) evs) as [sent s']. cbn [fst snd map concat] in *.
  destruct IH as ([I1 I2] & I3 & I4 & I5 & I6). rewrite He in I2, I3. split_and!.
  - by apply (sorted_app_above _ _ (advertised_max s)).
  - by apply (sorted_app_above _ _ (advertised_max s)).
  - by rewrite last_or_app.
  - done.
  - auto.
  - intros [|i] l p; cbn.
    + intros [= <-] (st & -> & Hp)%Hh. eauto.
    + apply I6.
Qed.

Lemma seed_run_snoc cfg s evs store k :
  (seed_run cfg s (evs ++ [(store, k)])).2 = seeder (wake_up cfg store (seed_run cfg s evs).2 k).
Proof.
  revert s. induction evs as [|[store' k'] evs IH]; intros s; cbn [app seed_run]; [done|].
  specialize (IH (seeder (wake_up cfg store' s k'))). destruct (seed_run _ _ (evs ++ _)), (seed_run _ _ evs). done.
Qed.

Lemma last_sorted_ge l p : StronglySorted N.lt l → p ∈ l → ∃ m, last l = Some m ∧ m ∈ l ∧ p ≤ m.
Proof.
  intros Hs Hp. destruct (last l) as [m|] eqn:E; [|apply last_None in E; subst; by apply elem_of_nil in Hp].
  exists m. split; [done|]. apply last_Some in E as [l' ->]. split; [set_solver|].
  apply elem_of_app in Hp as [Hp|Hp%list_elem_of_singleton]; [|lia].
  apply StronglySorted_app_1_elem_of with (x1 := p) (x2 := m) in Hs; [lia|done|set_solver].
Qed.

Lemma poll_reaches s st p : advertised_bitfields s = true → has_piece st p = true →
  ∃ m, advertised_max (seeder (serve_poll (Some st) s)) = Some m ∧ p ≤ m.
Proof.
  intros Hb Hp%elem_of_have_pieces. unfold serve_poll, advance_live_edge. rewrite Hb.
  pose proof (have_pieces_sorted st) as Hs. rewrite announce_fold by done. cbn [seeder advertised_max].
  set (l := List.filter _ _). assert (StronglySorted N.lt l) as Hl by (eapply sublist_StronglySorted; [exact Hs|apply filter_sublist]).
  destruct (above (advertised_max s) p) eqn:Ea.
  - destruct (last_sorted_ge l p Hl) as (m & -> & _ & Hm); [by apply list_elem_of_In, filter_In; rewrite <-list_elem_of_In|eauto].
  - destruct (advertised_max s) as [m|] eqn:Em; [|done]. apply N.ltb_ge in Ea. destruct (last l) as [q|] eqn:El; [|eauto].
    exists q. split; [done|]. apply last_Some_elem_of in El.
    apply list_elem_of_In, filter_In in El as [_ El%N.ltb_lt]. lia.
Qed.

(** ** Theorems on announcements *)

(** a seeder announces what it has, once and in order.  Over any sequence of wake-ups of a connection, with
    a store that changes in between, the pieces told to the peer (in bitfields and HAVEs together) are strictly
    increasing, each was complete in the store at the moment it was told, and after a poll of a peer that
    got its bitfields every complete piece has been told or is older than one that has. *)
Theorem seeder_announces_held_in_order cfg evs st :
  Forall (λ e, numbered e.1) (evs ++ [(Some st, WPoll)]) →
  let sent := (seed_run cfg seeder_fresh (evs ++ [(Some st, WPoll)])).1 in
  let all := concat (map told sent) in
  StronglySorted N.lt all ∧
  (∀ i l p, sent !! i = Some l → p ∈ told l →
     ∃ st' k, (evs ++ [(Some st, WPoll)]) !! i = Some (Some st', k) ∧ has_piece st' p = true) ∧
  (advertised_bitfields (seed_run cfg seeder_fresh evs).2 = true →
     ∀ p, has_piece st p = true → p ∈ all ∨ ∃ q, q ∈ all ∧ p < q).
Proof.
  intros Hn sent all. destruct (run_announced cfg seeder_fresh _ Hn) as ([H1 _] & H3 & _ & _ & H6); [done|].
  split_and!; [done|done|]. intros Hb p Hp. rewrite seed_run_snoc in H3. fold sent in H3. fold all in H3.
  destruct (poll_reaches _ st p Hb Hp) as (m & Em & Hm). cbn [wake_up] in H3. rewrite Em in H3.
  unfold last_or in H3. destruct (last all) as [q|] eqn:El; [|done]. injection H3 as ->.
  apply last_Some_elem_of in El. destruct (N.eq_dec p q) as [->|Hne]; [by left|right]. exists q. split; [done|lia].
Qed.

(** a piece that completes late is never announced.  Once a peer has been told of a piece, no continuation
    of the connection tells it of an older one, also when the store completes that piece afterwards. *)
Theorem late_piece_never_announced cfg s evs m p :
  Forall (λ e, numbered e.1) evs → advertised_bitfields s = true → advertised_max s = Some m → p ≤ m →
  p ∉ concat (map told (seed_run cfg s evs).1).
Proof.
  intros Hn Hb Hm Hp Hin. destruct (run_announced cfg s evs Hn) as ([_ Ha] & _); [by rewrite Hb|].
  rewrite Forall_forall in Ha. apply Ha in Hin. rewrite Hm in Hin. apply N.ltb_lt in Hin. lia.
Qed.

(** ** Replies *)

Lemma concat_slices {A} (w : list A) c n :
  concat (map (λ i, slice w (i * c) (i * c + c)) (seq 0 n)) = slice w 0 (n * c).
Proof.
  induction n as [|n IH]; [done|]. rewrite seq_S, map_app, concat_app, IH. cbn [map concat]. rewrite app_nil_r.
  rewrite Nat.add_0_l, slice_app_adjacent by lia. f_equal. lia.
Qed.

Lemma request_fields piece chunk : piece < two32 → chunk < two16 →
  let l := replicate 4 x00 ++ u32_be piece ++ u16_be chunk in
  length l = 10%nat ∧ be_N (slice l 0 4) = 0 ∧ be_N (slice l 4 8) = piece ∧ be_N (slice l 8 10) = chunk.
Proof.
  intros Hp Hc l. split_and!.
  - unfold l, u32_be, u16_be. by rewrite !length_app, !be_bytes_length.
  - done.
  - pose proof (slice_app_mid (replicate 4 x00) (u32_be piece) (u16_be chunk)) as E. rewrite u32_be_length in E.
    etrans; [apply (f_equal be_N E)|]. by apply u32_be_roundtrip, N.ltb_lt.
  - pose proof (slice_app_mid (replicate 4 x00 ++ u32_be piece) (u16_be chunk) []) as E.
    rewrite app_nil_r, <-app_assoc, length_app, u32_be_length in E. unfold u16_be in E at 2. rewrite be_bytes_length in E.
    etrans; [apply (f_equal be_N E)|]. by apply be_N_be_bytes.
Qed.

Lemma live_reply st piece chunk profile : piece < two32 → chunk < two16 →
  prepare_reply (chunk_request piece chunk) (Some st) profile =
    '(data, stored) ← shared_serving_chunk st piece chunk;
    Some (mkReply (build_piece 0 piece chunk (live_coordinates profile 0 stored).2 data) (lenN data)).
Proof.
  intros Hp Hc. destruct (request_fields piece chunk Hp Hc) as (Hl & E1 & E2 & E3). unfold prepare_reply, chunk_request.
  cbn [mbind option_bind]. rewrite byte_N_of_N by lia. rewrite bool_decide_true by lia. cbn [N.eqb Pos.eqb andb].
  rewrite E1, E2, E3. change (shared_reciprocal_chunk st piece chunk) with (shared_serving_chunk st piece chunk).
  destruct profile; by destruct (shared_serving_chunk st piece chunk) as [[]|].
Qed.

Lemma served_chunk cfg st piece i s wire header : serves st piece wire → Store.piece_header st piece = Some header →
  piece < two32 → i < piece_length st `div` chunk_length st → i < two16 → length header = 8%nat →
  length (piece_header cfg) = 8%nat → unchoked s = true →
  ∃ m, outgoing (serve_message cfg (Some st) s (chunk_request piece i)) = [m] ∧
    from_message m = Some (mkLiveChunk piece (if bool_decide (header = zero_header) then piece_header cfg else header) i
      (slice wire (N.to_nat (i * chunk_length st)) (N.to_nat (i * chunk_length st + chunk_length st)))).
Proof.
  intros Hs Hd Hp Hi Hi16 Hh Hf Hu. unfold serve_message, chunk_request at 1. rewrite Hu, byte_N_of_N by lia.
  cbn [N.eqb Pos.eqb andb outgoing]. fold (chunk_request piece i). rewrite live_reply by done.
  pose proof (Hs i Hi) as Hc. unfold chunk, backend_get in Hc. unfold shared_serving_chunk. rewrite Hc, Hd. cbn.
  eexists. split; [done|]. rewrite from_build_piece; [done| |done]. by case_bool_decide.
Qed.

(** ** Theorems on replies *)

(** what a seeder serves rebuilds the piece it published.  After a confirmed publication, an unchoked
    connection answers the live request of every chunk of the piece with one message, which a receiver
    reads as that chunk under the piece's header (the fallback header where the stored one is zero); the chunks
    in order are exactly the published bytes.  A choked connection gets no answer. *)
Theorem served_chunks_rebuild_piece cfg st now piece header wire st' s :
  reachable st → shared_put_complete_piece st now piece header wire = (Ok Published, st') →
  piece < two32 → length header = 8%nat → length (piece_header cfg) = 8%nat →
  let shown := if bool_decide (header = zero_header) then piece_header cfg else header in
  let reply i := outgoing (serve_message cfg (Some st') s (chunk_request piece (N.of_nat i))) in
  if unchoked s then
    ∃ chunks, concat chunks = wire ∧ lenN chunks = piece_length st `div` chunk_length st ∧
      ∀ i data, chunks !! i = Some data →
        ∃ m, reply i = [m] ∧ from_message m = Some (mkLiveChunk piece shown (N.of_nat i) data)
  else ∀ i, reply i = [].
Proof.
  intros HI%store_reachable_inv E Hpc Hh Hf shown reply.
  destruct (published_serves _ _ _ _ _ _ HI E) as (Hp & _ & Hd & E1 & E2 & Hs). destruct (unchoked s) eqn:Eu.
  - set (n := N.to_nat (piece_length st `div` chunk_length st)). set (c := N.to_nat (chunk_length st)).
    pose proof (publishable_chunks _ _ Hp) as Hw. destruct Hp as (_ & _ & _ & Hn & _).
    exists (map (λ i, slice wire (i * c) (i * c + c)) (seq 0 n)). split_and!.
    + rewrite concat_slices. unfold slice. rewrite drop_0. apply take_ge. unfold lenN in Hw. unfold n, c. lia.
    + unfold lenN. rewrite length_map, length_seq. unfold n. lia.
    + intros i data Hi. apply list_lookup_fmap_Some in Hi as (j & -> & [-> Hj]%lookup_seq).
      destruct (served_chunk cfg st' piece (N.of_nat (0 + i)) s wire header) as (m & Hm & Hr); try done.
      * rewrite E1, E2. unfold n in Hj. lia.
      * unfold n in Hj. lia.
      * exists m. split; [done|]. rewrite Hr. unfold shown. rewrite E2. do 3 f_equal; unfold c; lia.
  - intros i. unfold reply, serve_message, chunk_request. by rewrite Eu, andb_false_r.
Qed.

Lemma slice_clipped {A} (l : list A) a b : slice l a (Nat.min b (length l)) = slice l a b.
Proof.
  unfold slice. destruct (Nat.le_gt_cases b (length l)); [by rewrite Nat.min_l by lia|].
  rewrite Nat.min_r by lia. rewrite !take_ge; [done|rewrite length_drop; lia..].
Qed.

Lemma metadata_reply_at blob piece : (0 ≤ piece)%Z → (piece < 2 ^ 63)%Z → lenN blob < 2 ^ 62 →
  let start := u64_mul (Z.to_N piece) METADATA_BLOCK_LEN in
  metadata_reply blob piece =
    if start <? lenN blob then
      [Extended (N_byte 2) (data_piece piece (Z.of_N (lenN blob))
        (slice blob (N.to_nat start) (N.to_nat (start + METADATA_BLOCK_LEN))))]
    else [].
Proof.
  intros H0 H1 Hl start. unfold metadata_reply. rewrite Z.max_l by lia. fold start. rewrite Z2N.id by lia.
  rewrite !wrap_i64_id by (unfold in_i64; apply andb_true_iff; split; apply Z.leb_le; lia).
  destruct (start <? lenN blob); [|done]. do 3 f_equal.
  rewrite <-(slice_clipped blob _ (N.to_nat (start + METADATA_BLOCK_LEN))). f_equal. unfold lenN. lia.
Qed.

(** metadata requests wrap.  A request within the blob is answered with exactly its block and one beyond it is
    not answered, up to block number 2^50; from there the [usize] product of the offset wraps (in a build without
    overflow checks), and a request for block 2^50 + k is answered with the bytes of block k under the wrong number. *)
Theorem metadata_request_wraps cfg blob store s k :
  metadata cfg = Some blob → lenN blob < 2 ^ 62 → k < 2 ^ 50 →
  let answer n := outgoing (serve_message cfg store s (Extended (N_byte 2) (request_piece (Z.of_N n)))) in
  let data n := [Extended (N_byte 2) (data_piece (Z.of_N n) (Z.of_N (lenN blob)) (UtMetadata.block blob k))] in
  if k * METADATA_BLOCK_LEN <? lenN blob
  then answer k = data k ∧ answer (2 ^ 50 + k) = data (2 ^ 50 + k)
  else answer k = [].
Proof.
  intros Hm Hl Hk answer data.
  assert (∀ n, n < 2 ^ 63 → answer n = metadata_reply blob (Z.of_N n)) as Ha.
  { intros n Hn. unfold answer, serve_message. rewrite byte_N_of_N by lia. cbn [N.eqb Pos.eqb andb].
    rewrite Hm, metadata_request_parses; [done|]. unfold in_i64. apply andb_true_iff. lia. }
  rewrite !Ha by lia. rewrite !metadata_reply_at by lia. cbv zeta. rewrite !N2Z.id. unfold METADATA_BLOCK_LEN.
  assert (u64_mul k 16384 = k * 16384) as -> by (apply u64_mul_small; lia).
  assert (u64_mul (2 ^ 50 + k) 16384 = k * 16384) as ->.
  { unfold u64_mul. replace ((2 ^ 50 + k) * 16384) with (k * 16384 + 1 * two64) by lia.
    rewrite N.Div0.mod_add. apply N.mod_small. lia. }
  destruct (k * 16384 <? lenN blob); [|done]. unfold data, UtMetadata.block, METADATA_BLOCK_LEN.
  replace ((k + 1) * 16384) with (k * 16384 + 16384) by lia. done.
Qed.

(** ** Runs *)

Definition ex_cfg : SeedConfig := mkSeedConfig (Some (bs "descriptor")) (bs "fallback") true.

(** Four peers connect and want data; there is one slot besides the optimistic one. *)
Definition ex_crowd : list (option PieceStore * SwarmEvent) :=
  map (pair None) ([Connect; Connect; Connect; Connect] ++ map (λ id, Receive id Interested) [3; 1; 2; 4] ++
    [Observe 3; Observe 1; Rechoke; Receive 1 NotInterested]).

Lemma unchoke_slots_bounded_witness :
  let w := swarm_run ex_cfg (swarm_new 1) ex_crowd in
  interested (state (coord w)) = [3; 2; 4] ∧ size (wished (coord w)) = 2%nat ∧ 3 ∈ wished (coord w) ∧
  open_connections w ⊆ wished (coord w).
Proof.
  cbv zeta. destruct (unchoke_slots_bounded ex_cfg 1 ex_crowd) as (H1 & _ & _ & H4 & H5); [done|by vm_compute|].
  split; [by vm_compute|]. split; [rewrite H1; by vm_compute|]. split; [|exact H5].
  apply H4. vm_compute. left.
Defined.

Lemma optimistic_rotation_fair_witness : ∃ k s, (k ≤ 2)%nat ∧
  sessions (swarm_run ex_cfg (swarm_run ex_cfg (swarm_new 1) ex_crowd)
    (replicate k (None, Rechoke) ++ [(None, Observe 4)])) !! 4 = Some s ∧ unchoked s = true.
Proof. apply (optimistic_rotation_fair ex_cfg 1 ex_crowd 4); [done|by vm_compute|]. vm_compute. right. right. left. Defined.

Definition ex_put (st : PieceStore) (piece : N) (data : bytes) : PieceStore :=
  (shared_put_complete_piece st 0 piece (bs "HEADER-8") data).2.
Definition ex_early : PieceStore := ex_put (new 8 4 100) 8 (bs "abcdefgh").
(** Piece 7 completes after piece 8. *)
Definition ex_late : PieceStore := ex_put ex_early 7 (bs "ABCDEFGH").
Definition ex_boot : PeerMessage := Extended x00 (bs "de").

Lemma seeder_announces_held_in_order_witness :
  let sent := (seed_run ex_cfg seeder_fresh ([(Some ex_early, WMessage ex_boot)] ++ [(Some ex_late, WPoll)])).1 in
  concat (map told sent) = [8] ∧ StronglySorted N.lt (concat (map told sent)).
Proof.
  cbv zeta. split; [by vm_compute|].
  apply (seeder_announces_held_in_order ex_cfg [(Some ex_early, WMessage ex_boot)] ex_late).
  repeat constructor; apply numbered_check; by vm_compute.
Defined.

Lemma late_piece_never_announced_witness :
  let s := (seed_run ex_cfg seeder_fresh [(Some ex_early, WMessage ex_boot)]).2 in
  has_piece ex_late 7 = true ∧ 7 ∉ concat (map told (seed_run ex_cfg s [(Some ex_late, WPoll); (Some ex_late, WPoll)]).1).
Proof.
  cbv zeta. split; [by vm_compute|].
  apply (late_piece_never_announced ex_cfg _ _ 8); [|by vm_compute|by vm_compute|by vm_compute].
  repeat constructor; apply numbered_check; by vm_compute.
Defined.

Lemma served_chunks_rebuild_piece_witness : ∃ st' chunks,
  shared_put_complete_piece sample_store 4 6 (bs "HEADER-8") (bs "abcdefgh") = (Ok Published, st') ∧
  concat chunks = bs "abcdefgh" ∧ lenN chunks = 2.
Proof.
  set (put := shared_put_complete_piece sample_store 4 6 (bs "HEADER-8") (bs "abcdefgh")).
  assert (put = (Ok Published, put.2)) as E by (vm_compute; reflexivity).
  destruct (served_chunks_rebuild_piece ex_cfg _ _ _ _ _ _ (mkSeeder true true (Some 6)) sample_store_reachable E)
    as (chunks & H1 & H2 & _); [done|done|done|]. exists put.2, chunks. by split_and!.
Defined.

Lemma metadata_request_wraps_witness :
  outgoing (serve_message ex_cfg None (mkSeeder false true None)
    (Extended (N_byte 2) (request_piece (Z.of_N (2 ^ 50 + 0))))) =
  [Extended (N_byte 2) (data_piece (Z.of_N (2 ^ 50 + 0)) 10 (bs "descriptor"))].
Proof.
  refine (proj2 (metadata_request_wraps ex_cfg (bs "descriptor") None (mkSeeder false true None) 0 _ _ _)); by vm_compute.
Defined.
