(* ===== verification/Registry.v ===== *)
(** * The registry of served streams

    [ace-swarm/src/listen.rs]: which infohashes are served, from which store and metadata; the
    leases that keep an entry alive, the reaper of abandoned ones, the construction rendezvous
    of stores, and the admission of inbound connections with its global and per-stream caps.
    A store or a coordinator is a reference; every critical section of the code is one
    operation here, so interleavings of threads are sequences of operations. *)

From S2P Require Import Prelude Order Seed.

Local Open Scope N_scope.

Abbreviation key := bytes.

Inductive OwnerKind : Type := Leech | Broadcast.

#[export] Instance OwnerKind_eq_dec : EqDecision OwnerKind.
Proof. solve_decision. Defined.

Record SeedEntry : Type := mkEntry {
  store : option N;
  metadata : option bytes;
  producers : N;
  kind : OwnerKind;
  generation : N;
  last_active : N;
  coordinator : option N;
  canonical : option key;
  admission_aliases : list key;
}.

Definition fresh_entry (c : key) (gen now : N) : SeedEntry := mkEntry None None 0 Leech gen now None (Some c) [].

Definition require_canonical (c : key) (e : SeedEntry) : SeedEntry :=
  if bool_decide (canonical e = Some c) then e
  else mkEntry (store e) (metadata e) (producers e) (kind e) (generation e) (last_active e) (coordinator e) None
    (admission_aliases e).

Definition push_alias (l : list key) (k : key) : list key := if bool_decide (k ∈ l) then l else l ++ [k].

Definition associate_broadcast (c alias : key) (e : SeedEntry) : SeedEntry :=
  let e := require_canonical c e in
  mkEntry (store e) (metadata e) (producers e) (kind e) (generation e) (last_active e) (coordinator e) (canonical e)
    (fold_left push_alias [c; alias] (admission_aliases e)).

Definition set_store (s : option N) (e : SeedEntry) : SeedEntry :=
  mkEntry s (metadata e) (producers e) (kind e) (generation e) (last_active e) (coordinator e) (canonical e)
    (admission_aliases e).
Definition set_metadata (m : option bytes) (e : SeedEntry) : SeedEntry :=
  mkEntry (store e) m (producers e) (kind e) (generation e) (last_active e) (coordinator e) (canonical e)
    (admission_aliases e).
Definition set_producers (n : N) (e : SeedEntry) : SeedEntry :=
  mkEntry (store e) (metadata e) n (kind e) (generation e) (last_active e) (coordinator e) (canonical e)
    (admission_aliases e).
Definition set_kind (k : OwnerKind) (e : SeedEntry) : SeedEntry :=
  mkEntry (store e) (metadata e) (producers e) k (generation e) (last_active e) (coordinator e) (canonical e)
    (admission_aliases e).
Definition touch (now : N) (e : SeedEntry) : SeedEntry :=
  mkEntry (store e) (metadata e) (producers e) (kind e) (generation e) now (coordinator e) (canonical e)
    (admission_aliases e).
Definition set_coordinator (c : option N) (e : SeedEntry) : SeedEntry :=
  mkEntry (store e) (metadata e) (producers e) (kind e) (generation e) (last_active e) c (canonical e)
    (admission_aliases e).
Definition unassociate (e : SeedEntry) : SeedEntry :=
  mkEntry (store e) (metadata e) (producers e) (kind e) (generation e) (last_active e) (coordinator e) None
    (admission_aliases e).

(** ** Inbound admission *)

Record InboundPolicy : Type := mkPolicy { max_inbound : N; max_per_stream : N; policy_unchoked : nat }.

(** An admission domain: the global semaphore and the per-stream accounting. *)
Record Domain : Type := mkDomain {
  policy : InboundPolicy;
  in_use : N;
  counts : gmap key N;
  bindings : gmap key key;
}.

Definition admission (p : InboundPolicy) : Domain := mkDomain p 0 ∅ ∅.
Definition capacity (d : Domain) : N := N.max (max_inbound (policy d)) 1.

(** [try_acquire_owned]. *)
Definition accept (d : Domain) : option Domain :=
  if in_use d <? capacity d then Some (mkDomain (policy d) (in_use d + 1) (counts d) (bindings d)) else None.

Definition release_global (d : Domain) : Domain := mkDomain (policy d) (in_use d - 1) (counts d) (bindings d).

(** [InboundPermit::drop]. *)
Definition release_permit (d : Domain) (c : key) : Domain :=
  match counts d !! c with
  | Some count =>
      if count - 1 =? 0 then
        mkDomain (policy d) (in_use d) (delete c (counts d)) (filter (λ kc, kc.2 ≠ c) (bindings d))
      else mkDomain (policy d) (in_use d) (<[c := count - 1]> (counts d)) (bindings d)
  | None => d
  end.

(** ** The registry *)

Record SeedRegistry : Type := mkRegistry {
  stores : gmap key SeedEntry;
  admission_domains : list N;
  creating : gmap key N;
  (** the rendezvous cells, each empty or holding the store it was initialised with *)
  cells : gmap N (option N);
  next_generation : N;
  next_cell : N;
  (** stores constructed so far, and coordinators *)
  next_store : N;
  coordinators : gmap N ServeCoordinator;
  next_coordinator : N;
}.

Definition registry_new : SeedRegistry := mkRegistry ∅ [] ∅ ∅ 1 0 0 ∅ 0.

Definition set_stores (m : gmap key SeedEntry) (r : SeedRegistry) : SeedRegistry :=
  mkRegistry m (admission_domains r) (creating r) (cells r) (next_generation r) (next_cell r) (next_store r)
    (coordinators r) (next_coordinator r).

(** [map.entry(key).or_insert_with(..)] followed by a change of the entry. *)
Definition with_entry (k c : key) (now : N) (f : SeedEntry → SeedEntry) (r : SeedRegistry) : SeedRegistry :=
  match stores r !! k with
  | Some e => set_stores (<[k := f e]> (stores r)) r
  | None =>
      mkRegistry (<[k := f (fresh_entry c (next_generation r) now)]> (stores r)) (admission_domains r) (creating r)
        (cells r) (u64_add (next_generation r) 1) (next_cell r) (next_store r) (coordinators r) (next_coordinator r)
  end.

Definition entry_generation (k : key) (r : SeedRegistry) : N := from_option generation 0 (stores r !! k).
Definition entry_store (k : key) (r : SeedRegistry) : option N := stores r !! k ≫= store.

Definition register (r : SeedRegistry) (infohash : key) (s now : N) : SeedRegistry :=
  with_entry infohash infohash now (λ e, set_store (Some s) (require_canonical infohash e)) r.

Definition register_metadata (r : SeedRegistry) (k : key) (m : bytes) (now : N) : SeedRegistry :=
  with_entry k k now (λ e, set_metadata (Some m) (require_canonical k e)) r.

(** [entry.store.get_or_insert_with(|| candidate)]. *)
Definition get_or_insert_store (candidate : N) (e : SeedEntry) : SeedEntry :=
  set_store (Some (default candidate (store e))) e.

(** The four critical sections of [get_or_create]. *)
Definition lookup_store (r : SeedRegistry) (infohash : key) (now : N) : SeedRegistry * option N :=
  match stores r !! infohash with
  | Some e => (set_stores (<[infohash := touch now (require_canonical infohash e)]> (stores r)) r, store e)
  | None => (r, None)
  end.

Definition meet (r : SeedRegistry) (infohash : key) : SeedRegistry * N :=
  match creating r !! infohash with
  | Some cell => (r, cell)
  | None =>
      (mkRegistry (stores r) (admission_domains r) (<[infohash := next_cell r]> (creating r))
         (<[next_cell r := None]> (cells r)) (next_generation r) (next_cell r + 1) (next_store r) (coordinators r)
         (next_coordinator r), next_cell r)
  end.

(** [rendezvous.get_or_init(|| make())]: the first caller constructs the store. *)
Definition get_or_init (r : SeedRegistry) (cell : N) : SeedRegistry * N :=
  match cells r !! cell with
  | Some (Some s) => (r, s)
  | _ =>
      (mkRegistry (stores r) (admission_domains r) (creating r) (<[cell := Some (next_store r)]> (cells r))
         (next_generation r) (next_cell r) (next_store r + 1) (coordinators r) (next_coordinator r), next_store r)
  end.

Definition publish_store (r : SeedRegistry) (infohash : key) (candidate now : N) : SeedRegistry * N :=
  let r := with_entry infohash infohash now
    (λ e, get_or_insert_store candidate (require_canonical infohash e)) r in
  (r, default candidate (entry_store infohash r)).

Definition finish_creating (r : SeedRegistry) (infohash : key) : SeedRegistry :=
  mkRegistry (stores r) (admission_domains r) (delete infohash (creating r)) (cells r) (next_generation r)
    (next_cell r) (next_store r) (coordinators r) (next_coordinator r).

Definition get_or_create (r : SeedRegistry) (infohash : key) (now : N) : SeedRegistry * N :=
  match lookup_store r infohash now with
  | (r, Some s) => (r, s)
  | (r, None) =>
      let '(r, cell) := meet r infohash in
      let '(r, candidate) := get_or_init r cell in
      let '(r, s) := publish_store r infohash candidate now in
      (finish_creating r infohash, s)
  end.

(** A lease: the keys it holds with the generations it was issued against. *)
Abbreviation SeedLease := (list (key * N)).

(** The critical section of [lease_store] after its [get_or_create]. *)
Definition lease_entry (r : SeedRegistry) (infohash : key) (candidate now : N) : SeedRegistry * N * SeedLease :=
  let r := with_entry infohash infohash now (λ e,
    let e := get_or_insert_store candidate (require_canonical infohash e) in
    set_producers (producers e + 1) e) r in
  (r, default candidate (entry_store infohash r), [(infohash, entry_generation infohash r)]).

Definition lease_store (r : SeedRegistry) (infohash : key) (now : N) : SeedRegistry * N * SeedLease :=
  let '(r, candidate) := get_or_create r infohash now in lease_entry r infohash candidate now.

(** Every key known for a canonical identity; [None] where two identities claim one. *)
Definition canonical_aliases (m : gmap key SeedEntry) (c : key) : option (list key) :=
  let aliases := c :: concat (map (λ ke, if bool_decide (canonical ke.2 = Some c)
    then ke.1 :: admission_aliases ke.2 else []) (map_to_list m)) in
  if existsb (λ a, match m !! a with Some e => negb (bool_decide (canonical e = Some c)) | None => false end) aliases
  then None else Some aliases.

(** An alias that is bound to another identity. *)
Definition bound_elsewhere (d : Domain) (c : key) (aliases : list key) : bool :=
  existsb (λ a, match bindings d !! a with Some b => negb (bool_decide (b = c)) | None => false end) aliases.

Definition bind_all (c : key) (aliases : list key) (d : Domain) : Domain :=
  mkDomain (policy d) (in_use d) (counts d) (fold_left (λ m a, <[a := c]> m) aliases (bindings d)).

(** The loop of [retain_live_aliases] over the domains it observes. *)
Fixpoint retain_loop (c : key) (aliases : list key) (ids : list N) (m : gmap key SeedEntry) (ds : gmap N Domain)
    : gmap key SeedEntry * gmap N Domain :=
  match ids with
  | [] => (m, ds)
  | id :: ids =>
      match ds !! id with
      | None => retain_loop c aliases ids m ds
      | Some d =>
          if bool_decide (is_Some (counts d !! c)) then
            if bound_elsewhere d c aliases then
              ((λ e, if bool_decide (canonical e = Some c) then unassociate e else e) <$> m, ds)
            else retain_loop c aliases ids m (<[id := bind_all c aliases d]> ds)
          else retain_loop c aliases ids m ds
      end
  end.

Definition retain_live_aliases (r : SeedRegistry) (ds : gmap N Domain) (c : key) : SeedRegistry * gmap N Domain :=
  match canonical_aliases (stores r) c with
  | None => (r, ds)
  | Some aliases =>
      let '(m, ds) := retain_loop c aliases (admission_domains r) (stores r) ds in (set_stores m r, ds)
  end.

(** The critical section of [lease_broadcast]. *)
Definition lease_broadcast_entries (r : SeedRegistry) (ds : gmap N Domain) (infohash content_id : key)
    (blob : bytes) (candidate now : N) : SeedRegistry * gmap N Domain * N * SeedLease :=
  let r := with_entry infohash infohash now (λ e,
    let e := associate_broadcast infohash content_id e in
    get_or_insert_store candidate (set_kind Broadcast (set_producers (producers e + 1) e))) r in
  let s := default candidate (entry_store infohash r) in
  let g := entry_generation infohash r in
  let r := with_entry content_id infohash now (λ e,
    let e := associate_broadcast infohash content_id e in
    set_metadata (Some blob) (set_kind Broadcast (set_producers (producers e + 1) e))) r in
  let cg := entry_generation content_id r in
  let '(r, ds) := retain_live_aliases r ds infohash in
  (r, ds, s, [(infohash, g); (content_id, cg)]).

(** [SeedLease::drop]. *)
Definition drop_key (m : gmap key SeedEntry) (kg : key * N) : gmap key SeedEntry :=
  match m !! kg.1 with
  | Some e =>
      if generation e =? kg.2 then
        let n := saturating_sub (producers e) 1 in
        if n =? 0 then delete kg.1 m else <[kg.1 := set_producers n e]> m
      else m
  | None => m
  end.

Definition drop_lease (r : SeedRegistry) (lease : SeedLease) : SeedRegistry :=
  set_stores (fold_left drop_key lease (stores r)) r.

Definition get_store (r : SeedRegistry) (infohash : key) (now : N) : SeedRegistry * option N :=
  match stores r !! infohash with
  | Some e => (set_stores (<[infohash := touch now e]> (stores r)) r, store e)
  | None => (r, None)
  end.

Definition entry_metadata (r : SeedRegistry) (k : key) : option bytes := stores r !! k ≫= metadata.
Definition serves_key (r : SeedRegistry) (k : key) : bool := bool_decide (is_Some (stores r !! k)).

Definition coordinator_for (r : SeedRegistry) (infohash : key) (max_unchoked : nat) : SeedRegistry * option N :=
  match stores r !! infohash with
  | None => (r, None)
  | Some e =>
      match coordinator e with
      | Some c => (r, Some c)
      | None =>
          (mkRegistry (<[infohash := set_coordinator (Some (next_coordinator r)) e]> (stores r)) (admission_domains r)
             (creating r) (cells r) (next_generation r) (next_cell r) (next_store r)
             (<[next_coordinator r := coordinator_new max_unchoked]> (coordinators r)) (next_coordinator r + 1),
           Some (next_coordinator r))
      end
  end.

Definition rechoke_all (r : SeedRegistry) : SeedRegistry :=
  let live := omap (λ ke, coordinator ke.2) (map_to_list (stores r)) in
  mkRegistry (stores r) (admission_domains r) (creating r) (cells r) (next_generation r) (next_cell r) (next_store r)
    (fold_left (λ m c, alter rechoke c m) live (coordinators r)) (next_coordinator r).

Definition remove (r : SeedRegistry) (k : key) : SeedRegistry := set_stores (delete k (stores r)) r.

Definition abandoned (now ttl : N) (e : SeedEntry) : bool :=
  negb (bool_decide (kind e = Broadcast)) && (producers e =? 0) && (ttl <=? saturating_sub now (last_active e)).

Definition reap (r : SeedRegistry) (now ttl : N) : SeedRegistry * nat :=
  (set_stores (filter (λ ke, abandoned now ttl ke.2 = false) (stores r)) r,
   size (filter (λ ke, abandoned now ttl ke.2 = true) (stores r))).

Record AdmittedSeed : Type := mkAdmitted {
  ad_store : option N;
  ad_metadata : option bytes;
  ad_coordinator : N;
  ad_canonical : key;
}.

(** [admit_inbound] in domain [id]. *)
Definition admit_inbound (r : SeedRegistry) (ds : gmap N Domain) (id : N) (k : key) (now : N)
    : option (SeedRegistry * gmap N Domain * AdmittedSeed) :=
  e ← stores r !! k;
  if bool_decide (store e = None) && bool_decide (metadata e = None) then None
  else
    c ← canonical e;
    aliases ← canonical_aliases (stores r) c;
    d ← ds !! id;
    if bound_elsewhere d c aliases then None
    else
      let count := default 0 (counts d !! c) in
      if negb (max_per_stream (policy d) =? 0) && (max_per_stream (policy d) <=? count) then None
      else
        next ← checked_add count 1;
        '(r, co) ← match coordinator_for r k (policy_unchoked (policy d)) with
          | (r, Some co) => Some (r, co)
          | (_, None) => None
          end;
        let r := set_stores (alter (touch now) k (stores r)) r in
        let d := bind_all c aliases (mkDomain (policy d) (in_use d) (<[c := next]> (counts d)) (bindings d)) in
        let r := mkRegistry (stores r)
          (if bool_decide (id ∈ admission_domains r) then admission_domains r else admission_domains r ++ [id])
          (creating r) (cells r) (next_generation r) (next_cell r) (next_store r) (coordinators r)
          (next_coordinator r) in
        Some (r, <[id := d]> ds, mkAdmitted (store e) (metadata e) co c).

(** ** Everything that runs

    Callers inside [get_or_create], the live leases and the accepted connections, with the
    domains they were accepted in. *)

Inductive Phase : Type :=
  | Looking
  | Meeting
  | Initialising (cell : N)
  | Publishing (candidate : N)
  | Finishing (s : N)
  | Created (s : N).

Record Creator : Type := mkCreator { cr_key : key; cr_phase : Phase }.

(** A connection and, once admitted, the key it asked for and the identity that was charged. *)
Record Conn : Type := mkConn { cn_domain : N; cn_permit : option (key * key) }.

Record World : Type := mkWorld {
  reg : SeedRegistry;
  domains : gmap N Domain;
  creators : list Creator;
  leases : list SeedLease;
  conns : list Conn;
}.

Definition world_new : World := mkWorld registry_new ∅ [] [] [].

Definition set_reg (r : SeedRegistry) (w : World) : World := mkWorld r (domains w) (creators w) (leases w) (conns w).

(** The next critical section of a caller of [get_or_create]. *)
Definition advance_creator (r : SeedRegistry) (c : Creator) (now : N) : SeedRegistry * Creator :=
  let at_phase p := mkCreator (cr_key c) p in
  match cr_phase c with
  | Looking =>
      match lookup_store r (cr_key c) now with
      | (r, Some s) => (r, at_phase (Created s))
      | (r, None) => (r, at_phase Meeting)
      end
  | Meeting => let '(r, cell) := meet r (cr_key c) in (r, at_phase (Initialising cell))
  | Initialising cell => let '(r, s) := get_or_init r cell in (r, at_phase (Publishing s))
  | Publishing candidate => let '(r, s) := publish_store r (cr_key c) candidate now in (r, at_phase (Finishing s))
  | Finishing s => (finish_creating r (cr_key c), at_phase (Created s))
  | Created s => (r, c)
  end.

Inductive Op : Type :=
  | Register (k : key) (s now : N)
  | RegisterMetadata (k : key) (m : bytes) (now : N)
  | BeginCreate (k : key)
  | AdvanceCreator (i : nat) (now : N)
  | LeaseCreated (i : nat) (now : N)
  | LeaseBroadcast (i : nat) (content_id : key) (blob : bytes) (now : N)
  | DropLease (i : nat)
  | GetStore (k : key) (now : N)
  | Remove (k : key)
  | Reap (now ttl : N)
  | CoordinatorFor (k : key) (max_unchoked : nat)
  | RechokeAll
  | OpenDomain (id : N) (p : InboundPolicy)
  | Accept (id : N)
  | Admit (i : nat) (k : key) (now : N)
  | Close (i : nat).

Definition step (w : World) (op : Op) : World :=
  match op with
  | Register k s now => set_reg (register (reg w) k s now) w
  | RegisterMetadata k m now => set_reg (register_metadata (reg w) k m now) w
  | BeginCreate k => mkWorld (reg w) (domains w) (creators w ++ [mkCreator k Looking]) (leases w) (conns w)
  | AdvanceCreator i now =>
      match creators w !! i with
      | Some c =>
          let '(r, c) := advance_creator (reg w) c now in
          mkWorld r (domains w) (<[i := c]> (creators w)) (leases w) (conns w)
      | None => w
      end
  | LeaseCreated i now =>
      match creators w !! i with
      | Some (mkCreator k (Created s)) =>
          let '(r, _, lease) := lease_entry (reg w) k s now in
          mkWorld r (domains w) (creators w) (leases w ++ [lease]) (conns w)
      | _ => w
      end
  | LeaseBroadcast i cid blob now =>
      match creators w !! i with
      | Some (mkCreator k (Created s)) =>
          let '(r, ds, _, lease) := lease_broadcast_entries (reg w) (domains w) k cid blob s now in
          mkWorld r ds (creators w) (leases w ++ [lease]) (conns w)
      | _ => w
      end
  | DropLease i =>
      match leases w !! i with
      | Some l => mkWorld (drop_lease (reg w) l) (domains w) (creators w) (delete i (leases w)) (conns w)
      | None => w
      end
  | GetStore k now => set_reg (get_store (reg w) k now).1 w
  | Remove k => set_reg (remove (reg w) k) w
  | Reap now ttl => set_reg (reap (reg w) now ttl).1 w
  | CoordinatorFor k n => set_reg (coordinator_for (reg w) k n).1 w
  | RechokeAll => set_reg (rechoke_all (reg w)) w
  | OpenDomain id p =>
      match domains w !! id with
      | Some _ => w
      | None => mkWorld (reg w) (<[id := admission p]> (domains w)) (creators w) (leases w) (conns w)
      end
  | Accept id =>
      match domains w !! id ≫= accept with
      | Some d => mkWorld (reg w) (<[id := d]> (domains w)) (creators w) (leases w) (conns w ++ [mkConn id None])
      | None => w
      end
  | Admit i k now =>
      match conns w !! i with
      | Some (mkConn id None) =>
          match admit_inbound (reg w) (domains w) id k now with
          | Some (r, ds, a) =>
              mkWorld r ds (creators w) (leases w) (<[i := mkConn id (Some (k, ad_canonical a))]> (conns w))
          | None => w
          end
      | _ => w
      end
  | Close i =>
      match conns w !! i with
      | Some c =>
          let release d := release_global (match cn_permit c with Some (_, cn) => release_permit d cn | None => d end) in
          mkWorld (reg w) (alter release (cn_domain c) (domains w)) (creators w) (leases w) (delete i (conns w))
      | None => w
      end
  end.

Definition run (w : World) (ops : list Op) : World := fold_left step ops w.

Example registry_example :
  let k := bs "infohash" in
  let w := run world_new ([BeginCreate k] ++ replicate 5 (AdvanceCreator 0 0) ++
    [LeaseCreated 0 0; OpenDomain 0 (mkPolicy 2 1 3); Accept 0; Accept 0; Accept 0; Admit 0 k 5; Admit 1 k 6; Reap 100 10]) in
  (cn_permit <$> conns w, entry_store k (reg w), serves_key (reg (step w (DropLease 0))) k) =
  ([Some (k, k); None], Some 0, false).
Proof. vm_compute. reflexivity. Qed.

(** ** The ledger of leases *)

Definition held (w : World) : list (key * N) := concat (leases w).

Definition times (x : key * N) (l : list (key * N)) : nat := count_if (λ y, bool_decide (y = x)) l.

Lemma times_app x l1 l2 : times x (l1 ++ l2) = (times x l1 + times x l2)%nat.
Proof. apply count_if_app. Qed.

Lemma times_cons x y l : times x (y :: l) = ((if decide (y = x) then 1 else 0) + times x l)%nat.
Proof. unfold times. rewrite count_if_cons. by case_bool_decide; case_decide. Qed.

Lemma times_zero x l : times x l = 0%nat ↔ x ∉ l.
Proof.
  induction l as [|y l IH]; [split; [intros _; apply not_elem_of_nil|done]|].
  rewrite times_cons, not_elem_of_cons, <-IH. case_decide; subst; split; intros; naive_solver lia.
Qed.

#[export] Instance times_proper x : Proper ((≡ₚ) ==> eq) (times x).
Proof.
  intros l1 l2. induction 1; rewrite ?times_cons; [done|lia|lia|congruence].
Qed.

(** Entries count the live leases issued against their generation; generations are not reused. *)
Record Ledger (m : gmap key SeedEntry) (next : N) (l : list (key * N)) : Prop := {
  le_producers k e : m !! k = Some e → producers e = N.of_nat (times (k, generation e) l);
  le_issued k e : m !! k = Some e → generation e < next;
  le_held x : x ∈ l → x.2 < next;
}.

(** What every operation but the removals does to an entry: the generation stays, a store stays. *)
Definition keeps (e e' : SeedEntry) : Prop :=
  generation e' = generation e ∧ (store e ≠ None → store e' = store e).

Definition extends (m m' : gmap key SeedEntry) : Prop :=
  ∀ k e, m !! k = Some e → ∃ e', m' !! k = Some e' ∧ keeps e e'.

Lemma extends_refl m : extends m m.
Proof. intros k e He. by exists e. Qed.

Lemma extends_trans m1 m2 m3 : extends m1 m2 → extends m2 m3 → extends m1 m3.
Proof.
  intros H1 H2 k e (e1 & (e2 & He2 & [G2 S2])%H2 & [G1 S1])%H1. exists e2. split; [done|]. split; [congruence|].
  intros Hs. rewrite S2; [auto|]. by rewrite S1.
Qed.

(** A change of entries that leaves generations and counts alone. *)
Definition mild (f : SeedEntry → SeedEntry) : Prop :=
  ∀ e, producers (f e) = producers e ∧ keeps e (f e).

Lemma require_canonical_mild c : mild (require_canonical c).
Proof. intros e. unfold require_canonical. by case_bool_decide. Qed.

Lemma get_or_insert_mild s : mild (get_or_insert_store s).
Proof. intros e. split; [done|]. split; [done|]. cbn. by destruct (store e). Qed.

Lemma mild_compose f g : mild f → mild g → mild (λ e, f (g e)).
Proof.
  intros Hf Hg e. destruct (Hf (g e)) as [P1 [G1 S1]], (Hg e) as [P2 [G2 S2]]. split; [congruence|]. split; [congruence|].
  intros Hs. rewrite S1; [auto|]. by rewrite S2.
Qed.

Lemma ledger_insert m next l k e e' : Ledger m next l → m !! k = Some e → producers e' = producers e →
  generation e' = generation e → Ledger (<[k := e']> m) next l.
Proof.
  intros [H1 H2 H3] He Hp Hg. constructor; [| |done]; intros k' e1 [[<- <-]|[_ He1]]%lookup_insert_Some; eauto.
  - rewrite Hp, Hg. eauto.
  - rewrite Hg. eauto.
Qed.

Lemma ledger_sub m m' next l : Ledger m next l →
  (∀ k e', m' !! k = Some e' → ∃ e, m !! k = Some e ∧ producers e' = producers e ∧ generation e' = generation e) →
  Ledger m' next l.
Proof.
  intros [H1 H2 H3] Hs. constructor; [| |done]; intros k e' (e & He & Hp & Hg)%Hs; rewrite ?Hp, Hg; eauto.
Qed.

Lemma extends_insert m k e e' : m !! k = Some e → keeps e e' → extends m (<[k := e']> m).
Proof.
  intros He Hk k' e1 He1. destruct (decide (k = k')) as [<-|Hne].
  - rewrite lookup_insert_eq. simplify_eq. eauto.
  - rewrite lookup_insert_ne by done. exists e1. by split.
Qed.

(** [with_entry] under a change that adds [n] leases. *)
Lemma with_entry_ledger k c now f r l n : Ledger (stores r) (next_generation r) l → next_generation r + 1 < two64 →
  (∀ e, generation (f e) = generation e ∧ producers (f e) = producers e + N.of_nat n) →
  let r' := with_entry k c now f r in
  Ledger (stores r') (next_generation r') (l ++ replicate n (k, entry_generation k r')) ∧
  next_generation r ≤ next_generation r' ≤ next_generation r + 1.
Proof.
  intros [H1 H2 H3] Hb Hf r'.
  assert (∀ g next' m, (∀ k' e', m !! k' = Some e' → generation e' < next') → g < next' → next_generation r ≤ next' →
    (∀ k' e', m !! k' = Some e' → k' ≠ k → stores r !! k' = Some e') →
    (∀ e', m !! k = Some e' → generation e' = g ∧ producers e' = N.of_nat (times (k, g) l) + N.of_nat n) →
    Ledger m next' (l ++ replicate n (k, g))) as Hgen.
  { intros g next' m Hm Hg Hn Ho Hk. constructor; [|done|].
    - intros k' e' He'. rewrite times_app. destruct (decide (k' = k)) as [->|Hne].
      + destruct (Hk _ He') as [-> ->]. rewrite Nat2N.inj_add. f_equal. f_equal. clear.
        induction n as [|n IH]; [done|]. cbn [replicate]. rewrite times_cons, decide_True by done. by rewrite <-IH.
      + rewrite (H1 k' e') by auto. assert (times (k', generation e') (replicate n (k, g)) = 0%nat) as ->; [|lia].
        apply times_zero. intros [[= ? ?] _]%elem_of_replicate. done.
    - intros x [Hx%H3|[-> _]%elem_of_replicate]%elem_of_app; [lia|done]. }
  unfold r', with_entry, entry_generation. destruct (stores r !! k) as [e|] eqn:He; cbn [stores set_stores next_generation];
    rewrite lookup_insert_eq; cbn [from_option]; destruct (Hf (match stores r !! k with Some e => e | None => fresh_entry c (next_generation r) now end)) as [Fg Fp];
    rewrite He in Fg, Fp; rewrite Fg.
  - split; [|lia]. apply Hgen; [|by eapply H2|done|by intros k' e' ?%lookup_insert_Some; naive_solver|].
    + intros k' e' [[<- <-]|[_ ?]]%lookup_insert_Some; [rewrite Fg|]; by eapply H2.
    + intros e'. rewrite lookup_insert_eq. intros [= <-]. split; [done|]. rewrite Fp. f_equal. by apply H1.
  - rewrite u64_add_small by done. split; [|lia]. cbn [generation fresh_entry].
    apply Hgen; [|lia|lia|by intros k' e' ?%lookup_insert_Some; naive_solver|].
    + intros k' e' [[<- <-]|[_ Hk']]%lookup_insert_Some; [rewrite Fg; cbn; lia|]. specialize (H2 _ _ Hk'). lia.
    + intros e'. rewrite lookup_insert_eq. intros [= <-]. split; [done|]. rewrite Fp. cbn [producers fresh_entry]. f_equal.
      symmetry. apply (f_equal N.of_nat (y := 0%nat)). apply times_zero. intros Hx%H3. cbn in Hx. lia.
Qed.

Lemma with_entry_extends k c now f r : (∀ e, keeps e (f e)) → extends (stores r) (stores (with_entry k c now f r)).
Proof.
  intros Hf. unfold with_entry. destruct (stores r !! k) as [e|] eqn:He; cbn [stores set_stores].
  - by eapply extends_insert.
  - intros k' e' He'. exists e'. split; [|by split]. rewrite lookup_insert_ne; [done|congruence].
Qed.

(** A critical section that touches entries mildly: [r'] continues [r]. *)
Record Mild (r r' : SeedRegistry) : Prop := {
  mi_ledger l : Ledger (stores r) (next_generation r) l → next_generation r + 1 < two64 →
    Ledger (stores r') (next_generation r') l;
  mi_next : next_generation r + 1 < two64 → next_generation r ≤ next_generation r' ≤ next_generation r + 1;
  mi_extends : extends (stores r) (stores r');
}.

Lemma mild_same r r' : stores r' = stores r → next_generation r' = next_generation r → Mild r r'.
Proof. intros E1 E2. constructor; rewrite ?E1, ?E2; [done|lia|apply extends_refl]. Qed.

Lemma mild_with_entry k c now f r : mild f → Mild r (with_entry k c now f r).
Proof.
  intros Hf. constructor.
  - intros l HL Hb. destruct (with_entry_ledger k c now f r l 0 HL Hb) as [HL' _].
    { intros e. destruct (Hf e) as [? [? _]]. by rewrite N.add_0_r. }
    by rewrite app_nil_r in HL'.
  - intros Hb. unfold with_entry. destruct (stores r !! k); cbn; [lia|]. rewrite u64_add_small; lia.
  - apply with_entry_extends. intros e. apply Hf.
Qed.

Lemma mild_insert r r' k e e' : stores r !! k = Some e → producers e' = producers e → keeps e e' →
  stores r' = <[k := e']> (stores r) → next_generation r' = next_generation r → Mild r r'.
Proof.
  intros He Hp Hk E1 E2. constructor; rewrite ?E1, ?E2; [|lia|by eapply extends_insert].
  intros l HL _. eapply ledger_insert; [done|done|done|apply Hk].
Qed.

Lemma mild_fmap r f : mild f → Mild r (set_stores (f <$> stores r) r).
Proof.
  intros Hf. constructor; cbn [stores set_stores next_generation]; [|lia|].
  - intros l HL _. eapply ledger_sub; [done|]. intros k e'. rewrite lookup_fmap, fmap_Some. intros (e & He & ->).
    exists e. destruct (Hf e) as [? [? _]]. done.
  - intros k e He. exists (f e). rewrite lookup_fmap, He. split; [done|apply Hf].
Qed.

Lemma touch_mild now : mild (touch now).
Proof. done. Qed.

Lemma lookup_store_mild r k now : Mild r (lookup_store r k now).1.
Proof.
  unfold lookup_store. destruct (stores r !! k) as [e|] eqn:He; [|by apply mild_same].
  destruct (require_canonical_mild k e) as [Hp Hk].
  by apply (mild_insert r _ k e (touch now (require_canonical k e))).
Qed.

Lemma get_store_mild r k now : Mild r (get_store r k now).1.
Proof. unfold get_store. destruct (stores r !! k) as [e|] eqn:He; [|by apply mild_same].
  by apply (mild_insert r _ k e (touch now e)).
Qed.

Lemma coordinator_for_mild r k n : Mild r (coordinator_for r k n).1.
Proof.
  unfold coordinator_for. destruct (stores r !! k) as [e|] eqn:He; [|by apply mild_same].
  destruct (coordinator e); [by apply mild_same|]. by apply (mild_insert r _ k e (set_coordinator (Some (next_coordinator r)) e)).
Qed.

Lemma publish_store_mild r k s now : Mild r (publish_store r k s now).1.
Proof. apply mild_with_entry, mild_compose; [apply get_or_insert_mild|apply require_canonical_mild]. Qed.

Lemma advance_creator_mild r c now : Mild r (advance_creator r c now).1.
Proof.
  unfold advance_creator. destruct (cr_phase c).
  - pose proof (lookup_store_mild r (cr_key c) now). by destruct (lookup_store r (cr_key c) now) as [? []].
  - unfold meet. by destruct (creating r !! _); apply mild_same.
  - unfold get_or_init. by destruct (cells r !! _) as [[]|]; apply mild_same.
  - pose proof (publish_store_mild r (cr_key c) candidate now). by destruct (publish_store _ _ _ _).
  - by apply mild_same.
  - by apply mild_same.
Qed.

(** ** Dropping a lease *)

Lemma drop_key_ledger m next l kg : Ledger m next (kg :: l) → Ledger (drop_key m kg) next l.
Proof.
  intros [H1 H2 H3]. destruct kg as [k g].
  assert (∀ k' e', m !! k' = Some e' → (k', generation e') ≠ (k, g) → producers e' = N.of_nat (times (k', generation e') l)) as Ho.
  { intros k' e' He' Hne. rewrite (H1 _ _ He'), times_cons, decide_False by done. done. }
  assert (∀ x, x ∈ l → x.2 < next) as H3' by (intros x Hx; apply H3; by right).
  unfold drop_key. cbn [fst snd]. destruct (m !! k) as [e|] eqn:He; [destruct (N.eqb_spec (generation e) g) as [<-|Hg]|].
  - assert (saturating_sub (producers e) 1 = N.of_nat (times (k, generation e) l)) as Hn.
    { rewrite (H1 _ _ He), times_cons, decide_True by done. unfold saturating_sub. lia. }
    rewrite Hn. destruct (N.eqb_spec (N.of_nat (times (k, generation e) l)) 0).
    + constructor; [| |done].
      * intros k' e' [Hne He']%lookup_delete_Some. apply Ho; [done|congruence].
      * intros k' e' [_ He']%lookup_delete_Some. eauto.
    + constructor; [| |done].
      * intros k' e' [[<- <-]|[Hne He']]%lookup_insert_Some; [done|]. apply Ho; [done|congruence].
      * intros k' e' [[<- <-]|[_ He']]%lookup_insert_Some; [exact (H2 _ _ He)|eauto].
  - constructor; [|done|done]. intros k' e' He'. apply Ho; [done|]. intros [= ? ?]. simplify_eq.
  - constructor; [|done|done]. intros k' e' He'. apply Ho; [done|]. intros [= ? ?]. simplify_eq.
Qed.

Lemma drop_keys_ledger m next lease l : Ledger m next (lease ++ l) → Ledger (fold_left drop_key lease m) next l.
Proof. revert m. induction lease as [|kg lease IH]; intros m HL; [done|]. cbn. by apply IH, drop_key_ledger. Qed.

(** An entry another lease holds stays; an entry no lease holds any more goes. *)
Lemma drop_keys_keep m next lease l k e : Ledger m next (lease ++ l) → m !! k = Some e → (k, generation e) ∈ l →
  ∃ e', fold_left drop_key lease m !! k = Some e' ∧ keeps e e'.
Proof.
  revert m e. induction lease as [|kg lease IH]; intros m e HL He Hin; [by exists e|]. cbn [fold_left app] in *.
  assert (∃ e1, drop_key m kg !! k = Some e1 ∧ keeps e e1) as (e1 & He1 & [Hg Hs]).
  { unfold drop_key. destruct (m !! kg.1) as [e0|] eqn:E0; [|by exists e].
    destruct (N.eqb_spec (generation e0) kg.2) as [Eg|]; [|by exists e].
    destruct (decide (kg.1 = k)) as [<-|Hne].
    - simplify_eq. assert (saturating_sub (producers e) 1 =? 0 = false) as ->.
      { apply N.eqb_neq. rewrite (le_producers _ _ _ HL _ _ He), times_cons, times_app, decide_True by (rewrite Eg; by destruct kg).
        assert (times (kg.1, generation e) l ≠ 0%nat) by (rewrite times_zero; intros Hn; by apply Hn).
        unfold saturating_sub. lia. }
      rewrite lookup_insert_eq. eexists. by split.
    - destruct (_ =? 0); [rewrite lookup_delete_ne by done|rewrite lookup_insert_ne by done]; by exists e. }
  destruct (IH _ e1 (drop_key_ledger _ _ _ _ HL) He1) as (e' & He' & [Hg' Hs']); [by rewrite Hg|].
  exists e'. split; [done|]. split; [congruence|]. intros H. rewrite Hs'; [auto|by rewrite Hs].
Qed.

Lemma drop_key_other m kg k e : drop_key m kg !! k = Some e → k ≠ kg.1 → m !! k = Some e.
Proof.
  unfold drop_key. intros He Hne. destruct (m !! kg.1) as [e0|]; [|done]. destruct (_ =? _); [|done].
  destruct (_ =? 0); [by apply lookup_delete_Some in He as [_ ?]|by rewrite lookup_insert_ne in He].
Qed.

(** No entry that counts its leases is left at zero by a drop. *)
Lemma drop_keys_positive m lease k e :
  fold_left drop_key lease m !! k = Some e → (k, generation e) ∈ lease → producers e ≠ 0.
Proof.
  revert m. induction lease as [|kg lease IH]; intros m He Hin; [by apply elem_of_nil in Hin|]. cbn [fold_left] in He.
  destruct (decide ((k, generation e) ∈ lease)) as [|Hn]; [by eapply IH|].
  apply elem_of_cons in Hin as [<-|?]; [|done].
  assert (∀ m', fold_left drop_key lease m' !! k = Some e → m' !! k = Some e) as Hback.
  { clear -Hn. induction lease as [|kg lease IH]; intros m' He; [done|]. cbn [fold_left] in He.
    apply not_elem_of_cons in Hn as [Hne Hn]. specialize (IH Hn _ He). destruct kg as [k' g]. unfold drop_key in IH. cbn in IH.
    destruct (m' !! k') as [e0|] eqn:E0; [|done]. destruct (N.eqb_spec (generation e0) g) as [<-|]; [|done].
    destruct (_ =? 0); [by apply lookup_delete_Some in IH as [_ ?]|].
    apply lookup_insert_Some in IH as [[<- <-]|[_ ?]]; [by cbn in Hne|done]. }
  apply Hback in He. unfold drop_key in He. cbn [fst snd] in He. destruct (m !! k) as [e0|] eqn:E0; [|congruence].
  destruct (N.eqb_spec (generation e0) (generation e)) as [Eg|Eg]; [|congruence].
  destruct (N.eqb_spec (saturating_sub (producers e0) 1) 0) as [|Hp]; [by rewrite lookup_delete_eq in He|].
  rewrite lookup_insert_eq in He. by injection He as <-.
Qed.

(** ** Steps *)

Lemma mild_then r r1 r2 : Mild r r1 → next_generation r1 = next_generation r → Mild r1 r2 →
  next_generation r2 = next_generation r1 → Mild r r2.
Proof.
  intros [L1 N1 X1] E1 [L2 N2 X2] E2. constructor; [|lia|by eapply extends_trans].
  intros l HL Hb. apply L2; [by apply L1|lia].
Qed.

Lemma alter_present `{Countable K} {A} (f : A → A) (k : K) (m : gmap K A) x : m !! k = Some x → alter f k m = <[k := f x]> m.
Proof.
  intros Hx. apply map_eq. intros k'. destruct (decide (k = k')) as [<-|Hne].
  - by rewrite lookup_alter_eq, lookup_insert_eq, Hx.
  - by rewrite lookup_alter_ne, lookup_insert_ne.
Qed.

Lemma mild_touch r k now : Mild r (set_stores (alter (touch now) k (stores r)) r).
Proof.
  destruct (stores r !! k) as [e|] eqn:He.
  - apply (mild_insert r _ k e (touch now e)); try done. by apply alter_present.
  - apply mild_same; [|done]. cbn. apply map_eq. intros k'. destruct (decide (k = k')) as [<-|Hne].
    + by rewrite lookup_alter_eq, He.
    + by rewrite lookup_alter_ne.
Qed.

Lemma coordinator_for_next r k n : next_generation (coordinator_for r k n).1 = next_generation r.
Proof. unfold coordinator_for. destruct (stores r !! k) as [e|]; [|done]. by destruct (coordinator e). Qed.

Lemma retain_loop_map c aliases ids m ds : ∃ f, mild f ∧ (retain_loop c aliases ids m ds).1 = f <$> m.
Proof.
  assert (∃ f, mild f ∧ m = f <$> m) as Hid by (exists id; split; [done|by rewrite map_fmap_id]).
  revert ds. induction ids as [|id ids IH]; intros ds; cbn [retain_loop]; [done|].
  destruct (ds !! id) as [d|]; [|apply IH]. case_bool_decide; [|apply IH]. destruct (bound_elsewhere d c aliases); [|apply IH].
  eexists. split; [|done]. intros e. by case_bool_decide.
Qed.

Lemma retain_mild r ds c : Mild r (retain_live_aliases r ds c).1 ∧
  next_generation (retain_live_aliases r ds c).1 = next_generation r.
Proof.
  unfold retain_live_aliases. destruct (canonical_aliases _ _) as [aliases|]; [|by split; [apply mild_same|]].
  destruct (retain_loop_map c aliases (admission_domains r) (stores r) ds) as (f & Hf & E).
  destruct (retain_loop _ _ _ _ _) as [m ds']. cbn in *. subst. split; [by apply mild_fmap|done].
Qed.

Lemma lease_entry_ok r k s now l : Ledger (stores r) (next_generation r) l → next_generation r + 1 < two64 →
  let '(r', _, lease) := lease_entry r k s now in
  Ledger (stores r') (next_generation r') (l ++ lease) ∧ next_generation r ≤ next_generation r' ≤ next_generation r + 1 ∧
  extends (stores r) (stores r').
Proof.
  intros HL Hb. assert (∀ e, keeps e (get_or_insert_store s (require_canonical k e)) ∧
    producers (get_or_insert_store s (require_canonical k e)) = producers e) as Hm.
  { intros e. destruct (mild_compose _ _ (get_or_insert_mild s) (require_canonical_mild k) e). by split. }
  unfold lease_entry. cbv zeta. set (f := λ e, set_producers _ _).
  destruct (with_entry_ledger k k now f r l 1 HL Hb) as [HL' Hn].
  { intros e. destruct (Hm e) as [[Hg _] Hp]. split; [exact Hg|]. cbn in Hp |- *. by rewrite Hp. }
  split_and!; [exact HL'|lia..|]. apply with_entry_extends. intros e. apply Hm.
Qed.

Lemma lease_broadcast_ok r ds k cid blob s now l : Ledger (stores r) (next_generation r) l → next_generation r + 3 < two64 →
  let '(r', _, _, lease) := lease_broadcast_entries r ds k cid blob s now in
  Ledger (stores r') (next_generation r') (l ++ lease) ∧ next_generation r ≤ next_generation r' ≤ next_generation r + 2 ∧
  extends (stores r) (stores r').
Proof.
  intros HL Hb. assert (∀ e, keeps e (associate_broadcast k cid e) ∧ producers (associate_broadcast k cid e) = producers e) as Hm.
  { intros e. destruct (require_canonical_mild k e). by split. }
  unfold lease_broadcast_entries. cbv zeta. set (f := λ e, get_or_insert_store _ _). set (g := λ e, set_metadata _ _).
  assert (∀ e, keeps e (f e)) as Hf.
  { intros e. destruct (Hm e) as [[Hg Hs] _]. split; [exact Hg|]. intros H. specialize (Hs H). cbn in Hs |- *. rewrite Hs. by destruct (store e). }
  assert (∀ e, keeps e (g e)) as Hgk by (intros e; apply Hm).
  destruct (with_entry_ledger k k now f r l 1 HL ltac:(lia)) as [HL1 Hn1].
  { intros e. destruct (Hm e) as [[Hg _] Hp]. split; [exact Hg|]. cbn in Hp |- *. by rewrite Hp. }
  pose proof (with_entry_extends k k now f r Hf) as X1. set (r1 := with_entry k k now f r) in *.
  destruct (with_entry_ledger cid k now g r1 _ 1 HL1 ltac:(lia)) as [HL2 Hn2].
  { intros e. destruct (Hm e) as [[Hg _] Hp]. split; [exact Hg|]. cbn in Hp |- *. by rewrite Hp. }
  pose proof (with_entry_extends cid k now g r1 Hgk) as X2. set (r2 := with_entry cid k now g r1) in *.
  destruct (retain_mild r2 ds k) as [[L3 _ X3] E3]. destruct (retain_live_aliases r2 ds k) as [r3 ds3]. cbn [fst] in *.
  split_and!; [|lia|lia|].
  - rewrite <-app_assoc in HL2. apply L3; [exact HL2|lia].
  - eapply extends_trans; [exact X1|]. by eapply extends_trans.
Qed.

Lemma admit_mild r ds id k now r' ds' a : admit_inbound r ds id k now = Some (r', ds', a) → Mild r r'.
Proof.
  unfold admit_inbound. intros (e & He & H)%bind_Some. destruct (_ && _); [done|].
  apply bind_Some in H as (c & _ & H). apply bind_Some in H as (aliases & _ & H). apply bind_Some in H as (d & _ & H).
  destruct (bound_elsewhere _ _ _); [done|]. destruct (_ && _); [done|]. apply bind_Some in H as (next & _ & H).
  pose proof (coordinator_for_mild r k (policy_unchoked (policy d))) as Hm.
  pose proof (coordinator_for_next r k (policy_unchoked (policy d))) as Hn.
  destruct (coordinator_for _ _ _) as [r1 [co|]]; [|done]. cbn in H, Hm, Hn. injection H as <- <- <-.
  eapply mild_then; [exact Hm|exact Hn| |done]. eapply mild_then; [apply (mild_touch r1 k now)|done| |done]. by apply mild_same.
Qed.

Definition Ledgered (w : World) : Prop := Ledger (stores (reg w)) (next_generation (reg w)) (held w).

Lemma held_delete w i l : leases w !! i = Some l → held w ≡ₚ l ++ concat (delete i (leases w)).
Proof. unfold held. intros Hl. by rewrite (delete_Permutation _ _ _ Hl) at 1. Qed.

Lemma ledger_perm m next l l' : Ledger m next l → l ≡ₚ l' → Ledger m next l'.
Proof. intros [H1 H2 H3] Hp. constructor; [|done|]; intros *; rewrite <-Hp; eauto. Qed.

(** Every operation keeps the ledger, and issues at most two generations. *)
Lemma step_ledgered w op : Ledgered w → next_generation (reg w) + 3 < two64 →
  Ledgered (step w op) ∧ next_generation (reg w) ≤ next_generation (reg (step w op)) ≤ next_generation (reg w) + 2.
Proof.
  intros HL Hb. unfold Ledgered in *.
  assert (∀ w', leases w' = leases w → Mild (reg w) (reg w') → Ledgered w' ∧
    next_generation (reg w) ≤ next_generation (reg w') ≤ next_generation (reg w) + 2) as Hmild.
  { intros w' E [L N _]. unfold Ledgered, held. rewrite E. split; [apply L; [done|lia]|]. specialize (N ltac:(lia)). lia. }
  assert (Mild (reg w) (reg w)) as Hsame by by apply mild_same.
  destruct op; cbn [step].
  - unfold register. destruct (with_entry_ledger k k now (λ e, set_store (Some s) (require_canonical k e)) (reg w) (held w) 0 HL)
      as [HL' ?]; [lia| |rewrite app_nil_r in HL'; split; [exact HL'|cbn; lia]].
    intros e. destruct (require_canonical_mild k e) as [? [? _]]. cbn. by rewrite N.add_0_r.
  - apply Hmild; [done|]. apply mild_with_entry. intros e. apply (require_canonical_mild k e).
  - by apply Hmild.
  - destruct (creators w !! i) as [c|]; [|by apply Hmild]. pose proof (advance_creator_mild (reg w) c now) as Hm.
    destruct (advance_creator (reg w) c now) as [r' c']. by apply Hmild.
  - destruct (creators w !! i) as [[k []]|]; try by apply Hmild.
    pose proof (lease_entry_ok (reg w) k s now (held w) HL ltac:(lia)) as Ho.
    destruct (lease_entry (reg w) k s now) as [[r' s'] lease]. destruct Ho as (HL' & Hn & _). unfold held. cbn.
    rewrite concat_app. cbn. rewrite app_nil_r. split; [done|lia].
  - destruct (creators w !! i) as [[k []]|]; try by apply Hmild.
    pose proof (lease_broadcast_ok (reg w) (domains w) k content_id blob s now (held w) HL ltac:(lia)) as Ho.
    destruct (lease_broadcast_entries _ _ _ _ _ _ _) as [[[r' ds'] s'] lease]. destruct Ho as (HL' & Hn & _). unfold held. cbn.
    rewrite concat_app. cbn. rewrite app_nil_r. split; [done|lia].
  - destruct (leases w !! i) as [l|] eqn:Hl; [|by apply Hmild]. split; [|cbn; lia]. cbn.
    apply drop_keys_ledger. eapply ledger_perm; [exact HL|by apply held_delete].
  - apply Hmild; [done|]. apply get_store_mild.
  - split; [|cbn; lia]. cbn. eapply ledger_sub; [exact HL|]. intros k' e' [_ He']%lookup_delete_Some. eauto.
  - split; [|cbn; lia]. cbn. eapply ledger_sub; [exact HL|]. intros k' e' [He' _]%map_lookup_filter_Some. eauto.
  - apply Hmild; [done|]. apply coordinator_for_mild.
  - apply Hmild; [done|]. by apply mild_same.
  - destruct (domains w !! id); by apply Hmild.
  - destruct (domains w !! id ≫= accept); by apply Hmild.
  - destruct (conns w !! i) as [[id []]|]; try by apply Hmild.
    destruct (admit_inbound _ _ _ _ _) as [[[r' ds'] a]|] eqn:Ea; [|by apply Hmild]. apply Hmild; [done|]. by eapply admit_mild.
  - destruct (conns w !! i) as [c|]; by apply Hmild.
Qed.

Lemma run_ledgered ops : 2 * lenN ops + 4 < two64 →
  Ledgered (run world_new ops) ∧ next_generation (reg (run world_new ops)) ≤ 1 + 2 * lenN ops.
Proof.
  induction ops as [|op ops IH] using rev_ind; intros Hb.
  { split; [|done]. constructor; cbn; try (intros k e He; by rewrite lookup_empty in He). intros x Hx. by apply elem_of_nil in Hx. }
  unfold lenN in *. rewrite length_app in *. cbn [length] in *. destruct IH as [HL Hn]; [lia|].
  unfold run. rewrite fold_left_app. cbn [fold_left]. fold (run world_new ops).
  destruct (step_ledgered (run world_new ops) op HL) as [HL' Hn']; [lia|]. split; [done|lia].
Qed.

Lemma drop_keys_sub m lease k e' : fold_left drop_key lease m !! k = Some e' →
  ∃ e, m !! k = Some e ∧ generation e' = generation e.
Proof.
  revert m. induction lease as [|kg lease IH]; intros m He; [by exists e'|]. cbn [fold_left] in He.
  destruct (IH _ He) as (e1 & He1 & Hg). unfold drop_key in He1. destruct (m !! kg.1) as [e0|] eqn:E0; [|by exists e1].
  destruct (_ =? _); [|by exists e1]. destruct (_ =? 0).
  - apply lookup_delete_Some in He1 as [_ He1]. by exists e1.
  - apply lookup_insert_Some in He1 as [[<- <-]|[_ He1]]; [exists e0|exists e1]; done.
Qed.

(** The operations that neither take an entry away nor exchange its store. *)
Definition calm (op : Op) : bool :=
  match op with Register _ _ _ | DropLease _ | Remove _ | Reap _ _ => false | _ => true end.

Lemma step_extends w op : Ledgered w → next_generation (reg w) + 3 < two64 → calm op = true →
  extends (stores (reg w)) (stores (reg (step w op))).
Proof.
  intros HL Hb Hc. pose proof (extends_refl (stores (reg w))) as Hr.
  destruct op; cbn [step] in *; try done.
  - apply with_entry_extends. intros e. apply (require_canonical_mild k e).
  - destruct (creators w !! i) as [c|]; [|done]. pose proof (mi_extends _ _ (advance_creator_mild (reg w) c now)) as Hm.
    by destruct (advance_creator (reg w) c now) as [r' c'].
  - destruct (creators w !! i) as [[k []]|]; try done.
    pose proof (lease_entry_ok (reg w) k s now (held w) HL ltac:(lia)) as Ho.
    destruct (lease_entry (reg w) k s now) as [[r' s'] lease]. apply Ho.
  - destruct (creators w !! i) as [[k []]|]; try done.
    pose proof (lease_broadcast_ok (reg w) (domains w) k content_id blob s now (held w) HL ltac:(lia)) as Ho.
    destruct (lease_broadcast_entries _ _ _ _ _ _ _) as [[[r' ds'] s'] lease]. apply Ho.
  - apply (get_store_mild (reg w) k now).
  - apply (coordinator_for_mild (reg w) k max_unchoked).
  - by destruct (domains w !! id).
  - by destruct (domains w !! id ≫= accept).
  - destruct (conns w !! i) as [[id []]|]; try done.
    destruct (admit_inbound _ _ _ _ _) as [[[r' ds'] a]|] eqn:Ea; [|done]. apply (admit_mild _ _ _ _ _ _ _ _ Ea).
  - by destruct (conns w !! i).
Qed.

(** What a leased entry is under an operation other than its removal. *)
Lemma step_keeps w op k e : Ledgered w → stores (reg w) !! k = Some e → op ≠ Remove k →
  (k, generation e) ∈ held w → (k, generation e) ∈ held (step w op) → next_generation (reg w) + 3 < two64 →
  ∃ e', stores (reg (step w op)) !! k = Some e' ∧ generation e' = generation e ∧
    ((∀ s now, op ≠ Register k s now) → store e ≠ None → store e' = store e).
Proof.
  intros HL He Hrm Hh Hh' Hb. destruct (calm op) eqn:Ec.
  { destruct (step_extends w op HL Hb Ec k e He) as (e' & ? & ? & ?). eauto. }
  destruct op; try done; cbn [step] in *.
  - unfold register, with_entry. cbn. destruct (decide (k0 = k)) as [<-|Hne].
    + rewrite He. cbn. rewrite lookup_insert_eq. eexists. split; [done|]. split; [apply (require_canonical_mild k0 e)|].
      intros Hno. by destruct (Hno s now).
    + destruct (stores (reg w) !! k0); cbn; rewrite lookup_insert_ne by done; eauto.
  - destruct (leases w !! i) as [l|] eqn:Hl; [|by exists e]. cbn in *.
    destruct (drop_keys_keep (stores (reg w)) (next_generation (reg w)) l (concat (delete i (leases w))) k e)
      as (e' & ? & ? & ?); [eapply ledger_perm; [exact HL|by apply held_delete]|done|exact Hh'|]. eauto.
  - cbn. exists e. rewrite lookup_delete_ne by congruence. auto.
  - cbn. exists e. split; [|auto]. apply map_lookup_filter_Some. split; [done|]. cbn. unfold abandoned.
    rewrite (le_producers _ _ _ HL _ _ He). assert (times (k, generation e) (held w) ≠ 0%nat) as Ht
      by (rewrite times_zero; intros Hn; by apply Hn).
    rewrite (proj2 (N.eqb_neq _ _)) by lia. by rewrite andb_false_r.
Qed.

(** ** Theorems on leases *)

(** C39: a leased entry lives exactly as long as its leases.  Over every interleaving of the registry's critical
    sections (fewer than 2^63 - 3 of them, so that the generation counter does not wrap) an entry counts exactly the
    live leases issued against it; as long as one of them lives, no operation but an explicit removal of its
    key takes the entry away, and no operation but that and an explicit registration of a store under its key,
    which is meant to replace it, exchanges its store (reaping, the drop of other leases, late creators
    included); and the drop of the last lease evicts it. *)
Theorem lease_anchors_entry ops op k e :
  2 * lenN ops + 6 < two64 →
  let w := run world_new ops in let w' := step w op in let x := (k, generation e) in
  stores (reg w) !! k = Some e →
  producers e = N.of_nat (times x (held w)) ∧
  (op ≠ Remove k → x ∈ held w → x ∈ held w' →
    ∃ e', stores (reg w') !! k = Some e' ∧ generation e' = generation e ∧
      ((∀ s now, op ≠ Register k s now) → store e ≠ None → store e' = store e)) ∧
  (∀ i lease, op = DropLease i → leases w !! i = Some lease → x ∈ lease → x ∉ held w' → stores (reg w') !! k = None).
Proof.
  intros Hb w w' x He. destruct (run_ledgered ops ltac:(lia)) as [HL Hn]. fold w in HL, Hn. split_and!.
  - by apply (le_producers _ _ _ HL).
  - intros Hrm Hh Hh'. apply step_keeps; try done. lia.
  - intros i lease -> Hl Hx Hno. destruct (stores (reg w') !! k) as [e'|] eqn:He'; [exfalso|done].
    unfold w' in He', Hno. cbn [step] in He', Hno. rewrite Hl in He', Hno. cbn in He', Hno. unfold held in Hno. cbn in Hno.
    destruct (drop_keys_sub _ _ _ _ He') as (e0 & He0 & Hg). rewrite He in He0. injection He0 as <-.
    assert (producers e' = 0) as Hp.
    { assert (Ledger (stores (reg w)) (next_generation (reg w)) (lease ++ concat (delete i (leases w)))) as HL1
        by (eapply ledger_perm; [exact HL|by apply held_delete]).
      rewrite (le_producers _ _ _ (drop_keys_ledger _ _ _ _ HL1) _ _ He'), Hg. unfold x in Hno. by rewrite (proj2 (times_zero _ _) Hno). }
    apply (drop_keys_positive _ _ _ _ He'); [|done]. by rewrite Hg.
Qed.

(** ** Creators *)

Definition obtained (c : Creator) : option N :=
  match cr_phase c with Finishing s | Created s => Some s | _ => None end.

Definition Agreed (w : World) : Prop :=
  ∀ i c s, creators w !! i = Some c → obtained c = Some s → entry_store (cr_key c) (reg w) = Some s.

Lemma extends_store r r' k s : extends (stores r) (stores r') → entry_store k r = Some s → entry_store k r' = Some s.
Proof.
  unfold entry_store. intros Hx (e & He & Hs)%bind_Some. destruct (Hx k e He) as (e' & -> & _ & Hk). cbn.
  rewrite Hk; [done|by rewrite Hs].
Qed.

Lemma advance_creator_agrees r c now s : (∀ s, obtained c = Some s → entry_store (cr_key c) r = Some s) →
  let '(r', c') := advance_creator r c now in
  cr_key c' = cr_key c ∧ (obtained c' = Some s → entry_store (cr_key c) r' = Some s).
Proof.
  intros Ho. unfold advance_creator. destruct (cr_phase c) eqn:Ep.
  - unfold lookup_store, entry_store. destruct (stores r !! cr_key c) as [e|] eqn:He; [|done].
    destruct (store e) eqn:Es; [|done]. split; [done|]. intros [= ->]. cbn. rewrite lookup_insert_eq. cbn.
    unfold require_canonical. by case_bool_decide.
  - by destruct (meet r (cr_key c)).
  - by destruct (get_or_init r cell).
  - split; [done|]. unfold obtained, publish_store. cbn [cr_phase cr_key]. intros [= <-].
    unfold entry_store, with_entry. destruct (stores r !! cr_key c) as [e|]; cbn; rewrite lookup_insert_eq; done.
  - split; [done|]. intros [= <-]. apply Ho. unfold obtained. by rewrite Ep.
  - split; [done|]. intros Hs. by apply Ho.
Qed.

Lemma step_agreed w op : Ledgered w → next_generation (reg w) + 3 < two64 → calm op = true → Agreed w → Agreed (step w op).
Proof.
  intros HL Hb Hc HA. pose proof (step_extends w op HL Hb Hc) as Hx.
  assert (creators (step w op) = creators w → Agreed (step w op)) as Hsame.
  { intros E i c s. rewrite E. intros Hi Hs. eapply extends_store; [exact Hx|]. by eapply HA. }
  destruct op; try done; try (by apply Hsame).
  - intros i c s [Hi|[? Hi]]%lookup_app_Some Hs; [by eapply HA|]. apply list_lookup_singleton_Some in Hi as [_ <-]. done.
  - cbn [step] in *. destruct (creators w !! i) as [c|] eqn:Ei; [|done].
    pose proof (λ s, advance_creator_agrees (reg w) c now s (λ s, HA i c s Ei)) as Ha.
    destruct (advance_creator (reg w) c now) as [r' c']. cbn in *. intros j d s Hj Hs. cbn in Hj.
    apply list_lookup_insert_Some in Hj as [(<- & <- & _)|[_ Hj]].
    + destruct (Ha s) as [-> Ha']. by apply Ha'.
    + eapply extends_store; [exact Hx|]. by eapply HA.
  - cbn [step] in *. apply Hsame. destruct (creators w !! i) as [[k []]|]; try done; by destruct (lease_entry _ _ _ _) as [[]].
  - cbn [step] in *. apply Hsame. destruct (creators w !! i) as [[k []]|]; try done;
    by destruct (lease_broadcast_entries _ _ _ _ _ _ _) as [[[]]].
  - apply Hsame. cbn. by destruct (domains w !! id).
  - apply Hsame. cbn. by destruct (domains w !! id ≫= accept).
  - apply Hsame. cbn. destruct (conns w !! i) as [[id []]|]; try done; by destruct (admit_inbound _ _ _ _ _) as [[[]]|].
  - apply Hsame. cbn. by destruct (conns w !! i).
Qed.

(** racing creators end with one store.  However the critical sections of any number of concurrent
    [get_or_create] calls interleave, with each other and with leases and admissions, all calls for a key
    return the store that the registry serves for it. *)
Theorem creators_share_store ops i j c d s t :
  2 * lenN ops + 6 < two64 → Forall (λ op, calm op = true) ops →
  let w := run world_new ops in
  creators w !! i = Some c → creators w !! j = Some d → cr_key c = cr_key d →
  cr_phase c = Created s → cr_phase d = Created t → s = t ∧ entry_store (cr_key c) (reg w) = Some s.
Proof.
  intros Hb Hc w Hi Hj Hk Hs Ht. assert (Agreed w) as HA.
  { unfold w. clear -Hb Hc. induction ops as [|op ops IH] using rev_ind.
    - intros i c s Hi. done.
    - apply Forall_app in Hc as [Hc Hop]. apply Forall_inv in Hop. unfold lenN in *. rewrite length_app in Hb. cbn [length] in Hb.
      unfold run. rewrite fold_left_app. cbn [fold_left]. fold (run world_new ops). destruct (run_ledgered ops) as [HL Hn]; [unfold lenN; lia|].
      unfold lenN in Hn. apply step_agreed; [done|lia|done|]. apply IH; [lia|done]. }
  pose proof (HA i c s Hi) as H1. pose proof (HA j d t Hj) as H2. unfold obtained in H1, H2.
  rewrite Hs in H1. rewrite Ht in H2. rewrite Hk in *. specialize (H1 eq_refl). specialize (H2 eq_refl). split; congruence.
Qed.

Lemma advance_step w i c now : creators w !! i = Some c →
  reg (step w (AdvanceCreator i now)) = (advance_creator (reg w) c now).1 ∧
  creators (step w (AdvanceCreator i now)) !! i = Some (advance_creator (reg w) c now).2.
Proof.
  intros Hi. cbn [step]. rewrite Hi. destruct (advance_creator _ _ _). cbn. split; [done|].
  apply list_lookup_insert_eq. by eapply lookup_lt_Some.
Qed.

(** a late creator builds a second store.  A caller that looked before the store was published and
    reaches the rendezvous after it was cleaned up constructs a store of its own, while the registry keeps
    serving the published one. *)
Theorem late_creator_builds_again w i k s now :
  creators w !! i = Some (mkCreator k Meeting) → creating (reg w) !! k = None → entry_store k (reg w) = Some s →
  let w' := run w (replicate 3 (AdvanceCreator i now)) in
  next_store (reg w') = next_store (reg w) + 1 ∧ entry_store k (reg w') = Some s ∧
  creators w' !! i = Some (mkCreator k (Finishing s)).
Proof.
  intros Hi Hc (e & He & Hs)%bind_Some w'. unfold w', run. cbn [replicate fold_left].
  destruct (advance_step w i _ now Hi) as [R1 C1]. set (w1 := step w _) in *. clearbody w1.
  unfold advance_creator in R1, C1. cbn [cr_phase cr_key] in R1, C1. unfold meet in R1, C1. rewrite Hc in R1, C1. cbn in R1, C1.
  destruct (advance_step w1 i _ now C1) as [R2 C2]. set (w2 := step w1 _) in *. clearbody w2.
  unfold advance_creator in R2, C2. cbn [cr_phase cr_key] in R2, C2. unfold get_or_init in R2, C2.
  rewrite R1 in R2, C2. cbn [cells] in R2, C2. rewrite lookup_insert_eq in R2, C2. cbn in R2, C2.
  destruct (advance_step w2 i _ now C2) as [R3 C3]. set (w3 := step w2 _) in *. clearbody w3.
  unfold advance_creator in R3, C3. cbn [cr_phase cr_key] in R3, C3.
  unfold publish_store, with_entry, entry_store in R3, C3. rewrite R2 in R3, C3. cbn [stores] in R3, C3. rewrite He in R3, C3.
  cbn in R3, C3. rewrite lookup_insert_eq in C3. cbn in C3.
  assert (store (require_canonical k e) = Some s) as Hr by (unfold require_canonical; by case_bool_decide).
  rewrite Hr in C3. rewrite R3, C3. unfold entry_store. cbn. rewrite lookup_insert_eq. cbn. by rewrite Hr.
Qed.

(** ** Admission

    A domain agrees with the permits of its connections: identities are counted, live identities
    only are bound, and the key of every connection is bound to the identity it was charged to. *)
Definition charged (c : key) (l : list (key * key)) : nat := count_if (λ kc, bool_decide (kc.2 = c)) l.

Record DomainInv (d : Domain) (l : list (key * key)) : Prop := {
  di_counts c : default 0 (counts d !! c) = N.of_nat (charged c l);
  di_positive c : counts d !! c ≠ Some 0;
  di_cap c n : max_per_stream (policy d) ≠ 0 → counts d !! c = Some n → n ≤ max_per_stream (policy d);
  di_live k c : bindings d !! k = Some c → is_Some (counts d !! c);
  di_key k c : (k, c) ∈ l → bindings d !! k = Some c;
}.

#[export] Instance charged_proper c : Proper ((≡ₚ) ==> eq) (charged c).
Proof. intros l1 l2. induction 1; unfold charged in *; rewrite ?count_if_cons; [done|lia|lia|congruence]. Qed.

Lemma domain_perm d l l' : DomainInv d l → l ≡ₚ l' → DomainInv d l'.
Proof. intros [] Hp. constructor; try done; intros *; rewrite <-Hp; eauto. Qed.

Lemma charged_cons k c' c l : charged c ((k, c') :: l) = ((if decide (c' = c) then 1 else 0) + charged c l)%nat.
Proof. unfold charged. rewrite count_if_cons. cbn. by case_bool_decide; case_decide. Qed.

Lemma bound_elsewhere_false d c aliases : bound_elsewhere d c aliases = false →
  ∀ a b, a ∈ aliases → bindings d !! a = Some b → b = c.
Proof.
  intros H a b Ha Hb. apply not_true_iff_false in H. destruct (decide (b = c)) as [|Hne]; [done|]. exfalso. apply H.
  apply existsb_exists. exists a. split; [by apply list_elem_of_In|]. rewrite Hb. by rewrite bool_decide_false.
Qed.

Lemma lookup_bind_fold (aliases : list key) (c : key) (m : gmap key key) k :
  fold_left (λ m a, <[a := c]> m) aliases m !! k = if decide (k ∈ aliases) then Some c else m !! k.
Proof.
  revert m. induction aliases as [|a aliases IH]; intros m; cbn [fold_left].
  { rewrite decide_False by apply not_elem_of_nil. done. }
  rewrite IH. destruct (decide (k = a)) as [->|Hne].
  - rewrite lookup_insert_eq, (decide_True (P := a ∈ a :: aliases)) by by left. by case_decide.
  - rewrite lookup_insert_ne by done. do 2 case_decide; set_solver.
Qed.

Lemma bind_all_inv d l c aliases : DomainInv d l → bound_elsewhere d c aliases = false → is_Some (counts d !! c) →
  DomainInv (bind_all c aliases d) l.
Proof.
  intros [H1 H2 H3 H4 H5] Hb Hc. pose proof (bound_elsewhere_false _ _ _ Hb) as Ho.
  constructor; cbn; try done; intros k c'; rewrite lookup_bind_fold; case_decide as Ha.
  - by intros [= <-].
  - apply H4.
  - intros Hin%H5. f_equal. symmetry. by eapply Ho.
  - apply H5.
Qed.

Lemma admit_domain d l c aliases k n : DomainInv d l → bound_elsewhere d c aliases = false → k ∈ aliases →
  default 0 (counts d !! c) + 1 = n → (max_per_stream (policy d) ≠ 0 → n ≤ max_per_stream (policy d)) →
  DomainInv (bind_all c aliases (mkDomain (policy d) (in_use d) (<[c := n]> (counts d)) (bindings d))) ((k, c) :: l).
Proof.
  intros [H1 H2 H3 H4 H5] Hb Hk Hn Hcap. pose proof (bound_elsewhere_false _ _ _ Hb) as Ho.
  constructor; cbn [bind_all policy counts bindings in_use].
  - intros c'. rewrite charged_cons. case_decide as Hc.
    + subst c'. rewrite lookup_insert_eq. cbn. specialize (H1 c). lia.
    + rewrite lookup_insert_ne by done. apply H1.
  - intros c'. destruct (decide (c = c')) as [<-|Hne]; [rewrite lookup_insert_eq; intros [= ?]; lia|by rewrite lookup_insert_ne].
  - intros c' n' Hm [[<- <-]|[_ Hc']]%lookup_insert_Some; [auto|by eapply H3].
  - intros k' c'. rewrite lookup_bind_fold. case_decide as Ha.
    + intros [= <-]. rewrite lookup_insert_eq. eauto.
    + intros Hc'%H4. destruct (decide (c = c')) as [<-|Hne]; [rewrite lookup_insert_eq; eauto|by rewrite lookup_insert_ne].
  - intros k' c'. rewrite lookup_bind_fold, elem_of_cons. intros [[= -> ->]|Hin%H5]; case_decide as Ha; try done.
    f_equal. symmetry. by eapply Ho.
Qed.

Lemma release_domain d l k c : DomainInv d ((k, c) :: l) → DomainInv (release_permit d c) l.
Proof.
  intros [H1 H2 H3 H4 H5]. unfold release_permit. pose proof (H1 c) as Hc. rewrite charged_cons, decide_True in Hc by done.
  destruct (counts d !! c) as [n|] eqn:En; cbn in Hc; [|lia].
  assert (∀ c', c' ≠ c → default 0 (counts d !! c') = N.of_nat (charged c' l)) as Ho.
  { intros c' Hne. rewrite H1, charged_cons, decide_False by done. done. }
  destruct (N.eqb_spec (n - 1) 0) as [Hz|Hz].
  - constructor; cbn [policy counts bindings in_use].
    + intros c'. destruct (decide (c' = c)) as [->|Hne]; [rewrite lookup_delete_eq; cbn; lia|rewrite lookup_delete_ne by done; auto].
    + intros c' [_ ?]%lookup_delete_Some. by eapply H2.
    + intros c' n' Hm [_ ?]%lookup_delete_Some. by eapply H3.
    + intros k' c' [Hb Hne]%map_lookup_filter_Some. cbn in Hne. rewrite lookup_delete_ne by done. by eapply H4.
    + intros k' c' Hin. apply map_lookup_filter_Some. split; [apply H5; by right|]. cbn. intros ->.
      assert (charged c l ≠ 0%nat) as Hne; [|lia]. unfold charged. clear -Hin. induction l as [|[k0 c0] l IH]; [by apply elem_of_nil in Hin|].
      rewrite count_if_cons. cbn. apply elem_of_cons in Hin as [[= <- <-]|Hin]; [rewrite bool_decide_true by done; lia|].
      specialize (IH Hin). lia.
  - constructor; cbn [policy counts bindings in_use].
    + intros c'. destruct (decide (c = c')) as [<-|Hne]; [rewrite lookup_insert_eq; cbn; lia|rewrite lookup_insert_ne by done; auto].
    + intros c'. destruct (decide (c = c')) as [<-|Hne]; [rewrite lookup_insert_eq; congruence|by rewrite lookup_insert_ne].
    + intros c' n' Hm [[<- <-]|[_ Hc']]%lookup_insert_Some; [specialize (H3 c n Hm En); lia|by eapply H3].
    + intros k' c' Hb%H4. destruct (decide (c = c')) as [<-|Hne]; [rewrite lookup_insert_eq; eauto|by rewrite lookup_insert_ne].
    + intros k' c' Hin. apply H5. by right.
Qed.

Definition in_domain (id : N) (x : Conn) : bool := bool_decide (cn_domain x = id).
Definition permit_in (id : N) (x : Conn) : option (key * key) := if in_domain id x then cn_permit x else None.
Definition permits (id : N) (l : list Conn) : list (key * key) := omap (permit_in id) l.

(** Domains agree with the connections [l], and every connection is of a domain. *)
Record Occupied (ds : gmap N Domain) (l : list Conn) : Prop := {
  oc_domain id d : ds !! id = Some d → DomainInv d (permits id l);
  oc_global id d : ds !! id = Some d → in_use d = N.of_nat (count_if (in_domain id) l) ∧ in_use d ≤ capacity d;
  oc_conn x : x ∈ l → is_Some (ds !! cn_domain x);
}.

Lemma permits_cons id x l : cn_domain x = id →
  permits id (x :: l) = match cn_permit x with Some p => p :: permits id l | None => permits id l end.
Proof. intros Hx. unfold permits. cbn. unfold permit_in at 1, in_domain. by rewrite bool_decide_true. Qed.

Lemma permits_perm id l l' : l ≡ₚ l' → permits id l ≡ₚ permits id l'.
Proof. unfold permits. by intros ->. Qed.

Lemma count_if_perm {A} (P : A → bool) l l' : l ≡ₚ l' → count_if P l = count_if P l'.
Proof. induction 1; rewrite ?count_if_cons; [done|lia|lia|congruence]. Qed.

Lemma occupied_perm ds l l' : Occupied ds l → l ≡ₚ l' → Occupied ds l'.
Proof.
  intros [H1 H2 H3] Hp. constructor.
  - intros id d Hd. eapply domain_perm; [by apply H1|by apply permits_perm].
  - intros id d Hd. rewrite <-(count_if_perm _ _ _ Hp). auto.
  - intros x. rewrite <-Hp. apply H3.
Qed.

(** Changing one domain, together with the one connection at hand. *)
Lemma occupied_update ds x l l' id d d' : Occupied ds (x ++ l) → ds !! id = Some d →
  (∀ y, y ∈ x ++ l' → cn_domain y = id) →
  DomainInv d' (permits id (l' ++ l)) → in_use d' = N.of_nat (count_if (in_domain id) (l' ++ l)) → in_use d' ≤ capacity d' →
  Occupied (<[id := d']> ds) (l' ++ l).
Proof.
  intros [H1 H2 H3] Hd Hx HD Hu Hc.
  assert (∀ id' z, id' ≠ id → (∀ y, y ∈ z → cn_domain y = id) → permits id' z = [] ∧ count_if (in_domain id') z = 0%nat) as Hz.
  { intros id' z Hne Hy. induction z as [|y z IH]; [done|]. destruct IH as [I1 I2]; [intros; apply Hy; by right|].
    assert (in_domain id' y = false) as Ey. { unfold in_domain. apply bool_decide_eq_false. rewrite Hy by by left. done. }
    rewrite count_if_cons, Ey. unfold permits in *. cbn. unfold permit_in at 1. by rewrite Ey. }
  constructor.
  - intros id1 d1 [[<- <-]|[Hne Hd1]]%lookup_insert_Some; [done|]. specialize (H1 _ _ Hd1). unfold permits in *.
    rewrite omap_app in H1 |- *. destruct (Hz id1 x) as [E1 _]; [done|set_solver|]. destruct (Hz id1 l') as [E2 _]; [done|set_solver|].
    unfold permits in E1, E2. rewrite E1 in H1. by rewrite E2.
  - intros id1 d1 [[<- <-]|[Hne Hd1]]%lookup_insert_Some; [done|]. specialize (H2 _ _ Hd1). rewrite count_if_app in H2 |- *.
    destruct (Hz id1 x) as [_ E1]; [done|set_solver|]. destruct (Hz id1 l') as [_ E2]; [done|set_solver|].
    by rewrite E1 in H2; rewrite E2.
  - intros y Hy. destruct (decide (cn_domain y = id)) as [->|Hne]; [rewrite lookup_insert_eq; eauto|].
    rewrite lookup_insert_ne by done. apply H3. set_solver.
Qed.

Lemma retain_loop_occupied c aliases ids m ds l : Occupied ds l → Occupied (retain_loop c aliases ids m ds).2 l.
Proof.
  revert ds. induction ids as [|id ids IH]; intros ds HO; cbn [retain_loop]; [done|].
  destruct (ds !! id) as [d|] eqn:Hd; [|by apply IH]. case_bool_decide; [|by apply IH].
  destruct (bound_elsewhere d c aliases) eqn:Eb; [done|]. apply IH.
  destruct (oc_global _ _ HO _ _ Hd) as [Hu Hc].
  apply (occupied_update ds [] l [] id d); try done; [set_solver|]. apply bind_all_inv; [|done|done]. by apply (oc_domain _ _ HO).
Qed.

Lemma canonical_aliases_key m c k e aliases : canonical_aliases m c = Some aliases → m !! k = Some e →
  canonical e = Some c → k ∈ aliases.
Proof.
  unfold canonical_aliases. set (l := c :: _). destruct (existsb _ l); [done|]. intros [= <-] He Hc.
  apply elem_of_cons. right. apply elem_of_concat. exists (k :: admission_aliases e). split; [by left|].
  apply elem_of_map. exists (k, e). cbn. rewrite bool_decide_true by done. split; [done|]. by apply elem_of_map_to_list.
Qed.

Lemma accept_occupied ds l id d d' : Occupied ds l → ds !! id = Some d → accept d = Some d' →
  Occupied (<[id := d']> ds) (l ++ [mkConn id None]).
Proof.
  intros HO Hd Ha. unfold accept in Ha. destruct (N.ltb_spec (in_use d) (capacity d)) as [Hlt|]; [|done]. injection Ha as <-.
  eapply occupied_perm; [|apply Permutation_cons_append]. destruct (oc_global _ _ HO _ _ Hd) as [Hu _].
  apply (occupied_update ds [] l [mkConn id None] id d); [done|done|set_solver|..]; cbn [in_use capacity policy].
  - cbn [app]. rewrite permits_cons by done. destruct (oc_domain _ _ HO _ _ Hd). by constructor.
  - cbn [app]. rewrite count_if_cons. unfold in_domain at 1. rewrite bool_decide_true by done. lia.
  - unfold capacity in *. cbn. lia.
Qed.

Lemma admit_occupied r ds id k now r' ds' a l : Occupied ds (mkConn id None :: l) →
  admit_inbound r ds id k now = Some (r', ds', a) → Occupied ds' (mkConn id (Some (k, ad_canonical a)) :: l).
Proof.
  intros HO H. unfold admit_inbound in H. apply bind_Some in H as (e & He & H). destruct (_ && _); [done|].
  apply bind_Some in H as (c & Hc & H). apply bind_Some in H as (aliases & Hal & H). apply bind_Some in H as (d & Hd & H).
  destruct (bound_elsewhere d c aliases) eqn:Eb; [done|].
  destruct (negb _ && _) eqn:Ecap; [done|]. apply bind_Some in H as (next & [-> _]%checked_add_Some & H).
  destruct (coordinator_for _ _ _) as [r1 [co|]]; [|done]. cbn in H. injection H as _ <- <-. cbn [ad_canonical].
  destruct (oc_global _ _ HO _ _ Hd) as [Hu Hc'].
  apply (occupied_update ds [mkConn id None] l [mkConn id (Some (k, c))] id d); [done|done|set_solver|..].
  - cbn [app]. rewrite permits_cons by done. cbn [cn_permit].
    pose proof (oc_domain _ _ HO _ _ Hd) as HD. rewrite permits_cons in HD by done. cbn [cn_permit] in HD.
    apply admit_domain; [exact HD|done|by eapply canonical_aliases_key|done|].
    intros Hm. apply andb_false_iff in Ecap as [Ez%negb_false_iff%N.eqb_eq|Ez%N.leb_gt]; [done|lia].
  - cbn [in_use bind_all]. rewrite Hu. cbn [app]. rewrite !count_if_cons. done.
  - done.
Qed.

Lemma close_occupied ds l x : Occupied ds (x :: l) →
  Occupied (alter (λ d, release_global (match cn_permit x with Some (_, c) => release_permit d c | None => d end))
    (cn_domain x) ds) l.
Proof.
  intros HO. destruct (oc_conn _ _ HO x) as [d Hd]; [by left|]. destruct (oc_global _ _ HO _ _ Hd) as [Hu Hc].
  rewrite count_if_cons in Hu. unfold in_domain at 1 in Hu. rewrite bool_decide_true in Hu by done.
  rewrite (alter_present _ _ _ _ Hd).
  set (d1 := match cn_permit x with Some (_, c) => release_permit d c | None => d end).
  assert (in_use d1 = in_use d ∧ policy d1 = policy d) as [Eu Ep].
  { unfold d1, release_permit. destruct (cn_permit x) as [[]|]; [|done]. destruct (counts d !! _); [|done]. by case_match. }
  apply (occupied_update ds [x] l [] (cn_domain x) d); [done|done|set_solver|..].
  - pose proof (oc_domain _ _ HO _ _ Hd) as HD. rewrite permits_cons in HD by done. cbn [app].
    assert (DomainInv d1 (permits (cn_domain x) l)) as [].
    { unfold d1. destruct (cn_permit x) as [[k c]|]; [by eapply release_domain|done]. }
    by constructor.
  - change (in_use d1 - 1 = N.of_nat (count_if (in_domain (cn_domain x)) l)). rewrite Eu, Hu. lia.
  - cbn. unfold capacity in *. cbn. rewrite Eu, Ep. lia.
Qed.

Lemma insert_conn (l : list Conn) i x y : l !! i = Some x →
  l ≡ₚ x :: delete i l ∧ <[i := y]> l ≡ₚ y :: delete i l.
Proof.
  intros Hi. split; [by apply delete_Permutation|]. rewrite insert_take_drop by by eapply lookup_lt_Some.
  rewrite delete_take_drop. by rewrite Permutation_middle.
Qed.

Lemma open_occupied ds l id p : Occupied ds l → ds !! id = None → Occupied (<[id := admission p]> ds) l.
Proof.
  intros [H1 H2 H3] Hn.
  assert (permits id l = [] ∧ count_if (in_domain id) l = 0%nat) as [E1 E2].
  { assert (∀ x, x ∈ l → in_domain id x = false) as Hno.
    { intros x Hx. apply bool_decide_eq_false. intros <-. apply H3 in Hx as [d Hd]. by rewrite Hn in Hd. }
    clear -Hno. induction l as [|x l IH]; [done|]. destruct IH as [I1 I2]; [intros; apply Hno; by right|].
    rewrite count_if_cons. unfold permits in *. cbn. unfold permit_in at 1. rewrite Hno by by left. done. }
  constructor.
  - intros id' d [[<- <-]|[_ Hd]]%lookup_insert_Some; [|auto]. rewrite E1.
    constructor; cbn; try done; intros *; rewrite ?lookup_empty; try done. intros Hin. by apply elem_of_nil in Hin.
  - intros id' d [[<- <-]|[_ Hd]]%lookup_insert_Some; [|auto]. rewrite E2. cbn. unfold capacity. lia.
  - intros x Hx. destruct (decide (cn_domain x = id)) as [->|Hne]; [rewrite lookup_insert_eq; eauto|].
    rewrite lookup_insert_ne by done. auto.
Qed.

Lemma retain_occupied r ds c l : Occupied ds l → Occupied (retain_live_aliases r ds c).2 l.
Proof.
  intros HO. unfold retain_live_aliases. destruct (canonical_aliases _ _) as [aliases|]; [|done].
  pose proof (retain_loop_occupied c aliases (admission_domains r) (stores r) ds l HO). by destruct (retain_loop _ _ _ _ _).
Qed.

Lemma step_occupied w op : Occupied (domains w) (conns w) → Occupied (domains (step w op)) (conns (step w op)).
Proof.
  intros HO. destruct op; cbn [step]; try done.
  - destruct (creators w !! i) as [c|]; [|done]. by destruct (advance_creator _ _ _).
  - destruct (creators w !! i) as [[k []]|]; try done.
  - destruct (creators w !! i) as [[k []]|]; try done. unfold lease_broadcast_entries. cbv zeta.
    set (r2 := with_entry _ _ _ _ _). pose proof (retain_occupied r2 (domains w) k (conns w) HO) as Hr.
    by destruct (retain_live_aliases r2 (domains w) k).
  - by destruct (leases w !! i).
  - destruct (domains w !! id) eqn:Hd; [done|]. by apply open_occupied.
  - destruct (domains w !! id ≫= accept) as [d'|] eqn:Ha; [|done]. apply bind_Some in Ha as (d & Hd & Ha).
    by apply (accept_occupied _ _ _ d).
  - destruct (conns w !! i) as [[id []]|] eqn:Hi; try done.
    destruct (admit_inbound _ _ _ _ _) as [[[r' ds'] a]|] eqn:Ea; [|done]. cbn.
    destruct (insert_conn _ _ _ (mkConn id (Some (k, ad_canonical a))) Hi) as [P1 P2].
    eapply occupied_perm; [|symmetry; exact P2]. eapply admit_occupied; [|exact Ea]. by eapply occupied_perm.
  - destruct (conns w !! i) as [x|] eqn:Hi; [|done]. cbn. apply close_occupied. eapply occupied_perm; [exact HO|].
    by apply delete_Permutation.
Qed.

(** ** Theorem on admission *)

(** inbound connections stay within their caps.  Over any sequence of operations, in every admission domain the
    connections never exceed the global cap; the ones charged to a stream identity never exceed the per-stream
    cap, by whatever of its keys they asked for it; and two connections that asked for the same key are charged
    to the same identity, also when the key was re-registered for another one in between. *)
Theorem inbound_occupancy_bounded ops id d :
  let w := run world_new ops in
  domains w !! id = Some d →
  N.of_nat (count_if (in_domain id) (conns w)) ≤ N.max (max_inbound (policy d)) 1 ∧
  (max_per_stream (policy d) ≠ 0 → ∀ c, N.of_nat (charged c (permits id (conns w))) ≤ max_per_stream (policy d)) ∧
  (∀ k c c', (k, c) ∈ permits id (conns w) → (k, c') ∈ permits id (conns w) → c = c').
Proof.
  intros w Hd. assert (Occupied (domains w) (conns w)) as HO.
  { unfold w. clear Hd w. induction ops as [|op ops IH] using rev_ind.
    - constructor; cbn; intros *; rewrite ?lookup_empty; try done. intros Hx. by apply elem_of_nil in Hx.
    - unfold run. rewrite fold_left_app. cbn [fold_left]. by apply step_occupied. }
  destruct (oc_global _ _ HO _ _ Hd) as [Hu Hc]. destruct (oc_domain _ _ HO _ _ Hd) as [D1 D2 D3 D4 D5]. split_and!.
  - rewrite <-Hu. exact Hc.
  - intros Hm c. rewrite <-D1. destruct (counts d !! c) as [n|] eqn:En; cbn; [by eapply D3|lia].
  - intros k c c' H1%D5 H2%D5. congruence.
Qed.

(** ** Runs *)

Definition ih : key := bs "infohash".
Definition cid : key := bs "content".

(** Two callers look before either publishes; the second reaches the rendezvous after the first has left it. *)
Definition ex_race : list Op :=
  [BeginCreate ih; BeginCreate ih; AdvanceCreator 1 0] ++ replicate 5 (AdvanceCreator 0 0).

Lemma late_creator_builds_again_witness :
  let w := run world_new ex_race in let w' := run w (replicate 3 (AdvanceCreator 1 0)) in
  next_store (reg w) = 1 ∧ next_store (reg w') = 2 ∧ entry_store ih (reg w') = Some 0.
Proof.
  cbv zeta. split; [by vm_compute|].
  destruct (late_creator_builds_again (run world_new ex_race) 1 ih 0 0) as (H1 & H2 & _);
    [by vm_compute|by vm_compute|by vm_compute|]. split; [|exact H2]. rewrite H1. by vm_compute.
Defined.

Definition ex_calm : list Op :=
  ex_race ++ replicate 4 (AdvanceCreator 1 0) ++ [LeaseCreated 0 0; LeaseBroadcast 1 cid (bs "descriptor") 0].

Lemma creators_share_store_witness :
  0 = 0 ∧ entry_store ih (reg (run world_new ex_calm)) = Some 0.
Proof.
  apply (creators_share_store ex_calm 0 1 (mkCreator ih (Created 0)) (mkCreator ih (Created 0)) 0 0);
    [by vm_compute|by repeat constructor|by vm_compute..].
Defined.

(** The leech lease is dropped: the broadcast lease holds the entry, also against the reaper. *)
Lemma lease_anchors_entry_witness :
  ∃ e, stores (reg (run world_new (ex_calm ++ [DropLease 0]))) !! ih = Some e ∧ producers e = 1 ∧
    ∃ e', stores (reg (step (run world_new (ex_calm ++ [DropLease 0])) (Reap 1000 1))) !! ih = Some e' ∧
      generation e' = generation e.
Proof.
  destruct (stores (reg (run world_new (ex_calm ++ [DropLease 0]))) !! ih) as [e|] eqn:He; [|by vm_compute in He].
  destruct (lease_anchors_entry (ex_calm ++ [DropLease 0]) (Reap 1000 1) ih e) as (H1 & H2 & _); [by vm_compute|exact He|].
  assert (generation <$> stores (reg (run world_new (ex_calm ++ [DropLease 0]))) !! ih = Some 1) as Hg by by vm_compute.
  rewrite He in Hg. injection Hg as Hg.
  exists e. split; [done|]. split; [rewrite H1, Hg; by vm_compute|].
  destruct H2 as (e' & ? & ? & _); [done|rewrite Hg; apply (bool_decide_unpack _); by vm_compute..|]. eauto.
Defined.

Definition ex_crowded : list Op :=
  ex_calm ++ [OpenDomain 0 (mkPolicy 3 2 4); Accept 0; Accept 0; Accept 0; Accept 0; Admit 0 ih 1; Admit 1 cid 2; Admit 2 ih 3].

Lemma inbound_occupancy_bounded_witness :
  let w := run world_new ex_crowded in
  length (conns w) = 3%nat ∧ N.of_nat (charged ih (permits 0 (conns w))) ≤ 2 ∧ charged ih (permits 0 (conns w)) = 2%nat.
Proof.
  cbv zeta. split; [by vm_compute|]. split; [|by vm_compute].
  destruct (domains (run world_new ex_crowded) !! 0) as [d|] eqn:Hd; [|by vm_compute in Hd].
  assert (policy <$> domains (run world_new ex_crowded) !! 0 = Some (mkPolicy 3 2 4)) as Hp by by vm_compute.
  rewrite Hd in Hp. injection Hp as Hp.
  destruct (inbound_occupancy_bounded ex_crowded 0 d Hd) as (_ & H & _). rewrite Hp in H. by apply H.
Defined.
