(* ===== verification/Vod.v ===== *)
(** * Video on demand: pieces from peers

    [ace-swarm/src/types.rs] ([VodInfo]), [ace-swarm/src/vod.rs] (the piece buffer and its packed
    coverage bits) and the per-connection half of [ace-swarm/src/vod/coordinator.rs]: what a peer
    is known to have, and the loop that requests the blocks of a piece and verifies the result.
    An indexing expression that could panic is an [option]; the theorems show that it never is
    [None].  A connection's input is a list of messages, [Broken] standing for a closed or failing
    socket and for every expired deadline. *)

From S2P Require Import Prelude Order Bytes Message Handshake Metainfo.

Local Open Scope N_scope.

(** ** Geometry *)

Record VodInfo : Type := mkVodInfo {
  vod_protection : option Protection;
  vod_infohash : bytes;
  peer_protocol : HandshakeProtocol;
  vod_piece_length : N;
  vod_chunk_length : N;
  vod_trackers : list bytes;
  vod_piece_hashes : list bytes;
  vod_total_length : N;
}.

Definition vod_chunks_per_piece (info : VodInfo) : N := vod_piece_length info `div` vod_chunk_length info `mod` two16.
Definition vod_piece_count (info : VodInfo) : N := lenN (vod_piece_hashes info).
Definition piece_size (info : VodInfo) (index : N) : N :=
  let start := u64_mul index (vod_piece_length info) in
  N.min (saturating_sub (vod_total_length info) start) (vod_piece_length info).

(** ** The piece buffer *)

Record PieceBuffer : Type := mkBuffer { buf_bytes : bytes; covered : bytes; covered_len : N }.

Definition buffer_new (piece_len : N) : PieceBuffer :=
  mkBuffer (replicate (N.to_nat piece_len) x00) (replicate (N.to_nat (div_ceil piece_len 8)) x00) 0.

(** One turn of the coverage loop of [add_block]. *)
Definition cover_byte (b : PieceBuffer) (offset : N) : option PieceBuffer :=
  let mask := N.shiftl 1 (offset `mod` 8) in
  let i := N.to_nat (offset `div` 8) in
  c ← covered b !! i;
  Some (if N.land (byte_N c) mask =? 0
        then mkBuffer (buf_bytes b) (<[i := N_byte (N.lor (byte_N c) mask)]> (covered b)) (covered_len b + 1)
        else b).

Fixpoint cover_all (b : PieceBuffer) (l : list N) : option PieceBuffer :=
  match l with
  | [] => Some b
  | o :: l => b ← cover_byte b o; cover_all b l
  end.

Definition copy_at (l : bytes) (start : nat) (block : bytes) : bytes :=
  take start l ++ block ++ drop (start + length block) l.

Definition add_block (b : PieceBuffer) (begin : N) (block : bytes) : option (result unit bool * PieceBuffer) :=
  if bool_decide (block = []) then Some (Err (), b)
  else match checked_add begin (lenN block) with
    | None => Some (Err (), b)
    | Some finish =>
        if (lenN (buf_bytes b) <=? begin) || (lenN (buf_bytes b) <? finish) then Some (Err (), b)
        else
          let written := mkBuffer (copy_at (buf_bytes b) (N.to_nat begin) block) (covered b) (covered_len b) in
          b' ← cover_all written (range begin (finish - begin));
          Some (Ok (covered_len b <? covered_len b'), b')
    end.

Definition covered_bit (b : PieceBuffer) (offset : N) : option bool :=
  c ← covered b !! N.to_nat (offset `div` 8);
  Some (negb (N.land (byte_N c) (N.shiftl 1 (offset `mod` 8)) =? 0)).

(** [Iterator::all] stops at the first [false]. *)
Fixpoint all_covered (b : PieceBuffer) (l : list N) : option bool :=
  match l with
  | [] => Some true
  | o :: l => v ← covered_bit b o; if (v : bool) then all_covered b l else Some false
  end.

Definition buf_covers (b : PieceBuffer) (start finish : N) : option bool := all_covered b (range start (finish - start)).
Definition is_complete (b : PieceBuffer) : bool := covered_len b =? lenN (buf_bytes b).

(** ** What a peer has *)

Inductive Failure : Type := PeerFailure | HashFailure.

Record Availability : Type := mkAvailability { unchoked : bool; bits : option bytes }.

Definition availability_default : Availability := mkAvailability false None.

Definition piece_mask (piece : N) : N := N.shiftr 128 (piece `mod` 8).

Definition has (a : Availability) (piece : N) : option bool :=
  match bits a with
  | None => Some true
  | Some l => c ← l !! N.to_nat (piece `div` 8); Some (negb (N.land (byte_N c) (piece_mask piece) =? 0))
  end.

(** The test [control] makes of a bitfield: the length, and no bit set past the last piece. *)
Definition bitfield_ok (l : bytes) (count : N) : bool :=
  (lenN l =? div_ceil count 8) &&
  negb (negb (is_multiple_of count 8) &&
        match last l with
        | Some c => negb (N.land (byte_N c) (N.shiftl 1 (8 - count `mod` 8) - 1) =? 0)
        | None => false
        end).

Definition control (a : Availability) (m : PeerMessage) (count : N) : option (result Failure unit * Availability) :=
  match m with
  | Choke => Some (Ok (), mkAvailability false (bits a))
  | Unchoke => Some (Ok (), mkAvailability true (bits a))
  | Bitfield l =>
      Some (if bitfield_ok l count then (Ok (), mkAvailability (unchoked a) (Some l)) else (Err PeerFailure, a))
  | Have index =>
      if count <=? index then Some (Err PeerFailure, a)
      else match bits a with
        | None => Some (Ok (), a)
        | Some l =>
            let i := N.to_nat (index `div` 8) in
            c ← l !! i;
            Some (Ok (), mkAvailability (unchoked a) (Some (<[i := N_byte (N.lor (byte_N c) (piece_mask index))]> l)))
        end
  | _ => Some (Ok (), a)
  end.

(** ** Assembling a piece *)

Definition REQUESTS : nat := 8.

Record Assembly : Type := mkAssembly {
  buffer : PieceBuffer;
  sent : N;
  outstanding : list (N * N);
}.

Definition assembly_new (info : VodInfo) (piece : N) : Assembly := mkAssembly (buffer_new (piece_size info piece)) 0 [].

(** The request loop: it stops at eight outstanding requests, so eight turns are enough. *)
Fixpoint request_more (fuel : nat) (info : VodInfo) (piece len : N) (s : Assembly) : list PeerMessage * Assembly :=
  match fuel with
  | O => ([], s)
  | S fuel =>
      if bool_decide (length (outstanding s) < REQUESTS)%nat && (sent s <? len) then
        let n := N.min (vod_chunk_length info) (len - sent s) in
        let request := Request (piece `mod` two32) (sent s `mod` two32) (n `mod` two32) in
        let '(more, s) := request_more fuel info piece len
          (mkAssembly (buffer s) (sent s + n) (outstanding s ++ [(sent s, sent s + n)])) in
        (request :: more, s)
      else ([], s)
  end.

Definition assemble_requests (info : VodInfo) (piece : N) (a : Availability) (s : Assembly) : list PeerMessage * Assembly :=
  if unchoked a then request_more REQUESTS info piece (piece_size info piece) s else ([], s).

(** [Vec::retain] over a predicate that can index out of range. *)
Fixpoint retain_uncovered (b : PieceBuffer) (l : list (N * N)) : option (list (N * N)) :=
  match l with
  | [] => Some []
  | r :: l => c ← buf_covers b r.1 r.2; l ← retain_uncovered b l; Some (if (c : bool) then l else r :: l)
  end.

Inductive Input : Type := Received (m : PeerMessage) | Broken.

Inductive Outcome : Type := Pending (s : Assembly) | Finished (r : result Failure bytes).

Section assemble.
Context (sha1 : bytes → bytes).

Definition verify_vod_piece (expected data : bytes) : bool := bool_decide (sha1 data = expected).

(** The body of the loop after a message has arrived. *)
Definition assemble_message (info : VodInfo) (piece : N) (a : Availability) (s : Assembly) (m : PeerMessage)
    : option (Availability * Outcome) :=
  let controlled :=
    '(r, a) ← control a m (vod_piece_count info);
    Some (a, match r with Ok _ => Pending s | Err f => Finished (Err f) end) in
  match m with
  | Piece index begin block =>
      if index =? piece then
        match checked_add begin (lenN block) with
        | None => Some (a, Finished (Err PeerFailure))
        | Some finish =>
            if sent s <? finish then Some (a, Finished (Err PeerFailure))
            else
              '(r, b) ← add_block (buffer s) begin block;
              match r with
              | Err _ => Some (a, Finished (Err PeerFailure))
              | Ok _ =>
                  l ← retain_uncovered b (outstanding s);
                  if is_complete b then
                    expected ← vod_piece_hashes info !! N.to_nat piece;
                    Some (a, Finished (if verify_vod_piece expected (buf_bytes b) then Ok (buf_bytes b) else Err HashFailure))
                  else Some (a, Pending (mkAssembly b (sent s) l))
              end
        end
      else controlled
  | _ => controlled
  end.

(** One turn: the requests that are sent, then the input that is read. *)
Definition assemble_turn (info : VodInfo) (piece : N) (a : Availability) (s : Assembly) (i : Input)
    : option (list PeerMessage * Availability * Outcome) :=
  let '(requests, s) := assemble_requests info piece a s in
  match i with
  | Broken => Some (requests, a, Finished (Err PeerFailure))
  | Received m => '(a, o) ← assemble_message info piece a s m; Some (requests, a, o)
  end.

Fixpoint assemble_run (info : VodInfo) (piece : N) (a : Availability) (s : Assembly) (l : list Input)
    : option (list PeerMessage * Availability * Outcome) :=
  match l with
  | [] => let '(requests, s) := assemble_requests info piece a s in Some (requests, a, Pending s)
  | i :: l =>
      '(requests, a, o) ← assemble_turn info piece a s i;
      match o with
      | Pending s => '(more, a, o) ← assemble_run info piece a s l; Some (requests ++ more, a, o)
      | Finished _ => Some (requests, a, o)
      end
  end.

Definition assemble_piece (info : VodInfo) (piece : N) (a : Availability) (l : list Input)
    : option (list PeerMessage * Availability * Outcome) :=
  assemble_run info piece a (assembly_new info piece) l.
End assemble.

(** ** Bits *)

Lemma land_bit c k : (N.land c (N.shiftl 1 k) =? 0) = negb (N.testbit c k).
Proof.
  rewrite N.shiftl_1_l. destruct (N.testbit c k) eqn:E; cbn.
  - apply N.eqb_neq. intros H. assert (N.testbit (N.land c (2 ^ k)) k = true) as Ht.
    { by rewrite N.land_spec, E, N.pow2_bits_true. }
    by rewrite H, N.bits_0 in Ht.
  - apply N.eqb_eq, N.bits_inj. intros i. rewrite N.land_spec, N.bits_0, N.pow2_bits_eqb.
    destruct (N.eqb_spec k i) as [->|]; [by rewrite E|apply andb_false_r].
Qed.

Lemma lor_byte c k : k < 8 → N.lor (byte_N c) (N.shiftl 1 k) < 256.
Proof.
  intros Hk. apply (N.log2_lt_cancel _ 256). rewrite N.log2_lor. change (N.log2 256) with 8.
  pose proof (byte_N_lt c). rewrite N.shiftl_1_l, N.log2_pow2 by lia.
  destruct (N.eq_dec (byte_N c) 0) as [->|]; [cbn; lia|].
  pose proof (proj1 (N.log2_lt_pow2 (byte_N c) 8 ltac:(lia)) ltac:(change (2 ^ 8) with 256; lia)). lia.
Qed.

Lemma lor_bit c k i : k < 8 →
  N.testbit (byte_N (N_byte (N.lor (byte_N c) (N.shiftl 1 k)))) i = N.testbit (byte_N c) i || (k =? i).
Proof. intros Hk. by rewrite byte_N_of_N, N.lor_spec, N.shiftl_1_l, N.pow2_bits_eqb by by apply lor_byte. Qed.

Lemma div_ceil_lt a k i : 0 < k → i * k < a ↔ i < div_ceil a k.
Proof.
  intros Hk. unfold div_ceil. pose proof (N.div_mod a k ltac:(lia)) as Hd. pose proof (N.mod_lt a k ltac:(lia)) as Hm.
  set (q := a `div` k) in *. set (r := a `mod` k) in *. destruct (N.eqb_spec r 0); rewrite Hd; split; intros H; nia.
Qed.

Lemma div_ceil_index o len k : 0 < k → o < len → o `div` k < div_ceil len k.
Proof. intros Hk Ho. apply div_ceil_lt; [done|]. pose proof (div_mul_bounds o k Hk). lia. Qed.

(** ** Coverage

    The packed bits stand for the set of the offsets that have been written. *)

Record Covers (len : N) (b : PieceBuffer) (X : gset N) : Prop := {
  cv_len : lenN (buf_bytes b) = len;
  cv_bits : lenN (covered b) = div_ceil len 8;
  cv_bit : ∀ o, o < len → covered_bit b o = Some (bool_decide (o ∈ X));
  cv_dom : ∀ o, o ∈ X → o < len;
  cv_count : covered_len b = N.of_nat (size X);
}.

Definition offsets (start finish : N) : gset N := list_to_set (range start (finish - start)).

Lemma elem_of_offsets a b o : a ≤ b → o ∈ offsets a b ↔ a ≤ o < b.
Proof. intros Hab. unfold offsets. rewrite elem_of_list_to_set, elem_of_range. lia. Qed.

Lemma covers_new len : Covers len (buffer_new len) ∅.
Proof.
  constructor; cbn; unfold lenN; rewrite ?length_replicate; try lia; try set_solver.
  intros o Ho. unfold covered_bit. cbn. rewrite lookup_replicate_2 by (pose proof (div_ceil_index o len 8); lia).
  cbn. rewrite land_bit, N.bits_0. cbn. by rewrite bool_decide_false by set_solver.
Qed.

Lemma covered_bit_testbit b o : covered_bit b o =
  (λ c, N.testbit (byte_N c) (o `mod` 8)) <$> covered b !! N.to_nat (o `div` 8).
Proof. unfold covered_bit. destruct (covered b !! _); cbn; [by rewrite land_bit, negb_involutive|done]. Qed.

Lemma cover_byte_spec len b X o : Covers len b X → o < len →
  ∃ b', cover_byte b o = Some b' ∧ Covers len b' ({[o]} ∪ X) ∧ buf_bytes b' = buf_bytes b.
Proof.
  intros [H1 H2 H3 H4 H5] Ho. unfold cover_byte. pose proof (H3 o Ho) as Hb. rewrite covered_bit_testbit in Hb.
  destruct (covered b !! N.to_nat (o `div` 8)) as [c|] eqn:Ec; [|done]. cbn in Hb. injection Hb as Hb.
  cbn. rewrite land_bit, Hb. assert (o `mod` 8 < 8) as Hm by (apply N.mod_lt; lia).
  case_bool_decide as Hx; cbn; eexists; (split_and!; [done| |done]).
  - replace ({[o]} ∪ X) with X by set_solver. by constructor.
  - constructor; cbn; [done|unfold lenN in *; by rewrite length_insert| | |].
    + intros p Hp. rewrite covered_bit_testbit. cbn. pose proof (H3 p Hp) as Hq. rewrite covered_bit_testbit in Hq.
      destruct (N.eq_dec (p `div` 8) (o `div` 8)) as [Ed|Ed].
      * rewrite Ed, list_lookup_insert_eq by by eapply lookup_lt_Some. rewrite Ed, Ec in Hq. cbn in Hq. injection Hq as Hq.
        cbn. rewrite lor_bit, Hq by done. f_equal. apply Bool.eq_iff_eq_true.
        rewrite orb_true_iff, N.eqb_eq, !bool_decide_eq_true. rewrite elem_of_union, elem_of_singleton.
        pose proof (N.div_mod p 8). pose proof (N.div_mod o 8). split; [intros [|]|intros [->|]]; auto; left; lia.
      * rewrite list_lookup_insert_ne, Hq by lia. f_equal. apply bool_decide_ext. set_solver.
    + set_solver.
    + rewrite size_union, size_singleton by set_solver. lia.
Qed.

Lemma cover_all_spec len b X l : Covers len b X → (∀ o, o ∈ l → o < len) →
  ∃ b', cover_all b l = Some b' ∧ Covers len b' (list_to_set l ∪ X) ∧ buf_bytes b' = buf_bytes b.
Proof.
  revert b X. induction l as [|o l IH]; intros b X HC Hl.
  - exists b. rewrite list_to_set_nil, union_empty_l_L. done.
  - destruct (cover_byte_spec len b X o HC) as (b1 & E1 & C1 & D1); [apply Hl; by left|].
    destruct (IH _ _ C1) as (b2 & E2 & C2 & D2); [intros p Hp; apply Hl; by right|].
    exists b2. cbn [cover_all]. rewrite E1. split_and!; [exact E2| |congruence].
    by rewrite list_to_set_cons, (union_comm_L {[o]}), <-union_assoc_L.
Qed.

Lemma copy_at_length l start block : (start + length block ≤ length l)%nat → length (copy_at l start block) = length l.
Proof. intros H. unfold copy_at. autorewrite with outpace_len. lia. Qed.

Lemma lookup_copy_at l start block o : (start + length block ≤ length l)%nat →
  copy_at l start block !! o =
    if bool_decide (start ≤ o < start + length block)%nat then block !! (o - start)%nat else l !! o.
Proof.
  intros H. unfold copy_at. case_bool_decide as Ho.
  - rewrite lookup_app_r by (rewrite length_take; lia). rewrite length_take, Nat.min_l by lia.
    by rewrite lookup_app_l by lia.
  - destruct (decide (o < start)%nat).
    + rewrite lookup_app_l by (rewrite length_take; lia). by rewrite lookup_take_lt.
    + rewrite lookup_app_r by (rewrite length_take; lia). rewrite length_take, Nat.min_l by lia.
      rewrite lookup_app_r by lia. rewrite lookup_drop. f_equal. lia.
Qed.

(** A block that fits is written and exactly its offsets are added; everything else is refused and changes nothing. *)
Lemma add_block_spec len b X begin block : Covers len b X → len < two64 →
  if bool_decide (block ≠ []) && (begin + lenN block <=? len) then
    ∃ b', add_block b begin block =
        Some (Ok (negb (bool_decide (offsets begin (begin + lenN block) ⊆ X))), b') ∧
      Covers len b' (offsets begin (begin + lenN block) ∪ X) ∧
      buf_bytes b' = copy_at (buf_bytes b) (N.to_nat begin) block
  else add_block b begin block = Some (Err (), b).
Proof.
  intros HC Hw. pose proof HC as [H1 H2 H3 H4 H5]. unfold add_block, checked_add.
  destruct (decide (block = [])) as [->|Hb]; [done|]. rewrite (bool_decide_eq_false_2 (block = [])) by done.
  rewrite (bool_decide_eq_true_2 (block ≠ [])) by done.
  cbn [andb]. assert (0 < lenN block) as Hpos by (destruct block; [done|unfold lenN; cbn; lia]).
  destruct (N.leb_spec (begin + lenN block) len) as [Hle|Hgt].
  - rewrite (proj2 (N.ltb_lt _ _)) by lia. rewrite H1, (proj2 (N.leb_gt _ _)), (proj2 (N.ltb_ge _ _)) by lia. cbn [orb].
    destruct (cover_all_spec len (mkBuffer (copy_at (buf_bytes b) (N.to_nat begin) block) (covered b) (covered_len b)) X
      (range begin (begin + lenN block - begin))) as (b' & E & C & D).
    + constructor; cbn; try done. unfold lenN in *. rewrite copy_at_length; lia.
    + intros o. rewrite elem_of_range. lia.
    + fold (offsets begin (begin + lenN block)) in C. rewrite E. cbn. exists b'. split_and!; [|done|done]. do 3 f_equal.
      rewrite H5, (cv_count _ _ _ C). apply Bool.eq_iff_eq_true. rewrite N.ltb_lt, negb_true_iff, bool_decide_eq_false.
      split.
      * intros Hlt Hs. rewrite subseteq_union_1_L in Hlt by done. lia.
      * intros Hns. enough (size X < size (offsets begin (begin + lenN block) ∪ X))%nat by lia. apply subset_size.
        split; [set_solver|]. intros Hs. apply Hns. set_solver.
  - destruct (N.ltb_spec (begin + lenN block) two64); [|done].
    rewrite (proj2 (N.ltb_lt _ _)) by lia. by rewrite orb_true_r.
Qed.

Lemma covered_all len b X l : Covers len b X → (∀ o, o ∈ l → o < len) →
  all_covered b l = Some (bool_decide ((list_to_set l : gset N) ⊆ X)).
Proof.
  intros HC. induction l as [|o l IH]; intros Hl; cbn [all_covered].
  - by rewrite bool_decide_true by set_solver.
  - rewrite (cv_bit _ _ _ HC) by (apply Hl; by left). cbn [mbind option_bind].
    destruct (bool_decide_reflect (o ∈ X)) as [Ho|Ho].
    + rewrite IH by (intros p Hp; apply Hl; by right). f_equal. apply bool_decide_ext. rewrite list_to_set_cons. set_solver.
    + rewrite bool_decide_false; [done|]. rewrite list_to_set_cons. set_solver.
Qed.

Lemma buf_covers_spec len b X r : Covers len b X → r.2 ≤ len →
  buf_covers b r.1 r.2 = Some (bool_decide (offsets r.1 r.2 ⊆ X)).
Proof. intros HC Hr. apply (covered_all len); [done|]. intros o. rewrite elem_of_range. lia. Qed.

Lemma retain_uncovered_spec len b X l : Covers len b X → (∀ r, r ∈ l → r.2 ≤ len) →
  retain_uncovered b l = Some (List.filter (λ r, negb (bool_decide (offsets r.1 r.2 ⊆ X))) l).
Proof.
  intros HC. induction l as [|r l IH]; intros Hl; [done|]. cbn [retain_uncovered List.filter].
  rewrite (buf_covers_spec len b X) by (done || (apply Hl; by left)). rewrite IH by (intros q Hq; apply Hl; by right).
  cbn. by case_bool_decide.
Qed.

Lemma complete_spec len b X : Covers len b X → is_complete b = true ↔ offsets 0 len ⊆ X.
Proof.
  intros HC. unfold is_complete. rewrite N.eqb_eq, (cv_len _ _ _ HC), (cv_count _ _ _ HC).
  assert (size (offsets 0 len) = N.to_nat len) as Hs.
  { unfold offsets. rewrite size_list_to_set by apply NoDup_range. rewrite length_range. lia. }
  assert (X ⊆ offsets 0 len) as HX by (intros o Ho; apply elem_of_offsets; [lia|]; pose proof (cv_dom _ _ _ HC o Ho); lia).
  split.
  - intros E. assert (X ≡ offsets 0 len) as -> by (apply set_subseteq_size_equiv; [done|lia]). done.
  - intros H. assert (X ≡ offsets 0 len) as -> by (apply (anti_symm (⊆)); done). lia.
Qed.

(** ** Availability *)

(** A stored bitfield has one bit for every piece. *)
Definition fits (count : N) (a : Availability) : Prop := ∀ l, bits a = Some l → lenN l = div_ceil count 8.

Lemma has_total count a p : fits count a → p < count → is_Some (has a p).
Proof.
  intros Hf Hp. unfold has. destruct (bits a) as [l|] eqn:E; [|done]. pose proof (div_ceil_index p count 8 ltac:(lia) Hp).
  destruct (lookup_lt_is_Some_2 l (N.to_nat (p `div` 8))) as [c Hc]; [|by rewrite Hc].
  pose proof (Hf _ E). unfold lenN in *. lia.
Qed.

Lemma control_total count a m : fits count a → ∃ r a', control a m count = Some (r, a') ∧ fits count a'.
Proof.
  intros Hf. unfold control. destruct m; try by eauto.
  - case_tests; [eauto| |eauto].
    destruct (lookup_lt_is_Some_2 l (N.to_nat (piece `div` 8))) as [c Hc].
    { pose proof (div_ceil_index piece count 8). pose proof (Hf _ ltac:(done)). unfold lenN in *. lia. }
    rewrite Hc. cbn. eexists _, _. split; [done|]. intros l' [= <-]. cbn. unfold lenN. rewrite length_insert. by apply Hf.
  - destruct (bitfield_ok bits0 count) eqn:E; [|by eauto]. eexists _, _. split; [done|]. intros l [= <-].
    unfold bitfield_ok in E. apply andb_true_iff in E as [?%N.eqb_eq _]. done.
Qed.

(** ** Assembly *)

(** What a resolved descriptor guarantees: see [validate_geometry] and the metainfo decoder. *)
Record VodGeometry (info : VodInfo) : Prop := {
  vg_chunk : 0 < vod_chunk_length info;
  vg_piece : vod_piece_length info < two32;
  vg_count : vod_piece_count info ≤ two32;
}.

(** The requests that tile a piece. *)
Definition tile (info : VodInfo) (piece k : N) : PeerMessage :=
  let begin := k * vod_chunk_length info in
  Request piece begin (N.min (vod_chunk_length info) (piece_size info piece - begin)).

Definition tile_count (info : VodInfo) (piece : N) : N := div_ceil (piece_size info piece) (vod_chunk_length info).

Section assembly.
Context (sha1 : bytes → bytes) (info : VodInfo) (piece : N).
Context (HG : VodGeometry info) (Hpiece : piece < vod_piece_count info).

Let len : N := piece_size info piece.
Let chunk : N := vod_chunk_length info.

(** After [k] requests: what has been asked for is written or still outstanding. *)
Record Assembling (k : N) (s : Assembly) (X : gset N) : Prop := {
  as_covers : Covers len (buffer s) X;
  as_sent : sent s = N.min (k * chunk) len;
  as_count : k ≤ tile_count info piece;
  as_written : ∀ o, o ∈ X → o < sent s;
  as_open : ∀ r, r ∈ outstanding s → r.1 < r.2 ≤ sent s;
  as_missing : ∀ o, o < sent s → o ∈ X ∨ ∃ r, r ∈ outstanding s ∧ r.1 ≤ o < r.2;
  as_unfinished : ¬ offsets 0 len ⊆ X;
  as_most : (length (outstanding s) ≤ REQUESTS)%nat;
}.

Lemma len_small : len < two32.
Proof. unfold len, piece_size. pose proof (vg_piece _ HG). lia. Qed.

Lemma assembling_new : 0 < len → Assembling 0 (assembly_new info piece) ∅.
Proof.
  intros Hl. constructor; cbn; try (set_solver || lia); [apply covers_new|].
  intros H. apply (not_elem_of_empty (C:=gset N) 0), H, elem_of_offsets; lia.
Qed.

Lemma tile_step k s : k * chunk < len → sent s = N.min (k * chunk) len →
  Request (piece `mod` two32) (sent s `mod` two32) (N.min chunk (len - sent s) `mod` two32) = tile info piece k.
Proof.
  intros Hk ->. unfold tile. fold len. fold chunk. rewrite N.min_l by lia. pose proof len_small. pose proof (vg_count _ HG).
  rewrite !N.mod_small by lia. done.
Qed.

Lemma tile_index k : k * chunk < len ↔ k < tile_count info piece.
Proof. apply div_ceil_lt, (vg_chunk _ HG). Qed.

Lemma request_more_spec fuel k s X : Assembling k s X →
  ∃ j s', request_more fuel info piece len s = (map (tile info piece) (range k j), s') ∧
    Assembling (k + j) s' X ∧ buffer s' = buffer s ∧
    N.of_nat (length (outstanding s')) = N.of_nat (length (outstanding s)) + j ∧
    ((REQUESTS ≤ fuel + length (outstanding s))%nat → sent s' < len → length (outstanding s') = REQUESTS).
Proof.
  revert k s. induction fuel as [|fuel IH]; intros k s HA; cbn [request_more].
  { exists 0, s. rewrite N.add_0_r. split_and!; try done; [lia|]. pose proof (as_most _ _ _ HA). lia. }
  case_bool_decide as Hm; cbn [andb]; [destruct (N.ltb_spec (sent s) len) as [Hs|Hs]|].
  - pose proof HA as [H1 H2 H3 H4 H5 H6 H7 H8]. assert (k * chunk < len) as Hk by lia. assert (sent s = k * chunk) as Ek by lia.
    pose proof (vg_chunk _ HG) as Hc. fold chunk in Hc |- *. set (n := N.min chunk (len - sent s)).
    assert (0 < n) as Hn by lia.
    assert (Assembling (k + 1) (mkAssembly (buffer s) (sent s + n) (outstanding s ++ [(sent s, sent s + n)])) X) as HA'.
    { constructor; cbn [buffer sent outstanding]; try done.
      - unfold n. lia.
      - pose proof (tile_index k). lia.
      - intros o Ho. pose proof (H4 o Ho). lia.
      - intros r [Hr|Hr%list_elem_of_singleton]%elem_of_app; [pose proof (H5 r Hr); lia|]. subst r. cbn. lia.
      - intros o Ho. destruct (decide (o < sent s)) as [Hlt|Hge].
        + destruct (H6 o Hlt) as [|(r & Hr & ?)]; [by left|right]. exists r. rewrite elem_of_app. auto.
        + right. exists (sent s, sent s + n). rewrite elem_of_app, list_elem_of_singleton. cbn. split; [auto|lia].
      - rewrite length_app. cbn. lia. }
    destruct (IH _ _ HA') as (j & s' & -> & HA2 & Eb & El & Hf). exists (1 + j), s'. cbn [outstanding] in El, Hf.
    rewrite length_app in El, Hf. cbn [length] in El, Hf. unfold n. rewrite (tile_step k s) by done.
    rewrite range_cons, N.add_assoc. split_and!; [done|done|done|lia|]. intros. apply Hf; [lia|done].
  - exists 0, s. rewrite N.add_0_r. split_and!; try done; lia.
  - exists 0, s. rewrite N.add_0_r. split_and!; try done; [lia|]. pose proof (as_most _ _ _ HA). lia.
Qed.

(** The requests of a turn; an unchoked connection of an unfinished piece has something outstanding afterwards. *)
Lemma requests_spec k s X a : Assembling k s X →
  ∃ j s', assemble_requests info piece a s = (map (tile info piece) (range k j), s') ∧
    Assembling (k + j) s' X ∧ buffer s' = buffer s ∧
    N.of_nat (length (outstanding s')) = N.of_nat (length (outstanding s)) + j ∧
    (unchoked a = true → outstanding s' ≠ []).
Proof.
  intros HA. unfold assemble_requests. destruct (unchoked a).
  - destruct (request_more_spec REQUESTS k s X HA) as (j & s' & E & HA' & Eb & El & Hf). exists j, s'.
    split_and!; try done. intros _ Hnil. rewrite Hnil in Hf. specialize (Hf ltac:(lia)).
    destruct (decide (sent s' < len)) as [Hlt|Hge]; [by specialize (Hf Hlt)|].
    apply (as_unfinished _ _ _ HA'). intros o [_ Ho]%elem_of_offsets; [|lia].
    destruct (as_missing _ _ _ HA' o) as [|(r & Hr & _)]; [lia|done|]. rewrite Hnil in Hr. by apply elem_of_nil in Hr.
  - exists 0, s. rewrite N.add_0_r. split_and!; try done. lia.
Qed.

(** What a finished assembly has established. *)
Definition settled (o : Outcome) : Prop :=
  match o with
  | Finished (Ok d) => lenN d = len ∧ vod_piece_hashes info !! N.to_nat piece = Some (sha1 d)
  | _ => True
  end.

(** A block within what was requested: the piece is settled, or its offsets are covered and their requests gone. *)
Lemma block_spec k s X a begin block : Assembling k s X → block ≠ [] → begin + lenN block ≤ sent s →
  let X' := offsets begin (begin + lenN block) ∪ X in
  let d := copy_at (buf_bytes (buffer s)) (N.to_nat begin) block in
  ∃ o, assemble_message sha1 info piece a s (Piece piece begin block) = Some (a, o) ∧ settled o ∧
    match o with
    | Pending s' => Assembling k s' X' ∧ buf_bytes (buffer s') = d ∧
        outstanding s' = List.filter (λ r, negb (bool_decide (offsets r.1 r.2 ⊆ X'))) (outstanding s)
    | Finished (Ok d') => d' = d ∧ offsets 0 len ⊆ X'
    | Finished (Err f) => f = HashFailure ∧ offsets 0 len ⊆ X' ∧ vod_piece_hashes info !! N.to_nat piece ≠ Some (sha1 d)
    end.
Proof.
  intros HA Hb He X' d. pose proof HA as [H1 H2 H3 H4 H5 H6 H7 H8]. pose proof len_small as Hl.
  pose proof (add_block_spec len (buffer s) X begin block H1 ltac:(lia)) as Hadd.
  rewrite bool_decide_true, (proj2 (N.leb_le _ _)) in Hadd by (done || lia). cbn [andb] in Hadd.
  destruct Hadd as (b & Eb & Cb & Db). fold X' in Cb. fold d in Db.
  unfold assemble_message. rewrite N.eqb_refl. unfold checked_add. rewrite (proj2 (N.ltb_lt _ _)), (proj2 (N.ltb_ge _ _)) by lia.
  rewrite Eb. cbn [mbind option_bind]. rewrite (retain_uncovered_spec len b X') by (done || (intros r Hr; pose proof (H5 r Hr); lia)).
  cbn [mbind option_bind]. destruct (is_complete b) eqn:Ec.
  - apply (complete_spec len b X') in Ec; [|done].
    destruct (lookup_lt_is_Some_2 (vod_piece_hashes info) (N.to_nat piece)) as [h Hh].
    { clear -Hpiece. unfold vod_piece_count, lenN in Hpiece. lia. }
    rewrite Hh. cbn. eexists. split; [done|]. unfold verify_vod_piece. rewrite Db.
    destruct (bool_decide_reflect (sha1 d = h)) as [Hv|Hv]; cbn.
    + rewrite Hh. split_and!; try done; [|congruence]. by rewrite <-Db, (cv_len _ _ _ Cb).
    + split_and!; [done|done|done|]. intros [= E]. by apply Hv.
  - eexists. split; [done|]. split; [done|]. cbn. split_and!; [|done|done]. constructor; cbn; try done.
    + intros o [Ho|Ho]%elem_of_union; [|by apply H4]. apply elem_of_offsets in Ho; lia.
    + intros r [Hr _]%In_filter_elem. by apply H5.
    + intros o Ho. destruct (decide (o ∈ X')) as [|Hn]; [by left|right].
      destruct (H6 o Ho) as [Hx|(r & Hr & Hro)]; [set_solver|]. exists r. split; [|done]. apply In_filter_elem. split; [done|].
      apply negb_true_iff, bool_decide_eq_false. intros Hsub. apply Hn, Hsub, elem_of_offsets; lia.
    + rewrite <-(complete_spec len b) by done. congruence.
    + etransitivity; [apply List.filter_length_le|]. done.
Qed.

Lemma message_spec k s X a m : Assembling k s X → fits (vod_piece_count info) a →
  ∃ a' o, assemble_message sha1 info piece a s m = Some (a', o) ∧ fits (vod_piece_count info) a' ∧ settled o ∧
    (∀ s', o = Pending s' → ∃ X', Assembling k s' X').
Proof.
  intros HA Hf. destruct (control_total (vod_piece_count info) a m Hf) as (r & a' & Ec & Hf').
  assert (∃ a' o, ('(r, a) ← control a m (vod_piece_count info);
      Some (a, match r with Ok _ => Pending s | Err f => Finished (Err f) end)) = Some (a', o) ∧
    fits (vod_piece_count info) a' ∧ settled o ∧ (∀ s', o = Pending s' → ∃ X', Assembling k s' X')) as Hc.
  { rewrite Ec. cbn. exists a', (match r with Ok _ => Pending s | Err f => Finished (Err f) end).
    destruct r; split_and!; try done; intros s' [= <-]. eauto. }
  destruct m as [| | | | | | | |index begin block| | |]; try exact Hc. unfold assemble_message.
  destruct (N.eqb_spec index piece) as [->|]; [|exact Hc]. clear Hc Ec.
  destruct (decide (block ≠ [] ∧ begin + lenN block ≤ sent s)) as [[Hb He]|Hno].
  - destruct (block_spec k s X a begin block HA Hb He) as (o & E & Hs & Ho). unfold assemble_message in E.
    rewrite N.eqb_refl in E. exists a, o. split_and!; try done. intros s' ->. destruct Ho as (? & _). eauto.
  - unfold checked_add. destruct (N.ltb_spec (begin + lenN block) two64); [|by eexists _, _].
    destruct (N.ltb_spec (sent s) (begin + lenN block)); [by eexists _, _|].
    assert (block = []) as -> by (destruct (decide (block = [])); [done|exfalso; apply Hno; split; [done|lia]]).
    cbn. by eexists _, _.
Qed.

Lemma run_spec l : ∀ k s X a, Assembling k s X → fits (vod_piece_count info) a →
  ∃ j a' o, assemble_run sha1 info piece a s l = Some (map (tile info piece) (range k j), a', o) ∧
    k + j ≤ tile_count info piece ∧ fits (vod_piece_count info) a' ∧ settled o ∧
    (∀ s', o = Pending s' → ∃ X', Assembling (k + j) s' X').
Proof.
  induction l as [|i l IH]; intros k s X a HA Hf; cbn [assemble_run]; unfold assemble_turn;
    destruct (requests_spec k s X a HA) as (j & s1 & -> & HA1 & _); pose proof (as_count _ _ _ HA1) as Hk.
  { exists j, a, (Pending s1). split_and!; try done. intros s' [= <-]. eauto. }
  destruct i as [m|]; [|by eexists j, a, _].
  destruct (message_spec _ _ _ a m HA1 Hf) as (a' & o & -> & Hf' & Hs & Hp). cbn [mbind option_bind]. destruct o as [s2|r].
  - destruct (Hp s2 eq_refl) as (X2 & HA2). destruct (IH _ _ _ a' HA2 Hf') as (j2 & a2 & o2 & -> & Hk2 & Hf2 & Hs2 & Hp2).
    cbn. exists (j + j2), a2, o2. rewrite range_app, map_app, N.add_assoc. done.
  - by eexists j, a', _.
Qed.
End assembly.

(** ** Theorems on assembly *)

(** a piece taken from a peer is the right one.  Whatever a peer sends, and wherever its connection breaks, the
    assembly of a piece does not panic; it requests the blocks of the piece in order, each once, with at most
    eight outstanding; and bytes it returns have the size of the piece and the hash of the descriptor. *)
Theorem assembled_piece_verified sha1 info piece a l :
  VodGeometry info → piece < vod_piece_count info → 0 < piece_size info piece → fits (vod_piece_count info) a →
  ∃ n a' o, assemble_piece sha1 info piece a l = Some (map (tile info piece) (range 0 n), a', o) ∧
    n ≤ tile_count info piece ∧
    match o with
    | Pending s => (length (outstanding s) ≤ REQUESTS)%nat
    | Finished (Ok d) => lenN d = piece_size info piece ∧ vod_piece_hashes info !! N.to_nat piece = Some (sha1 d)
    | Finished (Err _) => True
    end.
Proof.
  intros HG Hp Hl Hf. destruct (run_spec sha1 info piece HG Hp l 0 (assembly_new info piece) ∅ a) as (j & a' & o & E & Hk & _ & Hs & Hn);
    [by apply assembling_new|done|]. exists j, a', o. split_and!; [done|lia|]. destruct o as [s|[d|f]]; [|done|done].
  destruct (Hn s eq_refl) as (X & HA). exact (as_most _ _ _ _ _ HA).
Qed.

(** An honest peer: it answers outstanding requests from the content, in any order, and talks in between. *)
Inductive Move : Type := Answer (k : nat) | Talk (m : PeerMessage).

Definition answer_to (content : bytes) (piece : N) (s : Assembly) (k : nat) : Input :=
  match outstanding s !! (k `mod` length (outstanding s))%nat with
  | Some r => Received (Piece piece r.1 (slice content (N.to_nat r.1) (N.to_nat r.2)))
  | None => Broken
  end.

Definition move_input (info : VodInfo) (piece : N) (content : bytes) (a : Availability) (s : Assembly) (m : Move) : Input :=
  match m with
  | Answer k => answer_to content piece (assemble_requests info piece a s).2 k
  | Talk m => Received m
  end.

Fixpoint honest_run (sha1 : bytes → bytes) (info : VodInfo) (piece : N) (content : bytes) (a : Availability) (s : Assembly)
    (l : list Move) : option (Availability * Outcome) :=
  match l with
  | [] => Some (a, Pending s)
  | m :: l =>
      '(_, a, o) ← assemble_turn sha1 info piece a s (move_input info piece content a s m);
      match o with
      | Pending s => honest_run sha1 info piece content a s l
      | Finished _ => Some (a, o)
      end
  end.

(** Messages that neither choke the connection nor break its rules nor carry blocks of the piece. *)
Definition harmless (count piece : N) (m : Move) : bool :=
  match m with
  | Answer _ => true
  | Talk Choke => false
  | Talk (Bitfield l) => bitfield_ok l count
  | Talk (Have index) => index <? count
  | Talk (Piece index _ _) => negb (index =? piece)
  | Talk _ => true
  end.

Definition is_answer (m : Move) : bool := match m with Answer _ => true | Talk _ => false end.

Lemma harmless_control count piece a m : harmless count piece (Talk m) = true → fits count a → unchoked a = true →
  ∃ a', control a m count = Some (Ok (), a') ∧ unchoked a' = true.
Proof.
  intros Hh Hf Hu. destruct (control_total count a m Hf) as (r & a' & E & _). exists a'. rewrite E.
  unfold control in E. destruct m; cbn in Hh; try (by simplify_eq).
  - rewrite (proj2 (N.leb_gt _ _)) in E by by apply N.ltb_lt. destruct (bits a); [|by simplify_eq].
    apply bind_Some in E as (c & _ & E). by simplify_eq.
  - rewrite Hh in E. by simplify_eq.
Qed.

Lemma filter_shorter {A} (f : A → bool) l x : x ∈ l → f x = false → (length (List.filter f l) < length l)%nat.
Proof.
  induction l as [|y l IH]; [by intros ?%elem_of_nil|]. intros [->|Hx]%elem_of_cons Hf; cbn.
  - rewrite Hf. pose proof (List.filter_length_le f l). lia.
  - specialize (IH Hx Hf). destruct (f y); cbn; lia.
Qed.

Definition agrees (content : bytes) (b : PieceBuffer) (X : gset N) : Prop :=
  ∀ o, o ∈ X → buf_bytes b !! N.to_nat o = content !! N.to_nat o.

Lemma agrees_copy content len b X begin n : Covers len b X → agrees content b X → lenN content = len → begin + n ≤ len →
  ∀ o, o ∈ offsets begin (begin + n) ∪ X →
    copy_at (buf_bytes b) (N.to_nat begin) (slice content (N.to_nat begin) (N.to_nat (begin + n))) !! N.to_nat o
      = content !! N.to_nat o.
Proof.
  intros HC Ha Hc Hn o Ho. pose proof (cv_len _ _ _ HC) as Hb. unfold lenN in *.
  assert (length (slice content (N.to_nat begin) (N.to_nat (begin + n))) = N.to_nat n) as Hs by (rewrite slice_length; lia).
  rewrite lookup_copy_at by lia. case_bool_decide as Hr.
  - unfold slice. rewrite lookup_take_lt by lia. rewrite lookup_drop. f_equal. lia.
  - apply Ha. apply elem_of_union in Ho as [Ho|]; [|done]. apply elem_of_offsets in Ho; lia.
Qed.

Lemma full_content (content d : bytes) (X : gset N) : lenN d = lenN content → (∀ o, o ∈ X → d !! N.to_nat o = content !! N.to_nat o) →
  offsets 0 (lenN content) ⊆ X → d = content.
Proof.
  unfold lenN. intros Hd Hq Hsub. apply list_eq_same_length with (n := length content); [done|lia|].
  intros q u v Hq1 Hu Hv. specialize (Hq (N.of_nat q)). rewrite Nat2N.id in Hq. rewrite Hq, Hv in Hu; [congruence|].
  apply Hsub, elem_of_offsets; lia.
Qed.

Section honest.
Context (sha1 : bytes → bytes) (info : VodInfo) (piece : N) (content : bytes).
Context (HG : VodGeometry info) (Hpiece : piece < vod_piece_count info).
Context (Hcontent : lenN content = piece_size info piece).
Context (Hhash : vod_piece_hashes info !! N.to_nat piece = Some (sha1 content)).

(** An honest answer ends the piece or leaves fewer requests outstanding. *)
Lemma answer_spec k s X a x y : Assembling info piece k s X → agrees content (buffer s) X → (x, y) ∈ outstanding s →
  ∃ o, assemble_message sha1 info piece a s (Piece piece x (slice content (N.to_nat x) (N.to_nat y))) = Some (a, o) ∧
    (o = Finished (Ok content) ∨
     ∃ s' X', o = Pending s' ∧ Assembling info piece k s' X' ∧ agrees content (buffer s') X' ∧
       (length (outstanding s') < length (outstanding s))%nat).
Proof.
  intros HA Hag Hr. pose proof (as_open _ _ _ _ _ HA _ Hr) as Ho. cbn in Ho.
  pose proof (as_sent _ _ _ _ _ HA) as Hs. pose proof (as_covers _ _ _ _ _ HA) as HC. set (n := y - x).
  assert (lenN (slice content (N.to_nat x) (N.to_nat y)) = n) as Hn by (unfold lenN in *; rewrite slice_length; lia).
  destruct (block_spec sha1 info piece HG Hpiece _ s X a x (slice content (N.to_nat x) (N.to_nat y)) HA) as (o & E & _ & Hpost).
  { intros E. rewrite E in Hn. change (lenN (@nil byte)) with 0 in Hn. lia. }
  { lia. }
  exists o. split; [done|]. rewrite Hn in Hpost. replace y with (x + n) in Hpost by lia.
  pose proof (agrees_copy content _ (buffer s) X x n HC Hag Hcontent ltac:(lia)) as Hcopy.
  set (d := copy_at _ _ _) in *. assert (lenN d = lenN content) as Hd.
  { pose proof (cv_len _ _ _ HC). unfold d, lenN in *. rewrite copy_at_length; [lia|]. rewrite slice_length by lia. lia. }
  destruct o as [s2|[d2|f]].
  - destruct Hpost as (HA2 & Eb2 & Eo2). right. exists s2, (offsets x (x + n) ∪ X). split_and!; try done.
    + intros o Ho'. rewrite Eb2. by apply Hcopy.
    + rewrite Eo2. apply (filter_shorter _ _ (x, y)); [done|]. cbn. apply negb_false_iff, bool_decide_eq_true.
      replace (x + n) with y by lia. set_solver.
  - destruct Hpost as (-> & Hsub). left. do 2 f_equal. eapply full_content; [done|exact Hcopy|by rewrite Hcontent].
  - destruct Hpost as (_ & Hsub & Hbad). exfalso. apply Hbad. rewrite Hhash. do 2 f_equal. symmetry.
    eapply full_content; [done|exact Hcopy|by rewrite Hcontent].
Qed.

Lemma talk_spec s a m : harmless (vod_piece_count info) piece (Talk m) = true → fits (vod_piece_count info) a → unchoked a = true →
  ∃ a', assemble_message sha1 info piece a s m = Some (a', Pending s) ∧ fits (vod_piece_count info) a' ∧ unchoked a' = true.
Proof.
  intros Hm Hf Hu. destruct (harmless_control _ _ a m Hm Hf Hu) as (a' & Ec & Hu'). exists a'. split_and!; [|..|done].
  - unfold assemble_message. rewrite Ec. destruct m; try done. cbn in Hm. by destruct (index =? piece).
  - destruct (control_total _ a m Hf) as (r2 & a2 & E2 & Hf2). rewrite Ec in E2. by injection E2 as <- <-.
Qed.

Lemma honest_step l : ∀ k s X a, Assembling info piece k s X → agrees content (buffer s) X →
  fits (vod_piece_count info) a → unchoked a = true →
  Forall (λ m, harmless (vod_piece_count info) piece m = true) l →
  tile_count info piece - k + N.of_nat (length (outstanding s)) ≤ N.of_nat (count_if is_answer l) →
  ∃ a', honest_run sha1 info piece content a s l = Some (a', Finished (Ok content)).
Proof.
  induction l as [|m l IH]; intros k s X a HA Hag Hf Hu Hl Hm;
    destruct (requests_spec info piece HG Hpiece k s X a HA) as (j & s1 & E1 & HA1 & Eb1 & El1 & Hne); specialize (Hne Hu);
    pose proof (as_count _ _ _ _ _ HA1) as Hk1; (assert (length (outstanding s1) ≠ 0)%nat as Hne' by (by destruct (outstanding s1))).
  { exfalso. change (count_if is_answer []) with 0%nat in Hm. lia. }
  cbn [honest_run]. unfold assemble_turn, move_input. rewrite E1. cbn [snd]. rewrite count_if_cons in Hm.
  apply Forall_cons in Hl as [Hm0 Hl]. assert (agrees content (buffer s1) X) as Hag1 by by rewrite Eb1.
  destruct m as [i|m]; cbn [is_answer] in Hm.
  - unfold answer_to. destruct (lookup_lt_is_Some_2 (outstanding s1) (i `mod` length (outstanding s1))%nat) as [[x y] Hr];
      [by apply Nat.mod_upper_bound|].
    rewrite Hr. cbn [fst snd]. apply list_elem_of_lookup_2 in Hr.
    destruct (answer_spec _ _ _ a _ _ HA1 Hag1 Hr) as (o & -> & [->|(s2 & X2 & -> & HA2 & Hag2 & Hlt)]); [by exists a|].
    cbn [mbind option_bind]. apply (IH (k + j) s2 X2 a); try done. lia.
  - destruct (talk_spec s1 a m Hm0 Hf Hu) as (a' & -> & Hf' & Hu').
    cbn [mbind option_bind]. apply (IH (k + j) s1 X a'); try done. lia.
Qed.
End honest.

(** an honest peer's piece is completed.  When a peer that has unchoked us answers requests from the content, in
    any order and with other traffic in between, the assembly ends with exactly the content after at most as
    many answers as the piece has blocks. *)
Theorem honest_peer_completes sha1 info piece content a moves :
  VodGeometry info → piece < vod_piece_count info → 0 < piece_size info piece →
  lenN content = piece_size info piece → vod_piece_hashes info !! N.to_nat piece = Some (sha1 content) →
  fits (vod_piece_count info) a → unchoked a = true →
  Forall (λ m, harmless (vod_piece_count info) piece m = true) moves →
  tile_count info piece ≤ N.of_nat (count_if is_answer moves) →
  ∃ a', honest_run sha1 info piece content a (assembly_new info piece) moves = Some (a', Finished (Ok content)).
Proof.
  intros HG Hp Hl Hc Hh Hf Hu Hm Hn. apply (honest_step sha1 info piece content HG Hp Hc Hh moves 0 _ ∅); try done;
    [by apply assembling_new|cbn; lia].
Qed.

(** ** Runs *)

(** A digest for the runs. *)
Definition ex_sha1 (l : bytes) : bytes := u16_be (foldl (λ acc b, (acc * 31 + byte_N b) `mod` 65536) 7 l).

Definition ex_pieces : list bytes := [bs "abcdefgh"; bs "ijklmnop"; bs "qrst"].
Definition ex_info : VodInfo := mkVodInfo (Some Public) (bs "infohash") BitTorrent 8 4 [] (map ex_sha1 ex_pieces) 20.
Definition ex_open : Availability := mkAvailability true None.

Lemma ex_geometry : VodGeometry ex_info.
Proof. constructor; vm_compute; done. Qed.

Lemma ex_fits : fits (vod_piece_count ex_info) ex_open.
Proof. by intros l. Qed.

(** Out of order, duplicated and overlapping blocks, then a damaged one. *)
Example assemble_ex :
  (λ r, (r.1.1, r.2)) <$> assemble_piece ex_sha1 ex_info 1 availability_default
    [Received Unchoke; Received (Piece 1 4 (bs "mnop")); Received (Piece 1 4 (bs "mnop")); Received (Piece 1 0 (bs "ijklm"))]
  = Some ([Request 1 0 4; Request 1 4 4], Finished (Ok (bs "ijklmnop"))) ∧
  snd <$> assemble_piece ex_sha1 ex_info 1 ex_open [Received (Piece 1 0 (bs "ijkl")); Received (Piece 1 4 (bs "mnoP"))]
  = Some (Finished (Err HashFailure)) ∧
  snd <$> assemble_piece ex_sha1 ex_info 2 ex_open [Received (Piece 2 1 (bs "rstu"))] = Some (Finished (Err PeerFailure)).
Proof. vm_compute. done. Qed.

Lemma assembled_piece_verified_witness :
  ∃ n a' o, assemble_piece ex_sha1 ex_info 1 ex_open [Received (Piece 1 4 (bs "mnop")); Received (Piece 1 0 (bs "ijklm"))]
      = Some (map (tile ex_info 1) (range 0 n), a', o) ∧ n ≤ tile_count ex_info 1 ∧
    match o with
    | Pending s => (length (outstanding s) ≤ REQUESTS)%nat
    | Finished (Ok d) => lenN d = piece_size ex_info 1 ∧ vod_piece_hashes ex_info !! 1%nat = Some (ex_sha1 d)
    | Finished (Err _) => True
    end.
Proof. apply (assembled_piece_verified ex_sha1 ex_info 1); [apply ex_geometry|vm_compute; done..|apply ex_fits]. Defined.

Lemma honest_peer_completes_witness :
  ∃ a', honest_run ex_sha1 ex_info 1 (bs "ijklmnop") ex_open (assembly_new ex_info 1)
    [Answer 1; Talk (Have 2); Answer 0] = Some (a', Finished (Ok (bs "ijklmnop"))).
Proof.
  apply (honest_peer_completes ex_sha1 ex_info 1); [apply ex_geometry|vm_compute; done..|apply ex_fits|done| |vm_compute; done].
  repeat constructor.
Defined.
