(* ===== verification/VodCoordinator.v ===== *)
(** * Video on demand: the download coordinator

    [ace-swarm/src/vod/coordinator.rs]: the loop that hands pieces to up to four connections within
    a window of four pieces, retries failures within a budget and emits verified pieces in order.
    The state holds the coordinator's variables and, for every spawned worker, its task: the phase
    of [run_worker], the job in its one-place command channel and the shared availability.  An
    [Event] is a turn of the coordinator, of the consumer or of one worker; the events interleave
    freely, an event that is not enabled changes nothing, and [None] is a panic of the coordinator.
    Counters of workers and jobs are not cut at 64 bits. *)

From S2P Require Import Prelude Order Bytes BTree Message Handshake Metainfo Net PeerPolicy Vod.

Local Open Scope N_scope.

Definition WINDOW : N := 4.
Definition ATTEMPTS : N := 3.

Record Job : Type := mkJob { job_piece : N; job_generation : N }.
Record Completion : Type := mkCompletion { c_worker : N; c_job : Job; c_bytes : bytes }.
Record Worker : Type := mkWorker { w_address : nat; w_job : option Job }.
Record Credit : Type := mkCredit { attempts : list N; owner : option N; credit_bytes : option bytes }.

#[export] Instance Job_eq_dec : EqDecision Job.
Proof. solve_decision. Defined.

Definition credit_new (peers : nat) : Credit := mkCredit (replicate peers 0) None None.

Inductive VodError : Type := PeerPolicyDenied | Unrecoverable (piece : N) | ConsumerGone.

(** ** Workers *)

Inductive Phase : Type :=
  | Connecting
  | Idle
  | Fetching (j : Job) (s : Assembly)
  | Delivering (c : Completion)
  (** the joined result; [None] for a panic *)
  | Ended (r : option Failure).

Record Task : Type := mkTask { phase : Phase; queue : option Job; shared : Availability }.

Definition task_new : Task := mkTask Connecting None availability_default.

(** [commands.try_send(job).is_ok()]: the receiver lives and the channel is empty. *)
Definition can_send (t : Task) : bool :=
  match phase t, queue t with Ended _, _ => false | _, Some _ => false | _, None => true end.

Definition set_queue (j : option Job) (t : Task) : Task := mkTask (phase t) j (shared t).

(** ** State *)

Inductive Pc : Type :=
  | Top
  | Sending (b : bytes)
  | Waiting
  | Exited (r : result VodError unit).

Record Download : Type := mkDownload {
  pc : Pc;
  workers : gmap N Worker;
  banned : list bool;
  credits : gmap N Credit;
  cursor : N;
  generation : N;
  next_worker : N;
  round_robin : N;
  chan : list Completion;
  tasks : gmap N Task;
  notified : bool;
  closed : bool;
  emitted : list bytes;
}.

Definition set_pc (p : Pc) (d : Download) : Download :=
  mkDownload p (workers d) (banned d) (credits d) (cursor d) (generation d) (next_worker d) (round_robin d) (chan d)
    (tasks d) (notified d) (closed d) (emitted d).
Definition set_credits (f : gmap N Credit → gmap N Credit) (d : Download) : Download :=
  mkDownload (pc d) (workers d) (banned d) (f (credits d)) (cursor d) (generation d) (next_worker d) (round_robin d) (chan d)
    (tasks d) (notified d) (closed d) (emitted d).
Definition set_tasks (f : gmap N Task → gmap N Task) (d : Download) : Download :=
  mkDownload (pc d) (workers d) (banned d) (credits d) (cursor d) (generation d) (next_worker d) (round_robin d) (chan d)
    (f (tasks d)) (notified d) (closed d) (emitted d).

Definition exit (r : result VodError unit) (d : Download) : Download := set_pc (Exited r) d.

Section coordinator.
Context (sha1 : bytes → bytes) (info : VodInfo) (peers : nat) (stop : N) (limit : nat).

(** ** Planning *)

Definition fill_credits (d : Download) : Download :=
  let upto := N.min stop (saturating_add (cursor d) WINDOW) in
  set_credits (λ m, foldl (λ m p, match m !! p with Some _ => m | None => <[p := credit_new peers]> m end) m
    (range (cursor d) (upto - cursor d))) d.

Definition is_banned (d : Download) (a : nat) : bool := default true (banned d !! a).
Definition attempts_at (c : Credit) (a : nat) : N := default 0 (attempts c !! a).
Definition occupied (d : Download) (a : nat) : bool := existsb (λ w, bool_decide (w_address w.2 = a)) (entries (workers d)).

Definition pick_address (d : Download) (frontier : Credit) : option nat :=
  min_by_key (attempts_at frontier) (List.filter
    (λ a, negb (is_banned d a) && (attempts_at frontier a <? ATTEMPTS) && negb (occupied d a)) (seq 0 peers)).

Definition spawn (d : Download) (a : nat) : Download :=
  let id := next_worker d in
  mkDownload (pc d) (<[id := mkWorker a None]> (workers d)) (banned d) (credits d) (cursor d) (generation d) (id + 1)
    (round_robin d) (chan d) (<[id := task_new]> (tasks d)) (notified d) (closed d) (emitted d).

(** Every turn adds a worker, so [limit] turns reach the limit. *)
Fixpoint connect (fuel : nat) (d : Download) : option Download :=
  match fuel with
  | O => Some d
  | S fuel =>
      if bool_decide (size (workers d) < limit)%nat then
        frontier ← credits d !! cursor d;
        match pick_address d frontier with
        | None => Some d
        | Some a => connect fuel (spawn d a)
        end
      else Some d
  end.

Definition idle_for (d : Download) (piece : N) (c : Credit) (w : N * Worker) : bool :=
  let a := default availability_default (shared <$> tasks d !! w.1) in
  bool_decide (w_job w.2 = None) && unchoked a && default false (has a piece) &&
  negb (is_banned d (w_address w.2)) && (attempts_at c (w_address w.2) <? ATTEMPTS).

(** The key [(attempts, id < round_robin, id)]: the workers come in ascending order and the first minimum is taken. *)
Definition rank (d : Download) (c : Credit) (w : N * Worker) : N :=
  2 * attempts_at c (w_address w.2) + (if w.1 <? round_robin d then 1 else 0).

Definition eligible (d : Download) (piece : N) (c : Credit) : option (N * Worker) :=
  min_by_key (rank d c) (List.filter (idle_for d piece c) (entries (workers d))).

(** One turn of the assignment loop. *)
Definition assign_piece (d : Download) (piece : N) : Download :=
  match credits d !! piece with
  | Some c =>
      if bool_decide (owner c = None) && bool_decide (credit_bytes c = None) then
        match eligible d piece c with
        | Some (id, w) =>
            let g := generation d + 1 in
            let job := mkJob piece g in
            match tasks d !! id with
            | Some t =>
                if can_send t then
                  mkDownload (pc d) (<[id := mkWorker (w_address w) (Some job)]> (workers d)) (banned d)
                    (<[piece := mkCredit (alter (λ n, n + 1) (w_address w) (attempts c)) (Some id) None]> (credits d))
                    (cursor d) g (next_worker d) (id + 1) (chan d) (<[id := set_queue (Some job) t]> (tasks d))
                    (notified d) (closed d) (emitted d)
                else
                  mkDownload (pc d) (workers d) (banned d) (credits d) (cursor d) g (next_worker d) (round_robin d) (chan d)
                    (tasks d) (notified d) (closed d) (emitted d)
            | None => d
            end
        | None => d
        end
      else d
  | None => d
  end.

Definition assign (d : Download) : Download := foldl assign_piece d (ascending (dom (credits d))).

Definition plan (d : Download) : option Download :=
  d ← connect limit (fill_credits d);
  let d := assign d in
  Some (if bool_decide (workers d = ∅) then exit (Err (Unrecoverable (cursor d))) d else set_pc Waiting d).

(** ** The coordinator's turns *)

Definition top (d : Download) : option Download :=
  if cursor d =? stop then Some (exit (Ok ()) d)
  else if closed d then Some (exit (Err ConsumerGone) d)
  else match credits d !! cursor d ≫= (λ c, (λ b, (c, b)) <$> credit_bytes c) with
    | Some (c, b) =>
        Some (set_pc (Sending b) (set_credits (insert (cursor d) (mkCredit (attempts c) (owner c) None)) d))
    | None => plan d
    end.

(** A completion counts for the worker, the job and the credit it belongs to. *)
Definition complete (d : Download) (c : Completion) : Download :=
  match workers d !! c_worker c with
  | Some w =>
      if bool_decide (w_job w = Some (c_job c)) then
        let credits' := match credits d !! job_piece (c_job c) with
          | Some k => if bool_decide (owner k = Some (c_worker c))
                      then <[job_piece (c_job c) := mkCredit (attempts k) None (Some (c_bytes c))]> (credits d) else credits d
          | None => credits d
          end in
        mkDownload (pc d) (<[c_worker c := mkWorker (w_address w) None]> (workers d)) (banned d) credits' (cursor d)
          (generation d) (next_worker d) (round_robin d) (chan d) (tasks d) (notified d) (closed d) (emitted d)
      else d
  | None => d
  end.

Definition pop_chan (d : Download) : Download :=
  mkDownload (pc d) (workers d) (banned d) (credits d) (cursor d) (generation d) (next_worker d) (round_robin d)
    (tail (chan d)) (tasks d) (notified d) (closed d) (emitted d).

(** The credit of a worker that ended: a lost job frees its piece, an idle end costs the frontier an attempt. *)
Definition refund (d : Download) (id : N) (w : Worker) : option (gmap N Credit) :=
  match w_job w with
  | Some j =>
      Some match credits d !! job_piece j with
        | Some k => if bool_decide (owner k = Some id)
                    then <[job_piece j := mkCredit (attempts k) None (credit_bytes k)]> (credits d) else credits d
        | None => credits d
        end
  | None =>
      k ← credits d !! cursor d;
      Some (<[cursor d := mkCredit (alter (λ n, n + 1) (w_address w) (attempts k)) (owner k) (credit_bytes k)]> (credits d))
  end.

Definition joined (d : Download) (id : N) (failure : Failure) : option Download :=
  match workers d !! id with
  | Some w =>
      credits' ← refund d id w;
      Some (mkDownload Top (delete id (workers d))
        (match failure with HashFailure => <[w_address w := true]> (banned d) | PeerFailure => banned d end)
        credits' (cursor d) (generation d) (next_worker d) (round_robin d) (chan d) (delete id (tasks d)) (notified d)
        (closed d) (emitted d))
  | None => Some (set_pc Top (set_tasks (delete id) d))
  end.

Definition sent_one (d : Download) (b : bytes) : Download :=
  mkDownload Top (workers d) (banned d) (delete (cursor d) (credits d)) (cursor d + 1) (generation d) (next_worker d)
    (round_robin d) (chan d) (tasks d) (notified d) (closed d) (emitted d ++ [b]).

(** ** Worker turns *)

Definition hear (t : Task) (id : N) (m : PeerMessage) : Task * bool :=
  match phase t, queue t with
  | Idle, None =>
      match control (shared t) m (vod_piece_count info) with
      | Some (Ok _, a) => (mkTask Idle None a, true)
      | Some (Err f, a) => (mkTask (Ended (Some f)) None a, false)
      | None => (mkTask (Ended None) None (shared t), false)
      end
  | Fetching j s, q =>
      match assemble_turn sha1 info (job_piece j) (shared t) s (Received m) with
      | Some (_, a, Pending s) => (mkTask (Fetching j s) q a, false)
      | Some (_, a, Finished (Ok b)) => (mkTask (Delivering (mkCompletion id j b)) q a, false)
      | Some (_, a, Finished (Err f)) => (mkTask (Ended (Some f)) q a, false)
      | None => (mkTask (Ended None) q (shared t), false)
      end
  | _, _ => (t, false)
  end.

Definition fail (t : Task) : Task :=
  match phase t with Ended _ => t | _ => mkTask (Ended (Some PeerFailure)) (queue t) (shared t) end.

Definition ready (t : Task) : Task :=
  match phase t with Connecting => mkTask Idle (queue t) (shared t) | _ => t end.

Definition start_job (t : Task) : Task :=
  match phase t, queue t with
  | Idle, Some j => mkTask (Fetching j (assembly_new info (job_piece j))) None (shared t)
  | _, _ => t
  end.

Definition is_ended (t : Task) : bool := match phase t with Ended _ => true | _ => false end.

Definition deliver (d : Download) (id : N) : Download :=
  match tasks d !! id with
  | Some (mkTask (Delivering c) q a) =>
      if bool_decide (length (chan d) < 4)%nat then
        mkDownload (pc d) (workers d) (banned d) (credits d) (cursor d) (generation d) (next_worker d) (round_robin d)
          (chan d ++ [c]) (<[id := mkTask Idle q a]> (tasks d)) (notified d) (closed d) (emitted d)
      else d
  | _ => d
  end.

(** ** Interleavings *)

Inductive Event : Type :=
  (** the coordinator runs; it waits in a send, and in the select when nothing is ready *)
  | Drive
  | Join (id : N)
  | Notified
  (** the consumer takes a piece or drops its receiver *)
  | Take
  | Drop
  (** a worker has connected, starts its job, reads a message, fails or hands over its piece *)
  | Ready (id : N)
  | Start (id : N)
  | Hear (id : N) (m : PeerMessage)
  | Fail (id : N)
  | Deliver (id : N).

Definition set_notified (n : bool) (d : Download) : Download :=
  mkDownload (pc d) (workers d) (banned d) (credits d) (cursor d) (generation d) (next_worker d) (round_robin d)
    (chan d) (tasks d) n (closed d) (emitted d).

Definition drive (d : Download) : option Download :=
  match pc d with
  | Top => top d
  | Waiting =>
      if closed d then Some (exit (Err ConsumerGone) d)
      else match chan d with
        | c :: _ => Some (set_pc Top (complete (pop_chan d) c))
        | [] => Some d
        end
  | Sending _ => if closed d then Some (exit (Err ConsumerGone) d) else Some d
  | Exited _ => Some d
  end.

(** The select polls closure, completions, joins and notifications in this order. *)
Definition join (d : Download) (id : N) : option Download :=
  match pc d, closed d, chan d, phase <$> tasks d !! id with
  | Waiting, false, [], Some (Ended (Some f)) => joined d id f
  | Waiting, false, [], Some (Ended None) => Some (exit (Err (Unrecoverable (cursor d))) d)
  | _, _, _, _ => Some d
  end.

Definition notice (d : Download) : Download :=
  match pc d, closed d, chan d with
  | Waiting, false, [] =>
      if notified d && negb (existsb (λ t, is_ended t.2) (entries (tasks d))) then set_pc Top (set_notified false d) else d
  | _, _, _ => d
  end.

Definition step (d : Download) (e : Event) : option Download :=
  match e with
  | Drive => drive d
  | Join id => join d id
  | Notified => Some (notice d)
  | Take => match pc d with Sending b => Some (if closed d then exit (Err ConsumerGone) d else sent_one d b) | _ => Some d end
  | Drop => Some (mkDownload (pc d) (workers d) (banned d) (credits d) (cursor d) (generation d) (next_worker d)
      (round_robin d) (chan d) (tasks d) (notified d) true (emitted d))
  | Ready id => Some (set_tasks (alter ready id) d)
  | Start id => Some (set_tasks (alter start_job id) d)
  | Hear id m =>
      Some match tasks d !! id with
        | Some t => let '(t, n) := hear t id m in set_notified (n || notified d) (set_tasks (insert id t) d)
        | None => d
        end
  | Fail id => Some (set_tasks (alter fail id) d)
  | Deliver id => Some (deliver d id)
  end.

Fixpoint run (d : Download) (l : list Event) : option Download :=
  match l with
  | [] => Some d
  | e :: l => d ← step d e; run d l
  end.
End coordinator.

(** ** The entry point *)

(** The addresses the policy permits, each once. *)
Fixpoint permitted (policy : PeerPolicy) (seen : gset SocketAddrV4) (l : list SocketAddrV4) : list SocketAddrV4 :=
  match l with
  | [] => []
  | a :: l =>
      if permits policy a && negb (bool_decide (a ∈ seen)) then a :: permitted policy ({[a]} ∪ seen) l
      else permitted policy seen l
  end.

Definition download_new (first : N) (peers : nat) : Download :=
  mkDownload Top ∅ (replicate peers false) ∅ first 0 0 0 [] ∅ false false [].

(** What [download_with_network_policy] does before its loop: an immediate outcome, or the addresses, the end, the
    limit and the initial state. *)
Definition download_start (info : VodInfo) (supplied : list SocketAddrV4) (first stop : N) (concurrency : nat) (policy : PeerPolicy)
    : result VodError unit + (list SocketAddrV4 * N * nat * Download) :=
  let stop := N.min stop (vod_piece_count info) in
  if stop <=? first then inl (Ok ())
  else
    let addresses := permitted policy ∅ supplied in
    if bool_decide (supplied ≠ []) && bool_decide (addresses = []) then inl (Err PeerPolicyDenied)
    else inr (addresses, stop, Nat.min (Nat.max concurrency 1) 4, download_new first (length addresses)).

(** ** Lists of attempts *)

Definition total (l : list N) : N := foldr N.add 0 l.

Lemma total_bound l k : Forall (λ n, n ≤ k) l → total l ≤ k * lenN l.
Proof. unfold lenN. induction 1; cbn [total foldr length]; [lia|]. fold (total l). lia. Qed.

Lemma total_alter l a n : l !! a = Some n → total (alter (λ n, n + 1) a l) = total l + 1.
Proof.
  revert a. induction l as [|x l IH]; intros [|a] H; [done|done| |].
  - cbn. lia.
  - cbn. fold (total (alter (λ n, n + 1) a l)). fold (total l). rewrite (IH a) by done. lia.
Qed.

Lemma sum_values_bound {A} (f : A → N) (m : gmap N A) k : (∀ i x, m !! i = Some x → f x ≤ k) → sum_values f m ≤ k * N.of_nat (size m).
Proof.
  induction m as [|i x m Hi IH] using map_ind; intros H.
  - rewrite sum_values_empty. lia.
  - rewrite sum_values_insert, delete_id, map_size_insert_None by done.
    pose proof (H i x (lookup_insert_eq _ _ _)). enough (sum_values f m ≤ k * N.of_nat (size m)) by lia.
    apply IH. intros j y Hj. apply (H j). by rewrite lookup_insert_ne by congruence.
Qed.

Lemma size_window {A} (m : gmap N A) lo n : (∀ i, is_Some (m !! i) → lo ≤ i < lo + n) → (size m ≤ N.to_nat n)%nat.
Proof. intros H. rewrite <-size_dom. apply (size_range_le _ lo). intros x Hx%elem_of_dom. auto. Qed.

(** ** Invariant *)

Section invariant.
Context (sha1 : bytes → bytes) (info : VodInfo) (peers : nat) (first stop : N) (limit : nat).

(** A piece with the size and the hash of the descriptor. *)
Definition good (p : N) (b : bytes) : Prop :=
  lenN b = piece_size info p ∧ vod_piece_hashes info !! N.to_nat p = Some (sha1 b).

Definition phase_ok (t : Task) : Prop :=
  match phase t with
  | Fetching j s => job_piece j < stop ∧ ∃ k X, Assembling info (job_piece j) k s X
  | Delivering c => good (job_piece (c_job c)) (c_bytes c)
  | Ended r => r ≠ None
  | _ => True
  end.

Record TaskOk (t : Task) : Prop := {
  to_fits : fits (vod_piece_count info) (shared t);
  to_phase : phase_ok t;
  to_queue : ∀ j, queue t = Some j → job_piece j < stop;
}.

Definition busy (d : Download) : N := sum_values (λ w, if w_job w then 1 else 0) (workers d).
Definition spent (d : Download) : N := sum_values (λ c, total (attempts c)) (credits d).

(** An attempt beyond three is only charged to the frontier, by a worker that is gone. *)
Definition within_budget (ws : gmap N Worker) (cur p : N) (c : Credit) : Prop :=
  ∀ a n, attempts c !! a = Some n →
    n ≤ ATTEMPTS ∨ (p = cur ∧ n = ATTEMPTS + 1 ∧ ∀ id w, ws !! id = Some w → w_address w ≠ a).

Record CreditOk (ws : gmap N Worker) (cur p : N) (c : Credit) : Prop := {
  cr_range : cur ≤ p < N.min stop (cur + WINDOW);
  cr_length : length (attempts c) = peers;
  cr_bytes : ∀ b, credit_bytes c = Some b → good p b;
  cr_budget : within_budget ws cur p c;
}.

Record Core (d : Download) : Prop := {
  co_cursor : first ≤ cursor d ≤ stop;
  co_emitted : lenN (emitted d) = cursor d - first ∧ ∀ i b, emitted d !! i = Some b → good (first + N.of_nat i) b;
  co_chan : ∀ c, c ∈ chan d → good (job_piece (c_job c)) (c_bytes c);
  co_tasks : ∀ id t, tasks d !! id = Some t → TaskOk t;
  co_dom : ∀ id, is_Some (workers d !! id) ↔ is_Some (tasks d !! id);
  co_ids : ∀ id w, workers d !! id = Some w → id < next_worker d ∧ (w_address w < peers)%nat;
  co_distinct : ∀ id id' w w', workers d !! id = Some w → workers d !! id' = Some w' → w_address w = w_address w' → id = id';
  co_limit : (size (workers d) ≤ limit)%nat;
  co_banned : length (banned d) = peers;
  co_credits : ∀ p c, credits d !! p = Some c → CreditOk (workers d) (cursor d) p c;
  co_account : next_worker d + busy d ≤
    N.of_nat (size (workers d)) + (ATTEMPTS + 1) * N.of_nat peers * (cursor d - first) + spent d;
}.

(** What the program point says. *)
Definition exhausted (d : Download) (p : N) : Prop :=
  p = cursor d ∧ p < stop ∧ workers d = ∅ ∧ ∃ c, credits d !! p = Some c ∧
    ∀ a, (a < peers)%nat → is_banned d a = true ∨ ATTEMPTS ≤ attempts_at c a.

Definition at_pc (d : Download) : Prop :=
  match pc d with
  | Top => True
  | Sending b => cursor d < stop ∧ good (cursor d) b
  | Waiting => cursor d < stop ∧ is_Some (credits d !! cursor d) ∧ workers d ≠ ∅
  | Exited (Ok _) => cursor d = stop
  | Exited (Err (Unrecoverable p)) => exhausted d p
  | Exited (Err PeerPolicyDenied) => False
  | Exited (Err ConsumerGone) => closed d = true
  end.

Record DownloadInv (d : Download) : Prop := {
  di_core : Core d;
  di_pc : at_pc d;
}.

Context (HG : VodGeometry info) (Hstop : stop ≤ vod_piece_count info).
Context (Hsize : ∀ p, p < stop → 0 < piece_size info p) (Hlimit : (1 ≤ limit)%nat).

Lemma new_core : first ≤ stop → DownloadInv (download_new first peers).
Proof.
  intros Hf. constructor; [|done]. constructor; cbn; try (intros *; rewrite ?lookup_empty; done).
  - split; [unfold lenN; cbn; lia|]. intros i b. by rewrite lookup_nil.
  - by intros c ?%elem_of_nil.
  - rewrite map_size_empty. lia.
  - apply length_replicate.
  - unfold busy, spent. cbn. rewrite !sum_values_empty. lia.
Qed.

(** ** Worker turns *)

(** A change of one task, with a completion appended to the channel or not. *)
Lemma task_core d id t' extra n : Core d → is_Some (tasks d !! id) → TaskOk t' →
  (∀ c, c ∈ extra → good (job_piece (c_job c)) (c_bytes c)) →
  Core (mkDownload (pc d) (workers d) (banned d) (credits d) (cursor d) (generation d) (next_worker d) (round_robin d)
    (chan d ++ extra) (<[id := t']> (tasks d)) n (closed d) (emitted d)).
Proof.
  intros HC Hi Ht He. destruct HC. constructor; cbn; try done.
  - intros c [|]%elem_of_app; auto.
  - intros j t. rewrite lookup_insert_Some. naive_solver.
  - intros j. rewrite co_dom0, lookup_insert. case_decide; [subst; naive_solver|done].
Qed.

Lemma ready_ok t : TaskOk t → TaskOk (ready t).
Proof. intros [H1 H2 H3]. unfold ready. destruct (phase t); by constructor. Qed.

Lemma fail_ok t : TaskOk t → TaskOk (fail t).
Proof. intros [H1 H2 H3]. unfold fail. destruct (phase t) eqn:E; [constructor; done..|]. by constructor. Qed.

Lemma start_ok t : TaskOk t → TaskOk (start_job info t).
Proof.
  intros [H1 H2 H3]. unfold start_job. destruct (phase t) as [| |j1 s1|c1|r1] eqn:E, (queue t) as [j|] eqn:Eq; try (by constructor; rewrite ?E, ?Eq).
  specialize (H3 _ eq_refl). constructor; cbn; try done. unfold phase_ok. cbn. split; [done|].
  exists 0, ∅. apply assembling_new; [done|lia|]. by apply Hsize.
Qed.

Lemma hear_ok t id m : TaskOk t → TaskOk (hear sha1 info t id m).1.
Proof.
  intros HT. pose proof HT as [H1 H2 H3]. unfold hear. destruct (phase t) eqn:E; try done.
  - destruct (queue t) eqn:Eq; [done|]. destruct (control_total _ _ m H1) as (r & a & -> & Hf). by destruct r.
  - unfold phase_ok in H2. rewrite E in H2. destruct H2 as (Hj & k & X & HA). assert (job_piece j < vod_piece_count info) as Hp by lia.
    unfold assemble_turn. destruct (requests_spec info _ HG Hp k s X (shared t) HA) as (i & s1 & -> & HA1 & _).
    destruct (message_spec sha1 info _ HG Hp _ _ _ (shared t) m HA1 H1) as (a & o & -> & Hf & Hs & Hn). cbn.
    destruct o as [s2|[b|f]]; (constructor; [done| |done]); unfold phase_ok; cbn; try done.
    split; [done|]. destruct (Hn s2 eq_refl) as (X2 & ?). eauto.
Qed.

(** ** Planning *)

Lemma fill_lookup l (m : gmap N Credit) p :
  foldl (λ m p, match m !! p with Some _ => m | None => <[p := credit_new peers]> m end) m l !! p =
  match m !! p with Some c => Some c | None => if bool_decide (p ∈ l) then Some (credit_new peers) else None end.
Proof.
  revert m. induction l as [|q l IH]; intros m; cbn [foldl].
  - rewrite bool_decide_false by apply not_elem_of_nil. by destruct (m !! p).
  - rewrite IH. destruct (decide (q = p)) as [->|Hq].
    + rewrite (bool_decide_true (p ∈ p :: l)) by by left. destruct (m !! p) eqn:E; [by rewrite E|by rewrite lookup_insert_eq].
    + assert ((match m !! q with Some _ => m | None => <[q := credit_new peers]> m end) !! p = m !! p) as ->
        by (destruct (m !! q); [done|by rewrite lookup_insert_ne]).
      destruct (m !! p); [done|]. rewrite (bool_decide_ext (p ∈ q :: l) (p ∈ l)) by (rewrite elem_of_cons; naive_solver). done.
Qed.

Lemma fill_spent l (m : gmap N Credit) :
  sum_values (λ c, total (attempts c)) (foldl (λ m p, match m !! p with Some _ => m | None => <[p := credit_new peers]> m end) m l)
  = sum_values (λ c, total (attempts c)) m.
Proof.
  assert (total (replicate peers 0) = 0) as H0 by (clear; induction peers; cbn; [done|]; fold (total (replicate n 0)); lia).
  revert m. induction l as [|q l IH]; intros m; cbn [foldl]; [done|]. rewrite IH. destruct (m !! q) eqn:E; [done|].
  rewrite sum_values_insert, delete_id by done. cbn [attempts credit_new]. by rewrite H0.
Qed.

Lemma fill_core d : Core d → cursor d < stop →
  Core (fill_credits peers stop d) ∧ is_Some (credits (fill_credits peers stop d) !! cursor d).
Proof.
  intros HC Hc. pose proof (vg_count _ HG) as Hn.
  assert (N.min stop (saturating_add (cursor d) WINDOW) = N.min stop (cursor d + WINDOW)) as Eu.
  { unfold saturating_add, WINDOW. lia. }
  split.
  - destruct HC. constructor; cbn; try done.
    + intros p c. rewrite fill_lookup. destruct (credits d !! p) eqn:E; [intros [= <-]; auto|].
      case_bool_decide as Hp; [|done]. intros [= <-]. rewrite Eu in Hp. apply elem_of_range in Hp.
      constructor; cbn; [unfold WINDOW in *; lia|apply length_replicate|done|].
      intros a n [-> _]%lookup_replicate. left. unfold ATTEMPTS. lia.
    + unfold busy, spent in *. cbn. by rewrite fill_spent.
  - cbn. rewrite fill_lookup. destruct (credits d !! cursor d); [done|]. rewrite bool_decide_true; [done|].
    rewrite Eu. apply elem_of_range. unfold WINDOW. lia.
Qed.

Lemma occupied_false d a : occupied d a = false → ∀ id w, workers d !! id = Some w → w_address w ≠ a.
Proof.
  intros H id w Hw Ha. enough (occupied d a = true) by congruence. apply existsb_exists. exists (id, w).
  split; [|by apply bool_decide_eq_true]. apply list_elem_of_In. by apply elem_of_entries.
Qed.

Lemma pick_spec d c a : pick_address peers d c = Some a →
  (a < peers)%nat ∧ is_banned d a = false ∧ attempts_at c a < ATTEMPTS ∧ ∀ id w, workers d !! id = Some w → w_address w ≠ a.
Proof.
  unfold pick_address. intros E. match type of E with min_by_key ?k ?l = _ => pose proof (min_by_key_spec k l) as H end.
  rewrite E in H. destruct H as [[Ha%elem_of_seq Hf]%In_filter_elem _].
  apply andb_true_iff in Hf as [[H1%negb_true_iff H2%N.ltb_lt]%andb_true_iff H3%negb_true_iff].
  split_and!; [lia|done|done|]. by apply occupied_false.
Qed.

Lemma pick_none d c a : pick_address peers d c = None → (a < peers)%nat →
  is_banned d a = true ∨ ATTEMPTS ≤ attempts_at c a ∨ occupied d a = true.
Proof.
  unfold pick_address. intros E Ha. match type of E with min_by_key ?k ?l = _ => pose proof (min_by_key_spec k l) as H end.
  rewrite E in H. destruct (is_banned d a) eqn:E1; [by left|right].
  destruct (decide (ATTEMPTS ≤ attempts_at c a)) as [|E2]; [by left|right]. destruct (occupied d a) eqn:E3; [done|].
  exfalso. apply (not_elem_of_nil (A:=nat) a). rewrite <-H. apply In_filter_elem. split; [apply elem_of_seq; lia|].
  rewrite E1, E3. rewrite (proj2 (N.ltb_lt _ _)) by lia. done.
Qed.

Lemma attempts_lookup c a n : attempts c !! a = Some n → attempts_at c a = n.
Proof. unfold attempts_at. by intros ->. Qed.

Lemma spawn_core d c a : Core d → credits d !! cursor d = Some c → pick_address peers d c = Some a →
  (size (workers d) < limit)%nat → Core (spawn d a).
Proof.
  intros HC Hc (Ha & _ & Hn & Hfree)%pick_spec Hl. assert (workers d !! next_worker d = None) as Hw.
  { destruct (workers d !! next_worker d) as [w|] eqn:E; [|done]. destruct (co_ids _ HC _ _ E). lia. }
  destruct HC. constructor; cbn; try done.
  - intros id t. rewrite lookup_insert_Some. intros [[<- <-]|[_ Ht]]; [|eauto]. by constructor.
  - intros id. rewrite !lookup_insert. case_decide; [subst; split; eauto|done].
  - intros id w. rewrite lookup_insert_Some. intros [[<- <-]|[_ Ht]]; cbn; [lia|]. apply co_ids0 in Ht. lia.
  - intros i j w w'. rewrite !lookup_insert_Some. intros [[<- <-]|[_ H1]] [[<- <-]|[_ H2]] E; cbn in E;
      [done|by apply Hfree in H2|by apply Hfree in H1|by eapply co_distinct0].
  - rewrite map_size_insert_None by done. lia.
  - intros p k Hk. destruct (co_credits0 p k Hk) as [K1 K2 K3 K4]. constructor; try done.
    intros b n Hb. destruct (K4 b n Hb) as [|(-> & -> & Hno)]; [by left|right]. split_and!; try done.
    intros id w. rewrite lookup_insert_Some. intros [[<- <-]|[_ H]]; [|by eapply Hno]. cbn. intros <-.
    rewrite Hc in Hk. injection Hk as <-. rewrite (attempts_lookup _ _ _ Hb) in Hn. lia.
  - unfold busy, spent in *. cbn. rewrite sum_values_insert, delete_id, map_size_insert_None by done. cbn. lia.
Qed.

(** What the connecting and the assigning loops leave alone. *)
Definition same_frame (d d' : Download) : Prop :=
  cursor d' = cursor d ∧ pc d' = pc d ∧ closed d' = closed d ∧ banned d' = banned d ∧ emitted d' = emitted d.

Lemma connect_core fuel d c : Core d → credits d !! cursor d = Some c →
  ∃ d', connect peers limit fuel d = Some d' ∧ Core d' ∧ same_frame d d' ∧ credits d' = credits d ∧
    ((limit ≤ fuel + size (workers d))%nat → size (workers d') = limit ∨ pick_address peers d' c = None).
Proof.
  revert d. induction fuel as [|fuel IH]; intros d HC Hc; cbn [connect].
  { exists d. split_and!; try done. intros. left. pose proof (co_limit _ HC). lia. }
  case_bool_decide as Hl.
  - rewrite Hc. cbn [mbind option_bind]. destruct (pick_address peers d c) as [a|] eqn:Ea.
    + destruct (IH (spawn d a)) as (d' & E & HC' & Hs & Hcr & Hf); [by eapply spawn_core|done|]. exists d'.
      split_and!; try done. intros. apply Hf. cbn. rewrite map_size_insert_None; [lia|].
      destruct (workers d !! next_worker d) as [w|] eqn:E'; [|done]. destruct (co_ids _ HC _ _ E'). lia.
    + exists d. split_and!; try done. by right.
  - exists d. split_and!; try done. intros. left. pose proof (co_limit _ HC). lia.
Qed.

Lemma eligible_worker_spec d p c id w : eligible d p c = Some (id, w) →
  workers d !! id = Some w ∧ w_job w = None ∧ attempts_at c (w_address w) < ATTEMPTS.
Proof.
  unfold eligible. intros E. match type of E with min_by_key ?k ?l = _ => pose proof (min_by_key_spec k l) as H end.
  rewrite E in H. destruct H as [[Hw%elem_of_entries Hf]%In_filter_elem _]. unfold idle_for in Hf. cbn in Hf.
  apply andb_true_iff in Hf as [Hf H5%N.ltb_lt]. repeat apply andb_true_iff in Hf as [Hf ?].
  by apply bool_decide_eq_true in Hf.
Qed.

(** A worker's job changes: addresses, identities and so the budgets stay. *)
Lemma rejob_lookup (ws : gmap N Worker) id w job j w' : ws !! id = Some w →
  <[id := mkWorker (w_address w) job]> ws !! j = Some w' → ∃ w0, ws !! j = Some w0 ∧ w_address w0 = w_address w'.
Proof. intros Hw. rewrite lookup_insert_Some. intros [[<- <-]|[_ H]]; eauto. Qed.

Lemma rejob_credit (ws : gmap N Worker) id w job cur p c : ws !! id = Some w → CreditOk ws cur p c →
  CreditOk (<[id := mkWorker (w_address w) job]> ws) cur p c.
Proof.
  intros Hw [K1 K2 K3 K4]. constructor; try done. intros a n Ha. destruct (K4 a n Ha) as [|(? & ? & Hno)]; [by left|right].
  split_and!; try done. intros j w' Hj. destruct (rejob_lookup _ _ _ _ _ _ Hw Hj) as (w0 & Hw0 & <-). by eapply Hno.
Qed.

(** The worker map after a change of job, the credits changed accordingly. *)
Lemma rejob_core d id w (job : option Job) credits' (tasks' : gmap N Task) g rr : Core d → workers d !! id = Some w →
  (∀ i : N, is_Some (tasks' !! i) ↔ is_Some (tasks d !! i)) → (∀ i t, tasks' !! i = Some t → TaskOk t) →
  (∀ p c, credits' !! p = Some c → CreditOk (workers d) (cursor d) p c) →
  spent d + (if job then 1 else 0) ≤ sum_values (λ c, total (attempts c)) credits' + (if w_job w then 1 else 0) →
  Core (mkDownload (pc d) (<[id := mkWorker (w_address w) job]> (workers d)) (banned d) credits' (cursor d) g
    (next_worker d) rr (chan d) tasks' (notified d) (closed d) (emitted d)).
Proof.
  intros HC Hw Hdom Ht Hcr Hsum. destruct HC. constructor; cbn; try done.
  - intros i. rewrite Hdom, <-co_dom0, lookup_insert. case_decide; [subst; naive_solver|done].
  - intros i w' Hi. destruct (rejob_lookup _ _ _ _ _ _ Hw Hi) as (w0 & Hw0 & <-). by eapply co_ids0.
  - intros i j w1 w2 H1 H2 E. destruct (rejob_lookup _ _ _ _ _ _ Hw H1) as (v1 & Hv1 & E1).
    destruct (rejob_lookup _ _ _ _ _ _ Hw H2) as (v2 & Hv2 & E2). eapply co_distinct0; [done|done|congruence].
  - by rewrite (map_size_insert_Some _ _ _ (mk_is_Some _ _ Hw)).
  - intros p c Hc. by apply rejob_credit, Hcr.
  - rewrite (map_size_insert_Some _ _ _ (mk_is_Some _ _ Hw)). unfold busy, spent in *. cbn.
    pose proof (sum_values_insert_total (λ w, if w_job w then 1 else 0) (workers d) id (mkWorker (w_address w) job)) as Hb.
    rewrite Hw in Hb. cbn in Hb. destruct (w_job w), job; lia.
Qed.

Lemma assign_piece_core d p : Core d →
  Core (assign_piece d p) ∧ same_frame d (assign_piece d p) ∧
  (∀ q, is_Some (credits d !! q) → is_Some (credits (assign_piece d p) !! q)) ∧
  (workers (assign_piece d p) = ∅ → workers d = ∅) ∧ (workers d = ∅ → assign_piece d p = d).
Proof.
  intros HC. unfold assign_piece. destruct (credits d !! p) as [c|] eqn:Ec; [|done].
  destruct (_ && _) eqn:Eo; [|done]. destruct (eligible d p c) as [[id w]|] eqn:Ee; [|done].
  apply eligible_worker_spec in Ee as (Hw & Hj & Hn).
  assert (workers d = ∅ → False) as Hne by (intros H; by rewrite H, lookup_empty in Hw).
  destruct (tasks d !! id) as [t|] eqn:Et; [|done]. destruct (can_send t) eqn:Es.
  - destruct (co_credits _ HC _ _ Ec) as [K1 K2 K3 K4]. destruct (co_ids _ HC _ _ Hw) as [_ Ha].
    destruct (lookup_lt_is_Some_2 (attempts c) (w_address w)) as [n Hn1]; [lia|]. rewrite (attempts_lookup _ _ _ Hn1) in Hn.
    split_and!; [|done| | |by intros].
    + apply rejob_core; try done.
      * intros i. rewrite lookup_insert. case_decide; [subst; rewrite Et; naive_solver|done].
      * intros i t'. rewrite lookup_insert_Some. intros [[<- <-]|[_ H]]; [|by eapply co_tasks].
        destruct (co_tasks _ HC _ _ Et) as [T1 T2 T3]. constructor; cbn; try done. intros j [= <-]. cbn. lia.
      * intros q k. rewrite lookup_insert_Some. intros [[<- <-]|[_ H]]; [|by eapply co_credits].
        constructor; cbn; try done; [by rewrite length_alter|]. intros a m Hm. cbn [attempts] in Hm.
        destruct (decide (a = w_address w)) as [->|Hne'].
        -- rewrite list_lookup_alter_eq, Hn1 in Hm. cbn in Hm. injection Hm as <-. left. lia.
        -- rewrite list_lookup_alter_ne in Hm by done. by apply K4.
      * pose proof (sum_values_insert_total (λ c, total (attempts c)) (credits d) p
          (mkCredit (alter (λ n, n + 1) (w_address w) (attempts c)) (Some id) None)) as Hs.
        rewrite Ec in Hs. cbn [attempts] in Hs. rewrite (total_alter _ _ _ Hn1) in Hs. unfold spent. rewrite Hj. lia.
    + intros q Hq. cbn. rewrite lookup_insert. by case_decide.
    + cbn. intros H. by apply insert_non_empty in H.
  - split_and!; try done. destruct HC. by constructor.
Qed.

Lemma assign_core d : Core d →
  Core (assign d) ∧ same_frame d (assign d) ∧ (∀ q, is_Some (credits d !! q) → is_Some (credits (assign d) !! q)) ∧
  (workers (assign d) = ∅ → assign d = d ∧ workers d = ∅).
Proof.
  intros HC. unfold assign. generalize (ascending (dom (credits d))). intros l. revert d HC.
  induction l as [|p l IH]; intros d HC; cbn [foldl]; [done|].
  destruct (assign_piece_core d p HC) as (H1 & (F1 & F2 & F3 & F4 & F5) & H3 & H4 & H5).
  destruct (IH _ H1) as (J1 & (G1 & G2 & G3 & G4 & G5) & J3 & J4).
  split_and!; [done|unfold same_frame; split_and!; congruence|auto|].
  intros E. destruct (J4 E) as [E1 E2]. specialize (H4 E2). split; [|done]. rewrite E1. auto.
Qed.

Lemma plan_inv d : Core d → cursor d < stop → ∃ d', plan peers stop limit d = Some d' ∧ DownloadInv d'.
Proof.
  intros HC Hc. destruct (fill_core d HC Hc) as [HC1 [c Hcr]]. unfold plan.
  destruct (connect_core limit _ c HC1 Hcr) as (d2 & -> & HC2 & (F1 & _) & Ecr & Hfull).
  cbn [mbind option_bind]. destruct (assign_core d2 HC2) as (HC3 & (G1 & _) & Hk & He).
  assert (Core (set_pc Waiting (assign d2)) ∧ Core (exit (Err (Unrecoverable (cursor (assign d2)))) (assign d2))) as [HCw HCe]
    by (destruct HC3; split; by constructor).
  change (cursor (fill_credits peers stop d)) with (cursor d) in *. rewrite <-Ecr in Hcr.
  case_bool_decide as Hw; (eexists; split; [done|]); constructor; try done; unfold at_pc; cbn.
  - destruct (He Hw) as [E Hw2]. split_and!; [done|lia|done|]. exists c. rewrite E, F1. split; [done|]. intros a Ha.
    destruct Hfull as [Hf|Hf]; [lia| |].
    { rewrite Hw2, map_size_empty in Hf. lia. }
    destruct (pick_none d2 c a Hf Ha) as [Hp|[Hp|Hp]]; [by left|by right|].
    unfold occupied in Hp. apply existsb_exists in Hp as ([id w] & Hin%list_elem_of_In%elem_of_entries & _).
    by rewrite Hw2, lookup_empty in Hin.
  - split_and!; [lia| |done]. apply Hk. rewrite G1, F1. eauto.
Qed.

(** ** The coordinator's turns *)

Lemma core_set_pc p d : Core d → Core (set_pc p d).
Proof. intros []. by constructor. Qed.

Lemma spent_same (m : gmap N Credit) p k o b : m !! p = Some k →
  sum_values (λ c, total (attempts c)) (<[p := mkCredit (attempts k) o b]> m) = sum_values (λ c, total (attempts c)) m.
Proof.
  intros Hk. pose proof (sum_values_insert_total (λ c, total (attempts c)) m p (mkCredit (attempts k) o b)) as H.
  rewrite Hk in H. cbn [attempts] in H. lia.
Qed.

(** Credits keep their attempts and get bytes that verify. *)
Lemma recredit_ok (m : gmap N Credit) ws cur p k o b : m !! p = Some k → (∀ x, b = Some x → good p x) →
  (∀ q c, m !! q = Some c → CreditOk ws cur q c) → ∀ q c, <[p := mkCredit (attempts k) o b]> m !! q = Some c → CreditOk ws cur q c.
Proof.
  intros Hk Hb Hm q c. rewrite lookup_insert_Some. intros [[<- <-]|[_ H]]; [|auto].
  destruct (Hm _ _ Hk) as [K1 K2 K3 K4]. by constructor.
Qed.

Lemma pop_core d : Core d → Core (pop_chan d).
Proof.
  intros []. constructor; cbn; try done. intros c Hc. apply co_chan0. destruct (chan d); [done|by right].
Qed.

Lemma complete_core d c : Core d → good (job_piece (c_job c)) (c_bytes c) → Core (complete d c).
Proof.
  intros HC Hg. unfold complete. destruct (workers d !! c_worker c) as [w|] eqn:Hw; [|done]. case_bool_decide as Hj; [|done].
  apply rejob_core; try done.
  - intros i t. apply (co_tasks _ HC).
  - destruct (credits d !! job_piece (c_job c)) as [k|] eqn:Ek; [|apply (co_credits _ HC)].
    case_bool_decide; [|apply (co_credits _ HC)]. eapply recredit_ok; [done|by intros x [= <-]|apply (co_credits _ HC)].
  - rewrite Hj. unfold spent. destruct (credits d !! job_piece (c_job c)) as [k|] eqn:Ek; [|lia].
    case_bool_decide; [|lia]. rewrite spent_same by done. lia.
Qed.

Lemma sent_core d b : Core d → cursor d < stop → good (cursor d) b → Core (sent_one d b).
Proof.
  intros HC Hc Hg. pose proof HC as []. destruct co_emitted0 as [Hl He]. constructor; cbn; try done.
  - lia.
  - split; [unfold lenN in *; rewrite length_app; cbn [length]; lia|]. intros i x. rewrite lookup_app_Some. intros [Hi|[Hge Hi]]; [auto|].
    apply list_lookup_singleton_Some in Hi as [Hi <-]. unfold lenN in Hl. replace (first + N.of_nat i) with (cursor d) by lia. done.
  - intros p c [Hne Hp]%lookup_delete_Some. destruct (co_credits0 _ _ Hp) as [K1 K2 K3 K4]. constructor; try done; [unfold WINDOW in *; lia|].
    intros a n Ha. destruct (K4 a n Ha) as [|(? & _)]; [by left|congruence].
  - unfold busy, spent in *. cbn. replace (cursor d + 1 - first) with (cursor d - first + 1) by lia.
    rewrite N.mul_add_distr_l. enough (sum_values (λ c, total (attempts c)) (credits d) ≤
      (ATTEMPTS + 1) * N.of_nat peers + sum_values (λ c, total (attempts c)) (delete (cursor d) (credits d))) by lia.
    destruct (credits d !! cursor d) as [k|] eqn:Ek; [|rewrite delete_id by done; lia].
    rewrite (sum_values_delete _ _ _ _ Ek). destruct (co_credits0 _ _ Ek) as [_ K2 _ K4].
    assert (total (attempts k) ≤ (ATTEMPTS + 1) * lenN (attempts k)) as Ht; [|unfold lenN in Ht; lia].
    apply total_bound, Forall_lookup. intros a n Ha. destruct (K4 a n Ha) as [|(_ & -> & _)]; lia.
Qed.

(** The worker's removal keeps every budget. *)
Lemma unwork_credit (ws : gmap N Worker) id cur p c : CreditOk ws cur p c → CreditOk (delete id ws) cur p c.
Proof.
  intros [K1 K2 K3 K4]. constructor; try done. intros a n Ha. destruct (K4 a n Ha) as [|(? & ? & Hno)]; [by left|right].
  split_and!; try done. intros j w' [_ Hj]%lookup_delete_Some. by eapply Hno.
Qed.

Lemma refund_ok d id w : Core d → workers d !! id = Some w → is_Some (credits d !! cursor d) →
  ∃ m, refund d id w = Some m ∧ (∀ p c, m !! p = Some c → CreditOk (delete id (workers d)) (cursor d) p c) ∧
    spent d + 1 ≤ sum_values (λ c, total (attempts c)) m + (if w_job w then 1 else 0).
Proof.
  intros HC Hw [k Hk]. unfold refund, spent. destruct (w_job w) as [j|].
  - eexists. split; [done|]. destruct (credits d !! job_piece j) as [k'|] eqn:Ek.
    + case_bool_decide.
      * split; [|rewrite spent_same by done; lia]. eapply recredit_ok; [done| |].
        -- intros x Hx. by eapply (cr_bytes _ _ _ _ (co_credits _ HC _ _ Ek)).
        -- intros q c Hq. by apply unwork_credit, (co_credits _ HC).
      * split; [|lia]. intros q c Hq. by apply unwork_credit, (co_credits _ HC).
    + split; [|lia]. intros q c Hq. by apply unwork_credit, (co_credits _ HC).
  - rewrite Hk. cbn [mbind option_bind]. eexists. split; [done|].
    pose proof (co_credits _ HC _ _ Hk) as [K1 K2 K3 K4]. destruct (co_ids _ HC _ _ Hw) as [_ Ha].
    destruct (lookup_lt_is_Some_2 (attempts k) (w_address w)) as [n Hn]; [lia|]. split.
    + intros q c. rewrite lookup_insert_Some. intros [[<- <-]|[_ H]]; [|by apply unwork_credit, (co_credits _ HC)].
      constructor; cbn; try done; [by rewrite length_alter|]. intros a m Hm. cbn [attempts] in Hm.
      destruct (decide (a = w_address w)) as [->|Hne].
      * rewrite list_lookup_alter_eq, Hn in Hm. cbn in Hm. injection Hm as <-.
        destruct (K4 _ _ Hn) as [Hle|(_ & _ & Hno)]; [|by destruct (Hno _ _ Hw)]. unfold ATTEMPTS in *.
        destruct (decide (n < 3)); [left; lia|right]. split_and!; [done|lia|].
        intros j w' [Hij Hj]%lookup_delete_Some E. by apply Hij, (co_distinct _ HC _ _ w w').
      * rewrite list_lookup_alter_ne in Hm by done. destruct (K4 a m Hm) as [|(? & ? & Hno)]; [by left|right].
        split_and!; try done. intros j w' [_ Hj]%lookup_delete_Some. by eapply Hno.
    + pose proof (sum_values_insert_total (λ c, total (attempts c)) (credits d) (cursor d)
        (mkCredit (alter (λ n, n + 1) (w_address w) (attempts k)) (owner k) (credit_bytes k))) as Hs.
      rewrite Hk in Hs. cbn [attempts] in Hs. rewrite (total_alter _ _ _ Hn) in Hs. lia.
Qed.

Lemma joined_core d id f : Core d → is_Some (credits d !! cursor d) → is_Some (tasks d !! id) →
  ∃ d', joined d id f = Some d' ∧ Core d' ∧ pc d' = Top.
Proof.
  intros HC Hk Ht. destruct (proj2 (co_dom _ HC id) Ht) as [w Hw]. destruct (refund_ok d id w HC Hw Hk) as (m & Em & Hm & Hs).
  unfold joined. rewrite Hw, Em. cbn [mbind option_bind]. eexists. split_and!; [done| |done].
  pose proof HC as []. constructor; cbn; try done.
  - intros i t [_ H]%lookup_delete_Some. eauto.
  - intros i. destruct (decide (i = id)) as [->|Hne]; [by rewrite !lookup_delete_eq|]. by rewrite !lookup_delete_ne.
  - intros i v [_ H]%lookup_delete_Some. eauto.
  - intros i j v v' [_ H1]%lookup_delete_Some [_ H2]%lookup_delete_Some. eauto.
  - rewrite map_size_delete_Some by eauto. lia.
  - destruct f; [done|]. by rewrite length_insert.
  - rewrite map_size_delete_Some by eauto. unfold busy, spent in *. cbn.
    rewrite (sum_values_delete (λ w, if w_job w then 1 else 0) _ _ _ Hw) in co_account0.
    assert (size (workers d) ≠ 0)%nat by (intros E%map_size_empty_inv; by rewrite E, lookup_empty in Hw).
    destruct (w_job w); lia.
Qed.

(** A change of tasks, channel and flags leaves the program point's facts alone. *)
Lemma worker_inv d id t' extra n : DownloadInv d → is_Some (tasks d !! id) → TaskOk t' →
  (∀ c, c ∈ extra → good (job_piece (c_job c)) (c_bytes c)) →
  DownloadInv (mkDownload (pc d) (workers d) (banned d) (credits d) (cursor d) (generation d) (next_worker d) (round_robin d)
    (chan d ++ extra) (<[id := t']> (tasks d)) n (closed d) (emitted d)).
Proof. intros [HC Hp] Hi Ht He. constructor; [by apply task_core|done]. Qed.

Lemma alter_inv f d id : (∀ t, TaskOk t → TaskOk (f t)) → DownloadInv d → DownloadInv (set_tasks (alter f id) d).
Proof.
  intros Hf HI. destruct (tasks d !! id) as [t|] eqn:E.
  - pose proof (worker_inv d id (f t) [] (notified d) HI ltac:(eauto) (Hf _ (co_tasks _ (di_core _ HI) _ _ E)) ltac:(by intros ? ?%elem_of_nil)) as H.
    unfold set_tasks. rewrite app_nil_r in H. replace (alter f id (tasks d)) with (<[id := f t]> (tasks d)); [done|].
    apply map_eq. intros i. rewrite lookup_insert, lookup_alter. case_decide; [subst; by rewrite E|done].
  - unfold set_tasks. replace (alter f id (tasks d)) with (tasks d); [by destruct d|].
    apply map_eq. intros i. rewrite lookup_alter. case_decide; [subst; by rewrite E|done].
Qed.

Lemma top_inv d : Core d → ∃ d', top peers stop limit d = Some d' ∧ DownloadInv d'.
Proof.
  intros HC. unfold top. destruct (N.eqb_spec (cursor d) stop) as [E|Hne].
  { eexists. split; [done|]. constructor; [by apply core_set_pc|done]. }
  destruct (closed d) eqn:Ecl.
  { eexists. split; [done|]. constructor; [by apply core_set_pc|done]. }
  pose proof (co_cursor _ HC) as Hc. destruct (credits d !! cursor d) as [c|] eqn:Ec; cbn [mbind option_bind]; [|apply plan_inv; [done|lia]].
  destruct (credit_bytes c) as [b|] eqn:Eb; cbn; [|apply plan_inv; [done|lia]].
  eexists. split; [done|]. pose proof (cr_bytes _ _ _ _ (co_credits _ HC _ _ Ec) _ Eb) as Hg.
  constructor; [|unfold at_pc; cbn; split; [lia|done]]. apply core_set_pc. pose proof HC as []. constructor; cbn; try done.
  - eapply recredit_ok; [done|by intros|done].
  - unfold busy, spent in *. cbn. by rewrite spent_same.
Qed.

Lemma drive_inv d : DownloadInv d → ∃ d', drive peers stop limit d = Some d' ∧ DownloadInv d'.
Proof.
  intros [HC Hp]. unfold drive, at_pc in *. destruct (pc d) eqn:Epc.
  - by apply top_inv.
  - destruct (closed d) eqn:Ecl; (eexists; split; [done|]); constructor; try done; [by apply core_set_pc|unfold at_pc; by rewrite Epc].
  - destruct (closed d) eqn:Ecl; [|destruct (chan d) as [|c l] eqn:Ech]; (eexists; split; [done|]); constructor; try done.
    + by apply core_set_pc.
    + unfold at_pc. by rewrite Epc.
    + apply core_set_pc, complete_core; [by apply pop_core|]. apply (co_chan _ HC). rewrite Ech. by left.
  - eexists. split; [done|]. constructor; [done|unfold at_pc; by rewrite Epc].
Qed.

Lemma joined_step_inv d id : DownloadInv d → ∃ d', join d id = Some d' ∧ DownloadInv d'.
Proof.
  intros [HC Hp]. assert (∃ d', Some d = Some d' ∧ DownloadInv d') as Hsame by (eexists; split; [done|by constructor]).
  unfold join. destruct (pc d) eqn:Epc; try done. destruct (closed d); [done|]. destruct (chan d); [|done].
  destruct (tasks d !! id) as [t|] eqn:Et; [|done]. cbn. destruct (phase t) as [| | | |[f|]] eqn:Eph; try done.
  - unfold at_pc in Hp. rewrite Epc in Hp. destruct Hp as (_ & Hk & _).
    destruct (joined_core d id f HC Hk ltac:(eauto)) as (d' & -> & HC' & Ep'). exists d'. split; [done|]. constructor; [done|].
    unfold at_pc. by rewrite Ep'.
  - pose proof (to_phase _ (co_tasks _ HC _ _ Et)) as H. unfold phase_ok in H. by rewrite Eph in H.
Qed.

Lemma deliver_inv d id : DownloadInv d → DownloadInv (deliver d id).
Proof.
  intros HI. unfold deliver. destruct (tasks d !! id) as [[ph q a]|] eqn:Et; [|done]. destruct ph; try done. case_bool_decide; [|done].
  destruct (co_tasks _ (di_core _ HI) _ _ Et) as [T1 T2 T3]. apply worker_inv; [done|eauto|by constructor|].
  intros c' ->%list_elem_of_singleton. exact T2.
Qed.

Lemma event_inv d e : DownloadInv d → ∃ d', step sha1 info peers stop limit d e = Some d' ∧ DownloadInv d'.
Proof.
  intros HI. destruct e as [| | | | | | |id m| |]; cbn [step].
  - by apply drive_inv.
  - by apply joined_step_inv.
  - eexists. split; [done|]. unfold notice. destruct (pc d) eqn:Epc; try done. destruct (closed d); [done|]. destruct (chan d); [|done].
    destruct (_ && _); [|done]. constructor; [|done]. apply core_set_pc. destruct HI as [[] _]. by constructor.
  - destruct HI as [HC Hp]. destruct (pc d) eqn:Epc; try (eexists; split; [done|by constructor]).
    unfold at_pc in Hp. rewrite Epc in Hp. destruct Hp as [Hc Hg]. destruct (closed d) eqn:Ecl; (eexists; split; [done|]); constructor; try done.
    + by apply core_set_pc.
    + by apply sent_core.
  - eexists. split; [done|]. destruct HI as [[] Hp]. constructor; [by constructor|]. unfold at_pc in *. cbn.
    destruct (pc d) as [| | |[|[]]]; done.
  - eexists. split; [done|]. apply alter_inv; [apply ready_ok|done].
  - eexists. split; [done|]. apply alter_inv; [apply start_ok|done].
  - eexists. split; [done|]. destruct (tasks d !! id) as [t|] eqn:Et; [|done].
    pose proof (hear_ok t id m (co_tasks _ (di_core _ HI) _ _ Et)) as Ht. destruct (hear _ _ t id m) as [t' n].
    pose proof (worker_inv d id t' [] (n || notified d) HI ltac:(eauto) Ht ltac:(by intros ? ?%elem_of_nil)) as H.
    by rewrite app_nil_r in H.
  - eexists. split; [done|]. apply alter_inv; [apply fail_ok|done].
  - eexists. split; [done|]. by apply deliver_inv.
Qed.

Lemma run_inv l : ∀ d, DownloadInv d → ∃ d', run sha1 info peers stop limit d l = Some d' ∧ DownloadInv d'.
Proof.
  induction l as [|e l IH]; intros d HI; cbn [run]; [eauto|]. destruct (event_inv d e HI) as (d1 & -> & H1). by apply IH.
Qed.

(** ** A peer that does not fail *)

Definition healthy (a : nat) (d : Download) : Prop :=
  ∀ id w t, workers d !! id = Some w → w_address w = a → tasks d !! id = Some t → is_ended t = false.

(** The address has a worker, or nothing has been held against it. *)
Definition unblamed (a : nat) (d : Download) : Prop :=
  (∃ id w, workers d !! id = Some w ∧ w_address w = a) ∨
  ((∀ p c, credits d !! p = Some c → attempts_at c a = 0) ∧ is_banned d a = false).

Lemma unblamed_fill a d : unblamed a d → unblamed a (fill_credits peers stop d).
Proof.
  intros [H|[H Hb]]; [by left|right]. split; [|done]. intros p c. cbn. rewrite fill_lookup.
  destruct (credits d !! p) eqn:E; [intros [= <-]; eauto|]. case_bool_decide; [|done]. intros [= <-].
  unfold attempts_at. cbn. destruct (replicate peers 0 !! a) eqn:Er; [|done]. by apply lookup_replicate in Er as [-> _].
Qed.

Lemma unblamed_spawn a d b : Core d → unblamed a d → unblamed a (spawn d b).
Proof.
  intros HC [(id & w & Hw & Ha)|H]; [left|by right]. exists id, w. cbn. split; [|done]. rewrite lookup_insert_ne; [done|].
  destruct (co_ids _ HC _ _ Hw). lia.
Qed.

Lemma unblamed_connect a fuel d c d' : Core d → credits d !! cursor d = Some c → unblamed a d →
  connect peers limit fuel d = Some d' → unblamed a d'.
Proof.
  revert d. induction fuel as [|fuel IH]; intros d HC Hc Hu E; cbn [connect] in E; [by injection E as <-|].
  case_bool_decide as Hl; [|by injection E as <-]. rewrite Hc in E. cbn [mbind option_bind] in E.
  destruct (pick_address peers d c) as [b|] eqn:Eb; [|by injection E as <-]. apply (IH (spawn d b)); [by eapply spawn_core|done|by apply unblamed_spawn|done].
Qed.

Lemma attempts_alter c a b o x : b ≠ a → attempts_at (mkCredit (alter (λ n, n + 1) b (attempts c)) o x) a = attempts_at c a.
Proof. intros Hb. unfold attempts_at. cbn. by rewrite list_lookup_alter_ne. Qed.

Lemma unblamed_rejob a d id w job credits' tasks' g rr : workers d !! id = Some w → unblamed a d →
  (w_address w ≠ a → ∀ p c, credits' !! p = Some c → ∃ p' c', credits d !! p' = Some c' ∧ attempts_at c a = attempts_at c' a) →
  unblamed a (mkDownload (pc d) (<[id := mkWorker (w_address w) job]> (workers d)) (banned d) credits' (cursor d) g
    (next_worker d) rr (chan d) tasks' (notified d) (closed d) (emitted d)).
Proof.
  intros Hw Hu Hc. destruct (decide (w_address w = a)) as [Ha|Ha].
  { left. exists id, (mkWorker (w_address w) job). cbn. by rewrite lookup_insert_eq. }
  destruct Hu as [(i & v & Hv & Hva)|[Hat Hb]].
  - left. exists i, v. cbn. rewrite lookup_insert_ne; [done|]. congruence.
  - right. split; [|done]. cbn. intros p c Hp. destruct (Hc Ha p c Hp) as (p' & c' & Hc' & ->). eauto.
Qed.

Lemma unblamed_assign_piece a d p : Core d → unblamed a d → unblamed a (assign_piece d p).
Proof.
  intros HC Hu. unfold assign_piece. destruct (credits d !! p) as [c|] eqn:Ec; [|done].
  destruct (_ && _); [|done]. destruct (eligible d p c) as [[id w]|] eqn:Ee; [|done].
  apply eligible_worker_spec in Ee as (Hw & _). destruct (tasks d !! id) as [t|]; [|done]. destruct (can_send t); [|done].
  apply unblamed_rejob; [done|done|]. intros Ha q k. rewrite lookup_insert_Some. intros [[<- <-]|[_ H]]; [|eauto].
  exists p, c. split; [done|]. by apply attempts_alter.
Qed.

Lemma unblamed_assign a d : Core d → unblamed a d → unblamed a (assign d).
Proof.
  unfold assign. generalize (ascending (dom (credits d))). intros l. revert d.
  induction l as [|p l IH]; intros d HC Hu; cbn [foldl]; [done|]. apply IH; [by apply assign_piece_core|by apply unblamed_assign_piece].
Qed.

Lemma unblamed_plan a d d' : Core d → cursor d < stop → unblamed a d → plan peers stop limit d = Some d' → unblamed a d'.
Proof.
  intros HC Hc Hu E. destruct (fill_core d HC Hc) as [HC1 [c Hcr]]. unfold plan in E.
  destruct (connect_core limit _ c HC1 Hcr) as (d2 & E2 & HC2 & _). rewrite E2 in E. cbn [mbind option_bind] in E.
  assert (unblamed a (assign d2)) as Hu2
    by (apply unblamed_assign; [done|]; eapply unblamed_connect; [exact HC1|exact Hcr|by apply unblamed_fill|exact E2]).
  case_bool_decide; injection E as <-; exact Hu2.
Qed.

Lemma unblamed_complete a d c : unblamed a d → unblamed a (complete d c).
Proof.
  intros Hu. unfold complete. destruct (workers d !! c_worker c) as [w|] eqn:Hw; [|done]. case_bool_decide; [|done].
  apply unblamed_rejob; [done|done|]. intros _ p k. destruct (credits d !! job_piece (c_job c)) as [k'|] eqn:Ek; [|eauto].
  case_bool_decide; [|eauto]. rewrite lookup_insert_Some. intros [[<- <-]|[_ Hq]]; eauto.
Qed.

Lemma unblamed_joined a d id f d' : healthy a d → is_ended <$> tasks d !! id = Some true → unblamed a d →
  joined d id f = Some d' → unblamed a d'.
Proof.
  intros Hh Het Hu E. unfold joined in E. destruct (workers d !! id) as [w|] eqn:Hw; [|by injection E as <-].
  apply bind_Some in E as (m & Em & E). injection E as <-. assert (w_address w ≠ a) as Ha.
  { intros Ha. apply fmap_Some in Het as (t & Ht & He). specialize (Hh id w t Hw Ha Ht). congruence. }
  destruct Hu as [(i & v & Hv & Hva)|[Hat Hb]].
  - left. exists i, v. cbn. rewrite lookup_delete_ne; [done|]. congruence.
  - right. split; cbn.
    + intros p c Hp. unfold refund in Em. destruct (w_job w) as [j|].
      * injection Em as <-. destruct (credits d !! job_piece j) as [k|] eqn:Ek; [|eauto]. case_bool_decide; [|eauto].
        apply lookup_insert_Some in Hp as [[<- <-]|[_ Hq]]; [|eauto]. apply (Hat _ _ Ek).
      * apply bind_Some in Em as (k & Ek & Em). injection Em as <-. apply lookup_insert_Some in Hp as [[<- <-]|[_ H]]; [|eauto].
        rewrite attempts_alter by done. eauto.
    + unfold is_banned in *. cbn. destruct f; [done|]. by rewrite list_lookup_insert_ne.
Qed.

Lemma unblamed_step a d e d' : DownloadInv d → healthy a d → unblamed a d →
  step sha1 info peers stop limit d e = Some d' → unblamed a d'.
Proof.
  intros [HC Hp] Hh Hu E. destruct e as [|id| | | | | |id m| |id]; cbn [step] in E; try (by injection E as <-).
  - unfold drive in E. destruct (pc d) eqn:Epc; [|by destruct (closed d); injection E as <-| |by injection E as <-].
    + unfold top in E. destruct (N.eqb_spec (cursor d) stop) as [|Hne]; [by injection E as <-|]. destruct (closed d); [by injection E as <-|].
      pose proof (co_cursor _ HC) as Hc. destruct (credits d !! cursor d) as [c|] eqn:Ec; cbn [mbind option_bind] in E;
        [destruct (credit_bytes c) as [b|]; cbn in E|]; try (eapply unblamed_plan; [done| |done|exact E]; lia).
      injection E as <-. destruct Hu as [|[Hat Hb]]; [by left|right]. split; [|done]. cbn. intros p k.
      rewrite lookup_insert_Some. intros [[<- <-]|[_ H]]; [|eauto]. apply (Hat _ _ Ec).
    + destruct (closed d); [by injection E as <-|]. destruct (chan d) as [|c l]; injection E as <-; [done|].
      apply (unblamed_complete a (pop_chan d) c Hu).
  - unfold join in E. destruct (pc d); try (by injection E as <-). destruct (closed d); [by injection E as <-|].
    destruct (chan d); [|by injection E as <-]. destruct (tasks d !! id) as [t|] eqn:Et; [|by injection E as <-]. cbn in E.
    destruct (phase t) as [| | | |[f|]] eqn:Eph; try (by injection E as <-).
    eapply unblamed_joined; [done| |done|exact E]. rewrite Et. cbn. unfold is_ended. by rewrite Eph.
  - injection E as <-. unfold notice. destruct (pc d); try done. destruct (closed d); [done|]. destruct (chan d); [|done].
    by destruct (_ && _).
  - destruct (pc d); try (by injection E as <-). destruct (closed d); injection E as <-; [done|].
    destruct Hu as [|[Hat Hb]]; [by left|right]. split; [|done]. cbn. intros p c [_ H]%lookup_delete_Some. eauto.
  - injection E as <-. destruct (tasks d !! id); [|done]. by destruct (hear _ _ _ _ _).
  - injection E as <-. unfold deliver. destruct (tasks d !! id) as [[[] q x]|]; try done. by case_bool_decide.
Qed.

Lemma run_snoc l e : ∀ d d', run sha1 info peers stop limit d (l ++ [e]) = Some d' ↔
  ∃ d1, run sha1 info peers stop limit d l = Some d1 ∧ step sha1 info peers stop limit d1 e = Some d'.
Proof.
  induction l as [|x l IH]; intros d d'; cbn [app run].
  - rewrite bind_Some. cbn. naive_solver.
  - destruct (step _ _ _ _ _ d x) as [d0|]; cbn; [apply IH|naive_solver].
Qed.
End invariant.

Lemma permitted_spec policy l : ∀ seen, NoDup (permitted policy seen l) ∧
  ∀ a, a ∈ permitted policy seen l ↔ a ∈ l ∧ permits policy a = true ∧ a ∉ seen.
Proof.
  induction l as [|x l IH]; intros seen; cbn [permitted].
  - split; [constructor|]. intros a. rewrite elem_of_nil. naive_solver.
  - destruct (permits policy x && negb (bool_decide (x ∈ seen))) eqn:E.
    + apply andb_true_iff in E as [Hp Hs%negb_true_iff%bool_decide_eq_false].
      destruct (IH ({[x]} ∪ seen)) as [H1 H2]. split.
      * constructor; [|done]. rewrite H2. set_solver.
      * intros a. rewrite !elem_of_cons, H2, not_elem_of_union, not_elem_of_singleton. destruct (decide (a = x)); naive_solver.
    + destruct (IH seen) as [H1 H2]. split; [done|]. intros a. rewrite elem_of_cons, H2. split; [naive_solver|].
      intros ([->|] & Ha & Hs); [|done]. exfalso. apply andb_false_iff in E as [|E]; [congruence|].
      by apply negb_false_iff, bool_decide_eq_true in E.
Qed.

(** A started download: the hypotheses of the invariant. *)
Lemma start_spec info supplied first stop0 concurrency policy addresses stop limit d :
  download_start info supplied first stop0 concurrency policy = inr (addresses, stop, limit, d) →
  addresses = permitted policy ∅ supplied ∧ d = download_new first (length addresses) ∧
  first < stop ∧ stop ≤ vod_piece_count info ∧ (1 ≤ limit ≤ 4)%nat.
Proof.
  unfold download_start. destruct (N.leb_spec (N.min stop0 (vod_piece_count info)) first); [done|].
  destruct (_ && _); [done|]. intros [= <- <- <- <-]. split_and!; try done; lia.
Qed.

(** ** Theorems *)

(** Every piece up to the end has bytes: [total_length] reaches into it. *)
Definition pieces_nonempty (info : VodInfo) : Prop := ∀ p, p < vod_piece_count info → 0 < piece_size info p.

Lemma started_inv sha1 info supplied first stop0 concurrency policy addresses stop limit d0 evs :
  VodGeometry info → pieces_nonempty info →
  download_start info supplied first stop0 concurrency policy = inr (addresses, stop, limit, d0) →
  ∃ d, run sha1 info (length addresses) stop limit d0 evs = Some d ∧ DownloadInv sha1 info (length addresses) first stop limit d.
Proof.
  intros HG Hsz (Ha & -> & Hf & Hs & Hl)%start_spec.
  apply (run_inv sha1 info (length addresses) first stop limit HG Hs); [intros p Hp; apply Hsz; lia|lia|apply new_core; lia].
Qed.

(** C9: a download emits verified pieces in order.  Over every interleaving of the coordinator, its workers, the
    peers' messages, failures and the consumer, the coordinator does not panic; the i-th piece it has emitted has the
    size and the hash of piece [first + i] of the descriptor; and when it reports success every piece of the
    range has been emitted. *)
Theorem vod_download_verified sha1 info supplied first stop0 concurrency policy evs addresses stop limit d0 :
  VodGeometry info → pieces_nonempty info →
  download_start info supplied first stop0 concurrency policy = inr (addresses, stop, limit, d0) →
  ∃ d, run sha1 info (length addresses) stop limit d0 evs = Some d ∧
    (∀ i b, emitted d !! i = Some b →
       lenN b = piece_size info (first + N.of_nat i) ∧ vod_piece_hashes info !! N.to_nat (first + N.of_nat i) = Some (sha1 b)) ∧
    (pc d = Exited (Ok ()) → lenN (emitted d) = stop - first).
Proof.
  intros HG Hsz Hst. destruct (started_inv sha1 _ _ _ _ _ _ _ _ _ _ evs HG Hsz Hst) as (d & E & HC & Hp).
  exists d. split; [done|]. destruct (co_emitted _ _ _ _ _ _ _ HC) as [H1 H2]. split; [exact H2|].
  intros Epc. unfold at_pc in Hp. rewrite Epc in Hp. lia.
Qed.

(** C15: a download stays within its bounds.  In every reachable state there are at most four connections, to distinct
    addresses the policy permits; at most four pieces are held; no address is tried more than four times for a
    piece, so the byte-sized counters cannot overflow; and over the whole download at most four connections per
    address and piece are opened beyond the ones that are running. *)
Theorem vod_download_bounded sha1 info supplied first stop0 concurrency policy evs addresses stop limit d0 :
  VodGeometry info → pieces_nonempty info →
  download_start info supplied first stop0 concurrency policy = inr (addresses, stop, limit, d0) →
  NoDup addresses ∧ (∀ a, a ∈ addresses → a ∈ supplied ∧ permits policy a = true) ∧
  ∃ d, run sha1 info (length addresses) stop limit d0 evs = Some d ∧
    (size (workers d) ≤ limit ≤ 4)%nat ∧
    (∀ id w, workers d !! id = Some w → is_Some (addresses !! w_address w)) ∧
    (∀ i j v w, workers d !! i = Some v → workers d !! j = Some w → w_address v = w_address w → i = j) ∧
    (size (credits d) ≤ 4)%nat ∧
    (∀ p c, credits d !! p = Some c → Forall (λ n, n ≤ 4) (attempts c)) ∧
    next_worker d ≤ N.of_nat limit + 4 * lenN addresses * (stop - first).
Proof.
  intros HG Hsz Hst. destruct (started_inv sha1 _ _ _ _ _ _ _ _ _ _ evs HG Hsz Hst) as (d & E & HC & Hp).
  apply start_spec in Hst as (Ha & _ & Hf & Hs & Hl). destruct (permitted_spec policy supplied ∅) as [N1 N2]. rewrite <-Ha in N1, N2.
  split_and!; [done|intros a; rewrite N2; naive_solver|].
  assert (∀ p c, credits d !! p = Some c → Forall (λ n, n ≤ 4) (attempts c)) as Hat.
  { intros p c Hc. apply Forall_lookup. intros a n Hn.
    destruct (cr_budget _ _ _ _ _ _ _ _ (co_credits _ _ _ _ _ _ _ HC _ _ Hc) a n Hn) as [|(_ & -> & _)]; unfold ATTEMPTS in *; lia. }
  pose proof (co_credits _ _ _ _ _ _ _ HC) as Hcr. exists d. split_and!; try done.
  - apply (co_limit _ _ _ _ _ _ _ HC).
  - lia.
  - intros id w Hw. apply lookup_lt_is_Some_2. apply (co_ids _ _ _ _ _ _ _ HC _ _ Hw).
  - apply (co_distinct _ _ _ _ _ _ _ HC).
  - apply (size_window _ (cursor d) 4). intros p [c Hc]. pose proof (cr_range _ _ _ _ _ _ _ _ (Hcr _ _ Hc)). unfold WINDOW in *. lia.
  - pose proof (co_account _ _ _ _ _ _ _ HC) as Hacc. pose proof (co_limit _ _ _ _ _ _ _ HC). pose proof (co_cursor _ _ _ _ _ _ _ HC) as Hcur.
    assert (spent d ≤ 4 * lenN addresses * (stop - cursor d)) as Hsp.
    { unfold spent. etransitivity; [apply (sum_values_bound _ _ (4 * lenN addresses))|].
      - intros p c Hc. pose proof (total_bound _ _ (Hat _ _ Hc)) as Ht. pose proof (cr_length _ _ _ _ _ _ _ _ (Hcr _ _ Hc)). unfold lenN in *. lia.
      - apply N.mul_le_mono_l. enough (size (credits d) ≤ N.to_nat (stop - cursor d))%nat by lia.
        apply (size_window _ (cursor d)). intros p [c Hc]. pose proof (cr_range _ _ _ _ _ _ _ _ (Hcr _ _ Hc)). lia. }
    unfold ATTEMPTS, lenN in *. replace (stop - first) with ((cursor d - first) + (stop - cursor d)) by lia. lia.
Qed.

(** C14: one good peer is enough.  A download in which the workers of one address never fail does not end as
    unrecoverable, whatever the other peers do; and a download that ends so has no connection left, and every
    address is banned for a damaged piece or has used its three attempts for the piece that is reported. *)
Theorem vod_good_peer_suffices sha1 info supplied first stop0 concurrency policy evs addresses stop limit d0 d p :
  VodGeometry info → pieces_nonempty info →
  download_start info supplied first stop0 concurrency policy = inr (addresses, stop, limit, d0) →
  run sha1 info (length addresses) stop limit d0 evs = Some d → pc d = Exited (Err (Unrecoverable p)) →
  p = cursor d ∧ first ≤ p < stop ∧
  (∃ c, credits d !! p = Some c ∧ ∀ a, (a < length addresses)%nat → is_banned d a = true ∨ 3 ≤ attempts_at c a) ∧
  ∀ a, (a < length addresses)%nat →
    ¬ (∀ l1 l2 d1, evs = l1 ++ l2 → run sha1 info (length addresses) stop limit d0 l1 = Some d1 → healthy a d1).
Proof.
  intros HG Hsz Hst Hrun Hpc. pose proof (λ l, started_inv sha1 _ _ _ _ _ _ _ _ _ _ l HG Hsz Hst) as Hinv.
  apply start_spec in Hst as (Ha & -> & Hf & Hs & Hl).
  destruct (Hinv evs) as (d' & E & HC & Hp). rewrite Hrun in E. injection E as <-. unfold at_pc in Hp. rewrite Hpc in Hp.
  destruct Hp as (-> & Hlt & Hw & c & Hc & Hex). pose proof (co_cursor _ _ _ _ _ _ _ HC). split_and!; [done|lia|done|eauto|].
  intros a Hlt' Hno.
  assert (∀ l1 l2 d1, evs = l1 ++ l2 → run sha1 info (length addresses) stop limit (download_new first (length addresses)) l1 = Some d1 →
    unblamed a d1) as Hu.
  { intros l1. induction l1 as [|e l1 IH] using rev_ind; intros l2 d1 El E1.
    - injection E1 as <-. right. split; [cbn; intros q k; by rewrite lookup_empty|].
      unfold is_banned. cbn. by rewrite lookup_replicate_2.
    - apply run_snoc in E1 as (d2 & E2 & Es). destruct (Hinv l1) as (d2' & E2' & HI2). rewrite E2 in E2'. injection E2' as <-.
      rewrite <-app_assoc in El. eapply unblamed_step; [exact HG|exact Hs|apply Hl|exact HI2|by eapply Hno|by eapply IH|exact Es]. }
  destruct (Hu evs [] d) as [(id & w & Hin & _)|[Hat Hb]]; [by rewrite app_nil_r|done| |].
  - by rewrite Hw, lookup_empty in Hin.
  - destruct (Hex a Hlt') as [Hban|Hge]; [congruence|]. rewrite (Hat _ _ Hc) in Hge. unfold ATTEMPTS in Hge. lia.
Qed.

(** ** Runs *)

Definition ex_addr (n : N) : SocketAddrV4 := mkSocketAddrV4 (map N_byte [10; 0; 0; n]) 8621.
Definition ex_supplied : list SocketAddrV4 := [ex_addr 1; ex_addr 2; ex_addr 1].
Definition ex_policy : PeerPolicy := PeerPolicy_default.

Lemma ex_nonempty : pieces_nonempty ex_info.
Proof.
  intros p Hp. change (vod_piece_count ex_info) with 3 in Hp. assert (p = 0 ∨ p = 1 ∨ p = 2) as [->|[->| ->]] by lia; done.
Qed.

Lemma ex_start : download_start ex_info ex_supplied 0 9 4 ex_policy
  = inr ([ex_addr 1; ex_addr 2], 3, 4%nat, download_new 0 2).
Proof. vm_compute. done. Qed.

(** Two connections: the second damages a piece and is banned, the first fetches everything. *)
Definition ex_download : list Event :=
  [Drive; Ready 0; Ready 1; Hear 0 Unchoke; Hear 1 Unchoke; Notified; Drive; Start 0; Start 1;
   Hear 0 (Piece 0 0 (bs "abcd")); Hear 1 (Piece 1 0 (bs "ijkl")); Hear 1 (Piece 1 4 (bs "mnoX"));
   Hear 0 (Piece 0 4 (bs "efgh")); Deliver 0; Drive; Drive; Take; Drive; Start 0; Join 1; Drive;
   Hear 0 (Piece 2 0 (bs "qrst")); Deliver 0; Drive; Drive; Start 0;
   Hear 0 (Piece 1 4 (bs "mnop")); Hear 0 (Piece 1 0 (bs "ijkl")); Deliver 0; Drive; Drive; Take; Drive; Take; Drive].

(** The only peer breaks its connection three times. *)
Definition ex_broken : list Event := concat (map (λ id, [Drive; Fail id; Join id]) [0; 1; 2]) ++ [Drive].

Example download_ex :
  (λ d, (pc d, emitted d, banned d)) <$> run ex_sha1 ex_info 2 3 4 (download_new 0 2) ex_download
    = Some (Exited (Ok ()), ex_pieces, [false; true]) ∧
  pc <$> run ex_sha1 ex_info 1 3 4 (download_new 0 1) ex_broken = Some (Exited (Err (Unrecoverable 0))).
Proof. vm_compute. done. Qed.

Lemma vod_download_verified_witness :
  ∃ d, run ex_sha1 ex_info 2 3 4 (download_new 0 2) ex_download = Some d ∧
    (∀ i b, emitted d !! i = Some b →
       lenN b = piece_size ex_info (0 + N.of_nat i) ∧ vod_piece_hashes ex_info !! N.to_nat (0 + N.of_nat i) = Some (ex_sha1 b)) ∧
    (pc d = Exited (Ok ()) → lenN (emitted d) = 3 - 0).
Proof. exact (vod_download_verified ex_sha1 ex_info _ 0 9 4 ex_policy ex_download _ _ _ _ ex_geometry ex_nonempty ex_start). Defined.

Lemma vod_download_bounded_witness :
  NoDup [ex_addr 1; ex_addr 2] ∧ ∃ d, run ex_sha1 ex_info 2 3 4 (download_new 0 2) ex_download = Some d ∧
    next_worker d ≤ 4 + 4 * 2 * (3 - 0).
Proof.
  destruct (vod_download_bounded ex_sha1 ex_info _ 0 9 4 ex_policy ex_download _ _ _ _ ex_geometry ex_nonempty ex_start)
    as (H1 & _ & d & E & _ & _ & _ & _ & _ & Hn).
  split; [exact H1|]. exists d. split; [exact E|exact Hn].
Defined.

Lemma ex_start_one : download_start ex_info [ex_addr 1] 0 9 4 ex_policy = inr ([ex_addr 1], 3, 4%nat, download_new 0 1).
Proof. vm_compute. done. Qed.

Lemma ex_broken_run : ∃ d, run ex_sha1 ex_info 1 3 4 (download_new 0 1) ex_broken = Some d ∧ pc d = Exited (Err (Unrecoverable 0)).
Proof.
  assert (pc <$> run ex_sha1 ex_info 1 3 4 (download_new 0 1) ex_broken = Some (Exited (Err (Unrecoverable 0)))) as H by (vm_compute; done).
  apply fmap_Some in H as (d & E & H). exists d. split; [exact E|symmetry; exact H].
Qed.

Lemma vod_good_peer_suffices_witness :
  ¬ (∀ l1 l2 d1, ex_broken = l1 ++ l2 → run ex_sha1 ex_info 1 3 4 (download_new 0 1) l1 = Some d1 → healthy 0 d1).
Proof.
  destruct ex_broken_run as (d & E & Hp).
  destruct (vod_good_peer_suffices ex_sha1 ex_info _ 0 9 4 ex_policy ex_broken _ _ _ _ d 0 ex_geometry ex_nonempty ex_start_one E Hp)
    as (_ & _ & _ & H). apply H. cbn. lia.
Defined.
