(* ===== verification/VodRange.v ===== *)
(** * Video on demand: byte ranges over HTTP

    [ace-engine/src/http/vod.rs] (the [Range] header and what is answered), the [VodHlsLayout] of
    [ace-engine/src/hls.rs] and [ace-engine/src/ace_provider/vod.rs]: the pieces that cover a range,
    the cached prefix, the source that trims pieces to the range, and the tee that fills the cache.
    The receiver of the download is the list of the pieces it will yield; segment durations
    (floating point, for players only) are left out. *)

From S2P Require Import Prelude Order Bytes BTree Text Message Handshake Metainfo Net PeerPolicy.
From S2P Require Import Store Vod VodCoordinator.

Local Open Scope N_scope.

(** ** The Range header *)

Inductive RangeOutcome : Type :=
  | Full
  | Satisfiable (start finish : N)
  | Unsatisfiable.

(** [str::split_once] on a one-byte separator. *)
Definition split_once (sep : byte) (l : bytes) : option (bytes * bytes) :=
  i ← position sep l; Some (take i l, drop (S i) l).

Definition parse_byte_range (header : option bytes) (total : N) : RangeOutcome :=
  match header ≫= strip_prefix (bs "bytes=") with
  | None => Full
  | Some spec =>
      let spec := trim spec in
      if bool_decide (","%byte ∈ spec) then Full
      else match split_once "-"%byte spec with
        | None => Full
        | Some (first, last) =>
            let first := trim first in
            let last := trim last in
            match bool_decide (first = []), bool_decide (last = []) with
            | true, false =>
                match parse_u64 last with
                | Some n => if n =? 0 then Unsatisfiable else Satisfiable (saturating_sub total n) (total - 1)
                | None => Full
                end
            | false, true =>
                match parse_u64 first with
                | Some start => if start <? total then Satisfiable start (total - 1) else Unsatisfiable
                | None => Full
                end
            | false, false =>
                match parse_u64 first, parse_u64 last with
                | Some start, Some finish =>
                    if (start <=? finish) && (start <? total) then Satisfiable start (N.min finish (total - 1))
                    else Unsatisfiable
                | _, _ => Full
                end
            | true, true => Full
            end
        end
  end.

(** ** HLS segments *)

Record VodHlsLayout : Type := mkLayout { layout_total : N; seg_bytes : N }.

Definition layout_new (total segment_packets : N) : VodHlsLayout := mkLayout total (N.max segment_packets 3 * 188).
Definition segment_count (l : VodHlsLayout) : N := div_ceil (layout_total l) (seg_bytes l).
Definition segment_range (l : VodHlsLayout) (index : N) : option (N * N) :=
  if segment_count l <=? index then None
  else Some (u64_mul index (seg_bytes l), N.min (u64_mul (index + 1) (seg_bytes l)) (layout_total l) - 1).

(** ** Opening a range *)

(** The leading pieces of the range that the store holds. *)
Fixpoint cached_run (st : PieceStore) (info : VodInfo) (l : list N) : list bytes :=
  match l with
  | [] => []
  | p :: l =>
      match shared_block st p 0 (piece_size info p `mod` two32) with
      | Some b => b :: cached_run st info l
      | None => []
      end
  end.

Definition cached_prefix (st : PieceStore) (info : VodInfo) (first_piece end_piece : N) : list bytes * N :=
  let prefix := cached_run st info (range first_piece (end_piece - first_piece)) in
  (prefix, first_piece + lenN prefix).

(** The prefix and the receiver, in the order they are read. *)
Record VodSource : Type := mkVodSource { queued : list bytes; skip : N; remaining : N; emit_len : N }.

Inductive ProviderError : Type := OutOfBounds | NoPeers.

Record Opened : Type := mkOpened {
  prefix : list bytes;
  (** the pieces to download, if any *)
  download : option (N * N);
  op_skip : N;
  op_emit : N;
}.

(** A resolved descriptor has a positive piece length; the source's divisions would panic on zero. *)
Definition open_range (info : VodInfo) (st : PieceStore) (peers : list SocketAddrV4) (start finish : N)
    : result ProviderError Opened :=
  let total := vod_total_length info in
  if (total =? 0) || (finish <? start) || (total <=? finish) then Err OutOfBounds
  else
    let first_piece := start `div` vod_piece_length info in
    let end_piece := finish `div` vod_piece_length info + 1 in
    let '(prefix, download_from) := cached_prefix st info first_piece end_piece in
    let opened d := mkOpened prefix d (start - first_piece * vod_piece_length info) (finish - start + 1) in
    if download_from <? end_piece then
      if bool_decide (peers = []) then Err NoPeers else Ok (opened (Some (download_from, end_piece)))
    else Ok (opened None).

(** The source once the download yields [fetched]. *)
Definition source_of (o : Opened) (fetched : list bytes) : VodSource :=
  mkVodSource (prefix o ++ fetched) (op_skip o) (op_emit o) (op_emit o).

(** [VodSource::next]; a closed channel ends the stream. *)
Fixpoint next_chunk (q : list bytes) (skip remaining emit : N) : option bytes * VodSource :=
  if remaining =? 0 then (None, mkVodSource q skip remaining emit)
  else match q with
    | [] => (None, mkVodSource [] skip remaining emit)
    | chunk :: q =>
        if (0 <? skip) && (lenN chunk <=? skip) then next_chunk q (skip - lenN chunk) remaining emit
        else
          let chunk := drop (N.to_nat skip) chunk in
          let chunk := if remaining <? lenN chunk then take (N.to_nat remaining) chunk else chunk in
          (Some chunk, mkVodSource q 0 (remaining - lenN chunk) emit)
    end.

Definition next (s : VodSource) : option bytes * VodSource := next_chunk (queued s) (skip s) (remaining s) (emit_len s).

(** The whole body: every call takes a queued piece or ends. *)
Fixpoint read_all (fuel : nat) (s : VodSource) : list bytes :=
  match fuel with
  | O => []
  | S fuel => match next s with (Some b, s) => b :: read_all fuel s | (None, _) => [] end
  end.

Definition body (s : VodSource) : list bytes := read_all (S (length (queued s))) s.

(** ** The tee *)

(** [slice::chunks]: blocks of [n] bytes, the last one shorter. *)
Fixpoint chunks_fuel (fuel n : nat) (l : bytes) : list bytes :=
  match fuel, l with
  | S fuel, _ :: _ => take n l :: chunks_fuel fuel n (drop n l)
  | _, _ => []
  end.
Definition chunks (n : nat) (l : bytes) : list bytes := chunks_fuel (length l) n l.

Definition tee_piece (info : VodInfo) (now : N) (st : PieceStore) (idx : N) (piece : bytes) : PieceStore :=
  foldl (λ st ic, shared_put_chunk_with_header st now idx (N.of_nat ic.1 `mod` two16) zero_header ic.2) st
    (imap pair (chunks (N.to_nat (vod_chunk_length info)) piece)).

Fixpoint tee_all (info : VodInfo) (now : N) (st : PieceStore) (idx : N) (l : list bytes) : PieceStore :=
  match l with
  | [] => st
  | piece :: l => tee_all info now (tee_piece info now st idx piece) (idx + 1) l
  end.

(** ** The request *)

Inductive VodReply : Type :=
  | EmptyBody
  | WholeBody (start finish : N)
  | PartialBody (start finish total : N)
  | RangeNotSatisfiable (total : N).

Definition vod_stream (header : option bytes) (total : N) : VodReply :=
  if total =? 0 then EmptyBody
  else match parse_byte_range header total with
    | Full => WholeBody 0 (total - 1)
    | Satisfiable start finish => PartialBody start finish total
    | Unsatisfiable => RangeNotSatisfiable total
    end.

Definition vod_hls_segment (seg : bytes) (total segment_packets : N) : option (N * N) :=
  n ← (if ends_with seg (bs ".ts") then Some (take (length seg - 3) seg) else None);
  index ← parse_u64 n;
  segment_range (layout_new total segment_packets) index.

(** ** Reading a source *)

Lemma next_chunk_spec q : ∀ k r e, match next_chunk q k r e with
  | (None, _) => take (N.to_nat r) (drop (N.to_nat k) (concat q)) = []
  | (Some b, s) => (length (queued s) < length q)%nat ∧
      b ++ take (N.to_nat (remaining s)) (drop (N.to_nat (skip s)) (concat (queued s))) =
      take (N.to_nat r) (drop (N.to_nat k) (concat q))
  end.
Proof.
  induction q as [|c q IH]; intros k r e; cbn [next_chunk]; (destruct (N.eqb_spec r 0) as [->|Hr]; [done|]).
  { cbn [concat]. by rewrite drop_nil, take_nil. }
  cbn [concat length]. destruct ((0 <? k) && (lenN c <=? k)) eqn:Ek.
  - apply andb_true_iff in Ek as [Hk%N.ltb_lt Hc%N.leb_le]. unfold lenN in *.
    rewrite drop_app_ge by lia. replace (N.to_nat k - length c)%nat with (N.to_nat (k - N.of_nat (length c))) by lia.
    specialize (IH (k - N.of_nat (length c)) r e). destruct (next_chunk q _ r e) as [[b|] s]; [|done].
    destruct IH as [H1 H2]. split; [lia|done].
  - assert (N.to_nat k ≤ length c)%nat as Hkc.
    { apply andb_false_iff in Ek as [Hk%N.ltb_ge|Hc%N.leb_gt]; unfold lenN in *; lia. }
    cbn [queued remaining skip]. split; [lia|]. rewrite drop_app_le by done. rewrite drop_0.
    set (x := drop (N.to_nat k) c). destruct (N.ltb_spec r (lenN x)) as [Hx|Hx]; unfold lenN in *.
    + rewrite length_take, Nat.min_l by lia. replace (r - N.of_nat (N.to_nat r)) with 0 by lia.
      rewrite take_0, app_nil_r. symmetry. apply take_app_le. lia.
    + rewrite take_app_ge by lia. do 2 f_equal. lia.
Qed.

Lemma read_all_spec fuel : ∀ s, (length (queued s) < fuel)%nat →
  concat (read_all fuel s) = take (N.to_nat (remaining s)) (drop (N.to_nat (skip s)) (concat (queued s))).
Proof.
  induction fuel as [|fuel IH]; intros s Hf; [lia|]. cbn [read_all]. unfold next.
  pose proof (next_chunk_spec (queued s) (skip s) (remaining s) (emit_len s)) as H.
  destruct (next_chunk _ _ _ _) as [[b|] s']; [|done]. destruct H as [H1 H2]. cbn [concat]. rewrite IH by lia. done.
Qed.

Lemma body_spec o fetched : concat (body (source_of o fetched)) =
  take (N.to_nat (op_emit o)) (drop (N.to_nat (op_skip o)) (concat (prefix o ++ fetched))).
Proof. unfold body. rewrite read_all_spec by lia. done. Qed.

(** ** Content and its pieces *)

Definition piece_of (info : VodInfo) (content : bytes) (p : N) : bytes :=
  slice content (N.to_nat (p * vod_piece_length info)) (N.to_nat (p * vod_piece_length info + piece_size info p)).

(** A descriptor that describes a file: the geometry that resolution validates and the hash of every piece. *)
Record Describes (sha1 : bytes → bytes) (info : VodInfo) (content : bytes) : Prop := {
  ds_geometry : VodGeometry info;
  ds_piece : 0 < vod_piece_length info;
  ds_whole : vod_piece_length info `mod` vod_chunk_length info = 0;
  ds_chunks : vod_piece_length info `div` vod_chunk_length info < two16;
  ds_total : vod_total_length info = lenN content;
  ds_count : vod_piece_count info = div_ceil (lenN content) (vod_piece_length info);
  ds_hash : ∀ p, p < vod_piece_count info → vod_piece_hashes info !! N.to_nat p = Some (sha1 (piece_of info content p));
}.

(** A buffer that is not a piece of the file but has its length and its hash: a second preimage. *)
Definition collides (sha1 : bytes → bytes) (info : VodInfo) (content : bytes) (b : bytes) : Prop :=
  ∃ p, p < vod_piece_count info ∧ b ≠ piece_of info content p ∧
    length b = length (piece_of info content p) ∧ sha1 b = sha1 (piece_of info content p).

Section described.
Context (sha1 : bytes → bytes) (info : VodInfo) (content : bytes) (HD : Describes sha1 info content).

Let pl : N := vod_piece_length info.
Let cl : N := vod_chunk_length info.

Lemma piece_index p : p * pl < lenN content ↔ p < vod_piece_count info.
Proof. rewrite (ds_count _ _ _ HD). apply div_ceil_lt, (ds_piece _ _ _ HD). Qed.

Lemma piece_size_at p : p < vod_piece_count info → piece_size info p = N.min (lenN content - p * pl) pl.
Proof.
  intros Hp. unfold piece_size, saturating_sub. fold pl. rewrite (ds_total _ _ _ HD), u64_mul_small; [done|].
  pose proof (vg_piece _ (ds_geometry _ _ _ HD)). pose proof (vg_count _ (ds_geometry _ _ _ HD)). fold pl in H. nia.
Qed.

Lemma described_nonempty : pieces_nonempty info.
Proof. intros p Hp. rewrite piece_size_at by done. apply piece_index in Hp. pose proof (ds_piece _ _ _ HD). fold pl in H. lia. Qed.

Lemma piece_end p : p < vod_piece_count info → p * pl + piece_size info p = N.min (lenN content) ((p + 1) * pl).
Proof. intros Hp. rewrite piece_size_at by done. apply piece_index in Hp. lia. Qed.

Lemma piece_of_length p : p < vod_piece_count info → lenN (piece_of info content p) = piece_size info p.
Proof.
  intros Hp. unfold piece_of, lenN. fold pl. rewrite slice_length.
  - lia.
  - pose proof (piece_end p Hp). unfold lenN in *. lia.
Qed.

(** The pieces of a run are a slice of the content. *)
Lemma concat_pieces f n : f + n ≤ vod_piece_count info →
  concat (map (piece_of info content) (range f n)) =
  slice content (N.to_nat (f * pl)) (N.to_nat (N.max (f * pl) (N.min (lenN content) ((f + n) * pl)))).
Proof.
  induction n as [|n IH] using N.peano_ind; intros Hn.
  - rewrite N.add_0_r. unfold range. cbn. unfold slice. symmetry. apply nil_length_inv. rewrite length_take, length_drop. unfold lenN. lia.
  - rewrite <-N.add_1_r, range_snoc, map_app, concat_app. cbn [map concat]. rewrite app_nil_r, IH by lia.
    pose proof (piece_end (f + n) ltac:(lia)) as He. pose proof (proj2 (piece_index (f + n)) ltac:(lia)) as Hi.
    unfold piece_of. fold pl. rewrite He.
    replace (N.max (f * pl) (N.min (lenN content) ((f + n) * pl))) with ((f + n) * pl) by nia.
    rewrite slice_app_adjacent by nia. f_equal. nia.
Qed.

(** Buffers of the sizes and hashes of a run of pieces are those pieces, or one of them collides. *)
Lemma verified_pieces f l : f + lenN l ≤ vod_piece_count info →
  (∀ (i : nat) b, l !! i = Some b → lenN b = piece_size info (f + N.of_nat i) ∧
    vod_piece_hashes info !! N.to_nat (f + N.of_nat i) = Some (sha1 b)) →
  length (concat l) = length (concat (map (piece_of info content) (range f (lenN l)))) ∧
  (Exists (collides sha1 info content) l ∨ l = map (piece_of info content) (range f (lenN l))).
Proof.
  revert f. induction l as [|b l IH]; intros f Hf Hl; [split; [done|by right]|].
  assert (lenN (b :: l) = 1 + lenN l) as Ec by (unfold lenN; cbn; lia). rewrite Ec in *. rewrite range_cons. cbn [map concat]. rewrite !length_app.
  destruct (Hl 0%nat b eq_refl) as [Hb Hh]. rewrite N.add_0_r in *.
  pose proof (piece_of_length f ltac:(lia)) as Hp. destruct (IH (f + 1)) as [El Hor]; [lia| |].
  { intros i b' Hi. replace (f + 1 + N.of_nat i) with (f + N.of_nat (S i)) by lia. by apply Hl. }
  rewrite El. unfold lenN in Hb, Hp. split; [lia|].
  destruct (decide (b = piece_of info content f)) as [->|Hne].
  { destruct Hor as [?| ->]; [left; by right|right]. unfold lenN. rewrite length_map, length_range, N2Nat.id. done. }
  left. left. exists f. split_and!; [lia|done|lia|]. rewrite (ds_hash _ _ _ HD) in Hh by lia. congruence.
Qed.

(** ** The cache *)

(** A store of the descriptor's geometry in which every chunk is the content's. *)
Record Held (st : PieceStore) : Prop := {
  hd_inv : Inv st;
  hd_piece : piece_length st = pl;
  hd_chunk : chunk_length st = cl;
  hd_data : ∀ p i d, chunk st p i = Some d →
    d = slice (piece_of info content p) (N.to_nat (i * cl)) (N.to_nat (i * cl + cl));
}.

Lemma read_chunks_held st p n : ∀ lo b, Held st → read_chunks st p (range lo n) = Some b →
  b = slice (piece_of info content p) (N.to_nat (lo * cl)) (N.to_nat ((lo + n) * cl)).
Proof.
  induction n as [|n IH] using N.peano_ind; intros lo b HH Hr.
  - rewrite N.add_0_r. unfold slice. rewrite Nat.sub_diag, take_0. change (range lo 0) with (@nil N) in Hr. by injection Hr as <-.
  - rewrite <-N.add_1_l, range_cons in Hr. cbn [read_chunks] in Hr. destruct (lo <? two16); [|done].
    unfold shared_serving_chunk in Hr. destruct (pieces (backend st) !! p ≫= λ c, c !! lo) as [d|] eqn:Ed; [|done].
    cbn [mbind option_bind] in Hr. apply bind_Some in Hr as (rest & Er & Hr). injection Hr as <-.
    pose proof (hd_data _ HH p lo d Ed) as ->. rewrite (IH _ _ HH Er).
    replace (N.to_nat (lo * cl + cl)) with (N.to_nat ((lo + 1) * cl)) by lia.
    rewrite slice_app_adjacent by nia. f_equal. lia.
Qed.

Lemma cached_block st p b : Held st → p < vod_piece_count info →
  shared_block st p 0 (piece_size info p `mod` two32) = Some b → b = piece_of info content p.
Proof.
  intros HH Hp. assert (piece_size info p < two32) as Hs.
  { rewrite piece_size_at by done. pose proof (vg_piece _ (ds_geometry _ _ _ HD)). fold pl in H. lia. }
  rewrite N.mod_small by done. unfold shared_block. destruct (_ || _); [done|]. cbn [N.add].
  intros (e & [-> _]%checked_add_Some & H)%bind_Some. destruct (_ <? _); [done|].
  apply bind_Some in H as (l & Hl & H). rewrite N.Div0.div_0_l, N.sub_0_r in Hl. rewrite N.Div0.mod_0_l in H.
  apply bind_Some in H as (r & [-> _]%checked_add_Some & H). apply slice_get_Some in H as (-> & _ & Hlen).
  rewrite (read_chunks_held _ _ _ _ _ HH Hl) in Hlen |- *. rewrite N.mul_0_l, !N.add_0_l in *.
  pose proof (piece_of_length p Hp) as Hpl. unfold lenN in Hpl. unfold slice in *. rewrite !Nat.sub_0_r, !drop_0 in *.
  rewrite length_take in Hlen. rewrite take_take. apply take_ge. lia.
Qed.

Lemma cached_run_spec st f n : Held st → f + n ≤ vod_piece_count info →
  ∃ k, k ≤ n ∧ cached_run st info (range f n) = map (piece_of info content) (range f k).
Proof.
  intros HH. revert f. induction n as [|n IH] using N.peano_ind; intros f Hn; [by exists 0|].
  rewrite <-N.add_1_l, range_cons. cbn [cached_run].
  destruct (shared_block st f 0 (piece_size info f `mod` two32)) as [b|] eqn:E; [|exists 0; split; [lia|done]].
  destruct (IH (f + 1)) as (k & Hk & ->); [lia|]. exists (1 + k). split; [lia|].
  rewrite range_cons. cbn [map]. f_equal. eapply cached_block; [done|lia|done].
Qed.

(** ** The tee keeps the cache the content's *)

Lemma chunks_lookup n l : (0 < n)%nat → ∀ fuel i d, chunks_fuel fuel n l !! i = Some d → d = slice l (i * n) (i * n + n) ∧ (i * n < length l)%nat.
Proof.
  intros Hn fuel. revert l. induction fuel as [|fuel IH]; intros l i d; [by destruct l|]. destruct l as [|x l]; [done|].
  cbn [chunks_fuel]. destruct i as [|i]; cbn.
  - intros [= <-]. unfold slice. split; [by rewrite Nat.sub_0_r|lia].
  - intros [-> Hi]%IH. rewrite length_drop in Hi. cbn [length] in Hi. unfold slice. rewrite drop_drop.
    split; [|cbn [length]; lia]. replace (n + i * n + n - (n + i * n))%nat with (i * n + n - i * n)%nat by lia. done.
Qed.

Lemma put_held st now p i : Held st → p < vod_piece_count info →
  Held (shared_put_chunk_with_header st now p i zero_header
    (slice (piece_of info content p) (N.to_nat (i * cl)) (N.to_nat (i * cl + cl)))).
Proof.
  intros HH Hp. unfold shared_put_chunk_with_header. destruct (N.eqb_spec (max_bytes st) 0) as [|Hm]; [done|].
  destruct (N.leb_spec (piece_length st `div` chunk_length st) i) as [|Hi]; [done|]. cbn [orb].
  set (data := slice _ _ _). destruct HH as [HI H1 H2 H3].
  assert (lenN data < 2 ^ 63) as Hd.
  { unfold data, lenN, slice. rewrite length_take, length_drop. pose proof (piece_of_length p Hp) as Hl.
    rewrite piece_size_at in Hl by done. pose proof (vg_piece _ (ds_geometry _ _ _ HD)) as Hv. fold pl in Hv. unfold lenN in Hl. lia. }
  pose proof (inserted_spec st now p i zero_header data HI Hi Hd) as (HL & Hps & Hpl & Hcl & _).
  destruct (evict_spec _ HL) as (cut & HT & _). destruct (tr_config _ _ _ HT) as (T1 & T2 & _).
  constructor; [by apply put_chunk_inv| | |]; rewrite put_chunk_eq by lia; [congruence|congruence|].
  intros q j d Hq. unfold chunk, backend_get in *. rewrite (tr_pieces _ _ _ HT), lookup_from_key, Hps in Hq.
  case_decide; [|done]. destruct (decide (q = p)) as [->|Hqp].
  - rewrite lookup_insert_eq in Hq. cbn in Hq. destruct (decide (j = i)) as [->|Hji].
    + rewrite lookup_insert_eq in Hq. by injection Hq as <-.
    + rewrite lookup_insert_ne in Hq by done. apply (H3 p j d). by destruct (pieces (backend st) !! p).
  - rewrite lookup_insert_ne in Hq by done. by apply (H3 q j d).
Qed.

Lemma tee_held st now p : Held st → p < vod_piece_count info → Held (tee_piece info now st p (piece_of info content p)).
Proof.
  intros HH Hp. pose proof (vg_chunk _ (ds_geometry _ _ _ HD)) as Hc. fold cl in Hc. unfold tee_piece. fold cl.
  assert (∀ ic, ic ∈ imap pair (chunks (N.to_nat cl) (piece_of info content p)) → N.of_nat ic.1 < two16 ∧
    ic.2 = slice (piece_of info content p) (N.to_nat (N.of_nat ic.1 * cl)) (N.to_nat (N.of_nat ic.1 * cl + cl))) as Hl.
  { intros [i d] Hin. apply list_elem_of_lookup in Hin as (j & Hj). rewrite list_lookup_imap in Hj.
    apply fmap_Some in Hj as (x & Hx & [= -> ->]). apply chunks_lookup in Hx as [-> Hlt]; [|lia]. cbn.
    split; [|f_equal; lia]. pose proof (piece_of_length p Hp) as Hpl. rewrite piece_size_at in Hpl by done. unfold lenN in Hpl.
    pose proof (ds_chunks _ _ _ HD) as Hch. pose proof (ds_whole _ _ _ HD) as Hw. fold pl cl in Hch, Hw.
    pose proof (N.div_mod pl cl ltac:(lia)). nia. }
  revert st HH. induction (imap pair _) as [|[i d] l IH]; intros st HH; cbn [foldl]; [done|].
  apply IH; [intros ic Hic; apply Hl; by right|]. destruct (Hl (i, d)) as [Hi Hd]; [by left|]. cbn in *. subst d.
  rewrite N.mod_small by done. by apply put_held.
Qed.

Lemma tee_all_held n : ∀ st now f, Held st → f + n ≤ vod_piece_count info →
  Held (tee_all info now st f (map (piece_of info content) (range f n))).
Proof.
  induction n as [|n IH] using N.peano_ind; intros st now f HH Hn; [done|].
  rewrite <-N.add_1_l, range_cons. cbn [map tee_all]. apply IH; [|lia]. apply tee_held; [done|lia].
Qed.
End described.

(** ** A request end to end *)

(** What the downloader yields for the missing pieces, and whether it ended with success. *)
Definition fetch (sha1 : bytes → bytes) (info : VodInfo) (peers : list SocketAddrV4) (policy : PeerPolicy) (evs : list Event)
    (missing : option (N * N)) : list bytes * bool :=
  match missing with
  | None => ([], true)
  | Some (first, stop) =>
      match download_start info peers first stop 4 policy with
      | inl r => ([], is_ok r)
      | inr (addresses, stop, limit, d0) =>
          match run sha1 info (length addresses) stop limit d0 evs with
          | Some d => (emitted d, match pc d with Exited (Ok _) => true | _ => false end)
          | None => ([], false)
          end
      end
  end.

Section request.
Context (sha1 : bytes → bytes) (info : VodInfo) (content : bytes).
Context (HD : Describes sha1 info content).

(** The pieces a download yields have the sizes and the hashes the descriptor names. *)
Lemma fetch_spec peers policy evs f e : f < e → e ≤ vod_piece_count info →
  let fetched := fetch sha1 info peers policy evs (Some (f, e)) in
  lenN fetched.1 ≤ e - f ∧ (fetched.2 = true → lenN fetched.1 = e - f) ∧
  ∀ (i : nat) b, fetched.1 !! i = Some b → lenN b = piece_size info (f + N.of_nat i) ∧
    vod_piece_hashes info !! N.to_nat (f + N.of_nat i) = Some (sha1 b).
Proof.
  intros Hf He. unfold fetch. destruct (download_start info peers f e 4 policy) as [r|[[[addresses stop] limit] d0]] eqn:Es.
  { cbn. split_and!; [change (lenN (@nil bytes)) with 0; lia| |done]. unfold download_start in Es. rewrite N.min_l, (proj2 (N.leb_gt _ _)) in Es by lia.
    destruct (_ && _); [|done]. by injection Es as <-. }
  destruct (started_inv sha1 _ _ _ _ _ _ _ _ _ _ evs (ds_geometry _ _ _ HD) (described_nonempty _ _ _ HD) Es) as (d & -> & HC & Hp).
  assert (stop = e) as ->.
  { unfold download_start in Es. rewrite N.min_l, (proj2 (N.leb_gt _ _)) in Es by lia. destruct (_ && _); [done|]. by injection Es. }
  destruct (co_emitted _ _ _ _ _ _ _ HC) as [H1 H2]. pose proof (co_cursor _ _ _ _ _ _ _ HC) as Hcur.
  cbn [fst snd]. split_and!; [lia| |].
  - unfold at_pc in Hp. destruct (pc d) as [| | |[[]|]]; try done. intros _. lia.
  - intros i b Hb. by apply H2.
Qed.

Lemma open_range_spec st peers start finish o : Held info content st → open_range info st peers start finish = Ok o →
  let f := start `div` vod_piece_length info in
  let e := finish `div` vod_piece_length info + 1 in
  start ≤ finish < lenN content ∧ op_skip o = start - f * vod_piece_length info ∧ op_emit o = finish - start + 1 ∧
  e ≤ vod_piece_count info ∧
  ∃ k, k ≤ e - f ∧ prefix o = map (piece_of info content) (range f k) ∧
    download o = (if f + k <? e then Some (f + k, e) else None).
Proof.
  intros HH. unfold open_range. destruct (_ || _) eqn:Eb; [done|]. rewrite (ds_total _ _ _ HD) in Eb.
  apply orb_false_iff in Eb as [[_ H1%N.ltb_ge]%orb_false_iff H2%N.leb_gt]. cbn [cached_prefix].
  set (f := start `div` vod_piece_length info). set (e := finish `div` vod_piece_length info + 1).
  pose proof (ds_piece _ _ _ HD) as Hp. assert (f < e) as Hfe.
  { unfold f, e. pose proof (N.Div0.div_le_mono start finish (vod_piece_length info) H1). lia. }
  assert (e ≤ vod_piece_count info) as He.
  { unfold e. enough (finish `div` vod_piece_length info < vod_piece_count info) by lia.
    apply (piece_index sha1 info content HD). pose proof (div_mul_bounds finish (vod_piece_length info) Hp). lia. }
  destruct (cached_run_spec sha1 info content HD st f (e - f) HH) as (k & Hk & ->); [lia|].
  assert (lenN (map (piece_of info content) (range f k)) = k) as -> by (unfold lenN; rewrite length_map, length_range; lia). intros E.
  destruct (f + k <? e) eqn:Ek; [destruct (bool_decide (peers = [])); [done|]|]; injection E as <-; cbn;
    (split_and!; try done); exists k; by rewrite Ek.
Qed.
(** The pieces that cover a range, trimmed to it: a prefix of the range, all of it when they are all there. *)
Lemma range_served start finish : start ≤ finish < lenN content →
  let pl := vod_piece_length info in
  let f := start `div` pl in
  let e := finish `div` pl + 1 in
  let wanted := slice content (N.to_nat start) (N.to_nat (finish + 1)) in
  ∀ m, f + m ≤ N.min e (vod_piece_count info) →
  let out := take (N.to_nat (finish - start + 1)) (drop (N.to_nat (start - f * pl)) (concat (map (piece_of info content) (range f m)))) in
  lenN wanted = finish - start + 1 ∧ lenN out ≤ finish - start + 1 ∧ out `prefix_of` wanted ∧ (m = e - f → out = wanted).
Proof.
  intros Hr pl f e wanted m Hm out.
  pose proof (ds_piece _ _ _ HD) as Hp. fold pl in Hp. pose proof (div_mul_bounds start pl Hp) as Hs. pose proof (div_mul_bounds finish pl Hp) as Hf.
  assert (wanted = take (N.to_nat (finish - start + 1)) (drop (N.to_nat start) content)) as Ew by (unfold wanted, slice; f_equal; lia).
  assert (out = take (N.to_nat (N.min (finish - start + 1) (N.max (f * pl) (N.min (lenN content) ((f + m) * pl)) - start)))
    (drop (N.to_nat start) content)) as Eout.
  { unfold out. rewrite (concat_pieces sha1 info content HD) by lia. fold pl. unfold slice.
    rewrite skipn_firstn_comm, drop_drop, take_take. f_equal; [|f_equal]; lia. }
  rewrite Eout, Ew. split_and!.
  - unfold lenN in *. rewrite length_take, length_drop. lia.
  - unfold lenN in *. rewrite length_take. lia.
  - rewrite N2Nat.inj_min, Nat.min_comm, <-take_take. apply prefix_take.
  - intros ->. assert (f < e) by (unfold f, e; pose proof (N.Div0.div_le_mono start finish pl ltac:(lia)); lia).
    assert (finish + 1 ≤ e * pl) by (unfold e; lia). replace (f + (e - f)) with e by lia. by rewrite N.min_l by lia.
Qed.
End request.

(** C8: a range request returns its bytes.  For a file the descriptor describes, served by any cache that holds
    only its chunks and any run of the downloader, the body of a range is never longer than the range; it is a
    prefix of the bytes requested, and when the download has succeeded, or nothing was missing, it is the range
    itself; unless the run has downloaded a second preimage: a buffer that is not a piece of the file and yet has
    the length and the SHA-1 of one, which no check of the client can tell from it.  Also then a successful body
    has the length of the range. *)
Theorem vod_range_served sha1 info content st peers policy start finish o evs :
  Describes sha1 info content → Held info content st →
  open_range info st peers start finish = Ok o →
  let fetched := fetch sha1 info peers policy evs (download o) in
  let out := concat (body (source_of o fetched.1)) in
  let wanted := slice content (N.to_nat start) (N.to_nat (finish + 1)) in
  lenN wanted = op_emit o ∧ lenN out ≤ op_emit o ∧ (fetched.2 = true → lenN out = op_emit o) ∧
  (Exists (collides sha1 info content) fetched.1 ∨
   out `prefix_of` wanted ∧ (fetched.2 = true → out = wanted)).
Proof.
  intros HD HH Ho fetched out wanted.
  destruct (open_range_spec sha1 info content HD st peers start finish o HH Ho) as (Hr & Es & Ee & He & k & Hk & Epre & Ed).
  pose proof (range_served sha1 info content HD start finish Hr) as Hserved.
  set (pl := vod_piece_length info) in *. set (f := start `div` pl) in *. set (e := finish `div` pl + 1) in *.
  assert (f ≤ e) as Hfe by (unfold f, e; pose proof (N.Div0.div_le_mono start finish pl ltac:(lia)); lia).
  assert (∃ m, m ≤ e - f ∧ (fetched.2 = true → m = e - f) ∧
    length (concat (prefix o ++ fetched.1)) = length (concat (map (piece_of info content) (range f m))) ∧
    (Exists (collides sha1 info content) fetched.1 ∨
     prefix o ++ fetched.1 = map (piece_of info content) (range f m))) as (m & Hm & Hfull & El & Hor).
  { unfold fetched. rewrite Ed, Epre. destruct (N.ltb_spec (f + k) e) as [Hlt|Hge].
    - destruct (fetch_spec sha1 info content HD peers policy evs (f + k) e Hlt He) as (Hj & Hok & Hv).
      set (l := (fetch _ _ _ _ _ _).1) in *.
      destruct (verified_pieces sha1 info content HD (f + k) l ltac:(lia) Hv) as [El Hor].
      exists (k + lenN l). rewrite range_app, map_app, !concat_app, !length_app, El.
      split_and!; [lia|intros H%Hok; lia|done|]. destruct Hor as [?| E]; [by left|right]. by rewrite <-E.
    - exists k. rewrite app_nil_r. split_and!; [done|intros _; lia|done|by right]. }
  destruct (Hserved m) as (Hw & Hle & Hpre & Heq); [lia|].
  unfold out. rewrite body_spec, Es, Ee. split_and!; [done| | |].
  - unfold lenN in *. rewrite length_take, length_drop, El. rewrite length_take, length_drop in Hle. lia.
  - intros ->%Hfull. pose proof (f_equal length (Heq eq_refl)) as Hl. rewrite length_take, length_drop in Hl.
    unfold lenN in Hw |- *. rewrite length_take, length_drop, El. fold wanted in Hw. fold wanted f in Hl. lia.
  - destruct Hor as [?|Eq]; [by left|right]. rewrite Eq. split; [done|]. intros ->%Hfull. by apply Heq.
Qed.

(** the cache stays the file's.  Teeing what any run of the downloader yields into a store that holds only
    chunks of the file leaves a store that holds only chunks of the file, unless the run has downloaded a second
    preimage of a piece. *)
Theorem vod_cache_faithful sha1 info content st peers policy start finish o evs now f e :
  Describes sha1 info content → Held info content st →
  open_range info st peers start finish = Ok o → download o = Some (f, e) →
  let fetched := (fetch sha1 info peers policy evs (download o)).1 in
  Exists (collides sha1 info content) fetched ∨ Held info content (tee_all info now st f fetched).
Proof.
  intros HD HH Ho Ed.
  destruct (open_range_spec sha1 info content HD st peers start finish o HH Ho) as (_ & _ & _ & He & k & _ & _ & Ed').
  rewrite Ed in Ed'. destruct (N.ltb_spec (start `div` vod_piece_length info + k) (finish `div` vod_piece_length info + 1)) as [Hlt|]; [|done].
  injection Ed' as -> ->. rewrite Ed.
  destruct (fetch_spec sha1 info content HD peers policy evs _ _ Hlt He) as (Hj & _ & Hv).
  set (l := (fetch _ _ _ _ _ _).1) in *.
  destruct (verified_pieces sha1 info content HD (start `div` vod_piece_length info + k) l ltac:(lia) Hv) as [_ [?|E]]; [by left|right].
  rewrite E. eapply tee_all_held; [done|done|]. lia.
Qed.

(** pieces over 16 KiB are never served from the cache.  The cache is read with the block request of the peer
    protocol, which refuses more than 16 KiB; so a range that starts in a larger piece downloads all its pieces,
    also when the store holds every one of them. *)
Theorem vod_cache_misses_large_pieces info st peers start finish o :
  open_range info st peers start finish = Ok o →
  MAX_BT_REQUEST_LEN < piece_size info (start `div` vod_piece_length info) < two32 →
  prefix o = [] ∧ download o = Some (start `div` vod_piece_length info, finish `div` vod_piece_length info + 1).
Proof.
  intros Ho [Hp Hp']. unfold open_range in Ho. destruct (_ || _) eqn:Eb; [done|].
  apply orb_false_iff in Eb as [[_ H1%N.ltb_ge]%orb_false_iff _].
  set (f := start `div` vod_piece_length info) in *. set (e := finish `div` vod_piece_length info + 1) in *.
  assert (f < e) as Hfe by (unfold f, e; pose proof (N.Div0.div_le_mono start finish (vod_piece_length info) H1); lia).
  assert (cached_prefix st info f e = ([], f)) as E.
  { unfold cached_prefix. replace (e - f) with (1 + (e - f - 1)) by lia. rewrite range_cons. cbn [cached_run].
    rewrite N.mod_small by done. unfold shared_block. rewrite (proj2 (N.ltb_lt MAX_BT_REQUEST_LEN _)) by done. rewrite orb_true_r.
    change (lenN (@nil bytes)) with 0. by rewrite N.add_0_r. }
  rewrite E, (proj2 (N.ltb_lt _ _)) in Ho by done. destruct (bool_decide (peers = [])); [done|]. by injection Ho as <-.
Qed.

Lemma segment_range_at l i : 0 < seg_bytes l → layout_total l + seg_bytes l < two64 → i < segment_count l →
  i * seg_bytes l < layout_total l ∧
  segment_range l i = Some (i * seg_bytes l, N.min ((i + 1) * seg_bytes l) (layout_total l) - 1).
Proof.
  intros Hs Ht Hi. unfold segment_range. rewrite (proj2 (N.leb_gt _ _)) by done.
  assert (i * seg_bytes l < layout_total l) as Hlt by by apply div_ceil_lt.
  split; [done|]. rewrite !u64_mul_small by lia. done.
Qed.

(** HLS segments tile the file.  The ranges of the segments of a layout, in order, are non-empty, within the file and
    cover it exactly: the segments a player fetches concatenate to the content.  A segment past the end is refused. *)
Theorem vod_segments_tile (content : bytes) (segment_packets : N) :
  let l := layout_new (lenN content) segment_packets in
  lenN content + seg_bytes l < two64 →
  concat (map (λ i, match segment_range l i with
    | Some (a, b) => slice content (N.to_nat a) (N.to_nat (b + 1))
    | None => [] end) (range 0 (segment_count l))) = content ∧
  ∀ i, match segment_range l i with
    | Some (a, b) => i < segment_count l ∧ a ≤ b < lenN content ∧ b < a + seg_bytes l
    | None => segment_count l ≤ i
    end.
Proof.
  intros l Ht. assert (0 < seg_bytes l) as Hs by (cbn; lia). split.
  - assert (∀ n, n ≤ segment_count l → concat (map (λ i, match segment_range l i with
      | Some (a, b) => slice content (N.to_nat a) (N.to_nat (b + 1)) | None => [] end) (range 0 n)) =
      take (N.to_nat (n * seg_bytes l)) content) as Hn.
    { intros n. induction n as [|n IH] using N.peano_ind; intros Hn; [done|].
      rewrite <-N.add_1_r, range_snoc, map_app, concat_app, IH by lia. cbn [map concat]. rewrite app_nil_r, N.add_0_l.
      destruct (segment_range_at l n Hs Ht ltac:(lia)) as [Hlt ->]. change (layout_total l) with (lenN content) in *.
      replace (N.min ((n + 1) * seg_bytes l) (lenN content) - 1 + 1) with (N.min ((n + 1) * seg_bytes l) (lenN content)) by lia.
      unfold slice. rewrite take_take_drop. unfold lenN in *.
      destruct (decide ((n + 1) * seg_bytes l ≤ N.of_nat (length content))); [f_equal; lia|]. rewrite !take_ge by lia. done. }
    rewrite Hn by lia. apply take_ge. pose proof (div_ceil_lt (lenN content) (seg_bytes l) (segment_count l) Hs) as Hc.
    change (div_ceil (lenN content) (seg_bytes l)) with (segment_count l) in Hc. unfold lenN in *. lia.
  - intros i. destruct (N.leb_spec (segment_count l) i) as [Hge|Hlt].
    + unfold segment_range. by rewrite (proj2 (N.leb_le _ _)) by done.
    + destruct (segment_range_at l i Hs Ht Hlt) as [Hi ->]. change (layout_total l) with (lenN content) in *. split_and!; lia.
Qed.

(** ** Headers *)

Definition visible (b : byte) : bool := in_range b 33 126.

Lemma whitespace_invisible w : w ∈ whitespace → ∃ c cs x xs, w = c :: cs ∧ visible c = false ∧ w = xs ++ [x] ∧ visible x = false.
Proof.
  intros Hw. assert (forallb (λ w, match w, last w with c :: _, Some x => negb (visible c) && negb (visible x) | _, _ => false end) whitespace
    = true) as H by (vm_compute; done).
  rewrite forallb_Forall, Forall_forall in H. specialize (H w Hw). destruct w as [|c cs]; [done|].
  destruct (last (c :: cs)) as [x|] eqn:El; [|done]. apply andb_true_iff in H as [H1%negb_true_iff H2%negb_true_iff].
  apply last_Some in El as (xs & El). by exists c, cs, x, xs.
Qed.

Lemma trim_visible l : forallb visible l = true → trim l = l.
Proof.
  intros Hl. rewrite forallb_Forall, Forall_forall in Hl.
  assert (find (starts_with l) whitespace = None) as E1.
  { destruct (find (starts_with l) whitespace) as [w|] eqn:E; [|done]. apply List.find_some in E as [Hw%list_elem_of_In Hs].
    apply whitespace_invisible in Hw as (c & cs & _ & _ & -> & Hc & _). apply starts_with_true in Hs as (r & ->).
    rewrite (Hl c) in Hc by by left. done. }
  assert (find (ends_with l) whitespace = None) as E2.
  { destruct (find (ends_with l) whitespace) as [w|] eqn:E; [|done]. apply List.find_some in E as [Hw%list_elem_of_In Hs].
    apply whitespace_invisible in Hw as (_ & _ & x & xs & _ & _ & -> & Hx). unfold ends_with in Hs.
    apply andb_true_iff in Hs as [_ Hs%bool_decide_eq_true]. rewrite (Hl x) in Hx; [done|].
    rewrite <-(take_drop (length l - length (xs ++ [x])) l), Hs, !elem_of_app. right. right. by left. }
  unfold trim. assert (trim_start (length l) l = l) as -> by (destruct (length l); cbn [trim_start]; [done|by rewrite E1]).
  destruct (length l); cbn [trim_end]; [done|by rewrite E2].
Qed.

Lemma dec_visible n : forallb visible (dec_N n) = true.
Proof.
  destruct (dec_N_correct n) as (_ & H & _). rewrite forallb_Forall in H |- *. eapply Forall_impl; [exact H|].
  intros b. unfold is_ascii_digit, visible, in_range. cbn beta. rewrite !andb_true_iff, !N.leb_le. lia.
Qed.

(** The specification of a single range, with the header's numbers. *)
Inductive RangeSpec : Type := From (a : N) | FromTo (a b : N) | Suffix (n : N).

Definition range_numbers (r : RangeSpec) : list N :=
  match r with From a => [a] | FromTo a b => [a; b] | Suffix n => [n] end.

Definition print_range (r : RangeSpec) : bytes :=
  bs "bytes=" ++ match r with
    | From a => dec_N a ++ bs "-"
    | FromTo a b => dec_N a ++ bs "-" ++ dec_N b
    | Suffix n => bs "-" ++ dec_N n
    end.

Definition range_meaning (r : RangeSpec) (total : N) : RangeOutcome :=
  match r with
  | From a => if a <? total then Satisfiable a (total - 1) else Unsatisfiable
  | FromTo a b => if (a <=? b) && (a <? total) then Satisfiable a (N.min b (total - 1)) else Unsatisfiable
  | Suffix n => if n =? 0 then Unsatisfiable else Satisfiable (total - n) (total - 1)
  end.

Lemma parse_spec_parts a b total : forallb visible (a ++ b) = true → "-"%byte ∉ a → ","%byte ∉ a → ","%byte ∉ b →
  parse_byte_range (Some (bs "bytes=" ++ a ++ bs "-" ++ b)) total =
  match bool_decide (a = []), bool_decide (b = []) with
  | true, false => match parse_u64 b with
      | Some n => if n =? 0 then Unsatisfiable else Satisfiable (saturating_sub total n) (total - 1) | None => Full end
  | false, true => match parse_u64 a with
      | Some start => if start <? total then Satisfiable start (total - 1) else Unsatisfiable | None => Full end
  | false, false => match parse_u64 a, parse_u64 b with
      | Some start, Some finish =>
          if (start <=? finish) && (start <? total) then Satisfiable start (N.min finish (total - 1)) else Unsatisfiable
      | _, _ => Full end
  | true, true => Full
  end.
Proof.
  intros Hv Ha Hca Hcb. unfold parse_byte_range, strip_prefix. cbn [mbind option_bind]. rewrite starts_with_app, drop_app_length.
  rewrite List.forallb_app, andb_true_iff in Hv. destruct Hv as [Va Vb].
  rewrite (trim_visible (a ++ bs "-" ++ b)) by (rewrite !List.forallb_app, Va, Vb; done).
  rewrite bool_decide_false by (rewrite !elem_of_app; intros [?|[H|?]]; [done| |done]; by apply list_elem_of_singleton in H).
  unfold split_once. change (bs "-" ++ b) with ("-"%byte :: b). rewrite position_app by done. cbn [mbind option_bind].
  rewrite take_app_length, (trim_visible a) by done. rewrite drop_app_ge by lia.
  replace (S (length a) - length a)%nat with 1%nat by lia. cbn [drop]. rewrite drop_0, (trim_visible b) by done. done.
Qed.

(** range headers mean what they say.  Any header yields a range within the content, or none; and the three forms
    of a single range, printed with any numbers, are answered with exactly the bytes they name, clipped to the
    content. *)
Theorem range_header_correct header total r :
  0 < total → Forall (λ n, n < two64) (range_numbers r) →
  match parse_byte_range header total with Satisfiable a b => a ≤ b < total | _ => True end ∧
  parse_byte_range (Some (print_range r)) total = range_meaning r total.
Proof.
  intros Ht Hn. split.
  - unfold parse_byte_range, saturating_sub. repeat case_match; simplify_eq; try done;
      repeat match goal with H : (_ && _) = true |- _ => apply andb_true_iff in H as [?%N.leb_le ?%N.ltb_lt] end; case_tests; lia.
  - assert (∀ n, "-"%byte ∉ dec_N n ∧ ","%byte ∉ dec_N n) as Hd by (intros n; split; by apply dec_N_no_delim).
    assert (∀ n, bool_decide (dec_N n = []) = false) as He by (intros n; apply bool_decide_eq_false, (dec_N_correct n)).
    unfold print_range, range_meaning. destruct r as [a|a b|n]; cbn [range_numbers] in Hn;
      repeat match goal with H : Forall _ (_ :: _) |- _ => apply Forall_cons in H as [? ?] end.
    + change (dec_N a ++ bs "-") with (dec_N a ++ bs "-" ++ []). rewrite parse_spec_parts; [|rewrite app_nil_r; apply dec_visible|apply Hd..|set_solver].
      rewrite He, parse_u64_dec by done. done.
    + rewrite parse_spec_parts; [|by rewrite List.forallb_app, !dec_visible|apply Hd..].
      rewrite !He, !parse_u64_dec by done. done.
    + change (bs "-" ++ dec_N n) with ([] ++ bs "-" ++ dec_N n). rewrite parse_spec_parts; [|apply dec_visible|set_solver|set_solver|apply Hd].
      rewrite He, parse_u64_dec by done. done.
Qed.

(** ** Runs *)

Definition ex_content : bytes := bs "abcdefghijklmnopqrst".
(** A toy digest, with second preimages. *)
Definition ex_digest (b : bytes) : bytes := u64_be (foldl (λ a x, 31 * a + Byte.to_N x) 0 b `mod` two64).
Definition ex_vod : VodInfo := mkVodInfo (Some Public) (bs "infohash") BitTorrent 8 4 [] (map ex_digest ex_pieces) 20.
Definition ex_cache : PieceStore := new 8 4 1000.

Lemma ex_describes : Describes ex_digest ex_vod ex_content.
Proof.
  constructor; try (vm_compute; done). intros p Hp. change (vod_piece_count ex_vod) with 3 in Hp. assert (p = 0 ∨ p = 1 ∨ p = 2) as [->|[->| ->]] by lia; done.
Qed.

Lemma ex_held : Held ex_vod ex_content ex_cache.
Proof.
  constructor; [|done|done|].
  - apply empty_inv; done.
  - intros p i d. unfold chunk, backend_get. cbn. by rewrite lookup_empty.
Qed.

Definition ex_range_run : list Event :=
  [Drive; Ready 0; Hear 0 Unchoke; Notified; Drive; Start 0; Hear 0 (Piece 0 0 (bs "abcdefgh")); Deliver 0; Drive; Drive; Take;
   Drive; Start 0; Hear 0 (Piece 1 0 (bs "ijklmnop")); Deliver 0; Drive; Drive; Take; Drive].

Definition ex_opened : Opened := mkOpened [] (Some (0, 2)) 3 10.

Lemma ex_open : open_range ex_vod ex_cache [ex_addr 1] 3 12 = Ok ex_opened.
Proof. vm_compute. done. Qed.

Definition ex_fetched : list bytes * bool := fetch ex_digest ex_vod [ex_addr 1] ex_policy ex_range_run (download ex_opened).

Example range_ex :
  body (source_of ex_opened ex_fetched.1) = [bs "defgh"; bs "ijklm"] ∧ ex_fetched.2 = true ∧
  body (source_of ex_opened (take 1 ex_fetched.1)) = [bs "defgh"] ∧
  (cached_prefix (tee_all ex_vod 0 ex_cache 0 ex_fetched.1) ex_vod 0 3) = ([bs "abcdefgh"; bs "ijklmnop"], 2).
Proof. vm_compute. done. Qed.

Lemma ex_no_collision : ¬ Exists (collides ex_digest ex_vod ex_content) ex_fetched.1.
Proof.
  change ex_fetched.1 with [bs "abcdefgh"; bs "ijklmnop"].
  intros [(p & Hp & Hne & _ & Hh)|[(p & Hp & Hne & _ & Hh)|[]%Exists_nil]%Exists_cons]%Exists_cons;
    change (vod_piece_count ex_vod) with 3 in Hp;
    (assert (p = 0 ∨ p = 1 ∨ p = 2) as [->|[->| ->]] by lia); vm_compute in Hh;
    try discriminate Hh; apply Hne; vm_compute; reflexivity.
Qed.

Lemma vod_range_served_witness : concat (body (source_of ex_opened ex_fetched.1)) = slice ex_content 3 13.
Proof.
  destruct (vod_range_served ex_digest ex_vod ex_content ex_cache [ex_addr 1] ex_policy 3 12 ex_opened ex_range_run
    ex_describes ex_held ex_open) as (_ & _ & _ & [H|[_ H]]); [by apply ex_no_collision in H|].
  apply H. vm_compute. done.
Defined.

(** A peer that sends a second preimage is believed: the other disjunct happens. *)
Example collision_served :
  let evs := [Drive; Ready 0; Hear 0 Unchoke; Notified; Drive; Start 0; Hear 0 (Piece 0 0 (bs "bCcdefgh")); Deliver 0; Drive; Drive; Take] in
  (fetch ex_digest ex_vod [ex_addr 1] ex_policy evs (download ex_opened)).1 = [bs "bCcdefgh"] ∧
  collides ex_digest ex_vod ex_content (bs "bCcdefgh").
Proof. split; [vm_compute; done|]. exists 0. split_and!; vm_compute; done. Qed.

Lemma vod_cache_faithful_witness : Held ex_vod ex_content (tee_all ex_vod 0 ex_cache 0 ex_fetched.1).
Proof.
  destruct (vod_cache_faithful ex_digest ex_vod ex_content ex_cache [ex_addr 1] ex_policy 3 12 ex_opened ex_range_run 0 0 2
    ex_describes ex_held ex_open eq_refl) as [H|H]; [by apply ex_no_collision in H|exact H].
Defined.

Definition ex_large : VodInfo := mkVodInfo None (bs "infohash") BitTorrent 131072 16384 [] (replicate 4 []) 500000.
Definition ex_large_cache : PieceStore := new 131072 16384 1000000.

Lemma vod_cache_misses_large_pieces_witness :
  (λ o, (prefix o, download o)) <$> to_option (open_range ex_large ex_large_cache [ex_addr 1] 140000 270000) = Some ([], Some (1, 3)).
Proof.
  assert (∃ o, open_range ex_large ex_large_cache [ex_addr 1] 140000 270000 = Ok o) as [o Ho] by (eexists; vm_compute; done).
  destruct (vod_cache_misses_large_pieces ex_large ex_large_cache [ex_addr 1] 140000 270000 o Ho) as [H1 H2]; [vm_compute; done|].
  rewrite Ho. cbn. rewrite H1, H2. done.
Defined.

Definition ex_film : bytes := replicate 1000 x07.

Lemma ex_film_small : lenN ex_film + seg_bytes (layout_new (lenN ex_film) 3) < two64.
Proof. vm_compute. done. Qed.

Lemma vod_segments_tile_witness : let l := layout_new (lenN ex_film) 3 in
  concat (map (λ i, match segment_range l i with
    | Some (a, b) => slice ex_film (N.to_nat a) (N.to_nat (b + 1)) | None => [] end) (range 0 (segment_count l))) = ex_film.
Proof. exact (proj1 (vod_segments_tile ex_film 3 ex_film_small)). Defined.

Lemma range_header_correct_witness :
  parse_byte_range (Some (bs "bytes=5-")) 20 = Satisfiable 5 19 ∧ parse_byte_range (Some (bs "bytes=-5")) 20 = Satisfiable 15 19 ∧
  parse_byte_range (Some (bs "bytes=5-400")) 20 = Satisfiable 5 19.
Proof.
  split_and!.
  - apply (range_header_correct None 20 (From 5)); [lia|]. repeat constructor.
  - apply (range_header_correct None 20 (Suffix 5)); [lia|]. repeat constructor.
  - apply (range_header_correct None 20 (FromTo 5 400)); [lia|]. repeat constructor.
Defined.
