(* ===== verification/PeerSession.v ===== *)
(** * Peer sessions

    [ace-peer/src/session.rs]: the handshakes of both sides, framed messages over a byte stream,
    and the metadata download.  What a socket delivers is a list of [Read]s: bytes that arrive
    together, a pause longer than the 20 ms grace, the end of the stream, and the expiry of the
    session's timeout.  An operation maps a session to its result and the session after it; it is
    [None] while it still waits for input.  Writes always succeed and are recorded in order. *)

From S2P Require Import Prelude Order Bytes Wire Bencode UtMetadata Message Handshake.

Local Open Scope N_scope.

Inductive PeerError : Type :=
  | WireErr (e : WireError)
  | InfohashMismatch
  | Closed
  | TimeoutErr
  | Protocol (msg : string)
  | Io.

Inductive Read : Type := Chunk (b : bytes) | Pause | Eof | Expired.

Record PeerSession : Type := mkSession {
  incoming : list Read;
  buf : bytes;
  written : list bytes;
  protocol : HandshakeProtocol;
}.

Definition session_new (l : list Read) : PeerSession := mkSession l [] [] AceStream.
Definition with_protocol (p : HandshakeProtocol) (s : PeerSession) : PeerSession := mkSession (incoming s) (buf s) (written s) p.

(** ** Operations *)

Definition Op (A : Type) : Type := PeerSession → option (result PeerError A * PeerSession).

#[export] Instance op_ret : MRet Op := λ A a s, Some (Ok a, s).
#[export] Instance op_bind : MBind Op := λ A B f m s,
  match m s with
  | Some (Ok a, s) => f a s
  | Some (Err e, s) => Some (Err e, s)
  | None => None
  end.

Definition throw {A} (e : PeerError) : Op A := λ s, Some (Err e, s).
Definition lift {A} (r : Result A) : Op A := λ s, Some (match r with Ok a => Ok a | Err e => Err (WireErr e) end, s).
Definition write (b : bytes) : Op () := λ s, Some (Ok (), mkSession (incoming s) (buf s) (written s ++ [b]) (protocol s)).
Definition set_incoming (l : list Read) (s : PeerSession) : PeerSession := mkSession l (buf s) (written s) (protocol s).

(** [AsyncReadExt::read_exact] under the session's timeout. *)
Fixpoint exact_from (n : nat) (l : list Read) : option (result PeerError bytes * list Read) :=
  match n, l with
  | O, _ => Some (Ok [], l)
  | _, [] => None
  | _, Pause :: l => exact_from n l
  | _, Eof :: _ => Some (Err Io, l)
  | _, Expired :: l => Some (Err TimeoutErr, l)
  | _, Chunk b :: l =>
      if bool_decide (length b ≤ n)%nat then
        '(r, l) ← exact_from (n - length b) l;
        Some (match r with Ok rest => Ok (b ++ rest) | Err e => Err e end, l)
      else Some (Ok (take n b), Chunk (drop n b) :: l)
  end.

Definition read_exact (n : nat) : Op bytes := λ s,
  '(r, l) ← exact_from n (incoming s); Some (r, set_incoming l s).

(** [stream.read] of at most [n] bytes within the grace: [None] when the grace expires. *)
Fixpoint grace_from (n : nat) (l : list Read) : option (option bytes * list Read) :=
  match l with
  | [] => None
  | Chunk [] :: l => grace_from n l
  | Chunk b :: l => Some (Some (take n b), if bool_decide (length b ≤ n)%nat then l else Chunk (drop n b) :: l)
  | Eof :: _ => Some (Some [], l)
  | Pause :: l | Expired :: l => Some (None, l)
  end.

Definition read_grace (n : nat) : Op (option bytes) := λ s,
  '(r, l) ← grace_from n (incoming s); Some (Ok r, set_incoming l s).

Definition keep (b : bytes) : Op () := λ s, Some (Ok (), mkSession (incoming s) (buf s ++ b) (written s) (protocol s)).

(** ** Handshakes *)

Definition check_infohash (infohash : bytes) (peer : Handshake) : Op Handshake :=
  if bool_decide (Handshake.infohash peer = infohash) then mret peer else throw InfohashMismatch.

Definition perform_bittorrent_handshake (infohash peer_id : bytes) : Op Handshake :=
  _ ← write (encode_with_protocol (new infohash peer_id) BitTorrent);
  hs ← read_exact BITTORRENT_HANDSHAKE_LEN;
  peer ← lift (decode_with_protocol hs BitTorrent);
  check_infohash infohash peer.

Definition perform_handshake (infohash peer_id : bytes) : Op Handshake := λ s,
  if bool_decide (protocol s = BitTorrent) then perform_bittorrent_handshake infohash peer_id s
  else
    (_ ← write (Handshake.encode (new infohash peer_id));
     hs ← read_exact HANDSHAKE_LEN;
     peer ← lift (Handshake.decode hs);
     check_infohash infohash peer) s.

Definition PEER_ID_PREFIX : bytes := bs "R30------".

Definition looks_like_acestream_peer_id_prefix (b : bytes) : bool :=
  bool_decide (length b ≤ length PEER_ID_PREFIX)%nat && starts_with PEER_ID_PREFIX b ||
  bool_decide (length PEER_ID_PREFIX < length b)%nat && starts_with b PEER_ID_PREFIX.

(** The rest of a peer id whose first bytes have been read. *)
Definition finish_peer_id (b : bytes) : Op (option bytes) :=
  if bool_decide (length b < 20)%nat then rest ← read_exact (20 - length b); mret (Some (b ++ rest)) else mret (Some b).

Definition read_optional_inbound_peer_id : Op (option bytes) :=
  r ← read_grace 20;
  match r with
  | None | Some [] => mret None
  | Some b => finish_peer_id b
  end.

Definition read_optional_deferred_peer_id : Op (option bytes) :=
  r ← read_grace 20;
  match r with
  | None | Some [] => mret None
  | Some b =>
      if looks_like_acestream_peer_id_prefix b then finish_peer_id b
      else _ ← keep b; mret None
  end.

Definition set_peer_id (id : bytes) (h : Handshake) : Handshake := mkHandshake (reserved h) (Handshake.infohash h) id.

Definition accept_handshake (our_peer_id : bytes) (serves : bytes → bool) : Op Handshake := λ s,
  if bool_decide (protocol s = BitTorrent) then
    (hs ← read_exact BITTORRENT_HANDSHAKE_LEN;
     peer ← lift (decode_with_protocol hs BitTorrent);
     if negb (serves (Handshake.infohash peer)) then throw InfohashMismatch
     else _ ← write (encode_with_protocol (new (Handshake.infohash peer) our_peer_id) BitTorrent); mret peer) s
  else
    (prefix ← read_exact HANDSHAKE_PREFIX_LEN;
     peer ← lift (decode_prefix prefix);
     if negb (serves (Handshake.infohash peer)) then throw InfohashMismatch
     else
       seen ← read_optional_inbound_peer_id;
       _ ← write (Handshake.encode (new (Handshake.infohash peer) our_peer_id));
       match seen with
       | Some id => mret (set_peer_id id peer)
       | None =>
           late ← read_optional_deferred_peer_id;
           mret (match late with Some id => set_peer_id id peer | None => peer end)
       end) s.

(** ** Messages *)

Definition send (m : PeerMessage) : Op () := write (Message.encode m).

(** [read_message]: one read per turn until a frame is complete. *)
Fixpoint message_from (b : bytes) (l : list Read) : option (result PeerError PeerMessage * bytes * list Read) :=
  match Message.decode b with
  | Err e => Some (Err (WireErr e), b, l)
  | Ok (Some (m, n)) => Some (Ok m, drop n b, l)
  | Ok None =>
      match l with
      | [] => None
      | Chunk c :: l => message_from (b ++ c) l
      | Pause :: l => message_from b l
      | Eof :: _ => Some (Err Closed, b, l)
      | Expired :: l => Some (Err TimeoutErr, b, l)
      end
  end.

Definition read_message : Op PeerMessage := λ s,
  '(r, b, l) ← message_from (buf s) (incoming s); Some (r, mkSession l b (written s) (protocol s)).

(** ** Metadata *)

Record Fetch : Type := mkFetch { blob : bytes; have : list bool; left : N }.

(** The effect of a data block; [list_inserts] is [blob[off..end].copy_from_slice(&data[..end - off])]. *)
Definition take_block (metadata_size pieces : N) (f : Fetch) (piece : Z) (data : bytes) : Fetch :=
  if (piece <? 0)%Z || (pieces <=? Z.to_N piece) then f
  else
    let idx := Z.to_N piece in
    let off := idx * METADATA_BLOCK_LEN in
    let stop := N.min (off + lenN data) metadata_size in
    let b := if off <? stop then list_inserts (N.to_nat off) (take (N.to_nat (stop - off)) data) (blob f) else blob f in
    if default true (have f !! N.to_nat idx) then mkFetch b (have f) (left f)
    else mkFetch b (<[N.to_nat idx := true]> (have f)) (left f - 1).

(** The effect of one message: the new state, or a refusal. *)
Definition fetch_message (metadata_size pieces : N) (f : Fetch) (m : PeerMessage) : result PeerError Fetch :=
  match m with
  | Extended ext_id payload =>
      if byte_N ext_id =? 0 then Ok f
      else match UtMetadata.parse payload with
        | Some (Data piece _ data) => Ok (take_block metadata_size pieces f piece data)
        | Some (Reject _) => Err (Protocol "metadata request rejected")
        | _ => Ok f
        end
  | _ => Ok f
  end.

(** The receiving loop; every turn reads a message, so the input bounds the turns. *)
Fixpoint fetch_loop (fuel : nat) (metadata_size pieces : N) (f : Fetch) : Op bytes :=
  if left f =? 0 then mret (blob f)
  else match fuel with
    | O => λ _, None
    | S fuel =>
        m ← read_message;
        match fetch_message metadata_size pieces f m with
        | Ok f => fetch_loop fuel metadata_size pieces f
        | Err e => throw e
        end
    end.

Fixpoint send_requests (ext_id : byte) (l : list N) : Op () :=
  match l with
  | [] => mret ()
  | i :: l => _ ← send (Extended ext_id (request_piece (Z.of_N i))); send_requests ext_id l
  end.

Definition fetch_metadata (fuel : nat) (peer_ut_metadata_id : byte) (metadata_size : N) : Op bytes :=
  let pieces := piece_count metadata_size in
  if pieces =? 0 then mret []
  else
    _ ← send_requests peer_ut_metadata_id (range 0 pieces);
    fetch_loop fuel metadata_size pieces
      (mkFetch (replicate (N.to_nat metadata_size) x00) (replicate (N.to_nat pieces) false) pieces).

(** ** What a socket has left to deliver *)

(** The bytes that arrive before the stream ends or the timeout expires, and which of the two
    comes first. *)
Fixpoint stream (l : list Read) : bytes :=
  match l with
  | Chunk b :: l => b ++ stream l
  | Pause :: l => stream l
  | _ => []
  end.

Fixpoint ending (l : list Read) : option PeerError :=
  match l with
  | [] => None
  | Chunk _ :: l | Pause :: l => ending l
  | Eof :: _ => Some Closed
  | Expired :: _ => Some TimeoutErr
  end.

(** The pauses among the reads. *)
Fixpoint pauses (l : list Read) : nat :=
  match l with
  | [] => 0
  | Pause :: l => S (pauses l)
  | _ :: l => pauses l
  end.

Definition pending (s : PeerSession) : bytes := buf s ++ stream (incoming s).

Fixpoint read_messages (n : nat) : Op (list PeerMessage) :=
  match n with
  | O => mret []
  | S n => m ← read_message; ms ← read_messages n; mret (m :: ms)
  end.

Definition frames (ms : list PeerMessage) : bytes := concat (Message.encode <$> ms).

(** ** Lemmas *)

Lemma op_bind_ok {A B} (m : Op A) (f : A → Op B) s a s' : m s = Some (Ok a, s') → (m ≫= f) s = f a s'.
Proof. intros E. unfold mbind, op_bind. by rewrite E. Qed.

Lemma op_bind_inv {A B} (m : Op A) (f : A → Op B) s r s' : (m ≫= f) s = Some (r, s') →
  (∃ e, m s = Some (Err e, s') ∧ r = Err e) ∨ ∃ a s1, m s = Some (Ok a, s1) ∧ f a s1 = Some (r, s').
Proof.
  unfold mbind, op_bind. destruct (m s) as [[[a|e] s1]|]; [|intros [= <- <-]|done]; [right|left]; eauto.
Qed.

(** What the buffer decodes to while the stream continues with a whole frame. *)
Lemma decode_prefix_of_frame m b rest t : canonical m = true → b ++ t = Message.encode m ++ rest →
  Message.decode b = Ok None ∧ (length b < length (Message.encode m))%nat ∨
  ∃ r, b = Message.encode m ++ r ∧ r ++ t = rest ∧ Message.decode b = Ok (Some (m, length (Message.encode m))).
Proof.
  intros Hc E. destruct (decide (length b < length (Message.encode m))%nat) as [Hl|Hl].
  - left. split; [|done].
    assert (b = take (length b) (Message.encode m)) as Hb.
    { rewrite <-(take_app_length b t) at 1. rewrite E, take_app_le by lia. done. }
    rewrite Hb. by apply decode_partial.
  - right. exists (drop (length (Message.encode m)) b).
    assert (b = Message.encode m ++ drop (length (Message.encode m)) b) as Hb.
    { rewrite <-(take_drop (length (Message.encode m)) b) at 1. f_equal.
      rewrite <-(take_app_le _ t) by lia. by rewrite E, take_app_length. }
    split; [done|]. split.
    + apply (app_inv_head (Message.encode m)). by rewrite app_assoc, <-Hb.
    + rewrite Hb at 1. by apply decode_encoded.
Qed.

Lemma message_from_frame m l : canonical m = true → ∀ b rest, b ++ stream l = Message.encode m ++ rest →
  ∃ b' l', message_from b l = Some (Ok m, b', l') ∧ b' ++ stream l' = rest ∧ ending l' = ending l.
Proof.
  intros Hc. induction l as [|r l IH]; intros b rest E;
    (destruct (decode_prefix_of_frame _ _ _ _ Hc E) as [[Hd Hl]|(q & -> & Hq & Hd)];
      [|eexists _, _; cbn [message_from]; rewrite Hd, drop_app_length; by split_and!]); cbn [message_from]; rewrite Hd.
  - apply (f_equal length) in E. rewrite !length_app in E; cbn [stream length] in E; lia.
  - destruct r as [c| | |]; cbn [stream ending] in *.
    + apply (IH (b ++ c)). by rewrite <-app_assoc.
    + by apply IH.
    + apply (f_equal length) in E. rewrite !length_app in E; cbn [stream length] in E; lia.
    + apply (f_equal length) in E. rewrite !length_app in E; cbn [stream length] in E; lia.
Qed.

Lemma cut_of_prefix (b t l : bytes) k : b ++ t = take k l → b = take (length b) l ∧ (length b ≤ k)%nat.
Proof.
  intros E. pose proof (f_equal length E) as Hl. rewrite length_app, length_take in Hl. split; [|lia].
  rewrite <-(take_app_length b t) at 1. by rewrite E, take_take, Nat.min_l by lia.
Qed.

Lemma message_from_partial m l : canonical m = true → ∀ b k, (k < length (Message.encode m))%nat →
  b ++ stream l = take k (Message.encode m) →
  match ending l with
  | None => message_from b l = None
  | Some e => ∃ b' l', message_from b l = Some (Err e, b', l')
  end.
Proof.
  intros Hc. induction l as [|r l IH]; intros b k Hk E;
    (assert (Message.decode b = Ok None) as Hd;
      [destruct (cut_of_prefix _ _ _ _ E) as [Hb Hl]; rewrite Hb; apply decode_partial; [done|lia]|]);
    cbn [message_from]; rewrite Hd; [done|].
  destruct r as [c| | |]; cbn [stream ending] in *; [|by eapply IH|by eexists _, _..].
  apply (IH (b ++ c) k Hk). by rewrite <-app_assoc.
Qed.

Lemma read_message_frame m s rest : canonical m = true → pending s = Message.encode m ++ rest →
  ∃ s', read_message s = Some (Ok m, s') ∧ pending s' = rest ∧ ending (incoming s') = ending (incoming s) ∧
    written s' = written s ∧ protocol s' = protocol s.
Proof.
  intros Hc E. destruct (message_from_frame m (incoming s) Hc _ _ E) as (b & l & Hm & Hp & He).
  eexists. unfold read_message. rewrite Hm. by split_and!.
Qed.

Lemma read_messages_frames ms s rest : forallb canonical ms = true → pending s = frames ms ++ rest →
  ∃ s', read_messages (length ms) s = Some (Ok ms, s') ∧ pending s' = rest ∧ ending (incoming s') = ending (incoming s) ∧
    written s' = written s.
Proof.
  revert s. induction ms as [|m ms IH]; intros s Hc E; [by exists s|].
  cbn [forallb] in Hc. apply andb_true_iff in Hc as [Hm Hms].
  unfold frames in E. cbn [fmap list_fmap concat] in E. rewrite <-app_assoc in E.
  destruct (read_message_frame m s _ Hm E) as (s1 & H1 & H2 & H3 & H4 & _).
  destruct (IH s1 Hms H2) as (s2 & H5 & H6 & H7 & H8).
  exists s2. cbn [length read_messages]. rewrite (op_bind_ok _ _ _ _ _ H1), (op_bind_ok _ _ _ _ _ H5).
  split_and!; [done|done|by rewrite H7|by rewrite H8].
Qed.

(** *** Reading a fixed number of bytes *)

Lemma exact_from_spec n l x rest : length x = n → stream l = x ++ rest →
  ∃ l', exact_from n l = Some (Ok x, l') ∧ stream l' = rest ∧ ending l' = ending l ∧
    (pauses l' ≤ pauses l)%nat.
Proof.
  revert n x. induction l as [|r l IH]; intros n x Hn E.
  { destruct n; [|by destruct x]. destruct x; [|done]. by eexists. }
  destruct n as [|n]. { destruct x; [|done]. by eexists. }
  destruct r as [c| | |]; cbn [exact_from stream ending pauses] in *; [| |by destruct x..].
  - case_bool_decide as Hc.
    + assert (x = c ++ drop (length c) x) as Hx.
      { rewrite <-(take_drop (length c) x) at 1. f_equal.
        rewrite <-(take_app_le x rest) by lia. by rewrite <-E, take_app_length. }
      rewrite Hx, <-app_assoc in E. apply app_inv_head in E.
      destruct (IH (S n - length c)%nat (drop (length c) x)) as (l' & -> & ?); [rewrite length_drop; lia|done|].
      exists l'. cbn. by rewrite <-Hx.
    + exists (Chunk (drop (S n) c) :: l). split; [|split; [|done]].
      * assert (take (S n) c = x) as ->; [|done]. rewrite <-(take_app_le c (stream l)) by lia. rewrite E, <-Hn. apply take_app_length.
      * cbn [stream]. rewrite <-drop_app_le, E, <-Hn by lia. apply drop_app_length.
  - destruct (IH _ _ Hn E) as (l' & -> & H1 & H2 & H3). eexists. split_and!; [done..|lia].
Qed.

Lemma exact_from_chunk b l : (0 < length b)%nat → exact_from (length b) (Chunk b :: l) = Some (Ok b, l).
Proof.
  intros Hb. destruct b as [|a b]; [cbn in Hb; lia|]. cbn [length exact_from]. rewrite bool_decide_true by done.
  rewrite Nat.sub_diag. destruct l; cbn; by rewrite app_nil_r.
Qed.

(** A grace read answers a pause, or the first bytes that arrive, at most as many as asked for. *)
Lemma grace_from_spec n l x rest : (0 < n)%nat → (0 < length x)%nat → stream l = x ++ rest → (n ≤ length x)%nat →
  ∃ r l', grace_from n l = Some (r, l') ∧ ending l' = ending l ∧
    match r with
    | None => stream l' = x ++ rest ∧ (pauses l' < pauses l)%nat
    | Some b => ∃ y, x = b ++ y ∧ (0 < length b ≤ n)%nat ∧ stream l' = y ++ rest ∧ (pauses l' ≤ pauses l)%nat
    end.
Proof.
  intros Hn Hx. induction l as [|r l IH]; intros E Hl; [destruct x; cbn in *; (done || lia)|].
  destruct r as [c| | |]; cbn [stream] in E; [|by exists None, l; cbn; auto with lia|destruct x; cbn in *; (done || lia)..].
  destruct c as [|a c]; [by apply IH|]. cbn [grace_from ending pauses]. set (b := a :: c) in *.
  assert (x ++ rest = take n b ++ drop n b ++ stream l) as E' by (by rewrite app_assoc, take_drop).
  exists (Some (take n b)), (if bool_decide (length b ≤ n)%nat then l else Chunk (drop n b) :: l). split; [done|].
  split; [by case_bool_decide|]. exists (drop (length (take n b)) x).
  assert (take n b = take (length (take n b)) x) as Ht.
  { rewrite <-(take_app_le x rest), E', take_app_length; [done|]. rewrite length_take. lia. }
  split_and!.
  - by rewrite Ht at 1; rewrite take_drop.
  - rewrite length_take. unfold b. cbn [length]. lia.
  - rewrite length_take. lia.
  - rewrite <-drop_app_le, E', drop_app_length by (rewrite length_take; lia).
    case_bool_decide as Hb; [by rewrite drop_ge|done].
  - by case_bool_decide.
Qed.

Lemma read_exact_spec n s x rest : length x = n → stream (incoming s) = x ++ rest →
  ∃ l', read_exact n s = Some (Ok x, set_incoming l' s) ∧ stream l' = rest ∧ ending l' = ending (incoming s) ∧
    (pauses l' ≤ pauses (incoming s))%nat.
Proof.
  intros Hn E. destruct (exact_from_spec n (incoming s) x rest Hn E) as (l' & H & ?). exists l'.
  unfold read_exact. by rewrite H.
Qed.

Lemma finish_peer_id_spec b y s rest : length (b ++ y) = 20%nat → stream (incoming s) = y ++ rest →
  ∃ l', finish_peer_id b s = Some (Ok (Some (b ++ y)), set_incoming l' s) ∧ stream l' = rest ∧
    ending l' = ending (incoming s) ∧ (pauses l' ≤ pauses (incoming s))%nat.
Proof.
  intros Hl E. rewrite length_app in Hl. unfold finish_peer_id. case_bool_decide as Hb.
  - destruct (read_exact_spec (20 - length b) s y rest ltac:(lia) E) as (l' & H & ?). exists l'.
    by rewrite (op_bind_ok _ _ _ _ _ H).
  - destruct y; [|cbn [length] in Hl; lia]. rewrite app_nil_r. exists (incoming s). by destruct s.
Qed.

(** The first bytes of a peer id with the AceStream prefix are recognised as such. *)
Lemma looks_like_id b y : (0 < length b)%nat → starts_with (b ++ y) PEER_ID_PREFIX = true →
  looks_like_acestream_peer_id_prefix b = true.
Proof.
  intros Hb [r E]%starts_with_true. unfold looks_like_acestream_peer_id_prefix. apply orb_true_iff.
  destruct (decide (length b ≤ length PEER_ID_PREFIX)%nat) as [Hl|Hl].
  - left. rewrite bool_decide_true by done. apply starts_with_true.
    exists (drop (length b) PEER_ID_PREFIX). rewrite <-(take_drop (length b) PEER_ID_PREFIX) at 1. f_equal.
    rewrite <-(take_app_le _ r), <-E by done. apply take_app_length.
  - right. rewrite bool_decide_true by lia. apply starts_with_true.
    exists (drop (length PEER_ID_PREFIX) b). rewrite <-(take_drop (length PEER_ID_PREFIX) b) at 1. f_equal.
    rewrite <-(take_app_le b y), E by lia. apply take_app_length.
Qed.

(** *** Handshakes *)

Definition protocol_len (p : HandshakeProtocol) : nat :=
  match p with AceStream => HANDSHAKE_LEN | BitTorrent => BITTORRENT_HANDSHAKE_LEN end.

Lemma encode_protocol_length h p : sized h → length (encode_with_protocol h p) = protocol_len p.
Proof.
  intros (Hr & Hi & Hp). destruct p; unfold encode_with_protocol, Handshake.encode; cbn [length protocol_len];
    [rewrite decide_True by done|rewrite decide_False by done]; cbn [length];
    rewrite !length_app, Hr, Hi, Hp; done.
Qed.

Lemma sized_new ih id : length ih = 20%nat → length id = 20%nat → sized (new ih id).
Proof. intros ? ?. by split_and!. Qed.

Lemma perform_handshake_spec ih pd pa s rest : length ih = 20%nat → length pa = 20%nat →
  stream (incoming s) = encode_with_protocol (new ih pa) (protocol s) ++ rest →
  ∃ l', perform_handshake ih pd s =
      Some (Ok (new ih pa), mkSession l' (buf s) (written s ++ [encode_with_protocol (new ih pd) (protocol s)]) (protocol s)) ∧
    stream l' = rest ∧ ending l' = ending (incoming s).
Proof.
  intros Hi Hp E. pose proof (sized_new ih pa Hi Hp) as Hs.
  destruct s as [l b w p]. cbn [incoming buf written protocol] in *.
  pose proof (encode_protocol_length _ p Hs) as Hlen. pose proof (decode_protocol_encoded _ p [] Hs) as Hd. rewrite app_nil_r in Hd.
  unfold perform_handshake. cbn [protocol].
  destruct (read_exact_spec (protocol_len p) (mkSession l b (w ++ [encode_with_protocol (new ih pd) p]) p) _ rest Hlen E)
    as (l' & Hr & Hrest & He & _).
  exists l'. split; [|done]. destruct p; [rewrite bool_decide_false by done|rewrite bool_decide_true by done; unfold perform_bittorrent_handshake];
    rewrite (op_bind_ok _ _ _ _ _ eq_refl).
  - rewrite (op_bind_ok _ _ _ _ _ Hr). unfold decode_with_protocol in Hd. rewrite decide_True in Hd by done.
    unfold lift, mbind, op_bind. rewrite Hd. unfold check_infohash. by rewrite bool_decide_true.
  - rewrite (op_bind_ok _ _ _ _ _ Hr). unfold lift, mbind, op_bind. rewrite Hd.
    unfold check_infohash. by rewrite bool_decide_true.
Qed.

(** The AceStream handshake is its prefix followed by the peer id. *)
Lemma ace_handshake_parts h : sized h → ∃ pre, Handshake.encode h = pre ++ peer_id h ∧ length pre = HANDSHAKE_PREFIX_LEN ∧
  decode_prefix pre = Ok (mkHandshake (reserved h) (Handshake.infohash h) (replicate 20 x00)).
Proof.
  intros (Hr & Hi & Hp). exists (N_byte (lenN PSTR) :: PSTR ++ reserved h ++ Handshake.infohash h ++ []).
  split_and!.
  - unfold Handshake.encode. by rewrite app_nil_r; cbn [app]; rewrite <-!app_assoc.
  - cbn [length]. by rewrite !length_app, Hr, Hi.
  - by apply decode_prefix_encoded.
Qed.

Lemma optional_peer_id_spec (optional : Op (option bytes)) id s rest :
  optional = read_optional_inbound_peer_id ∨
    optional = read_optional_deferred_peer_id ∧ starts_with id PEER_ID_PREFIX = true →
  length id = 20%nat → stream (incoming s) = id ++ rest →
  ∃ r l', optional s = Some (Ok r, set_incoming l' s) ∧ ending l' = ending (incoming s) ∧
    match r with
    | None => stream l' = id ++ rest ∧ (pauses l' < pauses (incoming s))%nat
    | Some x => x = id ∧ stream l' = rest
    end.
Proof.
  intros Ho Hid E. destruct (grace_from_spec 20 (incoming s) id rest ltac:(lia) ltac:(lia) E ltac:(lia)) as (r & l & Hg & He & Hr).
  assert (read_grace 20 s = Some (Ok r, set_incoming l s)) as Hrg by (unfold read_grace; by rewrite Hg).
  destruct r as [b|].
  - destruct Hr as (y & -> & Hb & Hy & _).
    destruct (finish_peer_id_spec b y (set_incoming l s) rest Hid Hy) as (l' & Hf & H1 & H2 & _).
    exists (Some (b ++ y)), l'. split_and!; [|by rewrite H2|done|done].
    destruct Ho as [->|[-> Hpre]]; [unfold read_optional_inbound_peer_id|unfold read_optional_deferred_peer_id];
      rewrite (op_bind_ok _ _ _ _ _ Hrg); (destruct b as [|a b]; [cbn in Hb; lia|]); [by rewrite Hf|].
    rewrite (looks_like_id _ y) by (done || lia). by rewrite Hf.
  - exists None, l. split_and!; [|done|apply Hr..].
    destruct Ho as [->|[-> _]]; [unfold read_optional_inbound_peer_id|unfold read_optional_deferred_peer_id];
      by rewrite (op_bind_ok _ _ _ _ _ Hrg).
Qed.

Lemma accept_handshake_spec ih pd pa serves s rest : length ih = 20%nat → length pd = 20%nat →
  (protocol s = AceStream → starts_with pd PEER_ID_PREFIX = true ∧ (pauses (incoming s) ≤ 1)%nat) → serves ih = true →
  stream (incoming s) = encode_with_protocol (new ih pd) (protocol s) ++ rest →
  ∃ l', accept_handshake pa serves s =
      Some (Ok (new ih pd), mkSession l' (buf s) (written s ++ [encode_with_protocol (new ih pa) (protocol s)]) (protocol s)) ∧
    stream l' = rest ∧ ending l' = ending (incoming s).
Proof.
  intros Hi Hp Hace Hserves E. pose proof (sized_new ih pd Hi Hp) as Hs.
  destruct s as [l b w p]. cbn [incoming buf written protocol] in *. unfold accept_handshake. cbn [protocol].
  destruct p; [rewrite bool_decide_false by done|rewrite bool_decide_true by done].
  - destruct (Hace eq_refl) as [Hpre Hpause]. destruct (ace_handshake_parts _ Hs) as (pre & Hh & Hl & Hd).
    change (encode_with_protocol (new ih pd) AceStream) with (Handshake.encode (new ih pd)) in E. rewrite Hh, <-app_assoc in E.
    destruct (read_exact_spec _ (mkSession l b w AceStream) pre _ Hl E) as (l1 & H1 & Hr1 & He1 & Hp1). cbn [incoming set_incoming] in *.
    rewrite (op_bind_ok _ _ _ _ _ H1). unfold lift at 1. rewrite Hd. rewrite (op_bind_ok _ _ _ _ _ eq_refl).
    cbn [Handshake.infohash new]. rewrite Hserves. cbn [negb].
    destruct (optional_peer_id_spec read_optional_inbound_peer_id pd (set_incoming l1 (mkSession l b w AceStream)) rest
      ltac:(by left) Hp Hr1) as (r & l2 & H2 & He2 & Hr2). cbn [incoming set_incoming] in *.
    rewrite (op_bind_ok _ _ _ _ _ H2), (op_bind_ok _ _ _ _ _ eq_refl). destruct r as [x|].
    { destruct Hr2 as [-> Hr2]. exists l2. split_and!; [done|done|congruence]. }
    destruct Hr2 as [Hr2 Hp2]. cbn [written buf protocol set_incoming].
    destruct (optional_peer_id_spec read_optional_deferred_peer_id pd
      (mkSession l2 b (w ++ [Handshake.encode (new ih pa)]) AceStream) rest ltac:(by right) Hp Hr2) as (r & l3 & H3 & He3 & Hr3).
    cbn [incoming set_incoming] in *. rewrite (op_bind_ok _ _ _ _ _ H3). exists l3.
    destruct r as [x|]; [|lia]. destruct Hr3 as [-> Hr3]. split_and!; [done|done|congruence].
  - pose proof (encode_protocol_length _ BitTorrent Hs) as Hlen. pose proof (decode_protocol_encoded _ BitTorrent [] Hs) as Hd. rewrite app_nil_r in Hd.
    destruct (read_exact_spec _ (mkSession l b w BitTorrent) _ rest Hlen E) as (l1 & H1 & Hr1 & He1 & _).
    rewrite (op_bind_ok _ _ _ _ _ H1). unfold lift at 1. rewrite Hd. rewrite (op_bind_ok _ _ _ _ _ eq_refl).
    cbn [Handshake.infohash new]. rewrite Hserves. by exists l1.
Qed.

(** *** What the acceptor reveals *)

Lemma read_exact_quiet n s r s' : read_exact n s = Some (r, s') → written s' = written s ∧ protocol s' = protocol s.
Proof. unfold read_exact. destruct (exact_from _ _) as [[? ?]|]; [|done]. by intros [= <- <-]. Qed.

Lemma lift_quiet {A} (r : Result A) s x s' : lift r s = Some (x, s') → s' = s.
Proof. unfold lift. by intros [= <- <-]. Qed.

Lemma finish_peer_id_quiet b s r s' : finish_peer_id b s = Some (r, s') → written s' = written s ∧ protocol s' = protocol s.
Proof.
  unfold finish_peer_id. case_bool_decide; [|by intros [= <- <-]].
  intros [(e & E & ->)|(a & s1 & E & [= <- <-])]%op_bind_inv; by apply read_exact_quiet in E.
Qed.

Lemma optional_peer_id_quiet (optional : Op (option bytes)) s r s' :
  optional = read_optional_inbound_peer_id ∨ optional = read_optional_deferred_peer_id →
  optional s = Some (r, s') → written s' = written s ∧ protocol s' = protocol s.
Proof.
  assert (∀ n s r s', read_grace n s = Some (r, s') → written s' = written s ∧ protocol s' = protocol s) as Hg.
  { intros n t r' t'. unfold read_grace. destruct (grace_from _ _) as [[? ?]|]; [|done]. by intros [= <- <-]. }
  intros [->| ->] [(e & E & ->)|(a & s1 & E & Hk)]%op_bind_inv; apply Hg in E as [E1 E2]; [done| |done|]; rewrite <-E1, <-E2.
  - destruct a as [[|a b]|]; [by injection Hk as <- <-|by apply finish_peer_id_quiet in Hk|by injection Hk as <- <-].
  - destruct a as [[|a b]|]; [by injection Hk as <- <-| |by injection Hk as <- <-].
    destruct (looks_like_acestream_peer_id_prefix _); [by apply finish_peer_id_quiet in Hk|].
    rewrite (op_bind_ok _ _ _ _ _ eq_refl) in Hk. by injection Hk as <- <-.
Qed.

(** *** Metadata *)

Definition metadata_of (m : PeerMessage) : option MetadataMessage :=
  match m with
  | Extended ext_id payload => if byte_N ext_id =? 0 then None else UtMetadata.parse payload
  | _ => None
  end.

(** A peer that holds [data] sends its blocks as they are and rejects nothing. *)
Definition honest (data : bytes) (m : PeerMessage) : Prop :=
  match metadata_of m with
  | Some (Data piece _ d) => (0 ≤ piece)%Z → Z.to_N piece < piece_count (lenN data) → d = block data (Z.to_N piece)
  | Some (Reject _) => False
  | _ => True
  end.

Definition sends_block (data : bytes) (i : N) (m : PeerMessage) : Prop :=
  ∃ ts, metadata_of m = Some (Data (Z.of_N i) ts (block data i)).

Definition fetch_new (metadata_size : N) : Fetch :=
  mkFetch (replicate (N.to_nat metadata_size) x00) (replicate (N.to_nat (piece_count metadata_size)) false) (piece_count metadata_size).

Definition missing (l : list bool) : nat := length (filter (λ b, b = false) l).

Record FetchOk (data : bytes) (f : Fetch) : Prop := mkFetchOk {
  fetch_len : length (blob f) = length data;
  fetch_have : length (have f) = N.to_nat (piece_count (lenN data));
  fetch_left : left f = N.of_nat (missing (have f));
  fetch_same : ∀ i, have f !! (i / N.to_nat METADATA_BLOCK_LEN)%nat = Some true → blob f !! i = data !! i;
}.

Lemma fetch_message_of size pieces f m : fetch_message size pieces f m =
  match metadata_of m with
  | Some (Data piece _ data) => Ok (take_block size pieces f piece data)
  | Some (Reject _) => Err (Protocol "metadata request rejected")
  | _ => Ok f
  end.
Proof. unfold fetch_message, metadata_of. destruct m; try done. by destruct (_ =? _). Qed.

Lemma missing_set l i : l !! i = Some false → missing l = S (missing (<[i := true]> l)).
Proof.
  revert i. unfold missing. induction l as [|b l IH]; intros [|i] H; [done..| |].
  - injection H as ->. by rewrite list_insert_here || cbn.
  - cbn in H. cbn [insert list_insert]. rewrite !filter_cons. specialize (IH _ H). case_decide; cbn [length]; [by rewrite IH|done].
Qed.

Lemma missing_zero l i b : missing l = 0%nat → l !! i = Some b → b = true.
Proof.
  intros Hm Hi. destruct b; [done|]. rewrite (missing_set _ _ Hi) in Hm. lia.
Qed.

Lemma fetch_new_ok data : FetchOk data (fetch_new (lenN data)).
Proof.
  split; unfold fetch_new; cbn [blob have left].
  - rewrite length_replicate. unfold lenN. lia.
  - by rewrite length_replicate.
  - assert (∀ n, missing (replicate n false) = n) as ->; [|lia]. intros n. unfold missing.
    induction n as [|n IH]; [done|]. cbn [replicate]. rewrite filter_cons_True by done. cbn [length]. by rewrite IH.
  - intros i H. apply lookup_replicate in H as [? _]. done.
Qed.

Lemma block_bounds data i : i < piece_count (lenN data) →
  (i * METADATA_BLOCK_LEN < lenN data)%N ∧ lenN (block data i) = N.min METADATA_BLOCK_LEN (lenN data - i * METADATA_BLOCK_LEN).
Proof.
  intros Hi. assert (i * METADATA_BLOCK_LEN < lenN data)%N as Hlt.
  { unfold piece_count in Hi. destruct (N.eq_dec (lenN data) 0) as [H0|H0]; [rewrite H0 in Hi; change (div_ceil 0 METADATA_BLOCK_LEN) with 0 in Hi; lia|].
    destruct (div_ceil_bounds (lenN data) METADATA_BLOCK_LEN) as (Hc & _); [lia|done|]. nia. }
  split; [done|]. unfold block, slice, lenN in *. rewrite length_take, length_drop.
  unfold METADATA_BLOCK_LEN in *. lia.
Qed.

Lemma take_block_ok data f piece : FetchOk data f → (0 ≤ piece)%Z → Z.to_N piece < piece_count (lenN data) →
  FetchOk data (take_block (lenN data) (piece_count (lenN data)) f piece (block data (Z.to_N piece))) ∧
  (∀ i, have f !! i = Some true → have (take_block (lenN data) (piece_count (lenN data)) f piece (block data (Z.to_N piece))) !! i = Some true) ∧
  have (take_block (lenN data) (piece_count (lenN data)) f piece (block data (Z.to_N piece))) !! N.to_nat (Z.to_N piece) = Some true.
Proof.
  intros [Hl Hh Hm Hs] Hp Hi. set (i := Z.to_N piece) in *. destruct (block_bounds data i Hi) as [Hb Hbl].
  unfold take_block. rewrite (proj2 (Z.ltb_ge _ _)) by done. fold i. rewrite (proj2 (N.leb_gt _ _)) by done. cbn [orb].
  set (B := METADATA_BLOCK_LEN) in *. assert (0 < B) as HB by done. assert (lenN (block data i) ≠ 0)%N as Hne by lia.
  replace (N.min (i * B + lenN (block data i)) (lenN data)) with (i * B + lenN (block data i))%N by lia.
  rewrite (proj2 (N.ltb_lt _ _)) by lia. rewrite (N.add_comm (i * B)), N.add_sub.
  unfold lenN at 1 2 4. rewrite Nat2N.id, firstn_all.
  set (bl := list_inserts (N.to_nat (i * B)) (block data i) (blob f)).
  assert (length bl = length data) as Hbll by (unfold bl; by rewrite length_inserts).
  assert (∀ h : list bool, (∀ j, h !! j = Some true → have f !! j = Some true ∨ j = N.to_nat i) →
    ∀ j, h !! (j / N.to_nat B)%nat = Some true → bl !! j = data !! j) as Hsame.
  { intros h Hhh j Hj. unfold bl. unfold lenN in Hb, Hbl.
    destruct (decide (N.to_nat (i * B) ≤ j < N.to_nat (i * B) + length (block data i))%nat) as [Hin|Hout].
    - rewrite list_lookup_inserts by lia. unfold block, slice. fold B. rewrite lookup_take, lookup_drop.
      rewrite decide_True by lia. f_equal. lia.
    - assert (have f !! (j / N.to_nat B)%nat = Some true ∨ length data ≤ j)%nat as [Hj'|Hge].
      { destruct (Hhh _ Hj) as [|Hq]; [by left|]. right.
        pose proof (Nat.div_mod_eq j (N.to_nat B)). pose proof (Nat.mod_upper_bound j (N.to_nat B) ltac:(lia)).
        rewrite Hq in *. lia. }
      + destruct (decide (j < N.to_nat (i * B))%nat); [rewrite list_lookup_inserts_lt by done|rewrite list_lookup_inserts_ge by lia]; by apply Hs.
      + rewrite !lookup_ge_None_2; [done|lia|]. rewrite length_inserts. lia. }
  destruct (lookup_lt_is_Some_2 (have f) (N.to_nat i)) as [b Hbi]; [rewrite Hh; lia|].
  rewrite Hbi. cbn [default from_option id]. destruct b; cbn [id blob have left].
  - split_and!; [|done|done]. split; cbn [blob have left]; [done..|]. apply (Hsame (have f)). auto.
  - split_and!.
    + split; cbn [blob have left]; [done|by rewrite length_insert| |].
      * rewrite Hm, (missing_set _ _ Hbi). lia.
      * apply (Hsame (<[N.to_nat i := true]> (have f))). intros j Hj.
        destruct (decide (j = N.to_nat i)) as [->|]; [by right|]. left. by rewrite list_lookup_insert_ne in Hj.
    + intros j Hj. destruct (decide (j = N.to_nat i)) as [->|]; [|by rewrite list_lookup_insert_ne].
      rewrite list_lookup_insert_eq; [done|]. by eapply lookup_lt_Some.
    + rewrite list_lookup_insert_eq; [done|]. by eapply lookup_lt_Some.
Qed.

(** One message of an honest peer keeps the blocks received so far and adds the one it carries. *)
Lemma fetch_message_ok data f m : FetchOk data f → honest data m →
  ∃ f', fetch_message (lenN data) (piece_count (lenN data)) f m = Ok f' ∧ FetchOk data f' ∧
    (∀ i, have f !! i = Some true → have f' !! i = Some true) ∧
    (∀ i, i < piece_count (lenN data) → sends_block data i m → have f' !! N.to_nat i = Some true) ∧
    (∀ i, i < piece_count (lenN data) → have f' !! N.to_nat i = Some true → have f !! N.to_nat i = Some true ∨ sends_block data i m).
Proof.
  intros Hok Hh. rewrite fetch_message_of. unfold honest in Hh. unfold sends_block.
  destruct (metadata_of m) as [[piece|piece ts d|piece]|] eqn:Em; [..|done|].
  - exists f. split_and!; [done|done|done|by intros i _ [? ?]|by left].
  - destruct (Z.ltb_spec piece 0) as [Hneg|Hpos]; [|destruct (N.leb_spec (piece_count (lenN data)) (Z.to_N piece)) as [Hge|Hlt]].
    1,2: exists f; unfold take_block.
    + rewrite (proj2 (Z.ltb_lt _ _)) by done. cbn [orb].
      split_and!; [done|done|done| |by left]. intros i Hi [? [= -> _ _]]. lia.
    + rewrite (proj2 (N.leb_le _ _)), orb_true_r by done.
      split_and!; [done|done|done| |by left]. intros i Hi [? [= -> _ _]]. lia.
    + rewrite (Hh Hpos Hlt). destruct (take_block_ok data f piece Hok Hpos Hlt) as (H1 & H2 & H3).
      eexists. split; [done|]. split_and!; [done|done| |].
      * intros i Hi [? [= -> _ _]]. revert H3. by rewrite !N2Z.id.
      * intros i Hi Hb. destruct (decide (i = Z.to_N piece)) as [->|Hne]; [right|left].
        { exists ts. by rewrite Z2N.id. }
        revert Hb. unfold take_block. rewrite (proj2 (Z.ltb_ge _ _)), (proj2 (N.leb_gt _ _)) by done. cbn [orb].
        destruct (default true _); [done|]. cbn [have]. rewrite list_lookup_insert_ne by lia. done.
  - exists f. split_and!; [done|done|done|by intros i _ [? ?]|by left].
Qed.

Lemma fetch_done data f : FetchOk data f → left f = 0 → blob f = data.
Proof.
  intros [Hl Hh Hm Hs] H0. apply list_eq. intros i.
  destruct (decide (i < length data)%nat) as [Hi|Hi]; [|rewrite !lookup_ge_None_2; [done|lia..]].
  apply Hs. assert (i / N.to_nat METADATA_BLOCK_LEN < length (have f))%nat as [b Hb]%lookup_lt_is_Some_2.
  { rewrite Hh. apply Nat.Div0.div_lt_upper_bound.
    destruct (div_ceil_bounds (lenN data) METADATA_BLOCK_LEN) as (_ & Hc & _); [unfold lenN; lia|done|].
    unfold piece_count, lenN in *. lia. }
  rewrite Hb. f_equal. eapply missing_zero; [|exact Hb]. lia.
Qed.

(** While a block is missing the loop goes on. *)
Lemma fetch_not_done data f i : FetchOk data f → i < piece_count (lenN data) → have f !! N.to_nat i ≠ Some true → left f ≠ 0.
Proof.
  intros [_ Hh Hm _] Hi Hn H0. destruct (lookup_lt_is_Some_2 (have f) (N.to_nat i)) as [b Hb]; [lia|].
  apply Hn. rewrite Hb. f_equal. eapply missing_zero; [|exact Hb]. lia.
Qed.

Lemma fetch_loop_honest data ms : ∀ f s rest fuel, FetchOk data f → forallb canonical ms = true → Forall (honest data) ms →
  (∀ i, i < piece_count (lenN data) → have f !! N.to_nat i = Some true ∨ Exists (sends_block data i) ms) →
  pending s = frames ms ++ rest → (length ms ≤ fuel)%nat →
  ∃ s', fetch_loop fuel (lenN data) (piece_count (lenN data)) f s = Some (Ok data, s') ∧ written s' = written s.
Proof.
  induction ms as [|m ms IH]; intros f s rest fuel Hok Hc Hh Hall Hp Hf.
  - exists s. assert (left f = 0) as H0.
    { destruct Hok as [_ Hhave -> _]. enough (missing (have f) = 0)%nat by lia. unfold missing.
      apply length_zero_iff_nil. destruct (filter _ _) as [|b l] eqn:E; [done|].
      assert (b ∈ filter (λ b, b = false) (have f)) as [-> [i Hi]%list_elem_of_lookup]%list_elem_of_filter by (rewrite E; by left).
      pose proof (lookup_lt_Some _ _ _ Hi). destruct (Hall (N.of_nat i)) as [Hx|Hx%Exists_nil]; [lia| |done].
      rewrite Nat2N.id in Hx. congruence. }
    rewrite <-(fetch_done _ _ Hok H0) at 3. destruct fuel; cbn [fetch_loop]; by rewrite H0.
  - destruct (N.eq_dec (left f) 0) as [H0|H0].
    { exists s. rewrite <-(fetch_done _ _ Hok H0) at 3. destruct fuel; cbn [fetch_loop]; by rewrite H0. }
    destruct fuel as [|fuel]; [cbn [length] in Hf; lia|]. cbn [fetch_loop]. rewrite (proj2 (N.eqb_neq _ _)) by done.
    cbn [forallb] in Hc. apply andb_true_iff in Hc as [Hm Hms]. apply Forall_cons in Hh as [Hhm Hhms].
    unfold frames in Hp. cbn [fmap list_fmap concat] in Hp. rewrite <-app_assoc in Hp.
    destruct (read_message_frame m s _ Hm Hp) as (s1 & H1 & H2 & _ & H4 & _). rewrite (op_bind_ok _ _ _ _ _ H1).
    destruct (fetch_message_ok data f m Hok Hhm) as (f' & -> & Hok' & Hk & Hs & _).
    destruct (IH f' s1 rest fuel) as (s' & -> & Hw); [done..| |done|cbn [length] in Hf; lia|].
    + intros i Hi. destruct (Hall i Hi) as [Hx|[Hx|Hx]%Exists_cons]; [left; by apply Hk|left; by apply Hs|by right].
    + exists s'. by rewrite Hw.
Qed.

Lemma fetch_loop_rejected data i r k ms : i < piece_count (lenN data) → metadata_of r = Some (Reject k) → canonical r = true →
  ∀ f s rest fuel, FetchOk data f → forallb canonical ms = true → Forall (honest data) ms →
  have f !! N.to_nat i ≠ Some true → ¬ Exists (sends_block data i) ms →
  pending s = frames ms ++ Message.encode r ++ rest → (length ms < fuel)%nat →
  ∃ s', fetch_loop fuel (lenN data) (piece_count (lenN data)) f s = Some (Err (Protocol "metadata request rejected"), s').
Proof.
  intros Hi Hr Hcr. induction ms as [|m ms IH]; intros f s rest fuel Hok Hc Hh Hmiss Hno Hp Hf;
    (destruct fuel as [|fuel]; [lia|]); cbn [fetch_loop];
    rewrite (proj2 (N.eqb_neq _ _)) by (by eapply fetch_not_done).
  - destruct (read_message_frame r s _ Hcr Hp) as (s1 & H1 & _). rewrite (op_bind_ok _ _ _ _ _ H1), fetch_message_of, Hr. by eexists.
  - cbn [forallb] in Hc. apply andb_true_iff in Hc as [Hm Hms]. apply Forall_cons in Hh as [Hhm Hhms].
    rewrite Exists_cons in Hno. unfold frames in Hp. cbn [fmap list_fmap concat] in Hp. rewrite <-app_assoc in Hp.
    destruct (read_message_frame m s _ Hm Hp) as (s1 & H1 & H2 & _). rewrite (op_bind_ok _ _ _ _ _ H1).
    destruct (fetch_message_ok data f m Hok Hhm) as (f' & -> & Hok' & _ & _ & Hk).
    apply (IH f' s1 rest); [done..| |tauto|done|cbn [length] in Hf; lia].
    intros Hx. destruct (Hk i Hi Hx); tauto.
Qed.

Lemma send_requests_spec id l s : ∃ s', send_requests id l s = Some (Ok (), s') ∧ pending s' = pending s ∧
  ending (incoming s') = ending (incoming s) ∧
  written s' = written s ++ ((λ i, Message.encode (Extended id (request_piece (Z.of_N i)))) <$> l).
Proof.
  revert s. induction l as [|i l IH]; intros s; [by exists s; rewrite app_nil_r|].
  destruct (IH (mkSession (incoming s) (buf s) (written s ++ [Message.encode (Extended id (request_piece (Z.of_N i)))]) (protocol s)))
    as (s' & H1 & H2 & H3 & H4).
  exists s'. cbn [send_requests]. rewrite (op_bind_ok _ _ _ _ _ eq_refl). split_and!; [exact H1|by rewrite H2|by rewrite H3|].
  rewrite H4. cbn [written]. by rewrite <-app_assoc.
Qed.

Lemma fetch_metadata_honest data id s ms rest fuel :
  forallb canonical ms = true → Forall (honest data) ms → (length ms ≤ fuel)%nat →
  (∀ i, i < piece_count (lenN data) → Exists (sends_block data i) ms) → pending s = frames ms ++ rest →
  ∃ s', fetch_metadata fuel id (lenN data) s = Some (Ok data, s') ∧
    written s' = written s ++ ((λ i, Message.encode (Extended id (request_piece (Z.of_N i)))) <$> range 0 (piece_count (lenN data))).
Proof.
  intros Hc Hh Hf Hall Hp. destruct (send_requests_spec id (range 0 (piece_count (lenN data))) s) as (s1 & H1 & H2 & _ & H3).
  unfold fetch_metadata. destruct (N.eqb_spec (piece_count (lenN data)) 0) as [H0|H0]; [|rewrite (op_bind_ok _ _ _ _ _ H1)].
  - exists s. rewrite H0. cbn. rewrite app_nil_r. split; [|done]. by rewrite <-(piece_count_blocks data), H0.
  - destruct (fetch_loop_honest data ms (fetch_new (lenN data)) s1 rest fuel) as (s' & H4 & H5);
      [apply fetch_new_ok|done|done|by right; apply Hall|by rewrite H2|done|].
    exists s'. split; [exact H4|]. by rewrite H5.
Qed.

(** Whatever the peer sends, what is returned has the announced size. *)
Lemma take_block_length size pieces f piece d : length (blob (take_block size pieces f piece d)) = length (blob f).
Proof.
  unfold take_block. destruct (_ || _); [done|]. destruct (default true _); cbn [blob]; destruct (_ <? _); by rewrite ?length_inserts.
Qed.

Lemma fetch_loop_length fuel size pieces f s b s' : fetch_loop fuel size pieces f s = Some (Ok b, s') → length b = length (blob f).
Proof.
  revert f s. induction fuel as [|fuel IH]; intros f s; cbn [fetch_loop]; (destruct (left f =? 0); [by intros [= <- _]|]); [done|].
  intros [(e & _ & ?)|(m & s1 & _ & E)]%op_bind_inv; [done|]. rewrite fetch_message_of in E.
  destruct (metadata_of m) as [[| |]|]; try done; apply IH in E as ->; [done| |done]. by rewrite take_block_length.
Qed.

Lemma fetch_metadata_length fuel id size s b s' : fetch_metadata fuel id size s = Some (Ok b, s') → lenN b = size ∨ piece_count size = 0.
Proof.
  unfold fetch_metadata. destruct (N.eqb_spec (piece_count size) 0); [by right|]. intros H. left.
  apply op_bind_inv in H as [(e & _ & ?)|([] & s1 & _ & E%fetch_loop_length)]; [done|].
  unfold lenN. rewrite E. cbn [blob]. rewrite length_replicate. lia.
Qed.

(** ** Theorems *)

(** messages do not depend on how the network cuts them.  When the bytes a session still has
    to receive are the frames of messages followed by an incomplete frame, then however they are
    split into reads and delayed, as many reads of a message return exactly those messages in
    order, and the next one reports a closed connection if the stream ends there, a timeout if
    the peer stalls, and otherwise waits; nothing is written meanwhile. *)
Theorem framing_independent s ms m k :
  forallb canonical ms = true → canonical m = true → (k < length (Message.encode m))%nat →
  pending s = frames ms ++ take k (Message.encode m) →
  ∃ s', read_messages (length ms) s = Some (Ok ms, s') ∧ written s' = written s ∧
    match ending (incoming s) with
    | None => read_message s' = None
    | Some e => ∃ s'', read_message s' = Some (Err e, s'')
    end.
Proof.
  intros Hms Hm Hk E. destruct (read_messages_frames ms s _ Hms E) as (s' & H1 & H2 & H3 & H4).
  exists s'. split_and!; [done|done|]. rewrite <-H3.
  pose proof (message_from_partial m (incoming s') Hm _ _ Hk H2) as Hp. unfold read_message.
  destruct (ending (incoming s')) as [e|]; [|by rewrite Hp].
  destruct Hp as (b & l & ->). by eexists.
Qed.

(** C33: the two sides of a handshake agree.  A dialer and an acceptor of one protocol, both with empty buffers,
    where the acceptor serves the infohash: each sends exactly its own handshake and returns exactly the other's,
    peer id included, and the bytes that follow the handshake are left for the message reader on both sides.  For
    BitTorrent this holds however the network cuts and delays the bytes; for AceStream the dialer's peer id
    must begin with the client's prefix and what reaches the acceptor may pause at most once, since
    the acceptor gives a late peer id up after two ([late_peer_id_breaks_session]). *)
Theorem handshake_agreement ih pd pa serves d a rd ra :
  length ih = 20%nat → length pd = 20%nat → length pa = 20%nat → serves ih = true →
  protocol d = protocol a → buf d = [] → buf a = [] →
  (protocol a = AceStream → starts_with pd PEER_ID_PREFIX = true ∧ (pauses (incoming a) ≤ 1)%nat) →
  stream (incoming a) = encode_with_protocol (new ih pd) (protocol a) ++ ra →
  stream (incoming d) = encode_with_protocol (new ih pa) (protocol d) ++ rd →
  ∃ d' a', perform_handshake ih pd d = Some (Ok (new ih pa), d') ∧ accept_handshake pa serves a = Some (Ok (new ih pd), a') ∧
    written d' = written d ++ [encode_with_protocol (new ih pd) (protocol d)] ∧
    written a' = written a ++ [encode_with_protocol (new ih pa) (protocol a)] ∧
    pending d' = rd ∧ pending a' = ra.
Proof.
  intros Hi Hd Ha Hs Hp Hbd Hba Hace Ea Ed.
  destruct (perform_handshake_spec ih pd pa d rd Hi Ha Ed) as (ld & H1 & H2 & _).
  destruct (accept_handshake_spec ih pd pa serves a ra Hi Hd Hace Hs Ea) as (la & H3 & H4 & _).
  eexists _, _. split; [exact H1|]. split; [exact H3|]. unfold pending. cbn. by rewrite Hbd, Hba.
Qed.

(** an acceptor does not reveal what it serves.  Whatever a peer sends and in whatever pieces,
    the acceptor writes nothing, or exactly its own handshake for an infohash that it serves; and
    it accepts only after that reply. *)
Theorem acceptor_discreet pa serves s r s' :
  accept_handshake pa serves s = Some (r, s') →
  written s' = written s ∧ (∃ e, r = Err e) ∨
  ∃ ih, serves ih = true ∧ written s' = written s ++ [encode_with_protocol (new ih pa) (protocol s)].
Proof.
  unfold accept_handshake. case_bool_decide as Hp.
  - intros [(e & E & ->)|(hs & s1 & E1%read_exact_quiet & [(e & E%lift_quiet & ->)|(peer & s2 & E2%lift_quiet & Hk)]%op_bind_inv)]%op_bind_inv.
    + left. apply read_exact_quiet in E as [E _]. split; [done|by eexists].
    + subst. left. split; [apply E1|by eexists].
    + subst. destruct E1 as [E1 _]. destruct (serves _) eqn:Hs; cbn [negb] in Hk.
      * injection Hk as <- <-. right. eexists. split; [exact Hs|]. cbn [written]. by rewrite E1, Hp.
      * injection Hk as <- <-. left. split; [done|by eexists].
  - intros [(e & E & ->)|(hs & s1 & E1%read_exact_quiet & [(e & E%lift_quiet & ->)|(peer & s2 & E2%lift_quiet & Hk)]%op_bind_inv)]%op_bind_inv.
    + left. apply read_exact_quiet in E as [E _]. split; [done|by eexists].
    + subst. left. split; [apply E1|by eexists].
    + subst. destruct E1 as [E1 Ep]. destruct (serves _) eqn:Hs; cbn [negb] in Hk;
        [|injection Hk as <- <-; left; split; [done|by eexists]].
      apply op_bind_inv in Hk as [(e & E & ->)|(seen & s2 & E2 & Hk)].
      { left. apply optional_peer_id_quiet in E as [E _]; [|by left]. split; [by rewrite E|by eexists]. }
      apply optional_peer_id_quiet in E2 as [E2 Ep2]; [|by left]. rewrite (op_bind_ok _ _ _ _ _ eq_refl) in Hk.
      right. eexists. split; [exact Hs|].
      assert (encode_with_protocol (new (Handshake.infohash peer) pa) (protocol s) = Handshake.encode (new (Handshake.infohash peer) pa))
        as -> by (by destruct (protocol s)).
      rewrite <-E1, <-E2. destruct seen as [id|]; [by injection Hk as <- <-|].
      apply op_bind_inv in Hk as [(e & E & ->)|(late & s3 & E & [= <- <-])];
        by apply optional_peer_id_quiet in E as [-> _]; [|right].
Qed.

(** a late peer id ends the session.  When the peer id of an AceStream dialer arrives only
    after both grace periods, as it does when the dialer waits for the reply over a link slower
    than 20 ms, the acceptor completes the handshake with a zero peer id and then reads the id as
    a message frame: its first four bytes are a length above the frame limit, so the first
    [read_message] fails although the dialer followed the protocol. *)
Theorem late_peer_id_breaks_session ih pd pa serves l :
  length ih = 20%nat → length pd = 20%nat → serves ih = true → starts_with pd PEER_ID_PREFIX = true →
  ∃ s' s'', accept_handshake pa serves
      (session_new (Chunk (take HANDSHAKE_PREFIX_LEN (Handshake.encode (new ih pd))) :: Pause :: Pause :: Chunk pd :: l)) =
      Some (Ok (new ih (replicate 20 x00)), s') ∧
    written s' = [Handshake.encode (new ih pa)] ∧
    read_message s' = Some (Err (WireErr (Invalid "frame too large")), s'').
Proof.
  intros Hi Hp Hs Hpre. destruct (ace_handshake_parts _ (sized_new ih pd Hi Hp)) as (pre & Hh & Hl & Hd).
  rewrite Hh, take_app_length' by done.
  assert (read_exact HANDSHAKE_PREFIX_LEN (session_new (Chunk pre :: Pause :: Pause :: Chunk pd :: l)) =
    Some (Ok pre, session_new (Pause :: Pause :: Chunk pd :: l))) as H1.
  { unfold read_exact. cbn [session_new incoming]. by rewrite <-Hl, exact_from_chunk by (rewrite Hl; unfold HANDSHAKE_PREFIX_LEN; lia). }
  exists (mkSession (Chunk pd :: l) [] [Handshake.encode (new ih pa)] AceStream). eexists. split; [|split; [done|]].
  - unfold accept_handshake. rewrite bool_decide_false by done. rewrite (op_bind_ok _ _ _ _ _ H1).
    unfold lift at 1. rewrite Hd. rewrite (op_bind_ok _ _ _ _ _ eq_refl). cbn [Handshake.infohash new]. rewrite Hs. done.
  - unfold read_message. cbn [incoming buf message_from app].
    assert (Message.decode pd = Err (Invalid "frame too large")) as Hdec.
    { apply decode_error. split; [lia|]. split; [|done]. apply starts_with_true in Hpre as [r ->]. vm_compute. done. }
    destruct l; cbn [message_from]; by rewrite Hdec.
Qed.

(** metadata is fetched intact.  The download asks for every block once, in order; from a
    peer that sends the blocks of the data in any order, repeated or mixed with other traffic and
    cut in any way, it returns exactly the data as soon as every block has come; and a rejection
    while a block is missing fails it. *)
Theorem metadata_fetched data id s ms rest fuel :
  forallb canonical ms = true → Forall (honest data) ms → (length ms < fuel)%nat →
  ((∀ i, i < piece_count (lenN data) → Exists (sends_block data i) ms) → pending s = frames ms ++ rest →
    ∃ s', fetch_metadata fuel id (lenN data) s = Some (Ok data, s') ∧
      written s' = written s ++ ((λ i, Message.encode (Extended id (request_piece (Z.of_N i)))) <$> range 0 (piece_count (lenN data)))) ∧
  (∀ i r k, i < piece_count (lenN data) → ¬ Exists (sends_block data i) ms → canonical r = true → metadata_of r = Some (Reject k) →
    pending s = frames ms ++ Message.encode r ++ rest →
    ∃ s', fetch_metadata fuel id (lenN data) s = Some (Err (Protocol "metadata request rejected"), s')).
Proof.
  intros Hc Hh Hf. split; [intros Hall Hp; apply (fetch_metadata_honest _ _ _ ms rest); (done || lia)|].
  intros i r k Hi Hno Hcr Hr Hp. destruct (send_requests_spec id (range 0 (piece_count (lenN data))) s) as (s1 & H1 & H2 & _ & H3).
  unfold fetch_metadata. destruct (N.eqb_spec (piece_count (lenN data)) 0) as [H0|H0]; [|rewrite (op_bind_ok _ _ _ _ _ H1)].
  - lia.
  - apply (fetch_loop_rejected data i r k ms Hi Hr Hcr (fetch_new (lenN data)) s1 rest); try done;
      [apply fetch_new_ok| |by rewrite H2]. cbn [have fetch_new]. intros [? _]%lookup_replicate. done.
Qed.

(** ** Witnesses *)

Definition sample_ih : bytes := bs "01234567890123456789".
Definition dialer_id : bytes := bs "R30------abcdefghijk".
Definition acceptor_id : bytes := bs "R30------ABCDEFGHIJK".

(** A request whose frame arrives split, a keep-alive, and half of a piece before the end. *)
Definition sample_messages : list PeerMessage := [Request 1 2 3; KeepAlive; Choke].
Definition sample_piece : PeerMessage := Piece 3 9 (bs "media").
Definition cut_session : PeerSession :=
  session_new [Chunk (take 3 (frames sample_messages)); Pause; Chunk (drop 3 (frames sample_messages) ++ take 7 (Message.encode sample_piece)); Eof].

Lemma framing_independent_witness :
  ∃ s', read_messages 3 cut_session = Some (Ok sample_messages, s') ∧ written s' = [] ∧
    ∃ s'', read_message s' = Some (Err Closed, s'').
Proof.
  apply (framing_independent cut_session sample_messages sample_piece 7); [by vm_compute..|vm_compute; lia|by vm_compute].
Defined.

(** The acceptor's dialer sends its id one pause after the rest; both send a keep-alive next. *)
Definition dialer_session : PeerSession := session_new [Chunk (Handshake.encode (new sample_ih acceptor_id) ++ Message.encode KeepAlive)].
Definition acceptor_session : PeerSession :=
  session_new [Chunk (take HANDSHAKE_PREFIX_LEN (Handshake.encode (new sample_ih dialer_id))); Pause; Chunk (dialer_id ++ Message.encode KeepAlive)].

Lemma handshake_agreement_witness :
  ∃ d' a', perform_handshake sample_ih dialer_id dialer_session = Some (Ok (new sample_ih acceptor_id), d') ∧
    accept_handshake acceptor_id (λ h, bool_decide (h = sample_ih)) acceptor_session = Some (Ok (new sample_ih dialer_id), a') ∧
    written d' = [Handshake.encode (new sample_ih dialer_id)] ∧ written a' = [Handshake.encode (new sample_ih acceptor_id)] ∧
    pending d' = Message.encode KeepAlive ∧ pending a' = Message.encode KeepAlive.
Proof.
  apply (handshake_agreement sample_ih dialer_id acceptor_id (λ h, bool_decide (h = sample_ih)) dialer_session acceptor_session
    (Message.encode KeepAlive) (Message.encode KeepAlive)); by vm_compute.
Defined.

Lemma acceptor_discreet_witness :
  ∃ s', accept_handshake acceptor_id (λ h, false) acceptor_session = Some (Err InfohashMismatch, s') ∧
    (written s' = [] ∧ (∃ e, @Err PeerError Handshake InfohashMismatch = Err e) ∨
     ∃ ih, false = true ∧ written s' = [encode_with_protocol (new ih acceptor_id) AceStream]).
Proof.
  eexists. split; [vm_compute; reflexivity|].
  apply (acceptor_discreet acceptor_id (λ h, false) acceptor_session (Err InfohashMismatch)). vm_compute. reflexivity.
Defined.

Lemma late_peer_id_breaks_session_witness :
  ∃ s' s'', accept_handshake acceptor_id (λ h, true)
      (session_new [Chunk (take HANDSHAKE_PREFIX_LEN (Handshake.encode (new sample_ih dialer_id))); Pause; Pause; Chunk dialer_id]) =
      Some (Ok (new sample_ih (replicate 20 x00)), s') ∧
    written s' = [Handshake.encode (new sample_ih acceptor_id)] ∧
    read_message s' = Some (Err (WireErr (Invalid "frame too large")), s'').
Proof. by apply (late_peer_id_breaks_session sample_ih dialer_id acceptor_id (λ h, true) []). Defined.

(** A descriptor of one block, sent twice around other traffic. *)
Definition sample_blob : bytes := bs "a short descriptor".
Definition blob_messages : list PeerMessage :=
  [KeepAlive; Extended x01 (data_piece 0 18 (block sample_blob 0)); Choke; Extended x01 (data_piece 0 18 (block sample_blob 0))].

Lemma blob_messages_honest : Forall (honest sample_blob) blob_messages.
Proof. apply Forall_fold_right. cbn [blob_messages foldr]. unfold honest. split_and!; by vm_compute. Qed.

Lemma metadata_fetched_witness :
  ∃ s', fetch_metadata 5 x01 (lenN sample_blob) (session_new [Chunk (frames blob_messages)]) = Some (Ok sample_blob, s').
Proof.
  destruct (proj1 (metadata_fetched sample_blob x01 (session_new [Chunk (frames blob_messages)]) blob_messages [] 5
    ltac:(by vm_compute) blob_messages_honest ltac:(cbn; lia))) as (s' & E & _).
  - intros i Hi. change (piece_count (lenN sample_blob)) with 1 in Hi. assert (i = 0) as -> by lia.
    apply Exists_cons_tl, Exists_cons_hd. exists (Some 18%Z). by vm_compute.
  - by vm_compute.
  - exists s'. exact E.
Defined.
