(* ===== verification/Resolve.v ===== *)
(** * Content resolution

    The parts of [ace-swarm/src/resolve.rs] between a socket and a playable stream: descriptors
    to stream descriptions ([stream_info_from_transport], [vod_info_from_transport],
    [inspect_descriptor]) with the validation of their geometry, content ids in hexadecimal, the
    catalog's HTTP response, and the two caches; [StreamInfo] and [StreamMetadata] of
    [ace-swarm/src/types.rs].  AES, SHA-1 and RSA are the interfaces of the decoders; readings of
    the clock are arguments. *)

From S2P Require Import Prelude Order Bytes Wire Bencode Text Metainfo Transport.
From S2P Require Import Handshake LiveAuth Net PeerPolicy Vod.

Local Open Scope N_scope.

Definition DEFAULT_CHUNK_LENGTH : N := 16384.
Definition MAX_METADATA_SIZE : N := 1048576.
Definition MAX_PIECE_LENGTH : N := 8 * 1048576.
Definition MAX_TITLE_BYTES : nat := 256.

Inductive FetchError : Type :=
  | InvalidSourceConfig | InvalidSourceUrl | SourceAddressBlocked | BadUrl | UnsupportedScheme | NoHost | NoPort
  | DnsTimeout | DnsFailed | AddressBlocked | ClientBuildFailed | ConnectTimeout | ConnectFailed | TlsFailed
  | HeadersTimeout | RedirectRejected | HttpStatus | UnsupportedResponse | BodyFailed | BodyFrameTooLarge | FetchCancelled.

Inductive ResolveError : Type :=
  | ProtectedContent
  | ProtectionInvalid
  | BadInfohash
  | TransportErr (reason : string)
  | Catalog (reason : string)
  | CatalogNetwork (reason : string)
  | PeerErr (reason : string)
  | UrlErr (reason : string)
  | FetchErr (e : FetchError)
  | TransportTooLarge.

Inductive ResolveFailureKind : Type :=
  | KInvalidSelector | KInvalidDescriptor | KSafetyRefusal | KProtectedContent | KInvalidProtection | KNetwork
  | KRejectedMetadata | KCancelled | KUnclassified.

Definition failure_kind (e : ResolveError) : ResolveFailureKind :=
  match e with
  | ProtectedContent => KProtectedContent
  | ProtectionInvalid => KInvalidProtection
  | BadInfohash => KInvalidSelector
  | TransportErr _ => KInvalidDescriptor
  | Catalog _ | TransportTooLarge => KRejectedMetadata
  | PeerErr _ | CatalogNetwork _ => KNetwork
  | UrlErr _ => KUnclassified
  | FetchErr e =>
      match e with
      | InvalidSourceConfig | InvalidSourceUrl | BadUrl | UnsupportedScheme | NoHost | NoPort => KInvalidSelector
      | SourceAddressBlocked | AddressBlocked | RedirectRejected => KSafetyRefusal
      | FetchCancelled => KCancelled
      | UnsupportedResponse | BodyFrameTooLarge => KRejectedMetadata
      | DnsTimeout | DnsFailed | ClientBuildFailed | ConnectTimeout | ConnectFailed | TlsFailed | HeadersTimeout
      | HttpStatus | BodyFailed => KNetwork
      end
  end.

Record StreamMetadata : Type := mkMetadata { title : option bytes; bitrate : option N; categories : list bytes }.

Record StreamInfo : Type := mkStream {
  str_protection : option Protection;
  str_infohash : bytes;
  str_piece_length : N;
  str_chunk_length : N;
  str_trackers : list bytes;
  metadata : StreamMetadata;
  str_sig_len : nat;
  str_source_pubkey : bytes;
}.

(** [(self.piece_length / self.chunk_length) as u16]. *)
Definition chunks_per_piece (i : StreamInfo) : N := str_piece_length i `div` str_chunk_length i `mod` two16.

Definition ensure_playable (p : option Protection) : result ResolveError () :=
  match p with Some Protected => Err ProtectedContent | _ => Ok () end.

(** [map_err]. *)
Definition map_err {E E' A} (f : E → E') (r : result E A) : result E' A :=
  match r with Ok a => Ok a | Err e => Err (f e) end.

Definition protection_wire_error (e : WireError) : ResolveError :=
  match e with InvalidProtection => ProtectionInvalid | _ => TransportErr "decode failed" end.

Definition normalized_title (value : bytes) : option bytes :=
  let value := trim value in
  if bool_decide (value = []) then None
  else Some (take (floor_boundary value (length value `min` MAX_TITLE_BYTES)) value).

Definition validate_geometry (piece_length chunk_length : N) : result ResolveError () :=
  if negb (chunk_length =? DEFAULT_CHUNK_LENGTH) then Err (TransportErr "unexpected chunk_length")
  else if MAX_PIECE_LENGTH <? piece_length then Err (TransportErr "piece_length too large")
  else if negb (is_multiple_of piece_length chunk_length) then Err (TransportErr "piece_length not a multiple of chunk_length")
  else if 65535 <? piece_length `div` chunk_length then Err (TransportErr "too many chunks per piece")
  else Ok ().

Section Descriptors.
Context `{Crypto} `{Cbc}.

Definition decoded (b : bytes) : result ResolveError (TransportDescriptor * Protection) :=
  d ← map_err protection_wire_error (decode_transport b);
  prot ← map_err protection_wire_error (Transport.protection d);
  Ok (d, prot).

Definition descriptor_infohash (d : TransportDescriptor) : result ResolveError bytes :=
  map_err (λ _, TransportErr "infohash failed") (infohash_of_decoded_transport sha1 d).

Definition metainfo_error (e : WireError) : ResolveError :=
  match e with InvalidProtection => ProtectionInvalid | _ => TransportErr "invalid single-file metainfo" end.

Definition vod_info_from_transport (b : bytes) : result ResolveError VodInfo :=
  if negb (is_transport_file b) then
    m ← map_err metainfo_error (if is_disk_envelope b then decode_disk_metainfo sha1 b else decode_metainfo sha1 b);
    _ ← validate_geometry (piece_length m) DEFAULT_CHUNK_LENGTH;
    Ok (mkVodInfo (Some (Metainfo.protection m)) (Metainfo.infohash m) BitTorrent (piece_length m) DEFAULT_CHUNK_LENGTH
          (mi_trackers m) (piece_hashes m) (total_length m))
  else
    '(d, prot) ← decoded b;
    if is_live d then Err (TransportErr "not a VOD transport (no pieces)")
    else if is_multifile d then Err (TransportErr "multi-file VOD is not supported")
    else
      _ ← validate_geometry (td_piece_length d) (td_chunk_length d);
      total ← ok_or (Transport.vod_total_length d) (TransportErr "VOD descriptor missing length");
      ih ← descriptor_infohash d;
      Ok (mkVodInfo (Some prot) ih AceStream (td_piece_length d) (td_chunk_length d) (td_trackers d) (td_pieces d) total).

(** [u64::try_from(value).ok()] and the filter on positive values. *)
Definition positive_bitrate (v : option Z) : option N :=
  z ← v; if (0 <? z)%Z then Some (Z.to_N z) else None.

Definition stream_info_from_transport (b : bytes) : result ResolveError StreamInfo :=
  if negb (is_transport_file b) then
    info ← vod_info_from_transport b;
    _ ← ensure_playable (vod_protection info);
    Err (TransportErr "not a live transport")
  else
    '(d, prot) ← decoded b;
    _ ← validate_geometry (td_piece_length d) (td_chunk_length d);
    let sig_len := signature_len_from_pubkey_der (td_pubkey d) in
    ih ← descriptor_infohash d;
    Ok (mkStream (Some prot) ih (td_piece_length d) (td_chunk_length d) (td_trackers d)
          (mkMetadata (normalized_title (td_name d)) (positive_bitrate (td_bitrate d)) (td_categories d))
          (default 0%nat sig_len) (if sig_len then td_pubkey d else [])).

Definition inspect_descriptor (b : bytes) : result ResolveError (bytes * bool * Protection) :=
  if is_transport_file b then
    '(d, prot) ← decoded b;
    _ ← validate_geometry (td_piece_length d) (td_chunk_length d);
    ih ← descriptor_infohash d;
    Ok (ih, is_live d, prot)
  else
    info ← vod_info_from_transport b;
    match vod_protection info with
    | Some prot => Ok (vod_infohash info, false, prot)
    | None => (** the [expect] of the code, never reached: [vod_info_protection] *)
        Err (TransportErr "decoded metainfo inspection")
    end.

Definition catalog_infohash_info (b requested : bytes) : result ResolveError StreamInfo :=
  info ← stream_info_from_transport b;
  if negb (bool_decide (str_infohash info = requested)) then Err (Catalog "catalog infohash mismatch") else Ok info.
End Descriptors.

(** ** Content ids *)

Definition hex_value (b : byte) : option N :=
  if in_range b 48 57 then Some (byte_N b - 48)
  else if in_range b 97 102 then Some (byte_N b - 87)
  else if in_range b 65 70 then Some (byte_N b - 55)
  else None.

(** [from_str_radix(_, 16)] of an unsigned type with the given number of values: a leading plus
    is accepted, an empty number or an overflow is an error. *)
Fixpoint hex_digits (bound acc : N) (l : bytes) : option N :=
  match l with
  | [] => Some acc
  | b :: l =>
      d ← hex_value b;
      if acc * 16 + d <? bound then hex_digits bound (acc * 16 + d) l else None
  end.

Definition from_str_radix_16 (bound : N) (l : bytes) : option N :=
  match l with
  | [] => None
  | b :: r =>
      if bool_decide (b = x2b) then match r with [] => None | _ => hex_digits bound 0 r end
      else hex_digits bound 0 l
  end.

(** A computation that may panic: [None] is the panic. *)
Definition Panics (A : Type) : Type := option A.

(** [&s[a..b]] of a [str]. *)
Definition str_slice (s : bytes) (a b : nat) : Panics bytes :=
  if is_char_boundary s a && is_char_boundary s b && bool_decide (a ≤ b ∧ b ≤ length s)%nat then Some (slice s a b) else None.

Fixpoint hex_pairs (hex : bytes) (i n : nat) : Panics (option bytes) :=
  match n with
  | O => Some (Some [])
  | S n =>
      s ← str_slice hex (i * 2) (i * 2 + 2);
      match from_str_radix_16 256 s with
      | None => Some None
      | Some v => rest ← hex_pairs hex (S i) n; Some ((λ r, N_byte v :: r) <$> rest)
      end
  end.

Definition decode_hex20 (hex : bytes) : Panics (option bytes) :=
  if negb (bool_decide (length hex = 40%nat)) then Some None else hex_pairs hex 0 20.

Definition hex20 (hex : bytes) : Panics (result ResolveError bytes) :=
  (λ r, ok_or r BadInfohash) <$> decode_hex20 hex.

(** [hex::encode] is the third-party encoder. *)
Definition infohash_hex (hex_encode : bytes → bytes) (ih : bytes) : bytes := hex_encode ih.

(** ** The catalog's HTTP response *)

(** [windows(n).position(|w| w == pat)]. *)
Fixpoint find_sub (pat l : bytes) : option nat :=
  if starts_with l pat && bool_decide (length pat ≤ length l)%nat then Some 0%nat
  else match l with [] => None | _ :: l => S <$> find_sub pat l end.

Definition CRLF : bytes := [x0d; x0a].
Definition find_crlf (l : bytes) : option nat := find_sub CRLF l.

Definition ascii_lower (b : byte) : byte := if in_range b 65 90 then N_byte (byte_N b + 32) else b.

(** [split("\r\n")]. *)
Fixpoint split_lines (fuel : nat) (l : bytes) : list bytes :=
  match fuel, find_crlf l with
  | S fuel, Some i => take i l :: split_lines fuel (drop (i + 2) l)
  | _, _ => [l]
  end.

(** The body after one chunk, with what was appended; a [usize] sum wraps in a release build. *)
Fixpoint decode_chunked (fuel : nat) (body out : bytes) : Panics (result ResolveError bytes) :=
  match fuel with
  | O => Some (Err (Catalog "bad chunk size"))
  | S fuel =>
      match find_crlf body with
      | None => Some (Err (Catalog "bad chunk size"))
      | Some line_end =>
          let line := take line_end body in
          if negb (utf8_valid line) then Some (Err (Catalog "bad chunk size"))
          else match from_str_radix_16 two64 (trim (default [] (head (split_on x3b line)))) with
            | None => Some (Err (Catalog "bad chunk size"))
            | Some size =>
                let body := drop (line_end + 2) body in
                if size =? 0 then Some (Ok out)
                else if lenN body <? (size + 2) `mod` two64 then Some (Err (Catalog "truncated chunk"))
                else if lenN body <? size then None
                else
                  let out := out ++ take (N.to_nat size) body in
                  if negb (bool_decide (slice body (N.to_nat size) (N.to_nat size + 2) = CRLF)) then
                    Some (Err (Catalog "bad chunk terminator"))
                  else decode_chunked fuel (drop (N.to_nat size + 2) body) out
            end
      end
  end.

(** Every turn consumes a line, so the length bounds the turns. *)
Definition decode_chunked_body (body : bytes) : Panics (result ResolveError bytes) := decode_chunked (S (length body)) body [].

Definition http_response_body (response : bytes) : Panics (result ResolveError bytes) :=
  match find_sub (CRLF ++ CRLF) response with
  | None => Some (Err (Catalog "bad catalog http response"))
  | Some header_end =>
      let headers := take header_end response in
      if negb (utf8_valid headers) then Some (Err (Catalog "bad catalog http headers"))
      else match split_lines (length headers) headers with
        | [] => Some (Err (Catalog "missing catalog http status"))
        | status :: lines =>
            if negb (starts_with status (bs "HTTP/")) || negb (bool_decide (is_Some (find_sub (bs " 200 ") status))) then
              Some (Err (Catalog "catalog http status"))
            else
              let chunked := existsb (λ line, let lower := map ascii_lower line in
                starts_with lower (bs "transfer-encoding:") && bool_decide (is_Some (find_sub (bs "chunked") lower))) lines in
              let body := drop (header_end + 4) response in
              if chunked then decode_chunked_body body else Some (Ok body)
        end
  end.

(** ** The caches *)

Record ResolveCache : Type := mkCache { cached : list (bytes * (StreamInfo * N)); ttl : N }.

Definition cache_get (c : ResolveCache) (now : N) (k : bytes) : option StreamInfo :=
  '(info, at_) ← snd <$> find (λ e, bool_decide (e.1 = k)) (cached c);
  if now - at_ <? ttl c then Some info else None.

(** [HashMap::insert]. *)
Definition cache_put (c : ResolveCache) (now : N) (k : bytes) (info : StreamInfo) : ResolveCache :=
  mkCache ((k, (info, now)) :: filter (λ e, e.1 ≠ k) (cached c)) (ttl c).

Record InfohashIndex : Type := mkIndex { index_entries : list StreamInfo; capacity : nat }.

Definition index_new (capacity : nat) : InfohashIndex := mkIndex [] (capacity `max` 1).

Definition index_put (x : InfohashIndex) (info : StreamInfo) : InfohashIndex :=
  let entries := filter (λ e, str_infohash e ≠ str_infohash info) (index_entries x) in
  let entries := if bool_decide (capacity x ≤ length entries)%nat then tail entries else entries in
  mkIndex (entries ++ [info]) (capacity x).

Definition index_get (x : InfohashIndex) (ih : bytes) : option StreamInfo :=
  find (λ e, bool_decide (str_infohash e = ih)) (index_entries x).

(** ** Lemmas *)

Lemma map_err_Ok {E E' A} (f : E → E') (r : result E A) a : map_err f r = Ok a ↔ r = Ok a.
Proof. destruct r; cbn; split; by intros [= ->]. Qed.

Lemma map_err_Err {E E' A} (f : E → E') (r : result E A) e : map_err f r = Err e ↔ ∃ e0, r = Err e0 ∧ e = f e0.
Proof. destruct r; cbn; [naive_solver|]. split; [intros [= <-]; eauto|naive_solver]. Qed.

Lemma validate_geometry_Ok pl cl u : validate_geometry pl cl = Ok u →
  cl = DEFAULT_CHUNK_LENGTH ∧ pl ≤ MAX_PIECE_LENGTH ∧ pl `mod` DEFAULT_CHUNK_LENGTH = 0 ∧ pl `div` cl ≤ 512.
Proof.
  unfold validate_geometry. destruct (N.eqb_spec cl DEFAULT_CHUNK_LENGTH) as [->|]; [|done]. cbn [negb].
  destruct (N.ltb_spec MAX_PIECE_LENGTH pl) as [|Hmax]; [done|].
  destruct (is_multiple_of pl DEFAULT_CHUNK_LENGTH) eqn:Hm; [|done]. intros _.
  split_and!; [done|done|by apply N.eqb_eq in Hm|].
  unfold MAX_PIECE_LENGTH, DEFAULT_CHUNK_LENGTH in *. apply N.Div0.div_le_upper_bound. lia.
Qed.

(** The geometry test is the three conditions alone: the bound on the chunk count follows. *)
Lemma validate_geometry_iff pl cl : validate_geometry pl cl = Ok () ↔
  cl = DEFAULT_CHUNK_LENGTH ∧ pl ≤ MAX_PIECE_LENGTH ∧ pl `mod` DEFAULT_CHUNK_LENGTH = 0.
Proof.
  split; [by intros (? & ? & ? & _)%validate_geometry_Ok|]. intros (-> & Hmax & Hm). unfold validate_geometry. cbn [N.eqb negb].
  rewrite N.eqb_refl, (proj2 (N.ltb_ge _ _)) by done. unfold is_multiple_of. cbn [N.eqb DEFAULT_CHUNK_LENGTH].
  rewrite Hm. cbn [negb N.eqb]. rewrite (proj2 (N.ltb_ge _ _)); [done|].
  apply N.Div0.div_le_upper_bound. unfold MAX_PIECE_LENGTH, DEFAULT_CHUNK_LENGTH in *. lia.
Qed.

Lemma validate_geometry_Err pl cl e : validate_geometry pl cl = Err e → ∃ r, e = TransportErr r.
Proof. unfold validate_geometry. repeat (destruct (_ : bool); [intros [= <-]; by eexists|]). done. Qed.

Lemma whole_chunks pl : pl ≤ MAX_PIECE_LENGTH → pl `mod` DEFAULT_CHUNK_LENGTH = 0 →
  pl `div` DEFAULT_CHUNK_LENGTH `mod` two16 * DEFAULT_CHUNK_LENGTH = pl.
Proof.
  intros Hm H0. pose proof (N.div_mod pl DEFAULT_CHUNK_LENGTH ltac:(done)) as E.
  assert (pl `div` DEFAULT_CHUNK_LENGTH ≤ 512).
  { apply N.Div0.div_le_upper_bound. unfold MAX_PIECE_LENGTH, DEFAULT_CHUNK_LENGTH in *. lia. }
  rewrite N.mod_small by lia. lia.
Qed.

Lemma title_bounded b t : normalized_title (from_utf8_lossy b) = Some t →
  (length t ≤ MAX_TITLE_BYTES)%nat ∧ utf8_valid t = true.
Proof. apply bounded_text_ok. Qed.

Section DescriptorLemmas.
Context `{Crypto} `{Cbc}.

Lemma decoded_Ok b d p : decoded b = Ok (d, p) → decode_transport b = Ok d ∧ Transport.protection d = Ok p.
Proof.
  unfold decoded. intros (d' & E1%map_err_Ok & (p' & E2%map_err_Ok & [= <- <-])%bind_Ok_inv)%bind_Ok_inv. done.
Qed.

Lemma vod_info_protection b v : vod_info_from_transport b = Ok v → is_Some (vod_protection v).
Proof.
  unfold vod_info_from_transport. destruct (is_transport_file b); cbn [negb].
  - intros ([d p] & _ & E)%bind_Ok_inv. destruct (is_live d); [done|]. destruct (is_multifile d); [done|].
    apply bind_Ok_inv in E as (? & _ & E). apply bind_Ok_inv in E as (? & _ & E). apply bind_Ok_inv in E as (? & _ & [= <-]). by eexists.
  - intros (m & _ & (? & _ & [= <-])%bind_Ok_inv)%bind_Ok_inv. by eexists.
Qed.

Lemma stream_info_Ok b i : stream_info_from_transport b = Ok i →
  ∃ d p, is_transport_file b = true ∧ decoded b = Ok (d, p) ∧ validate_geometry (td_piece_length d) (td_chunk_length d) = Ok () ∧
    descriptor_infohash d = Ok (str_infohash i) ∧ str_protection i = Some p ∧
    str_piece_length i = td_piece_length d ∧ str_chunk_length i = td_chunk_length d ∧
    title (metadata i) = normalized_title (td_name d) ∧ bitrate (metadata i) = positive_bitrate (td_bitrate d) ∧
    str_sig_len i = default 0%nat (signature_len_from_pubkey_der (td_pubkey d)) ∧
    str_source_pubkey i = (if signature_len_from_pubkey_der (td_pubkey d) then td_pubkey d else []).
Proof.
  unfold stream_info_from_transport. destruct (is_transport_file b); cbn [negb].
  - intros ([d p] & E & ([] & Hg & (ih & Hi & [= <-])%bind_Ok_inv)%bind_Ok_inv)%bind_Ok_inv. exists d, p. by split_and!.
  - intros (v & _ & (? & _ & E)%bind_Ok_inv)%bind_Ok_inv. done.
Qed.
End DescriptorLemmas.

(** ** Theorems on descriptors *)

Section DescriptorTheorems.
Context `{Crypto} `{Cbc}.

(** a resolved live stream is sound.  Whatever the descriptor bytes, a stream description is
    that of the decoded descriptor: its infohash and protection are the descriptor's, chunks are
    16 KiB, a piece is between one and 512 whole chunks and at most 8 MiB, so the chunk count
    fits its 16 bits; pieces are verified exactly when the public key parses, with the signature
    length of that key; the title is non-empty-or-absent UTF-8 of at most 256 bytes and the bitrate positive. *)
Theorem resolved_stream_sound b i :
  stream_info_from_transport b = Ok i →
  ∃ d p, decode_transport b = Ok d ∧ infohash_of_decoded_transport sha1 d = Ok (str_infohash i) ∧
    Transport.protection d = Ok p ∧ str_protection i = Some p ∧
    str_chunk_length i = DEFAULT_CHUNK_LENGTH ∧ 0 < str_piece_length i ≤ MAX_PIECE_LENGTH ∧
    chunks_per_piece i * DEFAULT_CHUNK_LENGTH = str_piece_length i ∧ 1 ≤ chunks_per_piece i ≤ 512 ∧
    (from_public_key_der (td_pubkey d) = None ∧ str_sig_len i = 0%nat ∧ str_source_pubkey i = [] ∨
     ∃ k, from_public_key_der (str_source_pubkey i) = Some k ∧ str_source_pubkey i = td_pubkey d ∧ str_sig_len i = public_size k) ∧
    (∀ t, title (metadata i) = Some t → (length t ≤ MAX_TITLE_BYTES)%nat ∧ utf8_valid t = true) ∧
    (∀ n, bitrate (metadata i) = Some n → 0 < n).
Proof.
  intros (d & p & _ & [Hd Hp]%decoded_Ok & Hg & Hi & Hpr & Hpl & Hcl & Ht & Hb & Hs & Hk)%stream_info_Ok.
  apply validate_geometry_iff in Hg as (Hc & Hmax & Hm). apply map_err_Ok in Hi.
  pose proof (decode_transport_inv _ _ _ _ Hd) as (Hwf & _ & Hpos & _ & _ & _ & _ & Hname & _).
  destruct (required_positive_Ok _ _ _ Hwf Hpos) as (Hpos' & _ & _).
  assert (chunks_per_piece i * DEFAULT_CHUNK_LENGTH = str_piece_length i) as Hw.
  { unfold chunks_per_piece. rewrite Hpl, Hcl, Hc. by apply whole_chunks. }
  exists d, p. rewrite <-Hpl in *. split_and!; try done.
  - by rewrite Hcl.
  - destruct (N.eq_dec (chunks_per_piece i) 0) as [E|E]; [rewrite E in Hw|]; lia.
  - unfold MAX_PIECE_LENGTH, DEFAULT_CHUNK_LENGTH in *. lia.
  - unfold signature_len_from_pubkey_der in Hs, Hk. destruct (from_public_key_der (td_pubkey d)) as [k|] eqn:E; cbn in Hs, Hk.
    + right. exists k. by rewrite Hk.
    + by left.
  - intros t. rewrite Ht, Hname. destruct (get (td_raw d) (bs "name") ≫= as_bytes); [apply title_bounded|done].
  - intros n. rewrite Hb. unfold positive_bitrate. intros (z & _ & E)%bind_Some. destruct (Z.ltb_spec 0 z); [|done]. injection E as <-. lia.
Qed.

(** C30: the three readers of a descriptor agree.  A wrapped transport file is accepted by the live reader exactly
    when the inspection accepts it, whether it is live or on-demand and whether it is protected or not, with the same
    infohash and protection, and is refused for the same reason; the on-demand reader accepts only what the
    inspection calls on-demand, with the same infohash and protection, refuses a live one, and refuses an invalid
    protection field as such.  A bare torrent is inspected exactly as the on-demand reader reads it, errors included;
    the live reader refuses every one: with the same error, as protected when it is protected, and as not live
    otherwise. *)
Theorem descriptor_readers_agree b :
  if is_transport_file b then
    match inspect_descriptor b with
    | Ok (ih, live, p) =>
        (∃ i, stream_info_from_transport b = Ok i ∧ str_infohash i = ih ∧ str_protection i = Some p) ∧
        (live = true → vod_info_from_transport b = Err (TransportErr "not a VOD transport (no pieces)"))
    | Err e =>
        stream_info_from_transport b = Err e ∧ (e = ProtectionInvalid → vod_info_from_transport b = Err ProtectionInvalid)
    end ∧
    (∀ v, vod_info_from_transport b = Ok v → ∃ p, inspect_descriptor b = Ok (vod_infohash v, false, p) ∧ vod_protection v = Some p)
  else
    match vod_info_from_transport b with
    | Ok v => ∃ p, vod_protection v = Some p ∧ inspect_descriptor b = Ok (vod_infohash v, false, p) ∧
        stream_info_from_transport b = Err (match p with Protected => ProtectedContent | Public => TransportErr "not a live transport" end)
    | Err e => inspect_descriptor b = Err e ∧ stream_info_from_transport b = Err e
    end.
Proof.
  pose proof (vod_info_protection b) as Hprot. unfold stream_info_from_transport, inspect_descriptor.
  destruct (is_transport_file b) eqn:Hf; cbn [negb].
  - clear Hprot. unfold vod_info_from_transport. rewrite Hf. cbn [negb]. destruct (decoded b) as [[d p]|e] eqn:Ed; cbn [mbind result_bind] in *;
      [|split_and!; intros; simplify_eq; done].
    destruct (validate_geometry _ _) as [[]|e] eqn:Eg; cbn [mbind result_bind].
    2: { apply validate_geometry_Err in Eg as [r ->]. split_and!; try (intros; simplify_eq; done).
         destruct (is_live d); [done|]. by destruct (is_multifile d). }
    destruct (descriptor_infohash d) as [ih|e] eqn:Ei; cbn [mbind result_bind].
    + split_and!.
      * by eexists.
      * by intros ->.
      * intros v. destruct (is_live d) eqn:El; [done|]. destruct (is_multifile d); [done|].
        intros (t & _ & [= <-])%bind_Ok_inv. by eexists.
    + split_and!; [done| |].
      * intros ->. unfold descriptor_infohash in Ei. by apply map_err_Err in Ei as (? & _ & ?).
      * intros v. destruct (is_live d); [done|]. destruct (is_multifile d); [done|].
        by intros (t & _ & E)%bind_Ok_inv.
  - destruct (vod_info_from_transport b) as [v|e]; cbn [mbind result_bind]; [|done].
    destruct (Hprot v eq_refl) as [p Hp]. rewrite Hp. cbn [ensure_playable]. exists p. by destruct p.
Qed.
End DescriptorTheorems.

(** ** Content ids, theorems *)

(** Lowercase hexadecimal digits, the high half of a byte first: what [hex::encode] documents. *)
Definition hex_text (l : bytes) : bytes := concat (map hex_byte l).

Lemma hex_digit_spec n : n < 16 →
  hex_value (hex_digit n) = Some n ∧ is_cont (hex_digit n) = false ∧ hex_digit n ≠ x2b.
Proof.
  intros Hn. assert (forallb (λ n, bool_decide (hex_value (hex_digit n) = Some n) && negb (is_cont (hex_digit n))
    && negb (bool_decide (hex_digit n = x2b))) (range 0 16) = true) as H by (vm_compute; done).
  rewrite forallb_Forall, Forall_forall in H. specialize (H n). rewrite elem_of_range in H. specialize (H ltac:(lia)).
  rewrite !andb_true_iff, !negb_true_iff, bool_decide_eq_true, bool_decide_eq_false in H. tauto.
Qed.

Lemma byte_halves b : byte_N b `div` 16 < 16 ∧ byte_N b `mod` 16 < 16 ∧ byte_N b `div` 16 * 16 + byte_N b `mod` 16 = byte_N b.
Proof.
  pose proof (byte_N_lt b). split_and!; [apply N.Div0.div_lt_upper_bound; lia|by apply N.mod_lt|].
  pose proof (N.div_mod (byte_N b) 16 ltac:(done)). lia.
Qed.

Lemma from_str_radix_hex b : from_str_radix_16 256 (hex_byte b) = Some (byte_N b).
Proof.
  destruct (byte_halves b) as (H1 & H2 & H3). unfold hex_byte. cbn [from_str_radix_16].
  destruct (hex_digit_spec _ H1) as (E1 & _ & Hne). rewrite bool_decide_false by done. cbn [hex_digits]. rewrite E1.
  cbn [mbind option_bind]. rewrite (proj2 (N.ltb_lt _ _)) by lia. destruct (hex_digit_spec _ H2) as (E2 & _ & _). rewrite E2.
  cbn [mbind option_bind]. pose proof (byte_N_lt b). rewrite (proj2 (N.ltb_lt _ _)) by lia. f_equal. lia.
Qed.

Lemma hex_text_length l : length (hex_text l) = (2 * length l)%nat.
Proof. unfold hex_text. induction l as [|b l IH]; [done|]. cbn [map concat length]. rewrite length_app, IH. cbn. lia. Qed.

Lemma hex_text_ascii l b : b ∈ hex_text l → is_cont b = false.
Proof.
  unfold hex_text. rewrite list_elem_of_In, in_concat. intros (x & (c & <- & _)%in_map_iff & Hb).
  destruct (byte_halves c) as (H1 & H2 & _). destruct Hb as [<-|[<-|[]]]; by apply hex_digit_spec.
Qed.

Lemma ascii_boundary l i : (∀ b, b ∈ l → is_cont b = false) → (i ≤ length l)%nat → is_char_boundary l i = true.
Proof.
  intros Hl Hi. destruct (decide (i < length l)%nat) as [[b Hb]%lookup_lt_is_Some_2|].
  - eapply boundary_noncont; [exact Hb|]. apply Hl. by eapply list_elem_of_lookup_2.
  - assert (i = length l) as -> by lia. unfold is_char_boundary. rewrite lookup_ge_None_2 by lia. apply bool_decide_eq_true. by right.
Qed.

Lemma str_slice_ascii l1 l2 l3 a b : (∀ c, c ∈ l1 ++ l2 ++ l3 → is_cont c = false) → length l1 = a → (a + length l2)%nat = b →
  str_slice (l1 ++ l2 ++ l3) a b = Some l2.
Proof.
  intros Hl <- <-. unfold str_slice. rewrite !ascii_boundary by (done || rewrite !length_app; lia).
  rewrite bool_decide_true by (rewrite !length_app; lia). cbn [andb]. f_equal. apply slice_app_mid.
Qed.

Lemma hex_pairs_S hex i n : hex_pairs hex i (S n) =
  (s ← str_slice hex (i * 2) (i * 2 + 2);
   match from_str_radix_16 256 s with
   | None => Some None
   | Some v => rest ← hex_pairs hex (S i) n; Some ((λ r, N_byte v :: r) <$> rest)
   end).
Proof. done. Qed.

Lemma hex_pairs_hex r : ∀ pre i, (∀ b, b ∈ pre → is_cont b = false) → length pre = (i * 2)%nat →
  hex_pairs (pre ++ hex_text r) i (length r) = Some (Some r).
Proof.
  induction r as [|b r IH]; intros pre i Hpre Hi; [done|]. cbn [length hex_pairs].
  change (hex_text (b :: r)) with (hex_byte b ++ hex_text r).
  assert (∀ c, c ∈ pre ++ hex_byte b ++ hex_text r → is_cont c = false) as Hall.
  { intros c [Hc|Hc]%elem_of_app; [by apply Hpre|]. by apply (hex_text_ascii (b :: r)). }
  rewrite (str_slice_ascii pre (hex_byte b)) by done. cbn [mbind option_bind]. rewrite from_str_radix_hex, app_assoc.
  rewrite (IH (pre ++ hex_byte b) (S i)).
  - cbn. by rewrite N_byte_of_byte.
  - intros c Hc. apply Hall. rewrite app_assoc. apply elem_of_app. by left.
  - rewrite length_app. cbn [length hex_byte]. lia.
Qed.

(** content ids round-trip, and a malformed one can panic.  The hexadecimal form of every 20-byte id decodes to it;
    but [decode_hex20] checks only the byte length before it slices the text, so a 40-byte text whose second byte is
    inside a character makes the slice panic, and a pair with a plus sign is accepted as a digit. *)
Theorem content_ids_roundtrip hex_encode ih rest :
  (∀ l, hex_encode l = hex_text l) →
  (length ih = 20%nat → hex20 (infohash_hex hex_encode ih) = Some (Ok ih)) ∧
  (length rest = 37%nat → hex20 (bs "0" ++ map N_byte [0xE2; 0x82; 0xAC] ++ take 36 rest) = None) ∧
  (length ih = 19%nat → hex20 (bs "+a" ++ hex_text ih) = Some (Ok (x0a :: ih))).
Proof.
  intros Hex. unfold hex20, decode_hex20, infohash_hex. split_and!; intros Hl.
  - rewrite Hex, hex_text_length, Hl. cbn [negb]. rewrite bool_decide_true by done. cbn [negb].
    pose proof (hex_pairs_hex ih [] 0) as E. rewrite Hl in E. cbn [app] in E. rewrite E; [done|set_solver|done].
  - rewrite bool_decide_true by (rewrite !length_app, length_map, length_take; cbn [length]; rewrite Hl; done). done.
  - rewrite bool_decide_true by (rewrite length_app, hex_text_length; change (length (bs "+a")) with 2%nat; lia). cbn [negb].
    assert (∀ b, b ∈ bs "+a" → is_cont b = false) as Hp
      by (intros b Hb; assert (b = x2b ∨ b = x61) as [->| ->] by set_solver; done).
    assert (str_slice (bs "+a" ++ hex_text ih) 0 2 = Some (bs "+a")) as Hs.
    { apply (str_slice_ascii [] (bs "+a") (hex_text ih)); [|done|done].
      intros c [[]%elem_of_nil|[Hc|Hc]%elem_of_app]%elem_of_app; [by apply Hp|by apply (hex_text_ascii ih)]. }
    rewrite hex_pairs_S. change (0 * 2)%nat with 0%nat. change (0 + 2)%nat with 2%nat. rewrite Hs.
    pose proof (hex_pairs_hex ih (bs "+a") 1 Hp eq_refl) as E. rewrite Hl in E.
    cbn [mbind option_bind]. by rewrite E.
Qed.

Lemma content_ids_roundtrip_witness : hex20 (infohash_hex hex_text (bs "01234567890123456789")) = Some (Ok (bs "01234567890123456789")).
Proof. apply (content_ids_roundtrip hex_text (bs "01234567890123456789") []); done. Defined.

(** ** Chunked bodies, theorems *)

(** The size a chunk line announces. *)
Definition line_size (line : bytes) : option N := from_str_radix_16 two64 (trim (default [] (head (split_on x3b line)))).

(** A chunk line as a server writes it: one line of text, with the size of the data. *)
Definition size_line (line : bytes) (n : N) : Prop := x0d ∉ line ∧ utf8_valid line = true ∧ line_size line = Some n.

Definition chunk_text (c : bytes * bytes) : bytes := c.1 ++ CRLF ++ c.2 ++ CRLF.

Lemma starts_with_cons {A} `{EqDecision A} (x : A) l y p : starts_with (x :: l) (y :: p) = true → x = y.
Proof. intros [r E]%starts_with_true. by injection E. Qed.

Lemma find_crlf_line line rest : x0d ∉ line → find_crlf (line ++ CRLF ++ rest) = Some (length line).
Proof.
  unfold find_crlf. induction line as [|b line IH]; intros Hn.
  - cbn [app find_sub CRLF]. unfold starts_with. cbn [length take CRLF]. by rewrite take_0, !bool_decide_true by (done || cbn; lia).
  - apply not_elem_of_cons in Hn as [Hb Hn]. cbn [app find_sub]. 
    assert (starts_with (b :: line ++ CRLF ++ rest) CRLF = false) as ->.
    { apply not_true_iff_false. intros H%starts_with_cons. done. }
    cbn [andb]. by rewrite IH.
Qed.

Lemma decode_chunked_turn fuel line rest out n : size_line line n →
  decode_chunked (S fuel) (line ++ CRLF ++ rest) out =
  if n =? 0 then Some (Ok out)
  else if lenN rest <? (n + 2) `mod` two64 then Some (Err (Catalog "truncated chunk"))
  else if lenN rest <? n then None
  else if negb (bool_decide (slice rest (N.to_nat n) (N.to_nat n + 2) = CRLF)) then Some (Err (Catalog "bad chunk terminator"))
  else decode_chunked fuel (drop (N.to_nat n + 2) rest) (out ++ take (N.to_nat n) rest).
Proof.
  intros (Hn & Hu & Hs). cbn [decode_chunked]. rewrite find_crlf_line by done. rewrite take_app_length, Hu. cbn [negb].
  unfold line_size in Hs. rewrite Hs. rewrite app_assoc, drop_app_length' by (by rewrite length_app). done.
Qed.

Lemma decode_chunked_parts chunks last rest fuel out :
  Forall (λ c, size_line c.1 (lenN c.2) ∧ c.2 ≠ [] ∧ lenN c.2 + 2 < two64) chunks → size_line last 0 →
  (length chunks < fuel)%nat →
  decode_chunked fuel (concat (chunk_text <$> chunks) ++ last ++ CRLF ++ rest) out = Some (Ok (out ++ concat (snd <$> chunks))).
Proof.
  intros Hc Hl. revert fuel out. induction Hc as [|[line data] chunks (Hs & Hne & Hb) _ IH]; intros fuel out Hf.
  - destruct fuel; [lia|]. cbn [fmap list_fmap concat app]. rewrite app_nil_r, (decode_chunked_turn _ _ _ _ 0 Hl). done.
  - cbn [length] in Hf. destruct fuel as [|fuel]; [lia|]. cbn [fmap list_fmap concat fst snd] in *.
    unfold chunk_text at 1. cbn [fst snd]. rewrite <-!app_assoc. rewrite (decode_chunked_turn _ _ _ _ _ Hs).
    assert (lenN data ≠ 0) by (destruct data; [done|unfold lenN; cbn [length]; lia]).
    rewrite (proj2 (N.eqb_neq _ _)) by done. rewrite N.mod_small by done.
    rewrite (proj2 (N.ltb_ge _ _)) by (unfold lenN; rewrite !length_app; cbn [length CRLF]; lia).
    rewrite (proj2 (N.ltb_ge _ _)) by (unfold lenN; rewrite !length_app; lia).
    unfold lenN. rewrite Nat2N.id. rewrite bool_decide_true by (apply slice_of_parts; [done|cbn; lia]). cbn [negb].
    rewrite take_app_length. rewrite app_assoc, drop_app_length' by (rewrite length_app; cbn; lia).
    rewrite IH by lia. by rewrite <-app_assoc.
Qed.

(** chunked bodies decode to their data, and one length panics.  A body written as any number of chunks, each a
    size line with optional extension and white space and its data, then a zero line, decodes to the data in order,
    whatever follows; but the sum [size + 2] wraps for the largest sizes, so a chunk line of sixteen [f] followed by
    anything passes the length check and the slice panics. *)
Theorem chunked_body_decodes chunks last rest more :
  (Forall (λ c, size_line c.1 (lenN c.2) ∧ c.2 ≠ [] ∧ lenN c.2 + 2 < two64) chunks → size_line last 0 →
    decode_chunked_body (concat (chunk_text <$> chunks) ++ last ++ CRLF ++ rest) = Some (Ok (concat (snd <$> chunks)))) ∧
  (0 < lenN more < two64 - 2 → decode_chunked_body (bs "ffffffffffffffff" ++ CRLF ++ more) = None).
Proof.
  split.
  - intros Hc Hl. unfold decode_chunked_body. apply (decode_chunked_parts chunks last rest _ []); [done|done|].
    apply Nat.lt_succ_r. rewrite length_app. etrans; [|apply Nat.le_add_r].
    clear Hl. induction Hc as [|[line data] chunks _ _ IH]; [done|]. cbn [fmap list_fmap concat length].
    rewrite length_app. unfold chunk_text at 1. cbn [fst snd]. rewrite !length_app. cbn [CRLF length]. lia.
  - intros Hm. unfold decode_chunked_body. rewrite (decode_chunked_turn _ _ _ _ (two64 - 1)).
    + rewrite (proj2 (N.eqb_neq _ _)) by done. rewrite (proj2 (N.ltb_ge _ _)) by (change ((two64 - 1 + 2) `mod` two64) with 1; lia).
      by rewrite (proj2 (N.ltb_lt _ _)) by lia.
    + split_and!; [|by vm_compute|by vm_compute]. intros Hin. vm_compute in Hin. set_solver.
Qed.

(** ** The caches, theorems *)

(** The specification: the descriptors stored last, one per infohash, newest first. *)
Fixpoint distinct (l : list StreamInfo) : list StreamInfo :=
  match l with
  | [] => []
  | i :: l => i :: filter (λ e, str_infohash e ≠ str_infohash i) (distinct l)
  end.

Definition has_hash (h : bytes) (e : StreamInfo) : bool := bool_decide (str_infohash e = h).

Lemma distinct_NoDup l : NoDup (str_infohash <$> distinct l).
Proof.
  induction l as [|i l IH]; [constructor|]. cbn [distinct]. rewrite fmap_cons. apply NoDup_cons. split.
  - rewrite list_elem_of_fmap. intros (e & E & [Hne _]%list_elem_of_filter). by rewrite E in Hne.
  - eapply sublist_NoDup; [exact IH|]. apply fmap_sublist, sublist_filter.
Qed.

Lemma filter_absent h (l : list StreamInfo) : h ∉ (str_infohash <$> l) → filter (λ e, str_infohash e ≠ h) l = l.
Proof.
  induction l as [|e l IH]; intros Hn; [done|]. rewrite fmap_cons in Hn. apply not_elem_of_cons in Hn as [Hne Hn].
  rewrite filter_cons_True by congruence. by rewrite IH.
Qed.

(** Removing a hash and then the oldest of a full list is truncating the list without that hash. *)
Lemma truncate_without h k D : NoDup (str_infohash <$> D) → (0 < k)%nat →
  let F := filter (λ e, str_infohash e ≠ h) (take k D) in
  take (k - 1) (filter (λ e, str_infohash e ≠ h) D) = if bool_decide (k ≤ length F)%nat then take (k - 1) F else F.
Proof.
  revert k. induction D as [|d D IH]; intros k Hnd Hk F; unfold F; clear F.
  { rewrite take_nil. cbn. rewrite take_nil. by case_bool_decide. }
  rewrite fmap_cons in Hnd. apply NoDup_cons in Hnd as [Hd Hnd]. destruct k as [|k]; [lia|]. cbn [take]. rewrite Nat.sub_succ, Nat.sub_0_r.
  rewrite !filter_cons. destruct (decide (str_infohash d ≠ h)) as [Hne|Heq%dec_stable].
  - destruct k as [|k]; [cbn; by rewrite bool_decide_true by lia|]. cbn [take length]. specialize (IH (S k) Hnd ltac:(lia)). cbn zeta in IH.
    rewrite Nat.sub_succ, Nat.sub_0_r in IH. rewrite IH. repeat case_bool_decide; try lia; done.
  - rewrite (filter_absent h D) by (by rewrite <-Heq).
    rewrite (filter_absent h (take k D)).
    + rewrite bool_decide_false; [done|]. rewrite length_take. lia.
    + rewrite <-Heq. intros H. apply Hd. rewrite fmap_take in H. eapply elem_of_sublist; [exact H|apply sublist_take].
Qed.

Lemma tail_rev (F : list StreamInfo) : tail (rev F) = rev (take (length F - 1) F).
Proof.
  destruct F as [|z F _] using rev_ind; [done|]. rewrite rev_app_distr, length_app, Nat.add_sub. cbn [rev app tail].
  by rewrite take_app_length.
Qed.

Lemma filter_rev_infos (P : StreamInfo → Prop) `{∀ x, Decision (P x)} (l : list StreamInfo) : filter P (rev l) = rev (filter P l).
Proof.
  assert (∀ k : list StreamInfo, rev k = reverse k) as E by (intros k; apply rev_alt). rewrite !E. apply filter_reverse.
Qed.

Lemma index_entries_spec c infos :
  index_entries (foldl index_put (index_new c) infos) = rev (take (c `max` 1) (distinct (rev infos))) ∧
  capacity (foldl index_put (index_new c) infos) = (c `max` 1)%nat.
Proof.
  induction infos as [|i infos IH] using rev_ind; [cbn; by rewrite take_nil|]. destruct IH as [IH1 IH2].
  rewrite foldl_app. cbn [foldl]. set (x := foldl index_put (index_new c) infos) in *. unfold index_put. rewrite IH2. cbn [capacity index_entries]. split; [|done].
  rewrite IH1, rev_app_distr. cbn [rev app distinct]. rewrite filter_rev_infos.
  assert (∃ k, (c `max` 1)%nat = S k) as [k ->] by (exists (c `max` 1 - 1)%nat; lia). cbn [take rev]. f_equal.
  rewrite length_rev. pose proof (truncate_without (str_infohash i) (S k) (distinct (rev infos)) (distinct_NoDup _) ltac:(lia)) as E.
  cbn zeta in E. rewrite Nat.sub_succ, Nat.sub_0_r in E. rewrite E.
  case_bool_decide as Hc; [|done]. rewrite tail_rev. do 2 f_equal.
  pose proof (length_filter (λ e, str_infohash e ≠ str_infohash i) (take (S k) (distinct (rev infos)))) as Hf. rewrite length_take in Hf. lia.
Qed.

Lemma find_unique (l : list StreamInfo) h e : NoDup (str_infohash <$> l) → e ∈ l → str_infohash e = h → find (has_hash h) l = Some e.
Proof.
  induction l as [|x l IH]; intros Hnd He Hh; [by apply elem_of_nil in He|]. rewrite fmap_cons in Hnd. apply NoDup_cons in Hnd as [Hx Hnd].
  cbn [find]. unfold has_hash at 1. case_bool_decide as E.
  - apply elem_of_cons in He as [->|He]; [done|]. destruct Hx. rewrite E, <-Hh. by apply list_elem_of_fmap_2.
  - apply IH; [done| |done]. apply elem_of_cons in He as [->|He]; [done|exact He].
Qed.

Lemma find_same (l1 l2 : list StreamInfo) h : NoDup (str_infohash <$> l1) → NoDup (str_infohash <$> l2) → (∀ e, e ∈ l1 ↔ e ∈ l2) →
  find (has_hash h) l1 = find (has_hash h) l2.
Proof.
  intros H1 H2 He. destruct (find (has_hash h) l2) as [e|] eqn:E.
  - apply List.find_some in E as [Hin%list_elem_of_In Hh%bool_decide_eq_true]. apply find_unique; [done|by apply He|done].
  - destruct (find (has_hash h) l1) as [e|] eqn:E1; [|done]. apply List.find_some in E1 as [Hin%list_elem_of_In Hh].
    apply He, list_elem_of_In in Hin. by rewrite (List.find_none _ _ E _ Hin) in Hh.
Qed.

(** the infohash index is the most recent descriptors.  After any sequence of stores it holds at most its capacity,
    one descriptor per infohash, and a lookup answers what the specification answers: the descriptor stored last for
    that infohash, if it is among the most recently stored infohashes. *)
Theorem infohash_index_recent c infos h :
  let x := foldl index_put (index_new c) infos in
  (length (index_entries x) ≤ c `max` 1)%nat ∧ NoDup (str_infohash <$> index_entries x) ∧
  index_get x h = find (has_hash h) (take (c `max` 1) (distinct (rev infos))).
Proof.
  intros x. unfold x, index_get. rewrite (proj1 (index_entries_spec c infos)). set (D := take _ _).
  assert (NoDup (str_infohash <$> D)) as HD.
  { unfold D. rewrite fmap_take. eapply sublist_NoDup; [apply distinct_NoDup|apply sublist_take]. }
  assert (NoDup (str_infohash <$> rev D)) as HR.
  { by rewrite <-(Permutation_rev D). }
  split_and!; [rewrite length_rev; unfold D; rewrite length_take; lia|done|].
  apply find_same; [done..|]. intros e. rewrite !list_elem_of_In. by rewrite <-in_rev.
Qed.

(** ** Witness *)

Lemma resolved_stream_sound_witness :
  ∃ i, @stream_info_from_transport toy_crypto toy_cbc (@encode_transport toy_cbc sample_descriptor) = Ok i ∧
    str_chunk_length i = DEFAULT_CHUNK_LENGTH ∧ chunks_per_piece i * DEFAULT_CHUNK_LENGTH = str_piece_length i.
Proof.
  eexists. split; [vm_compute; reflexivity|].
  edestruct (@resolved_stream_sound toy_crypto toy_cbc (@encode_transport toy_cbc sample_descriptor)) as (d & p & _ & _ & _ & _ & H1 & _ & H2 & _).
  - vm_compute. reflexivity.
  - split; [exact H1|exact H2].
Defined.
