(* ===== verification/MetadataFetch.v ===== *)
(** * Descriptors from peers

    [transport_bytes_via_peer_with_policy], [read_metadata_params] and [checked_metadata_size] of
    [ace-swarm/src/resolve.rs]: the download of a descriptor over one peer connection, from the
    handshake to the hash check, on the sessions of [PeerSession].  The random peer id is an
    argument. *)

From S2P Require Import Prelude Order Bytes Wire Bencode UtMetadata Message Handshake Identity.
From S2P Require Import Extended LiveAuth Net PeerPolicy Transport PeerSession Resolve.

Local Open Scope N_scope.

Definition OUR_UT_METADATA_ID : Z := 2.
Definition HANDSHAKE_READ_BUDGET : nat := 32.

(** Session operations that fail with a [ResolveError]. *)
Definition ROp (A : Type) : Type := PeerSession → option (result ResolveError A * PeerSession).

#[export] Instance rop_ret : MRet ROp := λ A a s, Some (Ok a, s).
#[export] Instance rop_bind : MBind ROp := λ A B f m s,
  match m s with
  | Some (Ok a, s) => f a s
  | Some (Err e, s) => Some (Err e, s)
  | None => None
  end.

Definition rthrow {A} (e : ResolveError) : ROp A := λ s, Some (Err e, s).

(** [.map_err(|_| ResolveError::Peer(reason))]. *)
Definition or_peer {A} (m : Op A) (reason : string) : ROp A := λ s,
  '(r, s) ← m s; Some (map_err (λ _, PeerErr reason) r, s).

Definition checked_metadata_size (size : Z) : result ResolveError N :=
  if (size <=? 0)%Z || (Z.of_N MAX_METADATA_SIZE <? size)%Z then Err (PeerErr "invalid ut_metadata params") else Ok (Z.to_N size).

(** The parameters an extended handshake carries. *)
Definition metadata_params (payload : bytes) : result ResolveError (byte * N) :=
  eh ← map_err (λ _, PeerErr "bad extended handshake") (Extended.parse payload);
  ut_id ← ok_or (ut_metadata_id eh) (PeerErr "peer has no ut_metadata");
  size ← ok_or (metadata_size eh) (PeerErr "peer sent no metadata_size");
  if negb ((0 <=? ut_id)%Z && (ut_id <=? 255)%Z) then Err (PeerErr "invalid ut_metadata params")
  else n ← checked_metadata_size size; Ok (N_byte (Z.to_N ut_id), n).

Fixpoint read_params (budget : nat) : ROp (byte * N) :=
  match budget with
  | O => rthrow (PeerErr "no extended handshake")
  | S budget =>
      msg ← or_peer read_message "closed before extended handshake";
      match msg with
      | Message.Extended ext_id payload =>
          if byte_N ext_id =? 0 then λ s, Some (metadata_params payload, s) else read_params budget
      | _ => read_params budget
      end
  end.

Definition read_metadata_params : ROp (byte * N) := read_params HANDSHAKE_READ_BUDGET.

Section Fetch.
Context `{Crypto} `{NodeCrypto}.

Definition metadata_handshake (policy : PeerPolicy) : OutgoingExtendedHandshake :=
  let n := node_fields policy in
  mkOutgoing 1 OUR_UT_METADATA_ID None (mkNodeFields 5000 (v n) (pv n) (p n) (nt n) (platform n)) None None.

Definition checked_transport_file_hash (blob expected : bytes) : bool := bool_decide (transport_file_hash sha1 blob = expected).

Definition transport_bytes_via_peer (fuel : nat) (ih peer_id : bytes) (id : Identity) (policy : PeerPolicy) : ROp bytes :=
  _ ← or_peer (perform_handshake ih peer_id) "BT handshake failed";
  _ ← or_peer (send (Message.Extended x00 (sign_and_encode (metadata_handshake policy) id))) "send extended handshake failed";
  '(ut_id, size) ← read_metadata_params;
  blob ← or_peer (fetch_metadata fuel ut_id size) "ut_metadata fetch failed";
  if checked_transport_file_hash blob ih then mret blob else rthrow (PeerErr "metadata hash mismatch").
End Fetch.

(** ** Lemmas *)

Lemma rop_bind_ok {A B} (m : ROp A) (f : A → ROp B) s a s' : m s = Some (Ok a, s') → (m ≫= f) s = f a s'.
Proof. intros E. unfold mbind, rop_bind. by rewrite E. Qed.

Lemma rop_bind_Ok_inv {A B} (m : ROp A) (f : A → ROp B) s b s' : (m ≫= f) s = Some (Ok b, s') →
  ∃ a s1, m s = Some (Ok a, s1) ∧ f a s1 = Some (Ok b, s').
Proof. unfold mbind, rop_bind. destruct (m s) as [[[a|e] s1]|]; [eauto|done..]. Qed.

Lemma or_peer_ok {A} (m : Op A) r s a s' : m s = Some (Ok a, s') → or_peer m r s = Some (Ok a, s').
Proof. intros E. unfold or_peer. by rewrite E. Qed.

Lemma or_peer_Ok_inv {A} (m : Op A) r s a s' : or_peer m r s = Some (Ok a, s') → m s = Some (Ok a, s').
Proof. unfold or_peer. destruct (m s) as [[[x|e] t]|]; cbn; [by intros [= -> ->]|done..]. Qed.

Lemma checked_metadata_size_Ok z n : checked_metadata_size z = Ok n → 0 < n ≤ MAX_METADATA_SIZE ∧ z = Z.of_N n.
Proof.
  unfold checked_metadata_size. destruct (Z.leb_spec z 0); [done|]. cbn [orb]. destruct (Z.ltb_spec (Z.of_N MAX_METADATA_SIZE) z); [done|].
  intros [= <-]. lia.
Qed.

Lemma metadata_params_size payload id n : metadata_params payload = Ok (id, n) → 0 < n ≤ MAX_METADATA_SIZE.
Proof.
  unfold metadata_params. intros (eh & _ & (u & _ & (z & _ & E)%bind_Ok_inv)%bind_Ok_inv)%bind_Ok_inv. destruct (negb _); [done|].
  apply bind_Ok_inv in E as (k & Hk%checked_metadata_size_Ok & [= _ <-]). apply Hk.
Qed.

Lemma read_params_size budget s id n s' : read_params budget s = Some (Ok (id, n), s') → 0 < n ≤ MAX_METADATA_SIZE.
Proof.
  revert s. induction budget as [|budget IH]; intros s; cbn [read_params]; [done|].
  intros (m & s1 & _ & E)%rop_bind_Ok_inv. destruct m; try by eapply IH. destruct (_ =? 0); [|by eapply IH].
  injection E as E _. by eapply metadata_params_size.
Qed.

(** A message that is not an extended handshake. *)
Definition other_message (m : PeerMessage) : bool :=
  match m with Message.Extended ext_id _ => negb (byte_N ext_id =? 0) | _ => true end.

Lemma read_params_handshake pre payload r : forallb canonical pre = true → forallb other_message pre = true →
  canonical (Message.Extended x00 payload) = true → metadata_params payload = Ok r →
  ∀ budget s rest, (length pre < budget)%nat → pending s = frames pre ++ Message.encode (Message.Extended x00 payload) ++ rest →
  ∃ s', read_params budget s = Some (Ok r, s') ∧ pending s' = rest ∧ written s' = written s.
Proof.
  intros Hc Ho Hce Hp. induction pre as [|m pre IH]; intros budget s rest Hb E; (destruct budget as [|budget]; [lia|]); cbn [read_params].
  - destruct (read_message_frame _ s rest Hce E) as (s1 & H1 & H2 & _ & H3 & _). exists s1.
    rewrite (rop_bind_ok _ _ _ _ _ (or_peer_ok _ _ _ _ _ H1)). cbn [byte_N]. change (byte_N x00 =? 0) with true. by rewrite Hp.
  - cbn [forallb] in Hc, Ho. apply andb_true_iff in Hc as [Hm Hc], Ho as [Hom Ho].
    unfold frames in E. cbn [fmap list_fmap concat] in E. rewrite <-app_assoc in E.
    destruct (read_message_frame m s _ Hm E) as (s1 & H1 & H2 & _ & H3 & _).
    rewrite (rop_bind_ok _ _ _ _ _ (or_peer_ok _ _ _ _ _ H1)).
    destruct (IH Hc Ho budget s1 rest) as (s' & H4 & H5 & H6); [cbn [length] in Hb; lia|done|]. exists s'.
    split; [|split; [done|by rewrite H6]]. destruct m; try exact H4. cbn [other_message] in Hom. apply negb_true_iff in Hom. by rewrite Hom.
Qed.

(** ** Theorems *)

Section Theorems.
Context `{Crypto} `{NodeCrypto}.

(** C31: a descriptor fetched from a peer is the requested one.  Whatever the peer sends, a fetch that succeeds returns
    bytes whose SHA-1 is the identifier it was asked for, and no more than 1 MiB of them; a peer cannot substitute a
    descriptor or force a larger allocation. *)
Theorem fetched_descriptor_authentic fuel ih peer_id id policy s blob s' :
  transport_bytes_via_peer fuel ih peer_id id policy s = Some (Ok blob, s') → sha1 blob = ih ∧ lenN blob ≤ MAX_METADATA_SIZE.
Proof.
  unfold transport_bytes_via_peer, read_metadata_params.
  intros (hs & s1 & _ & ([] & s2 & _ & ([u n] & s3 & Hr & (b & s4 & Hf%or_peer_Ok_inv & E)%rop_bind_Ok_inv)%rop_bind_Ok_inv)%rop_bind_Ok_inv)%rop_bind_Ok_inv.
  unfold checked_transport_file_hash in E. case_bool_decide as Hh; [|done]. injection E as -> _. split; [exact Hh|].
  apply read_params_size in Hr. apply fetch_metadata_length in Hf as [->|Hz]; [lia|].
  destruct (div_ceil_bounds n METADATA_BLOCK_LEN) as (_ & Hb & _); [lia|done|]. unfold piece_count in Hz. lia.
Qed.

(** C32: a peer that holds the descriptor provides it.  When the peer answers the handshake, announces its metadata
    extension and the descriptor's size after at most 31 other messages, and sends the blocks in any order mixed with
    other traffic, the fetch succeeds with exactly the descriptor, however the bytes are cut. *)
Theorem descriptor_fetched_from_holder fuel data peer_id pa id policy s pre payload u ms rest :
  0 < lenN data → length (sha1 data) = 20%nat → length pa = 20%nat → protocol s = AceStream → buf s = [] →
  forallb canonical pre = true → forallb other_message pre = true → (length pre < HANDSHAKE_READ_BUDGET)%nat →
  canonical (Message.Extended x00 payload) = true → metadata_params payload = Ok (u, lenN data) →
  forallb canonical ms = true → Forall (honest data) ms → (length ms ≤ fuel)%nat →
  (∀ i, i < piece_count (lenN data) → Exists (sends_block data i) ms) →
  stream (incoming s) = Handshake.encode (new (sha1 data) pa) ++ frames pre ++ Message.encode (Message.Extended x00 payload) ++ frames ms ++ rest →
  ∃ s', transport_bytes_via_peer fuel (sha1 data) peer_id id policy s = Some (Ok data, s').
Proof.
  intros Hn Hih Hpa Hproto Hbuf Hcp Hop Hlen Hce Hparams Hcm Hh Hf Hall E. unfold transport_bytes_via_peer, read_metadata_params. set (budget := HANDSHAKE_READ_BUDGET) in *. clearbody budget.
  destruct (perform_handshake_spec (sha1 data) peer_id pa s _ Hih Hpa ltac:(rewrite Hproto; exact E)) as (l1 & H1 & H2 & _).
  rewrite (rop_bind_ok _ _ _ _ _ (or_peer_ok _ _ _ _ _ H1)).
  rewrite (rop_bind_ok _ _ _ _ _ (or_peer_ok (send _) _ _ _ _ eq_refl)).
  match goal with |- context [mbind _ (read_params _) ?t] => set (s2 := t) end.
  destruct (read_params_handshake pre payload _ Hcp Hop Hce Hparams budget s2 (frames ms ++ rest) Hlen) as (s3 & H3 & H4 & _).
  { unfold pending, s2. cbn [buf incoming]. by rewrite Hbuf. }
  rewrite (rop_bind_ok _ _ _ _ _ H3).
  destruct (fetch_metadata_honest data u s3 ms rest fuel Hcm Hh Hf Hall H4) as (s4 & H5 & _).
  rewrite (rop_bind_ok _ _ _ _ _ (or_peer_ok _ _ _ _ _ H5)). exists s4.
  unfold checked_transport_file_hash. by rewrite bool_decide_true.
Qed.
End Theorems.

(** ** Witnesses *)

(** A holder of [sample_blob] that first chokes, then announces its extension and sends the one block. *)
Definition holder_payload : bytes :=
  encode_payload (mkOutgoing 1 3 None NodeFields_default None (Some 18%Z)).
Definition holder_session : PeerSession :=
  session_new [Chunk (Handshake.encode (new (@sha1 wide_crypto sample_blob) acceptor_id)); Pause;
    Chunk (frames [Choke] ++ Message.encode (Message.Extended x00 holder_payload) ++ take 5 (frames blob_messages));
    Chunk (drop 5 (frames blob_messages))].
Definition fetcher : @Identity toy_node_crypto := @mkIdentity toy_node_crypto "k"%byte.

Lemma descriptor_fetched_from_holder_witness :
  ∃ s', @transport_bytes_via_peer wide_crypto toy_node_crypto 5 (@sha1 wide_crypto sample_blob) dialer_id fetcher PeerPolicy_default holder_session
    = Some (Ok sample_blob, s').
Proof.
  apply (@descriptor_fetched_from_holder wide_crypto toy_node_crypto 5 sample_blob dialer_id acceptor_id fetcher PeerPolicy_default holder_session
    [Choke] holder_payload x03 blob_messages []).
  1-7: vm_compute; reflexivity.
  1: { unfold HANDSHAKE_READ_BUDGET. cbn. lia. }
  1-3: vm_compute; reflexivity.
  - exact blob_messages_honest.
  - cbn. lia.
  - intros i Hi. change (piece_count (lenN sample_blob)) with 1 in Hi. assert (i = 0) as -> by lia.
    apply Exists_cons_tl, Exists_cons_hd. exists (Some 18%Z). by vm_compute.
  - vm_compute. reflexivity.
Defined.

Lemma fetched_descriptor_authentic_witness :
  ∃ s', @transport_bytes_via_peer wide_crypto toy_node_crypto 5 (@sha1 wide_crypto sample_blob) dialer_id fetcher PeerPolicy_default holder_session
      = Some (Ok sample_blob, s') ∧
    @sha1 wide_crypto sample_blob = @sha1 wide_crypto sample_blob ∧ lenN sample_blob ≤ MAX_METADATA_SIZE.
Proof.
  eexists. split; [vm_compute; reflexivity|].
  eapply (@fetched_descriptor_authentic wide_crypto toy_node_crypto 5 (@sha1 wide_crypto sample_blob) dialer_id fetcher PeerPolicy_default holder_session).
  vm_compute. reflexivity.
Defined.
