(* ===== verification/Playback.v ===== *)
(** * From a descriptor to a range of bytes

    The on-demand path end to end: what [vod_info_from_transport] of [ace-swarm/src/resolve.rs]
    accepts, as the downloader and the range reader of [ace-engine/src/ace_provider/vod.rs] use
    it. *)

From S2P Require Import Prelude Order Bytes Wire Bencode Text Metainfo Transport.
From S2P Require Import Handshake LiveAuth Net PeerPolicy Store Vod VodCoordinator VodRange Resolve.

Local Open Scope N_scope.

Section Playback.
Context `{Crypto} `{Cbc}.

Lemma torrent_info b v : vod_info_from_transport b = Ok v → is_transport_file b = false →
  ∃ input m, decode_metainfo sha1 input = Ok m ∧ Metainfo.piece_length m ≤ Resolve.MAX_PIECE_LENGTH ∧
    Metainfo.piece_length m `mod` DEFAULT_CHUNK_LENGTH = 0 ∧
    v = mkVodInfo (Some (Metainfo.protection m)) (Metainfo.infohash m) BitTorrent (Metainfo.piece_length m) DEFAULT_CHUNK_LENGTH
          (mi_trackers m) (piece_hashes m) (total_length m).
Proof.
  unfold vod_info_from_transport. intros E Hf. rewrite Hf in E. cbn [negb] in E.
  apply bind_Ok_inv in E as (m & Hm%map_err_Ok & E). apply bind_Ok_inv in E as ([] & (_ & Hmax & Hmod)%validate_geometry_iff & [= <-]).
  assert (∃ input, decode_metainfo sha1 input = Ok m) as [input Hi].
  { destruct (is_disk_envelope b); [|by eexists]. unfold decode_disk_metainfo in Hm. destruct (_ <? _); [done|].
    destruct (negb _); [done|]. destruct (bool_decide _); [done|]. destruct (negb _); [done|].
    apply bind_Ok_inv in Hm as (pt & _ & Hm). by eexists. }
  by exists input, m.
Qed.

(** a torrent describes its file.  Every torrent the on-demand reader accepts, bare or in a disk envelope, has
    whole 16 KiB blocks per piece, a chunk count that fits its 16 bits and exactly one hash per piece of its length;
    so a file of that length whose pieces have the listed hashes satisfies everything the downloader and the range
    reader assume of a descriptor. *)
Theorem torrent_describes_file b v content :
  vod_info_from_transport b = Ok v → is_transport_file b = false → vod_piece_count v ≤ two32 →
  lenN content = vod_total_length v →
  (∀ p, p < vod_piece_count v → vod_piece_hashes v !! N.to_nat p = Some (sha1 (piece_of v content p))) →
  Describes sha1 v content.
Proof.
  intros Hv Hf Hcount Hlen Hh. destruct (torrent_info b v Hv Hf) as (input & m & Hm & Hmax & Hmod & ->).
  destruct (metainfo_hash_count _ _ _ Hm) as (Ht & Hp & Hn & _). cbn [vod_total_length] in Hlen.
  split; cbn [vod_piece_length vod_chunk_length vod_total_length]; try done.
  - split; cbn [vod_piece_length vod_chunk_length]; [done| |done]. unfold Resolve.MAX_PIECE_LENGTH in Hmax. lia.
  - apply N.Div0.div_lt_upper_bound. unfold Resolve.MAX_PIECE_LENGTH, DEFAULT_CHUNK_LENGTH in *. lia.
  - by rewrite Hlen.
Qed.
End Playback.

(** A wrapped on-demand descriptor of two pieces that lists one hash. *)
Definition short_descriptor : Bencode := BDict
  [(bs "authmethod", BBytes (bs "RSA")); (bs "bitrate", BInt 9); (bs "chunk_length", BInt 16384); (bs "length", BInt 32768);
   (bs "name", BBytes (bs "n")); (bs "piece_length", BInt 16384); (bs "pieces", BBytes (replicate 20 x61)); (bs "pubkey", BBytes [])].

Lemma short_descriptor_accepted `{Crypto} `{CbcLaws} : ∃ v, vod_info_from_transport (encode_transport short_descriptor) = Ok v ∧
  vod_piece_length v = 16384 ∧ vod_total_length v = 32768 ∧ vod_piece_count v = 1.
Proof.
  destruct (decode_encoded_transport short_descriptor TRANSPORT_KEY TRANSPORT_IV 16384 16384) as (t & Ht & Hr & Hp & Hc & Hl);
    [first [vm_compute; reflexivity | unfold MAX_DEPTH; simpl; lia]..|].
  pose proof (decode_transport_inv _ _ _ _ Ht) as (_ & _ & _ & _ & _ & Hpieces & _).
  assert (is_transport_file (encode_transport short_descriptor) = true) as Hf by apply starts_with_app.
  unfold vod_info_from_transport, decoded. rewrite Hf.
  cbn [negb]. unfold decode_transport. unfold encode_transport. rewrite Ht. cbn [map_err mbind result_bind].
  unfold Transport.protection. rewrite Hr. change (classify (get short_descriptor (bs "premium"))) with (@Ok WireError _ Public).
  cbn [map_err mbind result_bind]. rewrite Hl. change (bool_decide (decode_pieces short_descriptor = [])) with false. cbv iota.
  unfold is_multifile. rewrite Hr. change (get short_descriptor (bs "files")) with (@None Bencode). cbv iota.
  rewrite Hp, Hc. change (validate_geometry 16384 16384) with (@Ok ResolveError _ ()). cbn [mbind result_bind].
  unfold Transport.vod_total_length. rewrite Hr. change (get short_descriptor (bs "length")) with (Some (BInt 32768)).
  cbn [as_int mbind option_bind]. change (0 <? 32768)%Z with true. cbv iota. cbn [ok_or mbind result_bind].
  unfold descriptor_infohash, infohash_of_decoded_transport, hash_descriptor. rewrite Hr, Hl.
  eexists. split; [reflexivity|]. split_and!; [done|done|]. unfold vod_piece_count. cbn [vod_piece_hashes]. rewrite Hpieces, Hr. by vm_compute.
Qed.

(** a short hash list ends a response early.  The on-demand reader accepts a wrapped descriptor whose hash list
    covers fewer bytes than its length.  For [short_descriptor], every reader with some peer is given a source for the
    uncovered range that announces its full length, the downloader succeeds without fetching anything, and the
    source ends without a byte. *)
Theorem short_hash_list_serves_nothing `{Crypto} `{CbcLaws} :
  ∃ v, vod_info_from_transport (encode_transport short_descriptor) = Ok v ∧
    vod_piece_count v * vod_piece_length v < vod_total_length v ∧
    ∀ st peers policy evs, peers ≠ [] → (∀ len, shared_block st (vod_piece_count v) 0 len = None) →
    let start := vod_piece_count v * vod_piece_length v in
    let finish := vod_total_length v - 1 in
    ∃ o, open_range v st peers start finish = Ok o ∧ op_emit o = finish - start + 1 ∧ 0 < op_emit o ∧
      fetch sha1 v peers policy evs (download o) = ([], true) ∧ body (source_of o []) = [].
Proof.
  destruct short_descriptor_accepted as (v & Hv & Hp & Ht & Hn). exists v.
  split; [exact Hv|]. rewrite Hp, Ht, Hn. split; [done|]. intros st peers policy evs Hpeers Hst start finish.
  change start with 16384. change finish with 32767. clear start finish.
  unfold open_range. rewrite Hp, Ht. change ((32768 =? 0) || (32767 <? 16384) || (32768 <=? 32767)) with false. cbv iota.
  change (16384 `div` 16384) with 1. change (32767 `div` 16384 + 1) with 2.
  assert (cached_prefix st v 1 2 = ([], 1)) as ->.
  { unfold cached_prefix. change (range 1 (2 - 1)) with [1]. cbn [cached_run]. by rewrite Hst. }
  change (1 <? 2) with true. cbv iota. rewrite bool_decide_false by done. eexists. split; [reflexivity|]. cbn [op_emit download].
  split_and!; [done|done| |done]. unfold fetch, download_start. rewrite Hn. done.
Qed.

(** ** Witnesses *)

Lemma short_hash_list_serves_nothing_witness :
  ∃ v, @vod_info_from_transport toy_crypto toy_cbc (@encode_transport toy_cbc short_descriptor) = Ok v ∧ vod_piece_count v * vod_piece_length v < vod_total_length v.
Proof.
  destruct (@short_hash_list_serves_nothing toy_crypto toy_cbc toy_cbc_laws) as (v & H1 & H2 & _). exists v. split; [exact H1|exact H2].
Defined.

(** A torrent of one five-byte piece. *)
Definition sample_content : bytes := bs "01234".
Definition sample_torrent : bytes :=
  bs "d8:announce10:udp://a:804:infod6:lengthi5e4:name1:x12:piece lengthi16384e6:pieces20:" ++
  sample_content ++ replicate 15 x00 ++ bs "ee".

Lemma torrent_describes_file_witness :
  ∃ v, @vod_info_from_transport wide_crypto toy_cbc sample_torrent = Ok v ∧ Describes (@sha1 wide_crypto) v sample_content.
Proof.
  eexists. split; [vm_compute; reflexivity|].
  apply (@torrent_describes_file wide_crypto toy_cbc sample_torrent); [vm_compute; reflexivity|vm_compute; reflexivity|by vm_compute|vm_compute; reflexivity|].
  intros p Hp. assert (p = 0) as -> by (unfold vod_piece_count, lenN in Hp; cbn [vod_piece_hashes length] in Hp; lia). vm_compute. reflexivity.
Defined.
