(* ===== verification/Dht.v ===== *)
(** * Peer lookup in the distributed hash table

    [ace-swarm/src/dht.rs]: the KRPC messages, and the iterative lookup that asks the closest nodes it
    knows for peers and for closer nodes.  The lookup is one task with local state; what it waits for
    (a resolved bootstrap host, a sent datagram, a datagram, a timer) is an event, and a node of the
    public network sends whatever it likes.  A [[u8; 20]] key of the ordered frontier is the number with
    those big-endian digits, which has the same order.  Readings of the clock (milliseconds) are
    arguments, and so is the random node id.  Sockets, host lookup and log lines are not modelled. *)

From S2P Require Import Prelude Order Bytes BTree Wire Bencode Net.

(** ** Messages *)

Definition BOOTSTRAP : nat := 4.
Definition DHT_PEER_TARGET : nat := 8.
Definition INFLIGHT_TTL : N := 3000.

Definition build_get_peers (node_id infohash txid : bytes) : bytes :=
  let a := dict_insert (bs "info_hash") (BBytes infohash) (dict_insert (bs "id") (BBytes node_id) []) in
  encode (BDict (dict_insert (bs "y") (BBytes (bs "q")) (dict_insert (bs "t") (BBytes txid)
    (dict_insert (bs "q") (BBytes (bs "get_peers")) (dict_insert (bs "a") (BDict a) []))))).

Definition build_announce_peer (node_id infohash : bytes) (port : N) (token txid : bytes) : bytes :=
  let a := dict_insert (bs "implied_port") (BInt 0) (dict_insert (bs "token") (BBytes token)
    (dict_insert (bs "port") (BInt (Z.of_N port)) (dict_insert (bs "info_hash") (BBytes infohash)
      (dict_insert (bs "id") (BBytes node_id) [])))) in
  encode (BDict (dict_insert (bs "y") (BBytes (bs "q")) (dict_insert (bs "t") (BBytes txid)
    (dict_insert (bs "q") (BBytes (bs "announce_peer")) (dict_insert (bs "a") (BDict a) []))))).

Record GetPeersResponse : Type := mkResponse {
  r_peers : list SocketAddrV4;
  r_nodes : list (bytes * SocketAddrV4);
  r_token : option bytes;
  r_txid : bytes;
}.

(** A 6-byte compact endpoint; port zero is refused. *)
Definition compact_peer (b : bytes) : option SocketAddrV4 :=
  if bool_decide (length b = 6) then
    let port := be_N (slice b 4 6) in
    if (port =? 0)%N then None else Some (mkSocketAddrV4 (slice b 0 4) port)
  else None.

Definition read_node (c : bytes) : option (bytes * SocketAddrV4) :=
  (λ a, (slice c 0 20, a)) <$> compact_peer (slice c 20 26).

Definition ok {E A} (r : result E A) : option A := match r with Ok x => Some x | Err _ => None end.

Definition field_bytes (v : Bencode) (key : bytes) : option bytes := get v key ≫= as_bytes.

(** [parse_response]: only a message of type [r] whose [r] is a dictionary. *)
Definition parse_response (buf : bytes) : option GetPeersResponse :=
  v ← ok (parse buf);
  if bool_decide (field_bytes v (bs "y") = Some (bs "r")) then
    r ← get v (bs "r");
    match r with
    | BDict _ =>
        Some (mkResponse
          match get r (bs "values") with
          | Some (BList vals) => omap (λ e, as_bytes e ≫= compact_peer) vals
          | _ => []
          end
          match field_bytes r (bs "nodes") with
          | Some nb => omap read_node (chunks_exact 26 nb)
          | None => []
          end
          (field_bytes r (bs "token"))
          (default [] (field_bytes v (bs "t"))))
    | _ => None
    end
  else None.

Definition is_krpc_error (buf : bytes) : bool :=
  match parse buf with
  | Ok v => bool_decide (field_bytes v (bs "y") = Some (bs "e"))
  | Err _ => false
  end.

(** The exclusive-or metric, as the key of the frontier. *)
Definition xor_byte (a b : byte) : byte := N_byte (N.lxor (byte_N a) (byte_N b)).
Definition distance (id target : bytes) : bytes := zip_with xor_byte id target.

(** ** The lookup *)

Record DhtWalkMetrics : Type := mkMetrics {
  bootstrap_seeded : N;
  nodes_queried : N;
  valid_responses : N;
  peers_discovered : N;
  nodes_discovered : N;
  malformed_responses : N;
  krpc_errors : N;
  uncorrelated_responses : N;
  timeouts : N;
  frontier_exhausted : bool;
}.

Definition metrics_default : DhtWalkMetrics := mkMetrics 0 0 0 0 0 0 0 0 0 false.

Definition note_seeded (m : DhtWalkMetrics) : DhtWalkMetrics :=
  let '(mkMetrics a b c d e f g h i j) := m in mkMetrics (a + 1) b c d e f g h i j.
Definition note_queried (m : DhtWalkMetrics) : DhtWalkMetrics :=
  let '(mkMetrics a b c d e f g h i j) := m in mkMetrics a (b + 1) c d e f g h i j.
Definition note_valid (peers nodes : N) (m : DhtWalkMetrics) : DhtWalkMetrics :=
  let '(mkMetrics a b c d e f g h i j) := m in mkMetrics a b (c + 1) (d + peers) (e + nodes) f g h i j.
Definition note_malformed (m : DhtWalkMetrics) : DhtWalkMetrics :=
  let '(mkMetrics a b c d e f g h i j) := m in mkMetrics a b c d e (f + 1) g h i j.
Definition note_krpc_error (m : DhtWalkMetrics) : DhtWalkMetrics :=
  let '(mkMetrics a b c d e f g h i j) := m in mkMetrics a b c d e f (g + 1) h i j.
Definition note_uncorrelated (m : DhtWalkMetrics) : DhtWalkMetrics :=
  let '(mkMetrics a b c d e f g h i j) := m in mkMetrics a b c d e f g (h + 1) i j.
Definition note_timeout (m : DhtWalkMetrics) : DhtWalkMetrics :=
  let '(mkMetrics a b c d e f g h i j) := m in mkMetrics a b c d e f g h (i + 1) j.
Definition note_exhausted (m : DhtWalkMetrics) : DhtWalkMetrics :=
  let '(mkMetrics a b c d e f g h i j) := m in mkMetrics a b c d e f g h i true.

(** The frontier keeps the 64 closest: [while frontier.len() > 64] removes the last key, which a
    non-empty map has. *)
Fixpoint cap_frontier (fuel : nat) (f : gmap N SocketAddrV4) : gmap N SocketAddrV4 :=
  match fuel with
  | 0 => f
  | S fuel =>
      if bool_decide (64 < size f) then
        match last_key f with Some k => cap_frontier fuel (delete k f) | None => f end
      else f
  end.

Definition capped (f : gmap N SocketAddrV4) : gmap N SocketAddrV4 := cap_frontier (size f) f.

(** [entry(...).or_insert(...)]: the first address of a distance stays. *)
Definition offer (infohash : bytes) (f : gmap N SocketAddrV4) (n : bytes * SocketAddrV4) : gmap N SocketAddrV4 :=
  let k := be_N (distance n.1 infohash) in
  match f !! k with Some _ => f | None => <[k := n.2]> f end.

(** What a host lookup ended with: [None] for a failed join, else its index and its IPv4 address. *)
Abbreviation Lookup := (option (N * option SocketAddrV4)).

(** The key of a bootstrap node: all ones but for its index in the last byte. *)
Definition bootstrap_key (i : N) : N := be_N (replicate 19 xff ++ [N_byte i]).

Record Walk (R : Type) : Type := mkWalk {
  frontier : gmap N SocketAddrV4;
  queried : gset SocketAddrV4;
  inflight : gmap (SocketAddrV4 * bytes) N;
  next_txid : N;
  lookups : nat;
  interrupted : option (N * bool * bool);
  metrics : DhtWalkMetrics;
  found : R;
}.
Arguments mkWalk {R}.
Arguments frontier {R}.
Arguments queried {R}.
Arguments inflight {R}.
Arguments next_txid {R}.
Arguments lookups {R}.
Arguments interrupted {R}.
Arguments metrics {R}.
Arguments found {R}.

(** Where the task is: at the head of the loop, waiting for a lookup with nothing else to do, in a
    response window, or finished. *)
Inductive WalkPc : Type :=
  | WTop
  | WIdle
  | WCollect (window : N) (received_any count_round : bool)
  | WDone.

(** [now] is read by the loop's condition, [retain_now] after it, [window_now] when the window is opened; [finished] are the
    lookups already joined, [sends] say of each query whether it was sent and when. *)
Inductive WalkEvent : Type :=
  | Round (now retain_now : N) (finished : list Lookup) (sends : list (bool * N)) (window_now : N)
  | Joined (now : N) (l : Lookup)
  | Received (now : N) (src : option SocketAddrV4) (data : bytes)
  | Elapsed.

(** What the lookup does outside: a query sent, a response believed. *)
Inductive WalkOut : Type :=
  | Query (to : SocketAddrV4) (txid datagram : bytes)
  | Accept (src : SocketAddrV4) (r : GetPeersResponse).

Section walk.
(** The caller's observer: it may keep state, and asks to stop with [true]. *)
Context {R : Type} (on_response : R → SocketAddrV4 → GetPeersResponse → bool * R).
Context (node_id infohash : bytes) (deadline : N).
Implicit Types w : Walk R.

Definition walk_new (r : R) : Walk R := mkWalk ∅ ∅ ∅ 0 BOOTSTRAP None metrics_default r.

Definition with_metrics (f : DhtWalkMetrics → DhtWalkMetrics) w : Walk R :=
  mkWalk (frontier w) (queried w) (inflight w) (next_txid w) (lookups w) (interrupted w) (f (metrics w)) (found w).

Definition with_interrupted v w : Walk R :=
  mkWalk (frontier w) (queried w) (inflight w) (next_txid w) (lookups w) v (metrics w) (found w).

Definition add_bootstrap w (l : Lookup) : Walk R :=
  let '(f, m) :=
    match l with
    | Some (i, Some addr) => (capped (<[bootstrap_key i := addr]> (frontier w)), note_seeded (metrics w))
    | _ => (frontier w, metrics w)
    end in
  mkWalk f (queried w) (inflight w) (next_txid w) (lookups w - 1) (interrupted w) m (found w).

Definition retain_inflight (now : N) w : Walk R :=
  mkWalk (frontier w) (queried w) (base.filter (λ kv, now < kv.2)%N (inflight w)) (next_txid w) (lookups w)
    (interrupted w) (metrics w) (found w).

(** Up to eight of the closest nodes that were not asked yet. *)
Definition batch w : list SocketAddrV4 :=
  take 8 (List.filter (λ a, negb (bool_decide (a ∈ queried w))) (entries (frontier w)).*2).

(** One query: the node counts as asked and the id as used whether or not it could be sent. *)
Definition send_query w (addr : SocketAddrV4) (sent : bool) (at_ : N) : list WalkOut * Walk R :=
  let txid := u16_be (next_txid w) in
  let next := ((next_txid w + 1) `mod` two16)%N in
  if sent then
    ([Query addr txid (build_get_peers node_id infohash txid)],
     mkWalk (frontier w) ({[addr]} ∪ queried w) (<[(addr, txid) := (at_ + INFLIGHT_TTL)%N]> (inflight w)) next
       (lookups w) (interrupted w) (note_queried (metrics w)) (found w))
  else ([], mkWalk (frontier w) ({[addr]} ∪ queried w) (inflight w) next (lookups w) (interrupted w) (metrics w) (found w)).

Fixpoint send_batch w (addrs : list SocketAddrV4) (sends : list (bool * N)) : list WalkOut * Walk R :=
  match addrs with
  | [] => ([], w)
  | a :: addrs =>
      let '(sent, at_) := default (false, 0%N) (head sends) in
      let '(o, w) := send_query w a sent at_ in
      let '(os, w) := send_batch w addrs (tail sends) in
      (o ++ os, w)
  end.

(** The head of the outer loop down to the opening of the response window. *)
Definition round_start w (now retain_now : N) (finished : list Lookup) (sends : list (bool * N)) (window_now : N)
    : list WalkOut * Walk R * WalkPc :=
  if (deadline <=? now)%N then ([], w, WDone)
  else
    let w := retain_inflight retain_now (foldl add_bootstrap w finished) in
    let b := batch w in
    let idle := bool_decide (b = []) && negb (bool_decide (lookups w = 0)) in
    let spent := bool_decide (b = []) && bool_decide (lookups w = 0) in
    let fresh := bool_decide (interrupted w = None) in
    if idle && bool_decide (inflight w = ∅) && fresh then ([], w, WIdle)
    else if spent && fresh then ([], with_metrics note_exhausted w, WDone)
    else
      let '(os, w) := send_batch w b sends in
      let window := N.min (window_now + 1500) deadline in
      let '(window, received_any, count_round) :=
        if bool_decide (b = []) then default (window, false, false) (interrupted w) else (window, false, true) in
      (os, with_interrupted None w, WCollect window received_any count_round).

Definition end_round w (received_any count_round : bool) : Walk R :=
  if count_round && negb received_any then with_metrics note_timeout w else w.

(** A datagram inside the window. *)
Definition on_datagram w (src : SocketAddrV4) (data : bytes) : list WalkOut * Walk R * bool :=
  match parse_response data with
  | None => ([], with_metrics (if is_krpc_error data then note_krpc_error else note_malformed) w, false)
  | Some resp =>
      match inflight w !! (src, r_txid resp) with
      | None => ([], with_metrics note_uncorrelated w, false)
      | Some _ =>
          let f := capped (foldl (offer infohash) (frontier w) (r_nodes resp)) in
          let '(stop, r) := on_response (found w) src resp in
          ([Accept src resp],
           mkWalk f (queried w) (delete (src, r_txid resp) (inflight w)) (next_txid w) (lookups w) (interrupted w)
             (note_valid (lenN (r_peers resp)) (lenN (r_nodes resp)) (metrics w)) r,
           stop)
      end
  end.

(** One turn of the task; [None] when it does not wait for the event. *)
Definition walk_step (s : Walk R * WalkPc) (ev : WalkEvent) : option (list WalkOut * (Walk R * WalkPc)) :=
  let '(w, pc) := s in
  match pc, ev with
  | WTop, Round now retain_now finished sends window_now =>
      if bool_decide (length finished ≤ lookups w) then
        let '(os, w, pc) := round_start w now retain_now finished sends window_now in Some (os, (w, pc))
      else None
  | WIdle, Joined _ l => Some ([], (add_bootstrap w l, WTop))
  | WIdle, Elapsed => Some ([], (w, WDone))
  | WCollect window received count, Joined now l =>
      if (window <=? now)%N then Some ([], (end_round w received count, WTop))
      else if bool_decide (lookups w = 0) then None
      else Some ([], (with_interrupted (Some (window, received, count)) (add_bootstrap w l), WTop))
  | WCollect window received count, Received now src data =>
      if (window <=? now)%N then Some ([], (end_round w received count, WTop))
      else match src with
           | None => Some ([], (w, WCollect window true count))
           | Some src => let '(os, w, stop) := on_datagram w src data in
                         Some (os, (w, if stop then WDone else WCollect window true count))
           end
  | WCollect _ received count, Elapsed => Some ([], (end_round w received count, WTop))
  | _, _ => None
  end.

(** A run; an event the task does not wait for stays outside. *)
Fixpoint walk_run (s : Walk R * WalkPc) (evs : list WalkEvent) : list WalkOut * (Walk R * WalkPc) :=
  match evs with
  | [] => ([], s)
  | ev :: evs =>
      match walk_step s ev with
      | Some (os, s) => let '(os', s) := walk_run s evs in (os ++ os', s)
      | None => walk_run s evs
      end
  end.
End walk.

(** ** The two callers *)

Record Harvest : Type := mkHarvest { h_peers : gset SocketAddrV4; h_observed : list SocketAddrV4 }.
Definition harvest_new : Harvest := mkHarvest ∅ [].

(** [collect_response_peers]: [on_peer] answers from what it has seen, the new peer last. *)
Fixpoint collect_loop (on_peer : list SocketAddrV4 → bool) (ps : list SocketAddrV4) (h : Harvest) : bool * Harvest :=
  match ps with
  | [] => (false, h)
  | p :: ps =>
      if bool_decide (1024 ≤ size (h_peers h)) then (true, h)
      else if bool_decide (p ∈ h_peers h) then collect_loop on_peer ps h
      else
        let h := mkHarvest ({[p]} ∪ h_peers h) (h_observed h ++ [p]) in
        if on_peer (h_observed h) then collect_loop on_peer ps h else (true, h)
  end.

Definition collect_response_peers (on_peer : list SocketAddrV4 → bool) (target : nat)
    (h : Harvest) (src : SocketAddrV4) (r : GetPeersResponse) : bool * Harvest :=
  let '(stop, h) := collect_loop on_peer (r_peers r) h in
  (stop || bool_decide (target `max` 1 ≤ size (h_peers h)), h).

(** The observer of [dht_announce_peer], and the queries it sends afterwards. *)
Definition collect_token (tokens : list (SocketAddrV4 * bytes)) (src : SocketAddrV4) (r : GetPeersResponse)
    : bool * list (SocketAddrV4 * bytes) :=
  let tokens := match r_token r with Some t => tokens ++ [(src, t)] | None => tokens end in
  (bool_decide (8 ≤ length tokens), tokens).

Definition announces (node_id infohash : bytes) (port : N) (tokens : list (SocketAddrV4 * bytes))
    : list (SocketAddrV4 * bytes) :=
  imap (λ i at_, (at_.1, build_announce_peer node_id infohash port at_.2 (u16_be (N.of_nat i `mod` two16)))) tokens.

(** ** The frontier *)

Lemma cap_frontier_spec fuel : ∀ f, size f ≤ fuel + 64 →
  cap_frontier fuel f ⊆ f ∧ size (cap_frontier fuel f) ≤ 64
  ∧ (∀ k k', is_Some (cap_frontier fuel f !! k) → is_Some (f !! k') → cap_frontier fuel f !! k' = None → (k ≤ k')%N)
  ∧ (size f ≤ 64 → cap_frontier fuel f = f).
Proof.
  induction fuel as [|fuel IH]; intros f Hs; cbn [cap_frontier].
  { repeat split; [done|lia|]. intros k k' _ [x Hx] Hn. congruence. }
  case_bool_decide as Hb.
  2:{ repeat split; [done|lia|]. intros k k' _ [x Hx] Hn. congruence. }
  destruct (last_key f) as [k|] eqn:Ek.
  2:{ exfalso. unfold last_key in Ek. apply last_None in Ek. pose proof (length_ascending (dom f)) as Hl.
      rewrite Ek, size_dom in Hl. cbn in Hl. lia. }
  apply last_key_Some in Ek as [[x Hx] Hk]. assert (size (delete k f) = size f - 1) as Hd
    by (rewrite map_size_delete, Hx; lia).
  destruct (IH (delete k f)) as (H1 & H2 & H3 & H4); [lia|]. repeat split; [|done| |lia].
  - etrans; [exact H1|apply delete_subseteq].
  - intros k1 k2 Hk1 Hk2 Hn. destruct (decide (k2 = k)) as [->|Hne].
    + apply Hk. destruct Hk1 as [y Hy]. exists y. eapply lookup_weaken; [exact Hy|]. etrans; [exact H1|apply delete_subseteq].
    + apply H3; [done| |done]. by rewrite lookup_delete_ne.
Qed.

Lemma capped_spec f : capped f ⊆ f ∧ size (capped f) ≤ 64.
Proof. destruct (cap_frontier_spec (size f) f) as (H1 & H2 & _); [lia|]. done. Qed.

Lemma count_if_single {A} (f : A → bool) x : count_if f [x] = if f x then 1 else 0.
Proof. unfold count_if. cbn. by destruct (f x). Qed.

(** ** What a run can have done *)

Definition is_query (k : SocketAddrV4 * bytes) (o : WalkOut) : bool :=
  match o with Query a t _ => bool_decide ((a, t) = k) | Accept _ _ => false end.
Definition is_accept (k : SocketAddrV4 * bytes) (o : WalkOut) : bool :=
  match o with Query _ _ _ => false | Accept a r => bool_decide ((a, r_txid r) = k) end.
Definition is_query_to (a : SocketAddrV4) (o : WalkOut) : bool :=
  match o with Query b _ _ => bool_decide (b = a) | Accept _ _ => false end.

Definition lookup_addr (l : Lookup) : option SocketAddrV4 := l ≫= snd.

(** The addresses the host lookups of a run gave. *)
Definition bootstraps (ev : WalkEvent) : list SocketAddrV4 :=
  match ev with
  | Round _ _ finished _ _ => omap lookup_addr finished
  | Joined _ l => omap lookup_addr [l]
  | _ => []
  end.

(** An address the lookup may know: a bootstrap node, or a node of a believed response. *)
Definition known (evs : list WalkEvent) (os : list WalkOut) (a : SocketAddrV4) : Prop :=
  (∃ ev, ev ∈ evs ∧ a ∈ bootstraps ev) ∨ (∃ src r, Accept src r ∈ os ∧ a ∈ (r_nodes r).*2).

Lemma known_mono evs evs' os os' a : known evs os a → known (evs ++ evs') (os ++ os') a.
Proof.
  intros [(ev & H1 & H2)|(src & r & H1 & H2)]; [left|right].
  - exists ev. rewrite elem_of_app. auto.
  - exists src, r. rewrite elem_of_app. auto.
Qed.

Section invariant.
Context {R : Type} (on_response : R → SocketAddrV4 → GetPeersResponse → bool * R) (node_id infohash : bytes) (deadline : N).
Implicit Types w : Walk R.

Record walk_inv (evs : list WalkEvent) (os : list WalkOut) w : Prop := {
  inv_size : size (frontier w) ≤ 64;
  inv_frontier k a : frontier w !! k = Some a → known evs os a;
  inv_asked a : a ∉ queried w → count_if (is_query_to a) os = 0;
  inv_eight a : count_if (is_query_to a) os ≤ 8;
  inv_paired k : count_if (is_accept k) os + (if inflight w !! k then 1 else 0) ≤ count_if (is_query k) os;
  inv_known a t d : Query a t d ∈ os → known evs os a ∧ d = build_get_peers node_id infohash t;
  inv_queried : N.of_nat (count_if (λ o, match o with Query _ _ _ => true | _ => false end) os) = nodes_queried (metrics w);
  inv_valid : N.of_nat (count_if (λ o, match o with Accept _ _ => true | _ => false end) os) = valid_responses (metrics w);
  inv_origin src r : Accept src r ∈ os → ∃ now data, Received now (Some src) data ∈ evs ∧ parse_response data = Some r;
}.

Lemma walk_inv_mono evs evs' os w : walk_inv evs os w → walk_inv (evs ++ evs') os w.
Proof.
  intros [I1 I2 I3 I4 I5 I6 I7 I8 I9]. split; try done.
  - intros k a H. rewrite <-(app_nil_r os). eapply known_mono, I2, H.
  - intros a t d H. destruct (I6 a t d H) as [H1 H2]. split; [|done]. rewrite <-(app_nil_r os). by apply known_mono.
  - intros src r H. destruct (I9 src r H) as (now & data & H1 & H2). exists now, data. rewrite elem_of_app. auto.
Qed.

(** A step that sends and believes nothing, and keeps what was asked. *)
Lemma walk_inv_quiet evs os w w' : walk_inv evs os w → size (frontier w') ≤ 64 →
  (∀ k a, frontier w' !! k = Some a → known evs os a) → queried w' = queried w → inflight w' ⊆ inflight w →
  nodes_queried (metrics w') = nodes_queried (metrics w) → valid_responses (metrics w') = valid_responses (metrics w) →
  walk_inv evs os w'.
Proof.
  intros [I1 I2 I3 I4 I5 I6 I7 I8 I9] Hs Hf Hq Hi Hm Hv. split; try done; [by rewrite Hq| |congruence..].
  intros k. specialize (I5 k). destruct (inflight w' !! k) eqn:E; [|lia].
  rewrite (lookup_weaken _ _ _ _ E Hi) in I5. done.
Qed.

Lemma with_metrics_inv evs os f w : (∀ m, nodes_queried (f m) = nodes_queried m ∧ valid_responses (f m) = valid_responses m) →
  walk_inv evs os w → walk_inv evs os (with_metrics f w).
Proof.
  intros Hf I. destruct (Hf (metrics w)). apply (walk_inv_quiet _ _ w); try done; apply I.
Qed.

Lemma with_interrupted_inv evs os v w : walk_inv evs os w → walk_inv evs os (with_interrupted v w).
Proof. intros I. apply (walk_inv_quiet _ _ w); try done; apply I. Qed.

Lemma end_round_inv evs os w r c : walk_inv evs os w → walk_inv evs os (end_round w r c).
Proof. intros I. unfold end_round. destruct (_ && _); [|done]. apply with_metrics_inv; [by intros []|done]. Qed.

Lemma retain_inflight_inv evs os now w : walk_inv evs os w → walk_inv evs os (retain_inflight now w).
Proof. intros I. apply (walk_inv_quiet _ _ w); try done; try apply I. apply map_filter_subseteq. Qed.

Lemma add_bootstrap_inv evs os w l : (∀ a, lookup_addr l = Some a → known evs os a) →
  walk_inv evs os w → walk_inv evs os (add_bootstrap w l).
Proof.
  intros Hl I. unfold add_bootstrap. destruct l as [[i [a|]]|]; cbn; try (by apply (walk_inv_quiet _ _ w); try done; apply I).
  destruct (capped_spec (<[bootstrap_key i := a]> (frontier w))) as [H1 H2].
  apply (walk_inv_quiet _ _ w); try done; [|by destruct (metrics w)..].
  intros k b Hb. cbn in Hb. apply (lookup_weaken _ _ _ _ Hb), lookup_insert_Some in H1 as [[_ <-]|[_ H]]; [by apply Hl|by eapply I].
Qed.

Lemma bootstraps_inv evs os l : ∀ w, (∀ a, a ∈ omap lookup_addr l → known evs os a) →
  walk_inv evs os w → walk_inv evs os (foldl add_bootstrap w l).
Proof.
  induction l as [|x l IH]; intros w Hl I; [done|]. cbn. apply IH.
  - intros a Ha. apply Hl. cbn. destruct (lookup_addr x); set_solver.
  - apply add_bootstrap_inv; [|done]. intros a Ha. apply Hl. cbn. rewrite Ha. set_solver.
Qed.

(** *** A batch *)

Lemma count_if_none {A} (f : A → bool) l : (∀ x, x ∈ l → f x = false) → count_if f l = 0.
Proof.
  induction l as [|x l IH]; intros H; [done|]. rewrite count_if_cons, (H x), IH by set_solver. done.
Qed.

Lemma send_query_inv evs os w a sent t o w' : known evs os a →
  send_query node_id infohash w a sent t = (o, w') → count_if (is_query_to a) os < 8 →
  walk_inv evs os w → walk_inv evs (os ++ o) w'.
Proof.
  intros Ha Es H8 [I1 I2 I3 I4 I5 I6 I7 I8 I9]. unfold send_query in Es. destruct sent; injection Es as <- <-.
  2:{ rewrite app_nil_r. split; try done. cbn. intros b Hb. apply I3. set_solver. }
  assert (∀ k b, count_if (is_query_to b) [Query a k (build_get_peers node_id infohash k)] = if bool_decide (a = b) then 1 else 0) as Hone
    by (intros k b; rewrite count_if_cons; cbn; by destruct (bool_decide _)).
  split; cbn [frontier queried inflight metrics]; try done.
  - intros k b Hb. rewrite <-(app_nil_r evs). eapply known_mono, I2, Hb.
  - intros b Hb. rewrite count_if_app, Hone, (I3 b) by set_solver. rewrite bool_decide_false by set_solver. done.
  - intros b. rewrite count_if_app, Hone. case_bool_decide; subst; [lia|]. specialize (I4 b). lia.
  - intros k. rewrite !count_if_app, !count_if_single. cbn [is_accept is_query]. specialize (I5 k).
    destruct (decide ((a, u16_be (next_txid w)) = k)) as [<-|Hne].
    + rewrite lookup_insert_eq, bool_decide_true by done. destruct (inflight w !! _); lia.
    + rewrite lookup_insert_ne, bool_decide_false by done. lia.
  - intros b t' d [H|H%list_elem_of_singleton]%elem_of_app.
    + destruct (I6 b t' d H) as [H1 H2]. split; [|done]. rewrite <-(app_nil_r evs). by apply known_mono.
    + injection H as -> -> ->. split; [|done]. rewrite <-(app_nil_r evs). by apply known_mono.
  - rewrite count_if_app, Nat2N.inj_add, I7. by destruct (metrics w).
  - rewrite count_if_app, Nat2N.inj_add, I8. destruct (metrics w). cbn. lia.
  - intros src r [H|H%list_elem_of_singleton]%elem_of_app; [|done]. by apply I9.
Qed.

Lemma send_query_count w a sent t o w' b : send_query node_id infohash w a sent t = (o, w') →
  count_if (is_query_to b) o ≤ if bool_decide (a = b) then 1 else 0.
Proof.
  unfold send_query. intros E. destruct sent; injection E as <- <-; [|cbn; lia].
  rewrite count_if_cons. cbn. destruct (bool_decide _); cbn; lia.
Qed.

Lemma send_batch_inv evs addrs : ∀ sends os w o w', (∀ a, a ∈ addrs → known evs os a) →
  (∀ a, a ∈ addrs → count_if (is_query_to a) os + length addrs ≤ 8) →
  send_batch node_id infohash w addrs sends = (o, w') → walk_inv evs os w → walk_inv evs (os ++ o) w'.
Proof.
  induction addrs as [|a addrs IH]; intros sends os w o w' Hk Hc E I; cbn in E.
  { injection E as <- <-. by rewrite app_nil_r. }
  destruct (default _ (head sends)) as [sent t]. destruct (send_query _ _ w a sent t) as [o1 w1] eqn:E1.
  destruct (send_batch _ _ w1 addrs (tail sends)) as [o2 w2] eqn:E2. injection E as <- <-. rewrite app_assoc.
  apply (IH (tail sends) (os ++ o1) w1).
  - intros b Hb. rewrite <-(app_nil_r evs). apply known_mono, Hk. set_solver.
  - intros b Hb. rewrite count_if_app. pose proof (send_query_count w a sent t o1 w1 b E1) as H1.
    specialize (Hc b ltac:(set_solver)). cbn in Hc. destruct (bool_decide _); lia.
  - done.
  - apply (send_query_inv evs os w a sent t); [apply Hk; set_solver|done| |done].
    specialize (Hc a ltac:(set_solver)). cbn in Hc. lia.
Qed.

Lemma batch_spec w : length (batch w) ≤ 8 ∧ ∀ a, a ∈ batch w → a ∉ queried w ∧ ∃ k, frontier w !! k = Some a.
Proof.
  unfold batch. split; [rewrite length_take; lia|]. intros a Ha.
  apply (subseteq_take 8), In_filter_elem in Ha as [H1 H2].
  apply negb_true_iff, bool_decide_eq_false in H2. split; [done|].
  apply list_elem_of_fmap in H1 as ([k b] & -> & H). exists k. by apply elem_of_entries.
Qed.

Lemma round_start_inv evs os w now rnow finished sends wnow o w' pc :
  (∀ a, a ∈ omap lookup_addr finished → known evs os a) →
  round_start node_id infohash deadline w now rnow finished sends wnow = (o, w', pc) →
  walk_inv evs os w → walk_inv evs (os ++ o) w'.
Proof.
  intros Hf E I. unfold round_start in E. destruct (_ <=? _)%N; [injection E as <- <- _; by rewrite app_nil_r|].
  apply (bootstraps_inv evs os finished w) in I; [|done]. apply (retain_inflight_inv evs os rnow) in I.
  set (w0 := retain_inflight rnow (foldl add_bootstrap w finished)) in *. cbv zeta in E.
  destruct (_ && _ && _); [injection E as <- <- _; by rewrite app_nil_r|].
  destruct (_ && _ && _); [injection E as <- <- _; rewrite app_nil_r; apply with_metrics_inv; [by intros []|done]|].
  destruct (send_batch _ _ w0 (batch w0) sends) as [os1 w1] eqn:Es.
  assert (walk_inv evs (os ++ os1) w1) as I1.
  { destruct (batch_spec w0) as [Hl Hb]. apply (send_batch_inv evs (batch w0) sends os w0); [| |done..].
    - intros a Ha. destruct (Hb a Ha) as [_ [k Hk]]. by eapply I.
    - intros a Ha. destruct (Hb a Ha) as [Hq _]. rewrite (inv_asked _ _ _ I a Hq). lia. }
  destruct (if bool_decide _ then _ else _) as [[? ?] ?]. injection E as <- <- _. by apply with_interrupted_inv.
Qed.

(** *** A datagram *)

Lemma offers_known evs os l : ∀ f, (∀ a, a ∈ l.*2 → known evs os a) →
  (∀ k a, f !! k = Some a → known evs os a) → ∀ k a, foldl (offer infohash) f l !! k = Some a → known evs os a.
Proof.
  induction l as [|n l IH]; intros f Hl Hf; [done|]. cbn. apply IH; [set_solver|].
  intros k a. unfold offer. destruct (f !! be_N _) eqn:E; [apply Hf|].
  intros [[_ <-]|[_ H]]%lookup_insert_Some; [apply Hl; set_solver|by eapply Hf].
Qed.

Lemma on_datagram_inv evs os w src data o w' stop now :
  Received now (Some src) data ∈ evs → on_datagram on_response infohash w src data = (o, w', stop) →
  walk_inv evs os w → walk_inv evs (os ++ o) w'.
Proof.
  intros Hev E I. unfold on_datagram in E. destruct (parse_response data) as [resp|] eqn:Ep.
  2:{ injection E as <- <- _. rewrite app_nil_r. apply with_metrics_inv; [|done]. destruct (is_krpc_error data); by intros []. }
  destruct (inflight w !! _) as [t|] eqn:Ei.
  2:{ injection E as <- <- _. rewrite app_nil_r. apply with_metrics_inv; [by intros []|done]. }
  destruct (on_response _ _ _) as [st r]. injection E as <- <- _. destruct I as [I1 I2 I3 I4 I5 I6 I7 I8 I9].
  assert (∀ a, known evs os a → known evs (os ++ [Accept src resp]) a) as Hmono
    by (intros a H; rewrite <-(app_nil_r evs); by apply known_mono).
  destruct (capped_spec (foldl (offer infohash) (frontier w) (r_nodes resp))) as [C1 C2].
  split; cbn [frontier queried inflight metrics]; try done.
  - intros k a Ha. apply (lookup_weaken _ _ _ _ Ha) in C1. eapply offers_known; [| |exact C1].
    + intros b Hb. right. exists src, resp. rewrite elem_of_app. set_solver.
    + intros k' b Hb. by eapply Hmono, I2.
  - intros a Ha. rewrite count_if_app, (I3 a Ha). done.
  - intros a. rewrite count_if_app. specialize (I4 a). cbn. lia.
  - intros k. rewrite !count_if_app, !count_if_single. cbn [is_accept is_query]. specialize (I5 k). destruct (decide ((src, r_txid resp) = k)) as [<-|Hne].
    + rewrite Ei in I5. rewrite lookup_delete_eq, bool_decide_true by done. lia.
    + rewrite lookup_delete_ne, bool_decide_false by done. lia.
  - intros a t' d [H|H%list_elem_of_singleton]%elem_of_app; [|done]. destruct (I6 a t' d H). split; [by apply Hmono|done].
  - rewrite count_if_app, Nat2N.inj_add, I7. destruct (metrics w). cbn. lia.
  - rewrite count_if_app, Nat2N.inj_add, I8. by destruct (metrics w).
  - intros s' r' [H|H%list_elem_of_singleton]%elem_of_app; [by apply I9|]. injection H as -> ->. eauto.
Qed.

Lemma walk_step_inv evs os w pc ev o w' pc' :
  walk_step on_response node_id infohash deadline (w, pc) ev = Some (o, (w', pc')) →
  walk_inv evs os w → walk_inv (evs ++ [ev]) (os ++ o) w'.
Proof.
  intros E I. apply (walk_inv_mono evs [ev]) in I.
  assert (∀ a, a ∈ bootstraps ev → known (evs ++ [ev]) os a) as Hb
    by (intros a Ha; left; exists ev; split; [rewrite elem_of_app; set_solver|done]).
  unfold walk_step in E. destruct pc, ev; try done.
  - case_bool_decide; [|done]. destruct (round_start _ _ _ _ _ _ _ _ _) as [[o1 w1] pc1] eqn:Er. injection E as <- <- <-.
    by apply (round_start_inv _ _ _ _ _ _ _ _ _ _ _ Hb Er).
  - injection E as <- <- <-. rewrite app_nil_r. apply add_bootstrap_inv; [|done]. intros a Ha. apply Hb. cbn. rewrite Ha. set_solver.
  - injection E as <- <- <-. by rewrite app_nil_r.
  - destruct (_ <=? _)%N; [injection E as <- <- <-; rewrite app_nil_r; by apply end_round_inv|].
    case_bool_decide; [done|]. injection E as <- <- <-. rewrite app_nil_r. apply with_interrupted_inv, add_bootstrap_inv; [|done].
    intros a Ha. apply Hb. cbn. rewrite Ha. set_solver.
  - destruct (_ <=? _)%N; [injection E as <- <- <-; rewrite app_nil_r; by apply end_round_inv|].
    destruct src as [src|]; [|injection E as <- <- <-; by rewrite app_nil_r].
    destruct (on_datagram _ _ _ _ _) as [[o1 w1] st] eqn:Ed. injection E as <- <- <-.
    apply (on_datagram_inv _ _ w src data o1 w1 st now); [rewrite elem_of_app; set_solver|done..].
  - injection E as <- <- <-. rewrite app_nil_r. by apply end_round_inv.
Qed.

Lemma walk_run_inv evs' : ∀ evs os w pc o w' pc',
  walk_run on_response node_id infohash deadline (w, pc) evs' = (o, (w', pc')) →
  walk_inv evs os w → walk_inv (evs ++ evs') (os ++ o) w'.
Proof.
  induction evs' as [|ev evs' IH]; intros evs os w pc o w' pc' E I; cbn [walk_run] in E.
  { injection E as <- <- <-. by rewrite !app_nil_r. }
  destruct (walk_step _ _ _ _ (w, pc) ev) as [[o1 [w1 pc1]]|] eqn:Es.
  - destruct (walk_run _ _ _ _ (w1, pc1) evs') as [o2 s2] eqn:Er. injection E as <- ->.
    rewrite app_assoc. rewrite (app_assoc evs [ev] evs' : evs ++ ev :: evs' = _).
    eapply IH; [exact Er|]. by eapply walk_step_inv.
  - rewrite (app_assoc evs [ev] evs' : evs ++ ev :: evs' = _). eapply IH; [exact E|]. by apply walk_inv_mono.
Qed.

Lemma walk_new_inv r : walk_inv [] [] (walk_new r).
Proof.
  split; cbn; try done; try (intros; set_solver).
  - rewrite map_size_empty. lia.
  - intros _. lia.
Qed.
End invariant.

(** ** What the observer is told *)

Definition accepted (os : list WalkOut) : list (SocketAddrV4 * GetPeersResponse) :=
  omap (λ o, match o with Accept src r => Some (src, r) | Query _ _ _ => None end) os.

Lemma accepted_app os os' : accepted (os ++ os') = accepted os ++ accepted os'.
Proof. apply omap_app. Qed.

Lemma elem_of_accepted os src r : (src, r) ∈ accepted os ↔ Accept src r ∈ os.
Proof.
  unfold accepted. rewrite list_elem_of_omap. split.
  - intros ([]&H&E); [done|]. by injection E as -> ->.
  - intros H. by eexists.
Qed.

Section observer.
Context {R : Type} (on_response : R → SocketAddrV4 → GetPeersResponse → bool * R) (node_id infohash : bytes) (deadline : N).
Implicit Types w : Walk R.

Definition observe (r : R) (x : SocketAddrV4 * GetPeersResponse) : R := (on_response r x.1 x.2).2.

Lemma add_bootstraps_found l : ∀ w, found (foldl add_bootstrap w l) = found w.
Proof. induction l as [|x l IH]; intros w; [done|]. cbn. rewrite IH. unfold add_bootstrap. by destruct x as [[? []]|]. Qed.

Lemma send_batch_found addrs : ∀ w sends o w', send_batch node_id infohash w addrs sends = (o, w') →
  found w' = found w ∧ accepted o = [].
Proof.
  induction addrs as [|a addrs IH]; intros w sends o w' E; cbn in E; [by injection E as <- <-|].
  destruct (default _ (head sends)) as [sent t]. destruct (send_query _ _ w a sent t) as [o1 w1] eqn:E1.
  destruct (send_batch _ _ w1 addrs (tail sends)) as [o2 w2] eqn:E2. injection E as <- <-.
  destruct (IH _ _ _ _ E2) as [-> H2]. rewrite accepted_app, H2. unfold send_query in E1. by destruct sent; injection E1 as <- <-.
Qed.

Lemma walk_step_found w pc ev o w' pc' :
  walk_step on_response node_id infohash deadline (w, pc) ev = Some (o, (w', pc')) →
  found w' = foldl observe (found w) (accepted o).
Proof.
  intros E. unfold walk_step in E. destruct pc, ev; try done.
  - case_bool_decide; [|done]. unfold round_start in E. destruct (_ <=? _)%N; [by injection E as <- <- <-|]. cbv zeta in E.
    set (w0 := retain_inflight _ _) in E.
    assert (found w0 = found w) as H0 by (unfold w0; cbn; apply add_bootstraps_found).
    destruct (_ && _ && _); [by injection E as <- <- <-|]. destruct (_ && _ && _); [by injection E as <- <- <-|].
    destruct (send_batch _ _ w0 (batch w0) sends) as [o1 w1] eqn:Es. apply send_batch_found in Es as [H1 H2].
    destruct (if bool_decide _ then _ else _) as [[? ?] ?]. injection E as <- <- <-. rewrite H2. cbn. congruence.
  - injection E as <- <- <-. apply (add_bootstraps_found [l]).
  - by injection E as <- <- <-.
  - destruct (_ <=? _)%N; [injection E as <- <- <-; unfold end_round; by destruct (_ && _)|].
    case_bool_decide; [done|]. injection E as <- <- <-. apply (add_bootstraps_found [l]).
  - destruct (_ <=? _)%N; [injection E as <- <- <-; unfold end_round; by destruct (_ && _)|].
    destruct src as [src|]; [|by injection E as <- <- <-]. unfold on_datagram in E.
    destruct (parse_response data) as [resp|]; [|by injection E as <- <- <-].
    destruct (inflight w !! _); [|by injection E as <- <- <-].
    destruct (on_response (found w) src resp) as [st r] eqn:Eo. injection E as <- <- <-. cbn. unfold observe. cbn. by rewrite Eo.
  - injection E as <- <- <-. unfold end_round. by destruct (_ && _).
Qed.

Lemma walk_run_found evs : ∀ w pc o w' pc',
  walk_run on_response node_id infohash deadline (w, pc) evs = (o, (w', pc')) →
  found w' = foldl observe (found w) (accepted o).
Proof.
  induction evs as [|ev evs IH]; intros w pc o w' pc' E; cbn [walk_run] in E; [by injection E as <- <- <-|].
  destruct (walk_step _ _ _ _ (w, pc) ev) as [[o1 [w1 pc1]]|] eqn:Es; [|by eapply IH].
  destruct (walk_run _ _ _ _ (w1, pc1) evs) as [o2 s2] eqn:Er. injection E as <- ->.
  rewrite accepted_app, foldl_app, <-(walk_step_found _ _ _ _ _ _ Es). by eapply IH.
Qed.
End observer.

(** ** Responses *)

Lemma compact_peer_valid b a : compact_peer b = Some a → valid_addr a ∧ port a ≠ 0%N.
Proof.
  unfold compact_peer, valid_addr. case_bool_decide as Hl; [|done]. destruct (_ =? 0)%N eqn:E; [done|]. intros [= <-]. cbn.
  apply N.eqb_neq in E. unfold slice in *. rewrite length_take, length_drop. split; [split; [lia|]|done].
  pose proof (be_N_bound (take (6 - 4) (drop 4 b))) as H. unfold lenN in H. rewrite length_take, length_drop, Hl in H.
  exact H.
Qed.

Lemma parse_response_valid buf r : parse_response buf = Some r →
  Forall (λ a, valid_addr a ∧ port a ≠ 0%N) (r_peers r) ∧ Forall (λ n, length n.1 ≤ 20 ∧ valid_addr n.2 ∧ port n.2 ≠ 0%N) (r_nodes r).
Proof.
  unfold parse_response. intros (v & _ & H)%bind_Some. case_bool_decide; [|done].
  apply bind_Some in H as (x & _ & H). destruct x; try done. injection H as <-. cbn [r_peers r_nodes]. split.
  - match goal with |- Forall _ (match ?x with _ => _ end) => destruct x as [[]|] end; try constructor. apply Forall_forall. intros a Ha.
    apply list_elem_of_omap in Ha as (e & _ & (b & _ & Hb)%bind_Some). by apply compact_peer_valid in Hb.
  - match goal with |- Forall _ (match ?x with _ => _ end) => destruct x end; [|constructor]. apply Forall_forall. intros n Hn.
    apply list_elem_of_omap in Hn as (c & _ & (a & Ha & ->)%fmap_Some). apply compact_peer_valid in Ha. cbn.
    split; [|done]. unfold slice. rewrite length_take. lia.
Qed.

(** *** A node's answer (BEP-5) *)

Definition peer_entry (a : SocketAddrV4) : bytes := ip a ++ u16_be (port a).
Definition node_entry (n : bytes * SocketAddrV4) : bytes := n.1 ++ peer_entry n.2.

(** What a node that follows the protocol answers: its id, its closest nodes, peers if it has some, and
    its token. *)
Definition reply_value (id : bytes) (peers : list SocketAddrV4) (nodes : list (bytes * SocketAddrV4)) (token txid : bytes) : Bencode :=
  BDict [(bs "r", BDict [(bs "id", BBytes id); (bs "nodes", BBytes (concat (map node_entry nodes)));
                         (bs "token", BBytes token); (bs "values", BList (map (λ a, BBytes (peer_entry a)) peers))]);
         (bs "t", BBytes txid); (bs "y", BBytes (bs "r"))].

Definition reply (id : bytes) (peers : list SocketAddrV4) (nodes : list (bytes * SocketAddrV4)) (token txid : bytes) : bytes :=
  encode (reply_value id peers nodes token txid).

Lemma compact_peer_entry a : valid_addr a → port a ≠ 0%N → compact_peer (peer_entry a) = Some a.
Proof.
  intros [Hi Hp] Hz. unfold compact_peer, peer_entry. pose proof (be_bytes_length 2 (port a)) as Hl.
  assert (length (ip a ++ u16_be (port a)) = 6) as H6 by (rewrite length_app; unfold u16_be; lia).
  rewrite bool_decide_true by done.
  assert (slice (ip a ++ u16_be (port a)) 4 6 = u16_be (port a)) as ->
    by (unfold slice; rewrite drop_app_length' by done; apply take_ge; unfold u16_be; lia).
  assert (slice (ip a ++ u16_be (port a)) 0 4 = ip a) as -> by (unfold slice; cbn [drop]; by apply take_app_length').
  unfold u16_be. rewrite be_N_be_bytes by exact Hp. rewrite (proj2 (N.eqb_neq _ _) Hz). by destruct a.
Qed.

Lemma read_node_entry n : length n.1 = 20 → valid_addr n.2 → port n.2 ≠ 0%N → read_node (node_entry n) = Some n.
Proof.
  intros Hn Ha Hz. unfold read_node, node_entry. assert (length (peer_entry n.2) = 6) as H6.
  { unfold peer_entry. rewrite length_app. destruct Ha as [-> _]. unfold u16_be. by rewrite be_bytes_length. }
  assert (slice (n.1 ++ peer_entry n.2) 20 26 = peer_entry n.2) as ->
    by (unfold slice; rewrite drop_app_length' by done; apply take_ge; lia).
  assert (slice (n.1 ++ peer_entry n.2) 0 20 = n.1) as -> by (unfold slice; cbn [drop]; by apply take_app_length').
  rewrite compact_peer_entry by done. cbn. by destruct n.
Qed.

Lemma chunks_concat {A} n (ls : list (list A)) : 0 < n → Forall (λ l, length l = n) ls → ∀ fuel, length ls < fuel →
  chunks_exact_fuel fuel n (concat ls) = ls.
Proof.
  intros Hn Hl. induction Hl as [|l ls Hl _ IH]; intros fuel Hf; (destruct fuel as [|fuel]; [cbn in Hf; lia|]); cbn.
  - rewrite decide_False by lia. done.
  - rewrite decide_True by (rewrite length_app; lia). rewrite take_app_length', drop_app_length' by done. f_equal. apply IH.
    cbn in Hf. lia.
Qed.

Lemma nodes_read nodes : Forall (λ n, length n.1 = 20 ∧ valid_addr n.2 ∧ port n.2 ≠ 0%N) nodes →
  omap read_node (chunks_exact 26 (concat (map node_entry nodes))) = nodes.
Proof.
  intros H. assert (Forall (λ l, length l = 26) (map node_entry nodes)) as Hl.
  { induction H as [|n nodes (H1 & [H2 _] & _) _ IH]; cbn; constructor; [|done]. unfold node_entry, peer_entry, u16_be.
    rewrite !length_app, be_bytes_length. lia. }
  unfold chunks_exact. rewrite chunks_concat; [|lia|done|].
  - induction H as [|n nodes (H1 & H2 & H3) H IH]; [done|]. cbn. rewrite read_node_entry by done. f_equal.
    apply IH. by inversion Hl.
  - clear H. induction Hl as [|l ls Hl _ IH]; cbn; [lia|]. rewrite length_app. lia.
Qed.

Lemma values_read peers : Forall (λ a, valid_addr a ∧ port a ≠ 0%N) peers →
  omap (λ e, as_bytes e ≫= compact_peer) (map (λ a, BBytes (peer_entry a)) peers) = peers.
Proof. induction 1 as [|a peers [H1 H2] _ IH]; [done|]. cbn. rewrite compact_peer_entry by done. cbn. by f_equal. Qed.

Lemma reply_wf id peers nodes token txid : wf (reply_value id peers nodes token txid) = true
  ∧ nest (reply_value id peers nodes token txid) ≤ MAX_DEPTH.
Proof.
  unfold reply_value, MAX_DEPTH. cbn -[bs]. split.
  - assert (forallb wf (map (λ a, BBytes (peer_entry a)) peers) = true) as -> by (by induction peers). reflexivity.
  - assert (max_list (map nest (map (λ a, BBytes (peer_entry a)) peers)) = 0) as ->
      by (induction peers; cbn; lia). lia.
Qed.

Lemma reply_read id peers nodes token txid : (lenN (reply id peers nodes token txid) < two64)%N →
  Forall (λ a, valid_addr a ∧ port a ≠ 0%N) peers → Forall (λ n, length n.1 = 20 ∧ valid_addr n.2 ∧ port n.2 ≠ 0%N) nodes →
  parse_response (reply id peers nodes token txid) = Some (mkResponse peers nodes (Some token) txid).
Proof.
  intros Hl Hp Hn. destruct (reply_wf id peers nodes token txid) as [Hw Hd]. unfold parse_response, reply.
  rewrite parse_encoded by done. transitivity (Some (mkResponse
    (omap (λ e, as_bytes e ≫= compact_peer) (map (λ a, BBytes (peer_entry a)) peers))
    (omap read_node (chunks_exact 26 (concat (map node_entry nodes)))) (Some token) txid)); [reflexivity|].
  by rewrite values_read, nodes_read.
Qed.

Lemma collect_loop_spec on_peer ps : ∀ h stop h', collect_loop on_peer ps h = (stop, h') →
  NoDup (h_observed h) ∧ list_to_set (h_observed h) = h_peers h ∧ size (h_peers h) ≤ 1024 →
  NoDup (h_observed h') ∧ list_to_set (h_observed h') = h_peers h' ∧ size (h_peers h') ≤ 1024
  ∧ h_peers h' ⊆ h_peers h ∪ list_to_set ps.
Proof.
  induction ps as [|p ps IH]; intros h stop h' E (H1 & H2 & H3); cbn in E; [injection E as _ <-; set_solver|].
  case_bool_decide; [injection E as _ <-; set_solver|]. case_bool_decide.
  { destruct (IH _ _ _ E) as (? & ? & ? & ?); [done|]. repeat split; try done. set_solver. }
  set (h1 := mkHarvest ({[p]} ∪ h_peers h) (h_observed h ++ [p])) in *.
  assert (NoDup (h_observed h1) ∧ list_to_set (h_observed h1) = h_peers h1 ∧ size (h_peers h1) ≤ 1024) as Hh.
  { cbn. repeat split.
    - apply NoDup_app. split; [done|]. split; [|apply NoDup_singleton]. intros x Hx [= ->]%list_elem_of_singleton.
      apply (elem_of_list_to_set (C := gset _)) in Hx. set_solver.
    - rewrite list_to_set_app_L. set_solver.
    - rewrite size_union, size_singleton by set_solver. lia. }
  destruct (on_peer _).
  - destruct (IH _ _ _ E Hh) as (? & ? & ? & Hs). repeat split; try done. cbn in Hs. set_solver.
  - injection E as _ <-. destruct Hh as (? & ? & ?). repeat split; try done. cbn. set_solver.
Qed.

(** The peers kept after a list of believed responses. *)
Lemma harvest_spec on_peer target l :
  let h := foldl (observe (collect_response_peers on_peer target)) harvest_new l in
  (NoDup (h_observed h) ∧ list_to_set (h_observed h) = h_peers h ∧ size (h_peers h) ≤ 1024)
  ∧ ∀ p, p ∈ h_peers h → ∃ src r, (src, r) ∈ l ∧ p ∈ r_peers r.
Proof.
  induction l as [|[src r] l IH] using rev_ind; cbv zeta in *.
  { cbn. split; [|set_solver]. repeat split; [constructor|]. rewrite size_empty. lia. }
  rewrite foldl_app. cbn [foldl]. set (h := foldl _ harvest_new l) in *. destruct IH as [IH1 IH2].
  unfold observe at 1 2 3 4 5, collect_response_peers. cbn. destruct (collect_loop on_peer (r_peers r) h) as [st h'] eqn:E.
  destruct (collect_loop_spec _ _ _ _ _ E IH1) as (H1 & H2 & H3 & H4). cbn. split; [done|].
  intros p Hp. apply H4, elem_of_union in Hp as [Hp|Hp%elem_of_list_to_set].
  - destruct (IH2 p Hp) as (s & r' & ? & ?). exists s, r'. split; [|done]. apply elem_of_app. auto.
  - exists src, r. split; [|done]. apply elem_of_app. right. by apply list_elem_of_singleton.
Qed.

Lemma tokens_spec l : Forall (λ x, (∃ r, (x.1, r) ∈ l ∧ r_token r = Some x.2)) (foldl (observe collect_token) [] l).
Proof.
  induction l as [|[src r] l IH] using rev_ind; [constructor|]. rewrite foldl_app. cbn.
  unfold observe at 1, collect_token. cbn.
  assert (Forall (λ x, ∃ r', (x.1, r') ∈ l ++ [(src, r)] ∧ r_token r' = Some x.2) (foldl (observe collect_token) [] l)) as H.
  { eapply Forall_impl; [exact IH|]. intros x (r' & ? & ?). exists r'. rewrite elem_of_app. auto. }
  destruct (r_token r) as [t|] eqn:Et; [|done]. apply Forall_app. split; [done|]. repeat constructor. exists r. cbn.
  rewrite elem_of_app, list_elem_of_singleton. auto.
Qed.

(** ** Theorems *)

(** C22: On an untrusted network the lookup believes only answers to its own questions, and cannot be
    turned against others.  Whatever datagrams arrive from wherever, and whenever lookups, sends and timers
    end: for every node and transaction id no more responses are believed than queries were sent to
    that node with that id, so a spoofed or replayed datagram is ignored; every query is the [get_peers]
    message of its id and goes to a bootstrap node or to a node that a believed response named; no
    address is sent more than eight queries, however often it is named; the frontier holds at most
    64 nodes; and the statistics count exactly the queries sent and the responses believed. *)
Theorem dht_walk_sound {R} (on_response : R → SocketAddrV4 → GetPeersResponse → bool * R) (node_id infohash : bytes)
    (deadline : N) (r : R) (evs : list WalkEvent) :
  let '(os, (w, pc)) := walk_run on_response node_id infohash deadline (walk_new r, WTop) evs in
  (∀ k, count_if (is_accept k) os ≤ count_if (is_query k) os)
  ∧ (∀ a t d, Query a t d ∈ os → known evs os a ∧ d = build_get_peers node_id infohash t)
  ∧ (∀ a, count_if (is_query_to a) os ≤ 8)
  ∧ (∀ src resp, Accept src resp ∈ os → ∃ now data, Received now (Some src) data ∈ evs ∧ parse_response data = Some resp)
  ∧ size (frontier w) ≤ 64
  ∧ nodes_queried (metrics w) = lenN (List.filter (λ o, match o with Query _ _ _ => true | _ => false end) os)
  ∧ valid_responses (metrics w) = lenN (accepted os).
Proof.
  destruct (walk_run _ _ _ _ _ evs) as [os [w pc]] eqn:E.
  apply (walk_run_inv on_response node_id infohash deadline evs [] [] _ _ _ _ _) in E; [|apply walk_new_inv]. cbn in E.
  destruct E as [I1 I2 I3 I4 I5 I6 I7 I8 I9]. repeat split; try done; [|by apply (I6 a t d)..|].
  - intros k. specialize (I5 k). destruct (inflight w !! k); lia.
  - rewrite <-I8. unfold lenN. f_equal. clear. unfold accepted, count_if. induction os as [|[] os IH]; cbn; [done..|]. by rewrite IH.
Qed.

(** The peers a lookup returns were handed to it.  For every observer and target, the peers kept are
    at most 1024, each was reported to the observer exactly once, each is a well-formed address with
    a port, and each was listed by a response the lookup believed. *)
Theorem dht_peers_harvested (on_peer : list SocketAddrV4 → bool) (target : nat) (node_id infohash : bytes) (deadline : N)
    (evs : list WalkEvent) :
  let '(os, (w, pc)) := walk_run (collect_response_peers on_peer target) node_id infohash deadline (walk_new harvest_new, WTop) evs in
  let h := found w in
  size (h_peers h) ≤ 1024 ∧ NoDup (h_observed h) ∧ list_to_set (h_observed h) = h_peers h
  ∧ ∀ p, p ∈ h_peers h → valid_addr p ∧ port p ≠ 0%N ∧ ∃ src r, Accept src r ∈ os ∧ p ∈ r_peers r.
Proof.
  destruct (walk_run _ _ _ _ _ evs) as [os [w pc]] eqn:E. pose proof (walk_run_found _ _ _ _ _ _ _ _ _ _ E) as Hf.
  apply (walk_run_inv _ _ _ _ evs [] [] _ _ _ _ _) in E; [|apply walk_new_inv]. cbn in E, Hf. cbv zeta. rewrite Hf.
  destruct (harvest_spec on_peer target (accepted os)) as [(H1 & H2 & H3) H4]. repeat split; try done.
  all: destruct (H4 p H) as (src & r & Ha%elem_of_accepted & Hp).
  1-3: destruct (inv_origin _ _ _ _ _ E src r Ha) as (now & data & _ & [Hv _]%parse_response_valid).
  1-3: rewrite Forall_forall in Hv; by apply Hv.
  eauto.
Qed.

(** A token is only given back to the node that issued it: every announcement is sent to an address
    that sent a believed response with a token, carries that very token, and the messages number at
    most one per believed response. *)
Theorem dht_announces_echo_tokens (node_id own_id infohash : bytes) (port deadline : N) (evs : list WalkEvent) :
  let '(os, (w, pc)) := walk_run collect_token node_id infohash deadline (walk_new [], WTop) evs in
  length (announces own_id infohash port (found w)) ≤ length (accepted os)
  ∧ ∀ a d, (a, d) ∈ announces own_id infohash port (found w) →
    ∃ r t i, Accept a r ∈ os ∧ r_token r = Some t ∧ d = build_announce_peer own_id infohash port t (u16_be i).
Proof.
  destruct (walk_run _ _ _ _ _ evs) as [os [w pc]] eqn:E. pose proof (walk_run_found _ _ _ _ _ _ _ _ _ _ E) as Hf.
  cbn in Hf. rewrite Hf. split.
  - unfold announces. rewrite length_imap. clear. induction (accepted os) as [|[s r] l IH] using rev_ind; [done|].
    rewrite foldl_app, length_app. cbn [foldl]. set (ts := foldl _ _ l) in *. unfold observe, collect_token. cbn.
    destruct (r_token r); rewrite ?length_app; cbn; lia.
  - intros a d H. apply elem_of_lookup_imap in H as (i & [a' t] & [= -> ->] & Hi).
    pose proof (tokens_spec (accepted os)) as Ht. rewrite Forall_forall in Ht.
    destruct (Ht (a', t)) as (r & Hr%elem_of_accepted & Hr'); [by eapply list_elem_of_lookup_2|]. eauto 10.
Qed.

(** What a node that follows the protocol answers is read completely: its peers, its nodes, its token
    and the transaction id come back exactly as it wrote them. *)
Theorem dht_reply_roundtrip (id : bytes) (peers : list SocketAddrV4) (nodes : list (bytes * SocketAddrV4)) (token txid : bytes) :
  (lenN (reply id peers nodes token txid) < two64)%N → Forall (λ a, valid_addr a ∧ port a ≠ 0%N) peers →
  Forall (λ n, length n.1 = 20 ∧ valid_addr n.2 ∧ port n.2 ≠ 0%N) nodes →
  parse_response (reply id peers nodes token txid) = Some (mkResponse peers nodes (Some token) txid).
Proof. apply reply_read. Qed.

(** *** Witnesses and an observation *)

Definition dht_addr (n : N) : SocketAddrV4 := mkSocketAddrV4 [x0a; x00; x00; N_byte n] 6881.
Definition dht_id (b : byte) : bytes := replicate 20 b.

Lemma dht_reply_roundtrip_witness :
  parse_response (reply (dht_id x01) [dht_addr 7] [(dht_id x02, dht_addr 8)] (bs "tok") [x00; x01])
  = Some (mkResponse [dht_addr 7] [(dht_id x02, dht_addr 8)] (Some (bs "tok")) [x00; x01]).
Proof.
  apply (dht_reply_roundtrip (dht_id x01) [dht_addr 7] [(dht_id x02, dht_addr 8)] (bs "tok") [x00; x01]).
  - vm_compute. reflexivity.
  - repeat constructor; discriminate.
  - repeat constructor; discriminate.
Defined.

(** A bootstrap node answers with one address under two node ids. *)
Definition twice_named : list WalkEvent :=
  [Round 0 0 [Some (0%N, Some (dht_addr 1))] [(true, 0%N)] 0;
   Received 10 (Some (dht_addr 1)) (reply (dht_id x01) [] [(dht_id x02, dht_addr 9); (dht_id x03, dht_addr 9)] (bs "t") [x00; x00]);
   Elapsed;
   Round 20 20 [] [(true, 20%N); (true, 20%N)] 20].

(** The nodes of a batch are compared with the nodes already asked before the batch is sent, so an address
    that stands in the frontier under two node ids is asked twice. *)
Lemma dht_same_node_asked_twice :
  let os := (walk_run (λ (_ : unit) _ _, (false, tt)) (dht_id x55) (dht_id x66) 60000 (walk_new tt, WTop) twice_named).1 in
  count_if (is_query_to (dht_addr 9)) os = 2.
Proof. vm_compute. reflexivity. Qed.
