(* ===== verification/Audio.v ===== *)
(** * Live audio selection

    [ace-media/src/audio.rs]: the normalizer in front of the live HLS packager.  It learns the
    program association and the program map from single-packet sections, keeps one AAC track
    when there is one, rewrites the map without the other audio tracks, drops their packets, and
    decides whether the layout is one the strict path supports.  [&mut self] is state
    passing; [update_pmt] assigns nothing before its last error return, so its error branches
    leave the state alone.  A packet is a list of 188 bytes. *)

From S2P Require Import Prelude Bytes MpegTs TsTables TsGate.

(** ** Descriptors *)

Inductive AudioCodec : Type := AdtsAac | LatmAac | MpegAudio | Ac3 | Eac3 | Dts.

#[export] Instance AudioCodec_eq_dec : EqDecision AudioCodec.
Proof. solve_decision. Defined.

Record SelectedAudio : Type := mkSelectedAudio { sa_pid : N; sa_codec : AudioCodec }.

Record TransportLayout : Type := mkLayout {
  tl_transport_stream_id : N;
  tl_program_id : N;
  tl_pmt_pid : N;
  tl_pcr_pid : N;
  tl_video_pid : N;
  tl_video_type : N;
  tl_audio : option SelectedAudio;
  tl_semantic_identity : bytes;
}.

Inductive LayoutDecision : Type :=
  | LayoutPending
  | LayoutSupported (l : TransportLayout)
  | LayoutUnsupported.

Record DescriptorCodecs : Type := mkCodecs { dc_first : option AudioCodec; dc_conflicting : bool }.

(** [u8::count_ones]. *)
Definition count_ones (x : N) : nat :=
  length (filter (λ i, N.testbit x (N.of_nat i) = true) (seq 0 8)).

(** The signal of one descriptor. *)
Definition descriptor_signal (tag : N) (body : bytes) : option AudioCodec :=
  let flagged mask := match head body with
                      | Some flags => bool_decide (count_ones (N.land (byte_N flags) mask) < length body)
                      | None => false
                      end in
  if (tag =? 0x6a)%N && flagged 0xf0%N then Some Ac3
  else if (tag =? 0x7a)%N && flagged 0xf7%N then Some Eac3
  else if (tag =? 0x7b)%N && bool_decide (5 ≤ length body) then Some Dts
  else if (tag =? 0x05)%N && bool_decide (4 ≤ length body) then
    let id := take 4 body in
    if bool_decide (id = bs "AC-3") then Some Ac3
    else if bool_decide (id = bs "EAC3") then Some Eac3
    else if bool_decide (id = bs "DTS1" ∨ id = bs "DTS2" ∨ id = bs "DTS3") then Some Dts
    else None
  else None.

(** One turn reads at least the two header bytes, so the list's length is enough fuel. *)
Fixpoint descriptors_loop (fuel : nat) (l : bytes) (codec : option AudioCodec) (conflicting : bool)
    : option DescriptorCodecs :=
  match l with
  | [] => Some (mkCodecs codec conflicting)
  | tag :: _ =>
      match fuel with
      | 0 => None
      | S fuel =>
          n ← l !! 1;
          let len := N.to_nat (byte_N n) in
          body ← slice_get l 2 (2 + len);
          let '(codec, conflicting) :=
            match descriptor_signal (byte_N tag) body with
            | Some signal =>
                (match codec with Some _ => codec | None => Some signal end,
                 conflicting || match codec with
                                | Some first => negb (bool_decide (first = signal))
                                | None => false
                                end)
            | None => (codec, conflicting)
            end in
          descriptors_loop fuel (drop (2 + len) l) codec conflicting
      end
  end.

Definition descriptors (l : bytes) : option DescriptorCodecs :=
  descriptors_loop (length l) l None false.

Definition audio_codec (ty : N) (desc : bytes) : option DescriptorCodecs :=
  private ← descriptors desc;
  Some (mkCodecs
    (if (ty =? 0x0f)%N then Some AdtsAac
     else if (ty =? 0x11)%N then Some LatmAac
     else if (ty =? 0x03)%N || (ty =? 0x04)%N then Some MpegAudio
     else if (ty =? 0x06)%N then dc_first private
     else None) (dc_conflicting private)).

(** ** Sections *)

Inductive PsiError : Type := PsiInvalid | PsiUnsupported.

Definition psi_payload (packet : bytes) : option nat :=
  let afc := N.land (byte_at packet 3) 0x30 in
  let off := 5 + N.to_nat (byte_at packet 4) in
  if (afc =? 0x10)%N then Some 4
  else if (afc =? 0x30)%N then if bool_decide (off < TS_PACKET_LEN) then Some off else None
  else None.

Definition fail_if (b : bool) (e : PsiError) : result PsiError unit := if b then Err e else Ok ().

Definition psi_section (packet : bytes) (id : N) (min : nat) (program : option N) : result PsiError bytes :=
  _ ← fail_if (negb (byte_at packet 0 =? 0x47)%N || flag (byte_at packet 1) 0x80
               || flag (byte_at packet 3) 0xc0) PsiInvalid;
  off ← ok_or (psi_payload packet) PsiInvalid;
  _ ← fail_if (negb (flag (byte_at packet 1) 0x40)) PsiUnsupported;
  let start := off + 1 + N.to_nat (byte_at packet off) in
  header ← ok_or (slice_get packet start (start + 3)) PsiInvalid;
  _ ← fail_if (negb (byte_at header 0 =? id)%N || negb (N.land (byte_at header 1) 0xf0 =? 0xb0)%N) PsiInvalid;
  let len := length12 (nth 1 header x00) (nth 2 header x00) in
  _ ← fail_if (bool_decide (len < min ∨ 1021 < len)) PsiInvalid;
  _ ← fail_if (match packet !! (start + 5) with
               | None => true
               | Some flags => negb (flag (byte_N flags) 1)
               end) PsiInvalid;
  _ ← (match program with
       | Some program =>
           b ← ok_or (slice_get packet (start + 3) (start + 5)) PsiInvalid;
           fail_if (negb (be_N b =? program)%N) PsiInvalid
       | None => Ok ()
       end);
  let e := start + 3 + len in
  s ← ok_or (slice_get packet start e) PsiUnsupported;
  _ ← fail_if (negb (flag (byte_at s 5) 1) || negb (mpeg_crc32 s =? 0)%N) PsiInvalid;
  _ ← fail_if (negb (byte_at s 6 =? 0)%N || negb (byte_at s 7 =? 0)%N || negb (byte_at packet off =? 0)%N
               || negb (bool_decide (Forall (λ b, b = xff) (drop e packet)))) PsiUnsupported;
  Ok s.

(** [pid]: the 13 bits at a position. *)
Definition psi_pid (l : bytes) : N := N.lor (N.shiftl (N.land (byte_at l 0) 31) 8) (byte_at l 1).

(** ** The selection *)

Record LiveAudioSelection : Type := mkSelection {
  as_layout : LayoutDecision;
  as_mapping : option (N * N);
  as_transport_stream_id : option N;
  as_pat : option bytes;
  as_pmt : option bytes;
  as_source_pmt : option bytes;
  as_removed : list N;
  as_pcr : option N;
  as_effective : option bytes;
  as_version : N;
  as_rewrite : bool;
  as_output_cc : N;
}.

Definition selection_default : LiveAudioSelection :=
  mkSelection LayoutPending None None None None None [] None None 0 false 0.

Definition audio_reset (a : LiveAudioSelection) : LiveAudioSelection := selection_default.

Definition audio_tables (a : LiveAudioSelection) : list bytes :=
  option_list (as_pat a) ++ option_list (as_pmt a).

Definition audio_disable (a : LiveAudioSelection) : bool * LiveAudioSelection :=
  (bool_decide (is_Some (as_pmt a)) || negb (bool_decide (as_removed a = [])),
   mkSelection (as_layout a) (as_mapping a) (as_transport_stream_id a) (as_pat a) None None [] None
     None (as_version a) false (as_output_cc a)).

Definition set_layout (l : LayoutDecision) (a : LiveAudioSelection) : LiveAudioSelection :=
  mkSelection l (as_mapping a) (as_transport_stream_id a) (as_pat a) (as_pmt a) (as_source_pmt a)
    (as_removed a) (as_pcr a) (as_effective a) (as_version a) (as_rewrite a) (as_output_cc a).

(** Assignments to the association: [mapping], [transport_stream_id], [pat]. *)
Definition set_association (m : option (N * N)) (t : option N) (p : option bytes) (a : LiveAudioSelection)
    : LiveAudioSelection :=
  mkSelection (as_layout a) m t p (as_pmt a) (as_source_pmt a)
    (as_removed a) (as_pcr a) (as_effective a) (as_version a) (as_rewrite a) (as_output_cc a).

(** An elementary stream of the map: where its entry is, its PID and its audio codec. *)
Record Entry : Type := mkEntry { e_pos : nat; e_next : nat; e_pid : N; e_codec : option AudioCodec }.

(** One turn reads an entry of at least five bytes. *)
Fixpoint es_loop (fuel : nat) (s : bytes) (pos e : nat) (entries : list Entry) (conflicting : bool)
    : result PsiError (list Entry * bool) :=
  match fuel with
  | 0 => Err PsiInvalid
  | S fuel =>
      if bool_decide (pos < e) then
        h ← ok_or (if bool_decide (pos + 5 ≤ e) then slice_get s pos (pos + 5) else None) PsiInvalid;
        let next := pos + 5 + length12 (nth 3 h x00) (nth 4 h x00) in
        _ ← fail_if (bool_decide (e < next)) PsiInvalid;
        codec ← ok_or (audio_codec (byte_at h 0) (slice s (pos + 5) next)) PsiInvalid;
        let es_pid := psi_pid (drop 1 h) in
        _ ← fail_if (existsb (λ x, (e_pid x =? es_pid)%N) entries) PsiUnsupported;
        es_loop fuel s next e (entries ++ [mkEntry pos next es_pid (dc_first codec)])
          (conflicting || dc_conflicting codec)
      else Ok (entries, conflicting)
  end.

(** The accumulator of [decide_layout]'s loop. *)
Record LayoutScan : Type := mkScan {
  ls_video : option (N * N);
  ls_first_audio : option SelectedAudio;
  ls_aac : option SelectedAudio;
  ls_has_audio : bool;
}.

Definition accompanying_type (ty : N) : bool :=
  existsb (N.eqb ty) [0x03; 0x04; 0x06; 0x0f; 0x11; 0x05]%N
  || ((0x0a <=? ty) && (ty <=? 0x0e))%N || ((0x15 <=? ty) && (ty <=? 0x19))%N.

(** One entry: [None] is the early [return Unsupported]. *)
Definition layout_entry (s : bytes) (sc : LayoutScan) (x : Entry) : option LayoutScan :=
  let ty := byte_at s (e_pos x) in
  sc ← (if existsb (N.eqb ty) [0x02; 0x1b; 0x24]%N then
          match ls_video sc with
          | Some _ => None
          | None => Some (mkScan (Some (e_pid x, ty)) (ls_first_audio sc) (ls_aac sc) (ls_has_audio sc))
          end
        else if accompanying_type ty then Some sc else None);
  match e_codec x with
  | None => if (ty =? 0x06)%N then None else Some sc
  | Some codec =>
      let mine := Some (mkSelectedAudio (e_pid x) codec) in
      Some (mkScan (ls_video sc)
        (match ls_first_audio sc with
         | None => if bool_decide (codec = MpegAudio ∨ codec = Ac3) then mine else None
         | old => old
         end)
        (match ls_aac sc with
         | None => if bool_decide (codec = AdtsAac) then mine else None
         | old => old
         end) true)
  end.

Fixpoint layout_loop (s : bytes) (sc : LayoutScan) (entries : list Entry) : option LayoutScan :=
  match entries with
  | [] => Some sc
  | x :: r => sc ← layout_entry s sc x; layout_loop s sc r
  end.

Definition decide_layout (a : LiveAudioSelection) (s : bytes) (entries : list Entry) : LayoutDecision :=
  match as_mapping a, as_transport_stream_id a with
  | Some (program_id, pmt_pid), Some transport_stream_id =>
      if (pmt_pid <? 0x20)%N || (pmt_pid =? 0x1fff)%N then LayoutUnsupported
      else
        let pcr_pid := psi_pid (drop 8 s) in
        if negb (existsb (λ x, (e_pid x =? pcr_pid)%N) entries)
           || existsb (λ x, (e_pid x <? 0x20)%N || (e_pid x =? 0x1fff)%N || (e_pid x =? pmt_pid)%N) entries
        then LayoutUnsupported
        else
          match layout_loop s (mkScan None None None false) entries with
          | None => LayoutUnsupported
          | Some sc =>
              match ls_video sc with
              | None => LayoutUnsupported
              | Some (video_pid, video_type) =>
                  let audio := match ls_aac sc with Some x => Some x | None => ls_first_audio sc end in
                  if ls_has_audio sc && negb (bool_decide (is_Some audio)) then LayoutUnsupported
                  else
                    let id := u16_be transport_stream_id ++ u16_be pmt_pid ++ take (length s - 4) s in
                    LayoutSupported (mkLayout transport_stream_id program_id pmt_pid pcr_pid video_pid
                      video_type audio (<[9 := N_byte (N.land (byte_at id 9) 0xc1)]> id))
              end
          end
  | _, _ => LayoutPending
  end.

(** The first AAC track, and the audio tracks it displaces. *)
Definition selected_aac (entries : list Entry) : option N :=
  e_pid <$> find (λ x, bool_decide (e_codec x = Some AdtsAac)) entries.

Definition displaced (selected : option N) (x : Entry) : bool :=
  bool_decide (is_Some selected) && bool_decide (is_Some (e_codec x))
  && negb (bool_decide (Some (e_pid x) = selected)).

Definition removed_pids (entries : list Entry) : list N :=
  map e_pid (List.filter (displaced (selected_aac entries)) entries).

Definition in_list (x : N) (l : list N) : bool := existsb (N.eqb x) l.

(** The map without the removed streams, its length adjusted and its version cleared; no CRC yet. *)
Definition effective_map (s : bytes) (begin : nat) (entries : list Entry) (removed : list N) : bytes :=
  let out := take begin s
    ++ concat (map (λ x, slice s (e_pos x) (e_next x))
                 (List.filter (λ x, negb (in_list (e_pid x) removed)) entries)) in
  let len := N.of_nat (length out + 1) in
  let out := <[1 := N_byte (N.lor 0xb0 (N.land (N.shiftr len 8) 15))]> out in
  let out := <[2 := N_byte len]> out in
  <[5 := N_byte (N.land (byte_at out 5) 0xc1)]> out.

(** The packet that carries a map: the source's header without its adaptation field, a zero
    pointer, the section with its version and CRC, stuffing. *)
Definition map_section (effective : bytes) (version : N) : bytes :=
  let out := <[5 := N_byte (N.lor (byte_at effective 5) (N.shiftl version 1))]> effective in
  out ++ u32_be (mpeg_crc32 out).

Definition map_packet (packet out : bytes) : bytes :=
  take 3 packet ++ [N_byte (N.lor (N.land (byte_at packet 3) 0x0f) 0x10); x00] ++ out
    ++ replicate (TS_PACKET_LEN - 5 - length out) xff.

(** The checks of [update_pmt]: the section, where its streams begin, the streams, and whether the
    descriptors of one of them contradict each other. *)
Definition parse_map (program : option N) (packet : bytes) : result PsiError (bytes * nat * list Entry * bool) :=
  s ← psi_section packet 2 13 program;
  _ ← fail_if (negb (bool_decide (Some (u16_at s 3) = program))) PsiInvalid;
  let e := length s - 4 in
  let begin := 12 + length12 (nth 10 s x00) (nth 11 s x00) in
  _ ← fail_if (bool_decide (e < begin)) PsiInvalid;
  info ← ok_or (descriptors (slice s 12 begin)) PsiInvalid;
  '(entries, conflicting) ← es_loop (S (length s)) s begin e [] (dc_conflicting info);
  Ok (s, begin, entries, conflicting).

(** Its assignments. *)
Definition install_map (a : LiveAudioSelection) (packet s : bytes) (begin : nat) (entries : list Entry)
    (conflicting : bool) : bool * LiveAudioSelection :=
  let layout := if conflicting then LayoutUnsupported else decide_layout a s entries in
  let removed := removed_pids entries in
  let out := effective_map s begin entries removed in
  let upstream_version := N.land (N.shiftr (byte_at s 5) 1) 31 in
  let source_content := let c := take (length s - 4) s in <[5 := N_byte (N.land (byte_at c 5) 0xc1)]> c in
  let different := negb (bool_decide (as_source_pmt a = Some source_content)) in
  let version :=
    if bool_decide (as_effective a = Some out) then as_version a
    else match as_effective a with
         | Some _ => N.land (as_version a + 1) 31
         | None => N.land (upstream_version + (if bool_decide (removed = []) then 0 else 1)) 31
         end in
  let rewrite := bool_decide (is_Some (selected_aac entries)) in
  let version := if rewrite then version else upstream_version in
  let pmt := if rewrite then map_packet packet (map_section out version) else packet in
  (different,
   mkSelection layout (as_mapping a) (as_transport_stream_id a) (as_pat a) (Some pmt)
     (Some source_content) removed (Some (psi_pid (drop 8 s))) (Some out) version rewrite
     (as_output_cc a)).

Definition update_pmt (a : LiveAudioSelection) (packet : bytes) : result PsiError (bool * LiveAudioSelection) :=
  '(s, begin, entries, conflicting) ← parse_map (fst <$> as_mapping a) packet;
  Ok (install_map a packet s begin entries conflicting).

(** The result of observing one packet. *)
Record AudioPacket : Type := mkAudioPacket { ap_packet : option bytes; ap_changed : bool }.

(** The programs of an association section. *)
Definition pat_programs (entries : bytes) : list (N * N) :=
  map (λ e, (be_N (take 2 e), psi_pid (drop 2 e)))
    (List.filter (λ e, negb (byte_at e 0 =? 0)%N || negb (byte_at e 1 =? 0)%N) (chunks_exact 4 entries)).

(** The association is lost: [disable] and forget it. *)
Definition forget_association (a : LiveAudioSelection) : bool * LiveAudioSelection :=
  let '(changed, a) := audio_disable (set_layout LayoutUnsupported a) in
  (changed, set_association None None None a).

Definition observe_pat (a : LiveAudioSelection) (packet : bytes) : AudioPacket * LiveAudioSelection :=
  match psi_section packet 0 9 None with
  | Ok s =>
      let entries := slice s 8 (length s - 4) in
      if bool_decide (length entries mod 4 ≠ 0) then (mkAudioPacket None false, a)
      else
        match pat_programs entries with
        | [program] =>
            let tsid := u16_at s 3 in
            let '(changed, a) :=
              if negb (bool_decide (as_mapping a = Some program))
                 || negb (bool_decide (as_transport_stream_id a = Some tsid)) then
                let '(changed, a) := audio_disable (set_layout LayoutPending a) in
                (changed, set_association (Some program) (Some tsid) (as_pat a) a)
              else (false, a) in
            let a := set_association (as_mapping a) (as_transport_stream_id a) (Some packet) a in
            let a := if (program.2 <? 0x20)%N || (program.2 =? 0x1fff)%N
                     then set_layout LayoutUnsupported a else a in
            (mkAudioPacket (Some packet) changed, a)
        | _ => let '(changed, a) := forget_association a in (mkAudioPacket (Some packet) changed, a)
        end
  | Err PsiUnsupported =>
      let '(changed, a) := forget_association a in (mkAudioPacket (Some packet) changed, a)
  | Err PsiInvalid =>
      if bool_decide (is_Some (as_pat a)) then (mkAudioPacket None false, a)
      else (mkAudioPacket (Some packet) false, a)
  end.

Definition observe_pmt (a : LiveAudioSelection) (packet : bytes) : AudioPacket * LiveAudioSelection :=
  match update_pmt a packet with
  | Ok (different, a) => (mkAudioPacket (Some (default packet (as_pmt a))) different, a)
  | Err PsiUnsupported =>
      let '(changed, a) := audio_disable (set_layout LayoutUnsupported a) in
      (mkAudioPacket (Some packet) changed, a)
  | Err PsiInvalid => (mkAudioPacket None false, a)
  end.

(** A packet of a removed track keeps only a program clock or a discontinuity mark. *)
Definition strip_packet (packet : bytes) : bytes :=
  let len := N.to_nat (byte_at packet 4) in
  let q := <[1 := N_byte (N.land (byte_at packet 1) 0xbf)]> packet in
  let q := <[3 := N_byte 0x20]> q in
  let q := <[4 := N_byte 183]> q in
  take (5 + len) q ++ replicate (length packet - (5 + len)) xff.

Definition observe_removed (a : LiveAudioSelection) (packet : bytes) : option bytes :=
  let timing := ts_timing packet in
  if bool_decide (Some (ts_pid packet) = as_pcr a)
     && (bool_decide (is_Some (pcr timing)) || discontinuity timing) then
    let len := byte_at packet 4 in
    if negb (flag (byte_at packet 3) 0x20) || (len =? 0)%N || (183 <? len)%N then None
    else Some (strip_packet packet)
  else None.

Definition audio_observe (a : LiveAudioSelection) (packet : bytes) : AudioPacket * LiveAudioSelection :=
  let a := if flag (byte_at packet 3) 0xc0 then set_layout LayoutUnsupported a else a in
  let source_pid := ts_pid packet in
  if (source_pid =? 0)%N then observe_pat a packet
  else if bool_decide (snd <$> as_mapping a = Some source_pid) && bool_decide (is_Some (psi_payload packet))
  then observe_pmt a packet
  else if in_list source_pid (as_removed a) then (mkAudioPacket (observe_removed a packet) false, a)
  else (mkAudioPacket (Some packet) false, a).

(** [emitted]: the continuity of the map packets that leave. *)
Fixpoint emitted_loop (pmt_pid : option N) (cc : N) (pkts : list bytes) : N * list bytes :=
  match pkts with
  | [] => (cc, [])
  | p :: r =>
      let '(cc, p) :=
        if bool_decide (pmt_pid = Some (ts_pid p)) then
          let '(mine, cc) := if flag (byte_at p 3) 0x10 then (cc, N.land (cc + 1) 15)
                             else (N.land (cc + 255) 15, cc) in
          (cc, <[3 := N_byte (N.lor (N.land (byte_at p 3) 0xf0) mine)]> p)
        else (cc, p) in
      let '(cc, r) := emitted_loop pmt_pid cc r in
      (cc, p :: r)
  end.

Definition set_output_cc (cc : N) (a : LiveAudioSelection) : LiveAudioSelection :=
  mkSelection (as_layout a) (as_mapping a) (as_transport_stream_id a) (as_pat a) (as_pmt a)
    (as_source_pmt a) (as_removed a) (as_pcr a) (as_effective a) (as_version a) (as_rewrite a) cc.

Definition audio_emitted (a : LiveAudioSelection) (l : bytes) : bytes * LiveAudioSelection :=
  if negb (as_rewrite a) then (l, a)
  else
    let pkts := chunks_exact TS_PACKET_LEN l in
    let '(cc, out) := emitted_loop (snd <$> as_mapping a) (as_output_cc a) pkts in
    (concat out ++ drop (length pkts * TS_PACKET_LEN) l, set_output_cc cc a).

(** ** Accepted sections *)

(** What [psi_section] has checked of the section it returns. *)
Record section_ok (s : bytes) (id : N) (min : nat) (program : option N) : Prop := {
  so_id : byte_at s 0 = id;
  so_syntax : N.land (byte_at s 1) 0xf0 = 0xb0%N;
  so_length : length s = 3 + length12 (nth 1 s x00) (nth 2 s x00);
  so_min : min + 3 ≤ length s;
  so_max : length s ≤ 1024;
  so_current : flag (byte_at s 5) 1 = true;
  so_program : ∀ p, program = Some p → u16_at s 3 = p;
  so_crc : mpeg_crc32 s = 0%N;
  so_number : byte_at s 6 = 0%N;
  so_last : byte_at s 7 = 0%N;
}.

(** What it has checked of the packet's header. *)
Record psi_header (p : bytes) : Prop := {
  ph_sync : byte_at p 0 = 0x47%N;
  ph_error : flag (byte_at p 1) 0x80 = false;
  ph_start : flag (byte_at p 1) 0x40 = true;
}.

Lemma fail_if_Ok b e : fail_if b e = Ok () ↔ b = false.
Proof. destruct b; simpl; naive_solver. Qed.

Lemma bind_fail_if {B} b e (f : unit → result PsiError B) y :
  (fail_if b e ≫= f) = Ok y ↔ b = false ∧ f () = Ok y.
Proof. destruct b; simpl; naive_solver. Qed.

Lemma bind_ok_or {A B} (o : option A) e (f : A → result PsiError B) y :
  (ok_or o e ≫= f) = Ok y ↔ ∃ x, o = Some x ∧ f x = Ok y.
Proof. destruct o; simpl; naive_solver. Qed.

Lemma psi_payload_bounds p off : psi_payload p = Some off → 4 ≤ off < TS_PACKET_LEN.
Proof.
  unfold psi_payload, TS_PACKET_LEN. repeat case_match; try case_bool_decide; intros [= <-]; lia.
Qed.

Lemma nth_slice {A} (l : list A) a b i d : a + i < b → nth i (slice l a b) d = nth (a + i) l d.
Proof.
  intros H. rewrite !nth_lookup. unfold slice. rewrite lookup_take, lookup_drop.
  rewrite decide_True by lia. done.
Qed.

Lemma byte_at_slice l a b i : a + i < b → byte_at (slice l a b) i = byte_at l (a + i).
Proof. intros H. unfold byte_at. by rewrite nth_slice. Qed.

Lemma u16_at_slice l a b i : a + i + 2 ≤ b → u16_at (slice l a b) i = u16_at l (a + i).
Proof. intros H. unfold u16_at. rewrite slice_slice by lia. f_equal. f_equal. lia. Qed.

Lemma psi_section_Ok p id min program s : is_packet p → psi_section p id min program = Ok s →
  5 ≤ min →
  psi_header p ∧ section_ok s id min program ∧ ∃ off, psi_payload p = Some off ∧
  s = slice p (off + 1) (off + 1 + length s) ∧ off + 1 + length s ≤ TS_PACKET_LEN.
Proof.
  intros Hp H Hmin. unfold psi_section in H.
  apply bind_fail_if in H as [H0 H]. apply bind_ok_or in H as (off & Hoff & H).
  apply bind_fail_if in H as [H1 H]. apply bind_ok_or in H as (header & Hh & H).
  apply bind_fail_if in H as [H2 H]. apply bind_fail_if in H as [H3 H].
  apply bind_fail_if in H as [H4 H]. apply bind_Ok_inv in H as ([] & H5 & H).
  apply bind_ok_or in H as (s' & Hs & H). apply bind_fail_if in H as [H6 H].
  apply bind_fail_if in H as [H7 H]. injection H as ->.
  apply bool_decide_eq_false in H3.
  apply orb_false_iff in H0 as [[H0a H0b]%orb_false_iff H0c].
  apply orb_false_iff in H2 as [H2a H2b]. apply orb_false_iff in H6 as [H6a H6b].
  apply orb_false_iff in H7 as [[[H7a H7b]%orb_false_iff H7c]%orb_false_iff H7d].
  apply negb_false_iff in H0a, H1, H2a, H2b, H6a, H6b, H7a, H7b, H7c.
  apply N.eqb_eq in H0a, H2a, H2b, H6b, H7a, H7b, H7c.
  rewrite H7c in *. cbn [N.to_nat] in *. rewrite Nat.add_0_r in *.
  apply slice_get_Some in Hh as (-> & _ & _). apply slice_get_Some in Hs as (-> & _ & He).
  revert H2a H2b H3 H6a H6b H7a H7b He. rewrite !byte_at_slice by lia. rewrite !nth_slice by lia.
  rewrite !Nat.add_0_r. set (len := length12 _ _). intros.
  assert (length (slice p (off + 1) (off + 1 + 3 + len)) = 3 + len) as El by (rewrite slice_length; lia).
  rewrite El. split_and!; [by split| |].
  - rewrite byte_at_slice in H6a, H7a, H7b by lia.
    split; rewrite ?byte_at_slice, ?nth_slice, ?Nat.add_0_r by lia; try done; try lia.
    intros q ->. cbn in H5. apply bind_ok_or in H5 as (b & Hb & Hq). apply fail_if_Ok in Hq.
    apply negb_false_iff, N.eqb_eq in Hq. apply slice_get_Some in Hb as (-> & _ & _).
    rewrite u16_at_slice by lia. unfold u16_at. rewrite <- Hq. f_equal. f_equal. lia.
  - exists off. split_and!; [done|f_equal; lia|]. unfold is_packet in Hp. lia.
Qed.

(** A packet built around an acceptable section is accepted with that section. *)
Lemma map_header_byte b : let x := N_byte (N.lor (N.land (byte_N b) 0x0f) 0x10) in
  flag (byte_N x) 0xc0 = false ∧ N.land (byte_N x) 0x30 = 0x10%N
  ∧ N_byte (N.lor (N.land (byte_N x) 0x0f) 0x10) = x.
Proof. destruct b; vm_compute; done. Qed.

Lemma map_packet_shape p out : is_packet p → length out ≤ 183 → ∃ b0 b1 b2 b3 rest,
  p = b0 :: b1 :: b2 :: b3 :: rest ∧
  map_packet p out = [b0; b1; b2; N_byte (N.lor (N.land (byte_N b3) 0x0f) 0x10); x00]
                     ++ out ++ replicate (183 - length out) xff.
Proof.
  intros Hp Ho. unfold is_packet, TS_PACKET_LEN in Hp.
  destruct p as [|b0 [|b1 [|b2 [|b3 rest]]]]; try (simpl in Hp; lia).
  exists b0, b1, b2, b3, rest. split; [done|]. unfold map_packet, byte_at, TS_PACKET_LEN. simpl.
  done.
Qed.

Lemma map_packet_is_packet p out : is_packet p → length out ≤ 183 → is_packet (map_packet p out).
Proof.
  intros Hp Ho. destruct (map_packet_shape p out Hp Ho) as (?&?&?&?&?&_&->).
  unfold is_packet, TS_PACKET_LEN. rewrite !length_app, length_replicate. simpl. lia.
Qed.

Lemma map_packet_pid p out : is_packet p → length out ≤ 183 → ts_pid (map_packet p out) = ts_pid p.
Proof. intros Hp Ho. by destruct (map_packet_shape p out Hp Ho) as (?&?&?&?&?&->&->). Qed.

Lemma map_packet_section p out id min program : is_packet p → psi_header p → length out ≤ 183 →
  section_ok out id min program → 5 ≤ min → psi_section (map_packet p out) id min program = Ok out.
Proof.
  intros Hp [Hs He Hpu] Ho Hok Hmin.
  destruct (map_packet_shape p out Hp Ho) as (b0 & b1 & b2 & b3 & rest & -> & Em).
  destruct (map_header_byte b3) as (Hx1 & Hx2 & _). revert Em Hx1 Hx2.
  set (x := N_byte _). intros Em Hx1 Hx2. clearbody x.
  set (m := map_packet _ _) in *. clearbody m.
  change (byte_at _ 0) with (byte_N b0) in Hs. change (byte_at (_ :: _) 1) with (byte_N b1) in He, Hpu.
  assert (∀ i, nth (5 + i) m x00 = nth i (out ++ replicate (183 - length out) xff) x00) as Hn by (by subst m).
  assert (∀ a b, b ≤ length out → slice m (5 + a) (5 + b) = slice out a b) as Hsl.
  { intros a b Hb. subst m. unfold slice.
    replace (5 + b - (5 + a)) with (b - a) by lia. simpl.
    destruct (decide (a ≤ length out)).
    - rewrite drop_app_le by lia. rewrite take_app_le by (rewrite length_drop; lia). done.
    - replace (b - a) with 0 by lia. done. }
  assert (length m = 188) as Hm by (subst m; rewrite !length_app, length_replicate; simpl; lia).
  destruct Hok as [o1 o2 o3 o4 o5 o6 o7 o8 o9 o10].
  assert (∀ a b, a ≤ b → b ≤ length out → slice_get m (5 + a) (5 + b) = Some (slice out a b)) as Hsg.
  { intros a b Hab Hb. rewrite <- Hsl by done. apply slice_get_Some. split; [done|]. lia. }
  unfold psi_section.
  replace (byte_at m 0) with (byte_N b0) by (by subst m).
  replace (byte_at m 1) with (byte_N b1) by (by subst m).
  replace (byte_at m 3) with (byte_N x) by (by subst m).
  assert (psi_payload m = Some 4) as ->.
  { unfold psi_payload. replace (byte_at m 3) with (byte_N x) by (by subst m). rewrite Hx2. done. }
  rewrite Hs, He, Hx1, Hpu. cbn [mbind result_bind ok_or fail_if negb orb N.eqb Pos.eqb].
  assert (byte_at m 4 = 0%N) as -> by (by subst m).
  change (4 + 1 + N.to_nat 0) with 5.
  replace (slice_get m 5 (5 + 3)) with (Some (slice out 0 3)) by (symmetry; apply (Hsg 0 3); lia).
  cbn [mbind result_bind ok_or].
  assert (∀ i, i < 3 → nth i (slice out 0 3) x00 = nth i out x00) as Hh by (intros; by rewrite nth_slice by lia).
  replace (byte_at (slice out 0 3) 0) with (byte_at out 0) by (unfold byte_at; by rewrite Hh by lia).
  replace (byte_at (slice out 0 3) 1) with (byte_at out 1) by (unfold byte_at; by rewrite Hh by lia).
  rewrite !Hh, o1, o2 by lia.
  cbn [mbind result_bind ok_or fail_if negb orb N.eqb Pos.eqb].
  rewrite N.eqb_refl. cbn [mbind result_bind ok_or fail_if negb orb].
  rewrite (bool_decide_eq_false_2 (_ ∨ _)) by lia. cbn [mbind result_bind fail_if].
  assert (m !! (5 + 5) = Some (nth 5 out x00)) as ->.
  { subst m. simpl. rewrite lookup_app_l by lia.
    destruct (lookup_lt_is_Some_2 out 5 ltac:(lia)) as [y Hy]. by rewrite (nth_lookup_Some _ _ _ _ Hy). }
  fold (byte_at out 5). rewrite o6. cbn [mbind result_bind fail_if negb].
  assert (∀ {B} (f : unit → result PsiError B), mbind (M:=result PsiError) f (match program with
      | Some program => b ← ok_or (slice_get m (5 + 3) (5 + 5)) PsiInvalid;
                        fail_if (negb (be_N b =? program)%N) PsiInvalid
      | None => Ok () end) = f ()) as ->.
  { intros B f. destruct program as [q|]; [|done]. rewrite Hsg by lia. simpl.
    specialize (o7 q eq_refl). unfold u16_at in o7. simpl in o7. rewrite o7, N.eqb_refl. done. }
  rewrite <- Nat.add_assoc, <- o3.
  replace (slice_get m 5 (5 + length out)) with (Some (slice out 0 (length out)))
    by (symmetry; apply (Hsg 0 (length out)); lia).
  cbn [mbind result_bind ok_or]. unfold slice. rewrite drop_0, take_ge by lia.
  rewrite o6, o8, o9, o10. cbn [mbind result_bind fail_if negb orb N.eqb].
  rewrite bool_decide_eq_true_2; [done|].
  subst m. simpl. rewrite drop_app_length. by apply Forall_replicate.
Qed.

(** ** The elementary streams of a map *)

(** The bytes of an entry, and what the parser reads from them. *)
Definition e_raw (s : bytes) (x : Entry) : bytes := slice s (e_pos x) (e_next x).

Definition raw_ok (r : bytes) (p : N) (codec : option AudioCodec) : Prop :=
  5 ≤ length r ∧ length r = 5 + length12 (nth 3 r x00) (nth 4 r x00) ∧ psi_pid (drop 1 r) = p
  ∧ ∃ c, audio_codec (byte_at r 0) (drop 5 r) = Some c ∧ dc_first c = codec.

Definition entry_ok (s : bytes) (x : Entry) : Prop := raw_ok (e_raw s x) (e_pid x) (e_codec x).

Lemma psi_pid_drop l i : psi_pid (drop i l) = N.lor (N.shiftl (N.land (byte_at l i) 31) 8) (byte_at l (i + 1)).
Proof. unfold psi_pid, byte_at. rewrite !nth_lookup, !lookup_drop, Nat.add_0_r. done. Qed.

Lemma drop_slice {A} (l : list A) a b i : drop i (slice l a b) = slice l (a + i) b.
Proof. unfold slice. rewrite skipn_firstn_comm, drop_drop. f_equal. lia. Qed.

(** One entry: what the loop reads at a position is what [raw_ok] says of the bytes there. *)
Lemma entry_step s pos next p codec : pos + 5 ≤ next → next ≤ length s →
  raw_ok (slice s pos next) p codec ↔
  next = pos + 5 + length12 (nth (pos + 3) s x00) (nth (pos + 4) s x00)
  ∧ psi_pid (drop (pos + 1) s) = p
  ∧ ∃ c, audio_codec (byte_at s pos) (slice s (pos + 5) next) = Some c ∧ dc_first c = codec.
Proof.
  intros H1 H2. unfold raw_ok. rewrite slice_length, !nth_slice, !psi_pid_drop, !byte_at_slice, drop_slice by lia.
  rewrite Nat.add_0_r, Nat.add_assoc. split; intros; destruct_and!; split_and!; try done; lia.
Qed.

Lemma existsb_pid_false p entries : existsb (λ x, (e_pid x =? p)%N) entries = false ↔ p ∉ map e_pid entries.
Proof.
  split.
  - intros H (x & -> & Hx)%list_elem_of_fmap. apply not_true_iff_false in H. apply H.
    apply existsb_exists. exists x. split; [by apply list_elem_of_In|apply N.eqb_refl].
  - intros H. apply not_true_iff_false. intros (x & Hx & Hxp%N.eqb_eq)%existsb_exists. apply H.
    apply list_elem_of_In, in_map_iff. by exists x.
Qed.

Lemma es_loop_Ok fuel s : ∀ pos e acc conf entries conf', pos ≤ e → e ≤ length s →
  es_loop fuel s pos e acc conf = Ok (entries, conf') → NoDup (map e_pid acc) →
  ∃ new, entries = acc ++ new ∧ Forall (entry_ok s) new ∧ concat (map (e_raw s) new) = slice s pos e
    ∧ NoDup (map e_pid entries).
Proof.
  induction fuel as [|fuel IH]; intros pos e acc conf entries conf' Hpe He H Hnd; [done|].
  simpl in H. case_bool_decide as Hp.
  - apply bind_ok_or in H as (h & Hh & H). destruct (bool_decide (pos + 5 ≤ e)) eqn:H5; [|done]; apply bool_decide_eq_true in H5.
    apply slice_get_Some in Hh as (-> & _ & _). apply bind_fail_if in H as [Hn H].
    apply bool_decide_eq_false in Hn. apply bind_ok_or in H as (c & Hc & H).
    apply bind_fail_if in H as [Hd H]. revert Hn Hc Hd H.
    rewrite drop_slice, !nth_slice by lia. rewrite byte_at_slice, Nat.add_0_r by lia.
    assert (psi_pid (slice s (pos + 1) (pos + 5)) = psi_pid (drop (pos + 1) s)) as ->.
    { unfold psi_pid. rewrite !byte_at_slice by lia. unfold byte_at.
      rewrite !nth_lookup, !lookup_drop. done. }
    set (next := pos + 5 + _). set (x := mkEntry _ _ _ _). intros Hn Hc Hd H.
    apply existsb_pid_false in Hd.
    apply IH in H as (new & -> & Hok & Hcat & Hnd'); [|lia|done|].
    + exists (x :: new). rewrite <- app_assoc in *. simpl. split_and!; try done.
      * constructor; [|done]. unfold entry_ok, e_raw. simpl. apply entry_step; [lia|lia|]. by eauto.
      * rewrite Hcat. unfold e_raw. simpl. apply slice_join. lia.
    + rewrite map_app. simpl. apply NoDup_app. split_and!; [done|set_solver|apply NoDup_singleton].
  - injection H as -> ->. exists []. rewrite app_nil_r. split_and!; try done.
    simpl. unfold slice. replace (e - pos) with 0 by lia. done.
Qed.

(** Conversely a run of well-formed entries with distinct PIDs parses, entry by entry. *)
Lemma es_loop_complete s e : ∀ raws fuel pos acc conf, e ≤ length s → pos ≤ e → length raws < fuel →
  Forall (λ r, raw_ok r.1.1 r.1.2 r.2) raws → concat (map (λ r, r.1.1) raws) = slice s pos e →
  NoDup (map e_pid acc ++ map (λ r, r.1.2) raws) →
  ∃ new conf', es_loop fuel s pos e acc conf = Ok (acc ++ new, conf')
    ∧ map (λ x, (e_raw s x, e_pid x, e_codec x)) new = raws.
Proof.
  induction raws as [|[[r p] codec] raws IH]; intros fuel pos acc conf He Hpe Hf Hok Hcat Hnd;
    (destruct fuel as [|fuel]; [simpl in Hf; lia|]); simpl in *.
  - apply (f_equal length) in Hcat. rewrite slice_length in Hcat by lia. simpl in Hcat.
    rewrite bool_decide_eq_false_2 by lia. exists [], conf. by rewrite app_nil_r.
  - apply Forall_cons in Hok as [Hr Hok]. simpl in Hr.
    assert (length r + length (concat (map (λ r, r.1.1) raws)) = e - pos) as Hl.
    { apply (f_equal length) in Hcat. rewrite slice_length, length_app in Hcat by lia. done. }
    assert (5 ≤ length r) as Hr5 by (by destruct Hr).
    assert (r = slice s pos (pos + length r)) as Er.
    { apply (f_equal (take (length r))) in Hcat. rewrite take_app_length in Hcat.
      etrans; [exact Hcat|]. unfold slice. rewrite take_take. f_equal. lia. }
    assert (concat (map (λ r, r.1.1) raws) = slice s (pos + length r) e) as Hcat'.
    { apply (f_equal (drop (length r))) in Hcat. rewrite drop_app_length in Hcat. rewrite Hcat.
      apply drop_slice. }
    rewrite Er in Hr. apply entry_step in Hr as (Hn & Hp & c & Hc & <-); [|lia|lia].
    rewrite (bool_decide_eq_true_2 (pos < e)), (bool_decide_eq_true_2 (pos + 5 ≤ e)) by lia.
    unfold slice_get. rewrite (bool_decide_eq_true_2 (_ ∧ _)) by lia. cbn [ok_or mbind result_bind].
    fold (slice s pos (pos + 5)).
    rewrite drop_slice, !nth_slice, byte_at_slice, Nat.add_0_r by lia.
    assert (psi_pid (slice s (pos + 1) (pos + 5)) = p) as ->.
    { subst p. unfold psi_pid. rewrite !byte_at_slice by lia. unfold byte_at.
      rewrite !nth_lookup, !lookup_drop. done. }
    rewrite <- Hn. rewrite (bool_decide_eq_false_2 (e < _)) by lia. cbn [fail_if mbind result_bind].
    rewrite Hc. cbn [ok_or mbind result_bind].
    apply NoDup_app in Hnd as (Hn1 & Hn2 & Hn3). apply NoDup_cons in Hn3 as [Hn3 Hn4].
    rewrite (proj2 (existsb_pid_false _ _)) by set_solver. cbn [fail_if mbind result_bind].
    destruct (IH fuel (pos + length r) (acc ++ [mkEntry pos (pos + length r) p (dc_first c)])
      (conf || dc_conflicting c)) as (new & conf' & Hloop & Hmap); try done; try lia.
    { rewrite map_app. simpl. rewrite <- app_assoc. apply NoDup_app. split_and!; [done|set_solver|].
      apply NoDup_cons. done. }
    rewrite Hloop. eexists (_ :: new), conf'. rewrite <- app_assoc. split; [done|].
    simpl. rewrite Hmap. unfold e_raw at 1. simpl. by rewrite <- Er.
Qed.

(** ** The rewritten map *)

(** What [parse_map] has established. *)
Record map_ok (program : option N) (packet s : bytes) (begin : nat) (entries : list Entry) : Prop := {
  mo_header : psi_header packet;
  mo_section : section_ok s 2 13 program;
  mo_program : Some (u16_at s 3) = program;
  mo_begin : begin = 12 + length12 (nth 10 s x00) (nth 11 s x00);
  mo_end : begin + 4 ≤ length s;
  mo_info : is_Some (descriptors (slice s 12 begin));
  mo_entries : Forall (entry_ok s) entries;
  mo_cover : concat (map (e_raw s) entries) = slice s begin (length s - 4);
  mo_pids : NoDup (map e_pid entries);
  mo_fits : length s ≤ 183;
}.

Lemma parse_map_Ok program packet s begin entries c : is_packet packet →
  parse_map program packet = Ok (s, begin, entries, c) → map_ok program packet s begin entries.
Proof.
  intros Hp H. unfold parse_map in H. apply bind_Ok_inv in H as (s' & Hs & H).
  apply psi_section_Ok in Hs as (Hh & Hok & off & Hoff & Es & Hfit); [|done|lia].
  apply bind_fail_if in H as [H1 H]. apply bind_fail_if in H as [H2 H]. apply bind_ok_or in H as (info & Hi & H).
  apply bind_Ok_inv in H as ([entries' c'] & Hl & H). injection H as -> <- -> ->.
  apply negb_false_iff, bool_decide_eq_true in H1. apply bool_decide_eq_false in H2.
  pose proof (so_min _ _ _ _ Hok) as Hmin.
  apply es_loop_Ok in Hl as (new & -> & He & Hc & Hnd); [|lia|lia|constructor].
  apply psi_payload_bounds in Hoff. unfold TS_PACKET_LEN in *.
  split; try done; lia.
Qed.

Lemma length_effective s begin entries removed : length (effective_map s begin entries removed) =
  length (take begin s) + length (concat (map (e_raw s) (List.filter (λ x, negb (in_list (e_pid x) removed)) entries))).
Proof. unfold effective_map. rewrite !length_insert, length_app. done. Qed.

Lemma concat_filter_le {A B} (f : A → list B) (P : A → bool) l :
  length (concat (map f (List.filter P l))) ≤ length (concat (map f l)).
Proof. induction l as [|x l IH]; simpl; [lia|]. destruct (P x); simpl; rewrite ?length_app; lia. Qed.

Lemma nth_insert_ne {A} (l : list A) i j x d : i ≠ j → nth i (<[j:=x]> l) d = nth i l d.
Proof. intros H. rewrite !nth_lookup, list_lookup_insert_ne by done. done. Qed.

Lemma nth_insert_eq {A} (l : list A) i x d : i < length l → nth i (<[i:=x]> l) d = x.
Proof. intros H. rewrite nth_lookup, list_lookup_insert_eq by done. done. Qed.

(** The version bits of byte five come and go without touching the others. *)
Lemma version_bits b v : (v < 32)%N → let c := N_byte (N.land (byte_N b) 0xc1) in
  let x := N_byte (N.lor (byte_N c) (N.shiftl v 1)) in
  flag (byte_N x) 1 = flag (byte_N b) 1 ∧ N_byte (N.land (byte_N x) 0xc1) = c
  ∧ N.land (N.shiftr (byte_N x) 1) 31 = v.
Proof.
  intros Hv.
  assert (forallb (λ v, let c := N_byte (N.land (byte_N b) 0xc1) in
    let x := N_byte (N.lor (byte_N c) (N.shiftl v 1)) in
    Bool.eqb (flag (byte_N x) 1) (flag (byte_N b) 1) && Byte.eqb (N_byte (N.land (byte_N x) 0xc1)) c
    && N.eqb (N.land (N.shiftr (byte_N x) 1) 31) v) (map N.of_nat (seq 0 32)) = true) as H.
  { destruct b; vm_compute; reflexivity. }
  rewrite forallb_forall in H. specialize (H v). cbv zeta in H |- *.
  apply andb_true_iff in H as [[H1%Bool.eqb_prop H2]%andb_true_iff H3%N.eqb_eq].
  - split_and!; [done| |done]. by apply Byte.byte_dec_bl.
  - apply in_map_iff. exists (N.to_nat v). rewrite N2Nat.id, in_seq. split; [done|lia].
Qed.

Section rewritten.
Context (program : option N) (packet s : bytes) (begin : nat) (entries : list Entry).
Context (Hpkt : is_packet packet) (Hmap : map_ok program packet s begin entries).
Context (removed : list N) (v : N).
Local Definition kept : list Entry := List.filter (λ x, negb (in_list (e_pid x) removed)) entries.
Local Definition base : bytes := take begin s ++ concat (map (e_raw s) kept).
Local Definition out : bytes := effective_map s begin entries removed.
Local Definition sec : bytes := map_section out v.

Lemma rw_begin : 12 ≤ begin ∧ begin + 4 ≤ length s ∧ length s ≤ 183.
Proof. destruct Hmap. lia. Qed.

Lemma rw_base_length : length base = begin + length (concat (map (e_raw s) kept)) ∧ length base + 4 ≤ length s.
Proof.
  pose proof rw_begin. unfold base. rewrite length_app, length_take.
  pose proof (concat_filter_le (e_raw s) (λ x, negb (in_list (e_pid x) removed)) entries) as Hle.
  fold kept in Hle. rewrite (mo_cover _ _ _ _ _ Hmap), slice_length in Hle by lia. lia.
Qed.

Lemma rw_lengths : length out = length base ∧ length sec = length base + 4 ∧ length sec ≤ 183.
Proof.
  destruct rw_base_length as [E1 E2]. pose proof rw_begin.
  assert (length out = length base) as E by (unfold out; rewrite length_effective; unfold base; by rewrite length_app).
  unfold sec, map_section. rewrite length_app, length_insert. change (length (u32_be _)) with 4. lia.
Qed.

Lemma rw_keep i : i < begin → i ≠ 1 → i ≠ 2 → i ≠ 5 → nth i sec x00 = nth i s x00.
Proof.
  intros Hi H1 H2 H5. destruct rw_lengths as (E1 & _). destruct rw_base_length as [E2 _].
  unfold sec, map_section. rewrite app_nth1 by (rewrite length_insert; lia).
  unfold out, effective_map. rewrite !nth_insert_ne by done.
  pose proof rw_begin. rewrite app_nth1 by (rewrite length_take; lia).
  rewrite !nth_lookup, lookup_take_lt by lia. done.
Qed.

Lemma rw_tail : drop 6 sec = drop 6 base ++ u32_be (mpeg_crc32 (take (length base) sec)).
Proof.
  destruct rw_lengths as (E1 & _). destruct rw_base_length as [E2 _]. pose proof rw_begin.
  unfold sec at 1, map_section. rewrite drop_app_le by (rewrite length_insert; lia).
  rewrite drop_insert_lt by lia. unfold out at 1, effective_map. rewrite !drop_insert_lt by lia.
  f_equal. do 2 f_equal. unfold sec, map_section. rewrite take_app_le by (rewrite length_insert; lia).
  rewrite take_ge by (rewrite length_insert; lia). done.
Qed.

Lemma rw_slice a b : 6 ≤ a → b ≤ length base → slice sec a b = slice base a b.
Proof.
  intros Ha Hb. unfold slice. replace (drop a sec) with (drop (a - 6) (drop 6 sec)) by (rewrite drop_drop; f_equal; lia).
  replace (drop a base) with (drop (a - 6) (drop 6 base)) by (rewrite drop_drop; f_equal; lia).
  rewrite rw_tail. destruct (decide (a ≤ b)); [|by replace (b - a) with 0 by lia].
  rewrite drop_app_le by (rewrite length_drop; lia).
  rewrite take_app_le by (rewrite !length_drop; lia). done.
Qed.

(** The three bytes that change. *)
Lemma rw_changed : nth 1 sec x00 = N_byte 0xb0 ∧ nth 2 sec x00 = N_byte (N.of_nat (length base + 1))
  ∧ nth 5 out x00 = N_byte (N.land (byte_at s 5) 0xc1)
  ∧ nth 5 sec x00 = N_byte (N.lor (byte_at out 5) (N.shiftl v 1)).
Proof.
  destruct rw_lengths as (E1 & E3 & E4). destruct rw_base_length as [E2 _]. pose proof rw_begin.
  assert (nth 5 base x00 = nth 5 s x00) as E5.
  { unfold base. rewrite app_nth1 by (rewrite length_take; lia). rewrite !nth_lookup, lookup_take_lt by lia. done. }
  unfold sec, map_section. rewrite !app_nth1 by (rewrite length_insert; lia).
  rewrite (nth_insert_eq _ 5) by lia. rewrite !(nth_insert_ne _ _ 5) by lia.
  unfold out at 1 2 3, effective_map. fold (e_raw s). fold kept.
  rewrite !(nth_insert_ne _ _ 5) by lia. change (map _ kept) with (map (e_raw s) kept). fold base.
  rewrite nth_insert_ne, nth_insert_eq by (rewrite ?length_insert; lia).
  rewrite nth_insert_eq by (rewrite ?length_insert; lia).
  rewrite nth_insert_eq by (rewrite ?length_insert; lia).
  unfold byte_at at 1. rewrite !nth_insert_ne by lia. rewrite E5. split_and!; try done.
  rewrite N.shiftr_div_pow2, N.div_small by lia. done.
Qed.

Lemma length12_at n : n < 256 → length12 (N_byte 0xb0) (N_byte (N.of_nat n)) = n.
Proof.
  intros Hn. unfold length12. rewrite (byte_N_of_N (N.of_nat n)) by lia.
  change (N.shiftl _ 8) with 0%N. rewrite N.lor_0_l. lia.
Qed.

Lemma u16_at_nth l i : i + 2 ≤ length l → u16_at l i = be_N [nth i l x00; nth (i + 1) l x00].
Proof.
  intros H. unfold u16_at. f_equal. apply list_eq. intros j. unfold slice.
  destruct (lookup_lt_is_Some_2 l i ltac:(lia)) as [x Hx].
  destruct (lookup_lt_is_Some_2 l (i + 1) ltac:(lia)) as [y Hy].
  rewrite (nth_lookup_Some _ _ _ _ Hx), (nth_lookup_Some _ _ _ _ Hy).
  destruct j as [|[|j]]; rewrite ?lookup_take_lt, ?lookup_drop, ?Nat.add_0_r by lia; try done.
  rewrite lookup_take_ge by lia. done.
Qed.

Context (Hv : (v < 32)%N).

Lemma rw_section : section_ok sec 2 13 program.
Proof.
  destruct rw_lengths as (E1 & E2 & E3). destruct rw_base_length as [E4 _]. pose proof rw_begin.
  destruct rw_changed as (C1 & C2 & C5 & C5'). destruct (mo_section _ _ _ _ _ Hmap).
  destruct (version_bits (nth 5 s x00) v Hv) as (V1 & _ & _).
  assert (byte_at sec 0 = byte_at s 0) as B0 by (unfold byte_at; rewrite rw_keep by lia; done).
  split; try (unfold byte_at; rewrite rw_keep by lia; done).
  - unfold byte_at. rewrite C1. done.
  - rewrite C1, C2, length12_at by lia. lia.
  - lia.
  - lia.
  - unfold byte_at at 1. rewrite C5'. unfold byte_at at 1. rewrite C5. fold (byte_at s 5) in V1.
    unfold byte_at in V1 at 1. unfold byte_at. rewrite V1. done.
  - intros p Hp. rewrite u16_at_nth, !rw_keep by lia. rewrite <- u16_at_nth by lia. auto.
  - unfold sec, map_section. apply crc32_residue.
Qed.

(** Parsing the packet built around it finds the kept streams. *)
Lemma rw_parse : ∃ entries' c, parse_map program (map_packet packet sec) = Ok (sec, begin, entries', c)
  ∧ map (λ x, (e_raw sec x, e_pid x, e_codec x)) entries' = map (λ x, (e_raw s x, e_pid x, e_codec x)) kept
  ∧ map_ok program (map_packet packet sec) sec begin entries'.
Proof.
  destruct rw_lengths as (E1 & E2 & E3). destruct rw_base_length as [E4 E5]. pose proof rw_begin.
  pose proof (map_packet_is_packet packet sec Hpkt E3) as Hp'.
  assert (slice sec 12 begin = slice s 12 begin) as Hinfo.
  { rewrite rw_slice by lia. unfold base, slice. rewrite drop_app_le by (rewrite length_take; lia).
    rewrite take_app_le by (rewrite length_drop, length_take; lia).
    rewrite skipn_firstn_comm, take_take. f_equal. lia. }
  assert (slice sec begin (length sec - 4) = concat (map (e_raw s) kept)) as Hcat.
  { rewrite E2, Nat.add_sub. rewrite rw_slice by lia. unfold slice, base.
    rewrite drop_app_le by (rewrite length_take; lia). rewrite skipn_firstn_comm, Nat.sub_diag. simpl.
    apply take_ge. rewrite length_app, length_take. fold base. unfold base in E4. rewrite length_app, length_take in E4. lia. }
  destruct (mo_info _ _ _ _ _ Hmap) as [info Hi].
  destruct (es_loop_complete sec (length sec - 4) (map (λ x, (e_raw s x, e_pid x, e_codec x)) kept)
    (S (length sec)) begin [] (dc_conflicting info)) as (new & c & Hloop & Hnew); try lia.
  - rewrite length_map.
    assert (length kept ≤ length (concat (map (e_raw s) kept))); [|lia].
    assert (Forall (λ x, 5 ≤ length (e_raw s x)) kept) as H5.
    { apply Forall_forall. intros x [Hx _]%list_elem_of_In%filter_In.
      pose proof (mo_entries _ _ _ _ _ Hmap) as He. rewrite Forall_forall in He. apply list_elem_of_In in Hx.
      apply He in Hx as [? _]. done. }
    clear -H5. induction H5; simpl; rewrite ?length_app; lia.
  - apply Forall_map. apply Forall_forall. intros x [Hx _]%list_elem_of_In%filter_In. simpl.
    pose proof (mo_entries _ _ _ _ _ Hmap) as He. rewrite Forall_forall in He. by apply He, list_elem_of_In.
  - rewrite map_map. simpl. done.
  - rewrite map_map. simpl. pose proof (mo_pids _ _ _ _ _ Hmap) as Hnd. unfold kept.
    clear -Hnd. induction entries as [|x l IH]; [constructor|]. simpl in *. apply NoDup_cons in Hnd as [Hx Hnd].
    destruct (negb _); [|auto]. simpl. apply NoDup_cons. split; [|auto].
    intros (y & Hy & [Hin _]%filter_In)%list_elem_of_In%in_map_iff. apply Hx. rewrite <- Hy.
    apply list_elem_of_In, in_map. done.
  - assert (parse_map program (map_packet packet sec) = Ok (sec, begin, new, c)) as Hparse.
    { unfold parse_map. rewrite map_packet_section by (try apply rw_section; try apply (mo_header _ _ _ _ _ Hmap); try done; lia).
      cbn [mbind result_bind]. rewrite u16_at_nth, !rw_keep, <- u16_at_nth by lia.
      rewrite (bool_decide_eq_true_2 (_ = program)) by apply (mo_program _ _ _ _ _ Hmap). cbn [negb fail_if mbind result_bind].
      rewrite <- (mo_begin _ _ _ _ _ Hmap). rewrite (bool_decide_eq_false_2 (_ < begin)) by lia.
      cbn [fail_if mbind result_bind].
      rewrite Hinfo, Hi. cbn [ok_or mbind result_bind]. rewrite Hloop. done. }
    exists new, c. split_and!; [done|done|]. by apply parse_map_Ok with (c := c).
Qed.
End rewritten.

Lemma map_section_nth o v i : i ≠ 5 → i < length o → nth i (map_section o v) x00 = nth i o x00.
Proof.
  intros H5 Hi. unfold map_section. rewrite app_nth1 by (rewrite length_insert; lia). by apply nth_insert_ne.
Qed.

Lemma effective_nth s begin entries removed i : i ≠ 1 → i ≠ 2 → i ≠ 5 →
  nth i (effective_map s begin entries removed) x00 = nth i (base s begin entries removed) x00.
Proof. intros. unfold effective_map. by rewrite !nth_insert_ne. Qed.

(** The filtering depends on the PIDs and codecs only, keeps the selected track and is done. *)
Definition e_view (x : Entry) : N * option AudioCodec := (e_pid x, e_codec x).

Lemma selected_view l1 l2 : map e_view l1 = map e_view l2 → selected_aac l1 = selected_aac l2.
Proof.
  revert l2. induction l1 as [|x l1 IH]; intros [|y l2] H; try done. simpl in H. injection H as Hp Hc H.
  unfold selected_aac in *. simpl. rewrite Hc. case_bool_decide; simpl; [by rewrite Hp|auto].
Qed.

Lemma removed_view l1 l2 : map e_view l1 = map e_view l2 → removed_pids l1 = removed_pids l2.
Proof.
  intros H. unfold removed_pids. rewrite (selected_view _ _ H). generalize (selected_aac l2) as sel. intros sel.
  revert l2 H. induction l1 as [|x l1 IH]; intros [|y l2] H; try done. simpl in H. injection H as Hp Hc H.
  simpl.
  assert (displaced sel x = displaced sel y) as -> by (unfold displaced; by rewrite Hp, Hc).
  destruct (displaced sel y); simpl; [rewrite Hp; f_equal|]; by apply IH.
Qed.

Lemma in_list_spec x l : in_list x l = true ↔ x ∈ l.
Proof.
  unfold in_list. rewrite existsb_exists, list_elem_of_In. split; [|intros; exists x; by rewrite N.eqb_refl].
  intros (y & Hy & ->%N.eqb_eq). done.
Qed.

Lemma displaced_removed entries x : NoDup (map e_pid entries) → x ∈ entries →
  in_list (e_pid x) (removed_pids entries) = displaced (selected_aac entries) x.
Proof.
  intros Hnd Hx. unfold removed_pids. generalize (selected_aac entries) as sel. intros sel.
  destruct (displaced sel x) eqn:E.
  - apply in_list_spec, list_elem_of_In, in_map_iff. exists x. split; [done|]. apply filter_In.
    split; [by apply list_elem_of_In|done].
  - apply not_true_iff_false. rewrite in_list_spec, list_elem_of_In.
    intros (y & Hy & [Hin Hd]%filter_In)%in_map_iff. enough (y = x) by congruence.
    apply list_elem_of_In in Hin. apply list_elem_of_lookup in Hin as [i Hi], Hx as [j Hj].
    enough (i = j) by congruence. eapply (NoDup_lookup (map e_pid entries)); [done| |].
    + apply list_lookup_fmap_Some. by eauto.
    + apply list_lookup_fmap_Some. by eauto.
Qed.

Lemma kept_displaced entries : NoDup (map e_pid entries) →
  kept entries (removed_pids entries) = List.filter (λ x, negb (displaced (selected_aac entries) x)) entries.
Proof.
  intros Hnd. unfold kept. apply filter_ext_in. intros x Hx. f_equal. apply displaced_removed; [done|].
  by apply list_elem_of_In.
Qed.

Lemma find_filter {A} (f g : A → bool) l x : find f l = Some x → g x = true → find f (List.filter g l) = Some x.
Proof.
  induction l as [|y l IH]; simpl; [done|]. destruct (f y) eqn:E.
  - intros [= ->] ->. simpl. by rewrite E.
  - intros H Hg. destruct (g y); simpl; [rewrite E|]; auto.
Qed.

Lemma selected_kept entries : is_Some (selected_aac entries) →
  selected_aac (List.filter (λ x, negb (displaced (selected_aac entries) x)) entries) = selected_aac entries.
Proof.
  intros [p Hp]. pose proof Hp as Hs. unfold selected_aac in Hp. destruct (find _ entries) as [x|] eqn:Hf; [|done].
  injection Hp as Hp. unfold selected_aac at 1. erewrite find_filter; [|exact Hf|].
  - rewrite Hs. simpl. by rewrite Hp.
  - rewrite Hs. unfold displaced. rewrite Hp. rewrite (bool_decide_eq_true_2 (Some p = Some p)) by done.
    by rewrite andb_false_r.
Qed.

Lemma removed_kept entries : is_Some (selected_aac entries) →
  removed_pids (List.filter (λ x, negb (displaced (selected_aac entries) x)) entries) = [].
Proof.
  intros H. unfold removed_pids. rewrite selected_kept by done. generalize (selected_aac entries) as sel. intros sel.
  clear H. induction entries as [|x l IH]; [done|]. simpl. destruct (displaced sel x) eqn:E; simpl; [done|].
  by rewrite E.
Qed.

(** The streams a map announces: type, PID and audio codec. *)
Definition announced (program : option N) (packet : bytes) : option (list (N * N * option AudioCodec)) :=
  match parse_map program packet with
  | Ok (s, _, entries, _) => Some (map (λ x, (byte_at s (e_pos x), e_pid x, e_codec x)) entries)
  | Err _ => None
  end.

Definition is_audio (t : N * N * option AudioCodec) : bool := bool_decide (is_Some t.2).

(** The selection as its owner drives it. *)
Inductive AudioOp : Type :=
  | AudioObserve (packet : bytes)
  | AudioEmitted (segment : bytes)
  | AudioReset.

Definition audio_op (a : LiveAudioSelection) (op : AudioOp) : LiveAudioSelection :=
  match op with
  | AudioObserve packet => (audio_observe a packet).2
  | AudioEmitted segment => (audio_emitted a segment).2
  | AudioReset => audio_reset a
  end.

Definition audio_run (ops : list AudioOp) : LiveAudioSelection := foldl audio_op selection_default ops.

Lemma land_31_lt n : (N.land n 31 < 32)%N.
Proof. change 31%N with (N.ones 5). rewrite N.land_ones. by apply N.mod_lt. Qed.

Lemma install_version a packet s begin entries c : (as_version a < 32)%N →
  (as_version (install_map a packet s begin entries c).2 < 32)%N.
Proof.
  intros H. unfold install_map. simpl. repeat case_match; try done; apply land_31_lt.
Qed.

Lemma update_pmt_inv a p d a' : update_pmt a p = Ok (d, a') → ∃ s begin entries c,
  parse_map (fst <$> as_mapping a) p = Ok (s, begin, entries, c) ∧ install_map a p s begin entries c = (d, a').
Proof.
  unfold update_pmt. intros ([[[s b] es] c] & Hp & H)%bind_Ok_inv. exists s, b, es, c. split; [done|].
  set (r := install_map _ _ _ _ _ _) in *. clearbody r. by injection H.
Qed.

Lemma audio_op_version a op : (as_version a < 32)%N → (as_version (audio_op a op) < 32)%N.
Proof.
  intros H. destruct op as [p|l|]; simpl; [|by unfold audio_emitted; repeat case_match|done].
  assert (∀ l, as_version (set_layout l a) = as_version a) as Hl by done.
  unfold audio_observe. set (a1 := if flag _ _ then _ else a).
  assert (as_version a1 < 32)%N as H1 by (unfold a1; by case_match). clearbody a1. clear H Hl.
  repeat case_match; try done.
  - unfold observe_pat, forget_association, audio_disable. repeat case_match; simplify_eq; done.
  - unfold observe_pmt. destruct (update_pmt a1 p) as [[d a2]|[]] eqn:E; try done.
    apply update_pmt_inv in E as (s & b & es & c & _ & E). simpl.
    pose proof (install_version a1 p s b es c H1) as Hv. by rewrite E in Hv.
Qed.

Lemma audio_run_version ops : (as_version (audio_run ops) < 32)%N.
Proof.
  induction ops as [|op ops IH] using rev_ind; [done|].
  unfold audio_run. rewrite foldl_app. by apply audio_op_version.
Qed.

Lemma filter_unique (l : list Entry) x (P : Entry → bool) : NoDup (map e_pid l) → x ∈ l → P x = true →
  List.filter (λ y, P y && (e_pid y =? e_pid x)%N) l = [x].
Proof.
  induction l as [|y l IH]; intros Hnd Hx HP; [by apply not_elem_of_nil in Hx|].
  simpl in *. apply NoDup_cons in Hnd as [Hy Hnd]. apply elem_of_cons in Hx as [->|Hx].
  - rewrite HP, N.eqb_refl. simpl. f_equal.
    destruct (List.filter _ l) as [|z r] eqn:E; [done|]. exfalso.
    assert (In z (List.filter (λ y0, P y0 && (e_pid y0 =? e_pid y)%N) l)) as Hz by (rewrite E; by left).
    apply filter_In in Hz as [Hz [_ Hp%N.eqb_eq]%andb_true_iff]. apply Hy. rewrite <- Hp.
    by apply list_elem_of_In, in_map.
  - destruct (N.eqb_spec (e_pid y) (e_pid x)) as [E|E].
    + exfalso. apply Hy. rewrite E. apply list_elem_of_In, in_map. by apply list_elem_of_In.
    + rewrite andb_false_r. by apply IH.
Qed.

(** Of the audio only the selected track is kept. *)
Lemma kept_audio entries p : NoDup (map e_pid entries) → selected_aac entries = Some p →
  map e_view (List.filter (λ x, bool_decide (is_Some (e_codec x))) (kept entries (removed_pids entries)))
  = [(p, Some AdtsAac)].
Proof.
  intros Hnd Hs. rewrite kept_displaced by done. pose proof Hs as Hf. unfold selected_aac in Hf.
  destruct (find _ entries) as [x|] eqn:E; [|done]. injection Hf as Hp.
  apply find_some in E as [Hin Hc]. apply bool_decide_eq_true in Hc.
  assert (∀ (f g : Entry → bool) (l : list Entry),
    List.filter f (List.filter g l) = List.filter (λ x, f x && g x) l) as Hff.
  { intros f g l. induction l as [|y l IH]; [done|]. simpl.
    destruct (g y) eqn:Eg; simpl; destruct (f y); simpl; by rewrite IH. }
  rewrite Hff, Hs.
  erewrite filter_ext_in; [rewrite (filter_unique _ x (λ y, bool_decide (is_Some (e_codec y))))|].
  - simpl. unfold e_view. by rewrite Hp, Hc.
  - done.
  - by apply list_elem_of_In.
  - by rewrite Hc.
  - intros y Hy. simpl. unfold displaced. rewrite (bool_decide_eq_true_2 (is_Some (Some p))) by done. simpl.
    destruct (bool_decide (is_Some (e_codec y))); [|done]. simpl. rewrite negb_involutive, Hp.
    case_bool_decide as Hd; [injection Hd as ->; by rewrite N.eqb_refl|].
    symmetry. apply N.eqb_neq. congruence.
Qed.

Lemma announced_view s entries : Forall (entry_ok s) entries →
  map (λ x, (byte_at s (e_pos x), e_pid x, e_codec x)) entries
  = map (λ t, (byte_at t.1.1 0, t.1.2, t.2)) (map (λ x, (e_raw s x, e_pid x, e_codec x)) entries).
Proof.
  intros H. rewrite map_map. apply map_ext_in. intros x Hx. simpl.
  rewrite Forall_forall in H. apply list_elem_of_In in Hx. apply H in Hx as [Hl _].
  unfold e_raw in *. rewrite byte_at_slice; [by rewrite Nat.add_0_r|].
  unfold slice in Hl. rewrite length_take in Hl. lia.
Qed.

Lemma map_filter {A B} (f : A → B) (g : B → bool) l :
  map f (List.filter (λ x, g (f x)) l) = List.filter g (map f l).
Proof. induction l as [|x l IH]; [done|]. simpl. destruct (g (f x)); simpl; by rewrite IH. Qed.

(** Filtering the rewritten map again finds nothing to change. *)
Lemma effective_fixed program packet s begin entries removed v entries' packet' :
  map_ok program packet s begin entries → (v < 32)%N →
  let out := effective_map s begin entries removed in let sec := map_section out v in
  map_ok program packet' sec begin entries' →
  map (e_raw sec) entries' = map (e_raw s) (kept entries removed) →
  effective_map sec begin entries' [] = out.
Proof.
  intros Hm Hv out sec Hm' Hraw.
  assert (kept entries' [] = entries') as Hk.
  { unfold kept. apply forallb_filter_id. by apply forallb_forall. }
  destruct (rw_lengths _ _ _ _ _ Hm removed v) as (L1 & L2 & _).
  destruct (rw_lengths _ _ _ _ _ Hm' [] v) as (L1' & _ & _).
  destruct (rw_base_length _ _ _ _ _ Hm removed) as (L3 & _).
  destruct (rw_base_length _ _ _ _ _ Hm' []) as (L3' & _). rewrite Hk, Hraw in L3'.
  destruct (rw_begin _ _ _ _ _ Hm) as (B1 & B2 & _).
  assert (length (Audio.out sec begin entries' []) = length out) as HL by (unfold out; unfold Audio.out in *; lia).
  destruct (rw_changed _ _ _ _ _ Hm removed v) as (C1 & C2 & C5 & C5').
  destruct (rw_changed _ _ _ _ _ Hm' [] v) as (D1 & D2 & D5 & _).
  change (Audio.out s begin entries removed) with out in *. change (Audio.sec s begin entries removed v) with sec in *.
  change (Audio.sec sec begin entries' [] v) with (map_section (effective_map sec begin entries' []) v) in *.
  change (Audio.out sec begin entries' []) with (effective_map sec begin entries' []) in *.
  apply (nth_ext _ _ x00 x00); [done|]. intros i Hi.
  destruct (decide (i = 1)) as [->|H1].
  { rewrite <- (map_section_nth _ v) by lia. rewrite D1, <- C1. by apply map_section_nth; lia. }
  destruct (decide (i = 2)) as [->|H2].
  { rewrite <- (map_section_nth _ v) by lia. rewrite D2.
    replace (length (base sec begin entries' [])) with (length (base s begin entries removed)) by lia.
    rewrite <- C2. by apply map_section_nth; lia. }
  destruct (decide (i = 5)) as [->|H5].
  { rewrite D5. unfold byte_at. rewrite C5'. unfold byte_at. rewrite C5.
    apply (version_bits (nth 5 s x00) v Hv). }
  unfold out. rewrite !effective_nth by done. unfold base. rewrite Hk, Hraw.
  assert (length (take begin sec) = begin) as T1 by (rewrite length_take; lia).
  assert (length (take begin s) = begin) as T2 by (rewrite length_take; lia).
  destruct (decide (i < begin)).
  - rewrite !app_nth1 by lia. rewrite !nth_lookup, !lookup_take_lt, <- !nth_lookup by lia.
    by apply (rw_keep _ _ _ _ _ Hm removed v).
  - rewrite !app_nth2 by lia. by rewrite T1, T2.
Qed.

(** C20: Whatever was observed before, when a program map makes the selection rewrite it, the packet it
    sends in the map's place is a transport packet on the same PID that the same strict parser
    accepts (CRC included); it announces exactly the streams of the source map that were not removed,
    with one audio stream left, the AAC track; and normalising it again is a fixed point: the same
    packet, version and clock, and nothing more to remove. *)
Theorem rewritten_map_fixed (ops : list AudioOp) (p : bytes) (d : bool) (a' : LiveAudioSelection) :
  let a := audio_run ops in
  let program := fst <$> as_mapping a in
  is_packet p → update_pmt a p = Ok (d, a') → as_rewrite a' = true →
  ∃ m streams aac,
    as_pmt a' = Some m ∧ is_packet m ∧ ts_pid m = ts_pid p
    ∧ announced program p = Some streams
    ∧ (let left := List.filter (λ t, negb (in_list t.1.2 (as_removed a'))) streams in
       announced program m = Some left
       ∧ map (λ t, (t.1.2, t.2)) (List.filter is_audio left) = [(aac, Some AdtsAac)])
    ∧ ∃ d' a'', update_pmt a' m = Ok (d', a'') ∧ as_pmt a'' = Some m ∧ as_removed a'' = []
        ∧ as_version a'' = as_version a' ∧ as_pcr a'' = as_pcr a' ∧ as_rewrite a'' = true.
Proof.
  intros a program Hp H Hrw. subst program. pose proof (audio_run_version ops) as Hv0. fold a in Hv0.
  apply update_pmt_inv in H as (s & begin & entries & c & Hparse & Hinst).
  pose proof (parse_map_Ok _ _ _ _ _ _ Hp Hparse) as Hm.
  pose proof (install_version a p s begin entries c Hv0) as Hv. rewrite Hinst in Hv. simpl in Hv.
  unfold install_map in Hinst. injection Hinst as Hd Ha.
  assert (as_rewrite a' = bool_decide (is_Some (selected_aac entries))) as Hr by (by rewrite <- Ha).
  rewrite Hrw in Hr. symmetry in Hr. rewrite Hr in Ha. apply bool_decide_eq_true in Hr as [aac Haac].
  set (removed := removed_pids entries) in *. set (out := effective_map s begin entries removed) in *.
  set (v := as_version a') in *.
  assert (as_pmt a' = Some (map_packet p (map_section out v)) ∧ as_removed a' = removed
    ∧ as_effective a' = Some out ∧ as_pcr a' = Some (psi_pid (drop 8 s)) ∧ as_mapping a' = as_mapping a)
    as (Hpmt & Hrem & Heff & Hpcr & Hmapping) by (by subst v; rewrite <- Ha).
  destruct (rw_parse _ _ _ _ _ Hp Hm removed v Hv) as (entries' & c' & Hparse' & Hview & Hm').
  set (sec := map_section out v) in *. change (Audio.sec s begin entries removed v) with sec in *.
  destruct (rw_lengths _ _ _ _ _ Hm removed v) as (L1 & L2 & L3).
  change (Audio.sec s begin entries removed v) with sec in *.
  pose proof (mo_pids _ _ _ _ _ Hm) as Hnd.
  assert (map e_view entries' = map e_view (kept entries removed)) as Hev.
  { apply (f_equal (map (λ t, (t.1.2, t.2)))) in Hview. by rewrite !map_map in Hview. }
  exists (map_packet p sec), (map (λ x, (byte_at s (e_pos x), e_pid x, e_codec x)) entries), aac.
  split_and!; [done|by apply map_packet_is_packet|by apply map_packet_pid|by unfold announced; rewrite Hparse| |].
  - rewrite Hrem. rewrite <- (map_filter _ (λ t, negb (in_list t.1.2 removed))). fold (kept entries removed).
    split.
    + unfold announced. rewrite Hparse'. f_equal.
      rewrite announced_view by apply (mo_entries _ _ _ _ _ Hm'). rewrite Hview. symmetry. apply announced_view.
      apply Forall_forall. intros x [Hx _]%list_elem_of_In%filter_In.
      pose proof (mo_entries _ _ _ _ _ Hm) as He. rewrite Forall_forall in He. by apply He, list_elem_of_In.
    + rewrite <- (map_filter _ is_audio), map_map. by apply (kept_audio entries).
  - assert (selected_aac entries' = Some aac) as Haac'.
    { rewrite (selected_view _ _ Hev). unfold removed. rewrite kept_displaced by done.
      rewrite selected_kept by (by rewrite Haac). done. }
    assert (removed_pids entries' = []) as Hrem'.
    { rewrite (removed_view _ _ Hev). unfold removed. rewrite kept_displaced by done.
      apply removed_kept. by rewrite Haac. }
    assert (effective_map sec begin entries' [] = out) as Hfix.
    { eapply effective_fixed; [exact Hm|done|exact Hm'|].
      apply (f_equal (map (λ t, t.1.1))) in Hview. by rewrite !map_map in Hview. }
    unfold update_pmt. rewrite Hmapping, Hparse'. cbn [mbind result_bind].
    eexists _, _. split; [unfold install_map; reflexivity|]. cbn [as_pmt as_removed as_version as_pcr as_rewrite].
    rewrite Hrem', Hfix, Haac', Heff. rewrite (bool_decide_eq_true_2 (Some out = Some out)) by done.
    rewrite (bool_decide_eq_true_2 (is_Some (Some aac))) by done. fold v. fold sec.
    split_and!; try done.
    + f_equal. destruct (map_packet_shape p sec Hp L3) as (b0 & b1 & b2 & b3 & rest & -> & ->).
      unfold map_packet. simpl. unfold byte_at at 1. simpl.
      destruct (map_header_byte b3) as (_ & _ & ->). done.
    + rewrite Hpcr. f_equal. rewrite !psi_pid_drop. unfold byte_at.
      pose proof (rw_begin _ _ _ _ _ Hm). rewrite !(rw_keep _ _ _ _ _ Hm removed v) by lia. done.
Qed.

(** ** Packets of the removed tracks *)

Lemma strip_nth i p : is_packet p → (byte_at p 4 ≤ 183)%N → i ≤ 4 + N.to_nat (byte_at p 4) →
  nth i (strip_packet p) x00 =
  nth i (<[4:=N_byte 183]> (<[3:=N_byte 0x20]> (<[1:=N_byte (N.land (byte_at p 1) 0xbf)]> p))) x00.
Proof.
  intros Hp H1 Hi. unfold is_packet, TS_PACKET_LEN in Hp. unfold strip_packet.
  rewrite app_nth1 by (rewrite length_take, !length_insert; lia).
  by rewrite !nth_lookup, lookup_take_lt by lia.
Qed.

Lemma strip_byte i p : is_packet p → (byte_at p 4 ≤ 183)%N → i ≤ 4 + N.to_nat (byte_at p 4) →
  i ≠ 1 → i ≠ 3 → i ≠ 4 → byte_at (strip_packet p) i = byte_at p i.
Proof. intros. unfold byte_at. rewrite strip_nth by done. by rewrite !nth_insert_ne. Qed.

Lemma strip_header p : is_packet p → (byte_at p 4 ≤ 183)%N →
  is_packet (strip_packet p) ∧ byte_at (strip_packet p) 1 = N.land (byte_at p 1) 0xbf
  ∧ byte_at (strip_packet p) 3 = 0x20%N ∧ byte_at (strip_packet p) 4 = 183%N.
Proof.
  intros Hp H1. pose proof Hp as Hl. unfold is_packet, TS_PACKET_LEN in Hl. split.
  - unfold is_packet, TS_PACKET_LEN, strip_packet.
    rewrite length_app, length_take, !length_insert, length_replicate. lia.
  - unfold byte_at at 1 3 4. rewrite !strip_nth by (try done; lia).
    rewrite (nth_insert_ne _ 1 4), (nth_insert_ne _ 1 3), (nth_insert_ne _ 3 4) by lia.
    rewrite !nth_insert_eq by (rewrite ?length_insert; lia). split_and!; try done.
    unfold byte_at. destruct (nth 1 p x00); done.
Qed.

Lemma land_bf_pid b : N.land (N.land (byte_N b) 0xbf) 0x1f = N.land (byte_N b) 0x1f.
Proof. rewrite <- N.land_assoc. done. Qed.

(** What [ts_timing] reads when there is an adaptation field of a usable length. *)
Lemma ts_timing_field p : nth 0 p x00 = TS_SYNC → flag (byte_at p 3) 0x20 = true →
  (1 ≤ byte_at p 4 ≤ 183)%N →
  pid (ts_timing p) = ts_pid p ∧ discontinuity (ts_timing p) = flag (byte_at p 5) 0x80
  ∧ (is_Some (pcr (ts_timing p)) ↔ flag (byte_at p 5) 0x10 = true ∧ (7 ≤ byte_at p 4)%N).
Proof.
  intros H0 H3 H4. unfold ts_timing. rewrite bool_decide_eq_true_2 by done. unfold flag in H3.
  apply negb_true_iff in H3. rewrite H3. cbn [negb orb].
  rewrite (proj2 (N.eqb_neq (byte_at p 4) 0)) by lia. rewrite (proj2 (N.ltb_ge 183 (byte_at p 4))) by lia.
  cbn [orb pid discontinuity pcr]. split_and!; [done..|]. fold (flag (byte_at p 5) 0x10).
  destruct (flag (byte_at p 5) 0x10); cbn [andb].
  - destruct (N.leb_spec 7 (byte_at p 4)); [by split|]. split; [by intros []|]. intros [_ ?]. lia.
  - split; [by intros []|]. by intros [].
Qed.

(** Without one, or without a sync byte, there is no timing. *)
Lemma ts_timing_none p : nth 0 p x00 ≠ TS_SYNC ∨ flag (byte_at p 3) 0x20 = false ∨ byte_at p 4 = 0%N
    ∨ (183 < byte_at p 4)%N →
  pcr (ts_timing p) = None ∧ discontinuity (ts_timing p) = false.
Proof.
  unfold ts_timing, flag. intros H. case_bool_decide as H0; [|done]. cbn [negb orb].
  destruct (N.land (byte_at p 3) 0x20 =? 0)%N; [done|]. cbn [negb] in H.
  destruct (N.eqb_spec (byte_at p 4) 0) as [|]; [done|]. cbn [orb].
  destruct (N.ltb_spec 183 (byte_at p 4)); [done|]. naive_solver lia.
Qed.

Lemma strip_timing p : is_packet p → nth 0 p x00 = TS_SYNC → flag (byte_at p 3) 0x20 = true →
  (1 ≤ byte_at p 4 ≤ 183)%N →
  ts_pid (strip_packet p) = ts_pid p ∧ discontinuity (ts_timing (strip_packet p)) = discontinuity (ts_timing p)
  ∧ (is_Some (pcr (ts_timing p)) → ts_timing (strip_packet p) = ts_timing p).
Proof.
  intros Hp H0 H3 H4. destruct (strip_header p Hp ltac:(lia)) as (Hq & Q1 & Q3 & Q4).
  assert (ts_pid (strip_packet p) = ts_pid p) as Hpid.
  { unfold ts_pid. rewrite Q1, strip_byte by (try done; lia). unfold byte_at at 1 3. by rewrite land_bf_pid. }
  assert (nth 0 (strip_packet p) x00 = TS_SYNC) as Q0.
  { rewrite <- H0. apply (inj byte_N). apply (strip_byte 0); try done; lia. }
  destruct (ts_timing_field p H0 H3 H4) as (P1 & P2 & P3).
  destruct (ts_timing_field (strip_packet p) Q0) as (S1 & S2 & S3); [by rewrite Q3|lia|].
  rewrite strip_byte in S2, S3 by (try done; lia).
  split_and!; [done|congruence|]. intros Hc. pose proof (proj1 P3 Hc) as [_ H7].
  unfold ts_timing. rewrite H0, Q0, Q3, Q4, Hpid. rewrite !strip_byte by (try done; lia).
  unfold flag in H3. apply negb_true_iff in H3. rewrite H3.
  rewrite (proj2 (N.eqb_neq (byte_at p 4) 0)) by lia. rewrite (proj2 (N.ltb_ge 183 (byte_at p 4))) by lia.
  rewrite (proj2 (N.leb_le 7 _) H7). done.
Qed.

(** A packet that is neither an association nor the program's map leaves the selection's tables
    alone.  Unless its PID was removed it passes unchanged; when its PID was removed, what is sent is
    at most an adaptation field without payload on the same PID, and it is sent
    exactly when the PID carries the program clock and the packet has a clock or a discontinuity
    mark, with the same timing: no clock sample is lost by dropping a track. *)
Theorem removed_track_keeps_clock (a : LiveAudioSelection) (p : bytes) :
  is_packet p → ts_pid p ≠ 0%N → snd <$> as_mapping a ≠ Some (ts_pid p) →
  let '(r, a') := audio_observe a p in
  ap_changed r = false ∧ audio_tables a' = audio_tables a ∧ as_removed a' = as_removed a
  ∧ if in_list (ts_pid p) (as_removed a) then
      let t := ts_timing p in
      match ap_packet r with
      | Some q => is_packet q ∧ ts_pid q = ts_pid p ∧ psi_payload q = None
          ∧ as_pcr a = Some (ts_pid p) ∧ discontinuity (ts_timing q) = discontinuity t
          ∧ (is_Some (pcr t) → ts_timing q = t)
      | None => as_pcr a = Some (ts_pid p) → pcr t = None ∧ discontinuity t = false
      end
    else ap_packet r = Some p.
Proof.
  intros Hp H0 Hm. unfold audio_observe. set (a1 := if flag _ _ then _ else a).
  assert (as_mapping a1 = as_mapping a ∧ as_removed a1 = as_removed a ∧ as_pcr a1 = as_pcr a
    ∧ audio_tables a1 = audio_tables a) as (E1 & E2 & E3 & E4) by (unfold a1; by case_match).
  clearbody a1. rewrite (proj2 (N.eqb_neq _ _) H0), E1.
  rewrite (bool_decide_eq_false_2 (snd <$> _ = _)) by done. cbn [andb]. rewrite E2.
  destruct (in_list (ts_pid p) (as_removed a)); [|done]. cbn [ap_changed ap_packet].
  split_and!; [done..|]. unfold observe_removed. rewrite E3.
  case_bool_decide as Hpcr; cbn [andb]; [|intros Hq; by rewrite Hq in Hpcr].
  destruct (decide (nth 0 p x00 = TS_SYNC ∧ flag (byte_at p 3) 0x20 = true ∧ (1 ≤ byte_at p 4 ≤ 183)%N))
    as [(T0 & T3 & T4)|Hn].
  - rewrite T3. rewrite (proj2 (N.eqb_neq (byte_at p 4) 0)) by lia.
    rewrite (proj2 (N.ltb_ge 183 (byte_at p 4))) by lia. cbn [negb orb].
    destruct (strip_timing p Hp T0 T3 T4) as (S1 & S2 & S3).
    destruct (strip_header p Hp ltac:(lia)) as (Hq & _ & Q3 & _).
    destruct (bool_decide _ || _) eqn:Ht.
    + split_and!; try done. unfold psi_payload. by rewrite Q3.
    + intros _. apply orb_false_iff in Ht as [Ht%bool_decide_eq_false ->].
      by rewrite <- eq_None_not_Some in Ht.
  - destruct (ts_timing_none p) as [T1 T2]; [|by rewrite T1, T2].
    destruct (decide (nth 0 p x00 = TS_SYNC)); [|by left].
    destruct (flag (byte_at p 3) 0x20); [|by right; left]. right; right.
    destruct (decide (1 ≤ byte_at p 4)%N); [right|left; lia].
    destruct (decide (byte_at p 4 ≤ 183)%N); [|lia]. by destruct Hn.
Qed.

(** ** Supported layouts *)

Definition video_type (ty : N) : bool := existsb (N.eqb ty) [0x02; 0x1b; 0x24]%N.

Definition as_selected (x : Entry) : option SelectedAudio := mkSelectedAudio (e_pid x) <$> e_codec x.

Definition first_where (P : AudioCodec → bool) (entries : list Entry) : option SelectedAudio :=
  find (λ x, match e_codec x with Some c => P c | None => false end) entries ≫= as_selected.

Definition or_else {A} (x y : option A) : option A := match x with Some _ => x | None => y end.

Lemma first_where_cons P x l : first_where P (x :: l) =
  if match e_codec x with Some c => P c | None => false end then as_selected x else first_where P l.
Proof. unfold first_where. simpl. destruct (e_codec x) as [c|]; [|done]. by destruct (P c). Qed.

(** What the loop of [decide_layout] has accumulated when it gets through. *)
Lemma layout_loop_spec s entries : ∀ sc sc', layout_loop s sc entries = Some sc' →
  option_list (ls_video sc') = option_list (ls_video sc)
    ++ map (λ x, (e_pid x, byte_at s (e_pos x))) (List.filter (λ x, video_type (byte_at s (e_pos x))) entries)
  ∧ ls_aac sc' = or_else (ls_aac sc) (first_where (λ c, bool_decide (c = AdtsAac)) entries)
  ∧ ls_first_audio sc' = or_else (ls_first_audio sc) (first_where (λ c, bool_decide (c = MpegAudio ∨ c = Ac3)) entries)
  ∧ ls_has_audio sc' = ls_has_audio sc || existsb (λ x, bool_decide (is_Some (e_codec x))) entries.
Proof.
  induction entries as [|x l IH]; intros sc sc' H.
  - injection H as <-. simpl. rewrite app_nil_r, orb_false_r. unfold first_where, or_else. simpl.
    split_and!; [done|by destruct (ls_aac sc)|by destruct (ls_first_audio sc)|done].
  - simpl in H. apply bind_Some in H as (sc1 & H1 & H).
    specialize (IH _ _ H) as (I1 & I2 & I3 & I4). unfold layout_entry in H1.
    apply bind_Some in H1 as (sc0 & H0 & H1). rewrite I1, I2, I3, I4, !first_where_cons.
    assert (option_list (ls_video sc0) = option_list (ls_video sc)
      ++ (if video_type (byte_at s (e_pos x)) then [(e_pid x, byte_at s (e_pos x))] else [])
      ∧ ls_aac sc0 = ls_aac sc ∧ ls_first_audio sc0 = ls_first_audio sc ∧ ls_has_audio sc0 = ls_has_audio sc)
      as (J1 & J2 & J3 & J4).
    { fold (video_type (byte_at s (e_pos x))) in H0. destruct (video_type _).
      - destruct (ls_video sc); [done|]. by injection H0 as <-.
      - destruct (accompanying_type _); [|done]. injection H0 as <-. by rewrite app_nil_r. }
    simpl. unfold as_selected. destruct (e_codec x) as [c|].
    + injection H1 as <-. cbn [ls_video ls_aac ls_first_audio ls_has_audio fmap option_fmap option_map].
      rewrite J1, J2, J3. rewrite (bool_decide_eq_true_2 (is_Some (Some c))) by done. simpl.
      rewrite orb_true_r. split_and!; try done.
      * rewrite <- app_assoc. by destruct (video_type _).
      * unfold or_else. destruct (ls_aac sc); [done|]. by destruct (bool_decide (c = AdtsAac)).
      * unfold or_else. destruct (ls_first_audio sc); [done|]. by destruct (bool_decide (_ ∨ _)).
    + destruct (_ =? _)%N; [done|]. injection H1 as <-. rewrite J1, J2, J3, J4. split_and!; try done.
      rewrite <- app_assoc. by destruct (video_type _).
Qed.

Lemma first_where_Some P entries x : first_where P entries = Some x →
  ∃ y, y ∈ entries ∧ e_pid y = sa_pid x ∧ e_codec y = Some (sa_codec x) ∧ P (sa_codec x) = true.
Proof.
  unfold first_where, as_selected. intros (y & Hy & H)%bind_Some. apply find_some in Hy as [Hin HP].
  destruct (e_codec y) as [c|] eqn:E; [|done]. injection H as <-. exists y. by rewrite list_elem_of_In.
Qed.

Lemma first_where_None P entries : first_where P entries = None →
  ∀ y c, y ∈ entries → e_codec y = Some c → P c = false.
Proof.
  unfold first_where, as_selected. intros H y c Hy Hc. destruct (find _ _) as [z|] eqn:E.
  - apply find_some in E as [_ E]. simpl in H. by destruct (e_codec z).
  - pose proof (find_none _ _ E y (proj1 (list_elem_of_In _ _) Hy)) as Hn. simpl in Hn. by rewrite Hc in Hn.
Qed.

(** The selection and the layout choose the same AAC track. *)
Lemma selected_first_where entries :
  selected_aac entries = sa_pid <$> first_where (λ c, bool_decide (c = AdtsAac)) entries.
Proof.
  unfold selected_aac. induction entries as [|x l IH]; [done|]. rewrite first_where_cons. simpl.
  destruct (e_codec x) as [c|] eqn:E.
  - destruct (decide (c = AdtsAac)) as [->|Hc].
    + rewrite !bool_decide_eq_true_2 by done. unfold as_selected. by rewrite E.
    + rewrite !bool_decide_eq_false_2 by congruence. done.
  - rewrite bool_decide_eq_false_2 by done. done.
Qed.

Lemma video_not_audio s x : entry_ok s x → video_type (byte_at s (e_pos x)) = true → e_codec x = None.
Proof.
  intros (Hl & _ & _ & c & Hc & <-) Hv.
  assert (byte_at (e_raw s x) 0 = byte_at s (e_pos x)) as E.
  { unfold e_raw in *. rewrite byte_at_slice; [by rewrite Nat.add_0_r|].
    unfold slice in Hl. rewrite length_take in Hl. lia. }
  rewrite E in Hc. unfold audio_codec in Hc. apply bind_Some in Hc as (pr & _ & [= <-]).
  unfold video_type in Hv. simpl in *.
  repeat (apply orb_true_iff in Hv as [->%N.eqb_eq|Hv]; [done|]). done.
Qed.

(** When the strict path accepts a program map as a supported layout, the map announces exactly
    one video stream and it is the layout's; the layout's clock PID is one of the announced PIDs; no
    announced PID is reserved or the map's own; and the layout's audio is the AAC track the selection
    keeps when it rewrites, else an announced MPEG or AC-3 track of a map without AAC, and it is
    absent only when the map announces no audio at all. *)
Theorem supported_layout_sound (a : LiveAudioSelection) (p : bytes) (d : bool) (a' : LiveAudioSelection)
    (l : TransportLayout) :
  is_packet p → update_pmt a p = Ok (d, a') → as_layout a' = LayoutSupported l →
  as_mapping a = Some (tl_program_id l, tl_pmt_pid l)
  ∧ as_transport_stream_id a = Some (tl_transport_stream_id l)
  ∧ ∃ streams, announced (Some (tl_program_id l)) p = Some streams
    ∧ List.filter (λ t, video_type t.1.1) streams = [(tl_video_type l, tl_video_pid l, None)]
    ∧ tl_pcr_pid l ∈ map (λ t, t.1.2) streams ∧ as_pcr a' = Some (tl_pcr_pid l)
    ∧ Forall (λ t, 0x20 ≤ t.1.2 ∧ t.1.2 ≠ 0x1fff ∧ t.1.2 ≠ tl_pmt_pid l)%N streams
    ∧ match tl_audio l with
      | None => List.filter is_audio streams = []
      | Some x => (∃ ty, (ty, sa_pid x, Some (sa_codec x)) ∈ streams)
          ∧ (sa_codec x = AdtsAac ∧ as_rewrite a' = true ∧ in_list (sa_pid x) (as_removed a') = false
             ∨ (sa_codec x = MpegAudio ∨ sa_codec x = Ac3) ∧ as_rewrite a' = false)
      end.
Proof.
  intros Hp H Hl. apply update_pmt_inv in H as (s & begin & entries & c & Hparse & Hinst).
  pose proof (parse_map_Ok _ _ _ _ _ _ Hp Hparse) as Hm. unfold install_map in Hinst. injection Hinst as _ Ha.
  assert (as_pcr a' = Some (psi_pid (drop 8 s)) ∧ as_removed a' = removed_pids entries
    ∧ as_rewrite a' = bool_decide (is_Some (selected_aac entries))) as (Hpcr & Hrem & Hrw) by (by rewrite <- Ha).
  assert (decide_layout a s entries = LayoutSupported l) as Hd.
  { rewrite <- Ha in Hl. simpl in Hl. by destruct c. }
  clear Ha Hl. unfold decide_layout in Hd.
  destruct (as_mapping a) as [[program pmt_pid]|] eqn:Em; [|done].
  destruct (as_transport_stream_id a) as [tsid|] eqn:Et; [|done].
  destruct (_ || _); [done|]. destruct (_ || _) eqn:Hpids in Hd; [done|].
  apply orb_false_iff in Hpids as [Hp1%negb_false_iff Hp2].
  destruct (layout_loop s _ entries) as [sc|] eqn:Hloop; [|done].
  destruct (layout_loop_spec _ _ _ _ Hloop) as (L1 & L2 & L3 & L4). simpl in L1, L2, L3, L4.
  destruct (ls_video sc) as [[vp vt]|]; [|done]. destruct (ls_has_audio sc && _) eqn:Hau; [done|].
  injection Hd as <-. cbn [tl_program_id tl_pmt_pid tl_transport_stream_id tl_video_type tl_video_pid tl_pcr_pid tl_audio].
  split_and!; [done..|]. unfold announced. simpl in Hparse. rewrite Hparse. eexists. split; [done|].
  rewrite Hrem, Hrw, selected_first_where, <- L2.
  split_and!; [| |done| |].
  - rewrite <- (map_filter _ (λ t, video_type t.1.1)). simpl.
    destruct (List.filter _ entries) as [|x [|]] eqn:Ef; simplify_eq/=. do 2 f_equal.
    assert (In x [x]) as Hx by (by left). rewrite <- Ef in Hx. apply filter_In in Hx as [Hx Hv].
    apply (video_not_audio s); [|done]. pose proof (mo_entries _ _ _ _ _ Hm) as He.
    rewrite Forall_forall in He. by apply He, list_elem_of_In.
  - apply existsb_exists in Hp1 as (x & Hx & <-%N.eqb_eq). rewrite map_map. simpl.
    by apply list_elem_of_In, in_map.
  - apply Forall_map, Forall_forall. intros x Hx. simpl. apply not_true_iff_false in Hp2.
    assert (((e_pid x <? 0x20) || (e_pid x =? 0x1fff) || (e_pid x =? pmt_pid))%N = false) as Hf.
    { apply not_true_iff_false. intros Ht. apply Hp2, existsb_exists. exists x. by rewrite <- list_elem_of_In. }
    apply orb_false_iff in Hf as [[?%N.ltb_ge ?%N.eqb_neq]%orb_false_iff ?%N.eqb_neq]. done.
  - assert (Hst : ∀ y z, y ∈ entries → e_pid y = sa_pid z → e_codec y = Some (sa_codec z) →
      ∃ ty, (ty, sa_pid z, Some (sa_codec z)) ∈ map (λ x, (byte_at s (e_pos x), e_pid x, e_codec x)) entries).
    { intros y z Hy <- <-. exists (byte_at s (e_pos y)). apply list_elem_of_In, in_map_iff. exists y.
      by rewrite <- list_elem_of_In. }
    destruct (ls_aac sc) as [x|] eqn:Ea; [|destruct (ls_first_audio sc) as [x|] eqn:Eb].
    + symmetry in L2. pose proof L2 as L2'. apply first_where_Some in L2 as (y & Hy & Hyp & Hyc & HP).
      apply bool_decide_eq_true in HP. split; [by eauto|]. left. split_and!; [done|done|].
      rewrite <- Hyp, displaced_removed; [|apply (mo_pids _ _ _ _ _ Hm)|done].
      rewrite selected_first_where, L2'. unfold displaced. simpl. rewrite Hyp.
      by rewrite (bool_decide_eq_true_2 (Some _ = Some _)), andb_false_r.
    + symmetry in L3. apply first_where_Some in L3 as (y & Hy & Hyp & Hyc & HP).
      apply bool_decide_eq_true in HP. split; [by eauto|]. by right.
    + clear L1. simpl in Hau. rewrite andb_true_r in Hau. rewrite Hau in L4. rewrite <- (map_filter _ is_audio). simpl.
      destruct (List.filter _ entries) as [|x r] eqn:Ef; [done|]. exfalso.
      assert (In x (x :: r)) as Hx by (by left). rewrite <- Ef in Hx. apply filter_In in Hx as [Hx Hv].
      symmetry in L4. apply not_true_iff_false in L4. apply L4, existsb_exists. exists x. split; [done|exact Hv].
Qed.

(** A packet with a discontinuity mark whose adaptation field claims a clock it is too short for has
    no clock; stripped of its payload, the field is stretched over stuffing and has one. *)
Definition short_clock_packet : bytes := map N_byte [0x47; 0x01; 0x02; 0x30; 0x01; 0x90]%N ++ replicate 182 x00.

Lemma stripped_packet_gains_clock :
  pcr (ts_timing short_clock_packet) = None
  ∧ pcr (ts_timing (strip_packet short_clock_packet)) = Some 8589934591%N.
Proof. split; vm_compute; reflexivity. Qed.

(** *** Witnesses *)

(** Single-packet sections with their CRC: program 1 on PID 0x100, H.264 on 0x101 with the clock on
    the MPEG audio track 0x102, AAC on 0x103. *)
Definition psi_packet (header section : list N) : bytes :=
  let s := map N_byte section in
  let s := s ++ u32_be (mpeg_crc32 s) in
  map N_byte header ++ s ++ replicate (TS_PACKET_LEN - length header - length s) xff.

Definition audio_pat : bytes :=
  psi_packet [0x47; 0x40; 0x00; 0x10; 0x00]%N
    [0x00; 0xB0; 0x0D; 0x00; 0x01; 0xC1; 0x00; 0x00; 0x00; 0x01; 0xE1; 0x00]%N.
Definition audio_pmt : bytes :=
  psi_packet [0x47; 0x41; 0x00; 0x10; 0x00]%N
    [0x02; 0xB0; 0x1C; 0x00; 0x01; 0xC1; 0x00; 0x00; 0xE1; 0x02; 0xF0; 0x00;
     0x1B; 0xE1; 0x01; 0xF0; 0x00; 0x03; 0xE1; 0x02; 0xF0; 0x00; 0x0F; 0xE1; 0x03; 0xF0; 0x00]%N.
(** A clock sample on the removed track. *)
Definition audio_clock : bytes :=
  map N_byte [0x47; 0x41; 0x02; 0x30; 0x07; 0x10; 0x00; 0x00; 0x01; 0x00; 0x7e; 0x00]%N ++ replicate 176 x00.

Definition mapped_selection : LiveAudioSelection := audio_run [AudioObserve audio_pat; AudioObserve audio_pmt].

Lemma rewritten_map_fixed_witness :
  let a := audio_run [AudioObserve audio_pat] in
  ∃ d a', update_pmt a audio_pmt = Ok (d, a') ∧ as_removed a' = [258%N] ∧ ∃ m, as_pmt a' = Some m ∧
  ∃ d' a'', update_pmt a' m = Ok (d', a'') ∧ as_pmt a'' = Some m.
Proof.
  destruct (update_pmt (audio_run [AudioObserve audio_pat]) audio_pmt) as [[d a']|] eqn:E;
    [|exfalso; vm_compute in E; discriminate].
  pose proof (rewritten_map_fixed [AudioObserve audio_pat] audio_pmt d a') as H.
  assert (as_removed a' = [258%N] ∧ as_rewrite a' = true) as [Hr Hw].
  { vm_compute in E. injection E as _ <-. split; reflexivity. }
  destruct H as (m & st & aac & Hm & _ & _ & _ & _ & d' & a'' & Hu & Hp & _); [reflexivity|exact E|exact Hw|].
  exists d, a'. split; [exact E|]. split; [exact Hr|]. exists m. split; [exact Hm|]. exists d', a''. by split.
Defined.

Lemma removed_track_keeps_clock_witness :
  in_list (ts_pid audio_clock) (as_removed mapped_selection) = true ∧
  ∃ q, ap_packet (audio_observe mapped_selection audio_clock).1 = Some q ∧ ts_timing q = ts_timing audio_clock.
Proof.
  split; [vm_compute; reflexivity|].
  assert (is_packet audio_clock ∧ ts_pid audio_clock ≠ 0%N
    ∧ snd <$> as_mapping mapped_selection ≠ Some (ts_pid audio_clock)) as (H1 & H2 & H3)
    by (split_and!; vm_compute; congruence).
  pose proof (removed_track_keeps_clock mapped_selection audio_clock H1 H2 H3) as H.
  assert (Hc : pcr (ts_timing audio_clock) = Some 512%N) by (vm_compute; reflexivity).
  destruct (ap_packet (audio_observe mapped_selection audio_clock).1) as [q|] eqn:Hq;
    [|exfalso; vm_compute in Hq; discriminate].
  exists q. split; [reflexivity|]. destruct (audio_observe mapped_selection audio_clock) as [r a'].
  destruct H as (_ & _ & _ & H). simpl in Hq. rewrite Hq in H.
  replace (in_list (ts_pid audio_clock) (as_removed mapped_selection)) with true in H by (vm_compute; reflexivity).
  destruct H as (_ & _ & _ & _ & _ & H). apply H. rewrite Hc. by exists 512%N.
Defined.

Lemma supported_layout_sound_witness :
  ∃ d a' l, update_pmt (audio_run [AudioObserve audio_pat]) audio_pmt = Ok (d, a')
  ∧ as_layout a' = LayoutSupported l ∧ as_pcr a' = Some (tl_pcr_pid l) ∧ tl_pcr_pid l = 258%N.
Proof.
  destruct (update_pmt (audio_run [AudioObserve audio_pat]) audio_pmt) as [[d a']|] eqn:E;
    [|exfalso; vm_compute in E; discriminate].
  assert (∃ l, as_layout a' = LayoutSupported l ∧ tl_pcr_pid l = 258%N) as (l & Hl & Hp).
  { vm_compute in E. injection E as _ <-. eexists. split; reflexivity. }
  exists d, a', l. split; [reflexivity|]. split; [exact Hl|].
  destruct (supported_layout_sound _ audio_pmt d a' l ltac:(reflexivity) E Hl) as (_ & _ & st & H).
  split; [apply H|exact Hp].
Defined.
