(* ===== verification/Hls.v ===== *)
(** * The live HLS packager

    [ace-engine/src/hls.rs], [HlsPackager]: it cuts the session's transport stream into segments at
    video access points once the target duration has passed on the selected program clock, or at the
    packet ceiling, and keeps a sliding window of them under absolute sequence numbers.  The source's
    [HlsState] is two records here: what a reader of the playlist sees ([Window]) and the run being
    accumulated ([Run]).  The mutex makes each method one step.  An [expect] that fails is
    [Err Panicked]; a [while] loop that exceeds its fuel is [Err Looping].  Durations are in 90 kHz
    ticks, and the comparison of the elapsed time with [seg_duration], which the source makes on
    [f32] seconds, is the function [target_reached].  The counters of segments are [N]. *)

From S2P Require Import Prelude Bytes Text MpegTs TsTables TsGate Audio.

(** ** State *)

Inductive HlsFailure : Type :=
  | FUnsupported | FDeadline | FInputOverflow | FAdmission | FChildExit | FPipe | FPump
  | FOutputInvalid | FOutputStall | FRecoveryLimit.

Inductive HlsStatus : Type :=
  | Starting | Ready | Recovering | Failed (reason : HlsFailure) | Stopped.

#[export] Instance HlsFailure_eq_dec : EqDecision HlsFailure.
Proof. solve_decision. Defined.
#[export] Instance HlsStatus_eq_dec : EqDecision HlsStatus.
Proof. solve_decision. Defined.

(** [matches!(status, Stopped | Failed(_))]. *)
Definition terminal (s : HlsStatus) : bool :=
  match s with Stopped | Failed _ => true | _ => false end.

Inductive HlsStop : Type := Panicked | Looping.

Record HlsSegment : Type := mkSegment { seg_bytes : bytes; seg_ticks : N; seg_discontinuity : bool }.

(** The immutable fields of [HlsPackager]. *)
Record HlsParams : Type := mkParams {
  max_segment_bytes : nat;
  window : nat;
  startup_segments : N;
  startup_timeout : N;
  target_reached : N → bool;
}.

Record Window : Type := mkWindow {
  w_generation : N;
  w_status : HlsStatus;
  w_deadline : option N;
  w_strict : bool;
  w_generation_segments : N;
  w_media_seq : N;
  w_discontinuity_sequence : N;
  w_segments : list HlsSegment;
  w_last_access : option N;
}.

Record Run : Type := mkRun {
  r_opening : bool;
  r_audio : LiveAudioSelection;
  r_input : bytes;
  r_cur : bytes;
  r_scanned : nat;
  r_clock : SelectedPcrClock;
  r_boundary : option TsTiming;
  r_pending : bool;
  r_dedup : bool;
  r_access : VideoAccessPointState;
  r_awaiting : bool;
  r_filter_sdt : bool;
}.

Record HlsState : Type := mkHls { hs_win : Window; hs_run : Run }.

(** Assignments to fields of the run. *)
Definition set_opening (b : bool) (r : Run) : Run :=
  mkRun b (r_audio r) (r_input r) (r_cur r) (r_scanned r) (r_clock r) (r_boundary r) (r_pending r)
    (r_dedup r) (r_access r) (r_awaiting r) (r_filter_sdt r).
Definition set_audio (a : LiveAudioSelection) (r : Run) : Run :=
  mkRun (r_opening r) a (r_input r) (r_cur r) (r_scanned r) (r_clock r) (r_boundary r) (r_pending r)
    (r_dedup r) (r_access r) (r_awaiting r) (r_filter_sdt r).
Definition set_input (i : bytes) (r : Run) : Run :=
  mkRun (r_opening r) (r_audio r) i (r_cur r) (r_scanned r) (r_clock r) (r_boundary r) (r_pending r)
    (r_dedup r) (r_access r) (r_awaiting r) (r_filter_sdt r).
Definition set_cur (c : bytes) (n : nat) (r : Run) : Run :=
  mkRun (r_opening r) (r_audio r) (r_input r) c n (r_clock r) (r_boundary r) (r_pending r)
    (r_dedup r) (r_access r) (r_awaiting r) (r_filter_sdt r).
Definition set_clock (c : SelectedPcrClock) (b : option TsTiming) (r : Run) : Run :=
  mkRun (r_opening r) (r_audio r) (r_input r) (r_cur r) (r_scanned r) c b (r_pending r)
    (r_dedup r) (r_access r) (r_awaiting r) (r_filter_sdt r).
Definition set_pending (b : bool) (r : Run) : Run :=
  mkRun (r_opening r) (r_audio r) (r_input r) (r_cur r) (r_scanned r) (r_clock r) (r_boundary r) b
    (r_dedup r) (r_access r) (r_awaiting r) (r_filter_sdt r).
Definition set_dedup (b : bool) (r : Run) : Run :=
  mkRun (r_opening r) (r_audio r) (r_input r) (r_cur r) (r_scanned r) (r_clock r) (r_boundary r)
    (r_pending r) b (r_access r) (r_awaiting r) (r_filter_sdt r).
Definition set_access (a : VideoAccessPointState) (r : Run) : Run :=
  mkRun (r_opening r) (r_audio r) (r_input r) (r_cur r) (r_scanned r) (r_clock r) (r_boundary r)
    (r_pending r) (r_dedup r) a (r_awaiting r) (r_filter_sdt r).
Definition set_awaiting (b : bool) (r : Run) : Run :=
  mkRun (r_opening r) (r_audio r) (r_input r) (r_cur r) (r_scanned r) (r_clock r) (r_boundary r)
    (r_pending r) (r_dedup r) (r_access r) b (r_filter_sdt r).

Definition set_run (r : Run) (st : HlsState) : HlsState := mkHls (hs_win st) r.

Definition set_status (s : HlsStatus) (w : Window) : Window :=
  mkWindow (w_generation w) s (w_deadline w) (w_strict w) (w_generation_segments w) (w_media_seq w)
    (w_discontinuity_sequence w) (w_segments w) (w_last_access w).

(** ** Construction *)

(** [HlsConfig]'s fields that the packager uses, the duration as its comparison. *)
Record HlsConfig : Type := mkHlsConfig {
  segment_packets : nat;
  window_segments : nat;
  cfg_target_reached : N → bool;
  cfg_startup_segments : N;
  startup_timeout_ms : N;
}.

(** [new]; [checked_mul] cannot fail on a validated configuration. *)
Definition hls_new (c : HlsConfig) (service_name : option bytes) : HlsParams * HlsState :=
  let seg_packets := segment_packets c `max` 3 in
  let access := access_with_service_name service_name in
  let filter_sdt := has_service_name access in
  let '(access, filter_sdt) :=
    if filter_sdt && bool_decide (seg_packets < 4) then (access_new, false) else (access, filter_sdt) in
  let access := enable_mpeg2 access in
  (mkParams (seg_packets * TS_PACKET_LEN) (window_segments c `max` 1)
     (N.max (cfg_startup_segments c) 1) (startup_timeout_ms c) (cfg_target_reached c),
   mkHls (mkWindow 0 Starting None false 0 0 0 [] None)
     (mkRun false selection_default [] [] 0 clock_new None false false access true filter_sdt)).

Definition hls_create (c : HlsConfig) (title : option bytes) (strict : bool) (now : N) : HlsParams * HlsState :=
  let '(cfg, st) := hls_new c title in
  let w := hs_win st in
  let r := set_opening strict (hs_run st) in
  let r := if strict then set_access (preserve_transport_identity (enable_mpeg2 (r_access r))) r else r in
  (cfg, mkHls (mkWindow (w_generation w) (w_status w) (Some (now + startup_timeout cfg)%N) strict
                 (w_generation_segments w) (w_media_seq w) (w_discontinuity_sequence w) (w_segments w)
                 (w_last_access w)) r).

(** ** The packager *)

Section packager.
Context (cfg : HlsParams).

Definition reset_partial (deduplicate_source_marker : bool) (r : Run) : Run :=
  mkRun false (audio_reset (r_audio r)) [] [] 0 (clock_reset (r_clock r)) None true
    deduplicate_source_marker (access_reset (r_access r)) true (r_filter_sdt r).

Definition discard_incomplete_run (r : Run) : Run :=
  mkRun (r_opening r) (r_audio r) (r_input r) [] 0 (clock_reset (r_clock r)) None true false
    (r_access r) true (r_filter_sdt r).

Definition observe_clock (r : Run) (timing : TsTiming) : ClockObservation * Run :=
  let timing := match as_pcr (r_audio r) with
                | Some p => if (p =? pid timing)%N then timing
                            else mkTsTiming (pid timing) None (discontinuity timing)
                | None => timing
                end in
  let '(observation, clock) := observe (r_clock r) timing in
  (observation,
   set_clock clock (match observation with
                    | Advanced _ => Some timing
                    | Reset => None
                    | Ignored => r_boundary r
                    end) r).

(** [while st.segments.len() >= self.window]: a window is at least one segment. *)
Fixpoint evict (segs : list HlsSegment) (media_seq disc_seq : N) : list HlsSegment * N * N :=
  match segs with
  | [] => (segs, media_seq, disc_seq)
  | s :: rest =>
      if bool_decide (window cfg ≤ length segs) then
        evict rest (media_seq + 1) (if seg_discontinuity s then disc_seq + 1 else disc_seq)%N
      else (segs, media_seq, disc_seq)
  end.

Definition hls_emit (st : HlsState) (e : nat) (ticks : N) : HlsState :=
  let w := hs_win st in
  let r := hs_run st in
  let '(segs, media_seq, disc_seq) := evict (w_segments w) (w_media_seq w) (w_discontinuity_sequence w) in
  let '(seg, audio) := audio_emitted (r_audio r) (take e (r_cur r)) in
  let segs := segs ++ [mkSegment seg ticks (r_pending r)] in
  let gsegs := saturating_add (w_generation_segments w) 1 in
  let count := if w_strict w then gsegs else lenN segs in
  let status := if negb (bool_decide (w_status w = Ready)) && (startup_segments cfg <=? count)%N
                then Ready else w_status w in
  mkHls (mkWindow (w_generation w) status (w_deadline w) (w_strict w) gsegs media_seq disc_seq segs
           (w_last_access w))
    (set_pending false (set_audio audio (set_cur (drop e (r_cur r)) 0 r))).

Definition seed_clean_run (r : Run) (prefix packet : bytes) (timing : TsTiming) : Run :=
  let cur := prefix ++ packet in
  let r := set_clock clock_new None (set_cur cur (length cur / TS_PACKET_LEN) r) in
  set_awaiting false (observe_clock r timing).2.

(** Rebase the clock on the last selected sample. *)
Definition rebase_clock (r : Run) : Run :=
  let clock := match r_boundary r with
               | Some boundary => (observe clock_new boundary).2
               | None => clock_new
               end in
  set_clock clock (r_boundary r) r.

(** The elapsed time when it has reached the target duration. *)
Definition reached (r : Run) : option N :=
  ticks ← elapsed (r_clock r); if target_reached cfg ticks then Some ticks else None.

Definition scan_lookahead (st : HlsState) (packet : bytes) : result HlsStop HlsState :=
  let r := hs_run st in
  let timing := ts_timing packet in
  let '(is_access_point, access) := access_observe (r_access r) packet in
  let r := set_access access r in
  if discontinuity timing && negb (r_dedup r) then
    Ok (set_run (discard_incomplete_run (set_access (access_reset (r_access r)) r)) st)
  else
    let '(timing, r) := if discontinuity timing
                        then (mkTsTiming (pid timing) (pcr timing) false, set_dedup false r) else (timing, r) in
    let '(observation, r) := observe_clock r timing in
    match observation with
    | Reset =>
        Ok (set_run (discard_incomplete_run (set_audio (audio_reset (r_audio r))
              (set_access (access_reset (r_access r)) r))) st)
    | _ =>
        if r_filter_sdt r && (ts_pid packet =? SDT_PID)%N then Ok (set_run r st)
        else
          match reached r with
          | Some ticks =>
              let boundary := r_boundary r in
              let st := hls_emit (set_run r st) (max_segment_bytes cfg) ticks in
              prefix ← ok_or (table_prefix (r_access (hs_run st))) Panicked;
              let r := seed_clean_run (hs_run st) prefix packet timing in
              Ok (set_run (rebase_clock (set_clock (r_clock r) boundary r)) st)
          | None =>
              let r := discard_incomplete_run r in
              if is_access_point then
                prefix ← ok_or (table_prefix (r_access r)) Panicked;
                Ok (set_run (seed_clean_run r prefix packet timing) st)
              else Ok (set_run r st)
          end
    end.

(** One turn of [scan]. *)
Definition scan_step (st : HlsState) : result HlsStop HlsState :=
  let r := hs_run st in
  let packet_offset := r_scanned r * TS_PACKET_LEN in
  let after := packet_offset + TS_PACKET_LEN in
  let packet := slice (r_cur r) packet_offset after in
  let timing := ts_timing packet in
  let '(is_access_point, access) := access_observe (r_access r) packet in
  let r := set_access access r in
  let duplicate_source_marker := discontinuity timing && r_dedup r in
  let spend r := if duplicate_source_marker then set_dedup false r else r in
  if discontinuity timing && negb (r_dedup r) then
    Ok (set_run (set_awaiting true (set_pending true (set_clock clock_new None
          (set_cur (drop after (r_cur r)) 0 (set_access (access_reset (r_access r)) r))))) st)
  else
    let '(timing, r) :=
      if duplicate_source_marker then
        (mkTsTiming (pid timing) (pcr timing) false, if r_awaiting r then r else set_dedup false r)
      else (timing, r) in
    if r_filter_sdt r && (ts_pid packet =? SDT_PID)%N then
      let r := spend r in
      Ok (set_run (set_cur (take packet_offset (r_cur r) ++ drop after (r_cur r)) (r_scanned r) r) st)
    else if r_awaiting r then
      match (if is_access_point then table_prefix (r_access r) else None) with
      | None =>
          let r := spend r in
          Ok (set_run (set_cur (drop after (r_cur r)) 0 r) st)
      | Some prefix =>
          if bool_decide (max_segment_bytes cfg < length prefix + TS_PACKET_LEN) then
            let r := spend r in
            Ok (set_run (set_pending true (set_cur (drop after (r_cur r)) 0 r)) st)
          else
            let r := if duplicate_source_marker then r else set_dedup false r in
            Ok (set_run (set_opening false (set_awaiting false
                  (set_cur (prefix ++ packet ++ drop after (r_cur r)) (length prefix / TS_PACKET_LEN) r))) st)
      end
    else
      let '(observation, r) := observe_clock r timing in
      match observation with
      | Reset =>
          Ok (set_run (set_awaiting true (set_dedup false (set_pending true
                (set_cur (drop after (r_cur r)) 0 (set_audio (audio_reset (r_audio r))
                   (set_access (access_reset (r_access r)) r)))))) st)
      | _ =>
          match (if bool_decide (0 < packet_offset) && is_access_point then reached r else None) with
          | Some ticks =>
              let st := hls_emit (set_run r st) packet_offset ticks in
              prefix ← ok_or (table_prefix (r_access (hs_run st))) Panicked;
              let r := hs_run st in
              Ok (set_run (rebase_clock (set_cur (prefix ++ r_cur r) (length prefix / TS_PACKET_LEN) r)) st)
          | None => Ok (set_run (set_cur (r_cur r) (S (r_scanned r)) r) st)
          end
      end.

Fixpoint hls_scan (fuel : nat) (st : HlsState) : result HlsStop HlsState :=
  let r := hs_run st in
  if bool_decide (r_scanned r < length (r_cur r) / TS_PACKET_LEN) then
    match fuel with
    | 0 => Err Looping
    | S fuel => st ← scan_step st; hls_scan fuel st
    end
  else Ok st.

(** One packet takes at most two turns: it opens or closes a segment, and is then counted. *)
Definition SCAN_FUEL : nat := 2.

Definition feed_packet (st : HlsState) (packet : bytes) : result HlsStop HlsState :=
  let r := hs_run st in
  if bool_decide (length (r_cur r) = max_segment_bytes cfg) then scan_lookahead st packet
  else hls_scan SCAN_FUEL (set_run (set_cur (r_cur r ++ packet) (r_scanned r) r) st).

(** The opening marker of a fenced generation is cleared. *)
Definition fence_marker (st : HlsState) (packet : bytes) : bytes :=
  if w_strict (hs_win st) && r_opening (hs_run st) && flag (byte_at packet 3) 0x20 && (0 <? byte_at packet 4)%N
  then <[5 := N_byte (N.land (byte_at packet 5) 0x7f)]> packet else packet.

(** A changed program: the unfinished run is dropped and the caches are refilled from the tables. *)
Definition layout_changed (r : Run) : Run :=
  let pending := r_pending r || negb (r_awaiting r) in
  let r := set_pending pending (discard_incomplete_run (set_access (access_reset (r_access r)) r)) in
  set_access (foldl (λ a table, (access_observe a table).2) (r_access r) (audio_tables (r_audio r))) r.

(** A complete input packet. *)
Definition feed_input (st : HlsState) (packet : bytes) : result HlsStop HlsState :=
  let packet := fence_marker st packet in
  let r := hs_run st in
  if discontinuity (ts_timing packet) && negb (r_dedup r) then
    Ok (set_run (discard_incomplete_run (set_access (access_reset (r_access r))
          (set_audio (audio_reset (r_audio r)) r))) st)
  else
    let '(result, audio) := audio_observe (r_audio r) packet in
    let r := set_audio audio r in
    let r := if ap_changed result then layout_changed r else r in
    match ap_packet result with
    | Some packet => feed_packet (set_run r st) packet
    | None =>
        Ok (set_run (if discontinuity (ts_timing packet) then set_dedup false r else r) st)
    end.

(** Every turn consumes at least a byte, since the staged input is shorter than a packet. *)
Fixpoint feed_loop (fuel : nat) (st : HlsState) (remaining : bytes) : result HlsStop HlsState :=
  match remaining with
  | [] => Ok st
  | _ =>
      match fuel with
      | 0 => Err Looping
      | S fuel =>
          let r := hs_run st in
          let n := (TS_PACKET_LEN - length (r_input r)) `min` length remaining in
          let input := r_input r ++ take n remaining in
          if bool_decide (length input ≠ TS_PACKET_LEN)
          then feed_loop fuel (set_run (set_input input r) st) (drop n remaining)
          else
            st ← feed_input (set_run (set_input [] r) st) input;
            feed_loop fuel st (drop n remaining)
      end
  end.

Definition expire (now : N) (st : HlsState) : HlsState :=
  let w := hs_win st in
  if w_strict w && bool_decide (w_status w = Starting ∨ w_status w = Recovering)
     && match w_deadline w with Some d => (d <=? now)%N | None => false end
  then mkHls (set_status (Failed FDeadline) w) (hs_run st) else st.

Definition feed_locked (now : N) (st : HlsState) (data : bytes) : result HlsStop HlsState :=
  let st := expire now st in
  if terminal (w_status (hs_win st)) then Ok st else feed_loop (length data) st data.

Definition hls_feed (now : N) (st : HlsState) (data : bytes) : result HlsStop HlsState :=
  if terminal (w_status (hs_win st)) then Ok st else feed_locked now st data.

Definition feed_generation (now generation : N) (st : HlsState) (data : bytes) : result HlsStop HlsState :=
  if negb (generation =? w_generation (hs_win st))%N || terminal (w_status (hs_win st)) then Ok st
  else feed_locked now st data.

Definition begin_generation (generation deadline : N) (recovering : bool) (st : HlsState) : HlsState :=
  let w := hs_win st in
  if terminal (w_status w) || (generation <=? w_generation w)%N then st
  else
    let r := hs_run st in
    let r := set_access (preserve_transport_identity (enable_mpeg2 (r_access r))) r in
    mkHls (mkWindow generation (if recovering then Recovering else Starting) (Some deadline) true 0
             (w_media_seq w) (w_discontinuity_sequence w) (w_segments w) (w_last_access w))
      (set_pending recovering (set_opening true (reset_partial false r))).

Definition fail_generation (generation : N) (reason : HlsFailure) (st : HlsState) : HlsState :=
  let w := hs_win st in
  if (generation =? w_generation w)%N && negb (terminal (w_status w))
  then mkHls (set_status (Failed reason) w) (reset_partial false (hs_run st)) else st.

Definition hls_stop (st : HlsState) : HlsState :=
  mkHls (set_status Stopped (hs_win st)) (reset_partial false (hs_run st)).

Definition reset_for_gap (deduplicate_source_marker : bool) (st : HlsState) : HlsState :=
  set_run (reset_partial deduplicate_source_marker (hs_run st)) st.

Definition hls_status (now : N) (st : HlsState) : HlsStatus * HlsState :=
  let st := expire now st in (w_status (hs_win st), st).

Definition touch (now : N) (st : HlsState) : HlsState :=
  let w := hs_win st in
  mkHls (mkWindow (w_generation w) (w_status w) (w_deadline w) (w_strict w) (w_generation_segments w)
    (w_media_seq w) (w_discontinuity_sequence w) (w_segments w) (Some now)) (hs_run st).

Definition retained_segment (st : HlsState) (seq : N) : option bytes :=
  let w := hs_win st in
  if (seq <? w_media_seq w)%N then None
  else seg_bytes <$> w_segments w !! N.to_nat (seq - w_media_seq w).

Definition hls_segment (now seq : N) (st : HlsState) : option bytes * HlsState :=
  let b := retained_segment st seq in
  (b, if bool_decide (is_Some b) then touch now st else st).

(** The sequence numbers a rendered playlist lists. *)
Definition playlist_sequences (st : HlsState) : list N :=
  let w := hs_win st in
  map (λ i, w_media_seq w + N.of_nat i)%N (seq 0 (length (w_segments w))).

Definition playlist_snapshot (now : N) (native_access : bool) (st : HlsState) : result HlsStatus (list N) * HlsState :=
  let st := expire now st in
  if bool_decide (w_status (hs_win st) = Ready) then
    let st := if native_access then touch now st else st in
    (Ok (playlist_sequences st), st)
  else (Err (w_status (hs_win st)), st).

Definition was_accessed_within (now grace : N) (st : HlsState) : bool :=
  match w_last_access (hs_win st) with Some t => (saturating_sub now t <? grace)%N | None => false end.
End packager.

(** ** Access points and their tables *)

(** The tables the access state remembers are the ones its PIDs come from. *)
Record access_ok (a : VideoAccessPointState) : Prop := {
  ao_pat : ∀ p, cached_pat a = Some p → is_packet p ∧ ts_pid p = 0%N
             ∧ ∃ m, parse_pat_first_program p = Some m ∧ program_number a = fst <$> m ∧ pmt_pid a = snd <$> m;
  ao_pmt : ∀ q, cached_pmt a = Some q → is_packet q ∧ pmt_pid a = Some (ts_pid q) ∧ is_Some (cached_pat a);
  ao_none : cached_pat a = None → pmt_pid a = None;
  ao_video : is_Some (video_pid a) → is_Some (cached_pmt a);
  ao_name : ∀ n, service_name a = Some n → length n ≤ MAX_SERVICE_NAME_BYTES;
}.

Lemma access_ok_reset a : access_ok a → access_ok (access_reset a).
Proof. intros []. by split; simpl; try done; intros []. Qed.

Lemma access_ok_mpeg2 a : access_ok a → access_ok (enable_mpeg2 a).
Proof. intros []. by split. Qed.

Lemma access_ok_preserve a : access_ok a → access_ok (preserve_transport_identity a).
Proof. intros []. by split. Qed.

Lemma access_ok_observe a p : access_ok a → access_ok (access_observe a p).2.
Proof.
  intros Ha. unfold access_observe. destruct (negb _ || negb _) eqn:Hh; [done|]. cbn [snd].
  apply orb_false_iff in Hh as [Hlen%negb_false_iff%bool_decide_eq_true _].
  destruct (N.eqb_spec (ts_pid p) 0) as [H0|H0].
  - destruct (parse_pat_first_program p) as [m|] eqn:Hm; [|done]. destruct Ha as [A1 A2 A3 A4 A5].
    unfold learn_pat. split; simpl.
    + intros q [= <-]. split_and!; [done|done|]. by exists m.
    + intros q Hq. case_bool_decide as E1; simpl in *; [|done]. case_bool_decide as E2; simpl in *; [|done].
      apply A2 in Hq as (? & Hp & _). rewrite E1 in Hp. split_and!; [done|done|by eexists].
    + done.
    + intros Hv. case_bool_decide; simpl in *; [|by destruct Hv]. case_bool_decide; simpl in *; [|by destruct Hv]. auto.
    + done.
  - case_bool_decide as Hp; [|done]. destruct (parse_pmt_video _ _ _) as [v|]; [|done].
    destruct Ha as [A1 A2 A3 A4 A5]. unfold learn_pmt. split; simpl; try done.
    intros q [= <-]. split_and!; [done|done|].
    destruct (cached_pat a) eqn:Ec; [by eexists|]. rewrite A3 in Hp; done.
Qed.

(** The length of the tables in front of a segment, in packets. *)
Lemma access_point_tables a p : access_ok a → (access_observe a p).1 = true →
  is_Some (cached_pmt (access_observe a p).2).
Proof.
  intros Ha H. apply ao_video; [by apply access_ok_observe|].
  unfold access_observe in *. destruct (negb _ || negb _); [done|]. cbn [fst snd] in *.
  apply andb_true_iff in H as [H%bool_decide_eq_true _]. rewrite <- H. by eexists.
Qed.

Lemma parse_pat_start p m : parse_pat_first_program p = Some m →
  ∃ start, psi_section_start p = Some start ∧ start + 5 < length p.
Proof.
  unfold parse_pat_first_program, current_psi_section. destruct (negb _); [done|].
  intros H. apply bind_Some in H as ([sec e] & H & _). apply bind_Some in H as (start & Hs & H).
  apply bind_Some in H as (t & _ & H). apply bind_Some in H as (u & _ & H). apply bind_Some in H as (c & Hc & _).
  exists start. split; [done|]. by apply lookup_lt_Some in Hc.
Qed.

(** A segment opens with its tables: an association, the map on the PID it names, perhaps the service
    table; then media. *)
Definition tables_of (a : VideoAccessPointState) (prefix : bytes) : Prop :=
  ∃ pat pmt sdt, prefix = pat ++ pmt ++ sdt ∧ cached_pat a = Some pat ∧ cached_pmt a = Some pmt
  ∧ is_packet pat ∧ is_packet pmt
  ∧ (sdt = [] ∨ is_packet sdt ∧ is_Some (service_name a)).

Lemma table_prefix_ok a : access_ok a → is_Some (cached_pmt a) →
  ∃ prefix, table_prefix a = Some prefix ∧ tables_of a prefix.
Proof.
  intros [A1 A2 A3 A4 A5] [pmt Hpmt]. destruct (A2 _ Hpmt) as (Hq & Hpid & [pat Hpat]).
  destruct (A1 _ Hpat) as (Hp & _ & m & Hm & Hprog & _). unfold table_prefix. rewrite Hpat, Hpmt. simpl.
  unfold tables_of. destruct (service_name a) as [name|] eqn:Hn.
  2: { eexists. split; [done|]. exists pat, pmt, []. rewrite app_nil_r. split_and!; try done. by left. }
  destruct (program_number a) as [pr|].
  2: { eexists. split; [done|]. exists pat, pmt, []. rewrite app_nil_r. split_and!; try done. by left. }
  specialize (A5 _ eq_refl). destruct (preserve_identity a).
  - destruct (parse_pat_start _ _ Hm) as (start & Hs & Hl). rewrite Hs. simpl.
    unfold slice_get. rewrite bool_decide_eq_true_2 by lia. simpl. eexists. split; [done|].
    eexists pat, pmt, _. split_and!; try done. right. split; [by apply build_sdt_length|by eexists].
  - eexists. split; [done|]. eexists pat, pmt, _. split_and!; try done. right.
    split; [by apply build_sdt_length|by eexists].
Qed.

Lemma tables_length a prefix : tables_of a prefix →
  ∃ k, length prefix = k * TS_PACKET_LEN ∧ (k = 2 ∨ k = 3 ∧ is_Some (service_name a)).
Proof.
  intros (pat & pmt & sdt & -> & _ & _ & Hp & Hq & Hs). unfold is_packet, TS_PACKET_LEN in *. rewrite !length_app.
  destruct Hs as [->|[Hs ?]]; [exists 2|exists 3]; simpl; [split; [lia|by left]|split; [lia|by right]].
Qed.

(** ** The clock of a run *)

(** The boundary sample is the clock's last one. *)
Definition clock_ok (r : Run) : Prop :=
  match r_boundary r with
  | None => r_clock r = clock_new
  | Some t => discontinuity t = false ∧ clk_pid (r_clock r) = Some (pid t) ∧ is_Some (clk_start (r_clock r))
      ∧ ∃ v, pcr t = Some v ∧ clk_last (r_clock r) = Some v
  end.

(** The sample [observe_clock] hands to the clock. *)
Definition selected_timing (r : Run) (t : TsTiming) : TsTiming :=
  match as_pcr (r_audio r) with
  | Some p => if (p =? pid t)%N then t else mkTsTiming (pid t) None (discontinuity t)
  | None => t
  end.

Lemma observe_clock_unfold r t : let t' := selected_timing r t in let '(o, c) := observe (r_clock r) t' in
  observe_clock r t = (o, set_clock c (match o with Advanced _ => Some t' | Reset => None | Ignored => r_boundary r end) r).
Proof. unfold observe_clock. fold (selected_timing r t). by destruct (observe _ _). Qed.

Lemma selected_timing_disc r t : discontinuity (selected_timing r t) = discontinuity t.
Proof. unfold selected_timing. by repeat case_match. Qed.

Lemma pcr_delta_self v : pcr_delta v v = Some 0%N.
Proof.
  unfold pcr_delta. rewrite (N.add_comm v), N.add_sub. rewrite N.Div0.mod_same. done.
Qed.

(** Observing on a fresh clock never resets and has no time elapsed. *)
Lemma observe_fresh t : discontinuity t = false →
  (observe clock_new t).1 ≠ Reset ∧ (elapsed (observe clock_new t).2 = Some 0%N ∨ (observe clock_new t).2 = clock_new).
Proof.
  intros Hd. unfold observe. rewrite Hd. destruct (pcr t) as [v|]; simpl; [|by auto].
  split; [done|]. left. unfold elapsed. simpl. apply pcr_delta_self.
Qed.

(** Case split on whether a sample runs backwards. *)
Ltac clock_jump H :=
  match type of H with context [if ?b then (Reset, _) else _] => destruct b end.

Lemma observe_clock_ok r t : clock_ok r → clock_ok (observe_clock r t).2.
Proof.
  intros H. pose proof (observe_clock_unfold r t) as E. cbv zeta in E.
  set (t' := selected_timing r t) in *. clearbody t'. unfold observe in E.
  destruct (discontinuity t') eqn:Hd; [rewrite E; done|].
  destruct (pcr t') as [v|] eqn:Hv; [|rewrite E; done].
  destruct (clk_pid (r_clock r)) as [q|] eqn:Hq.
  - destruct (negb (q =? pid t')%N) eqn:Hn; [rewrite E; done|].
    apply negb_false_iff, N.eqb_eq in Hn. simpl in E.
    clock_jump E; rewrite E; [done|].
    unfold clock_ok. simpl. split_and!; [done|by rewrite Hn|by eexists|by eauto].
  - simpl in E. clock_jump E; rewrite E; [done|].
    unfold clock_ok. simpl. split_and!; [done|done|by eexists|by eauto].
Qed.

Lemma rebase_clock_ok r : clock_ok r → clock_ok (rebase_clock r).
Proof.
  unfold clock_ok, rebase_clock. simpl. destruct (r_boundary r) as [t|]; [|done].
  intros (Hd & _ & _ & v & Hv & _). unfold observe. rewrite Hd, Hv. simpl.
  split_and!; [done|done|by eexists|by eauto].
Qed.

(** The packet that was just observed is observed again on the rebased clock: no reset, no time. *)
Lemma observe_again r t : clock_ok r → discontinuity t = false → (observe_clock r t).1 ≠ Reset →
  let r1 := rebase_clock (observe_clock r t).2 in
  (observe_clock r1 t).1 ≠ Reset
  ∧ (elapsed (r_clock (observe_clock r1 t).2) = Some 0%N ∨ elapsed (r_clock (observe_clock r1 t).2) = None).
Proof.
  intros Hok Hd Hr. pose proof (observe_clock_unfold r t) as E. cbv zeta in E.
  assert (r_audio (rebase_clock (observe_clock r t).2) = r_audio r) as Ha.
  { destruct (observe (r_clock r) (selected_timing r t)). by rewrite E. }
  intros r1. pose proof (observe_clock_unfold r1 t) as E1. cbv zeta in E1.
  assert (selected_timing r1 t = selected_timing r t) as Es by (unfold selected_timing, r1; by rewrite Ha).
  rewrite Es in E1. pose proof (selected_timing_disc r t) as Hd'. rewrite Hd in Hd'.
  set (t' := selected_timing r t) in *. clearbody t'.
  assert (r_clock r1 = match r_boundary (observe_clock r t).2 with
                       | Some b => (observe clock_new b).2 | None => clock_new end) as Hc by done.
  clearbody r1. unfold clock_ok in Hok.
  unfold observe in E. rewrite Hd' in E. destruct (pcr t') as [v|] eqn:Hv.
  2: { rewrite E in Hc. simpl in Hc. unfold observe in E1. rewrite Hd', Hv in E1. rewrite E1. simpl.
       split; [done|]. rewrite Hc. destruct (r_boundary r) as [b|]; [|by right].
       destruct Hok as (Hb & _). destruct (observe_fresh b Hb) as [_ [->| ->]]; [by left|by right]. }
  assert (Hadv : ∀ o c, observe_clock r t = (o, set_clock c (Some t') r) →
    (observe_clock r1 t).1 ≠ Reset ∧ elapsed (r_clock (observe_clock r1 t).2) = Some 0%N).
  { intros o c Eo. rewrite Eo in Hc. simpl in Hc. unfold observe in Hc. rewrite Hd', Hv in Hc. simpl in Hc.
    unfold observe in E1. rewrite Hc, Hd', Hv in E1. simpl in E1.
    rewrite N.eqb_refl in E1. cbn [negb] in E1. rewrite pcr_delta_self in E1.
    rewrite bool_decide_eq_false_2 in E1 by done. rewrite E1. simpl. split; [done|]. unfold elapsed. simpl.
    apply pcr_delta_self. }
  destruct (clk_pid (r_clock r)) as [q|] eqn:Hq.
  - destruct (N.eqb_spec q (pid t')) as [Hn|Hn]; cbn [negb] in E.
    + simpl in E. clock_jump E; [rewrite E in Hr; done|].
      destruct (Hadv _ _ E). by auto.
    + rewrite E in Hc. simpl in Hc. destruct (r_boundary r) as [b|]; [|rewrite Hok in Hq; done].
      destruct Hok as (Hb & Hp & _ & w & Hw & _). injection Hp as ->.
      unfold observe in Hc. rewrite Hb, Hw in Hc. simpl in Hc.
      unfold observe in E1. rewrite Hc, Hd', Hv in E1. simpl in E1.
      rewrite (proj2 (N.eqb_neq _ _) Hn) in E1. cbn [negb] in E1. rewrite E1. simpl. split; [done|]. left.
      rewrite ?Hc. unfold elapsed. simpl. apply pcr_delta_self.
  - simpl in E. clock_jump E; [rewrite E in Hr; done|].
    destruct (Hadv _ _ E). by auto.
Qed.

(** ** The invariant *)

(** The tables a segment opens with. *)
Definition opening_tables (prefix : bytes) : Prop :=
  ∃ pat pmt sdt program, prefix = pat ++ pmt ++ sdt ∧ is_packet pat ∧ is_packet pmt
  ∧ ts_pid pat = 0%N ∧ parse_pat_first_program pat = Some (Some (program, ts_pid pmt))
  ∧ (sdt = [] ∨ is_packet sdt).

Definition headed (l : bytes) : Prop := ∃ prefix rest, l = prefix ++ rest ∧ opening_tables prefix ∧ rest ≠ [].

Lemma tables_opening a prefix : access_ok a → tables_of a prefix → opening_tables prefix.
Proof.
  intros Ha (pat & pmt & sdt & -> & Hpat & Hpmt & Hp & Hq & Hs).
  destruct (ao_pat _ Ha _ Hpat) as (_ & H0 & m & Hm & _ & Hpid). destruct (ao_pmt _ Ha _ Hpmt) as (_ & Hpid' & _).
  rewrite Hpid' in Hpid. destruct m as [[program q]|]; [|done]. injection Hpid as <-.
  exists pat, pmt, sdt, program. split_and!; try done. destruct Hs as [|[? _]]; auto.
Qed.

Section invariant.
Context (cfg : HlsParams).

Record run_ok (r : Run) : Prop := {
  ro_input : length (r_input r) < TS_PACKET_LEN;
  ro_access : access_ok (r_access r);
  ro_clock : clock_ok r;
  ro_cur : length (r_cur r) = r_scanned r * TS_PACKET_LEN;
  ro_max : length (r_cur r) ≤ max_segment_bytes cfg;
  ro_await : r_awaiting r = true → r_cur r = [] ∧ r_boundary r = None;
  ro_open : r_awaiting r = false → headed (r_cur r);
  ro_dedup : r_dedup r = true → r_awaiting r = true;
  ro_room : ∃ m, max_segment_bytes cfg = m * TS_PACKET_LEN ∧ 3 ≤ m
              ∧ (is_Some (service_name (r_access r)) → 4 ≤ m);
}.

(** What one packet does to the run, as a reader of the window sees it. *)
Inductive outcome (st : HlsState) (p : bytes) (st' : HlsState) : Prop :=
  | out_skip :
      hs_win st' = hs_win st → r_awaiting (hs_run st') = true →
      (r_awaiting (hs_run st) = false ∨ r_pending (hs_run st) = true → r_pending (hs_run st') = true) →
      outcome st p st'
  | out_sdt :
      hs_win st' = hs_win st → r_filter_sdt (hs_run st) = true → ts_pid p = SDT_PID →
      r_cur (hs_run st') = r_cur (hs_run st) → r_awaiting (hs_run st') = r_awaiting (hs_run st) →
      r_pending (hs_run st') = r_pending (hs_run st) → outcome st p st'
  | out_open prefix :
      hs_win st' = hs_win st → opening_tables prefix → r_cur (hs_run st') = prefix ++ p →
      r_awaiting (hs_run st') = false →
      (r_awaiting (hs_run st) = false ∨ r_pending (hs_run st) = true → r_pending (hs_run st') = true) →
      outcome st p st'
  | out_append :
      hs_win st' = hs_win st → r_filter_sdt (hs_run st) && (ts_pid p =? SDT_PID)%N = false →
      r_awaiting (hs_run st) = false → r_cur (hs_run st') = r_cur (hs_run st) ++ p →
      r_awaiting (hs_run st') = false → r_pending (hs_run st') = r_pending (hs_run st) → outcome st p st'
  | out_cut ticks prefix :
      target_reached cfg ticks = true → r_filter_sdt (hs_run st) && (ts_pid p =? SDT_PID)%N = false →
      r_awaiting (hs_run st) = false → hs_win st' = hs_win (hls_emit cfg st (length (r_cur (hs_run st))) ticks) →
      opening_tables prefix → r_cur (hs_run st') = prefix ++ p → r_awaiting (hs_run st') = false →
      r_pending (hs_run st') = false → outcome st p st'.

(** The last packet of the run is the one being scanned. *)
Lemma scan_last pre p : is_packet p → ∀ n, length pre = n * TS_PACKET_LEN →
  slice (pre ++ p) (n * TS_PACKET_LEN) (n * TS_PACKET_LEN + TS_PACKET_LEN) = p
  ∧ drop (n * TS_PACKET_LEN + TS_PACKET_LEN) (pre ++ p) = [] ∧ take (n * TS_PACKET_LEN) (pre ++ p) = pre
  ∧ length (pre ++ p) / TS_PACKET_LEN = S n.
Proof.
  intros Hp n Hn. unfold is_packet in Hp. rewrite <- Hn. unfold slice.
  rewrite drop_app_length, take_app_length. rewrite take_ge by lia.
  rewrite drop_ge by (rewrite length_app; lia). split_and!; try done.
  rewrite length_app, Hn, Hp. replace (n * TS_PACKET_LEN + TS_PACKET_LEN) with (S n * TS_PACKET_LEN) by lia.
  by rewrite Nat.div_mul.
Qed.

Lemma observe_clock_frame r t : let r' := (observe_clock r t).2 in
  r_opening r' = r_opening r ∧ r_audio r' = r_audio r ∧ r_input r' = r_input r ∧ r_cur r' = r_cur r
  ∧ r_scanned r' = r_scanned r ∧ r_pending r' = r_pending r ∧ r_dedup r' = r_dedup r
  ∧ r_access r' = r_access r ∧ r_awaiting r' = r_awaiting r ∧ r_filter_sdt r' = r_filter_sdt r.
Proof. unfold observe_clock. by destruct (observe _ _). Qed.

Lemma observe_name a p : service_name (access_observe a p).2 = service_name a.
Proof. by destruct (observe_tables a p). Qed.

(** A timing whose announced marker is set aside. *)
Definition plain (t : TsTiming) : TsTiming := mkTsTiming (pid t) (pcr t) false.

Lemma plain_id t : discontinuity t = false → plain t = t.
Proof. destruct t; simpl. by intros ->. Qed.

Lemma set_dedup_id b r : r_dedup r = b → set_dedup b r = r.
Proof. by destruct r; simpl; intros ->. Qed.

Lemma scan_done fuel st n : r_scanned (hs_run st) = n → length (r_cur (hs_run st)) = n * TS_PACKET_LEN →
  hls_scan cfg fuel st = Ok st.
Proof.
  intros Hn Hc. destruct fuel; cbn [hls_scan]; rewrite Hn, Hc, Nat.div_mul by done;
    by rewrite bool_decide_eq_false_2 by lia.
Qed.

(** The pass that counts the last packet: nothing to cut, no reset. *)
Lemma count_pass st pre p n fuel : let r := hs_run st in
  is_packet p → r_cur r = pre ++ p → r_scanned r = n → length pre = n * TS_PACKET_LEN → r_awaiting r = false →
  discontinuity (ts_timing p) = r_dedup r → r_filter_sdt r && (ts_pid p =? SDT_PID)%N = false →
  let r1 := set_dedup false (set_access (access_observe (r_access r) p).2 r) in
  (observe_clock r1 (plain (ts_timing p))).1 ≠ Reset →
  reached cfg (observe_clock r1 (plain (ts_timing p))).2 = None →
  hls_scan cfg (S fuel) st =
  Ok (set_run (set_cur (pre ++ p) (S n) (observe_clock r1 (plain (ts_timing p))).2) st).
Proof.
  intros r Hp Hc Hs Hn Ha Hd Hf r1 Ho Hr. destruct (scan_last pre p Hp n Hn) as (E1 & E2 & E3 & E4).
  cbn [hls_scan]. fold r. rewrite Hc, Hs, E4. rewrite bool_decide_eq_true_2 by lia.
  assert (scan_step cfg st = Ok (set_run (set_cur (pre ++ p) (S n) (observe_clock r1 (plain (ts_timing p))).2) st)) as ->.
  { unfold scan_step. fold r. rewrite Hs, Hc, E1. fold r in Hd.
    destruct (access_observe (r_access r) p) as [ap acc] eqn:Eacc. cbn [snd] in r1.
    cbn [r_dedup set_access]. rewrite Hd, andb_diag.
    assert ((if r_dedup r then (mkTsTiming (pid (ts_timing p)) (pcr (ts_timing p)) false,
               if r_awaiting (set_access acc r) then set_access acc r else set_dedup false (set_access acc r))
             else (ts_timing p, set_access acc r)) = (plain (ts_timing p), r1)) as ->.
    { destruct (r_dedup r) eqn:Edd.
      - cbn [r_awaiting set_access]. by rewrite Ha.
      - unfold r1. rewrite set_dedup_id by done. by rewrite plain_id. }
    rewrite andb_negb_r.
    replace (r_filter_sdt r1) with (r_filter_sdt r) by done. rewrite Hf.
    replace (r_awaiting r1) with false by done.
    pose proof (observe_clock_frame r1 (plain (ts_timing p))) as (F1 & F2 & F3 & F4 & F5 & _).
    destruct (observe_clock r1 (plain (ts_timing p))) as [o r2]. cbn [fst snd] in *.
    assert ((if bool_decide (0 < n * TS_PACKET_LEN) && ap then reached cfg r2 else None) = None) as ->
      by (destruct (bool_decide (0 < n * TS_PACKET_LEN) && ap); done).
    assert (r_cur r2 = pre ++ p ∧ r_scanned r2 = n) as [-> ->] by (by rewrite F4, F5).
    by destruct o. }
  cbn [mbind result_bind]. apply (scan_done _ _ (S n)); [done|].
  cbn [set_run set_cur hs_run r_cur]. rewrite length_app, Hn. unfold is_packet in Hp. lia.
Qed.

Lemma hls_emit_run st e t : hs_run (hls_emit cfg st e t) =
  set_pending false (set_audio (audio_emitted (r_audio (hs_run st)) (take e (r_cur (hs_run st)))).2
    (set_cur (drop e (r_cur (hs_run st))) 0 (hs_run st))).
Proof. unfold hls_emit. destruct (evict _ _ _ _) as [[? ?] ?]. by destruct (audio_emitted _ _). Qed.

Lemma hls_emit_win st st' e e' t : hs_win st = hs_win st' → r_audio (hs_run st) = r_audio (hs_run st') →
  take e (r_cur (hs_run st)) = take e' (r_cur (hs_run st')) → r_pending (hs_run st) = r_pending (hs_run st') →
  hs_win (hls_emit cfg st e t) = hs_win (hls_emit cfg st' e' t).
Proof.
  intros E1 E2 E3 E4. unfold hls_emit. rewrite E1, E2, E3, E4. destruct (evict _ _ _ _) as [[? ?] ?].
  by destruct (audio_emitted _ _).
Qed.

Lemma emitted_pcr a l : as_pcr (audio_emitted a l).2 = as_pcr a.
Proof. unfold audio_emitted. destruct (negb _); [done|]. by destruct (emitted_loop _ _ _). Qed.

(** The clock reads nothing else of the run. *)
Lemma observe_clock_cong r r' t : r_clock r = r_clock r' → r_boundary r = r_boundary r' →
  as_pcr (r_audio r) = as_pcr (r_audio r') →
  (observe_clock r t).1 = (observe_clock r' t).1 ∧ r_clock (observe_clock r t).2 = r_clock (observe_clock r' t).2
  ∧ r_boundary (observe_clock r t).2 = r_boundary (observe_clock r' t).2.
Proof.
  intros E1 E2 E3. unfold observe_clock. rewrite E1, E2, E3. by destruct (observe _ _).
Qed.

Lemma clock_ok_cong r r' : r_clock r = r_clock r' → r_boundary r = r_boundary r' → clock_ok r → clock_ok r'.
Proof. unfold clock_ok. by intros -> ->. Qed.

(** A run that has been dropped, and one that holds media. *)
Lemma run_ok_dropped r r' : run_ok r → length (r_input r') < TS_PACKET_LEN → access_ok (r_access r') →
  service_name (r_access r') = service_name (r_access r) → r_clock r' = clock_new → r_boundary r' = None →
  r_cur r' = [] → r_scanned r' = 0 → r_awaiting r' = true → run_ok r'.
Proof.
  intros [] Hi Ha Hn Hc Hb Hcur Hs Haw. split; try done; try congruence.
  - unfold clock_ok. by rewrite Hb.
  - by rewrite Hcur, Hs.
  - rewrite Hcur. simpl. lia.
  - by rewrite Hn.
Qed.

Lemma run_ok_media r r' : run_ok r → r_input r' = r_input r → access_ok (r_access r') →
  service_name (r_access r') = service_name (r_access r) → clock_ok r' → headed (r_cur r') →
  length (r_cur r') = r_scanned r' * TS_PACKET_LEN → length (r_cur r') ≤ max_segment_bytes cfg →
  r_awaiting r' = false → r_dedup r' = false → run_ok r'.
Proof. intros [] Hi Ha Hn Hc Hh Hl Hm Haw Hd. split; try done; try congruence. by rewrite Hn. Qed.

(** The tables and one packet fit, and open a segment. *)
Lemma tables_fit r a prefix p : run_ok r → access_ok a → service_name a = service_name (r_access r) →
  tables_of a prefix → is_packet p → ∃ k, 0 < k ∧ length prefix = k * TS_PACKET_LEN
  ∧ length prefix / TS_PACKET_LEN = k ∧ length (prefix ++ p) = S k * TS_PACKET_LEN
  ∧ length (prefix ++ p) ≤ max_segment_bytes cfg ∧ opening_tables prefix ∧ headed (prefix ++ p).
Proof.
  intros Hr Ha Hn Ht Hp. destruct (tables_length _ _ Ht) as (k & Hk & Hk').
  destruct (ro_room _ Hr) as (m & Hm & Hm3 & Hm4). pose proof (tables_opening _ _ Ha Ht) as Ho.
  exists k. unfold is_packet in Hp. rewrite length_app, Hk, Hp, Nat.div_mul by done.
  split_and!; try done; [lia|lia| |].
  - rewrite Hm. rewrite Hn in Hk'. destruct Hk' as [->|[-> ?]]; [|specialize (Hm4 ltac:(done))]; unfold TS_PACKET_LEN; lia.
  - exists prefix, p. split_and!; try done. intros ->. done.
Qed.

Section scan_packet.
Context (st : HlsState) (p : bytes) (Hr : run_ok (hs_run st)) (Hp : is_packet p).
Context (Hmax : length (r_cur (hs_run st)) ≠ max_segment_bytes cfg) (H0 : target_reached cfg 0 = false).
Let r := hs_run st.
Let st1 := set_run (set_cur (r_cur r ++ p) (r_scanned r) r) st.
Let acc := (access_observe (r_access r) p).2.

Lemma reached_none r' : elapsed (r_clock r') = Some 0%N ∨ elapsed (r_clock r') = None → reached cfg r' = None.
Proof using H0. unfold reached. intros [->| ->]; simpl; [by rewrite H0|done]. Qed.

Lemma scan_first : feed_packet cfg st p = scan_step cfg st1 ≫= hls_scan cfg 1.
Proof using Hr Hp Hmax.
  unfold feed_packet, SCAN_FUEL. fold r. rewrite bool_decide_eq_false_2 by done. fold st1.
  destruct (scan_last (r_cur r) p Hp (r_scanned r) (ro_cur _ Hr)) as (_ & _ & _ & E).
  cbn [hls_scan]. cbn [st1 set_run set_cur hs_run r_cur r_scanned]. rewrite E.
  by rewrite bool_decide_eq_true_2 by lia.
Qed.

(** An unannounced marker drops the run. *)
Lemma scan_marker : discontinuity (ts_timing p) = true → r_dedup r = false →
  ∃ st', feed_packet cfg st p = Ok st' ∧ outcome st p st' ∧ run_ok (hs_run st').
Proof using Hr Hp Hmax.
  intros Hd Hdd. rewrite scan_first. unfold scan_step. cbn [st1 set_run set_cur hs_run r_cur r_scanned r_access].
  destruct (scan_last (r_cur r) p Hp (r_scanned r) (ro_cur _ Hr)) as (E1 & E2 & _). rewrite E1.
  pose proof (access_ok_observe _ p (ro_access _ Hr)) as Hacc. pose proof (observe_name (r_access r) p) as Hn.
  fold r in Hacc. destruct (access_observe (r_access r) p) as [ap a'] eqn:Ea. cbn [snd] in *.
  cbn [r_dedup r_cur set_access set_cur]. rewrite Hd, Hdd, E2. cbn [andb negb mbind result_bind].
  rewrite (scan_done _ _ 0) by done. eexists. split; [done|]. split.
  - by apply out_skip.
  - apply (run_ok_dropped r); try done; [apply (ro_input _ Hr)|by apply access_ok_reset].
Qed.

(** A foreign service table is filtered. *)
Lemma scan_sdt : (discontinuity (ts_timing p) = true → r_dedup r = true) → r_filter_sdt r = true →
  ts_pid p = SDT_PID → ∃ st', feed_packet cfg st p = Ok st' ∧ outcome st p st' ∧ run_ok (hs_run st').
Proof using Hr Hp Hmax.
  intros Hd Hf Hs. rewrite scan_first. unfold scan_step. cbn [st1 set_run set_cur hs_run r_cur r_scanned r_access].
  destruct (scan_last (r_cur r) p Hp (r_scanned r) (ro_cur _ Hr)) as (E1 & E2 & E3 & _). rewrite E1.
  pose proof (access_ok_observe _ p (ro_access _ Hr)) as Hacc. pose proof (observe_name (r_access r) p) as Hn.
  fold r in Hacc. destruct (access_observe (r_access r) p) as [ap a'] eqn:Ea. cbn [snd] in *.
  cbn [r_dedup set_access set_cur].
  replace (discontinuity (ts_timing p) && negb (r_dedup r)) with false
    by (destruct (discontinuity (ts_timing p)); [by rewrite Hd|done]).
  set (dup := discontinuity (ts_timing p) && r_dedup r).
  assert (∃ t b, (if dup then (mkTsTiming (pid (ts_timing p)) (pcr (ts_timing p)) false,
       if r_awaiting (set_access a' (set_cur (r_cur r ++ p) (r_scanned r) r))
       then set_access a' (set_cur (r_cur r ++ p) (r_scanned r) r)
       else set_dedup false (set_access a' (set_cur (r_cur r ++ p) (r_scanned r) r)))
     else (ts_timing p, set_access a' (set_cur (r_cur r ++ p) (r_scanned r) r)))
     = (t, set_dedup b (set_access a' (set_cur (r_cur r ++ p) (r_scanned r) r))) ∧ (b = true → r_dedup r = true)) as (t & b & -> & Hb).
  { destruct dup; [cbn [r_awaiting set_access set_cur]; destruct (r_awaiting r)|];
      eexists _, _; (split; [f_equal; by destruct r|done]). }
  cbn [r_filter_sdt set_dedup set_access set_cur]. rewrite Hf, Hs. cbn [N.eqb SDT_PID Pos.eqb andb].
  cbn [mbind result_bind].
  assert (∃ b', (b' = true → r_dedup r = true) ∧ (if dup then set_dedup false (set_dedup b (set_access a' (set_cur (r_cur r ++ p) (r_scanned r) r)))
    else set_dedup b (set_access a' (set_cur (r_cur r ++ p) (r_scanned r) r))) = set_dedup b' (set_access a' (set_cur (r_cur r ++ p) (r_scanned r) r)))
    as (b' & Hb' & ->) by (destruct dup; [by exists false|by exists b]).
  cbn [r_cur r_scanned set_dedup set_access set_cur]. rewrite E2, E3, app_nil_r.
  rewrite (scan_done _ _ (r_scanned r)) by (try done; apply (ro_cur _ Hr)).
  eexists. split; [done|]. split.
  - by apply out_sdt.
  - destruct Hr. split; try done; cbn [hs_run set_run r_dedup r_awaiting r_access set_dedup set_access set_cur]; auto.
    by rewrite Hn.
Qed.

(** While the run waits for an access point. *)
Lemma scan_awaiting : (discontinuity (ts_timing p) = true → r_dedup r = true) →
  r_filter_sdt r && (ts_pid p =? SDT_PID)%N = false → r_awaiting r = true →
  ∃ st', feed_packet cfg st p = Ok st' ∧ outcome st p st' ∧ run_ok (hs_run st').
Proof using Hr Hp Hmax H0.
  intros Hd Hf Haw. destruct (ro_await _ Hr Haw) as [Hcur Hb]. fold r in Hcur, Hb.
  assert (r_scanned r = 0) as Hs.
  { pose proof (ro_cur _ Hr) as Hc. fold r in Hc. rewrite Hcur in Hc. unfold TS_PACKET_LEN in Hc. simpl in Hc. lia. }
  assert (r_clock r = clock_new) as Hck by (pose proof (ro_clock _ Hr) as Hc; unfold clock_ok in Hc; fold r in Hc; by rewrite Hb in Hc).
  rewrite scan_first. unfold scan_step. cbn [st1 set_run set_cur hs_run r_cur r_scanned r_access].
  destruct (scan_last (r_cur r) p Hp (r_scanned r) (ro_cur _ Hr)) as (E1 & E2 & E3 & _). rewrite E1.
  pose proof (access_ok_observe _ p (ro_access _ Hr)) as Hacc. pose proof (observe_name (r_access r) p) as Hn.
  pose proof (access_point_tables _ p (ro_access _ Hr)) as Htab.
  fold r in Hacc, Htab. destruct (access_observe (r_access r) p) as [ap a'] eqn:Ea. cbn [fst snd] in *.
  cbn [r_dedup set_access set_cur].
  replace (discontinuity (ts_timing p) && negb (r_dedup r)) with false
    by (destruct (discontinuity (ts_timing p)); [by rewrite Hd|done]).
  assert (discontinuity (ts_timing p) && r_dedup r = discontinuity (ts_timing p)) as ->
    by (destruct (discontinuity (ts_timing p)); [by rewrite Hd|done]).
  set (rr := set_access a' (set_cur (r_cur r ++ p) (r_scanned r) r)).
  assert ((if discontinuity (ts_timing p) then (mkTsTiming (pid (ts_timing p)) (pcr (ts_timing p)) false,
      if r_awaiting rr then rr else set_dedup false rr) else (ts_timing p, rr)) = (plain (ts_timing p), rr)) as ->.
  { replace (r_awaiting rr) with true by done. unfold plain. destruct (ts_timing p) as [? ? []]; done. }
  replace (r_filter_sdt rr) with (r_filter_sdt r) by done. rewrite Hf. replace (r_awaiting rr) with true by done.
  assert (∀ (b : bool) r', r' = (if discontinuity (ts_timing p) then set_dedup false rr else rr) →
    let r'' := set_cur (drop (r_scanned r * TS_PACKET_LEN + TS_PACKET_LEN) (r_cur r')) 0 r' in
    let st' := set_run (if b then set_pending true r'' else r'') st1 in
    hls_scan cfg 1 st' = Ok st' ∧ outcome st p st' ∧ run_ok (hs_run st')) as Hskip.
  { intros b r' -> r'' st'.
    assert (r_cur r'' = []) as Ec by (unfold r''; destruct (discontinuity _); exact E2).
    assert (r_scanned r'' = 0) as Es by (unfold r''; by destruct (discontinuity _)).
    assert (r_scanned (hs_run st') = 0 ∧ r_cur (hs_run st') = []) as [Es' Ec'] by (unfold st'; by destruct b).
    split_and!.
    - apply (scan_done _ _ 0); [done|]. by rewrite Ec'.
    - apply out_skip; [done|unfold st', r''; by destruct b, (discontinuity _)|].
      intros [?|Hpe]; [fold r in H; congruence|]. unfold st', r''. by destruct b, (discontinuity _).
    - apply (run_ok_dropped r); [done|..]; unfold st', r''; destruct b, (discontinuity _); try done; try exact E2; apply (ro_input _ Hr). }
  destruct (if ap then table_prefix (r_access rr) else None) as [prefix|] eqn:Ht.
  2: { cbn [mbind result_bind]. eexists. destruct (Hskip false _ eq_refl) as (-> & Ho & Hok). done. }
  case_bool_decide as Hlong.
  { cbn [mbind result_bind]. eexists. destruct (Hskip true _ eq_refl) as (-> & Ho & Hok). done. }
  clear Hskip. destruct ap; [|done]. specialize (Htab eq_refl).
  destruct (table_prefix_ok a' Hacc Htab) as (prefix' & Ht' & Htabs).
  replace (r_access rr) with a' in Ht by done. rewrite Ht in Ht'. injection Ht' as <-.
  destruct (tables_fit r a' prefix p Hr Hacc Hn Htabs Hp) as (k & Hk0 & Hk & Hk' & Hl & Hfit & Hopen & Hhead).
  set (r2 := if discontinuity (ts_timing p) then rr else set_dedup false rr).
  assert (drop (r_scanned r * TS_PACKET_LEN + TS_PACKET_LEN) (r_cur r2) = []) as ->
    by (unfold r2; destruct (discontinuity _); exact E2).
  rewrite app_nil_r, Hk'. cbn [mbind result_bind].
  set (st2 := set_run _ st1).
  set (r1 := set_dedup false (set_access (access_observe (r_access (hs_run st2)) p).2 (hs_run st2))).
  assert (r_clock r1 = clock_new ∧ r_boundary r1 = None) as [Hc1 Hb1] by (unfold r1, st2, r2; by destruct (discontinuity _)).
  pose proof (observe_clock_unfold r1 (plain (ts_timing p))) as Eo. cbv zeta in Eo. rewrite Hc1 in Eo.
  destruct (observe_fresh (selected_timing r1 (plain (ts_timing p)))) as [Ho1 Ho2]; [by rewrite selected_timing_disc|].
  rewrite (count_pass st2 prefix p k 0); try done.
  - eexists. split; [done|]. split.
    + apply (out_open _ _ _ prefix); try done; fold r1;
        pose proof (observe_clock_frame r1 (plain (ts_timing p))) as (_ & _ & _ & _ & _ & F6 & _ & _ & F9 & _);
        cbn [hs_run set_run r_awaiting r_pending set_cur]; rewrite ?F6, ?F9; [unfold r1, st2, r2; by destruct (discontinuity _)|].
      fold r. intros [?|Hpe]; [congruence|]. unfold r1, st2, r2. by destruct (discontinuity _).
    + fold r1. pose proof (observe_clock_frame r1 (plain (ts_timing p))) as (_ & _ & F3 & _ & _ & _ & F7 & F8 & F9 & _).
      apply (run_ok_media r); try done; cbn [hs_run set_run r_input r_access r_awaiting r_dedup set_cur]; rewrite ?F3, ?F7, ?F8, ?F9.
      * unfold r1, st2, r2. by destruct (discontinuity _).
      * unfold r1. cbn [r_access set_dedup set_access]. apply access_ok_observe. unfold st2, r2. by destruct (discontinuity _).
      * unfold r1. cbn [r_access set_dedup set_access]. rewrite observe_name. unfold st2, r2. by destruct (discontinuity _).
      * apply (clock_ok_cong (observe_clock r1 (plain (ts_timing p))).2); try done. apply observe_clock_ok.
        unfold clock_ok. by rewrite Hb1.
  - unfold st2, r2. destruct (discontinuity _) eqn:E; simpl; [symmetry; by apply Hd|done].
  - unfold st2, r2. by destruct (discontinuity _).
  - fold r1. destruct (observe clock_new _). by rewrite Eo.
  - fold r1. apply reached_none. destruct (observe clock_new _) as [o c]. rewrite Eo. simpl in *.
    destruct Ho2 as [->| ->]; [by left|by right].
Qed.

(** While it holds media: a clock that jumps back drops it, an access point past the target cuts it,
    anything else extends it. *)
Lemma scan_media : discontinuity (ts_timing p) = false →
  r_filter_sdt r && (ts_pid p =? SDT_PID)%N = false → r_awaiting r = false →
  ∃ st', feed_packet cfg st p = Ok st' ∧ outcome st p st' ∧ run_ok (hs_run st').
Proof using Hr Hp Hmax H0.
  intros Hd Hf Haw.
  assert (r_dedup r = false) as Hdd by (destruct (r_dedup r) eqn:E; [pose proof (ro_dedup _ Hr E); unfold r in Haw; congruence|done]).
  rewrite scan_first. unfold scan_step. cbn [st1 set_run set_cur hs_run r_cur r_scanned r_access].
  destruct (scan_last (r_cur r) p Hp (r_scanned r) (ro_cur _ Hr)) as (E1 & E2 & E3 & E4). rewrite E1.
  pose proof (access_ok_observe _ p (ro_access _ Hr)) as Hacc. pose proof (observe_name (r_access r) p) as Hn.
  pose proof (access_point_tables _ p (ro_access _ Hr)) as Htab.
  fold r in Hacc, Htab. destruct (access_observe (r_access r) p) as [ap a'] eqn:Ea. cbn [fst snd] in *.
  cbn [r_dedup set_access set_cur]. rewrite Hd. cbn [andb negb].
  set (rr := set_access a' (set_cur (r_cur r ++ p) (r_scanned r) r)).
  replace (r_filter_sdt rr) with (r_filter_sdt r) by done. rewrite Hf. replace (r_awaiting rr) with false by done.
  assert (clock_ok rr) as Hck by apply (ro_clock _ Hr).
  pose proof (observe_clock_frame rr (ts_timing p)) as (F1 & F2 & F3 & F4 & F5 & F6 & F7 & F8 & F9 & F10).
  pose proof (observe_clock_ok rr (ts_timing p) Hck) as Hck2.
  pose proof (observe_again rr (ts_timing p) Hck Hd) as Hagain.
  assert ((observe_clock rr (ts_timing p)).1 = Reset → r_clock (observe_clock rr (ts_timing p)).2 = clock_new
    ∧ r_boundary (observe_clock rr (ts_timing p)).2 = None) as Hreset.
  { intros E. unfold clock_ok in Hck2. pose proof (observe_clock_unfold rr (ts_timing p)) as Eo. cbv zeta in Eo.
    destruct (observe (r_clock rr) _) as [o c]. rewrite Eo in E, Hck2 |- *. simpl in *. rewrite E in *. done. }
  destruct (observe_clock rr (ts_timing p)) as [o r2] eqn:Eobs. cbn [fst snd] in *.
  assert (length (r_cur r ++ p) = S (r_scanned r) * TS_PACKET_LEN) as Hlen.
  { rewrite length_app. pose proof (ro_cur _ Hr). unfold is_packet in Hp. fold r in H. lia. }
  assert (o = Reset ∨ o ≠ Reset) as [->|Ho] by (destruct o; auto).
  { destruct (Hreset eq_refl) as [Hc Hb].
    assert (drop (r_scanned r * TS_PACKET_LEN + TS_PACKET_LEN) (r_cur r2) = []) as -> by (by rewrite F4).
    cbn [mbind result_bind]. rewrite (scan_done _ _ 0) by done. eexists. split; [done|]. split; [by apply out_skip|].
    apply (run_ok_dropped r); try done.
    - cbn. rewrite F3. apply (ro_input _ Hr).
    - cbn. rewrite F8. by apply access_ok_reset.
    - cbn. by rewrite F8. }
  specialize (Hagain Ho) as [Hag1 Hag2].
  assert (∀ x y : result HlsStop HlsState, match o with Reset => x | _ => y end = y) as -> by (by destruct o).
  destruct (if bool_decide (0 < r_scanned r * TS_PACKET_LEN) && ap then reached cfg r2 else None) as [ticks|] eqn:Hcut.
  2: { cbn [mbind result_bind]. rewrite (scan_done _ _ (S (r_scanned r))).
       - eexists. split; [done|]. split.
         + apply out_append; try done; cbn; by rewrite ?F4, ?F6, ?F9.
         + apply (run_ok_media r); try done; cbn; rewrite ?F3, ?F4, ?F7, ?F8, ?F9; try done.
           * destruct (ro_open _ Hr Haw) as (pre & rest & E & Hop & Hne). exists pre, (rest ++ p).
             fold r in E. cbn. rewrite E, <- app_assoc. split_and!; try done. by destruct rest.
           * cbn. rewrite F5. exact Hlen.
           * cbn [r_cur rr set_access set_cur]. destruct (ro_room _ Hr) as (m & Hm & _). pose proof (ro_max _ Hr) as Hx.
             pose proof (ro_cur _ Hr) as Hy. fold r in Hx, Hy, Hmax. rewrite Hlen. rewrite Hm in *. rewrite Hy in *.
             assert (r_scanned r < m); [|nia]. assert (r_scanned r ≠ m) by congruence. unfold TS_PACKET_LEN in *. lia.
       - cbn. by rewrite F5.
       - cbn [hs_run set_run r_cur set_cur]. rewrite F4. exact Hlen. }
  destruct (bool_decide _ && ap) eqn:Hb in Hcut; [|done]. apply andb_true_iff in Hb as [_ ->]. specialize (Htab eq_refl).
  unfold reached in Hcut. apply bind_Some in Hcut as (ticks' & _ & Hcut).
  destruct (target_reached cfg ticks') eqn:Htr; [|done]. injection Hcut as ->.
  destruct (table_prefix_ok a' Hacc Htab) as (prefix & Ht & Htabs).
  destruct (tables_fit r a' prefix p Hr Hacc Hn Htabs Hp) as (k & Hk0 & Hk & Hk' & Hl & Hfit & Hopen & Hhead).
  set (st2 := hls_emit cfg (set_run r2 st1) _ ticks).
  assert (hs_run st2 = set_pending false (set_audio (audio_emitted (r_audio r2) (r_cur r)).2 (set_cur p 0 r2))) as Er2.
  { unfold st2. rewrite hls_emit_run. cbn [hs_run set_run]. rewrite F4. cbn [rr set_access set_cur r_cur].
    rewrite E3. do 2 f_equal. pose proof (ro_cur _ Hr) as Hy. fold r in Hy. rewrite <- Hy, drop_app_length. done. }
  assert (r_access (hs_run st2) = a') as Eac by (rewrite Er2; cbn; by rewrite F8).
  rewrite Eac, Ht. cbn [ok_or mbind result_bind].
  assert (r_cur (hs_run st2) = p) as -> by (by rewrite Er2). rewrite Hk'.
  set (st3 := set_run _ st2).
  set (r1 := set_dedup false (set_access (access_observe (r_access (hs_run st3)) p).2 (hs_run st3))).
  assert (r_clock r1 = r_clock (rebase_clock r2) ∧ r_boundary r1 = r_boundary (rebase_clock r2)
    ∧ as_pcr (r_audio r1) = as_pcr (r_audio (rebase_clock r2))) as (C1 & C2 & C3).
  { unfold r1, st3. rewrite Er2. cbn. rewrite emitted_pcr. done. }
  destruct (observe_clock_cong r1 (rebase_clock r2) (ts_timing p) C1 C2 C3) as (D1 & D2 & D3).
  pose proof (observe_clock_frame r1 (ts_timing p)) as (_ & _ & G3 & _ & _ & G6 & G7 & G8 & G9 & _).
  rewrite (count_pass st3 prefix p k 0); try done; fold r1; rewrite ?(plain_id _ Hd); try done.
  - eexists. split; [done|]. split.
    + apply (out_cut _ _ _ ticks prefix); try done; cbn [hs_run set_run r_awaiting r_pending set_cur]; rewrite ?G6, ?G9.
      * unfold st3. cbn [hs_win set_run]. unfold st2. apply hls_emit_win; try done; cbn [hs_run set_run]; fold r.
        rewrite F4. cbn [rr set_access set_cur r_cur]. rewrite E3. by rewrite firstn_all.
      * unfold r1, st3. rewrite Er2. cbn. by rewrite F9.
      * unfold r1, st3. by rewrite Er2.
    + apply (run_ok_media r); try done; cbn [hs_run set_run r_input r_access r_awaiting r_dedup set_cur]; rewrite ?G3, ?G7, ?G8, ?G9.
      * unfold r1, st3. rewrite Er2. cbn. by rewrite F3.
      * unfold r1. cbn [r_access set_dedup set_access]. apply access_ok_observe. unfold st3. rewrite Er2. cbn. by rewrite F8.
      * unfold r1. cbn [r_access set_dedup set_access]. rewrite observe_name. unfold st3. rewrite Er2. cbn. by rewrite F8.
      * apply (clock_ok_cong (observe_clock r1 (ts_timing p)).2); try done. apply observe_clock_ok.
        apply (clock_ok_cong (rebase_clock r2)); [done|done|]. by apply rebase_clock_ok.
      * unfold r1, st3. rewrite Er2. cbn. by rewrite F9.
  - unfold st3. rewrite Er2. cbn. by rewrite F9.
  - unfold st3. rewrite Er2. cbn. by rewrite F7, Hd.
  - unfold st3. rewrite Er2. cbn [r_filter_sdt hs_run set_run rebase_clock set_clock set_cur set_pending set_audio]. by rewrite F10.
  - by rewrite D1.
  - apply reached_none. by rewrite D2.
Qed.
End scan_packet.

(** Rebasing needs only the boundary sample. *)
Lemma rebase_boundary r r' : clock_ok r' → r_boundary r = r_boundary r' → clock_ok (rebase_clock r).
Proof.
  intros H E. apply (clock_ok_cong (rebase_clock r')); [|by cbn|by apply rebase_clock_ok].
  unfold rebase_clock. cbn. by rewrite E.
Qed.

Lemma seed_frame r prefix p t : let r' := seed_clean_run r prefix p t in
  r_input r' = r_input r ∧ r_cur r' = prefix ++ p ∧ r_scanned r' = length (prefix ++ p) / TS_PACKET_LEN
  ∧ r_pending r' = r_pending r ∧ r_dedup r' = r_dedup r ∧ r_access r' = r_access r ∧ r_awaiting r' = false
  ∧ clock_ok r'.
Proof.
  unfold seed_clean_run. set (r1 := set_clock clock_new None _).
  pose proof (observe_clock_frame r1 t) as (_ & _ & F3 & F4 & F5 & F6 & F7 & F8 & _).
  cbn. rewrite F3, F4, F5, F6, F7, F8. split_and!; try done.
  apply (clock_ok_cong (observe_clock r1 t).2); try done. by apply observe_clock_ok.
Qed.

(** The packet after a full run.  It fails only when the tables of the running program are gone. *)
Lemma lookahead_ok st p : run_ok (hs_run st) → is_packet p → length (r_cur (hs_run st)) = max_segment_bytes cfg →
  (∃ st', feed_packet cfg st p = Ok st' ∧ outcome st p st' ∧ run_ok (hs_run st'))
  ∨ feed_packet cfg st p = Err Panicked ∧ r_awaiting (hs_run st) = false
    ∧ cached_pmt (access_observe (r_access (hs_run st)) p).2 = None
    ∧ ∃ ticks, target_reached cfg ticks = true.
Proof.
  intros Hr Hp Hmax. unfold feed_packet. rewrite bool_decide_eq_true_2 by done. set (r := hs_run st).
  assert (r_awaiting r = false) as Haw.
  { destruct (r_awaiting r) eqn:E; [|done]. destruct (ro_await _ Hr E) as [Hc _].
    destruct (ro_room _ Hr) as (m & Hm & Hm3 & _). rewrite Hc, Hm in Hmax. unfold TS_PACKET_LEN in Hmax. simpl in Hmax. lia. }
  assert (r_dedup r = false) as Hdd.
  { destruct (r_dedup r) eqn:E; [|done]. pose proof (ro_dedup _ Hr E). unfold r in *; congruence. }
  unfold scan_lookahead. fold r.
  pose proof (access_ok_observe _ p (ro_access _ Hr)) as Hacc. pose proof (observe_name (r_access r) p) as Hn.
  pose proof (access_point_tables _ p (ro_access _ Hr)) as Htab.
  fold r in Hacc, Htab. destruct (access_observe (r_access r) p) as [ap a'] eqn:Ea. cbn [fst snd] in *.
  cbn [r_dedup set_access]. rewrite Hdd. cbn [negb]. rewrite andb_true_r.
  destruct (discontinuity (ts_timing p)) eqn:Hd.
  { left. eexists. split; [done|]. split; [by apply out_skip|].
    apply (run_ok_dropped r); try done; [apply (ro_input _ Hr)|by apply access_ok_reset]. }
  set (rr := set_access a' r). assert (clock_ok rr) as Hck by apply (ro_clock _ Hr).
  pose proof (observe_clock_frame rr (ts_timing p)) as (F1 & F2 & F3 & F4 & F5 & F6 & F7 & F8 & F9 & F10).
  pose proof (observe_clock_ok rr (ts_timing p) Hck) as Hck2.
  destruct (observe_clock rr (ts_timing p)) as [o r2] eqn:Eobs. cbn [fst snd] in *.
  assert (o = Reset ∨ o ≠ Reset) as [->|Ho] by (destruct o; auto).
  { left. eexists. split; [done|]. split; [by apply out_skip|].
    apply (run_ok_dropped r); try done; cbn; rewrite ?F3, ?F8; try done; [apply (ro_input _ Hr)|by apply access_ok_reset]. }
  assert (∀ x y : result HlsStop HlsState, match o with Reset => x | _ => y end = y) as -> by (by destruct o).
  destruct (r_filter_sdt r2 && (ts_pid p =? SDT_PID)%N) eqn:Hf.
  { apply andb_true_iff in Hf as [Hf1 Hf2%N.eqb_eq]. left. eexists. split; [done|]. split.
    - apply out_sdt; [done|exact (eq_trans (eq_sym F10) Hf1)|done|exact F4|exact F9|exact F6].
    - apply (run_ok_media r); try done; cbn; rewrite ?F4, ?F5, ?F7, ?F8, ?F9; try done;
        [by apply (ro_open _ Hr)|apply (ro_cur _ Hr)|apply (ro_max _ Hr)]. }
  rewrite F10 in Hf. destruct (reached cfg r2) as [ticks|] eqn:Hre.
  - unfold reached in Hre. apply bind_Some in Hre as (ticks' & _ & Hre).
    destruct (target_reached cfg ticks') eqn:Htr; [|done]. injection Hre as ->.
    set (st2 := hls_emit cfg (set_run r2 st) _ ticks).
    pose proof (hls_emit_run (set_run r2 st) (max_segment_bytes cfg) ticks) as Er2. fold st2 in Er2. cbn [hs_run set_run] in Er2.
    assert (r_access (hs_run st2) = a') as Eac by (rewrite Er2; cbn; by rewrite F8). rewrite Eac.
    destruct (cached_pmt a') as [pmt|] eqn:Hpmt.
    2: { right. unfold table_prefix. rewrite Hpmt. split_and!; [by destruct (cached_pat a')|done|done|by exists ticks]. }
    destruct (table_prefix_ok a' Hacc) as (prefix & Ht & Htabs); [by rewrite Hpmt|].
    destruct (tables_fit r a' prefix p Hr Hacc Hn Htabs Hp) as (k & Hk0 & Hk & Hk' & Hl & Hfit & Hopen & Hhead).
    rewrite Ht. cbn [ok_or mbind result_bind]. left. eexists. split; [done|].
    destruct (seed_frame (hs_run st2) prefix p (ts_timing p)) as (S1 & S2 & S3 & S4 & S5 & S6 & S7 & S8).
    set (r3 := seed_clean_run _ _ _ _) in *. clearbody r3. split.
    + apply (out_cut _ _ _ ticks prefix); try done.
      * unfold st2. apply hls_emit_win; try done. cbn. rewrite F4. cbn. fold r in Hmax |- *.
        rewrite !take_ge by lia. done.
      * cbn. rewrite S4, Er2. done.
    + apply (run_ok_media r); try done; cbn; rewrite ?S1, ?S2, ?S3, ?S5, ?S6, ?Eac; try done.
      * rewrite Er2. cbn. by rewrite F3.
      * apply (rebase_boundary _ r2); done.
      * rewrite Hl. by rewrite Nat.div_mul.
      * rewrite Er2. cbn. by rewrite F7.
  - left. destruct ap; [|eexists; split; [done|]; split; [by apply out_skip|]].
    + specialize (Htab eq_refl). destruct (table_prefix_ok a' Hacc Htab) as (prefix & Ht & Htabs).
      destruct (tables_fit r a' prefix p Hr Hacc Hn Htabs Hp) as (k & Hk0 & Hk & Hk' & Hl & Hfit & Hopen & Hhead).
      assert (r_access (discard_incomplete_run r2) = a') as Eac by (cbn; by rewrite F8).
      rewrite Eac, Ht. cbn [ok_or mbind result_bind]. eexists. split; [done|].
      destruct (seed_frame (discard_incomplete_run r2) prefix p (ts_timing p)) as (S1 & S2 & S3 & S4 & S5 & S6 & S7 & S8).
      set (r3 := seed_clean_run _ _ _ _) in *. clearbody r3. split.
      * apply (out_open _ _ _ prefix); try done.
      * apply (run_ok_media r); try done; cbn; rewrite ?S1, ?S2, ?S3, ?S5, ?S6, ?Eac; try done.
        rewrite Hl. by rewrite Nat.div_mul.
    + apply (run_ok_dropped r); try done; cbn; rewrite ?F3, ?F8; try done. apply (ro_input _ Hr).
Qed.

(** One packet. *)
Lemma feed_packet_ok st p : target_reached cfg 0 = false → run_ok (hs_run st) → is_packet p →
  (∃ st', feed_packet cfg st p = Ok st' ∧ outcome st p st' ∧ run_ok (hs_run st'))
  ∨ feed_packet cfg st p = Err Panicked ∧ r_awaiting (hs_run st) = false
    ∧ cached_pmt (access_observe (r_access (hs_run st)) p).2 = None
    ∧ ∃ ticks, target_reached cfg ticks = true.
Proof.
  intros H0 Hr Hp. destruct (decide (length (r_cur (hs_run st)) = max_segment_bytes cfg)) as [E|E];
    [by apply lookahead_ok|]. left.
  destruct (discontinuity (ts_timing p) && negb (r_dedup (hs_run st))) eqn:Hd.
  { apply andb_true_iff in Hd as [? ?%negb_true_iff]. by apply scan_marker. }
  assert (discontinuity (ts_timing p) = true → r_dedup (hs_run st) = true) as Hd'.
  { intros Ht. rewrite Ht in Hd. by destruct (r_dedup _). }
  destruct (r_filter_sdt (hs_run st) && (ts_pid p =? SDT_PID)%N) eqn:Hf.
  { apply andb_true_iff in Hf as [? ?%N.eqb_eq]. by apply scan_sdt. }
  destruct (r_awaiting (hs_run st)) eqn:Ha; [by apply scan_awaiting|].
  apply scan_media; try done. destruct (discontinuity _); [|done].
  by rewrite (ro_dedup _ Hr (Hd' eq_refl)) in Ha.
Qed.
End invariant.

(** ** Segments and the window *)

(** Packets equal up to their continuity counter. *)
Definition cc_packet (p q : bytes) : Prop :=
  q = p ∨ ∃ x, q = <[3:=x]> p ∧ N.land (byte_N x) 0xf0 = N.land (byte_at p 3) 0xf0.

Lemma cc_byte b c : (c < 16)%N → N.land (byte_N (N_byte (N.lor (N.land (byte_N b) 0xf0) c))) 0xf0 = N.land (byte_N b) 0xf0.
Proof.
  intros Hc. assert (forallb (λ c, N.eqb (N.land (byte_N (N_byte (N.lor (N.land (byte_N b) 0xf0) c))) 0xf0)
    (N.land (byte_N b) 0xf0)) (map N.of_nat (seq 0 16)) = true) as H by (destruct b; vm_compute; reflexivity).
  rewrite forallb_forall in H. apply N.eqb_eq, H, in_map_iff. exists (N.to_nat c).
  rewrite N2Nat.id, in_seq. split; [done|lia].
Qed.

Lemma land_15_lt n : (N.land n 15 < 16)%N.
Proof. rewrite land_15. by apply N.mod_lt. Qed.

Lemma emitted_loop_cc pid pkts : ∀ cc, (cc < 16)%N → Forall2 cc_packet pkts (emitted_loop pid cc pkts).2.
Proof.
  induction pkts as [|p pkts IH]; intros cc Hcc; simpl; [done|].
  case_bool_decide as E.
  - destruct (flag (byte_at p 3) 0x10).
    + specialize (IH (N.land (cc + 1) 15) (land_15_lt _)). destruct (emitted_loop _ _ pkts). constructor; [|done].
      right. eexists. split; [done|]. by apply cc_byte.
    + specialize (IH cc Hcc). destruct (emitted_loop _ _ pkts). constructor; [|done].
      right. eexists. split; [done|]. apply cc_byte, land_15_lt.
  - specialize (IH cc Hcc). destruct (emitted_loop _ _ pkts). constructor; [by left|done].
Qed.

(** A finished segment: whole packets that open with their tables, at most the ceiling, the
    continuity counters aside. *)
Definition segment_ok (max : nat) (s : HlsSegment) : Prop :=
  ∃ pkts out, headed (concat pkts) ∧ Forall is_packet pkts ∧ Forall2 cc_packet pkts out
  ∧ seg_bytes s = concat out ∧ length (seg_bytes s) = length (concat pkts) ∧ length (concat pkts) ≤ max.

Lemma emitted_segment a l n : (as_output_cc a < 16)%N → length l = n * TS_PACKET_LEN →
  ∃ pkts out, l = concat pkts ∧ Forall is_packet pkts ∧ Forall2 cc_packet pkts out
  ∧ (audio_emitted a l).1 = concat out ∧ length (concat out) = length l.
Proof.
  intros Hcc Hl. destruct (chunks_exact_all TS_PACKET_LEN l n) as (Hlen & Hp & Hc); [unfold TS_PACKET_LEN; lia|done|].
  set (pkts := chunks_exact TS_PACKET_LEN l) in *.
  assert (∀ out, Forall2 cc_packet pkts out → length (concat out) = length (concat pkts)) as Hsame.
  { intros out. generalize pkts. clear. intros pkts H. induction H as [|p q ps qs Hpq _ IH]; [done|]. simpl. rewrite !length_app, IH.
    destruct Hpq as [->|(x & -> & _)]; [done|]. by rewrite length_insert. }
  unfold audio_emitted. destruct (negb (as_rewrite a)).
  - exists pkts, pkts. split_and!; try done.
    + clear. induction pkts; constructor; [by left|done].
    + simpl. by rewrite Hc.
  - fold pkts. pose proof (emitted_loop_cc (snd <$> as_mapping a) pkts (as_output_cc a) Hcc) as He.
    destruct (emitted_loop _ _ pkts) as [cc out]. simpl in *. exists pkts, out. split_and!; try done.
    + rewrite drop_ge, app_nil_r by lia. done.
    + rewrite (Hsame _ He). by rewrite Hc.
Qed.

(** The marked segments of a list. *)
Definition marks (l : list HlsSegment) : N := lenN (List.filter seg_discontinuity l).

Lemma marks_app l1 l2 : marks (l1 ++ l2) = (marks l1 + marks l2)%N.
Proof. unfold marks. rewrite List.filter_app. unfold lenN. rewrite length_app. lia. Qed.

(** The window shows the end of the log of everything emitted. *)
Record published (cfg : HlsParams) (w : Window) (log : list HlsSegment) : Prop := {
  pb_log : ∃ old, log = old ++ w_segments w ∧ w_media_seq w = lenN old ∧ w_discontinuity_sequence w = marks old
    ∧ (old ≠ [] → length (w_segments w) = window cfg);
  pb_window : length (w_segments w) ≤ window cfg;
}.

Lemma hls_evict_spec cfg segs : ∀ ms ds, ∃ ev, let '(segs', ms', ds') := evict cfg segs ms ds in
  segs = ev ++ segs' ∧ ms' = (ms + lenN ev)%N ∧ ds' = (ds + marks ev)%N
  ∧ (segs' = [] ∨ length segs' < window cfg) ∧ (length segs ≤ window cfg → ev = [] ∨ S (length segs') = window cfg).
Proof.
  induction segs as [|s segs IH]; intros ms ds; simpl.
  - exists []. simpl. split_and!; try done; [unfold lenN; simpl; lia|unfold marks, lenN; simpl; lia|by left|by left].
  - case_bool_decide as Hw.
    + destruct (IH (ms + 1)%N (if seg_discontinuity s then ds + 1 else ds)%N) as [ev H].
      exists (s :: ev). destruct (evict _ _ _ _) as [[segs' ms'] ds']. destruct H as (-> & -> & -> & H4 & H5).
      split_and!; [done|unfold lenN; simpl; lia| |done|].
      * unfold marks, lenN. simpl. destruct (seg_discontinuity s); simpl; lia.
      * intros Hle. right. destruct H5 as [->|?]; simpl in *; lia.
    + exists []. simpl. split_and!; try done; [unfold lenN; simpl; lia|unfold marks, lenN; simpl; lia|right; lia|by left].
Qed.

(** *** The output counter of the selection, and the title filter *)

Section counters.
Context (cfg : HlsParams) (f : bool).

(** Also the flag that never changes. *)
Definition cc_ok (r : Run) : Prop := (as_output_cc (r_audio r) < 16)%N ∧ r_filter_sdt r = f.

Lemma emitted_loop_cc_lt pid pkts : ∀ cc, (cc < 16)%N → ((emitted_loop pid cc pkts).1 < 16)%N.
Proof.
  induction pkts as [|p pkts IH]; intros cc Hcc; simpl; [done|].
  case_bool_decide; [destruct (flag _ _)|].
  - specialize (IH _ (land_15_lt (cc + 1))). by destruct (emitted_loop _ _ pkts).
  - specialize (IH _ Hcc). by destruct (emitted_loop _ _ pkts).
  - specialize (IH _ Hcc). by destruct (emitted_loop _ _ pkts).
Qed.

Lemma emitted_cc a l : (as_output_cc a < 16)%N → (as_output_cc (audio_emitted a l).2 < 16)%N.
Proof.
  intros H. unfold audio_emitted. destruct (negb _); [done|].
  pose proof (emitted_loop_cc_lt (snd <$> as_mapping a) (chunks_exact TS_PACKET_LEN l) _ H) as Hl.
  by destruct (emitted_loop _ _ _).
Qed.

(** What a packet does not change of the run: the staged input and the title filter; the counter stays one. *)
Section kept.
Context (r0 : Run).

Definition kept (r : Run) : Prop :=
  ((as_output_cc (r_audio r0) < 16)%N → (as_output_cc (r_audio r) < 16)%N) ∧
  r_filter_sdt r = r_filter_sdt r0 ∧ r_input r = r_input r0.

Lemma emit_kept st e t : kept (hs_run st) → kept (hs_run (hls_emit cfg st e t)).
Proof. intros (H1 & H2 & H3). unfold kept. rewrite hls_emit_run. split_and!; [cbn; intros Hc; by apply emitted_cc, H1|done|done]. Qed.

Lemma observe_clock_kept r t : kept r → kept (observe_clock r t).2.
Proof. unfold kept. by destruct (observe_clock_frame r t) as (_ & -> & -> & _ & _ & _ & _ & _ & _ & ->). Qed.

Lemma observe_clock_kept' r t o r' : observe_clock r t = (o, r') → kept r → kept r'.
Proof. intros E H. pose proof (observe_clock_kept r t H) as H'. by rewrite E in H'. Qed.

Lemma seed_kept r pre p t : kept r → kept (seed_clean_run r pre p t).
Proof.
  unfold seed_clean_run, kept. cbn. set (r1 := set_clock _ _ _).
  by destruct (observe_clock_frame r1 t) as (_ & -> & -> & _ & _ & _ & _ & _ & _ & ->).
Qed.

Lemma scan_step_kept st st' : scan_step cfg st = Ok st' → kept (hs_run st) → kept (hs_run st').
Proof.
  intros H Hcc. unfold scan_step in H. destruct (access_observe _ _) as [ap a'].
  destruct (_ && negb _); [by injection H as <-|].
  match type of H with context [let '(_, _) := ?x in _] => destruct x as [t r] eqn:Er end.
  assert (kept r) as Hr.
  { destruct (_ && _) in Er; [destruct (r_awaiting _) in Er|]; by injection Er as <- <-. }
  clear Er. destruct (r_filter_sdt r && _).
  { injection H as <-. destruct (discontinuity _ && _); done. }
  destruct (r_awaiting r).
  - destruct (if ap then _ else _) as [prefix|].
    + case_bool_decide; injection H as <-; destruct (discontinuity _ && _); done.
    + injection H as <-. destruct (discontinuity _ && _); done.
  - destruct (observe_clock r t) as [o r2] eqn:Eo. pose proof (observe_clock_kept' _ _ _ _ Eo Hr) as Hr2.
    assert (o = Reset ∨ o ≠ Reset) as [->|Ho] by (destruct o; auto); [injection H as <-; by destruct Hr2|].
    assert (∀ x y : result HlsStop HlsState, match o with Reset => x | _ => y end = y) as E by (by destruct o).
    rewrite E in H. destruct (if _ && _ then _ else _) as [ticks|]; [|by injection H as <-].
    apply bind_Ok_inv in H as (prefix & _ & H). injection H as <-.
    pose proof (emit_kept (set_run r2 st) (r_scanned (hs_run st) * TS_PACKET_LEN) ticks Hr2) as He.
    unfold kept in *. cbn in *. by rewrite hls_emit_run in *.
Qed.

Lemma hls_scan_kept fuel : ∀ st st', hls_scan cfg fuel st = Ok st' → kept (hs_run st) → kept (hs_run st').
Proof.
  induction fuel as [|fuel IH]; intros st st' H Hcc; cbn [hls_scan] in H; case_bool_decide; try done;
    try (by injection H as <-).
  apply bind_Ok_inv in H as (st1 & H1 & H2). eapply IH; [done|]. by eapply scan_step_kept.
Qed.

Lemma lookahead_kept st p st' : scan_lookahead cfg st p = Ok st' → kept (hs_run st) → kept (hs_run st').
Proof.
  intros H Hcc. unfold scan_lookahead in H. destruct (access_observe _ _) as [ap a'].
  destruct (_ && negb _); [by injection H as <-|].
  match type of H with context [let '(_, _) := ?x in _] => destruct x as [t r] eqn:Er end.
  assert (kept r) as Hr by (destruct (discontinuity _) in Er; by injection Er as <- <-).
  clear Er. destruct (observe_clock r t) as [o r2] eqn:Eo. pose proof (observe_clock_kept' _ _ _ _ Eo Hr) as Hr2.
  assert (o = Reset ∨ o ≠ Reset) as [->|Ho] by (destruct o; auto); [injection H as <-; by destruct Hr2|].
  assert (∀ x y : result HlsStop HlsState, match o with Reset => x | _ => y end = y) as E by (by destruct o).
  rewrite E in H. destruct (r_filter_sdt r2 && _); [by injection H as <-|].
  destruct (reached cfg r2) as [ticks|].
  - apply bind_Ok_inv in H as (prefix & _ & H). injection H as <-.
    pose proof (emit_kept (set_run r2 st) (max_segment_bytes cfg) ticks Hr2) as He.
    by pose proof (seed_kept _ prefix p t He).
  - destruct ap; [|by injection H as <-]. apply bind_Ok_inv in H as (prefix & _ & H). injection H as <-.
    by apply seed_kept.
Qed.

Lemma feed_packet_kept st p st' : feed_packet cfg st p = Ok st' → kept (hs_run st) → kept (hs_run st').
Proof.
  unfold feed_packet. case_bool_decide as Hb; intros H Hcc; [by eapply lookahead_kept|]. by eapply hls_scan_kept.
Qed.
End kept.

Lemma feed_packet_cc st p st' : feed_packet cfg st p = Ok st' → cc_ok (hs_run st) → cc_ok (hs_run st').
Proof.
  intros H [H1 H2]. destruct (feed_packet_kept (hs_run st) st p st' H) as (K1 & K2 & _); [done|].
  split; [by apply K1|by rewrite K2].
Qed.
End counters.

Lemma audio_observe_cc a p : as_output_cc (audio_observe a p).2 = as_output_cc a.
Proof.
  unfold audio_observe. set (a1 := if flag _ _ then _ else a).
  assert (as_output_cc a1 = as_output_cc a) as <- by (unfold a1; by case_match). clearbody a1.
  repeat case_match; try done.
  - unfold observe_pat, forget_association, audio_disable. repeat case_match; simplify_eq; done.
  - unfold observe_pmt. destruct (update_pmt a1 p) as [[d a2]|[]] eqn:E; try done.
    apply update_pmt_inv in E as (s & b & es & c & _ & E). unfold install_map in E. by injection E as _ <-.
Qed.

(** ** The packager's states *)

Section states.
Context (cfg : HlsParams) (f : bool) (H0 : target_reached cfg 0 = false) (Hwin : 1 ≤ window cfg).

(** The invariant of every operation; [log] is everything emitted so far. *)
Record hls_ok (st : HlsState) (log : list HlsSegment) : Prop := {
  ho_run : run_ok cfg (hs_run st);
  ho_cc : cc_ok f (hs_run st);
  ho_log : published cfg (hs_win st) log;
  ho_segs : Forall (segment_ok (max_segment_bytes cfg)) log;
}.

(** An emission appends the run to the log. *)
Lemma emit_published st ticks log : hls_ok st log → r_awaiting (hs_run st) = false →
  ∃ s, published cfg (hs_win (hls_emit cfg st (length (r_cur (hs_run st))) ticks)) (log ++ [s])
  ∧ segment_ok (max_segment_bytes cfg) s ∧ seg_ticks s = ticks ∧ seg_discontinuity s = r_pending (hs_run st)
  ∧ seg_bytes s = (audio_emitted (r_audio (hs_run st)) (r_cur (hs_run st))).1.
Proof.
  intros [Hr [Hcc _] [(old & -> & Hms & Hds & Hfull) Hw] _] Haw. unfold hls_emit.
  destruct (hls_evict_spec cfg (w_segments (hs_win st)) (w_media_seq (hs_win st)) (w_discontinuity_sequence (hs_win st)))
    as [ev Hev].
  destruct (evict _ _ _ _) as [[segs ms] ds]. destruct Hev as (E1 & -> & -> & E4 & E5). rewrite firstn_all.
  destruct (emitted_segment (r_audio (hs_run st)) (r_cur (hs_run st)) (r_scanned (hs_run st)) Hcc (ro_cur _ _ Hr))
    as (pkts & out & Ec & Hp & Hcp & Hem & Hlen).
  destruct (audio_emitted _ _) as [seg audio]. cbn [fst] in Hem. exists (mkSegment seg ticks (r_pending (hs_run st))). split_and!; [| |done..].
  - split; cbn.
    + exists (old ++ ev). rewrite Hms, Hds, marks_app. unfold lenN. rewrite length_app. split_and!; [|lia|lia|].
      * by rewrite E1, <- !app_assoc.
      * intros Hne. rewrite length_app. simpl. destruct (E5 Hw) as [->|?]; [|lia].
        rewrite app_nil_r in Hne. specialize (Hfull Hne). rewrite E1 in Hfull. simpl in Hfull.
        destruct E4 as [->|?]; simpl in *; lia.
    + rewrite length_app. simpl. destruct E4 as [->|?]; simpl; lia.
  - exists pkts, out. cbn. rewrite Hem, Hlen. rewrite <- Ec. split_and!; try done.
    + by apply (ro_open _ _ Hr).
    + by apply (ro_max _ _ Hr).
Qed.

(** What a packet adds to the log and to the run. *)
Inductive effect (st : HlsState) (p : bytes) (st' : HlsState) : list HlsSegment → Prop :=
  | eff_lost :
      (r_awaiting (hs_run st) = false ∨ r_pending (hs_run st) = true → r_pending (hs_run st') = true) →
      effect st p st' []
  | eff_kept :
      r_awaiting (hs_run st') = r_awaiting (hs_run st) → r_pending (hs_run st') = r_pending (hs_run st) →
      r_cur (hs_run st') = r_cur (hs_run st) ++ (if f && (ts_pid p =? SDT_PID)%N then [] else p) →
      effect st p st' []
  | eff_cut s tables :
      r_awaiting (hs_run st) = false → r_awaiting (hs_run st') = false → r_pending (hs_run st') = false →
      seg_discontinuity s = r_pending (hs_run st) → f && (ts_pid p =? SDT_PID)%N = false →
      seg_bytes s = (audio_emitted (r_audio (hs_run st)) (r_cur (hs_run st))).1 →
      opening_tables tables → r_cur (hs_run st') = tables ++ p → effect st p st' [s].

Lemma outcome_effect st p st' log : hls_ok st log → outcome cfg st p st' → run_ok cfg (hs_run st') →
  cc_ok f (hs_run st') → ∃ new, hls_ok st' (log ++ new) ∧ effect st p st' new.
Proof.
  intros Hok Ho Hr Hcc. pose proof (ho_cc _ _ Hok) as [_ Hf].
  assert (hs_win st' = hs_win st → hls_ok st' (log ++ [])) as Hsame.
  { intros E. rewrite app_nil_r. destruct Hok. split; try done. by rewrite E. }
  destruct Ho as [E _ Hp|E Hf' Hs Hc Ha Hp|prefix E _ _ _ Hp|E Hn Ha Hc Ha' Hp|ticks prefix _ Hn Ha E Hop Hc Ha' Hp].
  - exists []. split; [auto|by apply eff_lost].
  - exists []. split; [auto|]. apply eff_kept; try done. rewrite <- Hf, Hf', Hs. simpl. by rewrite app_nil_r.
  - exists []. split; [auto|by apply eff_lost].
  - exists []. split; [auto|]. apply eff_kept; try done; [by rewrite Ha|]. rewrite <- Hf, Hn. done.
  - destruct (emit_published st ticks log Hok Ha) as (s & Hpub & Hsok & _ & Hd & Hb). exists [s]. split.
    + split; try done; [by rewrite E|]. apply Forall_app. split; [by apply (ho_segs _ _ Hok)|by constructor].
    + apply (eff_cut _ _ _ s prefix); try done. by rewrite <- Hf.
Qed.

Lemma packet_ok st p log : hls_ok st log → is_packet p →
  (∃ st' new, feed_packet cfg st p = Ok st' ∧ hls_ok st' (log ++ new) ∧ effect st p st' new)
  ∨ feed_packet cfg st p = Err Panicked ∧ r_awaiting (hs_run st) = false
    ∧ cached_pmt (access_observe (r_access (hs_run st)) p).2 = None.
Proof.
  intros Hok Hp. destruct (feed_packet_ok cfg st p H0 (ho_run _ _ Hok) Hp) as [(st' & E & Ho & Hr)|(E & Ha & Hc & _)];
    [left|by right].
  pose proof (feed_packet_cc cfg f st p st' E (ho_cc _ _ Hok)) as Hcc.
  destruct (outcome_effect st p st' log Hok Ho Hr Hcc) as (new & H1 & H2). by exists st', new.
Qed.

(** *** The other changes of the run *)

Lemma ok_set_run st log r : hls_ok st log → run_ok cfg r → cc_ok f r → hls_ok (set_run r st) log.
Proof. intros [] Hr Hc. by split. Qed.

Lemma run_ok_discard r a : run_ok cfg r → access_ok a → service_name a = service_name (r_access r) →
  run_ok cfg (discard_incomplete_run (set_access a r)).
Proof. intros Hr Ha Hn. apply (run_ok_dropped cfg r); try done. apply (ro_input _ _ Hr). Qed.

Lemma run_ok_audio r a : run_ok cfg r → run_ok cfg (set_audio a r).
Proof. intros []. by split. Qed.

Lemma tables_observed l : ∀ a, access_ok a → let a' := foldl (λ a t, (access_observe a t).2) a l in
  access_ok a' ∧ service_name a' = service_name a.
Proof.
  induction l as [|t l IH]; intros a Ha; simpl; [done|].
  destruct (IH _ (access_ok_observe a t Ha)) as [H1 H2]. split; [done|]. by rewrite H2, observe_name.
Qed.

Lemma layout_changed_ok r : run_ok cfg r → cc_ok f r → run_ok cfg (layout_changed r) ∧ cc_ok f (layout_changed r).
Proof.
  intros Hr Hc. split; [|done]. unfold layout_changed.
  destruct (tables_observed (audio_tables (r_audio r)) (access_reset (r_access r)))
    as [H1 H2]; [apply access_ok_reset, (ro_access _ _ Hr)|].
  apply (run_ok_dropped cfg r); try done. apply (ro_input _ _ Hr).
Qed.

Lemma observe_is_packet a p q : is_packet p → ap_packet (audio_observe a p).1 = Some q → is_packet q.
Proof.
  intros Hp. unfold audio_observe. set (a1 := if flag _ _ then _ else a). clearbody a1. clear a.
  destruct (_ =? 0)%N; [|destruct (_ && _); [|destruct (in_list _ _)]].
  - unfold observe_pat, forget_association, audio_disable. repeat case_match; simplify_eq/=; by intros; simplify_eq.
  - unfold observe_pmt. destruct (update_pmt a1 p) as [[d a2]|[]] eqn:E; [|done|by intros [= <-]].
    apply update_pmt_inv in E as (s & b & es & c & Hparse & E). pose proof (parse_map_Ok _ _ _ _ _ _ Hp Hparse) as Hm.
    unfold install_map in E. injection E as _ <-. cbn [ap_packet fst as_pmt default]. intros [= <-].
    case_bool_decide; [|done]. apply map_packet_is_packet; [done|].
    exact (proj2 (proj2 (rw_lengths _ _ _ _ _ Hm _ _))).
  - cbn. unfold observe_removed. repeat case_match; try done. intros [= <-].
    unfold is_packet, strip_packet. rewrite length_app, length_take, !length_insert, length_replicate. unfold is_packet, TS_PACKET_LEN in *.
    match goal with H : negb _ || _ || (183 <? _)%N = false |- _ => apply orb_false_iff in H as [_ H%N.ltb_ge] end. lia.
  - by intros [= <-].
Qed.

(** The run holds media, and the packet the selection passes on leaves it without a program map. *)
Definition map_lost (st : HlsState) (packet : bytes) : Prop :=
  r_awaiting (hs_run st) = false ∧
  ∃ q, ap_packet (audio_observe (r_audio (hs_run st)) (fence_marker st packet)).1 = Some q
  ∧ cached_pmt (access_observe (r_access (hs_run st)) q).2 = None.

Lemma feed_input_ok st packet log : hls_ok st log → is_packet packet →
  (∃ st' new, feed_input cfg st packet = Ok st' ∧ hls_ok st' (log ++ new))
  ∨ feed_input cfg st packet = Err Panicked ∧ map_lost st packet.
Proof.
  intros Hok Hp. pose proof (ho_run _ _ Hok) as Hr. pose proof (ho_cc _ _ Hok) as Hc.
  assert (is_packet (fence_marker st packet)) as Hp'.
  { unfold fence_marker. case_match; [|done]. unfold is_packet. by rewrite length_insert. }
  unfold feed_input, map_lost. set (q := fence_marker st packet) in *. clearbody q.
  destruct (_ && negb _).
  { left. eexists _, []. rewrite app_nil_r. split; [done|]. apply ok_set_run; [done| |by destruct Hc].
    apply (run_ok_dropped cfg (hs_run st)); try done; [apply (ro_input _ _ Hr)|apply access_ok_reset, (ro_access _ _ Hr)]. }
  pose proof (observe_is_packet (r_audio (hs_run st)) q) as Hq. pose proof (audio_observe_cc (r_audio (hs_run st)) q) as Hcc.
  destruct (audio_observe (r_audio (hs_run st)) q) as [res audio]. cbn [fst snd] in *.
  set (r := set_audio audio (hs_run st)).
  assert (run_ok cfg r) as Hr1 by (by apply run_ok_audio).
  assert (cc_ok f r) as Hc1 by (destruct Hc; split; [cbn; by rewrite Hcc|done]).
  set (r2 := if ap_changed res then layout_changed r else r).
  assert (run_ok cfg r2 ∧ cc_ok f r2) as [Hr2 Hc2] by (unfold r2; destruct (ap_changed res); [by apply layout_changed_ok|done]).
  destruct (ap_packet res) as [p|] eqn:Ep.
  - destruct (packet_ok (set_run r2 st) p log) as [(st' & new & E & Hok' & _)|(E & Ha & Hm)];
      [by apply ok_set_run|by apply Hq|left; by exists st', new|right].
    split; [done|]. unfold r2 in Ha, Hm. destruct (ap_changed res); [done|]. split; [done|]. by exists p.
  - left. eexists _, []. rewrite app_nil_r. split; [done|]. apply ok_set_run; [done| |].
    + destruct (discontinuity _); [|done]. destruct Hr2. by split.
    + by destruct (discontinuity _).
Qed.

(** Feeding never loops, and fails only on a lost map. *)
Lemma feed_loop_ok fuel : ∀ st data log, hls_ok st log → length data ≤ fuel →
  match feed_loop cfg fuel st data with
  | Ok st' => ∃ new, hls_ok st' (log ++ new)
  | Err e => e = Panicked ∧ ∃ st' packet log', hls_ok st' log' ∧ is_packet packet ∧ map_lost st' packet
  end.
Proof.
  induction fuel as [|fuel IH]; intros st data log Hok Hl;
    (destruct data as [|b data]; [exists []; by rewrite app_nil_r|]); [simpl in Hl; lia|].
  cbn [feed_loop]. set (d := b :: data) in *. set (n := _ `min` length d).
  pose proof (ho_run _ _ Hok) as Hr. pose proof (ho_cc _ _ Hok) as Hc. pose proof (ro_input _ _ Hr) as Hi.
  assert (1 ≤ n ≤ length d) as Hn by (unfold n; simpl; lia).
  assert (length (drop n d) ≤ fuel) as Hl' by (rewrite length_drop; lia).
  assert (length (r_input (hs_run st) ++ take n d) ≤ TS_PACKET_LEN) as Hin
    by (rewrite length_app, length_take; unfold n; lia).
  assert (∀ i, length i < TS_PACKET_LEN → hls_ok (set_run (set_input i (hs_run st)) st) log) as Hset.
  { intros i Hlt. apply ok_set_run; [done| |done]. destruct Hr. by split. }
  assert (length (@nil byte) < TS_PACKET_LEN) as Hpos by (unfold TS_PACKET_LEN; simpl; lia).
  case_bool_decide as E.
  - specialize (IH _ (drop n d) log (Hset (r_input (hs_run st) ++ take n d) ltac:(lia)) Hl'). exact IH.
  - destruct (feed_input_ok _ (r_input (hs_run st) ++ take n d) log (Hset [] Hpos))
      as [(st' & new & E' & Hok')|[E' Hm]].
    + unfold is_packet. lia.
    + rewrite E'. cbn [mbind result_bind]. specialize (IH st' (drop n d) _ Hok' Hl').
      destruct (feed_loop _ _ _ _) as [st''|]; [|done]. destruct IH as [new' H]. exists (new ++ new').
      by rewrite app_assoc.
    + rewrite E'. cbn [mbind result_bind]. split; [done|]. eexists _, _, log. split_and!; [| |done].
      * apply Hset, Hpos.
      * unfold is_packet. lia.
Qed.

(** *** Operations *)

Inductive HlsOp : Type :=
  | OpFeed (now : N) (data : bytes)
  | OpFeedGeneration (now generation : N) (data : bytes)
  | OpBeginGeneration (generation deadline : N) (recovering : bool)
  | OpFailGeneration (generation : N) (reason : HlsFailure)
  | OpStop
  | OpGap (deduplicate_source_marker : bool)
  | OpStatus (now : N)
  | OpSegment (now seq : N)
  | OpSnapshot (now : N) (native_access : bool).

Definition hls_op (st : HlsState) (op : HlsOp) : result HlsStop HlsState :=
  match op with
  | OpFeed now data => hls_feed cfg now st data
  | OpFeedGeneration now generation data => feed_generation cfg now generation st data
  | OpBeginGeneration generation deadline recovering => Ok (begin_generation generation deadline recovering st)
  | OpFailGeneration generation reason => Ok (fail_generation generation reason st)
  | OpStop => Ok (hls_stop st)
  | OpGap dedup => Ok (reset_for_gap dedup st)
  | OpStatus now => Ok (hls_status now st).2
  | OpSegment now seq => Ok (hls_segment now seq st).2
  | OpSnapshot now native => Ok (playlist_snapshot now native st).2
  end.

Fixpoint hls_ops (st : HlsState) (ops : list HlsOp) : result HlsStop HlsState :=
  match ops with
  | [] => Ok st
  | op :: ops => st ← hls_op st op; hls_ops st ops
  end.

Lemma reset_partial_ok dedup r r' : run_ok cfg r → cc_ok f r → r' = reset_partial dedup r →
  run_ok cfg r' ∧ cc_ok f r'.
Proof.
  intros Hr [_ Hf] ->. split; [|by split]. apply (run_ok_dropped cfg r); try done.
  - unfold TS_PACKET_LEN. simpl. lia.
  - apply access_ok_reset, (ro_access _ _ Hr).
Qed.

Lemma hls_window_ok st log w r : hls_ok st log → w_segments w = w_segments (hs_win st) →
  w_media_seq w = w_media_seq (hs_win st) → w_discontinuity_sequence w = w_discontinuity_sequence (hs_win st) →
  run_ok cfg r → cc_ok f r → hls_ok (mkHls w r) log.
Proof.
  intros [H1 H2 [H3 H4] H5] E1 E2 E3 Hr Hc. split; try done. split; cbn; [|by rewrite E1].
  by rewrite E1, E2, E3.
Qed.

Lemma expire_ok now st log : hls_ok st log → hls_ok (expire now st) log.
Proof.
  intros H. unfold expire. case_match; [|done]. apply (hls_window_ok st); try done; apply H.
Qed.

Lemma touch_ok now st log : hls_ok st log → hls_ok (touch now st) log.
Proof. intros H. apply (hls_window_ok st); try done; apply H. Qed.

(** A state and a packet at which feeding fails. *)
Definition failing : Prop := ∃ st packet log, hls_ok st log ∧ is_packet packet ∧ map_lost st packet.

Lemma feed_locked_ok now st data log : hls_ok st log →
  match feed_locked cfg now st data with
  | Ok st' => ∃ new, hls_ok st' (log ++ new)
  | Err e => e = Panicked ∧ failing
  end.
Proof.
  intros H%(expire_ok now). unfold feed_locked. destruct (terminal _); [exists []; by rewrite app_nil_r|].
  by apply feed_loop_ok.
Qed.

Lemma hls_op_ok st op log : hls_ok st log →
  match hls_op st op with
  | Ok st' => ∃ new, hls_ok st' (log ++ new)
  | Err e => e = Panicked ∧ failing
  end.
Proof.
  intros H. pose proof (ho_run _ _ H) as Hr. pose proof (ho_cc _ _ H) as Hc.
  assert (∀ st', hls_ok st' log → ∃ new, hls_ok st' (log ++ new)) as Hsame by (intros; exists []; by rewrite app_nil_r).
  destruct op as [now data|now g data|g d rec|g reason| |dd|now|now sq|now nat]; cbn [hls_op].
  - unfold hls_feed. destruct (terminal _); [by apply Hsame|by apply feed_locked_ok].
  - unfold feed_generation. destruct (_ || _); [by apply Hsame|by apply feed_locked_ok].
  - apply Hsame. unfold begin_generation. destruct (_ || _); [done|].
    assert (run_ok cfg (set_access (preserve_transport_identity (enable_mpeg2 (r_access (hs_run st)))) (hs_run st))) as Hr'.
    { destruct Hr. split; try done. by apply access_ok_preserve, access_ok_mpeg2. }
    destruct (reset_partial_ok false _ _ Hr' Hc eq_refl) as [R1 R2]. apply (hls_window_ok st); try done.
    destruct R1. by split.
  - apply Hsame. unfold fail_generation. destruct (_ && _); [|done].
    destruct (reset_partial_ok false _ _ Hr Hc eq_refl). by apply (hls_window_ok st).
  - apply Hsame. destruct (reset_partial_ok false _ _ Hr Hc eq_refl). by apply (hls_window_ok st).
  - apply Hsame. destruct (reset_partial_ok dd _ _ Hr Hc eq_refl). by apply ok_set_run.
  - by apply Hsame, expire_ok.
  - apply Hsame. unfold hls_segment. cbn. case_bool_decide; [by apply touch_ok|done].
  - apply Hsame. unfold playlist_snapshot. case_bool_decide; cbn; [|by apply expire_ok].
    destruct nat; [apply touch_ok|]; by apply expire_ok.
Qed.

Lemma hls_ops_ok ops : ∀ st log, hls_ok st log →
  match hls_ops st ops with
  | Ok st' => ∃ new, hls_ok st' (log ++ new)
  | Err e => e = Panicked ∧ failing
  end.
Proof.
  induction ops as [|op ops IH]; intros st log H; cbn [hls_ops]; [exists []; by rewrite app_nil_r|].
  pose proof (hls_op_ok st op log H) as Ho. destruct (hls_op st op) as [st1|e]; cbn [mbind result_bind]; [|done].
  destruct Ho as [new Hn]. specialize (IH st1 _ Hn). destruct (hls_ops st1 ops); [|done].
  destruct IH as [new' Hn']. exists (new ++ new'). by rewrite app_assoc.
Qed.
End states.

Lemma sanitized_length raw name : sanitize_service_name raw = Some name → length name ≤ MAX_SERVICE_NAME_BYTES.
Proof.
  unfold sanitize_service_name. case_bool_decide; [done|]. intros [= <-]. set (t := trim _).
  destruct (floor_boundary_spec t (length t `min` MAX_SERVICE_NAME_BYTES)) as [_ Hle]. rewrite length_take. lia.
Qed.

(** A new packager is in order. *)
Lemma create_ok c title strict now : let '(cfg, st) := hls_create c title strict now in
  hls_ok cfg (r_filter_sdt (hs_run st)) st [] ∧ 1 ≤ window cfg ∧ target_reached cfg = cfg_target_reached c.
Proof.
  unfold hls_create, hls_new. set (a0 := access_with_service_name title).
  assert (access_ok a0) as Ha0.
  { split; simpl; try done; try (by intros []). intros n Hn. destruct title as [t|]; [|done]. by apply (sanitized_length t). }
  set (m := segment_packets c `max` 3).
  assert (∃ a f, (if has_service_name a0 && bool_decide (m < 4) then (access_new, false) else (a0, has_service_name a0)) = (a, f)
    ∧ access_ok a ∧ (is_Some (service_name a) → 4 ≤ m)) as (a & f & -> & Ha & Hm).
  { destruct (has_service_name a0) eqn:E1; [destruct (bool_decide (m < 4)) eqn:E2|]; simpl; eexists _, _; split; try done; split; try done.
    - split; simpl; try done; by intros [].
    - by intros [].
    - intros _. apply bool_decide_eq_false in E2. lia.
    - intros Hs. unfold has_service_name in E1. apply bool_decide_eq_false in E1. done. }
  assert (3 ≤ m) as Hm3 by lia. clearbody m. cbn.
  split_and!; [|lia|done]. split; [| |split|]; cbn.
  - split; try (destruct strict; done).
    + unfold TS_PACKET_LEN. destruct strict; cbn; lia.
    + cbn. destruct strict; [apply access_ok_preserve, access_ok_mpeg2|]; by apply access_ok_mpeg2.
    + destruct strict; cbn; lia.
    + exists m. split_and!; [done|done|]. by destruct strict.
  - by destruct strict.
  - exists []. by split_and!.
  - lia.
  - constructor.
Qed.

(** ** Theorems *)

(** C19: Whatever is fed to the packager, whoever reads it and however generations begin, fail and
    end, with a target duration above zero its loops terminate, the run in progress and every
    retained segment stay within the configured ceiling, the window is never exceeded, less than a
    packet is staged, and every retained segment is a sequence of whole packets that opens with a
    program association and the program map on the PID that association names.  The only way a
    packet can make it fail is a packet that leaves a run in progress without a program map. *)
Theorem hls_packager_bounded (c : HlsConfig) (title : option bytes) (strict : bool) (now : N)
    (ops : list HlsOp) (packet : bytes) :
  cfg_target_reached c 0 = false → is_packet packet →
  let '(cfg, st0) := hls_create c title strict now in
  match hls_ops cfg st0 ops with
  | Ok st =>
      let r := hs_run st in
      length (r_cur r) ≤ max_segment_bytes cfg ∧ length (r_input r) < TS_PACKET_LEN
      ∧ length (w_segments (hs_win st)) ≤ window cfg
      ∧ Forall (segment_ok (max_segment_bytes cfg)) (w_segments (hs_win st))
      ∧ match feed_input cfg st packet with
        | Ok _ => True
        | Err e => e = Panicked ∧ map_lost st packet
        end
  | Err e => e ≠ Looping
  end.
Proof.
  intros Ht Hp. pose proof (create_ok c title strict now) as Hc.
  destruct (hls_create c title strict now) as [cfg st0]. destruct Hc as (Hok & Hw & Et).
  assert (target_reached cfg 0 = false) as H0 by (by rewrite Et).
  set (f := r_filter_sdt (hs_run st0)) in Hok.
  pose proof (hls_ops_ok cfg f H0 Hw ops st0 [] Hok) as H. destruct (hls_ops cfg st0 ops) as [st|e].
  2: { destruct H as [-> _]. done. }
  destruct H as [log Hlog]. simpl in Hlog. pose proof Hlog as [Hr _ [(old & E & _) Hwin] Hs].
  split_and!; [apply (ro_max _ _ Hr)|apply (ro_input _ _ Hr)|done| |].
  - rewrite E in Hs. by apply Forall_app in Hs as [_ ?].
  - destruct (feed_input_ok cfg f H0 Hw st packet log Hlog Hp) as [(? & ? & -> & _)|[-> Hm]]; done.
Qed.

(** The abstract playlist: every segment ever emitted, of which the last [window] are served. *)
Definition visible (cfg : HlsParams) (log : list HlsSegment) (seq : N) : option bytes :=
  if (seq <? lenN log - N.of_nat (window cfg))%N then None else seg_bytes <$> log !! N.to_nat seq.

Lemma published_visible cfg w log r seq : published cfg w log → retained_segment (mkHls w r) seq = visible cfg log seq.
Proof.
  intros [(old & -> & Hms & _ & Hfull) Hw]. unfold retained_segment, visible. cbn. rewrite Hms.
  unfold lenN. rewrite length_app.
  destruct (N.ltb_spec seq (N.of_nat (length old))) as [H|H].
  - destruct (decide (old = [])) as [->|Hne]; [simpl in H; lia|]. specialize (Hfull Hne).
    rewrite (proj2 (N.ltb_lt _ _)) by lia. done.
  - rewrite (proj2 (N.ltb_ge _ _)) by lia. rewrite lookup_app_r by lia.
    f_equal. f_equal. lia.
Qed.

Lemma published_sequences cfg w log r : published cfg w log →
  playlist_sequences (mkHls w r) = map N.of_nat (seq (length log - window cfg) (length log `min` window cfg)).
Proof.
  intros [(old & -> & Hms & _ & Hfull) Hw]. unfold playlist_sequences. cbn. rewrite Hms. unfold lenN.
  rewrite length_app.
  assert (length old + length (w_segments w) - window cfg = length old) as ->.
  { destruct (decide (old = [])) as [->|Hne]; [simpl; lia|]. specialize (Hfull Hne). lia. }
  assert ((length old + length (w_segments w)) `min` window cfg = length (w_segments w)) as ->.
  { destruct (decide (old = [])) as [->|Hne]; [simpl; lia|]. specialize (Hfull Hne). lia. }
  assert (∀ n k, map (λ i, N.of_nat (length old) + N.of_nat i)%N (seq k n) = map N.of_nat (seq (length old + k) n)) as H.
  { induction n as [|n IH]; intros k; [done|]. simpl. f_equal; [lia|]. by rewrite IH, Nat.add_succ_r. }
  by rewrite H, Nat.add_0_r.
Qed.

(** C17: The packager implements an append-only log of segments of which the last [window] are served
    by number.  At every reachable state the sequence numbers, the playlist, the discontinuity
    counter and the bytes served are those of the log; later operations only append to it, so
    a sequence number never comes to mean another segment. *)
Theorem hls_window_refines_log (c : HlsConfig) (title : option bytes) (strict : bool) (now : N)
    (ops ops' : list HlsOp) (st st' : HlsState) :
  let '(cfg, st0) := hls_create c title strict now in
  cfg_target_reached c 0 = false → hls_ops cfg st0 ops = Ok st → hls_ops cfg st ops' = Ok st' →
  ∃ log new,
    (∀ seq, retained_segment st seq = visible cfg log seq)
    ∧ (∀ seq, retained_segment st' seq = visible cfg (log ++ new) seq)
    ∧ playlist_sequences st = map N.of_nat (seq (length log - window cfg) (length log `min` window cfg))
    ∧ w_discontinuity_sequence (hs_win st) = marks (take (length log - window cfg) log)
    ∧ w_segments (hs_win st) = drop (length log - window cfg) log
    ∧ (∀ seq b b', retained_segment st seq = Some b → retained_segment st' seq = Some b' → b = b').
Proof.
  pose proof (create_ok c title strict now) as Hc. destruct (hls_create c title strict now) as [cfg st0].
  destruct Hc as (Hok & Hw & Et). intros Ht H1 H2.
  assert (target_reached cfg 0 = false) as H0 by (by rewrite Et). set (f := r_filter_sdt (hs_run st0)) in Hok.
  pose proof (hls_ops_ok cfg f H0 Hw ops st0 [] Hok) as Hs. rewrite H1 in Hs. destruct Hs as [log Hlog].
  simpl in Hlog. pose proof (hls_ops_ok cfg f H0 Hw ops' st log Hlog) as Hs. rewrite H2 in Hs. destruct Hs as [new Hnew].
  pose proof (ho_log _ _ _ _ Hlog) as Hp. pose proof (ho_log _ _ _ _ Hnew) as Hp'.
  assert (∀ seq, retained_segment st seq = visible cfg log seq) as V by (destruct st; intros; by apply published_visible).
  assert (∀ seq, retained_segment st' seq = visible cfg (log ++ new) seq) as V' by (destruct st'; intros; by apply published_visible).
  assert (∃ old, log = old ++ w_segments (hs_win st) ∧ w_discontinuity_sequence (hs_win st) = marks old
    ∧ length log - window cfg = length old) as (old & Elog & Hds & Hold).
  { destruct Hp as [(old & E & _ & Hds & Hfull) Hwl]. exists old. split_and!; [done|done|]. rewrite E, length_app.
    destruct (decide (old = [])) as [->|Hne]; [simpl; lia|]. specialize (Hfull Hne). lia. }
  exists log, new. split_and!; try done.
  - destruct st. by apply published_sequences.
  - rewrite Hold, Elog, take_app_length. done.
  - rewrite Hold. rewrite Elog at 1. by rewrite drop_app_length.
  - intros sq b b'. rewrite V, V'. unfold visible. destruct (_ <? _)%N; [done|]. destruct (_ <? _)%N; [done|].
    intros (s & Hs & ->)%fmap_Some (s' & Hs' & ->)%fmap_Some.
    rewrite (lookup_app_l_Some _ _ _ _ Hs) in Hs'. by injection Hs' as <-.
Qed.

(** *** Continuity *)

(** Feeds, each at its time. *)
Fixpoint feeds (cfg : HlsParams) (st : HlsState) (l : list (N * bytes)) : result HlsStop HlsState :=
  match l with
  | [] => Ok st
  | (now, data) :: l => st ← feed_locked cfg now st data; feeds cfg st l
  end.

(** What the feeds show the audio selection: its state, the input packet, and the packet once fenced. *)
Record Seen : Type := mkSeen { sn_audio : LiveAudioSelection; sn_input : bytes; sn_packet : bytes }.

Definition see (st : HlsState) (packet : bytes) : Seen :=
  mkSeen (r_audio (hs_run st)) packet (fence_marker st packet).

Fixpoint seen_loop (cfg : HlsParams) (fuel : nat) (st : HlsState) (remaining : bytes) : list Seen :=
  match remaining, fuel with
  | [], _ | _, 0 => []
  | _, S fuel =>
      let r := hs_run st in
      let n := (TS_PACKET_LEN - length (r_input r)) `min` length remaining in
      let input := r_input r ++ take n remaining in
      if bool_decide (length input ≠ TS_PACKET_LEN)
      then seen_loop cfg fuel (set_run (set_input input r) st) (drop n remaining)
      else
        let st := set_run (set_input [] r) st in
        see st input :: match feed_input cfg st input with
                        | Ok st => seen_loop cfg fuel st (drop n remaining)
                        | Err _ => []
                        end
  end.

Fixpoint seen (cfg : HlsParams) (st : HlsState) (l : list (N * bytes)) : list Seen :=
  match l with
  | [] => []
  | (now, data) :: l =>
      let st1 := expire now st in
      (if terminal (w_status (hs_win st1)) then [] else seen_loop cfg (length data) st1 data)
      ++ match feed_locked cfg now st data with Ok st => seen cfg st l | Err _ => [] end
  end.

(** The packet the selection passes on, if any. *)
Definition passed (x : Seen) : option bytes := ap_packet (audio_observe (sn_audio x) (sn_packet x)).1.

(** Only the opening marker of a fenced generation is cleared, and only packets of the tables and of removed
    tracks are not passed on as they are. *)
Definition faithful (x : Seen) : Prop :=
  (sn_packet x = sn_input x ∨ sn_packet x = <[5 := N_byte (N.land (byte_at (sn_input x) 5) 0x7f)]> (sn_input x)) ∧
  (ts_pid (sn_packet x) ≠ 0%N → snd <$> as_mapping (sn_audio x) ≠ Some (ts_pid (sn_packet x)) →
   in_list (ts_pid (sn_packet x)) (as_removed (sn_audio x)) = false → passed x = Some (sn_packet x)).

(** What of the packets belongs to the media: not the service tables of a titled stream. *)
Definition carried (filter_sdt : bool) (ps : list bytes) : bytes :=
  concat (List.filter (λ p, negb (filter_sdt && (ts_pid p =? SDT_PID)%N)) ps).

(** A segment carries a part: its tables and its media, renumbered. *)
Definition carries (s : HlsSegment) (part : bytes * bytes) : Prop :=
  ∃ a, seg_bytes s = (audio_emitted a (part.1 ++ part.2)).1.

Section continuity.
Context (cfg : HlsParams) (f : bool) (H0 : target_reached cfg 0 = false) (Hwin : 1 ≤ window cfg).

Lemma see_faithful st packet : faithful (see st packet).
Proof.
  split; cbn.
  - unfold fence_marker. case_match; auto.
  - unfold passed. cbn. set (q := fence_marker st packet). clearbody q. intros H1 H2 H3. unfold audio_observe.
    set (a1 := if flag _ _ then _ else _).
    assert (as_mapping a1 = as_mapping (r_audio (hs_run st)) ∧ as_removed a1 = as_removed (r_audio (hs_run st))) as [-> ->]
      by (unfold a1; by case_match).
    rewrite (proj2 (N.eqb_neq _ _)), (bool_decide_eq_false_2 _ H2), H3 by done. done.
Qed.

Definition media (o : option bytes) : bytes :=
  match o with Some q => if f && (ts_pid q =? SDT_PID)%N then [] else q | None => [] end.

(** What an input packet does to the run, by what the selection makes of it. *)
Inductive input_effect (st : HlsState) (x : Seen) (st' : HlsState) : list HlsSegment → Prop :=
  | ie_lost :
      (r_awaiting (hs_run st) = false ∨ r_pending (hs_run st) = true → r_pending (hs_run st') = true) →
      input_effect st x st' []
  | ie_kept :
      r_awaiting (hs_run st') = r_awaiting (hs_run st) → r_pending (hs_run st') = r_pending (hs_run st) →
      r_cur (hs_run st') = r_cur (hs_run st) ++ media (passed x) → input_effect st x st' []
  | ie_cut s tables a :
      r_awaiting (hs_run st') = false → r_pending (hs_run st') = false → seg_discontinuity s = r_pending (hs_run st) →
      seg_bytes s = (audio_emitted a (r_cur (hs_run st))).1 →
      r_cur (hs_run st') = tables ++ media (passed x) → input_effect st x st' [s].

Lemma input_ok st packet st' log : hls_ok cfg f st log → is_packet packet → feed_input cfg st packet = Ok st' →
  r_input (hs_run st') = r_input (hs_run st) ∧
  ∃ new, hls_ok cfg f st' (log ++ new) ∧ input_effect st (see st packet) st' new.
Proof.
  intros Hok Hp E. destruct (feed_input_ok cfg f H0 Hwin st packet log Hok Hp) as [(st2 & _ & E2 & _)|[E2 _]]; [|congruence].
  rewrite E in E2. injection E2 as <-. pose proof (ho_run _ _ _ _ Hok) as Hr. pose proof (ho_cc _ _ _ _ Hok) as Hc.
  assert (is_packet (fence_marker st packet)) as Hp'.
  { unfold fence_marker. case_match; [|done]. unfold is_packet. by rewrite length_insert. }
  assert (∀ q, ap_packet (audio_observe (r_audio (hs_run st)) (fence_marker st packet)).1 = Some q → is_packet q) as Hq.
  { intros q. by eapply observe_is_packet. }
  pose proof (audio_observe_cc (r_audio (hs_run st)) (fence_marker st packet)) as Hcc.
  assert (passed (see st packet) = ap_packet (audio_observe (r_audio (hs_run st)) (fence_marker st packet)).1) as Epass by done.
  revert Epass. generalize (see st packet). intros x Epass. unfold feed_input in E. set (q := fence_marker st packet) in *. clearbody q.
  destruct (_ && negb _).
  { injection E as <-. split; [done|]. exists []. rewrite app_nil_r. split; [|by apply ie_lost]. apply ok_set_run; [done| |by destruct Hc].
    apply (run_ok_dropped cfg (hs_run st)); try done; [apply (ro_input _ _ Hr)|apply access_ok_reset, (ro_access _ _ Hr)]. }
  destruct (audio_observe (r_audio (hs_run st)) q) as [res audio]. cbn [fst snd] in *. rewrite <- Epass in *.
  set (r := set_audio audio (hs_run st)) in *.
  assert (run_ok cfg r) as Hr1 by (by apply run_ok_audio).
  assert (cc_ok f r) as Hc1 by (destruct Hc; split; [cbn; by rewrite Hcc|done]).
  destruct (passed x) as [p|] eqn:Ep.
  - destruct (ap_changed res).
    + destruct (layout_changed_ok cfg f r Hr1 Hc1) as [Hr2 Hc2].
      destruct (feed_packet_kept cfg (hs_run (set_run (layout_changed r) st)) _ _ _ E) as (_ & _ & ->); [done|]. split; [done|].
      destruct (packet_ok cfg f H0 Hwin (set_run (layout_changed r) st) p log) as [(st2 & new & E2 & Hok2 & Heff)|[E2 _]];
        [by apply ok_set_run|by apply Hq| |congruence].
      rewrite E in E2. injection E2 as <-. exists new. split; [done|].
      destruct Heff as [Hl|_ Hk _|s tables Ha _ _ _ _ _ _ _]; [| |done].
      * apply ie_lost. intros Hx. apply Hl. right. cbn. destruct Hx as [->| ->]; [by rewrite orb_true_r|done].
      * apply ie_lost. intros Hx. rewrite Hk. cbn. destruct Hx as [->| ->]; [by rewrite orb_true_r|done].
    + destruct (feed_packet_kept cfg (hs_run (set_run r st)) _ _ _ E) as (_ & _ & ->); [done|]. split; [done|].
      destruct (packet_ok cfg f H0 Hwin (set_run r st) p log) as [(st2 & new & E2 & Hok2 & Heff)|[E2 _]];
        [by apply ok_set_run|by apply Hq| |congruence].
      rewrite E in E2. injection E2 as <-. exists new. split; [done|].
      destruct Heff as [Hl|Ha Hk Hcur|s tables Ha Ha' Hpe Hd Hf Hb Ht Hcur].
      * by apply ie_lost.
      * apply ie_kept; [done|done|]. by rewrite Ep.
      * eapply (ie_cut _ _ _ s tables); [done|done|done|exact Hb|]. rewrite Ep. cbn [media]. by rewrite Hf.
  - injection E as <-. set (r2 := if ap_changed res then layout_changed r else r).
    assert (run_ok cfg r2 ∧ cc_ok f r2) as [Hr2 Hc2] by (unfold r2; destruct (ap_changed res); [by apply layout_changed_ok|done]).
    assert (run_ok cfg (if discontinuity (ts_timing q) then set_dedup false r2 else r2)) as Hr3
      by (destruct (discontinuity _); [destruct Hr2; by split|done]).
    split; [unfold r2; by destruct (discontinuity _), (ap_changed res)|].
    exists []. rewrite app_nil_r. split; [apply ok_set_run; [done|done|by destruct (discontinuity _)]|].
    unfold r2. destruct (ap_changed res).
    + apply ie_lost. intros Hx. destruct (discontinuity _); cbn; destruct Hx as [->| ->]; by rewrite ?orb_true_r.
    + apply ie_kept; destruct (discontinuity _); cbn; by rewrite ?Ep, ?app_nil_r.
Qed.

(** Feeds as steps: input packets, and changes that keep the run. *)
Inductive fed : HlsState → list Seen → HlsState → Prop :=
  | fed_done st : fed st [] st
  | fed_other st st1 xs st' :
      (∀ log, hls_ok cfg f st log → hls_ok cfg f st1 log) → r_awaiting (hs_run st1) = r_awaiting (hs_run st) →
      r_pending (hs_run st1) = r_pending (hs_run st) → r_cur (hs_run st1) = r_cur (hs_run st) →
      fed st1 xs st' → fed st xs st'
  | fed_packet st packet st1 xs st' :
      is_packet packet → feed_input cfg st packet = Ok st1 → fed st1 xs st' → fed st (see st packet :: xs) st'.

Lemma fed_trans st xs st1 ys st' : fed st xs st1 → fed st1 ys st' → fed st (xs ++ ys) st'.
Proof. induction 1; intros Hf; cbn; [done|eapply fed_other; eauto|eapply fed_packet; eauto]. Qed.

Lemma staged_ok st log i : length i < TS_PACKET_LEN → hls_ok cfg f st log → hls_ok cfg f (set_run (set_input i (hs_run st)) st) log.
Proof.
  intros Hi Hok. apply ok_set_run; [done| |by destruct (ho_cc _ _ _ _ Hok)]. destruct (ho_run _ _ _ _ Hok). by split.
Qed.

(** The staged input, then the data: whole packets are seen, the rest is staged. *)
Lemma loop_fed fuel : ∀ st data st' log, hls_ok cfg f st log → length data ≤ fuel → feed_loop cfg fuel st data = Ok st' →
  fed st (seen_loop cfg fuel st data) st' ∧
  r_input (hs_run st) ++ data = concat (map sn_input (seen_loop cfg fuel st data)) ++ r_input (hs_run st').
Proof.
  induction fuel as [|fuel IH]; intros st data st' log Hok Hl H;
    (destruct data as [|b data]; [cbn in H; injection H as <-; cbn; rewrite app_nil_r; by split; [constructor|]|]); [simpl in Hl; lia|].
  cbn [feed_loop seen_loop] in *. set (d := b :: data) in *. set (n := _ `min` length d) in *.
  pose proof (ro_input _ _ (ho_run _ _ _ _ Hok)) as Hi.
  assert (1 ≤ n ≤ length d) as Hn by (unfold n; simpl; lia).
  assert (length (drop n d) ≤ fuel) as Hl' by (rewrite length_drop; lia).
  assert (length (r_input (hs_run st) ++ take n d) ≤ TS_PACKET_LEN) as Hin
    by (rewrite length_app, length_take; unfold n; lia).
  assert (length (@nil byte) < TS_PACKET_LEN) as Hpos by (unfold TS_PACKET_LEN; simpl; lia).
  assert (r_input (hs_run st) ++ d = (r_input (hs_run st) ++ take n d) ++ drop n d) as Ed by (by rewrite <- app_assoc, take_drop).
  case_bool_decide as E.
  - assert (length (r_input (hs_run st) ++ take n d) < TS_PACKET_LEN) as Hlt by lia.
    destruct (IH _ _ _ log (staged_ok st log _ Hlt Hok) Hl' H) as [H1 H2]. split; [|by rewrite Ed].
    eapply (fed_other st); [| | | |exact H1]; [intros log'; by apply staged_ok|done..].
  - apply bind_Ok_inv in H as (st1 & E1 & H). rewrite E1. cbn [map concat].
    assert (is_packet (r_input (hs_run st) ++ take n d)) as Hp by (unfold is_packet; lia).
    destruct (input_ok _ _ _ log (staged_ok st log [] Hpos Hok) Hp E1) as (Ei & new & Hok1 & _).
    destruct (IH _ _ _ _ Hok1 Hl' H) as [H1 H2]. rewrite Ei in H2. cbn [hs_run set_run set_input r_input app] in H2. split.
    + eapply (fed_other st); [| | | |exact (fed_packet _ _ _ _ _ Hp E1 H1)]; [intros log'; by apply staged_ok|done..].
    + cbn [see sn_input]. rewrite Ed. etransitivity; [exact (f_equal (app _) H2)|apply app_assoc].
Qed.

(** A pending mark reaches a segment or is still pending. *)
Lemma pending_marks st xs st' : fed st xs st' → ∀ log, hls_ok cfg f st log →
  ∃ new, hls_ok cfg f st' (log ++ new) ∧
    (r_pending (hs_run st) = true → r_pending (hs_run st') = true ∨ Exists (λ s, seg_discontinuity s = true) new).
Proof.
  induction 1 as [st|st st1 xs st' Ho _ Ep _ _ IH|st p st1 xs st' Hp E _ IH]; intros log Hok.
  - exists []. rewrite app_nil_r. by auto.
  - destruct (IH log (Ho log Hok)) as (new & Hn & Hm). exists new. by rewrite <- Ep.
  - destruct (input_ok st p st1 log Hok Hp E) as (_ & new & Hok1 & Heff).
    destruct (IH _ Hok1) as (new' & Hn & Hm). exists (new ++ new'). rewrite app_assoc. split; [done|]. intros Hpe.
    rewrite Exists_app. destruct Heff as [Hl|_ Hk _|s tables a _ _ Hd _ _].
    + destruct Hm; auto.
    + destruct Hm; auto. congruence.
    + right. left. left. congruence.
Qed.

(** Either a mark shows a loss, or nothing was lost. *)
Lemma media_continues st xs st' : fed st xs st' → ∀ log tables body, hls_ok cfg f st log →
  r_awaiting (hs_run st) = false → r_pending (hs_run st) = false → r_cur (hs_run st) = tables ++ body →
  ∃ new, hls_ok cfg f st' (log ++ new)
  ∧ (r_pending (hs_run st') = true ∨ Exists (λ s, seg_discontinuity s = true) new
     ∨ ∃ parts tables' body', Forall2 carries new parts ∧ r_cur (hs_run st') = tables' ++ body'
       ∧ concat (map snd parts) ++ body' = body ++ concat (map media (map passed xs))).
Proof.
  induction 1 as [st|st st1 xs st' Ho Ea Ep Ec _ IH|st p st1 xs st' Hp E Hfed IH]; intros log tables body Hok Ha Hpe Hc.
  - exists []. rewrite app_nil_r. split; [done|]. right; right.
    exists [], tables, body. split_and!; [done|done|]. cbn. by rewrite app_nil_r.
  - apply (IH log tables body); [by apply Ho|congruence..].
  - destruct (input_ok st p st1 log Hok Hp E) as (_ & new & Hok1 & Heff).
    destruct Heff as [Hl|Hk Hkp Hkc|s tables1 a Ha1 Hp1 Hd Hb Hc1].
    + rewrite app_nil_r in Hok1. destruct (pending_marks st1 xs st' Hfed log Hok1) as (new & Hn & Hm).
      exists new. split; [done|]. destruct Hm; auto.
    + rewrite app_nil_r in Hok1. rewrite Hc, <- app_assoc in Hkc.
      destruct (IH log tables _ Hok1 ltac:(congruence) ltac:(congruence) Hkc) as (new & Hn & Hm).
      exists new. split; [done|]. destruct Hm as [?|[?|(parts & t' & b' & Hf2 & Hcur & Hcat)]]; auto.
      right; right. exists parts, t', b'. split_and!; [done|done|]. rewrite Hcat. cbn [map concat]. by rewrite <- app_assoc.
    + destruct (IH (log ++ [s]) tables1 _ Hok1 Ha1 Hp1 Hc1) as (new & Hn & Hm).
      exists (s :: new). rewrite <- app_assoc in Hn. split; [done|].
      destruct Hm as [?|[?|(parts & t' & b' & Hf2 & Hcur & Hcat)]]; [by auto|by auto|].
      right; right. exists ((tables, body) :: parts), t', b'. split_and!; [|done|].
      * constructor; [|done]. exists a. cbn. by rewrite <- Hc.
      * cbn [map concat snd]. by rewrite <- app_assoc, Hcat.
Qed.

Lemma media_carried xs : concat (map media (map passed xs)) = carried f (omap passed xs).
Proof.
  induction xs as [|x xs IH]; cbn [map concat omap list_omap]; [done|]. rewrite IH. destruct (passed x) as [q|]; cbn [media]; [|done].
  unfold carried. cbn [List.filter]. by destruct (f && _).
Qed.

Lemma expire_terminal now st : terminal (w_status (hs_win st)) = true → expire now st = st.
Proof.
  intros Ht. unfold expire. rewrite bool_decide_eq_false_2, andb_false_r; [done|]. destruct (w_status _); naive_solver.
Qed.

Lemma feeds_terminal l : ∀ st st', terminal (w_status (hs_win st)) = true → feeds cfg st l = Ok st' → st' = st.
Proof.
  induction l as [|[now data] l IH]; intros st st' Ht H; cbn [feeds] in H; [by injection H as <-|].
  unfold feed_locked in H. rewrite (expire_terminal now st Ht), Ht in H. by apply IH.
Qed.

Lemma feeds_fed l : ∀ st st' log, hls_ok cfg f st log → feeds cfg st l = Ok st' →
  fed st (seen cfg st l) st' ∧
  (terminal (w_status (hs_win st')) = false →
   r_input (hs_run st) ++ concat l.*2 = concat (map sn_input (seen cfg st l)) ++ r_input (hs_run st')).
Proof.
  induction l as [|[now data] l IH]; intros st st' log Hok H; cbn [feeds seen] in *.
  { injection H as <-. split; [constructor|]. intros _. cbn. by rewrite app_nil_r. }
  apply bind_Ok_inv in H as (st1 & E & H). rewrite E. set (e := expire now st) in *.
  assert (hs_run e = hs_run st) as Er by (unfold e, expire; by case_match).
  assert (∀ xs st2, fed e xs st2 → fed st xs st2) as He.
  { intros xs st2 Hf. apply (fed_other st e); [intros log'; apply expire_ok|by rewrite Er..|exact Hf]. }
  pose proof (expire_ok cfg f now st log Hok) as Hoke. fold e in Hoke.
  unfold feed_locked in E. fold e in E. destruct (terminal (w_status (hs_win e))) eqn:Ht.
  - injection E as <-. destruct (IH e st' log Hoke H) as [H1 H2]. split; [by apply He|]. intros Hn.
    rewrite (feeds_terminal l e st' Ht H) in Hn. congruence.
  - destruct (loop_fed _ _ _ _ log Hoke (le_n _) E) as [H1 H2]. pose proof (feed_loop_ok cfg f H0 Hwin _ e data log Hoke (le_n _)) as Hok1.
    rewrite E in Hok1. destruct Hok1 as [new Hok1]. destruct (IH st1 st' _ Hok1 H) as [G1 G2]. split.
    + apply He. by eapply fed_trans.
    + intros Hn. specialize (G2 Hn). rewrite Er in H2. cbn [fmap list_fmap concat snd]. rewrite map_app, concat_app.
      rewrite app_assoc, H2, <- !app_assoc. f_equal. exact G2.
Qed.

Lemma fed_faithful st xs st' : fed st xs st' → Forall faithful xs.
Proof. induction 1; [constructor|done|constructor; [apply see_faithful|done]]. Qed.
End continuity.

(** C18: Segments that carry no discontinuity mark lose nothing of the program.  Any feeds, cut anyhow, to any
    reachable packager in the middle of an unmarked run: the audio selection sees exactly the packets of
    the staged input followed by the data (unless the packager has failed by its deadline), the rest staying
    staged; of each it passes on the packet itself (its opening discontinuity marker cleared when a
    fenced generation begins), except for packets of the association, of the program map and of the tracks it
    removes, which it may drop or rewrite; and either a loss shows (a new segment is marked, or the next one will
    be), or the media of the new segments and of the run left at the end, one after another, is exactly the media
    the run held followed by every packet passed on, the service tables a titled stream replaces
    excepted. *)
Theorem unmarked_segments_lossless (c : HlsConfig) (title : option bytes) (strict : bool) (now : N)
    (ops : list HlsOp) (st st' : HlsState) (l : list (N * bytes)) (tables body : bytes) :
  let '(cfg, st0) := hls_create c title strict now in
  let xs := seen cfg st l in
  cfg_target_reached c 0 = false → hls_ops cfg st0 ops = Ok st → feeds cfg st l = Ok st' →
  r_awaiting (hs_run st) = false → r_pending (hs_run st) = false → r_cur (hs_run st) = tables ++ body →
  (terminal (w_status (hs_win st')) = false →
   r_input (hs_run st) ++ concat l.*2 = concat (map sn_input xs) ++ r_input (hs_run st'))
  ∧ Forall faithful xs
  ∧ ∃ log new, published cfg (hs_win st) log ∧ published cfg (hs_win st') (log ++ new)
    ∧ (r_pending (hs_run st') = true ∨ Exists (λ s, seg_discontinuity s = true) new
       ∨ ∃ parts tables' body', Forall2 carries new parts ∧ r_cur (hs_run st') = tables' ++ body'
         ∧ concat (map snd parts) ++ body' = body ++ carried (r_filter_sdt (hs_run st0)) (omap passed xs)).
Proof.
  pose proof (create_ok c title strict now) as Hc. destruct (hls_create c title strict now) as [cfg st0].
  destruct Hc as (Hok & Hw & Et). intros xs Ht H1 H2 Ha Hp Hcur.
  assert (target_reached cfg 0 = false) as H0 by (by rewrite Et).
  pose proof (hls_ops_ok cfg _ H0 Hw ops st0 [] Hok) as Hs. rewrite H1 in Hs. destruct Hs as [log Hlog].
  simpl in Hlog. destruct (feeds_fed cfg _ H0 Hw l st st' log Hlog H2) as [Hfed Hin]. fold xs in Hfed, Hin.
  split_and!; [done|by eapply fed_faithful|].
  destruct (media_continues cfg _ H0 Hw st xs st' Hfed log tables body Hlog Ha Hp Hcur) as (new & Hn & Hm).
  exists log, new. split_and!; [apply Hlog|apply Hn|].
  by rewrite media_carried in Hm.
Qed.

(** *** Generations *)

(** Nothing a reader sees moves. *)
Definition same_output (st st' : HlsState) : Prop :=
  w_segments (hs_win st') = w_segments (hs_win st) ∧ w_media_seq (hs_win st') = w_media_seq (hs_win st)
  ∧ w_discontinuity_sequence (hs_win st') = w_discontinuity_sequence (hs_win st).

Lemma terminal_op cfg st op st' : terminal (w_status (hs_win st)) = true → hls_op cfg st op = Ok st' →
  terminal (w_status (hs_win st')) = true ∧ same_output st st' ∧ w_generation (hs_win st') = w_generation (hs_win st).
Proof.
  intros Ht. assert (∀ now, expire now st = st) as He.
  { intros now. unfold expire. rewrite bool_decide_eq_false_2, andb_false_r; [done|]. destruct (w_status _); naive_solver. }
  destruct op as [now data|now g data|g d rec|g reason| |dd|now|now sq|now nat]; cbn [hls_op].
  - unfold hls_feed. rewrite Ht. by intros [= <-].
  - unfold feed_generation. rewrite Ht, orb_true_r. by intros [= <-].
  - unfold begin_generation. rewrite Ht. by intros [= <-].
  - unfold fail_generation. rewrite Ht, andb_false_r. by intros [= <-].
  - by intros [= <-].
  - by intros [= <-].
  - unfold hls_status. rewrite He. by intros [= <-].
  - unfold hls_segment. case_bool_decide; by intros [= <-].
  - unfold playlist_snapshot. rewrite He, bool_decide_eq_false_2; [by intros [= <-]|].
    by destruct (w_status _).
Qed.

(** Output is fenced.  Once the packager is stopped or has failed, no later operation changes what it
    serves or revives it; and while it runs, feeding or failing a generation that is not the current
    one changes nothing, and beginning one that is not newer changes nothing. *)
Theorem retired_output_fenced (cfg : HlsParams) (st st' : HlsState) (ops : list HlsOp) (now g d : N) (data : bytes)
    (reason : HlsFailure) (recovering : bool) :
  (terminal (w_status (hs_win st)) = true → hls_ops cfg st ops = Ok st' →
   terminal (w_status (hs_win st')) = true ∧ same_output st st')
  ∧ (g ≠ w_generation (hs_win st) →
     feed_generation cfg now g st data = Ok st ∧ fail_generation g reason st = st)
  ∧ ((g ≤ w_generation (hs_win st))%N → begin_generation g d recovering st = st).
Proof.
  split_and!.
  - revert st. induction ops as [|op ops IH]; intros st Ht H; cbn [hls_ops] in H; [by injection H as <-|].
    apply bind_Ok_inv in H as (st1 & E & H). destruct (terminal_op cfg st op st1 Ht E) as (Ht1 & (S1 & S2 & S3) & _).
    destruct (IH st1 Ht1 H) as [? (T1 & T2 & T3)]. split; [done|]. split_and!; congruence.
  - intros Hg%N.eqb_neq. unfold feed_generation, fail_generation. by rewrite Hg.
  - intros Hg%N.leb_le. unfold begin_generation. by rewrite Hg, orb_true_r.
Qed.

(** *** A run that outlives its tables *)

(** An access point and a later packet of the video stream, with clock samples a second apart. *)
Definition clocked_key : bytes :=
  map N_byte [0x47; 0x41; 0x01; 0x30; 0x07; 0x50; 0x00; 0x00; 0x00; 0x00; 0x7e; 0x00]%N ++ replicate 176 x00.
Definition clocked_delta : bytes :=
  map N_byte [0x47; 0x01; 0x01; 0x30; 0x07; 0x10; 0x00; 0x00; 0xaf; 0xc8; 0x7e; 0x00]%N ++ replicate 176 x00.
Definition clocked_key2 : bytes :=
  map N_byte [0x47; 0x41; 0x01; 0x30; 0x07; 0x50; 0x00; 0x00; 0xaf; 0xc8; 0x7e; 0x00]%N ++ replicate 176 x00.

(** Two associations of two programs each, in either order. *)
Definition pat_12 : bytes :=
  psi_packet [0x47; 0x40; 0x00; 0x10; 0x00]%N
    [0x00; 0xB0; 0x11; 0x00; 0x01; 0xC1; 0x00; 0x00; 0x00; 0x01; 0xE1; 0x00; 0x00; 0x02; 0xE2; 0x00]%N.
Definition pat_21 : bytes :=
  psi_packet [0x47; 0x40; 0x00; 0x10; 0x00]%N
    [0x00; 0xB0; 0x11; 0x00; 0x01; 0xC3; 0x00; 0x00; 0x00; 0x02; 0xE2; 0x00; 0x00; 0x01; 0xE1; 0x00]%N.

Definition four_packets : HlsConfig := mkHlsConfig 4 2 (λ t, 90000 <=? t)%N 1 1000.

(** The panic is reachable: the run fills the ceiling and the target has passed, and the next packet is
    an association whose first program is another one; the map of the running program is
    forgotten before the tables of the continuation are taken from it. *)
Lemma full_run_without_map_panics :
  let '(cfg, st0) := hls_create four_packets None false 0 in
  hls_ops cfg st0 [OpFeed 1 (concat [pat_12; sample_pmt; clocked_key; clocked_delta; pat_21])] = Err Panicked
  ∧ is_ok (hls_ops cfg st0 [OpFeed 1 (concat [pat_12; sample_pmt; clocked_key; clocked_delta; pat_12])]) = true.
Proof. split; vm_compute; reflexivity. Qed.

(** *** Witnesses *)

Definition four_params : HlsParams := (hls_create four_packets None false 0).1.
Definition four_start : HlsState := (hls_create four_packets None false 0).2.

(** Two seconds of video, an access point each. *)
Definition two_seconds : list HlsOp := [OpFeed 1 (concat [sample_pat; sample_pmt; clocked_key; clocked_key2])].

(** What the witnesses read of that state: a segment that is still served after a stop. *)
Definition two_seconds_facts (r : result HlsStop HlsState) : bool :=
  match r with
  | Ok st => (length (w_segments (hs_win st)) =? 1)%nat
             && bool_decide (is_Some (retained_segment (hls_stop st) 0))
  | Err _ => false
  end.

Lemma two_seconds_run : ∃ st, hls_ops four_params four_start two_seconds = Ok st
  ∧ length (w_segments (hs_win st)) = 1 ∧ is_Some (retained_segment (hls_stop st) 0).
Proof.
  assert (two_seconds_facts (hls_ops four_params four_start two_seconds) = true) as H by (vm_compute; reflexivity).
  destruct (hls_ops four_params four_start two_seconds) as [st|]; [|discriminate H]. exists st. unfold two_seconds_facts in H.
  apply andb_true_iff in H as [H1%Nat.eqb_eq H2%bool_decide_eq_true]. done.
Qed.

Lemma hls_packager_bounded_witness :
  ∃ st, hls_ops four_params four_start two_seconds = Ok st ∧ length (w_segments (hs_win st)) = 1
  ∧ Forall (segment_ok (max_segment_bytes four_params)) (w_segments (hs_win st)).
Proof.
  destruct two_seconds_run as (st & E & Hl & _). exists st. split; [exact E|]. split; [exact Hl|].
  pose proof (hls_packager_bounded four_packets None false 0 two_seconds sample_key eq_refl eq_refl) as H.
  rewrite (surjective_pairing (hls_create four_packets None false 0)) in H. fold four_params four_start in H.
  rewrite E in H. exact (proj1 (proj2 (proj2 (proj2 H)))).
Defined.

Lemma hls_window_refines_log_witness :
  ∃ st log new, hls_ops four_params four_start two_seconds = Ok st
  ∧ retained_segment (hls_stop st) 0 = visible four_params (log ++ new) 0
  ∧ is_Some (retained_segment (hls_stop st) 0).
Proof.
  destruct two_seconds_run as (st & E & _ & Hs).
  pose proof (hls_window_refines_log four_packets None false 0 two_seconds [OpStop] st (hls_stop st)) as H.
  rewrite (surjective_pairing (hls_create four_packets None false 0)) in H. fold four_params four_start in H.
  destruct (H eq_refl E eq_refl) as (log & new & _ & Hv & _).
  exists st, log, new. split; [exact E|]. split; [apply Hv|exact Hs].
Defined.

(** New segments that are all served and unmarked. *)
Lemma new_unmarked cfg w w' log new : published cfg w log → published cfg w' (log ++ new) →
  (w_media_seq w' <=? w_media_seq w + lenN (w_segments w))%N = true →
  forallb (λ s, negb (seg_discontinuity s)) (w_segments w') = true → ¬ Exists (λ s, seg_discontinuity s = true) new.
Proof.
  intros [(old & -> & Hm & _) _] [(old' & E & Hm' & _) _] Hle%N.leb_le Hall.
  rewrite Hm, Hm' in Hle. unfold lenN in Hle. rewrite forallb_Forall, Forall_forall in Hall.
  intros (s & Hs & Hd)%Exists_exists. assert (s ∈ w_segments w') as Hin.
  { apply (f_equal (drop (length old'))) in E. rewrite drop_app_length, drop_app_le in E by (rewrite length_app; lia).
    rewrite <- E. apply elem_of_app. by right. }
  specialize (Hall s Hin). by rewrite Hd in Hall.
Qed.

(** A program with two audio tracks, of which 0x102 is removed: its packets go, its clock stays.  The media is
    cut in the middle of a packet, and a segment ends at the second access point. *)
Definition two_tracks : HlsConfig := mkHlsConfig 9 2 (λ t, 90000 <=? t)%N 1 1000.
Definition tracks_params : HlsParams := (hls_create two_tracks None false 0).1.
Definition tracks_start : HlsState := (hls_create two_tracks None false 0).2.
Definition unclocked_key : bytes := map N_byte [0x47; 0x41; 0x01; 0x30; 0x01; 0x40]%N ++ replicate 182 x00.
Definition track_clock (b : N) : bytes :=
  map N_byte [0x47; 0x01; 0x02; 0x30; 0x07; 0x10; 0x00; 0x00; b; 0xc8; 0x7e; 0x00]%N ++ replicate 176 x00.
Definition track_media (p : N) : bytes := map N_byte [0x47; 0x01; p; 0x10]%N ++ replicate 184 x05.

Definition tracks_open : list HlsOp :=
  [OpFeed 1 (concat [audio_pat; audio_pmt; unclocked_key; sample_delta; track_clock 0] ++ take 100 (track_media 3))].
Definition tracks_feeds : list (N * bytes) :=
  [(2%N, drop 100 (track_media 3) ++ track_media 2 ++ take 8 sample_delta);
   (3%N, drop 8 sample_delta ++ concat [track_clock 0xaf; track_clock 0xb0; unclocked_key; sample_delta])].
Definition tracks_passed : list bytes :=
  [track_media 3; sample_delta; strip_packet (track_clock 0xaf); strip_packet (track_clock 0xb0); unclocked_key; sample_delta].

Definition tracks_facts (r : result HlsStop HlsState) : bool :=
  match r with
  | Ok st =>
      negb (r_awaiting (hs_run st)) && negb (r_pending (hs_run st))
      && bool_decide (omap passed (seen tracks_params st tracks_feeds) = tracks_passed)
      && match feeds tracks_params st tracks_feeds with
         | Ok st' => negb (r_pending (hs_run st')) && (length (w_segments (hs_win st')) =? 1)%nat
             && (w_media_seq (hs_win st') <=? w_media_seq (hs_win st) + lenN (w_segments (hs_win st)))%N
             && forallb (λ s, negb (seg_discontinuity s)) (w_segments (hs_win st'))
         | Err _ => false
         end
  | Err _ => false
  end.

Lemma tracks_run : tracks_facts (hls_ops tracks_params tracks_start tracks_open) = true.
Proof. vm_compute. reflexivity. Qed.

Lemma tracks_carried : carried (r_filter_sdt (hs_run tracks_start)) tracks_passed = concat tracks_passed.
Proof. vm_compute. reflexivity. Qed.

Lemma unmarked_segments_lossless_witness : ∃ st st' new parts tables' body',
  hls_ops tracks_params tracks_start tracks_open = Ok st ∧ feeds tracks_params st tracks_feeds = Ok st'
  ∧ length (w_segments (hs_win st')) = 1 ∧ Forall2 carries new parts ∧ r_cur (hs_run st') = tables' ++ body'
  ∧ concat (map snd parts) ++ body' = drop 376 (r_cur (hs_run st)) ++ concat tracks_passed.
Proof.
  pose proof tracks_run as H. destruct (hls_ops tracks_params tracks_start tracks_open) as [st|] eqn:E; [|discriminate H].
  unfold tracks_facts in H. apply andb_true_iff in H as [[[Ha%negb_true_iff Hp%negb_true_iff]%andb_true_iff Hx%bool_decide_eq_true]%andb_true_iff H].
  destruct (feeds tracks_params st tracks_feeds) as [st'|] eqn:E'; [|discriminate H].
  apply andb_true_iff in H as [[[Hp'%negb_true_iff Hl%Nat.eqb_eq]%andb_true_iff Hm]%andb_true_iff Hu].
  pose proof (unmarked_segments_lossless two_tracks None false 0 tracks_open st st' tracks_feeds
    (take 376 (r_cur (hs_run st))) (drop 376 (r_cur (hs_run st)))) as H.
  rewrite (surjective_pairing (hls_create two_tracks None false 0)) in H. fold tracks_params tracks_start in H. cbv zeta in H.
  specialize (H eq_refl E E' Ha Hp (eq_sym (take_drop _ _))). destruct H as (_ & _ & log & new & H1 & H2 & H3).
  destruct H3 as [H3|[H3|H3]]; [rewrite Hp' in H3; discriminate H3|destruct (new_unmarked _ _ _ _ _ H1 H2 Hm Hu H3)|].
  destruct H3 as (parts & tables' & body' & Hf & Hc & Hcat). rewrite Hx, tracks_carried in Hcat. exists st, st', new, parts, tables', body'.
  split_and!; [reflexivity|exact E'|exact Hl|exact Hf|exact Hc|exact Hcat].
Defined.

Lemma retired_output_fenced_witness :
  let st := hls_stop four_start in
  ∃ st', hls_ops four_params st two_seconds = Ok st' ∧ terminal (w_status (hs_win st')) = true ∧ same_output st st'.
Proof.
  exists (hls_stop four_start). split; [reflexivity|].
  apply (retired_output_fenced four_params (hls_stop four_start) (hls_stop four_start) two_seconds 0 1 0 [] FPipe false);
    reflexivity.
Defined.
