(* ===== verification/StartupBuffer.v ===== *)
(** * The startup buffer

    [ace-engine/src/startup_buffer.rs]: [StartupReservoir] holds a stream back until it is worth the
    configured duration, a byte cap or a deadline passes, or the stream ends, and then releases
    everything; [StartupBufferedSource] puts it in front of a live source.  Time is an argument.
    A duration is in 90 kHz ticks; the two comparisons that the source makes on floating-point
    durations are functions of the configuration ([clock_target], [rate_target]).  What the inner
    source and the deadline timer do is a list of events, in the order in which the [select!] sees
    them.  The statistics the decorator republishes are not modelled. *)

From S2P Require Import Prelude Bytes MpegTs TsGate.

Inductive ReleaseReason : Type := TargetDuration | ByteLimit | Deadline | EndOfStream | Disabled.

Inductive Phase : Type := Collecting | Draining (reason : ReleaseReason) | Released.

Record StartupBufferConfig : Type := mkStartup {
  target_ms : N;
  timeout : N;
  max_bytes : nat;
  clock_target : N → bool;
  rate_target : N → nat → bool;
}.

Record StartupReservoir : Type := mkReservoir {
  sr_bitrate : option N;
  sr_queue : list bytes;
  sr_queued_bytes : nat;
  sr_clock : SelectedPcrClock;
  sr_partial : bytes;
  sr_first_clean_byte : option N;
  sr_release_clock : option N;
  sr_release_bytes : nat;
  sr_phase : Phase;
}.

Definition reservoir_new (c : StartupBufferConfig) (bitrate : option N) : StartupReservoir :=
  mkReservoir (r ← bitrate; if (0 <? r)%N then Some r else None) [] 0 clock_new [] None None 0
    (if (target_ms c =? 0)%N then Draining Disabled else Collecting).

(** Assignments. *)
Definition set_queue (q : list bytes) (n : nat) (r : StartupReservoir) : StartupReservoir :=
  mkReservoir (sr_bitrate r) q n (sr_clock r) (sr_partial r) (sr_first_clean_byte r) (sr_release_clock r)
    (sr_release_bytes r) (sr_phase r).
Definition set_partial (p : bytes) (r : StartupReservoir) : StartupReservoir :=
  mkReservoir (sr_bitrate r) (sr_queue r) (sr_queued_bytes r) (sr_clock r) p (sr_first_clean_byte r)
    (sr_release_clock r) (sr_release_bytes r) (sr_phase r).
Definition set_first_clean (t : option N) (r : StartupReservoir) : StartupReservoir :=
  mkReservoir (sr_bitrate r) (sr_queue r) (sr_queued_bytes r) (sr_clock r) (sr_partial r) t
    (sr_release_clock r) (sr_release_bytes r) (sr_phase r).
Definition set_phase (p : Phase) (r : StartupReservoir) : StartupReservoir :=
  mkReservoir (sr_bitrate r) (sr_queue r) (sr_queued_bytes r) (sr_clock r) (sr_partial r)
    (sr_first_clean_byte r) (sr_release_clock r) (sr_release_bytes r) p.

(** The clock across one packet, and whether the packet starts a new epoch. *)
Definition epoch_step (c : SelectedPcrClock) (t : TsTiming) : bool * SelectedPcrClock :=
  match observe c t with
  | (Reset, c') => (true, if discontinuity t then c' else (observe c' t).2)
  | (_, c') => (false, c')
  end.

Definition observe_timing (r : StartupReservoir) (t : TsTiming) : bool * StartupReservoir :=
  let '(fresh, c) := epoch_step (sr_clock r) t in
  if fresh then
    (true, mkReservoir (sr_bitrate r) (sr_queue r) (sr_queued_bytes r) c (sr_partial r) None None 0 (sr_phase r))
  else
    (false, mkReservoir (sr_bitrate r) (sr_queue r) (sr_queued_bytes r) c (sr_partial r) (sr_first_clean_byte r)
       (sr_release_clock r) (sr_release_bytes r) (sr_phase r)).

(** The loop over the complete packets of the chunk. *)
Fixpoint observe_packets (r : StartupReservoir) (packets : list bytes) (consumed : nat) (retain_from : option nat)
    : option nat * StartupReservoir :=
  match packets with
  | [] => (retain_from, r)
  | p :: ps =>
      let consumed := consumed + TS_PACKET_LEN in
      let '(fresh, r) := observe_timing r (ts_timing p) in
      observe_packets r ps consumed
        (if fresh then Some (sr_queued_bytes r + consumed - TS_PACKET_LEN) else retain_from)
  end.

Definition observe_rest (r : StartupReservoir) (l : bytes) (consumed : nat) (retain_from : option nat)
    : option nat * StartupReservoir :=
  let rest := drop consumed l in
  let packets := chunks_exact TS_PACKET_LEN rest in
  let '(retain_from, r) := observe_packets r packets consumed retain_from in
  (retain_from, set_partial (sr_partial r ++ drop (length packets * TS_PACKET_LEN) rest) r).

Definition observe_bytes (r : StartupReservoir) (l : bytes) : option nat * StartupReservoir :=
  if bool_decide (sr_partial r = []) then observe_rest r l 0 None
  else
    let fill := (TS_PACKET_LEN - length (sr_partial r)) `min` length l in
    let partial := sr_partial r ++ take fill l in
    if bool_decide (length partial < TS_PACKET_LEN) then (None, set_partial partial r)
    else
      let '(fresh, r) := observe_timing (set_partial [] r) (ts_timing partial) in
      observe_rest r l fill (if fresh then Some (sr_queued_bytes r + fill - TS_PACKET_LEN) else None).

(** [while discard > 0]: a turn removes a chunk or is the last; the fuel is the queue's length, and an
    empty queue with something left to discard would not end. *)
Fixpoint discard_loop (q : list bytes) (n discard : nat) : option (list bytes * nat) :=
  match discard with
  | 0 => Some (q, n)
  | S _ =>
      match q with
      | [] => None
      | front :: q =>
          if bool_decide (discard < length front) then Some (drop discard front :: q, n - discard)
          else discard_loop q (n - length front) (discard - length front)
      end
  end.

Definition discard_prefix (r : StartupReservoir) (retain_from : nat) (chunk : bytes)
    : option (StartupReservoir * bytes) :=
  if bool_decide (sr_queued_bytes r ≤ retain_from) then
    Some (set_queue [] 0 r, drop (retain_from - sr_queued_bytes r) chunk)
  else
    '(q, n) ← discard_loop (sr_queue r) (sr_queued_bytes r) retain_from;
    Some (set_queue q n r, chunk).

Definition sr_discontinuity (r : StartupReservoir) : StartupReservoir :=
  mkReservoir (sr_bitrate r) [] 0 clock_new [] None (sr_release_clock r) (sr_release_bytes r) (sr_phase r).

Section reservoir.
Context (cfg : StartupBufferConfig).

(** [duration() >= target()] while collecting, where nothing has been released yet. *)
Definition target_met (r : StartupReservoir) : bool :=
  let ticks := default 0%N (elapsed (sr_clock r)) in
  if (0 <? ticks)%N then clock_target cfg ticks
  else match sr_bitrate r with Some rate => rate_target cfg rate (sr_queued_bytes r) | None => false end.

Definition ready_reason (r : StartupReservoir) (now : N) : option ReleaseReason :=
  match sr_phase r with
  | Draining reason => Some reason
  | Collecting =>
      if target_met r then Some TargetDuration
      else match sr_first_clean_byte r with
           | Some start => if (timeout cfg <=? saturating_sub now start)%N then Some Deadline else None
           | None => None
           end
  | Released => None
  end.

Definition deadline (r : StartupReservoir) : option N :=
  match sr_phase r with
  | Collecting => (λ start, start + timeout cfg)%N <$> sr_first_clean_byte r
  | _ => None
  end.

Definition release (reason : ReleaseReason) (r : StartupReservoir) : StartupReservoir :=
  match sr_phase r with
  | Collecting =>
      mkReservoir (sr_bitrate r) (sr_queue r) (sr_queued_bytes r) (sr_clock r) (sr_partial r)
        (sr_first_clean_byte r) (elapsed (sr_clock r)) (sr_queued_bytes r) (Draining reason)
  | _ => r
  end.

Definition stamp (now : N) (r : StartupReservoir) : StartupReservoir :=
  match sr_first_clean_byte r with None => set_first_clean (Some now) r | Some _ => r end.

(** [push]; the two [Instant::now()] calls of one push are one reading. *)
Definition reservoir_push (r : StartupReservoir) (now : N) (chunk : bytes) : option (StartupReservoir * option ReleaseReason) :=
  match sr_phase r with
  | Draining reason => Some (r, Some reason)
  | Released => Some (r, None)
  | Collecting =>
      let '(retain_from, r) := observe_bytes (stamp now r) chunk in
      '(r, chunk) ← match retain_from with
                    | Some k => discard_prefix r k chunk
                    | None => Some (r, chunk)
                    end;
      let r := stamp now r in
      let crosses_cap := bool_decide (max_bytes cfg < sr_queued_bytes r + length chunk) in
      let r := set_queue (sr_queue r ++ [chunk]) (sr_queued_bytes r + length chunk) r in
      let reason := if crosses_cap then Some ByteLimit else ready_reason r now in
      Some (match reason with Some reason => release reason r | None => r end, reason)
  end.

Definition reservoir_pop (r : StartupReservoir) : option (bytes * StartupReservoir) :=
  match sr_queue r with
  | [] => None
  | chunk :: q => Some (chunk, set_queue q (sr_queued_bytes r - length chunk) r)
  end.

Definition finish_drain (r : StartupReservoir) : StartupReservoir :=
  match sr_phase r, sr_queue r with
  | Draining _, [] => set_phase Released r
  | _, _ => r
  end.
End reservoir.

(** ** The decorated source *)

(** What the [select!] of a turn sees: a chunk with the source's discontinuity flag, the end, or the
    timer. *)
Inductive SourceEvent : Type :=
  | SrcChunk (now : N) (data : bytes) (discontinuity : bool)
  | SrcEnd
  | SrcTimer (now : N).

Record StartupBufferedSource : Type := mkSource {
  sb_reservoir : StartupReservoir;
  sb_pending : bool;
  sb_released_discontinuity : bool;
  (** the flag the inner source holds for its last chunk *)
  sb_inner_discontinuity : bool;
}.

Definition source_new (c : StartupBufferConfig) (bitrate : option N) : StartupBufferedSource :=
  mkSource (reservoir_new c bitrate) false false false.

Section source.
Context (cfg : StartupBufferConfig).

(** [collect_next]; the timer fires only at a deadline that is set and has come. *)
Definition collect_next (s : StartupBufferedSource) (ev : SourceEvent) : option StartupBufferedSource :=
  let r := sb_reservoir s in
  match ev with
  | SrcTimer now =>
      match deadline cfg r with
      | Some d => if (d <=? now)%N
                  then Some (mkSource (release Deadline r) (sb_pending s) (sb_released_discontinuity s)
                               (sb_inner_discontinuity s))
                  else Some s
      | None => Some s
      end
  | SrcChunk now chunk disc =>
      let r := if disc then sr_discontinuity r else r in
      '(r, _) ← reservoir_push cfg r now chunk;
      Some (mkSource r (sb_pending s || disc) (sb_released_discontinuity s) false)
  | SrcEnd =>
      Some (mkSource (release EndOfStream r) (sb_pending s) (sb_released_discontinuity s)
              (sb_inner_discontinuity s))
  end.

(** [next]: [Some r] when the call returns [r], [None] when it waits for the source. *)
Fixpoint source_next (fuel : nat) (s : StartupBufferedSource) (evs : list SourceEvent)
    : option (option (option bytes) * StartupBufferedSource * list SourceEvent) :=
  match fuel with
  | 0 => None
  | S fuel =>
      let r := sb_reservoir s in
      match sr_phase r with
      | Collecting =>
          match evs with
          | [] => Some (None, s, [])
          | ev :: evs => s ← collect_next s ev; source_next fuel s evs
          end
      | Draining _ =>
          match reservoir_pop r with
          | Some (chunk, r) =>
              Some (Some (Some chunk), mkSource r false (sb_pending s) (sb_inner_discontinuity s), evs)
          | None =>
              source_next fuel (mkSource (finish_drain r) (sb_pending s) (sb_released_discontinuity s)
                                  (sb_inner_discontinuity s)) evs
          end
      | Released =>
          match evs with
          | [] => Some (None, s, [])
          | SrcChunk _ chunk disc :: evs =>
              Some (Some (Some chunk), mkSource r (sb_pending s) (sb_released_discontinuity s) disc, evs)
          | SrcEnd :: evs => Some (Some None, s, evs)
          | SrcTimer _ :: evs => source_next fuel s evs
          end
      end
  end.

Definition take_discontinuity (s : StartupBufferedSource) : bool * StartupBufferedSource :=
  match sr_phase (sb_reservoir s) with
  | Released => (sb_inner_discontinuity s,
                 mkSource (sb_reservoir s) (sb_pending s) (sb_released_discontinuity s) false)
  | _ => (sb_released_discontinuity s,
          mkSource (sb_reservoir s) (sb_pending s) false (sb_inner_discontinuity s))
  end.
End source.

(** A consumer: [n] calls of [next], each followed by [take_discontinuity], until the source has ended or
    has nothing more to say.  A call meets every event once and turns to [Released] once. *)
Fixpoint deliver (cfg : StartupBufferConfig) (n : nat) (s : StartupBufferedSource) (evs : list SourceEvent)
    : option (list (bytes * bool)) :=
  match n with
  | 0 => Some []
  | S n =>
      '(res, s, evs) ← source_next cfg (S (S (length evs))) s evs;
      match res with
      | Some (Some chunk) =>
          let '(flag, s) := take_discontinuity s in
          outs ← deliver cfg n s evs; Some ((chunk, flag) :: outs)
      | _ => Some []
      end
  end.

(** ** What the reservoir keeps *)

(** The clock across packets numbered from [i], and the number of the last one that started an epoch. *)
Fixpoint scan_epochs (c : SelectedPcrClock) (i : nat) (k : option nat) (ps : list bytes)
    : SelectedPcrClock * option nat :=
  match ps with
  | [] => (c, k)
  | p :: ps => let '(fresh, c) := epoch_step c (ts_timing p) in
               scan_epochs c (S i) (if fresh then Some i else k) ps
  end.

(** A stream from the packet that started its last clock epoch on. *)
Definition last_epoch (d : bytes) : bytes :=
  drop (TS_PACKET_LEN * default 0 (scan_epochs clock_new 0 None (chunks_exact TS_PACKET_LEN d)).2) d.

Lemma scan_epochs_app ps qs c i k :
  scan_epochs c i k (ps ++ qs) =
  let '(c', k') := scan_epochs c i k ps in scan_epochs c' (i + length ps) k' qs.
Proof.
  revert c i k. induction ps as [|p ps IH]; intros c i k; cbn [app scan_epochs length].
  - by rewrite Nat.add_0_r.
  - destruct (epoch_step c (ts_timing p)) as [fresh c']. rewrite IH.
    destruct (scan_epochs _ _ _ ps) as [c2 k2]. by rewrite <- Nat.add_succ_comm.
Qed.

(** The packets of the next part decide the epoch, or leave the one before. *)
Lemma scan_epochs_start ps c i k :
  scan_epochs c i k ps =
  ((scan_epochs c i None ps).1, match (scan_epochs c i None ps).2 with Some j => Some j | None => k end).
Proof.
  revert c i k. induction ps as [|p ps IH]; intros c i k; cbn [scan_epochs fst snd]; [done|].
  destruct (epoch_step c (ts_timing p)) as [[] c']; rewrite IH; [|done].
  cbn [fst snd]. by destruct (scan_epochs c' (S i) None ps) as [c2 [j|]].
Qed.

Lemma scan_epochs_range ps c i j : (scan_epochs c i None ps).2 = Some j → i ≤ j < i + length ps.
Proof.
  revert c i j. induction ps as [|p ps IH]; intros c i j; cbn [scan_epochs snd length]; [done|].
  destruct (epoch_step c (ts_timing p)) as [[] c'].
  - rewrite scan_epochs_start. cbn [snd]. destruct (scan_epochs c' (S i) None ps).2 as [j'|] eqn:E.
    + intros [= <-]. apply IH in E. lia.
    + intros [= <-]. lia.
  - intros E. apply IH in E. lia.
Qed.

(** An offset into the held bytes and the chunk, counted from packet [k0] of the stream, that is the
    start of packet [j]. *)
Definition offset_of (k0 : nat) (rf k : option nat) : Prop :=
  match rf, k with
  | Some a, Some j => a + TS_PACKET_LEN * k0 = TS_PACKET_LEN * j
  | None, None => True
  | _, _ => False
  end.

(** What an observation leaves as it is. *)
Definition same_held (r r' : StartupReservoir) : Prop :=
  sr_queue r' = sr_queue r ∧ sr_queued_bytes r' = sr_queued_bytes r ∧ sr_phase r' = sr_phase r ∧
  sr_bitrate r' = sr_bitrate r.

Lemma observe_timing_spec r t :
  let '(fresh, r') := observe_timing r t in
  (fresh, sr_clock r') = epoch_step (sr_clock r) t ∧ same_held r r' ∧ sr_partial r' = sr_partial r.
Proof. unfold observe_timing, same_held. by destruct (epoch_step (sr_clock r) t) as [[] c]. Qed.

Lemma observe_packets_spec ps r consumed rf k0 i k :
  offset_of k0 rf k → sr_queued_bytes r + consumed + TS_PACKET_LEN * k0 = TS_PACKET_LEN * i →
  let '(rf', r') := observe_packets r ps consumed rf in
  let '(c', k') := scan_epochs (sr_clock r) i k ps in
  sr_clock r' = c' ∧ offset_of k0 rf' k' ∧ same_held r r' ∧ sr_partial r' = sr_partial r.
Proof.
  revert r consumed rf i k. induction ps as [|p ps IH]; intros r consumed rf i k Ho Hb;
    cbn [observe_packets scan_epochs]; [by unfold same_held|].
  pose proof (observe_timing_spec r (ts_timing p)) as Ht. destruct (observe_timing r (ts_timing p)) as [fresh r1].
  destruct Ht as (<- & (Hq & Hn & Hp & Hbr) & Hpart).
  specialize (IH r1 (consumed + TS_PACKET_LEN)
    (if fresh then Some (sr_queued_bytes r1 + (consumed + TS_PACKET_LEN) - TS_PACKET_LEN) else rf) (S i)
    (if fresh then Some i else k)).
  destruct (observe_packets r1 ps _ _) as [rf' r']. destruct (scan_epochs _ (S i) _ ps) as [c' k'].
  destruct IH as (H1 & H2 & (H3 & H4 & H5 & H6) & H7).
  - destruct fresh; [|done]. cbn [offset_of]. rewrite Hn. lia.
  - rewrite Hn. lia.
  - unfold same_held. split_and!; congruence.
Qed.

Lemma chunks_exact_tail ps t : Forall is_packet ps → length t < TS_PACKET_LEN →
  chunks_exact TS_PACKET_LEN (concat ps ++ t) = ps.
Proof.
  intros Hps Ht. unfold chunks_exact.
  assert (H : ∀ fuel, length ps < fuel → chunks_exact_fuel fuel TS_PACKET_LEN (concat ps ++ t) = ps).
  2: { apply H. rewrite length_app, (length_concat_const ps TS_PACKET_LEN); [|done]. unfold TS_PACKET_LEN. lia. }
  induction Hps as [|p ps Hp Hps IH]; intros [|fuel] Hf; cbn [concat length] in *; try lia;
    cbn [chunks_exact_fuel].
  - rewrite decide_False; [done|]. rewrite app_nil_l. lia.
  - rewrite decide_True; [|rewrite !length_app, Hp; unfold TS_PACKET_LEN; lia].
    rewrite <- app_assoc, take_app_length', drop_app_length' by done. f_equal. apply IH. lia.
Qed.

Lemma observe_rest_spec r l consumed rf k0 i k qs t' :
  drop consumed l = concat qs ++ t' → Forall is_packet qs → length t' < TS_PACKET_LEN → sr_partial r = [] →
  offset_of k0 rf k → sr_queued_bytes r + consumed + TS_PACKET_LEN * k0 = TS_PACKET_LEN * i →
  let '(rf', r') := observe_rest r l consumed rf in
  let '(c', k') := scan_epochs (sr_clock r) i k qs in
  sr_clock r' = c' ∧ offset_of k0 rf' k' ∧ same_held r r' ∧ sr_partial r' = t'.
Proof.
  intros E Hq Ht Hp Ho Hb. unfold observe_rest. rewrite E, chunks_exact_tail by done.
  pose proof (observe_packets_spec qs r consumed rf k0 i k Ho Hb) as H.
  destruct (observe_packets r qs consumed rf) as [rf' r']. destruct (scan_epochs _ i k qs) as [c' k'].
  destruct H as (H1 & H2 & H3 & H4). split_and!; [done|done|done|]. cbn [set_partial sr_partial].
  rewrite H4, Hp, app_nil_l, drop_app_length'; [done|]. rewrite (length_concat_const qs TS_PACKET_LEN) by done. lia.
Qed.

Lemma observe_bytes_spec r l k0 i qs t' :
  sr_partial r ++ l = concat qs ++ t' → Forall is_packet qs → length t' < TS_PACKET_LEN →
  length (sr_partial r) < TS_PACKET_LEN → k0 ≤ i →
  sr_queued_bytes r + TS_PACKET_LEN * k0 = TS_PACKET_LEN * i + length (sr_partial r) →
  let '(rf', r') := observe_bytes r l in
  let '(c', k') := scan_epochs (sr_clock r) i None qs in
  sr_clock r' = c' ∧ offset_of k0 rf' k' ∧ same_held r r' ∧ sr_partial r' = t'.
Proof.
  intros E Hq Ht Hp Hk Hb. unfold observe_bytes. destruct (decide (sr_partial r = [])) as [Hn|Hn].
  { rewrite bool_decide_eq_true_2 by done. rewrite Hn in E, Hb. cbn [length app] in E, Hb.
    apply observe_rest_spec; try done. lia. }
  rewrite bool_decide_eq_false_2 by done. set (t := sr_partial r) in *.
  set (fill := _ `min` length l). assert (Hfill : length (t ++ take fill l) = length t + fill).
  { rewrite length_app, length_take. unfold fill. lia. }
  case_bool_decide as Hshort; rewrite Hfill in Hshort.
  - assert (Hf : fill = length l) by (unfold fill in *; lia).
    assert (Hl : length (t ++ l) < TS_PACKET_LEN) by (rewrite length_app; lia).
    assert (qs = []) as ->.
    { destruct Hq as [|q qs Hq _]; [done|]. apply (f_equal length) in E. cbn [concat] in E.
      rewrite !length_app, Hq in E. rewrite length_app in Hl. lia. }
    cbn [scan_epochs]. rewrite Hf, firstn_all. cbn [concat app] in E. by rewrite E.
  - assert (Hf : length t + fill = TS_PACKET_LEN) by (unfold fill in *; lia).
    destruct Hq as [|q qs Hq Hqs].
    { apply (f_equal length) in E. cbn [concat app] in E. rewrite length_app in E. unfold fill in *. lia. }
    rewrite <- (take_drop fill l), (app_assoc t) in E. cbn [concat] in E. rewrite <- (app_assoc q) in E.
    apply app_inj_1 in E as [<- E]; [|by rewrite Hq, Hfill].
    pose proof (observe_timing_spec (set_partial [] r) (ts_timing (t ++ take fill l))) as Ho.
    cbn [scan_epochs].
    destruct (observe_timing (set_partial [] r) (ts_timing (t ++ take fill l))) as [fresh r1].
    destruct Ho as (Hc & (H1 & H2 & H3 & H4) & H5).
    cbn [set_partial sr_clock sr_queue sr_queued_bytes sr_phase sr_bitrate sr_partial] in *. rewrite <- Hc.
    pose proof (observe_rest_spec r1 l fill
      (if fresh then Some (sr_queued_bytes r1 + fill - TS_PACKET_LEN) else None) k0 (S i)
      (if fresh then Some i else None) qs t' E Hqs Ht H5) as H.
    destruct (observe_rest _ _ _ _) as [rf' r']. destruct (scan_epochs _ (S i) _ qs) as [c' k'].
    destruct H as (G1 & G2 & (G3 & G4 & G5 & G6) & G7).
    + destruct fresh; [|done]. cbn [offset_of]. rewrite H2. nia.
    + rewrite H2. lia.
    + unfold same_held. split_and!; congruence.
Qed.

(** ** The reservoir invariant *)

(** The reservoir holds the last epoch of the bytes [d] pushed since the last flagged discontinuity. *)
Definition holds (r : StartupReservoir) (d : bytes) : Prop :=
  ∃ ps t, d = concat ps ++ t ∧ Forall is_packet ps ∧ length t < TS_PACKET_LEN ∧ sr_partial r = t ∧
    let '(c, k) := scan_epochs clock_new 0 None ps in
    sr_clock r = c ∧ concat (sr_queue r) = drop (TS_PACKET_LEN * default 0 k) d ∧
    sr_queued_bytes r = length (concat (sr_queue r)).

Lemma holds_epoch r d : holds r d → concat (sr_queue r) = last_epoch d.
Proof.
  intros (ps & t & -> & Hp & Ht & _ & H). unfold last_epoch. rewrite chunks_exact_tail by done.
  by destruct (scan_epochs clock_new 0 None ps) as [c k], H as (_ & -> & _).
Qed.

(** The loop ends, and drops exactly what it is asked to. *)
Lemma discard_loop_spec q n k : n = length (concat q) → k < n →
  ∃ q', discard_loop q n k = Some (q', length (concat q')) ∧ concat q' = drop k (concat q).
Proof.
  revert n k. induction q as [|x q IH]; intros n k -> Hk; cbn [concat] in *; [simpl in Hk; lia|].
  destruct k as [|k]; [by exists (x :: q)|]. cbn [discard_loop]. rewrite length_app in *.
  case_bool_decide as Hx.
  - exists (drop (S k) x :: q). cbn [concat]. split; [|by rewrite drop_app_le by lia].
    do 2 f_equal. rewrite length_app, length_drop. lia.
  - destruct (IH (length x + length (concat q) - length x) (S k - length x)) as (q' & -> & Hq); [lia|lia|].
    exists q'. split; [done|]. by rewrite drop_app_ge by lia.
Qed.

Lemma discard_prefix_spec r k chunk : sr_queued_bytes r = length (concat (sr_queue r)) →
  ∃ q chunk', discard_prefix r k chunk = Some (set_queue q (length (concat q)) r, chunk') ∧
    concat q ++ chunk' = drop k (concat (sr_queue r) ++ chunk).
Proof.
  intros Hn. unfold discard_prefix. case_bool_decide as Hk.
  - exists [], (drop (k - sr_queued_bytes r) chunk). split; [done|]. rewrite Hn in *.
    by rewrite drop_app_ge by lia.
  - destruct (discard_loop_spec (sr_queue r) (sr_queued_bytes r) k Hn) as (q & -> & Hq); [lia|].
    exists q, chunk. split; [done|]. by rewrite drop_app_le, Hq by lia.
Qed.

Lemma stamp_held now r : same_held r (stamp now r) ∧ sr_clock (stamp now r) = sr_clock r ∧
  sr_partial (stamp now r) = sr_partial r.
Proof. unfold stamp, same_held. by destruct (sr_first_clean_byte r). Qed.

Lemma stamp_some now r : ∃ start, sr_first_clean_byte (stamp now r) = Some start.
Proof. unfold stamp. destruct (sr_first_clean_byte r) as [t|] eqn:E; [by exists t|by exists now]. Qed.

Lemma holds_same r r' d : holds r d → sr_queue r' = sr_queue r → sr_queued_bytes r' = sr_queued_bytes r →
  sr_clock r' = sr_clock r → sr_partial r' = sr_partial r → holds r' d.
Proof. unfold holds. intros H -> -> -> ->. exact H. Qed.

Lemma release_held reason r : sr_phase r = Collecting →
  sr_queue (release reason r) = sr_queue r ∧ sr_queued_bytes (release reason r) = sr_queued_bytes r ∧
  sr_clock (release reason r) = sr_clock r ∧ sr_partial (release reason r) = sr_partial r ∧
  sr_phase (release reason r) = Draining reason.
Proof. unfold release. by intros ->. Qed.

(** The bytes of a push: the queue with the chunk is the last epoch of the stream so far. *)
Lemma queue_grows r d chunk : holds r d → let '(rf, r1) := observe_bytes r chunk in
  ∃ q chunk', match rf with Some k => discard_prefix r1 k chunk | None => Some (r1, chunk) end =
                Some (set_queue q (length (concat q)) r1, chunk') ∧
    ∀ r2, concat (sr_queue r2) = concat q ++ chunk' → sr_queued_bytes r2 = length (concat q) + length chunk' →
      sr_clock r2 = sr_clock r1 → sr_partial r2 = sr_partial r1 → holds r2 (d ++ chunk).
Proof.
  intros (ps & t & -> & Hp & Ht & Hpart & Hs).
  destruct (scan_epochs clock_new 0 None ps) as [c k] eqn:Es. destruct Hs as (Hc & Hq & Hn).
  assert (Hk : default 0 k ≤ length ps).
  { destruct k as [k|]; [|simpl; lia]. pose proof (scan_epochs_range ps clock_new 0 k ltac:(by rewrite Es)). simpl. lia. }
  destruct (chunks_split TS_PACKET_LEN (t ++ chunk)) as (qs & t' & E & Hqs & Ht'); [unfold TS_PACKET_LEN; lia|].
  pose proof (length_concat_const ps TS_PACKET_LEN Hp) as Hlen.
  pose proof (observe_bytes_spec r chunk (default 0 k) (length ps) qs t') as H. rewrite Hpart in H.
  specialize (H E Hqs Ht' Ht Hk). rewrite Hn, Hq, length_drop, length_app, Hlen in H. specialize (H ltac:(nia)).
  destruct (observe_bytes r chunk) as [rf r1].
  destruct (scan_epochs (sr_clock r) (length ps) None qs) as [c' k'] eqn:Es'.
  destruct H as (H1 & H2 & (H3 & H4 & _) & H5). rewrite Hc in Es'.
  assert (Hscan : scan_epochs clock_new 0 None (ps ++ qs) = (c', match k' with Some j => Some j | None => k end)).
  { rewrite scan_epochs_app, Es, scan_epochs_start. cbn [Nat.add]. by rewrite Es'. }
  assert (Hd : (concat ps ++ t) ++ chunk = concat (ps ++ qs) ++ t').
  { by rewrite <- app_assoc, E, concat_app, <- app_assoc. }
  assert (Hcat : concat (sr_queue r1) ++ chunk =
                 drop (TS_PACKET_LEN * default 0 k) ((concat ps ++ t) ++ chunk)).
  { rewrite H3, Hq. symmetry. apply drop_app_le. rewrite length_app, Hlen. nia. }
  assert (Hfin : ∀ q chunk' r2, concat (sr_queue r2) = concat q ++ chunk' →
    sr_queued_bytes r2 = length (concat q) + length chunk' → sr_clock r2 = sr_clock r1 →
    sr_partial r2 = sr_partial r1 →
    concat q ++ chunk' = drop (TS_PACKET_LEN * default 0 (match k' with Some j => Some j | None => k end))
      ((concat ps ++ t) ++ chunk) → holds r2 ((concat ps ++ t) ++ chunk)).
  { intros q chunk' r2 G1 G2 G3 G4 G5. exists (ps ++ qs), t'. rewrite Hscan.
    split_and!; [done|by apply Forall_app|done|congruence|congruence|congruence|].
    by rewrite G1, length_app, G2. }
  destruct rf as [a|], k' as [j|]; try done; cbn [offset_of] in H2.
  - destruct (discard_prefix_spec r1 a chunk) as (q & chunk' & -> & G); [congruence|].
    exists q, chunk'. split; [done|]. intros r2 G1 G2 G3 G4. apply (Hfin q chunk'); try done.
    rewrite G, Hcat, drop_drop. f_equal. unfold default, from_option, id in *. lia.
  - exists (sr_queue r1), chunk. split; [|intros; by apply (Hfin (sr_queue r1) chunk)].
    do 2 f_equal. destruct r1. unfold set_queue. simpl in *. congruence.
Qed.

Lemma observe_packets_phase ps r consumed rf : sr_phase (observe_packets r ps consumed rf).2 = sr_phase r.
Proof.
  revert r consumed rf. induction ps as [|p ps IH]; intros r consumed rf; [done|]. cbn [observe_packets].
  pose proof (observe_timing_spec r (ts_timing p)) as H. destruct (observe_timing r (ts_timing p)) as [fresh r1].
  rewrite IH. apply H.
Qed.

Lemma observe_bytes_phase r l : sr_phase (observe_bytes r l).2 = sr_phase r.
Proof.
  assert (Hrest : ∀ r n rf, sr_phase (observe_rest r l n rf).2 = sr_phase r).
  { intros r0 n rf. unfold observe_rest.
    pose proof (observe_packets_phase (chunks_exact TS_PACKET_LEN (drop n l)) r0 n rf) as H.
    by destruct (observe_packets _ _ _ _) as [rf' r']. }
  unfold observe_bytes. case_bool_decide; [apply Hrest|]. case_bool_decide; [done|].
  match goal with |- context[observe_timing ?a ?b] => pose proof (observe_timing_spec a b) as Ht; destruct (observe_timing a b) as [fresh r1] end.
  rewrite Hrest. apply Ht.
Qed.

Section delivery.
Context (cfg : StartupBufferConfig).

(** A reservoir that still collects at [now] is within its byte cap and before its deadline. *)
Definition within (r : StartupReservoir) (now : N) : Prop :=
  sr_queued_bytes r ≤ max_bytes cfg ∧ ∃ start, sr_first_clean_byte r = Some start ∧ (saturating_sub now start < timeout cfg)%N.

Lemma push_spec r d now chunk : sr_phase r = Collecting → holds r d →
  ∃ r' reason, reservoir_push cfg r now chunk = Some (r', reason) ∧ holds r' (d ++ chunk) ∧
    (sr_phase r' = Collecting ∧ within r' now ∨ ∃ x, sr_phase r' = Draining x).
Proof.
  intros Hp Hh. unfold reservoir_push. rewrite Hp. destruct (stamp_held now r) as ((S1 & S2 & S3 & S4) & S5 & S6).
  assert (Hh' : holds (stamp now r) d) by (by eapply holds_same).
  pose proof (queue_grows (stamp now r) d chunk Hh') as H.
  assert (Hph : ∀ l, sr_phase (observe_bytes (stamp now r) l).2 = Collecting).
  { intros l. rewrite <- Hp, <- S3. apply observe_bytes_phase. }
  specialize (Hph chunk). destruct (observe_bytes (stamp now r) chunk) as [rf r1].
  destruct H as (q & chunk' & -> & Hfin). cbn [mbind option_bind snd] in *.
  set (r2 := stamp now (set_queue q (length (concat q)) r1)).
  destruct (stamp_held now (set_queue q (length (concat q)) r1)) as ((T1 & T2 & T3 & T4) & T5 & T6).
  fold r2 in T1, T2, T3, T4, T5, T6. cbn [set_queue sr_queue sr_queued_bytes sr_phase sr_clock sr_partial] in *.
  set (r3 := set_queue (sr_queue r2 ++ [chunk']) (sr_queued_bytes r2 + length chunk') r2).
  assert (H3 : holds r3 (d ++ chunk)).
  { apply Hfin; cbn [set_queue r3 sr_queue sr_queued_bytes sr_clock sr_partial]; try congruence.
    rewrite concat_app. cbn [concat]. by rewrite app_nil_r, T1. }
  assert (P3 : sr_phase r3 = Collecting) by (cbn [set_queue r3 sr_phase]; congruence).
  assert (Hf : ∃ start, sr_first_clean_byte r3 = Some start).
  { exact (stamp_some now (set_queue q (length (concat q)) r1)). }
  destruct Hf as [start Hf].
  set (reason := if bool_decide _ then _ else _). exists (match reason with Some x => release x r3 | None => r3 end), reason.
  split; [done|]. destruct reason as [x|] eqn:Er.
  - destruct (release_held x r3 P3) as (R1 & R2 & R3 & R4 & R5). split; [by eapply holds_same|]. right. by exists x.
  - split; [done|]. left. split; [done|]. unfold reason in Er. case_bool_decide as Hcap; [done|].
    unfold ready_reason in Er. rewrite P3, Hf in Er. destruct (target_met cfg r3); [done|].
    destruct (N.leb_spec (timeout cfg) (saturating_sub now start)); [done|].
    split; [cbn [set_queue r3 sr_queued_bytes]; lia|]. by exists start.
Qed.

(** The bytes of the events after the last flagged discontinuity, and whether there was one. *)
Fixpoint pushed (d : bytes) (evs : list SourceEvent) : bytes :=
  match evs with
  | [] => d
  | SrcChunk _ c disc :: evs => pushed ((if disc then [] else d) ++ c) evs
  | _ :: evs => pushed d evs
  end.

Definition is_flagged (ev : SourceEvent) : bool := match ev with SrcChunk _ _ disc => disc | _ => false end.

(** What an undecorated source would deliver. *)
Fixpoint passthrough (evs : list SourceEvent) : list (bytes * bool) :=
  match evs with
  | [] | SrcEnd :: _ => []
  | SrcChunk _ c disc :: evs => (c, disc) :: passthrough evs
  | SrcTimer _ :: evs => passthrough evs
  end.

(** The first chunk carries the flag. *)
Definition mark_first (f : bool) (chunks : list bytes) : list (bytes * bool) :=
  match chunks with [] => [] | c :: cs => (c, f) :: ((λ c, (c, false)) <$> cs) end.

Lemma holds_discontinuity r : sr_phase r = Collecting → holds (sr_discontinuity r) [].
Proof. exists [], []. cbn. unfold TS_PACKET_LEN. split_and!; try done. lia. Qed.

Definition event_time (ev : SourceEvent) : option N :=
  match ev with SrcChunk now _ _ | SrcTimer now => Some now | SrcEnd => None end.

(** One turn of collecting. *)
Lemma collect_next_spec s d ev : sr_phase (sb_reservoir s) = Collecting → holds (sb_reservoir s) d →
  sr_queued_bytes (sb_reservoir s) ≤ max_bytes cfg →
  ∃ s', collect_next cfg s ev = Some s' ∧ holds (sb_reservoir s') (pushed d [ev]) ∧
    sb_pending s' = sb_pending s || is_flagged ev ∧ sb_released_discontinuity s' = sb_released_discontinuity s ∧
    (sr_phase (sb_reservoir s') = Collecting ∧ sr_queued_bytes (sb_reservoir s') ≤ max_bytes cfg ∧
       (∃ now, event_time ev = Some now ∧
          ∀ start, sr_first_clean_byte (sb_reservoir s') = Some start → (now < start + timeout cfg)%N) ∨
     ∃ x, sr_phase (sb_reservoir s') = Draining x).
Proof.
  intros Hp Hh Hm. destruct ev as [now chunk disc| |now]; cbn [collect_next pushed is_flagged event_time].
  - set (r := if disc then _ else _). set (d' := if disc then _ else _).
    destruct (push_spec r d' now chunk) as (r' & reason & -> & H1 & H2).
    { unfold r. by destruct disc. }
    { unfold r, d'. destruct disc; [by apply holds_discontinuity|done]. }
    eexists. split; [done|]. cbn [sb_reservoir sb_pending sb_released_discontinuity]. split_and!; try done.
    destruct H2 as [(H2 & H3 & start & H4 & H5)|H2]; [left|by right]. split_and!; try done. exists now.
    split; [done|]. intros start' H6. rewrite H4 in H6. injection H6 as <-. unfold saturating_sub in H5. lia.
  - eexists. split; [done|]. cbn [sb_reservoir sb_pending sb_released_discontinuity].
    destruct (release_held EndOfStream _ Hp) as (R1 & R2 & R3 & R4 & R5).
    split_and!; [by eapply holds_same|by rewrite orb_false_r|done|]. right. by eexists.
  - unfold deadline. rewrite Hp. destruct (sr_first_clean_byte (sb_reservoir s)) as [start|] eqn:Ef; cbn [fmap option_fmap option_map].
    + destruct (N.leb_spec (start + timeout cfg) now).
      * eexists. split; [done|]. cbn [sb_reservoir sb_pending sb_released_discontinuity].
        destruct (release_held Deadline _ Hp) as (R1 & R2 & R3 & R4 & R5).
        split_and!; [by eapply holds_same|by rewrite orb_false_r|done|]. right. by eexists.
      * exists s. split_and!; try done; [by rewrite orb_false_r|]. left. split_and!; try done. exists now.
        split; [done|]. intros start' H6. rewrite Ef in H6. injection H6 as <-. done.
    + exists s. split_and!; try done; [by rewrite orb_false_r|]. left. split_and!; try done. exists now.
      split; [done|]. intros start' H6. by rewrite Ef in H6.
Qed.

(** Collecting reads a prefix of the events. *)
Lemma collecting_reads evs s d : sr_phase (sb_reservoir s) = Collecting → holds (sb_reservoir s) d →
  sr_queued_bytes (sb_reservoir s) ≤ max_bytes cfg →
  ∃ c rest s', evs = c ++ rest ∧ (∀ fuel, source_next cfg (length c + fuel) s evs = source_next cfg fuel s' rest) ∧
    holds (sb_reservoir s') (pushed d c) ∧ sb_pending s' = sb_pending s || existsb is_flagged c ∧
    sb_released_discontinuity s' = sb_released_discontinuity s ∧
    (sr_phase (sb_reservoir s') = Collecting ∧ rest = [] ∧ SrcEnd ∉ c ∨ ∃ x, sr_phase (sb_reservoir s') = Draining x).
Proof.
  revert s d. induction evs as [|ev evs IH]; intros s d Hp Hh Hm.
  { exists [], [], s. split_and!; try done; [by rewrite orb_false_r|]. left. split_and!; try done. by apply not_elem_of_nil. }
  destruct (collect_next_spec s d ev Hp Hh Hm) as (s1 & E & H1 & H2 & H3 & [(H4 & H5 & now & H6 & _)|[x Hx]]).
  - destruct (IH s1 (pushed d [ev]) H4 H1 H5) as (c & rest & s' & -> & G1 & G2 & G3 & G4 & G5).
    exists (ev :: c), rest, s'. split_and!; try done.
    + intros fuel. cbn [length Nat.add source_next app]. rewrite Hp, E. cbn [mbind option_bind]. apply G1.
    + destruct ev; exact G2.
    + cbn [existsb]. by rewrite G3, H2, orb_assoc.
    + congruence.
    + destruct G5 as [(? & ? & G5)|?]; [left|by right]. split_and!; try done. apply not_elem_of_cons.
      split; [by intros <-|done].
  - exists [ev], evs, s1. split_and!; try done.
    + intros fuel. cbn [length Nat.add source_next]. by rewrite Hp, E.
    + cbn [existsb]. by rewrite orb_false_r.
    + right. by exists x.
Qed.

Definition drained (s : StartupBufferedSource) : Prop :=
  sr_phase (sb_reservoir s) = Released ∨
  (∃ x, sr_phase (sb_reservoir s) = Draining x) ∧ sr_queue (sb_reservoir s) = [].

(** A released source answers with the inner source's next chunk and flag. *)
Lemma released_next evs s fuel : length evs < fuel → sr_phase (sb_reservoir s) = Released →
  (∃ res rest, source_next cfg fuel s evs = Some (res, s, rest) ∧ (res = None ∨ res = Some None) ∧ passthrough evs = []) ∨
  (∃ c disc rest, length rest < length evs ∧ passthrough evs = (c, disc) :: passthrough rest ∧
     source_next cfg fuel s evs =
       Some (Some (Some c), mkSource (sb_reservoir s) (sb_pending s) (sb_released_discontinuity s) disc, rest)).
Proof.
  revert s fuel. induction evs as [|[now c disc| |now] evs IH]; intros s [|fuel] Hf Hp; cbn [length] in Hf; try lia;
    cbn [source_next passthrough]; rewrite Hp.
  - left. exists None, []. auto.
  - right. exists c, disc, evs. cbn [length]. split_and!; try done. lia.
  - left. exists (Some None), evs. auto.
  - destruct (IH s fuel) as [H|(c & disc & rest & H1 & H2 & H3)]; [lia|done|by left|].
    right. exists c, disc, rest. cbn [length]. split_and!; try done. lia.
Qed.

Lemma drained_next evs s : drained s →
  ∃ s' fuel, source_next cfg (S (S (length evs))) s evs = source_next cfg fuel s' evs ∧ length evs < fuel ∧
    sr_phase (sb_reservoir s') = Released.
Proof.
  intros [H|[[x H] Hq]]; [exists s, (S (S (length evs))); split_and!; auto with lia|].
  eexists _, (S (length evs)). split_and!; [|lia|].
  - cbn [source_next]. unfold reservoir_pop. rewrite H, Hq. reflexivity.
  - cbn [sb_reservoir]. unfold finish_drain. by rewrite H, Hq.
Qed.

Lemma released_passes n evs s : length evs < n → drained s → deliver cfg n s evs = Some (passthrough evs).
Proof.
  revert evs s. induction n as [|n IH]; intros evs s Hn Hs; [lia|]. cbn [deliver].
  destruct (drained_next evs s Hs) as (s' & fuel & -> & Hf & Hp).
  destruct (released_next evs s' fuel Hf Hp) as [(res & rest & -> & [-> | ->] & ->)|(c & disc & rest & Hr & -> & ->)];
    try done.
  cbn [mbind option_bind]. unfold take_discontinuity. cbn [sb_reservoir sb_inner_discontinuity]. rewrite Hp.
  rewrite IH; [done|lia|by left].
Qed.

(** Draining hands out the queue, the pending flag first. *)
Lemma draining_delivers q n evs s x : sr_phase (sb_reservoir s) = Draining x → sr_queue (sb_reservoir s) = q →
  length evs < n → deliver cfg (length q + n) s evs = Some (mark_first (sb_pending s) q ++ passthrough evs).
Proof.
  revert s. induction q as [|c q IH]; intros s Hp Hq Hn.
  { apply released_passes; [cbn [length]; lia|]. right. eauto. }
  cbn [length Nat.add deliver source_next]. rewrite Hp. unfold reservoir_pop. rewrite Hq. cbn [mbind option_bind].
  unfold take_discontinuity. cbn [sb_reservoir set_queue sr_phase]. rewrite Hp.
  cbn [sb_released_discontinuity sb_pending sb_inner_discontinuity sb_reservoir].
  rewrite IH by done. cbn [sb_pending mbind option_bind mark_first app]. do 3 f_equal. by destruct q.
Qed.

Lemma deliver_collecting c s s' evs rest m n : (∀ fuel, source_next cfg (length c + fuel) s evs = source_next cfg fuel s' rest) →
  evs = c ++ rest → m = S n →
  deliver cfg m s evs = deliver cfg m s' rest.
Proof.
  intros H -> ->. cbn [deliver]. rewrite length_app.
  replace (S (S (length c + length rest))) with (length c + S (S (length rest))) by lia. by rewrite H.
Qed.
End delivery.

(** The turns of [next] while the reservoir collects. *)
Fixpoint collect_run (cfg : StartupBufferConfig) (s : StartupBufferedSource) (evs : list SourceEvent)
    : option StartupBufferedSource :=
  match evs with
  | [] => Some s
  | ev :: evs => match sr_phase (sb_reservoir s) with
                 | Collecting => s ← collect_next cfg s ev; collect_run cfg s evs
                 | _ => Some s
                 end
  end.

Lemma source_new_holds cfg bitrate : holds (sb_reservoir (source_new cfg bitrate)) [].
Proof. exists [], []. cbn. unfold TS_PACKET_LEN. split_and!; try done. lia. Qed.

(** Every turn is defined; a source that still collects after one is bounded. *)
Lemma collect_run_spec cfg evs s d ev : holds (sb_reservoir s) d → sr_queued_bytes (sb_reservoir s) ≤ max_bytes cfg →
  ∃ s', collect_run cfg s (evs ++ [ev]) = Some s' ∧
    (sr_phase (sb_reservoir s') = Collecting → concat (sr_queue (sb_reservoir s')) = last_epoch (pushed d (evs ++ [ev])) ∧
       length (concat (sr_queue (sb_reservoir s'))) ≤ max_bytes cfg ∧
       ∃ now, event_time ev = Some now ∧
         ∀ start, sr_first_clean_byte (sb_reservoir s') = Some start → (now < start + timeout cfg)%N).
Proof.
  revert s d. induction evs as [|e evs IH]; intros s d Hh Hm; cbn [app collect_run].
  - destruct (sr_phase (sb_reservoir s)) eqn:Hp; [|by eexists; split; [done|congruence]..].
    destruct (collect_next_spec cfg s d ev Hp Hh Hm) as (s' & -> & H1 & _ & _ & H2). exists s'. split; [done|].
    intros Hc. destruct H2 as [(_ & H2 & H3)|[x H2]]; [|congruence]. pose proof (holds_epoch _ _ H1) as He.
    split_and!; [by destruct ev| |done]. destruct H1 as (ps & t & _ & _ & _ & _ & H1).
    destruct (scan_epochs clock_new 0 None ps) as [c k], H1 as (_ & _ & <-). done.
  - destruct (sr_phase (sb_reservoir s)) eqn:Hp; [|by eexists; split; [done|congruence]..].
    destruct (collect_next_spec cfg s d e Hp Hh Hm) as (s1 & -> & H1 & _ & _ & H2).
    cbn [mbind option_bind]. destruct H2 as [(_ & H2 & _)|[x H2]].
    + destruct (IH s1 _ H1 H2) as (s' & -> & H). exists s'. split; [done|].
      assert (pushed (pushed d [e]) (evs ++ [ev]) = pushed d (e :: evs ++ [ev])) as <- by (by destruct e). exact H.
    + exists s1. split; [|congruence]. destruct evs; cbn [app collect_run]; by rewrite H2.
Qed.

(** The startup buffer never holds more than its byte cap and never past its deadline: whatever chunks, flagged discontinuities and timer ticks arrive, and however the chunks cut the transport packets, every turn ends (the loop that drops a superseded prefix never runs out of queue), and a source that still collects after an event holds exactly the last clock epoch of what came since the last flagged discontinuity, in at most the configured number of bytes, at a time before the deadline of its first byte. *)
Theorem startup_collection_bounded (cfg : StartupBufferConfig) (bitrate : option N) (evs : list SourceEvent)
    (ev : SourceEvent) :
  ∃ s, collect_run cfg (source_new cfg bitrate) (evs ++ [ev]) = Some s ∧
    (sr_phase (sb_reservoir s) = Collecting →
     concat (sr_queue (sb_reservoir s)) = last_epoch (pushed [] (evs ++ [ev])) ∧
     length (concat (sr_queue (sb_reservoir s))) ≤ max_bytes cfg ∧
     ∃ now, event_time ev = Some now ∧
       ∀ start, sr_first_clean_byte (sb_reservoir s) = Some start → (now < start + timeout cfg)%N).
Proof.
  apply collect_run_spec; [apply source_new_holds|]. cbn. lia.
Qed.

(** C21: A buffered source releases the last clock epoch and then steps aside: on a stream that ends, a consumer receives the bytes from the last packet that restarted the program clock (since the last flagged discontinuity) of the prefix that was collected, the first of those chunks flagged exactly when a discontinuity was collected, and after them every later chunk unchanged with its own flag. What is kept depends on the bytes and not on how they were cut into chunks. *)
Theorem startup_release_lossless (cfg : StartupBufferConfig) (bitrate : option N) (evs : list SourceEvent) :
  SrcEnd ∈ evs →
  ∃ collected rest chunks, evs = collected ++ rest ∧ concat chunks = last_epoch (pushed [] collected) ∧
    ∃ calls, ∀ n, calls ≤ n → deliver cfg n (source_new cfg bitrate) evs =
      Some (mark_first (existsb is_flagged collected) chunks ++ passthrough rest).
Proof.
  intros Hend. set (s := source_new cfg bitrate).
  assert (Hd : ∀ s' collected rest, evs = collected ++ rest →
    (∀ fuel, source_next cfg (length collected + fuel) s evs = source_next cfg fuel s' rest) →
    (∃ x, sr_phase (sb_reservoir s') = Draining x) → sb_pending s' = existsb is_flagged collected →
    ∃ calls, ∀ n, calls ≤ n → deliver cfg n s evs =
      Some (mark_first (existsb is_flagged collected) (sr_queue (sb_reservoir s')) ++ passthrough rest)).
  { intros s' collected rest E H [x Hx] <-. exists (S (length (sr_queue (sb_reservoir s')) + length rest)).
    intros n Hn. rewrite (deliver_collecting cfg collected s s' evs rest n (n - 1)); [|done|done|lia].
    replace n with (length (sr_queue (sb_reservoir s')) + (n - length (sr_queue (sb_reservoir s')))) by lia.
    by apply (draining_delivers cfg _ _ _ _ x); [| |lia]. }
  destruct (target_ms cfg =? 0)%N eqn:Et.
  - exists [], evs, []. split_and!; [done|reflexivity|].
    apply (Hd s); [done|done| |done]. exists Disabled. cbn. by rewrite Et.
  - destruct (collecting_reads cfg evs s []) as (c & rest & s' & E & H1 & H2 & H3 & _ & H4).
    + cbn. by rewrite Et.
    + apply source_new_holds.
    + cbn. lia.
    + exists c, rest, (sr_queue (sb_reservoir s')). destruct H4 as [(_ & -> & Hno)|H4].
      { rewrite app_nil_r in E. by subst. }
      split_and!; [done|by apply holds_epoch|]. by apply (Hd s').
Qed.

(** A packet with a program clock reference, flagged as a discontinuity or not. *)
Definition pcr_packet (flags : N) (v : N) : bytes :=
  map N_byte [0x47; 0x01; 0x00; 0x20; 183; flags; 0; 0; 0; v; 0x7E; 0]%N ++ replicate 176 xff.

Definition sample_config : StartupBufferConfig :=
  mkStartup 1000 5000 4096 (λ ticks, 90000 <=? ticks)%N (λ rate n, rate <=? N.of_nat n)%N.

(** Three packets in two chunks that cut the second, which restarts the clock. *)
Definition sample_events : list SourceEvent :=
  let d := pcr_packet 0x10 1 ++ pcr_packet 0x90 9 ++ pcr_packet 0x10 12 in
  [SrcChunk 10 (take 250 d) false; SrcTimer 20; SrcChunk 30 (drop 250 d) false].

Lemma startup_collection_bounded_witness :
  ∃ s, collect_run sample_config (source_new sample_config None) sample_events = Some s ∧
    sr_phase (sb_reservoir s) = Collecting ∧
    concat (sr_queue (sb_reservoir s)) = pcr_packet 0x90 9 ++ pcr_packet 0x10 12 ∧
    length (concat (sr_queue (sb_reservoir s))) ≤ 4096.
Proof.
  destruct (startup_collection_bounded sample_config None (take 2 sample_events)
              (SrcChunk 30 (drop 250 (pcr_packet 0x10 1 ++ pcr_packet 0x90 9 ++ pcr_packet 0x10 12)) false))
    as (s & E & H).
  exists s. split; [exact E|].
  assert (Hp : (λ s, sr_phase (sb_reservoir s)) <$> Some s = Some Collecting) by (rewrite <- E; vm_compute; reflexivity).
  injection Hp as Hp. destruct (H Hp) as (H1 & H2 & _). split_and!; [exact Hp| |exact H2].
  rewrite H1. vm_compute. reflexivity.
Defined.

Lemma startup_release_lossless_witness :
  (let d := pcr_packet 0x90 9 ++ pcr_packet 0x10 12 in
   deliver sample_config 6 (source_new sample_config None) (sample_events ++ [SrcEnd; SrcEnd]) =
   Some [(take 62 d, false); (drop 62 d, false)]) ∧
  ∃ calls, ∀ n, calls ≤ n →
    deliver sample_config n (source_new sample_config None) (sample_events ++ [SrcEnd; SrcEnd]) =
    deliver sample_config calls (source_new sample_config None) (sample_events ++ [SrcEnd; SrcEnd]).
Proof.
  split; [vm_compute; reflexivity|].
  destruct (startup_release_lossless sample_config None (sample_events ++ [SrcEnd; SrcEnd]))
    as (collected & rest & chunks & _ & _ & calls & H).
  - apply elem_of_app. right. by left.
  - exists calls. intros n Hn. rewrite (H n Hn), (H calls (le_n calls)). reflexivity.
Defined.
