(* ===== verification/Lifecycle.v ===== *)
(** * Generations, intents and admission

    The small synchronous states of the engine that the stream manager composes:
    [HlsLifecycleState] of [ace-engine/src/manager.rs] (the generations of starts that are pending and
    the ones a stop has cancelled), [SupportIntent] and its control ([support_control.rs]), the
    admission counter ([admission.rs]) and the kinds of a failed start ([start_failure.rs]).  A counter
    is a [u64] or [usize]; where the source expects a checked addition to succeed the operation returns
    [None] at the end of the range. *)

From S2P Require Import Prelude Resolve.

(** [(network, id)] *)
Definition StreamKey : Type := bytes * bytes.

(** ** Generations of starts *)

Record HlsLifecycleState : Type := mkLifecycle {
  next_generation : N;
  pending : gmap StreamKey (gset N);
  cancelled : gset (StreamKey * N);
}.

Definition lifecycle_default : HlsLifecycleState := mkLifecycle 0 ∅ ∅.

(** The generations pending for a key. *)
Definition pending_of (l : HlsLifecycleState) (key : StreamKey) : gset N := default ∅ (pending l !! key).

(** [HlsTransition::begin]: the new generation. *)
Definition transition_begin (l : HlsLifecycleState) (key : StreamKey) : option (N * HlsLifecycleState) :=
  g ← checked_add (next_generation l) 1;
  Some (g, mkLifecycle g (<[key := {[g]} ∪ pending_of l key]> (pending l)) (cancelled l)).

Definition is_cancelled (l : HlsLifecycleState) (key : StreamKey) (g : N) : bool :=
  bool_decide ((key, g) ∈ cancelled l).

(** [HlsLifecycleState::finish]: whether the generation was cancelled. *)
Definition lifecycle_finish (l : HlsLifecycleState) (key : StreamKey) (g : N) : bool * HlsLifecycleState :=
  let c := is_cancelled l key g in
  let cs := cancelled l ∖ {[ (key, g) ]} in
  match pending l !! key with
  | None => (c, mkLifecycle (next_generation l) (pending l) cs)
  | Some gs =>
      let gs := gs ∖ {[g]} in
      (c, mkLifecycle (next_generation l)
            (if bool_decide (gs = ∅) then delete key (pending l) else <[key := gs]> (pending l)) cs)
  end.

(** A stop cancels the pending generations of its key. *)
Definition cancel_pending (l : HlsLifecycleState) (key : StreamKey) : HlsLifecycleState :=
  mkLifecycle (next_generation l) (pending l)
    (set_map (λ g, (key, g)) (pending_of l key) ∪ cancelled l).

(** ** Support intents *)

Record SupportIntent : Type := mkIntent { epoch : N; running : bool }.

Definition intent_new : SupportIntent := mkIntent 1 true.

Definition restart_if_epoch (i : SupportIntent) (expected : N) : option SupportIntent :=
  if negb (epoch i =? expected)%N || negb (running i) then Some i
  else e ← checked_add (epoch i) 1; Some (mkIntent e (running i)).

Definition set_running (i : SupportIntent) (run : bool) : option SupportIntent :=
  if Bool.eqb (running i) run then Some i
  else e ← checked_add (epoch i) 1; Some (mkIntent e run).

(** [SupportAttempt::current] *)
Definition attempt_current (i : SupportIntent) (e : N) : bool := running i && (epoch i =? e)%N.

(** ** Admission *)

Record Admission : Type := mkAdmission { occupied : N; adm_max : option N }.

Definition admission_new (max : N) : Admission :=
  mkAdmission 0 (if (max =? 0)%N then None else Some max).

(** [None] is [CapacityExhausted]. *)
Definition reserve (a : Admission) : option Admission :=
  if match adm_max a with Some max => (max <=? occupied a)%N | None => false end then None
  else n ← checked_add (occupied a) 1; Some (mkAdmission n (adm_max a)).

(** The drop of a [Reservation]: [fetch_sub] wraps. *)
Definition unreserve (a : Admission) : Admission :=
  mkAdmission (if (occupied a =? 0)%N then u64_max else occupied a - 1)%N (adm_max a).

(** ** Failed starts *)

Inductive StartFailureKind : Type :=
  | Resolution (kind : ResolveFailureKind)
  | Capacity
  | Cooldown
  | Discovery
  | Cancelled
  | CleanupUnconfirmed
  | Unclassified.

Definition retryable (k : StartFailureKind) : bool :=
  match k with
  | Capacity | Cooldown | Discovery | Unclassified => true
  | Resolution k => match k with
                    | KNetwork | KRejectedMetadata | KUnclassified => true
                    | _ => false
                    end
  | Cancelled | CleanupUnconfirmed => false
  end.

(** ** Lemmas on generations *)

Lemma pending_of_insert l key gs key' :
  default ∅ (<[key := gs]> (pending l) !! key') = if decide (key = key') then gs else pending_of l key'.
Proof. destruct (decide (key = key')) as [<-|H]; [by rewrite lookup_insert_eq|by rewrite lookup_insert_ne]. Qed.

Lemma begin_spec l key g l' : transition_begin l key = Some (g, l') →
  g = (next_generation l + 1)%N ∧ next_generation l' = g ∧ cancelled l' = cancelled l ∧
  ∀ key', pending_of l' key' = if decide (key = key') then {[g]} ∪ pending_of l key else pending_of l key'.
Proof.
  unfold transition_begin. intros H. apply bind_Some in H as (g' & Hg & [= <- <-]).
  apply checked_add_Some in Hg as [-> _]. split_and!; try done. intros key'. apply pending_of_insert.
Qed.

Lemma finish_spec l key g : let '(c, l') := lifecycle_finish l key g in
  c = is_cancelled l key g ∧ next_generation l' = next_generation l ∧
  cancelled l' = cancelled l ∖ {[ (key, g) ]} ∧
  (∀ key', pending_of l' key' = if decide (key = key') then pending_of l key ∖ {[g]} else pending_of l key') ∧
  dom (pending l') ⊆ dom (pending l).
Proof.
  unfold lifecycle_finish, pending_of. destruct (pending l !! key) as [gs|] eqn:E; simpl.
  - split_and!; try done.
    + intros key'. case_bool_decide as Hg; destruct (decide (key = key')) as [<-|Hk].
      * by rewrite lookup_delete_eq, Hg.
      * by rewrite lookup_delete_ne.
      * by rewrite lookup_insert_eq.
      * by rewrite lookup_insert_ne.
    + case_bool_decide; [rewrite dom_delete; set_solver|]. rewrite dom_insert.
      apply elem_of_dom_2 in E. set_solver.
  - split_and!; try done. intros key'. destruct (decide (key = key')) as [<-|Hk]; [|done].
    rewrite E. simpl. set_solver.
Qed.

Lemma pending_of_dom l key g : g ∈ pending_of l key → key ∈ dom (pending l).
Proof.
  unfold pending_of. destruct (pending l !! key) as [gs|] eqn:E; [|set_solver].
  intros _. by apply elem_of_dom_2 in E.
Qed.

Lemma cancel_pending_spec l key g : (key, g) ∈ cancelled (cancel_pending l key) ↔
  g ∈ pending_of l key ∨ (key, g) ∈ cancelled l.
Proof. unfold cancel_pending. cbn [cancelled]. rewrite elem_of_union, elem_of_map. naive_solver. Qed.

Lemma cancel_pending_mono l key x : x ∈ cancelled l → x ∈ cancelled (cancel_pending l key).
Proof. unfold cancel_pending. cbn [cancelled]. set_solver. Qed.
