(* ===== verification/Manager.v ===== *)
(** * The stream manager

    [StreamManager] of [ace-engine/src/manager.rs]: one shared session per [(network, id)], the HLS
    packager in front of it, and the starts, stops, support releases, reaping and shutdown that compete
    for them.  Everything the source does between two points where a task can be suspended is one step;
    the steps of different tasks interleave in any order.  A task inside the finalization mutex is the
    content of [m_fin], which says what it does next; the session and packager maps are locked only
    inside a step.  The per-key start mutex is [m_locks].  Providers, the pump of a session
    ([session.rs]) and the HLS worker are events: an open succeeds or fails, a session or a packager
    worker finishes with or without confirmed cleanup.  Subscriptions and support pins are handles in
    the set of their session, so the source's two counters are the sizes of the sets.

    Resolved on-demand content shares the admission counter and the finalization mutex: [m_vods] holds the cache,
    the calls of [resolve_vod] and, for each content, how many handles and ranges outside the cache keep it.

    Not modelled: the coordinator task that owns the joins (a completion is pending, confirmed or failed), the
    caller of a stop, release or shutdown that is dropped while it is inside the mutex, metadata and statistics. *)

From S2P Require Import Prelude Resolve Lifecycle.

(** ** Data *)

(** What a [watch::Receiver<bool>] of a worker shows: false with a live sender, true, or closed. *)
Inductive CompletionState : Type := Pending | Confirmed | Failed.
#[export] Instance completion_state_dec : EqDecision CompletionState.
Proof. solve_decision. Defined.

(** The worker a completion belongs to. *)
Inductive Completion : Type := OfSession (sid : N) | OfPackager (pid : N).
#[export] Instance completion_dec : EqDecision Completion.
Proof. solve_decision. Defined.

Record Session : Type := mkSession {
  s_key : StreamKey;
  s_subs : gset N;
  s_pins : gset N;
  s_cancel : bool;
  s_done : CompletionState;
}.

(** [HlsEntry]: the session the packager was created for, its last native access, its state. *)
Record Packager : Type := mkPackager {
  p_session : N;
  p_access : option N;
  p_stopped : bool;
  p_done : CompletionState;
}.

(** What the initializer acquires for its caller. *)
Inductive Acquire : Type :=
  | AcqSession
  | AcqSubscribe
  | AcqSupport
  | AcqDeclared (control : N) (attempt : N)
  | AcqHls (native : bool).

Inductive Grant : Type :=
  | GSession (sid : N)
  | GViewer (sid handle : N)
  | GPin (sid handle : N)
  | GHls (pid sid handle : N).

(** Where an initializer is.  [POpened src] has an opened source, or none because a session was there. *)
Inductive Pc : Type :=
  | PCheck
  | PLook
  | PWait
  | PLocked
  | POpen
  | POpened (src : bool)
  | PFinal
  | PDispose
  | PDone (res : result StartFailureKind Grant).

Record Init : Type := mkInit {
  i_key : StreamKey;
  i_kind : Acquire;
  i_gen : N;
  i_active : bool;
  i_cancel : bool;
  i_pc : Pc;
}.

(** The task inside the finalization mutex. *)
Inductive FinOp : Type :=
  | FinPublish (iid sid : N)
  | FinHls (iid : N) (src : bool)
  | FinHlsPkg (iid sid handle : N)
  | FinStop1 (tid : N) (key : StreamKey)
  | FinStop2 (tid : N) (key : StreamKey) (entry : option N)
  | FinReap1 (now : N) (pend : gset StreamKey)
  | FinReap2 (pend active : gset StreamKey)
  | FinReap3 (retained : gset StreamKey)
  | FinRelease1 (tid : N) (key : StreamKey) (sid now : N) (pend : bool)
  | FinRelease2 (tid : N) (key : StreamKey) (sid : N) (pend active : bool)
  | FinShut1
  | FinShut2
  | FinShut3
  | FinVod (vid : N).

(** A caller that waits for completions, and what it answers when they are confirmed. *)
Record Wait : Type := mkWait {
  w_key : StreamKey;
  w_for : list Completion;
  w_ok : bool;
}.

Record Control : Type := mkControl {
  c_key : StreamKey;
  c_intent : SupportIntent;
  c_owned : bool;
}.

(** A call of [resolve_vod]. *)
Inductive VodPc : Type := VCheck | VLook | VWait | VLocked | VOpen | VOpened | VFinal.
Record VodTask : Type := mkVodTask { v_key : StreamKey; v_pc : VodPc }.

(** [vod_cache] (content and last access), the contents with the number of handles and ranges that hold them
    besides the cache, the calls, and who holds each key's resolve lock. *)
Record Vods : Type := mkVods {
  v_cache : gmap StreamKey (N * N);
  v_contents : gmap N nat;
  v_tasks : gmap N VodTask;
  v_locks : gmap StreamKey N;
  v_next : N;
}.

Record Manager : Type := mkManager {
  m_sessions : gmap StreamKey N;
  m_all : gmap N Session;
  m_packagers : gmap StreamKey N;
  m_pkgs : gmap N Packager;
  m_lifecycle : HlsLifecycleState;
  m_locks : gmap StreamKey N;
  m_fin : option FinOp;
  m_inits : gmap N Init;
  m_adm : Admission;
  m_stopping : gmap StreamKey (list Completion);
  m_failed : bool;
  m_failed_sources : nat;
  m_shut : bool;
  m_controls : gmap N Control;
  m_registered : list N;
  m_waits : gmap N Wait;
  m_next : N;
  m_vods : Vods;
}.

(** Assignments. *)
Definition set_sessions (v : gmap StreamKey N) (m : Manager) : Manager :=
  mkManager v (m_all m) (m_packagers m) (m_pkgs m) (m_lifecycle m) (m_locks m) (m_fin m) (m_inits m) (m_adm m) 
    (m_stopping m) (m_failed m) (m_failed_sources m) (m_shut m) (m_controls m) (m_registered m) (m_waits m) 
    (m_next m) (m_vods m).
Definition set_all (v : gmap N Session) (m : Manager) : Manager :=
  mkManager (m_sessions m) v (m_packagers m) (m_pkgs m) (m_lifecycle m) (m_locks m) (m_fin m) (m_inits m) 
    (m_adm m) (m_stopping m) (m_failed m) (m_failed_sources m) (m_shut m) (m_controls m) (m_registered m) 
    (m_waits m) (m_next m) (m_vods m).
Definition set_packagers (v : gmap StreamKey N) (m : Manager) : Manager :=
  mkManager (m_sessions m) (m_all m) v (m_pkgs m) (m_lifecycle m) (m_locks m) (m_fin m) (m_inits m) (m_adm m) 
    (m_stopping m) (m_failed m) (m_failed_sources m) (m_shut m) (m_controls m) (m_registered m) (m_waits m) 
    (m_next m) (m_vods m).
Definition set_pkgs (v : gmap N Packager) (m : Manager) : Manager :=
  mkManager (m_sessions m) (m_all m) (m_packagers m) v (m_lifecycle m) (m_locks m) (m_fin m) (m_inits m) 
    (m_adm m) (m_stopping m) (m_failed m) (m_failed_sources m) (m_shut m) (m_controls m) (m_registered m) 
    (m_waits m) (m_next m) (m_vods m).
Definition set_lifecycle (v : HlsLifecycleState) (m : Manager) : Manager :=
  mkManager (m_sessions m) (m_all m) (m_packagers m) (m_pkgs m) v (m_locks m) (m_fin m) (m_inits m) (m_adm m) 
    (m_stopping m) (m_failed m) (m_failed_sources m) (m_shut m) (m_controls m) (m_registered m) (m_waits m) 
    (m_next m) (m_vods m).
Definition set_locks (v : gmap StreamKey N) (m : Manager) : Manager :=
  mkManager (m_sessions m) (m_all m) (m_packagers m) (m_pkgs m) (m_lifecycle m) v (m_fin m) (m_inits m) 
    (m_adm m) (m_stopping m) (m_failed m) (m_failed_sources m) (m_shut m) (m_controls m) (m_registered m) 
    (m_waits m) (m_next m) (m_vods m).
Definition set_fin (v : option FinOp) (m : Manager) : Manager :=
  mkManager (m_sessions m) (m_all m) (m_packagers m) (m_pkgs m) (m_lifecycle m) (m_locks m) v (m_inits m) 
    (m_adm m) (m_stopping m) (m_failed m) (m_failed_sources m) (m_shut m) (m_controls m) (m_registered m) 
    (m_waits m) (m_next m) (m_vods m).
Definition set_inits (v : gmap N Init) (m : Manager) : Manager :=
  mkManager (m_sessions m) (m_all m) (m_packagers m) (m_pkgs m) (m_lifecycle m) (m_locks m) (m_fin m) v 
    (m_adm m) (m_stopping m) (m_failed m) (m_failed_sources m) (m_shut m) (m_controls m) (m_registered m) 
    (m_waits m) (m_next m) (m_vods m).
Definition set_adm (v : Admission) (m : Manager) : Manager :=
  mkManager (m_sessions m) (m_all m) (m_packagers m) (m_pkgs m) (m_lifecycle m) (m_locks m) (m_fin m) 
    (m_inits m) v (m_stopping m) (m_failed m) (m_failed_sources m) (m_shut m) (m_controls m) (m_registered m) 
    (m_waits m) (m_next m) (m_vods m).
Definition set_stopping (v : gmap StreamKey (list Completion)) (m : Manager) : Manager :=
  mkManager (m_sessions m) (m_all m) (m_packagers m) (m_pkgs m) (m_lifecycle m) (m_locks m) (m_fin m) 
    (m_inits m) (m_adm m) v (m_failed m) (m_failed_sources m) (m_shut m) (m_controls m) (m_registered m) 
    (m_waits m) (m_next m) (m_vods m).
Definition set_controls (v : gmap N Control) (m : Manager) : Manager :=
  mkManager (m_sessions m) (m_all m) (m_packagers m) (m_pkgs m) (m_lifecycle m) (m_locks m) (m_fin m) 
    (m_inits m) (m_adm m) (m_stopping m) (m_failed m) (m_failed_sources m) (m_shut m) v (m_registered m) 
    (m_waits m) (m_next m) (m_vods m).
Definition set_registered (v : list N) (m : Manager) : Manager :=
  mkManager (m_sessions m) (m_all m) (m_packagers m) (m_pkgs m) (m_lifecycle m) (m_locks m) (m_fin m) 
    (m_inits m) (m_adm m) (m_stopping m) (m_failed m) (m_failed_sources m) (m_shut m) (m_controls m) v 
    (m_waits m) (m_next m) (m_vods m).
Definition set_waits (v : gmap N Wait) (m : Manager) : Manager :=
  mkManager (m_sessions m) (m_all m) (m_packagers m) (m_pkgs m) (m_lifecycle m) (m_locks m) (m_fin m) 
    (m_inits m) (m_adm m) (m_stopping m) (m_failed m) (m_failed_sources m) (m_shut m) (m_controls m) 
    (m_registered m) v (m_next m) (m_vods m).
Definition note_failed (m : Manager) : Manager :=
  mkManager (m_sessions m) (m_all m) (m_packagers m) (m_pkgs m) (m_lifecycle m) (m_locks m) (m_fin m) 
    (m_inits m) (m_adm m) (m_stopping m) true (m_failed_sources m) (m_shut m) (m_controls m) (m_registered m) 
    (m_waits m) (m_next m) (m_vods m).
Definition keep_failed_source (m : Manager) : Manager :=
  mkManager (m_sessions m) (m_all m) (m_packagers m) (m_pkgs m) (m_lifecycle m) (m_locks m) (m_fin m) 
    (m_inits m) (m_adm m) (m_stopping m) (m_failed m) (S (m_failed_sources m)) (m_shut m) (m_controls m) 
    (m_registered m) (m_waits m) (m_next m) (m_vods m).
Definition set_shut (m : Manager) : Manager :=
  mkManager (m_sessions m) (m_all m) (m_packagers m) (m_pkgs m) (m_lifecycle m) (m_locks m) (m_fin m) 
    (m_inits m) (m_adm m) (m_stopping m) (m_failed m) (m_failed_sources m) true (m_controls m) (m_registered m) 
    (m_waits m) (m_next m) (m_vods m).
Definition bump_next (m : Manager) : Manager :=
  mkManager (m_sessions m) (m_all m) (m_packagers m) (m_pkgs m) (m_lifecycle m) (m_locks m) (m_fin m) 
    (m_inits m) (m_adm m) (m_stopping m) (m_failed m) (m_failed_sources m) (m_shut m) (m_controls m) 
    (m_registered m) (m_waits m) (m_next m + 1)%N (m_vods m).
Definition set_vods (v : Vods) (m : Manager) : Manager :=
  mkManager (m_sessions m) (m_all m) (m_packagers m) (m_pkgs m) (m_lifecycle m) (m_locks m) (m_fin m) 
    (m_inits m) (m_adm m) (m_stopping m) (m_failed m) (m_failed_sources m) (m_shut m) (m_controls m) 
    (m_registered m) (m_waits m) (m_next m) v.

(** ** Parts of the steps *)

Inductive Outcome : Type := Blocked | Panicked | Next (m : Manager).

Definition update_init (iid : N) (f : Init → Init) (m : Manager) : Manager :=
  set_inits (alter f iid (m_inits m)) m.
Definition with_pc (pc : Pc) (i : Init) : Init :=
  mkInit (i_key i) (i_kind i) (i_gen i) (i_active i) (i_cancel i) pc.
Definition with_active (a : bool) (i : Init) : Init :=
  mkInit (i_key i) (i_kind i) (i_gen i) a (i_cancel i) (i_pc i).
Definition with_cancel (i : Init) : Init :=
  mkInit (i_key i) (i_kind i) (i_gen i) (i_active i) true (i_pc i).

Definition update_session (sid : N) (f : Session → Session) (m : Manager) : Manager :=
  set_all (alter f sid (m_all m)) m.
Definition session_cancel (s : Session) : Session := mkSession (s_key s) (s_subs s) (s_pins s) true (s_done s).
Definition session_subscribe (h : N) (s : Session) : Session :=
  mkSession (s_key s) ({[h]} ∪ s_subs s) (s_pins s) (s_cancel s) (s_done s).
Definition session_pin (h : N) (s : Session) : Session :=
  mkSession (s_key s) (s_subs s) ({[h]} ∪ s_pins s) (s_cancel s) (s_done s).
Definition session_drop (h : N) (s : Session) : Session :=
  mkSession (s_key s) (s_subs s ∖ {[h]}) (s_pins s ∖ {[h]}) (s_cancel s) (s_done s).
Definition session_finish (d : CompletionState) (s : Session) : Session :=
  mkSession (s_key s) (s_subs s) (s_pins s) (s_cancel s) d.

(** [StreamSession::start_with_cleanup] *)
Definition start_session (key : StreamKey) (m : Manager) : N * Manager :=
  (m_next m, bump_next (set_all (<[m_next m := mkSession key ∅ ∅ false Pending]> (m_all m)) m)).

(** [HlsPackager::stop] and the worker's cancellation. *)
Definition packager_stop (pid : N) (m : Manager) : Manager :=
  set_pkgs (alter (λ p, mkPackager (p_session p) (p_access p) true (p_done p)) pid (m_pkgs m)) m.

Definition completion_state (m : Manager) (c : Completion) : CompletionState :=
  match c with
  | OfSession sid => match m_all m !! sid with Some s => s_done s | None => Failed end
  | OfPackager pid => match m_pkgs m !! pid with Some p => p_done p | None => Failed end
  end.

Definition is_pending (m : Manager) (c : Completion) : bool := bool_decide (completion_state m c = Pending).

(** [prune_stops]: the completions that are still open, and the keys that have one. *)
Definition prune_stops (m : Manager) : Manager :=
  set_stopping (filter (λ kv, kv.2 ≠ []) (List.filter (is_pending m) <$> m_stopping m)) m.

Definition record_stop (key : StreamKey) (c : Completion) (m : Manager) : Manager :=
  let m := prune_stops m in
  if bool_decide (completion_state m c = Confirmed) then m
  else set_stopping (<[key := default [] (m_stopping m !! key) ++ [c]]> (m_stopping m)) m.

Definition stop_completions (key : StreamKey) (m : Manager) : list Completion * Manager :=
  let m := prune_stops m in (default [] (m_stopping m !! key), m).

(** The registered control whose intent the attempt depends on. *)
Definition support_current (m : Manager) (k : Acquire) : bool :=
  match k with
  | AcqDeclared c e => match m_controls m !! c with
                       | Some ctl => attempt_current (c_intent ctl) e
                       | None => false
                       end
  | _ => true
  end.

(** [disable_support_controls]: a registered control that nothing owns any more is forgotten. *)
Definition owned (m : Manager) (c : N) : bool :=
  match m_controls m !! c with Some ctl => c_owned ctl | None => false end.

Definition disable_one (key : option StreamKey) (cs : gmap N Control) (c : N) : option (gmap N Control) :=
  match cs !! c with
  | Some ctl =>
      if match key with Some k => bool_decide (k = c_key ctl) | None => true end then
        i ← set_running (c_intent ctl) false;
        Some (<[c := mkControl (c_key ctl) i (c_owned ctl)]> cs)
      else Some cs
  | None => Some cs
  end.

Fixpoint disable_all (key : option StreamKey) (cs : gmap N Control) (l : list N) : option (gmap N Control) :=
  match l with
  | [] => Some cs
  | c :: l => cs ← disable_one key cs c; disable_all key cs l
  end.

Definition disable_support_controls (key : option StreamKey) (m : Manager) : option Manager :=
  let kept := List.filter (owned m) (m_registered m) in
  cs ← disable_all key (m_controls m) kept;
  Some (set_registered kept (set_controls cs m)).

(** ** Initializers *)

(** The checks an initializer makes before it waits and after. *)
Definition fenced (m : Manager) (i : Init) : bool :=
  negb (support_current m (i_kind i)) || is_cancelled (m_lifecycle m) (i_key i) (i_gen i)
  || i_cancel i || m_shut m.

Definition is_hls (k : Acquire) : bool := match k with AcqHls _ => true | _ => false end.

Definition holds_lock (m : Manager) (iid : N) (key : StreamKey) : bool :=
  bool_decide (m_locks m !! key = Some iid).

(** The initializer's return: its result, the drop of the start lock and of an active transition. *)
Definition init_return (iid : N) (i : Init) (res : result StartFailureKind Grant) (m : Manager) : Manager :=
  let m := if i_active i then set_lifecycle (lifecycle_finish (m_lifecycle m) (i_key i) (i_gen i)).2 m else m in
  let m := if holds_lock m iid (i_key i) then set_locks (delete (i_key i) (m_locks m)) m else m in
  update_init iid (λ i, with_active false (with_pc (PDone res) i)) m.

Definition acquire (k : Acquire) (sid : N) (m : Manager) : Grant * Manager :=
  match k with
  | AcqSession => (GSession sid, m)
  | AcqSubscribe | AcqHls _ =>
      (GViewer sid (m_next m), bump_next (update_session sid (session_subscribe (m_next m)) m))
  | AcqSupport | AcqDeclared _ _ =>
      (GPin sid (m_next m), bump_next (update_session sid (session_pin (m_next m)) m))
  end.

(** The running session of the key, acquired under the lifecycle lock. *)
Definition take_running (iid : N) (i : Init) (sid : N) (m : Manager) : Manager :=
  if is_cancelled (m_lifecycle m) (i_key i) (i_gen i) || i_cancel i || m_shut m
     || negb (support_current m (i_kind i))
  then init_return iid i (Err Cancelled) m
  else let '(g, m) := acquire (i_kind i) sid m in init_return iid i (Ok g) m.

Definition open_source (iid : N) (i : Init) (m : Manager) : Manager :=
  match reserve (m_adm m) with
  | None => init_return iid i (Err Capacity) m
  | Some a => update_init iid (with_pc POpen) (set_adm a m)
  end.

(** The entry into finalization: the last checks, [transition.finish()] included. *)
Definition finalize (iid : N) (i : Init) (src : bool) (m : Manager) : Manager :=
  let dispose m i := if src then update_init iid (with_pc PDispose) m
                     else init_return iid i (Err Cancelled) m in
  if negb (support_current m (i_kind i)) || i_cancel i then dispose m i
  else
    let '(c, l) := lifecycle_finish (m_lifecycle m) (i_key i) (i_gen i) in
    let m := update_init iid (with_active false) (set_lifecycle l m) in
    let i := with_active false i in
    if c || m_shut m then dispose m i
    else
      let m := update_init iid (with_pc PFinal) m in
      if is_hls (i_kind i) then set_fin (Some (FinHls iid src)) m
      else let '(sid, m) := start_session (i_key i) m in set_fin (Some (FinPublish iid sid)) m.

(** One turn of an initializer. *)
Definition init_step (m : Manager) (iid : N) : Outcome :=
  match m_inits m !! iid with
  | None => Blocked
  | Some i =>
      let fail m := Next (init_return iid i (Err Cancelled) m) in
      match i_pc i with
      | PCheck =>
          if fenced m i then fail m
          else Next (update_init iid (with_pc (if is_hls (i_kind i) then PWait else PLook)) m)
      | PLook =>
          match m_sessions m !! i_key i with
          | Some sid => Next (take_running iid i sid m)
          | None => Next (update_init iid (with_pc PWait) m)
          end
      | PWait =>
          if i_cancel i then fail m
          else match m_locks m !! i_key i with
               | Some _ => Blocked
               | None =>
                   let m := set_locks (<[i_key i := iid]> (m_locks m)) m in
                   if fenced m i then fail m else Next (update_init iid (with_pc PLocked) m)
               end
      | PLocked =>
          match m_sessions m !! i_key i with
          | Some sid => if is_hls (i_kind i) then Next (update_init iid (with_pc (POpened false)) m)
                        else Next (take_running iid i sid m)
          | None => Next (open_source iid i m)
          end
      | POpened src => match m_fin m with Some _ => Blocked | None => Next (finalize iid i src m) end
      | POpen | PFinal | PDispose | PDone _ => Blocked
      end
  end.

(** [owned_live_start]: the generation is registered before the initializer can run.  That the caller has
    checked the id with the provider, and that a declared control is registered, only removes starts. *)
Definition begin_start (m : Manager) (iid : N) (key : StreamKey) (k : Acquire) : Outcome :=
  match m_fin m, m_inits m !! iid with
  | None, None =>
      if m_shut m then Next m
      else match transition_begin (m_lifecycle m) key with
           | None => Panicked
           | Some (g, l) =>
               Next (set_inits (<[iid := mkInit key k g true false PCheck]> (m_inits m)) (set_lifecycle l m))
           end
  | _, _ => Blocked
  end.

(** The provider's answer; a failed open drops the reservation. *)
Definition opened (m : Manager) (iid : N) (answer : option StartFailureKind) : Outcome :=
  match m_inits m !! iid with
  | Some i =>
      match i_pc i, answer with
      | POpen, None => Next (update_init iid (with_pc (POpened true)) m)
      | POpen, Some k => Next (init_return iid i (Err k) (set_adm (unreserve (m_adm m)) m))
      | _, _ => Blocked
      end
  | None => Blocked
  end.

(** [dispose_source]: a source whose shutdown fails keeps its reservation. *)
Definition disposed (m : Manager) (iid : N) (confirmed : bool) : Outcome :=
  match m_inits m !! iid with
  | Some i =>
      match i_pc i with
      | PDispose =>
          if confirmed then Next (init_return iid i (Err Cancelled) (set_adm (unreserve (m_adm m)) m))
          else Next (init_return iid i (Err CleanupUnconfirmed) (keep_failed_source (note_failed m)))
      | _ => Blocked
      end
  | None => Blocked
  end.

Definition grant_handle (g : Grant) : option (N * N) :=
  match g with GSession _ => None | GViewer sid h | GPin sid h | GHls _ sid h => Some (sid, h) end.

(** The result reaches the caller, or is dropped with what it holds when the caller is gone. *)
Definition deliver_result (m : Manager) (iid : N) : Outcome :=
  match m_inits m !! iid with
  | Some i =>
      match i_pc i with
      | PDone res =>
          let m := set_inits (delete iid (m_inits m)) m in
          match res with
          | Ok g => match grant_handle g with
                    | Some (sid, h) => if i_cancel i then Next (update_session sid (session_drop h) m) else Next m
                    | None => Next m
                    end
          | Err _ => Next m
          end
      | _ => Blocked
      end
  | None => Blocked
  end.

(** ** Inside finalization *)

(** Removes a session from the map, records its completion and cancels it. *)
Definition retire_session (key : StreamKey) (m : Manager) : Manager :=
  match m_sessions m !! key with
  | Some sid =>
      update_session sid session_cancel
        (record_stop key (OfSession sid) (set_sessions (delete key (m_sessions m)) m))
  | None => m
  end.

Definition retire_packager (key : StreamKey) (m : Manager) : Manager :=
  match m_packagers m !! key with
  | Some pid => packager_stop pid (record_stop key (OfPackager pid) (set_packagers (delete key (m_packagers m)) m))
  | None => m
  end.

Definition was_accessed_within (now grace : N) (p : Packager) : bool :=
  match p_access p with Some t => (saturating_sub now t <? grace)%N | None => false end.

(** ** On-demand content *)

Definition cached_ids (cache : gmap StreamKey (N * N)) : gset N := list_to_set (map_to_list cache).*2.*1.

(** [Arc<ContentOwner>]: content that neither the cache nor a handle nor a range holds is destroyed, and its
    reservation with it. *)
Definition drop_unheld (m : Manager) : Manager :=
  let v := m_vods m in
  let kept := filter (λ cn, cn.2 ≠ 0 ∨ cn.1 ∈ cached_ids (v_cache v)) (v_contents v) in
  set_adm (Nat.iter (size (v_contents v) - size kept) unreserve (m_adm m))
    (set_vods (mkVods (v_cache v) kept (v_tasks v) (v_locks v) (v_next v)) m).

Definition set_contents (c : gmap N nat) (m : Manager) : Manager :=
  let v := m_vods m in set_vods (mkVods (v_cache v) c (v_tasks v) (v_locks v) (v_next v)) m.

(** The new cache; what leaves it and is held by nothing else is destroyed. *)
Definition set_cache (c : gmap StreamKey (N * N)) (m : Manager) : Manager :=
  let v := m_vods m in drop_unheld (set_vods (mkVods c (v_contents v) (v_tasks v) (v_locks v) (v_next v)) m).

(** The return of a call, which drops its resolve lock. *)
Definition vod_return (vid : N) (key : StreamKey) (m : Manager) : Manager :=
  let v := m_vods m in
  set_vods (mkVods (v_cache v) (v_contents v) (delete vid (v_tasks v))
    (if bool_decide (v_locks v !! key = Some vid) then delete key (v_locks v) else v_locks v) (v_next v)) m.

Definition vod_goto (vid : N) (key : StreamKey) (pc : VodPc) (m : Manager) : Manager :=
  let v := m_vods m in
  set_vods (mkVods (v_cache v) (v_contents v) (<[vid := mkVodTask key pc]> (v_tasks v)) (v_locks v) (v_next v)) m.

Definition vod_lock (vid : N) (key : StreamKey) (m : Manager) : Manager :=
  let v := m_vods m in
  set_vods (mkVods (v_cache v) (v_contents v) (v_tasks v) (<[key := vid]> (v_locks v)) (v_next v)) m.

Section manager.
(** [grace] of the configuration. *)
Context (grace : N).

Definition fresh_entries (now : N) (cache : gmap StreamKey (N * N)) : gmap StreamKey (N * N) :=
  filter (λ e, (saturating_sub now e.2.2 < grace)%N) cache.

(** [cached_vod]: sweeps the idle entries; a hit refreshes its entry and gives the caller a handle. *)
Definition cached_vod (now : N) (key : StreamKey) (m : Manager) : bool * Manager :=
  let cache := fresh_entries now (v_cache (m_vods m)) in
  match cache !! key with
  | Some (cid, _) =>
      (true, set_cache (<[key := (cid, now)]> cache) (set_contents (alter S cid (v_contents (m_vods m))) m))
  | None => (false, set_cache cache m)
  end.

(** One turn of a call of [resolve_vod]; that the network is registered and the id openable was checked before. *)
Definition vod_turn (m : Manager) (vid now : N) : Outcome :=
  match v_tasks (m_vods m) !! vid with
  | None => Blocked
  | Some (mkVodTask key pc) =>
      match pc with
      | VCheck => if m_shut m then Next (vod_return vid key m) else Next (vod_goto vid key VLook m)
      | VLook =>
          let '(hit, m) := cached_vod now key m in
          if hit then Next (vod_return vid key m) else Next (vod_goto vid key VWait m)
      | VWait =>
          match v_locks (m_vods m) !! key with
          | Some _ => Blocked
          | None =>
              let m := vod_lock vid key m in
              if m_shut m then Next (vod_return vid key m) else Next (vod_goto vid key VLocked m)
          end
      | VLocked =>
          let '(hit, m) := cached_vod now key m in
          if hit then Next (vod_return vid key m)
          else match reserve (m_adm m) with
               | None => Next (vod_return vid key m)
               | Some a => Next (vod_goto vid key VOpen (set_adm a m))
               end
      | VOpened =>
          match m_fin m with
          | Some _ => Blocked
          | None =>
              if m_shut m then Next (vod_return vid key (set_adm (unreserve (m_adm m)) m))
              else Next (set_fin (Some (FinVod vid)) (vod_goto vid key VFinal m))
          end
      | VOpen | VFinal => Blocked
      end
  end.

(** Inside the mutex: the content is cached and handed to the caller. *)
Definition fin_vod (m : Manager) (vid now : N) : Outcome :=
  match v_tasks (m_vods m) !! vid with
  | Some (mkVodTask key VFinal) =>
      let v := m_vods m in
      let cid := v_next v in
      let m := set_vods (mkVods (v_cache v) (<[cid := 1]> (v_contents v)) (v_tasks v) (v_locks v) (cid + 1)%N) m in
      Next (set_fin None (vod_return vid key (set_cache (<[key := (cid, now)]> (v_cache v)) m)))
  | _ => Blocked
  end.

(** The provider's answer. *)
Definition vod_resolved (m : Manager) (vid : N) (ok : bool) : Outcome :=
  match v_tasks (m_vods m) !! vid with
  | Some (mkVodTask key VOpen) =>
      if ok then Next (vod_goto vid key VOpened m)
      else Next (vod_return vid key (set_adm (unreserve (m_adm m)) m))
  | _ => Blocked
  end.

Definition vod_reserved (pc : VodPc) : bool := match pc with VOpen | VOpened | VFinal => true | _ => false end.

(** The caller is dropped at a point where it waits: its reservation and its locks go with it. *)
Definition vod_gone (m : Manager) (vid : N) : Outcome :=
  match v_tasks (m_vods m) !! vid with
  | Some (mkVodTask key pc) =>
      let m := vod_return vid key (if vod_reserved pc then set_adm (unreserve (m_adm m)) m else m) in
      match m_fin m with
      | Some (FinVod owner) => if (owner =? vid)%N then Next (set_fin None m) else Next m
      | _ => Next m
      end
  | None => Blocked
  end.

Inductive VodEvent : Type :=
  | VBegin (vid : N) (key : StreamKey)
  | VTurn (vid now : N)
  | VResolved (vid : N) (ok : bool)
  | VGone (vid : N)
  | VRange (cid : N)
  | VDrop (cid : N)
  | VExpire (now : N).

(** A range is opened through a handle and holds the content like it; [VExpire] is the first part of a reap. *)
Definition vod_step (m : Manager) (ev : VodEvent) : Outcome :=
  match ev with
  | VBegin vid key =>
      match v_tasks (m_vods m) !! vid with Some _ => Blocked | None => Next (vod_goto vid key VCheck m) end
  | VTurn vid now => vod_turn m vid now
  | VResolved vid ok => vod_resolved m vid ok
  | VGone vid => vod_gone m vid
  | VRange cid =>
      match v_contents (m_vods m) !! cid with
      | Some (S n) => Next (set_contents (<[cid := S (S n)]> (v_contents (m_vods m))) m)
      | _ => Blocked
      end
  | VDrop cid =>
      match v_contents (m_vods m) !! cid with
      | Some (S n) => Next (drop_unheld (set_contents (<[cid := n]> (v_contents (m_vods m))) m))
      | _ => Blocked
      end
  | VExpire now => Next (set_cache (fresh_entries now (v_cache (m_vods m))) m)
  end.

(** ** Inside the mutex *)

Definition active_hls (m : Manager) (now : N) (key : StreamKey) : bool :=
  match m_packagers m !! key with
  | Some pid => match m_pkgs m !! pid with Some p => was_accessed_within now grace p | None => false end
  | None => false
  end.

Definition idle (m : Manager) (sid : N) : bool :=
  match m_all m !! sid with
  | Some s => bool_decide (s_subs s = ∅) && bool_decide (s_pins s = ∅)
  | None => false
  end.

(** The keys of the sessions a reap retires. *)
Definition expired (m : Manager) (pend active : gset StreamKey) : list StreamKey :=
  (map_to_list (filter (λ kv, idle m kv.2 = true ∧ kv.1 ∉ active ∧ kv.1 ∉ pend) (m_sessions m))).*1.

(** The packager of the key, or a new one for the session. *)
Definition publish_packager (key : StreamKey) (sid : N) (m : Manager) : N * Manager :=
  match m_packagers m !! key with
  | Some pid => (pid, m)
  | None =>
      (m_next m,
       bump_next (set_packagers (<[key := m_next m]> (m_packagers m))
         (set_pkgs (<[m_next m := mkPackager sid None false Pending]> (m_pkgs m)) m)))
  end.

Definition record_native_access (pid now : N) (m : Manager) : Manager :=
  set_pkgs (alter (λ p, mkPackager (p_session p) (Some now) (p_stopped p) (p_done p)) pid (m_pkgs m)) m.

(** [Arc::ptr_eq] with the session in the map. *)
Definition is_current (m : Manager) (key : StreamKey) (sid : N) : bool := bool_decide (m_sessions m !! key = Some sid).

Definition completed (m : Manager) (sid : N) : bool := bool_decide (completion_state m (OfSession sid) = Confirmed).

(** The last turn of [release_support] inside the mutex. *)
Definition release_final (tid : N) (key : StreamKey) (sid : N) (pend active : bool) (m : Manager) : Manager :=
  if pend || (negb (completed m sid) && (active || negb (idle m sid))) || negb (is_current m key sid)
  then set_fin None m
  else
    let entry := m_packagers m !! key in
    let m := retire_packager key (retire_session key m) in
    set_fin None (set_waits (<[tid := mkWait key (OfSession sid :: match entry with Some pid => [OfPackager pid] | None => [] end) true]>
                    (m_waits m)) m).

(** *** A start publishes its session *)

Definition fin_publish (m : Manager) (iid sid : N) : Outcome :=
  match m_inits m !! iid with
  | None => Blocked
  | Some i =>
      let '(shared, m) :=
        match m_sessions m !! i_key i with
        | Some old => (old, update_session sid session_cancel m)
        | None => (sid, set_sessions (<[i_key i := sid]> (m_sessions m)) m)
        end in
      let '(g, m) := acquire (i_kind i) shared m in
      Next (set_fin None (init_return iid i (Ok g) m))
  end.

(** An HLS start finds or starts the session and subscribes; without either there is no source. *)
Definition fin_hls (m : Manager) (iid : N) (src : bool) : Outcome :=
  match m_inits m !! iid with
  | None => Blocked
  | Some i =>
      let subscribe sid m :=
        Next (set_fin (Some (FinHlsPkg iid sid (m_next m)))
                (bump_next (update_session sid (session_subscribe (m_next m)) m))) in
      match m_sessions m !! i_key i with
      | Some sid => subscribe sid (if src then set_adm (unreserve (m_adm m)) m else m)
      | None =>
          if src then
            let '(sid, m) := start_session (i_key i) m in
            subscribe sid (set_sessions (<[i_key i := sid]> (m_sessions m)) m)
          else Panicked
      end
  end.

Definition fin_hls_packager (m : Manager) (iid sid h now : N) : Outcome :=
  match m_inits m !! iid with
  | None => Blocked
  | Some i =>
      let '(pid, m) := publish_packager (i_key i) sid m in
      let m := match i_kind i with AcqHls true => record_native_access pid now m | _ => m end in
      Next (set_fin None (init_return iid i (Ok (GHls pid sid h)) m))
  end.

(** *** A stop *)

Definition fin_stop_packager (m : Manager) (tid : N) (key : StreamKey) : Outcome :=
  let entry := m_packagers m !! key in
  Next (set_fin (Some (FinStop2 tid key entry)) (retire_packager key m)).

Definition fin_stop_session (m : Manager) (tid : N) (key : StreamKey) (entry : option N) : Outcome :=
  let session := m_sessions m !! key in
  let '(cs, m) := stop_completions key (retire_session key m) in
  let existed := match session with Some _ => true | None => negb (bool_decide (cs = [])) end in
  Next (set_fin None (set_waits (<[tid := mkWait key
    (match session with Some sid => [OfSession sid] | None => [] end
     ++ match entry with Some pid => [OfPackager pid] | None => [] end ++ cs) existed]> (m_waits m)) m)).

(** *** A reap *)

Definition fin_reap_active (m : Manager) (at_ : N) (pend : gset StreamKey) : Outcome :=
  Next (set_fin (Some (FinReap2 pend (list_to_set (List.filter (active_hls m at_) (map_to_list (m_packagers m)).*1)))) m).

Definition fin_reap_sessions (m : Manager) (pend active : gset StreamKey) : Outcome :=
  let m := foldr retire_session m (expired m pend active) in
  Next (set_fin (Some (FinReap3 (dom (m_sessions m)))) m).

Definition fin_reap_packagers (m : Manager) (retained : gset StreamKey) : Outcome :=
  Next (set_fin None (foldr retire_packager m
    (List.filter (λ key, negb (bool_decide (key ∈ retained))) (map_to_list (m_packagers m)).*1))).

(** *** The shutdown *)

Definition fin_shut_packagers (m : Manager) : Outcome :=
  Next (set_fin (Some FinShut2) (set_packagers ∅ (foldr packager_stop m (map_to_list (m_packagers m)).*2))).

Definition fin_shut_sessions (m : Manager) : Outcome :=
  Next (set_fin (Some FinShut3) (set_sessions ∅
    (foldr (λ sid, update_session sid session_cancel) m (map_to_list (m_sessions m)).*2))).

Definition fin_shut_vods (m : Manager) : Outcome := Next (set_fin None (set_cache ∅ m)).

(** The next turn of the task inside the mutex; [now] is read by a native HLS start. *)
Definition fin_step (m : Manager) (now : N) : Outcome :=
  match m_fin m with
  | None => Blocked
  | Some (FinPublish iid sid) => fin_publish m iid sid
  | Some (FinHls iid src) => fin_hls m iid src
  | Some (FinHlsPkg iid sid h) => fin_hls_packager m iid sid h now
  | Some (FinStop1 tid key) => fin_stop_packager m tid key
  | Some (FinStop2 tid key entry) => fin_stop_session m tid key entry
  | Some (FinReap1 at_ pend) => fin_reap_active m at_ pend
  | Some (FinReap2 pend active) => fin_reap_sessions m pend active
  | Some (FinReap3 retained) => fin_reap_packagers m retained
  | Some (FinRelease1 tid key sid at_ pend) =>
      Next (set_fin (Some (FinRelease2 tid key sid pend (active_hls m at_ key))) m)
  | Some (FinRelease2 tid key sid pend active) => Next (release_final tid key sid pend active m)
  | Some FinShut1 => fin_shut_packagers m
  | Some FinShut2 => fin_shut_sessions m
  | Some FinShut3 => fin_shut_vods m
  | Some (FinVod vid) => fin_vod m vid now
  end.

(** ** The other entry points *)

Definition of_option (o : option Manager) : Outcome := match o with Some m => Next m | None => Panicked end.

(** [stop_checked] up to the removal of the packager. *)
Definition stop_start (m : Manager) (tid : N) (key : StreamKey) : Outcome :=
  match m_fin m, m_waits m !! tid with
  | None, None =>
      of_option (m ← disable_support_controls (Some key) m;
                 Some (set_fin (Some (FinStop1 tid key)) (set_lifecycle (cancel_pending (m_lifecycle m) key) m)))
  | _, _ => Blocked
  end.

Definition reap_start (m : Manager) (now : N) : Outcome :=
  match m_fin m with
  | None => Next (set_fin (Some (FinReap1 now (dom (pending (m_lifecycle m))))) m)
  | Some _ => Blocked
  end.

(** [release_support]: the pin is dropped; a session that is already cancelled is only waited for. *)
Definition release_start (m : Manager) (tid : N) (key : StreamKey) (sid h now : N) : Outcome :=
  match m_fin m, m_waits m !! tid, m_all m !! sid with
  | None, None, Some s =>
      if bool_decide (h ∈ s_pins s) then
        let m := update_session sid (session_drop h) m in
        if s_cancel s then Next (set_waits (<[tid := mkWait key [OfSession sid] false]> (m_waits m)) m)
        else Next (set_fin (Some (FinRelease1 tid key sid now (bool_decide (key ∈ dom (pending (m_lifecycle m)))))) m)
      else Blocked
  | _, _, _ => Blocked
  end.

Definition shutdown_start (m : Manager) : Outcome :=
  match m_fin m with
  | None => of_option (m ← disable_support_controls None (set_shut m); Some (set_fin (Some FinShut1) m))
  | Some _ => Blocked
  end.

(** The end of a wait (a release of a cancelled session leaves the pruning to the next reader of the stops,
    which always prunes first): [Some (Ok existed)], [Some (Err tt)] for unconfirmed cleanup, [None] while a
    completion is open. *)
Definition wait_result (m : Manager) (w : Wait) : option (result unit bool) :=
  if existsb (is_pending m) (w_for w) then None
  else if forallb (λ c, bool_decide (completion_state m c = Confirmed)) (w_for w) then Some (Ok (w_ok w))
  else Some (Err tt).

Definition wait_end (m : Manager) (tid : N) : Outcome :=
  match m_waits m !! tid with
  | Some w => match wait_result m w with
              | Some _ => Next (prune_stops (set_waits (delete tid (m_waits m)) m))
              | None => Blocked
              end
  | None => Blocked
  end.

(** A session's pump or a packager's worker ends; the source's reservation goes with a confirmed
    shutdown and stays with a failed one. *)
Definition session_done (m : Manager) (sid : N) (confirmed : bool) : Outcome :=
  match m_all m !! sid with
  | Some s =>
      if bool_decide (s_done s = Pending) then
        if confirmed then Next (set_adm (unreserve (m_adm m)) (update_session sid (session_finish Confirmed) m))
        else Next (keep_failed_source (note_failed (update_session sid (session_finish Failed) m)))
      else Blocked
  | None => Blocked
  end.

Definition packager_done (m : Manager) (pid : N) (confirmed : bool) : Outcome :=
  match m_pkgs m !! pid with
  | Some p =>
      if bool_decide (p_done p = Pending) then
        let d := if confirmed then Confirmed else Failed in
        let m := set_pkgs (<[pid := mkPackager (p_session p) (p_access p) (p_stopped p) d]> (m_pkgs m)) m in
        Next (if confirmed then m else note_failed m)
      else Blocked
  | None => Blocked
  end.

(** The drop of a subscription or a pin; that a handle still on its way to its caller can be dropped too
    only adds behaviours. *)
Definition drop_handle (m : Manager) (sid h : N) : Outcome :=
  match m_all m !! sid with
  | Some s => if bool_decide (h ∈ s_subs s ∪ s_pins s) then Next (update_session sid (session_drop h) m) else Blocked
  | None => Blocked
  end.

(** [register_support]: at most eight controls are registered, for ids of one to 8192 bytes. *)
Definition register_support (m : Manager) (c : N) (key : StreamKey) : Outcome :=
  if bool_decide (length key.2 = 0 ∨ 8192 < length key.2) then Next m
  else
    match m_fin m, m_controls m !! c with
    | None, None =>
        if m_shut m then Next m
        else
          let kept := List.filter (owned m) (m_registered m) in
          if bool_decide (8 ≤ length kept) then Next (set_registered kept m)
          else Next (set_registered (kept ++ [c])
                       (set_controls (<[c := mkControl key intent_new true]> (m_controls m)) m))
    | _, _ => Blocked
    end.

(** [set_support_running] and [restart_support]. *)
Definition change_intent (m : Manager) (c : N) (f : SupportIntent → option SupportIntent) : Outcome :=
  match m_fin m, m_controls m !! c with
  | None, Some ctl =>
      if m_shut m || negb (bool_decide (c ∈ m_registered m)) then Next m
      else of_option (i ← f (c_intent ctl);
                      Some (set_controls (<[c := mkControl (c_key ctl) i (c_owned ctl)]> (m_controls m)) m))
  | _, _ => Blocked
  end.

(** [shutdown] clears the recorded stops once everything has ended. *)
Definition shutdown_end (m : Manager) : Outcome :=
  if m_shut m && bool_decide (map_Forall (λ _ s, s_done s ≠ Pending) (m_all m))
     && bool_decide (map_Forall (λ _ p, p_done p ≠ Pending) (m_pkgs m))
  then Next (set_stopping ∅ m) else Blocked.

(** ** The system *)

Inductive Event : Type :=
  | EBegin (iid : N) (key : StreamKey) (k : Acquire)
  | EInit (iid : N)
  | EOpened (iid : N) (answer : option StartFailureKind)
  | EDisposed (iid : N) (confirmed : bool)
  | ECallerGone (iid : N)
  | EDeliver (iid : N)
  | EFin (now : N)
  | EStop (tid : N) (key : StreamKey)
  | EReap (now : N)
  | ERelease (tid : N) (key : StreamKey) (sid h now : N)
  | EShutdown
  | EWaitEnd (tid : N)
  | ESessionDone (sid : N) (confirmed : bool)
  | EPackagerDone (pid : N) (confirmed : bool)
  | EDropHandle (sid h : N)
  | ENative (pid now : N)
  | ERegister (c : N) (key : StreamKey)
  | ESetRunning (c : N) (run : bool)
  | ERestart (c : N) (expected : N)
  | EControlDropped (c : N)
  | EShutdownEnd
  | EVod (ev : VodEvent).

Definition step (m : Manager) (ev : Event) : Outcome :=
  match ev with
  | EBegin iid key k => begin_start m iid key k
  | EInit iid => init_step m iid
  | EOpened iid answer => opened m iid answer
  | EDisposed iid confirmed => disposed m iid confirmed
  | ECallerGone iid => Next (update_init iid with_cancel m)
  | EDeliver iid => deliver_result m iid
  | EFin now => fin_step m now
  | EStop tid key => stop_start m tid key
  | EReap now => reap_start m now
  | ERelease tid key sid h now => release_start m tid key sid h now
  | EShutdown => shutdown_start m
  | EWaitEnd tid => wait_end m tid
  | ESessionDone sid confirmed => session_done m sid confirmed
  | EPackagerDone pid confirmed => packager_done m pid confirmed
  | EDropHandle sid h => drop_handle m sid h
  | ENative pid now => Next (record_native_access pid now m)
  | ERegister c key => register_support m c key
  | ESetRunning c run => change_intent m c (λ i, set_running i run)
  | ERestart c expected => change_intent m c (λ i, restart_if_epoch i expected)
  | EControlDropped c =>
      Next (set_controls (alter (λ ctl, mkControl (c_key ctl) (c_intent ctl) false) c (m_controls m)) m)
  | EShutdownEnd => shutdown_end m
  | EVod ev => vod_step m ev
  end.

(** A run; a blocked event is not taken. *)
Fixpoint run (m : Manager) (evs : list Event) : option Manager :=
  match evs with
  | [] => Some m
  | ev :: evs => match step m ev with
                 | Next m => run m evs
                 | Blocked => run m evs
                 | Panicked => None
                 end
  end.
End manager.

Definition manager_new (max_sessions : N) : Manager :=
  mkManager ∅ ∅ ∅ ∅ lifecycle_default ∅ None ∅ (admission_new max_sessions) ∅ false 0 false ∅ [] ∅ 0
    (mkVods ∅ ∅ ∅ ∅ 0).

(** The turn inside the mutex with the turns of each task. *)
Ltac unfold_fin :=
  unfold fin_step, fin_publish, fin_hls, fin_hls_packager, fin_stop_packager, fin_stop_session, fin_reap_active,
    fin_reap_sessions, fin_reap_packagers, fin_shut_packagers, fin_shut_sessions, fin_shut_vods.
Ltac unfold_fin_in H :=
  unfold fin_step, fin_publish, fin_hls, fin_hls_packager, fin_stop_packager, fin_stop_session, fin_reap_active,
    fin_reap_sessions, fin_reap_packagers, fin_shut_packagers, fin_shut_sessions, fin_shut_vods in H.

(** ** The invariant *)

Definition fin_owner (f : option FinOp) : option N :=
  match f with
  | Some (FinPublish iid _) | Some (FinHls iid _) | Some (FinHlsPkg iid _ _) => Some iid
  | _ => None
  end.

Definition has_lock (m : Manager) (iid : N) (i : Init) : Prop := m_locks m !! i_key i = Some iid.

(** What holds of an initializer at each of its points. *)
Definition pc_ok (m : Manager) (iid : N) (i : Init) : Prop :=
  match i_pc i with
  | PCheck | PLook | PWait => i_active i = true
  | PLocked => i_active i = true ∧ has_lock m iid i
  | POpen | POpened true => i_active i = true ∧ has_lock m iid i ∧ m_sessions m !! i_key i = None
  | POpened false =>
      i_active i = true ∧ has_lock m iid i ∧ is_hls (i_kind i) = true ∧
      (is_cancelled (m_lifecycle m) (i_key i) (i_gen i) = false → m_shut m = false → is_Some (m_sessions m !! i_key i))
  | PFinal => i_active i = false ∧ has_lock m iid i ∧ fin_owner (m_fin m) = Some iid
  | PDispose => has_lock m iid i
  | PDone _ => i_active i = false
  end.

Definition init_ok (m : Manager) (iid : N) (i : Init) : Prop :=
  pc_ok m iid i ∧ (i_active i = true → i_gen i ∈ pending_of (m_lifecycle m) (i_key i)).

(** What the task inside the mutex relies on. *)
Definition fin_ok (m : Manager) (f : FinOp) : Prop :=
  match f with
  | FinPublish iid sid =>
      m_shut m = false ∧ ∃ i s, m_inits m !! iid = Some i ∧ i_pc i = PFinal ∧ m_all m !! sid = Some s ∧
        s_key s = i_key i ∧ s_cancel s = false ∧ m_sessions m !! i_key i = None
  | FinHls iid src =>
      m_shut m = false ∧ ∃ i, m_inits m !! iid = Some i ∧ i_pc i = PFinal ∧
        (if src then m_sessions m !! i_key i = None else is_Some (m_sessions m !! i_key i))
  | FinHlsPkg iid sid h =>
      m_shut m = false ∧ ∃ i, m_inits m !! iid = Some i ∧ i_pc i = PFinal ∧ m_sessions m !! i_key i = Some sid
  | FinStop1 _ key => ∀ g, g ∈ pending_of (m_lifecycle m) key → (key, g) ∈ cancelled (m_lifecycle m)
  | FinStop2 _ key _ =>
      (∀ g, g ∈ pending_of (m_lifecycle m) key → (key, g) ∈ cancelled (m_lifecycle m)) ∧ m_packagers m !! key = None
  | FinReap1 _ pend | FinReap2 pend _ => dom (pending (m_lifecycle m)) ⊆ pend
  | FinReap3 retained => retained = dom (m_sessions m)
  | FinRelease1 _ key _ _ pend | FinRelease2 _ key _ pend _ => pend = false → key ∉ dom (pending (m_lifecycle m))
  | FinShut1 => m_shut m = true
  | FinShut2 => m_shut m = true ∧ m_packagers m = ∅
  | FinShut3 => m_shut m = true
  | FinVod _ => m_shut m = false
  end.

Definition published (m : Manager) (s : Session) (sid : N) : Prop :=
  m_sessions m !! s_key s = Some sid ∨ ∃ iid, m_fin m = Some (FinPublish iid sid).

(** The parts of the state the invariant is about. *)
Record core_eq (m m' : Manager) : Prop := {
  ce_sessions : m_sessions m' = m_sessions m;
  ce_all : ∀ n, (λ s, (s_key s, s_cancel s)) <$> m_all m' !! n = (λ s, (s_key s, s_cancel s)) <$> m_all m !! n;
  ce_packagers : m_packagers m' = m_packagers m;
  ce_pkgs : ∀ n, (λ p, (p_session p, p_stopped p)) <$> m_pkgs m' !! n = (λ p, (p_session p, p_stopped p)) <$> m_pkgs m !! n;
  ce_lifecycle : m_lifecycle m' = m_lifecycle m;
  ce_locks : m_locks m' = m_locks m;
  ce_fin : m_fin m' = m_fin m;
  ce_inits : m_inits m' = m_inits m;
  ce_shut : m_shut m' = m_shut m;
  ce_next : (m_next m ≤ m_next m')%N;
}.

Lemma ce_session m m' n s' : core_eq m m' → m_all m' !! n = Some s' →
  ∃ s, m_all m !! n = Some s ∧ s_key s = s_key s' ∧ s_cancel s = s_cancel s'.
Proof.
  intros H E. pose proof (ce_all _ _ H n) as Ha. rewrite E in Ha. simpl in Ha. symmetry in Ha.
  apply fmap_Some in Ha as (s & Hs & [= H1 H2]). by exists s.
Qed.

Lemma ce_session' m m' n s : core_eq m m' → m_all m !! n = Some s →
  ∃ s', m_all m' !! n = Some s' ∧ s_key s' = s_key s ∧ s_cancel s' = s_cancel s.
Proof.
  intros H E. pose proof (ce_all _ _ H n) as Ha. rewrite E in Ha. simpl in Ha.
  apply fmap_Some in Ha as (s' & Hs & [= H1 H2]). by exists s'.
Qed.

Lemma ce_packager m m' n p : core_eq m m' → m_pkgs m !! n = Some p →
  ∃ p', m_pkgs m' !! n = Some p' ∧ p_session p' = p_session p ∧ p_stopped p' = p_stopped p.
Proof.
  intros H E. pose proof (ce_pkgs _ _ H n) as Ha. rewrite E in Ha. simpl in Ha.
  apply fmap_Some in Ha as (p' & Hp & [= H1 H2]). by exists p'.
Qed.

Lemma core_fin_ok m m' f : core_eq m m' → fin_ok m f → fin_ok m' f.
Proof.
  intros H. pose proof H as Hc. destruct H as [E1 _ E3 _ E5 E6 E7 E8 E9 _].
  destruct f; unfold fin_ok; rewrite ?E1, ?E3, ?E5, ?E8, ?E9; try done.
  intros (H1 & i & s & H2 & H3 & H4 & H5 & H6 & H7). split; [done|].
  destruct (ce_session' _ _ _ _ Hc H4) as (s' & G1 & G2 & G3). exists i, s'. split_and!; congruence.
Qed.

(** ** Returning *)

(** The lifecycle after a generation is finished. *)
Definition finished (l l' : HlsLifecycleState) (key : StreamKey) (g : N) : Prop :=
  next_generation l' = next_generation l ∧ cancelled l' = cancelled l ∖ {[ (key, g) ]} ∧
  (∀ key', pending_of l' key' = if decide (key = key') then pending_of l key ∖ {[g]} else pending_of l key') ∧
  dom (pending l') ⊆ dom (pending l).

Lemma finish_finished l key g : finished l (lifecycle_finish l key g).2 key g ∧
  (lifecycle_finish l key g).1 = is_cancelled l key g.
Proof. pose proof (finish_spec l key g) as H. destruct (lifecycle_finish l key g) as [c l']. unfold finished. naive_solver. Qed.

Lemma finished_pending l l' key g key' g' : finished l l' key g → g' ≠ g →
  g' ∈ pending_of l key' → g' ∈ pending_of l' key'.
Proof. intros (_ & _ & H & _) Hg. rewrite H. destruct (decide (key = key')) as [<-|]; set_solver. Qed.

Lemma finished_cancelled l l' key g key' g' : finished l l' key g → g' ≠ g →
  is_cancelled l' key' g' = is_cancelled l key' g'.
Proof.
  intros (_ & H & _) Hg. unfold is_cancelled. rewrite H. apply bool_decide_ext. set_solver.
Qed.

Lemma finished_stop l l' key g k : finished l l' key g →
  (∀ g', g' ∈ pending_of l k → (k, g') ∈ cancelled l) → ∀ g', g' ∈ pending_of l' k → (k, g') ∈ cancelled l'.
Proof.
  intros (_ & H2 & H3 & _) H g'. rewrite H2, H3. destruct (decide (key = k)) as [<-|Hk].
  - intros Hg. apply elem_of_difference in Hg as [Hg Hn]. apply elem_of_difference. split; [by apply H|]. set_solver.
  - intros Hg. apply elem_of_difference. split; [by apply H|]. set_solver.
Qed.

(** A task inside the mutex does not notice an initializer of another that moves or returns. *)
Lemma fin_ok_lifecycle m l' key g f : finished (m_lifecycle m) l' key g → fin_ok m f → fin_ok (set_lifecycle l' m) f.
Proof.
  intros Hf. pose proof Hf as (_ & _ & _ & Hd). destruct f; unfold fin_ok; cbn; try done.
  - intros H. exact (finished_stop _ _ _ _ _ Hf H).
  - intros [H1 H2]. split; [exact (finished_stop _ _ _ _ _ Hf H1)|done].
  - set_solver.
  - set_solver.
  - set_solver.
  - set_solver.
Qed.

Lemma fin_ok_inits m iid f' f : fin_owner (Some f) ≠ Some iid → fin_ok m f → fin_ok (update_init iid f' m) f.
Proof.
  destruct f; unfold fin_ok, update_init; cbn; try done; intros Hne.
  - intros (H1 & i & s & H2 & H3). split; [done|]. exists i, s. rewrite lookup_alter_ne by congruence. done.
  - intros (H1 & i & H2 & H3). split; [done|]. exists i. rewrite lookup_alter_ne by congruence. done.
  - intros (H1 & i & H2 & H3). split; [done|]. exists i. rewrite lookup_alter_ne by congruence. done.
Qed.

Lemma lookup_update_init m iid f iid' : m_inits (update_init iid f m) !! iid' =
  if decide (iid = iid') then f <$> m_inits m !! iid else m_inits m !! iid'.
Proof.
  unfold update_init. cbn. destruct (decide (iid = iid')) as [<-|]; [apply lookup_alter_eq|by apply lookup_alter_ne].
Qed.

(** An initializer whose environment changes only by the end of another generation and the release of
    another's lock. *)
Lemma pc_ok_other m m' iid i key g : pc_ok m iid i → m_sessions m' = m_sessions m → m_shut m' = m_shut m →
  m_fin m' = m_fin m → (has_lock m iid i → has_lock m' iid i) →
  (i_active i = true → finished (m_lifecycle m) (m_lifecycle m') key g ∧ i_gen i ≠ g ∨ m_lifecycle m' = m_lifecycle m) →
  pc_ok m' iid i.
Proof.
  unfold pc_ok. intros H E1 E2 E3 Hl Hlc. rewrite E1, E2, E3. destruct (i_pc i) as [| | | | |[]| | |]; try naive_solver.
  destruct H as (H1 & H2 & H3 & H4). split_and!; auto. intros Hc Hs. apply H4; [|done].
  destruct (Hlc H1) as [[Hf Hg]| <-]; [|done]. by rewrite <- (finished_cancelled _ _ _ _ _ _ Hf Hg).
Qed.

Section invariant.
(** Keys whose packager may have outlived its session for the moment. *)
Context (z : StreamKey → Prop).

(** [x] is an initializer that is about to return and [y] a session that is about to be published. *)
Record minv (x y : option N) (m : Manager) : Prop := {
  mi_fresh : ∀ n, is_Some (m_all m !! n) ∨ is_Some (m_pkgs m !! n) → (n < m_next m)%N;
  mi_map : ∀ key sid, m_sessions m !! key = Some sid →
    ∃ s, m_all m !! sid = Some s ∧ s_key s = key ∧ s_cancel s = false;
  mi_live : ∀ sid s, m_all m !! sid = Some s → s_cancel s = false → y ≠ Some sid → published m s sid;
  mi_inits : ∀ iid i, m_inits m !! iid = Some i → x ≠ Some iid → init_ok m iid i;
  mi_uniq : ∀ iid i iid' i', m_inits m !! iid = Some i → m_inits m !! iid' = Some i' →
    i_active i = true → i_active i' = true → i_gen i = i_gen i' → iid = iid';
  mi_gens : ∀ iid i, m_inits m !! iid = Some i → (i_gen i ≤ next_generation (m_lifecycle m))%N;
  mi_fin : ∀ f, m_fin m = Some f → fin_ok m f;
  mi_shut : m_shut m = true → m_sessions m = ∅ ∨ m_fin m = Some FinShut1 ∨ m_fin m = Some FinShut2;
  mi_pkg : ∀ key pid, m_packagers m !! key = Some pid → ∃ p, m_pkgs m !! pid = Some p ∧ p_stopped p = false ∧
    ((m_sessions m !! key = Some (p_session p) ∨ z key) ∨ ∃ r, m_fin m = Some (FinReap3 r) ∧ key ∉ r);
  mi_pkg_inj : ∀ key key' pid, m_packagers m !! key = Some pid → m_packagers m !! key' = Some pid → key = key';
}.

Lemma core_minv x y m m' : core_eq m m' → minv x y m → minv x y m'.
Proof.
  intros H [I1 I2 I3 I4 I5 I6 I7 I8 I9 I10]. pose proof H as Hc. destruct H as [E1 E2 E3 E4 E5 E6 E7 E8 E9 E10].
  constructor; unfold init_ok, pc_ok, has_lock, published; rewrite ?E1, ?E3, ?E5, ?E6, ?E7, ?E8, ?E9; try done.
  - intros n Hn. eapply N.lt_le_trans; [|exact E10]. apply I1. destruct Hn as [[s Hs]|[p Hp]].
    + destruct (ce_session _ _ _ _ Hc Hs) as (s0 & -> & _). eauto.
    + specialize (E4 n). rewrite Hp in E4. symmetry in E4. apply fmap_Some in E4 as (p0 & -> & _). eauto.
  - intros key sid Hk. destruct (I2 key sid Hk) as (s & H1 & H2 & H3).
    destruct (ce_session' _ _ _ _ Hc H1) as (s' & G1 & G2 & G3). exists s'. split_and!; congruence.
  - intros sid s' Hs Hf Hy. destruct (ce_session _ _ _ _ Hc Hs) as (s & G1 & G2 & G3).
    rewrite <- G2. apply (I3 sid s); congruence.
  - intros f Hf. eapply core_fin_ok; [done|]. by apply I7.
  - intros key pid Hk. destruct (I9 key pid Hk) as (p & H1 & H2 & H3).
    destruct (ce_packager _ _ _ _ Hc H1) as (p' & G1 & G2 & G3). exists p'.
    split_and!; [congruence..|]. by rewrite G2.
Qed.

Lemma return_ok m iid i res : minv (Some iid) None m → m_inits m !! iid = Some i → fin_owner (m_fin m) ≠ Some iid →
  minv None None (init_return iid i res m).
Proof.
  intros I Hi Hfo. unfold init_return.
  set (m1 := if i_active i then _ else m).
  assert (H1 : m_sessions m1 = m_sessions m ∧ m_all m1 = m_all m ∧ m_packagers m1 = m_packagers m ∧ m_pkgs m1 = m_pkgs m ∧
    m_locks m1 = m_locks m ∧ m_fin m1 = m_fin m ∧ m_inits m1 = m_inits m ∧ m_shut m1 = m_shut m ∧ m_next m1 = m_next m).
  { unfold m1. by destruct (i_active i). }
  assert (Hl : if i_active i then finished (m_lifecycle m) (m_lifecycle m1) (i_key i) (i_gen i) else m_lifecycle m1 = m_lifecycle m).
  { unfold m1. destruct (i_active i); [|done]. cbn. apply finish_finished. }
  assert (Hf1 : ∀ f, fin_ok m f → fin_ok m1 f).
  { intros f. unfold m1. destruct (i_active i); [|done]. apply (fin_ok_lifecycle _ _ (i_key i) (i_gen i)). apply finish_finished. }
  destruct H1 as (E1 & E2 & E3 & E4 & E5 & E6 & E7 & E8 & E9). clearbody m1.
  set (m2 := if holds_lock m1 iid (i_key i) then _ else m1).
  assert (H2 : m_sessions m2 = m_sessions m ∧ m_all m2 = m_all m ∧ m_packagers m2 = m_packagers m ∧ m_pkgs m2 = m_pkgs m ∧
    m_lifecycle m2 = m_lifecycle m1 ∧ m_fin m2 = m_fin m ∧ m_inits m2 = m_inits m ∧ m_shut m2 = m_shut m ∧ m_next m2 = m_next m).
  { unfold m2. by destruct (holds_lock m1 iid (i_key i)). }
  assert (Hk : ∀ iid' i', iid' ≠ iid → has_lock m iid' i' → has_lock m2 iid' i').
  { unfold has_lock. intros iid' i' Hne Hk. unfold m2, holds_lock. rewrite E5. case_bool_decide as Hb; cbn; [|by rewrite E5].
    rewrite lookup_delete_ne; [done|]. intros Heq. rewrite Heq in Hb. congruence. }
  assert (Hf2 : ∀ f, fin_ok m f → fin_ok m2 f).
  { intros f Hf. apply Hf1 in Hf. unfold m2. destruct (holds_lock m1 iid (i_key i)); [|done]. by destruct f. }
  destruct H2 as (F1 & F2 & F3 & F4 & F5 & F6 & F7 & F8 & F9). clearbody m2.
  set (upd := λ i0, with_active false (with_pc (PDone res) i0)).
  assert (Hlook : ∀ iid' i', m_inits (update_init iid upd m2) !! iid' = Some i' →
    iid' = iid ∧ i' = upd i ∨ iid' ≠ iid ∧ m_inits m !! iid' = Some i').
  { intros iid' i'. rewrite lookup_update_init, F7. destruct (decide (iid = iid')) as [<-|]; [|by right].
    rewrite Hi. intros [= <-]. by left. }
  destruct I as [I1 I2 I3 I4 I5 I6 I7 I8 I9 I10]. constructor; unfold published; cbn [update_init set_inits m_sessions m_all m_packagers m_pkgs m_lifecycle m_locks m_fin m_inits m_shut m_next];
    rewrite ?F1, ?F2, ?F3, ?F4, ?F6, ?F8, ?F9; try done.
  - intros iid' i' Hi' _. apply Hlook in Hi' as [[-> ->]|[Hne Hi']]; [by split|].
    destruct (I4 iid' i' Hi' ltac:(congruence)) as [G1 G2].
    assert (Hg : i_active i' = true → finished (m_lifecycle m) (m_lifecycle m2) (i_key i) (i_gen i) ∧ i_gen i' ≠ i_gen i
              ∨ m_lifecycle m2 = m_lifecycle m).
    { intros Ha. destruct (i_active i) eqn:Hai; [left|right; congruence]. rewrite F5. split; [done|].
      intros Heq. apply Hne. eapply I5; eauto. }
    split; [eapply (pc_ok_other m); try done; by apply Hk|]. intros Ha. cbn. specialize (G2 Ha).
    destruct (Hg Ha) as [[Hf Hn]|He]; [by eapply finished_pending|by rewrite He].
  - intros iid1 i1 iid2 i2 H1 H2 A1 A2 Hg. apply Hlook in H1 as [[-> ->]|[_ H1]]; [done|].
    apply Hlook in H2 as [[-> ->]|[_ H2]]; [done|]. by eapply I5.
  - intros iid1 i1 H1. assert (Hn : next_generation (m_lifecycle m2) = next_generation (m_lifecycle m)).
    { rewrite F5. destruct (i_active i); [apply Hl|congruence]. }
    rewrite Hn. apply Hlook in H1 as [[-> ->]|[_ H1]]; [exact (I6 _ _ Hi)|by eapply I6].
  - intros f Hf. apply fin_ok_inits; [congruence|]. apply Hf2. by apply I7.
Qed.

Lemma minv_weaken x y m : minv None None m → minv x y m.
Proof. intros []. constructor; auto. Qed.

(** ** The moves of an initializer *)

(** The record of an initializer that is set aside may change. *)
Lemma update_aside x y m iid i f : minv (Some iid) y m → m_inits m !! iid = Some i → fin_owner (m_fin m) ≠ Some iid →
  i_gen (f i) = i_gen i → (i_active (f i) = true → i_active i = true) →
  (x = Some iid ∨ x = None ∧ init_ok m iid (f i)) → minv x y (update_init iid f m).
Proof.
  intros I Hi Hfo Hg Ha Hx.
  assert (Hlook : ∀ iid' i', m_inits (update_init iid f m) !! iid' = Some i' →
    iid' = iid ∧ i' = f i ∨ iid' ≠ iid ∧ m_inits m !! iid' = Some i').
  { intros iid' i'. rewrite lookup_update_init. destruct (decide (iid = iid')) as [<-|]; [|by right].
    rewrite Hi. intros [= <-]. by left. }
  destruct I as [I1 I2 I3 I4 I5 I6 I7 I8 I9 I10]. constructor; try done.
  - intros iid' i' Hi' Hne. apply Hlook in Hi' as [[-> ->]|[Hn Hi']]; [naive_solver|].
    apply (I4 iid' i' Hi'). congruence.
  - intros iid1 i1 iid2 i2 H1 H2 A1 A2. apply Hlook in H1 as [[-> ->]|[N1 H1]], H2 as [[-> ->]|[N2 H2]]; try done.
    + rewrite Hg. intros E. eapply I5; eauto.
    + rewrite Hg. intros E. eapply I5; eauto.
    + by eapply I5.
  - intros iid1 i1 H1. apply Hlook in H1 as [[-> ->]|[_ H1]]; [rewrite Hg|]; by eapply I6.
  - intros f' Hf. apply fin_ok_inits; [by rewrite <- Hf|]. by apply I7.
Qed.

Lemma advance_ok m iid i pc : minv None None m → m_inits m !! iid = Some i → fin_owner (m_fin m) ≠ Some iid →
  pc_ok m iid (with_pc pc i) → minv None None (update_init iid (with_pc pc) m).
Proof.
  intros I Hi Hfo Hp. eapply update_aside; try done; [by apply minv_weaken|]. right. split; [done|]. split; [done|].
  by apply (mi_inits _ _ _ I iid i).
Qed.

Lemma take_lock m iid key : minv None None m → m_locks m !! key = None →
  minv None None (set_locks (<[key := iid]> (m_locks m)) m).
Proof.
  intros [I1 I2 I3 I4 I5 I6 I7 I8 I9 I10] Hk. constructor; try done.
  - intros iid' i' Hi' Hx. destruct (I4 iid' i' Hi' Hx) as [G1 G2]. split; [|done].
    eapply (pc_ok_other m _ iid' i' key 0); try done; [|by right]. unfold has_lock. cbn. intros Hl.
    rewrite lookup_insert_ne; [done|]. intros ->. congruence.
Qed.

(** [transition.finish()] inside finalization. *)
Lemma finish_own m iid i l' : minv None None m → m_inits m !! iid = Some i → i_active i = true →
  fin_owner (m_fin m) ≠ Some iid → finished (m_lifecycle m) l' (i_key i) (i_gen i) →
  minv (Some iid) None (update_init iid (with_active false) (set_lifecycle l' m)).
Proof.
  intros I Hi Hact Hfo Hf. eapply (update_aside _ _ _ _ i); try done; [|by left].
  pose proof I as [I1 I2 I3 I4 I5 I6 I7 I8 I9 I10]. constructor; try done.
  - intros iid' i' Hi' Hx. destruct (I4 iid' i' Hi' ltac:(done)) as [G1 G2].
    assert (Hn : i_active i' = true → i_gen i' ≠ i_gen i).
    { intros Ha Heq. apply Hx. f_equal. eapply I5; eauto. }
    split; [eapply (pc_ok_other m); try done; eauto|]. intros Ha. cbn. eapply finished_pending; eauto.
  - cbn. intros iid' i' Hi'. destruct Hf as (-> & _). eauto.
  - intros f Hf'. eapply fin_ok_lifecycle; [done|]. by apply I7.
Qed.

Lemma start_session_ok x key m sid m' : start_session key m = (sid, m') → minv x None m →
  minv x (Some sid) m' ∧ sid = m_next m ∧ m_all m' !! sid = Some (mkSession key ∅ ∅ false Pending) ∧
  m_inits m' = m_inits m ∧ m_fin m' = m_fin m ∧ m_sessions m' = m_sessions m ∧ m_shut m' = m_shut m ∧ m_locks m' = m_locks m.
Proof.
  intros [= <- <-] [I1 I2 I3 I4 I5 I6 I7 I8 I9 I10].
  assert (Hfresh : m_all m !! m_next m = None).
  { destruct (m_all m !! m_next m) eqn:E; [|done]. pose proof (I1 (m_next m) (or_introl (mk_is_Some _ _ E))). lia. }
  assert (Hall : ∀ n s, m_all m !! n = Some s → <[m_next m := mkSession key ∅ ∅ false Pending]> (m_all m) !! n = Some s).
  { intros n s Hn. rewrite lookup_insert_ne; [done|]. intros <-. congruence. }
  split; [|split_and!; try done; cbn; apply lookup_insert_eq]. constructor; cbn; try done.
  - intros n Hn. destruct (decide (n = m_next m)) as [->|Hne]; [lia|]. rewrite lookup_insert_ne in Hn by done.
    specialize (I1 n Hn). lia.
  - intros k s Hk. destruct (I2 k s Hk) as (s' & H1 & H2). exists s'. by rewrite (Hall _ _ H1).
  - intros n s Hs Hc Hy. rewrite lookup_insert_ne in Hs by congruence. by apply (I3 n s).
  - intros f Hf. specialize (I7 f Hf). destruct f; try done. destruct I7 as (H1 & i & s & H2 & H3 & H4 & H5).
    split; [done|]. exists i, s. cbn. by rewrite (Hall _ _ H4).
Qed.

(** An initializer that is set aside takes the mutex. *)
Lemma enter_fin y m iid i f : minv (Some iid) y m → m_fin m = None → m_inits m !! iid = Some i → i_pc i = PFinal →
  i_active i = false → has_lock m iid i → m_shut m = false → fin_owner (Some f) = Some iid →
  fin_ok (set_fin (Some f) m) f → (y = None ∨ ∃ sid, y = Some sid ∧ f = FinPublish iid sid) →
  minv None None (set_fin (Some f) m).
Proof.
  intros [I1 I2 I3 I4 I5 I6 I7 I8 I9 I10] Hn Hi Hp Ha Hl Hs Ho Hf Hy. constructor; try done.
  - intros sid s H1 H2 _. unfold published. cbn. destruct Hy as [-> |(sid' & -> & ->)].
    + destruct (I3 sid s H1 H2 ltac:(done)) as [H|[x H]]; [by left|congruence].
    + destruct (decide (sid' = sid)) as [->|Hne]; [right; by exists iid|].
      destruct (I3 sid s H1 H2 ltac:(congruence)) as [H|[x H]]; [by left|congruence].
  - intros iid' i' Hi' _. destruct (decide (iid' = iid)) as [->|Hne].
    + assert (i' = i) as -> by (cbn in Hi'; congruence). split; [|by rewrite Ha]. unfold pc_ok. rewrite Hp. done.
    + destruct (I4 iid' i' Hi' ltac:(congruence)) as [G1 G2]. split; [|done]. unfold pc_ok in *.
      destruct (i_pc i'); try done. rewrite Hn in G1. by destruct G1 as (_ & _ & ?).
  - cbn. by intros f' [= <-].
  - cbn. congruence.
  - cbn. intros key pid Hk. destruct (I9 key pid Hk) as (p & H1 & H2 & H3). exists p. split_and!; try done.
    destruct H3 as [H3|(r & H3 & _)]; [by left|congruence].
Qed.

(** The mutex is given up; the initializer that held it is set aside. *)
Lemma leave_fin m iid f : minv None None m → m_fin m = Some f → fin_owner (Some f) = Some iid →
  minv (Some iid) (match f with FinPublish _ sid => Some sid | _ => None end) (set_fin None m).
Proof.
  intros [I1 I2 I3 I4 I5 I6 I7 I8 I9 I10] Hf Ho. constructor; try done.
  - intros sid s H1 H2 Hy. left. destruct (I3 sid s H1 H2 ltac:(done)) as [H|[x H]]; [done|].
    rewrite Hf in H. injection H as ->. congruence.
  - intros iid' i' Hi' Hne. destruct (I4 iid' i' Hi' ltac:(done)) as [G1 G2]. split; [|done]. unfold pc_ok in *.
    destruct (i_pc i'); try done. rewrite Hf, Ho in G1. destruct G1 as (_ & _ & [= ->]). done.
  - cbn. intros Hs. specialize (I7 f Hf). destruct f; try done; unfold fin_ok in I7; destruct I7 as [I7 _]; congruence.
  - cbn. intros key pid Hk. destruct (I9 key pid Hk) as (p & H1 & H2 & H3). exists p. split_and!; try done.
    left. destruct H3 as [H3|(r & H3 & _)]; [done|]. rewrite Hf in H3. injection H3 as ->. done.
Qed.

(** The session of an initializer that is set aside enters the map. *)
Lemma publish_session m iid key sid s : minv (Some iid) (Some sid) m → m_fin m = None → m_all m !! sid = Some s →
  s_key s = key → s_cancel s = false → m_sessions m !! key = None → m_locks m !! key = Some iid → m_shut m = false →
  minv (Some iid) None (set_sessions (<[key := sid]> (m_sessions m)) m).
Proof.
  intros [I1 I2 I3 I4 I5 I6 I7 I8 I9 I10] Hn Hs Hk Hc Hnone Hl Hsh.
  assert (Hins : ∀ key' sid', m_sessions m !! key' = Some sid' → <[key := sid]> (m_sessions m) !! key' = Some sid').
  { intros key' sid' H. rewrite lookup_insert_ne; [done|]. intros ->. congruence. }
  constructor; cbn; try done.
  - intros key' sid'. destruct (decide (key = key')) as [<-|Hne].
    + rewrite lookup_insert_eq. intros [= <-]. by exists s.
    + rewrite lookup_insert_ne by done. apply I2.
  - intros sid' s' H1 H2 _. left. cbn. destruct (decide (sid' = sid)) as [->|Hne].
    + assert (s' = s) as -> by congruence. rewrite Hk. apply lookup_insert_eq.
    + destruct (I3 sid' s' H1 H2 ltac:(congruence)) as [H|[x H]]; [by apply Hins|congruence].
  - intros iid' i' Hi' Hne. destruct (I4 iid' i' Hi' Hne) as [G1 G2]. split; [|done].
    assert (Hno : has_lock m iid' i' → i_key i' ≠ key) by (unfold has_lock; congruence).
    unfold pc_ok, has_lock in *. cbn. destruct (i_pc i') as [| | | | |[]| | |]; try done.
    + rewrite lookup_insert_ne by naive_solver. done.
    + rewrite lookup_insert_ne by naive_solver. done.
    + destruct G1 as (H1 & H2 & H3 & H4). split_and!; try done. intros Hx Hy. destruct (H4 Hx Hy) as [v Hv]. eauto.
  - intros f Hf. congruence.
  - congruence.
  - intros key' pid Hp. destruct (I9 key' pid Hp) as (p & H1 & H2 & H3). exists p. split_and!; try done.
    destruct H3 as [[H3|H3]|H3]; [left; left; by apply Hins|by left; right|by right].
Qed.
End invariant.

(** ** Every step keeps the invariant *)

Definition no_orphan (key : StreamKey) : Prop := False.
Definition manager_ok (m : Manager) : Prop := minv no_orphan None None m.

Lemma core_eq_refl m : core_eq m m.
Proof. by constructor. Qed.

Lemma update_session_core sid f m : (∀ s, s_key (f s) = s_key s ∧ s_cancel (f s) = s_cancel s) →
  core_eq m (update_session sid f m).
Proof.
  intros Hf. constructor; try done. cbn. intros n. destruct (decide (sid = n)) as [<-|Hn].
  - rewrite lookup_alter_eq. destruct (m_all m !! sid) as [s|]; [|done]. simpl. by destruct (Hf s) as [-> ->].
  - by rewrite lookup_alter_ne.
Qed.

Lemma core_eq_trans m1 m2 m3 : core_eq m1 m2 → core_eq m2 m3 → core_eq m1 m3.
Proof.
  intros [] []. constructor; try congruence. lia.
Qed.

Lemma bump_core m : core_eq m (bump_next m).
Proof. constructor; try done. cbn. lia. Qed.

Lemma acquire_core k sid m : core_eq m (acquire k sid m).2.
Proof.
  destruct k; cbn [acquire snd]; try apply core_eq_refl;
    (eapply core_eq_trans; [|apply bump_core]; by apply update_session_core).
Qed.

Lemma prune_core m : core_eq m (prune_stops m).
Proof. by constructor. Qed.

Lemma record_stop_core key c m : core_eq m (record_stop key c m).
Proof. unfold record_stop. case_bool_decide; by constructor. Qed.

(** Only an initializer in its last part owns the mutex. *)
Lemma owner_final z m iid i : minv z None None m → m_inits m !! iid = Some i → i_pc i ≠ PFinal →
  fin_owner (m_fin m) ≠ Some iid.
Proof.
  intros I Hi Hp Ho. destruct (m_fin m) as [f|] eqn:Hf; [|done]. pose proof (mi_fin _ _ _ _ I f Hf) as H.
  destruct f; try done; injection Ho as ->; unfold fin_ok in H; destruct H as (_ & i' & H); naive_solver congruence.
Qed.

Lemma return_plain m iid i res : manager_ok m → m_inits m !! iid = Some i → i_pc i ≠ PFinal →
  manager_ok (init_return iid i res m).
Proof. intros I Hi Hp. apply return_ok; [by apply minv_weaken|done|by eapply owner_final]. Qed.

Lemma core_return m m' iid i res : manager_ok m → m_inits m !! iid = Some i → i_pc i ≠ PFinal → core_eq m m' →
  manager_ok (init_return iid i res m').
Proof.
  intros I Hi Hp Hc. apply return_plain; [by eapply core_minv| |done]. by rewrite (ce_inits _ _ Hc).
Qed.

Lemma take_running_ok m iid i sid : manager_ok m → m_inits m !! iid = Some i → i_pc i ≠ PFinal →
  manager_ok (take_running iid i sid m).
Proof.
  intros I Hi Hp. unfold take_running. destruct (_ || _); [by apply return_plain|].
  pose proof (acquire_core (i_kind i) sid m) as Hc. destruct (acquire (i_kind i) sid m) as [g m']. by eapply core_return.
Qed.

(** Finalization: the initializer is disposed of, returns, or takes the mutex. *)
Lemma finalize_ok m iid i src : manager_ok m → m_inits m !! iid = Some i → i_pc i = POpened src → m_fin m = None →
  manager_ok (finalize iid i src m).
Proof.
  intros I Hi Hp Hn. assert (Hpc : i_pc i ≠ PFinal) by congruence.
  pose proof (owner_final _ _ _ _ I Hi Hpc) as Hfo. destruct (mi_inits _ _ _ _ I iid i Hi ltac:(done)) as [Hok Hgen].
  unfold pc_ok in Hok. rewrite Hp in Hok.
  assert (Hact : i_active i = true) by (destruct src; apply Hok).
  assert (Hlock : has_lock m iid i) by (destruct src; apply Hok).
  unfold finalize. destruct (negb (support_current m (i_kind i)) || i_cancel i).
  { destruct src; [|by apply return_plain]. by eapply advance_ok. }
  destruct (finish_finished (m_lifecycle m) (i_key i) (i_gen i)) as [Hf Hc].
  destruct (lifecycle_finish (m_lifecycle m) (i_key i) (i_gen i)) as [c l]. cbn [fst snd] in Hf, Hc.
  pose proof (finish_own _ m iid i l I Hi Hact Hfo Hf) as I1.
  set (m1 := update_init iid (with_active false) (set_lifecycle l m)) in *.
  assert (Hi1 : m_inits m1 !! iid = Some (with_active false i)).
  { unfold m1. rewrite lookup_update_init, decide_True by done. cbn. by rewrite Hi. }
  destruct (c || m_shut m1) eqn:Ecs.
  { destruct src; [|by apply return_ok]. eapply update_aside; try done. right. split; [done|]. by split. }
  apply orb_false_iff in Ecs as [-> Hsh]. cbn in Hsh.
  set (m2 := update_init iid (with_pc PFinal) m1).
  assert (I2 : minv no_orphan (Some iid) None m2) by (eapply update_aside; try done; by left).
  assert (Hi2 : m_inits m2 !! iid = Some (with_pc PFinal (with_active false i))).
  { unfold m2. rewrite lookup_update_init, decide_True by done. by rewrite Hi1. }
  change (i_kind (with_active false i)) with (i_kind i).
  change (i_key (with_active false i)) with (i_key i). destruct (is_hls (i_kind i)) eqn:Eh.
  - eapply (enter_fin _ None _ _ _ _ I2); try done; [|by left]. split; [done|]. eexists. split; [exact Hi2|].
    split; [done|]. cbn. destruct src; [apply Hok|]. apply Hok; [by rewrite <- Hc|done].
  - destruct (start_session (i_key i) m2) as [sid m3] eqn:Es.
    destruct (start_session_ok _ _ _ _ _ _ Es I2) as (I3 & _ & G1 & G2 & G3 & G4 & G5 & G6).
    assert (src = true) as -> by (destruct src; [done|]; destruct Hok as (_ & _ & ? & _); congruence).
    eapply (enter_fin _ (Some sid) _ iid (with_pc PFinal (with_active false i)) _ I3); try done.
    + by rewrite G3.
    + by rewrite G2.
    + unfold has_lock. by rewrite G6.
    + by rewrite G5.
    + split; [by rewrite <- Hsh|]. cbn. rewrite G2, G4. eexists _, _. split_and!; try done. apply Hok.
    + right. by exists sid.
Qed.

#[local] Ltac returns := apply return_plain; [assumption|assumption|congruence].

Lemma init_step_ok m iid m' : manager_ok m → init_step m iid = Next m' → manager_ok m'.
Proof.
  intros I. unfold init_step. destruct (m_inits m !! iid) as [i|] eqn:Hi; [|done].
  destruct (mi_inits _ _ _ _ I iid i Hi ltac:(done)) as [Hok Hgen].
  assert (Hfo : i_pc i ≠ PFinal → fin_owner (m_fin m) ≠ Some iid) by (by eapply owner_final).
  unfold pc_ok in Hok. destruct (i_pc i) as [| | | | |src| | |] eqn:Hp; try done; try specialize (Hfo ltac:(done)).
  - destruct (fenced m i); intros [= <-]; [returns|].
    apply (advance_ok _ _ _ i); try done. unfold pc_ok. destruct (is_hls (i_kind i)); done.
  - destruct (m_sessions m !! i_key i) as [sid|]; intros [= <-]; [apply take_running_ok; [assumption|assumption|congruence]|].
    by apply (advance_ok _ _ _ i).
  - destruct (i_cancel i); [intros [= <-]; returns|].
    destruct (m_locks m !! i_key i) eqn:Hl; [done|].
    pose proof (take_lock _ m iid (i_key i) I Hl) as I1. cbv zeta.
    destruct (fenced _ i); intros [= <-]; [returns|].
    apply (advance_ok _ _ _ i); try done. split; [done|]. unfold has_lock. cbn. apply lookup_insert_eq.
  - destruct (m_sessions m !! i_key i) as [sid|] eqn:Hs.
    + destruct (is_hls (i_kind i)) eqn:Eh; intros [= <-]; [|apply take_running_ok; [assumption|assumption|congruence]].
      apply (advance_ok _ _ _ i); try done. unfold pc_ok, has_lock. cbn. rewrite Hs. naive_solver.
    + intros [= <-]. unfold open_source. destruct (reserve (m_adm m)) as [a|]; [|returns].
      apply (advance_ok _ _ _ i); try done; [by eapply core_minv; [|done]; constructor|].
      unfold pc_ok, has_lock. cbn. naive_solver.
  - destruct (m_fin m) eqn:Hn; [done|]. intros [= <-]. by apply finalize_ok.
Qed.

(** ** Retiring *)

Definition is_reap3 (f : option FinOp) : Prop := ∃ r, f = Some (FinReap3 r).

(** No initializer counts on the session of the key. *)
Definition unneeded (m : Manager) (key : StreamKey) : Prop :=
  ∀ iid i, m_inits m !! iid = Some i → i_pc i = POpened false → i_key i = key →
    is_cancelled (m_lifecycle m) key (i_gen i) = true ∨ m_shut m = true.

(** Sessions leave the map and are cancelled. *)
Lemma unpublish z z' m m' : minv z None None m → fin_owner (m_fin m) = None → ¬ is_reap3 (m_fin m) →
  (∀ key sid, m_sessions m' !! key = Some sid → m_sessions m !! key = Some sid) →
  (∀ key, m_sessions m' !! key = None → unneeded m key ∨ m_sessions m !! key = None) →
  (∀ key pid, m_packagers m !! key = Some pid → z key ∨ (m_sessions m' !! key = None ∧ is_Some (m_sessions m !! key)) → z' key) →
  (∀ n s', m_all m' !! n = Some s' → ∃ s, m_all m !! n = Some s ∧ s_key s = s_key s' ∧
     (s_cancel s' = false → s_cancel s = false ∧ m_sessions m' !! s_key s' = Some n)) →
  (∀ key n, m_sessions m' !! key = Some n → m_all m' !! n = m_all m !! n) →
  m_packagers m' = m_packagers m → m_pkgs m' = m_pkgs m → m_lifecycle m' = m_lifecycle m → m_locks m' = m_locks m →
  m_fin m' = m_fin m → m_inits m' = m_inits m → m_shut m' = m_shut m → m_next m' = m_next m →
  minv z' None None m'.
Proof.
  intros [I1 I2 I3 I4 I5 I6 I7 I8 I9 I10] Hfo Hr3 Hsub Hun Hz Hall Hsame E1 E2 E3 E4 E5 E6 E7 E8.
  constructor; rewrite ?E1, ?E2, ?E3, ?E5, ?E6, ?E7, ?E8; try done.
  - intros n Hn. apply I1. destruct Hn as [[s Hs]|Hn]; [|by right]. destruct (Hall n s Hs) as (s0 & -> & _). left. eauto.
  - intros key sid Hk. rewrite (Hsame key sid Hk). by apply I2, Hsub.
  - intros sid s' H1 H2 _. left. by destruct (Hall sid s' H1) as (s & _ & _ & G); apply G.
  - intros iid i Hi _. destruct (I4 iid i Hi ltac:(done)) as [G1 G2]. split; [|by rewrite E3].
    unfold pc_ok, has_lock in *. rewrite E3, E4, E5, E7. destruct (i_pc i) as [| | | | |[]| | |] eqn:Hp; try done.
    + destruct G1 as (A & B & C). split_and!; try done. destruct (m_sessions m' !! i_key i) eqn:E; [|done].
      apply Hsub in E. congruence.
    + destruct G1 as (A & B & C). split_and!; try done. destruct (m_sessions m' !! i_key i) eqn:E; [|done].
      apply Hsub in E. congruence.
    + destruct G1 as (A & B & C & D). split_and!; try done. intros Hc Hs.
      destruct (m_sessions m' !! i_key i) eqn:E; [by eexists|]. destruct (Hun _ E) as [Hu|Hn].
      * destruct (Hu iid i Hi Hp eq_refl); congruence.
      * specialize (D Hc Hs). rewrite Hn in D. by destruct D.
  - intros f Hf. specialize (I7 f Hf). rewrite Hf in Hfo. destruct f; try done; unfold fin_ok in *; rewrite ?E1, ?E3, ?E7; try done.
    destruct Hr3. exists retained. done.
  - intros Hs. destruct (I8 Hs) as [H|H]; [left|by right]. apply map_empty. intros key.
    destruct (m_sessions m' !! key) eqn:E; [|done]. apply Hsub in E. rewrite H in E. done.
  - intros key pid Hp. destruct (I9 key pid Hp) as (p & H1 & H2 & H3). exists p. split_and!; try done.
    destruct H3 as [[H3|H3]|(r & H3 & _)]; [|left; right; eauto|destruct Hr3; by exists r].
    left. destruct (m_sessions m' !! key) as [n|] eqn:E; [left; apply Hsub in E; congruence|right]. eapply Hz; eauto.
Qed.

Lemma more_orphans (z z' : StreamKey → Prop) m : minv z None None m → (∀ key, z key → z' key) → minv z' None None m.
Proof.
  intros [I1 I2 I3 I4 I5 I6 I7 I8 I9 I10] Hz. constructor; try done.
  intros key pid Hp. destruct (I9 key pid Hp) as (p & H1 & H2 & H3). exists p. split_and!; try done.
  destruct H3 as [[H3|H3]|H3]; [by left; left|left; right; by apply Hz|by right].
Qed.

Lemma clear_orphans z m : minv z None None m → (∀ key, z key → m_packagers m !! key = None) → manager_ok m.
Proof.
  intros [I1 I2 I3 I4 I5 I6 I7 I8 I9 I10] Hz. constructor; try done.
  intros key pid Hp. destruct (I9 key pid Hp) as (p & H1 & H2 & H3). exists p. split_and!; try done.
  destruct H3 as [[H3|H3]|H3]; [by left; left| |by right]. apply Hz in H3. congruence.
Qed.

Lemma record_stop_fields key c m : let m' := record_stop key c m in
  m_all m' = m_all m ∧ m_pkgs m' = m_pkgs m ∧ m_next m' = m_next m.
Proof. unfold record_stop. by case_bool_decide. Qed.

(** What [retire_session] does to the parts of the state. *)
Lemma retire_session_fields key m sid : m_sessions m !! key = Some sid → let m' := retire_session key m in
  m_sessions m' = delete key (m_sessions m) ∧ m_all m' = alter session_cancel sid (m_all m) ∧
  m_packagers m' = m_packagers m ∧ m_pkgs m' = m_pkgs m ∧ m_lifecycle m' = m_lifecycle m ∧ m_locks m' = m_locks m ∧
  m_fin m' = m_fin m ∧ m_inits m' = m_inits m ∧ m_shut m' = m_shut m ∧ m_next m' = m_next m.
Proof.
  intros Hk. unfold retire_session, record_stop. rewrite Hk. by case_bool_decide.
Qed.

Lemma retire_session_ok z m key : minv z None None m → fin_owner (m_fin m) = None → ¬ is_reap3 (m_fin m) →
  unneeded m key → minv (λ k, z k ∨ k = key) None None (retire_session key m).
Proof.
  intros I Hfo Hr Hu. destruct (m_sessions m !! key) as [sid|] eqn:Hk.
  2: { unfold retire_session. rewrite Hk. eapply more_orphans; [done|]. auto. }
  destruct (retire_session_fields key m sid Hk) as (F1 & F2 & F3 & F4 & F5 & F6 & F7 & F8 & F9 & F10).
  destruct (mi_map _ _ _ _ I key sid Hk) as (s0 & Hs0 & Hkey & Hc0).
  eapply (unpublish z _ m); try done; rewrite ?F1.
  - intros k n. rewrite lookup_delete_Some. naive_solver.
  - intros k Hn. apply lookup_delete_None in Hn as [-> |Hn]; [by left|by right].
  - intros k pid Hp [Hz|[Hn [v Hv]]]; [by left|right]. apply lookup_delete_None in Hn as [-> |Hn]; [done|congruence].
  - intros n s'. rewrite F2, lookup_alter. destruct (decide (sid = n)) as [<-|Hne].
    + rewrite Hs0. intros [= <-]. exists s0. cbn. naive_solver.
    + intros Hs. exists s'. split_and!; try done. intros Hc. split; [done|].
      destruct (mi_live _ _ _ _ I n s' Hs Hc ltac:(done)) as [Hx|[iid H]]; [|by rewrite H in Hfo].
      rewrite lookup_delete_ne; [done|]. intros Heq. rewrite <- Heq in Hx. congruence.
  - intros k n. rewrite lookup_delete_Some, F2. intros [Hne Hn]. rewrite lookup_alter_ne; [done|].
    intros ->. destruct (mi_map _ _ _ _ I k n Hn) as (s1 & H1 & H2 & _). congruence.
Qed.

Lemma unneeded_retire m key key' : unneeded m key → unneeded (retire_session key' m) key.
Proof.
  unfold unneeded. destruct (m_sessions m !! key') as [sid|] eqn:Hk; [|unfold retire_session; by rewrite Hk].
  destruct (retire_session_fields key' m sid Hk) as (_ & _ & _ & _ & -> & _ & _ & -> & -> & _). done.
Qed.

Lemma retire_fin key m : m_fin (retire_session key m) = m_fin m.
Proof.
  destruct (m_sessions m !! key) as [sid|] eqn:Hk; [|unfold retire_session; by rewrite Hk].
  by destruct (retire_session_fields key m sid Hk) as (_ & _ & _ & _ & _ & _ & -> & _).
Qed.

Lemma retire_gone key m : m_sessions (retire_session key m) !! key = None.
Proof.
  destruct (m_sessions m !! key) as [sid|] eqn:Hk; [|unfold retire_session; by rewrite Hk].
  destruct (retire_session_fields key m sid Hk) as (-> & _). apply lookup_delete_eq.
Qed.

Lemma retire_absent key key' m : m_sessions m !! key = None → m_sessions (retire_session key' m) !! key = None.
Proof.
  destruct (m_sessions m !! key') as [sid|] eqn:Hk; [|unfold retire_session; by rewrite Hk].
  destruct (retire_session_fields key' m sid Hk) as (-> & _). intros H. by apply lookup_delete_None; right.
Qed.

Lemma retire_all_ok keys m z : minv z None None m → fin_owner (m_fin m) = None → ¬ is_reap3 (m_fin m) →
  Forall (unneeded m) keys →
  minv (λ k, z k ∨ k ∈ keys) None None (foldr retire_session m keys) ∧ m_fin (foldr retire_session m keys) = m_fin m ∧
  (∀ key, unneeded m key → unneeded (foldr retire_session m keys) key) ∧
  (∀ key, key ∈ keys → m_sessions (foldr retire_session m keys) !! key = None).
Proof.
  intros I Hfo Hr. induction 1 as [|key keys Hu Hus IH]; cbn [foldr].
  - split_and!; try done; [|intros key H; by apply elem_of_nil in H]. eapply more_orphans; [done|]. auto.
  - destruct IH as (I1 & F1 & U1 & G1). split_and!.
    + pose proof (retire_session_ok _ _ key I1 ltac:(by rewrite F1) ltac:(by rewrite F1) (U1 _ Hu)) as I2.
      eapply more_orphans; [done|]. set_solver.
    + by rewrite retire_fin.
    + intros k Hk. apply unneeded_retire. by apply U1.
    + intros k Hk. apply elem_of_cons in Hk as [-> |Hk]; [apply retire_gone|]. apply retire_absent. by apply G1.
Qed.

Lemma retire_packager_fields key m pid : m_packagers m !! key = Some pid → let m' := retire_packager key m in
  m_packagers m' = delete key (m_packagers m) ∧
  m_pkgs m' = alter (λ p, mkPackager (p_session p) (p_access p) true (p_done p)) pid (m_pkgs m) ∧
  m_sessions m' = m_sessions m ∧ m_all m' = m_all m ∧ m_lifecycle m' = m_lifecycle m ∧ m_locks m' = m_locks m ∧
  m_fin m' = m_fin m ∧ m_inits m' = m_inits m ∧ m_shut m' = m_shut m ∧ m_next m' = m_next m.
Proof. intros Hk. unfold retire_packager, record_stop. rewrite Hk. by case_bool_decide. Qed.

Lemma retire_packager_ok z m key : minv z None None m → minv z None None (retire_packager key m).
Proof.
  intros I. destruct (m_packagers m !! key) as [pid|] eqn:Hk; [|unfold retire_packager; by rewrite Hk].
  destruct (retire_packager_fields key m pid Hk) as (F1 & F2 & F3 & F4 & F5 & F6 & F7 & F8 & F9 & F10).
  destruct I as [I1 I2 I3 I4 I5 I6 I7 I8 I9 I10].
  constructor; unfold init_ok, pc_ok, has_lock, published; rewrite ?F1, ?F3, ?F4, ?F5, ?F6, ?F7, ?F8, ?F9, ?F10; try done.
  - intros n Hn. apply I1. destruct Hn as [?|Hn]; [by left|right]. rewrite F2, lookup_alter in Hn.
    by destruct (decide (pid = n)) as [<-|]; [apply fmap_is_Some in Hn|].
  - intros f Hf. specialize (I7 f Hf). destruct f; unfold fin_ok in *; rewrite ?F1, ?F3, ?F4, ?F5, ?F8, ?F9; try done.
    + destruct I7 as [H1 H2]. split; [done|]. by apply lookup_delete_None; right.
    + destruct I7 as [H1 H2]. rewrite H2 in Hk. done.
  - intros k pid'. rewrite lookup_delete_Some. intros [Hne Hp]. destruct (I9 k pid' Hp) as (p & H1 & H2 & H3).
    exists p. rewrite F2, lookup_alter_ne; [done|]. intros <-. apply Hne. by eapply I10.
  - intros k k' p. rewrite !lookup_delete_Some. intros [_ H1] [_ H2]. by eapply I10.
Qed.

Lemma retire_packager_same key m : let m' := retire_packager key m in
  m_fin m' = m_fin m ∧ m_sessions m' = m_sessions m ∧ m_packagers m' = delete key (m_packagers m).
Proof.
  destruct (m_packagers m !! key) as [pid|] eqn:Hk.
  - by destruct (retire_packager_fields key m pid Hk) as (F1 & _ & F3 & _ & _ & _ & F7 & _).
  - unfold retire_packager. rewrite Hk. by rewrite delete_id.
Qed.

Lemma retire_packagers_ok z keys m : minv z None None m → let m' := foldr retire_packager m keys in
  minv z None None m' ∧ m_fin m' = m_fin m ∧ m_sessions m' = m_sessions m ∧
  (∀ key, key ∈ keys → m_packagers m' !! key = None) ∧
  (∀ key, m_packagers m !! key = None → m_packagers m' !! key = None).
Proof.
  intros I. induction keys as [|key keys IH]; cbn [foldr].
  - split_and!; try done. intros key H. by apply elem_of_nil in H.
  - destruct IH as (I1 & F & S & G1 & G2). destruct (retire_packager_same key (foldr retire_packager m keys)) as (E1 & E2 & E3).
    split_and!; [by apply retire_packager_ok|congruence|congruence| |].
    + intros k Hk. rewrite E3. apply lookup_delete_None. apply elem_of_cons in Hk as [-> |Hk]; [by left|right; by apply G1].
    + intros k Hk. rewrite E3. apply lookup_delete_None. right. by apply G2.
Qed.

(** The mutex passes between tasks that are not initializers. *)
Lemma move_fin z z' m f' : minv z None None m → fin_owner (m_fin m) = None → fin_owner f' = None →
  (∀ f, f' = Some f → fin_ok m f) →
  (m_shut m = true → m_sessions m = ∅ ∨ f' = Some FinShut1 ∨ f' = Some FinShut2) →
  (∀ key pid, m_packagers m !! key = Some pid → z key ∨ (∃ r, m_fin m = Some (FinReap3 r) ∧ key ∉ r) →
     z' key ∨ ∃ r, f' = Some (FinReap3 r) ∧ key ∉ r) →
  minv z' None None (set_fin f' m).
Proof.
  intros [I1 I2 I3 I4 I5 I6 I7 I8 I9 I10] Hfo Hfo' Hf Hs Hz. constructor; try done.
  - intros sid s H1 H2 Hy. left. destruct (I3 sid s H1 H2 Hy) as [H|[iid H]]; [done|]. by rewrite H in Hfo.
  - intros iid i Hi Hx. destruct (I4 iid i Hi Hx) as [G1 G2]. split; [|done]. unfold pc_ok in *.
    destruct (i_pc i); try done. rewrite Hfo in G1. by destruct G1 as (_ & _ & ?).
  - cbn. intros key pid Hp. destruct (I9 key pid Hp) as (p & H1 & H2 & H3). exists p. split_and!; try done.
    destruct H3 as [[H3|H3]|H3]; [by left; left| |].
    + destruct (Hz key pid Hp (or_introl H3)); [left; by right|by right].
    + destruct (Hz key pid Hp (or_intror H3)); [left; by right|by right].
Qed.

(** An initializer that returns from inside the mutex. *)
Lemma set_fin_return m iid i res : set_fin None (init_return iid i res m) = init_return iid i res (set_fin None m).
Proof. unfold init_return. by destruct (i_active i), (holds_lock _ iid (i_key i)). Qed.

Lemma publish_packager_ok z x m key sid pid m' : publish_packager key sid m = (pid, m') → minv z x None m →
  m_fin m = None → m_sessions m !! key = Some sid →
  minv z x None m' ∧ m_inits m' = m_inits m ∧ m_fin m' = m_fin m.
Proof.
  intros E I Hn Hk. unfold publish_packager in E. destruct (m_packagers m !! key) as [pid'|] eqn:Hp; injection E as <- <-; [done|].
  destruct I as [I1 I2 I3 I4 I5 I6 I7 I8 I9 I10]. split; [|done].
  assert (Hfresh : ∀ k, m_packagers m !! k ≠ Some (m_next m)).
  { intros k Hx. destruct (I9 k _ Hx) as (p & H1 & _). pose proof (I1 (m_next m) (or_intror (mk_is_Some _ _ H1))). lia. }
  constructor; cbn; try done.
  - intros n Hc. destruct (decide (n = m_next m)) as [->|Hne]; [lia|]. rewrite lookup_insert_ne in Hc by done.
    specialize (I1 n Hc). lia.
  - intros f Hf. congruence.
  - intros k pid'. destruct (decide (key = k)) as [<-|Hne].
    + rewrite lookup_insert_eq. intros [= <-]. eexists. rewrite lookup_insert_eq. split_and!; try done. by left; left.
    + rewrite lookup_insert_ne by done. intros Hx. destruct (I9 k pid' Hx) as (p & H1 & H2). exists p.
      rewrite lookup_insert_ne; [done|]. intros <-. by apply (Hfresh k).
  - intros k k' p. destruct (decide (key = k)) as [<-|Hne], (decide (key = k')) as [<-|Hne']; rewrite ?lookup_insert_eq, ?lookup_insert_ne by done; try done.
    + intros [= <-] Hx. by apply Hfresh in Hx.
    + intros Hx [= <-]. by apply Hfresh in Hx.
    + by apply I10.
Qed.

Lemma native_core pid now m : core_eq m (record_native_access pid now m).
Proof.
  constructor; try done. cbn. intros n. destruct (decide (pid = n)) as [<-|Hne].
  - rewrite lookup_alter_eq. by destruct (m_pkgs m !! pid).
  - by rewrite lookup_alter_ne.
Qed.

(** ** The steps inside the mutex *)

Lemma fin_publish_ok m iid sid i : manager_ok m → m_fin m = Some (FinPublish iid sid) → m_inits m !! iid = Some i →
  m_sessions m !! i_key i = None ∧
  ∀ res, manager_ok (set_fin None (init_return iid i res
           (acquire (i_kind i) sid (set_sessions (<[i_key i := sid]> (m_sessions m)) m)).2)).
Proof.
  intros I Hf Hi. pose proof (mi_fin _ _ _ _ I _ Hf) as (Hs & i' & s & Hi' & Hp & H1 & H2 & H3 & H4).
  assert (i' = i) as -> by congruence. split; [done|]. intros res.
  destruct (mi_inits _ _ _ _ I iid i Hi ltac:(done)) as [Hok _]. unfold pc_ok in Hok. rewrite Hp in Hok.
  pose proof (leave_fin _ m iid _ I Hf eq_refl) as I0. cbn in I0.
  pose proof (publish_session _ _ iid (i_key i) sid s I0 eq_refl H1 H2 H3 H4 ltac:(apply Hok) Hs) as I1.
  rewrite set_fin_return. apply return_ok.
  - eapply core_minv; [|exact I1].
    pose proof (acquire_core (i_kind i) sid (set_sessions (<[i_key i := sid]> (m_sessions m)) (set_fin None m))) as Hc.
    by destruct (i_kind i).
  - by destruct (i_kind i).
  - by destruct (i_kind i).
Qed.

Lemma fin_owner_ok m iid f : manager_ok m → m_fin m = Some f → fin_owner (Some f) = Some iid →
  ∃ i, m_inits m !! iid = Some i ∧ i_pc i = PFinal ∧ i_active i = false ∧ has_lock m iid i ∧ m_shut m = false.
Proof.
  intros I Hf Ho. pose proof (mi_fin _ _ _ _ I _ Hf) as H.
  assert (∃ i, m_inits m !! iid = Some i ∧ i_pc i = PFinal ∧ m_shut m = false) as (i & Hi & Hp & Hs).
  { destruct f; try done; injection Ho as ->; unfold fin_ok in H; naive_solver. }
  exists i. destruct (mi_inits _ _ _ _ I iid i Hi ltac:(done)) as [Hok _]. unfold pc_ok in Hok. rewrite Hp in Hok.
  naive_solver.
Qed.

(** A native start goes on to the packager map with its session published. *)
Lemma enter_packagers m iid i sid h : minv no_orphan (Some iid) None m → m_fin m = None → m_inits m !! iid = Some i →
  i_pc i = PFinal → i_active i = false → has_lock m iid i → m_shut m = false → m_sessions m !! i_key i = Some sid →
  manager_ok (set_fin (Some (FinHlsPkg iid sid h)) (bump_next (update_session sid (session_subscribe h) m))).
Proof.
  intros I Hn Hi Hp Ha Hl Hs Hk. eapply (enter_fin _ None _ iid i); try done; [|by split; [|exists i]|by left].
  eapply core_minv; [|exact I]. eapply core_eq_trans; [|apply bump_core]. by apply update_session_core.
Qed.

Lemma fin_hls_ok m iid src now : manager_ok m → m_fin m = Some (FinHls iid src) →
  fin_step 0 m now ≠ Panicked ∧ ∀ grace m', fin_step grace m now = Next m' → manager_ok m'.
Proof.
  intros I Hf. destruct (fin_owner_ok m iid _ I Hf eq_refl) as (i & Hi & Hp & Ha & Hl & Hs).
  pose proof (mi_fin _ _ _ _ I _ Hf) as (_ & i' & Hi' & _ & Hsrc). assert (i' = i) as -> by congruence.
  pose proof (leave_fin _ m iid _ I Hf eq_refl) as I0. cbn in I0.
  assert (Hstep : ∀ grace, fin_step grace m now = fin_step 0 m now) by (intros; unfold_fin; by rewrite Hf).
  setoid_rewrite Hstep. clear Hstep. unfold_fin. rewrite Hf, Hi. destruct (m_sessions m !! i_key i) as [sid|] eqn:Hk.
  - destruct src; [done|]. split; [done|]. intros _ m' [= <-].
    by apply (enter_packagers (set_fin None m) iid i sid (m_next m)).
  - destruct src; [|by destruct Hsrc]. cbn [start_session]. split; [done|]. intros _ m' [= <-].
    destruct (start_session_ok _ _ (i_key i) (set_fin None m) _ _ eq_refl I0) as (I1 & _ & G1 & _).
    pose proof (publish_session _ _ iid (i_key i) (m_next m) _ I1 eq_refl G1 eq_refl eq_refl Hk Hl Hs) as I2.
    apply (enter_packagers _ iid i (m_next m) (m_next m + 1) I2); try done. cbn. apply lookup_insert_eq.
Qed.

Lemma fin_hls_pkg_ok m iid sid h i pid m1 : manager_ok m → m_fin m = Some (FinHlsPkg iid sid h) → m_inits m !! iid = Some i →
  publish_packager (i_key i) sid m = (pid, m1) →
  ∀ res, manager_ok (set_fin None (init_return iid i res m1)) ∧
    ∀ now, manager_ok (set_fin None (init_return iid i res (record_native_access pid now m1))).
Proof.
  intros I Hf Hi E res. pose proof (mi_fin _ _ _ _ I _ Hf) as (_ & i' & Hi' & _ & Hk).
  assert (i' = i) as -> by congruence. pose proof (leave_fin _ m iid _ I Hf eq_refl) as I0. cbn in I0.
  assert (E' : publish_packager (i_key i) sid (set_fin None m) = (pid, set_fin None m1)).
  { revert E. unfold publish_packager. cbn. destruct (m_packagers m !! i_key i); by intros [= <- <-]. }
  destruct (publish_packager_ok _ _ _ _ _ _ _ E' I0 eq_refl Hk) as (I1 & G1 & G2). cbn in G1.
  assert (Hr : ∀ m2, core_eq (set_fin None m1) m2 → manager_ok (init_return iid i res m2)).
  { intros m2 Hc. apply return_ok; [by eapply core_minv|rewrite (ce_inits _ _ Hc); cbn; congruence|].
    by rewrite (ce_fin _ _ Hc). }
  split; [rewrite set_fin_return; apply Hr, core_eq_refl|]. intros now. rewrite set_fin_return.
  apply (Hr (record_native_access pid now (set_fin None m1))), native_core.
Qed.

Lemma shut_empty z m : minv z None None m → m_fin m ≠ Some FinShut1 → m_fin m ≠ Some FinShut2 → m_shut m = true →
  m_sessions m = ∅.
Proof. intros I H1 H2 Hs. destruct (mi_shut _ _ _ _ I Hs) as [?|[?|?]]; done. Qed.

(** An initializer that counts on a session is pending. *)
Lemma seen_pending z m iid i : minv z None None m → m_inits m !! iid = Some i → i_pc i = POpened false →
  i_gen i ∈ pending_of (m_lifecycle m) (i_key i).
Proof.
  intros I Hi Hp. destruct (mi_inits _ _ _ _ I iid i Hi ltac:(done)) as [G1 G2]. unfold pc_ok in G1. rewrite Hp in G1.
  apply G2, G1.
Qed.

Lemma fin_stop1_ok m tid key : manager_ok m → m_fin m = Some (FinStop1 tid key) →
  manager_ok (set_fin (Some (FinStop2 tid key (m_packagers m !! key))) (retire_packager key m)).
Proof.
  intros I Hf. pose proof (retire_packager_ok _ m key I) as I1. pose proof (mi_fin _ _ _ _ I _ Hf) as Hc.
  destruct (retire_packager_same key m) as (E1 & E2 & E3).
  eapply (move_fin no_orphan); try done; rewrite ?E1, ?Hf.
  - done.
  - intros f [= <-]. split; [|rewrite E3; apply lookup_delete_eq].
    pose proof (mi_fin _ _ _ _ I1 _ ltac:(by rewrite E1)) as H. exact H.
  - intros Hs. left. apply (shut_empty _ _ I1); [congruence..|done].
  - intros k pid _ [[]|(r & [=] & _)].
Qed.

Lemma fin_stop2_ok m tid key entry : manager_ok m → m_fin m = Some (FinStop2 tid key entry) →
  manager_ok (retire_session key m).
Proof.
  intros I Hf. pose proof (mi_fin _ _ _ _ I _ Hf) as [Hc Hp]. eapply clear_orphans.
  - apply retire_session_ok; [exact I|by rewrite Hf|rewrite Hf; by intros [r [=]]|].
    intros iid i Hi Hpc <-. left. apply bool_decide_eq_true_2, Hc. by eapply seen_pending.
  - intros k [[]| ->]. destruct (m_sessions m !! key) as [sid|] eqn:Hk; [|unfold retire_session; by rewrite Hk].
    by destruct (retire_session_fields key m sid Hk) as (_ & _ & -> & _).
Qed.

Lemma close_fin m m' : manager_ok m → core_eq m m' → fin_owner (m_fin m) = None → ¬ is_reap3 (m_fin m) →
  (m_shut m = true → m_sessions m = ∅) → manager_ok (set_fin None m').
Proof.
  intros I Hc Hfo Hr Hs. eapply (move_fin no_orphan); try done.
  - by eapply core_minv.
  - by rewrite (ce_fin _ _ Hc).
  - rewrite (ce_shut _ _ Hc), (ce_sessions _ _ Hc). left. auto.
  - intros k pid _ [[]|(r & H & _)]. rewrite (ce_fin _ _ Hc) in H. destruct Hr. by exists r.
Qed.

Lemma fin_reap2_ok m pend active : manager_ok m → m_fin m = Some (FinReap2 pend active) →
  let m' := foldr retire_session m (expired m pend active) in
  manager_ok (set_fin (Some (FinReap3 (dom (m_sessions m')))) m').
Proof.
  intros I Hf. pose proof (mi_fin _ _ _ _ I _ Hf) as Hd. cbn in Hd. cbv zeta.
  destruct (retire_all_ok (expired m pend active) m no_orphan I) as (I1 & E1 & _ & G1).
  - by rewrite Hf.
  - rewrite Hf. by intros [r [=]].
  - apply Forall_forall. intros key Hk iid i Hi Hp <-. exfalso.
    unfold expired in Hk. apply list_elem_of_fmap in Hk as ((k & sid) & Heq & Hk). cbn in Heq. subst k. apply elem_of_map_to_list in Hk.
    apply map_lookup_filter_Some in Hk as (_ & _ & _ & Hn). apply Hn. apply Hd. eapply pending_of_dom, seen_pending; done.
  - set (m' := foldr retire_session m (expired m pend active)) in *. eapply (move_fin _ no_orphan); try done.
    + by rewrite E1, Hf.
    + by intros f [= <-].
    + intros Hs. left. apply (shut_empty _ _ I1); [congruence..|done].
    + intros k pid _ [[[]|Hk]|(r & H & _)]; [right|congruence]. eexists. split; [done|].
      apply not_elem_of_dom. by apply G1.
Qed.

Lemma fin_reap3_ok m retained : manager_ok m → m_fin m = Some (FinReap3 retained) →
  manager_ok (set_fin None (foldr retire_packager m
    (List.filter (λ key, negb (bool_decide (key ∈ retained))) (map_to_list (m_packagers m)).*1))).
Proof.
  intros I Hf. set (keys := List.filter _ _).
  destruct (retire_packagers_ok _ keys m I) as (I1 & E1 & E2 & G1 & G2). eapply (move_fin no_orphan); try done.
  - by rewrite E1, Hf.
  - intros Hs. left. apply (shut_empty _ _ I1); [congruence..|done].
  - intros k pid Hk [[]|(r & H & Hr)]. exfalso. assert (r = retained) as -> by congruence.
    destruct (m_packagers m !! k) as [p|] eqn:Hp; [|by rewrite (G2 k Hp) in Hk].
    rewrite (G1 k) in Hk; [done|]. apply list_elem_of_In, filter_In. split.
    + apply list_elem_of_In, list_elem_of_fmap. exists (k, p). split; [done|]. by apply elem_of_map_to_list.
    + by rewrite bool_decide_eq_false_2.
Qed.

Lemma release_final_ok m tid key sid pend active : manager_ok m → m_fin m = Some (FinRelease2 tid key sid pend active) →
  manager_ok (release_final tid key sid pend active m).
Proof.
  intros I Hf. pose proof (mi_fin _ _ _ _ I _ Hf) as Hd. cbn in Hd. unfold release_final.
  assert (Hse : ∀ z m', minv z None None m' → m_fin m' = m_fin m → m_shut m' = true → m_sessions m' = ∅).
  { intros z m' I' E. apply (shut_empty _ _ I'); congruence. }
  destruct (_ || _) eqn:Eg.
  { eapply close_fin; [done|apply core_eq_refl|by rewrite Hf|rewrite Hf; by intros [r [=]]|]. by apply (Hse _ _ I). }
  apply orb_false_iff in Eg as [Eg _]. apply orb_false_iff in Eg as [-> _]. specialize (Hd eq_refl).
  pose proof (retire_session_ok _ m key I ltac:(by rewrite Hf) ltac:(rewrite Hf; by intros [r [=]])) as I1.
  destruct (retire_packager_same key (retire_session key m)) as (E1 & E2 & E3). rewrite retire_fin in E1.
  assert (I2 : manager_ok (retire_packager key (retire_session key m))).
  { eapply clear_orphans; [apply retire_packager_ok, I1|].
    - intros iid i Hi Hp <-. destruct Hd. by eapply pending_of_dom, seen_pending.
    - intros k [[]| ->]. rewrite E3. apply lookup_delete_eq. }
  apply (close_fin _ _ I2); [by constructor|by rewrite E1, Hf|rewrite E1, Hf; by intros [r [=]]|].
  by apply (Hse _ _ I2).
Qed.

Lemma stop_pkgs_fields l m : let m' := foldr packager_stop m l in
  m_sessions m' = m_sessions m ∧ m_all m' = m_all m ∧ m_packagers m' = m_packagers m ∧ m_lifecycle m' = m_lifecycle m ∧
  m_locks m' = m_locks m ∧ m_fin m' = m_fin m ∧ m_inits m' = m_inits m ∧ m_shut m' = m_shut m ∧ m_next m' = m_next m ∧
  ∀ n, is_Some (m_pkgs m' !! n) → is_Some (m_pkgs m !! n).
Proof.
  induction l as [|pid l IH]; cbn [foldr]; [done|]. cbv zeta in *. destruct IH as (?&?&?&?&?&?&?&?&?&IH).
  cbn. split_and!; try done. intros n. rewrite lookup_alter. destruct (decide (pid = n)) as [<-|]; [|apply IH].
  rewrite fmap_is_Some. apply IH.
Qed.

Lemma fin_shut1_ok m : manager_ok m → m_fin m = Some FinShut1 →
  manager_ok (set_fin (Some FinShut2) (set_packagers ∅ (foldr packager_stop m (map_to_list (m_packagers m)).*2))).
Proof.
  intros I Hf. destruct (stop_pkgs_fields (map_to_list (m_packagers m)).*2 m) as (E1&E2&E3&E4&E5&E6&E7&E8&E9&E10).
  set (m' := foldr packager_stop m _) in *. pose proof (mi_fin _ _ _ _ I _ Hf) as Hs. cbn in Hs.
  destruct I as [I1 I2 I3 I4 I5 I6 I7 I8 I9 I10].
  constructor; unfold init_ok, pc_ok, has_lock, published; cbn; rewrite ?E1, ?E2, ?E4, ?E5, ?E7, ?E8, ?E9; try done.
  - intros n Hn. apply I1. destruct Hn as [?|?]; [by left|right; auto].
  - intros sid s H1 H2 Hy. destruct (I3 sid s H1 H2 Hy) as [?|[iid H]]; [by left|congruence].
  - intros iid i Hi Hx. destruct (I4 iid i Hi Hx) as [G1 G2]. split; [|done]. unfold pc_ok in G1.
    destruct (i_pc i); try done. rewrite Hf in G1. by destruct G1 as (_ & _ & ?).
  - intros f [= <-]. cbn. by rewrite E8.
  - by right; right.
Qed.

Lemma cancel_all_fields l m : let m' := foldr (λ sid, update_session sid session_cancel) m l in
  m_sessions m' = m_sessions m ∧ m_packagers m' = m_packagers m ∧ m_pkgs m' = m_pkgs m ∧ m_lifecycle m' = m_lifecycle m ∧
  m_locks m' = m_locks m ∧ m_fin m' = m_fin m ∧ m_inits m' = m_inits m ∧ m_shut m' = m_shut m ∧ m_next m' = m_next m ∧
  ∀ n s', m_all m' !! n = Some s' → ∃ s, m_all m !! n = Some s ∧ s_key s = s_key s' ∧
    (s_cancel s' = false → s_cancel s = false ∧ n ∉ l).
Proof.
  induction l as [|sid l IH]; cbn [foldr]; cbv zeta in *.
  - split_and!; try done. intros n s' H. exists s'. split_and!; try done. intros Hc. split; [done|]. by apply not_elem_of_nil.
  - destruct IH as (?&?&?&?&?&?&?&?&?&IH). cbn. split_and!; try done. intros n s'. rewrite lookup_alter.
    destruct (decide (sid = n)) as [<-|Hne].
    + intros H'. apply fmap_Some in H' as (s1 & Hs1 & ->). destruct (IH sid s1 Hs1) as (s & G1 & G2 & G3).
      exists s. by split_and!.
    + intros H'. destruct (IH n s' H') as (s & G1 & G2 & G3). exists s. split_and!; try done. intros Hc.
      destruct (G3 Hc) as [A B]. split; [done|]. apply not_elem_of_cons. split; [congruence|done].
Qed.

Lemma fin_shut2_ok m : manager_ok m → m_fin m = Some FinShut2 →
  manager_ok (set_fin (Some FinShut3) (set_sessions ∅
    (foldr (λ sid, update_session sid session_cancel) m (map_to_list (m_sessions m)).*2))).
Proof.
  intros I Hf. destruct (cancel_all_fields (map_to_list (m_sessions m)).*2 m) as (E1&E2&E3&E4&E5&E6&E7&E8&E9&E10).
  set (m' := foldr _ m _) in *. pose proof (mi_fin _ _ _ _ I _ Hf) as [Hs Hp].
  assert (I1 : minv no_orphan None None (set_sessions ∅ m')).
  { apply (unpublish no_orphan _ m); cbn; try done.
    - by rewrite Hf.
    - rewrite Hf. by intros [r [=]].
    - intros key _. left. intros iid i _ _ _. by right.
    - intros key pid Hx. by rewrite Hp in Hx.
    - intros n s' Hx. destruct (E10 n s' Hx) as (s & G1 & G2 & G3). exists s. split_and!; try done. intros Hc. exfalso.
      destruct (G3 Hc) as [A B]. apply B. destruct (mi_live _ _ _ _ I n s G1 A ltac:(done)) as [H|[iid H]]; [|congruence].
      apply list_elem_of_fmap. exists (s_key s, n). split; [done|]. by apply elem_of_map_to_list. }
  eapply (move_fin no_orphan); try done; cbn; rewrite ?E6, ?Hf; try done.
  - intros f [= <-]. cbn. by rewrite E8.
  - by left.
  - intros k pid _ [[]|(r & [=] & _)].
Qed.

(** What the steps of on-demand content change: their own part, the admission counter and the mutex. *)
Definition vod_move (m m' : Manager) (f : option FinOp) : Prop := ∃ v a, m' = set_fin f (set_adm a (set_vods v m)).

Lemma vod_step_move grace m ev m' : vod_step grace m ev = Next m' →
  vod_move m m' (m_fin m) ∨
  (m_fin m = None ∧ m_shut m = false ∧ ∃ vid, vod_move m m' (Some (FinVod vid))) ∨
  ((∃ vid, m_fin m = Some (FinVod vid)) ∧ vod_move m m' None).
Proof.
  unfold vod_move, vod_step, vod_turn, vod_resolved, vod_gone, cached_vod. intros Hs.
  assert (Hsame : ∀ m1, m1 = set_fin (m_fin m) (set_adm (m_adm m1) (set_vods (m_vods m1) m)) → Next m1 = Next m' →
    ∃ v a, m' = set_fin (m_fin m) (set_adm a (set_vods v m))) by (intros m1 E [= <-]; by eexists _, _).
  destruct ev as [vid key|vid now|vid ok|vid|cid|cid|now].
  - destruct (v_tasks _ !! vid); [done|]. left. revert Hs. by apply Hsame.
  - destruct (v_tasks _ !! vid) as [[key []]|]; try done.
    + left. destruct (m_shut m); revert Hs; by apply Hsame.
    + left. destruct (fresh_entries _ _ _ !! key) as [[cid at_]|]; revert Hs; by apply Hsame.
    + left. destruct (v_locks _ !! key); [done|]. cbn zeta in Hs. destruct (m_shut _); revert Hs; by apply Hsame.
    + left. destruct (fresh_entries _ _ _ !! key) as [[cid at_]|]; [revert Hs; by apply Hsame|].
      destruct (reserve _); revert Hs; by apply Hsame.
    + destruct (m_fin m) eqn:Hf; [done|]. destruct (m_shut m) eqn:Hsh; injection Hs as <-; [left|right; left].
      * eexists (m_vods (vod_return vid key m)), _. unfold vod_return, set_vods, set_adm, set_fin. cbn. by rewrite Hf.
      * split_and!; [done|done|]. exists vid. by eexists (m_vods (vod_goto vid key VFinal m)), (m_adm m).
  - left. destruct (v_tasks _ !! vid) as [[key []]|]; try done. destruct ok; revert Hs; by apply Hsame.
  - destruct (v_tasks _ !! vid) as [[key pc]|]; [|done]. cbn zeta in Hs.
    set (m1 := vod_return _ _ _) in *.
    assert (Hm : ∀ f, set_fin f m1 = set_fin f (set_adm (m_adm m1) (set_vods (m_vods m1) m))) by (intros f; unfold m1; by destruct (vod_reserved pc)). assert (E1 : m_fin m1 = m_fin m) by (unfold m1; by destruct (vod_reserved pc)).
    assert (E2 : set_fin (m_fin m) m1 = m1) by (rewrite <- E1; by destruct m1).
    rewrite E1 in Hs. assert (Hk : Next m1 = Next m' → ∃ v a, m' = set_fin (m_fin m) (set_adm a (set_vods v m))).
    { intros [= <-]. rewrite <- E2. eexists _, _. apply Hm. }
    destruct (m_fin m) as [f|]; [|left; by apply Hk]. destruct f; try (left; by apply Hk).
    destruct (_ =? vid)%N; [|left; by apply Hk]. right; right. injection Hs as <-. split; [eauto|]. eexists _, _. apply Hm.
  - left. destruct (v_contents _ !! cid) as [[]|]; try done. revert Hs. by apply Hsame.
  - left. destruct (v_contents _ !! cid) as [[]|]; try done. revert Hs. by apply Hsame.
  - left. revert Hs. by apply Hsame.
Qed.

Lemma fin_vod_move m vid now m' : fin_vod m vid now = Next m' → vod_move m m' None.
Proof.
  unfold fin_vod, vod_move. destruct (v_tasks _ !! vid) as [[key []]|]; try done. intros [= <-].
  match goal with |- ∃ _ _, ?x = _ => by exists (m_vods x), (m_adm x) end.
Qed.

(** A step inside the mutex keeps the invariant, and finds what it expects. *)
Lemma fin_step_ok grace m now : manager_ok m → fin_step grace m now ≠ Panicked ∧
  ∀ m', fin_step grace m now = Next m' → manager_ok m'.
Proof.
  intros I. destruct (m_fin m) as [f|] eqn:Hf; [|unfold_fin; by rewrite Hf].
  assert (Hse : m_fin m ≠ Some FinShut1 → m_fin m ≠ Some FinShut2 → m_shut m = true → m_sessions m = ∅) by (by apply (shut_empty _ _ I)).
  assert (Hhls : ∀ iid src, f = FinHls iid src → fin_step grace m now = fin_step 0 m now).
  { intros iid src ->. unfold_fin. by rewrite Hf. }
  assert (Hmove : ∀ f', f' ≠ FinShut2 → fin_owner (Some f) = None → fin_owner (Some f') = None → ¬ is_reap3 (Some f) →
    f ≠ FinShut1 → f ≠ FinShut2 → fin_ok m f' → manager_ok (set_fin (Some f') m)).
  { intros f' _ A B C D E F. eapply (move_fin no_orphan); try done; rewrite ?Hf; try done.
    - by intros ? [= <-].
    - left. apply Hse; congruence.
    - intros k pid _ [[]|(r & [= ->] & _)]. destruct C. by exists r. }
  destruct f as [iid sid|iid src|iid sid h|tid key|tid key entry|at_ pend|pend active|ret|tid key sid at_ pend|tid key sid pend active| | | |vid].
  2: { rewrite (Hhls iid src eq_refl). destruct (fin_hls_ok m iid src now I Hf) as [H1 H2]. split; [done|]. apply (H2 0%N). }
  all: unfold_fin; rewrite Hf.
  - destruct (m_inits m !! iid) as [i|] eqn:Hi; [|done]. destruct (fin_publish_ok m iid sid i I Hf Hi) as [-> H].
    destruct (acquire _ _ _) as [g m1]. split; [done|]. intros m' [= <-]. apply H.
  - destruct (m_inits m !! iid) as [i|] eqn:Hi; [|done].
    destruct (publish_packager (i_key i) sid m) as [pid m1] eqn:E. split; [done|]. intros m' [= <-].
    destruct (fin_hls_pkg_ok m iid sid h i pid m1 I Hf Hi E (Ok (GHls pid sid h))) as [H1 H2].
    by destruct (i_kind i) as [| | | |[]].
  - split; [done|]. intros m' [= <-]. by apply fin_stop1_ok.
  - split; [done|]. intros m' [= <-]. pose proof (fin_stop2_ok _ _ _ _ I Hf) as I1.
    apply (close_fin _ _ I1); [by constructor|by rewrite retire_fin, Hf|rewrite retire_fin, Hf; by intros [r [=]]|].
    apply (shut_empty _ _ I1); rewrite retire_fin; congruence.
  - split; [done|]. intros m' [= <-]. pose proof (mi_fin _ _ _ _ I _ Hf) as H.
    apply Hmove; try done. by intros [r [=]].
  - split; [done|]. intros m' [= <-]. by eapply fin_reap2_ok.
  - split; [done|]. intros m' [= <-]. by apply fin_reap3_ok.
  - split; [done|]. intros m' [= <-]. pose proof (mi_fin _ _ _ _ I _ Hf) as H.
    apply Hmove; try done. by intros [r [=]].
  - split; [done|]. intros m' [= <-]. by apply release_final_ok.
  - split; [done|]. intros m' [= <-]. by apply fin_shut1_ok.
  - split; [done|]. intros m' [= <-]. by apply fin_shut2_ok.
  - split; [done|]. intros m' [= <-]. apply (close_fin m); [done|by constructor|by rewrite Hf|rewrite Hf; by intros [r [=]]|].
    apply Hse; congruence.
  - split; [unfold fin_vod; by repeat case_match|]. intros m' Hv. destruct (fin_vod_move _ _ _ _ Hv) as (v & a & ->).
    apply (close_fin m (set_adm a (set_vods v m))); [done|by constructor|by rewrite Hf|rewrite Hf; by intros [r [=]]|].
    apply Hse; congruence.
Qed.

(** ** The other steps *)

Lemma begin_ok m iid key k g l : manager_ok m → m_inits m !! iid = None → m_fin m = None →
  transition_begin (m_lifecycle m) key = Some (g, l) →
  manager_ok (set_inits (<[iid := mkInit key k g true false PCheck]> (m_inits m)) (set_lifecycle l m)).
Proof.
  intros [I1 I2 I3 I4 I5 I6 I7 I8 I9 I10] Hi Hn Hb. destruct (begin_spec _ _ _ _ Hb) as (Hg & Hng & Hc & Hp).
  assert (Hlook : ∀ iid' i', <[iid := mkInit key k g true false PCheck]> (m_inits m) !! iid' = Some i' →
    iid' = iid ∧ i' = mkInit key k g true false PCheck ∨ iid' ≠ iid ∧ m_inits m !! iid' = Some i').
  { intros iid' i'. destruct (decide (iid = iid')) as [<-|Hne]; [rewrite lookup_insert_eq; intros [= <-]; by left|].
    rewrite lookup_insert_ne by done. by right. }
  assert (Hlt : ∀ iid' i', m_inits m !! iid' = Some i' → i_gen i' ≠ g).
  { intros iid' i' H. specialize (I6 iid' i' H). lia. }
  constructor; cbn; try done.
  - intros iid' i' Hx _. apply Hlook in Hx as [[-> ->]|[Hne Hx]].
    + split; [done|]. intros _. cbn. rewrite Hp, decide_True by done. set_solver.
    + destruct (I4 iid' i' Hx ltac:(done)) as [G1 G2]. split.
      * unfold pc_ok, has_lock, is_cancelled in *. cbn. by rewrite Hc.
      * intros Ha. cbn. rewrite Hp. specialize (G2 Ha). destruct (decide (key = i_key i')) as [Heq|]; [|done].
        rewrite <- Heq in G2. set_solver.
  - intros iid1 i1 iid2 i2 H1 H2. apply Hlook in H1 as [[-> ->]|[N1 H1]], H2 as [[-> ->]|[N2 H2]]; cbn; try done.
    + intros _ _ E. by destruct (Hlt _ _ H2).
    + intros _ _ E. by destruct (Hlt _ _ H1).
    + by apply I5.
  - intros iid1 i1 H1. rewrite Hng. apply Hlook in H1 as [[-> ->]|[_ H1]]; [done|]. specialize (I6 _ _ H1). lia.
  - intros f Hf. congruence.
Qed.

Lemma cancel_lifecycle_ok m key : manager_ok m → m_fin m = None →
  manager_ok (set_lifecycle (cancel_pending (m_lifecycle m) key) m).
Proof.
  intros [I1 I2 I3 I4 I5 I6 I7 I8 I9 I10] Hn. constructor; cbn; try done.
  - intros iid i Hi Hx. destruct (I4 iid i Hi Hx) as [G1 G2]. split; [|done]. unfold pc_ok, has_lock in *. cbn.
    destruct (i_pc i) as [| | | | |[]| | |]; try done. destruct G1 as (A & B & C & D). split_and!; try done.
    intros Hc. apply D. unfold is_cancelled in *. apply bool_decide_eq_false_2. apply bool_decide_eq_false_1 in Hc.
    intros H. by apply Hc, cancel_pending_mono.
  - intros f Hf. congruence.
Qed.

Lemma take_fin m f : manager_ok m → m_fin m = None → fin_owner (Some f) = None → fin_ok m f →
  (m_shut m = true → m_sessions m = ∅ ∨ Some f = Some FinShut1) → manager_ok (set_fin (Some f) m).
Proof.
  intros I Hn Ho Hf Hs. eapply (move_fin no_orphan); try done; rewrite ?Hn; try done.
  - by intros ? [= <-].
  - intros H. destruct (Hs H) as [?|?]; [by left|by right; left].
  - intros k pid _ [[]|(r & [=] & _)].
Qed.

Lemma vod_step_ok grace m ev m' : manager_ok m → vod_step grace m ev = Next m' → manager_ok m'.
Proof.
  intros I Hs. destruct (vod_step_move _ _ _ _ Hs) as [(v & a & ->)|[(Hn & Hsh & vid & v & a & ->)|((vid & Hf) & v & a & ->)]].
  - eapply core_minv; [|exact I]. by constructor.
  - apply take_fin; try done; [|by cbn; rewrite Hsh]. eapply core_minv; [|exact I]. by constructor.
  - apply (close_fin m (set_adm a (set_vods v m))); [done|by constructor|by rewrite Hf|rewrite Hf; by intros [r [=]]|].
    apply (shut_empty _ _ I); congruence.
Qed.

Lemma disable_core key m m' : disable_support_controls key m = Some m' → core_eq m m'.
Proof. unfold disable_support_controls. intros H. apply bind_Some in H as (cs & _ & [= <-]). by constructor. Qed.

Lemma cancel_caller_ok m iid : manager_ok m → manager_ok (update_init iid with_cancel m).
Proof.
  intros I. destruct (m_inits m !! iid) as [i|] eqn:Hi.
  2: { replace (update_init iid with_cancel m) with m; [done|]. unfold update_init. rewrite alter_id; [by destruct m|].
       intros x Hx. congruence. }
  assert (Hlook : ∀ iid' i', m_inits (update_init iid with_cancel m) !! iid' = Some i' →
    ∃ j, m_inits m !! iid' = Some j ∧ i_key i' = i_key j ∧ i_kind i' = i_kind j ∧ i_gen i' = i_gen j ∧
         i_active i' = i_active j ∧ i_pc i' = i_pc j).
  { intros iid' i'. rewrite lookup_update_init. destruct (decide (iid = iid')) as [<-|].
    - rewrite Hi. intros [= <-]. by exists i.
    - intros H. by exists i'. }
  assert (Hback : ∀ iid' j, m_inits m !! iid' = Some j → ∃ i', m_inits (update_init iid with_cancel m) !! iid' = Some i' ∧
    i_key i' = i_key j ∧ i_pc i' = i_pc j).
  { intros iid' j H. rewrite lookup_update_init. destruct (decide (iid = iid')) as [<-|]; [|by exists j].
    rewrite H. by exists (with_cancel j). }
  destruct I as [I1 I2 I3 I4 I5 I6 I7 I8 I9 I10]. constructor; try done.
  - intros iid' i' H Hx. destruct (Hlook _ _ H) as (j & Hj & A & B & C & D & E).
    destruct (I4 iid' j Hj Hx) as [G1 G2]. unfold init_ok, pc_ok, has_lock in *. rewrite A, B, C, D, E. done.
  - intros iid1 i1 iid2 i2 H1 H2 A1 A2 Eg. destruct (Hlook _ _ H1) as (j1 & Hj1 & _ & _ & C1 & D1 & _).
    destruct (Hlook _ _ H2) as (j2 & Hj2 & _ & _ & C2 & D2 & _). eapply I5; eauto; congruence.
  - intros iid' i' H. destruct (Hlook _ _ H) as (j & Hj & _ & _ & C & _). rewrite C. by eapply I6.
  - intros f Hf. specialize (I7 f Hf). destruct f; try done; unfold fin_ok in *; cbn -[update_init] in *.
    + destruct I7 as (Hs & j & s & Hj & Hp & Hrest). destruct (Hback _ _ Hj) as (i' & Hi' & A & B).
      split; [done|]. exists i', s. rewrite A, B. done.
    + destruct I7 as (Hs & j & Hj & Hp & Hrest). destruct (Hback _ _ Hj) as (i' & Hi' & A & B).
      split; [done|]. exists i'. rewrite A, B. done.
    + destruct I7 as (Hs & j & Hj & Hp & Hrest). destruct (Hback _ _ Hj) as (i' & Hi' & A & B).
      split; [done|]. exists i'. rewrite A, B. done.
Qed.

Lemma forget_init_ok m iid i res : manager_ok m → m_inits m !! iid = Some i → i_pc i = PDone res →
  manager_ok (set_inits (delete iid (m_inits m)) m).
Proof.
  intros I Hi Hp. pose proof (owner_final _ _ _ _ I Hi ltac:(congruence)) as Hfo.
  destruct I as [I1 I2 I3 I4 I5 I6 I7 I8 I9 I10]. constructor; cbn; try done.
  - intros iid' i'. rewrite lookup_delete_Some. intros [_ H] Hx. exact (I4 iid' i' H Hx).
  - intros iid1 i1 iid2 i2. rewrite !lookup_delete_Some. intros [_ H1] [_ H2]. by apply I5.
  - intros iid1 i1. rewrite lookup_delete_Some. intros [_ H1]. by eapply I6.
  - intros f Hf. specialize (I7 f Hf). rewrite Hf in Hfo. destruct f; try done; unfold fin_ok in *; cbn in *.
    + destruct I7 as (Hs & j & s & Hj & Hrest). split; [done|]. exists j, s. rewrite lookup_delete_ne by congruence. done.
    + destruct I7 as (Hs & j & Hj & Hrest). split; [done|]. exists j. rewrite lookup_delete_ne by congruence. done.
    + destruct I7 as (Hs & j & Hj & Hrest). split; [done|]. exists j. rewrite lookup_delete_ne by congruence. done.
Qed.

Lemma drop_core sid h m : core_eq m (update_session sid (session_drop h) m).
Proof. by apply update_session_core. Qed.

Lemma shutdown_ok m : manager_ok m → m_fin m = None → manager_ok (set_fin (Some FinShut1) (set_shut m)).
Proof.
  intros I Hn. destruct I as [I1 I2 I3 I4 I5 I6 I7 I8 I9 I10]. constructor; cbn; try done.
  - intros sid s H1 H2 Hy. left. destruct (I3 sid s H1 H2 Hy) as [?|[x H]]; [done|congruence].
  - intros iid i Hi Hx. destruct (I4 iid i Hi Hx) as [G1 G2]. split; [|done]. unfold pc_ok, has_lock in *. cbn.
    destruct (i_pc i) as [| | | | |[]| | |]; try done; [naive_solver|]. rewrite Hn in G1. by destruct G1 as (_ & _ & ?).
  - by intros f [= <-].
  - by right; left.
  - intros key pid Hp. destruct (I9 key pid Hp) as (p & H1 & H2 & H3). exists p. split_and!; try done.
    destruct H3 as [H3|(r & H3 & _)]; [by left|congruence].
Qed.

(** Every step keeps the invariant. *)
Lemma step_ok grace m ev m' : manager_ok m → step grace m ev = Next m' → manager_ok m'.
Proof.
  intros I. assert (Hcore : ∀ m1, core_eq m m1 → manager_ok m1) by (intros m1 Hc; by eapply core_minv).
  destruct ev; cbn [step].
  - unfold begin_start. destruct (m_fin m) eqn:Hn, (m_inits m !! iid) eqn:Hi; try done. destruct (m_shut m); [by intros [= <-]|].
    destruct (transition_begin (m_lifecycle m) key) as [[g l]|] eqn:Hb; [|done]. intros [= <-]. by apply begin_ok.
  - by apply init_step_ok.
  - unfold opened. destruct (m_inits m !! iid) as [i|] eqn:Hi; [|done]. destruct (i_pc i) eqn:Hp; try done.
    destruct answer as [k|]; intros [= <-].
    + eapply (core_return m); [done|done|congruence|by constructor].
    + apply (advance_ok _ _ _ i); [done|done|eapply owner_final; [done|done|congruence]|].
      destruct (mi_inits _ _ _ _ I iid i Hi ltac:(done)) as [Hok _]. unfold pc_ok in *. by rewrite Hp in Hok.
  - unfold disposed. destruct (m_inits m !! iid) as [i|] eqn:Hi; [|done]. destruct (i_pc i) eqn:Hp; try done.
    destruct confirmed; intros [= <-]; (eapply (core_return m); [done|done|congruence|by constructor]).
  - intros [= <-]. by apply cancel_caller_ok.
  - unfold deliver_result. destruct (m_inits m !! iid) as [i|] eqn:Hi; [|done]. destruct (i_pc i) as [| | | | | | | |res] eqn:Hp; try done.
    pose proof (forget_init_ok _ _ _ _ I Hi Hp) as I1.
    destruct res as [g|]; [|by intros [= <-]]. destruct (grant_handle g) as [[sid h]|]; [|by intros [= <-]].
    destruct (i_cancel i); intros [= <-]; [|done]. eapply core_minv; [apply drop_core|done].
  - apply fin_step_ok, I.
  - unfold stop_start. destruct (m_fin m) eqn:Hn, (m_waits m !! tid); try done.
    destruct (disable_support_controls (Some key) m) as [m1|] eqn:Hd; [|done]. intros [= <-].
    pose proof (disable_core _ _ _ Hd) as Hc. assert (Hn1 : m_fin m1 = None) by (by rewrite (ce_fin _ _ Hc)).
    pose proof (cancel_lifecycle_ok m1 key (Hcore _ Hc) Hn1) as I1.
    apply take_fin; try done.
    + intros g Hg. apply cancel_pending_spec. by left.
    + intros Hs'. left. apply (shut_empty _ _ I1); [cbn; congruence..|exact Hs'].
  - unfold reap_start. destruct (m_fin m) eqn:Hn; [done|]. intros [= <-]. apply take_fin; [done|done|done|by cbn|].
    intros Hs'. left. apply (shut_empty _ _ I); [congruence..|exact Hs'].
  - unfold release_start. destruct (m_fin m) eqn:Hn, (m_waits m !! tid), (m_all m !! sid) as [s|] eqn:Hs; try done.
    case_bool_decide; [|done]. pose proof (Hcore _ (drop_core sid h m)) as I1.
    destruct (s_cancel s); intros [= <-]; [by eapply core_minv; [|exact I1]; constructor|]. apply take_fin; try done.
    + cbn. intros Hb. by apply bool_decide_eq_false_1 in Hb.
    + intros Hs'. left. apply (shut_empty _ _ I1); [cbn; congruence..|exact Hs'].
  - unfold shutdown_start. destruct (m_fin m) eqn:Hn; [done|].
    destruct (disable_support_controls None (set_shut m)) as [m1|] eqn:Hd; [|done]. intros [= <-].
    pose proof (disable_core _ _ _ Hd) as Hc. pose proof Hc as [C1 C2 C3 C4 C5 C6 C7 C8 C9 C10].
    pose proof (shutdown_ok m I Hn) as I1.
    eapply core_minv; [|exact I1]. by constructor.
  - unfold wait_end. destruct (m_waits m !! tid) as [w|]; [|done]. destruct (wait_result m w); [|done]. intros [= <-].
    apply Hcore. by constructor.
  - unfold session_done. destruct (m_all m !! sid) as [s|] eqn:Hs; [|done]. case_bool_decide; [|done].
    assert (Hc : ∀ d, core_eq m (update_session sid (session_finish d) m)) by (intros d; by apply update_session_core).
    destruct confirmed; intros [= <-]; apply Hcore; (eapply core_eq_trans; [apply Hc|]; by constructor).
  - unfold packager_done. destruct (m_pkgs m !! pid) as [p|] eqn:Hp; [|done]. case_bool_decide; [|done].
    assert (Hc : ∀ d, core_eq m (set_pkgs (<[pid := mkPackager (p_session p) (p_access p) (p_stopped p) d]> (m_pkgs m)) m)).
    { intros d. constructor; try done. cbn. intros n. destruct (decide (pid = n)) as [<-|Hne].
      - by rewrite lookup_insert_eq, Hp.
      - by rewrite lookup_insert_ne. }
    destruct confirmed; intros [= <-]; apply Hcore; (eapply core_eq_trans; [apply Hc|]; by constructor).
  - unfold drop_handle. destruct (m_all m !! sid); [|done]. case_bool_decide; [|done]. intros [= <-]. apply Hcore, drop_core.
  - intros [= <-]. apply Hcore, native_core.
  - unfold register_support. case_bool_decide; [by intros [= <-]|].
    destruct (m_fin m), (m_controls m !! c); try done. destruct (m_shut m); [by intros [= <-]|].
    case_bool_decide; intros [= <-]; apply Hcore; by constructor.
  - unfold change_intent. destruct (m_fin m), (m_controls m !! c) as [ctl|]; try done. destruct (_ || _); [by intros [= <-]|].
    destruct (set_running (c_intent ctl) run0); [|done]. intros [= <-]. apply Hcore. by constructor.
  - unfold change_intent. destruct (m_fin m), (m_controls m !! c) as [ctl|]; try done. destruct (_ || _); [by intros [= <-]|].
    destruct (restart_if_epoch (c_intent ctl) expected); [|done]. intros [= <-]. apply Hcore. by constructor.
  - intros [= <-]. apply Hcore. by constructor.
  - unfold shutdown_end. destruct (_ && _); [|done]. intros [= <-]. apply Hcore. by constructor.
  - by apply vod_step_ok.
Qed.

Lemma new_ok max : manager_ok (manager_new max).
Proof. constructor; cbn; try done. intros n [H|H]; rewrite lookup_empty in H; by destruct H. Qed.

Lemma run_ok grace evs m m' : manager_ok m → run grace m evs = Some m' → manager_ok m'.
Proof.
  revert m. induction evs as [|ev evs IH]; cbn [run]; intros m I; [by intros [= <-]|].
  destruct (step grace m ev) as [| |m1] eqn:E; [by apply IH|done|]. apply IH. by eapply step_ok.
Qed.

(** ** Counters *)

(** What a step leaves of the counters. *)
Definition same_counters (m m' : Manager) : Prop :=
  m_controls m' = m_controls m ∧ next_generation (m_lifecycle m') = next_generation (m_lifecycle m).

Lemma same_counters_trans m1 m2 m3 : same_counters m1 m2 → same_counters m2 m3 → same_counters m1 m3.
Proof. unfold same_counters. intros [? ?] [? ?]. split; congruence. Qed.

Lemma return_counters iid i res m : same_counters m (init_return iid i res m).
Proof.
  unfold init_return, same_counters. destruct (finish_finished (m_lifecycle m) (i_key i) (i_gen i)) as [(H & _) _].
  by destruct (i_active i), (holds_lock _ iid (i_key i)).
Qed.

Lemma acquire_counters k sid m : same_counters m (acquire k sid m).2.
Proof. by destruct k. Qed.

Lemma take_running_counters iid i sid m : same_counters m (take_running iid i sid m).
Proof.
  unfold take_running. destruct (_ || _); [apply return_counters|].
  pose proof (acquire_counters (i_kind i) sid m) as H. destruct (acquire (i_kind i) sid m) as [g m'].
  eapply same_counters_trans; [exact H|apply return_counters].
Qed.

Lemma finalize_counters iid i src m : same_counters m (finalize iid i src m).
Proof.
  unfold finalize. destruct (finish_finished (m_lifecycle m) (i_key i) (i_gen i)) as [(H & _) _].
  destruct (_ || _); [by destruct src; [|apply return_counters]|].
  destruct (lifecycle_finish (m_lifecycle m) (i_key i) (i_gen i)) as [c l]. cbn [snd] in H.
  assert (H1 : same_counters m (update_init iid (with_active false) (set_lifecycle l m))) by done.
  destruct (_ || _); [destruct src; [done|]|by destruct (is_hls _)].
  eapply same_counters_trans; [exact H1|apply return_counters].
Qed.

Lemma init_step_counters m iid m' : init_step m iid = Next m' → same_counters m m'.
Proof.
  unfold init_step. destruct (m_inits m !! iid) as [i|]; [|done]. destruct (i_pc i); try done.
  - destruct (fenced m i); intros [= <-]; [apply return_counters|done].
  - destruct (m_sessions m !! i_key i); intros [= <-]; [apply take_running_counters|done].
  - destruct (i_cancel i); [intros [= <-]; apply return_counters|]. destruct (m_locks m !! i_key i); [done|].
    cbv zeta. destruct (fenced _ i); intros [= <-]; [|done]. eapply same_counters_trans; [|apply return_counters]. done.
  - destruct (m_sessions m !! i_key i); [destruct (is_hls _); intros [= <-]; [done|apply take_running_counters]|].
    intros [= <-]. unfold open_source. destruct (reserve (m_adm m)); [done|apply return_counters].
  - destruct (m_fin m); [done|]. intros [= <-]. apply finalize_counters.
Qed.

Lemma retire_counters key m : same_counters m (retire_session key m) ∧ same_counters m (retire_packager key m).
Proof.
  unfold retire_session, retire_packager, record_stop, same_counters.
  destruct (m_sessions m !! key), (m_packagers m !! key); by repeat case_bool_decide.
Qed.

Lemma foldr_counters {A} (f : A → Manager → Manager) l m : (∀ x m, same_counters m (f x m)) → same_counters m (foldr f m l).
Proof. intros H. induction l as [|x l IH]; cbn [foldr]; [done|]. eapply same_counters_trans; [exact IH|apply H]. Qed.

Lemma fin_step_counters grace m now m' : fin_step grace m now = Next m' → same_counters m m'.
Proof.
  unfold_fin. destruct (m_fin m) as [f|]; [|done].
  destruct f as [iid sid|iid src|iid sid h|tid key|tid key entry|at_ pend|pend active|ret|tid key sid at_ pend|tid key sid pend active| | | |vid];
    try (by intros [= <-]).
  - destruct (m_inits m !! iid) as [i|]; [|done].
    destruct (m_sessions m !! i_key i) as [old|]; destruct (acquire _ _ _) as [g m1] eqn:E; intros [= <-];
      (eapply same_counters_trans; [|apply return_counters]);
      match type of E with acquire ?k ?s ?x = _ => pose proof (acquire_counters k s x) as H; rewrite E in H end; done.
  - destruct (m_inits m !! iid) as [i|]; [|done].
    destruct (m_sessions m !! i_key i); [|destruct src; [|done]]; intros [= <-]; [by destruct src|done].
  - destruct (m_inits m !! iid) as [i|]; [|done]. destruct (publish_packager (i_key i) sid m) as [pid m1] eqn:E.
    intros [= <-]. assert (H : same_counters m m1).
    { revert E. unfold publish_packager. destruct (m_packagers m !! i_key i); by intros [= <- <-]. }
    eapply (same_counters_trans _ m1); [done|]. eapply (same_counters_trans _ (init_return iid i (Ok (GHls pid sid h)) _)); [|done].
    eapply same_counters_trans; [|apply return_counters]. by destruct (i_kind i) as [| | | |[]].
  - intros [= <-]. apply (retire_counters key m).
  - intros [= <-]. apply (retire_counters key m).
  - intros [= <-]. apply (foldr_counters retire_session). intros; apply retire_counters.
  - intros [= <-]. apply (foldr_counters retire_packager). intros; apply retire_counters.
  - intros [= <-]. unfold release_final. destruct (_ || _); [done|].
    eapply same_counters_trans; [|apply (retire_counters key)]. apply retire_counters.
  - intros [= <-]. by apply (foldr_counters packager_stop).
  - intros [= <-]. by apply (foldr_counters (λ sid, update_session sid session_cancel)).
  - intros (v & a & ->)%fin_vod_move. done.
Qed.

Definition counted (n : N) (m : Manager) : Prop :=
  (next_generation (m_lifecycle m) ≤ n)%N ∧
  ∀ c ctl, m_controls m !! c = Some ctl → (epoch (c_intent ctl) ≤ n + 1)%N.

Lemma counted_same n m m' : same_counters m m' → counted n m → counted (n + 1) m'.
Proof.
  intros [E1 E2] [H1 H2]. split; [rewrite E2; lia|]. intros c ctl. rewrite E1. intros H. specialize (H2 c ctl H). lia.
Qed.

Lemma set_running_counted n i run : (epoch i ≤ n + 1)%N → (n + 2 < two64)%N →
  ∃ i', set_running i run = Some i' ∧ (epoch i' ≤ n + 2)%N ∧ (run = false → running i = false → i' = i) ∧ running i' = run.
Proof.
  intros H Hn. unfold set_running. destruct (Bool.eqb (running i) run) eqn:E.
  - apply eqb_prop in E. exists i. split_and!; try done. lia.
  - unfold checked_add. rewrite (proj2 (N.ltb_lt _ _)) by lia. eexists. split_and!; try done; cbn; [lia|].
    intros -> Hr. by rewrite Hr in E.
Qed.

(** Each control is disabled once: its epoch grows by at most one. *)
Lemma disable_all_counted n key l cs : (n + 2 < two64)%N →
  (∀ c ctl, cs !! c = Some ctl → (epoch (c_intent ctl) ≤ n + 1)%N ∨ (epoch (c_intent ctl) ≤ n + 2)%N ∧ running (c_intent ctl) = false) →
  ∃ cs', disable_all key cs l = Some cs' ∧ ∀ c ctl, cs' !! c = Some ctl → (epoch (c_intent ctl) ≤ n + 2)%N.
Proof.
  intros Hn. revert cs. induction l as [|c l IH]; intros cs Hcs; cbn [disable_all].
  - exists cs. split; [done|]. intros c ctl H. specialize (Hcs c ctl H). lia.
  - unfold disable_one. destruct (cs !! c) as [ctl|] eqn:Hc; [|by apply IH]. destruct (match key with Some k => _ | None => _ end); [|by apply IH].
    assert (∃ i', set_running (c_intent ctl) false = Some i' ∧ (epoch i' ≤ n + 2)%N ∧ running i' = false) as (i' & -> & H1 & H2).
    { destruct (Hcs c ctl Hc) as [H|[H Hr]].
      - destruct (set_running_counted n (c_intent ctl) false H Hn) as (i' & ? & ? & _ & ?). by exists i'.
      - exists (c_intent ctl). unfold set_running. rewrite Hr. done. }
    cbn [mbind option_bind]. apply IH. intros c' ctl'. destruct (decide (c = c')) as [<-|Hne].
    + rewrite lookup_insert_eq. intros [= <-]. by right.
    + rewrite lookup_insert_ne by done. apply Hcs.
Qed.

Lemma disable_counted n key m : (n + 2 < two64)%N → counted n m →
  ∃ m', disable_support_controls key m = Some m' ∧ counted (n + 1) m'.
Proof.
  intros Hn [H1 H2]. unfold disable_support_controls.
  destruct (disable_all_counted n key (List.filter (owned m) (m_registered m)) (m_controls m) Hn) as (cs & -> & H).
  - intros c ctl Hc. left. by eapply H2.
  - eexists. split; [done|]. split; cbn; [lia|]. intros c ctl Hc. specialize (H c ctl Hc). lia.
Qed.

Lemma step_counted grace n m ev : manager_ok m → counted n m → (n + 2 < two64)%N →
  step grace m ev ≠ Panicked ∧ ∀ m', step grace m ev = Next m' → counted (n + 1) m'.
Proof.
  intros I Hc Hn. assert (Hsame : ∀ m', same_counters m m' → counted (n + 1) m') by (intros m' H; by eapply counted_same).
  assert (Hfine : ∀ m1 m', same_counters m m1 → Next m1 = Next m' → counted (n + 1) m') by (intros m1 m' H [= <-]; auto).
  destruct ev; cbn [step]; try (split; [done|]; intros m'; by apply Hfine).
  - unfold begin_start. destruct (m_fin m), (m_inits m !! iid); try done. destruct (m_shut m); [split; [done|]; intros m'; by apply Hfine|].
    destruct (transition_begin (m_lifecycle m) key) as [[g l]|] eqn:Hb.
    + split; [done|]. intros m' [= <-]. destruct (begin_spec _ _ _ _ Hb) as (Hg & Hng & _). destruct Hc as [H1 H2].
      split; cbn; [lia|]. intros c ctl H. specialize (H2 c ctl H). lia.
    + exfalso. revert Hb. unfold transition_begin, checked_add. destruct Hc as [H1 _].
      rewrite (proj2 (N.ltb_lt _ _)) by lia. done.
  - split.
    + unfold init_step. destruct (m_inits m !! iid) as [i|]; [|done]. cbv zeta. destruct (i_pc i); repeat case_match; done.
    + intros m' H. eapply Hsame, init_step_counters, H.
  - unfold opened. destruct (m_inits m !! iid) as [i|]; [|done]. destruct (i_pc i); try done.
    destruct answer; (split; [done|]); intros m' [= <-]; apply Hsame; [|done].
    eapply same_counters_trans; [|apply return_counters]. done.
  - unfold disposed. destruct (m_inits m !! iid) as [i|]; [|done]. destruct (i_pc i); try done.
    destruct confirmed; (split; [done|]); intros m' [= <-]; apply Hsame; (eapply same_counters_trans; [|apply return_counters]; done).
  - unfold deliver_result. destruct (m_inits m !! iid) as [i|]; [|done]. destruct (i_pc i); try done.
    split; [repeat case_match; done|]. intros m'. repeat case_match; by apply Hfine.
  - destruct (fin_step_ok grace m now I) as [H _]. split; [done|]. intros m' Hs. eapply Hsame, fin_step_counters, Hs.
  - unfold stop_start. destruct (m_fin m), (m_waits m !! tid); try done.
    destruct (disable_counted n (Some key) m Hn Hc) as (m1 & -> & H1). split; [done|]. by intros m' [= <-].
  - unfold reap_start. destruct (m_fin m); [done|]. split; [done|]. intros m'. by apply Hfine.
  - unfold release_start. destruct (m_fin m), (m_waits m !! tid), (m_all m !! sid) as [s|]; try done.
    case_bool_decide; [|done]. destruct (s_cancel s); (split; [done|]); intros m'; by apply Hfine.
  - unfold shutdown_start. destruct (m_fin m); [done|].
    destruct (disable_counted n None (set_shut m) Hn Hc) as (m1 & -> & H1). split; [done|]. by intros m' [= <-].
  - unfold wait_end. destruct (m_waits m !! tid) as [w|]; [|done]. destruct (wait_result m w); [|done].
    split; [done|]. intros m'. by apply Hfine.
  - unfold session_done. destruct (m_all m !! sid) as [s|]; [|done]. case_bool_decide; [|done].
    destruct confirmed; (split; [done|]); intros m'; by apply Hfine.
  - unfold packager_done. destruct (m_pkgs m !! pid) as [p|]; [|done]. case_bool_decide; [|done].
    destruct confirmed; (split; [done|]); intros m'; by apply Hfine.
  - unfold drop_handle. destruct (m_all m !! sid); [|done]. case_bool_decide; [|done]. split; [done|]. intros m'. by apply Hfine.
  - unfold register_support. case_bool_decide; [split; [done|]; intros m'; by apply Hfine|].
    destruct (m_fin m), (m_controls m !! c) eqn:Ec; try done.
    destruct (m_shut m); [split; [done|]; intros m'; by apply Hfine|].
    case_bool_decide; (split; [done|]); intros m' [= <-]; [by apply Hsame|]. destruct Hc as [H1 H2]. split; cbn; [lia|].
    intros c' ctl. destruct (decide (c = c')) as [<-|Hne]; [rewrite lookup_insert_eq; intros [= <-]; cbn; lia|].
    rewrite lookup_insert_ne by done. intros H'. specialize (H2 c' ctl H'). lia.
  - unfold change_intent. destruct (m_fin m), (m_controls m !! c) as [ctl|] eqn:Ec; try done.
    destruct (_ || _); [split; [done|]; intros m'; by apply Hfine|]. destruct Hc as [H1 H2].
    destruct (set_running_counted n (c_intent ctl) run0 (H2 _ _ Ec) Hn) as (i' & -> & Hi & _). split; [done|]. intros m' [= <-].
    split; cbn; [lia|]. intros c' ctl'. destruct (decide (c = c')) as [<-|Hne]; [rewrite lookup_insert_eq; intros [= <-]; cbn; lia|].
    rewrite lookup_insert_ne by done. intros H'. specialize (H2 c' ctl' H'). lia.
  - unfold change_intent. destruct (m_fin m), (m_controls m !! c) as [ctl|] eqn:Ec; try done.
    destruct (_ || _); [split; [done|]; intros m'; by apply Hfine|]. destruct Hc as [H1 H2]. specialize (H2 _ _ Ec) as He.
    assert (∃ i', restart_if_epoch (c_intent ctl) expected = Some i' ∧ (epoch i' ≤ n + 2)%N) as (i' & -> & Hi).
    { unfold restart_if_epoch. destruct (_ || _); [eexists; split; [done|lia]|]. unfold checked_add.
      rewrite (proj2 (N.ltb_lt _ _)) by lia. eexists. split; [done|cbn; lia]. }
    split; [done|]. intros m' [= <-].
    split; cbn; [lia|]. intros c' ctl'. destruct (decide (c = c')) as [<-|Hne]; [rewrite lookup_insert_eq; intros [= <-]; cbn; lia|].
    rewrite lookup_insert_ne by done. intros H'. specialize (H2 c' ctl' H'). lia.
  - split; [done|]. intros m' [= <-]. destruct Hc as [H1 H2]. split; cbn; [lia|]. intros c' ctl'. rewrite lookup_alter.
    destruct (decide (c = c')) as [<-|Hne]; [|intros H'; specialize (H2 c' ctl' H'); lia].
    intros H'. apply fmap_Some in H' as (ctl0 & H0 & ->). specialize (H2 c ctl0 H0). cbn. lia.
  - unfold shutdown_end. destruct (_ && _); [|done]. split; [done|]. intros m'. by apply Hfine.
  - split; [unfold vod_step, vod_turn, vod_resolved, vod_gone; by repeat case_match|]. intros m' Hs. apply Hsame.
    by destruct (vod_step_move _ _ _ _ Hs) as [(v & a & ->)|[(_ & _ & vid & v & a & ->)|(_ & v & a & ->)]].
Qed.

Lemma run_counted grace evs n m : manager_ok m → counted n m → (n + N.of_nat (length evs) + 2 < two64)%N →
  ∃ m', run grace m evs = Some m'.
Proof.
  revert n m. induction evs as [|ev evs IH]; intros n m I Hc Hn; cbn [run]; [by exists m|]. cbn [length] in Hn.
  destruct (step_counted grace n m ev I Hc ltac:(lia)) as [H1 H2]. destruct (step grace m ev) as [| |m1] eqn:E; [|done|].
  - apply (IH n); [done|done|lia].
  - apply (IH (n + 1)%N); [by eapply step_ok|by apply H2|lia].
Qed.

(** ** Sessions that stay *)

(** Sessions are only added, and no cancellation happens. *)
Definition keeps (m m' : Manager) : Prop :=
  ∀ sid s, m_all m !! sid = Some s → ∃ s', m_all m' !! sid = Some s' ∧ s_cancel s' = s_cancel s.

Lemma keeps_refl m : keeps m m.
Proof. intros sid s H. by exists s. Qed.

Lemma keeps_trans m1 m2 m3 : keeps m1 m2 → keeps m2 m3 → keeps m1 m3.
Proof. intros H1 H2 sid s H. destruct (H1 sid s H) as (s' & G1 & <-). destruct (H2 sid s' G1) as (s2 & G2 & <-). by exists s2. Qed.

Lemma keeps_core m m' : core_eq m m' → keeps m m'.
Proof. intros Hc sid s H. destruct (ce_session' _ _ _ _ Hc H) as (s' & H1 & _ & H3). by exists s'. Qed.

Lemma keeps_all m m' : m_all m' = m_all m → keeps m m'.
Proof. intros E sid s H. exists s. by rewrite E. Qed.

Lemma return_all iid i res m : m_all (init_return iid i res m) = m_all m.
Proof. unfold init_return. by destruct (i_active i), (holds_lock _ iid (i_key i)). Qed.

Lemma keeps_start z x m key : minv z x None m → keeps m (start_session key m).2.
Proof.
  intros I sid s H. exists s. split; [|done]. cbn. rewrite lookup_insert_ne; [done|]. intros <-.
  pose proof (mi_fresh _ _ _ _ I _ (or_introl (mk_is_Some _ _ H))). lia.
Qed.

Lemma keeps_subscribe sid h f m : keeps m (set_fin f (bump_next (update_session sid (session_subscribe h) m))).
Proof.
  eapply keeps_trans; [apply keeps_core, (update_session_core sid (session_subscribe h)); done|by apply keeps_all].
Qed.

Lemma take_running_keeps iid i sid m : keeps m (take_running iid i sid m).
Proof.
  unfold take_running. destruct (_ || _); [apply keeps_all, return_all|].
  pose proof (acquire_core (i_kind i) sid m) as H. destruct (acquire (i_kind i) sid m) as [g m'].
  eapply keeps_trans; [apply keeps_core, H|apply keeps_all, return_all].
Qed.

Lemma init_step_keeps m iid m' : manager_ok m → init_step m iid = Next m' → keeps m m'.
Proof.
  intros I. unfold init_step. destruct (m_inits m !! iid) as [i|]; [|done].
  assert (Hret : ∀ m1 res, m_all m1 = m_all m → keeps m (init_return iid i res m1)).
  { intros m1 res E. apply keeps_all. by rewrite return_all. }
  destruct (i_pc i); try done.
  - destruct (fenced m i); intros [= <-]; [by apply Hret|by apply keeps_all].
  - destruct (m_sessions m !! i_key i); intros [= <-]; [apply take_running_keeps|by apply keeps_all].
  - destruct (i_cancel i); [intros [= <-]; by apply Hret|]. destruct (m_locks m !! i_key i); [done|].
    cbv zeta. destruct (fenced _ i); intros [= <-]; [by apply Hret|by apply keeps_all].
  - destruct (m_sessions m !! i_key i); [destruct (is_hls _); intros [= <-]; [by apply keeps_all|apply take_running_keeps]|].
    intros [= <-]. unfold open_source. destruct (reserve (m_adm m)); [by apply keeps_all|by apply Hret].
  - destruct (m_fin m); [done|]. intros [= <-]. unfold finalize. destruct (_ || _); [destruct src; [by apply keeps_all|by apply Hret]|].
    destruct (lifecycle_finish _ _ _) as [c l]. destruct (_ || _); [destruct src; [by apply keeps_all|by apply keeps_all; rewrite return_all]|].
    destruct (is_hls _); [by apply keeps_all|]. exact (keeps_start _ _ m (i_key i) I).
Qed.

(** Retiring the sessions of other keys. *)
Lemma retire_session_all key m sid : m_sessions m !! key ≠ Some sid → m_all (retire_session key m) !! sid = m_all m !! sid.
Proof.
  intros Hne. destruct (m_sessions m !! key) as [sid'|] eqn:Hk; [|unfold retire_session; by rewrite Hk].
  destruct (retire_session_fields key m sid' Hk) as (_ & -> & _). apply lookup_alter_ne. congruence.
Qed.

Lemma retire_session_sub key m key' sid : m_sessions (retire_session key m) !! key' = Some sid → m_sessions m !! key' = Some sid.
Proof.
  destruct (m_sessions m !! key) as [sid'|] eqn:Hk; [|unfold retire_session; by rewrite Hk].
  destruct (retire_session_fields key m sid' Hk) as (-> & _). rewrite lookup_delete_Some. by intros [_ ?].
Qed.

Lemma retire_others keys m sid : (∀ key, key ∈ keys → m_sessions m !! key ≠ Some sid) →
  m_all (foldr retire_session m keys) !! sid = m_all m !! sid ∧
  ∀ key, m_sessions (foldr retire_session m keys) !! key = Some sid → m_sessions m !! key = Some sid.
Proof.
  induction keys as [|key keys IH]; intros H; cbn [foldr]; [done|].
  destruct IH as [IH1 IH2]; [intros k Hk; apply H; by right|]. split.
  - rewrite retire_session_all; [done|]. intros Hx. apply IH2 in Hx. apply (H key); [by left|done].
  - intros k Hk. apply IH2. by eapply retire_session_sub.
Qed.

Lemma retire_packager_all key m : m_all (retire_packager key m) = m_all m.
Proof.
  destruct (m_packagers m !! key) as [pid|] eqn:Hk; [|unfold retire_packager; by rewrite Hk].
  by destruct (retire_packager_fields key m pid Hk) as (_ & _ & _ & -> & _).
Qed.

Lemma foldr_all {A} (f : A → Manager → Manager) l m : (∀ x m, m_all (f x m) = m_all m) → m_all (foldr f m l) = m_all m.
Proof. intros H. induction l as [|x l IH]; cbn [foldr]; [done|]. by rewrite H, IH. Qed.

(** Who cancels: the stop of the key, the shutdown, or a task that found the session unused. *)
Definition may_cancel (m : Manager) (s : Session) : Prop :=
  (∃ tid entry, m_fin m = Some (FinStop2 tid (s_key s) entry)) ∨ m_fin m = Some FinShut2 ∨
  (∃ pend active, m_fin m = Some (FinReap2 pend active) ∧ s_subs s = ∅ ∧ s_pins s = ∅ ∧
     pending_of (m_lifecycle m) (s_key s) = ∅) ∨
  (∃ tid sid pend active, m_fin m = Some (FinRelease2 tid (s_key s) sid pend active) ∧
     (s_done s = Confirmed ∨ s_subs s = ∅ ∧ s_pins s = ∅) ∧ pending_of (m_lifecycle m) (s_key s) = ∅).

Lemma idle_spec m sid s : m_all m !! sid = Some s → idle m sid = true → s_subs s = ∅ ∧ s_pins s = ∅.
Proof.
  unfold idle. intros ->. intros H. apply andb_true_iff in H as [H1 H2]. apply bool_decide_eq_true in H1, H2. done.
Qed.

Lemma unpending l key : key ∉ dom (pending l) → pending_of l key = ∅.
Proof. intros H. apply not_elem_of_dom in H. unfold pending_of. by rewrite H. Qed.

Lemma fin_step_cancels grace m now m' sid s s' : manager_ok m → fin_step grace m now = Next m' →
  m_all m !! sid = Some s → s_cancel s = false → m_all m' !! sid = Some s' → s_cancel s' = true → may_cancel m s.
Proof.
  intros I Hstep Hs Hc Hs' Hc'.
  assert (Hno : ¬ keeps m m') by (intros Hk; destruct (Hk sid s Hs) as (x & Hx & Hy); congruence).
  destruct (m_fin m) as [f|] eqn:Hf; [|unfold_fin_in Hstep; by rewrite Hf in Hstep].
  pose proof (mi_live _ _ _ _ I sid s Hs Hc ltac:(done)) as Hpub.
  pose proof (mi_fin _ _ _ _ I f Hf) as Hfin. unfold_fin_in Hstep. rewrite Hf in Hstep. unfold may_cancel. rewrite Hf.
  destruct f as [iid n|iid src|iid n h|tid key|tid key entry|at_ pend|pend active|ret|tid key n at_ pend|tid key n pend active| | | |vid];
    try (injection Hstep as <-; destruct Hno; by apply keeps_all).
  - destruct (m_inits m !! iid) as [i|] eqn:Hi; [|done]. destruct (fin_publish_ok m iid n i I Hf Hi) as [Hk _]. rewrite Hk in Hstep.
    destruct (acquire _ _ _) as [g m1] eqn:E. injection Hstep as <-. destruct Hno. apply (keeps_trans _ m1).
    + match type of E with acquire ?k ?v ?x = _ => pose proof (keeps_core _ _ (acquire_core k v x)) as H; rewrite E in H end. exact H.
    + apply keeps_all. exact (return_all iid i (Ok g) m1).
  - destruct (m_inits m !! iid) as [i|] eqn:Hi; [|done]. destruct Hno. destruct (m_sessions m !! i_key i) as [n|]; [|destruct src; [|done]];
      injection Hstep as <-.
    + apply (keeps_trans _ (if src then set_adm (unreserve (m_adm m)) m else m)); [by apply keeps_all; destruct src|].
      apply keeps_subscribe.
    + apply (keeps_trans _ (start_session (i_key i) m).2); [by eapply keeps_start|].
      eapply keeps_trans; [|apply keeps_subscribe]. by apply keeps_all.
  - destruct (m_inits m !! iid) as [i|]; [|done]. destruct (publish_packager _ _ _) as [pid m1] eqn:E. injection Hstep as <-.
    destruct Hno. apply keeps_all. etransitivity; [exact (return_all iid i (Ok (GHls pid n h)) _)|].
    assert (m_all m1 = m_all m) by (revert E; unfold publish_packager; destruct (m_packagers m !! i_key i); by intros [= <- <-]).
    by destruct (i_kind i) as [| | | |[]].
  - injection Hstep as <-. destruct Hno. apply keeps_all. apply retire_packager_all.
  - left. injection Hstep as <-. destruct (decide (m_sessions m !! key = Some sid)) as [Hk|Hk].
    + destruct (mi_map _ _ _ _ I key sid Hk) as (s0 & H0 & <- & _). assert (s0 = s) as -> by congruence. by exists tid, entry.
    + cbn in Hs'. rewrite retire_session_all in Hs' by done. congruence.
  - right; right; left. injection Hstep as <-. cbn in Hs'.
    destruct (decide (s_key s ∈ expired m pend active)) as [Hin|Hin].
    + unfold expired in Hin. apply list_elem_of_fmap in Hin as ((k & n) & Heq & Hin). cbn in Heq. subst k.
      apply elem_of_map_to_list, map_lookup_filter_Some in Hin as (H1 & H2 & _ & H4). cbn in H2, H4.
      destruct Hpub as [Hpub|[x Hpub]]; [|congruence]. assert (n = sid) as -> by congruence.
      exists pend, active. destruct (idle_spec _ _ _ Hs H2) as [-> ->]. split_and!; try done. apply unpending. set_solver.
    + destruct (retire_others (expired m pend active) m sid) as [H _]; [|congruence]. intros k Hk Hx.
      destruct (mi_map _ _ _ _ I k sid Hx) as (s0 & H0 & <- & _). congruence.
  - injection Hstep as <-. destruct Hno. apply keeps_all. apply (foldr_all retire_packager). intros; apply retire_packager_all.
  - right; right; right. injection Hstep as <-. unfold release_final in Hs'. destruct (_ || _) eqn:Eg; [cbn in Hs'; congruence|].
    cbn in Hs'. rewrite retire_packager_all in Hs'. apply orb_false_iff in Eg as [Eg Ecur]. apply orb_false_iff in Eg as [-> Eg].
    apply negb_false_iff, bool_decide_eq_true in Ecur. specialize (Hfin eq_refl).
    destruct (decide (n = sid)) as [->|Hne]; [|rewrite retire_session_all in Hs'; congruence].
    destruct (mi_map _ _ _ _ I key sid Ecur) as (s0 & H0 & <- & _). assert (s0 = s) as -> by congruence.
    exists tid, sid, false, active. split_and!; try done; [|by apply unpending].
    apply andb_false_iff in Eg as [Eg|Eg].
    + left. apply negb_false_iff, bool_decide_eq_true in Eg. cbn in Eg. by rewrite Hs in Eg.
    + right. apply orb_false_iff in Eg as [_ Eg]. apply negb_false_iff in Eg. by eapply idle_spec.
  - injection Hstep as <-. destruct Hno. apply keeps_all. apply (foldr_all packager_stop). done.
  - by right; left.
  - destruct Hno. apply fin_vod_move in Hstep as (v & a & ->). by apply keeps_all.
Qed.

Lemma step_keeps_sessions grace m ev m' : manager_ok m → step grace m ev = Next m' → (∀ now, ev ≠ EFin now) → keeps m m'.
Proof.
  intros I. assert (Hsame : ∀ m1, m_all m1 = m_all m → Next m1 = Next m' → keeps m m') by (intros m1 E [= <-]; by apply keeps_all).
  assert (Hdrop : ∀ m1 sid h, m_all m1 = m_all m → Next (update_session sid (session_drop h) m1) = Next m' → keeps m m').
  { intros m1 sid h E [= <-]. eapply keeps_trans; [by apply keeps_all|apply keeps_core, drop_core]. }
  destruct ev; cbn [step]; intros Hstep Hne; try (by revert Hstep; apply Hsame); revert Hstep.
  - unfold begin_start. repeat case_match; try done; by apply Hsame.
  - by apply init_step_keeps.
  - unfold opened. destruct (m_inits m !! iid) as [i|]; [|done]. destruct (i_pc i); try done.
    destruct answer; apply Hsame; [by rewrite return_all|done].
  - unfold disposed. destruct (m_inits m !! iid) as [i|]; [|done]. destruct (i_pc i); try done.
    destruct confirmed; apply Hsame; by rewrite return_all.
  - unfold deliver_result. repeat case_match; try done; [by apply Hdrop|by apply Hsame..].
  - by destruct (Hne now).
  - unfold stop_start. destruct (m_fin m), (m_waits m !! tid); try done.
    destruct (disable_support_controls (Some key) m) as [m1|] eqn:Hd; [|done]. cbn [of_option mbind option_bind]. intros [= <-].
    eapply keeps_trans; [apply keeps_core, (disable_core _ _ _ Hd)|by apply keeps_all].
  - unfold reap_start. case_match; [done|]. by apply Hsame.
  - unfold release_start. destruct (m_fin m), (m_waits m !! tid), (m_all m !! sid) as [s|]; try done.
    case_bool_decide; [|done]. destruct (s_cancel s); intros [= <-];
      (eapply keeps_trans; [apply keeps_core, drop_core|by apply keeps_all]).
  - unfold shutdown_start. destruct (m_fin m); [done|].
    destruct (disable_support_controls None (set_shut m)) as [m1|] eqn:Hd; [|done]. cbn [of_option mbind option_bind]. intros [= <-].
    apply (keeps_trans _ m1); [exact (keeps_core _ _ (disable_core _ _ _ Hd))|by apply keeps_all].
  - unfold wait_end. repeat case_match; try done. by apply Hsame.
  - unfold session_done. destruct (m_all m !! sid) as [s|]; [|done]. case_bool_decide; [|done].
    assert (Hc : ∀ d, keeps m (update_session sid (session_finish d) m)) by (intros d; by apply keeps_core, update_session_core).
    destruct confirmed; intros [= <-]; (eapply keeps_trans; [apply Hc|by apply keeps_all]).
  - unfold packager_done. repeat case_match; try done; by apply Hsame.
  - unfold drop_handle. repeat case_match; try done. by apply Hdrop.
  - unfold register_support. repeat case_match; try done; by apply Hsame.
  - unfold change_intent. destruct (m_fin m), (m_controls m !! c) as [ctl|]; try done. destruct (_ || _); [by apply Hsame|].
    destruct (set_running _ _); [|done]. by apply Hsame.
  - unfold change_intent. destruct (m_fin m), (m_controls m !! c) as [ctl|]; try done. destruct (_ || _); [by apply Hsame|].
    destruct (restart_if_epoch _ _); [|done]. by apply Hsame.
  - unfold shutdown_end. case_match; [|done]. by apply Hsame.
  - intros Hs. apply keeps_all.
    by destruct (vod_step_move _ _ _ _ Hs) as [(v & a & ->)|[(_ & _ & vid & v & a & ->)|(_ & v & a & ->)]].
Qed.

(** ** A stop holds *)

(** From the end of a stop on: no session of the key, and every initializer that was on its way is
    cancelled or has nothing left but to return. *)
Definition stopped (key : StreamKey) (m0 m : Manager) : Prop :=
  m_sessions m !! key = None ∧
  ∀ iid i, m_inits m !! iid = Some i → i_key i = key →
    (i_active i = true → (key, i_gen i) ∈ cancelled (m_lifecycle m)) ∧
    (i_active i = false → i_pc i = PDispose ∨ ∃ res, i_pc i = PDone res) ∧
    ∀ g, i_pc i = PDone (Ok g) → ∃ i0, m_inits m0 !! iid = Some i0 ∧ i_pc i0 = PDone (Ok g).

Lemma stopped_step key m0 m m' : stopped key m0 m → m_sessions m' !! key = None →
  (∀ iid i', m_inits m' !! iid = Some i' → i_key i' = key → ∃ i, m_inits m !! iid = Some i ∧ i_key i = key ∧ i_gen i' = i_gen i ∧
     (i_active i' = true → i_active i = true ∧ ((key, i_gen i) ∈ cancelled (m_lifecycle m) → (key, i_gen i) ∈ cancelled (m_lifecycle m'))) ∧
     (i_active i' = false → i_active i = false ∧ i_pc i' = i_pc i ∨ i_pc i' = PDispose ∨ ∃ res, i_pc i' = PDone res) ∧
     ∀ g, i_pc i' = PDone (Ok g) → i_pc i = PDone (Ok g)) →
  stopped key m0 m'.
Proof.
  intros [_ H] Hs Hi. split; [done|]. intros iid i' Hi' Hk. destruct (Hi iid i' Hi' Hk) as (i & G1 & G2 & G3 & G4 & G5 & G6).
  destruct (H iid i G1 G2) as (A & B & C). split_and!.
  - intros Ha. rewrite G3. destruct (G4 Ha) as [G7 G8]. auto.
  - intros Ha. destruct (G5 Ha) as [[G7 ->]|?]; [auto|done].
  - intros g Hg. apply C. auto.
Qed.

(** Nothing happens to the initializers of the key. *)
Lemma stopped_frame key m0 m m' : stopped key m0 m → m_sessions m' !! key = None → m_inits m' = m_inits m →
  (∀ x, x ∈ cancelled (m_lifecycle m) → x ∈ cancelled (m_lifecycle m')) → stopped key m0 m'.
Proof.
  intros H Hs Ei Hc. eapply stopped_step; [done|done|]. intros iid i'. rewrite Ei. intros Hi Hk. exists i'.
  split_and!; auto.
Qed.

(** The end of an initializer: an error for the key, anything for another. *)
Lemma stopped_return z key m0 m m1 iid i res : minv z None None m → stopped key m0 m → m_inits m !! iid = Some i →
  m_inits m1 = m_inits m → m_lifecycle m1 = m_lifecycle m → m_sessions m1 !! key = None →
  (i_key i = key → ∀ g, res ≠ Ok g) → stopped key m0 (init_return iid i res m1).
Proof.
  intros I H Hi Ei El Hs Hres. unfold init_return.
  set (m2 := if i_active i then _ else m1).
  assert (H2 : m_sessions m2 = m_sessions m1 ∧ m_inits m2 = m_inits m1 ∧ m_locks m2 = m_locks m1) by (unfold m2; by destruct (i_active i)).
  assert (Hc : ∀ iid' i', m_inits m !! iid' = Some i' → iid' ≠ iid → i_active i' = true →
    (key, i_gen i') ∈ cancelled (m_lifecycle m) → (key, i_gen i') ∈ cancelled (m_lifecycle m2)).
  { intros iid' i' Hi' Hne Ha Hx. unfold m2. destruct (i_active i) eqn:Hai; [|by rewrite El]. cbn. rewrite El.
    destruct (finish_finished (m_lifecycle m) (i_key i) (i_gen i)) as [(_ & -> & _) _]. apply elem_of_difference.
    split; [done|]. intros Heq. apply elem_of_singleton in Heq. injection Heq as _ Hg. apply Hne. by eapply (mi_uniq _ _ _ _ I). }
  destruct H2 as (E1 & E2 & E3). clearbody m2.
  set (m3 := if holds_lock m2 iid (i_key i) then _ else m2).
  assert (H3 : m_sessions m3 = m_sessions m1 ∧ m_inits m3 = m_inits m ∧ m_lifecycle m3 = m_lifecycle m2).
  { unfold m3. destruct (holds_lock m2 iid (i_key i)); cbn; rewrite ?E1, ?E2; done. }
  destruct H3 as (F1 & F2 & F3). clearbody m3. eapply (stopped_step key m0 m); [done|cbn; by rewrite F1|].
  intros iid' i'. rewrite lookup_update_init, F2. destruct (decide (iid = iid')) as [<-|Hne].
  - rewrite Hi. intros [= <-] Hk. exists i. cbn in Hk. split_and!; try done; [|intros g [= ->]; by destruct (Hres Hk g)].
    intros _. right; right. by eexists.
  - intros Hi' Hk. exists i'. split_and!; try done; [|auto]. intros Ha. split; [done|]. cbn. rewrite F3. by eapply Hc.
Qed.

(** An initializer of another key moves. *)
Lemma stopped_other key m0 m m' iid i : stopped key m0 m → m_inits m !! iid = Some i → i_key i ≠ key →
  m_sessions m' !! key = None →
  (∀ iid' i', m_inits m' !! iid' = Some i' → iid' ≠ iid → m_inits m !! iid' = Some i') →
  (∀ i', m_inits m' !! iid = Some i' → i_key i' = i_key i) →
  (∀ g, (key, g) ∈ cancelled (m_lifecycle m) → (key, g) ∈ cancelled (m_lifecycle m')) → stopped key m0 m'.
Proof.
  intros H Hi Hk Hs Ho Hown Hc. eapply stopped_step; [done|done|]. intros iid' i' Hi' Hk'.
  destruct (decide (iid' = iid)) as [->|Hne]; [by rewrite (Hown _ Hi') in Hk'|]. exists i'.
  split_and!; auto.
Qed.

(** An initializer moves to a place that is not a success. *)
Lemma stopped_advance key m0 m m1 iid i pc : stopped key m0 m → m_inits m !! iid = Some i →
  (i_key i = key → i_active i = true ∨ pc = PDispose) → (∀ g, pc ≠ PDone (Ok g)) →
  m_sessions m1 !! key = None → m_inits m1 = m_inits m → m_lifecycle m1 = m_lifecycle m →
  stopped key m0 (update_init iid (with_pc pc) m1).
Proof.
  intros H Hi Ha Hpc Hs Ei El. eapply stopped_step; [done|done|]. intros iid' i'. rewrite lookup_update_init, Ei.
  destruct (decide (iid = iid')) as [<-|Hne].
  - rewrite Hi. intros [= <-] Hk. exists i. cbn in Hk. cbn. rewrite El. split_and!; try done.
    + intros Hx. destruct (Ha Hk) as [?|?]; [congruence|]. by right; left.
    + intros g Hg. by destruct (Hpc g).
  - intros Hi' Hk. exists i'. cbn. rewrite El. split_and!; auto.
Qed.

Lemma lookup_update_other m iid f iid' i' : m_inits (update_init iid f m) !! iid' = Some i' → iid' ≠ iid → m_inits m !! iid' = Some i'.
Proof. rewrite lookup_update_init. by destruct (decide (iid = iid')). Qed.

Lemma return_inactive iid i res m : i_active i = false → let m' := init_return iid i res m in
  m_inits m' = m_inits (update_init iid (λ i, with_active false (with_pc (PDone res) i)) m) ∧
  m_sessions m' = m_sessions m ∧ m_lifecycle m' = m_lifecycle m.
Proof. unfold init_return. intros ->. by destruct (holds_lock m iid (i_key i)). Qed.

(** An initializer whose generation is finished ends without success, or belongs to another key. *)
Lemma stopped_finished key m0 m m' iid i : manager_ok m → stopped key m0 m → m_inits m !! iid = Some i → i_active i = true →
  m_sessions m' = m_sessions m → finished (m_lifecycle m) (m_lifecycle m') (i_key i) (i_gen i) →
  (∀ iid' i', m_inits m' !! iid' = Some i' → iid' ≠ iid → m_inits m !! iid' = Some i') →
  (∀ i', m_inits m' !! iid = Some i' → i_key i' = i_key i ∧ i_gen i' = i_gen i ∧ i_active i' = false ∧
     (i_key i = key → i_pc i' = PDispose ∨ i_pc i' = PDone (Err Cancelled))) → stopped key m0 m'.
Proof.
  intros I H Hi Hact E1 Hf E3 E4. eapply (stopped_step key m0 m); [done|rewrite E1; apply H|]. intros iid' i' Hi' Hk'.
  destruct (decide (iid' = iid)) as [->|Hne].
  - destruct (E4 _ Hi') as (A & B & C & D). rewrite A in Hk'. specialize (D Hk'). exists i.
    split_and!; try done; [congruence|naive_solver|]. intros g Hg. destruct D; congruence.
  - pose proof (E3 _ _ Hi' Hne) as Hx. exists i'. split_and!; auto. intros Ha. split; [done|].
    destruct Hf as (_ & -> & _). intros Hy. apply elem_of_difference. split; [done|]. intros Heq.
    apply elem_of_singleton in Heq. injection Heq as _ Hg. apply Hne. by eapply (mi_uniq _ _ _ _ I).
Qed.

Lemma finalize_stopped key m0 m iid i src : manager_ok m → stopped key m0 m → m_inits m !! iid = Some i →
  i_pc i = POpened src → stopped key m0 (finalize iid i src m).
Proof.
  intros I H Hi Hp. destruct (mi_inits _ _ _ _ I iid i Hi ltac:(done)) as [Hok _]. unfold pc_ok in Hok. rewrite Hp in Hok.
  assert (Hact : i_active i = true) by (destruct src; apply Hok). pose proof H as [Hs Hin].
  unfold finalize. destruct (negb (support_current m (i_kind i)) || i_cancel i).
  { destruct src; [by apply (stopped_advance _ _ m _ _ i); auto|]. by eapply (stopped_return _ _ _ m). }
  destruct (finish_finished (m_lifecycle m) (i_key i) (i_gen i)) as [Hf Hc].
  destruct (lifecycle_finish (m_lifecycle m) (i_key i) (i_gen i)) as [c l]. cbn [fst snd] in Hf, Hc.
  set (m1 := update_init iid (with_active false) (set_lifecycle l m)).
  assert (Hend : ∀ m2 f, m_sessions m2 = m_sessions m → m_lifecycle m2 = l → m_inits m2 = m_inits (update_init iid f m1) →
    i_key (f (with_active false i)) = i_key i → i_gen (f (with_active false i)) = i_gen i → i_active (f (with_active false i)) = false →
    (i_key i = key → i_pc (f (with_active false i)) = PDispose ∨ i_pc (f (with_active false i)) = PDone (Err Cancelled)) →
    stopped key m0 m2).
  { intros m2 f E1 E2 E3 F1 F2 F3 F4. eapply (stopped_finished key m0 m m2 iid i); try done; [by rewrite E2| |].
    - intros iid' i'. rewrite E3. intros H1 H2. by apply lookup_update_other, lookup_update_other in H1.
    - intros i'. rewrite E3, lookup_update_init, decide_True by done. unfold m1. rewrite lookup_update_init, decide_True by done.
      cbn [set_lifecycle m_inits]. rewrite Hi. by intros [= <-]. }
  destruct (c || m_shut m1) eqn:Ec.
  - destruct src; [by eapply (Hend _ (with_pc PDispose)); auto|].
    destruct (return_inactive iid (with_active false i) (Err Cancelled) m1 eq_refl) as (R1 & R2 & R3).
    by eapply (Hend _ _ R2 R3 R1); auto.
  - assert (Hk : i_key i ≠ key).
    { intros Hk. apply orb_false_iff in Ec as [-> _]. symmetry in Hc. apply bool_decide_eq_false_1 in Hc.
      apply Hc. rewrite Hk. by apply (Hin iid i). }
    destruct (is_hls _); by apply (Hend _ (with_pc PFinal)).
Qed.

Lemma acquire_frame k sid m : let m' := (acquire k sid m).2 in
  m_sessions m' = m_sessions m ∧ m_inits m' = m_inits m ∧ m_lifecycle m' = m_lifecycle m.
Proof. by destruct k. Qed.

Lemma take_running_stopped key m0 m iid i sid : manager_ok m → stopped key m0 m → m_inits m !! iid = Some i →
  m_sessions m !! i_key i = Some sid → stopped key m0 (take_running iid i sid m).
Proof.
  intros I H Hi Hk. pose proof H as [Hs _]. unfold take_running. destruct (_ || _); [by eapply (stopped_return _ _ _ m)|].
  destruct (acquire_frame (i_kind i) sid m) as (E1 & E2 & E3). destruct (acquire (i_kind i) sid m) as [g m'].
  cbn [snd] in E1, E2, E3. eapply (stopped_return _ _ _ m); try done; [by rewrite E1|]. intros Hx. congruence.
Qed.

Lemma init_step_stopped key m0 m iid m' : manager_ok m → stopped key m0 m → init_step m iid = Next m' → stopped key m0 m'.
Proof.
  intros I H. pose proof H as [Hs Hin]. unfold init_step. destruct (m_inits m !! iid) as [i|] eqn:Hi; [|done].
  destruct (mi_inits _ _ _ _ I iid i Hi ltac:(done)) as [Hok _]. unfold pc_ok in Hok.
  assert (Hret : ∀ m1 e, m_inits m1 = m_inits m → m_lifecycle m1 = m_lifecycle m → m_sessions m1 = m_sessions m →
    stopped key m0 (init_return iid i (Err e) m1)).
  { intros m1 e E1 E2 E3. eapply (stopped_return _ _ _ m); try done. by rewrite E3. }
  assert (Hadv : ∀ m1 pc, i_active i = true → (∀ g, pc ≠ PDone (Ok g)) → m_inits m1 = m_inits m → m_lifecycle m1 = m_lifecycle m →
    m_sessions m1 = m_sessions m → stopped key m0 (update_init iid (with_pc pc) m1)).
  { intros m1 pc A B E1 E2 E3. eapply (stopped_advance _ _ m); try done; [by left|by rewrite E3]. }
  destruct (i_pc i) as [| | | | |src| | |] eqn:Hp; try done.
  - destruct (fenced m i); intros [= <-]; [by apply Hret|]. apply Hadv; try done. by destruct (is_hls _).
  - destruct (m_sessions m !! i_key i) as [sid|] eqn:Hk; intros [= <-]; [by apply take_running_stopped|by apply Hadv].
  - destruct (i_cancel i); [intros [= <-]; by apply Hret|]. destruct (m_locks m !! i_key i); [done|].
    cbv zeta. destruct (fenced _ i); intros [= <-]; [by apply Hret|by apply Hadv].
  - destruct (m_sessions m !! i_key i) as [sid|] eqn:Hk.
    + destruct (is_hls _); intros [= <-]; [by apply Hadv; try apply Hok|by apply take_running_stopped].
    + intros [= <-]. unfold open_source. destruct (reserve (m_adm m)); [by apply Hadv; try apply Hok|by apply Hret].
  - destruct (m_fin m); [done|]. intros [= <-]. by apply finalize_stopped.
Qed.

(** The owner of the mutex belongs to another key. *)
Lemma owner_other key m0 m iid f i : manager_ok m → stopped key m0 m → m_fin m = Some f → fin_owner (Some f) = Some iid →
  m_inits m !! iid = Some i → i_key i ≠ key.
Proof.
  intros I [_ Hin] Hf Ho Hi Hk. destruct (fin_owner_ok m iid f I Hf Ho) as (i' & Hi' & Hp & Ha & _).
  assert (i' = i) as -> by congruence. destruct (Hin iid i Hi Hk) as (_ & B & _). destruct (B Ha) as [?|[? ?]]; congruence.
Qed.

Lemma stopped_end m0 m iid i key res m1 : manager_ok m → stopped key m0 m → m_inits m !! iid = Some i → i_key i ≠ key →
  m_inits m1 = m_inits m → m_lifecycle m1 = m_lifecycle m → m_sessions m1 !! key = None →
  stopped key m0 (set_fin None (init_return iid i res m1)).
Proof.
  intros I H Hi Hk E1 E2 E3. assert (H1 : stopped key m0 (init_return iid i res m1)) by (by eapply (stopped_return _ _ _ m)).
  destruct H1 as [H1 H2]. eapply stopped_frame; [|done..]. by split.
Qed.

Lemma retire_frame key m : let m' := retire_session key m in
  m_inits m' = m_inits m ∧ m_lifecycle m' = m_lifecycle m.
Proof.
  destruct (m_sessions m !! key) as [sid|] eqn:Hk; [|unfold retire_session; by rewrite Hk].
  by destruct (retire_session_fields key m sid Hk) as (_ & _ & _ & _ & ? & _ & _ & ? & _).
Qed.

Lemma retire_packager_frame key m : let m' := retire_packager key m in
  m_inits m' = m_inits m ∧ m_lifecycle m' = m_lifecycle m ∧ m_sessions m' = m_sessions m.
Proof.
  destruct (m_packagers m !! key) as [pid|] eqn:Hk; [|unfold retire_packager; by rewrite Hk].
  by destruct (retire_packager_fields key m pid Hk) as (_ & _ & ? & _ & ? & _ & _ & ? & _).
Qed.

(** Steps that only take sessions away. *)
Definition shrinks (m m' : Manager) : Prop :=
  m_inits m' = m_inits m ∧ m_lifecycle m' = m_lifecycle m ∧
  ∀ key, m_sessions m !! key = None → m_sessions m' !! key = None.

Lemma shrinks_all_trans m1 m2 m3 : shrinks m1 m2 → shrinks m2 m3 → shrinks m1 m3.
Proof. intros (A & B & C) (D & E & F). split_and!; [congruence|congruence|auto]. Qed.

Lemma shrinks_stopped key m0 m m' : stopped key m0 m → shrinks m m' → stopped key m0 m'.
Proof. intros H (A & B & C). eapply stopped_frame; [done|apply C, H|done|by rewrite B]. Qed.

Lemma foldr_shrinks {A} (f : A → Manager → Manager) l m : (∀ x m, shrinks m (f x m)) → shrinks m (foldr f m l).
Proof. intros H. induction l as [|x l IH]; cbn [foldr]; [done|]. eapply shrinks_all_trans; [exact IH|apply H]. Qed.

Lemma retire_shrinks key m : shrinks m (retire_session key m).
Proof. destruct (retire_frame key m) as [A B]. split_and!; [done|done|]. intros k Hk. by apply retire_absent. Qed.

Lemma retire_packager_shrinks key m : shrinks m (retire_packager key m).
Proof. destruct (retire_packager_frame key m) as (A & B & C). split_and!; [done|done|]. by rewrite C. Qed.

Lemma fin_step_stopped grace key m0 m now m' : manager_ok m → stopped key m0 m → fin_step grace m now = Next m' → stopped key m0 m'.
Proof.
  intros I H. pose proof H as [Hs Hin]. unfold_fin. destruct (m_fin m) as [f|] eqn:Hf; [|done].
  assert (Hsh : ∀ m1, shrinks m m1 → Next m1 = Next m' → stopped key m0 m') by (intros m1 A [= <-]; by eapply shrinks_stopped).
  destruct f as [iid n|iid src|iid n h|tid k|tid k entry|at_ pend|pend active|ret|tid k n at_ pend|tid k n pend active| | | |vid];
    try (by apply Hsh).
  - destruct (m_inits m !! iid) as [i|] eqn:Hi; [|done]. pose proof (owner_other key m0 m iid _ i I H Hf eq_refl Hi) as Hk.
    destruct (fin_publish_ok m iid n i I Hf Hi) as [-> _]. destruct (acquire _ _ _) as [g m1] eqn:E. intros [= <-].
    match type of E with acquire ?a ?b ?c = _ => destruct (acquire_frame a b c) as (E1 & E2 & E3); rewrite E in E1, E2, E3 end.
    cbn [snd] in E1, E2, E3.
    apply (stopped_end m0 m iid i); try done. rewrite E1. cbn. by rewrite lookup_insert_ne.
  - destruct (m_inits m !! iid) as [i|] eqn:Hi; [|done]. pose proof (owner_other key m0 m iid _ i I H Hf eq_refl Hi) as Hk.
    destruct (m_sessions m !! i_key i) as [sid|] eqn:Hx; [apply Hsh; by destruct src|]. destruct src; [|done]. intros [= <-].
    eapply (stopped_frame key m0 m); [done| |done|done]. cbn. by rewrite lookup_insert_ne.
  - destruct (m_inits m !! iid) as [i|] eqn:Hi; [|done]. pose proof (owner_other key m0 m iid _ i I H Hf eq_refl Hi) as Hk.
    destruct (publish_packager _ _ _) as [pid m1] eqn:E. intros [= <-].
    assert (E1 : m_inits m1 = m_inits m ∧ m_lifecycle m1 = m_lifecycle m ∧ m_sessions m1 = m_sessions m).
    { revert E. unfold publish_packager. destruct (m_packagers m !! i_key i); by intros [= <- <-]. }
    destruct E1 as (E1 & E2 & E3). apply (stopped_end m0 m iid i); try done; destruct (i_kind i) as [| | | |[]]; cbn; try done; by rewrite E3.
  - apply Hsh, retire_packager_shrinks.
  - apply Hsh. exact (retire_shrinks k m).
  - apply Hsh. apply (foldr_shrinks retire_session). intros; apply retire_shrinks.
  - apply Hsh. apply (foldr_shrinks retire_packager). intros; apply retire_packager_shrinks.
  - apply Hsh. unfold release_final. destruct (_ || _); [done|].
    apply (shrinks_all_trans _ (retire_session k m)); [apply retire_shrinks|]. exact (retire_packager_shrinks k _).
  - apply Hsh. exact (foldr_shrinks packager_stop _ m (λ x m, conj eq_refl (conj eq_refl (λ _ H, H)))).
  - apply Hsh. destruct (foldr_shrinks (λ sid, update_session sid session_cancel) (map_to_list (m_sessions m)).*2 m) as (A & B & _); [done|].
    split_and!; [done|done|]. by cbn.
  - intros (v & a & ->)%fin_vod_move. by apply (Hsh (set_fin None (set_adm a (set_vods v m)))).
Qed.

Lemma disable_shrinks key m m' : disable_support_controls key m = Some m' → shrinks m m'.
Proof. unfold disable_support_controls. intros H. by apply bind_Some in H as (cs & _ & [= <-]). Qed.

Lemma step_stopped grace key m0 m ev m' : manager_ok m → stopped key m0 m → (∀ iid k, ev ≠ EBegin iid key k) →
  step grace m ev = Next m' → stopped key m0 m'.
Proof.
  intros I H Hev. pose proof H as [Hs Hin].
  assert (Hsh : ∀ m1, shrinks m m1 → Next m1 = Next m' → stopped key m0 m') by (intros m1 A [= <-]; by eapply shrinks_stopped).
  assert (Hret : ∀ iid i e m1, m_inits m !! iid = Some i → m_inits m1 = m_inits m → m_lifecycle m1 = m_lifecycle m → m_sessions m1 = m_sessions m →
    Next (init_return iid i (Err e) m1) = Next m' → stopped key m0 m').
  { intros iid i e m1 Hi E1 E2 E3 [= <-]. eapply (stopped_return _ _ _ m); try done. by rewrite E3. }
  destruct ev; cbn [step]; try (by apply Hsh).
  - unfold begin_start. destruct (m_fin m), (m_inits m !! iid) eqn:Hi; try done. destruct (m_shut m); [by apply Hsh|].
    destruct (transition_begin (m_lifecycle m) key0) as [[g l]|] eqn:Hb; [|done]. intros [= <-].
    destruct (begin_spec _ _ _ _ Hb) as (_ & _ & Hc & _). eapply stopped_step; [done|done|]. cbn. intros iid' i'.
    destruct (decide (iid = iid')) as [<-|Hne].
    + rewrite lookup_insert_eq. intros [= <-] Hk. cbn in Hk. subst key0. by destruct (Hev iid k).
    + rewrite lookup_insert_ne by done. intros Hi' Hk. exists i'. rewrite Hc. split_and!; auto.
  - by apply init_step_stopped.
  - unfold opened. destruct (m_inits m !! iid) as [i|] eqn:Hi; [|done].
    destruct (mi_inits _ _ _ _ I iid i Hi ltac:(done)) as [Hok _]. unfold pc_ok in Hok. destruct (i_pc i) eqn:Hp; try done.
    destruct answer; [by apply (Hret iid i)|]. intros [= <-]. eapply (stopped_advance _ _ m); try done. left. apply Hok.
  - unfold disposed. destruct (m_inits m !! iid) as [i|] eqn:Hi; [|done]. destruct (i_pc i); try done.
    destruct confirmed; by apply (Hret iid i).
  - intros [= <-]. eapply stopped_step; [done|done|]. intros iid' i'. rewrite lookup_update_init.
    destruct (decide (iid = iid')) as [<-|Hne].
    + intros Hi' Hk. apply fmap_Some in Hi' as (i & Hi & ->). exists i. cbn in *. split_and!; auto.
    + intros Hi' Hk. exists i'. split_and!; auto.
  - unfold deliver_result. destruct (m_inits m !! iid) as [i|] eqn:Hi; [|done]. destruct (i_pc i) as [| | | | | | | |res]; try done.
    assert (Hdel : ∀ m1, m_sessions m1 = m_sessions m → m_lifecycle m1 = m_lifecycle m → m_inits m1 = delete iid (m_inits m) →
      Next m1 = Next m' → stopped key m0 m').
    { intros m1 E1 E2 E3 [= <-]. eapply stopped_step; [done|by rewrite E1|]. intros iid' i'. rewrite E3, lookup_delete_Some.
      intros [_ Hi'] Hk. exists i'. rewrite E2. split_and!; auto. }
    destruct res as [g|]; [|by apply Hdel]. destruct (grant_handle g) as [[sid h]|]; [|by apply Hdel].
    destruct (i_cancel i); by apply Hdel.
  - by apply fin_step_stopped.
  - unfold stop_start. destruct (m_fin m), (m_waits m !! tid); try done.
    destruct (disable_support_controls (Some key0) m) as [m1|] eqn:Hd; [|done]. cbn [of_option mbind option_bind]. intros [= <-].
    destruct (disable_shrinks _ _ _ Hd) as (A & B & C). eapply stopped_frame; [done|by apply C|done|]. cbn. rewrite <- B.
    intros x. apply cancel_pending_mono.
  - unfold reap_start. case_match; [done|]. by apply Hsh.
  - unfold release_start. repeat case_match; try done; by apply Hsh.
  - unfold shutdown_start. destruct (m_fin m); [done|].
    destruct (disable_support_controls None (set_shut m)) as [m1|] eqn:Hd; [|done]. apply Hsh.
    destruct (disable_shrinks _ _ _ Hd) as (A & B & C). done.
  - unfold wait_end. repeat case_match; try done. by apply Hsh.
  - unfold session_done. repeat case_match; try done; by apply Hsh.
  - unfold packager_done. repeat case_match; try done; by apply Hsh.
  - unfold drop_handle. repeat case_match; try done. by apply Hsh.
  - unfold register_support. repeat case_match; try done; by apply Hsh.
  - unfold change_intent. destruct (m_fin m), (m_controls m !! c) as [ctl|]; try done. destruct (_ || _); [by apply Hsh|].
    destruct (set_running _ _); [|done]. by apply Hsh.
  - unfold change_intent. destruct (m_fin m), (m_controls m !! c) as [ctl|]; try done. destruct (_ || _); [by apply Hsh|].
    destruct (restart_if_epoch _ _); [|done]. by apply Hsh.
  - unfold shutdown_end. case_match; [|done]. by apply Hsh.
  - intros Hv. apply (Hsh m'); [|done].
    by destruct (vod_step_move _ _ _ _ Hv) as [(v & a & ->)|[(_ & _ & vid & v & a & ->)|(_ & v & a & ->)]].
Qed.

Lemma run_stopped grace key m0 evs m m' : manager_ok m → stopped key m0 m → (∀ iid k, EBegin iid key k ∉ evs) →
  run grace m evs = Some m' → stopped key m0 m'.
Proof.
  revert m. induction evs as [|ev evs IH]; intros m I H Hev; cbn [run]; [by intros [= <-]|].
  assert (Hevs : ∀ iid k, EBegin iid key k ∉ evs) by (intros iid k Hx; apply (Hev iid k); by right).
  destruct (step grace m ev) as [| |m1] eqn:E; [by apply IH|done|]. apply IH; [by eapply step_ok| |done].
  eapply step_stopped; [done|done| |done]. intros iid k ->. apply (Hev iid k). by left.
Qed.

(** The stop's last turn inside the mutex. *)
Lemma stop_ends grace m tid key entry now m1 : manager_ok m → m_fin m = Some (FinStop2 tid key entry) →
  fin_step grace m now = Next m1 → stopped key m1 m1.
Proof.
  intros I Hf Hstep. pose proof (mi_fin _ _ _ _ I _ Hf) as [Hc _]. unfold_fin_in Hstep. rewrite Hf in Hstep.
  injection Hstep as <-. destruct (retire_frame key m) as [E1 E2]. split; [cbn; apply retire_gone|].
  cbn. rewrite E1, E2. intros iid i Hi Hk.
  destruct (mi_inits _ _ _ _ I iid i Hi ltac:(done)) as [Hok Hg]. split_and!.
  - intros Ha. apply Hc. rewrite <- Hk. by apply Hg.
  - intros Ha. unfold pc_ok in Hok. destruct (i_pc i) as [| | | | |[]| | |]; try naive_solver congruence.
    rewrite Hf in Hok. by destruct Hok as (_ & _ & ?).
  - intros g Hp. by exists i.
Qed.

(** ** The properties *)

(** C4: The stream manager never fails an expectation: whatever starts, stops, support releases, reaps, shutdown, cancelled callers, provider answers and worker ends interleave, and however their steps are ordered (in fewer than 2^64 - 2 steps, the range of the generation counters), every step is defined. In particular an HLS start that found a running session, released the session map and waited for the finalization lock finds that session again, or has been cancelled, so it never lacks a source. *)
Theorem manager_never_panics (grace max : N) (evs : list Event) : (N.of_nat (length evs) + 2 < two64)%N →
  ∃ m, run grace (manager_new max) evs = Some m.
Proof.
  intros Hn. apply (run_counted grace evs 0); [apply new_ok| |lia]. by split; cbn.
Qed.

(** C5: One shared download per key: in every state the manager reaches, at most one session of a key is not cancelled, and whenever no task is inside the finalization lock every HLS packager in the map is running and was created for the session its key has now, which is not cancelled. *)
Theorem manager_one_session (grace max : N) (evs : list Event) (m : Manager) : run grace (manager_new max) evs = Some m →
  (∀ sid s sid' s', m_all m !! sid = Some s → m_all m !! sid' = Some s' → s_cancel s = false → s_cancel s' = false →
     s_key s = s_key s' → sid = sid') ∧
  (∀ key pid, m_fin m = None → m_packagers m !! key = Some pid → ∃ p s, m_pkgs m !! pid = Some p ∧ p_stopped p = false ∧
     m_sessions m !! key = Some (p_session p) ∧ m_all m !! p_session p = Some s ∧ s_key s = key ∧ s_cancel s = false).
Proof.
  intros Hrun. pose proof (run_ok grace evs _ m (new_ok max) Hrun) as I. split.
  - intros sid s sid' s' H1 H2 C1 C2 Hk.
    destruct (mi_live _ _ _ _ I sid s H1 C1 ltac:(done)) as [L1|[x L1]], (mi_live _ _ _ _ I sid' s' H2 C2 ltac:(done)) as [L2|[y L2]].
    + congruence.
    + destruct (mi_fin _ _ _ _ I _ L2) as (_ & i & s0 & _ & _ & G1 & G2 & _ & G3). congruence.
    + destruct (mi_fin _ _ _ _ I _ L1) as (_ & i & s0 & _ & _ & G1 & G2 & _ & G3). congruence.
    + congruence.
  - intros key pid Hf Hp. destruct (mi_pkg _ _ _ _ I key pid Hp) as (p & H1 & H2 & H3).
    destruct H3 as [[H3|[]]|(r & H3 & _)]; [|congruence].
    destruct (mi_map _ _ _ _ I key _ H3) as (s & G1 & G2 & G3). by exists p, s.
Qed.

(** C6: A stop holds: once the stop of a key has left the finalization lock, every start of the key that had begun before is fenced. Until a new start is asked for, the key has no session and, outside the lock, no packager, and no initializer of the key succeeds that had not already succeeded when the stop ended. *)
Theorem stop_holds (grace max : N) (evs evs' : list Event) (m m1 m2 : Manager) (tid now : N) (key : StreamKey) (entry : option N) :
  run grace (manager_new max) evs = Some m → m_fin m = Some (FinStop2 tid key entry) → step grace m (EFin now) = Next m1 →
  (∀ iid k, EBegin iid key k ∉ evs') → run grace m1 evs' = Some m2 →
  m_sessions m2 !! key = None ∧ (m_fin m2 = None → m_packagers m2 !! key = None) ∧
  ∀ iid i g, m_inits m2 !! iid = Some i → i_key i = key → i_pc i = PDone (Ok g) →
    ∃ i0, m_inits m1 !! iid = Some i0 ∧ i_pc i0 = PDone (Ok g).
Proof.
  intros Hrun Hf Hstep Hev Hrun'. pose proof (run_ok grace evs _ m (new_ok max) Hrun) as I.
  pose proof (step_ok _ _ _ _ I Hstep) as I1. pose proof (run_ok grace evs' _ m2 I1 Hrun') as I2.
  pose proof (stop_ends grace m tid key entry now m1 I Hf Hstep) as H1.
  destruct (run_stopped grace key m1 evs' m1 m2 I1 H1 Hev Hrun') as [Hs Hin]. split_and!; [done| |].
  - intros Hn. destruct (m_packagers m2 !! key) as [pid|] eqn:Hp; [|done].
    destruct (mi_pkg _ _ _ _ I2 key pid Hp) as (p & _ & _ & [[H3|[]]|(r & H3 & _)]); congruence.
  - intros iid i g Hi Hk. by apply (Hin iid i Hi Hk).
Qed.

(** C7: A viewer is never reaped: in every state the manager reaches, a step cancels a running session only as the stop of its key, as the shutdown, or, by the reaper or by the release of a support pin, when the session has no subscription and no support pin (or, for a release, has already ended) and no start of its key is pending. *)
Theorem viewers_kept (grace max : N) (evs : list Event) (m m' : Manager) (ev : Event) (sid : N) (s s' : Session) :
  run grace (manager_new max) evs = Some m → step grace m ev = Next m' →
  m_all m !! sid = Some s → s_cancel s = false → m_all m' !! sid = Some s' → s_cancel s' = true → may_cancel m s.
Proof.
  intros Hrun Hstep Hs Hc Hs' Hc'. pose proof (run_ok grace evs _ m (new_ok max) Hrun) as I.
  assert ((∃ now, ev = EFin now) ∨ ∀ now, ev ≠ EFin now) as [[now ->]|Hne] by (destruct ev; eauto).
  { by eapply (fin_step_cancels grace). }
  destruct (step_keeps_sessions grace m ev m' I Hstep Hne sid s Hs) as (x & Hx & Hy). congruence.
Qed.

(** A key with a viewer, then an HLS start, then its stop. *)
Definition demo_key : StreamKey := (bs "ace", bs "abc").
Definition viewer_start : list Event :=
  [EBegin 1 demo_key AcqSubscribe; EInit 1; EInit 1; EInit 1; EInit 1; EOpened 1 None; EInit 1; EFin 0; EDeliver 1].
Definition hls_start : list Event :=
  [EBegin 2 demo_key (AcqHls true); EInit 2; EInit 2; EInit 2; EInit 2; EFin 5; EFin 5; EDeliver 2].
Definition stop_events : list Event := [EBegin 3 demo_key AcqSupport; EInit 3; EStop 7 demo_key; EFin 9].

Lemma manager_never_panics_witness : ∃ m, run 30 (manager_new 4) (viewer_start ++ hls_start ++ stop_events) = Some m.
Proof. apply (manager_never_panics 30 4). reflexivity. Defined.

(** What the runs of the examples reach, by evaluation. *)
Lemma demo_packager : (λ m, (m_fin m, m_packagers m !! demo_key)) <$> run 30 (manager_new 4) (viewer_start ++ hls_start) =
  Some (None, Some 3%N).
Proof. vm_compute. reflexivity. Qed.

Lemma manager_one_session_witness : ∃ m, run 30 (manager_new 4) (viewer_start ++ hls_start) = Some m ∧
  ∃ pid, m_packagers m !! demo_key = Some pid ∧ is_Some (m_sessions m !! demo_key).
Proof.
  destruct (proj1 (fmap_Some _ _ _) demo_packager) as (m & E & Hp). injection Hp as Hf Hp. exists m. split; [exact E|].
  exists 3%N. split; [exact (eq_sym Hp)|].
  destruct (manager_one_session 30 4 _ m E) as [_ H].
  destruct (H demo_key 3%N (eq_sym Hf) (eq_sym Hp)) as (p & s & _ & _ & -> & _). eexists. reflexivity.
Defined.

(** The start that was on its way when the stop came ends as cancelled. *)
Definition after_stop : list Event := [EInit 3; EInit 3; EInit 1; EReap 100; EFin 0; EFin 0; EFin 0].

Definition stop_then (m : Manager) : option unit :=
  match m_fin m, step 30 m (EFin 9) with
  | Some (FinStop2 7 key (Some 3%N)), Next m1 => if bool_decide (key = demo_key) then (λ _, tt) <$> run 30 m1 after_stop else None
  | _, _ => None
  end.

Lemma demo_stop : (run 30 (manager_new 4) (viewer_start ++ hls_start ++ stop_events) ≫= stop_then) = Some tt.
Proof. vm_compute. reflexivity. Qed.

Lemma stop_holds_witness : ∃ m m1 m2,
  run 30 (manager_new 4) (viewer_start ++ hls_start ++ stop_events) = Some m ∧ step 30 m (EFin 9) = Next m1 ∧
  run 30 m1 after_stop = Some m2 ∧ m_sessions m2 !! demo_key = None.
Proof.
  destruct (proj1 (bind_Some _ _ _) demo_stop) as (m & E & H). unfold stop_then in H.
  destruct (m_fin m) as [[| | | |tid key entry| | | | | | | | |]|] eqn:Hf; try discriminate H.
  destruct (step 30 m (EFin 9)) as [| |m1] eqn:E1; [repeat case_match; discriminate H..|].
  destruct (bool_decide (key = demo_key)) eqn:Ek; [|repeat case_match; discriminate H].
  apply bool_decide_eq_true in Ek. subst key.
  destruct (run 30 m1 after_stop) as [m2|] eqn:E2; [|repeat case_match; discriminate H].
  exists m, m1, m2. split_and!; [exact E|exact E1|exact E2|].
  refine (proj1 (stop_holds 30 4 _ after_stop m m1 m2 tid 9 demo_key entry E Hf E1 _ E2)).
  intros iid k Hin. unfold after_stop in Hin.
  repeat (apply elem_of_cons in Hin as [Hin|Hin]; [discriminate Hin|]). exact (not_elem_of_nil _ Hin).
Defined.

(** The viewer leaves, the reaper retires the session. *)
Definition viewer_leaves : list Event := viewer_start ++ [EDropHandle 0 1; EReap 100; EFin 0].

Definition reap_then (m : Manager) : option (bool * bool) :=
  match m_all m !! 0%N, step 30 m (EFin 0) with
  | Some s, Next m' => (λ s', (s_cancel s, s_cancel s')) <$> m_all m' !! 0%N
  | _, _ => None
  end.

Lemma demo_reap : (run 30 (manager_new 4) viewer_leaves ≫= reap_then) = Some (false, true).
Proof. vm_compute. reflexivity. Qed.

Lemma viewers_kept_witness : ∃ m s, run 30 (manager_new 4) viewer_leaves = Some m ∧ m_all m !! 0%N = Some s ∧ may_cancel m s.
Proof.
  destruct (proj1 (bind_Some _ _ _) demo_reap) as (m & E & H). unfold reap_then in H.
  destruct (m_all m !! 0%N) as [s|] eqn:Es; [|discriminate H].
  destruct (step 30 m (EFin 0)) as [| |m'] eqn:E1; [discriminate H|discriminate H|].
  destruct (m_all m' !! 0%N) as [s'|] eqn:Es'; [|discriminate H]. injection H as Hc Hc'.
  exists m, s. split_and!; [exact E|exact Es|].
  exact (viewers_kept 30 4 _ m m' (EFin 0) 0 s s' E E1 Es Hc Es' Hc').
Defined.
