(* ===== verification/ManagerAdmission.v ===== *)
(** * Admission of provider resources

    The accounts of the stream manager's admission counter ([ace-engine/src/admission.rs] as
    [manager.rs] uses it): in every state the counter is the number of reservations that something
    holds, and it never passes the configured limit. *)

From S2P Require Import Prelude Resolve Lifecycle Manager.

(** ** Admission *)

Definition b2n (b : bool) : nat := if b then 1 else 0.

(** How many values of a map satisfy a predicate. *)
Definition count {A} (P : A → bool) (m : gmap N A) : nat := size (filter (λ kv, P kv.2 = true) m).

Lemma count_insert {A} (P : A → bool) (m : gmap N A) k x : m !! k = None → count P (<[k := x]> m) = b2n (P x) + count P m.
Proof.
  intros Hk. unfold count. destruct (P x) eqn:E.
  - rewrite map_filter_insert_True by done. rewrite map_size_insert_None; [done|]. apply map_lookup_filter_None. by left.
  - rewrite map_filter_insert_False by (cbn; congruence). by rewrite delete_id.
Qed.

Lemma count_delete {A} (P : A → bool) (m : gmap N A) k x : m !! k = Some x → b2n (P x) + count P (delete k m) = count P m.
Proof.
  intros Hk. rewrite <- (insert_delete_id m k x Hk) at 2. rewrite count_insert; [done|apply lookup_delete_eq].
Qed.

Lemma count_alter {A} (P : A → bool) (m : gmap N A) k f x : m !! k = Some x →
  b2n (P x) + count P (alter f k m) = b2n (P (f x)) + count P m.
Proof.
  intros Hk. assert (alter f k m = <[k := f x]> (delete k m)) as ->.
  { apply map_eq. intros j. rewrite insert_delete_eq. destruct (decide (k = j)) as [<-|Hne].
    - by rewrite lookup_alter_eq, lookup_insert_eq, Hk.
    - by rewrite lookup_alter_ne, lookup_insert_ne. }
  rewrite count_insert by apply lookup_delete_eq. pose proof (count_delete P m k x Hk). lia.
Qed.

Lemma count_alter_same {A} (P : A → bool) (m : gmap N A) k f : (∀ x, P (f x) = P x) → count P (alter f k m) = count P m.
Proof.
  intros Hf. destruct (m !! k) as [x|] eqn:Hk.
  - pose proof (count_alter P m k f x Hk) as H. rewrite Hf in H. lia.
  - by rewrite alter_id; [|congruence].
Qed.

(** Who holds a reservation: an initializer with an open or an opened source, a session whose source is not
    shut down, an HLS start inside the mutex, a source whose shutdown failed, a resolution of on-demand content
    that waits for the provider or for the mutex, and every on-demand content that exists. *)
Definition opening (i : Init) : bool :=
  match i_pc i with POpen | POpened true | PDispose => true | _ => false end.
Definition source_alive (s : Session) : bool := bool_decide (s_done s = Pending).
Definition resolving (t : VodTask) : bool := vod_reserved (v_pc t).
Definition fin_source (f : option FinOp) : nat := match f with Some (FinHls _ true) => 1 | _ => 0 end.

Definition reservations (m : Manager) : nat :=
  count opening (m_inits m) + count source_alive (m_all m) + fin_source (m_fin m) + m_failed_sources m +
  count resolving (v_tasks (m_vods m)) + size (v_contents (m_vods m)).

(** A content exists while the cache, a handle or a range holds it. *)
Definition holders (v : Vods) (cid : N) (n : nat) : Prop := n ≠ 0 ∨ cid ∈ cached_ids (v_cache v).

Record vods_linked (v : Vods) : Prop := {
  vl_fresh : ∀ cid, is_Some (v_contents v !! cid) → (cid < v_next v)%N;
  vl_cached : ∀ cid, cid ∈ cached_ids (v_cache v) → is_Some (v_contents v !! cid);
}.

Definition vods_held (v : Vods) : Prop := ∀ cid n, v_contents v !! cid = Some n → holders v cid n.

Section admission.
(** The configured limit. *)
Context (limit : option N).

Definition admission_ok (m : Manager) : Prop :=
  occupied (m_adm m) = N.of_nat (reservations m) ∧
  (adm_max (m_adm m) = limit ∧ match limit with Some max => (occupied (m_adm m) ≤ max)%N | None => True end).

Definition vods_ok (m : Manager) : Prop := vods_linked (m_vods m) ∧ vods_held (m_vods m).

Definition admitted (m : Manager) : Prop := admission_ok m ∧ vods_ok m.

(** The parts the count is about. *)
Definition same_held (m m' : Manager) : Prop :=
  count opening (m_inits m') = count opening (m_inits m) ∧ count source_alive (m_all m') = count source_alive (m_all m) ∧
  fin_source (m_fin m') = fin_source (m_fin m) ∧ m_failed_sources m' = m_failed_sources m ∧ m_adm m' = m_adm m ∧
  m_vods m' = m_vods m.

Lemma same_held_trans m1 m2 m3 : same_held m1 m2 → same_held m2 m3 → same_held m1 m3.
Proof. unfold same_held. intros (?&?&?&?&?&?) (?&?&?&?&?&?). split_and!; congruence. Qed.

Lemma held_admitted m m' : same_held m m' → admitted m → admitted m'.
Proof. unfold same_held, admitted, admission_ok, vods_ok, reservations. intros (-> & -> & -> & -> & -> & ->). done. Qed.

Lemma held_session sid f m : (∀ s, s_done (f s) = s_done s) → same_held m (update_session sid f m).
Proof.
  intros Hf. unfold same_held. cbn. split_and!; try done. apply count_alter_same. intros s. unfold source_alive. by rewrite Hf.
Qed.

Lemma held_acquire k sid m : same_held m (acquire k sid m).2.
Proof.
  destruct k; cbn [acquire snd]; try done;
    (eapply same_held_trans; [by apply (held_session sid (session_subscribe (m_next m)))|done] ||
     (eapply same_held_trans; [by apply (held_session sid (session_pin (m_next m)))|done])).
Qed.

(** A return gives up what the initializer counted for. *)
Lemma return_count iid i res m : m_inits m !! iid = Some i →
  let m' := init_return iid i res m in
  b2n (opening i) + count opening (m_inits m') = count opening (m_inits m) ∧ m_all m' = m_all m ∧ m_fin m' = m_fin m ∧
  m_failed_sources m' = m_failed_sources m ∧ m_adm m' = m_adm m ∧ m_vods m' = m_vods m.
Proof.
  intros Hi. cbv zeta. unfold init_return.
  assert (H : count opening (alter (λ i0, with_active false (with_pc (PDone res) i0)) iid (m_inits m)) + b2n (opening i) = count opening (m_inits m)).
  { pose proof (count_alter opening (m_inits m) iid (λ i0, with_active false (with_pc (PDone res) i0)) i Hi) as H. cbn in H. lia. }
  destruct (i_active i), (holds_lock _ iid (i_key i)); cbn; (split_and!; [lia|done..]).
Qed.

Lemma held_return iid i res m : m_inits m !! iid = Some i → opening i = false → same_held m (init_return iid i res m).
Proof.
  intros Hi Ho. destruct (return_count iid i res m Hi) as (H1 & H2 & H3 & H4 & H5 & H6). rewrite Ho in H1. cbn in H1.
  unfold same_held. rewrite H2, H3, H4, H5, H6. done.
Qed.

Lemma held_update iid f i m : m_inits m !! iid = Some i → opening (f i) = opening i → same_held m (update_init iid f m).
Proof.
  intros Hi Ho. unfold same_held. cbn. split_and!; try done. pose proof (count_alter opening (m_inits m) iid f i Hi) as H.
  rewrite Ho in H. lia.
Qed.

(** Giving a reservation back. *)
Lemma unreserve_ok m m' : admission_ok m → S (reservations m') = reservations m → m_adm m' = unreserve (m_adm m) →
  admission_ok m'.
Proof.
  intros [H1 H2] Hr E. unfold admission_ok. rewrite E. unfold unreserve. cbn. rewrite (proj2 (N.eqb_neq _ _)) by lia.
  split; [lia|]. destruct H2 as [-> H2]. split; [done|]. destruct limit; [lia|done].
Qed.

Lemma unreserve_admitted m m' : admitted m → S (reservations m') = reservations m → m_adm m' = unreserve (m_adm m) →
  m_vods m' = m_vods m → admitted m'.
Proof. intros [H V] Hr E Ev. split; [by eapply unreserve_ok|]. unfold vods_ok. by rewrite Ev. Qed.

(** Taking one. *)
Lemma reserve_ok m m' a : admission_ok m → reserve (m_adm m) = Some a → reservations m' = S (reservations m) →
  m_adm m' = a → admission_ok m'.
Proof.
  intros [A [Emx B]] Er Hr E. unfold admission_ok. rewrite Hr, E. unfold reserve in Er. rewrite Emx in Er. destruct limit as [mx|].
  - destruct (N.leb_spec mx (occupied (m_adm m))); [done|]. apply bind_Some in Er as (n & Hn & [= <-]).
    apply checked_add_Some in Hn as [-> _]. cbn. split_and!; [lia|done|lia].
  - apply bind_Some in Er as (n & Hn & [= <-]). apply checked_add_Some in Hn as [-> _]. cbn. split; [lia|done].
Qed.

(** ** On-demand content *)

Lemma elem_of_cached_ids cache cid : cid ∈ cached_ids cache ↔ ∃ key at_, cache !! key = Some (cid, at_).
Proof.
  unfold cached_ids. rewrite elem_of_list_to_set, list_elem_of_fmap. split.
  - intros ([c at_] & -> & ([key e] & E & H%elem_of_map_to_list)%list_elem_of_fmap). cbn in E. subst e. by exists key, at_.
  - intros (key & at_ & H). exists (cid, at_). split; [done|]. apply list_elem_of_fmap. exists (key, (cid, at_)).
    split; [done|]. by apply elem_of_map_to_list.
Qed.

Lemma iter_unreserve n a : (N.of_nat n ≤ occupied a)%N →
  Nat.iter n unreserve a = mkAdmission (occupied a - N.of_nat n) (adm_max a).
Proof.
  induction n as [|n IH]; intros Hn; [cbn; rewrite N.sub_0_r; by destruct a|]. change (Nat.iter (S n) unreserve a) with (unreserve (Nat.iter n unreserve a)). rewrite IH by lia.
  unfold unreserve. cbn [occupied adm_max]. rewrite (proj2 (N.eqb_neq _ _)) by lia. f_equal. lia.
Qed.

(** Destroying what nothing holds gives back as many reservations as contents go. *)
Lemma drop_unheld_admitted m : admission_ok m → vods_linked (m_vods m) → admitted (drop_unheld m).
Proof.
  intros [A [Emx B]] [Hf Hc]. set (v := m_vods m) in *. unfold admitted, admission_ok, reservations, vods_ok, drop_unheld. fold v. cbn.
  set (kept := filter _ (v_contents v)).
  assert (Hk : kept ⊆ v_contents v) by apply map_filter_subseteq. pose proof (map_subseteq_size _ _ Hk) as Hsz.
  unfold reservations in A. fold v in A. rewrite iter_unreserve by lia. cbn. split; [|split; [split|]].
  - split; [lia|]. split; [done|]. destruct limit; [lia|done].
  - intros cid [n Hn]. cbn in *. apply Hf. exists n. by eapply lookup_weaken.
  - intros cid Hin. cbn in *. destruct (Hc cid Hin) as [n Hn]. exists n. apply map_lookup_filter_Some. split; [done|by right].
  - intros cid n Hn. cbn in Hn. apply map_lookup_filter_Some in Hn as [_ Hh]. exact Hh.
Qed.

Lemma set_cache_admitted c m : admission_ok m → vods_linked (m_vods m) →
  (∀ cid, cid ∈ cached_ids c → is_Some (v_contents (m_vods m) !! cid)) → admitted (set_cache c m).
Proof. intros A [Hf _] Hc. by apply drop_unheld_admitted. Qed.

Lemma fresh_cached grace now cache cid : cid ∈ cached_ids (fresh_entries grace now cache) → cid ∈ cached_ids cache.
Proof.
  rewrite !elem_of_cached_ids. intros (key & at_ & [H _]%map_lookup_filter_Some). by eexists _, _.
Qed.

Lemma same_domain (c : gmap N nat) cid n n' : c !! cid = Some n → ∀ k, is_Some (<[cid := n']> c !! k) ↔ is_Some (c !! k).
Proof. intros Hc k. destruct (decide (cid = k)) as [<-|]; [rewrite lookup_insert_eq, Hc|rewrite lookup_insert_ne by done]; done. Qed.

(** Contents with other numbers of holders. *)
Lemma contents_admitted c m : (∀ cid, is_Some (c !! cid) ↔ is_Some (v_contents (m_vods m) !! cid)) →
  admission_ok m → vods_linked (m_vods m) → admission_ok (set_contents c m) ∧ vods_linked (m_vods (set_contents c m)).
Proof.
  intros Hd A [Hf Hc]. assert (size c = size (v_contents (m_vods m))) as E.
  { rewrite <- !size_dom. f_equal. apply set_eq. intros cid. by rewrite !elem_of_dom. }
  split.
  - unfold admission_ok, reservations in *. cbn. by rewrite E.
  - split; cbn; intros cid H; [by apply Hf, Hd|by apply Hd, Hc].
Qed.

Lemma cached_admitted grace now key m : admitted m →
  admitted (cached_vod grace now key m).2 ∧ v_tasks (m_vods (cached_vod grace now key m).2) = v_tasks (m_vods m).
Proof.
  intros [A [L _]]. unfold cached_vod. destruct (fresh_entries _ _ _ !! key) as [[cid at_]|] eqn:Hk; (split; [|done]).
  - cbn [snd]. assert (cid ∈ cached_ids (v_cache (m_vods m))) as Hin.
    { eapply fresh_cached, elem_of_cached_ids. by eexists _, _. }
    destruct (contents_admitted (alter S cid (v_contents (m_vods m))) m) as [A' L']; [|done|done|].
    { intros c. rewrite lookup_alter. case_decide; [by subst; rewrite fmap_is_Some|done]. }
    apply set_cache_admitted; [done|done|]. intros c (key' & at' & [[<- [= <- <-]]|[_ H]]%lookup_insert_Some)%elem_of_cached_ids;
      apply (vl_cached _ L'); [done|]. eapply fresh_cached, elem_of_cached_ids. by eexists _, _.
  - apply set_cache_admitted; [done|done|]. intros c Hc%fresh_cached. by apply (vl_cached _ L).
Qed.

(** What a call changes when it moves or returns: the count of the calls that hold a reservation. *)
Definition vod_side (m m' : Manager) : Prop :=
  m_inits m' = m_inits m ∧ m_all m' = m_all m ∧ fin_source (m_fin m') = fin_source (m_fin m) ∧
  m_failed_sources m' = m_failed_sources m ∧ v_cache (m_vods m') = v_cache (m_vods m) ∧
  v_contents (m_vods m') = v_contents (m_vods m) ∧ v_next (m_vods m') = v_next (m_vods m).

Lemma side_vods m m' : vod_side m m' → vods_ok m → vods_ok m'.
Proof.
  intros (_ & _ & _ & _ & E1 & E2 & E3) [[H1 H2] H3]. unfold vods_ok, vods_held, holders in *.
  split; [constructor|]; rewrite ?E1, ?E2, ?E3; done.
Qed.

Lemma side_reservations m m' : vod_side m m' →
  reservations m' + count resolving (v_tasks (m_vods m)) = reservations m + count resolving (v_tasks (m_vods m')).
Proof. unfold vod_side, reservations. intros (-> & -> & -> & -> & _ & -> & _). lia. Qed.

Lemma side_admitted m m' : vod_side m m' → m_adm m' = m_adm m →
  count resolving (v_tasks (m_vods m')) = count resolving (v_tasks (m_vods m)) → admitted m → admitted m'.
Proof.
  intros Hs Ea Ec [[A B] V]. split; [|by eapply side_vods]. pose proof (side_reservations _ _ Hs). unfold admission_ok. rewrite Ea.
  split; [lia|done].
Qed.

Lemma side_released m m' : vod_side m m' → m_adm m' = unreserve (m_adm m) →
  S (count resolving (v_tasks (m_vods m'))) = count resolving (v_tasks (m_vods m)) → admitted m → admitted m'.
Proof.
  intros Hs Ea Ec [A V]. split; [|by eapply side_vods]. pose proof (side_reservations _ _ Hs).
  eapply unreserve_ok; [exact A|lia|done].
Qed.

Lemma goto_count m vid key pc t : v_tasks (m_vods m) !! vid = Some t →
  b2n (resolving t) + count resolving (v_tasks (m_vods (vod_goto vid key pc m))) =
  b2n (vod_reserved pc) + count resolving (v_tasks (m_vods m)).
Proof.
  intros Hv. cbn. rewrite <- insert_delete_eq, count_insert by apply lookup_delete_eq.
  change (resolving (mkVodTask key pc)) with (vod_reserved pc). pose proof (count_delete resolving _ _ _ Hv). lia.
Qed.

Lemma return_tasks m vid key t : v_tasks (m_vods m) !! vid = Some t →
  b2n (resolving t) + count resolving (v_tasks (m_vods (vod_return vid key m))) = count resolving (v_tasks (m_vods m)).
Proof. intros Hv. by apply count_delete. Qed.

Lemma goto_admitted m vid key pc t : v_tasks (m_vods m) !! vid = Some t → vod_reserved pc = resolving t →
  admitted m → admitted (vod_goto vid key pc m).
Proof. intros Hv E. apply side_admitted; [done|done|]. pose proof (goto_count m vid key pc t Hv). rewrite E in *. lia. Qed.

Lemma vod_return_admitted m vid key t : v_tasks (m_vods m) !! vid = Some t → resolving t = false →
  admitted m → admitted (vod_return vid key m).
Proof. intros Hv E. apply side_admitted; [done|done|]. pose proof (return_tasks m vid key t Hv) as H. rewrite E in H. exact H. Qed.

Lemma vod_release_admitted m vid key t : v_tasks (m_vods m) !! vid = Some t → resolving t = true →
  admitted m → admitted (vod_return vid key (set_adm (unreserve (m_adm m)) m)).
Proof. intros Hv E. apply side_released; [done|done|]. pose proof (return_tasks m vid key t Hv) as H. rewrite E in H. exact H. Qed.

Lemma vod_turn_admitted grace m vid now m' : admitted m → vod_turn grace m vid now = Next m' → admitted m'.
Proof.
  intros Ha. unfold vod_turn. destruct (v_tasks _ !! vid) as [[key pc]|] eqn:Hv; [|done].
  assert (Hret : ∀ m1, v_tasks (m_vods m1) = v_tasks (m_vods m) → admitted m1 → vod_reserved pc = false → admitted (vod_return vid key m1)).
  { intros m1 E A Hp. eapply vod_return_admitted; [by rewrite E|done|done]. }
  assert (Hgo : ∀ m1 pc', v_tasks (m_vods m1) = v_tasks (m_vods m) → admitted m1 → vod_reserved pc' = vod_reserved pc →
    admitted (vod_goto vid key pc' m1)).
  { intros m1 pc' E A Hp. eapply goto_admitted; [by rewrite E|done|done]. }
  pose proof (cached_admitted grace now key m Ha) as [Hc Ht].
  destruct pc; try done.
  - destruct (m_shut m); intros [= <-]; [by apply Hret|by apply Hgo].
  - destruct (cached_vod grace now key m) as [[] m1]; cbn [snd] in *; intros [= <-]; [by apply Hret|by apply Hgo].
  - destruct (v_locks _ !! key); [done|]. cbn zeta. assert (admitted (vod_lock vid key m)) by (by apply (side_admitted m)).
    destruct (m_shut _); intros [= <-]; [by apply Hret|by apply Hgo].
  - destruct (cached_vod grace now key m) as [[] m1]; cbn [snd] in *; [intros [= <-]; by apply Hret|].
    destruct (reserve (m_adm m1)) as [a|] eqn:Er; intros [= <-]; [|by apply Hret].
    destruct Hc as [A V]. split; [|by apply (side_vods m1)]. eapply (reserve_ok m1 _ a); [done|done| |done].
    rewrite <- Ht in Hv. pose proof (goto_count m1 vid key VOpen _ Hv) as Hcnt. cbn in Hcnt.
    pose proof (side_reservations m1 (vod_goto vid key VOpen (set_adm a m1)) ltac:(done)) as Hr. cbn in Hr. cbn. lia.
  - destruct (m_fin m) eqn:Hn; [done|]. destruct (m_shut m); intros [= <-]; [by eapply vod_release_admitted|].
    eapply side_admitted; [| | |exact Ha]; [split_and!; try done; cbn; by rewrite Hn|done|].
    pose proof (goto_count m vid key VFinal _ Hv) as H. cbn in H. cbn. lia.
Qed.

Lemma fin_vod_admitted m vid now m' f : m_fin m = Some f → fin_source (Some f) = 0 → admitted m → fin_vod m vid now = Next m' → admitted m'.
Proof.
  intros Hf Hf0 [[A B] [[V1 V2] V3]]. unfold fin_vod. destruct (v_tasks _ !! vid) as [[key []]|] eqn:Hv; try done. intros [= <-].
  set (v := m_vods m) in *. set (m1 := set_vods _ m). set (m2 := vod_return vid key m1).
  assert (Hnone : v_contents v !! v_next v = None).
  { apply eq_None_not_Some. intros H%V1. lia. }
  assert (Ac : admission_ok m2).
  { pose proof (return_tasks m1 vid key _ Hv) as Hr. unfold admission_ok, reservations in *. cbn in *. fold v in A, Hr |- *.
    rewrite map_size_insert_None by done. split; [lia|done]. }
  assert (L2 : vods_linked (m_vods m2)).
  { split; cbn; fold v.
    - intros cid. rewrite lookup_insert_is_Some. intros [<-|[_ H%V1]]; lia.
    - intros cid H%V2. apply lookup_insert_is_Some'. by right. }
  assert (admitted (set_cache (<[key := (v_next v, now)]> (v_cache v)) m2)) as H.
  { apply set_cache_admitted; [done|done|]. cbn. fold v.
    intros cid (key' & at' & [[<- [= <- <-]]|[_ H]]%lookup_insert_Some)%elem_of_cached_ids; apply lookup_insert_is_Some'; [by left|].
    right. apply V2, elem_of_cached_ids. by eexists _, _. }
  eapply side_admitted; [| | |exact H]; [|done|done]. split_and!; try done. cbn. by rewrite Hf.
Qed.

Lemma vod_step_admitted grace m ev m' : admitted m → vod_step grace m ev = Next m' → admitted m'.
Proof.
  intros Ha. destruct ev as [vid key|vid now|vid ok|vid|cid|cid|now]; cbn [vod_step].
  - destruct (v_tasks _ !! vid) eqn:Hv; [done|]. intros [= <-]. apply (side_admitted m); [done|done| |exact Ha].
    cbn. by rewrite count_insert.
  - by apply vod_turn_admitted.
  - unfold vod_resolved. destruct (v_tasks _ !! vid) as [[key []]|] eqn:Hv; try done. destruct ok; intros [= <-];
      [by eapply goto_admitted|by eapply vod_release_admitted].
  - unfold vod_gone. destruct (v_tasks _ !! vid) as [[key pc]|] eqn:Hv; [|done]. cbn zeta. set (m1 := vod_return _ _ _).
    assert (H1 : admitted m1).
    { unfold m1. destruct (vod_reserved pc) eqn:Hp; [by eapply vod_release_admitted|by eapply vod_return_admitted]. }
    assert (H2 : fin_source (m_fin m1) = 0 → admitted (set_fin None m1)).
    { intros H0. eapply side_admitted; [| | |exact H1]; [|done|done]. split_and!; try done; by rewrite H0. }
    destruct (m_fin m1) as [[]|]; try (by intros [= <-]). destruct (_ =? vid)%N; intros [= <-]; [by apply H2|done].
  - destruct (v_contents _ !! cid) as [[|n]|] eqn:Hc; try done. intros [= <-]. destruct Ha as [A [L H]].
    destruct (contents_admitted (<[cid := S (S n)]> (v_contents (m_vods m))) m) as [A' L']; [by eapply same_domain|done|done|].
    split; [done|split; [done|]]. intros c k. cbn. intros [[<- <-]|[_ Hk]]%lookup_insert_Some; [by left|by apply H].
  - destruct (v_contents _ !! cid) as [[|n]|] eqn:Hc; try done. intros [= <-]. destruct Ha as [A [L H]].
    destruct (contents_admitted (<[cid := n]> (v_contents (m_vods m))) m) as [A' L']; [by eapply same_domain|done|done|].
    by apply drop_unheld_admitted.
  - intros [= <-]. destruct Ha as [A [L H]]. apply set_cache_admitted; [done|done|]. intros c Hc%fresh_cached. by apply (vl_cached _ L).
Qed.

(** ** The steps *)

Lemma take_running_held iid i sid m : m_inits m !! iid = Some i → opening i = false → same_held m (take_running iid i sid m).
Proof.
  intros Hi Ho. unfold take_running. destruct (_ || _); [by apply held_return|].
  pose proof (held_acquire (i_kind i) sid m) as H. destruct (acquire_frame (i_kind i) sid m) as (_ & E & _).
  destruct (acquire (i_kind i) sid m) as [g m']. cbn [snd] in *. eapply same_held_trans; [exact H|].
  apply held_return; [by rewrite E|done].
Qed.

Lemma fresh_session m : manager_ok m → m_all m !! m_next m = None.
Proof.
  intros I. destruct (m_all m !! m_next m) eqn:E; [|done].
  pose proof (mi_fresh _ _ _ _ I _ (or_introl (mk_is_Some _ _ E))). lia.
Qed.

(** Finalization passes the reservation on: to the disposal, to the new session or into the mutex. *)
Lemma finalize_admitted m iid i src : manager_ok m → m_inits m !! iid = Some i → i_pc i = POpened src → m_fin m = None →
  admitted m → admitted (finalize iid i src m).
Proof.
  intros I Hi Hp Hn Ha. unfold finalize.
  assert (Ho : opening i = src) by (unfold opening; rewrite Hp; by destruct src).
  destruct (_ || _).
  { destruct src; [by eapply held_admitted; [eapply held_update|]|by eapply held_admitted; [by apply held_return|]]. }
  destruct (lifecycle_finish _ _ _) as [c l]. set (m1 := update_init iid (with_active false) (set_lifecycle l m)).
  assert (H1 : same_held m m1) by (by apply (held_update iid (with_active false) i (set_lifecycle l m))).
  assert (Hi1 : m_inits m1 !! iid = Some (with_active false i)).
  { unfold m1. rewrite lookup_update_init, decide_True by done. cbn. by rewrite Hi. }
  assert (Hfr : m_all m1 !! m_next m1 = None) by (by apply (fresh_session m)).
  assert (Ha1 : admitted m1) by (by eapply held_admitted). clearbody m1.
  destruct (c || m_shut m1).
  { destruct src; [|by eapply held_admitted; [by apply held_return|]]. eapply held_admitted; [|exact Ha1]. by eapply held_update. }
  pose proof (count_alter opening (m_inits m1) iid (with_pc PFinal) _ Hi1) as Hc. cbn in Hc.
  change (opening (with_active false i)) with (opening i) in Hc. rewrite Ho in Hc.
  assert (Hf1 : fin_source (m_fin m1) = 0) by (destruct H1 as (_ & _ & -> & _); by rewrite Hn).
  destruct Ha1 as [Ha1 Hv1]. split; [|by destruct (is_hls _)]. clear Hv1.
  unfold admission_ok, reservations in Ha1 |- *. change (i_kind (with_active false i)) with (i_kind i). destruct (is_hls (i_kind i)) eqn:Eh; cbn.
  - destruct Ha1 as [A B]. split; [|done]. rewrite A. destruct src; cbn in *; lia.
  - destruct (mi_inits _ _ _ _ I iid i Hi ltac:(done)) as [Hok _]. unfold pc_ok in Hok. rewrite Hp in Hok.
    assert (src = true) as -> by (destruct src; [done|]; destruct Hok as (_ & _ & ? & _); congruence).
    destruct Ha1 as [A B]. split; [|done]. rewrite A.
    rewrite (count_insert _ _ _ _ Hfr). change (b2n (source_alive _)) with 1. cbn in Hc. lia.
Qed.

Lemma init_step_admitted m iid m' : manager_ok m → admitted m → init_step m iid = Next m' → admitted m'.
Proof.
  intros I Ha. unfold init_step. destruct (m_inits m !! iid) as [i|] eqn:Hi; [|done].
  assert (Hret : ∀ m1 res, opening i = false → same_held m m1 → m_inits m1 = m_inits m → admitted (init_return iid i res m1)).
  { intros m1 res Ho Hm E. eapply held_admitted; [|exact Ha]. eapply same_held_trans; [exact Hm|]. apply held_return; [by rewrite E|done]. }
  assert (Hupd : ∀ m1 pc, opening (with_pc pc i) = opening i → same_held m m1 → m_inits m1 = m_inits m → admitted (update_init iid (with_pc pc) m1)).
  { intros m1 pc Ho Hm E. eapply held_admitted; [|exact Ha]. eapply same_held_trans; [exact Hm|]. eapply held_update; [by rewrite E|done]. }
  assert (Hpc : opening i = match i_pc i with POpen | POpened true | PDispose => true | _ => false end) by done.
  destruct (i_pc i) as [| | | | |src| | |] eqn:Hp; try done.
  - destruct (fenced m i); intros [= <-]; [by apply Hret|]. apply Hupd; try done. rewrite Hpc. by destruct (is_hls _).
  - destruct (m_sessions m !! i_key i) as [sid|]; intros [= <-]; [|by apply Hupd].
    eapply held_admitted; [by apply take_running_held|done].
  - destruct (i_cancel i); [intros [= <-]; by apply Hret|]. destruct (m_locks m !! i_key i); [done|].
    cbv zeta. destruct (fenced _ i); intros [= <-]; [by apply Hret|by apply Hupd].
  - destruct (m_sessions m !! i_key i) as [sid|].
    + destruct (is_hls _); intros [= <-]; [by apply Hupd|]. eapply held_admitted; [by apply take_running_held|done].
    + intros [= <-]. unfold open_source. destruct (reserve (m_adm m)) as [a|] eqn:Er; [|by apply Hret].
      destruct Ha as [A V]. split; [|done]. eapply (reserve_ok m _ a); [done|done| |done]. unfold reservations. cbn.
      pose proof (count_alter opening (m_inits m) iid (with_pc POpen) i Hi) as Hc. rewrite Hpc in Hc. cbn in Hc. lia.
  - destruct (m_fin m) eqn:Hn; [done|]. intros [= <-]. by apply finalize_admitted.
Qed.

(** Retiring does not touch the accounts. *)
Lemma held_retire key m : same_held m (retire_session key m) ∧ same_held m (retire_packager key m).
Proof.
  split.
  - unfold retire_session. destruct (m_sessions m !! key) as [sid|]; [|done].
    eapply (same_held_trans _ (record_stop key (OfSession sid) (set_sessions (delete key (m_sessions m)) m))).
    + unfold record_stop. by case_bool_decide.
    + by apply held_session.
  - unfold retire_packager, record_stop. destruct (m_packagers m !! key); [|done]. by case_bool_decide.
Qed.

Lemma held_foldr {A} (f : A → Manager → Manager) l m : (∀ x m, same_held m (f x m)) → same_held m (foldr f m l).
Proof. intros H. induction l as [|x l IH]; cbn [foldr]; [done|]. eapply same_held_trans; [exact IH|apply H]. Qed.

Lemma held_fin f m : fin_source f = fin_source (m_fin m) → same_held m (set_fin f m).
Proof. done. Qed.

Lemma held_subscribe sid h m : same_held m (bump_next (update_session sid (session_subscribe h) m)).
Proof. eapply same_held_trans; [by apply (held_session sid (session_subscribe h))|done]. Qed.

Lemma fin_step_admitted grace m now m' : manager_ok m → admitted m → fin_step grace m now = Next m' → admitted m'.
Proof.
  intros I Ha. unfold_fin. destruct (m_fin m) as [f|] eqn:Hf; [|done].
  assert (Hsame : ∀ m1 f', fin_source f' = fin_source (Some f) → same_held m m1 → Next (set_fin f' m1) = Next m' → admitted m').
  { intros m1 f' E H [= <-]. eapply held_admitted; [|exact Ha]. eapply same_held_trans; [exact H|]. apply held_fin. rewrite E.
    destruct H as (_ & _ & -> & _). by rewrite Hf. }
  assert (Hpf : ∀ iid i, fin_owner (Some f) = Some iid → m_inits m !! iid = Some i → opening i = false).
  { intros iid i Ho Hi. destruct (fin_owner_ok m iid f I Hf Ho) as (i' & Hi' & Hp & _). assert (i' = i) as -> by congruence.
    unfold opening. by rewrite Hp. }
  destruct f as [iid n|iid src|iid n h|tid k|tid k entry|at_ pend|pend active|ret|tid k n at_ pend|tid k n pend active| | | |vid];
    try (by apply Hsame).
  - destruct (m_inits m !! iid) as [i|] eqn:Hi; [|done]. destruct (fin_publish_ok m iid n i I Hf Hi) as [-> _].
    set (m1 := set_sessions _ m). pose proof (held_acquire (i_kind i) n m1) as H. destruct (acquire_frame (i_kind i) n m1) as (_ & E & _).
    destruct (acquire (i_kind i) n m1) as [g m2]. cbn [snd] in *. apply Hsame; [done|]. eapply same_held_trans; [exact H|].
    apply held_return; [by rewrite E|by apply (Hpf iid)].
  - destruct (m_inits m !! iid) as [i|] eqn:Hi; [|done].
    pose proof (mi_fin _ _ _ _ I _ Hf) as (_ & i' & Hi' & _ & Hsrc). assert (i' = i) as -> by congruence.
    destruct (m_sessions m !! i_key i) as [sid|] eqn:Hk; destruct src; try done; [apply Hsame; [done|apply held_subscribe]|].
    intros [= <-]. set (m1 := set_sessions _ _). destruct (held_subscribe (m_next m) (m_next m1) m1) as (S1 & S2 & _ & S4 & S5 & S6).
    apply (held_admitted (set_fin None m1)).
    + split_and!; [exact S1|exact S2|done|exact S4|exact S5|exact S6].
    + destruct Ha as [[A B] V]. split; [|done]. unfold admission_ok, reservations in *. cbn.
      rewrite (count_insert _ _ _ _ (fresh_session m I)).
      change (b2n (source_alive _)) with 1. rewrite Hf in A. cbn in A. split; [lia|done].
  - destruct (m_inits m !! iid) as [i|] eqn:Hi; [|done]. destruct (publish_packager _ _ _) as [pid m1] eqn:E.
    assert (E1 : same_held m m1 ∧ m_inits m1 = m_inits m).
    { revert E. unfold publish_packager. destruct (m_packagers m !! i_key i); by intros [= <- <-]. }
    destruct E1 as [E1 E2]. apply Hsame; [done|].
    assert (Hx : ∀ m2, same_held m1 m2 → m_inits m2 = m_inits m1 → same_held m (init_return iid i (Ok (GHls pid n h)) m2)).
    { intros m2 A B. eapply same_held_trans; [exact E1|]. eapply same_held_trans; [exact A|].
      apply held_return; [congruence|by apply (Hpf iid)]. }
    apply Hx; by destruct (i_kind i) as [| | | |[]].
  - apply Hsame; [done|]. apply held_retire.
  - apply Hsame; [done|]. exact (proj1 (held_retire k m)).
  - apply Hsame; [done|]. apply (held_foldr retire_session). intros; apply held_retire.
  - apply Hsame; [done|]. apply (held_foldr retire_packager). intros; apply held_retire.
  - unfold release_final. destruct (_ || _); [by apply (Hsame m None)|]. apply Hsame; [done|].
    eapply same_held_trans; [exact (proj1 (held_retire k m))|]. exact (proj2 (held_retire k (retire_session k m))).
  - apply Hsame; [done|]. eapply same_held_trans; [apply (held_foldr packager_stop); done|done].
  - apply Hsame; [done|]. eapply same_held_trans; [apply (held_foldr (λ sid, update_session sid session_cancel)); intros; by apply held_session|done].
  - intros [= <-]. apply (side_admitted (set_cache ∅ m)); [split_and!; try done; cbn; by rewrite Hf|done|done|].
    destruct Ha as [A [L _]]. by apply set_cache_admitted.
  - intros Hv. by eapply fin_vod_admitted.
Qed.

Lemma held_disable key m m' : disable_support_controls key m = Some m' → same_held m m'.
Proof. unfold disable_support_controls. intros H. by apply bind_Some in H as (cs & _ & [= <-]). Qed.

Lemma step_admitted grace m ev m' : manager_ok m → admitted m → step grace m ev = Next m' → admitted m'.
Proof.
  intros I Ha. assert (Hsame : ∀ m1, same_held m m1 → Next m1 = Next m' → admitted m') by (intros m1 H [= <-]; by eapply held_admitted).
  destruct ev; cbn [step]; try (by apply Hsame).
  - unfold begin_start. destruct (m_fin m), (m_inits m !! iid) eqn:Hi; try done. destruct (m_shut m); [by apply Hsame|].
    destruct (transition_begin (m_lifecycle m) key) as [[g l]|]; [|done]. apply Hsame.
    unfold same_held. cbn. split_and!; try done. by rewrite count_insert.
  - by apply init_step_admitted.
  - unfold opened. destruct (m_inits m !! iid) as [i|] eqn:Hi; [|done]. destruct (i_pc i) eqn:Hp; try done.
    assert (Ho : opening i = true) by (unfold opening; by rewrite Hp). destruct answer as [k|]; intros [= <-].
    + destruct (return_count iid i (Err k) (set_adm (unreserve (m_adm m)) m) Hi) as (H1 & H2 & H3 & H4 & H5 & H6).
      eapply unreserve_admitted; [exact Ha| |exact H5|exact H6]. unfold reservations. rewrite H2, H3, H4, H6. rewrite Ho in H1. cbn in *. lia.
    + apply (Hsame (update_init iid (with_pc (POpened true)) m)); [|done]. by eapply held_update.
  - unfold disposed. destruct (m_inits m !! iid) as [i|] eqn:Hi; [|done]. destruct (i_pc i) eqn:Hp; try done.
    assert (Ho : opening i = true) by (unfold opening; by rewrite Hp). destruct confirmed; intros [= <-].
    + destruct (return_count iid i (Err Cancelled) (set_adm (unreserve (m_adm m)) m) Hi) as (H1 & H2 & H3 & H4 & H5 & H6).
      eapply unreserve_admitted; [exact Ha| |exact H5|exact H6]. unfold reservations. rewrite H2, H3, H4, H6. rewrite Ho in H1. cbn in *. lia.
    + destruct (return_count iid i (Err CleanupUnconfirmed) (keep_failed_source (note_failed m)) Hi) as (H1 & H2 & H3 & H4 & H5 & H6).
      destruct Ha as [[A B] V]. split; [|unfold vods_ok; by rewrite H6]. unfold admission_ok, reservations in *. rewrite H2, H3, H4, H5, H6. rewrite Ho in H1. cbn in *. split; [lia|done].
  - apply Hsame. unfold same_held. cbn. split_and!; try done. by apply count_alter_same.
  - unfold deliver_result. destruct (m_inits m !! iid) as [i|] eqn:Hi; [|done]. destruct (i_pc i) as [| | | | | | | |res] eqn:Hp; try done.
    assert (H1 : same_held m (set_inits (delete iid (m_inits m)) m)).
    { unfold same_held. cbn. split_and!; try done. pose proof (count_delete opening (m_inits m) iid i Hi) as H.
      unfold opening at 1 in H. rewrite Hp in H. cbn in H. lia. }
    destruct res as [g|]; [|by apply Hsame]. destruct (grant_handle g) as [[sid h]|]; [|by apply Hsame].
    destruct (i_cancel i); [|by apply Hsame]. apply Hsame. eapply same_held_trans; [exact H1|]. by apply held_session.
  - by apply fin_step_admitted.
  - unfold stop_start. destruct (m_fin m) eqn:Hn, (m_waits m !! tid); try done.
    destruct (disable_support_controls (Some key) m) as [m1|] eqn:Hd; [|done]. apply Hsame.
    destruct (held_disable _ _ _ Hd) as (A & B & C & D & E & F). split_and!; try done. by rewrite Hn.
  - unfold reap_start. destruct (m_fin m) eqn:Hn; [done|]. apply Hsame. split_and!; try done. by rewrite Hn.
  - unfold release_start. destruct (m_fin m) eqn:Hn, (m_waits m !! tid), (m_all m !! sid) as [s|]; try done.
    case_bool_decide; [|done]. destruct (held_session sid (session_drop h) m ltac:(done)) as (A & B & C & D & E & F).
    destruct (s_cancel s); apply Hsame; split_and!; try done. by rewrite Hn.
  - unfold shutdown_start. destruct (m_fin m) eqn:Hn; [done|].
    destruct (disable_support_controls None (set_shut m)) as [m1|] eqn:Hd; [|done]. apply Hsame.
    destruct (held_disable _ _ _ Hd) as (A & B & C & D & E & F). split_and!; try done. by rewrite Hn.
  - unfold wait_end. repeat case_match; try done. by apply Hsame.
  - unfold session_done. destruct (m_all m !! sid) as [s|] eqn:Hs; [|done]. case_bool_decide as Hp; [|done].
    assert (Hc : ∀ d, d ≠ Pending → S (count source_alive (alter (session_finish d) sid (m_all m))) = count source_alive (m_all m)).
    { intros d Hd. pose proof (count_alter source_alive (m_all m) sid (session_finish d) s Hs) as H. unfold source_alive at 1 3 in H.
      rewrite (bool_decide_eq_true_2 _ Hp) in H. cbn [session_finish s_done] in H. rewrite (bool_decide_eq_false_2 _ Hd) in H. cbn in H. lia. }
    destruct confirmed; intros [= <-].
    + specialize (Hc Confirmed ltac:(done)). eapply unreserve_admitted; [exact Ha| |done|done]. unfold reservations. cbn. lia.
    + specialize (Hc Failed ltac:(done)). destruct Ha as [[A B] V]. split; [|done]. unfold admission_ok, reservations in *. cbn. split; [lia|done].
  - unfold packager_done. repeat case_match; try done; by apply Hsame.
  - unfold drop_handle. repeat case_match; try done. apply Hsame. by apply held_session.
  - unfold register_support. repeat case_match; try done; by apply Hsame.
  - unfold change_intent. destruct (m_fin m), (m_controls m !! c) as [ctl|]; try done. destruct (_ || _); [by apply Hsame|].
    destruct (set_running _ _); [|done]. by apply Hsame.
  - unfold change_intent. destruct (m_fin m), (m_controls m !! c) as [ctl|]; try done. destruct (_ || _); [by apply Hsame|].
    destruct (restart_if_epoch _ _); [|done]. by apply Hsame.
  - unfold shutdown_end. case_match; [|done]. by apply Hsame.
  - by apply vod_step_admitted.
Qed.

Lemma run_admitted grace evs m m' : manager_ok m → admitted m → run grace m evs = Some m' → admitted m'.
Proof.
  revert m. induction evs as [|ev evs IH]; cbn [run]; intros m I A; [by intros [= <-]|].
  destruct (step grace m ev) as [| |m1] eqn:E; [by apply IH|done|]. apply IH; [by eapply step_ok|by eapply step_admitted].
Qed.

End admission.

(** C16: Provider resources are accounted for and limited: in every state the manager reaches, the admission counter equals the number of reservations that something holds (an open in progress, an opened source that waits, is published or is disposed of, a session whose source is not shut down, a source whose shutdown failed, a resolution of on-demand content in progress, an on-demand content that exists), so no path loses or returns one twice, and with a limit configured the counter never passes it. An on-demand content exists exactly while the cache, a handle or an open range holds it, whether or not the cache has expired or shutdown has emptied it. *)
Theorem admission_balanced (grace max : N) (evs : list Event) (m : Manager) : run grace (manager_new max) evs = Some m →
  occupied (m_adm m) = N.of_nat (reservations m) ∧ (max ≠ 0%N → (occupied (m_adm m) ≤ max)%N) ∧
  ∀ cid, is_Some (v_contents (m_vods m) !! cid) ↔
    (∃ n, v_contents (m_vods m) !! cid = Some (S n)) ∨ ∃ key at_, v_cache (m_vods m) !! key = Some (cid, at_).
Proof.
  intros Hrun. destruct (run_admitted (if (max =? 0)%N then None else Some max) grace evs _ m (new_ok max))
    as ((H1 & _ & H3) & [L1 L2] & Hh); [|done|].
  - split; [split; [reflexivity|]|].
    + unfold manager_new, admission_new. cbn. destruct (max =? 0)%N; split; try done. lia.
    + split; [split|]; cbn; [intros cid [? [=]]|intros cid H%elem_of_cached_ids; naive_solver|intros cid n [=]].
  - split_and!; [done| |].
    + intros Hm. by rewrite (proj2 (N.eqb_neq _ _) Hm) in H3.
    + intros cid. rewrite <- elem_of_cached_ids. split; [|intros [[n ->]|?]; [done|by apply L2]].
      intros [[|n] Hn]; [|left; by exists n]. destruct (Hh cid 0 Hn); [done|by right].
Qed.

(** A second source does not fit while the first is open. *)
Definition two_starts : list Event :=
  [EBegin 1 (bs "ace", bs "a") AcqSubscribe; EBegin 2 (bs "ace", bs "b") (AcqHls true); EInit 1; EInit 1; EInit 1; EInit 1;
   EInit 2; EInit 2; EInit 2; EOpened 1 None; EInit 1; EFin 0].

Lemma two_starts_reach : (λ m, (occupied (m_adm m), i_pc <$> m_inits m !! 2%N)) <$> run 30 (manager_new 1) two_starts =
  Some (1%N, Some (PDone (Err Capacity))).
Proof. vm_compute. reflexivity. Qed.

(** On-demand content, a range of which outlives its cache entry and the shutdown; a live start is refused for it. *)
Definition vod_run : list Event :=
  [EVod (VBegin 1 (bs "ace", bs "film")); EVod (VTurn 1 0); EVod (VTurn 1 0); EVod (VTurn 1 0); EVod (VTurn 1 0);
   EVod (VResolved 1 true); EVod (VTurn 1 0); EFin 5; EVod (VRange 0); EVod (VDrop 0);
   EBegin 2 (bs "ace", bs "b") AcqSubscribe; EInit 2; EInit 2; EInit 2; EInit 2;
   EVod (VExpire 100); EShutdown; EFin 0; EFin 0; EFin 0].

Lemma vod_run_reaches : (λ m, (occupied (m_adm m), v_contents (m_vods m) !! 0%N, i_pc <$> m_inits m !! 2%N)) <$>
    run 30 (manager_new 1) vod_run = Some (1%N, Some 1, Some (PDone (Err Capacity))) ∧
  (λ m, (occupied (m_adm m), v_contents (m_vods m) !! 0%N)) <$> run 30 (manager_new 1) (vod_run ++ [EVod (VDrop 0)]) =
    Some (0%N, None).
Proof. vm_compute. done. Qed.

Lemma admission_balanced_witness : ∃ m, run 30 (manager_new 1) vod_run = Some m ∧ occupied (m_adm m) = 1%N ∧
  occupied (m_adm m) = N.of_nat (reservations m) ∧ ∃ n, v_contents (m_vods m) !! 0%N = Some (S n).
Proof.
  destruct (proj1 (fmap_Some _ _ _) (proj1 vod_run_reaches)) as (m & E & H). injection H as H H0 _. exists m.
  destruct (admission_balanced 30 1 vod_run m E) as (H1 & _ & _). split_and!; [exact E|exact (eq_sym H)|exact H1|].
  exists 0. exact (eq_sym H0).
Defined.
