(* ===== verification/Leases.v ===== *)
(** * Playback leases

    [AceSessionStore] of [ace-engine/src/http/leases.rs]: the bounded leases that [/ace/getstream] mints,
    the cancellation signals of the bodies that play under them, the subscriptions that HLS leases keep
    alive, and the one task that reaps HLS leases at their deadlines.  Time and the random token are
    arguments; [tie] picks the victim among the leases that expire first, since the order of a hash map
    is not specified.  The subscription of an HLS lease lives as long as the lease is in the map.  The
    reaper's signal is the version of its channel; its value is not read.  An operation is one
    step: it holds the lease mutex, and the wake-up it ends with only makes the reaper look again.  A
    validation takes the mutex twice, to purge and to look up; the step is both, with nothing in
    between. *)

From S2P Require Import Prelude.

(** A [watch] channel: the receivers see false, true, or that the sender is gone without a value. *)
Inductive Signal : Type := Open | Revoked | Closed.

Record AceLease : Type := mkLease {
  playback_id : bytes;
  session_key : bytes;
  expires_at : N;
  (** the channel of [cancel] *)
  cancel : N;
  (** the subscription of [_hls_pin] *)
  hls_pin : option N;
}.

(** The reaper: not spawned, about to look for a deadline, or asleep until one with the generation of the
    signal it has seen. *)
Inductive Reaper : Type := NotStarted | Looking (seen : N) | Asleep (deadline : option N) (seen : N).

Record AceSessionStore : Type := mkStore {
  leases : gmap bytes AceLease;
  ttl : N;
  capacity : nat;
  reaper_signal : N;
  reaper : Reaper;
  channels : gmap N Signal;
  next_channel : N;
}.

Definition store_new (ttl : N) (capacity : nat) : AceSessionStore :=
  mkStore ∅ ttl capacity 0 NotStarted ∅ 0.

Definition set_leases (l : gmap bytes AceLease) (c : gmap N Signal) (s : AceSessionStore) : AceSessionStore :=
  mkStore l (ttl s) (capacity s) (reaper_signal s) (reaper s) c (next_channel s).
Definition set_reaper (r : Reaper) (s : AceSessionStore) : AceSessionStore :=
  mkStore (leases s) (ttl s) (capacity s) (reaper_signal s) r (channels s) (next_channel s).

(** [send_modify]: the receivers see a new version of the channel. *)
Definition wake_hls_reaper (s : AceSessionStore) : AceSessionStore :=
  mkStore (leases s) (ttl s) (capacity s) (reaper_signal s + 1)%N (reaper s) (channels s) (next_channel s).

(** The lease leaves the map, its bodies see the signal and its pin is dropped. *)
Definition remove_lease (token : bytes) (final : Signal) (s : AceSessionStore) : AceSessionStore :=
  match leases s !! token with
  | Some l => set_leases (delete token (leases s)) (<[cancel l := final]> (channels s)) s
  | None => s
  end.

Definition expired_at (now : N) (l : AceLease) : bool := (expires_at l <=? now)%N.

Definition purge_expired (now : N) (s : AceSessionStore) : AceSessionStore :=
  foldr (λ token, remove_lease token Revoked) s
    (map_to_list (filter (λ kv, expired_at now kv.2 = true) (leases s))).*1.

Definition minimum (l : list N) : option N := match l with [] => None | x :: l => Some (foldr N.min x l) end.

(** The tokens that [min_by_key] may return. *)
Definition oldest (s : AceSessionStore) : list bytes :=
  match minimum (expires_at <$> (map_to_list (leases s)).*2) with
  | Some m => (List.filter (λ kv, expires_at kv.2 =? m)%N (map_to_list (leases s))).*1
  | None => []
  end.

Definition victim (tie : nat) (s : AceSessionStore) : option bytes :=
  let l := oldest s in l !! (tie mod length l).

Definition pinned (l : AceLease) : bool := match hls_pin l with Some _ => true | None => false end.

Definition is_hls (s : AceSessionStore) (token : bytes) : bool :=
  match leases s !! token with Some l => pinned l | None => false end.

(** [insert_with_pin] *)
Definition insert_with_pin (token pid key : bytes) (now : N) (pin : option N) (tie : nat) (s : AceSessionStore) : AceSessionStore :=
  let changed := match pin with Some _ => true | None => false end in
  let s := purge_expired now s in
  let '(s, changed) :=
    if bool_decide (capacity s ≤ size (leases s)) then
      match victim tie s with
      | Some oldest => (remove_lease oldest Revoked s, changed || is_hls s oldest)
      | None => (s, changed)
      end
    else (s, changed) in
  let lease := mkLease pid key (now + ttl s)%N (next_channel s) pin in
  (* [insert] drops the lease it replaces *)
  let s := remove_lease token Closed s in
  let s := mkStore (<[token := lease]> (leases s)) (ttl s) (capacity s) (reaper_signal s) (reaper s)
             (<[next_channel s := Open]> (channels s)) (next_channel s + 1)%N in
  if changed then wake_hls_reaper s else s.

Definition mint (token pid key : bytes) (now : N) (tie : nat) (s : AceSessionStore) : AceSessionStore :=
  insert_with_pin token pid key now None tie s.

(** [subscribe] marks the current generation as seen. *)
Definition ensure_hls_reaper (s : AceSessionStore) : AceSessionStore :=
  match reaper s with NotStarted => set_reaper (Looking (reaper_signal s)) s | _ => s end.

Definition mint_hls (token pid key : bytes) (now : N) (pin : N) (tie : nat) (s : AceSessionStore) : AceSessionStore :=
  wake_hls_reaper (ensure_hls_reaper (insert_with_pin token pid key now (Some pin) tie s)).

Definition next_hls_expiry (s : AceSessionStore) : option N :=
  minimum (expires_at <$> List.filter pinned (map_to_list (leases s)).*2).

(** A turn of the reaper: it looks, or wakes at its deadline or at a signal.  [select!] takes either arm
    when both are ready. *)
Definition reaper_turn (timer : bool) (now : N) (s : AceSessionStore) : option AceSessionStore :=
  match reaper s with
  | NotStarted => None
  | Looking seen => Some (set_reaper (Asleep (next_hls_expiry s) seen) s)
  | Asleep deadline seen =>
      if timer then
        match deadline with
        | Some d => if (d <=? now)%N then Some (set_reaper (Looking seen) (purge_expired now s)) else None
        | None => None
        end
      else if (seen =? reaper_signal s)%N then None else Some (set_reaper (Looking (reaper_signal s)) s)
  end.

Definition validate_at (pid token : bytes) (now : N) (s : AceSessionStore) : option bytes * AceSessionStore :=
  let s := purge_expired now s in
  (l ← leases s !! token; if bool_decide (playback_id l = pid) then Some (session_key l) else None, s).

Definition validate_token (token : bytes) (now : N) (s : AceSessionStore) : option (bytes * bytes) * AceSessionStore :=
  let s := purge_expired now s in ((λ l, (playback_id l, session_key l)) <$> leases s !! token, s).

(** [playback]: the session, its deadline and the signal to watch. *)
Definition playback (pid token : bytes) (now : N) (s : AceSessionStore) : option (bytes * N * N) * AceSessionStore :=
  let s := purge_expired now s in
  (l ← leases s !! token;
   if bool_decide (playback_id l = pid) then Some (session_key l, expires_at l, cancel l) else None, s).

Definition remove_if (matches : bool) (token : bytes) (s : AceSessionStore) : bool * AceSessionStore :=
  (matches, if matches then wake_hls_reaper (remove_lease token Revoked s) else s).

Definition revoke (pid token : bytes) (now : N) (s : AceSessionStore) : bool * AceSessionStore :=
  remove_if (match leases s !! token with
             | Some l => bool_decide (playback_id l = pid) && negb (expired_at now l)
             | None => false
             end) token s.

(** The drop of a body's guard. *)
Definition remove_owned (pid token : bytes) (s : AceSessionStore) : bool * AceSessionStore :=
  remove_if (match leases s !! token with Some l => bool_decide (playback_id l = pid) | None => false end) token s.

(** ** Runs *)

Inductive LeaseOp : Type :=
  | Mint (token pid key : bytes) (now : N) (tie : nat)
  | MintHls (token pid key : bytes) (now pin : N) (tie : nat)
  | Validate (pid token : bytes) (now : N)
  | ValidateToken (token : bytes) (now : N)
  | Playback (pid token : bytes) (now : N)
  | Revoke (pid token : bytes) (now : N)
  | GuardDrop (pid token : bytes)
  | ReaperTurn (timer : bool) (now : N).

Definition lease_op (s : AceSessionStore) (op : LeaseOp) : AceSessionStore :=
  match op with
  | Mint token pid key now tie => mint token pid key now tie s
  | MintHls token pid key now pin tie => mint_hls token pid key now pin tie s
  | Validate pid token now => (validate_at pid token now s).2
  | ValidateToken token now => (validate_token token now s).2
  | Playback pid token now => (playback pid token now s).2
  | Revoke pid token now => (revoke pid token now s).2
  | GuardDrop pid token => (remove_owned pid token s).2
  | ReaperTurn timer now => default s (reaper_turn timer now s)
  end.

Definition lease_run (s : AceSessionStore) (ops : list LeaseOp) : AceSessionStore := foldl lease_op s ops.

(** ** The reference ledger *)

Definition Entry : Type := bytes * bytes * N.

Definition entry (l : AceLease) : Entry := (playback_id l, session_key l, expires_at l).

(** What has been granted and not taken back: no capacity and no expiry. *)
Definition ledger_op (ttl : N) (g : gmap bytes Entry) (op : LeaseOp) : gmap bytes Entry :=
  match op with
  | Mint token pid key now _ | MintHls token pid key now _ _ => <[token := (pid, key, (now + ttl)%N)]> g
  | Revoke pid token now =>
      match g !! token with
      | Some (pid', _, e) => if bool_decide (pid' = pid) && negb (e <=? now)%N then delete token g else g
      | None => g
      end
  | GuardDrop pid token =>
      match g !! token with
      | Some (pid', _, _) => if bool_decide (pid' = pid) then delete token g else g
      | None => g
      end
  | _ => g
  end.

Definition ledger (ttl : N) (ops : list LeaseOp) : gmap bytes Entry := foldl (ledger_op ttl) ∅ ops.

(** ** Lemmas *)

Lemma minimum_spec l m : minimum l = Some m → m ∈ l ∧ ∀ x, x ∈ l → (m ≤ x)%N.
Proof.
  destruct l as [|x l]; [done|]. cbn [minimum]. intros [= <-]. induction l as [|y l [IH1 IH2]]; cbn [foldr].
  - split; [by left|]. intros z Hz. apply list_elem_of_singleton in Hz. lia.
  - split.
    + destruct (N.min_spec y (foldr N.min x l)) as [[_ ->]|[_ ->]]; [right; by left|].
      apply elem_of_cons in IH1 as [-> |IH1]; [by left|by do 2 right].
    + intros z Hz. apply elem_of_cons in Hz as [-> |Hz]; [specialize (IH2 x ltac:(by left)); lia|].
      apply elem_of_cons in Hz as [-> |Hz]; [lia|]. specialize (IH2 z ltac:(by right)). lia.
Qed.

Lemma minimum_none l : minimum l = None → l = [].
Proof. by destruct l. Qed.

(** The signals of the leases, and of the ones that are gone. *)
Record lease_inv (s : AceSessionStore) : Prop := {
  li_size : size (leases s) ≤ Nat.max 1 (capacity s);
  li_open : ∀ token l, leases s !! token = Some l → channels s !! cancel l = Some Open ∧ (cancel l < next_channel s)%N;
  li_inj : ∀ t1 l1 t2 l2, leases s !! t1 = Some l1 → leases s !! t2 = Some l2 → cancel l1 = cancel l2 → t1 = t2;
  li_gone : ∀ c, channels s !! c = Some Open → ∃ token l, leases s !! token = Some l ∧ cancel l = c;
  li_all : ∀ c, (c < next_channel s)%N ↔ is_Some (channels s !! c);
}.

(** Every HLS lease is after the reaper's deadline, unless the reaper is about to look. *)
Definition reaper_inv (s : AceSessionStore) : Prop :=
  match reaper s with
  | NotStarted => ∀ token l, leases s !! token = Some l → pinned l = false
  | Looking seen => (seen ≤ reaper_signal s)%N
  | Asleep deadline seen =>
      (seen ≤ reaper_signal s)%N ∧
      (seen = reaper_signal s → ∀ token l, leases s !! token = Some l → pinned l = true →
         ∃ d, deadline = Some d ∧ (d ≤ expires_at l)%N)
  end.

(** What removals do. *)
Record shrunk (s s' : AceSessionStore) : Prop := {
  sk_sub : leases s' ⊆ leases s;
  sk_ttl : ttl s' = ttl s;
  sk_capacity : capacity s' = capacity s;
  sk_signal : reaper_signal s' = reaper_signal s;
  sk_reaper : reaper s' = reaper s;
  sk_next : next_channel s' = next_channel s;
}.

Lemma shrunk_refl s : shrunk s s.
Proof. by constructor. Qed.

Lemma shrunk_trans s1 s2 s3 : shrunk s1 s2 → shrunk s2 s3 → shrunk s1 s3.
Proof. intros [] []. constructor; [by etransitivity|congruence..]. Qed.

Lemma remove_shrunk token final s : shrunk s (remove_lease token final s).
Proof.
  unfold remove_lease. destruct (leases s !! token); [|apply shrunk_refl]. constructor; try done. cbn. apply delete_subseteq.
Qed.

Lemma leases_remove token final s : leases (remove_lease token final s) = delete token (leases s).
Proof. unfold remove_lease. destruct (leases s !! token) eqn:E; [done|]. by rewrite delete_id. Qed.

Lemma remove_inv token final s : final ≠ Open → lease_inv s → lease_inv (remove_lease token final s).
Proof.
  intros Hf [I1 I2 I3 I4 I5]. unfold remove_lease. destruct (leases s !! token) as [l|] eqn:E; [|by constructor].
  constructor; cbn.
  - rewrite map_size_delete_Some by (by eexists). lia.
  - intros t l'. rewrite lookup_delete_Some. intros [Hne Hl]. destruct (I2 t l' Hl) as [H1 H2]. split; [|done].
    rewrite lookup_insert_ne; [done|]. intros Heq. apply Hne. by eapply I3.
  - intros t1 l1 t2 l2. rewrite !lookup_delete_Some. intros [_ H1] [_ H2]. by eapply I3.
  - intros c. destruct (decide (cancel l = c)) as [<-|Hne]; [rewrite lookup_insert_eq; congruence|].
    rewrite lookup_insert_ne by done. intros Hc. destruct (I4 c Hc) as (t & l' & H1 & H2). exists t, l'. split; [|done].
    rewrite lookup_delete_Some. split; [|done]. intros <-. congruence.
  - intros c. rewrite I5. destruct (decide (cancel l = c)) as [<-|Hne]; [|by rewrite lookup_insert_ne].
    rewrite lookup_insert_eq. destruct (I2 token l E) as [-> _]. split; eauto.
Qed.

Lemma purge_spec now s : shrunk s (purge_expired now s) ∧ (lease_inv s → lease_inv (purge_expired now s)) ∧
  ∀ token, leases (purge_expired now s) !! token =
           l ← leases s !! token; if expired_at now l then None else Some l.
Proof.
  unfold purge_expired. set (keys := (map_to_list _).*1).
  assert (Hk : ∀ token, token ∈ keys ↔ ∃ l, leases s !! token = Some l ∧ expired_at now l = true).
  { intros token. unfold keys. rewrite list_elem_of_fmap. split.
    - intros ([t l] & -> & H). apply elem_of_map_to_list, map_lookup_filter_Some in H. naive_solver.
    - intros (l & H1 & H2). exists (token, l). split; [done|]. apply elem_of_map_to_list, map_lookup_filter_Some. done. }
  assert (Hrem : ∀ ks, shrunk s (foldr (λ token, remove_lease token Revoked) s ks) ∧
    (lease_inv s → lease_inv (foldr (λ token, remove_lease token Revoked) s ks)) ∧
    ∀ token, leases (foldr (λ token, remove_lease token Revoked) s ks) !! token = if decide (token ∈ ks) then None else leases s !! token).
  { induction ks as [|k ks (IH1 & IH2 & IH3)]; cbn [foldr]; [split_and!; [apply shrunk_refl|done|done]|].
    set (s1 := foldr _ s ks) in *. split_and!.
    - eapply shrunk_trans; [exact IH1|apply remove_shrunk].
    - intros I. apply remove_inv; [done|auto].
    - intros token. rewrite leases_remove. destruct (decide (k = token)) as [<-|Hne].
      + rewrite lookup_delete_eq, decide_True; [done|by left].
      + rewrite lookup_delete_ne, IH3 by done. apply decide_ext. rewrite elem_of_cons. naive_solver. }
  destruct (Hrem keys) as (H1 & H2 & H3). split_and!; [done|done|]. intros token. rewrite H3.
  destruct (leases s !! token) as [l|] eqn:E; cbn [mbind option_bind].
  - destruct (expired_at now l) eqn:Ex.
    + rewrite decide_True; [done|]. apply Hk. eauto.
    + rewrite decide_False; [done|]. rewrite Hk. intros (l' & Hl & Hx). congruence.
  - by destruct (decide _).
Qed.

Lemma shrunk_reaper s s' : shrunk s s' → reaper_inv s → reaper_inv s'.
Proof.
  intros [H1 _ _ H4 H5 _]. unfold reaper_inv. rewrite H4, H5. destruct (reaper s) as [|seen|d seen].
  - intros H token l Hl. by eapply H, lookup_weaken.
  - done.
  - intros [H2 H3]. split; [done|]. intros E token l Hl. eapply (H3 E), lookup_weaken; done.
Qed.

Lemma oldest_spec s v : v ∈ oldest s → is_Some (leases s !! v).
Proof.
  unfold oldest. destruct (minimum _) as [m|]; [|intros H; by apply elem_of_nil in H]. rewrite list_elem_of_fmap.
  intros ([t l] & -> & H). apply list_elem_of_In, filter_In in H as [H _]. apply list_elem_of_In, elem_of_map_to_list in H. eauto.
Qed.

Lemma victim_some tie s : leases s ≠ ∅ → ∃ v, victim tie s = Some v ∧ is_Some (leases s !! v).
Proof.
  intros Hne. assert (Ho : oldest s ≠ []).
  { unfold oldest. destruct (minimum _) as [m|] eqn:E.
    - apply minimum_spec in E as [E _]. apply list_elem_of_fmap in E as (l & -> & E). apply list_elem_of_fmap in E as ([t l'] & -> & E).
      intros Hnil. assert (Hin : t ∈ (List.filter (λ kv : bytes * AceLease, (expires_at kv.2 =? expires_at l')%N) (map_to_list (leases s))).*1).
      { apply list_elem_of_fmap. exists (t, l'). split; [done|]. apply list_elem_of_In, filter_In.
        split; [by apply list_elem_of_In|apply N.eqb_refl]. }
      cbn [snd] in Hnil. rewrite Hnil in Hin. by apply elem_of_nil in Hin.
    - apply minimum_none in E. apply fmap_nil_inv, fmap_nil_inv in E. by apply map_to_list_empty_iff in E. }
  unfold victim. destruct (lookup_lt_is_Some_2 (oldest s) (tie mod length (oldest s))) as [v Hv].
  - apply Nat.mod_upper_bound. by destruct (oldest s).
  - exists v. split; [done|]. apply oldest_spec. by eapply list_elem_of_lookup_2.
Qed.

(** What an insertion makes room for. *)
Definition make_room (token : bytes) (now : N) (tie : nat) (s : AceSessionStore) : AceSessionStore :=
  let s := purge_expired now s in
  remove_lease token Closed
    (if bool_decide (capacity s ≤ size (leases s))
     then match victim tie s with Some v => remove_lease v Revoked s | None => s end else s).

Lemma make_room_spec token now tie s : lease_inv s →
  lease_inv (make_room token now tie s) ∧ shrunk s (make_room token now tie s) ∧
  leases (make_room token now tie s) !! token = None ∧
  S (size (leases (make_room token now tie s))) ≤ Nat.max 1 (capacity s) ∧
  ∀ t l, leases (make_room token now tie s) !! t = Some l → leases s !! t = Some l ∧ expired_at now l = false.
Proof.
  intros I. destruct (purge_spec now s) as (P1 & P2 & P3). specialize (P2 I). unfold make_room. set (s1 := purge_expired now s) in *.
  set (s2 := if bool_decide _ then _ else s1).
  assert (H2 : lease_inv s2 ∧ shrunk s1 s2 ∧ S (size (leases s2)) ≤ Nat.max 1 (capacity s)).
  { pose proof (li_size _ P2) as Hsz. rewrite <- (sk_capacity _ _ P1). unfold s2. case_bool_decide as Hc.
    - destruct (decide (leases s1 = ∅)) as [He|He].
      + destruct (victim tie s1) as [v|] eqn:Ev.
        * unfold victim in Ev. apply list_elem_of_lookup_2, oldest_spec in Ev. rewrite He, lookup_empty in Ev. by destruct Ev.
        * split_and!; [done|apply shrunk_refl|]. rewrite He, map_size_empty. lia.
      + destruct (victim_some tie s1 He) as (v & -> & [l Hl]). split_and!; [by apply remove_inv|apply remove_shrunk|].
        unfold remove_lease. rewrite Hl. cbn. rewrite map_size_delete_Some by (by eexists).
        assert (size (leases s1) ≠ 0) by (by apply map_size_non_empty_iff). lia.
    - split_and!; [done|apply shrunk_refl|]. lia. }
  destruct H2 as (I2 & K2 & Z2). clearbody s2.
  pose proof (remove_shrunk token Closed s2) as K3. split_and!.
  - by apply remove_inv.
  - eapply shrunk_trans; [exact P1|]. by eapply shrunk_trans.
  - rewrite leases_remove. apply lookup_delete_eq.
  - pose proof (map_subseteq_size _ _ (sk_sub _ _ K3)). lia.
  - intros t l Hl. eapply lookup_weaken in Hl; [|exact (sk_sub _ _ K3)]. eapply lookup_weaken in Hl; [|exact (sk_sub _ _ K2)].
    rewrite P3 in Hl. destruct (leases s !! t) as [l'|]; [|done]. cbn [mbind option_bind] in Hl.
    destruct (expired_at now l') eqn:Ex; [done|]. by injection Hl as <-.
Qed.

(** An insertion is the new lease in the room made for it, and a wake-up when an HLS lease is touched. *)
Lemma insert_spec token pid key now pin tie s : let s1 := make_room token now tie s in
  let s' := insert_with_pin token pid key now pin tie s in
  leases s' = <[token := mkLease pid key (now + ttl s)%N (next_channel s) pin]> (leases s1) ∧
  channels s' = <[next_channel s := Open]> (channels s1) ∧ next_channel s' = (next_channel s + 1)%N ∧
  ttl s' = ttl s ∧ capacity s' = capacity s ∧ reaper s' = reaper s ∧
  (reaper_signal s' = (reaper_signal s + 1)%N ∨ pin = None ∧ reaper_signal s' = reaper_signal s).
Proof.
  unfold insert_with_pin, make_room. destruct (purge_spec now s) as (P1 & _ & _). set (s1 := purge_expired now s) in *.
  assert (Hfin : ∀ s2 changed, shrunk s1 s2 → (pin = None ∨ changed = true) →
    let s3 := remove_lease token Closed s2 in
    let s' := let s := remove_lease token Closed s2 in
      let s := mkStore (<[token := mkLease pid key (now + ttl s2)%N (next_channel s2) pin]> (leases s)) (ttl s) (capacity s)
        (reaper_signal s) (reaper s) (<[next_channel s := Open]> (channels s)) (next_channel s + 1)%N in
      if changed then wake_hls_reaper s else s in
    leases s' = <[token := mkLease pid key (now + ttl s)%N (next_channel s) pin]> (leases s3) ∧
    channels s' = <[next_channel s := Open]> (channels s3) ∧ next_channel s' = (next_channel s + 1)%N ∧
    ttl s' = ttl s ∧ capacity s' = capacity s ∧ reaper s' = reaper s ∧
    (reaper_signal s' = (reaper_signal s + 1)%N ∨ pin = None ∧ reaper_signal s' = reaper_signal s)).
  { intros s2 changed K Hch. pose proof (shrunk_trans _ _ _ P1 (shrunk_trans _ _ _ K (remove_shrunk token Closed s2))) as [_ T1 T2 T3 T4 T5].
    pose proof (shrunk_trans _ _ _ P1 K) as [_ U1 _ _ _ U5]. cbv zeta. rewrite U1, U5.
    destruct changed; cbn; rewrite ?T1, ?T2, ?T3, ?T4, ?T5; split_and!; try done; [by left|]. right. by destruct Hch. }
  case_bool_decide; [destruct (victim tie s1) as [v|]|].
  - apply (Hfin (remove_lease v Revoked s1)); [apply remove_shrunk|]. destruct pin; [by right|by left].
  - apply (Hfin s1); [apply shrunk_refl|]. destruct pin; [by right|by left].
  - apply (Hfin s1); [apply shrunk_refl|]. destruct pin; [by right|by left].
Qed.

Lemma insert_lease_inv token pid key now pin tie s : lease_inv s → lease_inv (insert_with_pin token pid key now pin tie s).
Proof.
  intros I. destruct (make_room_spec token now tie s I) as ([I1 I2 I3 I4 I5] & [_ _ K2 _ _ K5] & Hn & Hsz & _).
  destruct (insert_spec token pid key now pin tie s) as (E1 & E2 & E3 & E4 & E5 & _). set (s1 := make_room token now tie s) in *.
  rewrite K5 in *. constructor; rewrite ?E1, ?E2, ?E3, ?E5.
  - rewrite map_size_insert_None by done. lia.
  - intros t l. destruct (decide (token = t)) as [<-|Hne].
    + rewrite lookup_insert_eq. intros [= <-]. cbn. rewrite lookup_insert_eq. split; [done|lia].
    + rewrite lookup_insert_ne by done. intros Hl. destruct (I2 t l Hl) as [H1 H2]. split; [|lia].
      rewrite lookup_insert_ne; [done|]. lia.
  - intros t1 l1 t2 l2. destruct (decide (token = t1)) as [<-|H1], (decide (token = t2)) as [<-|H2];
      rewrite ?lookup_insert_eq, ?lookup_insert_ne by done; try done.
    + intros [= <-] Hl Hc. cbn in Hc. destruct (I2 _ _ Hl) as [_ ?]. lia.
    + intros Hl [= <-] Hc. cbn in Hc. destruct (I2 _ _ Hl) as [_ ?]. lia.
    + by apply I3.
  - intros c. destruct (decide (next_channel s = c)) as [<-|Hne].
    + intros _. exists token. eexists. by rewrite lookup_insert_eq.
    + rewrite lookup_insert_ne by done. intros Hc. destruct (I4 c Hc) as (t & l & H1 & H2). exists t, l. split; [|done].
      rewrite lookup_insert_ne; [done|]. intros <-. congruence.
  - intros c. destruct (decide (next_channel s = c)) as [<-|Hne]; [rewrite lookup_insert_eq; split; [eauto|lia]|].
    rewrite lookup_insert_ne by done. rewrite <- I5. lia.
Qed.

Lemma wake_inv s : lease_inv s → lease_inv (wake_hls_reaper s).
Proof. by intros []. Qed.

Lemma set_reaper_inv r s : lease_inv s → lease_inv (set_reaper r s).
Proof. by intros []. Qed.

Lemma ensure_inv s : lease_inv s → lease_inv (ensure_hls_reaper s).
Proof. intros I. unfold ensure_hls_reaper. destruct (reaper s); [by apply set_reaper_inv|done|done]. Qed.

Lemma wake_reaper s : reaper_inv s → reaper_inv (wake_hls_reaper s).
Proof.
  unfold reaper_inv. cbn. destruct (reaper s) as [|seen|d seen]; [done|lia|]. intros [H _]. split; [lia|]. lia.
Qed.

Lemma mint_reaper token pid key now tie s : lease_inv s → reaper_inv s → reaper_inv (mint token pid key now tie s).
Proof.
  intros I H. destruct (make_room_spec token now tie s I) as (_ & K & Hn & _).
  destruct (insert_spec token pid key now None tie s) as (E1 & _ & _ & _ & _ & E6 & E7). unfold mint.
  pose proof (shrunk_reaper _ _ K H) as H1. unfold reaper_inv in *. rewrite E1, E6.
  rewrite (sk_reaper _ _ K), (sk_signal _ _ K) in H1. destruct (reaper s) as [|seen|d seen].
  - intros t l. destruct (decide (token = t)) as [<-|Hne]; [rewrite lookup_insert_eq; by intros [= <-]|].
    rewrite lookup_insert_ne by done. apply H1.
  - destruct E7 as [-> |[_ ->]]; lia.
  - destruct H1 as [H1 H2]. destruct E7 as [-> |[_ ->]]; (split; [lia|]); [lia|]. intros Es t l.
    destruct (decide (token = t)) as [<-|Hne]; [rewrite lookup_insert_eq; by intros [= <-]|].
    rewrite lookup_insert_ne by done. by apply H2.
Qed.

Lemma mint_hls_reaper token pid key now pin tie s : lease_inv s → reaper_inv s →
  reaper_inv (mint_hls token pid key now pin tie s).
Proof.
  intros I H. destruct (insert_spec token pid key now (Some pin) tie s) as (_ & _ & _ & _ & _ & E6 & [E7|[[=] _]]).
  unfold mint_hls, ensure_hls_reaper. rewrite E6. unfold reaper_inv in *. destruct (reaper s) as [|seen|d seen] eqn:Er; cbn; rewrite ?E6.
  - lia.
  - lia.
  - split; lia.
Qed.

Lemma remove_if_ok b token s : lease_inv s → reaper_inv s →
  lease_inv (remove_if b token s).2 ∧ reaper_inv (remove_if b token s).2.
Proof.
  intros I H. destruct b; cbn; [|done]. split.
  - by apply wake_inv, remove_inv.
  - apply wake_reaper. eapply shrunk_reaper; [apply remove_shrunk|done].
Qed.

Lemma next_expiry_spec s token l : leases s !! token = Some l → pinned l = true →
  ∃ d, next_hls_expiry s = Some d ∧ (d ≤ expires_at l)%N.
Proof.
  intros Hl Hp. unfold next_hls_expiry. assert (Hin : expires_at l ∈ expires_at <$> List.filter pinned (map_to_list (leases s)).*2).
  { apply list_elem_of_fmap. exists l. split; [done|]. apply list_elem_of_In, filter_In. split; [|done].
    apply list_elem_of_In, list_elem_of_fmap. exists (token, l). split; [done|]. by apply elem_of_map_to_list. }
  destruct (minimum _) as [d|] eqn:E.
  - exists d. split; [done|]. by apply minimum_spec in E as [_ E]; apply E.
  - apply minimum_none in E. rewrite E in Hin. by apply elem_of_nil in Hin.
Qed.

Lemma turn_ok timer now s s' : lease_inv s → reaper_inv s → reaper_turn timer now s = Some s' → lease_inv s' ∧ reaper_inv s'.
Proof.
  intros I H. unfold reaper_turn, reaper_inv in *. destruct (reaper s) as [|seen|d seen] eqn:Er; [done| |].
  - intros [= <-]. split; [by apply set_reaper_inv|]. cbn. split; [done|]. intros _. apply next_expiry_spec.
  - destruct timer.
    + destruct d as [d|]; [|done]. destruct (d <=? now)%N; [|done]. intros [= <-].
      destruct (purge_spec now s) as (K & P & _). split; [by apply set_reaper_inv, P|]. cbn. rewrite (sk_signal _ _ K). apply H.
    + destruct (seen =? reaper_signal s)%N; [done|]. intros [= <-]. split; [by apply set_reaper_inv|]. cbn. lia.
Qed.

Lemma lease_op_ok s op : lease_inv s → reaper_inv s → lease_inv (lease_op s op) ∧ reaper_inv (lease_op s op).
Proof.
  intros I H. assert (Hp : ∀ now, lease_inv (purge_expired now s) ∧ reaper_inv (purge_expired now s)).
  { intros now. destruct (purge_spec now s) as (K & P & _). split; [auto|by eapply shrunk_reaper]. }
  destruct op; cbn [lease_op]; try apply Hp.
  - split; [by apply insert_lease_inv|by apply mint_reaper].
  - split; [by apply wake_inv, ensure_inv, insert_lease_inv|by apply mint_hls_reaper].
  - by apply remove_if_ok.
  - by apply remove_if_ok.
  - destruct (reaper_turn timer now s) as [s'|] eqn:E; [|done]. by eapply turn_ok.
Qed.

Lemma lease_run_ok ops s : lease_inv s → reaper_inv s → lease_inv (lease_run s ops) ∧ reaper_inv (lease_run s ops).
Proof.
  revert s. induction ops as [|op ops IH]; intros s I H; [done|]. destruct (lease_op_ok s op I H). by apply IH.
Qed.

Lemma store_new_ok ttl capacity : lease_inv (store_new ttl capacity) ∧ reaper_inv (store_new ttl capacity).
Proof.
  split; [|intros token l; cbn; by rewrite lookup_empty]. constructor; cbn.
  - rewrite map_size_empty. lia.
  - intros token l. by rewrite lookup_empty.
  - intros t1 l1 t2 l2. by rewrite lookup_empty.
  - intros c. by rewrite lookup_empty.
  - intros c. rewrite lookup_empty. split; [lia|]. by intros [? [=]].
Qed.

(** ** Refinement of the ledger *)

(** A store keeps leases the ledger has, as the ledger has them. *)
Definition refines (s : AceSessionStore) (g : gmap bytes Entry) : Prop := entry <$> leases s ⊆ g.

Lemma refines_lookup s g token l : refines s g → leases s !! token = Some l → g !! token = Some (entry l).
Proof. intros H Hl. eapply lookup_weaken; [|exact H]. by rewrite lookup_fmap, Hl. Qed.

Lemma shrunk_refines s s' g : leases s' ⊆ leases s → refines s g → refines s' g.
Proof. intros K H. unfold refines in *. etransitivity; [by apply map_fmap_mono|exact H]. Qed.

Lemma remove_if_refines b token s g : refines s g → refines (remove_if b token s).2 (if b then delete token g else g).
Proof.
  intros H. destruct b; [|done]. unfold refines. change (leases (remove_if true token s).2) with (leases (remove_lease token Revoked s)).
  apply map_subseteq_spec. intros t e. rewrite lookup_fmap.
  rewrite leases_remove. intros Ht. apply fmap_Some in Ht as (l & Hl & ->). apply lookup_delete_Some in Hl as [Hne Hl].
  rewrite lookup_delete_ne by done. by eapply refines_lookup.
Qed.

Lemma insert_refines token pid key now pin tie s g : lease_inv s → refines s g →
  refines (insert_with_pin token pid key now pin tie s) (<[token := (pid, key, (now + ttl s)%N)]> g).
Proof.
  intros I H. destruct (make_room_spec token now tie s I) as (_ & K & _). destruct (insert_spec token pid key now pin tie s) as (E1 & _).
  unfold refines. rewrite E1, fmap_insert. apply insert_mono. eapply (shrunk_refines s); [apply K|done].
Qed.

Lemma lease_op_ttl s op : ttl (lease_op s op) = ttl s.
Proof.
  assert (Hp : ∀ now, ttl (purge_expired now s) = ttl s) by (intros now; by destruct (purge_spec now s) as ([] & _)).
  assert (Hr : ∀ b token, ttl (remove_if b token s).2 = ttl s).
  { intros [] token; [|done]. cbn. by destruct (remove_shrunk token Revoked s). }
  destruct op; cbn [lease_op]; try apply Hp; try apply Hr.
  - unfold mint. by destruct (insert_spec token pid key now None tie s) as (_ & _ & _ & -> & _).
  - unfold mint_hls, ensure_hls_reaper. destruct (insert_spec token pid key now (Some pin) tie s) as (_ & _ & _ & E & _ & E6 & _).
    rewrite E6. by destruct (reaper s).
  - destruct (reaper_turn timer now s) as [s'|] eqn:E; [|done]. cbn. revert E. unfold reaper_turn.
    destruct (reaper s) as [|seen|d seen]; [done|by intros [= <-]|]. destruct timer.
    + destruct d as [d|]; [|done]. destruct (d <=? now)%N; [|done]. intros [= <-]. cbn. apply Hp.
    + destruct (seen =? reaper_signal s)%N; [done|]. by intros [= <-].
Qed.

Lemma lease_op_refines s g op : lease_inv s → refines s g →
  refines (lease_op s op) (ledger_op (ttl s) g op).
Proof.
  intros I H. assert (Hp : ∀ now, refines (purge_expired now s) g).
  { intros now. destruct (purge_spec now s) as ([K] & _). by eapply shrunk_refines. }
  assert (Hrev : ∀ token (b : bool) (c : Entry → bool),
    b = match leases s !! token with Some l => c (entry l) | None => false end →
    refines (remove_if b token s).2 (match g !! token with Some e => if c e then delete token g else g | None => g end)).
  { intros token b c ->. destruct (leases s !! token) as [l|] eqn:El.
    - rewrite (refines_lookup _ _ _ _ H El). by apply remove_if_refines.
    - cbn. destruct (g !! token) as [e|]; [|done]. destruct (c e); [|done]. apply map_subseteq_spec. intros t x Ht.
      rewrite lookup_fmap in Ht. apply fmap_Some in Ht as (l & Hl & ->).
      rewrite lookup_delete_ne; [by eapply refines_lookup|]. intros ->. congruence. }
  destruct op; cbn [lease_op ledger_op]; try apply Hp.
  - by apply insert_refines.
  - unfold mint_hls, ensure_hls_reaper. pose proof (insert_refines token pid key now (Some pin) tie s g I H) as Hi.
    by destruct (reaper _).
  - pose proof (Hrev token _ (λ '(pid', _, e), bool_decide (pid' = pid) && negb (e <=? now)%N) eq_refl) as Hx.
    destruct (g !! token) as [[[]]|]; exact Hx.
  - pose proof (Hrev token _ (λ '(pid', _, _), bool_decide (pid' = pid)) eq_refl) as Hx.
    destruct (g !! token) as [[[]]|]; exact Hx.
  - destruct (reaper_turn timer now s) as [s'|] eqn:E; [|done]. cbn. revert E. unfold reaper_turn.
    destruct (reaper s) as [|seen|d seen]; [done|by intros [= <-]|]. destruct timer.
    + destruct d as [d|]; [|done]. destruct (d <=? now)%N; [|done]. intros [= <-]. apply Hp.
    + destruct (seen =? reaper_signal s)%N; [done|]. by intros [= <-].
Qed.

Lemma lease_run_refines ops s g : lease_inv s → reaper_inv s → refines s g →
  refines (lease_run s ops) (foldl (ledger_op (ttl s)) g ops) ∧ ttl (lease_run s ops) = ttl s.
Proof.
  revert s g. induction ops as [|op ops IH]; intros s g I H R; [done|]. cbn [lease_run foldl].
  destruct (lease_op_ok s op I H) as [I1 H1]. destruct (IH _ _ I1 H1 (lease_op_refines s g op I R)) as [G1 G2].
  rewrite lease_op_ttl in G1, G2. done.
Qed.

Lemma run_refines ttl capacity ops : let s := lease_run (store_new ttl capacity) ops in
  lease_inv s ∧ reaper_inv s ∧ refines s (ledger ttl ops).
Proof.
  destruct (store_new_ok ttl capacity) as [I H]. destruct (lease_run_ok ops _ I H) as [I1 H1]. split_and!; [done|done|].
  apply (lease_run_refines ops (store_new ttl capacity) ∅ I H). unfold refines. cbn. by rewrite fmap_empty.
Qed.

Lemma purged_lookup now s token l : leases (purge_expired now s) !! token = Some l → leases s !! token = Some l ∧ (now < expires_at l)%N.
Proof.
  destruct (purge_spec now s) as (_ & _ & ->). destruct (leases s !! token) as [l'|]; [|done]. cbn [mbind option_bind].
  unfold expired_at. destruct (N.leb_spec (expires_at l') now); [done|]. by intros [= <-].
Qed.

(** ** The reaper *)

(** What the signal arm does in each state of the reaper. *)
Lemma signal_idle now s : reaper s = NotStarted ∨ (∃ d, reaper s = Asleep d (reaper_signal s)) →
  lease_op s (ReaperTurn false now) = s.
Proof. cbn [lease_op]. unfold reaper_turn. intros [-> |[d ->]]; [done|]. by rewrite N.eqb_refl. Qed.

Lemma signal_look now s seen : reaper s = Looking seen →
  lease_op s (ReaperTurn false now) = set_reaper (Asleep (next_hls_expiry s) seen) s.
Proof. cbn [lease_op]. unfold reaper_turn. by intros ->. Qed.

Lemma signal_wake now s d seen : reaper s = Asleep d seen → seen ≠ reaper_signal s →
  lease_op s (ReaperTurn false now) = set_reaper (Looking (reaper_signal s)) s.
Proof. cbn [lease_op]. unfold reaper_turn. intros -> Hn. by rewrite (proj2 (N.eqb_neq _ _) Hn). Qed.

(** The signals a reaper has to look at, then its timer. *)
Lemma reaper_settles s now : lease_inv s → reaper_inv s →
  let s' := lease_run s [ReaperTurn false now; ReaperTurn false now; ReaperTurn false now; ReaperTurn true now] in
  ∀ token l, leases s' !! token = Some l → pinned l = true → (now < expires_at l)%N.
Proof.
  intros I H. cbv zeta. set (s1 := lease_run s [ReaperTurn false now; ReaperTurn false now; ReaperTurn false now]).
  assert (Hs1 : reaper s1 = NotStarted ∨ ∃ d, reaper s1 = Asleep d (reaper_signal s1)).
  { unfold s1. cbn [lease_run foldl]. destruct (reaper s) as [|seen|d seen] eqn:Er.
    - left. by rewrite !(signal_idle _ s) by auto.
    - rewrite (signal_look _ s seen Er). right. destruct (decide (seen = reaper_signal s)) as [->|Hn].
      + rewrite !(signal_idle _ (set_reaper _ s)) by (right; by eexists). by eexists.
      + rewrite (signal_wake _ (set_reaper _ s) (next_hls_expiry s) seen eq_refl Hn). erewrite signal_look by reflexivity. by eexists.
    - right. destruct (decide (seen = reaper_signal s)) as [->|Hn].
      + rewrite !(signal_idle _ s) by eauto. by eexists.
      + rewrite (signal_wake _ s d seen Er Hn), (signal_look _ (set_reaper _ s) (reaper_signal s) eq_refl).
        rewrite signal_idle by (right; by eexists). by eexists. }
  destruct (lease_run_ok [ReaperTurn false now; ReaperTurn false now; ReaperTurn false now] s I H) as [_ H1]. fold s1 in H1.
  change (lease_run s _) with (lease_op s1 (ReaperTurn true now)). clearbody s1. cbn [lease_op]. unfold reaper_turn, reaper_inv in *.
  intros token l Hl Hp. destruct Hs1 as [E|[d E]]; rewrite E in *; [cbn in Hl; specialize (H1 token l Hl); congruence|].
  destruct H1 as [_ H1]. specialize (H1 eq_refl). destruct d as [d|]; cbn in Hl.
  - destruct (N.leb_spec d now) as [Hd|Hd].
    + cbn in Hl. by apply purged_lookup in Hl as [_ Hl].
    + destruct (H1 token l Hl Hp) as (d' & [= <-] & Hle). lia.
  - by destruct (H1 token l Hl Hp) as (d' & [=] & _).
Qed.

Lemma turn_keeps timer now s token l : leases s !! token = Some l → (now < expires_at l)%N →
  leases (lease_op s (ReaperTurn timer now)) !! token = Some l.
Proof.
  intros Hl Hn. cbn [lease_op]. unfold reaper_turn. destruct (reaper s) as [|seen|d seen]; [done|done|]. destruct timer.
  - destruct d as [d|]; [|done]. destruct (d <=? now)%N; [|done]. cbn. destruct (purge_spec now s) as (_ & _ & ->). rewrite Hl.
    cbn [mbind option_bind]. unfold expired_at. by rewrite (proj2 (N.leb_gt _ _)).
  - by destruct (seen =? reaper_signal s)%N.
Qed.

Lemma turns_keep turns now s token l : leases s !! token = Some l → (now < expires_at l)%N →
  leases (lease_run s ((λ timer, ReaperTurn timer now) <$> turns)) !! token = Some l.
Proof.
  revert s. induction turns as [|t ts IH]; intros s Hl Hn; [done|]. cbn. apply IH; [|done]. by apply turn_keeps.
Qed.

Lemma lease_op_capacity s op : capacity (lease_op s op) = capacity s.
Proof.
  assert (Hp : ∀ now, capacity (purge_expired now s) = capacity s) by (intros now; by destruct (purge_spec now s) as ([] & _)).
  assert (Hr : ∀ b token, capacity (remove_if b token s).2 = capacity s).
  { intros [] token; [|done]. cbn. by destruct (remove_shrunk token Revoked s). }
  destruct op; cbn [lease_op]; try apply Hp; try apply Hr.
  - unfold mint. by destruct (insert_spec token pid key now None tie s) as (_ & _ & _ & _ & -> & _).
  - unfold mint_hls, ensure_hls_reaper. destruct (insert_spec token pid key now (Some pin) tie s) as (_ & _ & _ & _ & E & E6 & _).
    rewrite E6. by destruct (reaper s).
  - unfold reaper_turn. destruct (reaper s) as [|seen|d seen]; [done|done|]. destruct timer.
    + destruct d as [d|]; [|done]. destruct (d <=? now)%N; [|done]. apply Hp.
    + by destruct (seen =? reaper_signal s)%N.
Qed.

(** ** The properties *)

(** C24: A playback token is an authorization and nothing else is: after any sequence of grants, checks, revocations, dropped bodies, capacity evictions and reaper turns, a token is accepted for a playback id only when the reference ledger (which has neither capacity nor expiry) granted that token to that id, the grant was not taken back since, and its deadline has not passed; what is returned is the session of that grant. *)
Theorem leases_refine_ledger (ttl : N) (capacity : nat) (ops : list LeaseOp) (token pid key : bytes) (now : N) :
  let s := lease_run (store_new ttl capacity) ops in
  ((validate_at pid token now s).1 = Some key ∨ (validate_token token now s).1 = Some (pid, key) ∨
   ∃ e c, (playback pid token now s).1 = Some (key, e, c)) →
  ∃ e, ledger ttl ops !! token = Some (pid, key, e) ∧ (now < e)%N.
Proof.
  cbv zeta. destruct (run_refines ttl capacity ops) as (_ & _ & R). set (s := lease_run _ ops) in *.
  assert (Hl : ∀ l, leases (purge_expired now s) !! token = Some l → playback_id l = pid → session_key l = key →
    ∃ e, ledger ttl ops !! token = Some (pid, key, e) ∧ (now < e)%N).
  { intros l Hl <- <-. apply purged_lookup in Hl as [Hl Hn]. exists (expires_at l). split; [|done]. by apply (refines_lookup _ _ _ _ R). }
  unfold validate_at, validate_token, playback. cbn [fst].
  destruct (leases (purge_expired now s) !! token) as [l|]; [|intros [|[|(? & ? & ?)]]; done].
  cbn [mbind option_bind fmap option_fmap option_map]. intros [H|[H|(e & c & H)]].
  - case_bool_decide; [|done]. injection H as H. by eapply Hl.
  - injection H as H1 H2. by eapply Hl.
  - case_bool_decide; [|done]. injection H as H _ _. by eapply Hl.
Qed.

(** The store is bounded and a body knows when to end: in every reachable state there are at most the configured number of leases (one when it is zero), and the signal of every playback ever handed out is still open exactly when a lease in the map owns it, which is then the only one; so a revocation, an expiry, an eviction or a dropped guard always reaches the bodies of its lease and never those of another. *)
Theorem lease_signals_exact (ttl : N) (capacity : nat) (ops : list LeaseOp) :
  let s := lease_run (store_new ttl capacity) ops in
  size (leases s) ≤ Nat.max 1 capacity ∧
  (∀ c, (c < next_channel s)%N → (channels s !! c = Some Open ↔ ∃ token l, leases s !! token = Some l ∧ cancel l = c)) ∧
  ∀ t1 l1 t2 l2, leases s !! t1 = Some l1 → leases s !! t2 = Some l2 → cancel l1 = cancel l2 → t1 = t2.
Proof.
  cbv zeta. destruct (run_refines ttl capacity ops) as ([I1 I2 I3 I4 I5] & _ & _). split_and!; [|split|done].
  - assert (E : ∀ s, Leases.capacity (lease_run s ops) = Leases.capacity s).
    { clear. induction ops as [|op ops IH]; intros s; [done|]. cbn [lease_run foldl]. rewrite <- (lease_op_capacity s op). apply IH. }
    rewrite E in I1. exact I1.
  - apply I4.
  - intros (token & l & Hl & <-). by apply (I2 token l).
Qed.

(** C25: A pinned HLS session does not outlive its lease: in every reachable state, once the reaper has been given its turns at a time, no HLS lease whose deadline is at or before that time is left, and every lease whose deadline is later is still there. The reaper is never asleep past the deadline of an HLS lease without a wake-up waiting for it. *)
Theorem hls_leases_reaped (ttl : N) (capacity : nat) (ops : list LeaseOp) (now : N) :
  let s := lease_run (store_new ttl capacity) ops in
  let s' := lease_run s [ReaperTurn false now; ReaperTurn false now; ReaperTurn false now; ReaperTurn true now] in
  (∀ token l, leases s' !! token = Some l → pinned l = true → (now < expires_at l)%N) ∧
  ∀ token l, leases s !! token = Some l → (now < expires_at l)%N → leases s' !! token = Some l.
Proof.
  cbv zeta. destruct (run_refines ttl capacity ops) as (I & H & _). set (s := lease_run _ ops) in *. split.
  - by apply reaper_settles.
  - intros token l Hl Hn. by apply (turns_keep [false; false; false; true]).
Qed.

(** Two grants into a store of one lease, a check, and the reaper after the deadline. *)
Definition sample_ops : list LeaseOp :=
  [Mint (bs "t1") (bs "p1") (bs "k1") 10 0; MintHls (bs "t2") (bs "p2") (bs "k2") 20 7 0; Validate (bs "p1") (bs "t1") 21].

Lemma leases_refine_ledger_witness :
  (validate_at (bs "p2") (bs "t2") 30 (lease_run (store_new 100 1) sample_ops)).1 = Some (bs "k2") ∧
  ∃ e, ledger 100 sample_ops !! bs "t2" = Some (bs "p2", bs "k2", e) ∧ (30 < e)%N.
Proof.
  assert (H : (validate_at (bs "p2") (bs "t2") 30 (lease_run (store_new 100 1) sample_ops)).1 = Some (bs "k2")) by (vm_compute; reflexivity).
  split; [exact H|]. apply (leases_refine_ledger 100 1 sample_ops (bs "t2") (bs "p2") (bs "k2") 30). left. exact H.
Defined.

Lemma hls_leases_reaped_witness :
  let s := lease_run (store_new 100 1) sample_ops in
  is_Some (leases s !! bs "t2") ∧
  ∀ token l, leases (lease_run s [ReaperTurn false 120; ReaperTurn false 120; ReaperTurn false 120; ReaperTurn true 120]) !! token = Some l →
    pinned l = true → (120 < expires_at l)%N.
Proof.
  split; [vm_compute; eexists; reflexivity|]. exact (proj1 (hls_leases_reaped 100 1 sample_ops 120)).
Defined.

Lemma lease_signals_exact_witness :
  channels (lease_run (store_new 100 1) sample_ops) !! 0%N = Some Revoked ∧
  size (leases (lease_run (store_new 100 1) sample_ops)) ≤ 1.
Proof. split; [vm_compute; reflexivity|]. exact (proj1 (lease_signals_exact 100 1 sample_ops)). Defined.
