(* ===== verification/RtmpTs.v ===== *)
(** * RTMP to transport stream

    [ace-engine/src/rtmp_ts.rs]: the remuxer of the RTMP ingest, which turns H.264 and AAC frames into
    transport packets.  The types and helpers of the [rtmp-rs] crate (the decoder configurations, the
    iteration over length-prefixed NAL units, the ADTS header) are parameters; [&mut Vec<u8>] arguments are
    returned.  The RTMP server around it is not modelled. *)

From S2P Require Import Prelude Order Bytes MpegTs TsTables TsGate Audio.

Definition PAT_PID : N := 0x0000.
Definition PMT_PID : N := 0x1000.
Definition VIDEO_PID : N := 0x0100.
Definition AUDIO_PID : N := 0x0101.
Definition VIDEO_STREAM_ID : N := 0xe0.
Definition AUDIO_STREAM_ID : N := 0xc0.

(** ** Sections, PES and packets *)

Definition push_annex_b_nalu (out nalu : bytes) : bytes := out ++ [x00; x00; x00; x01] ++ nalu.

Definition pts90 (ms : N) : N := (ms * 90)%N.

Definition write_ts_timestamp (out : bytes) (prefix ts : N) : bytes :=
  let ts := N.land ts 0x1ffffffff in
  out ++ [N_byte (N.lor (N.lor (N.shiftl prefix 4) (N.shiftl (N.land (byte_N (N_byte (N.shiftr ts 30))) 0x07) 1)) 1);
          N_byte (N.shiftr ts 22);
          N_byte (N.lor (N.shiftl (N.land (byte_N (N_byte (N.shiftr ts 15))) 0x7f) 1) 1);
          N_byte (N.shiftr ts 7);
          N_byte (N.lor (N.shiftl (N.land (byte_N (N_byte ts)) 0x7f) 1) 1)].

Definition pes_packet (stream_id dts : N) (pts : option N) (payload : bytes) : bytes :=
  let out := [x00; x00; x01; N_byte stream_id] ++ [x00; x00] ++ [x80] in
  let out :=
    match pts with
    | Some pts =>
        if negb (pts =? dts)%N then
          write_ts_timestamp (write_ts_timestamp (out ++ [xc0] ++ [x0a]) 0x03 pts) 0x01 dts
        else write_ts_timestamp (out ++ [x80] ++ [x05]) 0x02 pts
    | None => write_ts_timestamp (out ++ [x80] ++ [x05]) 0x02 dts
    end in
  out ++ payload.

(** One packet of [write_ts_payload]: stuffing goes into an adaptation field in front of the payload. *)
Definition ts_packet (pid cc : N) (payload_start : bool) (chunk : bytes) : bytes :=
  let remaining_space := 184 - length chunk in
  let adaptation := bool_decide (0 < remaining_space) in
  [x47; N_byte (N.lor (N.shiftl (if payload_start then 1 else 0) 6) (N.land (byte_N (N_byte (N.shiftr pid 8))) 0x1f));
   N_byte pid; N_byte (N.lor (if adaptation then 0x30 else 0x10) (N.land cc 0x0f))]
  ++ (if adaptation then
        N_byte (N.of_nat (remaining_space - 1)) ::
        (if bool_decide (1 < remaining_space) then x00 :: replicate (remaining_space - 2) xff else [])
      else [])
  ++ chunk.

(** [while !rest.is_empty()]: every turn takes one to 184 bytes; the fuel is the payload's length. *)
Fixpoint write_ts_loop (fuel : nat) (out : bytes) (pid cc : N) (first start : bool) (rest : bytes) : bytes * N :=
  match fuel with
  | 0 => (out, cc)
  | S fuel =>
      if bool_decide (rest = []) then (out, cc)
      else
        let n := length rest `min` 184 in
        write_ts_loop fuel (out ++ ts_packet pid cc (first && start) (take n rest)) pid
          (N.land (cc + 1) 0x0f) false start (drop n rest)
  end.

Definition write_ts_payload (out : bytes) (pid cc : N) (start : bool) (payload : bytes) : bytes * N :=
  write_ts_loop (length payload) out pid cc true start payload.

Definition with_crc (section : bytes) : bytes := section ++ u32_be (mpeg_crc32 (drop 1 section)).

Definition pat_section : bytes :=
  with_crc [x00; x00; xb0; x0d; x00; x01; xc1; x00; x00; x00; x01;
            N_byte (N.lor 0xf0 (N.land (byte_N (N_byte (N.shiftr PMT_PID 8))) 0x1f)); N_byte PMT_PID].

Definition pmt_section : bytes :=
  let section_len := (9 + 5 + 5 + 4)%N in
  with_crc [x00; x02; N_byte (N.lor 0xb0 (N.land (byte_N (N_byte (N.shiftr section_len 8))) 0x0f)); N_byte section_len;
            x00; x01; xc1; x00; x00;
            N_byte (N.lor 0xe0 (N.land (byte_N (N_byte (N.shiftr VIDEO_PID 8))) 0x1f)); N_byte VIDEO_PID; xf0; x00;
            x1b; N_byte (N.lor 0xe0 (N.land (byte_N (N_byte (N.shiftr VIDEO_PID 8))) 0x1f)); N_byte VIDEO_PID; xf0; x00;
            x0f; N_byte (N.lor 0xe0 (N.land (byte_N (N_byte (N.shiftr AUDIO_PID 8))) 0x1f)); N_byte AUDIO_PID; xf0; x00].

(** ** The muxer *)

Section muxer.
(** [AvcConfig] with its parameter sets and the NAL units of a frame under its length size, and
    [AudioSpecificConfig] with the ADTS header of a frame of some length. *)
Context {AvcConfig AudioConfig : Type} (sps pps : AvcConfig → list bytes) (nalu_iterator : AvcConfig → bytes → list bytes)
  (generate_adts_header : AudioConfig → nat → bytes).

Inductive H264Data : Type :=
  | VideoHeader (config : AvcConfig)
  | VideoFrame (keyframe : bool) (composition_time : Z) (nalus : bytes)
  | EndOfSequence.

Inductive AacData : Type :=
  | AudioHeader (config : AudioConfig)
  | AudioFrame (data : bytes).

Record RtmpTsMuxer : Type := mkMuxer {
  video_config : option AvcConfig;
  audio_config : option AudioConfig;
  pat_cc : N;
  pmt_cc : N;
  video_cc : N;
  audio_cc : N;
  wrote_tables : bool;
}.

Definition muxer_new : RtmpTsMuxer := mkMuxer None None 0 0 0 0 false.

Definition write_tables (m : RtmpTsMuxer) (out : bytes) : bytes * RtmpTsMuxer :=
  let '(out, pat) := write_ts_payload out PAT_PID (pat_cc m) true pat_section in
  let '(out, pmt) := write_ts_payload out PMT_PID (pmt_cc m) true pmt_section in
  (out, mkMuxer (video_config m) (audio_config m) pat pmt (video_cc m) (audio_cc m) (wrote_tables m)).

Definition packetize_pes (m : RtmpTsMuxer) (pid stream_id dts : N) (pts : option N) (payload : bytes)
    : bytes * RtmpTsMuxer :=
  let '(out, m) :=
    if negb (wrote_tables m) then
      let '(out, m) := write_tables m [] in
      (out, mkMuxer (video_config m) (audio_config m) (pat_cc m) (pmt_cc m) (video_cc m) (audio_cc m) true)
    else ([], m) in
  let pes := pes_packet stream_id dts pts payload in
  if (pid =? VIDEO_PID)%N then
    let '(out, cc) := write_ts_payload out pid (video_cc m) true pes in
    (out, mkMuxer (video_config m) (audio_config m) (pat_cc m) (pmt_cc m) cc (audio_cc m) (wrote_tables m))
  else
    let '(out, cc) := write_ts_payload out pid (audio_cc m) true pes in
    (out, mkMuxer (video_config m) (audio_config m) (pat_cc m) (pmt_cc m) (video_cc m) cc (wrote_tables m)).

(** The access unit: a delimiter, the parameter sets of a keyframe, the NAL units. *)
Definition access_unit (config : AvcConfig) (keyframe : bool) (nalus : bytes) : bytes :=
  let out := [x00; x00; x00; x01; x09; xf0] in
  let out := if keyframe then foldl push_annex_b_nalu (foldl push_annex_b_nalu out (sps config)) (pps config) else out in
  foldl push_annex_b_nalu out (nalu_iterator config nalus).

(** [timestamp_ms.saturating_add(composition_time.max(0) as u32)] *)
Definition presentation_ms (timestamp_ms : N) (composition_time : Z) : N :=
  N.min (timestamp_ms + Z.to_N composition_time) 4294967295.

Definition push_video (m : RtmpTsMuxer) (frame : H264Data) (timestamp_ms : N) : bytes * RtmpTsMuxer :=
  match frame with
  | VideoHeader config =>
      ([], mkMuxer (Some config) (audio_config m) (pat_cc m) (pmt_cc m) (video_cc m) (audio_cc m) (wrote_tables m))
  | VideoFrame keyframe composition_time nalus =>
      match video_config m with
      | None => ([], m)
      | Some config =>
          packetize_pes m VIDEO_PID VIDEO_STREAM_ID (pts90 timestamp_ms)
            (Some (pts90 (presentation_ms timestamp_ms composition_time))) (access_unit config keyframe nalus)
      end
  | EndOfSequence => ([], m)
  end.

Definition push_audio (m : RtmpTsMuxer) (frame : AacData) (timestamp_ms : N) : bytes * RtmpTsMuxer :=
  match frame with
  | AudioHeader config =>
      ([], mkMuxer (video_config m) (Some config) (pat_cc m) (pmt_cc m) (video_cc m) (audio_cc m) (wrote_tables m))
  | AudioFrame data =>
      match audio_config m with
      | None => ([], m)
      | Some config =>
          packetize_pes m AUDIO_PID AUDIO_STREAM_ID (pts90 timestamp_ms) None
            (generate_adts_header config (length data) ++ data)
      end
  end.

(** The calls of a publisher, in order. *)
Inductive Push : Type := PushVideo (f : H264Data) (ms : N) | PushAudio (f : AacData) (ms : N).

Definition mux_step (m : RtmpTsMuxer) (p : Push) : bytes * RtmpTsMuxer :=
  match p with PushVideo f ms => push_video m f ms | PushAudio f ms => push_audio m f ms end.

Fixpoint mux_run (m : RtmpTsMuxer) (ps : list Push) : bytes * RtmpTsMuxer :=
  match ps with
  | [] => ([], m)
  | p :: ps => let '(out, m) := mux_step m p in let '(out', m) := mux_run m ps in (out ++ out', m)
  end.

(** ** Specification: what a demultiplexer should find *)

(** The frames of a track that have a configuration: their time stamps and their data. *)
Fixpoint video_frames (config : option AvcConfig) (ps : list Push) : list (N * N * bytes) :=
  match ps with
  | [] => []
  | PushVideo (VideoHeader c) _ :: ps => video_frames (Some c) ps
  | PushVideo (VideoFrame k ct n) ms :: ps =>
      match config with
      | Some c => (pts90 ms, pts90 (presentation_ms ms ct), access_unit c k n) :: video_frames config ps
      | None => video_frames config ps
      end
  | _ :: ps => video_frames config ps
  end.

Fixpoint audio_frames (config : option AudioConfig) (ps : list Push) : list (N * bytes) :=
  match ps with
  | [] => []
  | PushAudio (AudioHeader c) _ :: ps => audio_frames (Some c) ps
  | PushAudio (AudioFrame d) ms :: ps =>
      match config with
      | Some c => (pts90 ms, generate_adts_header c (length d) ++ d) :: audio_frames config ps
      | None => audio_frames config ps
      end
  | _ :: ps => audio_frames config ps
  end.
End muxer.

(** The payload of a packet by the receiver's own header reader. *)
Definition ts_payload (p : bytes) : bytes := match ts_payload_offset p with Some off => drop off p | None => [] end.

Definition counter (p : bytes) : N := N.land (byte_at p 3) 0x0f.

(** The packets of a PID, and their payload units: a start flag opens a unit, the rest continues it. *)
Definition track (pid : N) (pkts : list bytes) : list bytes := List.filter (λ p, ts_pid p =? pid)%N pkts.

Fixpoint units (cur : option bytes) (pkts : list bytes) : list bytes :=
  match pkts with
  | [] => option_list cur
  | p :: pkts =>
      if ts_pusi p then option_list cur ++ units (Some (ts_payload p)) pkts
      else units ((λ c, c ++ ts_payload p) <$> cur) pkts
  end.

(** The 33 bits of a PES time stamp. *)
Definition read_timestamp (l : bytes) : N :=
  ((byte_at l 0 / 2) `mod` 8 * 2 ^ 30 + byte_at l 1 * 2 ^ 22 + byte_at l 2 / 2 * 2 ^ 15 + byte_at l 3 * 2 ^ 7 + byte_at l 4 / 2)%N.

(** ** Packets *)

Definition our_pid (pid : N) : Prop := pid = PAT_PID ∨ pid = PMT_PID ∨ pid = VIDEO_PID ∨ pid = AUDIO_PID.

Lemma header_ok pid cc (start ad : bool) : our_pid pid → (cc < 16)%N → ∃ b1 b2 b3,
  N_byte (N.lor (N.shiftl (if start then 1 else 0) 6) (N.land (byte_N (N_byte (N.shiftr pid 8))) 0x1f)) = b1
  ∧ N_byte pid = b2 ∧ N_byte (N.lor (if ad then 0x30 else 0x10) (N.land cc 0x0f)) = b3
  ∧ N.lor (N.shiftl (N.land (byte_N b1) 0x1F) 8) (byte_N b2) = pid ∧ flag (byte_N b1) 0x40 = start
  ∧ N.land (byte_N b3) 0x0f = cc ∧ N.land (N.shiftr (byte_N b3) 4) 0x03 = (if ad then 3 else 1)%N
  ∧ N.land (byte_N b3) 0x20 = (if ad then 0x20 else 0)%N.
Proof.
  intros Hp Hc. do 3 eexists. split_and!; [reflexivity..| | | | |];
    destruct Hp as [-> | [-> | [-> | ->]]]; destruct start, ad; try reflexivity;
    destruct cc as [|p]; try reflexivity; do 4 (destruct p as [p|p|]; try reflexivity); lia.
Qed.

(** A packet as the receiver's readers see it. *)
Record packet_of (pid cc : N) (start : bool) (chunk p : bytes) : Prop := {
  po_length : is_packet p;
  po_sync : nth 0 p x00 = TS_SYNC;
  po_pid : ts_pid p = pid;
  po_pusi : ts_pusi p = start;
  po_counter : counter p = cc;
  po_payload : ts_payload p = chunk;
  po_clock : pcr (ts_timing p) = None;
}.

Lemma ts_packet_of pid cc start chunk : our_pid pid → (cc < 16)%N → 0 < length chunk ≤ 184 →
  packet_of pid cc start chunk (ts_packet pid cc start chunk).
Proof.
  intros Hp Hc Hl. unfold ts_packet. cbv zeta. remember (184 - length chunk) as r eqn:Er.
  destruct (header_ok pid cc start (bool_decide (0 < r)) Hp Hc) as (b1 & b2 & b3 & -> & -> & -> & H1 & H2 & H3 & H4 & H5).
  destruct r as [|[|r']].
  - rewrite bool_decide_false in * by lia. cbn [app] in *.
    split; [unfold is_packet, TS_PACKET_LEN; cbn; lia|reflexivity|exact H1|exact H2|exact H3| |].
    + unfold ts_payload, ts_payload_offset, byte_at. cbn [nth]. rewrite H4. reflexivity.
    + unfold ts_timing, byte_at. cbn [nth]. rewrite H5. reflexivity.
  - rewrite (bool_decide_true (0 < 1)) in * by lia. rewrite bool_decide_false by lia. cbn [app] in *.
    split; [unfold is_packet, TS_PACKET_LEN; cbn; lia|reflexivity|exact H1|exact H2|exact H3| |].
    + unfold ts_payload, ts_payload_offset, byte_at. cbn [nth]. rewrite H4. reflexivity.
    + unfold ts_timing, byte_at. cbn [nth]. rewrite H5. reflexivity.
  - rewrite (bool_decide_true (0 < _)) in * by lia. rewrite bool_decide_true by lia. cbn [app] in *.
    replace (S (S r') - 1) with (S r') by lia. replace (S (S r') - 2) with r' by lia.
    assert (byte_N (N_byte (N.of_nat (S r'))) = N.of_nat (S r')) as Hb by (apply byte_N_of_N; lia).
    split; [unfold is_packet, TS_PACKET_LEN; cbn; rewrite length_app, length_replicate; lia|reflexivity|exact H1|exact H2|exact H3| |].
    + unfold ts_payload, ts_payload_offset. unfold byte_at. cbn [nth]. rewrite H4. cbn [N.eqb Pos.eqb]. rewrite Hb, Nat2N.id.
      cbn [mbind option_bind]. rewrite bool_decide_true by (unfold TS_PACKET_LEN; lia). cbn [drop Nat.add].
      apply drop_app_length'. by rewrite length_replicate.
    + unfold ts_timing, byte_at. cbn [nth]. rewrite H5. cbn [negb orb]. destruct (_ || _); [done|].
      destruct (_ || _); [done|]. cbn. done.
Qed.

(** The packets of one payload. *)
Fixpoint payload_packets (fuel : nat) (pid cc : N) (start : bool) (rest : bytes) : list bytes :=
  match fuel with
  | 0 => []
  | S fuel =>
      if bool_decide (rest = []) then []
      else
        let n := length rest `min` 184 in
        ts_packet pid cc start (take n rest) :: payload_packets fuel pid (N.land (cc + 1) 0x0f) false (drop n rest)
  end.

(** The counters of consecutive packets. *)
Definition counters_from (cc : N) (pkts : list bytes) : Prop :=
  ∀ i p, pkts !! i = Some p → counter p = ((cc + N.of_nat i) `mod` 16)%N.

Lemma write_ts_loop_packets fuel : ∀ out pid cc first start rest, (cc < 16)%N →
  write_ts_loop fuel out pid cc first start rest =
  (out ++ concat (payload_packets fuel pid cc (first && start) rest),
   (cc + lenN (payload_packets fuel pid cc (first && start) rest)) `mod` 16)%N.
Proof.
  induction fuel as [|fuel IH]; intros out pid cc first start rest Hc; cbn [write_ts_loop payload_packets].
  { rewrite app_nil_r. f_equal. cbn. rewrite N.add_0_r. by rewrite N.mod_small. }
  case_bool_decide; [rewrite app_nil_r; f_equal; cbn; rewrite N.add_0_r; by rewrite N.mod_small|]. cbv zeta.
  rewrite land_15. rewrite IH by (apply N.mod_lt; done). cbn [concat andb]. rewrite <-app_assoc. f_equal.
  unfold lenN. cbn [length]. rewrite N.Div0.add_mod_idemp_l. f_equal. lia.
Qed.

Lemma payload_packets_spec fuel : ∀ pid cc start rest, our_pid pid → (cc < 16)%N → length rest ≤ fuel →
  let ps := payload_packets fuel pid cc start rest in
  Forall (λ p, ∃ c s chunk, packet_of pid c s chunk p) ps ∧ counters_from cc ps
  ∧ (∀ cur, units (Some cur) (payload_packets fuel pid cc false rest) = [cur ++ rest])
  ∧ (rest ≠ [] → start = true → ∃ p ps', ps = p :: ps' ∧ ts_pusi p = true ∧ units None ps = [rest]).
Proof.
  induction fuel as [|fuel IH]; intros pid cc start rest Hp Hc Hl; cbv zeta; cbn [payload_packets].
  { assert (rest = []) as -> by (destruct rest; [done|cbn in Hl; lia]). split_and!; [constructor|by intros [] ?|intros; cbn; by rewrite app_nil_r|done]. }
  case_bool_decide as Hr. { subst. split_and!; [constructor|by intros [] ?|intros; cbn; by rewrite app_nil_r|done]. }
  cbv zeta. remember (length rest `min` 184) as n eqn:En.
  assert (0 < length rest) as Hpos by (destruct rest; [done|cbn; lia]).
  assert (0 < length (take n rest) ≤ 184) as Hn by (rewrite length_take; lia). rewrite land_15.
  pose proof (ts_packet_of pid cc start (take n rest) Hp Hc Hn) as P.
  pose proof (ts_packet_of pid cc false (take n rest) Hp Hc Hn) as Q.
  destruct (IH pid ((cc + 1) `mod` 16)%N false (drop n rest)) as (I1 & I2 & I3 & _);
    [done|by apply N.mod_lt|rewrite length_drop; lia|]. cbv zeta in *.
  split_and!.
  - constructor; [by eauto|done].
  - intros [|i] p Hi; rewrite lookup_cons in Hi.
    + injection Hi as <-. rewrite (po_counter _ _ _ _ _ P), N.add_0_r. by rewrite N.mod_small.
    + rewrite (I2 i p Hi), N.Div0.add_mod_idemp_l. f_equal. lia.
  - intros cur. cbn [units]. rewrite (po_pusi _ _ _ _ _ Q), (po_payload _ _ _ _ _ Q). cbn [fmap option_fmap option_map].
    rewrite I3, <-app_assoc. by rewrite take_drop.
  - intros _ ->. do 2 eexists. split; [reflexivity|]. split; [apply P|]. cbn [units].
    rewrite (po_pusi _ _ _ _ _ P), (po_payload _ _ _ _ _ P). cbn [option_list app]. by rewrite I3, take_drop.
Qed.

Lemma units_app A : ∀ cur p B, ts_pusi p = true → units cur (A ++ p :: B) = units cur A ++ units None (p :: B).
Proof.
  induction A as [|a A IH]; intros cur p B Hp; cbn [app units].
  - rewrite Hp. done.
  - destruct (ts_pusi a); [rewrite IH by done; by rewrite app_assoc|]. by apply IH.
Qed.

(** ** Time stamps and PES headers *)

Definition stamp_bytes (prefix ts : N) : bytes := write_ts_timestamp [] prefix ts.

Lemma write_ts_timestamp_app out prefix ts : write_ts_timestamp out prefix ts = out ++ stamp_bytes prefix ts.
Proof. reflexivity. Qed.

Lemma lor_double x : N.lor (N.shiftl x 1) 1 = (2 * x + 1)%N.
Proof. by destruct x as [|[]]. Qed.

Lemma low_bits x k : (k ≤ 8)%N → N.land (byte_N (N_byte x)) (N.ones k) = (x `mod` 2 ^ k)%N.
Proof.
  intros Hk. rewrite N.land_ones, N_byte_mod. change 256%N with (2 ^ 8)%N.
  replace (2 ^ 8)%N with (2 ^ k * 2 ^ (8 - k))%N by (rewrite <-N.pow_add_r; f_equal; lia).
  rewrite N.Div0.mod_mul_r, N.mul_comm, N.Div0.mod_add by (apply N.pow_nonzero; lia). by rewrite N.Div0.mod_mod.
Qed.

Lemma stamp_values prefix ts : (1 ≤ prefix ≤ 3)%N → let t := (ts `mod` 2 ^ 33)%N in
  map byte_N (stamp_bytes prefix ts) = [16 * prefix + 2 * (t / 2 ^ 30) + 1; (t / 2 ^ 22) `mod` 256; 2 * ((t / 2 ^ 15) `mod` 128) + 1;
    (t / 2 ^ 7) `mod` 256; 2 * (t `mod` 128) + 1]%N.
Proof.
  intros Hp t. unfold stamp_bytes, write_ts_timestamp. change 0x1ffffffff%N with (N.ones 33). rewrite N.land_ones. fold t.
  cbn [map app]. change 0x07%N with (N.ones 3). change 0x7f%N with (N.ones 7). rewrite !low_bits by lia.
  rewrite !N.shiftr_div_pow2, !lor_double. change (2 ^ 7)%N with 128%N. change (2 ^ 3)%N with 8%N.
  assert (t < 2 ^ 33)%N as Ht by (apply N.mod_lt; done).
  assert (t / 2 ^ 30 < 8)%N as H8 by (apply N.Div0.div_lt_upper_bound; exact Ht).
  rewrite (N.mod_small (t / 2 ^ 30) 8) by done. rewrite !N_byte_mod.
  rewrite (N.mod_small (2 * ((t / 2 ^ 15) `mod` 128) + 1)) by (pose proof (N.mod_lt (t / 2 ^ 15) 128); lia).
  rewrite (N.mod_small (2 * (t `mod` 128) + 1)) by (pose proof (N.mod_lt t 128); lia). f_equal.
  generalize dependent (t / 2 ^ 30)%N. intros x Hx. clear -Hp Hx.
  assert (prefix = 1 ∨ prefix = 2 ∨ prefix = 3)%N as [-> | [-> | ->]] by lia;
    destruct x as [|p]; try reflexivity; do 3 (destruct p as [p|p|]; try reflexivity); lia.
Qed.

Lemma byte_at_map l i : byte_at l i = nth i (map byte_N l) 0%N.
Proof. unfold byte_at. change 0%N with (byte_N x00). by rewrite map_nth. Qed.

Lemma stamp_read prefix ts : (1 ≤ prefix ≤ 3)%N →
  length (stamp_bytes prefix ts) = 5 ∧ read_timestamp (stamp_bytes prefix ts) = (ts `mod` 2 ^ 33)%N
  ∧ timestamp (stamp_bytes prefix ts) prefix = true.
Proof.
  intros Hp. pose proof (stamp_values prefix ts Hp) as Hv. cbv zeta in Hv. set (t := (ts `mod` 2 ^ 33)%N) in *.
  assert (t < 2 ^ 33)%N as Ht by (apply N.mod_lt; done). split; [done|].
  unfold read_timestamp, timestamp. rewrite !byte_at_map, Hv. cbn [nth].
  assert (t / 2 ^ 30 < 8)%N as H8 by (apply N.Div0.div_lt_upper_bound; exact Ht). split.
  - replace (16 * prefix + 2 * (t / 2 ^ 30) + 1)%N with (1 + (8 * prefix + t / 2 ^ 30) * 2)%N by lia.
    rewrite N.div_add by done. change (1 / 2)%N with 0%N. rewrite N.add_0_l.
    replace (8 * prefix + t / 2 ^ 30)%N with (t / 2 ^ 30 + prefix * 8)%N by lia.
    rewrite N.Div0.mod_add, (N.mod_small (t / 2 ^ 30)) by done.
    assert (∀ x, (2 * x + 1) / 2 = x)%N as Hh by (intros x; symmetry; apply (N.div_unique _ _ _ 1); lia). rewrite !Hh.
    assert (∀ a b c, b ≠ 0 → c ≠ 0 → (a / b) `mod` c * b + a `mod` b = a `mod` (b * c))%N as Hs.
    { intros a b c Hb Hc. rewrite N.Div0.mod_mul_r by done. lia. }
    pose proof (Hs t (2 ^ 7) (2 ^ 8) ltac:(done) ltac:(done))%N as E1. pose proof (Hs t (2 ^ 15) (2 ^ 7) ltac:(done) ltac:(done))%N as E2.
    pose proof (Hs t (2 ^ 22) (2 ^ 8) ltac:(done) ltac:(done))%N as E3. pose proof (N.div_mod t (2 ^ 30) ltac:(done)) as E4.
    change (2 ^ 7 * 2 ^ 8)%N with (2 ^ 15)%N in E1. change (2 ^ 15 * 2 ^ 7)%N with (2 ^ 22)%N in E2.
    change (2 ^ 22 * 2 ^ 8)%N with (2 ^ 30)%N in E3. change 256%N with (2 ^ 8)%N. change 128%N with (2 ^ 7)%N. lia.
  - rewrite N.shiftr_div_pow2. unfold flag. change 1%N with (N.ones 1) at 3 5 7. rewrite !N.land_ones. change (2 ^ 1)%N with 2%N.
    assert (∀ x, (2 * x + 1) `mod` 2 = 1)%N as Hh by (intros x; symmetry; apply (N.mod_unique _ _ x); lia). rewrite !Hh.
    replace (16 * prefix + 2 * (t / 2 ^ 30) + 1)%N with (2 * (8 * prefix + t / 2 ^ 30) + 1)%N by lia. rewrite Hh.
    assert ((2 * (8 * prefix + t / 2 ^ 30) + 1) / 2 ^ 4 = prefix)%N as ->
      by (symmetry; apply (N.div_unique _ _ _ (2 * (t / 2 ^ 30) + 1)); lia). by rewrite N.eqb_refl.
Qed.

(** The presentation and decoding times of a PES packet. *)
Definition pes_times (u : bytes) : N * N :=
  if (byte_at u 7 =? 0xc0)%N then (read_timestamp (slice u 9 14), read_timestamp (slice u 14 19))
  else (read_timestamp (slice u 9 14), read_timestamp (slice u 9 14)).

Lemma five (l : bytes) : length l = 5 → ∃ a b c d e, l = [a; b; c; d; e].
Proof. destruct l as [|a [|b [|c [|d [|e [|]]]]]]; try done. intros _. by do 5 eexists. Qed.

Lemma one_stamp_valid l : length l = 5 → timestamp l 2 = true → mpeg2_pes_optional_header_valid 0x80 l = true.
Proof.
  intros Hl Ht. assert (opt_field true 5 (λ f, timestamp f 2) l = Some []) as H5.
  { unfold opt_field, take_field. rewrite bool_decide_true, take_ge, drop_ge by lia. cbn [mbind option_bind]. by rewrite Ht. }
  unfold mpeg2_pes_optional_header_valid. cbv zeta. change (N.shiftr 0x80 6) with 2%N. cbn [N.eqb Pos.eqb]. rewrite H5. reflexivity.
Qed.

Lemma two_stamps_valid l1 l2 : length l1 = 5 → length l2 = 5 → timestamp l1 3 = true → timestamp l2 1 = true →
  mpeg2_pes_optional_header_valid 0xc0 (l1 ++ l2) = true.
Proof.
  intros H1 H2 T1 T2. assert (opt_field true 5 (λ f, timestamp f 3) (l1 ++ l2) = Some l2) as E1.
  { unfold opt_field, take_field. rewrite bool_decide_true by (rewrite length_app; lia).
    rewrite take_app_length', drop_app_length' by done. cbn [mbind option_bind]. by rewrite T1. }
  assert (opt_field true 5 (λ f, timestamp f 1) l2 = Some []) as E2.
  { unfold opt_field, take_field. rewrite bool_decide_true, take_ge, drop_ge by lia. cbn [mbind option_bind]. by rewrite T2. }
  unfold mpeg2_pes_optional_header_valid. cbv zeta. change (N.shiftr 0xc0 6) with 3%N. cbn [N.eqb Pos.eqb]. rewrite E1.
  cbn [mbind option_bind]. rewrite E2. reflexivity.
Qed.

Lemma video_pes_payload f nb hdr au : length hdr = N.to_nat (byte_N nb) →
  mpeg2_pes_optional_header_valid (byte_N f) hdr = true →
  video_pes_elementary_payload ([x00; x00; x01; N_byte VIDEO_STREAM_ID; x00; x00; x80; f; nb] ++ hdr ++ au) = Some au.
Proof.
  intros Hl Hv. unfold video_pes_elementary_payload. set (p := _ ++ hdr ++ au).
  assert (length p = 9 + length hdr + length au) as Hp by (unfold p; rewrite !length_app; cbn; lia).
  assert (byte_at p 3 = 0xe0%N) as -> by reflexivity. assert (byte_at p 6 = 0x80%N) as -> by reflexivity.
  assert (byte_at p 7 = byte_N f) as -> by reflexivity. assert (byte_at p 8 = byte_N nb) as -> by reflexivity.
  assert (slice p 4 6 = [x00; x00]) as -> by reflexivity. assert (take 3 p = map N_byte [0; 0; 1]%N) as -> by reflexivity.
  rewrite (bool_decide_false (length p < 9)) by lia.
  match goal with |- (if ?b then _ else _) = _ => assert (b = false) as -> by reflexivity end.
  cbv zeta. match goal with |- context [bool_decide (?x = 0)] => assert (bool_decide (x = 0) = true) as -> by reflexivity end.
  rewrite <-Hl, Hp.
  rewrite bool_decide_false by lia.
  assert (slice p 9 (9 + length hdr) = hdr) as ->.
  { unfold slice. replace (9 + length hdr - 9) with (length hdr) by lia. change (drop 9 p) with (hdr ++ au). by apply take_app_length'. }
  rewrite Hv. cbn [negb orb]. f_equal. unfold slice. rewrite <-drop_drop.
  change (drop 9 p) with (hdr ++ au). rewrite drop_app_length' by done. apply take_ge. lia.
Qed.

Lemma video_pes_read dts pts au :
  video_pes_elementary_payload (pes_packet VIDEO_STREAM_ID dts (Some pts) au) = Some au
  ∧ pes_times (pes_packet VIDEO_STREAM_ID dts (Some pts) au) = (pts `mod` 2 ^ 33, dts `mod` 2 ^ 33)%N.
Proof.
  destruct (stamp_read 3 pts) as (L3 & R3 & T3); [lia|]. destruct (stamp_read 1 dts) as (L1 & R1 & T1); [lia|].
  destruct (stamp_read 2 pts) as (L2 & R2 & T2); [lia|].
  unfold pes_packet. cbv zeta. destruct (N.eqb_spec pts dts) as [->|Hne]; cbn [negb]; rewrite !write_ts_timestamp_app.
  - split; [apply (video_pes_payload x80 x05); [exact L2|by apply one_stamp_valid]|]. rewrite <-R2.
    destruct (five _ L2) as (a & b & c & d & e & ->). reflexivity.
  - split.
    + rewrite <-!app_assoc. rewrite (app_assoc (stamp_bytes 3 pts)). apply (video_pes_payload xc0 x0a); [by rewrite length_app, L3, L1|].
      by apply two_stamps_valid.
    + rewrite <-R3, <-R1. destruct (five _ L3) as (a & b & c & d & e & ->).
      destruct (five _ L1) as (a' & b' & c' & d' & e' & ->). reflexivity.
Qed.

Lemma audio_pes_read dts data :
  drop 14 (pes_packet AUDIO_STREAM_ID dts None data) = data
  ∧ pes_times (pes_packet AUDIO_STREAM_ID dts None data) = (dts `mod` 2 ^ 33, dts `mod` 2 ^ 33)%N.
Proof.
  destruct (stamp_read 2 dts) as (L2 & R2 & T2); [lia|]. unfold pes_packet. cbv zeta. rewrite !write_ts_timestamp_app, <-R2.
  destruct (five _ L2) as (a & b & c & d & e & ->). split; reflexivity.
Qed.

(** ** Runs *)

Definition table_packets : list bytes := [ts_packet PAT_PID 0 true pat_section; ts_packet PMT_PID 0 true pmt_section].

Definition video_pes (f : N * N * bytes) : bytes := pes_packet VIDEO_STREAM_ID f.1.1 (Some f.1.2) f.2.
Definition audio_pes (f : N * bytes) : bytes := pes_packet AUDIO_STREAM_ID f.1 None f.2.

(** The packets that carry one PES packet. *)
Definition carrier (pid cc : N) (pes : bytes) : list bytes := payload_packets (length pes) pid cc true pes.

Lemma write_ts_payload_carrier out pid cc pes : (cc < 16)%N →
  write_ts_payload out pid cc true pes = (out ++ concat (carrier pid cc pes), (cc + lenN (carrier pid cc pes)) `mod` 16)%N.
Proof. intros Hc. unfold write_ts_payload. by rewrite write_ts_loop_packets. Qed.

(** A list of packets that continues no unit. *)
Definition opens (l : list bytes) : Prop := match l with [] => True | p :: _ => ts_pusi p = true end.

Lemma units_opens A B : opens B → units None (A ++ B) = units None A ++ units None B.
Proof. destruct B as [|p B]; [by rewrite !app_nil_r|]. apply units_app. Qed.

Lemma counters_app cc A B : counters_from cc A → counters_from ((cc + lenN A) `mod` 16)%N B → counters_from cc (A ++ B).
Proof.
  intros HA HB i p Hi. apply lookup_app_Some in Hi as [Hi|[Hl Hi]]; [by apply HA|]. rewrite (HB _ _ Hi).
  rewrite N.Div0.add_mod_idemp_l. f_equal. unfold lenN. lia.
Qed.

Lemma track_app pid A B : track pid (A ++ B) = track pid A ++ track pid B.
Proof. apply List.filter_app. Qed.

Lemma track_all pid l : Forall (λ p, ts_pid p = pid) l → track pid l = l.
Proof. induction 1 as [|p l Hp _ IH]; [done|]. unfold track in *. cbn [List.filter]. by rewrite Hp, N.eqb_refl, IH. Qed.

Lemma track_none pid l : Forall (λ p, ts_pid p ≠ pid) l → track pid l = [].
Proof. induction 1 as [|p l Hp _ IH]; [done|]. unfold track in *. cbn [List.filter]. by rewrite (proj2 (N.eqb_neq _ _) Hp), IH. Qed.

(** A well-formed packet of the muxer. *)
Definition muxed (p : bytes) : Prop := ∃ pid c s chunk, our_pid pid ∧ packet_of pid c s chunk p.

Lemma carrier_spec pid cc pes : our_pid pid → (cc < 16)%N → pes ≠ [] → let ps := carrier pid cc pes in
  Forall muxed ps ∧ Forall (λ p, ts_pid p = pid) ps ∧ counters_from cc ps ∧ opens ps ∧ units None ps = [pes].
Proof.
  intros Hp Hc Hne. cbv zeta. unfold carrier.
  destruct (payload_packets_spec (length pes) pid cc true pes Hp Hc) as (H1 & H2 & _ & H4); [done|]. cbv zeta in *.
  destruct (H4 Hne eq_refl) as (p & ps' & E & Hs & Hu). split_and!; [| |done|by rewrite E|done].
  - eapply Forall_impl; [exact H1|]. intros q (c & s & chunk & Hq). by exists pid, c, s, chunk.
  - eapply Forall_impl; [exact H1|]. intros q (c & s & chunk & Hq). apply Hq.
Qed.

Lemma table_packets_spec : Forall muxed table_packets ∧ Forall (λ p, ts_pid p ≠ VIDEO_PID) table_packets
  ∧ Forall (λ p, ts_pid p ≠ AUDIO_PID) table_packets
  ∧ carrier PAT_PID 0 pat_section ++ carrier PMT_PID 0 pmt_section = table_packets.
Proof.
  split_and!; [| | |vm_compute; reflexivity].
  - unfold muxed, our_pid. constructor; [|constructor; [|constructor]].
    + exists PAT_PID, 0%N, true, pat_section. split; [tauto|]. apply ts_packet_of; [unfold our_pid; tauto|lia|vm_compute; lia].
    + exists PMT_PID, 0%N, true, pmt_section. split; [tauto|]. apply ts_packet_of; [unfold our_pid; tauto|lia|vm_compute; lia].
  - repeat constructor; vm_compute; discriminate.
  - repeat constructor; vm_compute; discriminate.
Qed.

Section runs.
Context {AvcConfig AudioConfig : Type} (sps pps : AvcConfig → list bytes) (nalu_iterator : AvcConfig → bytes → list bytes)
  (generate_adts_header : AudioConfig → nat → bytes).
Implicit Types m : RtmpTsMuxer (AvcConfig := AvcConfig) (AudioConfig := AudioConfig).

Definition muxer_ok m : Prop :=
  (video_cc m < 16)%N ∧ (audio_cc m < 16)%N ∧ (wrote_tables m = false → pat_cc m = 0%N ∧ pmt_cc m = 0%N).

Definition tables_if_new m : list bytes := if wrote_tables m then [] else table_packets.

Lemma packetize_video m dts pts payload : muxer_ok m →
  let pes := pes_packet VIDEO_STREAM_ID dts pts payload in
  let ps := carrier VIDEO_PID (video_cc m) pes in
  ∃ m', packetize_pes m VIDEO_PID VIDEO_STREAM_ID dts pts payload = (concat (tables_if_new m ++ ps), m')
    ∧ muxer_ok m' ∧ wrote_tables m' = true ∧ video_config m' = video_config m ∧ audio_config m' = audio_config m
    ∧ video_cc m' = ((video_cc m + lenN ps) `mod` 16)%N ∧ audio_cc m' = audio_cc m.
Proof.
  intros (Hv & Ha & Hw). cbv zeta. unfold packetize_pes, write_tables, tables_if_new.
  destruct table_packets_spec as (_ & _ & _ & Ht).
  destruct (wrote_tables m) eqn:Ew; cbn [negb].
  - rewrite write_ts_payload_carrier by done. eexists. split; [reflexivity|]. split; [|split_and!; [exact Ew || reflexivity|reflexivity..]].
    split; [apply N.mod_lt; discriminate|]. split; [exact Ha|cbn [wrote_tables]; rewrite ?Ew; discriminate].
  - destruct (Hw eq_refl) as [-> ->]. rewrite !(write_ts_payload_carrier _ _ 0) by lia. rewrite <-Ht.
    eexists. split; [cbn [video_config audio_config wrote_tables video_cc]; rewrite N.eqb_refl, write_ts_payload_carrier by done; cbn [app];
      rewrite !concat_app; reflexivity|]. split; [|split_and!; [exact Ew || reflexivity|reflexivity..]].
    split; [apply N.mod_lt; discriminate|]. split; [exact Ha|cbn [wrote_tables]; rewrite ?Ew; discriminate].
Qed.

Lemma packetize_audio m dts pts payload : muxer_ok m →
  let pes := pes_packet AUDIO_STREAM_ID dts pts payload in
  let ps := carrier AUDIO_PID (audio_cc m) pes in
  ∃ m', packetize_pes m AUDIO_PID AUDIO_STREAM_ID dts pts payload = (concat (tables_if_new m ++ ps), m')
    ∧ muxer_ok m' ∧ wrote_tables m' = true ∧ video_config m' = video_config m ∧ audio_config m' = audio_config m
    ∧ audio_cc m' = ((audio_cc m + lenN ps) `mod` 16)%N ∧ video_cc m' = video_cc m.
Proof.
  intros (Hv & Ha & Hw). cbv zeta. unfold packetize_pes, write_tables, tables_if_new.
  destruct table_packets_spec as (_ & _ & _ & Ht). change (AUDIO_PID =? VIDEO_PID)%N with false. cbv iota.
  destruct (wrote_tables m) eqn:Ew; cbn [negb].
  - rewrite write_ts_payload_carrier by done. eexists. split; [reflexivity|]. split; [|split_and!; [exact Ew || reflexivity|reflexivity..]].
    split; [exact Hv|]. split; [apply N.mod_lt; discriminate|cbn [wrote_tables]; rewrite ?Ew; discriminate].
  - destruct (Hw eq_refl) as [-> ->]. rewrite !(write_ts_payload_carrier _ _ 0) by lia. rewrite <-Ht.
    eexists. split; [cbn [video_config audio_config wrote_tables audio_cc]; rewrite write_ts_payload_carrier by done; cbn [app];
      rewrite !concat_app; reflexivity|]. split; [|split_and!; [exact Ew || reflexivity|reflexivity..]].
    split; [exact Hv|]. split; [apply N.mod_lt; discriminate|cbn [wrote_tables]; rewrite ?Ew; discriminate].
Qed.

(** What a run from a muxer state has sent. *)
Record sent m (ps : list (Push (AvcConfig := AvcConfig) (AudioConfig := AudioConfig))) (pkts : list bytes) : Prop := {
  sent_muxed : Forall muxed pkts;
  sent_video : units None (track VIDEO_PID pkts) = map video_pes (video_frames sps pps nalu_iterator (video_config m) ps);
  sent_audio : units None (track AUDIO_PID pkts) = map audio_pes (audio_frames generate_adts_header (audio_config m) ps);
  sent_video_opens : opens (track VIDEO_PID pkts);
  sent_audio_opens : opens (track AUDIO_PID pkts);
  sent_video_cc : counters_from (video_cc m) (track VIDEO_PID pkts);
  sent_audio_cc : counters_from (audio_cc m) (track AUDIO_PID pkts);
  sent_tables : pkts = [] ∨ ∃ rest, pkts = tables_if_new m ++ rest ∧ Forall (λ p, ts_pid p = VIDEO_PID ∨ ts_pid p = AUDIO_PID) rest;
}.

(** A later part of a run sends packets of the two tracks only. *)
Lemma sent_later m ps pkts : wrote_tables m = true → sent m ps pkts →
  Forall (λ p, ts_pid p = VIDEO_PID ∨ ts_pid p = AUDIO_PID) pkts.
Proof.
  intros Hw S. destruct (sent_tables _ _ _ S) as [->|(rest & -> & H)]; [constructor|]. unfold tables_if_new. by rewrite Hw.
Qed.

Lemma tables_tracks m : track VIDEO_PID (tables_if_new m) = [] ∧ track AUDIO_PID (tables_if_new m) = []
  ∧ Forall muxed (tables_if_new m).
Proof.
  destruct table_packets_spec as (H1 & H2 & H3 & _). unfold tables_if_new.
  destruct (wrote_tables m); [done|]. split_and!; [by apply track_none..|done].
Qed.

Lemma carrier_tracks pid cc pes other : our_pid pid → (cc < 16)%N → pes ≠ [] → other ≠ pid →
  track pid (carrier pid cc pes) = carrier pid cc pes ∧ track other (carrier pid cc pes) = [].
Proof.
  intros Hp Hc Hne Ho. destruct (carrier_spec pid cc pes Hp Hc Hne) as (_ & H & _). split; [by apply track_all|].
  apply track_none. eapply Forall_impl; [exact H|]. intros p E E'. apply Ho. by rewrite <-E', <-E.
Qed.

Lemma pes_not_nil sid dts pts payload : pes_packet sid dts pts payload ≠ [].
Proof. unfold pes_packet. destruct pts as [pts|]; [destruct (negb _)|]; discriminate. Qed.

(** One PES packet in front of a run. *)
Lemma sent_step m m' ps ps' pkts pid cc pes : our_pid pid → (cc < 16)%N → pes ≠ [] → wrote_tables m' = true →
  sent m' ps pkts →
  let hd := carrier pid cc pes in
  (pid = VIDEO_PID ∧ cc = video_cc m ∧ video_cc m' = ((cc + lenN hd) `mod` 16)%N ∧ audio_cc m' = audio_cc m
   ∧ map video_pes (video_frames sps pps nalu_iterator (video_config m) ps') =
     pes :: map video_pes (video_frames sps pps nalu_iterator (video_config m') ps)
   ∧ audio_frames generate_adts_header (audio_config m) ps' = audio_frames generate_adts_header (audio_config m') ps
   ∨ pid = AUDIO_PID ∧ cc = audio_cc m ∧ audio_cc m' = ((cc + lenN hd) `mod` 16)%N ∧ video_cc m' = video_cc m
   ∧ map audio_pes (audio_frames generate_adts_header (audio_config m) ps') =
     pes :: map audio_pes (audio_frames generate_adts_header (audio_config m') ps)
   ∧ video_frames sps pps nalu_iterator (video_config m) ps' = video_frames sps pps nalu_iterator (video_config m') ps) →
  sent m ps' ((tables_if_new m ++ hd) ++ pkts).
Proof.
  intros Hp Hc Hne Hw S hd Hcase. destruct (tables_tracks m) as (T1 & T2 & T3).
  destruct (carrier_spec pid cc pes Hp Hc Hne) as (C1 & C2 & C3 & C4 & C5). fold hd in C1, C2, C3, C4, C5.
  pose proof (sent_later m' ps pkts Hw S) as Hlate. destruct S as [S1 S2 S3 S4 S5 S6 S7 _].
  assert (Forall (λ p, ts_pid p = VIDEO_PID ∨ ts_pid p = AUDIO_PID) (hd ++ pkts)) as Htab.
  { apply Forall_app. split; [|done]. eapply Forall_impl; [exact C2|]. intros p ->. destruct Hcase as [[-> _]|[-> _]]; auto. }
  assert (track VIDEO_PID ((tables_if_new m ++ hd) ++ pkts) = track VIDEO_PID hd ++ track VIDEO_PID pkts) as EV
    by (by rewrite !track_app, T1).
  assert (track AUDIO_PID ((tables_if_new m ++ hd) ++ pkts) = track AUDIO_PID hd ++ track AUDIO_PID pkts) as EA
    by (by rewrite !track_app, T2).
  destruct Hcase as [(-> & Ecc & Ev & Ea & Ef & Eg)|(-> & Ecc & Ev & Ea & Ef & Eg)].
  - destruct (carrier_tracks VIDEO_PID cc pes AUDIO_PID Hp Hc Hne) as [K1 K2]; [discriminate|]. fold hd in K1, K2.
    rewrite K1 in EV. rewrite K2 in EA. cbn [app] in EA. split; rewrite ?EV, ?EA.
    + rewrite !Forall_app. auto.
    + rewrite units_opens, C5, S2, Ef by done. done.
    + by rewrite S3, Eg.
    + destruct hd as [|p hd']; [exact S4|exact C4].
    + done.
    + rewrite <-Ecc. apply counters_app; [done|]. by rewrite <-Ev.
    + by rewrite <-Ea.
    + right. exists (hd ++ pkts). by rewrite app_assoc.
  - destruct (carrier_tracks AUDIO_PID cc pes VIDEO_PID Hp Hc Hne) as [K1 K2]; [discriminate|]. fold hd in K1, K2.
    rewrite K1 in EA. rewrite K2 in EV. cbn [app] in EV. split; rewrite ?EV, ?EA.
    + rewrite !Forall_app. auto.
    + by rewrite S2, Eg.
    + rewrite units_opens, C5, S3, Ef by done. done.
    + done.
    + destruct hd as [|p hd']; [exact S5|exact C4].
    + by rewrite <-Ea.
    + rewrite <-Ecc. apply counters_app; [done|]. by rewrite <-Ev.
    + right. exists (hd ++ pkts). by rewrite app_assoc.
Qed.

(** A call that sends nothing. *)
Lemma sent_quiet m m' ps ps' pkts : sent m' ps pkts → video_cc m' = video_cc m → audio_cc m' = audio_cc m →
  wrote_tables m' = wrote_tables m →
  video_frames sps pps nalu_iterator (video_config m) ps' = video_frames sps pps nalu_iterator (video_config m') ps →
  audio_frames generate_adts_header (audio_config m) ps' = audio_frames generate_adts_header (audio_config m') ps →
  sent m ps' pkts.
Proof.
  intros [S1 S2 S3 S4 S5 S6 S7 S8] E1 E2 E3 E4 E5. split; try done; rewrite ?E4, ?E5, <-?E1, <-?E2; try done.
  unfold tables_if_new in *. by rewrite <-E3.
Qed.

Lemma run_sent ps : ∀ m, muxer_ok m → ∃ pkts m', mux_run sps pps nalu_iterator generate_adts_header m ps = (concat pkts, m') ∧ sent m ps pkts.
Proof.
  induction ps as [|p ps IH]; intros m Hm.
  { exists [], m. split; [done|]. split; try done; by left. }
  assert (∀ m1, mux_step sps pps nalu_iterator generate_adts_header m p = ([], m1) → muxer_ok m1 → video_cc m1 = video_cc m →
    audio_cc m1 = audio_cc m → wrote_tables m1 = wrote_tables m →
    video_frames sps pps nalu_iterator (video_config m) (p :: ps) = video_frames sps pps nalu_iterator (video_config m1) ps →
    audio_frames generate_adts_header (audio_config m) (p :: ps) = audio_frames generate_adts_header (audio_config m1) ps →
    ∃ pkts m', mux_run sps pps nalu_iterator generate_adts_header m (p :: ps) = (concat pkts, m') ∧ sent m (p :: ps) pkts) as Hquiet.
  { intros m1 E Hm1 ?????. destruct (IH m1 Hm1) as (pkts & m' & Er & S). exists pkts, m'. cbn [mux_run]. rewrite E, Er.
    split; [done|]. by eapply sent_quiet. }
  destruct p as [[c|k ct n|] ms|[c|d] ms].
  - by apply (Hquiet (mkMuxer (Some c) (audio_config m) (pat_cc m) (pmt_cc m) (video_cc m) (audio_cc m) (wrote_tables m))).
  - destruct (video_config m) as [c|] eqn:Ev; [|apply (Hquiet m); try done; cbn; by rewrite Ev]. clear Hquiet.
    destruct (packetize_video m (pts90 ms) (Some (pts90 (presentation_ms ms ct))) (access_unit sps pps nalu_iterator c k n) Hm)
      as (m1 & E & Hm1 & Hw & Hcv & Hca & Hvc & Hac). destruct (IH m1 Hm1) as (pkts & m' & Er & S).
    do 2 eexists. split.
    { cbn [mux_run mux_step push_video]. rewrite Ev, E, Er, <-concat_app. reflexivity. }
    apply (sent_step m m1 ps); [unfold our_pid; tauto|apply Hm|apply pes_not_nil|done|done|]. left.
    split_and!; try done; [|by rewrite Hca]. cbn [video_frames]. rewrite Hcv, Ev. reflexivity.
  - by apply (Hquiet m).
  - by apply (Hquiet (mkMuxer (video_config m) (Some c) (pat_cc m) (pmt_cc m) (video_cc m) (audio_cc m) (wrote_tables m))).
  - destruct (audio_config m) as [c|] eqn:Ea; [|apply (Hquiet m); try done; cbn; by rewrite Ea]. clear Hquiet.
    destruct (packetize_audio m (pts90 ms) None (generate_adts_header c (length d) ++ d) Hm)
      as (m1 & E & Hm1 & Hw & Hcv & Hca & Hvc & Hac). destruct (IH m1 Hm1) as (pkts & m' & Er & S).
    do 2 eexists. split.
    { cbn [mux_run mux_step push_audio]. rewrite Ea, E, Er, <-concat_app. reflexivity. }
    apply (sent_step m m1 ps); [unfold our_pid; tauto|apply Hm|apply pes_not_nil|done|done|]. right.
    split_and!; try done; [|by rewrite Hcv]. cbn [audio_frames]. rewrite Hca, Ea. reflexivity.
Qed.
End runs.

Lemma muxer_new_ok {A B} : muxer_ok (muxer_new (AvcConfig := A) (AudioConfig := B)).
Proof. split_and!; done. Qed.

Lemma muxed_packets pkts : Forall muxed pkts → Forall is_packet pkts
  ∧ Forall (λ p, is_packet p ∧ nth 0 p x00 = TS_SYNC ∧ pcr (ts_timing p) = None) pkts.
Proof.
  intros H. split; (eapply Forall_impl; [exact H|]); intros p (pid & c & s & chunk & _ & [? ? ? ? ? ? ?]); done.
Qed.

(** ** Theorems *)

Section theorems.
Context {AvcConfig AudioConfig : Type} (sps pps : AvcConfig → list bytes) (nalu_iterator : AvcConfig → bytes → list bytes)
  (generate_adts_header : AudioConfig → nat → bytes).

(** C23: What the receiver's own readers find in a remuxed RTMP stream is what the publisher sent.  For
    every sequence of calls the output is a sequence of aligned packets; cut by PID and by start
    flags, the units of the video PID are PES packets that the keyframe detector's reader opens to
    exactly the access units of the frames that had a configuration, in order, with their presentation
    and decoding times modulo 2^33; the units of the audio PID hold exactly the ADTS frames with their
    times; and each PID's continuity counter runs from zero without a gap. *)
Theorem rtmp_remux_lossless (ps : list (Push (AvcConfig := AvcConfig) (AudioConfig := AudioConfig))) :
  let out := (mux_run sps pps nalu_iterator generate_adts_header muxer_new ps).1 in
  let pkts := chunks_exact TS_PACKET_LEN out in
  let video := units None (track VIDEO_PID pkts) in
  let audio := units None (track AUDIO_PID pkts) in
  let vf := video_frames sps pps nalu_iterator None ps in
  let af := audio_frames generate_adts_header None ps in
  concat pkts = out ∧ Forall (λ p, is_packet p ∧ nth 0 p x00 = TS_SYNC) pkts
  ∧ map video_pes_elementary_payload video = map (λ f, Some f.2) vf
  ∧ map pes_times video = map (λ f, (f.1.2 `mod` 2 ^ 33, f.1.1 `mod` 2 ^ 33)%N) vf
  ∧ map (drop 14) audio = map snd af ∧ map pes_times audio = map (λ f, (f.1 `mod` 2 ^ 33, f.1 `mod` 2 ^ 33)%N) af
  ∧ counters_from 0 (track VIDEO_PID pkts) ∧ counters_from 0 (track AUDIO_PID pkts).
Proof.
  cbv zeta. destruct (run_sent sps pps nalu_iterator generate_adts_header ps muxer_new muxer_new_ok) as (pkts & m' & -> & S).
  cbn [fst]. destruct (muxed_packets pkts (sent_muxed _ _ _ _ _ _ _ S)) as [Hp Hq]. rewrite chunks_of_packets by done.
  destruct S as [_ S2 S3 _ _ S6 S7 _]. rewrite S2, S3. split; [reflexivity|].
  split; [eapply Forall_impl; [exact Hq|]; intros ? (H1 & H2 & _); exact (conj H1 H2)|].
  rewrite !map_map. split_and!; [| | | |exact S6|exact S7]; apply map_ext.
  - intros f. exact (proj1 (video_pes_read f.1.1 f.1.2 f.2)).
  - intros f. exact (proj2 (video_pes_read f.1.1 f.1.2 f.2)).
  - intros f. exact (proj1 (audio_pes_read f.1 f.2)).
  - intros f. exact (proj2 (audio_pes_read f.1 f.2)).
Qed.

(** The tables a remuxed stream opens with are the ones the receiver needs: whenever anything is sent,
    the first two packets are an association and a program map that the strict parser accepts, and
    from them the track selection decides for the H.264 stream and the AAC track of the muxer. *)
Theorem rtmp_tables_accepted (ps : list (Push (AvcConfig := AvcConfig) (AudioConfig := AudioConfig))) :
  let out := (mux_run sps pps nalu_iterator generate_adts_header muxer_new ps).1 in
  out ≠ [] →
  ∃ pat pmt rest l, chunks_exact TS_PACKET_LEN out = pat :: pmt :: rest
    ∧ as_layout (audio_observe (audio_observe selection_default pat).2 pmt).2 = LayoutSupported l
    ∧ tl_pmt_pid l = PMT_PID ∧ tl_video_pid l = VIDEO_PID ∧ tl_video_type l = 0x1b%N
    ∧ tl_audio l = Some (mkSelectedAudio AUDIO_PID AdtsAac) ∧ tl_pcr_pid l = VIDEO_PID
    ∧ Forall (λ p, ts_pid p = VIDEO_PID ∨ ts_pid p = AUDIO_PID) rest.
Proof.
  cbv zeta. destruct (run_sent sps pps nalu_iterator generate_adts_header ps muxer_new muxer_new_ok) as (pkts & m' & -> & S).
  cbn [fst]. destruct (muxed_packets pkts (sent_muxed _ _ _ _ _ _ _ S)) as [Hp _]. rewrite chunks_of_packets by done.
  intros Hne. destruct (sent_tables _ _ _ _ _ _ _ S) as [->|(rest & -> & Hr)]; [done|].
  exists (ts_packet PAT_PID 0 true pat_section), (ts_packet PMT_PID 0 true pmt_section), rest.
  eexists. split; [reflexivity|]. split; [vm_compute; reflexivity|]. done.
Qed.

(** No packet of a remuxed stream carries the clock that its program map announces on the video PID, and
    the tables are never repeated. *)
Lemma rtmp_stream_without_clock (ps : list (Push (AvcConfig := AvcConfig) (AudioConfig := AudioConfig))) :
  let pkts := chunks_exact TS_PACKET_LEN (mux_run sps pps nalu_iterator generate_adts_header muxer_new ps).1 in
  Forall (λ p, pcr (ts_timing p) = None) pkts
  ∧ Forall (λ p, ts_pid p = VIDEO_PID ∨ ts_pid p = AUDIO_PID) (drop 2 pkts).
Proof.
  cbv zeta. destruct (run_sent sps pps nalu_iterator generate_adts_header ps muxer_new muxer_new_ok) as (pkts & m' & -> & S).
  cbn [fst]. destruct (muxed_packets pkts (sent_muxed _ _ _ _ _ _ _ S)) as [Hp Hq]. rewrite chunks_of_packets by done.
  split; [eapply Forall_impl; [exact Hq|]; by intros ? (_ & _ & ?)|].
  destruct (sent_tables _ _ _ _ _ _ _ S) as [->|(rest & -> & Hr)]; [constructor|done].
Qed.
End theorems.

(** *** Witness *)

(** A keyframe and an AAC frame, with the crate's helpers replaced by simple ones. *)
Definition demo_push : list (Push (AvcConfig := bytes) (AudioConfig := unit)) :=
  [PushVideo (VideoHeader (bs "sps")) 0; PushAudio (AudioHeader tt) 0;
   PushVideo (VideoFrame true 20 (bs "slice")) 40; PushAudio (AudioFrame (bs "aac")) 42].

Lemma rtmp_tables_accepted_witness :
  let out := (mux_run (λ c, [c]) (λ _, [bs "pps"]) (λ _ n, [n]) (λ _ n, replicate 7 (N_byte (N.of_nat n))) muxer_new demo_push).1 in
  ∃ pat pmt rest l, chunks_exact TS_PACKET_LEN out = pat :: pmt :: rest
    ∧ as_layout (audio_observe (audio_observe selection_default pat).2 pmt).2 = LayoutSupported l
    ∧ tl_pmt_pid l = PMT_PID ∧ tl_video_pid l = VIDEO_PID ∧ tl_video_type l = 0x1b%N
    ∧ tl_audio l = Some (mkSelectedAudio AUDIO_PID AdtsAac) ∧ tl_pcr_pid l = VIDEO_PID
    ∧ Forall (λ p, ts_pid p = VIDEO_PID ∨ ts_pid p = AUDIO_PID) rest.
Proof.
  apply (rtmp_tables_accepted (λ c, [c]) (λ _, [bs "pps"]) (λ _ n, [n]) (λ _ n, replicate 7 (N_byte (N.of_nat n))) demo_push).
  vm_compute. discriminate.
Defined.

(** A whole small stream: the tables and one packet of each track. *)
Lemma rtmp_demo :
  let out := (mux_run (λ c, [c]) (λ _, [bs "pps"]) (λ _ n, [n]) (λ _ n, replicate 7 (N_byte (N.of_nat n))) muxer_new demo_push).1 in
  map ts_pid (chunks_exact TS_PACKET_LEN out) = [PAT_PID; PMT_PID; VIDEO_PID; AUDIO_PID].
Proof. vm_compute. reflexivity. Qed.
