(* ===== verification/Selectors.v ===== *)
(** * How a caller names content

    The pure parsing in front of the engine: [ace-engine/src/routes.rs] (the compatible HTTP routes),
    [magnet.rs] (magnet links to infohashes) and [transport_url.rs] (descriptor addresses as ids).  A
    [&str] is its UTF-8 bytes.  The [hex] and [base64ct] crates are interfaces with the laws they
    document. *)

From S2P Require Import Prelude Order Bytes Text Wire Net Metainfo WarmPeers VodRange Resolve.

(** ** Magnet links *)

Definition is_ascii_hexdigit (b : byte) : bool := is_ascii_digit b || in_range b 65 70 || in_range b 97 102.
Definition to_ascii_lowercase (b : byte) : byte := if in_range b 65 90 then N_byte (byte_N b + 32) else b.
Definition to_ascii_uppercase (b : byte) : byte := if in_range b 97 122 then N_byte (byte_N b - 32) else b.

Definition ALPHABET : bytes := bs "ABCDEFGHIJKLMNOPQRSTUVWXYZ234567".

(** [ALPHABET.iter().position(..)] of the upper-case character. *)
Definition base32_value (c : byte) : option N := N.of_nat <$> position (to_ascii_uppercase c) ALPHABET.

(** The loop over the characters; [buffer] is a [u16] whose high bits a shift discards. *)
Fixpoint base32_loop (s : bytes) (buffer bits : N) (out : bytes) : option bytes :=
  match s with
  | [] => Some out
  | c :: s =>
      val ← base32_value c;
      let buffer := N.lor (N.shiftl buffer 5 `mod` two16) val in
      let bits := (bits + 5)%N in
      if (8 <=? bits)%N then base32_loop s buffer (bits - 8) (out ++ [N_byte (N.shiftr buffer (bits - 8))])
      else base32_loop s buffer bits out
  end.

Definition base32_decode (s : bytes) : option bytes :=
  if negb (bool_decide (length s = 32)) then None
  else out ← base32_loop s 0 0 []; if bool_decide (length out = 20) then Some out else None.

Section magnet.
Context `{Hex}.

Definition normalize_btih (hash : bytes) : result string bytes :=
  if bool_decide (length hash = 40) && forallb is_ascii_hexdigit hash then Ok (map to_ascii_lowercase hash)
  else
    match (if bool_decide (length hash = 32) then base32_decode hash else None) with
    | Some infohash => Ok (infohash_hex hex_encode infohash)
    | None => Err "unsupported btih info-hash encoding"
    end.

(** The first [xt] parameter that is a [urn:btih:] name decides. *)
Fixpoint magnet_loop (params : list bytes) : result string bytes :=
  match params with
  | [] => Err "magnet has no supported urn:btih: info-hash"
  | p :: params =>
      match split_once "="%byte p with
      | Some (key, value) =>
          if bool_decide (key = bs "xt") then
            match strip_prefix (bs "urn:btih:") value with
            | Some hash => normalize_btih hash
            | None => magnet_loop params
            end
          else magnet_loop params
      | None => magnet_loop params
      end
  end.

Definition parse_magnet_infohash (magnet : bytes) : result string bytes :=
  let m := trim magnet in
  let query := match strip_prefix (bs "magnet:?") m with
               | Some q => q
               | None => default m (strip_prefix (bs "magnet:") m)
               end in
  magnet_loop (split_on "&"%byte query).
End magnet.

(** ** Descriptor addresses *)

(** What the code uses of [base64ct::Base64UrlUnpadded]. *)
Class Base64Url : Type := {
  b64_encode_string : bytes → bytes;
  b64_decode_vec : bytes → option bytes;
}.

Definition is_b64url_char (b : byte) : bool :=
  is_ascii_digit b || in_range b 65 90 || in_range b 97 122 || bool_decide (b = "-"%byte) || bool_decide (b = "_"%byte).

Class Base64UrlLaws `{Base64Url} : Prop := {
  b64_decode_encode l : b64_decode_vec (b64_encode_string l) = Some l;
  b64_encode_chars l : forallb is_b64url_char (b64_encode_string l) = true;
}.

Definition TURL_PREFIX : bytes := bs "turl-".

Definition encode_transport_url `{Base64Url} (url : bytes) : result string bytes :=
  let url := trim url in
  if negb (starts_with url (bs "http://") || starts_with url (bs "https://")) then Err "transport url must be http or https"
  else Ok (TURL_PREFIX ++ b64_encode_string url).

Definition decode_transport_url `{Base64Url} (id : bytes) : option bytes :=
  b64 ← strip_prefix TURL_PREFIX id;
  bytes ← b64_decode_vec b64;
  if utf8_valid bytes then Some bytes else None.

(** ** Routes *)

Inductive ContentSelector : Type :=
  | ContentId (v : bytes)
  | Infohash (v : bytes)
  | Id (v : bytes)
  | Missing.

Inductive Route : Type :=
  | GetStream (selector : ContentSelector)
  | Manifest (selector : ContentSelector)
  | Segment (session : bytes) (seq : N)
  | Stat (infohash token : bytes)
  | Command (infohash token method : bytes)
  | ServerApi
  | NotFound.

Definition query_pairs (query : bytes) : list (bytes * bytes) :=
  map (λ kv, default (kv, []) (split_once "="%byte kv))
    (List.filter (λ s, negb (bool_decide (s = []))) (split_on "&"%byte query)).

(** The value of the first pair with the key. *)
Definition query_get (pairs : list (bytes * bytes)) (k : bytes) : option bytes :=
  snd <$> List.find (λ kv, bool_decide (kv.1 = k)) pairs.

Definition selector_from (query : bytes) : ContentSelector :=
  let pairs := query_pairs query in
  match query_get pairs (bs "content_id") with
  | Some v => ContentId v
  | None => match query_get pairs (bs "infohash") with
            | Some v => Infohash v
            | None => match query_get pairs (bs "id") with Some v => Id v | None => Missing end
            end
  end.

(** [trim_start_matches('/')] and [trim_end_matches(".ts")]. *)
Fixpoint trim_slashes (l : bytes) : bytes :=
  match l with b :: r => if bool_decide (b = "/"%byte) then trim_slashes r else l | [] => [] end.

Fixpoint trim_ts (fuel : nat) (l : bytes) : bytes :=
  match fuel with
  | 0 => l
  | S fuel => if ends_with l (bs ".ts") then trim_ts fuel (take (length l - 3) l) else l
  end.

Definition route_parse (method path query : bytes) : Route :=
  if negb (bool_decide (method = bs "GET")) then NotFound
  else if bool_decide (path = bs "/ace/getstream") then GetStream (selector_from query)
  else if bool_decide (path = bs "/ace/manifest.m3u8") then Manifest (selector_from query)
  else if bool_decide (path = bs "/server/api") then ServerApi
  else
    match split_on "/"%byte (trim_slashes path) with
    | [a; k; x; y] =>
        if bool_decide (a = bs "ace") then
          if bool_decide (k = bs "c") && ends_with y (bs ".ts") then
            match parse_u64 (trim_ts (length y) y) with Some n => Segment x n | None => NotFound end
          else if bool_decide (k = bs "stat") then Stat x y
          else if bool_decide (k = bs "cmd") then Command x y (default [] (query_get (query_pairs query) (bs "method")))
          else NotFound
        else NotFound
    | _ => NotFound
    end.

(** ** Base 32 *)

(** The number a text of base-32 digits stands for. *)
Definition value32 (s : bytes) : option N :=
  foldl (λ acc c, n ← acc; v ← base32_value c; Some (32 * n + v)%N) (Some 0%N) s.

Lemma base32_value_lt c v : base32_value c = Some v → (v < 32)%N.
Proof.
  unfold base32_value. intros (i & Hi & ->)%fmap_Some. apply position_Some in Hi as (l1 & l2 & E & <- & _).
  apply (f_equal length) in E. rewrite length_app in E. cbn in E. lia.
Qed.

Lemma value32_cons n c s : foldl (λ acc c, n ← acc; v ← base32_value c; Some (32 * n + v)%N) (Some n) (c :: s) =
  (v ← base32_value c; foldl (λ acc c, n ← acc; v ← base32_value c; Some (32 * n + v)%N) (Some (32 * n + v)%N) s).
Proof.
  cbn [foldl mbind option_bind]. destruct (base32_value c) as [v|]; [reflexivity|]. cbn [mbind option_bind].
  induction s as [|x s IH]; [reflexivity|]. exact IH.
Qed.

Lemma be_bytes_snoc n x : be_bytes (S n) x = be_bytes n (x / 256)%N ++ [N_byte x].
Proof.
  assert (∀ a b : bytes, length a = length b → be_N a = be_N b → a = b) as Hinj by apply be_N_inj.
  apply Hinj; [rewrite length_app, !be_bytes_length; cbn; lia|].
  unfold be_N at 2. rewrite foldl_app. cbn [foldl]. fold (be_N (be_bytes n (x / 256))). rewrite !be_N_be_bytes_mod, N_byte_mod.
  rewrite Nat2N.inj_succ, N.pow_succ_r', N.Div0.mod_mul_r by (done || apply N.pow_nonzero; done). lia.
Qed.

Lemma lor_low x d : (d < 32)%N → N.lor (32 * x) d = (32 * x + d)%N.
Proof.
  intros Hd. assert (N.land (N.shiftl x 5) d = 0)%N as Hl.
  { apply N.bits_inj. intros i. rewrite N.land_spec, N.bits_0. destruct (N.ltb_spec i 5) as [Hi|Hi].
    - by rewrite N.shiftl_spec_low.
    - rewrite andb_comm. rewrite N.bits_above_log2; [done|]. destruct (decide (d = 0%N)) as [->|]; [cbn; lia|].
      apply N.log2_lt_pow2; [lia|]. eapply N.lt_le_trans; [exact Hd|]. change 32%N with (2 ^ 5)%N. apply N.pow_le_mono_r; lia. }
  rewrite (N.mul_comm 32). change 32%N with (2 ^ 5)%N. rewrite <-N.shiftl_mul_pow2.
  rewrite <-N.lxor_lor by done. symmetry. by apply N.add_nocarry_lxor.
Qed.

(** The buffer is the low 16 bits of the number read so far. *)
Lemma buffer_step v d : (d < 32)%N →
  N.lor (N.shiftl (v `mod` two16) 5 `mod` two16) d = ((32 * v + d) `mod` two16)%N.
Proof.
  intros Hd. rewrite N.shiftl_mul_pow2. change (2 ^ 5)%N with 32%N. rewrite N.Div0.mul_mod_idemp_l.
  assert ((v * 32) `mod` two16 = 32 * (v `mod` 2048))%N as ->
    by (rewrite N.mul_comm; change two16 with (32 * 2048)%N; by rewrite N.Div0.mul_mod_distr_l by done).
  rewrite lor_low by done. symmetry. change two16 with (32 * 2048)%N. rewrite N.Div0.mod_mul_r by done.
  assert ((32 * v + d) `mod` 32 = d)%N as -> by (symmetry; apply (N.mod_unique _ _ v); lia).
  assert ((32 * v + d) / 32 = v)%N as -> by (symmetry; apply (N.div_unique _ _ _ d); lia). lia.
Qed.

(** The byte that is pushed is a byte of the number. *)
Lemma pushed_byte v k : (k ≤ 8)%N → N_byte (N.shiftr (v `mod` two16) k) = N_byte (v / 2 ^ k)%N.
Proof.
  intros Hk. rewrite N.shiftr_div_pow2. apply (inj byte_N). rewrite !N_byte_mod.
  assert (2 ^ k ≠ 0)%N as Hz by (apply N.pow_nonzero; done).
  assert (two16 = 2 ^ k * (256 * 2 ^ (8 - k)))%N as ->.
  { change 256%N with (2 ^ 8)%N. rewrite <-!N.pow_add_r. replace (k + (8 + (8 - k)))%N with 16%N by lia. done. }
  rewrite N.Div0.mod_mul_r. rewrite (N.mul_comm (2 ^ k)), N.div_add by done.
  rewrite (N.div_small (v `mod` 2 ^ k)) by (by apply N.mod_lt). rewrite N.add_0_l, N.Div0.mod_mul_r.
  rewrite (N.mul_comm 256), N.Div0.mod_add. by rewrite N.Div0.mod_mod.
Qed.

(** After the characters of a number [v], the buffer holds its low 16 bits and the output all whole bytes. *)
Lemma base32_loop_spec s : ∀ v n bits, (bits < 8)%N →
  base32_loop s (v `mod` two16) bits (be_bytes n (v / 2 ^ bits)) =
  (λ w, be_bytes (n + N.to_nat ((bits + 5 * lenN s) / 8)) (w / 2 ^ ((bits + 5 * lenN s) `mod` 8))) <$>
    foldl (λ acc c, n ← acc; v ← base32_value c; Some (32 * n + v)%N) (Some v) s.
Proof.
  induction s as [|c s IH]; intros v n bits Hb.
  { cbn -[N.div N.modulo be_bytes N.pow]. rewrite N.add_0_r, (N.mod_small bits), (N.div_small bits) by done. do 2 f_equal. lia. }
  rewrite value32_cons. cbn [base32_loop]. destruct (base32_value c) as [d|] eqn:Ed; [|done]. cbn [mbind option_bind].
  apply base32_value_lt in Ed. rewrite buffer_step by done. set (v' := (32 * v + d)%N).
  assert (v' / 2 ^ (bits + 5) = v / 2 ^ bits)%N as Hv.
  { rewrite N.add_comm, N.pow_add_r, <-N.Div0.div_div. f_equal. symmetry. by apply (N.div_unique _ _ _ d). }
  cbv zeta. destruct (N.leb_spec 8 (bits + 5)) as [H8|H8].
  - assert (be_bytes n (v / 2 ^ bits) ++ [N_byte (N.shiftr (v' `mod` two16) (bits + 5 - 8))] =
      be_bytes (S n) (v' / 2 ^ (bits + 5 - 8)))%N as ->.
    { rewrite pushed_byte, be_bytes_snoc by lia. do 2 f_equal. rewrite <-Hv, N.Div0.div_div. change 256%N with (2 ^ 8)%N.
      rewrite <-N.pow_add_r. do 2 f_equal. lia. }
    rewrite IH by lia. unfold lenN. cbn [length].
    assert (bits + 5 * N.of_nat (S (length s)) = (bits + 5 - 8 + 5 * N.of_nat (length s)) + 1 * 8)%N as -> by lia.
    rewrite N.Div0.mod_add, N.div_add by done.
    replace (n + N.to_nat ((bits + 5 - 8 + 5 * N.of_nat (length s)) / 8 + 1)) with
      (S n + N.to_nat ((bits + 5 - 8 + 5 * N.of_nat (length s)) / 8)) by lia. done.
  - rewrite <-Hv, IH by lia. unfold lenN. cbn [length].
    by assert (bits + 5 * N.of_nat (S (length s)) = bits + 5 + 5 * N.of_nat (length s))%N as -> by lia.
Qed.

(** The decoder computes the number of its digits. *)
Lemma base32_decode_spec s : base32_decode s =
  if bool_decide (length s = 32) then be_bytes 20 <$> value32 s else None.
Proof.
  unfold base32_decode. case_bool_decide as Hl; [|done]. cbn [negb].
  pose proof (base32_loop_spec s 0 0 0 ltac:(done)) as E. change (0 `mod` two16)%N with 0%N in E. cbn [be_bytes] in E. rewrite E.
  unfold lenN. rewrite Hl. change ((0 + 5 * N.of_nat 32) / 8)%N with 20%N. change ((0 + 5 * N.of_nat 32) `mod` 8)%N with 0%N.
  fold (value32 s). destruct (value32 s) as [w|]; [|done]. cbn [fmap option_fmap option_map mbind option_bind].
  change (2 ^ 0)%N with 1%N. rewrite N.div_1_r. change (0 + N.to_nat 20) with 20. by rewrite bool_decide_true by apply be_bytes_length.
Qed.

(** ** Lemmas *)

Lemma split_once_app sep a b : sep ∉ a → split_once sep (a ++ sep :: b) = Some (a, b).
Proof.
  intros Hs. unfold split_once. rewrite position_app by done. cbn [mbind option_bind].
  rewrite take_app_length. do 2 f_equal. rewrite (cons_middle sep a b), app_assoc. apply drop_app_length'. rewrite length_app. cbn. lia.
Qed.

Lemma split_once_Some sep l a b : split_once sep l = Some (a, b) → l = a ++ sep :: b ∧ sep ∉ a.
Proof.
  unfold split_once. intros (i & Hi & [= <- <-])%bind_Some. apply position_Some in Hi as (l1 & l2 & -> & <- & Hn).
  rewrite take_app_length. split; [|done]. f_equal. f_equal.
  rewrite (cons_middle sep l1 l2), app_assoc. symmetry. apply drop_app_length'. rewrite length_app. cbn. lia.
Qed.

Lemma strip_prefix_app {A} `{EqDecision A} (p l : list A) : strip_prefix p (p ++ l) = Some l.
Proof. unfold strip_prefix. rewrite starts_with_app. by rewrite drop_app_length. Qed.

Lemma strip_prefix_Some {A} `{EqDecision A} (p l r : list A) : strip_prefix p l = Some r → l = p ++ r.
Proof.
  unfold strip_prefix. destruct (starts_with l p) eqn:E; [|done]. apply starts_with_true in E as [x ->]. rewrite drop_app_length. by intros [= ->].
Qed.

Section magnet_lemmas.
Context `{HexLaws}.

Lemma hexdigit_lower b : is_ascii_hexdigit b = true → is_hex_char (to_ascii_lowercase b) = true.
Proof. by destruct b. Qed.

Lemma normalize_canonical hash id : normalize_btih hash = Ok id → length id = 40 ∧ forallb is_hex_char id = true.
Proof.
  unfold normalize_btih. destruct (_ && _) eqn:E.
  - intros [= <-]. apply andb_true_iff in E as [Hl%bool_decide_eq_true Hf]. rewrite length_map. split; [done|].
    rewrite forallb_forall in *. intros x Hx. apply in_map_iff in Hx as (b & <- & Hb). by apply hexdigit_lower, Hf.
  - clear E. case_bool_decide; [|done]. rewrite base32_decode_spec. rewrite bool_decide_true by done.
    destruct (value32 hash) as [w|]; [|done]. cbn [fmap option_fmap option_map].
    pose proof (be_bytes_length 20 w) as Hw. generalize dependent (be_bytes 20 w). intros h Hh [= <-]. unfold infohash_hex.
    rewrite hex_encode_length, Hh. split; [done|apply hex_encode_chars].
Qed.

Lemma magnet_loop_canonical ps id : magnet_loop ps = Ok id → length id = 40 ∧ forallb is_hex_char id = true.
Proof.
  induction ps as [|p ps IH]; cbn [magnet_loop]; [done|]. destruct (split_once _ p) as [[k v]|]; [|exact IH].
  case_bool_decide; [|exact IH]. destruct (strip_prefix _ v); [apply normalize_canonical|exact IH].
Qed.

Lemma value32_chars s v : value32 s = Some v → "&"%byte ∉ s.
Proof.
  unfold value32. generalize 0%N. induction s as [|c s IH]; intros n Hv; [set_solver|].
  rewrite value32_cons in Hv. apply bind_Some in Hv as (d & Hd & Hv). intros [<-|Hin]%elem_of_cons; [done|].
  by eapply IH.
Qed.

Lemma hexdigits_chars s : forallb is_ascii_hexdigit s = true → "&"%byte ∉ s.
Proof. rewrite forallb_forall. intros Hf Hin. apply list_elem_of_In, Hf in Hin. done. Qed.

(** A name of the hash: in base 32, or in hexadecimal of either case. *)
Definition names (h s : bytes) : Prop :=
  length s = 32 ∧ value32 s = Some (be_N h)
  ∨ length s = 40 ∧ forallb is_ascii_hexdigit s = true ∧ map to_ascii_lowercase s = hex_encode h.

Lemma normalize_names h s : length h = 20 → names h s → normalize_btih s = Ok (hex_encode h) ∧ "&"%byte ∉ s.
Proof.
  intros Hh [[Hl Hv]|(Hl & Hf & Hm)]; unfold normalize_btih.
  - split; [|by eapply value32_chars]. rewrite (bool_decide_false (length s = 40)) by lia. cbn [andb].
    rewrite bool_decide_true, base32_decode_spec, bool_decide_true, Hv by done. cbn [fmap option_fmap option_map].
    unfold infohash_hex. by rewrite be_bytes_be_N'.
  - split; [|by apply hexdigits_chars]. rewrite bool_decide_true, Hf by done. cbn [andb]. by rewrite Hm.
Qed.

Lemma magnet_loop_skips pre ps : Forall (λ p, starts_with p (bs "xt=urn:btih:") = false) pre →
  magnet_loop (pre ++ ps) = magnet_loop ps.
Proof.
  induction 1 as [|p pre Hp _ IH]; [done|]. cbn [app magnet_loop]. destruct (split_once _ p) as [[k v]|] eqn:E; [|done].
  case_bool_decide as Hk; [|done]. destruct (strip_prefix _ v) as [r|] eqn:Er; [|done]. exfalso.
  apply split_once_Some in E as [-> _]. apply strip_prefix_Some in Er as ->. subst k.
  change (bs "xt" ++ "="%byte :: bs "urn:btih:" ++ r) with (bs "xt=urn:btih:" ++ r) in Hp. by rewrite starts_with_app in Hp.
Qed.
End magnet_lemmas.

(** ** Printed routes *)

Definition selector_query (s : ContentSelector) : bytes :=
  match s with
  | ContentId v => bs "content_id=" ++ v
  | Infohash v => bs "infohash=" ++ v
  | Id v => bs "id=" ++ v
  | Missing => []
  end.

Definition route_text (r : Route) : bytes * bytes :=
  match r with
  | GetStream s => (bs "/ace/getstream", selector_query s)
  | Manifest s => (bs "/ace/manifest.m3u8", selector_query s)
  | Segment session seq => (bs "/ace/c/" ++ session ++ "/"%byte :: dec_N seq ++ bs ".ts", [])
  | Stat ih token => (bs "/ace/stat/" ++ ih ++ "/"%byte :: token, [])
  | Command ih token method => (bs "/ace/cmd/" ++ ih ++ "/"%byte :: token, bs "method=" ++ method)
  | ServerApi => (bs "/server/api", [])
  | NotFound => (bs "/", [])
  end.

Definition selector_ok (s : ContentSelector) : Prop :=
  match s with ContentId v | Infohash v | Id v => "&"%byte ∉ v | Missing => True end.

(** The parts stay inside their place: no separators. *)
Definition route_ok (r : Route) : Prop :=
  match r with
  | GetStream s | Manifest s => selector_ok s
  | Segment session seq => "/"%byte ∉ session ∧ (seq < two64)%N
  | Stat ih token => "/"%byte ∉ ih ∧ "/"%byte ∉ token
  | Command ih token method => "/"%byte ∉ ih ∧ "/"%byte ∉ token ∧ "&"%byte ∉ method
  | ServerApi | NotFound => True
  end.

Lemma query_one k v : bool_decide (k ≠ [] ∧ "&"%byte ∉ k ∧ "="%byte ∉ k) = true → "&"%byte ∉ v →
  query_pairs (k ++ "="%byte :: v) = [(k, v)].
Proof.
  intros (Hk & Ha & He)%bool_decide_eq_true Hv. unfold query_pairs. rewrite split_on_field.
  2:{ rewrite not_elem_of_app, not_elem_of_cons. done. }
  cbn [List.filter]. rewrite bool_decide_false by (destruct k; done). cbn [negb map]. by rewrite split_once_app.
Qed.

Lemma selector_printed s : selector_ok s → selector_from (selector_query s) = s.
Proof.
  intros Hs. unfold selector_from. destruct s as [v|v|v|]; cbn [selector_query selector_ok] in *.
  - change (bs "content_id=" ++ v) with (bs "content_id" ++ "="%byte :: v). by rewrite query_one.
  - change (bs "infohash=" ++ v) with (bs "infohash" ++ "="%byte :: v). by rewrite query_one.
  - change (bs "id=" ++ v) with (bs "id" ++ "="%byte :: v). by rewrite query_one.
  - done.
Qed.

Lemma ends_with_app l p : ends_with (l ++ p) p = true.
Proof.
  unfold ends_with. rewrite length_app. rewrite bool_decide_true by lia. cbn [andb].
  replace (length l + length p - length p) with (length l) by lia. by rewrite drop_app_length, bool_decide_true.
Qed.

Lemma trim_ts_number n fuel : 0 < fuel → trim_ts fuel (dec_N n ++ bs ".ts") = dec_N n.
Proof.
  intros Hf. destruct fuel as [|fuel]; [lia|]. cbn [trim_ts]. rewrite ends_with_app, length_app.
  replace (length (dec_N n) + length (bs ".ts") - 3) with (length (dec_N n)) by (cbn; lia). rewrite take_app_length.
  destruct fuel as [|fuel]; [done|]. cbn [trim_ts]. destruct (ends_with (dec_N n) (bs ".ts")) eqn:E; [|done]. exfalso.
  apply andb_true_iff in E as [_ Hd%bool_decide_eq_true]. assert ("."%byte ∈ dec_N n) as Hin.
  { rewrite <-(take_drop (length (dec_N n) - length (bs ".ts")) (dec_N n)), Hd. apply elem_of_app. right. cbn. set_solver. }
  by eapply dec_N_no_delim in Hin.
Qed.

(** A path of four parts after the leading slash. *)
Lemma path_parts k x y : bool_decide ("/"%byte ∉ k) = true → "/"%byte ∉ x → "/"%byte ∉ y →
  split_on "/"%byte (trim_slashes (bs "/ace/" ++ k ++ "/"%byte :: x ++ "/"%byte :: y)) = [bs "ace"; k; x; y].
Proof.
  intros Hk%bool_decide_eq_true Hx Hy.
  change (trim_slashes _) with (bs "ace" ++ "/"%byte :: k ++ "/"%byte :: x ++ "/"%byte :: y).
  rewrite split_on_app by exact (proj1 (bool_decide_eq_true ("/"%byte ∉ bs "ace")) eq_refl). rewrite !split_on_app by done. by rewrite split_on_field.
Qed.

(** A path of four parts is none of the fixed paths. *)
Lemma parse_parts k x y q : bool_decide ("/"%byte ∉ k) = true → "/"%byte ∉ x → "/"%byte ∉ y →
  route_parse (bs "GET") (bs "/ace/" ++ k ++ "/"%byte :: x ++ "/"%byte :: y) q =
  if bool_decide (k = bs "c") && ends_with y (bs ".ts") then
    match parse_u64 (trim_ts (length y) y) with Some n => Segment x n | None => NotFound end
  else if bool_decide (k = bs "stat") then Stat x y
  else if bool_decide (k = bs "cmd") then Command x y (default [] (query_get (query_pairs q) (bs "method")))
  else NotFound.
Proof.
  intros Hk Hx Hy. unfold route_parse. cbn [negb]. rewrite (bool_decide_true (bs "GET" = _)) by done. cbn [negb].
  assert (∀ fixed, length (split_on "/"%byte (trim_slashes fixed)) ≠ 4 →
    bool_decide (bs "/ace/" ++ k ++ "/"%byte :: x ++ "/"%byte :: y = fixed) = false) as Hne.
  { intros fixed Hf. apply bool_decide_eq_false. intros <-. apply Hf. by rewrite path_parts. }
  rewrite !Hne by (vm_compute; lia). rewrite path_parts by done. by rewrite (bool_decide_true (bs "ace" = _)).
Qed.

Lemma segment_file_ok n : "/"%byte ∉ dec_N n ++ bs ".ts".
Proof. rewrite not_elem_of_app. split; [by apply dec_N_no_delim|]. exact (proj1 (bool_decide_eq_true ("/"%byte ∉ bs ".ts")) eq_refl). Qed.

(** ** Theorems *)

(** A magnet link names one swarm whichever encoding it uses.  When the link, trimmed, is a list of
    parameters of which the first [urn:btih:] name is the hash in base 32 or in hexadecimal of either
    case, it resolves to the lower-case hexadecimal of exactly that hash; and whatever is parsed, an
    accepted link gives forty lower-case hexadecimal digits. *)
Theorem magnet_resolves `{HexLaws} (m h s : bytes) (pre post : list bytes) :
  length h = 20 → names h s → Forall (λ p, "&"%byte ∉ p) (pre ++ post) →
  Forall (λ p, starts_with p (bs "xt=urn:btih:") = false) pre →
  trim m = bs "magnet:?" ++ join "&"%byte (pre ++ (bs "xt=urn:btih:" ++ s) :: post) →
  parse_magnet_infohash m = Ok (hex_encode h)
  ∧ ∀ m' id, parse_magnet_infohash m' = Ok id → length id = 40 ∧ forallb is_hex_char id = true.
Proof.
  intros Hh Hs [Hpre Hpost]%Forall_app Hskip Hm. split; [|intros m' id; apply magnet_loop_canonical].
  destruct (normalize_names h s Hh Hs) as [Hn Ha]. unfold parse_magnet_infohash. rewrite Hm, strip_prefix_app, split_on_join.
  - rewrite magnet_loop_skips by done. cbn [magnet_loop].
    change (bs "xt=urn:btih:" ++ s) with (bs "xt" ++ "="%byte :: bs "urn:btih:" ++ s).
    rewrite split_once_app by exact (proj1 (bool_decide_eq_true ("="%byte ∉ bs "xt")) eq_refl).
    rewrite bool_decide_true by done. by rewrite strip_prefix_app.
  - by destruct pre.
  - apply Forall_app. split; [done|]. constructor; [|done]. rewrite not_elem_of_app. split; [|done].
    exact (proj1 (bool_decide_eq_true ("&"%byte ∉ bs "xt=urn:btih:")) eq_refl).
Qed.

(** The base-32 decoder is the arithmetic one: a text of 32 characters decodes exactly when every
    character is a digit of the alphabet in either case, and then to the 20 bytes of the number the
    digits stand for; any other length is refused. *)
Theorem base32_decode_arithmetic (s : bytes) :
  base32_decode s = (if bool_decide (length s = 32) then be_bytes 20 <$> value32 s else None)
  ∧ (is_Some (value32 s) ↔ Forall (λ c, is_Some (base32_value c)) s).
Proof.
  split; [apply base32_decode_spec|]. unfold value32. generalize 0%N. induction s as [|c s IH]; intros n; [by split; [constructor|]|].
  rewrite value32_cons, Forall_cons. destruct (base32_value c) as [v|]; cbn [mbind option_bind].
  - rewrite IH. split; [intros ?; split; [eauto|done]|tauto].
  - split; [by intros []|by intros [[] _]].
Qed.

(** Every route a client can address is read back as itself from its path and query, for all parts
    without separators; other methods find nothing. *)
Theorem routes_roundtrip (r : Route) : route_ok r →
  route_parse (bs "GET") (route_text r).1 (route_text r).2 = r
  ∧ ∀ method path query, method ≠ bs "GET" → route_parse method path query = NotFound.
Proof.
  intros Hr. split; [|intros method path query Hm; unfold route_parse; by rewrite bool_decide_false].
  destruct r as [s|s|session seq|ih token|ih token method| |]; cbn [route_text route_ok fst snd] in *.
  - change (route_parse _ _ _) with (GetStream (selector_from (selector_query s))). by rewrite selector_printed.
  - change (route_parse _ _ _) with (Manifest (selector_from (selector_query s))). by rewrite selector_printed.
  - destruct Hr as [Hs Hn]. change (bs "/ace/c/" ++ ?x) with (bs "/ace/" ++ bs "c" ++ "/"%byte :: x).
    rewrite parse_parts by (done || apply segment_file_ok). rewrite (bool_decide_true (bs "c" = _)), ends_with_app by done. cbn [andb].
    rewrite trim_ts_number by (rewrite length_app; cbn; lia). by rewrite parse_u64_dec.
  - destruct Hr as [H1 H2]. change (bs "/ace/stat/" ++ ?x) with (bs "/ace/" ++ bs "stat" ++ "/"%byte :: x). by rewrite parse_parts.
  - destruct Hr as (H1 & H2 & H3). change (bs "/ace/cmd/" ++ ?x) with (bs "/ace/" ++ bs "cmd" ++ "/"%byte :: x).
    rewrite parse_parts by done. change (bs "method=" ++ method) with (bs "method" ++ "="%byte :: method). by rewrite query_one.
  - done.
  - done.
Qed.

(** A descriptor address survives its way through an id: the id of an accepted address decodes to the
    trimmed address, and the part after its prefix has only characters that are safe in a path. *)
Theorem transport_url_roundtrip `{Base64UrlLaws} (url id : bytes) : utf8_text url → encode_transport_url url = Ok id →
  decode_transport_url id = Some (trim url) ∧ ∃ part, id = TURL_PREFIX ++ part ∧ forallb is_b64url_char part = true.
Proof.
  intros Hu. unfold encode_transport_url, decode_transport_url. destruct (negb _); [done|]. intros E.
  assert (id = TURL_PREFIX ++ b64_encode_string (trim url)) as -> by congruence. split.
  - rewrite strip_prefix_app. cbn [mbind option_bind]. rewrite b64_decode_encode. cbn [mbind option_bind].
    by rewrite utf8_text_valid by (by apply trim_text).
  - eexists. split; [done|]. apply b64_encode_chars.
Qed.

(** *** Witnesses *)

(** The stand-in for the base 64 crate spells every byte with two letters. *)
Definition b64_letter (n : N) : byte := N_byte (97 + n).
Definition toy_b64 (l : bytes) : bytes := concat (map (λ b, [b64_letter (byte_N b / 16); b64_letter (byte_N b `mod` 16)]) l).
Fixpoint toy_unb64 (l : bytes) : option bytes :=
  match l with
  | [] => Some []
  | a :: b :: l => (λ r, N_byte ((byte_N a - 97) * 16 + (byte_N b - 97)) :: r) <$> toy_unb64 l
  | _ => None
  end.

Definition toy_base64 : Base64Url := {| b64_encode_string := toy_b64; b64_decode_vec := toy_unb64 |}.

Lemma toy_base64_laws : @Base64UrlLaws toy_base64.
Proof.
  split; cbn [b64_encode_string b64_decode_vec toy_base64].
  - intros l. induction l as [|b l IH]; [done|]. unfold toy_b64 in *. cbn [map concat app toy_unb64]. rewrite IH. cbn. by destruct b.
  - intros l. induction l as [|b l IH]; [done|]. unfold toy_b64 in *. cbn [map concat app forallb]. rewrite IH. by destruct b.
Qed.

Lemma transport_url_roundtrip_witness : ∃ id, @encode_transport_url toy_base64 (bs " http://a/x ") = Ok id
  ∧ @decode_transport_url toy_base64 id = Some (trim (bs " http://a/x "))
  ∧ ∃ part, id = TURL_PREFIX ++ part ∧ forallb is_b64url_char part = true.
Proof.
  eexists. split; [reflexivity|]. apply (@transport_url_roundtrip toy_base64 toy_base64_laws (bs " http://a/x ")).
  - exact (from_utf8_lossy_text (bs " http://a/x ")).
  - reflexivity.
Defined.

Lemma routes_roundtrip_witness :
  route_parse (bs "GET") (bs "/ace/c/s1/42.ts") [] = Segment (bs "s1") 42
  ∧ ∀ method path query, method ≠ bs "GET" → route_parse method path query = NotFound.
Proof.
  apply (routes_roundtrip (Segment (bs "s1") 42)). split; [apply (bool_decide_unpack _); vm_compute; exact I|reflexivity].
Defined.

Lemma magnet_resolves_witness :
  parse_magnet_infohash (bs " magnet:?dn=x&xt=urn:btih:aaaaaaaaaaaaaaaaaaaaaaaaaaaaaaab&tr=y")
    = Ok (hex_encode (replicate 19 x00 ++ [x01]))
  ∧ ∀ m' id, parse_magnet_infohash m' = Ok id → length id = 40 ∧ forallb is_hex_char id = true.
Proof.
  apply (magnet_resolves (bs " magnet:?dn=x&xt=urn:btih:aaaaaaaaaaaaaaaaaaaaaaaaaaaaaaab&tr=y") (replicate 19 x00 ++ [x01])
    (bs "aaaaaaaaaaaaaaaaaaaaaaaaaaaaaaab") [bs "dn=x"] [bs "tr=y"]).
  - reflexivity.
  - left. split; vm_compute; reflexivity.
  - repeat constructor; apply (bool_decide_unpack _); vm_compute; exact I.
  - repeat constructor.
  - vm_compute. reflexivity.
Defined.
